(* ===== verification/_CoqProject ===== *)
-Q . S2P
Prelude.v
Keys.v
Stores.v
BTree.v
LruList.v
HashTable.v
Lru.v
LruSpec.v
LruRefine.v
LruProps.v
Ttl.v
LruTtl.v
LruTtlProps.v
TtlSorted.v
TtlSortedProps.v
Unbound.v
Expiring.v
ExpiringLru.v
ExpiringLruProps.v
Cached.v
Instances.v
GetOrSet.v
Return.v
Threads.v
ThreadsProps.v
Memo.v
MemoProps.v
Once.v
OnceProps.v
Sharded.v
Shards.v
Concurrent.v
ShardOps.v
MapShards.v
ShardTtl.v
ShardAlone.v
ShardedUnbound.v
ShardedUnboundProps.v
ShardedTtl.v
ShardedTtlProps.v
LruShards.v
ShardedLru.v
ShardedLruProps.v
ShardedLruTtl.v
ShardedLruTtlProps.v
ShardExpiry.v
ShardedExpiring.v
ShardedExpiringProps.v
ShardedExpiringLru.v
ShardedExpiringLruProps.v
External.v
RedisKeys.v
Redb.v
RedbBuild.v
RedbProps.v
RedbBuildProps.v
RedbStore.v
Redis.v
RedisProps.v
RedisStore.v
RedisClear.v
RedisBuild.v
ConcurrentMemo.v
Async.v
ConcurrentMemoProps.v
AsyncProps.v
ConcurrentMemoRedis.v
ConcurrentMemoDemo.v
RedbAsync.v
MacroSyntax.v
MacroCached.v
MacroOnce.v
MacroConcurrent.v
MacroProps.v
MacroCachedProps.v
MacroStores.v
MacroConcurrentProps.v
MacroTotal.v
MacroFlag.v
MacroSharded.v
