(* ===== verification/Prelude.v ===== *)
(** * A verification of [cached]

    [cached] is a library of in-memory and external caches, with macros that turn a function into a
    memoized one.  This development translates its code into Rocq and proves what it promises.  File
    names in brackets are relative to [src/src/], or to [src/cached_proc_macro/src/] for the macros.

    ** The program

    - Single-owner stores: a struct that owns a map, behind [&mut self].  [LruCache] evicts the least
      recently used entry, [TtlCache] drops entries past a deadline, [LruTtlCache] does both over an
      inner [LruCache], [TtlSortedCache] keeps its entries sorted by deadline, [ExpiringCache] and
      [ExpiringLruCache] ask the values themselves whether they have expired, [UnboundCache] keeps
      everything.  They implement the traits [Cached], [CachedPeek], [CachedRead], [CloneCached].
    - Sharded stores: the same six kinds behind [&self], an array of shards with a lock each.  They
      implement [ConcurrentCached] and its companions.
    - External stores: the same trait over a disk database and over a redis server.
    - Macros: [#[cached]], [#[once]] and [#[concurrent_cached]] generate functions over a shared store.

    Generated functions are clients of the traits; wrapping stores are clients of [LruCache]; the sharded
    stores are arrays of the single-owner ones, or of hash maps.

    ** How the code is modelled

    A [&mut self] method is a function in the state and outcome monad [ST] of [Prelude]: it returns
    ([Done]), it panics ([Unwind], with the state it leaves behind), or a loop of the model has run out
    of fuel ([OutOfFuel], which every theorem excludes).  User code - factories, predicates, [on_evict],
    [is_expired] - and the clock are functions of an arbitrary world [W], so they may answer differently
    each time and may panic.  [wp m Q U] says that [m] ends, with [Q] or unwinding with [U].  A [&mut V]
    returned by a method is the place it points to: a slot of the slab, or a key.  64-bit counters wrap,
    checked and saturating operations are written out; instants and durations are in nanoseconds.

    A [&self] method of a concurrent store is a program ([Shards.Prog]) of lock operations, accesses to
    the data behind a lock, atomic operations and runs of user code.  Threads interleave between any two
    of them; locks do not poison; one access to an atomic is one step, sequentially consistent.  The
    function [#[concurrent_cached]] generates is such a program too; those of [#[cached]] and [#[once]]
    are programs over one locked cell ([Threads.Prog]).  A clone of a value is the value.  An async
    method is a program that leaves a program, its future, to be run when it is awaited; a future may be
    dropped instead, before it is polled.  User code that suspends is a list of stretches, with other threads
    between them.  The futures of [RedbCache] hand their work to a pool of blocking threads: they are trees
    ([RedbAsync.Task]) that may be dropped wherever they are suspended, and what is on the pool then is done
    there nevertheless.  A body of a [#[cached]] function may call the function itself: such a call is a thread,
    and the thread of the body stands still until it is over ([Threads.nested_step]).

    Not under [src/], hence parameters with laws: [hashbrown::HashTable] ([HashTable]), the hashers
    (within [KeyEq]), [redb] and its transactions, the redis client and server, glob matching,
    serialization, the environment and the file system, the builder of [r2d2] and its panics ([Redb],
    [RedbBuild], [RedisKeys], [Redis], [RedisBuild]).  Each class of laws has a concrete instance in the file of the witnesses.

    ** Files

    Shared: [Prelude] (outcomes, the monad and its program logic, simulations), [Keys] (keys up to
    [Eq], entry lists), [Stores] ([stores/mod.rs]: errors, counters, the standard [HashMap],
    [take_doomed], time), [BTree] (the standard [BTreeSet]).

    Single-owner stores: [LruList] ([lru_list.rs]), [HashTable], [Lru] ([stores/lru.rs]) with [LruSpec]
    (the abstract store, a list), [LruRefine] (every method refines it) and [LruProps]; [Ttl]
    ([stores/ttl.rs]); [LruTtl], [LruTtlProps] ([stores/lru_ttl.rs]); [TtlSorted], [TtlSortedProps]
    ([stores/ttl_sorted.rs]); [Unbound] ([stores/unbound.rs], and [HashMap] as a store); [Expiring]
    ([stores/expiring.rs]); [ExpiringLru], [ExpiringLruProps] ([stores/expiring_lru.rs]).  A definition has
    the name of its method; a builder is a record and [build] a function of it.

    Traits and generated functions: [Cached] ([lib.rs]: the traits as classes, their contract as laws),
    [Instances] and [GetOrSet] (the stores keep it, and memoizing by hand over them); [Return] (what is stored of a result, and
    [with_cached_flag]), [Threads] and [ThreadsProps] (programs over a locked cell, their interleavings
    and invariants); [Memo] ([cached.rs], [helpers.rs]) and [MemoProps], proved against the contract, so
    for every store; [Once] ([once.rs], [helpers.rs]) and [OnceProps]; [ConcurrentMemo]
    ([concurrent_cached.rs]) and [ConcurrentMemoProps], proved against an interface that
    [ConcurrentMemoProps] shows for the sharded stores and [ConcurrentMemoRedis] for the redis stores;
    [ConcurrentMemoDemo] (witnesses).

    Async methods: [Async] ([lib.rs]: [ConcurrentCachedAsync] and its companions, the set dispatch, the
    extension traits; the sharded stores' implementation, and their inherent methods); [AsyncProps]
    (programs that take the same steps, the contract proved from the synchronous one); [RedbAsync]
    (the futures of [RedbCache], awaited and dropped); those of [AsyncRedisCache] are in [ConcurrentMemoRedis].

    Macros: [MacroSyntax] ([helpers.rs]: what the macros read, over the parsers of [syn] as a class, errors
    with their spans, and the shared helpers); [MacroCached] ([cached.rs]), [MacroOnce] ([once.rs]),
    [MacroConcurrent] ([concurrent_cached.rs]): the attributes, every check in its order, the choice of the
    store, and the emitted items as a record ([CachedFn], [OnceFn], [ConcurrentFn]); [MacroProps],
    [MacroCachedProps], [MacroConcurrentProps] (what an accepted attribute list gives), [MacroTotal] (the
    macros end, and when they panic), [MacroFlag] ([with_cached_flag]); [MacroStores] and [MacroSharded]:
    the stores those records name, and the functions of [Memo] and [ConcurrentMemo] they select.

    Sharded stores: [Sharded] ([stores/sharded/mod.rs], the layout), [Shards] (programs, their
    interleavings, and a logic for them with its adequacy theorem), [Concurrent] ([lib.rs]: the traits,
    and the specification: one map whose operations are atomic), [ShardOps], [MapShards], [ShardTtl],
    [ShardAlone], [ShardExpiry], [LruShards] (what several stores share); then for each store a file with
    its code and one with its theorems: [ShardedUnbound], [ShardedTtl], [ShardedLru], [ShardedLruTtl],
    [ShardedExpiring], [ShardedExpiringLru] ([stores/sharded/*.rs]).

    External stores: [External] ([lib.rs]: the traits over calls that can fail, and specifications that
    name each atomic operation); [Redb], [RedbBuild] ([stores/redb.rs]), [RedbProps], [RedbBuildProps],
    [RedbStore]; [RedisKeys] (keys, escaping, the pattern of a clear), [Redis], [RedisBuild]
    ([stores/redis.rs]: requests, the calls of both stores, the builders), [RedisProps], [RedisStore],
    [RedisClear].

    ** What is proved

    - Refinement: a fresh store, driven by any sequence of calls with any user code, panics included,
      replies as its abstract store does ([lru_program_refines], [expiring_lru_refines],
      [unbound_is_map]); the calls of a concurrent store, in any interleaving, are the atomic operations
      of one map, end, and leave every lock free ([sharded_*_serves], [redb_serves], [redis_serves]).  The map is lossy
      for stores that evict or expire: an entry may be gone, but never wrong.
    - Invariants of the state ([slab_in_use], [sorted_calls], [expiring_counted]; while no one resizes the
      store, [sharded_lru_bounded]).
    - Each main operation on each branch, when it runs alone, errors and panics included ([ttl_get],
      [lru_set_victim], [lru_get_or_set_miss], [sorted_set], [sharded_ttl_get], [redb_get_alone], [redis_clear_alone] ...).
    - Builders: what they refuse, and that they return - but for settings of the pool that [r2d2] panics at
      ([redis_build]); and the order in which the directory and the file of [RedbCache] are checked, made private
      and opened, in the record of a build's calls ([redb_build]).
    - Redis keys of different caches never collide ([redis_key_roundtrip]), a clear matches those of its
      cache only ([redis_clear_scope]), and no call returns a value of another key ([redis_sound]).
    - Round trips ([ttl_set_get], [sharded_lru_set_get], [redb_set_get]), bounds ([shard_layout],
      [shard_capacity]), termination ([lru_no_internal_panic]).
    - Macros: from an accepted attribute list to what calls return ([cached_end_to_end],
      [concurrent_end_to_end]); what is emitted fits together ([concurrent_well_typed]), every
      accepted attribute is in a part of it that is named ([cached_attributes], [concurrent_attributes], in
      [cached_honours] and [concurrent_honours]), default keys own their data
      ([default_key_owns]), a generic parameter never gets into a static ([once_concrete]), the expansion
      ends and panics only over what it is given, never at an [unreachable!] or an [expect] of the macros
      ([macros_settle]), but no function with a raw name is expanded, which is a flaw ([raw_fn_refused]); where the flag of a hit has no [Return] to be set on ([flagged_value]).
    - Async methods: awaited, they are the synchronous calls.  Dropped before it is polled, a future has done
      nothing, but for the lookup of [async_cache_contains] over a store in memory ([sharded_async_serves],
      [redis_async_serves]); dropped later, one of [RedbCache] has done the operation it had started, to its end,
      and nothing after it ([redb_async_serves]).
    - Generated functions return only what the body returned for an equal key ([memo_sound],
      [once_sound], [concurrent_memo_sound]); alone, they do what a two-line specification says
      ([memo_alone], [once_alone], [concurrent_memo_serves]); they exclude each other where the attribute
      says so ([memo_exclusive], [once_synchronised]); they deadlock only if a body that runs under a lock of
      [sync_writes] calls the function, and a call that needs that lock then never returns ([memo_progress]);
      [#[once]] with [sync_writes] settles on one stored value ([once_settles]); a client that memoizes by hand with get-or-set, over any store, gets
      only what a factory returned for an equal key ([hand_memo_serves]).

    ** Fuel

    The walks along the slab list ([iter_from], [indices_from], [drain_loop]) have the length of the
    slab as fuel, which bounds the length of any chain of distinct cells; the loops of [check_capacity]
    and [set_max_size] the number of entries, one of which goes in each round; [retain_loop] the number of
    stamps.  That this is enough is part of the refinements, since [OutOfFuel] satisfies none of them.
    A clear of a redis cache makes at most [pages] requests in the model, and a run that needs more does
    not return; [redis_clear_alone] shows that the requests the scan still needs are enough.

    ** Not modelled

    [Debug], the [Clone] of handles (an [Arc]) and accessors to hashers (no behaviour of the caches); of the macros, the
    parsers of [syn] and [darling], the printing of the items as tokens ([quote!], [clone_cached_value]),
    the path of the crate, and the wording of errors past their first words; what an executor does with
    futures beyond running or dropping them, and, for the stores in memory and redis, dropping one after it has
    been polled; aliases ([CachedExt]); the initialisation of the static of a
    generated function. *)
From stdpp Require Export base tactics list option numbers sets.
From Stdlib Require Export ZArith Lia Permutation.
#[global] Open Scope Z_scope.

(** ** Results, machine integers *)

(** Rust's [Result]. *)
Inductive result (E A : Type) : Type :=
| Ok (a : A)
| Err (e : E).
Arguments Ok {E A} a.
Arguments Err {E A} e.

(** 64-bit [usize]/[u64] values are kept in [Z]; counters wrap as atomics do. *)
Definition usize_max : Z := 2 ^ 64 - 1.
Definition u64_wrap (x : Z) : Z := x mod 2 ^ 64.
Definition fetch_add (x n : Z) : Z := u64_wrap (x + n).
Definition checked_add (a b : Z) : option Z := if a + b <=? usize_max then Some (a + b) else None.
Definition checked_mul (a b : Z) : option Z := if a * b <=? usize_max then Some (a * b) else None.
Definition saturating_add (a b : Z) : Z := Z.min (a + b) usize_max.
Definition saturating_sub (a b : Z) : Z := Z.max (a - b) 0.
Definition saturating_mul (a b : Z) : Z := Z.min (a * b) usize_max.

(** Membership in concrete shapes of lists, by case analysis. *)
Ltac mem := repeat rewrite ?elem_of_app, ?elem_of_cons, ?list_elem_of_singleton in *; naive_solver.

(** ** Outcomes and the store monad *)

(** What a call does: it returns, it unwinds (a panic, or an [async] body dropped at
    an await point), or a loop of the model runs out of its fuel. *)
Inductive outcome (A : Type) : Type :=
| Done (a : A)
| Unwind
| OutOfFuel.
Arguments Done {A} a.
Arguments Unwind {A}.
Arguments OutOfFuel {A}.

(** A computation over a mutable state [S]; the state survives an unwind. *)
Definition ST (S A : Type) : Type := S -> outcome A * S.

(** Code supplied by the user of the library (callbacks, factories, predicates): it
    runs in the outer world [W] only, it terminates, and [None] is a panic. *)
Definition User (W A : Type) : Type := W -> option A * W.

Section Monad.
Context {S T A B : Type}.

Definition ret (a : A) : ST S A := fun s => (Done a, s).

Definition bind (m : ST S A) (k : A -> ST S B) : ST S B := fun s =>
  match m s with
  | (Done a, s') => k a s'
  | (Unwind, s') => (Unwind, s')
  | (OutOfFuel, s') => (OutOfFuel, s')
  end.

Definition gets (f : S -> A) : ST S A := fun s => (Done (f s), s).
Definition modify (f : S -> S) : ST S unit := fun s => (Done tt, f s).
Definition unwind : ST S A := fun s => (Unwind, s).
Definition of_outcome (o : outcome A) : ST S A := fun s => (o, s).

(** Run [m] on a component of the state. *)
Definition zoom (view : S -> T) (put : T -> S -> S) (m : ST T A) : ST S A := fun s =>
  let '(r, t) := m (view s) in (r, put t s).
End Monad.

Definition user {C W A} (m : User W A) : ST (C * W) A := fun s =>
  match m s.2 with
  | (Some a, w) => (Done a, (s.1, w))
  | (None, w) => (Unwind, (s.1, w))
  end.

(** Bind of plain outcomes, for the read-only code. *)
Definition obind {A B} (o : outcome A) (k : A -> outcome B) : outcome B :=
  match o with Done a => k a | Unwind => Unwind | OutOfFuel => OutOfFuel end.

(** [Option::expect] / indexing out of range. *)
Definition expect {A} (o : option A) : outcome A :=
  match o with Some a => Done a | None => Unwind end.

Declare Scope store_scope.
Delimit Scope store_scope with store.
#[global] Open Scope store_scope.
Notation "'let!' x ':=' m 'in' k" := (bind m (fun x => k))
  (at level 10, x pattern, m at level 100, k at level 200) : store_scope.
Notation "m1 ;; m2" := (bind m1 (fun _ => m2))
  (at level 100, m2 at level 200, right associativity) : store_scope.
Notation "'let?' x ':=' m 'in' k" := (obind m (fun x => k))
  (at level 10, x pattern, m at level 100, k at level 200) : store_scope.

(** Run a computation on every element, left to right. *)
Fixpoint for_each {S A} (l : list A) (body : A -> ST S unit) : ST S unit :=
  match l with
  | [] => ret tt
  | a :: l => body a ;; for_each l body
  end.

Fixpoint map_each {S A B} (l : list A) (body : A -> ST S B) : ST S (list B) :=
  match l with
  | [] => ret []
  | a :: l => let! b := body a in let! bs := map_each l body in ret (b :: bs)
  end.

Fixpoint filter_each {S A} (l : list A) (test : A -> ST S bool) : ST S (list A) :=
  match l with
  | [] => ret []
  | a :: l =>
      let! b := test a in
      let! r := filter_each l test in
      ret (if b then a :: r else r)
  end.

(** How a lock is taken. *)
Inductive Mode : Type := Shared | Exclusive.

(** ** Total-correctness triples *)

(** [wp m Q U s]: from [s], [m] either returns with [Q] or unwinds with [U]; it never
    runs out of fuel. *)
Definition wp {S A} (m : ST S A) (Q : A -> S -> Prop) (U : S -> Prop) (s : S) : Prop :=
  match m s with
  | (Done a, s') => Q a s'
  | (Unwind, s') => U s'
  | (OutOfFuel, _) => False
  end.

Section WP.
Context {S T A B : Type}.
Implicit Types (Q : A -> S -> Prop) (U : S -> Prop).

Lemma wp_ret (a : A) Q U s : Q a s -> wp (ret a) Q U s.
Proof. done. Qed.

Lemma wp_bind (m : ST S A) (k : A -> ST S B) (R : B -> S -> Prop) U s :
  wp m (fun a s' => wp (k a) R U s') U s -> wp (bind m k) R U s.
Proof. unfold wp, bind. by destruct (m s) as [[] ?]. Qed.

Lemma wp_gets (f : S -> A) Q U s : Q (f s) s -> wp (gets f) Q U s.
Proof. done. Qed.

Lemma wp_modify (f : S -> S) (R : unit -> S -> Prop) U s : R tt (f s) -> wp (modify f) R U s.
Proof. done. Qed.

Lemma wp_of_outcome (o : outcome A) a Q U s : o = Done a -> Q a s -> wp (of_outcome o) Q U s.
Proof. by intros ->. Qed.

Lemma wp_mono (m : ST S A) Q Q' U U' s :
  wp m Q U s ->
  (forall a s', Q a s' -> Q' a s') -> (forall s', U s' -> U' s') -> wp m Q' U' s.
Proof. unfold wp. destruct (m s) as [[] ?]; eauto. Qed.

Lemma wp_zoom (view : S -> T) (put : T -> S -> S) (m : ST T A) Q U s :
  wp m (fun a t => Q a (put t s)) (fun t => U (put t s)) (view s) ->
  wp (zoom view put m) Q U s.
Proof. unfold wp, zoom. by destruct (m (view s)) as [[] ?]. Qed.

Lemma wp_and (m : ST S A) Q Q' U U' s : wp m Q U s -> wp m Q' U' s ->
  wp m (fun a s' => Q a s' /\ Q' a s') (fun s' => U s' /\ U' s') s.
Proof. unfold wp. by destruct (m s) as [[] ?]. Qed.

(** A computation whose result is known, with no unwind. *)
Lemma wp_run (m : ST S A) Q U s a s' : m s = (Done a, s') -> Q a s' -> wp m Q U s.
Proof. unfold wp. by intros ->. Qed.

End WP.

Lemma wp_zoom_run {S T A} (view : S -> T) (put : T -> S -> S) (m : ST T A)
    (Q : A -> S -> Prop) U s a t :
  m (view s) = (Done a, t) -> Q a (put t s) -> wp (zoom view put m) Q U s.
Proof. intros E H. apply wp_zoom. by apply (wp_run _ _ _ _ a t). Qed.

Lemma wp_user {C W A} (m : User W A) (Q : A -> C * W -> Prop) U c w :
  (forall a w', m w = (Some a, w') -> Q a (c, w')) ->
  (forall w', m w = (None, w') -> U (c, w')) ->
  wp (user m) Q U (c, w).
Proof. intros HQ HU. unfold wp, user. simpl. destruct (m w) as [[a|] w'] eqn:E; eauto. Qed.

Ltac wp_step :=
  first
    [ apply wp_bind
    | apply wp_ret
    | apply wp_gets
    | apply wp_modify ]; simpl.
Ltac wp_steps := repeat wp_step.

(** ** Worlds

    Code that a wrapper passes down to an inner store captures the wrapper's locals; such
    code runs over a larger world [X] that contains the outer world [W]. *)
Class World (X W : Type) : Type := {
  world_of : X -> W;
  put_world : W -> X -> X }.

#[export] Instance world_id W : World W W | 10 := {| world_of := id; put_world := fun w _ => w |}.

Definition lift_user {X W A} `{!World X W} (m : User W A) : User X A := fun x =>
  let '(r, w) := m (world_of x) in (r, put_world w x).

(** ** Refinement

    [agree R RA p q]: the two runs end in related states, and either both return related
    results or both unwind; neither runs out of fuel. *)
Definition agree {S1 S2 A1 A2} (R : S1 -> S2 -> Prop) (RA : A1 -> A2 -> Prop)
    (p : outcome A1 * S1) (q : outcome A2 * S2) : Prop :=
  R p.2 q.2 /\
  match p.1, q.1 with
  | Done a1, Done a2 => RA a1 a2
  | Unwind, Unwind => True
  | _, _ => False
  end.

(** [refines R m1 m2]: from related states the implementation [m1] does what the
    specification [m2] does. *)
Definition refines {S1 S2 A} (R : S1 -> S2 -> Prop) (m1 : ST S1 A) (m2 : ST S2 A) : Prop :=
  forall s1 s2, R s1 s2 -> agree R eq (m1 s1) (m2 s2).

Section Agree.
Context {S1 S2 : Type} (R : S1 -> S2 -> Prop).

Lemma agree_ret {A1 A2} (RA : A1 -> A2 -> Prop) a1 a2 s1 s2 :
  RA a1 a2 -> R s1 s2 -> agree R RA (ret a1 s1) (ret a2 s2).
Proof. by split. Qed.

Lemma agree_done {A1 A2} (RA : A1 -> A2 -> Prop) a1 a2 s1 s2 :
  RA a1 a2 -> R s1 s2 -> agree R RA (Done a1, s1) (Done a2, s2).
Proof. by split. Qed.

Lemma agree_unwind {A1 A2} (RA : A1 -> A2 -> Prop) s1 s2 :
  R s1 s2 -> agree R RA (Unwind, s1) (Unwind, s2).
Proof. by split. Qed.

Lemma agree_bind {A1 A2 B1 B2} (RA : A1 -> A2 -> Prop) (RB : B1 -> B2 -> Prop)
    (m1 : ST S1 A1) (m2 : ST S2 A2) k1 k2 s1 s2 :
  agree R RA (m1 s1) (m2 s2) ->
  (forall a1 a2 s1' s2', m1 s1 = (Done a1, s1') -> m2 s2 = (Done a2, s2') ->
     RA a1 a2 -> R s1' s2' -> agree R RB (k1 a1 s1') (k2 a2 s2')) ->
  agree R RB (bind m1 k1 s1) (bind m2 k2 s2).
Proof.
  unfold bind. intros [H1 H2] H. destruct (m1 s1) as [[a1| |] s1'], (m2 s2) as [[a2| |] s2'];
    simpl in *; try done. by apply H.
Qed.

(** The same, with a sharper relation [R0] after the first step. *)
Lemma agree_seq {A1 A2 B1 B2} (R0 : S1 -> S2 -> Prop) (RA : A1 -> A2 -> Prop)
    (RB : B1 -> B2 -> Prop) (m1 : ST S1 A1) (m2 : ST S2 A2) k1 k2 s1 s2 :
  agree R0 RA (m1 s1) (m2 s2) ->
  (forall s1' s2', R0 s1' s2' -> R s1' s2') ->
  (forall a1 a2 s1' s2', RA a1 a2 -> R0 s1' s2' -> agree R RB (k1 a1 s1') (k2 a2 s2')) ->
  agree R RB (bind m1 k1 s1) (bind m2 k2 s2).
Proof.
  unfold bind. intros [H1 H2] H0 H. destruct (m1 s1) as [[a1| |] s1'], (m2 s2) as [[a2| |] s2'];
    simpl in *; try done; [by apply H|by split; [apply H0|]].
Qed.

Lemma refines_bind {A B} (m1 : ST S1 A) (m2 : ST S2 A) (k1 : A -> ST S1 B) k2 :
  refines R m1 m2 -> (forall a, refines R (k1 a) (k2 a)) -> refines R (bind m1 k1) (bind m2 k2).
Proof.
  intros H1 H2 s1 s2 HR. eapply agree_bind; [by apply H1|].
  intros a1 a2 s1' s2' _ _ -> HR'. by apply H2.
Qed.

Lemma refines_ret {A} (a : A) : refines R (ret a) (ret a).
Proof. intros s1 s2 H. by apply agree_ret. Qed.

Lemma refines_for_each {A} (l : list A) b1 b2 :
  (forall a, refines R (b1 a) (b2 a)) -> refines R (for_each l b1) (for_each l b2).
Proof.
  intros H. induction l as [|a l IH]; simpl; [apply refines_ret|].
  apply refines_bind; [apply H|]. by intros _.
Qed.
End Agree.

Lemma agree_weaken {S1 S2 A} (R R' : S1 -> S2 -> Prop) (p : outcome A * S1) (q : outcome A * S2) :
  (forall s1 s2, R s1 s2 -> R' s1 s2) -> agree R eq p q -> agree R' eq p q.
Proof. intros HR [H1 H2]. split; auto. Qed.

(** The general form: related results and states on return, related states on unwind. *)
Definition simulates {S1 S2 A1 A2} (Q : A1 -> S1 -> A2 -> S2 -> Prop) (U : S1 -> S2 -> Prop)
    (p : outcome A1 * S1) (q : outcome A2 * S2) : Prop :=
  match p, q with
  | (Done a1, s1), (Done a2, s2) => Q a1 s1 a2 s2
  | (Unwind, s1), (Unwind, s2) => U s1 s2
  | _, _ => False
  end.

Section Simulates.
Context {S1 S2 A1 A2 : Type}.

Lemma agree_simulates (R : S1 -> S2 -> Prop) (RA : A1 -> A2 -> Prop) p q :
  agree R RA p q <-> simulates (fun a1 s1 a2 s2 => R s1 s2 /\ RA a1 a2) R p q.
Proof. destruct p as [[] ?], q as [[] ?]; unfold agree; simpl; tauto. Qed.

Lemma simulates_mono (Q Q' : A1 -> S1 -> A2 -> S2 -> Prop) (U U' : S1 -> S2 -> Prop) p q :
  (forall a1 s1 a2 s2, Q a1 s1 a2 s2 -> Q' a1 s1 a2 s2) -> (forall s1 s2, U s1 s2 -> U' s1 s2) ->
  simulates Q U p q -> simulates Q' U' p q.
Proof. intros HQ HU. destruct p as [[] ?], q as [[] ?]; simpl; auto. Qed.

Lemma simulates_bind {B1 B2} (Q : A1 -> S1 -> A2 -> S2 -> Prop) (U : S1 -> S2 -> Prop)
    (Q' : B1 -> S1 -> B2 -> S2 -> Prop) (m1 : ST S1 A1) (m2 : ST S2 A2) k1 k2 s1 s2 :
  simulates Q U (m1 s1) (m2 s2) ->
  (forall a1 s1' a2 s2', Q a1 s1' a2 s2' -> simulates Q' U (k1 a1 s1') (k2 a2 s2')) ->
  simulates Q' U (bind m1 k1 s1) (bind m2 k2 s2).
Proof.
  unfold bind. intros H1 H2. destruct (m1 s1) as [[] ?], (m2 s2) as [[] ?]; simpl in *; try done; auto.
Qed.
End Simulates.

Lemma simulates_wp {S1 S2 A1 A2} (R : A1 -> S1 -> A2 -> S2 -> Prop) (RU : S1 -> S2 -> Prop) (m1 : ST S1 A1) (m2 : ST S2 A2)
    (Q : A2 -> S2 -> Prop) (U : S2 -> Prop) s1 s2 :
  simulates R RU (m1 s1) (m2 s2) -> wp m2 Q U s2 ->
  wp m1 (fun r s => exists r' s', R r s r' s' /\ Q r' s') (fun s => exists s', RU s s' /\ U s') s1.
Proof.
  unfold wp, simulates. destruct (m1 s1) as [[] ?], (m2 s2) as [[] ?]; simpl; intros; try done; eauto.
Qed.

(** What the specification guarantees, the implementation guarantees. *)
Lemma agree_wp {S1 S2 A} (R : S1 -> S2 -> Prop) (m1 : ST S1 A) (m2 : ST S2 A)
    (Q : A -> S2 -> Prop) (U : S2 -> Prop) s1 s2 :
  agree R eq (m1 s1) (m2 s2) -> wp m2 Q U s2 ->
  wp m1 (fun r s => exists s', R s s' /\ Q r s') (fun s => exists s', R s s' /\ U s') s1.
Proof.
  unfold agree, wp. destruct (m1 s1) as [[] ?], (m2 s2) as [[] ?]; simpl; intros [HR HA] H; try done.
  - subst. eauto.
  - eauto.
Qed.

(** Evaluate the head of a sequence whose run is known. *)
Lemma bind_run {S A B} (m : ST S A) (k : A -> ST S B) s a s' :
  m s = (Done a, s') -> bind m k s = k a s'.
Proof. unfold bind. by intros ->. Qed.

Lemma bind_ret {S A B} (a : A) (k : A -> ST S B) s : bind (ret a) k s = k a s.
Proof. done. Qed.

Lemma bind_of_outcome {S A B} (o : outcome A) a (k : A -> ST S B) s :
  o = Done a -> bind (of_outcome o) k s = k a s.
Proof. by intros ->. Qed.

Lemma bind_zoom_run {S T A B} (view : S -> T) (put : T -> S -> S) (m : ST T A)
    (k : A -> ST S B) s a t :
  m (view s) = (Done a, t) -> bind (zoom view put m) k s = k a (put t s).
Proof. unfold bind, zoom. by intros ->. Qed.

Lemma bind_assoc {S A B C} (m : ST S A) (k : A -> ST S B) (k' : B -> ST S C) s :
  bind (bind m k) k' s = bind m (fun a => bind (k a) k') s.
Proof. unfold bind. by destruct (m s) as [[] ?]. Qed.

Lemma bind_ext {S A B} (m : ST S A) (k k' : A -> ST S B) s :
  (forall a s', k a s' = k' a s') -> bind m k s = bind m k' s.
Proof. intros H. unfold bind. destruct (m s) as [[] ?]; [apply H|done..]. Qed.

(** User code runs alike over related states that share the world. *)
Lemma agree_user {C1 C2 X A} (R : C1 * X -> C2 * X -> Prop) (m : User X A) c1 c2 x :
  (forall x', R (c1, x') (c2, x')) -> agree R eq (user m (c1, x)) (user m (c2, x)).
Proof. intros H. unfold user. simpl. destruct (m x) as [[a|] x']; (split; [apply H|done]). Qed.

(** ** Invariants kept by every step

    User code that does not panic. *)
Definition total {X A} (m : User X A) : Prop := forall x, exists a x', m x = (Some a, x').

(** A value user code may produce. *)
Definition may_return {W A} (m : User W A) (a : A) : Prop := exists w w', m w = (Some a, w').

Lemma total_lift {X W A} `{!World X W} (m : User W A) : total m -> total (lift_user (X := X) m).
Proof.
  intros H x. destruct (H (world_of x)) as (r & w' & E). exists r, (put_world w' x).
  unfold lift_user. by rewrite E.
Qed.

Lemma total_pure {X A} (a : A) : total (fun x : X => (Some a, x)).
Proof. intros x. eauto. Qed.

(** [keeps I P m]: [m] keeps [I] whether it returns or unwinds, it unwinds only if [P], and it
    does not run out of fuel.  With [P := False] this is the absence of panics. *)
Definition keeps {S A} (I : S -> Prop) (P : Prop) (m : ST S A) : Prop :=
  forall s, I s -> wp m (fun _ s' => I s') (fun s' => P /\ I s') s.

Section Keeps.
Context {S : Type} (I : S -> Prop) (P : Prop).

Lemma keeps_ret {A} (a : A) : keeps I P (ret a).
Proof. by intros s H. Qed.

Lemma keeps_bind {A B} (m : ST S A) (k : A -> ST S B) :
  keeps I P m -> (forall a, keeps I P (k a)) -> keeps I P (bind m k).
Proof.
  intros Hm Hk s H. apply wp_bind. eapply wp_mono; [by apply Hm| |done].
  intros a s' H'. by apply Hk.
Qed.

(** After a read of the state, what was read may be used. *)
Lemma keeps_gets {A B} (f : S -> A) (k : A -> ST S B) :
  (forall s, I s -> wp (k (f s)) (fun _ s' => I s') (fun s' => P /\ I s') s) ->
  keeps I P (bind (gets f) k).
Proof. intros H s HI. by apply H. Qed.

Lemma keeps_modify (f : S -> S) : (forall s, I s -> I (f s)) -> keeps I P (modify f).
Proof. intros H s HI. by apply wp_modify, H. Qed.

Lemma keeps_for_each {A} (l : list A) f : (forall a, keeps I P (f a)) -> keeps I P (for_each l f).
Proof.
  intros H. induction l; simpl; [apply keeps_ret|]. by apply keeps_bind; [|intros _].
Qed.

Lemma keeps_map_each {A B} (l : list A) (f : A -> ST S B) :
  (forall a, keeps I P (f a)) -> keeps I P (map_each l f).
Proof.
  intros H. induction l; simpl; [apply keeps_ret|]. apply keeps_bind; [done|intros b].
  apply keeps_bind; [done|]. intros bs. apply keeps_ret.
Qed.

(** What a filter returns is a part of the list, in order. *)
Lemma keeps_filter_sub {A} (l : list A) f s : (forall a, keeps I P (f a)) -> I s ->
  wp (filter_each l f) (fun r s' => I s' /\ sublist r l) (fun s' => P /\ I s') s.
Proof.
  intros H. revert s. induction l as [|a l IH]; intros s Hs; simpl; [by apply wp_ret|].
  apply wp_bind. eapply wp_mono; [by apply H| |done]. intros b s1 H1. apply wp_bind.
  eapply wp_mono; [by apply IH| |done]. intros r s2 [H2 Hr]. apply wp_ret.
  split; [done|]. destruct b; by constructor.
Qed.

Lemma keeps_filter_each {A} (l : list A) f : (forall a, keeps I P (f a)) -> keeps I P (filter_each l f).
Proof.
  intros H. induction l; simpl; [apply keeps_ret|]. apply keeps_bind; [done|intros b].
  apply keeps_bind; [done|]. intros bs. apply keeps_ret.
Qed.
End Keeps.

Lemma keeps_user {C X A} (I : C -> Prop) (P : Prop) (m : User X A) :
  P \/ total m -> keeps (fun s : C * X => I s.1) P (user m).
Proof.
  intros H [c x] HI. apply wp_user; [done|]. intros x' E. destruct H as [H|H]; [done|].
  destruct (H x) as (a & x2 & E'). congruence.
Qed.

(** ** Programs: calls one after the other

    A panic is caught and the next call goes on with the state as the panic left it. *)
Fixpoint runs {S Q R} (step : Q -> ST S R) (qs : list Q) (s : S) : list (outcome R) * S :=
  match qs with
  | [] => ([], s)
  | q :: qs =>
      let '(r, s) := step q s in
      let '(rs, s) := runs step qs s in
      (r :: rs, s)
  end.

(** Calls that refine their specification make programs that do. *)
Lemma runs_refine {S1 S2 Q R} (Rel : S1 -> S2 -> Prop) (step1 : Q -> ST S1 R) (step2 : Q -> ST S2 R) qs s1 s2 :
  (forall q, refines Rel (step1 q) (step2 q)) -> Rel s1 s2 ->
  (runs step1 qs s1).1 = (runs step2 qs s2).1 /\ OutOfFuel ∉ (runs step1 qs s1).1 /\
  Rel (runs step1 qs s1).2 (runs step2 qs s2).2.
Proof.
  intros H. revert s1 s2. induction qs as [|q qs IH]; intros s1 s2 HR; simpl; [split_and!; [done|set_solver|done]|].
  destruct (H q s1 s2 HR) as [HR' Hr].
  destruct (step1 q s1) as [r1 s1'], (step2 q s2) as [r2 s2']. simpl in HR', Hr.
  destruct (IH s1' s2' HR') as (E1 & E2 & E3).
  destruct (runs step1 qs s1') as [rs1 t1], (runs step2 qs s2') as [rs2 t2]. simpl in *.
  subst rs2. destruct r1, r2; try done; simplify_eq; (split_and!; [done| |done]);
    by apply not_elem_of_cons.
Qed.

(** Calls that keep an invariant, and unwind only if [P], make programs that do. *)
Lemma runs_keep {S Q R} (I : S -> Prop) (P : Prop) (ok : Q -> Prop) (step : Q -> ST S R) qs s :
  (forall q s, ok q -> I s -> wp (step q) (fun _ s' => I s') (fun s' => P /\ I s') s) ->
  I s -> Forall ok qs ->
  Forall (fun o => (exists r, o = Done r) \/ (o = Unwind /\ P)) (runs step qs s).1 /\ I (runs step qs s).2.
Proof.
  intros Hs HI H. revert s HI. induction H as [|q qs Hq H IH]; intros s HI; simpl; [done|].
  pose proof (Hs q s Hq HI) as Hw. unfold wp in Hw. destruct (step q s) as [o s'].
  assert (I s') as HI' by (destruct o; [done|by destruct Hw|done]).
  destruct (IH s' HI') as [IH1 IH2]. destruct (runs step qs s') as [rs t]. simpl in *.
  split; [|done]. constructor; [|done]. destruct o as [r| |]; [left; by exists r|right; tauto|done].
Qed.
