(* ===== verification/Keys.v ===== *)
(** * Keys and keyed entry lists

    The stores look keys up with the key type's own [Eq] and [Hash].  [Eq] may identify
    keys that differ in other fields, so it is a boolean equivalence [keq], in general
    coarser than equality; which of several [keq]-equal keys a store keeps is observable
    and is part of what the stores' theorems say. *)
From S2P Require Import Prelude.

(** [K: Hash + Eq], hashed with the store's [BuildHasher]. *)
Class KeyEq (K : Type) : Type := {
  keq : K -> K -> bool;
  khash : K -> Z }.

(** The documented contract of [Eq] and [Hash]. *)
Class KeyLaws (K : Type) `{!KeyEq K} : Prop := {
  keq_refl : forall a, keq a a = true;
  keq_sym : forall a b, keq a b = true -> keq b a = true;
  keq_trans : forall a b c, keq a b = true -> keq b c = true -> keq a c = true;
  keq_hash : forall a b, keq a b = true -> khash a = khash b }.

(** Equal keys are interchangeable in a lookup. *)
Lemma keq_cong {K} `{!KeyEq K, !KeyLaws K} (a b c : K) : keq a b = true -> keq a c = keq b c.
Proof.
  intros H. destruct (keq a c) eqn:E1, (keq b c) eqn:E2; try done.
  - rewrite <- E2. symmetry. eapply keq_trans; [by apply keq_sym|done].
  - rewrite <- E1. by eapply keq_trans.
Qed.

Lemma keq_cong_false {K} `{!KeyEq K, !KeyLaws K} (a b c : K) :
  keq a b = true -> keq b c = false -> keq a c = false.
Proof. intros H1 H2. by rewrite (keq_cong a b c). Qed.

Lemma keq_comm {K} `{!KeyEq K, !KeyLaws K} (a b : K) : keq a b = keq b a.
Proof. destruct (keq a b) eqn:E1, (keq b a) eqn:E2; try done; apply keq_sym in E1 || apply keq_sym in E2; congruence. Qed.

Section Entries.
Context {K V : Type} `{!KeyEq K}.
Implicit Types (k : K) (e : K * V) (l : list (K * V)).

(** The first entry whose key equals [k], and the list without it. *)
Fixpoint take_key k l : option ((K * V) * list (K * V)) :=
  match l with
  | [] => None
  | e :: l =>
      if keq k e.1 then Some (e, l)
      else match take_key k l with
           | Some (x, r) => Some (x, e :: r)
           | None => None
           end
  end.

Definition find_key k l : option (K * V) := fst <$> take_key k l.
Definition drop_key k l : list (K * V) :=
  match take_key k l with Some (_, r) => r | None => l end.

(** No two entries have equal keys. *)
Fixpoint distinct l : Prop :=
  match l with
  | [] => True
  | e :: l => Forall (fun e' => keq e.1 e'.1 = false) l /\ distinct l
  end.

(** No entry has a key equal to [k]. *)
Definition fresh k l : Prop := Forall (fun e => keq k e.1 = false) l.

Lemma take_key_Some k l e r : take_key k l = Some (e, r) ->
  exists xs ys, l = xs ++ e :: ys /\ r = xs ++ ys /\ keq k e.1 = true /\ fresh k xs.
Proof.
  revert e r. induction l as [|a l IH]; intros e r; simpl; [done|].
  destruct (keq k a.1) eqn:E.
  - intros [= -> ->]. exists [], r. split_and!; try done. constructor.
  - destruct (take_key k l) as [[x r']|]; [|done]. intros [= -> <-].
    destruct (IH e r' eq_refl) as (xs & ys & -> & -> & H1 & H2).
    exists (a :: xs), ys. split_and!; try done. by constructor.
Qed.

Lemma take_key_None k l : take_key k l = None <-> fresh k l.
Proof.
  induction l as [|a l IH]; simpl; [split; [constructor|done]|].
  unfold fresh. rewrite Forall_cons. destruct (keq k a.1) eqn:E; [naive_solver|].
  destruct (take_key k l) as [[]|]; naive_solver.
Qed.

Lemma take_key_app k xs e ys : fresh k xs -> keq k e.1 = true ->
  take_key k (xs ++ e :: ys) = Some (e, xs ++ ys).
Proof.
  intros H E. induction H as [|a xs Ha H IH]; simpl; [by rewrite E|]. by rewrite Ha, IH.
Qed.

Lemma fresh_app k xs ys : fresh k (xs ++ ys) <-> fresh k xs /\ fresh k ys.
Proof. unfold fresh. apply Forall_app. Qed.

Lemma distinct_app xs ys : distinct (xs ++ ys) <->
  distinct xs /\ distinct ys /\ Forall (fun e => fresh e.1 ys) xs.
Proof.
  induction xs as [|e xs IH]; simpl.
  - intuition.
  - unfold fresh in *. rewrite Forall_app, IH, Forall_cons. tauto.
Qed.

Context `{!KeyLaws K}.

Lemma fresh_cong k k' l : keq k k' = true -> fresh k l -> fresh k' l.
Proof. intros E F. eapply Forall_impl; [exact F|]. intros e He. apply keq_sym in E. by eapply keq_cong_false. Qed.

(** In a list of distinct keys the entry found is the only match. *)
Lemma distinct_mid xs e ys : distinct (xs ++ e :: ys) ->
  distinct (xs ++ ys) /\ fresh e.1 (xs ++ ys).
Proof.
  rewrite !distinct_app, fresh_app. simpl. unfold fresh. rewrite !Forall_forall.
  intros (H1 & (H2 & H3) & H4). split_and!; try done.
  - intros x Hx. specialize (H4 _ Hx). rewrite Forall_cons in H4. tauto.
  - intros x Hx. specialize (H4 _ Hx). rewrite Forall_cons in H4. rewrite keq_comm. tauto.
Qed.

Lemma distinct_insert xs e ys : distinct (xs ++ ys) -> fresh e.1 (xs ++ ys) ->
  distinct (xs ++ e :: ys).
Proof.
  rewrite !distinct_app, fresh_app. simpl. unfold fresh. rewrite !Forall_forall.
  intros (H1 & H2 & H3) [H4 H5]. split_and!; try done.
  - intros x Hx. specialize (H3 _ Hx). constructor; [|done]. rewrite keq_comm. auto.
Qed.

Lemma distinct_cons e l : distinct (e :: l) <-> fresh e.1 l /\ distinct l.
Proof. done. Qed.

#[export] Instance distinct_perm : Proper ((≡ₚ) ==> iff) distinct.
Proof.
  assert (forall l l', l ≡ₚ l' -> distinct l -> distinct l') as H.
  { intros l l' P. induction P as [|x l l' P IH|x y l|l1 l2 l3 P1 IH1 P2 IH2]; simpl; auto.
    - intros [H1 H2]. split; [by rewrite <- P|auto].
    - rewrite !Forall_cons. rewrite (keq_comm x.1). tauto. }
  intros l l' P. split; apply H; [done|by symmetry].
Qed.

#[export] Instance fresh_perm k : Proper ((≡ₚ) ==> iff) (fresh k).
Proof. intros l l' P. unfold fresh. by rewrite P. Qed.

Lemma take_key_distinct k l e r : distinct l -> take_key k l = Some (e, r) ->
  keq k e.1 = true /\ l ≡ₚ e :: r /\ distinct r /\ fresh k r /\ length l = S (length r).
Proof.
  intros D E. destruct (take_key_Some _ _ _ _ E) as (xs & ys & -> & -> & H1 & H2).
  apply distinct_mid in D as [D F]. split_and!; try done.
  - by rewrite <- Permutation_middle.
  - eapply fresh_cong; [by apply keq_sym|done].
  - rewrite !length_app. simpl. lia.
Qed.

(** Looking up an equal key gives the same answer. *)
Lemma take_key_cong k k' l : keq k k' = true -> take_key k l = take_key k' l.
Proof. intros E. induction l as [|e l IH]; simpl; [done|]. by rewrite (keq_cong k k'), IH. Qed.

Lemma distinct_find l e : distinct l -> e ∈ l -> find_key e.1 l = Some e.
Proof.
  intros D Hin. apply list_elem_of_split in Hin as (xs & ys & ->).
  unfold find_key. rewrite take_key_app; [done| |apply keq_refl].
  apply distinct_mid in D as [_ F]. by apply fresh_app in F as [F _].
Qed.

Lemma find_key_None k l : find_key k l = None <-> fresh k l.
Proof. unfold find_key. rewrite <- take_key_None. destruct (take_key k l); naive_solver. Qed.

Lemma find_key_Some k l e : find_key k l = Some e -> e ∈ l /\ keq k e.1 = true.
Proof.
  unfold find_key. destruct (take_key k l) as [[x r]|] eqn:E; [|done]. intros [= ->].
  apply take_key_Some in E as (xs & ys & -> & _ & H & _). split; [|done]. mem.
Qed.

(** A lookup only depends on the set of entries. *)
Lemma find_key_perm k l l' : l ≡ₚ l' -> distinct l -> find_key k l = find_key k l'.
Proof.
  intros P D. assert (distinct l') as D' by by rewrite <- P.
  destruct (find_key k l) as [e|] eqn:E.
  - apply find_key_Some in E as [Hin Hk]. symmetry. unfold find_key.
    rewrite (take_key_cong _ _ _ Hk). apply distinct_find; [done|]. by rewrite <- P.
  - symmetry. apply find_key_None. apply find_key_None in E. by rewrite <- P.
Qed.

(** Lookups after a change of the list. *)
Lemma find_key_cons k e l : find_key k (e :: l) = if keq k e.1 then Some e else find_key k l.
Proof. unfold find_key. simpl. destruct (keq k e.1); [done|]. by destruct (take_key k l) as [[]|]. Qed.

Lemma find_key_drop k k' l : distinct l ->
  find_key k' (drop_key k l) = if keq k k' then None else find_key k' l.
Proof.
  intros D. unfold drop_key. destruct (take_key k l) as [[e r]|] eqn:E.
  - destruct (take_key_distinct _ _ _ _ D E) as (H1 & P & D' & F & _).
    rewrite (find_key_perm k' l (e :: r)), find_key_cons by done.
    destruct (keq k k') eqn:E1.
    + apply find_key_None. by eapply fresh_cong.
    + destruct (keq k' e.1) eqn:E2; [|done].
      rewrite (keq_trans k e.1 k') in E1; [done|done|by apply keq_sym].
  - destruct (keq k k') eqn:E1; [|done]. apply find_key_None. apply take_key_None in E.
    by eapply fresh_cong.
Qed.

Lemma drop_key_mid xs e ys : distinct (xs ++ e :: ys) -> drop_key e.1 (xs ++ e :: ys) = xs ++ ys.
Proof.
  intros D. apply distinct_mid in D as [_ F]. apply fresh_app in F as [F _].
  unfold drop_key. by rewrite take_key_app by (done || apply keq_refl).
Qed.

Lemma find_key_cong k k' l : keq k k' = true -> find_key k l = find_key k' l.
Proof. intros E. unfold find_key. by rewrite (take_key_cong k k'). Qed.

(** Counting: a list whose keys all occur in another is no longer than it, and if it is
    not shorter either then every key of the other occurs in it. *)
Lemma keys_incl l l' : distinct l -> distinct l' ->
  (forall e, e ∈ l -> find_key e.1 l' <> None) ->
  (length l <= length l')%nat /\
  ((length l' <= length l)%nat -> forall e', e' ∈ l' -> find_key e'.1 l <> None).
Proof.
  revert l'. induction l as [|e l IH]; intros l' D D' H.
  { split; [simpl; lia|]. destruct l'; simpl; [|lia]. by intros _ e' He%elem_of_nil. }
  destruct D as [F D]. destruct (take_key e.1 l') as [[d r]|] eqn:Et.
  2:{ exfalso. apply (H e); [by left|]. unfold find_key. by rewrite Et. }
  destruct (take_key_distinct _ _ _ _ D' Et) as (Hd & P & Dr & Fr & El).
  destruct (IH r D Dr) as [H1 H2].
  { intros e' He' Hn. apply (H e'); [by right|].
    rewrite (find_key_perm e'.1 l' (d :: r)), find_key_cons by done.
    rewrite Forall_forall in F. specialize (F _ He').
    rewrite keq_comm, <- (keq_cong e.1 d.1), F by done. done. }
  simpl. split; [lia|]. intros Hl e' He'. rewrite P in He'. rewrite find_key_cons.
  apply elem_of_cons in He' as [->|He']; [rewrite keq_comm, Hd; done|].
  destruct (keq e'.1 e.1); [done|]. apply H2; [lia|done].
Qed.
End Entries.


(** ** A concrete key type

    Keys that carry a tag [Eq] and [Hash] ignore. *)
Module TaggedKey.
Record t : Type := mk { id : Z; tag : Z }.

#[global] Instance eq : KeyEq t := {| keq := fun a b => id a =? id b; khash := id |}.

#[global] Instance laws : KeyLaws t.
Proof. split; unfold keq, khash; simpl; intros; lia. Qed.
End TaggedKey.
