(* ===== verification/Stores.v ===== *)
(** * Parts shared by the stores ([src/stores/mod.rs])

    Builder and setter errors, the striped counter, [CacheValue], the model of the
    standard [HashMap], the two-phase sweep [take_doomed], and time. *)
From Stdlib Require Import String.
From S2P Require Import Prelude Keys.

(** ** Errors *)

Inductive BuildError : Type :=
| MissingRequired (field : string)
| InvalidValue (field reason : string).

Inductive SetMaxSizeError : Type := ZeroMaxSize | CapacityOverflow.

Inductive SetTtlError : Type := ZeroTtl.

Open Scope string_scope.

Definition BuildError_fmt (e : BuildError) : string :=
  match e with
  | MissingRequired field => "required field `" ++ field ++ "` was not set"
  | InvalidValue field reason => "invalid value for field `" ++ field ++ "`: " ++ reason
  end.

Definition SetMaxSizeError_fmt (e : SetMaxSizeError) : string :=
  match e with
  | ZeroMaxSize => "max_size must be greater than zero"
  | CapacityOverflow =>
      "max_size is too large to divide across the shard count without overflowing usize"
  end.

Definition SetTtlError_fmt (e : SetTtlError) : string :=
  match e with ZeroTtl => "ttl must be greater than zero" end.

Close Scope string_scope.

(** ** The striped counter *)

Module StripedCounter.

Definition STRIPE_COUNT : nat := 16.

(** The slots; a [u64] each. *)
Definition t : Type := list Z.

Definition new : t := replicate STRIPE_COUNT 0.

(** The slot of a thread: the [n]-th thread to ask gets slot [n mod STRIPE_COUNT]. *)
Definition thread_stripe (n : nat) : nat := n mod STRIPE_COUNT.

(** [slots[i].fetch_add(1)], unwinding out of range. *)
Definition bump (i : nat) (c : t) : outcome t :=
  if decide (i < length c)%nat then Done (alter (fun x => fetch_add x 1) i c) else Unwind.

(** By the [thread]-th thread to use a striped counter. *)
Definition increment (thread : nat) (c : t) : outcome t := bump (thread_stripe thread) c.
Definition increment_mut (c : t) : outcome t := bump 0 c.

Definition load (c : t) : Z := foldr (fun x acc => fetch_add x acc) 0 c.

Definition reset (c : t) : t := (fun _ => 0) <$> c.

Definition snapshot (c : t) : t := alter (fun _ => load c) 0%nat new.

Definition wf (c : t) : Prop := length c = STRIPE_COUNT.

Lemma load_range c : 0 <= load c < 2 ^ 64.
Proof. destruct c; simpl; [lia|]. apply Z.mod_pos_bound. lia. Qed.

Lemma load_alter i c : (i < length c)%nat ->
  load (alter (fun x => fetch_add x 1) i c) = fetch_add (load c) 1.
Proof.
  revert i. induction c as [|x c IH]; simpl; intros i Hi; [lia|]. destruct i as [|i]; simpl.
  - unfold fetch_add, u64_wrap. rewrite !Zplus_mod_idemp_l. f_equal. lia.
  - change (fetch_add x (load (alter (fun x => fetch_add x 1) i c)) = fetch_add (fetch_add x (load c)) 1).
    rewrite IH by lia. unfold fetch_add, u64_wrap. rewrite Zplus_mod_idemp_r, Zplus_mod_idemp_l. f_equal. lia.
Qed.

Lemma increment_run thread c : wf c ->
  exists c', increment thread c = Done c' /\ wf c' /\ load c' = fetch_add (load c) 1.
Proof.
  intros H. unfold increment, bump. pose proof (Nat.mod_upper_bound thread STRIPE_COUNT ltac:(done)).
  rewrite decide_True by (rewrite H; unfold thread_stripe; lia).
  eexists. split; [done|]. split; [etransitivity; [apply length_alter|done]|].
  apply load_alter. rewrite H. unfold thread_stripe. lia.
Qed.

Lemma increment_mut_run c : wf c ->
  exists c', increment_mut c = Done c' /\ wf c' /\ load c' = fetch_add (load c) 1.
Proof.
  intros H. unfold increment_mut, bump. rewrite decide_True by (rewrite H; unfold STRIPE_COUNT; lia).
  eexists. split; [done|]. split; [etransitivity; [apply length_alter|done]|].
  apply load_alter. rewrite H. unfold STRIPE_COUNT. lia.
Qed.

Lemma wf_reset (c : t) : wf c -> wf (reset c).
Proof. intros H. unfold wf, reset. by rewrite length_fmap. Qed.

Lemma load_zeros (c : t) : load (reset c) = 0.
Proof. unfold reset. induction c as [|x c IH]; [done|].
  change (fetch_add 0 (load ((fun _ : Z => 0) <$> c)) = 0). by rewrite IH. Qed.

Lemma load_snapshot c : load (snapshot c) = load c /\ wf (snapshot c).
Proof.
  split; [|done]. unfold snapshot, new. pose proof (load_range c).
  simpl. change (fetch_add (load c) 0 = load c).
  unfold fetch_add, u64_wrap. rewrite Z.mod_small; lia.
Qed.
End StripedCounter.

(** [Option<OnEvict<K, V>>] *)
Definition OnEvict (K V W : Type) : Type := option (K -> V -> User W unit).

(** ** Cached values with metadata *)

Record CacheValue (V M : Type) : Type := mkCacheValue { cv_value : V; cv_meta : M }.
Arguments mkCacheValue {V M} _ _.
Arguments cv_value {V M} _.
Arguments cv_meta {V M} _.

(** [IntoValues::into_values] on the two shapes. *)
Definition into_values {V M} (l : list (CacheValue V M)) : list V := cv_value <$> l.
Definition into_values_keyed {K V M} (l : list (K * CacheValue V M)) : list V :=
  (fun e => cv_value e.2) <$> l.

(** ** Metrics *)

Record CacheMetrics : Type := mkMetrics {
  m_hits : option Z; m_misses : option Z; m_evictions : option Z;
  m_entry_count : option Z; m_capacity : option Z }.

(** ** The standard [HashMap]

    A map is the list of its entries in iteration order.  [insert] on a present key keeps
    the stored key and the entry's place; where a new entry lands in the iteration order is
    unspecified by the library, and the model appends it. *)
Section HashMap.
Context {K V : Type} `{!KeyEq K}.
Implicit Types (k : K) (v : V) (m : list (K * V)).

(** [OccupiedEntry::insert]: the value is replaced, the stored key kept. *)
Fixpoint hm_update k v m : list (K * V) :=
  match m with
  | [] => []
  | e :: m => if keq k e.1 then (e.1, v) :: m else e :: hm_update k v m
  end.

Definition hm_insert k v m : option V * list (K * V) :=
  match find_key k m with
  | Some e => (Some e.2, hm_update k v m)
  | None => (None, m ++ [(k, v)])
  end.

(** [extract_if] driven by recorded decisions: what it yields, and what stays. *)
Fixpoint hm_extract (flags : list bool) m : list (K * V) * list (K * V) :=
  match m with
  | [] => ([], [])
  | e :: m =>
      let '(out, rest) := hm_extract (tail flags) m in
      if hd false flags then (e :: out, rest) else (out, e :: rest)
  end.
End HashMap.

Section TakeDoomed.
Context {K V W : Type} `{!KeyEq K}.

Definition take_doomed (doomed : K -> V -> User W bool) : ST (list (K * V) * W) (list (K * V)) :=
  let! store := gets fst in
  let! flags := map_each store (fun e => user (doomed e.1 e.2)) in
  if existsb id flags then
    let '(out, rest) := hm_extract flags store in
    modify (fun s => (rest, s.2)) ;;
    ret out
  else ret [].
End TakeDoomed.

(** ** Time *)

(** [Duration]s and [Instant]s in nanoseconds; the last representable [Instant] is that of
    the 64-bit Unix clock ([i64] seconds and a nanosecond part). *)
Definition instant_max : Z := (2 ^ 63 - 1) * 10 ^ 9 + 999999999.
Definition duration_max : Z := (2 ^ 64 - 1) * 10 ^ 9 + 999999999.
Definition instant_checked_add (now ttl : Z) : option Z :=
  if now + ttl <=? instant_max then Some (now + ttl) else None.
Definition from_secs (secs : Z) : Z := secs * 10 ^ 9.
Definition from_millis (millis : Z) : Z := millis * 10 ^ 6.

(** [Instant::now()]: a reading of the clock of the outer world. *)
Class Clock (W : Type) : Type := { clock_now : W -> Z * W }.

Definition now {C W} `{!Clock W} : ST (C * W) Z := fun s =>
  let '(t, w) := clock_now s.2 in (Done t, (s.1, w)).

(** The thread a call runs on, as its arrival number at the striped counters. *)
Class Threads (W : Type) : Type := { current_thread : W -> nat }.

(** [Clone::clone] of user data is the identity; a per-entry expiry. *)
Record TimedEntry (V : Type) : Type := mkTimed { expires_at : option Z; tvalue : V }.
Arguments mkTimed {V} _ _.
Arguments expires_at {V} _.
Arguments tvalue {V} _.

(** [Expires::is_expired] of a value type whose values know their own expiry. *)
Class Expires (V W : Type) : Type := { is_expired : V -> User W bool }.

(** [value.is_expired() || !keep(key, value)] *)
Definition expired_or_rejected {K V W} `{!Expires V W} (keep : K -> V -> User W bool) (key : K) (value : V) : User W bool := fun w =>
  match is_expired value w with
  | (Some true, w) => (Some true, w)
  | (Some false, w) => let '(b, w) := keep key value w in (negb <$> b, w)
  | (None, w) => (None, w)
  end.

(** [!keep(key, value)] *)
Definition rejected {K V W} (keep : K -> V -> User W bool) (key : K) (value : V) : User W bool := fun w =>
  let '(b, w) := keep key value w in (negb <$> b, w).

(** Deadlines, the same in every timed store. *)

Definition entry_live_at (expires_at : option Z) (now : Z) : bool :=
  match expires_at with None => true | Some t => now <? t end.

(** A zero ttl means entries do not expire; so does a deadline past the last [Instant]. *)
Definition compute_expires_at (ttl now : Z) : option Z :=
  if ttl =? 0 then None else instant_checked_add now ttl.

Definition refreshed_expires_at (ttl now : Z) (current : option Z) : option Z :=
  if ttl =? 0 then current else instant_checked_add now ttl.

Definition validate_ttl (ttl : Z) : result BuildError unit :=
  if ttl =? 0 then Err (InvalidValue "ttl"%string "must be greater than zero"%string) else Ok tt.

Lemma wp_now {C W} `{!Clock W} (Q : Z -> C * W -> Prop) U c w :
  Q (clock_now w).1 (c, (clock_now w).2) -> wp now Q U (c, w).
Proof. unfold wp, now. simpl. by destruct (clock_now w). Qed.

(** ** The map and sweep lemmas *)

Section HashMapLemmas.
Context {K V : Type} `{!KeyEq K, !KeyLaws K}.
Implicit Types (k : K) (v : V) (m : list (K * V)).

Lemma hm_update_split k v xs e ys : fresh k xs -> keq k e.1 = true ->
  hm_update k v (xs ++ e :: ys) = xs ++ (e.1, v) :: ys.
Proof. intros F E. induction F as [|a xs Ha F IH]; simpl; [by rewrite E|]. by rewrite Ha, IH. Qed.

Lemma hm_update_fresh k v m : fresh k m -> hm_update k v m = m.
Proof. induction 1 as [|a m Ha F IH]; simpl; [done|]. by rewrite Ha, IH. Qed.

(** Updating keeps the stored keys, in order. *)
Lemma hm_update_keys k v m : (hm_update k v m).*1 = m.*1.
Proof. induction m as [|e m IH]; simpl; [done|]. destruct (keq k e.1); [done|].
  by rewrite !fmap_cons, IH. Qed.

Lemma distinct_keys m m' : m.*1 = m'.*1 -> distinct m -> distinct m'.
Proof.
  revert m'. induction m as [|e m IH]; intros [|e' m']; simpl; try done.
  intros [= E1 E2] [F D]. split; [|by apply IH]. rewrite <- E1. clear -F E2.
  revert m' E2. induction F as [|a m Ha F IH]; intros [|a' m'] E2; simplify_eq/=; [by constructor|].
  constructor; [congruence|by apply IH].
Qed.

Lemma distinct_update k v m : distinct m -> distinct (hm_update k v m).
Proof. apply distinct_keys. by rewrite hm_update_keys. Qed.

Lemma distinct_snoc m k v : distinct m -> fresh k m -> distinct (m ++ [(k, v)]).
Proof. intros D F. apply distinct_insert; by rewrite app_nil_r. Qed.

Lemma find_key_update k v m e : distinct m -> find_key k m = Some e ->
  forall k', find_key k' (hm_update k v m) = if keq k k' then Some (e.1, v) else find_key k' m.
Proof.
  intros D E k'. unfold find_key in E. destruct (take_key k m) as [[e' r]|] eqn:Et; [|done].
  injection E as ->. destruct (take_key_Some _ _ _ _ Et) as (xs & ys & -> & _ & Hk & F).
  rewrite hm_update_split by done.
  assert (distinct (xs ++ (e.1, v) :: ys)) as D'.
  { apply distinct_mid in D as [D1 D2]. by apply distinct_insert. }
  rewrite (find_key_perm k' (xs ++ (e.1, v) :: ys) ((e.1, v) :: xs ++ ys))
    by (by rewrite ?Permutation_middle || done).
  rewrite (find_key_perm k' (xs ++ e :: ys) (e :: xs ++ ys))
    by (by rewrite ?Permutation_middle || done).
  rewrite !find_key_cons. simpl. rewrite (keq_comm k' e.1), <- (keq_cong k e.1) by done.
  by destruct (keq k k').
Qed.

Lemma find_key_snoc k v m : fresh k m -> distinct m ->
  forall k', find_key k' (m ++ [(k, v)]) = if keq k k' then Some (k, v) else find_key k' m.
Proof.
  intros F D k'. rewrite (find_key_perm k' (m ++ [(k, v)]) ((k, v) :: m)), find_key_cons.
  - simpl. by rewrite keq_comm.
  - by rewrite Permutation_app_comm.
  - by apply distinct_snoc.
Qed.

(** Extraction splits the map in two, in order. *)
Lemma hm_extract_perm flags m :
  (hm_extract flags m).1 ++ (hm_extract flags m).2 ≡ₚ m.
Proof.
  revert flags. induction m as [|e m IH]; intros flags; simpl; [done|].
  specialize (IH (tail flags)). destruct (hm_extract (tail flags) m) as [out rest]. simpl in IH.
  destruct (hd false flags); simpl; [by rewrite IH|]. by rewrite <- Permutation_middle, IH.
Qed.
End HashMapLemmas.

(** ** The two-phase sweep *)

(** A predicate that answers by [p] and changes the world by [g]. *)
Definition answers {K V X} (p : K -> V -> option bool) (g : K -> V -> X -> X) (k : K) (v : V) : User X bool :=
  fun x => (p k v, g k v x).

Section Sweep.
Context {K V W : Type}.
Implicit Types (m : list (K * V)) (w : W).

Definition picks (p : K -> V -> option bool) (e : K * V) : bool := default false (p e.1 e.2).

Lemma decide_all p g m m0 w : (forall e, e ∈ m -> p e.1 e.2 <> None) ->
  map_each m (fun e => user (answers p g e.1 e.2)) (m0, w) =
    (Done (picks p <$> m), (m0, foldl (fun w e => g e.1 e.2 w) w m)).
Proof.
  revert w. induction m as [|e m IH]; intros w H; [done|].
  destruct (p e.1 e.2) as [b|] eqn:Ep; [|by destruct (H e); [left|]].
  cbn [map_each]. unfold bind at 1, user, answers at 1. simpl. rewrite Ep.
  rewrite (bind_run _ _ _ _ _ (IH (g e.1 e.2 w) ltac:(intros; apply H; by right))).
  change (picks p <$> e :: m) with (picks p e :: (picks p <$> m)).
  unfold ret, picks at 2. by rewrite Ep.
Qed.

Lemma decide_panics p g m m0 w e : e ∈ m -> p e.1 e.2 = None ->
  exists w', map_each m (fun e => user (answers p g e.1 e.2)) (m0, w) = (Unwind, (m0, w')).
Proof.
  intros He Hp. revert w. induction m as [|d m IH]; intros w; [by apply elem_of_nil in He|].
  cbn [map_each]. unfold bind at 1, user at 1, answers at 1. simpl.
  destruct (p d.1 d.2) as [b|] eqn:Ed; [|by eexists].
  apply elem_of_cons in He as [->|He]; [congruence|].
  destruct (IH He (g d.1 d.2 w)) as (w' & E). exists w'. unfold bind at 1. by rewrite E.
Qed.

Lemma extract_filter (f : K * V -> bool) m :
  hm_extract (f <$> m) m = (List.filter f m, List.filter (fun e => negb (f e)) m).
Proof.
  induction m as [|e m IH]; [done|]. rewrite fmap_cons. simpl. rewrite IH. by destruct (f e).
Qed.

Lemma filter_none (f : K * V -> bool) m : existsb id (f <$> m) = false ->
  List.filter f m = [] /\ List.filter (fun e => negb (f e)) m = m.
Proof.
  induction m as [|e m IH]; [done|]. rewrite fmap_cons. simpl. unfold id at 1.
  destruct (f e); [done|]. intros H. destruct (IH H) as [-> ->]. done.
Qed.

Lemma take_doomed_run p g m w : (forall e, e ∈ m -> p e.1 e.2 <> None) ->
  take_doomed (answers p g) (m, w) =
    (Done (List.filter (picks p) m),
     (List.filter (fun e => negb (picks p e)) m, foldl (fun w e => g e.1 e.2 w) w m)).
Proof.
  intros H. unfold take_doomed. unfold bind at 1, gets. simpl.
  rewrite (bind_run _ _ _ _ _ (decide_all p g m m w H)).
  destruct (existsb id (picks p <$> m)) eqn:Ex.
  - by rewrite extract_filter.
  - apply filter_none in Ex as [-> ->]. done.
Qed.
End Sweep.

Lemma map_each_ext {S A B} (l : list A) (f f' : A -> ST S B) s :
  (forall a s, f a s = f' a s) -> map_each l f s = map_each l f' s.
Proof.
  intros H. revert s. induction l as [|a l IH]; intros s; simpl; [done|]. unfold bind at 1 3.
  rewrite H. destruct (f' a s) as [[b| |] s']; [|done|done]. unfold bind. by rewrite IH.
Qed.

Lemma take_doomed_ext {K V W} (d d' : K -> V -> User W bool) s :
  (forall k v w, d k v w = d' k v w) -> take_doomed d s = take_doomed d' s.
Proof.
  intros H. unfold take_doomed, bind at 1 3, gets. unfold bind at 1 2.
  erewrite map_each_ext; [done|]. intros e s'. unfold user. by rewrite H.
Qed.

Lemma take_doomed_panic {K V W} (p : K -> V -> option bool) (g : K -> V -> W -> W) m w e :
  e ∈ m -> p e.1 e.2 = None -> exists w', take_doomed (answers p g) (m, w) = (Unwind, (m, w')).
Proof.
  intros He Hp. destruct (decide_panics p g m m w e He Hp) as (w' & E). exists w'.
  unfold take_doomed. unfold bind at 1, gets. simpl. unfold bind at 1. by rewrite E.
Qed.

Lemma foldl_same {A B} (l : list A) (b : B) : foldl (fun b _ => b) b l = b.
Proof. by induction l. Qed.

(** The two-phase sweep of the map-backed stores takes out exactly the entries its
    predicate picks, in iteration order, and leaves the others in theirs; the predicate sees
    every entry once.  If the predicate panics on any entry, nothing has been removed. *)
Theorem take_doomed_two_phase {K V W} (p : K -> V -> option bool) (g : K -> V -> W -> W) m (w : W) :
  ((forall e, e ∈ m -> p e.1 e.2 <> None) ->
   take_doomed (answers p g) (m, w) =
     (Done (List.filter (picks p) m),
      (List.filter (fun e => negb (picks p e)) m, foldl (fun w e => g e.1 e.2 w) w m))) /\
  (forall e, e ∈ m -> p e.1 e.2 = None ->
   exists w', take_doomed (answers p g) (m, w) = (Unwind, (m, w'))).
Proof.
  split; [apply take_doomed_run|]. intros e. apply take_doomed_panic.
Qed.

Lemma take_doomed_two_phase_witness :
  take_doomed (answers (fun k _ => Some (Z.odd k)) (fun k _ w => k :: w)) ([(1, 10); (2, 20); (3, 30)], []) =
    (Done [(1, 10); (3, 30)], ([(2, 20)], [3; 2; 1])) /\
  exists w', take_doomed (answers (fun k _ => if k =? 2 then None else Some true) (fun _ _ w => w))
    ([(1, 10); (2, 20)], tt) = (Unwind, ([(1, 10); (2, 20)], w')).
Proof.
  split.
  - apply (take_doomed_two_phase (fun k _ => Some (Z.odd k)) (fun k (_ : Z) w => k :: w)). done.
  - apply (take_doomed_two_phase (fun k _ => if k =? 2 then None else Some true) (fun _ (_ : Z) w => w)) with (2, 20).
    + right. left.
    + done.
Defined.

(** ** Invariants of the map-backed stores *)

Definition callback_total {K V W} (f : OnEvict K V W) : Prop :=
  match f with Some f => forall k v, total (f k v) | None => True end.

Lemma keeps_now {C W} `{!Clock W} (I : C -> Prop) P : keeps (fun s : C * W => I s.1) P now.
Proof. intros [c w] H. by apply wp_now. Qed.

Lemma distinct_filter {K V} `{!KeyEq K} (f : K * V -> bool) m : distinct m -> distinct (List.filter f m).
Proof.
  induction m as [|e m IH]; simpl; [done|]. intros [F D]. destruct (f e); [|auto]. split; [|auto].
  rewrite Forall_forall in *. intros x Hx. apply F. apply list_elem_of_In, filter_In in Hx as [Hx _].
  by apply list_elem_of_In.
Qed.

(** Extraction keeps a sublist: keys stay distinct. *)
Lemma distinct_extract {K V} `{!KeyEq K} flags (m : list (K * V)) :
  distinct m -> distinct (hm_extract flags m).2.
Proof.
  assert (forall flags (m : list (K * V)) P, Forall P m -> Forall P (hm_extract flags m).2) as HF.
  { clear. intros flags m P H. revert flags. induction H as [|e m He H IH]; intros flags; simpl; [done|].
    specialize (IH (tail flags)). destruct (hm_extract (tail flags) m). destruct (hd false flags); simpl in *; auto. }
  revert flags. induction m as [|e m IH]; intros flags; simpl; [done|]. intros [F D].
  specialize (IH (tail flags) D). pose proof (HF (tail flags) m _ F) as F2.
  destruct (hm_extract (tail flags) m). destruct (hd false flags); simpl in *; auto.
Qed.

Lemma keeps_take_doomed {K V W} `{!KeyEq K} P (d : K -> V -> User W bool) :
  (forall k v, P \/ total (d k v)) -> keeps (fun s => distinct s.1) P (take_doomed d).
Proof.
  intros H [m w] D. unfold take_doomed. apply wp_bind, wp_gets. simpl. apply wp_bind.
  assert (keeps (fun s : list (K * V) * W => s.1 = m) P (map_each m (fun e => user (d e.1 e.2)))) as Hk.
  { apply keeps_map_each. intros e. by apply (keeps_user (fun c => c = m)). }
  eapply wp_mono; [by apply Hk| |].
  - simpl. intros flags [m' w'] E. simpl in E. subst m'. destruct (existsb id flags); [|done].
    pose proof (distinct_extract flags m D) as D'. destruct (hm_extract flags m) as [out rest].
    by apply wp_bind, wp_modify, wp_ret.
  - simpl. intros [m' w'] [HP E]. simpl in *. by subst.
Qed.

(** What a sweep takes and what it leaves make up the map; a panic takes nothing. *)
Lemma take_doomed_split {K V W} `{!KeyEq K, !KeyLaws K} P (d : K -> V -> User W bool) m w :
  (forall k v, P \/ total (d k v)) -> distinct m ->
  wp (take_doomed d) (fun l s => l ++ s.1 ≡ₚ m /\ distinct s.1) (fun s => P /\ s.1 = m) (m, w).
Proof.
  intros H D. unfold take_doomed. apply wp_bind, wp_gets. simpl. apply wp_bind.
  assert (keeps (fun s : list (K * V) * W => s.1 = m) P (map_each m (fun e => user (d e.1 e.2)))) as Hk.
  { apply keeps_map_each. intros e. by apply (keeps_user (fun c => c = m)). }
  eapply wp_mono; [by apply Hk| |done].
  intros flags [m' w'] E. simpl in E. subst m'. destruct (existsb id flags); [|by apply wp_ret].
  pose proof (distinct_extract flags m D) as D'. pose proof (hm_extract_perm flags m) as Hp.
  destruct (hm_extract flags m) as [out rest]. by apply wp_bind, wp_modify, wp_ret.
Qed.

(** What the predicate said of the entries a sweep takes, and of those it leaves. *)
Definition said {K V W} (d : K -> V -> User W bool) (b : bool) (e : K * V) : Prop :=
  exists w w', d e.1 e.2 w = (Some b, w').

Lemma extract_said {K V W} (d : K -> V -> User W bool) flags (m : list (K * V)) :
  Forall2 (fun e b => said d b e) m flags ->
  Forall (said d true) (hm_extract flags m).1 /\ Forall (said d false) (hm_extract flags m).2.
Proof.
  induction 1 as [|e b m flags He _ IH]; simpl; [done|]. destruct (hm_extract flags m). simpl in *.
  destruct IH, b; simpl; auto.
Qed.

Lemma none_said {K V W} (d : K -> V -> User W bool) flags (m : list (K * V)) :
  Forall2 (fun e b => said d b e) m flags -> existsb id flags = false -> Forall (said d false) m.
Proof. induction 1 as [|e [] m flags He _ IH]; simpl; [done|done|]. auto. Qed.

Lemma decide_said {K V W} (d : K -> V -> User W bool) (m m0 : list (K * V)) w :
  wp (map_each m (fun e => user (d e.1 e.2)))
    (fun flags s => s.1 = m0 /\ Forall2 (fun e b => said d b e) m flags) (fun s => s.1 = m0) (m0, w).
Proof.
  revert w. induction m as [|e m IH]; intros w; simpl; [by apply wp_ret|]. apply wp_bind, wp_user; [|done].
  intros b w1 E. apply wp_bind. eapply wp_mono; [apply IH| |done]. intros bs s [Hs HF]. apply wp_ret.
  split; [done|]. constructor; [by exists w, w1|done].
Qed.

(** A sweep takes the entries the predicate picks and leaves those it rejects; a panic takes nothing. *)
Lemma take_doomed_said {K V W} `{!KeyEq K, !KeyLaws K} (d : K -> V -> User W bool) m w : distinct m ->
  wp (take_doomed d) (fun l s => l ++ s.1 ≡ₚ m /\ distinct s.1 /\ Forall (said d true) l /\ Forall (said d false) s.1)
    (fun s => s.1 = m) (m, w).
Proof.
  intros D. unfold take_doomed. apply wp_bind, wp_gets. simpl. apply wp_bind.
  eapply wp_mono; [apply (decide_said d m m)| |done].
  intros flags [m' w'] [E HF]. simpl in E. subst m'. destruct (existsb id flags) eqn:Ex.
  - pose proof (distinct_extract flags m D) as D'. pose proof (hm_extract_perm flags m) as Hp.
    pose proof (extract_said d flags m HF) as [H1 H2].
    destruct (hm_extract flags m) as [out rest]. by apply wp_bind, wp_modify, wp_ret.
  - apply wp_ret. split_and!; [done|done|done|]. by eapply none_said.
Qed.

(** User code that may panic only if [P]. *)
Lemma wp_user_ok {C W A} (P : Prop) (m : User W A) (Q : A -> C * W -> Prop) U c w :
  P \/ total m -> (forall a w', Q a (c, w')) -> (forall w', P -> U (c, w')) -> wp (user m) Q U (c, w).
Proof.
  intros Hm HQ HU. apply wp_user; [intros; apply HQ|]. intros w' E. apply HU.
  destruct Hm as [H|H]; [done|]. destruct (H w) as (a & w2 & E'). congruence.
Qed.

(** The callback, if there is one; it may panic only if [P]. *)
Lemma wp_callback {C K V W} (P : Prop) (f : OnEvict K V W) k v (Q : unit -> C * W -> Prop) U c w :
  P \/ callback_total f -> (forall w', Q tt (c, w')) -> (forall w', P -> U (c, w')) ->
  wp (match f with Some f => user (f k v) | None => ret tt end) Q U (c, w).
Proof.
  intros HP HQ HU. destruct f as [f|]; [|apply HQ]. apply (wp_user_ok P); [|by intros []|done].
  destruct HP as [HP|HP]; [by left|right; apply HP].
Qed.

(** Presence of a key after the map's calls. *)
Lemma present_update {K V} `{!KeyEq K} k k' (v : V) m :
  find_key k m <> None -> find_key k (hm_update k' v m) <> None.
Proof.
  induction m as [|e m IH]; [done|]. cbn [hm_update]. destruct (keq k' e.1); rewrite !find_key_cons; simpl;
    destruct (keq k e.1); auto.
Qed.

Lemma present_snoc {K V} `{!KeyEq K, !KeyLaws K} k (v : V) m : find_key k (m ++ [(k, v)]) <> None.
Proof.
  induction m as [|e m IH]; simpl; rewrite find_key_cons; [by rewrite keq_refl|].
  by destruct (keq k e.1).
Qed.

Lemma distinct_drop_key {K V} `{!KeyEq K, !KeyLaws K} k (m : list (K * V)) e r :
  distinct m -> take_key k m = Some (e, r) -> distinct r.
Proof. intros D E. by destruct (take_key_distinct _ _ _ _ D E) as (_ & _ & ? & _). Qed.

Lemma find_fresh {K V} `{!KeyEq K} k (m : list (K * V)) : find_key k m = None -> fresh k m.
Proof. unfold find_key. rewrite <- take_key_None. by destruct (take_key k m). Qed.

(** ** A concrete outer world: a clock that ticks at every reading, and a log *)
Module Tick.
Record t : Type := mk { time : Z; seen : list (TaggedKey.t * Z) }.

#[global] Instance clock : Clock t := {| clock_now := fun w => (time w, mk (time w + 1) (seen w)) |}.

Lemma read n l : clock_now (mk n l) = (n, mk (n + 1) l).
Proof. done. Defined.

#[global] Instance threads : Threads t := {| current_thread := fun w => Z.to_nat (time w) |}.

Definition log (k : TaggedKey.t) (v : Z) : User t unit :=
  fun w => (Some tt, mk (time w) ((k, v) :: seen w)).

Definition k1 : TaggedKey.t := TaggedKey.mk 1 10.
Definition k1' : TaggedKey.t := TaggedKey.mk 1 11.
Definition k2 : TaggedKey.t := TaggedKey.mk 2 20.
Definition k3 : TaggedKey.t := TaggedKey.mk 3 30.
End Tick.
