(* ===== verification/BTree.v ===== *)
(** * The standard [BTreeSet], as the sorted list of its elements

    Ordered keys, and the calls [TtlSortedCache] makes on its set of stamps. *)
From Stdlib Require Import Sorted.
From S2P Require Import Prelude Keys.

(** [Ord::cmp] of a type. *)
Class Cmp (A : Type) : Type := { cmp : A -> A -> comparison }.
Arguments cmp : simpl never.

(** The documented contract of [Ord]: a total order. *)
Class CmpLaws (A : Type) `{!Cmp A} : Prop := {
  cmp_refl : forall a, cmp a a = Eq;
  cmp_antisym : forall a b, cmp b a = CompOpp (cmp a b);
  cmp_lt_trans : forall a b c, cmp a b = Lt -> cmp b c = Lt -> cmp a c = Lt;
  cmp_eq_l : forall a b c, cmp a b = Eq -> cmp a c = cmp b c }.

(** [Ord] of a key agrees with its [Eq]. *)
Class KeyOrd (K : Type) `{!KeyEq K, !Cmp K} : Prop := {
  cmp_keq : forall a b : K, cmp a b = Eq <-> keq a b = true }.

(** [Ord] of [Option<T>]: [None] first. *)
#[global] Instance cmp_option {A} `{!Cmp A} : Cmp (option A) := {|
  cmp := fun a b =>
    match a, b with
    | None, None => Eq
    | None, Some _ => Lt
    | Some _, None => Gt
    | Some a, Some b => cmp a b
    end |}.

#[global] Instance cmp_option_laws {A} `{!Cmp A, !CmpLaws A} : CmpLaws (option A).
Proof.
  split; unfold cmp; simpl.
  - intros [a|]; [apply cmp_refl|done].
  - intros [a|] [b|]; try done. apply cmp_antisym.
  - intros [a|] [b|] [d|]; try done. apply cmp_lt_trans.
  - intros [a|] [b|] [d|]; try done. apply cmp_eq_l.
Qed.

Section BTreeSet.
Context {A : Type} `{!Cmp A}.
Implicit Types (x y : A) (l : list A).

(** [insert] keeps the element that is there when an equal one comes. *)
Fixpoint bt_insert x l : list A :=
  match l with
  | [] => [x]
  | y :: r =>
      match cmp x y with
      | Lt => x :: l
      | Eq => l
      | Gt => y :: bt_insert x r
      end
  end.

Fixpoint bt_remove x l : list A :=
  match l with
  | [] => []
  | y :: r =>
      match cmp x y with
      | Lt => l
      | Eq => r
      | Gt => y :: bt_remove x r
      end
  end.

Definition bt_pop_first l : option (A * list A) :=
  match l with [] => None | x :: r => Some (x, r) end.

(** [split_off(bound)]: what is below the bound stays, the rest is returned. *)
Fixpoint bt_split_off bound l : list A * list A :=
  match l with
  | [] => ([], [])
  | y :: r =>
      match cmp y bound with
      | Lt => let '(lo, hi) := bt_split_off bound r in (y :: lo, hi)
      | _ => ([], l)
      end
  end.

Definition below x y : Prop := cmp x y = Lt.
Definition bt_sorted l : Prop := StronglySorted below l.

Context `{!CmpLaws A}.

Lemma cmp_gt_lt x y : cmp x y = Gt <-> cmp y x = Lt.
Proof. rewrite (cmp_antisym x y). by destruct (cmp x y). Qed.

Lemma cmp_eq_r x y z : cmp x y = Eq -> cmp z x = cmp z y.
Proof.
  intros E. rewrite (cmp_antisym x z), (cmp_antisym y z). by rewrite (cmp_eq_l x y z E).
Qed.

(** No element equal to [x]. *)
Definition apart x l : Prop := Forall (fun y => cmp x y <> Eq) l.

Lemma insert_perm x l : apart x l -> bt_insert x l ≡ₚ x :: l.
Proof.
  induction 1 as [|y l Hy H IH]; simpl; [done|]. destruct (cmp x y) eqn:E; [done|done|].
  rewrite IH. apply Permutation_swap.
Qed.

Lemma insert_sorted x l : bt_sorted l -> bt_sorted (bt_insert x l).
Proof.
  intros S. induction S as [|y l S IH F]; simpl; [by repeat constructor|].
  destruct (cmp x y) eqn:E.
  - by constructor.
  - constructor; [by constructor|]. constructor; [done|]. eapply Forall_impl; [exact F|].
    intros z Hz. by eapply cmp_lt_trans.
  - constructor; [done|]. apply cmp_gt_lt in E. clear IH S. induction l as [|z l IH]; simpl.
    + by constructor.
    + apply Forall_cons in F as [Fz F]. destruct (cmp x z); repeat constructor; auto.
Qed.

(** An element equal to one that is there changes nothing. *)
Lemma insert_present x y l : bt_sorted l -> y ∈ l -> cmp x y = Eq -> bt_insert x l = l.
Proof.
  intros S Hin E. induction S as [|z l S IH F]; [by apply elem_of_nil in Hin|]. simpl.
  apply elem_of_cons in Hin as [->|Hin]; [by rewrite E|].
  rewrite Forall_forall in F. pose proof (F _ Hin) as Hz. unfold below in Hz.
  rewrite (cmp_eq_r y x z) in Hz by (rewrite (cmp_antisym x y), E; done).
  rewrite (cmp_antisym z x), Hz. simpl. by rewrite IH.
Qed.

Lemma insert_head x l : Forall (below x) l -> bt_insert x l = x :: l.
Proof. destruct l as [|y l]; [done|]. intros [H _]%Forall_cons. simpl. unfold below in H. by rewrite H. Qed.

Lemma remove_perm x l : bt_sorted l -> x ∈ l -> x :: bt_remove x l ≡ₚ l.
Proof.
  intros S Hin. induction S as [|y l S IH F]; [by apply elem_of_nil in Hin|]. simpl.
  apply elem_of_cons in Hin as [->|Hin]; [by rewrite cmp_refl|].
  rewrite Forall_forall in F. pose proof (F _ Hin) as Hy. unfold below in Hy.
  rewrite (cmp_antisym y x), Hy. simpl. rewrite <- (IH Hin) at 2. apply Permutation_swap.
Qed.

Lemma remove_sorted x l : bt_sorted l -> bt_sorted (bt_remove x l).
Proof.
  intros S. induction S as [|y l S IH F]; simpl; [constructor|].
  destruct (cmp x y); [exact S|by constructor|]. constructor; [exact IH|]. clear IH S.
  induction l as [|z l IH]; simpl; [done|]. apply Forall_cons in F as [Fz F].
  destruct (cmp x z); auto.
Qed.

Lemma sorted_mid pre x post : bt_sorted (pre ++ x :: post) -> bt_sorted (pre ++ post).
Proof.
  induction pre as [|y pre IH]; simpl; intros S; apply StronglySorted_inv in S as [S F]; [done|].
  constructor; [by apply IH|]. apply Forall_app in F as [F1 [_ F2]%Forall_cons]. by apply Forall_app.
Qed.

Lemma sorted_head x l y : bt_sorted (x :: l) -> y ∈ x :: l -> cmp y x <> Lt.
Proof.
  intros S Hin. apply StronglySorted_inv in S as [_ F].
  apply elem_of_cons in Hin as [->|Hin]; [by rewrite cmp_refl|].
  rewrite Forall_forall in F. specialize (F _ Hin). unfold below in F.
  rewrite (cmp_antisym x y), F. done.
Qed.

(** The split keeps both parts sorted, and is a split by the bound. *)
Lemma split_off_spec b l : bt_sorted l ->
  let '(lo, hi) := bt_split_off b l in
  l = lo ++ hi /\ bt_sorted hi /\ Forall (fun x => cmp x b = Lt) lo /\ Forall (fun x => cmp x b <> Lt) hi.
Proof.
  intros S. induction S as [|y l S IH F]; simpl; [split_and!; [done|constructor|done..]|].
  destruct (cmp y b) eqn:E.
  2:{ destruct (bt_split_off b l) as [lo hi]. destruct IH as (-> & H1 & H2 & H3).
      split_and!; [done|done|by constructor|done]. }
  all: (split_and!; [done|by constructor|done|]); constructor; [by rewrite E|];
    (eapply Forall_impl; [exact F|]); intros z Hz Hzb; unfold below in Hz;
    pose proof (cmp_lt_trans _ _ _ Hz Hzb); congruence.
Qed.
End BTreeSet.

(** The order of the example keys: by [id], as their equality. *)
#[global] Instance tagged_cmp : Cmp TaggedKey.t := {| cmp := fun a b => Z.compare (TaggedKey.id a) (TaggedKey.id b) |}.

#[global] Instance tagged_cmp_laws : CmpLaws TaggedKey.t.
Proof.
  split; unfold cmp; simpl; intros.
  - apply Z.compare_refl.
  - apply Z.compare_antisym.
  - rewrite Z.compare_lt_iff in *. lia.
  - match goal with H : _ = Eq |- _ => apply Z.compare_eq_iff in H; by rewrite H end.
Qed.

#[global] Instance tagged_key_ord : KeyOrd TaggedKey.t.
Proof. split. intros a b. unfold cmp, keq. simpl. rewrite Z.compare_eq_iff. lia. Qed.
