(* ===== verification/LruList.v ===== *)
(** * The slab-backed doubly linked list of [src/lru_list.rs] *)
From Stdlib Require Import String.
From S2P Require Import Prelude Keys Stores.

Section LRUList.
Context {T : Type}.

(** ** Data *)

Record ListEntry : Type := mkEntry {
  value : option T;
  next : nat;
  prev : nat }.

Record LRUList : Type := mkList { values : list ListEntry }.

Definition FREE : nat := 0.
Definition OCCUPIED : nat := 1.

(** The two sentinel cells every list starts with. *)
Definition sentinels : list ListEntry := [mkEntry None 0 0; mkEntry None 1 1].

(** ** Operations *)

(** [self.values[i]], unwinding out of range. *)
Definition cell (i : nat) : ST LRUList ListEntry := fun l =>
  (expect (values l !! i), l).

(** A write to a field of [self.values[i]]. *)
Definition update (i : nat) (f : ListEntry -> ListEntry) : ST LRUList unit := fun l =>
  if decide (i < length (values l))%nat
  then (Done tt, mkList (alter f i (values l)))
  else (Unwind, l).

Definition with_next (n : nat) (e : ListEntry) := mkEntry (value e) n (prev e).
Definition with_prev (p : nat) (e : ListEntry) := mkEntry (value e) (next e) p.
Definition with_value (v : option T) (e : ListEntry) := mkEntry v (next e) (prev e).

Definition set_next (i n : nat) : ST LRUList unit := update i (with_next n).
Definition set_prev (i p : nat) : ST LRUList unit := update i (with_prev p).
Definition set_value (i : nat) (v : option T) : ST LRUList unit := update i (with_value v).

Definition with_capacity (capacity : Z) : LRUList := mkList sentinels.

(** [try_reserve_exact cap] tells whether the allocation of [cap] cells succeeds. *)
Definition try_with_capacity (try_reserve_exact : Z -> bool) (capacity : Z) :
    result BuildError LRUList :=
  match checked_add capacity 2 with
  | None => Err (InvalidValue "max_size" "capacity overflow")
  | Some capacity =>
      if try_reserve_exact capacity then Ok (mkList sentinels)
      else Err (InvalidValue "max_size" "allocation failed")
  end.

Definition unlink (index : nat) : ST LRUList unit :=
  let! e := cell index in
  let prev := prev e in
  let next := next e in
  set_next prev next ;;
  set_prev next prev.

Definition link_after (index prev : nat) : ST LRUList unit :=
  let! e := cell prev in
  let next := next e in
  set_prev index prev ;;
  set_next index next ;;
  set_next prev index ;;
  set_prev next index.

Definition move_to_front (index : nat) : ST LRUList unit :=
  unlink index ;;
  link_after index OCCUPIED.

Definition push_front (v : T) : ST LRUList nat :=
  let! f := cell FREE in
  (if decide (next f = FREE) then
     modify (fun l => mkList (values l ++ [mkEntry None FREE FREE])) ;;
     let! n := gets (fun l => length (values l)) in
     set_next FREE (n - 1)%nat
   else ret tt) ;;
  let! f := cell FREE in
  let index := next f in
  set_value index (Some v) ;;
  unlink index ;;
  link_after index OCCUPIED ;;
  ret index.

Definition remove (index : nat) : ST LRUList T :=
  unlink index ;;
  link_after index FREE ;;
  let! e := cell index in
  set_value index None ;;
  of_outcome (expect (value e)).

Definition back (l : LRUList) : outcome nat := let? e := expect (values l !! OCCUPIED) in Done (prev e).

Definition get (l : LRUList) (index : nat) : outcome T :=
  let? e := expect (values l !! index) in expect (value e).

(** [*get_mut(index) = v]: the write through the reference [get_mut] returns. *)
Definition write (index : nat) (v : T) : ST LRUList unit :=
  let! e := cell index in
  let! _ := of_outcome (expect (value e)) in
  set_value index (Some v).

(** [Option::replace] of a cell's value. *)
Definition set (index : nat) (v : T) : ST LRUList (option T) :=
  let! e := cell index in
  set_value index (Some v) ;;
  ret (value e).

Definition clear : ST LRUList unit := modify (fun _ => mkList sentinels).

(** The loop of [drain_into]; [out] is the destination vector. *)
Fixpoint drain_loop (fuel : nat) (index : nat) (out : list T) : ST LRUList (list T) :=
  if decide (index = OCCUPIED) then ret out else
  match fuel with
  | O => of_outcome OutOfFuel
  | S fuel =>
      let! e := cell index in
      set_value index None ;;
      drain_loop fuel (next e) (match value e with Some v => out ++ [v] | None => out end)
  end.

Definition drain_into (out : list T) : ST LRUList (list T) :=
  let! o := cell OCCUPIED in
  let! n := gets (fun l => length (values l)) in
  let! out := drain_loop n (next o) out in
  clear ;;
  ret out.

(** [LRUListIterator]: the values met from [index] on; it stops at the sentinel, and at
    a vacant cell ([as_ref] gives [None]). *)
Fixpoint iter_from (fuel : nat) (l : LRUList) (index : nat) : outcome (list T) :=
  let? e := expect (values l !! index) in
  if decide (next e = OCCUPIED) then Done [] else
  match fuel with
  | O => OutOfFuel
  | S fuel =>
      let? n := expect (values l !! next e) in
      match value n with
      | None => Done []
      | Some v => let? r := iter_from fuel l (next e) in Done (v :: r)
      end
  end.

Definition iter (l : LRUList) : outcome (list T) := iter_from (length (values l)) l OCCUPIED.

(** [LRUListIndexIterator]. *)
Fixpoint indices_from (fuel : nat) (l : LRUList) (index : nat) : outcome (list nat) :=
  let? e := expect (values l !! index) in
  if decide (next e = OCCUPIED) then Done [] else
  match fuel with
  | O => OutOfFuel
  | S fuel => let? r := indices_from fuel l (next e) in Done (next e :: r)
  end.

Definition iter_indices (l : LRUList) : outcome (list nat) :=
  indices_from (length (values l)) l OCCUPIED.

End LRUList.
Arguments ListEntry T : clear implicits.
Arguments LRUList T : clear implicits.

(** ** Links of a slab *)

Section Links.
Context {T : Type}.
Implicit Types (v : list (ListEntry T)) (l : LRUList T) (i j h x : nat) (xs ys : list nat).

Definition nxt v i : option nat := next <$> v !! i.
Definition prv v i : option nat := prev <$> v !! i.
Definition val v i : option T := v !! i ≫= value.

(** [linked v x [y1; ...; yn]]: the cells [x], [y1], ..., [yn] follow one another in
    both link directions. *)
Fixpoint linked v x ys : Prop :=
  match ys with
  | [] => True
  | y :: ys => nxt v x = Some y /\ prv v y = Some x /\ linked v y ys
  end.

(** The cyclic list through the sentinel [h] and the cells [xs]. *)
Definition ring v h xs : Prop := linked v h (xs ++ [h]).

(** The last cell of the path [x :: xs]. *)
Fixpoint tip x xs : nat := match xs with [] => x | y :: ys => tip y ys end.

Lemma tip_spec x xs : exists ls, x :: xs = ls ++ [tip x xs].
Proof.
  revert x. induction xs as [|y ys IH]; intros x; simpl; [by exists []|].
  destruct (IH y) as [ls E]. exists (x :: ls). simpl. by rewrite <- E.
Qed.

Lemma tip_eq x xs ls p : x :: xs = ls ++ [p] -> tip x xs = p.
Proof. destruct (tip_spec x xs) as [ls' ->]. by intros [_ ?]%app_inj_tail. Qed.

Lemma linked_app v x xs ys :
  linked v x (xs ++ ys) <-> linked v x xs /\ linked v (tip x xs) ys.
Proof.
  revert x. induction xs as [|a xs IH]; intros x; simpl; [tauto|].
  rewrite IH. tauto.
Qed.

(** Links survive when the [next] of every cell but the last and the [prev] of every
    cell but the first are kept. *)
Lemma linked_frame v v' x ys :
  (forall a, a ∈ removelast (x :: ys) -> nxt v' a = nxt v a) ->
  (forall b, b ∈ ys -> prv v' b = prv v b) ->
  linked v x ys -> linked v' x ys.
Proof.
  revert x. induction ys as [|y ys IH]; intros x Hn Hp; [done|].
  intros (E1 & E2 & H). simpl. split_and!.
  - rewrite Hn; [done|]. simpl. set_solver.
  - rewrite Hp; [done|]. set_solver.
  - apply IH; [|set_solver|done]. intros a Ha. apply Hn.
    change (a ∈ x :: removelast (y :: ys)). set_solver.
Qed.

Lemma removelast_snoc (xs : list nat) x : removelast (xs ++ [x]) = xs.
Proof. apply removelast_last. Qed.

Lemma ring_frame v v' h xs :
  (forall a, a ∈ h :: xs -> nxt v' a = nxt v a /\ prv v' a = prv v a) ->
  ring v h xs -> ring v' h xs.
Proof.
  intros H. apply linked_frame.
  - intros a Ha. rewrite (app_comm_cons xs [h] h), removelast_snoc in Ha. by apply H.
  - intros b Hb. apply H. set_solver.
Qed.

Lemma linked_bound v x ys y : linked v x ys -> y ∈ ys -> (y < length v)%nat.
Proof.
  revert x. induction ys as [|z ys IH]; intros x; [set_solver|].
  intros (_ & Hp & H) [->|Hin]%elem_of_cons; [|by eapply IH].
  unfold prv in Hp. destruct (v !! z) eqn:E; [|done]. by eapply lookup_lt_Some.
Qed.

Lemma ring_bound v h xs y : ring v h xs -> y ∈ h :: xs -> (y < length v)%nat.
Proof. intros H Hin. eapply linked_bound; [exact H|]. set_solver. Qed.

(** Splitting a ring at one of its cells. *)
Lemma ring_split v h xs i ys :
  ring v h (xs ++ i :: ys) ->
  exists p n ls rs,
    h :: xs = ls ++ [p] /\ ys ++ [h] = n :: rs /\
    linked v h xs /\ nxt v p = Some i /\ prv v i = Some p /\
    nxt v i = Some n /\ prv v n = Some i /\ linked v n rs.
Proof.
  unfold ring. rewrite <- app_assoc, linked_app. simpl. intros (H1 & H2 & H3 & H4).
  destruct (ys ++ [h]) as [|n rs] eqn:E; [by destruct ys|]. simpl in H4.
  destruct H4 as (H4 & H5 & H6).
  destruct (tip_spec h xs) as [ls El]. by exists (tip h xs), n, ls, rs.
Qed.

(** Joining at the seam [p -> n]. *)
Lemma ring_join v h xs ys p n ls rs :
  h :: xs = ls ++ [p] -> ys ++ [h] = n :: rs ->
  linked v h xs -> nxt v p = Some n -> prv v n = Some p -> linked v n rs ->
  ring v h (xs ++ ys).
Proof.
  intros El Er H1 H2 H3 H4. unfold ring. rewrite <- app_assoc, linked_app, Er. split; [done|].
  by rewrite (tip_eq _ _ _ _ El).
Qed.

(** *** Field updates *)

Section Fields.
Context (v : list (ListEntry T)) (i j : nat).

Lemma nxt_with_next n : (i < length v)%nat ->
  nxt (alter (with_next n) i v) j = if decide (i = j) then Some n else nxt v j.
Proof.
  intros [e E]%lookup_lt_is_Some. unfold nxt. case_decide; subst.
  - by rewrite list_lookup_alter_eq, E.
  - by rewrite list_lookup_alter_ne.
Qed.
Lemma prv_with_prev p : (i < length v)%nat ->
  prv (alter (with_prev p) i v) j = if decide (i = j) then Some p else prv v j.
Proof.
  intros [e E]%lookup_lt_is_Some. unfold prv. case_decide; subst.
  - by rewrite list_lookup_alter_eq, E.
  - by rewrite list_lookup_alter_ne.
Qed.
Lemma val_with_value o : (i < length v)%nat ->
  val (alter (with_value o) i v) j = if decide (i = j) then o else val v j.
Proof.
  intros [e E]%lookup_lt_is_Some. unfold val. case_decide; subst.
  - by rewrite list_lookup_alter_eq, E.
  - by rewrite list_lookup_alter_ne.
Qed.

Ltac kept := unfold nxt, prv, val; destruct (decide (i = j)) as [->|];
  [rewrite list_lookup_alter_eq; by destruct (v !! j) | by rewrite list_lookup_alter_ne].
Lemma prv_with_next n : prv (alter (with_next n) i v) j = prv v j. Proof. kept. Qed.
Lemma val_with_next n : val (alter (with_next n) i v) j = val v j. Proof. kept. Qed.
Lemma nxt_with_prev p : nxt (alter (with_prev p) i v) j = nxt v j. Proof. kept. Qed.
Lemma val_with_prev p : val (alter (with_prev p) i v) j = val v j. Proof. kept. Qed.
Lemma nxt_with_value o : nxt (alter (with_value o) i v) j = nxt v j. Proof. kept. Qed.
Lemma prv_with_value o : prv (alter (with_value o) i v) j = prv v j. Proof. kept. Qed.
End Fields.

Lemma update_run i f v : (i < length v)%nat -> update i f (mkList v) = (Done tt, mkList (alter f i v)).
Proof. intros H. unfold update. simpl. by rewrite decide_True. Qed.

Lemma bind_update_run {A} i f v (k : ST (LRUList T) A) : (i < length v)%nat ->
  (update i f ;; k) (mkList v) = k (mkList (alter f i v)).
Proof. intros H. unfold bind. by rewrite update_run. Qed.

Lemma bind_cell_run {A} i e v (k : ListEntry T -> ST (LRUList T) A) : v !! i = Some e ->
  (let! e := cell i in k e) (mkList v) = k e (mkList v).
Proof. intros H. unfold bind, cell. simpl. by rewrite H. Qed.

Lemma cell_links v i n p : nxt v i = Some n -> prv v i = Some p ->
  exists e, v !! i = Some e /\ next e = n /\ prev e = p.
Proof. unfold nxt, prv. destruct (v !! i) as [e|]; [|done]. simpl. intros. exists e. naive_solver. Qed.
End Links.

(** Evaluate the links of an updated slab. *)
Ltac slab :=
  repeat first
    [ rewrite prv_with_next | rewrite val_with_next | rewrite nxt_with_prev
    | rewrite val_with_prev | rewrite nxt_with_value | rewrite prv_with_value
    | rewrite nxt_with_next by (rewrite ?length_alter; lia)
    | rewrite prv_with_prev by (rewrite ?length_alter; lia)
    | rewrite val_with_value by (rewrite ?length_alter; lia) ];
  repeat case_decide; simplify_eq; try done.

(** ** Unlinking and linking *)

Section LinkOps.
Context {T : Type}.
Implicit Types (v : list (ListEntry T)) (i h : nat) (xs ys : list nat).

(** [v'] differs from [v] at most in the links of [cs]. *)
Definition frame_links v v' (cs : list nat) : Prop :=
  length v' = length v /\ (forall j, val v' j = val v j) /\
  (forall j, j ∉ cs -> nxt v' j = nxt v j /\ prv v' j = prv v j).

Lemma unlink_run v h xs i ys :
  ring v h (xs ++ i :: ys) -> NoDup (h :: xs ++ i :: ys) ->
  exists v', unlink i (mkList v) = (Done tt, mkList v') /\ ring v' h (xs ++ ys) /\
    frame_links v v' (h :: xs ++ ys).
Proof.
  intros HR HN. pose proof (ring_split _ _ _ _ _ HR)
    as (p & n & ls & rs & El & Er & H1 & H2 & H3 & H4 & H5 & H6).
  assert (p ∈ h :: xs) as Hp by (rewrite El; set_solver).
  assert (n ∈ ys ++ [h]) as Hn by (rewrite Er; set_solver).
  assert ((p < length v)%nat) as Lp by (eapply ring_bound; [done|set_solver]).
  assert ((n < length v)%nat) as Ln by (eapply ring_bound; [done|set_solver]).
  exists (alter (with_prev p) n (alter (with_next n) p v)).
  destruct (cell_links _ _ _ _ H4 H3) as (e & Ee & <- & <-).
  split.
  { unfold unlink, set_next, set_prev. erewrite bind_cell_run by done.
    rewrite bind_update_run by done. by apply update_run; rewrite length_alter. }
  apply NoDup_cons in HN as [Nh HN]. apply NoDup_app in HN as (Nx & Nxy & HN).
  apply NoDup_cons in HN as [Ni Ny].
  assert (prev e ∉ ls) as Np.
  { assert (NoDup (ls ++ [prev e])) as N by (rewrite <- El; constructor; set_solver).
    apply NoDup_app in N. set_solver. }
  assert (next e ∉ rs) as Nn.
  { assert (NoDup (next e :: rs)) as N by (rewrite <- Er; apply NoDup_app; split_and!;
      [done|set_solver|apply NoDup_singleton]).
    by apply NoDup_cons in N as [? _]. }
  assert (forall a, a ∈ xs -> a <> next e) as Nxn.
  { intros a Ha ->. apply elem_of_app in Hn as [Hn|Hn%list_elem_of_singleton].
    - apply (Nxy _ Ha). by right.
    - apply Nh. rewrite <- Hn. set_solver. }
  assert (forall a, a ∈ ys -> a <> prev e) as Nyp.
  { intros a Ha ->. apply elem_of_cons in Hp as [Hp|Hp].
    - apply Nh. rewrite <- Hp. set_solver.
    - apply (Nxy _ Hp). by right. }
  split; [eapply ring_join; [exact El|exact Er|..]|].
  - eapply linked_frame; [| |exact H1].
    + intros a Ha. rewrite El, removelast_snoc in Ha. slab; set_solver.
    + intros b Hb. specialize (Nxn _ Hb). slab.
  - slab.
  - slab.
  - eapply linked_frame; [| |exact H6].
    + intros a Ha. rewrite <- Er, removelast_snoc in Ha. specialize (Nyp _ Ha). slab.
    + intros b Hb. slab; set_solver.
  - split_and!; [by rewrite !length_alter|intros j; slab|].
    intros j Hj. assert (j <> prev e /\ j <> next e) by set_solver. split; slab; naive_solver.
Qed.

Lemma link_after_run v h xs i :
  ring v h xs -> NoDup (h :: xs) -> i ∉ h :: xs -> (i < length v)%nat ->
  exists v', link_after i h (mkList v) = (Done tt, mkList v') /\ ring v' h (i :: xs) /\
    frame_links v v' (h :: i :: xs).
Proof.
  intros HR HN Hi Li.
  assert ((h < length v)%nat) as Lh by (eapply ring_bound; [done|set_solver]).
  destruct (xs ++ [h]) as [|n rs] eqn:E; [by destruct xs|].
  assert (n ∈ xs ++ [h]) as Hn by (rewrite E; set_solver).
  assert ((n < length v)%nat) as Ln by (eapply ring_bound; [done|set_solver]).
  unfold ring in HR. rewrite E in HR. destruct HR as (H1 & H2 & H3).
  destruct (lookup_lt_is_Some_2 _ _ Lh) as [e Ee].
  assert (next e = n) as <- by (unfold nxt in H1; rewrite Ee in H1; naive_solver).
  exists (alter (with_prev i) (next e) (alter (with_next i) h
         (alter (with_next (next e)) i (alter (with_prev h) i v)))).
  split.
  { unfold link_after, set_next, set_prev. erewrite bind_cell_run by done.
    rewrite !bind_update_run by (rewrite ?length_alter; lia).
    by apply update_run; rewrite ?length_alter. }
  assert (i <> h /\ i <> next e) as [Nih Nin] by set_solver.
  apply NoDup_cons in HN as [Nh Nx].
  assert (next e ∉ rs) as Nn.
  { assert (NoDup (next e :: rs)) as N by (rewrite <- E; apply NoDup_app; split_and!;
      [done|set_solver|apply NoDup_singleton]).
    by apply NoDup_cons in N as [? _]. }
  split.
  - unfold ring. simpl. rewrite E. simpl. split_and!; try by slab.
    eapply linked_frame; [| |exact H3].
    + intros a Ha. rewrite <- E, removelast_snoc in Ha.
      assert (a <> i /\ a <> h) by set_solver. slab; naive_solver.
    + intros b Hb. assert (b ∈ xs ++ [h]) by (rewrite E; set_solver).
      assert (b <> i /\ b <> next e) by set_solver. slab; naive_solver.
  - split_and!; [by rewrite !length_alter|intros j; slab|].
    intros j Hj. assert (j <> i /\ j <> h /\ j <> next e) by set_solver.
    split; slab; naive_solver.
Qed.
End LinkOps.

(** ** The slab invariant *)

Section Rep.
Context {T : Type}.
Implicit Types (v : list (ListEntry T)) (i : nat) (x : T) (occ xs ys : list (nat * T)) (fre : list nat).

(** [rep v occ fre]: the occupied ring of [v] visits the slots [occ.*1], which hold
    [occ.*2], most recently used first; the free ring visits [fre]; the two rings and the
    sentinels share no cell, cover the slab, and only occupied cells hold a value. *)
Record rep v occ fre : Prop := {
  rep_occ : ring v OCCUPIED occ.*1;
  rep_fre : ring v FREE fre;
  rep_cover : FREE :: OCCUPIED :: occ.*1 ++ fre ≡ₚ seq 0 (length v);
  rep_val : forall i x, (i, x) ∈ occ -> val v i = Some x;
  rep_none : forall i, i ∉ occ.*1 -> val v i = None }.

Lemma rep_new : rep sentinels [] [].
Proof. split; try done; [set_solver|]. intros [|[|i]] _; done. Qed.

Lemma rep_NoDup v occ fre : rep v occ fre -> NoDup (FREE :: OCCUPIED :: occ.*1 ++ fre).
Proof. intros H. rewrite (rep_cover _ _ _ H). apply NoDup_ListNoDup, seq_NoDup. Qed.

Lemma rep_disjoint v occ fre : rep v occ fre ->
  NoDup (OCCUPIED :: occ.*1) /\ NoDup (FREE :: fre) /\
  (forall j, j ∈ OCCUPIED :: occ.*1 -> j ∉ FREE :: fre).
Proof.
  intros H%rep_NoDup. rewrite !NoDup_cons, NoDup_app in H. rewrite !NoDup_cons.
  destruct H as (H1 & H2 & H3 & H4 & H5). split_and!; [set_solver|done|set_solver|done|].
  intros j Hj Hk. apply elem_of_cons in Hj as [Ej|Hj], Hk as [Ek|Hk]; subst; try done; set_solver.
Qed.

Lemma rep_lt v occ fre j : rep v occ fre ->
  j ∈ FREE :: OCCUPIED :: occ.*1 ++ fre -> (j < length v)%nat.
Proof. intros H. rewrite (rep_cover _ _ _ H), elem_of_seq. lia. Qed.

Lemma rep_length v occ fre : rep v occ fre -> length v = (2 + length occ + length fre)%nat.
Proof.
  intros H. pose proof (Permutation_length (rep_cover _ _ _ H)) as E.
  rewrite length_seq in E. simpl in E. rewrite length_app, length_fmap in E. lia.
Qed.

Lemma rep_lookup v occ fre i x : rep v occ fre -> (i, x) ∈ occ ->
  exists e, v !! i = Some e /\ value e = Some x.
Proof.
  intros H Hin. pose proof (rep_val _ _ _ H _ _ Hin) as E. unfold val in E.
  destruct (v !! i) as [e|]; [|done]. by exists e.
Qed.

Lemma get_run v occ fre i x : rep v occ fre -> (i, x) ∈ occ -> get (mkList v) i = Done x.
Proof.
  intros H Hin. destruct (rep_lookup _ _ _ _ _ H Hin) as (e & E1 & E2).
  unfold get, obind. simpl. by rewrite E1; simpl; rewrite E2.
Qed.

Lemma rep_ring_fre v v' occ fre cs :
  rep v occ fre -> frame_links v v' cs -> (forall j, j ∈ cs -> j ∉ FREE :: fre) -> ring v' FREE fre.
Proof.
  intros H (_ & _ & F) D. eapply ring_frame; [|exact (rep_fre _ _ _ H)].
  intros a Ha. apply F. intros Hc. by apply (D a).
Qed.

Lemma frame_links_trans v1 v2 v3 cs :
  frame_links v1 v2 cs -> frame_links v2 v3 cs -> frame_links v1 v3 cs.
Proof.
  intros (L1 & V1 & F1) (L2 & V2 & F2). split_and!; [congruence|intros; by rewrite V2|].
  intros j Hj. destruct (F2 j Hj) as [-> ->]. by apply F1.
Qed.

Lemma frame_links_weaken v v' cs cs' : cs ⊆ cs' -> frame_links v v' cs -> frame_links v v' cs'.
Proof. intros S (L & V & F). split_and!; [done..|]. intros j Hj. apply F. set_solver. Qed.

Lemma NoDup_mid {A} (h i : A) (xs ys : list A) : NoDup (h :: xs ++ i :: ys) ->
  NoDup (h :: xs ++ ys) /\ i ∉ h :: xs ++ ys.
Proof.
  intros N. assert (NoDup (i :: h :: xs ++ ys)) as N'.
  { eapply (NoDup_Permutation_proper (h :: xs ++ i :: ys)); [|done].
    by rewrite <- Permutation_middle, Permutation_swap. }
  apply NoDup_cons in N'. tauto.
Qed.

(** Relinking the occupied ring, values and free ring kept. *)
Lemma rep_permute v v' occ occ' fre cs :
  rep v occ fre -> occ' ≡ₚ occ -> frame_links v v' cs ->
  (forall j, j ∈ cs -> j ∉ FREE :: fre) -> ring v' OCCUPIED occ'.*1 -> rep v' occ' fre.
Proof.
  intros H P F D R. pose proof F as (L & V & _). split.
  - done.
  - by eapply rep_ring_fre.
  - by rewrite L, <- (rep_cover _ _ _ H), P.
  - intros i x. rewrite P, V. apply (rep_val _ _ _ H).
  - intros i. rewrite P, V. apply (rep_none _ _ _ H).
Qed.

(** Promoting a slot moves it, and nothing else, to the front. *)
Lemma move_to_front_run v xs i x ys fre : rep v (xs ++ (i, x) :: ys) fre ->
  exists v', move_to_front i (mkList v) = (Done tt, mkList v') /\
    rep v' ((i, x) :: xs ++ ys) fre.
Proof.
  intros H. pose proof (rep_disjoint _ _ _ H) as (N1 & N2 & N3).
  pose proof (rep_occ _ _ _ H) as R. rewrite fmap_app in R, N1, N3. simpl in R, N1, N3.
  destruct (unlink_run _ _ _ _ _ R N1) as (v1 & E1 & R1 & F1).
  apply NoDup_mid in N1 as [N1 Ni].
  assert ((i < length v1)%nat) as Li.
  { rewrite (proj1 F1). eapply rep_lt; [done|]. rewrite fmap_app. set_solver. }
  destruct (link_after_run _ _ _ _ R1 N1 Ni Li) as (v2 & E2 & R2 & F2).
  exists v2. split; [unfold move_to_front, bind; by rewrite E1|].
  eapply (rep_permute v v2); [exact H|by rewrite Permutation_middle| |exact N3|].
  - eapply frame_links_trans; (eapply frame_links_weaken; [|done]); set_solver.
  - simpl. by rewrite fmap_app.
Qed.

(** Freeing a slot returns its value and threads the slot onto the free ring. *)
Lemma remove_run v xs i x ys fre : rep v (xs ++ (i, x) :: ys) fre ->
  exists v', remove i (mkList v) = (Done x, mkList v') /\ rep v' (xs ++ ys) (i :: fre).
Proof.
  intros H. pose proof (rep_disjoint _ _ _ H) as (N1 & N2 & N3).
  pose proof (rep_occ _ _ _ H) as R. rewrite fmap_app in R, N1, N3. simpl in R, N1, N3.
  destruct (unlink_run _ _ _ _ _ R N1) as (v1 & E1 & R1 & F1).
  apply NoDup_mid in N1 as [N1 Ni].
  assert ((i < length v1)%nat) as Li.
  { rewrite (proj1 F1). eapply rep_lt; [done|]. rewrite fmap_app. set_solver. }
  assert (ring v1 FREE fre) as R1f by (eapply rep_ring_fre; [done..|]; intros j Hj; apply N3; clear -Hj; mem).
  assert (i ∉ FREE :: fre) as Nif by (apply N3; set_solver).
  destruct (link_after_run _ _ _ _ R1f N2 Nif Li) as (v2 & E2 & R2 & F2).
  assert (val v2 i = Some x) as Ev.
  { rewrite (proj1 (proj2 F2)), (proj1 (proj2 F1)). apply (rep_val _ _ _ H). set_solver. }
  unfold val in Ev. destruct (v2 !! i) as [e|] eqn:Ee; [|done]. simpl in Ev.
  exists (alter (with_value None) i v2). split.
  { unfold remove, bind at 1 2. rewrite E1, E2. erewrite bind_cell_run by done.
    unfold set_value. rewrite bind_update_run by by eapply lookup_lt_Some.
    unfold of_outcome. by rewrite Ev. }
  assert ((i < length v2)%nat) as Li2 by by eapply lookup_lt_Some.
  destruct F1 as (L1 & V1 & F1), F2 as (L2 & V2 & F2).
  split.
  - eapply (ring_frame v1); [|by rewrite fmap_app]. intros a Ha. rewrite nxt_with_value, prv_with_value.
    apply F2. intros Hc. apply elem_of_cons in Hc as [->|[->|Hc]%elem_of_cons].
    + apply (N3 FREE); [rewrite fmap_app in Ha; clear -Ha; mem|by left].
    + apply Ni. by rewrite fmap_app in Ha.
    + apply (N3 a); [rewrite fmap_app in Ha; clear -Ha; mem|by right].
  - eapply (ring_frame v2); [|done]. intros a _. by rewrite nxt_with_value, prv_with_value.
  - rewrite length_alter, L2, L1, <- (rep_cover _ _ _ H), !fmap_app. simpl. by rewrite <- !Permutation_middle.
  - intros j y Hj. assert (j <> i) by (intros ->; apply Ni; right; rewrite <- fmap_app; by apply (list_elem_of_fmap_2 fst) in Hj).
    slab. rewrite V2, V1. apply (rep_val _ _ _ H). clear -Hj. mem.
  - intros j Hj. slab. rewrite V2, V1. apply (rep_none _ _ _ H).
    rewrite fmap_app in *. simpl. mem.
Qed.

(** Linking a detached cell that holds [x] in front of the occupied ring. *)
Lemma link_front v occ fre i x :
  ring v OCCUPIED occ.*1 -> ring v FREE fre ->
  FREE :: OCCUPIED :: (i :: occ.*1) ++ fre ≡ₚ seq 0 (length v) ->
  (forall j y, (j, y) ∈ (i, x) :: occ -> val v j = Some y) ->
  (forall j, j ∉ i :: occ.*1 -> val v j = None) ->
  exists v', link_after i OCCUPIED (mkList v) = (Done tt, mkList v') /\ rep v' ((i, x) :: occ) fre.
Proof.
  intros R1 R2 C V1 V2.
  assert (NoDup (FREE :: OCCUPIED :: (i :: occ.*1) ++ fre)) as N
    by (rewrite C; apply NoDup_ListNoDup, seq_NoDup).
  assert ((i < length v)%nat) as Li.
  { assert (i ∈ seq 0 (length v)) as Hi by (rewrite <- C; mem). apply elem_of_seq in Hi. lia. }
  simpl in N. rewrite !NoDup_cons, NoDup_app in N. destruct N as (Nf & No & Ni & Nocc & Nof & Nfre).
  destruct (link_after_run v OCCUPIED occ.*1 i R1) as (v' & E & R & F); [constructor; mem| |done|].
  { intros [->|Hi]%elem_of_cons; [apply No; by left|apply Ni; mem]. }
  exists v'. split; [done|]. destruct F as (L & V & F). split.
  - done.
  - eapply ring_frame; [|exact R2]. intros a Ha. apply F. intros Hc.
    apply elem_of_cons in Ha as [->|Ha], Hc as [Hc|Hc].
    + done.
    + apply Nf. clear -Hc. mem.
    + subst. apply No. clear -Ha. mem.
    + apply elem_of_cons in Hc as [->|Hc]; [apply Ni; clear -Ha; mem|by apply (Nof a)].
  - by rewrite L, <- C.
  - intros j y. rewrite V. apply V1.
  - intros j. rewrite V. apply V2.
Qed.

(** The cell [push_front] takes, for each shape of the free ring, and what it detaches. *)
Lemma push_front_reuse v occ i fre x : rep v occ (i :: fre) ->
  exists v', push_front x (mkList v) = (Done i, mkList v') /\ rep v' ((i, x) :: occ) fre.
Proof.
  intros H. pose proof (rep_disjoint _ _ _ H) as (N1 & N2 & N3).
  pose proof (rep_fre _ _ _ H) as R.
  assert (nxt v FREE = Some i) as E by apply R.
  unfold nxt in E. destruct (v !! FREE) as [f|] eqn:Ef; [|done]. injection E as E.
  assert (i <> FREE) by (apply NoDup_cons in N2 as [N _]; mem).
  assert ((i < length v)%nat) as Li by (eapply rep_lt; [done|mem]).
  set (v1 := alter (with_value (Some x)) i v).
  assert (ring v1 FREE ([] ++ i :: fre)) as R1.
  { eapply ring_frame; [|exact R]. intros a _. unfold v1. by rewrite nxt_with_value, prv_with_value. }
  destruct (unlink_run _ _ _ _ _ R1 N2) as (v2 & E2 & R2 & L2 & V2 & F2).
  destruct (link_front v2 occ fre i x) as (v3 & E3 & H3).
  - eapply ring_frame; [|exact (rep_occ _ _ _ H)]. intros a Ha.
    destruct (F2 a) as [-> ->].
    { intros Hc. apply (N3 a Ha). clear -Hc. simpl in Hc. mem. }
    unfold v1. by rewrite nxt_with_value, prv_with_value.
  - done.
  - rewrite L2. unfold v1. rewrite length_alter, <- (rep_cover _ _ _ H). simpl.
    by rewrite (Permutation_middle occ.*1 fre i).
  - intros j y Hj. rewrite V2. unfold v1. rewrite val_with_value by done.
    apply elem_of_cons in Hj as [[= -> ->]|Hj]; [by rewrite decide_True|].
    rewrite decide_False; [by apply (rep_val _ _ _ H)|]. intros <-.
    apply (N3 i); [right; by apply (list_elem_of_fmap_2 fst) in Hj|mem].
  - intros j Hj. rewrite V2. unfold v1. rewrite val_with_value by done.
    rewrite decide_False by mem. apply (rep_none _ _ _ H). mem.
  - exists v3. split; [|done]. unfold push_front. erewrite bind_cell_run by done.
    rewrite decide_False by congruence. unfold bind at 1. simpl.
    erewrite bind_cell_run by done. rewrite E. unfold set_value. rewrite bind_update_run by done.
    fold v1. unfold bind at 1. rewrite E2. unfold bind at 1. by rewrite E3.
Qed.

(** Links of a slab grown by one cell. *)
Lemma grow_links v e j : (j < length v)%nat ->
  nxt (v ++ [e]) j = nxt v j /\ prv (v ++ [e]) j = prv v j /\ val (v ++ [e]) j = val v j.
Proof. intros H. unfold nxt, prv, val. by rewrite !lookup_app_l. Qed.

Lemma push_front_grow v occ x : rep v occ [] ->
  exists v', push_front x (mkList v) = (Done (length v), mkList v') /\
    rep v' ((length v, x) :: occ) [].
Proof.
  intros H. pose proof (rep_disjoint _ _ _ H) as (N1 & N2 & N3).
  pose proof (rep_length _ _ _ H) as Len. simpl in Len. set (n := length v) in *.
  destruct (rep_fre _ _ _ H) as (E & _ & _).
  unfold nxt in E. destruct (v !! FREE) as [f|] eqn:Ef; [|done]. injection E as E.
  set (w := v ++ [mkEntry None FREE FREE]).
  assert (length w = S n) as Lw by (unfold w; rewrite length_app; simpl; lia).
  set (w3 := alter (with_prev FREE) FREE (alter (with_next FREE) FREE
               (alter (with_value (Some x)) n (alter (with_next n) FREE w)))).
  assert (length w3 = S n) as L3 by (unfold w3; by rewrite !length_alter).
  assert (forall j, (j < n)%nat -> j <> FREE ->
    nxt w3 j = nxt v j /\ prv w3 j = prv v j /\ val w3 j = val v j) as K.
  { intros j Hj Hf. destruct (grow_links v (mkEntry None FREE FREE) j Hj) as (<- & <- & <-).
    fold w. unfold w3. unfold FREE in *. split_and!; slab; lia. }
  destruct (link_front w3 occ [] n x) as (v' & E' & H').
  - eapply ring_frame; [|exact (rep_occ _ _ _ H)]. intros a Ha.
    destruct (K a) as (-> & -> & _); [| |done].
    + eapply rep_lt; [done|]. clear -Ha. mem.
    + intros ->. apply (N3 _ Ha). by left.
  - unfold ring. simpl. unfold w3, FREE. split_and!; slab.
  - pose proof (rep_cover _ _ _ H) as C. fold n in C.
    rewrite L3, seq_S. simpl. rewrite <- C. rewrite !app_nil_r. simpl.
    by rewrite <- !Permutation_cons_append, (Permutation_swap n), (Permutation_swap n).
  - intros j y [[= -> ->]|Hj]%elem_of_cons.
    + unfold w3, FREE. slab.
    + assert (j ∈ occ.*1) as Hj1 by by apply (list_elem_of_fmap_2 fst) in Hj.
      destruct (K j) as (_ & _ & ->).
      * eapply rep_lt; [done|]. clear -Hj1. mem.
      * intros ->. apply (N3 FREE); [by right|by left].
      * by apply (rep_val _ _ _ H).
  - intros j Hj. destruct (decide (j < n)%nat) as [Hl|Hl].
    + destruct (decide (j = FREE)) as [->|Hf].
      * destruct (grow_links v (mkEntry None FREE FREE) 0%nat) as (_ & _ & Ev); [done|].
        fold w in Ev. unfold w3, FREE. slab; [lia|]. unfold FREE in Ev. rewrite Ev. apply (rep_none _ _ _ H). intros Hc. apply (N3 0%nat); [by right|by left].
      * destruct (K j) as (_ & _ & ->); [done..|]. apply (rep_none _ _ _ H). mem.
    + assert (j <> n) by mem. unfold val. rewrite lookup_ge_None_2; [done|]. lia.
  - exists v'. split; [|done]. unfold push_front. erewrite bind_cell_run by done.
    rewrite decide_True by done. unfold bind at 1 2 3. simpl. fold w. rewrite Lw.
    unfold set_next. rewrite update_run by (unfold FREE; lia). replace (S n - 1)%nat with n by lia.
    destruct (lookup_lt_is_Some_2 w FREE) as [e0 Ee0]; [unfold FREE; lia|].
    erewrite bind_cell_run by (by rewrite list_lookup_alter_eq, Ee0). simpl.
    unfold set_value. rewrite bind_update_run by (rewrite length_alter; lia).
    assert (unlink n (mkList (alter (with_value (Some x)) n (alter (with_next n) FREE w)))
            = (Done tt, mkList w3)) as Eu.
    { assert (w !! n = Some (mkEntry None FREE FREE)) as En by by apply list_lookup_middle.
      unfold unlink. erewrite bind_cell_run by
        (rewrite list_lookup_alter_eq, list_lookup_alter_ne by (unfold FREE; lia); by rewrite En).
      simpl. unfold set_next, set_prev. rewrite bind_update_run by (rewrite !length_alter; unfold FREE; lia).
      by apply update_run; rewrite !length_alter; unfold FREE; lia. }
    unfold bind at 1. rewrite Eu. unfold bind at 1. by rewrite E'.
Qed.

(** Pushing makes the new value the front one; the slot is the first free one, or a new
    one at the end of the slab when none is free. *)
Lemma push_front_run v occ fre x : rep v occ fre ->
  exists v' i, push_front x (mkList v) = (Done i, mkList v') /\
    rep v' ((i, x) :: occ) (tail fre) /\ i = hd (length v) fre.
Proof.
  intros H. destruct fre as [|i fre]; simpl.
  - destruct (push_front_grow _ _ x H) as (v' & ? & ?). eauto.
  - destruct (push_front_reuse _ _ _ _ x H) as (v' & ? & ?). eauto.
Qed.

(** Replacing the value of an occupied slot in place. *)
Lemma set_value_rep v xs i x ys fre x' : rep v (xs ++ (i, x) :: ys) fre ->
  (i < length v)%nat /\ rep (alter (with_value (Some x')) i v) (xs ++ (i, x') :: ys) fre.
Proof.
  intros H. pose proof (rep_disjoint _ _ _ H) as (N1 & N2 & N3).
  assert ((i < length v)%nat) as Li by (eapply rep_lt; [done|]; rewrite fmap_app; simpl; mem).
  split; [done|]. rewrite fmap_app in N1. simpl in N1. apply NoDup_mid in N1 as [_ Ni].
  assert ((xs ++ (i, x') :: ys).*1 = (xs ++ (i, x) :: ys).*1) as E1 by by rewrite !fmap_app.
  split; rewrite ?E1.
  - eapply ring_frame; [|exact (rep_occ _ _ _ H)]. intros a _. by rewrite nxt_with_value, prv_with_value.
  - eapply ring_frame; [|exact (rep_fre _ _ _ H)]. intros a _. by rewrite nxt_with_value, prv_with_value.
  - rewrite length_alter. apply (rep_cover _ _ _ H).
  - intros j y Hj. rewrite val_with_value by done.
    apply elem_of_app in Hj as [Hj|[[= -> ->]|Hj]%elem_of_cons]; [|by rewrite decide_True|].
    + rewrite decide_False; [apply (rep_val _ _ _ H); clear -Hj; mem|]. intros <-.
      apply Ni. apply (list_elem_of_fmap_2 fst) in Hj. clear -Hj. simpl in Hj. mem.
    + rewrite decide_False; [apply (rep_val _ _ _ H); clear -Hj; mem|]. intros <-.
      apply Ni. apply (list_elem_of_fmap_2 fst) in Hj. clear -Hj. simpl in Hj. mem.
  - intros j Hj. rewrite val_with_value by done. rewrite decide_False.
    + by apply (rep_none _ _ _ H).
    + intros <-. apply Hj. rewrite fmap_app. simpl. mem.
Qed.

Lemma set_run v xs i x ys fre x' : rep v (xs ++ (i, x) :: ys) fre ->
  exists v', set i x' (mkList v) = (Done (Some x), mkList v') /\ rep v' (xs ++ (i, x') :: ys) fre.
Proof.
  intros H. destruct (set_value_rep _ _ _ _ _ _ x' H) as [Li H'].
  destruct (rep_lookup _ _ _ i x H) as (e & Ee & Ev); [mem|].
  eexists. split; [|exact H']. unfold set. erewrite bind_cell_run by done.
  unfold set_value. rewrite bind_update_run by done. unfold ret. by rewrite Ev.
Qed.

Lemma write_run v xs i x ys fre x' : rep v (xs ++ (i, x) :: ys) fre ->
  exists v', write i x' (mkList v) = (Done tt, mkList v') /\ rep v' (xs ++ (i, x') :: ys) fre.
Proof.
  intros H. destruct (set_value_rep _ _ _ _ _ _ x' H) as [Li H'].
  destruct (rep_lookup _ _ _ i x H) as (e & Ee & Ev); [mem|].
  eexists. split; [|exact H']. unfold write. erewrite bind_cell_run by done. rewrite Ev.
  unfold bind at 1. simpl. unfold set_value. by apply update_run.
Qed.

(** [back] is the least recently used slot. *)
Lemma back_run v xs i x fre : rep v (xs ++ [(i, x)]) fre -> back (mkList v) = Done i.
Proof.
  intros H. pose proof (rep_occ _ _ _ H) as R. rewrite fmap_app in R.
  destruct (ring_split _ _ _ _ _ R) as (p & n & ls & rs & _ & [= <- _] & _ & _ & _ & _ & E & _).
  unfold prv in E. unfold back. simpl. by destruct (v !! OCCUPIED); simplify_eq/=.
Qed.

Lemma rep_OCCUPIED v occ fre : rep v occ fre -> OCCUPIED ∉ occ.*1.
Proof. intros H%rep_disjoint. destruct H as ([H _]%NoDup_cons & _). done. Qed.

Lemma indices_from_run v (x : nat) ids fuel :
  linked v x (ids ++ [OCCUPIED]) -> OCCUPIED ∉ ids -> (length ids <= fuel)%nat ->
  indices_from fuel (mkList v) x = Done ids.
Proof.
  revert x fuel. induction ids as [|i ids IH]; intros x fuel HL HO Hf; destruct HL as (E & _ & HL);
    unfold nxt in E; destruct (v !! x) as [e|] eqn:Ex; try done; injection E as E.
  - destruct fuel; simpl; rewrite Ex; simpl; by rewrite decide_True.
  - simpl in Hf. destruct fuel as [|fuel]; [lia|]. simpl. rewrite Ex. simpl.
    rewrite decide_False by (rewrite E; mem). rewrite E, IH; [done|done|mem|lia].
Qed.

Lemma iter_indices_run v occ fre : rep v occ fre -> iter_indices (mkList v) = Done occ.*1.
Proof.
  intros H. apply indices_from_run; [exact (rep_occ _ _ _ H)|by eapply rep_OCCUPIED|].
  rewrite length_fmap. simpl. rewrite (rep_length _ _ _ H). lia.
Qed.

Lemma iter_from_run v (x : nat) occ fuel :
  linked v x (occ.*1 ++ [OCCUPIED]) -> OCCUPIED ∉ occ.*1 -> (length occ <= fuel)%nat ->
  (forall i y, (i, y) ∈ occ -> val v i = Some y) ->
  iter_from fuel (mkList v) x = Done occ.*2.
Proof.
  revert x fuel. induction occ as [|[i y] occ IH]; intros x fuel HL HO Hf HV;
    destruct HL as (E & _ & HL);
    unfold nxt in E; destruct (v !! x) as [e|] eqn:Ex; try done; injection E as E.
  - destruct fuel; simpl; rewrite Ex; simpl; by rewrite decide_True.
  - simpl in Hf, HO. destruct fuel as [|fuel]; [lia|]. simpl. rewrite Ex. simpl.
    rewrite decide_False by (rewrite E; mem). rewrite E.
    assert (val v i = Some y) as Ev by (apply HV; mem). unfold val in Ev.
    destruct (v !! i) as [ei|]; [|done]. simpl in *. rewrite Ev.
    rewrite IH; [done|done|mem|lia|]. intros j z Hj. apply HV. mem.
Qed.

Lemma iter_run v occ fre : rep v occ fre -> iter (mkList v) = Done occ.*2.
Proof.
  intros H. apply iter_from_run; [exact (rep_occ _ _ _ H)|by eapply rep_OCCUPIED| |].
  - simpl. rewrite (rep_length _ _ _ H). lia.
  - intros i y. apply (rep_val _ _ _ H).
Qed.

Lemma drain_loop_run v (x : nat) occ out fuel :
  linked v x (occ.*1 ++ [OCCUPIED]) -> NoDup (OCCUPIED :: occ.*1) -> (length occ <= fuel)%nat ->
  (forall i y, (i, y) ∈ occ -> val v i = Some y) ->
  exists v', drain_loop fuel (hd OCCUPIED occ.*1) out (mkList v) = (Done (out ++ occ.*2), mkList v').
Proof.
  revert v x out fuel. induction occ as [|[i y] occ IH]; intros v x out fuel HL HN Hf HV.
  - exists v. simpl. rewrite app_nil_r. by destruct fuel.
  - destruct HL as (_ & _ & HL). simpl in Hf, HN. destruct fuel as [|fuel]; [lia|].
    rewrite !NoDup_cons in HN. destruct HN as (HO & Hi & HN).
    assert (val v i = Some y) as Ev by (apply HV; mem). unfold val in Ev.
    destruct (v !! i) as [e|] eqn:Ee; [|done]. simpl in Ev.
    assert (next e = hd OCCUPIED occ.*1) as En.
    { assert (nxt v i = Some (hd OCCUPIED occ.*1)) as E by (destruct occ; apply HL).
      unfold nxt in E. rewrite Ee in E. by injection E. }
    assert ((i < length v)%nat) as Li by by eapply lookup_lt_Some.
    destruct (IH (alter (with_value None) i v) i (out ++ [y]) fuel) as [v' E'].
    + eapply linked_frame; [| |exact HL]; intros; by rewrite ?nxt_with_value, ?prv_with_value.
    + constructor; [mem|done].
    + lia.
    + intros j z Hj. rewrite val_with_value by done. rewrite decide_False.
      * apply HV. mem.
      * intros <-. apply Hi. by apply (list_elem_of_fmap_2 fst) in Hj.
    + exists v'. simpl. rewrite decide_False by mem. erewrite bind_cell_run by done.
      unfold set_value. rewrite bind_update_run by done. rewrite Ev, En, E'.
      by rewrite <- app_assoc.
Qed.

(** Draining hands out the values in recency order and leaves a fresh list. *)
Lemma drain_into_run v occ fre out : rep v occ fre ->
  drain_into out (mkList v) = (Done (out ++ occ.*2), mkList sentinels).
Proof.
  intros H. pose proof (rep_occ _ _ _ H) as R. pose proof (rep_disjoint _ _ _ H) as (N & _ & _).
  assert (exists e, v !! OCCUPIED = Some e /\ next e = hd OCCUPIED occ.*1) as (e & Ee & En).
  { assert (nxt v OCCUPIED = Some (hd OCCUPIED occ.*1)) as E by (destruct occ; apply R).
    unfold nxt in E. destruct (v !! OCCUPIED) as [e|]; [|done]. exists e. by injection E. }
  destruct (drain_loop_run v OCCUPIED occ out (length v) R N) as [v' E'].
  - rewrite (rep_length _ _ _ H). lia.
  - intros i y. apply (rep_val _ _ _ H).
  - unfold drain_into. erewrite bind_cell_run by done. unfold bind at 1. simpl.
    unfold bind at 1. by rewrite En, E'.
Qed.
End Rep.

(** ** Slabs in use

    [reach l occ peak]: [l] came about by a sequence of operations of the list, it holds the
    values [occ] (with the slots that were handed out for them, front first), and never held
    more than [peak] values. *)
Section Reach.
Context {T : Type}.
Implicit Types (l : LRUList T) (occ xs ys : list (nat * T)) (x : T).

Inductive reach : LRUList T -> list (nat * T) -> nat -> Prop :=
| reach_new n : reach (with_capacity n) [] 0
| reach_push l occ peak x i l' : reach l occ peak -> push_front x l = (Done i, l') ->
    reach l' ((i, x) :: occ) (Nat.max peak (S (length occ)))
| reach_promote l xs i x ys peak l' : reach l (xs ++ (i, x) :: ys) peak ->
    move_to_front i l = (Done tt, l') -> reach l' ((i, x) :: xs ++ ys) peak
| reach_remove l xs i x ys peak y l' : reach l (xs ++ (i, x) :: ys) peak ->
    remove i l = (Done y, l') -> reach l' (xs ++ ys) peak
| reach_set l xs i x ys peak x' o l' : reach l (xs ++ (i, x) :: ys) peak ->
    set i x' l = (Done o, l') -> reach l' (xs ++ (i, x') :: ys) peak
| reach_clear l occ peak l' : reach l occ peak -> clear l = (Done tt, l') -> reach l' [] peak
| reach_drain l occ peak out l' : reach l occ peak -> drain_into [] l = (Done out, l') ->
    reach l' [] peak.

Lemma same_length v v' occ occ' fre fre' : rep v' occ' fre' -> rep v occ fre ->
  (length occ' + length fre' = length occ + length fre)%nat -> length v' = length v.
Proof. intros H' H E. rewrite (rep_length _ _ _ H'), (rep_length _ _ _ H). lia. Qed.

Local Ltac len := simpl; rewrite ?length_app; simpl; lia.

Lemma reach_rep l occ peak : reach l occ peak -> exists fre, rep (values l) occ fre /\
  (length (values l) <= 2 + peak)%nat.
Proof.
  induction 1 as [n|l occ peak x i l' _ (fre & H & L) E|l xs i x ys peak l' _ (fre & H & L) E
    |l xs i x ys peak y l' _ (fre & H & L) E|l xs i x ys peak x' o l' _ (fre & H & L) E
    |l occ peak l' _ (fre & H & L) E|l occ peak out l' _ (fre & H & L) E]; try (destruct l as [v]; simpl in H).
  - exists []. split; [apply rep_new|simpl; lia].
  - destruct (push_front_run _ _ _ x H) as (v' & j & E' & H' & _). rewrite E in E'. injection E' as <- ->.
    exists (tail fre). split; [exact H'|].
    pose proof (rep_length _ _ _ H') as L'. pose proof (rep_length _ _ _ H).
    destruct fre; simpl in *; lia.
  - destruct (move_to_front_run _ _ _ _ _ _ H) as (v' & E' & H'). rewrite E in E'. injection E' as ->.
    exists fre. split; [exact H'|]. simpl. by rewrite (same_length _ _ _ _ _ _ H' H) by len.
  - destruct (remove_run _ _ _ _ _ _ H) as (v' & E' & H'). rewrite E in E'. injection E' as -> ->.
    exists (i :: fre). split; [exact H'|]. simpl. by rewrite (same_length _ _ _ _ _ _ H' H) by len.
  - destruct (set_run _ _ _ _ _ _ x' H) as (v' & E' & H'). rewrite E in E'. injection E' as -> ->.
    exists fre. split; [exact H'|]. simpl. by rewrite (same_length _ _ _ _ _ _ H' H) by len.
  - unfold clear, modify in E. simplify_eq/=. exists []. split; [apply rep_new|lia].
  - simpl in H. rewrite (drain_into_run _ _ _ [] H) in E. simplify_eq/=.
    exists []. split; [apply rep_new|lia].
Qed.

(** C12: A slab list in use behaves as the sequence of its values: handed-out slots are
    distinct, reads and both iterations give the values in order, every operation on an
    occupied slot and every insertion and draining returns (no index is ever out of range), a
    new value never lands on an occupied slot, [back] is the slot of the last value, and the
    slab never grows beyond its two sentinels and the largest number of values held at once. *)
Theorem slab_in_use l occ peak : reach l occ peak ->
  NoDup occ.*1 /\ iter l = Done occ.*2 /\ iter_indices l = Done occ.*1 /\
  (forall i x, (i, x) ∈ occ -> get l i = Done x /\
     (exists l', move_to_front i l = (Done tt, l')) /\
     (exists l', remove i l = (Done x, l')) /\
     (forall x', exists l', set i x' l = (Done (Some x), l'))) /\
  (forall x, exists i l', push_front x l = (Done i, l') /\ i ∉ occ.*1) /\
  (forall xs i x, occ = xs ++ [(i, x)] -> back l = Done i) /\
  (exists l', drain_into [] l = (Done occ.*2, l')) /\
  (length (values l) <= 2 + peak)%nat.
Proof.
  intros (fre & H & L)%reach_rep. destruct l as [v]. simpl in *. split_and!.
  - destruct (rep_disjoint _ _ _ H) as ([_ N]%NoDup_cons & _). done.
  - by eapply iter_run.
  - by eapply iter_indices_run.
  - intros i x Hin. split; [by eapply get_run|]. apply list_elem_of_split in Hin as (xs & ys & ->).
    split_and!.
    + destruct (move_to_front_run _ _ _ _ _ _ H) as (v' & E & _). eauto.
    + destruct (remove_run _ _ _ _ _ _ H) as (v' & E & _). eauto.
    + intros x'. destruct (set_run _ _ _ _ _ _ x' H) as (v' & E & _). eauto.
  - intros x. destruct (push_front_run _ _ _ x H) as (v' & i & E & H' & _). exists i, (mkList v').
    split; [done|]. destruct (rep_disjoint _ _ _ H') as ([_ [N _]%NoDup_cons]%NoDup_cons & _). done.
  - intros xs i x ->. by eapply back_run.
  - eexists. by apply (drain_into_run _ _ _ [] H).
  - done.
Qed.

End Reach.

Lemma slab_in_use_witness : exists l, reach l [(2, 20); (3, 40)]%nat 2 /\ iter l = Done [20; 40]%nat.
Proof.
  assert (exists l, reach l [(2, 20); (3, 40)]%nat 2) as (l & H).
  { pose proof (reach_new (T := nat) 2) as H.
    eapply (reach_push _ _ _ 10%nat) in H; [|vm_compute; reflexivity].
    eapply (reach_push _ _ _ 40%nat) in H; [|vm_compute; reflexivity].
    eapply (reach_promote _ [(3, 40)] 2 10 [])%nat in H; [|vm_compute; reflexivity].
    eapply (reach_remove _ [] 2 10 [(3, 40)])%nat in H; [|vm_compute; reflexivity].
    eapply (reach_push _ _ _ 20%nat) in H; [|vm_compute; reflexivity].
    eexists. exact H. }
  exists l. split; [exact H|]. by destruct (slab_in_use l _ _ H) as (_ & E & _).
Defined.
