(* ===== verification/HashTable.v ===== *)
(** * The interface of [hashbrown::HashTable<usize>]

    [LruCache] indexes its slab with a [HashTable<usize>] of the third-party crate
    [hashbrown].  The table is a parameter of the model: [HashTable] names the calls the
    cache makes, [HashTableLaws] what their documentation promises.  [ListTable] is a
    concrete table that satisfies the laws. *)
From S2P Require Import Prelude.

Class HashTable (HT : Type) : Type := {
  ht_new : HT;
  ht_len : HT -> nat;
  ht_clear : HT -> HT;
  (** [find(hash, eq)] *)
  ht_find : HT -> Z -> (nat -> outcome bool) -> outcome (option nat);
  (** [find_entry(hash, eq)], then [OccupiedEntry::remove] when there is an entry *)
  ht_find_remove : HT -> Z -> (nat -> outcome bool) -> outcome (option (nat * HT));
  (** [insert_unique(hash, value, hasher)] *)
  ht_insert_unique : HT -> Z -> nat -> (nat -> outcome Z) -> outcome HT;
  (** [try_reserve(additional, hasher)]; [None] is an allocation failure *)
  ht_try_reserve : HT -> Z -> option HT }.

(** The documented behaviour, over the multiset of stored values, each with the hash it was
    inserted with: [eq] is called for the entries of the given hash and possibly others, and
    a found entry satisfies it; [hasher] must agree with the stored hashes. *)
Class HashTableLaws (HT : Type) `{!HashTable HT} : Type := {
  ht_elems : HT -> list (Z * nat);
  ht_new_elems : ht_elems ht_new = [];
  ht_len_elems : forall t, ht_len t = length (ht_elems t);
  ht_clear_elems : forall t, ht_elems (ht_clear t) = [];
  ht_find_spec : forall t h eq,
    (forall h' i, (h', i) ∈ ht_elems t -> exists b, eq i = Done b) ->
    exists r, ht_find t h eq = Done r /\
      match r with
      | Some i => eq i = Done true /\ exists h', (h', i) ∈ ht_elems t
      | None => forall i, (h, i) ∈ ht_elems t -> eq i = Done false
      end;
  ht_find_remove_spec : forall t h eq,
    (forall h' i, (h', i) ∈ ht_elems t -> exists b, eq i = Done b) ->
    exists r, ht_find_remove t h eq = Done r /\
      match r with
      | Some (i, t') => eq i = Done true /\ exists h', ht_elems t ≡ₚ (h', i) :: ht_elems t'
      | None => forall i, (h, i) ∈ ht_elems t -> eq i = Done false
      end;
  ht_insert_spec : forall t h i hasher,
    (forall h' j, (h', j) ∈ ht_elems t -> hasher j = Done h') ->
    exists t', ht_insert_unique t h i hasher = Done t' /\ ht_elems t' ≡ₚ (h, i) :: ht_elems t;
  ht_reserve_spec : forall t n t', ht_try_reserve t n = Some t' -> ht_elems t' ≡ₚ ht_elems t }.

(** ** A concrete table *)
Module ListTable.
Definition t : Type := list (Z * nat).

Fixpoint find (tb : t) (h : Z) (eq : nat -> outcome bool) : outcome (option nat) :=
  match tb with
  | [] => Done None
  | (h', i) :: tb =>
      if h' =? h then let? b := eq i in if (b : bool) then Done (Some i) else find tb h eq
      else find tb h eq
  end.

Fixpoint find_remove (tb : t) (h : Z) (eq : nat -> outcome bool) : outcome (option (nat * t)) :=
  match tb with
  | [] => Done None
  | (h', i) :: tb =>
      let next := let? r := find_remove tb h eq in
                  Done ((fun p => (p.1, (h', i) :: p.2)) <$> r) in
      if h' =? h then let? b := eq i in if (b : bool) then Done (Some (i, tb)) else next
      else next
  end.

#[global] Instance table : HashTable t := {|
  ht_new := []; ht_len := length; ht_clear := fun _ => [];
  ht_find := find; ht_find_remove := find_remove;
  ht_insert_unique := fun tb h i _ => Done ((h, i) :: tb);
  ht_try_reserve := fun tb n => if n <=? 2 ^ 32 then Some tb else None |}.

Lemma find_ok tb h eq :
  (forall h' i, (h', i) ∈ tb -> exists b, eq i = Done b) ->
  exists r, find tb h eq = Done r /\
    match r with
    | Some i => eq i = Done true /\ exists h', (h', i) ∈ tb
    | None => forall i, (h, i) ∈ tb -> eq i = Done false
    end.
Proof.
  induction tb as [|[h' i] tb IH]; intros H; simpl.
  - exists None. split; [done|]. set_solver.
  - destruct IH as (r & E & Hr); [intros; eapply H; by right|].
    destruct (H h' i) as [b Eb]; [by left|].
    destruct (Z.eqb_spec h' h) as [->|Hne].
    + rewrite Eb. simpl. destruct b.
      * exists (Some i). split; [done|]. split; [done|]. exists h. by left.
      * rewrite E. exists r. split; [done|]. destruct r as [j|].
        -- destruct Hr as (? & h2 & ?). split; [done|]. exists h2. by right.
        -- intros j [[= ->]|Hj]%elem_of_cons; auto.
    + rewrite E. exists r. split; [done|]. destruct r as [j|].
      * destruct Hr as (? & h2 & ?). split; [done|]. exists h2. by right.
      * intros j [[= ->]|Hj]%elem_of_cons; auto; congruence.
Qed.

Lemma find_remove_ok tb h eq :
  (forall h' i, (h', i) ∈ tb -> exists b, eq i = Done b) ->
  exists r, find_remove tb h eq = Done r /\
    match r with
    | Some (i, t') => eq i = Done true /\ exists h', tb ≡ₚ (h', i) :: t'
    | None => forall i, (h, i) ∈ tb -> eq i = Done false
    end.
Proof.
  induction tb as [|[h' i] tb IH]; intros H; simpl.
  - exists None. split; [done|]. set_solver.
  - destruct IH as (r & E & Hr); [intros; eapply H; by right|].
    destruct (H h' i) as [b Eb]; [by left|].
    assert (match r with
      | Some (j, t') => exists r', (fun p : nat * t => (p.1, (h', i) :: p.2)) <$> r = Some (j, r') /\
          eq j = Done true /\ exists h2, (h', i) :: tb ≡ₚ (h2, j) :: r'
      | None => True end) as Hs.
    { destruct r as [[j t']|]; [|done]. destruct Hr as (? & h2 & P).
      eexists. split; [done|]. split; [done|]. exists h2. rewrite P. apply Permutation_swap. }
    destruct (Z.eqb_spec h' h) as [->|Hne]; [rewrite Eb; simpl; destruct b|].
    + exists (Some (i, tb)). split; [done|]. split; [done|]. by exists h.
    + rewrite E. simpl. destruct r as [[j t']|].
      * destruct Hs as (r' & [= <-] & Hs). by eexists.
      * exists None. split; [done|]. intros j [[= ->]|Hj]%elem_of_cons; auto.
    + rewrite E. simpl. destruct r as [[j t']|].
      * destruct Hs as (r' & [= <-] & Hs). by eexists.
      * exists None. split; [done|]. intros j [[= ->]|Hj]%elem_of_cons; auto; congruence.
Qed.

#[global] Instance table_laws : HashTableLaws t.
Proof.
  refine {| ht_elems := fun tb : t => tb |}; try done.
  - exact find_ok.
  - exact find_remove_ok.
  - intros tb h i hasher _. by exists ((h, i) :: tb).
  - intros tb n t'. simpl. by destruct (n <=? 2 ^ 32); intros [= ->].
Defined.
End ListTable.
