(* ===== verification/Lru.v ===== *)
(** * The size-bounded LRU store ([src/stores/lru.rs])

    [LruCache] keeps its entries in the slab list [order], most recently used first, and a
    hash table [store] from key hashes to slots of that list.  References into the cache
    ([&mut V]) are slot numbers. *)
From Stdlib Require Import String.
From S2P Require Import Prelude Keys Stores LruList HashTable.
#[local] Close Scope string_scope.

Section LruCache.
Context {K V W X HT : Type} `{!KeyEq K, !World X W, !HashTable HT}.

(** ** Data *)

Record LruCache : Type := mkLru {
  store : HT;
  order : LRUList (K * V);
  capacity : Z;
  hits : Z;
  misses : Z;
  evictions : Z;
  on_evict : OnEvict K V W;
  track_hit_miss : bool }.

Definition with_store (t : HT) (c : LruCache) : LruCache :=
  mkLru t (order c) (capacity c) (hits c) (misses c) (evictions c) (on_evict c) (track_hit_miss c).
Definition with_order (o : LRUList (K * V)) (c : LruCache) : LruCache :=
  mkLru (store c) o (capacity c) (hits c) (misses c) (evictions c) (on_evict c) (track_hit_miss c).
Definition with_capacity (n : Z) (c : LruCache) : LruCache :=
  mkLru (store c) (order c) n (hits c) (misses c) (evictions c) (on_evict c) (track_hit_miss c).
Definition with_hits (n : Z) (c : LruCache) : LruCache :=
  mkLru (store c) (order c) (capacity c) n (misses c) (evictions c) (on_evict c) (track_hit_miss c).
Definition with_misses (n : Z) (c : LruCache) : LruCache :=
  mkLru (store c) (order c) (capacity c) (hits c) n (evictions c) (on_evict c) (track_hit_miss c).
Definition with_evictions (n : Z) (c : LruCache) : LruCache :=
  mkLru (store c) (order c) (capacity c) (hits c) (misses c) n (on_evict c) (track_hit_miss c).

(** A method on [&mut self], run over the world [X]. *)
Definition Op (A : Type) : Type := ST (LruCache * X) A.

Definition self : Op LruCache := gets fst.
Definition set_self (f : LruCache -> LruCache) : Op unit := modify (fun s => (f s.1, s.2)).
Definition on_order {A} (m : ST (LRUList (K * V)) A) : Op A :=
  zoom (fun s => order s.1) (fun o s => (with_order o s.1, s.2)) m.

(** [fetch_add] on the counters. *)
Definition count_hit : Op unit := set_self (fun c => with_hits (fetch_add (hits c) 1) c).
Definition count_miss : Op unit := set_self (fun c => with_misses (fetch_add (misses c) 1) c).
Definition count_evictions (n : Z) : Op unit :=
  set_self (fun c => with_evictions (fetch_add (evictions c) n) c).
Definition tracked (m : Op unit) : Op unit :=
  let! c := self in if track_hit_miss c then m else ret tt.

(** [if let Some(on_evict) = &self.on_evict { on_evict(&k, &v) }] *)
Definition notify (k : K) (v : V) : Op unit :=
  let! c := self in
  match on_evict c with
  | Some f => user (lift_user (f k v))
  | None => ret tt
  end.

(** ** Construction *)

Record LruCacheBuilder : Type := mkBuilder { b_size : option Z; b_on_evict : OnEvict K V W }.

Definition builder : LruCacheBuilder := mkBuilder None None.
Definition builder_max_size (n : Z) (b : LruCacheBuilder) := mkBuilder (Some n) (b_on_evict b).
Definition builder_on_evict (f : K -> V -> User W unit) (b : LruCacheBuilder) :=
  mkBuilder (b_size b) (Some f).

(** [try_reserve_exact] is the slab's allocator. *)
Definition build (try_reserve_exact : Z -> bool) (b : LruCacheBuilder) : result BuildError LruCache :=
  match b_size b with
  | None => Err (MissingRequired "max_size")
  | Some size =>
      if size =? 0 then Err (InvalidValue "max_size" "must be greater than zero") else
      match ht_try_reserve ht_new size with
      | None => Err (InvalidValue "max_size" "allocation failed")
      | Some store =>
          match try_with_capacity try_reserve_exact size with
          | Err e => Err e
          | Ok order => Ok (mkLru store order size 0 0 0 (b_on_evict b) true)
          end
      end
  end.

(** [LruCache::new] *)
Definition new (try_reserve_exact : Z -> bool) (max_size : Z) : outcome LruCache :=
  match build try_reserve_exact (builder_max_size max_size builder) with
  | Ok c => Done c
  | Err _ => Unwind
  end.

Definition disable_hit_miss_tracking (c : LruCache) : LruCache :=
  mkLru (store c) (order c) (capacity c) (hits c) (misses c) (evictions c) (on_evict c) false.

(** ** Lookup *)

Definition hash (key : K) : Z := khash key.

(** The closure [|&i| key == self.order.get(i).0.borrow()]. *)
Definition key_at (o : LRUList (K * V)) (key : K) (i : nat) : outcome bool :=
  let? e := get o i in Done (keq key e.1).

Definition get_index (c : LruCache) (h : Z) (key : K) : outcome (option nat) :=
  ht_find (store c) h (key_at (order c) key).

Definition insert_index (h : Z) (index : nat) : Op unit :=
  let! c := self in
  let! t := of_outcome (ht_insert_unique (store c) h index
              (fun i => let? e := get (order c) i in Done (hash e.1))) in
  set_self (with_store t).

(** ** Eviction *)

(** The [while] loop of [check_capacity]. *)
Fixpoint check_capacity_loop (fuel : nat) : Op unit :=
  let! c := self in
  if capacity c <? Z.of_nat (ht_len (store c)) then
    match fuel with
    | O => of_outcome OutOfFuel
    | S fuel =>
        let! index := of_outcome (back (order c)) in
        let! e := of_outcome (get (order c) index) in
        let! r := of_outcome (ht_find_remove (store c) (hash e.1) (key_at (order c) e.1)) in
        match r with
        | Some (_, t) => set_self (with_store t)
        | None => unwind
        end ;;
        let! evicted := on_order (remove index) in
        count_evictions 1 ;;
        notify evicted.1 evicted.2 ;;
        check_capacity_loop fuel
    end
  else ret tt.

Definition check_capacity : Op unit :=
  let! c := self in check_capacity_loop (ht_len (store c)).

(** The outer loop of [set_max_size]. *)
Fixpoint resize_loop (fuel : nat) : Op unit :=
  let! c := self in
  if capacity c <? Z.of_nat (ht_len (store c)) then
    match fuel with
    | O => of_outcome OutOfFuel
    | S fuel => check_capacity ;; resize_loop fuel
    end
  else ret tt.

Definition set_max_size (max_size : Z) : Op (option Z) :=
  if max_size <=? 0 then unwind else
  let! c := self in
  let prev := capacity c in
  set_self (with_capacity max_size) ;;
  resize_loop (ht_len (store c)) ;;
  ret (Some prev).

Definition try_set_max_size (max_size : Z) : Op (result SetMaxSizeError (option Z)) :=
  if max_size =? 0 then ret (Err ZeroMaxSize) else
  let! r := set_max_size max_size in ret (Ok r).

(** ** Order views *)

Definition iter_order_raw (c : LruCache) : outcome (list (K * V)) := iter (order c).
Definition iter_order (c : LruCache) : outcome (list (K * CacheValue V unit)) :=
  let? l := iter (order c) in Done ((fun e => (e.1, mkCacheValue e.2 tt)) <$> l).
Definition key_order (c : LruCache) : outcome (list K) :=
  let? l := iter (order c) in Done (fst <$> l).
Definition value_order (c : LruCache) : outcome (list (CacheValue V unit)) :=
  let? l := iter (order c) in Done ((fun e => mkCacheValue e.2 tt) <$> l).

(** ** Raw removal *)

Definition pop_raw_with_hash (h : Z) (k : K) : Op (option (K * V)) :=
  let! c := self in
  let! r := of_outcome (ht_find_remove (store c) h (key_at (order c) k)) in
  match r with
  | Some (index, t) =>
      set_self (with_store t) ;;
      let! e := on_order (remove index) in
      ret (Some e)
  | None => ret None
  end.

Definition pop_raw (k : K) : Op (option (K * V)) := pop_raw_with_hash (hash k) k.

Definition remove_index (index : nat) : Op (K * V) :=
  let! c := self in
  let! e := of_outcome (get (order c) index) in
  let! r := of_outcome (ht_find_remove (store c) (hash e.1) (fun i => Done (Nat.eqb i index))) in
  match r with
  | Some (_, t) => set_self (with_store t)
  | None => unwind
  end ;;
  on_order (remove index).

Definition drain_all : Op (list (K * V)) :=
  let! drained := on_order (drain_into []) in
  set_self (fun c => with_store (ht_clear (store c)) c) ;;
  ret drained.

(** ** Conditional reads *)

Definition get_if (key : K) (is_valid : V -> User X bool) : Op (option V) :=
  let! c := self in
  let! i := of_outcome (get_index c (hash key) key) in
  let! hit :=
    match i with
    | Some index =>
        let! e := of_outcome (get (order c) index) in
        let! b := user (is_valid e.2) in
        ret (if b then Some index else None)
    | None => ret None
    end in
  match hit with
  | Some index =>
      on_order (move_to_front index) ;;
      tracked count_hit ;;
      let! c := self in
      let! e := of_outcome (get (order c) index) in
      ret (Some e.2)
  | None => tracked count_miss ;; ret None
  end.

Definition get_mut_if (key : K) (is_valid : V -> User X bool) : Op (option nat) :=
  let! c := self in
  let! i := of_outcome (get_index c (hash key) key) in
  let! hit :=
    match i with
    | Some index =>
        let! e := of_outcome (get (order c) index) in
        let! b := user (is_valid e.2) in
        ret (if b then Some index else None)
    | None => ret None
    end in
  match hit with
  | Some index =>
      on_order (move_to_front index) ;;
      tracked count_hit ;;
      let! c := self in
      let! _ := of_outcome (get (order c) index) in
      ret (Some index)
  | None => tracked count_miss ;; ret None
  end.

(** ** Get or set *)

(** [(was_present, was_valid, displaced_entry, &mut current_value)] *)
Definition GetOrSetOutcome : Type := bool * bool * option (K * V) * nat.

Definition get_or_set_with_if (key : K) (f : User X V) (is_valid : V -> User X bool) :
    Op GetOrSetOutcome :=
  let h := hash key in
  let! c := self in
  let! i := of_outcome (get_index c h key) in
  match i with
  | Some index =>
      let! e := of_outcome (get (order c) index) in
      let! valid := user (is_valid e.2) in
      let replace_existing := negb valid in
      tracked (if replace_existing then count_miss else count_hit) ;;
      let! old_val :=
        (if replace_existing then let! v := user f in on_order (set index (key, v))
         else ret None) in
      on_order (move_to_front index) ;;
      let! c := self in
      let! _ := of_outcome (get (order c) index) in
      ret (true, negb replace_existing, old_val, index)
  | None =>
      tracked count_miss ;;
      let! v := user f in
      let! index := on_order (push_front (key, v)) in
      insert_index h index ;;
      check_capacity ;;
      let! c := self in
      let! _ := of_outcome (get (order c) index) in
      ret (false, false, None, index)
  end.

Definition try_get_or_set_with_if {E} (key : K) (f : User X (result E V))
    (is_valid : V -> User X bool) : Op (result E GetOrSetOutcome) :=
  let h := hash key in
  let! c := self in
  let! i := of_outcome (get_index c h key) in
  match i with
  | Some index =>
      let! e := of_outcome (get (order c) index) in
      let! valid := user (is_valid e.2) in
      let replace_existing := negb valid in
      tracked (if replace_existing then count_miss else count_hit) ;;
      let! old_val :=
        (if replace_existing then
           let! r := user f in
           match r with
           | Ok v => let! o := on_order (set index (key, v)) in ret (Ok o)
           | Err e => ret (Err e)
           end
         else ret (Ok None)) in
      match old_val with
      | Err e => ret (Err e)
      | Ok old_val =>
          on_order (move_to_front index) ;;
          let! c := self in
          let! _ := of_outcome (get (order c) index) in
          ret (Ok (true, negb replace_existing, old_val, index))
      end
  | None =>
      tracked count_miss ;;
      let! r := user f in
      match r with
      | Err e => ret (Err e)
      | Ok v =>
          let! index := on_order (push_front (key, v)) in
          insert_index h index ;;
          check_capacity ;;
          let! c := self in
          let! _ := of_outcome (get (order c) index) in
          ret (Ok (false, false, None, index))
      end
  end.

(** ** Sweeps *)

Definition doomed_indices (keep : K -> V -> User X bool) : Op (list nat) :=
  let! c := self in
  let! ids := of_outcome (iter_indices (order c)) in
  filter_each ids (fun i =>
    let! e := of_outcome (get (order c) i) in
    let! b := user (keep e.1 e.2) in
    ret (negb b)).

Definition retain (keep : K -> V -> User X bool) : Op nat :=
  let! doomed := doomed_indices keep in
  for_each doomed (fun index =>
    let! e := remove_index index in
    count_evictions 1 ;;
    notify e.1 e.2) ;;
  ret (length doomed).

Definition cache_set_returning_entry (key : K) (v : V) : Op (option (K * V)) :=
  let h := hash key in
  let! c := self in
  let! i := of_outcome (get_index c h key) in
  let! entry :=
    match i with
    | Some index =>
        let! displaced := on_order (set index (key, v)) in
        on_order (move_to_front index) ;;
        ret displaced
    | None =>
        let! index := on_order (push_front (key, v)) in
        insert_index h index ;;
        ret None
    end in
  check_capacity ;;
  ret entry.

Definition cache_clear_with_on_evict : Op unit :=
  let! removed := drain_all in
  (if decide (removed = []) then ret tt else count_evictions (Z.of_nat (length removed))) ;;
  for_each removed (fun e => notify e.1 e.2).

(** ** [Cached], [CachedPeek], [CachedIter] *)

Definition cache_get (key : K) : Op (option V) := get_if key (fun _ x => (Some true, x)).
Definition cache_get_mut (key : K) : Op (option nat) := get_mut_if key (fun _ x => (Some true, x)).

Definition cache_set (key : K) (v : V) : Op (option V) :=
  let h := hash key in
  let! c := self in
  let! i := of_outcome (get_index c h key) in
  let! entry :=
    match i with
    | Some index =>
        let! displaced := on_order (set index (key, v)) in
        on_order (move_to_front index) ;;
        ret (snd <$> displaced)
    | None =>
        let! index := on_order (push_front (key, v)) in
        insert_index h index ;;
        ret None
    end in
  check_capacity ;;
  ret entry.

Definition cache_get_or_set_with_mut (key : K) (f : User X V) : Op nat :=
  let! r := get_or_set_with_if key f (fun _ x => (Some true, x)) in
  ret r.2.

Definition cache_try_get_or_set_with_mut {E} (key : K) (f : User X (result E V)) :
    Op (result E nat) :=
  let! r := try_get_or_set_with_if key f (fun _ x => (Some true, x)) in
  match r with Ok o => ret (Ok o.2) | Err e => ret (Err e) end.

Definition cache_remove_entry (k : K) : Op (option (K * V)) :=
  let! removed := pop_raw k in
  match removed with
  | Some e => count_evictions 1 ;; notify e.1 e.2
  | None => ret tt
  end ;;
  ret removed.

Definition cache_remove (k : K) : Op (option V) :=
  let! removed := cache_remove_entry k in ret (snd <$> removed).

Definition cache_clear : Op unit :=
  set_self (fun c => with_store (ht_clear (store c)) c) ;;
  on_order clear.

Definition cache_reset_metrics : Op unit :=
  set_self (with_misses 0) ;; set_self (with_hits 0) ;; set_self (with_evictions 0).

Definition cache_reset (try_reserve_exact : Z -> bool) : Op unit :=
  let! c := self in
  let live := Z.of_nat (ht_len (store c)) in
  let new_store := match ht_try_reserve ht_new live with Some t => t | None => ht_new end in
  let new_order := match try_with_capacity try_reserve_exact live with
                   | Ok o => o
                   | Err _ => LruList.with_capacity 0
                   end in
  set_self (with_store new_store) ;;
  set_self (with_order new_order) ;;
  cache_reset_metrics.

Definition cache_size (c : LruCache) : Z := Z.of_nat (ht_len (store c)).
Definition cache_capacity (c : LruCache) : option Z := Some (capacity c).

Definition cache_peek (c : LruCache) (k : K) : outcome (option V) :=
  let? i := get_index c (hash k) k in
  match i with
  | Some index => let? e := get (order c) index in Done (Some e.2)
  | None => Done None
  end.

Definition cache_contains (c : LruCache) (k : K) : outcome bool :=
  let? v := cache_peek c k in Done (match v with Some _ => true | None => false end).

(** [PartialEq::eq]; [veq] is the values' own. *)
Fixpoint all_equal (veq : V -> V -> bool) (other : LruCache) (l : list (K * V)) : outcome bool :=
  match l with
  | [] => Done true
  | e :: l =>
      let? i := get_index other (hash e.1) e.1 in
      match i with
      | Some i =>
          let? e' := get (order other) i in
          if veq e.2 e'.2 then all_equal veq other l else Done false
      | None => Done false
      end
  end.

(** [Clone::clone]; the user's data and the table clone to themselves. *)
Definition clone (c : LruCache) : LruCache :=
  mkLru (store c) (order c) (capacity c) (hits c) (misses c) (evictions c) (on_evict c) (track_hit_miss c).

Definition cache_eq (veq : V -> V -> bool) (c other : LruCache) : outcome bool :=
  if Nat.eqb (ht_len (store c)) (ht_len (store other)) then
    let? l := iter (order c) in all_equal veq other l
  else Done false.

(** ** The [async] variants: the factory is awaited, and may be dropped there *)

Definition get_or_set_with_if_async (key : K) (f : User X V) (is_valid : V -> User X bool) :
    Op GetOrSetOutcome :=
  let h := hash key in
  let! c := self in
  let! i := of_outcome (get_index c h key) in
  match i with
  | Some index =>
      let! e := of_outcome (get (order c) index) in
      let! valid := user (is_valid e.2) in
      let replace_existing := negb valid in
      tracked (if replace_existing then count_miss else count_hit) ;;
      let! old_val :=
        (if replace_existing then
           let! new_val := user f in
           on_order (set index (key, new_val))
         else ret None) in
      on_order (move_to_front index) ;;
      let! c := self in
      let! _ := of_outcome (get (order c) index) in
      ret (true, negb replace_existing, old_val, index)
  | None =>
      tracked count_miss ;;
      let! new_val := user f in
      let! index := on_order (push_front (key, new_val)) in
      insert_index h index ;;
      check_capacity ;;
      let! c := self in
      let! _ := of_outcome (get (order c) index) in
      ret (false, false, None, index)
  end.

Definition try_get_or_set_with_if_async {E} (key : K) (f : User X (result E V))
    (is_valid : V -> User X bool) : Op (result E GetOrSetOutcome) :=
  let h := hash key in
  let! c := self in
  let! i := of_outcome (get_index c h key) in
  match i with
  | Some index =>
      let! e := of_outcome (get (order c) index) in
      let! valid := user (is_valid e.2) in
      let replace_existing := negb valid in
      tracked (if replace_existing then count_miss else count_hit) ;;
      let! old_val :=
        (if replace_existing then
           let! r := user f in
           match r with
           | Ok new_val => let! o := on_order (set index (key, new_val)) in ret (Ok o)
           | Err e => ret (Err e)
           end
         else ret (Ok None)) in
      match old_val with
      | Err e => ret (Err e)
      | Ok old_val =>
          on_order (move_to_front index) ;;
          let! c := self in
          let! _ := of_outcome (get (order c) index) in
          ret (Ok (true, negb replace_existing, old_val, index))
      end
  | None =>
      tracked count_miss ;;
      let! r := user f in
      match r with
      | Err e => ret (Err e)
      | Ok new_val =>
          let! index := on_order (push_front (key, new_val)) in
          insert_index h index ;;
          check_capacity ;;
          let! c := self in
          let! _ := of_outcome (get (order c) index) in
          ret (Ok (false, false, None, index))
      end
  end.

Definition async_cache_try_get_or_set_with_mut {E} (key : K) (f : User X (result E V)) :
    Op (result E nat) :=
  let! r := try_get_or_set_with_if_async key f (fun _ x => (Some true, x)) in
  match r with Ok o => ret (Ok o.2) | Err e => ret (Err e) end.

Definition async_cache_get_or_set_with_mut (key : K) (f : User X V) : Op nat :=
  let! r := get_or_set_with_if_async key f (fun _ x => (Some true, x)) in
  ret r.2.

End LruCache.
Arguments LruCache : clear implicits.
Arguments Op : clear implicits.
