(* ===== verification/LruSpec.v ===== *)
(** * What an LRU store promises

    The abstract store: a list of entries, most recently used first, a capacity, counters
    and the eviction callback.  Each operation is a short program over that list; the
    implementation of [src/stores/lru.rs] is proved to refine it. *)
From S2P Require Import Prelude Keys Stores Lru.

Section Spec.
Context {K V W X : Type} `{!KeyEq K, !World X W}.

Record View : Type := mkView {
  entries : list (K * V);
  vcapacity : Z;
  vhits : Z;
  vmisses : Z;
  vevictions : Z;
  von_evict : OnEvict K V W;
  vtrack : bool }.

Definition put_entries (l : list (K * V)) (a : View) : View :=
  mkView l (vcapacity a) (vhits a) (vmisses a) (vevictions a) (von_evict a) (vtrack a).
Definition put_capacity (n : Z) (a : View) : View :=
  mkView (entries a) n (vhits a) (vmisses a) (vevictions a) (von_evict a) (vtrack a).
Definition put_hits (n : Z) (a : View) : View :=
  mkView (entries a) (vcapacity a) n (vmisses a) (vevictions a) (von_evict a) (vtrack a).
Definition put_misses (n : Z) (a : View) : View :=
  mkView (entries a) (vcapacity a) (vhits a) n (vevictions a) (von_evict a) (vtrack a).
Definition put_evictions (n : Z) (a : View) : View :=
  mkView (entries a) (vcapacity a) (vhits a) (vmisses a) n (von_evict a) (vtrack a).

Definition Spec (A : Type) : Type := ST (View * X) A.

Definition s_self : Spec View := gets fst.
Definition s_set (f : View -> View) : Spec unit := modify (fun s => (f s.1, s.2)).
Definition s_entries (l : list (K * V)) : Spec unit := s_set (put_entries l).

Definition s_hit : Spec unit := s_set (fun a => put_hits (fetch_add (vhits a) 1) a).
Definition s_miss : Spec unit := s_set (fun a => put_misses (fetch_add (vmisses a) 1) a).
Definition s_count (n : Z) : Spec unit :=
  s_set (fun a => put_evictions (fetch_add (vevictions a) n) a).
Definition s_tracked (m : Spec unit) : Spec unit :=
  let! a := s_self in if vtrack a then m else ret tt.
Definition s_notify (k : K) (v : V) : Spec unit :=
  let! a := s_self in
  match von_evict a with
  | Some f => user (lift_user (f k v))
  | None => ret tt
  end.

(** Drop the last entry, count it, tell the callback. *)
Definition s_evict_last (e : K * V) : Spec unit :=
  let! a := s_self in
  s_entries (removelast (entries a)) ;;
  s_count 1 ;;
  s_notify e.1 e.2.

(** Evict from the least recently used end until the capacity is met. *)
Definition s_trim : Spec unit :=
  let! a := s_self in
  for_each (rev (drop (Z.to_nat (vcapacity a)) (entries a))) s_evict_last.

Definition s_set_max_size (n : Z) : Spec (option Z) :=
  if n <=? 0 then unwind else
  let! a := s_self in
  s_set (put_capacity n) ;;
  s_trim ;;
  ret (Some (vcapacity a)).

(** The entry of [k] if there is one and it is valid; it moves to the front. *)
Definition s_get_if (k : K) (is_valid : V -> User X bool) : Spec (option V) :=
  let! a := s_self in
  match take_key k (entries a) with
  | Some (e, r) =>
      let! b := user (is_valid e.2) in
      if (b : bool) then s_entries (e :: r) ;; s_tracked s_hit ;; ret (Some e.2)
      else s_tracked s_miss ;; ret None
  | None => s_tracked s_miss ;; ret None
  end.

(** Insertion at the front, displacing an entry of an equal key. *)
Definition s_put (k : K) (v : V) : Spec (option (K * V)) :=
  let! a := s_self in
  match take_key k (entries a) with
  | Some (e, r) => s_entries ((k, v) :: r) ;; s_trim ;; ret (Some e)
  | None => s_entries ((k, v) :: entries a) ;; s_trim ;; ret None
  end.

Definition s_cache_set (k : K) (v : V) : Spec (option V) :=
  let! r := s_put k v in ret (snd <$> r).

(** The result names the front entry: [(was_present, was_valid, displaced)]. *)
Definition s_get_or_set (k : K) (f : User X V) (is_valid : V -> User X bool) :
    Spec (bool * bool * option (K * V)) :=
  let! a := s_self in
  match take_key k (entries a) with
  | Some (e, r) =>
      let! b := user (is_valid e.2) in
      if (b : bool) then
        s_tracked s_hit ;; s_entries (e :: r) ;; ret (true, true, None)
      else
        s_tracked s_miss ;;
        let! v := user f in
        s_entries ((k, v) :: r) ;;
        ret (true, false, Some e)
  | None =>
      s_tracked s_miss ;;
      let! v := user f in
      s_entries ((k, v) :: entries a) ;;
      s_trim ;;
      ret (false, false, None)
  end.

Definition s_try_get_or_set {E} (k : K) (f : User X (result E V)) (is_valid : V -> User X bool) :
    Spec (result E (bool * bool * option (K * V))) :=
  let! a := s_self in
  match take_key k (entries a) with
  | Some (e, r) =>
      let! b := user (is_valid e.2) in
      if (b : bool) then
        s_tracked s_hit ;; s_entries (e :: r) ;; ret (Ok (true, true, None))
      else
        s_tracked s_miss ;;
        let! q := user f in
        match q with
        | Ok v => s_entries ((k, v) :: r) ;; ret (Ok (true, false, Some e))
        | Err err => ret (Err err)
        end
  | None =>
      s_tracked s_miss ;;
      let! q := user f in
      match q with
      | Ok v => s_entries ((k, v) :: entries a) ;; s_trim ;; ret (Ok (false, false, None))
      | Err err => ret (Err err)
      end
  end.

(** Removal without callback or count. *)
Definition s_pop (k : K) : Spec (option (K * V)) :=
  let! a := s_self in
  match take_key k (entries a) with
  | Some (e, r) => s_entries r ;; ret (Some e)
  | None => ret None
  end.

Definition s_remove_entry (k : K) : Spec (option (K * V)) :=
  let! r := s_pop k in
  match r with
  | Some e => s_count 1 ;; s_notify e.1 e.2
  | None => ret tt
  end ;;
  ret r.

(** First every decision is taken, then the doomed entries leave one by one. *)
Definition s_drop (e : K * V) : Spec (K * V) :=
  let! a := s_self in s_entries (drop_key e.1 (entries a)) ;; ret e.

Definition s_doomed (keep : K -> V -> User X bool) : Spec (list (K * V)) :=
  let! a := s_self in
  filter_each (entries a) (fun e => let! b := user (keep e.1 e.2) in ret (negb b)).

Definition s_retain (keep : K -> V -> User X bool) : Spec nat :=
  let! doomed := s_doomed keep in
  for_each doomed (fun e => s_drop e ;; s_count 1 ;; s_notify e.1 e.2) ;;
  ret (length doomed).

Definition s_drain : Spec (list (K * V)) :=
  let! a := s_self in s_entries [] ;; ret (entries a).

Definition s_clear_with_on_evict : Spec unit :=
  let! removed := s_drain in
  (if decide (removed = []) then ret tt else s_count (Z.of_nat (length removed))) ;;
  for_each removed (fun e => s_notify e.1 e.2).

Definition s_reset : Spec unit :=
  s_entries [] ;; s_set (put_misses 0) ;; s_set (put_hits 0) ;; s_set (put_evictions 0).
End Spec.
Arguments View : clear implicits.
Arguments Spec : clear implicits.

(** ** What the abstract operations leave behind *)
Section Effects.
Context {K V W X : Type} `{!KeyEq K, !World X W}.
Implicit Types (a : View K V W) (l : list (K * V)) (e : K * V) (x : X).

(** The store after [n] evictions that left the entries [l]. *)
Definition evicted l (n : nat) a : View K V W :=
  put_entries l (put_evictions (Nat.iter n (fun z => fetch_add z 1) (vevictions a)) a).

Lemma view_eta a : a = mkView (entries a) (vcapacity a) (vhits a) (vmisses a) (vevictions a)
  (von_evict a) (vtrack a).
Proof. by destruct a. Qed.

Lemma evicted_more l l' n a : evicted l n (evicted l' 1 a) = evicted l (n + 1) a.
Proof. unfold evicted. rewrite Nat.add_1_r, (Nat.iter_succ_r n). done. Qed.

Lemma s_notify_wp k v a x :
  wp (s_notify k v) (fun _ s => s.1 = a) (fun s => s.1 = a) (a, x).
Proof.
  unfold s_notify. apply wp_bind, wp_gets. simpl.
  destruct (von_evict a); [|done]. by apply wp_user.
Qed.

Lemma s_evict_last_wp pre e a x : entries a = pre ++ [e] ->
  wp (s_evict_last e) (fun _ s => s.1 = evicted pre 1 a) (fun s => s.1 = evicted pre 1 a) (a, x).
Proof.
  intros E. unfold s_evict_last. apply wp_bind, wp_gets. simpl. rewrite E, removelast_last.
  do 2 apply wp_bind, wp_modify. simpl. apply s_notify_wp.
Qed.

(** Evicting a suffix: all of it goes, or a callback panics and a shorter part is gone. *)
Lemma s_evict_all_wp suf pre a x : entries a = pre ++ suf ->
  wp (for_each (rev suf) s_evict_last)
    (fun _ s => s.1 = evicted pre (length suf) a)
    (fun s => exists gone kept, suf = kept ++ gone /\ gone <> [] /\ s.1 = evicted (pre ++ kept) (length gone) a) (a, x).
Proof.
  revert a x. induction suf as [|e suf IH] using rev_ind; intros a x E.
  { simpl. rewrite app_nil_r in E. apply wp_ret. unfold evicted. simpl. rewrite <- E. by destruct a. }
  rewrite rev_app_distr. simpl. rewrite app_assoc in E. apply wp_bind.
  eapply wp_mono; [by apply s_evict_last_wp| |]; simpl.
  - intros _ [a' x'] ?. simplify_eq/=. simpl. eapply wp_mono; [by apply IH| |]; simpl.
    + intros _ [a2 x2] ?. simplify_eq/=. simpl. by rewrite length_app, evicted_more.
    + intros [a2 x2] (gone & kept & -> & Hn & ?); simplify_eq/=. exists (gone ++ [e]), kept.
      split_and!; [by rewrite app_assoc|by destruct gone|].
      by rewrite length_app, evicted_more.
  - intros [a2 x2] ?. simplify_eq/=. by exists [e], suf.
Qed.

Lemma s_trim_wp a x :
  wp s_trim
    (fun _ s => s.1 = evicted (take (Z.to_nat (vcapacity a)) (entries a))
                        (length (entries a) - Z.to_nat (vcapacity a)) a)
    (fun s => exists n, (Z.to_nat (vcapacity a) <= n < length (entries a))%nat /\ s.1 = evicted (take n (entries a)) (length (entries a) - n) a) (a, x).
Proof.
  unfold s_trim. apply wp_bind, wp_gets. simpl.
  eapply wp_mono; [apply (s_evict_all_wp _ (take (Z.to_nat (vcapacity a)) (entries a)));
    symmetry; apply take_drop| |]; simpl.
  - intros _ [a' x'] ?. simplify_eq/=. simpl. by rewrite length_drop.
  - intros [a' x'] (gone & kept & E & Hn & ?); simplify_eq/=. simpl.
    assert (length (take (Z.to_nat (vcapacity a)) (entries a)) = Z.to_nat (vcapacity a)) as El.
    { apply length_take_le. apply (f_equal length) in E. rewrite length_drop, length_app in E.
      destruct gone; [done|]. simpl in E. lia. }
    exists (Z.to_nat (vcapacity a) + length kept)%nat.
    assert (entries a = (take (Z.to_nat (vcapacity a)) (entries a) ++ kept) ++ gone) as E2.
    { by rewrite <- app_assoc, <- E, take_drop. }
    apply (f_equal length) in E as E3. rewrite length_drop, length_app in E3.
    assert (0 < length gone)%nat by (by destruct gone; [|simpl; lia]).
    split; [lia|]. replace (length (entries a) - _)%nat with (length gone) by lia.
    f_equal. rewrite E2 at 2. by rewrite take_app_length' by (rewrite length_app; lia).
Qed.

(** [cache_set], abstractly. *)
Lemma s_put_wp k v a x :
  wp (s_put k v)
    (fun r s => r = find_key k (entries a) /\
       s.1 = evicted (take (Z.to_nat (vcapacity a)) ((k, v) :: drop_key k (entries a)))
               (S (length (drop_key k (entries a))) - Z.to_nat (vcapacity a)) a)
    (fun s => exists n,
       (Z.to_nat (vcapacity a) <= n <= length (drop_key k (entries a)))%nat /\
       s.1 = evicted (take n ((k, v) :: drop_key k (entries a)))
               (S (length (drop_key k (entries a))) - n) a) (a, x).
Proof.
  unfold s_put, find_key, drop_key. apply wp_bind, wp_gets. simpl.
  destruct (take_key k (entries a)) as [[e r]|]; apply wp_bind, wp_modify; simpl;
    apply wp_bind; (eapply wp_mono; [apply s_trim_wp| |]; simpl).
  1, 3: intros _ [a' x'] ?; simplify_eq/=; by apply wp_ret.
  all: intros [a' x'] (n & Hn & ?); simplify_eq/=; exists n; split; [lia|done].
Qed.

Lemma s_cache_set_wp k v a x :
  wp (s_cache_set k v)
    (fun r s => r = snd <$> find_key k (entries a) /\
       s.1 = evicted (take (Z.to_nat (vcapacity a)) ((k, v) :: drop_key k (entries a)))
               (S (length (drop_key k (entries a))) - Z.to_nat (vcapacity a)) a)
    (fun s => exists n,
       (Z.to_nat (vcapacity a) <= n <= length (drop_key k (entries a)))%nat /\
       s.1 = evicted (take n ((k, v) :: drop_key k (entries a)))
               (S (length (drop_key k (entries a))) - n) a) (a, x).
Proof.
  apply wp_bind. eapply wp_mono; [apply s_put_wp| |done].
  simpl. intros r s [-> ?]. by apply wp_ret.
Qed.

Lemma s_set_max_size_wp n a x : 0 < n ->
  wp (s_set_max_size n)
    (fun r s => r = Some (vcapacity a) /\
       s.1 = evicted (take (Z.to_nat n) (entries a)) (length (entries a) - Z.to_nat n) (put_capacity n a))
    (fun s => exists m, (Z.to_nat n <= m < length (entries a))%nat /\
       s.1 = evicted (take m (entries a)) (length (entries a) - m) (put_capacity n a)) (a, x).
Proof.
  intros Hn. unfold s_set_max_size. destruct (Z.leb_spec n 0) as [|_]; [lia|].
  apply wp_bind, wp_gets. simpl. apply wp_bind, wp_modify. simpl. apply wp_bind.
  eapply wp_mono; [apply s_trim_wp| |]; simpl.
  - intros _ [a' x'] ?; simplify_eq/=. by apply wp_ret.
  - intros [a' x'] (m & Hm & ?); simplify_eq/=. by exists m.
Qed.

(** The counters after a hit and after a miss. *)
Definition hit a : View K V W := if vtrack a then put_hits (fetch_add (vhits a) 1) a else a.
Definition missed a : View K V W := if vtrack a then put_misses (fetch_add (vmisses a) 1) a else a.

Lemma s_hit_run a x : s_tracked s_hit (a, x) = (Done tt, (hit a, x)).
Proof. unfold s_tracked, hit, bind, s_self, gets. simpl. by destruct (vtrack a). Qed.
Lemma s_miss_run a x : s_tracked s_miss (a, x) = (Done tt, (missed a, x)).
Proof. unfold s_tracked, missed, bind, s_self, gets. simpl. by destruct (vtrack a). Qed.

Lemma missed_entries a : entries (missed a) = entries a.
Proof. unfold missed. by destruct (vtrack a). Qed.
Lemma missed_capacity a : vcapacity (missed a) = vcapacity a.
Proof. unfold missed. by destruct (vtrack a). Qed.
Lemma put_entries_hit l a : put_entries l (hit a) = hit (put_entries l a).
Proof. unfold hit. simpl. by destruct (vtrack a). Qed.

Lemma find_take k l e : find_key k l = Some e -> take_key k l = Some (e, drop_key k l).
Proof.
  unfold find_key, drop_key. destruct (take_key k l) as [[]|]; [|done]. by intros [= ->].
Qed.

(** Get-or-set of a present, valid entry: the factory is not run. *)
Lemma s_get_or_set_hit k (f : User X V) a x e : find_key k (entries a) = Some e ->
  s_get_or_set k f (fun _ x => (Some true, x)) (a, x) =
    (Done (true, true, None), (put_entries (e :: drop_key k (entries a)) (hit a), x)).
Proof.
  intros E. unfold s_get_or_set, bind at 1, s_self, gets. simpl. rewrite (find_take _ _ _ E).
  unfold bind at 1, user. simpl. by rewrite (bind_run _ _ _ _ _ (s_hit_run a x)).
Qed.

(** Get-or-set of an absent entry: the factory runs, then its value goes in front. *)
Lemma s_get_or_set_miss k (f : User X V) valid a x : find_key k (entries a) = None ->
  s_get_or_set k f valid (a, x) =
    bind (user f) (fun v => s_entries ((k, v) :: entries a) ;; s_trim ;; ret (false, false, None))
      (missed a, x).
Proof.
  intros E. unfold s_get_or_set, bind at 1, s_self, gets. simpl.
  unfold find_key in E. destruct (take_key k (entries a)) as [[]|]; [done|].
  by rewrite (bind_run _ _ _ _ _ (s_miss_run a x)).
Qed.
End Effects.

(** ** Sweeps *)
Section Sweep.
Context {K V W X : Type} `{!KeyEq K, !KeyLaws K, !World X W}.
Implicit Types (a : View K V W) (l : list (K * V)) (e : K * V) (x : X).

(** The list without the swept entries. *)
Definition sweep l (gone : list (K * V)) : list (K * V) :=
  foldl (fun l e => drop_key e.1 l) l gone.

(** Sweeping the entries that fail a test leaves those that pass, in order. *)
Lemma sweep_filter (p : K * V -> bool) l : distinct l ->
  sweep l (List.filter (fun e => negb (p e)) l) = List.filter p l.
Proof.
  cut (forall pre, distinct (pre ++ l) ->
    sweep (pre ++ l) (List.filter (fun e => negb (p e)) l) = pre ++ List.filter p l).
  { intros H D. by apply (H []). }
  induction l as [|e l IH]; intros pre D; simpl; [done|]. destruct (p e) eqn:E; simpl.
  - specialize (IH (pre ++ [e])). rewrite <- !app_assoc in IH. by apply IH.
  - unfold sweep. simpl. rewrite drop_key_mid by done. apply IH.
    by apply distinct_mid in D as [? _].
Qed.

Definition dooms (p : K -> V -> option bool) e : bool :=
  match p e.1 e.2 with Some b => negb b | None => false end.

Lemma select_answers p g l a x :
  (forall e, e ∈ l -> p e.1 e.2 <> None) ->
  exists x', filter_each l (fun e => let! b := user (answers p g e.1 e.2) in ret (negb b)) (a, x) =
    (Done (List.filter (dooms p) l), (a, x')).
Proof.
  revert x. induction l as [|e l IH]; intros x H; simpl; [by exists x|].
  unfold dooms at 1. destruct (p e.1 e.2) as [b|] eqn:Ep; [|by destruct (H e); [left|]].
  destruct (IH (g e.1 e.2 x)) as (x' & E); [intros; apply H; by right|].
  exists x'. unfold bind at 1, bind at 1, user, answers at 1. simpl. rewrite Ep. simpl.
  rewrite (bind_run _ _ _ _ _ E). by destruct b.
Qed.

Lemma select_panics p g l a x e : e ∈ l -> p e.1 e.2 = None ->
  exists x', filter_each l (fun e => let! b := user (answers p g e.1 e.2) in ret (negb b)) (a, x) =
    (Unwind, (a, x')).
Proof.
  intros He Hp. revert x. induction l as [|d l IH]; intros x; [by apply elem_of_nil in He|].
  simpl. unfold bind at 1, bind at 1, user at 1, answers at 1. simpl.
  destruct (p d.1 d.2) as [b|] eqn:Ed; [|by eexists].
  apply elem_of_cons in He as [->|He]; [congruence|].
  destruct (IH He (g d.1 d.2 x)) as (x' & E). exists x'. simpl. unfold bind at 1. by rewrite E.
Qed.

(** The removal pass: it removes and counts all, or stops at a callback's panic having
    removed and counted a non-empty initial part. *)
Lemma s_sweep_wp gone a x :
  wp (for_each gone (fun e => s_drop e ;; s_count 1 ;; s_notify e.1 e.2))
    (fun _ s => s.1 = evicted (sweep (entries a) gone) (length gone) a)
    (fun s => exists n, (0 < n <= length gone)%nat /\
       s.1 = evicted (sweep (entries a) (take n gone)) n a) (a, x).
Proof.
  revert a x. induction gone as [|e gone IH]; intros a x; simpl.
  { apply wp_ret. by destruct a. }
  apply wp_bind. unfold s_drop. do 2 apply wp_bind. apply wp_gets. simpl. apply wp_bind, wp_modify. simpl.
  apply wp_ret, wp_bind, wp_modify. simpl. set (a' := put_evictions _ _).
  assert (a' = evicted (drop_key e.1 (entries a)) 1 a) as Ea by done.
  eapply wp_mono; [apply s_notify_wp| |]; simpl.
  - intros _ [a2 x2] E. simpl in E. subst a2. rewrite Ea. eapply wp_mono; [apply IH| |]; simpl.
    + intros _ [a3 x3] ?. simplify_eq/=. rewrite evicted_more. by rewrite Nat.add_1_r.
    + intros [a3 x3] (n & Hn & ?). simplify_eq/=. exists (S n). split; [lia|].
      rewrite evicted_more, Nat.add_1_r. done.
  - intros [a2 x2] E. simpl in E. subst a2. exists 1%nat. split; [lia|]. simpl. by destruct gone.
Qed.
End Sweep.
