(* ===== verification/LruRefine.v ===== *)
(** * [LruCache] refines the abstract LRU store

    The invariant of [LruCache] and, for every method, the proof that it does on the slab
    and the hash table what [LruSpec] does on a list. *)
From S2P Require Import Prelude Keys Stores LruList HashTable Lru LruSpec.

Section Invariant.
Context {K V W X HT : Type} `{!KeyEq K, !KeyLaws K, !World X W, !HashTable HT, !HashTableLaws HT}.
Implicit Types (c : LruCache K V W HT) (a : View K V W) (k : K) (i : nat) (e : K * V)
  (occ xs ys : list (nat * (K * V))) (fre : list nat) (x : X).

(** What the table holds for an occupied slot. *)
Definition row (p : nat * (K * V)) : Z * nat := (khash p.2.1, p.1).

(** The slab is well formed, the table indexes exactly its occupied slots under the hash of
    the stored key, keys are distinct, and the capacity is positive. *)
Record inv c occ fre : Prop := {
  inv_rep : rep (values (order c)) occ fre;
  inv_tab : ht_elems (store c) ≡ₚ row <$> occ;
  inv_keys : distinct occ.*2;
  inv_cap : 0 < capacity c }.

(** [c] holds the abstract store [a], in the slots [occ]. *)
Definition models_at c a occ fre : Prop :=
  inv c occ fre /\
  a = mkView occ.*2 (capacity c) (hits c) (misses c) (evictions c) (on_evict c) (track_hit_miss c).

Definition models c a : Prop := exists occ fre, models_at c a occ fre.
Definition wf c : Prop := exists a, models c a.

(** The refinement relation: same world, modelled store. *)
Definition Rel (s1 : LruCache K V W HT * X) (s2 : View K V W * X) : Prop :=
  s1.2 = s2.2 /\ models s1.1 s2.1.

Lemma Rel_at c a occ fre x : models_at c a occ fre -> Rel (c, x) (a, x).
Proof. intros H. split; [done|]. by exists occ, fre. Qed.

(** ** Single steps *)

Lemma order_eta c : order c = mkList (values (order c)).
Proof. by destruct (order c). Qed.

Lemma on_order_run {A} (m : ST (LRUList (K * V)) A) c x r v :
  m (mkList (values (order c))) = (Done r, mkList v) ->
  on_order m (c, x) = (Done r, (with_order (mkList v) c, x)).
Proof. intros E. unfold on_order, zoom. simpl. by rewrite (order_eta c), E. Qed.

Lemma inv_get c occ fre i e : inv c occ fre -> (i, e) ∈ occ -> get (order c) i = Done e.
Proof. intros H Hin. rewrite order_eta. by eapply get_run; [apply H|]. Qed.

Lemma inv_key_at c occ fre i e k : inv c occ fre -> (i, e) ∈ occ ->
  key_at (order c) k i = Done (keq k e.1).
Proof. intros H Hin. unfold key_at. by rewrite (inv_get _ _ _ _ _ H Hin). Qed.

Lemma inv_row c occ fre h i : inv c occ fre -> (h, i) ∈ ht_elems (store c) ->
  exists e, (i, e) ∈ occ /\ h = khash e.1.
Proof.
  intros H. rewrite (inv_tab _ _ _ H). intros ([j e] & [= -> ->] & Hin)%list_elem_of_fmap.
  by exists e.
Qed.

Lemma inv_len c occ fre : inv c occ fre -> ht_len (store c) = length occ.
Proof. intros H. by rewrite ht_len_elems, (inv_tab _ _ _ H), length_fmap. Qed.

Lemma inv_NoDup c occ fre : inv c occ fre -> NoDup occ.*1.
Proof. intros H. destruct (rep_disjoint _ _ _ (inv_rep _ _ _ H)) as ([_ N]%NoDup_cons & _). done. Qed.

Lemma inv_slot_inj c occ fre i e e' : inv c occ fre -> (i, e) ∈ occ -> (i, e') ∈ occ -> e = e'.
Proof.
  intros H H1 H2. pose proof (rep_val _ _ _ (inv_rep _ _ _ H) _ _ H1).
  pose proof (rep_val _ _ _ (inv_rep _ _ _ H) _ _ H2). congruence.
Qed.

(** A slot whose key equals [k] is where [take_key] finds its entry. *)
Lemma take_slot occ i e k : distinct occ.*2 -> (i, e) ∈ occ -> keq k e.1 = true ->
  exists xs ys, occ = xs ++ (i, e) :: ys /\ fresh k (xs ++ ys).*2 /\
    take_key k occ.*2 = Some (e, (xs ++ ys).*2).
Proof.
  intros D Hin Hk. apply list_elem_of_split in Hin as (xs & ys & ->).
  rewrite fmap_app in D. simpl in D. apply distinct_mid in D as [_ F].
  assert (fresh k (xs.*2 ++ ys.*2)) as Fk by (eapply fresh_cong; [by apply keq_sym|done]).
  exists xs, ys. rewrite !fmap_app. split_and!; try done. simpl.
  apply take_key_app; [|done]. by apply fresh_app in Fk as [? _].
Qed.

(** The two answers of [get_index]. *)
Lemma get_index_cases c occ fre k : inv c occ fre ->
  (exists xs i e ys, occ = xs ++ (i, e) :: ys /\ keq k e.1 = true /\
     take_key k occ.*2 = Some (e, (xs ++ ys).*2) /\
     get_index c (khash k) k = Done (Some i)) \/
  (take_key k occ.*2 = None /\ get_index c (khash k) k = Done None).
Proof.
  intros H. unfold get_index. destruct (ht_find_spec (store c) (khash k) (key_at (order c) k))
    as (r & E & Hr).
  { intros h i Hin. destruct (inv_row _ _ _ _ _ H Hin) as (e & He & _).
    rewrite (inv_key_at _ _ _ _ _ k H He). eauto. }
  destruct r as [i|].
  - left. destruct Hr as (Ht & h & Hin). destruct (inv_row _ _ _ _ _ H Hin) as (e & He & _).
    rewrite (inv_key_at _ _ _ _ _ k H He) in Ht. injection Ht as Ht.
    destruct (take_slot occ i e k (inv_keys _ _ _ H) He Ht) as (xs & ys & E1 & _ & E2).
    by exists xs, i, e, ys.
  - right. split; [|done]. apply take_key_None, Forall_forall. intros e He.
    apply list_elem_of_fmap in He as ([i e'] & -> & Hin). simpl.
    destruct (keq k e'.1) eqn:Ek; [|done]. exfalso.
    specialize (Hr i). rewrite (inv_key_at _ _ _ _ _ k H Hin), Ek in Hr.
    assert ((khash k, i) ∈ ht_elems (store c)) as Hrow; [|by apply Hr in Hrow].
    rewrite (inv_tab _ _ _ H). apply list_elem_of_fmap.
    exists (i, e'). split; [|done]. unfold row. simpl. by rewrite (keq_hash k e'.1).
Qed.

(** Taking a row out of the table. *)
Lemma row_removed c xs i e ys fre h t :
  inv c (xs ++ (i, e) :: ys) fre -> ht_elems (store c) ≡ₚ (h, i) :: ht_elems t ->
  ht_elems t ≡ₚ row <$> (xs ++ ys).
Proof.
  intros H P. assert (h = khash e.1) as ->.
  { destruct (inv_row _ _ _ h i H) as (e' & He' & ->); [rewrite P; by left|].
    by rewrite (inv_slot_inj _ _ _ i e e' H); [|mem|]. }
  rewrite (inv_tab _ _ _ H), fmap_app in P. simpl in P.
  rewrite <- Permutation_middle in P. rewrite fmap_app. by apply Permutation_cons_inv in P.
Qed.

(** The two answers of [find_entry] + [remove] for a test that singles out one slot. *)
Lemma find_remove_slot c xs i e ys fre h eq :
  inv c (xs ++ (i, e) :: ys) fre -> h = khash e.1 ->
  (forall j e', (j, e') ∈ xs ++ (i, e) :: ys -> eq j = Done (bool_decide (j = i))) ->
  exists t, ht_find_remove (store c) h eq = Done (Some (i, t)) /\
    ht_elems t ≡ₚ row <$> (xs ++ ys).
Proof.
  intros H -> Heq. destruct (ht_find_remove_spec (store c) (khash e.1) eq) as (r & E & Hr).
  { intros h j Hin. destruct (inv_row _ _ _ _ _ H Hin) as (e' & He' & _). rewrite (Heq _ _ He'). eauto. }
  assert ((khash e.1, i) ∈ ht_elems (store c)) as Hrow.
  { rewrite (inv_tab _ _ _ H). apply list_elem_of_fmap. exists (i, e). split; [done|mem]. }
  destruct r as [[j t]|].
  - destruct Hr as (Ht & h' & P).
    destruct (inv_row _ _ _ h' j H) as (e' & He' & _); [rewrite P; by left|].
    rewrite (Heq _ _ He') in Ht. injection Ht as ->%bool_decide_eq_true.
    exists t. split; [done|]. by eapply row_removed.
  - apply Hr in Hrow. rewrite (Heq i e) in Hrow by mem. rewrite bool_decide_true in Hrow by done. done.
Qed.

(** Only one slot has a key equal to that of [(i, e)]. *)
Lemma key_at_slot c xs i e ys fre k : inv c (xs ++ (i, e) :: ys) fre -> keq k e.1 = true ->
  forall j e', (j, e') ∈ xs ++ (i, e) :: ys -> key_at (order c) k j = Done (bool_decide (j = i)).
Proof.
  intros H Hk j e' Hin. rewrite (inv_key_at _ _ _ _ _ k H Hin). f_equal.
  destruct (bool_decide_reflect (j = i)) as [->|Hne].
  - by rewrite (inv_slot_inj _ _ _ i e' e H); [|done|mem].
  - assert ((j, e') ∈ xs ++ ys) as Hin' by mem. pose proof (inv_keys _ _ _ H) as D.
    rewrite fmap_app, fmap_cons in D. apply distinct_mid in D as [_ F]. rewrite <- fmap_app in F.
    assert (fresh k (xs ++ ys).*2) as Fk by (eapply fresh_cong; [by apply keq_sym|done]).
    apply (list_elem_of_fmap_2 snd) in Hin'. unfold fresh in Fk. rewrite Forall_forall in Fk. by apply Fk.
Qed.

(** ** Steps on the slab and the table together *)

Lemma models_entries c a occ fre : models_at c a occ fre -> entries a = occ.*2.
Proof. by intros [_ ->]. Qed.

Lemma step_promote c a xs i e ys fre x : models_at c a (xs ++ (i, e) :: ys) fre ->
  exists c', on_order (move_to_front i) (c, x) = (Done tt, (c', x)) /\
    models_at c' (put_entries (e :: (xs ++ ys).*2) a) ((i, e) :: xs ++ ys) fre.
Proof.
  intros [H ->]. destruct (move_to_front_run _ _ _ _ _ _ (inv_rep _ _ _ H)) as (v & E & R).
  exists (with_order (mkList v) c). split; [by apply on_order_run|].
  assert ((i, e) :: xs ++ ys ≡ₚ xs ++ (i, e) :: ys) as P by apply Permutation_middle.
  split; [|done]. split; simpl; [done| | |apply H].
  - by rewrite (inv_tab _ _ _ H), <- P.
  - change (distinct ((i, e) :: xs ++ ys).*2). rewrite P. apply H.
Qed.

(** Overwriting a slot with an entry of an equal key. *)
Lemma inv_overwrite c xs i e ys fre e' v : inv c (xs ++ (i, e) :: ys) fre ->
  keq e'.1 e.1 = true -> rep v (xs ++ (i, e') :: ys) fre ->
  inv (with_order (mkList v) c) (xs ++ (i, e') :: ys) fre.
Proof.
  intros H Hk R. split; simpl; [done| | |apply H].
  - rewrite (inv_tab _ _ _ H), !fmap_app, !fmap_cons. unfold row. simpl. by rewrite (keq_hash _ _ Hk).
  - pose proof (inv_keys _ _ _ H) as D. rewrite !fmap_app, !fmap_cons in *. simpl in *.
    apply distinct_mid in D as [D F]. apply distinct_insert; [done|].
    eapply fresh_cong; [by apply keq_sym|done].
Qed.

Lemma step_set c a xs i e ys fre e' x : models_at c a (xs ++ (i, e) :: ys) fre ->
  keq e'.1 e.1 = true ->
  exists c', on_order (set i e') (c, x) = (Done (Some e), (c', x)) /\
    models_at c' (put_entries (xs ++ (i, e') :: ys).*2 a) (xs ++ (i, e') :: ys) fre.
Proof.
  intros [H ->] Hk. destruct (set_run _ _ _ _ _ _ e' (inv_rep _ _ _ H)) as (v & E & R).
  exists (with_order (mkList v) c). split; [by apply on_order_run|].
  split; [|done]. by eapply inv_overwrite.
Qed.

Lemma step_write c a xs i e ys fre e' x : models_at c a (xs ++ (i, e) :: ys) fre ->
  keq e'.1 e.1 = true ->
  exists c', on_order (write i e') (c, x) = (Done tt, (c', x)) /\
    models_at c' (put_entries (xs ++ (i, e') :: ys).*2 a) (xs ++ (i, e') :: ys) fre.
Proof.
  intros [H ->] Hk. destruct (write_run _ _ _ _ _ _ e' (inv_rep _ _ _ H)) as (v & E & R).
  exists (with_order (mkList v) c). split; [by apply on_order_run|].
  split; [|done]. by eapply inv_overwrite.
Qed.

(** Dropping the table row of a slot, then freeing the slot. *)
Lemma step_remove c a xs i e ys fre t x : models_at c a (xs ++ (i, e) :: ys) fre ->
  ht_elems t ≡ₚ row <$> (xs ++ ys) ->
  exists c', on_order (remove i) (with_store t c, x) = (Done e, (c', x)) /\
    models_at c' (put_entries (xs ++ ys).*2 a) (xs ++ ys) (i :: fre).
Proof.
  intros [H ->] T. destruct (remove_run _ _ _ _ _ _ (inv_rep _ _ _ H)) as (v & E & R).
  exists (with_order (mkList v) (with_store t c)). split; [by apply on_order_run|].
  split; [|done]. split; simpl; [done|done| |apply H].
  pose proof (inv_keys _ _ _ H) as D. rewrite fmap_app, fmap_cons in D.
  apply distinct_mid in D as [D _]. by rewrite fmap_app.
Qed.

(** Pushing a new key and indexing its slot. *)
Lemma step_insert c a occ fre k v x : models_at c a occ fre -> fresh k occ.*2 ->
  exists c' c'' i, on_order (push_front (k, v)) (c, x) = (Done i, (c', x)) /\
    insert_index (khash k) i (c', x) = (Done tt, (c'', x)) /\
    models_at c'' (put_entries ((k, v) :: occ.*2) a) ((i, (k, v)) :: occ) (tail fre).
Proof.
  intros [H ->] F.
  destruct (push_front_run _ _ _ (k, v) (inv_rep _ _ _ H)) as (w & i & E & R & _).
  set (c' := with_order (mkList w) c).
  destruct (ht_insert_spec (store c) (khash k) i
     (fun j => let? e := get (mkList w) j in Done (hash e.1))) as (t & Et & Pt).
  { intros h j Hin. destruct (inv_row _ _ _ _ _ H Hin) as (e & He & ->).
    by rewrite (get_run _ _ _ j e R) by (by right). }
  exists c', (with_store t c'), i. split_and!.
  - by apply on_order_run.
  - unfold insert_index, bind, self, gets, of_outcome, set_self, modify. simpl. by rewrite Et.
  - split; [|done]. split; simpl; [done| |split; [exact F|apply H]|apply H].
    by rewrite Pt, (inv_tab _ _ _ H).
Qed.

(** Counters and configuration. *)
Lemma models_hits c a occ fre n : models_at c a occ fre ->
  models_at (with_hits n c) (put_hits n a) occ fre.
Proof. intros [H ->]. split; [|done]. split; apply H. Qed.
Lemma models_misses c a occ fre n : models_at c a occ fre ->
  models_at (with_misses n c) (put_misses n a) occ fre.
Proof. intros [H ->]. split; [|done]. split; apply H. Qed.
Lemma models_evictions c a occ fre n : models_at c a occ fre ->
  models_at (with_evictions n c) (put_evictions n a) occ fre.
Proof. intros [H ->]. split; [|done]. split; apply H. Qed.
Lemma models_capacity c a occ fre n : 0 < n -> models_at c a occ fre ->
  models_at (with_capacity n c) (put_capacity n a) occ fre.
Proof. intros Hn [H ->]. split; [|done]. by split; try apply H. Qed.

(** Counting: what the implementation and the specification do to the counters. *)
Lemma step_count n c a occ fre x : models_at c a occ fre ->
  exists c' a', count_evictions n (c, x) = (Done tt, (c', x)) /\
    s_count n (a, x) = (Done tt, (a', x)) /\ models_at c' a' occ fre /\
    a' = put_evictions (fetch_add (vevictions a) n) a.
Proof.
  intros H. do 2 eexists. split_and!; [done|done| |done].
  simpl. destruct H as [H ->]. by apply models_evictions.
Qed.

Lemma step_tracked (b : bool) c a occ fre x : models_at c a occ fre ->
  exists c' a', tracked (if b then count_miss else count_hit) (c, x) = (Done tt, (c', x)) /\
    s_tracked (if b then s_miss else s_hit) (a, x) = (Done tt, (a', x)) /\
    models_at c' a' occ fre /\ entries a' = entries a /\ vcapacity a' = vcapacity a /\
    von_evict a' = von_evict a.
Proof.
  intros [H ->]. unfold tracked, s_tracked, bind, self, s_self, gets. simpl.
  destruct (track_hit_miss c) eqn:Et; [destruct b|];
    (do 2 eexists; split_and!; [done|done| |done..]); (split; [|simpl; by rewrite ?Et]);
    split; apply H.
Qed.

Lemma notify_agree c a k v x occ fre : models_at c a occ fre ->
  agree (fun s1 s2 => s1.1 = c /\ s2.1 = a /\ s1.2 = s2.2) eq
    (notify k v (c, x)) (s_notify k v (a, x)).
Proof.
  intros [H ->]. unfold notify, s_notify, bind, self, s_self, gets. simpl.
  destruct (on_evict c) as [f|]; [|by split]. by apply agree_user.
Qed.

(** ** Running sequences *)

Lemma bind_self {B} (k : LruCache K V W HT -> Op K V W X HT B) c x : bind self k (c, x) = k c (c, x).
Proof. done. Qed.
Lemma bind_set_self {B} f (k : unit -> Op K V W X HT B) c x :
  bind (set_self f) k (c, x) = k tt (f c, x).
Proof. done. Qed.
Lemma bind_s_self {B} (k : View K V W -> Spec K V W X B) a x : bind s_self k (a, x) = k a (a, x).
Proof. done. Qed.
Lemma bind_s_entries {B} l (k : unit -> Spec K V W X B) a x :
  bind (s_entries l) k (a, x) = k tt (put_entries l a, x).
Proof. done. Qed.

(** ** Capacity enforcement *)

(** [Rel], with the slots of the implementation a non-empty prefix of [occ]. *)
Definition RelP occ (s1 : LruCache K V W HT * X) (s2 : View K V W * X) : Prop :=
  s1.2 = s2.2 /\ exists occ' fre', models_at s1.1 s2.1 occ' fre' /\
    occ' `prefix_of` occ /\ (occ <> [] -> occ' <> []).

Lemma RelP_Rel occ s1 s2 : RelP occ s1 s2 -> Rel s1 s2.
Proof. intros (E & occ' & fre' & H & _). split; [done|]. by exists occ', fre'. Qed.

Lemma RelP_trans occ occ' s1 s2 : occ' `prefix_of` occ -> (occ <> [] -> occ' <> []) ->
  RelP occ' s1 s2 -> RelP occ s1 s2.
Proof.
  intros P N (E & o & f & H & Po & No). split; [done|]. exists o, f. split_and!; [done| |auto].
  by transitivity occ'.
Qed.

(** One eviction of the loop against [s_evict_last]. *)
Lemma evict_step c a occ i e fre x : models_at c a (occ ++ [(i, e)]) fre ->
  exists t c', back (order c) = Done i /\ get (order c) i = Done e /\
    ht_find_remove (store c) (hash e.1) (key_at (order c) e.1) = Done (Some (i, t)) /\
    on_order (remove i) (with_store t c, x) = (Done e, (c', x)) /\
    models_at c' (put_entries occ.*2 a) occ (i :: fre).
Proof.
  intros HM. pose proof HM as [H _].
  destruct (find_remove_slot c occ i e [] fre (hash e.1) (key_at (order c) e.1)) as (t & Et & Pt);
    [done|done|by eapply key_at_slot, keq_refl|].
  destruct (step_remove c a occ i e [] fre t x HM Pt) as (c' & E & HM').
  rewrite app_nil_r in HM'. exists t, c'. split_and!; try done.
  - rewrite order_eta. eapply back_run, H.
  - eapply inv_get; [done|mem].
Qed.

Lemma check_capacity_loop_agree fuel c a occ fre x :
  models_at c a occ fre -> (length occ - Z.to_nat (capacity c) <= fuel)%nat ->
  agree (RelP occ) eq (check_capacity_loop fuel (c, x))
    (for_each (rev (drop (Z.to_nat (vcapacity a)) (entries a))) s_evict_last (a, x)).
Proof.
  revert c a occ fre x. induction fuel as [|fuel IH]; intros c a occ fre x HM Hf;
    pose proof HM as [H Ea]; pose proof (inv_cap _ _ _ H) as Hc;
    assert (vcapacity a = capacity c) as Ecap by (by rewrite Ea);
    simpl; rewrite bind_self, (inv_len _ _ _ H), Ecap, (models_entries _ _ _ _ HM).
  all: destruct (Z.ltb_spec (capacity c) (Z.of_nat (length occ))) as [Hl|Hl];
    [|rewrite drop_ge by (rewrite length_fmap; lia); simpl; apply agree_ret; [done|];
      split; [done|]; by exists occ, fre].
  { lia. }
  destruct occ as [|[i e] occ _] using rev_ind; [simpl in Hl; lia|].
  rewrite length_app in Hf, Hl. simpl in Hf, Hl.
  destruct (evict_step c a occ i e fre x HM) as (t & c' & E1 & E2 & E3 & E4 & HM').
  rewrite (bind_of_outcome _ _ _ _ E1), (bind_of_outcome _ _ _ _ E2), (bind_of_outcome _ _ _ _ E3).
  rewrite bind_set_self, (bind_run _ _ _ _ _ E4).
  rewrite fmap_app, drop_app_le by (rewrite length_fmap; lia). rewrite rev_app_distr. simpl.
  unfold s_evict_last at 1. rewrite bind_assoc, bind_s_self, bind_assoc, bind_s_entries, bind_assoc.
  rewrite (models_entries _ _ _ _ HM), fmap_app. simpl. rewrite removelast_last.
  destruct (step_count 1 c' _ occ _ x HM') as (c2 & a2 & E5 & E6 & HM2 & Ea2).
  rewrite (bind_run _ _ _ _ _ E5), (bind_run _ _ _ _ _ E6).
  assert (occ ++ [(i, e)] <> [] -> occ <> []) as Hne by (intros _ ->; simpl in Hl; lia).
  eapply agree_seq; [by eapply (notify_agree c2 a2 e.1 e.2 x)| |].
  - intros [c3 x3] [a3 x3'] (E7 & E8 & E9). simpl in *. subst. split; [done|].
    exists occ, (i :: fre). split_and!; [done|by apply prefix_app_r|done].
  - intros [] [] [c3 x3] [a3 x3'] _ (E7 & E8 & E9). simpl in *. subst.
    eapply agree_weaken; [intros ? ?; by apply RelP_trans, Hne; apply prefix_app_r|].
    assert (capacity c2 = capacity c) as Ec2.
    { destruct HM2 as [_ HM2]. apply (f_equal vcapacity) in HM2. simpl in HM2. by rewrite HM2 in Ecap. }
    pose proof (IH c2 _ occ _ x3' HM2) as IH'.
    rewrite (models_entries _ _ _ _ HM2) in IH'. simpl in IH'.
    apply IH'. lia.
Qed.

Lemma check_capacity_agree c a occ fre x : models_at c a occ fre ->
  agree (RelP occ) eq (check_capacity (c, x)) (s_trim (a, x)).
Proof.
  intros HM. unfold check_capacity, s_trim. rewrite bind_self, bind_s_self.
  eapply check_capacity_loop_agree; [done|]. rewrite (inv_len _ _ _ (proj1 HM)). lia.
Qed.

(** Within the bound there is nothing to trim. *)
Lemma s_trim_fits a x : Z.of_nat (length (entries a)) <= vcapacity a ->
  s_trim (a, x) = (Done tt, (a, x)).
Proof. intros H. unfold s_trim. rewrite bind_s_self, drop_ge by lia. done. Qed.

(** ** The methods *)

(** The same user code on both sides, from states that share the world. *)
Lemma user_seq {A B1 B2} (Q : B1 -> LruCache K V W HT * X -> B2 -> View K V W * X -> Prop) U
    (m : User X A) f1 f2 c a x :
  (forall x', U (c, x') (a, x')) ->
  (forall r x', simulates Q U (f1 r (c, x')) (f2 r (a, x'))) ->
  simulates Q U (bind (user m) f1 (c, x)) (bind (user m) f2 (a, x)).
Proof.
  intros HU HQ. eapply (simulates_bind (fun r1 s1 r2 s2 => r1 = r2 /\ s1.1 = c /\ s2.1 = a /\ s1.2 = s2.2)).
  - unfold user. simpl. destruct (m x) as [[r|] x']; simpl; [done|apply HU].
  - intros r [c' x1] r2 [a' x2]. simpl. intros (-> & -> & -> & ->). apply HQ.
Qed.

(** Both sides have found the entry [e] in slot [i], or both have not. *)
Inductive found (k : K) c a : option nat -> option ((K * V) * list (K * V)) -> Prop :=
| found_some xs i e ys fre :
    models_at c a (xs ++ (i, e) :: ys) fre -> keq k e.1 = true ->
    found k c a (Some i) (Some (e, (xs ++ ys).*2))
| found_none occ fre : models_at c a occ fre -> fresh k occ.*2 -> found k c a None None.

Lemma get_index_found c a k : models c a ->
  exists oi, get_index c (khash k) k = Done oi /\ found k c a oi (take_key k (entries a)).
Proof.
  intros (occ & fre & HM). rewrite (models_entries _ _ _ _ HM).
  destruct (get_index_cases c occ fre k (proj1 HM)) as [(xs & i & e & ys & -> & Hk & -> & E)|[E1 E2]].
  - exists (Some i). split; [done|]. by econstructor.
  - exists None. split; [done|]. rewrite E1. econstructor; [done|]. by apply take_key_None.
Qed.

Lemma slot_get c a xs i e ys fre : models_at c a (xs ++ (i, e) :: ys) fre -> get (order c) i = Done e.
Proof. intros [H _]. eapply inv_get; [done|mem]. Qed.

Lemma models_intro c a occ fre : models_at c a occ fre -> models c a.
Proof. by exists occ, fre. Qed.

Lemma models_tracked c a occ fre x (b : bool) : models_at c a occ fre ->
  exists c' a', tracked (if b then count_miss else count_hit) (c, x) = (Done tt, (c', x)) /\
    s_tracked (if b then s_miss else s_hit) (a, x) = (Done tt, (a', x)) /\ models_at c' a' occ fre.
Proof. intros H. destruct (step_tracked b c a occ fre x H) as (c' & a' & ? & ? & ? & _). eauto. Qed.

Lemma get_if_refines k is_valid : refines Rel (get_if k is_valid) (s_get_if k is_valid).
Proof.
  intros [c x] [a x'] [E HM]. simpl in *. subst x'. apply agree_simulates.
  unfold get_if, s_get_if. rewrite bind_self, bind_s_self.
  destruct (get_index_found c a k HM) as (oi & E1 & F). rewrite (bind_of_outcome _ _ _ _ E1).
  destruct F as [xs i e ys fre HA Hk|occ fre HA Hk].
  - rewrite bind_assoc, (bind_of_outcome _ _ _ _ (slot_get _ _ _ _ _ _ _ HA)), bind_assoc.
    apply user_seq; [intros; by eapply Rel_at|]. intros [] x'; unfold bind at 1; simpl.
    + destruct (step_promote c a xs i e ys fre x' HA) as (c1 & E2 & HA1).
      rewrite (bind_run _ _ _ _ _ E2), bind_s_entries.
      destruct (models_tracked _ _ _ _ x' false HA1) as (c2 & a2 & E3 & E4 & HA2).
      rewrite (bind_run _ _ _ _ _ E3), (bind_run _ _ _ _ _ E4), bind_self.
      rewrite (bind_of_outcome _ _ _ _ (slot_get _ _ [] _ _ _ _ HA2)).
      split; [by eapply Rel_at|done].
    + destruct (models_tracked _ _ _ _ x' true HA) as (c2 & a2 & E3 & E4 & HA2).
      rewrite (bind_run _ _ _ _ _ E3), (bind_run _ _ _ _ _ E4). split; [by eapply Rel_at|done].
  - unfold bind at 1. simpl.
    destruct (models_tracked _ _ _ _ x true HA) as (c2 & a2 & E3 & E4 & HA2).
    rewrite (bind_run _ _ _ _ _ E3), (bind_run _ _ _ _ _ E4). split; [by eapply Rel_at|done].
Qed.

(** [Rel], and the reference [i] points at the front entry. *)
Definition RelF i (s1 : LruCache K V W HT * X) (s2 : View K V W * X) : Prop :=
  s1.2 = s2.2 /\ exists e occ fre, models_at s1.1 s2.1 ((i, e) :: occ) fre.

Lemma RelF_Rel i s1 s2 : RelF i s1 s2 -> Rel s1 s2.
Proof. intros (E & e & occ & fre & H). split; [done|]. by eapply models_intro. Qed.

Lemma RelF_at c a i e occ fre x : models_at c a ((i, e) :: occ) fre -> RelF i (c, x) (a, x).
Proof. intros H. split; [done|]. by exists e, occ, fre. Qed.

Lemma get_mut_if_simulates k is_valid c a x : models c a ->
  simulates (fun r1 s1 r2 s2 =>
      match r1 with
      | Some i => RelF i s1 s2 /\ r2 = snd <$> head (entries s2.1)
      | None => Rel s1 s2 /\ r2 = None
      end) Rel
    (get_mut_if k is_valid (c, x)) (s_get_if k is_valid (a, x)).
Proof.
  intros HM. unfold get_mut_if, s_get_if. rewrite bind_self, bind_s_self.
  destruct (get_index_found c a k HM) as (oi & E1 & F). rewrite (bind_of_outcome _ _ _ _ E1).
  destruct F as [xs i e ys fre HA Hk|occ fre HA Hk].
  - rewrite bind_assoc, (bind_of_outcome _ _ _ _ (slot_get _ _ _ _ _ _ _ HA)), bind_assoc.
    apply user_seq; [intros; by eapply Rel_at|]. intros [] x'; unfold bind at 1; simpl.
    + destruct (step_promote c a xs i e ys fre x' HA) as (c1 & E2 & HA1).
      rewrite (bind_run _ _ _ _ _ E2), bind_s_entries.
      destruct (models_tracked _ _ _ _ x' false HA1) as (c2 & a2 & E3 & E4 & HA2).
      rewrite (bind_run _ _ _ _ _ E3), (bind_run _ _ _ _ _ E4), bind_self.
      rewrite (bind_of_outcome _ _ _ _ (slot_get _ _ [] _ _ _ _ HA2)).
      split; [by eapply RelF_at|]. simpl. by rewrite (models_entries _ _ _ _ HA2).
    + destruct (models_tracked _ _ _ _ x' true HA) as (c2 & a2 & E3 & E4 & HA2).
      rewrite (bind_run _ _ _ _ _ E3), (bind_run _ _ _ _ _ E4). split; [by eapply Rel_at|done].
  - unfold bind at 1. simpl.
    destruct (models_tracked _ _ _ _ x true HA) as (c2 & a2 & E3 & E4 & HA2).
    rewrite (bind_run _ _ _ _ _ E3), (bind_run _ _ _ _ _ E4). split; [by eapply Rel_at|done].
Qed.

(** Trimming after the front entry was put in place keeps it in front. *)
Lemma trim_simulates {B1 B2} (Q : B1 -> LruCache K V W HT * X -> B2 -> View K V W * X -> Prop)
    f1 f2 c a i e occ fre x :
  models_at c a ((i, e) :: occ) fre ->
  (forall s1 s2, RelF i s1 s2 -> simulates Q Rel (f1 tt s1) (f2 tt s2)) ->
  simulates Q Rel (bind check_capacity f1 (c, x)) (bind s_trim f2 (a, x)).
Proof.
  intros HA HQ. pose proof (check_capacity_agree c a _ fre x HA) as G.
  apply agree_simulates in G. eapply simulates_bind.
  - eapply simulates_mono; [| |exact G]; [|intros s1 s2; apply RelP_Rel].
    intros [] s1 [] s2 [(E & occ' & fre' & HA' & P & N) _]. instantiate (1 := fun _ s1 _ s2 => RelF i s1 s2).
    simpl. specialize (N ltac:(done)). destruct occ' as [|p occ']; [done|].
    apply prefix_cons_inv_1 in P as ->. split; [done|]. by exists e, occ', fre'.
  - intros [] s1 [] s2 HF. by apply HQ.
Qed.

Lemma slot_get_front c a i e occ fre : models_at c a ((i, e) :: occ) fre -> get (order c) i = Done e.
Proof. intros [H _]. eapply inv_get; [done|by left]. Qed.

Lemma put_put_entries l l' a : put_entries l (put_entries l' a) = put_entries l a.
Proof. done. Qed.

(** Replacing the entry found for [k] and promoting the slot. *)
Lemma step_replace c a xs i e ys fre k v x : models_at c a (xs ++ (i, e) :: ys) fre ->
  keq k e.1 = true ->
  exists c1 c2, on_order (set i (k, v)) (c, x) = (Done (Some e), (c1, x)) /\
    on_order (move_to_front i) (c1, x) = (Done tt, (c2, x)) /\
    models_at c2 (put_entries ((k, v) :: (xs ++ ys).*2) a) ((i, (k, v)) :: xs ++ ys) fre.
Proof.
  intros HA Hk. destruct (step_set c a xs i e ys fre (k, v) x HA Hk) as (c1 & E1 & HA1).
  destruct (step_promote c1 _ xs i (k, v) ys fre x HA1) as (c2 & E2 & HA2). eauto.
Qed.

Lemma cache_set_returning_entry_refines k v :
  refines Rel (cache_set_returning_entry k v) (s_put k v).
Proof.
  intros [c x] [a x'] [E HM]. simpl in *. subst x'. apply agree_simulates.
  unfold cache_set_returning_entry, s_put. rewrite bind_self, bind_s_self.
  destruct (get_index_found c a k HM) as (oi & E1 & F). rewrite (bind_of_outcome _ _ _ _ E1).
  destruct F as [xs i e ys fre HA Hk|occ fre HA Hk].
  - destruct (step_replace c a xs i e ys fre k v x HA Hk) as (c1 & c2 & E2 & E3 & HA2).
    rewrite bind_assoc, (bind_run _ _ _ _ _ E2), bind_assoc, (bind_run _ _ _ _ _ E3), bind_s_entries.
    unfold bind at 1. simpl. eapply trim_simulates; [done|].
    intros s1 s2 HF. split; [by eapply RelF_Rel|done].
  - destruct (step_insert c a occ fre k v x HA Hk) as (c1 & c2 & i & E2 & E3 & HA2).
    rewrite bind_assoc, (bind_run _ _ _ _ _ E2), bind_assoc, (bind_run _ _ _ _ _ E3), bind_s_entries.
    rewrite (models_entries _ _ _ _ HA). unfold bind at 1. simpl. eapply trim_simulates; [done|].
    intros s1 s2 HF. split; [by eapply RelF_Rel|done].
Qed.

(** [cache_set] is [cache_set_returning_entry] without the displaced key. *)
Lemma cache_set_eq k (v : V) (s : LruCache K V W HT * X) :
  cache_set k v s = bind (cache_set_returning_entry k v) (fun r => ret (snd <$> r)) s.
Proof.
  destruct s as [c x]. unfold cache_set, cache_set_returning_entry, bind, ret, of_outcome, self, gets. simpl.
  destruct (get_index c (hash k) k) as [[i|]| |]; try done.
  - destruct (on_order (set i (k, v)) (c, x)) as [[o| |] s1]; try done.
    destruct (on_order (move_to_front i) s1) as [[[]| |] s2]; try done.
    by destruct (check_capacity s2) as [[[]| |] s3].
  - destruct (on_order (push_front (k, v)) (c, x)) as [[i| |] s1]; try done.
    destruct (insert_index (hash k) i s1) as [[[]| |] s2]; try done.
    by destruct (check_capacity s2) as [[[]| |] s3].
Qed.

Lemma refines_ext {A} (m1 m1' : Op K V W X HT A) m2 :
  (forall s, m1 s = m1' s) -> refines Rel m1' m2 -> refines Rel m1 m2.
Proof. intros E H s1 s2 HR. rewrite E. by apply H. Qed.

Lemma cache_set_spec k v : refines Rel (cache_set k v) (s_cache_set k v).
Proof.
  eapply refines_ext; [apply cache_set_eq|].
  apply refines_bind; [apply cache_set_returning_entry_refines|]. intros r. apply refines_ret.
Qed.

(** The outcome of a get-or-set: the flags and displaced entry of the specification, and a
    reference to the front entry. *)
Definition GosPost (r1 : GetOrSetOutcome (K := K) (V := V)) (s1 : LruCache K V W HT * X)
    (r2 : bool * bool * option (K * V)) (s2 : View K V W * X) : Prop :=
  r2 = r1.1 /\ RelF r1.2 s1 s2.

(** The common ends of the get-or-set methods. *)
Lemma gos_end c a i e occ fre x p v o : models_at c a ((i, e) :: occ) fre ->
  simulates GosPost Rel
    ((let! c := self in let! _ := of_outcome (get (order c) i) in ret (p, v, o, i)) (c, x))
    (ret (p, v, o) (a, x)).
Proof.
  intros HA. rewrite bind_self, (bind_of_outcome _ _ _ _ (slot_get_front _ _ _ _ _ _ HA)).
  split; [done|]. by eapply RelF_at.
Qed.

Lemma gos_insert c a occ fre k v x : models_at c a occ fre -> fresh k occ.*2 ->
  simulates GosPost Rel
    ((let! index := on_order (push_front (k, v)) in
      insert_index (hash k) index ;;
      check_capacity ;;
      let! c := self in
      let! _ := of_outcome (get (order c) index) in
      ret (false, false, None, index)) (c, x))
    ((s_entries ((k, v) :: entries a) ;; s_trim ;; ret (false, false, None)) (a, x)).
Proof.
  intros HA Hk. destruct (step_insert c a occ fre k v x HA Hk) as (c1 & c2 & i & E2 & E3 & HA2).
  rewrite (bind_run _ _ _ _ _ E2), (bind_run _ _ _ _ _ E3), bind_s_entries, (models_entries _ _ _ _ HA).
  eapply trim_simulates; [done|]. intros [c3 x3] [a3 x3'] (E & e & occ' & fre' & HA3).
  simpl in E, HA3. subst x3'. by eapply gos_end.
Qed.

Lemma gos_replace c a xs i e ys fre k v x : models_at c a (xs ++ (i, e) :: ys) fre ->
  keq k e.1 = true ->
  simulates GosPost Rel
    ((let! old := on_order (set i (k, v)) in
      on_order (move_to_front i) ;;
      let! c := self in
      let! _ := of_outcome (get (order c) i) in
      ret (true, false, old, i)) (c, x))
    ((s_entries ((k, v) :: (xs ++ ys).*2) ;; ret (true, false, Some e)) (a, x)).
Proof.
  intros HA Hk. destruct (step_replace c a xs i e ys fre k v x HA Hk) as (c1 & c2 & E2 & E3 & HA2).
  rewrite (bind_run _ _ _ _ _ E2), (bind_run _ _ _ _ _ E3), bind_s_entries. by eapply gos_end.
Qed.

Lemma get_or_set_simulates k f is_valid c a x : models c a ->
  simulates GosPost Rel (get_or_set_with_if k f is_valid (c, x)) (s_get_or_set k f is_valid (a, x)).
Proof.
  intros HM. unfold get_or_set_with_if, s_get_or_set. rewrite bind_self, bind_s_self.
  destruct (get_index_found c a k HM) as (oi & E1 & F). rewrite (bind_of_outcome _ _ _ _ E1).
  destruct F as [xs i e ys fre HA Hk|occ fre HA Hk].
  - rewrite (bind_of_outcome _ _ _ _ (slot_get _ _ _ _ _ _ _ HA)).
    apply user_seq; [intros; by eapply Rel_at|]. intros [] x'; simpl.
    + destruct (models_tracked _ _ _ _ x' false HA) as (c2 & a2 & E3 & E4 & HA2).
      rewrite (bind_run _ _ _ _ _ E3), (bind_run _ _ _ _ _ E4), bind_s_entries. unfold bind at 1. simpl.
      destruct (step_promote c2 a2 xs i e ys fre x' HA2) as (c3 & E5 & HA3).
      rewrite (bind_run _ _ _ _ _ E5). by eapply gos_end.
    + destruct (models_tracked _ _ _ _ x' true HA) as (c2 & a2 & E3 & E4 & HA2).
      rewrite (bind_run _ _ _ _ _ E3), (bind_run _ _ _ _ _ E4), bind_assoc.
      apply user_seq; [intros; by eapply Rel_at|]. intros v x2. by eapply gos_replace.
  - destruct (step_tracked true _ _ _ _ x HA) as (c2 & a2 & E3 & E4 & HA2 & <- & _).
    rewrite (bind_run _ _ _ _ _ E3), (bind_run _ _ _ _ _ E4).
    apply user_seq; [intros; by eapply Rel_at|]. intros v x2. by eapply gos_insert.
Qed.

(** The fallible variant: an error of the factory stops the method, with only the miss
    counted. *)
Definition TryGosPost {E} (r1 : result E (GetOrSetOutcome (K := K) (V := V)))
    (s1 : LruCache K V W HT * X) (r2 : result E (bool * bool * option (K * V)))
    (s2 : View K V W * X) : Prop :=
  match r1, r2 with
  | Ok r1, Ok r2 => GosPost r1 s1 r2 s2
  | Err e1, Err e2 => e1 = e2 /\ Rel s1 s2
  | _, _ => False
  end.

Lemma try_get_or_set_simulates {E} k (f : User X (result E V)) is_valid c a x : models c a ->
  simulates TryGosPost Rel
    (try_get_or_set_with_if k f is_valid (c, x)) (s_try_get_or_set k f is_valid (a, x)).
Proof.
  intros HM. unfold try_get_or_set_with_if, s_try_get_or_set. rewrite bind_self, bind_s_self.
  destruct (get_index_found c a k HM) as (oi & E1 & F). rewrite (bind_of_outcome _ _ _ _ E1).
  destruct F as [xs i e ys fre HA Hk|occ fre HA Hk].
  - rewrite (bind_of_outcome _ _ _ _ (slot_get _ _ _ _ _ _ _ HA)).
    apply user_seq; [intros; by eapply Rel_at|]. intros [] x'; simpl.
    + destruct (models_tracked _ _ _ _ x' false HA) as (c2 & a2 & E3 & E4 & HA2).
      rewrite (bind_run _ _ _ _ _ E3), (bind_run _ _ _ _ _ E4), bind_s_entries. unfold bind at 1. simpl.
      destruct (step_promote c2 a2 xs i e ys fre x' HA2) as (c3 & E5 & HA3).
      rewrite (bind_run _ _ _ _ _ E5).
      rewrite bind_self, (bind_of_outcome _ _ _ _ (slot_get_front _ _ _ _ _ _ HA3)).
      split; [done|by eapply RelF_at].
    + destruct (models_tracked _ _ _ _ x' true HA) as (c2 & a2 & E3 & E4 & HA2).
      rewrite (bind_run _ _ _ _ _ E3), (bind_run _ _ _ _ _ E4), bind_assoc.
      apply user_seq; [intros; by eapply Rel_at|]. intros [v|err] x2.
      * destruct (step_replace c2 a2 xs i e ys fre k v x2 HA2 Hk) as (c3 & c4 & E5 & E6 & HA4).
        rewrite bind_assoc, (bind_run _ _ _ _ _ E5). unfold bind at 1. simpl.
        rewrite (bind_run _ _ _ _ _ E6), bind_s_entries.
        rewrite bind_self, (bind_of_outcome _ _ _ _ (slot_get_front _ _ _ _ _ _ HA4)).
        split; [done|by eapply RelF_at].
      * split; [done|by eapply Rel_at].
  - destruct (step_tracked true _ _ _ _ x HA) as (c2 & a2 & E3 & E4 & HA2 & <- & _).
    rewrite (bind_run _ _ _ _ _ E3), (bind_run _ _ _ _ _ E4).
    apply user_seq; [intros; by eapply Rel_at|]. intros [v|err] x2; [|split; [done|by eapply Rel_at]].
    destruct (step_insert c2 a2 occ fre k v x2 HA2 Hk) as (c3 & c4 & i & E5 & E6 & HA4).
    rewrite (bind_run _ _ _ _ _ E5), (bind_run _ _ _ _ _ E6), bind_s_entries, (models_entries _ _ _ _ HA2).
    eapply trim_simulates; [done|]. intros [c5 x5] [a5 x5'] (Ex & e & occ' & fre' & HA5).
    simpl in Ex, HA5. subst x5'.
    rewrite bind_self, (bind_of_outcome _ _ _ _ (slot_get_front _ _ _ _ _ _ HA5)).
    split; [done|by eapply RelF_at].
Qed.

(** *** Removal *)

Lemma pop_raw_refines k : refines Rel (pop_raw k) (s_pop k).
Proof.
  intros [c x] [a x'] [E HM]. simpl in *. subst x'. apply agree_simulates.
  unfold pop_raw, pop_raw_with_hash, s_pop. rewrite bind_self, bind_s_self.
  destruct (get_index_found c a k HM) as (oi & E1 & F). inversion F as [xs i e ys fre HA Hk E2 E3|occ fre HA Hk E2 E3].
  - destruct (find_remove_slot c xs i e ys fre (hash k) (key_at (order c) k)) as (t & Et & Pt);
      [apply HA|by apply keq_hash|by eapply key_at_slot; [apply HA|]|].
    destruct (step_remove c a xs i e ys fre t x HA Pt) as (c' & E4 & HA').
    rewrite (bind_of_outcome _ _ _ _ Et), bind_set_self, (bind_run _ _ _ _ _ E4), bind_s_entries.
    split; [by eapply Rel_at|done].
  - destruct (ht_find_remove_spec (store c) (hash k) (key_at (order c) k)) as (r & Er & Hr).
    { intros h j Hin. destruct (inv_row _ _ _ _ _ (proj1 HA) Hin) as (e' & He' & _).
      rewrite (inv_key_at _ _ _ _ _ k (proj1 HA) He'). eauto. }
    destruct r as [[j t]|].
    + exfalso. destruct Hr as (Ht & h' & P).
      destruct (inv_row _ _ _ h' j (proj1 HA)) as (e' & He' & _); [rewrite P; by left|].
      rewrite (inv_key_at _ _ _ _ _ k (proj1 HA) He') in Ht. injection Ht as Ht.
      unfold fresh in Hk. rewrite Forall_forall in Hk.
      rewrite Hk in Ht; [done|]. by apply (list_elem_of_fmap_2 snd) in He'.
    + rewrite (bind_of_outcome _ _ _ _ Er). split; [by eapply Rel_at|done].
Qed.

Lemma count_refines n : refines Rel (count_evictions n) (s_count n).
Proof.
  intros [c x] [a x'] [E (occ & fre & HA)]. simpl in *. subst x'.
  destruct (step_count n c a occ fre x HA) as (c' & a' & -> & -> & HA' & _).
  apply agree_done; [done|]. by eapply Rel_at.
Qed.

Lemma notify_refines k v : refines Rel (notify k v) (s_notify k v).
Proof.
  intros [c x] [a x'] [E (occ & fre & HA)]. simpl in *. subst x'.
  eapply agree_weaken; [|by eapply notify_agree].
  intros [c1 x1] [a1 x2] (E1 & E2 & E). simpl in *. subst. by eapply Rel_at.
Qed.

Lemma cache_remove_entry_spec k : refines Rel (cache_remove_entry k) (s_remove_entry k).
Proof.
  apply refines_bind; [apply pop_raw_refines|]. intros [e|]; (apply refines_bind; [|intros; apply refines_ret]).
  - apply refines_bind; [apply count_refines|]. intros _. apply notify_refines.
  - apply refines_ret.
Qed.

(** *** Sweeps *)

Lemma remove_index_run c a xs i e ys fre x : models_at c a (xs ++ (i, e) :: ys) fre ->
  exists c', remove_index i (c, x) = (Done e, (c', x)) /\
    models_at c' (put_entries (xs ++ ys).*2 a) (xs ++ ys) (i :: fre).
Proof.
  intros HA. pose proof HA as [H _].
  destruct (find_remove_slot c xs i e ys fre (hash e.1) (fun j => Done (Nat.eqb j i))) as (t & Et & Pt);
    [done|done| |].
  { intros j _ _. f_equal. destruct (Nat.eqb_spec j i); [by rewrite bool_decide_true|by rewrite bool_decide_false]. }
  destruct (step_remove c a xs i e ys fre t x HA Pt) as (c' & E & HA'). exists c'. split; [|done].
  unfold remove_index. rewrite bind_self, (bind_of_outcome _ _ _ _ (slot_get _ _ _ _ _ _ _ HA)).
  by rewrite (bind_of_outcome _ _ _ _ Et), bind_set_self.
Qed.

(** Removing a slot is dropping its key. *)
Lemma s_drop_run a xs i e ys x : distinct (xs ++ (i, e) :: ys).*2 ->
  entries a = (xs ++ (i, e) :: ys).*2 ->
  s_drop e (a, x) = (Done e, (put_entries (xs ++ ys).*2 a, x)).
Proof.
  intros D E. unfold s_drop. rewrite bind_s_self. unfold drop_key. rewrite E.
  destruct (take_slot (xs ++ (i, e) :: ys) i e e.1 D) as (xs' & ys' & E1 & _ & ->); [mem|apply keq_refl|].
  replace (xs' ++ ys').*2 with (xs ++ ys).*2; [done|].
  assert (take_key e.1 (xs ++ (i, e) :: ys).*2 = Some (e, (xs ++ ys).*2)) as T1.
  { rewrite !fmap_app, fmap_cons in *. simpl in *. apply take_key_app; [|apply keq_refl].
    apply distinct_mid in D as [_ F]. by apply fresh_app in F as [F _]. }
  assert (take_key e.1 (xs' ++ (i, e) :: ys').*2 = Some (e, (xs' ++ ys').*2)) as T2.
  { rewrite E1 in D. rewrite !fmap_app, fmap_cons in *. simpl in *. apply take_key_app; [|apply keq_refl].
    apply distinct_mid in D as [_ F]. by apply fresh_app in F as [F _]. }
  congruence.
Qed.

(** The selection pass: both sides select the same entries, and change nothing but the
    world. *)
Lemma select_simulates (keep : K -> V -> User X bool) c a l x :
  (forall i e, (i, e) ∈ l -> get (order c) i = Done e) ->
  simulates (fun ids s1 es s2 => exists l', l' `sublist_of` l /\ ids = l'.*1 /\ es = l'.*2 /\
               s1.1 = c /\ s2.1 = a /\ s1.2 = s2.2)
    (fun s1 s2 => s1.1 = c /\ s2.1 = a /\ s1.2 = s2.2)
    (filter_each l.*1 (fun i =>
       let! e := of_outcome (get (order c) i) in let! b := user (keep e.1 e.2) in ret (negb b)) (c, x))
    (filter_each l.*2 (fun e => let! b := user (keep e.1 e.2) in ret (negb b)) (a, x)).
Proof.
  revert x. induction l as [|[i e] l IH]; intros x HG; simpl; [by exists []|].
  rewrite bind_assoc, (bind_of_outcome _ _ _ _ (HG i e ltac:(by left))), !bind_assoc.
  apply user_seq; [done|]. intros b x'. rewrite !bind_ret.
  eapply simulates_bind; [apply IH; intros; apply HG; by right|].
  intros ids [c1 x1] es [a1 x2] (l' & S & -> & -> & E1 & E2 & E3). simpl in *. subst.
  exists (if negb b then (i, e) :: l' else l'). split_and!; try done.
  - destruct b; simpl; [by apply sublist_cons|by apply sublist_skip].
  - by destruct b.
  - by destruct b.
Qed.

(** The removal pass over the selected slots. *)
Lemma sweep_agree doomed c a occ fre x : models_at c a occ fre -> doomed `sublist_of` occ ->
  agree Rel eq
    (for_each doomed.*1 (fun i => let! e := remove_index i in count_evictions 1 ;; notify e.1 e.2) (c, x))
    (for_each doomed.*2 (fun e => s_drop e ;; s_count 1 ;; s_notify e.1 e.2) (a, x)).
Proof.
  revert c a occ fre x. induction doomed as [|[i e] doomed IH]; intros c a occ fre x HA S; simpl.
  { apply agree_ret; [done|]. by eapply Rel_at. }
  apply sublist_cons_l in S as (xs & ys & -> & S).
  destruct (remove_index_run c a xs i e ys fre x HA) as (c1 & E1 & HA1).
  pose proof (inv_keys _ _ _ (proj1 HA)) as D.
  pose proof (s_drop_run a xs i e ys x D (models_entries _ _ _ _ HA)) as E2.
  rewrite !bind_assoc, (bind_run _ _ _ _ _ E1), (bind_run _ _ _ _ _ E2).
  destruct (step_count 1 c1 _ _ _ x HA1) as (c2 & a2 & E3 & E4 & HA2 & _).
  rewrite !bind_assoc, (bind_run _ _ _ _ _ E3), (bind_run _ _ _ _ _ E4).
  eapply agree_seq; [by eapply (notify_agree c2 a2 e.1 e.2 x)| |].
  - intros [c3 x3] [a3 x4] (E5 & E6 & E7). simpl in *. subst. by eapply Rel_at.
  - intros [] [] [c3 x3] [a3 x4] _ (E5 & E6 & E7). simpl in *. subst.
    eapply IH; [exact HA2|]. by apply sublist_inserts_l.
Qed.

Lemma retain_spec keep : refines Rel (retain keep) (s_retain keep).
Proof.
  intros [c x] [a x'] [E (occ & fre & HA)]. simpl in *. subst x'. apply agree_simulates.
  unfold retain, s_retain, doomed_indices, s_doomed. rewrite !bind_assoc, bind_self, bind_s_self.
  assert (iter_indices (order c) = Done occ.*1) as Ei
    by (rewrite order_eta; eapply iter_indices_run, HA).
  rewrite bind_assoc, (bind_of_outcome _ _ _ _ Ei), (models_entries _ _ _ _ HA).
  eapply simulates_bind.
  - eapply simulates_mono; [| |apply (select_simulates keep c a occ x)].
    + intros ids s1 es s2 H. exact H.
    + intros [c1 x1] [a1 x2] (E1 & E2 & E). simpl in *. subst. by eapply Rel_at.
    + intros i e. eapply inv_get, HA.
  - intros ids [c1 x1] es [a1 x2] (l & S & -> & -> & E1 & E2 & E3). simpl in *. subst.
    apply agree_simulates. eapply agree_bind; [by eapply sweep_agree|].
    intros [] [] s1 s2 _ _ _ HR. apply agree_ret; [|done]. by rewrite !length_fmap.
Qed.

(** *** Clearing *)

Lemma inv_empty c t : 0 < capacity c -> ht_elems t = [] ->
  inv (with_store t (with_order (mkList sentinels) c)) [] [].
Proof. intros H E. split; simpl; [apply rep_new|by rewrite E|done|done]. Qed.

Lemma drain_all_refines : refines Rel drain_all s_drain.
Proof.
  intros [c x] [a x'] [E (occ & fre & HA)]. simpl in *. subst x'. unfold drain_all, s_drain.
  assert (on_order (drain_into []) (c, x) = (Done occ.*2, (with_order (mkList sentinels) c, x))) as E1
    by (apply on_order_run; exact (drain_into_run _ _ _ [] (inv_rep _ _ _ (proj1 HA)))).
  rewrite (bind_run _ _ _ _ _ E1), bind_set_self, bind_s_self, bind_s_entries.
  rewrite (models_entries _ _ _ _ HA). apply agree_ret; [done|].
  apply (Rel_at _ _ [] []). destruct HA as [H ->]. split; [|done].
  apply inv_empty; [apply H|apply ht_clear_elems].
Qed.

Lemma cache_clear_with_on_evict_spec : refines Rel cache_clear_with_on_evict s_clear_with_on_evict.
Proof.
  apply refines_bind; [apply drain_all_refines|]. intros l. apply refines_bind.
  - case_decide; [apply refines_ret|apply count_refines].
  - intros _. apply refines_for_each. intros e. apply notify_refines.
Qed.

Lemma cache_clear_spec : refines Rel cache_clear (s_entries []).
Proof.
  intros [c x] [a x'] [E (occ & fre & HA)]. simpl in *. subst x'. unfold cache_clear.
  rewrite bind_set_self. apply agree_done; [done|]. apply (Rel_at _ _ [] []). destruct HA as [H ->].
  split; [|done]. split; simpl; [apply rep_new|by rewrite ht_clear_elems|done|apply H].
Qed.

Lemma cache_reset_spec alloc : refines Rel (cache_reset alloc) s_reset.
Proof.
  intros [c x] [a x'] [E (occ & fre & HA)]. simpl in *. subst x'. unfold cache_reset.
  rewrite bind_self, !bind_set_self. apply agree_done; [done|]. apply (Rel_at _ _ [] []). destruct HA as [H ->].
  split; [|done]. split; simpl; [| |done|apply H].
  - replace (match _ with Ok o => o | Err _ => _ end) with (mkList (T := K * V) sentinels); [apply rep_new|].
    unfold try_with_capacity. destruct (checked_add _ _); [|done]. by destruct (alloc _).
  - destruct (ht_try_reserve ht_new _) as [t|] eqn:Et; [|by rewrite ht_new_elems].
    by rewrite (ht_reserve_spec _ _ _ Et), ht_new_elems.
Qed.

(** *** Resizing *)

Lemma models_cap c a occ fre : models_at c a occ fre -> vcapacity a = capacity c.
Proof. by intros [_ ->]. Qed.

Lemma resize_loop_done fuel c x : Z.of_nat (ht_len (store c)) <= capacity c ->
  resize_loop fuel (c, x) = (Done tt, (c, x)).
Proof.
  intros H. destruct fuel; simpl; rewrite bind_self;
    (destruct (Z.ltb_spec (capacity c) (Z.of_nat (ht_len (store c)))); [lia|done]).
Qed.

Lemma resize_loop_agree fuel c a occ fre x : models_at c a occ fre -> (length occ <= fuel)%nat ->
  agree Rel eq (resize_loop fuel (c, x)) (s_trim (a, x)).
Proof.
  intros HA Hf. pose proof HA as [H Ea]. destruct fuel as [|fuel]; simpl;
    rewrite bind_self, (inv_len _ _ _ H).
  all: destruct (Z.ltb_spec (capacity c) (Z.of_nat (length occ))) as [Hl|Hl];
    [|rewrite s_trim_fits by (rewrite Ea; simpl; rewrite length_fmap; lia);
      apply agree_done; [done|by eapply Rel_at]].
  { pose proof (inv_cap _ _ _ H). lia. }
  clear Ea. pose proof (check_capacity_agree c a occ fre x HA) as Hag.
  pose proof (s_trim_wp a x) as Hw. unfold wp in Hw. unfold bind.
  destruct Hag as [(Ex & occ' & fre' & HA' & _) Hr].
  destruct (check_capacity (c, x)) as [[[]| |] [c1 x1]], (s_trim (a, x)) as [[[]| |] [a1 x2]];
    simpl in *; try done; subst.
  - assert (0 < vcapacity (evicted (take (Z.to_nat (vcapacity a)) (entries a))
      (length (entries a) - Z.to_nat (vcapacity a)) a)) as Hc by (rewrite (models_cap _ _ _ _ HA'); apply HA').
    rewrite resize_loop_done; [apply agree_done; [done|by eapply Rel_at]|].
    rewrite (inv_len _ _ _ (proj1 HA')), <- (models_cap _ _ _ _ HA').
    apply models_entries in HA'. simpl in *.
    apply (f_equal length) in HA'. rewrite length_fmap, length_take in HA'. lia.
  - apply agree_unwind. by eapply Rel_at.
Qed.

Lemma set_max_size_spec n : refines Rel (set_max_size n) (s_set_max_size n).
Proof.
  intros [c x] [a x'] HR. unfold set_max_size, s_set_max_size.
  destruct (Z.leb_spec n 0) as [Hn|Hn]; [by apply agree_unwind|].
  destruct HR as [E (occ & fre & HA)]. simpl in *. subst x'.
  rewrite bind_self, bind_set_self, bind_s_self, (bind_run (s_set _) _ _ tt (put_capacity n a, x)) by done.
  rewrite (models_cap _ _ _ _ HA). pose proof (models_capacity c a occ fre n Hn HA) as HA'.
  eapply agree_bind; [eapply resize_loop_agree; [exact HA'|]; by rewrite (inv_len _ _ _ (proj1 HA))|].
  intros [] [] s1 s2 _ _ _ HR. by apply agree_ret.
Qed.

Lemma cache_remove_spec k :
  refines Rel (cache_remove k) (let! r := s_remove_entry k in ret (snd <$> r)).
Proof. apply refines_bind; [apply cache_remove_entry_spec|]. intros r. apply refines_ret. Qed.

Lemma reset_metrics_spec : refines Rel cache_reset_metrics
  (s_set (put_misses 0) ;; s_set (put_hits 0) ;; s_set (put_evictions 0)).
Proof.
  intros [c x] [a x'] [E (occ & fre & HA)]. simpl in *. subst x'.
  apply agree_done; [done|]. apply (Rel_at _ _ occ fre). destruct HA as [H ->]. split; [|done].
  split; apply H.
Qed.

(** *** Reads *)

Lemma iter_models c a : models c a -> iter (order c) = Done (entries a).
Proof.
  intros (occ & fre & HA). rewrite (models_entries _ _ _ _ HA), order_eta. eapply iter_run, HA.
Qed.

Lemma size_models c a : models c a -> cache_size c = Z.of_nat (length (entries a)).
Proof.
  intros (occ & fre & HA). unfold cache_size.
  by rewrite (inv_len _ _ _ (proj1 HA)), (models_entries _ _ _ _ HA), length_fmap.
Qed.

Lemma models_distinct c a : models c a -> distinct (entries a).
Proof. intros (occ & fre & HA). rewrite (models_entries _ _ _ _ HA). apply HA. Qed.

Lemma find_models c a k : models c a ->
  (let? found := get_index c (khash k) k in
   match found with
   | Some i => let? e := get (order c) i in Done (Some e)
   | None => Done None
   end) = Done (find_key k (entries a)).
Proof.
  intros H. destruct (get_index_found c a k H) as (oi & -> & F). unfold find_key.
  inversion F as [xs i e ys fre HA Hk E1 E2|occ fre HA Hf E1 E2]; subst; simpl; [|done].
  by rewrite (slot_get _ _ _ _ _ _ _ HA).
Qed.

Lemma peek_models c a k : models c a -> cache_peek c k = Done (snd <$> find_key k (entries a)).
Proof.
  intros H. pose proof (find_models c a k H) as E. unfold cache_peek, hash.
  destruct (get_index c (khash k) k) as [[i|]| |]; simpl in *; try done.
  - destruct (get (order c) i); simpl in *; try done. by injection E as <-.
  - by injection E as <-.
Qed.

Lemma all_equal_models veq c a l : models c a ->
  all_equal veq c l = Done (forallb (fun e =>
    match find_key e.1 (entries a) with Some e' => veq e.2 e'.2 | None => false end) l).
Proof.
  intros H. induction l as [|e l IH]; simpl; [done|].
  pose proof (find_models c a e.1 H) as E. unfold hash.
  destruct (get_index c (khash e.1) e.1) as [[i|]| |]; simpl in *; try done.
  - destruct (get (order c) i) as [e'| |]; simpl in *; try done. injection E as <-.
    by destruct (veq e.2 e'.2).
  - by injection E as <-.
Qed.

(** *** Construction *)

Lemma try_with_capacity_ok {T} alloc n (o : LRUList T) :
  try_with_capacity alloc n = Ok o -> o = mkList sentinels.
Proof.
  unfold try_with_capacity. destruct (checked_add _ _); [|done]. by destruct (alloc _) => [[= <-]|].
Qed.

Lemma build_models alloc (b : LruCacheBuilder) n c : b_size b = Some n -> 0 <= n ->
  build alloc b = Ok c -> 0 < n /\ models c (mkView [] n 0 0 0 (b_on_evict b) true).
Proof.
  intros Eb Hn. unfold build. rewrite Eb. destruct (Z.eqb_spec n 0) as [|Hn']; [done|].
  destruct (ht_try_reserve ht_new n) as [t|] eqn:Et; [|done].
  destruct (try_with_capacity alloc n) as [o|] eqn:Eo; [|done]. intros [= <-].
  split; [lia|]. exists [], []. split; [|done]. apply try_with_capacity_ok in Eo as ->.
  split; simpl; [apply rep_new| |done|lia].
  by rewrite (ht_reserve_spec _ _ _ Et), ht_new_elems.
Qed.

(** A call that refines the list-based store. *)
Lemma lru_wp {A} (m : Op K V W X HT A) (sm : LruSpec.Spec K V W X A) (Q : A -> View K V W * X -> Prop) U c a x :
  refines Rel m sm -> models c a -> wp sm Q U (a, x) ->
  wp m (fun r s => exists a', models s.1 a' /\ Q r (a', s.2)) (fun s => exists a', models s.1 a' /\ U (a', s.2)) (c, x).
Proof.
  intros HR HM Hw. eapply wp_mono; [apply (agree_wp _ _ _ _ _ _ _ (HR (c, x) (a, x) (conj eq_refl HM)) Hw)| |].
  - intros r [c' x'] ([a' x2] & [Ew H] & HQ). simpl in *. subst. eauto.
  - intros [c' x'] ([a' x2] & [Ew H] & HQ). simpl in *. subst. eauto.
Qed.
End Invariant.
