(* ===== verification/LruProps.v ===== *)
(** * The properties of the LRU store

    The public methods of [LruCache] as calls, any sequence of which runs as the abstract
    store runs it; then what each method does, on every branch. *)
From Stdlib Require Import String.
From S2P Require Import Prelude Keys Stores LruList HashTable Lru LruSpec LruRefine.
#[local] Close Scope string_scope.

Section Calls.
Context {K V W HT E : Type} `{!KeyEq K, !KeyLaws K, !HashTable HT, !HashTableLaws HT}.
Implicit Types (c : LruCache K V W HT) (a : View K V W) (k : K) (w : W).

(** A call of a public method, with its arguments; a method that returns [&mut V] is
    called by a user who reads the value [v] there and stores [g v]. *)
Inductive Call : Type :=
| Get (k : K)
| GetMut (k : K) (g : V -> V)
| Set_ (k : K) (v : V)
| GetOrSet (k : K) (f : User W V) (g : V -> V)
| TryGetOrSet (k : K) (f : User W (result E V)) (g : V -> V)
| Remove (k : K)
| RemoveEntry (k : K)
| Retain (keep : K -> V -> User W bool)
| Clear
| ClearWithOnEvict
| Reset_
| ResetMetrics
| SetMaxSize (n : Z)
| TrySetMaxSize (n : Z)
| Peek (k : K)
| Size
| Capacity
| Iter.

Inductive Reply : Type :=
| RUnit
| RNum (n : Z)
| RCount (n : nat)
| RVal (v : option V)
| REntry (e : option (K * V))
| RTry (r : result E V)
| RCap (r : result SetMaxSizeError (option Z))
| REntries (l : list (K * V)).

(** Read, then write, through a reference. *)
Definition deref (g : V -> V) (i : nat) : Op K V W W HT V :=
  let! c := self in
  let! e := of_outcome (get (order c) i) in
  on_order (write i (e.1, g e.2)) ;;
  ret e.2.

Definition run (alloc : Z -> bool) (q : Call) : Op K V W W HT Reply :=
  match q with
  | Get k => let! r := cache_get k in ret (RVal r)
  | GetMut k g =>
      let! r := cache_get_mut k in
      match r with
      | Some i => let! v := deref g i in ret (RVal (Some v))
      | None => ret (RVal None)
      end
  | Set_ k v => let! r := cache_set k v in ret (RVal r)
  | GetOrSet k f g =>
      let! i := cache_get_or_set_with_mut k f in
      let! v := deref g i in ret (RVal (Some v))
  | TryGetOrSet k f g =>
      let! r := cache_try_get_or_set_with_mut k f in
      match r with
      | Ok i => let! v := deref g i in ret (RTry (Ok v))
      | Err e => ret (RTry (Err e))
      end
  | Remove k => let! r := cache_remove k in ret (RVal r)
  | RemoveEntry k => let! r := cache_remove_entry k in ret (REntry r)
  | Retain keep => let! n := retain keep in ret (RCount n)
  | Clear => cache_clear ;; ret RUnit
  | ClearWithOnEvict => cache_clear_with_on_evict ;; ret RUnit
  | Reset_ => cache_reset alloc ;; ret RUnit
  | ResetMetrics => cache_reset_metrics ;; ret RUnit
  | SetMaxSize n => let! r := set_max_size n in ret (RCap (Ok r))
  | TrySetMaxSize n => let! r := try_set_max_size n in ret (RCap r)
  | Peek k => let! c := self in let! r := of_outcome (cache_peek c k) in ret (RVal r)
  | Size => let! c := self in ret (RNum (cache_size c))
  | Capacity => let! c := self in ret (RCap (Ok (cache_capacity c)))
  | Iter => let! c := self in let! l := of_outcome (iter_order_raw c) in ret (REntries l)
  end.

(** ** The same calls on the abstract store *)

Definition always (_ : V) : User W bool := fun w => (Some true, w).

Definition s_deref (g : V -> V) : Spec K V W W V :=
  let! a := s_self in
  match entries a with
  | e :: r => s_entries ((e.1, g e.2) :: r) ;; ret e.2
  | [] => unwind
  end.

Definition s_run (q : Call) : Spec K V W W Reply :=
  match q with
  | Get k => let! r := s_get_if k always in ret (RVal r)
  | GetMut k g =>
      let! r := s_get_if k always in
      match r with
      | Some _ => let! v := s_deref g in ret (RVal (Some v))
      | None => ret (RVal None)
      end
  | Set_ k v => let! r := s_cache_set k v in ret (RVal r)
  | GetOrSet k f g => s_get_or_set k f always ;; let! v := s_deref g in ret (RVal (Some v))
  | TryGetOrSet k f g =>
      let! r := s_try_get_or_set k f always in
      match r with
      | Ok _ => let! v := s_deref g in ret (RTry (Ok v))
      | Err e => ret (RTry (Err e))
      end
  | Remove k => let! r := s_remove_entry k in ret (RVal (snd <$> r))
  | RemoveEntry k => let! r := s_remove_entry k in ret (REntry r)
  | Retain keep => let! n := s_retain keep in ret (RCount n)
  | Clear => s_entries [] ;; ret RUnit
  | ClearWithOnEvict => s_clear_with_on_evict ;; ret RUnit
  | Reset_ => s_reset ;; ret RUnit
  | ResetMetrics => s_set (put_misses 0) ;; s_set (put_hits 0) ;; s_set (put_evictions 0) ;; ret RUnit
  | SetMaxSize n => let! r := s_set_max_size n in ret (RCap (Ok r))
  | TrySetMaxSize n =>
      if n =? 0 then ret (RCap (Err ZeroMaxSize))
      else let! r := s_set_max_size n in ret (RCap (Ok r))
  | Peek k => let! a := s_self in ret (RVal (snd <$> find_key k (entries a)))
  | Size => let! a := s_self in ret (RNum (Z.of_nat (length (entries a))))
  | Capacity => let! a := s_self in ret (RCap (Ok (Some (vcapacity a))))
  | Iter => let! a := s_self in ret (REntries (entries a))
  end.

(** ** Each call refines its specification *)

Lemma deref_simulates g i s1 s2 : RelF i s1 s2 -> agree Rel eq (deref g i s1) (s_deref g s2).
Proof.
  destruct s1 as [c w], s2 as [a w']. intros (E1 & e & occ & fre & HA). simpl in *. subst w'.
  unfold deref, s_deref. rewrite bind_self, (bind_of_outcome _ _ _ _ (slot_get_front _ _ _ _ _ _ HA)).
  rewrite bind_s_self, (models_entries _ _ _ _ HA). simpl.
  destruct (step_write c a [] i e occ fre (e.1, g e.2) w HA) as (c' & E2 & HA2); [apply keq_refl|].
  rewrite (bind_run _ _ _ _ _ E2), bind_s_entries. apply agree_ret; [done|]. by eapply Rel_at.
Qed.

Lemma refines_read {A} (f : LruCache K V W HT -> Op K V W W HT A) (g : View K V W -> Spec K V W W A) :
  (forall c a w, models c a -> agree Rel eq (f c (c, w)) (g a (a, w))) ->
  refines Rel (bind self f) (bind s_self g).
Proof. intros H [c w] [a w'] [E1 HM]. simpl in *. subst w'. apply H, HM. Qed.

Lemma refines_map {A B} (f : A -> B) (m1 : Op K V W W HT A) (m2 : Spec K V W W A) :
  refines Rel m1 m2 ->
  refines Rel (let! r := m1 in ret (f r)) (let! r := m2 in ret (f r)).
Proof. intros H. apply refines_bind; [done|]. intros r. apply refines_ret. Qed.

Lemma run_get_mut k g : refines Rel (run (fun _ => true) (GetMut k g)) (s_run (GetMut k g)).
Proof.
  intros [c w] [a w'] [E1 HM]. simpl in *. subst w'. apply agree_simulates.
  eapply simulates_bind; [by apply get_mut_if_simulates|].
  intros [i|] s1 r2 s2 H; simpl in H.
  - destruct H as [HF ->]. apply agree_simulates. destruct s1 as [c1 w1], s2 as [a2 w2].
    pose proof HF as (_ & e & occ & fre & HA). simpl in HA |- *. rewrite (models_entries _ _ _ _ HA). simpl.
    eapply agree_bind; [by apply deref_simulates|]. intros v v' s1 s2 _ _ -> HR. by apply agree_ret.
  - destruct H as [HF ->]. by apply agree_simulates, agree_ret.
Qed.

Lemma run_get_or_set k f g : refines Rel (run (fun _ => true) (GetOrSet k f g)) (s_run (GetOrSet k f g)).
Proof.
  intros [c w] [a w'] [E1 HM]. simpl in *. subst w'. apply agree_simulates.
  unfold cache_get_or_set_with_mut. rewrite bind_assoc.
  eapply simulates_bind; [by apply get_or_set_simulates|].
  intros r1 s1 r2 s2 [_ HF]. rewrite bind_ret. apply agree_simulates.
  eapply agree_bind; [by apply deref_simulates|]. intros v v' s1' s2' _ _ -> HR. by apply agree_ret.
Qed.

Lemma run_try_get_or_set k f g :
  refines Rel (run (fun _ => true) (TryGetOrSet k f g)) (s_run (TryGetOrSet k f g)).
Proof.
  intros [c w] [a w'] [E1 HM]. simpl in *. subst w'. apply agree_simulates.
  unfold cache_try_get_or_set_with_mut. rewrite bind_assoc.
  eapply simulates_bind; [by apply try_get_or_set_simulates|].
  intros [r1|e1] s1 [r2|e2] s2 H; simpl in H; try done; rewrite bind_ret; apply agree_simulates.
  - eapply agree_bind; [apply deref_simulates, H|]. intros v v' s1' s2' _ _ -> HR. by apply agree_ret.
  - destruct H as [-> HR]. by apply agree_ret.
Qed.

Lemma run_refines alloc q : refines Rel (run alloc q) (s_run q).
Proof.
  destruct q.
  - apply refines_map, get_if_refines.
  - apply run_get_mut.
  - apply refines_map, cache_set_spec.
  - apply run_get_or_set.
  - apply run_try_get_or_set.
  - simpl. unfold cache_remove. intros s1 s2 HR. rewrite bind_assoc.
    by apply (refines_map (fun r => RVal (snd <$> r)) _ _ (cache_remove_entry_spec k)).
  - apply refines_map, cache_remove_entry_spec.
  - apply refines_map, retain_spec.
  - apply refines_map, cache_clear_spec.
  - apply refines_map, cache_clear_with_on_evict_spec.
  - apply refines_map, cache_reset_spec.
  - apply (refines_map (fun _ => RUnit) _ _ reset_metrics_spec).
  - apply refines_map, set_max_size_spec.
  - simpl. unfold try_set_max_size. destruct (n =? 0); [apply refines_ret|].
    intros s1 s2 HR. rewrite bind_assoc. by apply (refines_map (fun r => RCap (Ok r)) _ _ (set_max_size_spec n)).
  - apply refines_read. intros c a w HM. rewrite (bind_of_outcome _ _ _ _ (peek_models _ _ _ HM)).
    apply agree_ret; [done|by split].
  - apply refines_read. intros c a w HM. rewrite (size_models _ _ HM). apply agree_ret; [done|by split].
  - apply refines_read. intros c a w HM. apply agree_ret; [|by split].
    destruct HM as (occ & fre & HA). unfold cache_capacity. by rewrite (models_cap _ _ _ _ HA).
  - apply refines_read. intros c a w HM. rewrite (bind_of_outcome _ _ _ _ (iter_models _ _ HM)).
    apply agree_ret; [done|by split].
Qed.

Lemma lru_runs_refine alloc qs s1 s2 : Rel s1 s2 ->
  (runs (run alloc) qs s1).1 = (runs s_run qs s2).1 /\
  OutOfFuel ∉ (runs (run alloc) qs s1).1 /\
  Rel (runs (run alloc) qs s1).2 (runs s_run qs s2).2.
Proof. apply runs_refine, run_refines. Qed.
End Calls.
Arguments Call : clear implicits.
Arguments Reply : clear implicits.

(** ** User code that does not panic *)

Section Safe.
Context {K V W E : Type} `{!KeyEq K}.
Implicit Types (a : View K V W) (k : K) (v : V) (w : W).

Definition good a : Prop := 0 < vcapacity a /\ callback_total (von_evict a).

(** No unwind, and the store stays good. *)
Definition safe {A} (m : Spec K V W W A) : Prop :=
  forall a w, good a -> wp m (fun _ s => good s.1) (fun _ => False) (a, w).

Lemma safe_ret {A} (r : A) : safe (ret r).
Proof. by intros a w H. Qed.

Lemma safe_bind {A B} (m : Spec K V W W A) (f : A -> Spec K V W W B) :
  safe m -> (forall r, safe (f r)) -> safe (bind m f).
Proof.
  intros H1 H2 a w Hg. apply wp_bind. eapply wp_mono; [by apply H1| |done].
  intros r [a' w'] Hg'. by apply H2.
Qed.

Lemma safe_self {B} (f : View K V W -> Spec K V W W B) : (forall a, safe (f a)) -> safe (bind s_self f).
Proof. intros H a w Hg. by apply H. Qed.

Lemma safe_set f : (forall a, good a -> good (f a)) -> safe (s_set f).
Proof. intros H a w Hg. apply wp_modify. by apply H. Qed.

Lemma safe_entries l : safe (s_entries l).
Proof. by apply safe_set. Qed.

Lemma safe_user {A} (m : User W A) : total m -> safe (user m).
Proof.
  intros H a w Hg. destruct (H w) as (r & w' & Em). apply wp_user; intros; [done|congruence].
Qed.

Lemma safe_tracked m : safe m -> safe (s_tracked m).
Proof. intros H. apply safe_self. intros a. destruct (vtrack a); [done|apply safe_ret]. Qed.

Lemma safe_notify k v : safe (s_notify k v).
Proof.
  intros a w Hg. unfold s_notify. apply wp_bind, wp_gets. simpl.
  pose proof Hg as [_ Hc]. unfold callback_total in Hc. destruct (von_evict a) as [f|]; [|done].
  by apply safe_user; [apply total_lift, Hc|].
Qed.

Lemma safe_for_each {A} (l : list A) f : (forall r, safe (f r)) -> safe (for_each l f).
Proof.
  intros H. induction l; simpl; [apply safe_ret|]. by apply safe_bind; [|intros _].
Qed.

Lemma safe_filter_each {A} (l : list A) f : (forall r, safe (f r)) -> safe (filter_each l f).
Proof.
  intros H. induction l; simpl; [apply safe_ret|]. apply safe_bind; [done|]. intros b.
  apply safe_bind; [done|]. intros r. apply safe_ret.
Qed.

Lemma safe_count n : safe (s_count n).
Proof. by apply safe_set. Qed.
Lemma safe_hit : safe s_hit.
Proof. by apply safe_set. Qed.
Lemma safe_miss : safe s_miss.
Proof. by apply safe_set. Qed.

Create HintDb safe.
#[local] Hint Resolve safe_count safe_hit safe_miss safe_ret safe_entries safe_user safe_notify : safe.
Ltac safe_steps := repeat first
  [ progress eauto with safe
  | apply safe_bind; [|intros ?]
  | apply safe_self; intros ?
  | apply safe_tracked
  | apply safe_for_each; intros ?
  | apply safe_filter_each; intros ?
  | apply safe_set; intros ? ?; done
  | case_match ].

Lemma safe_trim : safe s_trim.
Proof. unfold s_trim, s_evict_last. safe_steps. Qed.
#[local] Hint Resolve safe_trim : safe.

Lemma safe_get_if k valid : (forall v, total (valid v)) -> safe (s_get_if k valid).
Proof. intros H. unfold s_get_if. safe_steps. Qed.

(** A call whose closures do not panic and whose size argument is valid. *)
Definition call_total (q : Call K V W E) : Prop :=
  match q with
  | GetOrSet _ f _ => total f
  | TryGetOrSet _ f _ => total f
  | Retain keep => forall k v, total (keep k v)
  | SetMaxSize n => 0 < n
  | TrySetMaxSize n => 0 <= n
  | _ => True
  end.

Lemma total_always v : total (always (W := W) v).
Proof. intros w. by exists true, w. Qed.
#[local] Hint Resolve total_always : safe.

(** After a get-or-set, or a get that found something, there is a front entry. *)
Definition front (s : View K V W * W) : Prop := entries s.1 <> [].

Lemma deref_wp g s : front s -> good s.1 ->
  wp (s_deref g) (fun _ s' => good s'.1) (fun _ => False) s.
Proof.
  destruct s as [a w]. intros Hf Hg. unfold s_deref. apply wp_bind, wp_gets. simpl.
  unfold front in Hf. simpl in Hf. destruct (entries a) as [|e l]; [done|].
  by apply wp_bind, wp_modify, wp_ret.
Qed.

Lemma front_trim l a w e : 0 < vcapacity a ->
  wp s_trim (fun _ s => front s) (fun _ => True) (put_entries (e :: l) a, w).
Proof.
  intros Hc. eapply wp_mono; [apply s_trim_wp| |done]. simpl. intros _ [a' w'] Ea. simplify_eq/=.
  unfold front. simpl. destruct (Z.to_nat (vcapacity a)) eqn:En; [lia|done].
Qed.

Lemma front_get_if k valid a w :
  wp (s_get_if k valid) (fun r s => r <> None -> front s) (fun _ => True) (a, w).
Proof.
  unfold s_get_if. apply wp_bind, wp_gets. simpl.
  destruct (take_key k (entries a)) as [[e r]|].
  - apply wp_bind, wp_user; [|done]. intros b w' _. destruct b; simpl.
    + apply wp_bind, wp_modify. simpl. unfold wp.
      by rewrite (bind_run _ _ _ _ _ (s_hit_run _ _)), <- put_entries_hit.
    + unfold wp. rewrite (bind_run _ _ _ _ _ (s_miss_run _ _)). by intros [].
  - unfold wp. rewrite (bind_run _ _ _ _ _ (s_miss_run _ _)). by intros [].
Qed.

Lemma front_get_or_set k f a w : 0 < vcapacity a ->
  wp (s_get_or_set k f always) (fun _ s => front s) (fun _ => True) (a, w).
Proof.
  intros Hc. destruct (find_key k (entries a)) as [e|] eqn:Ef.
  - eapply wp_run; [by apply s_get_or_set_hit|]. done.
  - unfold wp. rewrite (s_get_or_set_miss k f always a w Ef).
    apply (wp_bind (user f)), wp_user; [|done]. intros v w' _. apply wp_bind, wp_modify. simpl.
    apply wp_bind. eapply wp_mono; [apply front_trim; by rewrite missed_capacity| |done].
    intros ? s Hs. by apply wp_ret.
Qed.

Lemma front_try_get_or_set k (f : User W (result E V)) a w : 0 < vcapacity a ->
  wp (s_try_get_or_set k f always)
    (fun r s => match r with Ok _ => front s | Err _ => True end) (fun _ => True) (a, w).
Proof.
  intros Hc. unfold s_try_get_or_set. apply wp_bind, wp_gets. simpl.
  destruct (take_key k (entries a)) as [[e r]|].
  - unfold bind at 1, wp, user, always. simpl. by rewrite (bind_run _ _ _ _ _ (s_hit_run _ _)).
  - unfold wp. rewrite (bind_run _ _ _ _ _ (s_miss_run _ _)).
    apply (wp_bind (user f)), wp_user; [|done]. intros [v|err] w' _; [|done].
    apply wp_bind, wp_modify. simpl.
    apply wp_bind. eapply wp_mono; [apply front_trim; by rewrite missed_capacity| |done].
    intros ? s Hs. by apply wp_ret.
Qed.

Lemma safe_get_or_set k f : total f -> safe (s_get_or_set k f always).
Proof. intros H. unfold s_get_or_set. safe_steps. Qed.
Lemma safe_try_get_or_set k (f : User W (result E V)) : total f -> safe (s_try_get_or_set k f always).
Proof. intros H. unfold s_try_get_or_set. safe_steps. Qed.
Lemma safe_set_max_size n : 0 < n -> safe (s_set_max_size n).
Proof.
  intros H. unfold s_set_max_size. destruct (Z.leb_spec n 0); [lia|]. apply safe_self. intros a.
  apply safe_bind; [apply safe_set; by intros a' []|intros _]. safe_steps.
Qed.
#[local] Hint Resolve safe_get_if safe_get_or_set safe_try_get_or_set safe_set_max_size : safe.

(** The calls that end in a write through a reference. *)
Lemma safe_deref {A} (m : Spec K V W W A) (ok : A -> Prop) (k1 : A -> Spec K V W W (Reply K V E)) g r :
  safe m -> (forall a w, good a -> wp m (fun x s => ok x -> front s) (fun _ => True) (a, w)) ->
  (forall x, (ok x /\ k1 x = (let! v := s_deref g in ret (r v))) \/ safe (k1 x)) ->
  safe (bind m k1).
Proof.
  intros Hm Hf Hk a w Hg. apply wp_bind.
  eapply wp_mono; [apply (wp_and _ _ _ _ _ _ (Hm a w Hg) (Hf a w Hg))| |by intros ? []].
  simpl. intros x [a' w'] [Hg' Hx]. destruct (Hk x) as [[Ho ->]|Hs]; [|by apply Hs].
  apply wp_bind. eapply wp_mono; [by apply deref_wp; [apply Hx|]| |done]. by intros v s.
Qed.

Lemma safe_run q : call_total q -> safe (s_run (E := E) q).
Proof.
  destruct q; simpl; intros Hq; try (safe_steps; fail).
  - apply (safe_deref _ (fun r => r <> None) _ g (fun v => RVal (Some v))); [auto with safe| |].
    + intros a w _. apply front_get_if.
    + intros [v|]; [left; by split|right; apply safe_ret].
  - apply (safe_deref _ (fun _ => True) _ g (fun v => RVal (Some v))); [auto with safe| |].
    + intros a w [Hc _]. eapply wp_mono; [by apply front_get_or_set|done|done].
    + intros r. left. by split.
  - apply (safe_deref _ (fun r => match r with Ok _ => True | Err _ => False end) _ g (fun v => RTry (Ok v)));
      [auto with safe| |].
    + intros a w [Hc _]. eapply wp_mono; [by apply front_try_get_or_set| |done]. by intros [].
    + intros [r|e]; [left; by split|right; apply safe_ret].
  - destruct (Z.eqb_spec n 0); [apply safe_ret|].
    apply safe_bind; [apply safe_set_max_size; lia|intros r; apply safe_ret].
Qed.

Lemma safe_runs qs a w : good a -> Forall call_total qs -> Unwind ∉ (runs (s_run (E := E)) qs (a, w)).1.
Proof.
  intros Hg H. revert a w Hg. induction H as [|q qs Hq H IH]; intros a w Hg; simpl; [set_solver|].
  pose proof (safe_run q Hq a w Hg) as Hw. unfold wp in Hw.
  destruct (s_run q (a, w)) as [[r| |] [a' w']]; try done. specialize (IH a' w' Hw).
  destruct (runs s_run qs (a', w')) as [rs s']. simpl in *. by apply not_elem_of_cons.
Qed.
End Safe.

Section Properties.
Context {K V W HT : Type} `{!KeyEq K, !KeyLaws K, !HashTable HT, !HashTableLaws HT}.
Implicit Types (c : LruCache K V W HT) (a : View K V W) (k : K) (v : V) (w : W).

Lemma set_wp k v c a w : models c a ->
  wp (cache_set k v)
    (fun r s => r = snd <$> find_key k (entries a) /\
       models s.1 (evicted (take (Z.to_nat (vcapacity a)) ((k, v) :: drop_key k (entries a)))
                     (S (length (drop_key k (entries a))) - Z.to_nat (vcapacity a)) a))
    (fun s => exists n,
       (Z.to_nat (vcapacity a) <= n <= length (drop_key k (entries a)))%nat /\
       models s.1 (evicted (take n ((k, v) :: drop_key k (entries a)))
                     (S (length (drop_key k (entries a))) - n) a)) (c, w).
Proof.
  intros HM. assert (Rel (X := W) (c, w) (a, w)) as HR by by split.
  pose proof (cache_set_spec k v _ _ HR) as Hag.
  eapply wp_mono.
  - eapply (agree_wp _ _ _ _ _ _ _ Hag), s_cache_set_wp.
  - intros r [c' w'] ([a' w2] & [_ HM'] & -> & Ea). simplify_eq/=. by split.
  - intros [c' w'] ([a' w2] & [_ HM'] & n & Hn & Ea). simplify_eq/=. by exists n.
Qed.

(** ** The claims *)

(** C1: The LRU store refines its specification.  From a freshly built cache, any sequence of
    public calls - with any user closures, callbacks and panics, each panic caught by the
    caller - gives call for call the reply (or panic) of the list-based store, never hangs,
    leaves the same outer world, and leaves a cache that still holds exactly the abstract
    entries in most-recently-used order, with the same counters and capacity. *)
Theorem lru_program_refines {E} (alloc : Z -> bool) (b : LruCacheBuilder) n c
    (qs : list (Call K V W E)) w :
  b_size b = Some n -> 0 <= n -> build alloc b = Ok c ->
  let impl := runs (run alloc) qs (c, w) in
  let spec := runs s_run qs (mkView [] n 0 0 0 (b_on_evict b) true, w) in
  impl.1 = spec.1 /\ OutOfFuel ∉ impl.1 /\ impl.2.2 = spec.2.2 /\ models impl.2.1 spec.2.1.
Proof.
  intros Eb Hn Hb. destruct (build_models alloc b n c Eb Hn Hb) as [_ HM].
  destruct (lru_runs_refine alloc qs (c, w) (mkView [] n 0 0 0 (b_on_evict b) true, w)) as (E1 & E2 & E3 & E4);
    [by split|]. done.
Qed.

(** [cache_set] puts the caller's key and value in front of the other entries, drops what
    then exceeds the capacity from the least recently used end, counts one eviction per
    dropped entry and returns the value it displaced; when [on_evict] panics, the entries
    after the panicking one are still there and the cache is still well formed. *)
Theorem lru_set k v c a w : models c a ->
  wp (cache_set k v)
    (fun r s => r = snd <$> find_key k (entries a) /\
       models s.1 (evicted (take (Z.to_nat (vcapacity a)) ((k, v) :: drop_key k (entries a)))
                     (S (length (drop_key k (entries a))) - Z.to_nat (vcapacity a)) a))
    (fun s => exists n,
       (Z.to_nat (vcapacity a) <= n <= length (drop_key k (entries a)))%nat /\
       models s.1 (evicted (take n ((k, v) :: drop_key k (entries a)))
                     (S (length (drop_key k (entries a))) - n) a)) (c, w).
Proof. apply set_wp. Qed.

(** After a [cache_set] that returns, the cache is within its capacity, every key equal to
    the one set reads back the new value, and any other key reads what it read before or,
    having been evicted, nothing. *)
Theorem lru_set_lookup k v c a w r c' w' : models c a ->
  cache_set k v (c, w) = (Done r, (c', w')) ->
  capacity c' = capacity c /\ cache_size c' <= capacity c' /\
  (forall k', keq k k' = true -> cache_peek c' k' = Done (Some v)) /\
  (forall k', keq k k' = false ->
     cache_peek c' k' = cache_peek c k' \/ cache_peek c' k' = Done None).
Proof.
  intros HM E. pose proof (set_wp k v c a w HM) as Hw. unfold wp in Hw. rewrite E in Hw.
  destruct Hw as [_ HM']. simpl in HM'. pose proof HM as (occ & fre & HA).
  pose proof HM' as (occ' & fre' & HA'). pose proof (models_cap _ _ _ _ HA) as E1.
  pose proof (models_cap _ _ _ _ HA') as E2. simpl in E2.
  pose proof (inv_cap _ _ _ (proj1 HA)). rewrite (size_models _ _ HM').
  set (n := Z.to_nat (vcapacity a)) in *. split; [congruence|]. split.
  { simpl. rewrite length_take. lia. }
  split; intros k' Hk; rewrite (peek_models _ _ _ HM'); simpl;
    (destruct n as [|m] eqn:En; [lia|]); simpl; rewrite find_key_cons; simpl.
  - by rewrite keq_comm, Hk.
  - rewrite keq_comm, Hk, (peek_models _ _ _ HM).
    assert (distinct (entries a)) as D by (rewrite (models_entries _ _ _ _ HA); apply HA).
    pose proof (find_key_drop k k' (entries a) D) as Ef. rewrite Hk in Ef.
    rewrite <- Ef. rewrite <- (take_drop m (drop_key k (entries a))) at 2.
    destruct (find_key k' (take m (drop_key k (entries a)))) as [e|] eqn:Et; [left|by right].
    do 2 f_equal. symmetry. unfold find_key in *.
    destruct (take_key k' (take m _)) as [[e2 r2]|] eqn:Et2; [|done]. injection Et as ->.
    apply take_key_Some in Et2 as (xs & ys & -> & _ & Hke & F).
    rewrite <- app_assoc. simpl. by rewrite take_key_app.
Qed.

(** Setting a new key in a full cache evicts exactly the least recently used entry: the
    callback is called once, with that entry's stored key and value, after the entry has left
    and been counted; whether it returns or panics, the others stay and the new entry is in
    front. *)
Theorem lru_set_victim k v c a w pre e f : models c a ->
  entries a = pre ++ [e] -> Z.of_nat (length (entries a)) = capacity c -> fresh k (entries a) ->
  on_evict c = Some f ->
  exists c', models c' (evicted ((k, v) :: pre) 1 a) /\
    cache_set k v (c, w) =
      match f e.1 e.2 w with
      | (Some _, w') => (Done None, (c', w'))
      | (None, w') => (Unwind, (c', w'))
      end.
Proof.
  intros HM Ee El Fk Hf. pose proof (cache_set_spec k v (c, w) (a, w) (conj eq_refl HM)) as Hag.
  assert (s_cache_set k v (a, w) = match f e.1 e.2 w with
    | (Some _, w') => (Done None, (evicted ((k, v) :: pre) 1 a, w'))
    | (None, w') => (Unwind, (evicted ((k, v) :: pre) 1 a, w')) end) as Es.
  { pose proof HM as (occ & fre & [HI Ea]). assert (von_evict a = Some f) as Hv by (by rewrite Ea).
    assert (vcapacity a = capacity c) as Hc by (by rewrite Ea).
    unfold s_cache_set, s_put. rewrite bind_assoc, bind_s_self.
    apply take_key_None in Fk. rewrite Fk, bind_assoc, bind_s_entries. unfold s_trim.
    rewrite bind_assoc, bind_assoc, bind_s_self. simpl.
    replace (drop (Z.to_nat (vcapacity a)) ((k, v) :: entries a)) with [e].
    2:{ rewrite Hc, <- El, Nat2Z.id, Ee, length_app, Nat.add_comm. simpl. by rewrite drop_app_length. }
    assert (removelast ((k, v) :: entries a) = (k, v) :: pre) as Er
      by (rewrite Ee, app_comm_cons; apply removelast_last).
    cbn [rev app for_each]. unfold s_evict_last, s_notify.
    rewrite !bind_assoc, bind_s_self, !bind_assoc, bind_s_entries.
    rewrite bind_assoc. unfold s_count. rewrite (bind_run (s_set _) _ _ tt (evicted ((k, v) :: pre) 1 a, w)) by (rewrite <- Er; done).
    rewrite bind_assoc, bind_s_self. simpl. rewrite Hv.
    unfold bind, user, lift_user. simpl. by destruct (f e.1 e.2 w) as [[]?]. }
  rewrite Es in Hag. destruct (cache_set k v (c, w)) as [o [c' w1]]. exists c'.
  destruct (f e.1 e.2 w) as [[?|] w2]; destruct Hag as [[E1 E2] E3]; simpl in *; subst w2;
    (split; [done|]); by destruct o; simplify_eq.
Qed.

Lemma front_get c a i w w' : RelF (HT := HT) (X := W) i (c, w) (a, w') ->
  exists e l, entries a = e :: l /\ get (order c) i = Done e /\ models c a.
Proof.
  intros (_ & e & occ & fre & HA). simpl in *. exists e, occ.*2.
  split_and!; [by apply models_entries in HA|by eapply slot_get_front|by eapply models_intro].
Qed.

(** Get-or-set of a key that is present, blocking or [async], does not run the factory:
    the outer world is untouched, the returned reference points at the stored entry, which is
    now the most recently used one, and one hit is counted. *)
Theorem lru_get_or_set_hit k f c a w e m : models c a -> find_key k (entries a) = Some e ->
  m = cache_get_or_set_with_mut k f \/ m = async_cache_get_or_set_with_mut k f ->
  exists i c', m (c, w) = (Done i, (c', w)) /\ get (order c') i = Done e /\
    models c' (put_entries (e :: drop_key k (entries a)) (hit a)).
Proof.
  intros HM He Hm.
  assert (m = cache_get_or_set_with_mut k f) as -> by (by destruct Hm; subst). unfold cache_get_or_set_with_mut.
  pose proof (get_or_set_simulates k f always c a w HM) as Hs.
  rewrite (s_get_or_set_hit k f a w e He) in Hs. unfold bind, always in *.
  destruct (get_or_set_with_if k f _ (c, w)) as [[[r i]| |] [c' w']]; try done.
  destruct Hs as [_ HF]. destruct (front_get _ _ _ _ _ HF) as (e' & l & E1 & E2 & HM').
  destruct HF as [Ew _]. simplify_eq/=. eauto.
Qed.

(** Get-or-set of an absent key runs the factory once on a cache where only the miss has
    been counted.  If the factory panics (or the future is dropped at the await) nothing else
    has changed.  If it gives [v], the new entry is in front, the entries beyond the capacity
    are evicted from the other end, and the reference points at the new entry. *)
Theorem lru_get_or_set_miss k f c a w m : models c a -> find_key k (entries a) = None ->
  m = cache_get_or_set_with_mut k f \/ m = async_cache_get_or_set_with_mut k f ->
  match f w with
  | (None, w') => exists c', m (c, w) = (Unwind, (c', w')) /\ models c' (missed a)
  | (Some v, w') =>
      wp m
        (fun i s => get (order s.1) i = Done (k, v) /\
           models s.1 (evicted (take (Z.to_nat (vcapacity a)) ((k, v) :: entries a))
                         (S (length (entries a)) - Z.to_nat (vcapacity a)) (missed a)))
        (fun s => exists n, (Z.to_nat (vcapacity a) <= n <= length (entries a))%nat /\
           models s.1 (evicted (take n ((k, v) :: entries a))
                         (S (length (entries a)) - n) (missed a))) (c, w)
  end.
Proof.
  intros HM He Hm.
  assert (m = cache_get_or_set_with_mut k f) as -> by (by destruct Hm; subst). unfold cache_get_or_set_with_mut.
  pose proof (get_or_set_simulates k f always c a w HM) as Hs.
  rewrite (s_get_or_set_miss k f always a w He) in Hs. unfold always in Hs.
  pose proof HM as (occ & fre & HA). pose proof (inv_cap _ _ _ (proj1 HA)) as Hc.
  rewrite <- (models_cap _ _ _ _ HA) in Hc. unfold bind at 1, user in Hs. simpl in Hs.
  destruct (f w) as [[v|] w'].
  - rewrite bind_s_entries in Hs. unfold bind in Hs.
    pose proof (s_trim_wp (put_entries ((k, v) :: entries a) (missed a)) w') as Hw.
    unfold wp in *. simpl in Hw. rewrite missed_capacity in Hw. unfold bind.
    destruct (get_or_set_with_if k f _ (c, w)) as [[[r i]| |] [c' w1]],
      (s_trim _) as [[[]| |] [a2 w2]]; try done; simpl in Hs |- *.
    + destruct Hs as [_ HF]. destruct (front_get _ _ _ _ _ HF) as (e' & l & E1 & E2 & HM').
      simpl in *. subst a2. simpl in E1. destruct (Z.to_nat (vcapacity a)) eqn:En; [lia|].
      simpl in *. simplify_eq. done.
    + destruct Hs as [_ HM']. destruct Hw as (n & Hn & Ea). simplify_eq/=. exists n.
      split; [lia|done].
  - unfold bind. destruct (get_or_set_with_if k f _ (c, w)) as [[[r i]| |] [c' w1]]; try done.
    destruct Hs as [Ew HM']. simpl in *. subst. eauto.
Qed.

(** A fallible get-or-set of an absent key whose factory returns an error hands that error
    back, with the miss counted and every entry as before. *)
Theorem lru_try_get_or_set_err {E} k (f : User W (result E V)) c a w w' err :
  models c a -> find_key k (entries a) = None -> f w = (Some (Err err), w') ->
  exists c', cache_try_get_or_set_with_mut k f (c, w) = (Done (Err err), (c', w')) /\
    models c' (missed a).
Proof.
  intros HM He Hf. pose proof (try_get_or_set_simulates k f always c a w HM) as Hs.
  unfold s_try_get_or_set in Hs. rewrite bind_s_self in Hs. unfold find_key in He.
  destruct (take_key k (entries a)) as [[]|]; [done|].
  rewrite (bind_run _ _ _ _ _ (s_miss_run a w)) in Hs. unfold bind at 1, user in Hs. simpl in Hs.
  rewrite Hf in Hs. unfold cache_try_get_or_set_with_mut, bind. unfold always in Hs.
  destruct (try_get_or_set_with_if k f _ (c, w)) as [[[r|e]| |] [c' w1]]; try done.
  destruct Hs as [-> [Ew HM']]. simpl in *. subst. eauto.
Qed.

(** [retain] with a predicate that answers for every entry removes exactly the entries it
    rejects, keeps the others in their order and returns how many it removed, each counted as
    an eviction.  A panic of [on_evict] stops the pass: a non-empty initial part of the
    rejected entries is gone and counted, nothing else. *)
Theorem lru_retain p g c a w : models c a -> (forall e, e ∈ entries a -> p e.1 e.2 <> None) ->
  let doomed := List.filter (dooms p) (entries a) in
  wp (retain (answers p g))
    (fun n s => n = length doomed /\
       models s.1 (evicted (List.filter (fun e => negb (dooms p e)) (entries a)) n a))
    (fun s => exists n, (0 < n <= length doomed)%nat /\
       models s.1 (evicted (sweep (entries a) (take n doomed)) n a)) (c, w).
Proof.
  intros HM Hp doomed. assert (distinct (entries a)) as D.
  { destruct HM as (occ & fre & HA). rewrite (models_entries _ _ _ _ HA). apply HA. }
  pose proof (retain_spec (answers p g) (c, w) (a, w) (conj eq_refl HM)) as Hag.
  eapply wp_mono.
  - eapply (agree_wp _ _ _ (fun n s => n = length doomed /\ s.1 = evicted (sweep (entries a) doomed) n a)
      (fun s => exists n, (0 < n <= length doomed)%nat /\ s.1 = evicted (sweep (entries a) (take n doomed)) n a)
      _ _ Hag).
    destruct (select_answers p g (entries a) a w Hp) as (w1 & E). apply wp_bind.
    unfold s_doomed, s_self. apply wp_bind, wp_gets. simpl. eapply wp_run; [exact E|].
    apply wp_bind. eapply wp_mono; [apply s_sweep_wp| |done]. intros ? s H. by apply wp_ret.
  - intros n [c' w'] ([a' w2] & [_ HM'] & -> & Ea). simplify_eq/=. split; [done|].
    rewrite <- sweep_filter by done. subst doomed.
    by rewrite (filter_ext (fun e => negb (negb (dooms p e))) (dooms p)) by (intros e; apply negb_involutive).
  - intros [c' w'] ([a' w2] & [_ HM'] & n & Hn & Ea). simplify_eq/=. by exists n.
Qed.

(** [retain] decides first and removes afterwards: if the predicate panics on any entry,
    the call unwinds with every entry, the order and all counters as they were, and without
    having called [on_evict]. *)
Theorem lru_retain_panic p g c a w e : models c a -> e ∈ entries a -> p e.1 e.2 = None ->
  exists c' w', retain (answers p g) (c, w) = (Unwind, (c', w')) /\ models c' a.
Proof.
  intros HM He Hp. pose proof (retain_spec (answers p g) (c, w) (a, w) (conj eq_refl HM)) as Hag.
  destruct (select_panics p g (entries a) a w e He Hp) as (w1 & E).
  assert (s_retain (answers p g) (a, w) = (Unwind, (a, w1))) as Es.
  { unfold s_retain, s_doomed. unfold bind at 1. rewrite bind_s_self, E. done. }
  rewrite Es in Hag. destruct (retain (answers p g) (c, w)) as [o [c' w']].
  destruct Hag as [[_ HM'] Ho]. destruct o; try done. eauto.
Qed.

(** [set_max_size] to a positive bound keeps the most recently used entries up to the new
    bound, evicts the others one by one and returns the old bound; if [on_evict] panics on the
    way, the new bound is in force and at least that many of the most recent entries remain. *)
Theorem lru_set_max_size n c a w : models c a -> 0 < n ->
  wp (set_max_size n)
    (fun r s => r = Some (capacity c) /\
       models s.1 (evicted (take (Z.to_nat n) (entries a)) (length (entries a) - Z.to_nat n)
                     (put_capacity n a)))
    (fun s => exists m, (Z.to_nat n <= m < length (entries a))%nat /\
       models s.1 (evicted (take m (entries a)) (length (entries a) - m) (put_capacity n a))) (c, w).
Proof.
  intros HM Hn. pose proof (set_max_size_spec n (c, w) (a, w) (conj eq_refl HM)) as Hag.
  eapply wp_mono.
  - by eapply (agree_wp _ _ _ _ _ _ _ Hag), s_set_max_size_wp.
  - destruct HM as (occ & fre & HA). pose proof (models_cap _ _ _ _ HA) as Ec.
    intros r [c' w'] ([a' w2] & [_ HM'] & -> & Ea). simplify_eq/=. by rewrite Ec.
  - intros [c' w'] ([a' w2] & [_ HM'] & m & Hm & Ea). simplify_eq/=. by exists m.
Qed.

(** Building fails with the documented error when no size is given, when it is zero, or
    when the table or the slab cannot be allocated, and otherwise gives an empty cache of that
    capacity with zero counters and the given callback. *)
Theorem lru_build alloc (b : LruCacheBuilder (K := K) (V := V) (W := W)) :
  match b_size b with
  | None => build (HT := HT) alloc b = Err (MissingRequired "max_size")
  | Some n =>
      (n = 0 -> build (HT := HT) alloc b = Err (InvalidValue "max_size" "must be greater than zero")) /\
      (0 < n ->
        (ht_try_reserve (HT := HT) ht_new n = None ->
           build (HT := HT) alloc b = Err (InvalidValue "max_size" "allocation failed")) /\
        (is_Some (ht_try_reserve (HT := HT) ht_new n) -> usize_max < n + 2 ->
           build (HT := HT) alloc b = Err (InvalidValue "max_size" "capacity overflow")) /\
        (is_Some (ht_try_reserve (HT := HT) ht_new n) -> n + 2 <= usize_max -> alloc (n + 2) = false ->
           build (HT := HT) alloc b = Err (InvalidValue "max_size" "allocation failed")) /\
        (is_Some (ht_try_reserve (HT := HT) ht_new n) -> n + 2 <= usize_max -> alloc (n + 2) = true ->
           exists c, build (HT := HT) alloc b = Ok c /\
             models c (mkView [] n 0 0 0 (b_on_evict b) true)))
  end.
Proof.
  destruct (b_size b) as [n|] eqn:Eb; [|unfold build; by rewrite Eb].
  split; [intros ->; unfold build; by rewrite Eb|]. intros Hn.
  assert (n =? 0 = false) as E0 by lia.
  assert (build (HT := HT) alloc b = match ht_try_reserve ht_new n with
    | None => Err (InvalidValue "max_size" "allocation failed")
    | Some t => match try_with_capacity alloc n with
        | Err e => Err e | Ok o => Ok (mkLru t o n 0 0 0 (b_on_evict b) true) end end) as Ebd
    by (unfold build; by rewrite Eb, E0).
  unfold try_with_capacity, checked_add in Ebd.
  split; [intros Ht; by rewrite Ebd, Ht|].
  split_and!; intros [t Ht] Hc.
  - rewrite Ebd, Ht. destruct (Z.leb_spec (n + 2) usize_max); [lia|done].
  - intros Ha. rewrite Ebd, Ht. destruct (Z.leb_spec (n + 2) usize_max); [|lia]. by rewrite Ha.
  - intros Ha. rewrite Ht, (proj2 (Z.leb_le _ _) Hc), Ha in Ebd. eexists. split; [done|].
    by eapply build_models; [exact Eb|lia|].
Qed.

(** Two maps agree on every key. *)
Definition same_map (veq : V -> V -> bool) (l l' : list (K * V)) : Prop :=
  forall k, match find_key k l, find_key k l' with
            | Some e, Some e' => veq e.2 e'.2 = true
            | None, None => True
            | _, _ => False
            end.

Lemma same_map_check veq l l' : distinct l -> distinct l' ->
  same_map veq l l' <->
  length l = length l' /\
  forallb (fun e => match find_key e.1 l' with Some e' => veq e.2 e'.2 | None => false end) l = true.
Proof.
  intros D D'. rewrite forallb_forall. unfold same_map. split.
  - intros H. assert (forall e, e ∈ l -> find_key e.1 l' <> None) as I1.
    { intros e He Hn. specialize (H e.1). by rewrite (distinct_find l e D He), Hn in H. }
    assert (forall e, e ∈ l' -> find_key e.1 l <> None) as I2.
    { intros e He Hn. specialize (H e.1). by rewrite (distinct_find l' e D' He), Hn in H. }
    split; [destruct (keys_incl l l' D D' I1), (keys_incl l' l D' D I2); lia|].
    intros e He. apply list_elem_of_In in He. specialize (H e.1).
    rewrite (distinct_find l e D He) in H. by destruct (find_key e.1 l').
  - intros [El H] k.
    assert (forall e, e ∈ l -> exists e', find_key e.1 l' = Some e' /\ veq e.2 e'.2 = true) as I.
    { intros e He. specialize (H e (proj1 (list_elem_of_In _ _) He)).
      destruct (find_key e.1 l') as [e'|]; [eauto|done]. }
    destruct (keys_incl l l' D D') as [_ I2]; [intros e He; by destruct (I e He) as (e' & -> & _)|].
    destruct (find_key k l) as [e|] eqn:E.
    + apply find_key_Some in E as [He Hk]. destruct (I e He) as (e' & E' & Hv).
      by rewrite (find_key_cong k e.1), E'.
    + destruct (find_key k l') as [e'|] eqn:E'; [|done]. apply find_key_Some in E' as [He' Hk].
      apply (I2 ltac:(lia) e' He'). by rewrite <- (find_key_cong k e'.1).
Qed.

(** [PartialEq] of two LRU caches terminates without panicking and is equality as maps:
    it answers [true] exactly when every key is absent from both or bound to equal values,
    whatever the order, capacities and counters. *)
Theorem lru_eq veq c c' a a' : models c a -> models c' a' ->
  exists b, cache_eq veq c c' = Done b /\ (b = true <-> same_map veq (entries a) (entries a')).
Proof.
  intros HM HM'. pose proof (models_distinct _ _ HM) as D. pose proof (models_distinct _ _ HM') as D'.
  unfold cache_eq.
  pose proof (size_models _ _ HM) as E1. pose proof (size_models _ _ HM') as E2. unfold cache_size in *.
  destruct (Nat.eqb_spec (ht_len (store c)) (ht_len (store c'))) as [E|E].
  - rewrite (iter_models _ _ HM). simpl. rewrite (all_equal_models veq c' a' _ HM').
    eexists. split; [done|]. rewrite (same_map_check veq _ _ D D').
    split; [intros ->; split; [lia|done]|by intros [_ ->]].
  - exists false. split; [done|]. rewrite (same_map_check veq _ _ D D'). split; [done|].
    intros [El _]. lia.
Qed.

(** [cache_clear_with_on_evict] empties the cache before any callback runs, counts every
    entry as an eviction, and calls [on_evict] once per entry, most recently used first; a
    callback that panics finds and leaves the cache empty. *)
Theorem lru_clear_with_on_evict c a w f : models c a -> on_evict c = Some f -> entries a <> [] ->
  exists c', models c' (put_entries [] (put_evictions
                (fetch_add (vevictions a) (Z.of_nat (length (entries a)))) a)) /\
    cache_clear_with_on_evict (c, w) =
      (let '(o, (_, w')) := for_each (entries a) (fun e => user (f e.1 e.2)) (tt, w) in (o, (c', w'))).
Proof.
  intros HM Hf Hne. pose proof (cache_clear_with_on_evict_spec (c, w) (a, w) (conj eq_refl HM)) as Hag.
  set (a' := put_entries [] _).
  assert (von_evict a' = Some f) as Hv by (destruct HM as (? & ? & [_ ->]); done).
  assert (forall l w, for_each l (fun e => s_notify e.1 e.2) (a', w) =
    let '(o, (_, w')) := for_each l (fun e => user (f e.1 e.2)) (tt, w) in (o, (a', w'))) as Hl.
  { clear -Hv. intros l. induction l as [|e l IH]; intros w; [done|]. cbn [for_each].
    unfold s_notify at 1. rewrite bind_assoc, bind_s_self, Hv. unfold bind, user, lift_user. simpl.
    destruct (f e.1 e.2 w) as [[u|] w1]; [apply IH|done]. }
  assert (s_clear_with_on_evict (a, w) =
    let '(o, (_, w')) := for_each (entries a) (fun e => user (f e.1 e.2)) (tt, w) in (o, (a', w'))) as Es.
  { unfold s_clear_with_on_evict, s_drain. rewrite bind_assoc, bind_s_self, bind_assoc, bind_s_entries.
    rewrite bind_ret, decide_False by done. rewrite <- Hl. done. }
  rewrite Es in Hag. destruct (cache_clear_with_on_evict (c, w)) as [o [c' w1]].
  destruct (for_each _ _ (tt, w)) as [o2 [u w2]]. destruct Hag as [[E1 E2] E3]. simpl in *.
  exists c'. split; [done|]. subst. destruct o, o2; simplify_eq; done.
Qed.

(** The cache itself never panics: from a freshly built cache, in any sequence of calls
    whose closures, callback and size arguments are sound, every call returns - no index is out
    of range, no hash entry is missing, no loop runs on. *)
Theorem lru_no_internal_panic {E} (alloc : Z -> bool) (b : LruCacheBuilder) n c
    (qs : list (Call K V W E)) w :
  b_size b = Some n -> 0 <= n -> build (HT := HT) alloc b = Ok c ->
  callback_total (b_on_evict b) -> Forall call_total qs ->
  Forall (fun o => exists r, o = Done r) (runs (run alloc) qs (c, w)).1.
Proof.
  intros Eb Hn Hb Hc Hq. destruct (build_models alloc b n c Eb Hn Hb) as [Hp HM].
  destruct (lru_runs_refine alloc qs (c, w) (mkView [] n 0 0 0 (b_on_evict b) true, w)) as (E1 & E2 & _);
    [by split|].
  assert (Unwind ∉ (runs (run alloc) qs (c, w)).1) as E3 by (rewrite E1; by apply safe_runs).
  apply Forall_forall. intros [r| |] Ho; [eauto|done|done].
Qed.
End Properties.

(** ** Witnesses: a concrete cache *)
Module Demo.
Import TaggedKey ListTable.

Definition World_ : Type := list (TaggedKey.t * Z).
Definition log (k : TaggedKey.t) (v : Z) : User World_ unit := fun w => (Some tt, (k, v) :: w).
Definition alloc (_ : Z) : bool := true.
Definition ka : TaggedKey.t := mk 1 10.
Definition ka' : TaggedKey.t := mk 1 11.
Definition kb : TaggedKey.t := mk 2 20.
Definition kc : TaggedKey.t := mk 3 30.

Definition blueprint : LruCacheBuilder (K := TaggedKey.t) (V := Z) (W := World_) :=
  builder_on_evict log (builder_max_size 2 builder).
Definition empty : LruCache TaggedKey.t Z World_ ListTable.t :=
  mkLru [] (mkList sentinels) 2 0 0 0 (Some log) true.

Definition session : list (Call TaggedKey.t Z World_ unit) := [Set_ ka 100; Set_ kb 200; Get ka'].

(** After the session: [ka] in front of [kb], one hit. *)
Definition full : LruCache TaggedKey.t Z World_ ListTable.t := (runs (run alloc) session (empty, [])).2.1.
Definition full_view : View TaggedKey.t Z World_ := mkView [(ka, 100); (kb, 200)] 2 1 0 0 (Some log) true.

Lemma full_models : models full full_view.
Proof.
  destruct (build_models (HT := ListTable.t) alloc blueprint 2 empty) as [_ HM]; [done|lia|done|].
  destruct (lru_runs_refine alloc session (empty, []) (mkView [] 2 0 0 0 (Some log) true, []))
    as (_ & _ & _ & H); [by split|]. exact H.
Qed.

Lemma lru_program_refines_witness :
  (runs (run alloc) (session ++ [Set_ kc 300; Iter]) (empty, [])).1 =
    [Done (RVal None); Done (RVal None); Done (RVal (Some 100)); Done (RVal None);
     Done (REntries [(kc, 300); (ka, 100)])].
Proof.
  destruct (lru_program_refines alloc blueprint 2 empty (session ++ [Set_ kc 300; Iter]) []) as (E & _);
    [done|lia|done|]. etransitivity; [exact E|reflexivity].
Defined.

Lemma lru_set_witness :
  wp (cache_set ka' 101) (fun r s => r = Some 100 /\
       models s.1 (mkView [(ka', 101); (kb, 200)] 2 1 0 0 (Some log) true)) (fun _ => False)
    (full, []).
Proof.
  eapply wp_mono; [apply (lru_set ka' 101 full full_view [] full_models)| |].
  - intros r s H. exact H.
  - intros s (n & [Hn1 Hn2] & _). simpl in *. lia.
Defined.

Lemma lru_set_lookup_witness : exists c' w',
  cache_set kc 300 (full, []) = (Done None, (c', w')) /\ cache_size c' <= 2 /\
  cache_peek c' kc = Done (Some 300).
Proof.
  destruct (cache_set kc 300 (full, [])) as [o [c' w']] eqn:E. exists c', w'.
  assert (o = Done None) as -> by (apply (f_equal fst) in E; vm_compute in E; by rewrite <- E).
  destruct (lru_set_lookup kc 300 full full_view [] None c' w' full_models E) as (E1 & E2 & E3 & _).
  split; [done|]. split; [|by apply E3]. by rewrite E1 in E2.
Defined.

Lemma lru_set_victim_witness : exists c',
  cache_set kc 300 (full, []) = (Done None, (c', [(kb, 200)])).
Proof.
  destruct (lru_set_victim kc 300 full full_view [] [(ka, 100)] (kb, 200) log full_models)
    as (c' & _ & E); [done|done| |done|].
  - repeat constructor.
  - by exists c'.
Defined.

Lemma lru_get_or_set_hit_witness : exists i c',
  cache_get_or_set_with_mut ka' (fun w => (None, w)) (full, []) = (Done i, (c', [])).
Proof.
  destruct (lru_get_or_set_hit ka' (fun w => (None, w)) full full_view [] (ka, 100) _ full_models
    ltac:(reflexivity) ltac:(by left)) as (i & c' & E & _).
  by exists i, c'.
Defined.

Lemma lru_get_or_set_miss_witness : exists c',
  cache_get_or_set_with_mut kc (fun w => (None, w)) (full, []) = (Unwind, (c', [])) /\
  models c' (missed full_view).
Proof.
  exact (lru_get_or_set_miss kc (fun w => (None, w)) full full_view [] _ full_models
    ltac:(reflexivity) ltac:(by left)).
Defined.

Lemma lru_try_get_or_set_err_witness : exists c',
  cache_try_get_or_set_with_mut kc (fun w => (Some (Err 7), w)) (full, []) = (Done (Err 7), (c', [])) /\
  models c' (missed full_view).
Proof.
  by apply (lru_try_get_or_set_err kc (fun w => (Some (Err 7), w)) full full_view [] [] 7 full_models).
Defined.

Definition odd_id (k : TaggedKey.t) (_ : Z) : option bool := Some (Z.odd (id k)).

Lemma lru_retain_witness :
  wp (retain (answers odd_id (fun _ _ w => w)))
    (fun n s => n = 1%nat /\ models s.1 (evicted [(ka, 100)] 1 full_view))
    (fun s => exists n, (0 < n <= 1)%nat /\
       models s.1 (evicted (sweep (entries full_view) (take n [(kb, 200)])) n full_view)) (full, []).
Proof.
  eapply wp_mono; [apply (lru_retain odd_id (fun _ _ w => w) full full_view [] full_models); done| |].
  - intros n s [-> H]. split; [reflexivity|exact H].
  - intros s H. exact H.
Defined.

Lemma lru_retain_panic_witness : exists c' w',
  retain (answers (fun k _ => if keq k kb then None else Some false) (fun _ _ w => w)) (full, []) =
    (Unwind, (c', w')) /\ models c' full_view.
Proof.
  apply (lru_retain_panic _ _ full full_view [] (kb, 200) full_models); [|done].
  right. left.
Defined.

Lemma lru_set_max_size_witness :
  wp (set_max_size 1) (fun r s => r = Some 2 /\
       models s.1 (evicted [(ka, 100)] 1 (put_capacity 1 full_view)))
    (fun s => exists m, (1 <= m < 2)%nat /\
       models s.1 (evicted (take m (entries full_view)) (2 - m) (put_capacity 1 full_view))) (full, []).
Proof. apply (lru_set_max_size 1 full full_view [] full_models). lia. Defined.

Lemma lru_eq_witness : cache_eq Z.eqb full full = Done true.
Proof.
  destruct (lru_eq Z.eqb full full full_view full_view full_models full_models) as (b & E & H).
  rewrite E. f_equal. apply H. intros k. destruct (find_key k (entries full_view)); [lia|done].
Defined.

Lemma lru_clear_with_on_evict_witness : exists c',
  models c' (put_entries [] (put_evictions 2 full_view)) /\
  cache_clear_with_on_evict (full, []) = (Done tt, (c', [(kb, 200); (ka, 100)])).
Proof. by apply (lru_clear_with_on_evict full full_view [] log full_models). Defined.

Lemma lru_no_internal_panic_witness :
  Forall (fun o => exists r, o = Done r)
    (runs (run alloc) (session ++ [GetOrSet kc (fun w => (Some 5, w)) Z.succ; SetMaxSize 1]) (empty, [])).1.
Proof.
  apply (lru_no_internal_panic alloc blueprint 2 empty); [done|lia|done| |].
  - intros k v w. by eexists _, _.
  - repeat constructor. intros w. by eexists _, _.
Defined.
End Demo.
