(* ===== verification/Ttl.v ===== *)
(** * The store with a global time-to-live ([src/stores/ttl.rs])

    [TtlCache] maps keys to values with a deadline.  A [&mut V] into the map is named by the
    key it was looked up with. *)
From Stdlib Require Import String.
From S2P Require Import Prelude Keys Stores.
#[local] Close Scope string_scope.

Section TtlCache.
Context {K V W : Type} `{!KeyEq K, !Clock W}.

(** ** Data *)

Record TtlCache : Type := mkTtl {
  store : list (K * TimedEntry V);
  ttl : Z;
  hits : Z;
  misses : Z;
  evictions : Z;
  initial_capacity : option Z;
  refresh : bool;
  on_evict : OnEvict K V W }.

Definition with_store (m : list (K * TimedEntry V)) (c : TtlCache) : TtlCache :=
  mkTtl m (ttl c) (hits c) (misses c) (evictions c) (initial_capacity c) (refresh c) (on_evict c).
Definition with_ttl (n : Z) (c : TtlCache) : TtlCache :=
  mkTtl (store c) n (hits c) (misses c) (evictions c) (initial_capacity c) (refresh c) (on_evict c).
Definition with_hits (n : Z) (c : TtlCache) : TtlCache :=
  mkTtl (store c) (ttl c) n (misses c) (evictions c) (initial_capacity c) (refresh c) (on_evict c).
Definition with_misses (n : Z) (c : TtlCache) : TtlCache :=
  mkTtl (store c) (ttl c) (hits c) n (evictions c) (initial_capacity c) (refresh c) (on_evict c).
Definition with_evictions (n : Z) (c : TtlCache) : TtlCache :=
  mkTtl (store c) (ttl c) (hits c) (misses c) n (initial_capacity c) (refresh c) (on_evict c).
Definition with_refresh (b : bool) (c : TtlCache) : TtlCache :=
  mkTtl (store c) (ttl c) (hits c) (misses c) (evictions c) (initial_capacity c) b (on_evict c).

Definition Op (A : Type) : Type := ST (TtlCache * W) A.
Definition self : Op TtlCache := gets fst.
Definition set_self (f : TtlCache -> TtlCache) : Op unit := modify (fun s => (f s.1, s.2)).

Definition count_hit : Op unit := set_self (fun c => with_hits (fetch_add (hits c) 1) c).
Definition count_miss : Op unit := set_self (fun c => with_misses (fetch_add (misses c) 1) c).
Definition count_evictions (n : Z) : Op unit :=
  set_self (fun c => with_evictions (fetch_add (evictions c) n) c).
Definition notify (k : K) (v : V) : Op unit :=
  let! c := self in match on_evict c with Some f => user (f k v) | None => ret tt end.

(** The map's own calls. *)
Definition map_update (k : K) (e : TimedEntry V) : Op unit :=
  set_self (fun c => with_store (hm_update k e (store c)) c).
Definition map_push (k : K) (e : TimedEntry V) : Op unit :=
  set_self (fun c => with_store (store c ++ [(k, e)]) c).
Definition map_remove_entry (k : K) : Op (option (K * TimedEntry V)) :=
  let! c := self in
  match take_key k (store c) with
  | Some (e, m) => set_self (with_store m) ;; ret (Some e)
  | None => ret None
  end.

(** [Clone::clone]; the user's data clones to itself. *)
Definition clone (c : TtlCache) : TtlCache :=
  mkTtl (store c) (ttl c) (hits c) (misses c) (evictions c) (initial_capacity c) (refresh c) (on_evict c).

(** ** Construction *)

Record TtlCacheBuilder : Type := mkBuilder {
  b_ttl : option Z; b_capacity : option Z; b_refresh : bool; b_on_evict : OnEvict K V W }.

Definition builder : TtlCacheBuilder := mkBuilder None None false None.
Definition builder_ttl (t : Z) (b : TtlCacheBuilder) :=
  mkBuilder (Some t) (b_capacity b) (b_refresh b) (b_on_evict b).
Definition builder_ttl_secs (secs : Z) (b : TtlCacheBuilder) := builder_ttl (from_secs secs) b.
Definition builder_ttl_millis (millis : Z) (b : TtlCacheBuilder) := builder_ttl (from_millis millis) b.
Definition builder_initial_capacity (n : Z) (b : TtlCacheBuilder) :=
  mkBuilder (b_ttl b) (Some n) (b_refresh b) (b_on_evict b).
Definition builder_refresh_on_hit (r : bool) (b : TtlCacheBuilder) :=
  mkBuilder (b_ttl b) (b_capacity b) r (b_on_evict b).
Definition builder_on_evict (f : K -> V -> User W unit) (b : TtlCacheBuilder) :=
  mkBuilder (b_ttl b) (b_capacity b) (b_refresh b) (Some f).

Definition build (b : TtlCacheBuilder) : result BuildError TtlCache :=
  match b_ttl b with
  | None => Err (MissingRequired "ttl")
  | Some ttl =>
      match validate_ttl ttl with
      | Err e => Err e
      | Ok _ => Ok (mkTtl [] ttl 0 0 0 (b_capacity b) (b_refresh b) (b_on_evict b))
      end
  end.

Definition new (ttl : Z) : outcome TtlCache :=
  match build (builder_ttl ttl builder) with Ok c => Done c | Err _ => Unwind end.

(** ** Private helpers *)

(** [entry_live]: the clock is read only for an entry that has a deadline. *)
Definition entry_live (expires_at : option Z) : Op bool :=
  match expires_at with
  | None => ret true
  | Some t => let! n := now in ret (n <? t)
  end.

Definition set_entry (key : K) (entry : TimedEntry V) (now : Z) : Op (option V) :=
  let! c := self in
  match find_key key (store c) with
  | Some (stored, old) =>
      map_update key entry ;;
      if entry_live_at (expires_at old) now then ret (Some (tvalue old))
      else count_evictions 1 ;; notify stored (tvalue old) ;; ret None
  | None => map_push key entry ;; ret None
  end.

Definition take_doomed (doomed : K -> TimedEntry V -> User W bool) : Op (list (K * TimedEntry V)) :=
  zoom (fun s => (store s.1, s.2)) (fun p s => (with_store p.1 s.1, p.2)) (Stores.take_doomed doomed).

Definition notify_evicted (removed : list (K * TimedEntry V)) : Op nat :=
  (if decide (removed = []) then ret tt else count_evictions (Z.of_nat (length removed))) ;;
  for_each removed (fun e => notify e.1 (tvalue e.2)) ;;
  ret (length removed).

(** ** Inherent methods *)

Definition cache_clear_with_on_evict : Op unit :=
  let! c := self in
  let entries := store c in
  set_self (with_store []) ;;
  let count := Z.of_nat (length entries) in
  (if 0 <? count then count_evictions count else ret tt) ;;
  for_each entries (fun e => notify e.1 (tvalue e.2)).

Definition evict : Op nat :=
  let! n := now in
  let! removed := take_doomed (fun _ entry w => (Some (negb (entry_live_at (expires_at entry) n)), w)) in
  notify_evicted removed.

Definition retain (keep : K -> V -> User W bool) : Op nat :=
  let! n := now in
  let! removed := take_doomed (fun key entry w =>
    if entry_live_at (expires_at entry) n then
      let '(b, w) := keep key (tvalue entry) w in (negb <$> b, w)
    else (Some true, w)) in
  notify_evicted removed.

(** ** [Cached] *)

Definition refresh_entry (key : K) (entry : TimedEntry V) (now : Z) : Op unit :=
  let! c := self in
  if refresh c then
    map_update key (mkTimed (refreshed_expires_at (ttl c) now (expires_at entry)) (tvalue entry))
  else ret tt.

(** The shared tail of the two reads: a miss, sweeping the entry if it was there. *)
Definition sweep_expired (expired_present : bool) (key : K) : Op unit :=
  count_miss ;;
  if expired_present then
    let! r := map_remove_entry key in
    match r with
    | Some (k, entry) => count_evictions 1 ;; notify k (tvalue entry)
    | None => ret tt
    end
  else ret tt.

Definition cache_get (key : K) : Op (option V) :=
  let! n := now in
  let! c := self in
  match find_key key (store c) with
  | Some (_, entry) =>
      if entry_live_at (expires_at entry) n then
        count_hit ;; refresh_entry key entry n ;; ret (Some (tvalue entry))
      else sweep_expired true key ;; ret None
  | None => sweep_expired false key ;; ret None
  end.

Definition cache_get_mut (key : K) : Op (option K) :=
  let! n := now in
  let! c := self in
  match find_key key (store c) with
  | Some (_, entry) =>
      if entry_live_at (expires_at entry) n then
        count_hit ;; refresh_entry key entry n ;; ret (Some key)
      else sweep_expired true key ;; ret None
  | None => sweep_expired false key ;; ret None
  end.

Definition cache_get_or_set_with_mut (key : K) (f : User W V) : Op K :=
  let! c := self in
  match find_key key (store c) with
  | Some (stored, entry) =>
      let! n := now in
      if entry_live_at (expires_at entry) n then
        refresh_entry key entry n ;; count_hit ;; ret key
      else
        count_miss ;;
        let! val := user f in
        let! n := now in
        map_update key (mkTimed (compute_expires_at (ttl c) n) val) ;;
        count_evictions 1 ;;
        notify stored (tvalue entry) ;;
        ret key
  | None =>
      count_miss ;;
      let! val := user f in
      let! n := now in
      map_push key (mkTimed (compute_expires_at (ttl c) n) val) ;;
      ret key
  end.

Definition cache_try_get_or_set_with_mut {E} (key : K) (f : User W (result E V)) : Op (result E K) :=
  let! c := self in
  match find_key key (store c) with
  | Some (stored, entry) =>
      let! n := now in
      if entry_live_at (expires_at entry) n then
        refresh_entry key entry n ;; count_hit ;; ret (Ok key)
      else
        count_miss ;;
        let! r := user f in
        match r with
        | Err e => ret (Err e)
        | Ok val =>
            let! n := now in
            map_update key (mkTimed (compute_expires_at (ttl c) n) val) ;;
            count_evictions 1 ;;
            notify stored (tvalue entry) ;;
            ret (Ok key)
        end
  | None =>
      count_miss ;;
      let! r := user f in
      match r with
      | Err e => ret (Err e)
      | Ok val =>
          let! n := now in
          map_push key (mkTimed (compute_expires_at (ttl c) n) val) ;;
          ret (Ok key)
      end
  end.

Definition cache_set (key : K) (val : V) : Op (option V) :=
  let! n := now in
  let! c := self in
  set_entry key (mkTimed (compute_expires_at (ttl c) n) val) n.

Definition cache_remove (k : K) : Op (option V) :=
  let! r := map_remove_entry k in
  match r with
  | Some (stored_k, entry) =>
      let! live := entry_live (expires_at entry) in
      count_evictions 1 ;;
      notify stored_k (tvalue entry) ;;
      ret (if live then Some (tvalue entry) else None)
  | None => ret None
  end.

Definition cache_remove_entry (k : K) : Op (option (K * V)) :=
  let! r := map_remove_entry k in
  match r with
  | Some (stored_k, entry) =>
      count_evictions 1 ;;
      notify stored_k (tvalue entry) ;;
      ret (Some (stored_k, tvalue entry))
  | None => ret None
  end.

Definition cache_clear : Op unit := set_self (with_store []).

Definition cache_reset_metrics : Op unit :=
  set_self (with_misses 0) ;; set_self (with_hits 0) ;; set_self (with_evictions 0).

(** [shrink_to] only gives memory back. *)
Definition cache_reset : Op unit := set_self (with_store []) ;; cache_reset_metrics.

Definition cache_size (c : TtlCache) : Z := Z.of_nat (length (store c)).

Definition cache_peek (k : K) : Op (option V) :=
  let! c := self in
  match find_key k (store c) with
  | Some (_, entry) =>
      let! live := entry_live (expires_at entry) in
      ret (if live then Some (tvalue entry) else None)
  | None => ret None
  end.

Definition cache_contains (k : K) : Op bool :=
  let! v := cache_peek k in ret (match v with Some _ => true | None => false end).

(** [CachedIter::iter], collected: the clock is read for every entry with a deadline. *)
Definition iter : Op (list (K * V)) :=
  let! c := self in
  let! live := filter_each (store c) (fun e => entry_live (expires_at e.2)) in
  ret ((fun e => (e.1, tvalue e.2)) <$> live).

(** ** [CacheTtl], [CacheRefreshOnHit], [CloneCached] *)

Definition get_ttl (c : TtlCache) : option Z := if ttl c =? 0 then None else Some (ttl c).

Definition set_ttl (t : Z) : Op (option Z) :=
  let! c := self in
  set_self (with_ttl t) ;;
  ret (if ttl c =? 0 then None else Some (ttl c)).

Definition unset_ttl : Op (option Z) :=
  let! c := self in
  set_self (with_ttl 0) ;;
  ret (if ttl c =? 0 then None else Some (ttl c)).

Definition set_refresh_on_hit (b : bool) : Op bool :=
  let! c := self in
  set_self (with_refresh b) ;;
  ret (refresh c).

Definition cache_get_with_expiry_status (k : K) : Op (option V * bool) :=
  let! c := self in
  match find_key k (store c) with
  | Some (_, entry) =>
      let! n := now in
      if entry_live_at (expires_at entry) n then
        count_hit ;; refresh_entry k entry n ;; ret (Some (tvalue entry), false)
      else count_miss ;; ret (Some (tvalue entry), true)
  | None => count_miss ;; ret (None, false)
  end.

Definition cache_peek_with_expiry_status (k : K) : Op (option V * bool) :=
  let! c := self in
  match find_key k (store c) with
  | Some (_, entry) =>
      let! live := entry_live (expires_at entry) in
      ret (Some (tvalue entry), negb live)
  | None => ret (None, false)
  end.

(** ** The [async] variants: the clock is read before the lookup *)

Definition async_cache_get_or_set_with_mut (key : K) (f : User W V) : Op K :=
  let! n := now in
  let! c := self in
  match find_key key (store c) with
  | Some (stored, entry) =>
      if entry_live_at (expires_at entry) n then
        refresh_entry key entry n ;; count_hit ;; ret key
      else
        count_miss ;;
        let! val := user f in
        let! n := now in
        map_update key (mkTimed (compute_expires_at (ttl c) n) val) ;;
        count_evictions 1 ;;
        notify stored (tvalue entry) ;;
        ret key
  | None =>
      count_miss ;;
      let! val := user f in
      let! n := now in
      map_push key (mkTimed (compute_expires_at (ttl c) n) val) ;;
      ret key
  end.

Definition async_cache_try_get_or_set_with_mut {E} (key : K) (f : User W (result E V)) :
    Op (result E K) :=
  let! n := now in
  let! c := self in
  match find_key key (store c) with
  | Some (stored, entry) =>
      if entry_live_at (expires_at entry) n then
        refresh_entry key entry n ;; count_hit ;; ret (Ok key)
      else
        count_miss ;;
        let! r := user f in
        match r with
        | Err e => ret (Err e)
        | Ok val =>
            let! n := now in
            map_update key (mkTimed (compute_expires_at (ttl c) n) val) ;;
            count_evictions 1 ;;
            notify stored (tvalue entry) ;;
            ret (Ok key)
        end
  | None =>
      count_miss ;;
      let! r := user f in
      match r with
      | Err e => ret (Err e)
      | Ok val =>
          let! n := now in
          map_push key (mkTimed (compute_expires_at (ttl c) n) val) ;;
          ret (Ok key)
      end
  end.
End TtlCache.
Arguments TtlCache : clear implicits.
Arguments Op : clear implicits.

(** ** Properties *)
Section Properties.
Context {K V W : Type} `{!KeyEq K, !KeyLaws K, !Clock W}.
Implicit Types (c : TtlCache K V W) (k : K) (v : V) (w : W).

(** The map part of the invariant: no two keys are equal. *)
Definition wf c : Prop := distinct (store c).

Ltac run := unfold cache_get, cache_get_mut, cache_set, set_entry, cache_get_or_set_with_mut,
  sweep_expired, refresh_entry, map_update, map_push, map_remove_entry, count_hit, count_miss,
  count_evictions, bind, self, gets, set_self, modify, now, ret; simpl.

(** Reading the callback. *)
Definition told c k v w : outcome unit * W :=
  match on_evict c with
  | Some f => match f k v w with (Some _, w') => (Done tt, w') | (None, w') => (Unwind, w') end
  | None => (Done tt, w)
  end.

Lemma notify_run k v c w : notify k v (c, w) = let '(o, w') := told c k v w in (o, (c, w')).
Proof.
  unfold notify, told, bind, self, gets, user. simpl. destruct (on_evict c) as [f|]; [|done].
  unfold user. simpl. by destruct (f k v w) as [[[]|] w'].
Qed.

Definition hit c : TtlCache K V W := with_hits (fetch_add (hits c) 1) c.
Definition missed c : TtlCache K V W := with_misses (fetch_add (misses c) 1) c.
Definition swept m c : TtlCache K V W :=
  with_evictions (fetch_add (evictions c) 1) (with_store m c).
Definition refreshed k (e : TimedEntry V) (t : Z) c : TtlCache K V W :=
  if refresh c then with_store (hm_update k
    (mkTimed (refreshed_expires_at (ttl c) t (expires_at e)) (tvalue e)) (store c)) c
  else c.

Lemma ttl_get_run k c w t w1 : clock_now w = (t, w1) ->
  cache_get k (c, w) =
  match find_key k (store c) with
  | Some (stored, e) =>
      if entry_live_at (expires_at e) t
      then (Done (Some (tvalue e)), (refreshed k e t (hit c), w1))
      else let '(o, w2) := told c stored (tvalue e) w1 in
           (match o with Done _ => Done None | Unwind => Unwind | OutOfFuel => OutOfFuel end,
            (swept (drop_key k (store c)) (missed c), w2))
  | None => (Done None, (missed c, w1))
  end.
Proof.
  intros E. run. rewrite E. simpl. unfold find_key, drop_key.
  destruct (take_key k (store c)) as [[[stored e] m]|] eqn:Et; simpl; [|done].
  destruct (entry_live_at (expires_at e) t).
  - unfold refreshed. simpl. by destruct (refresh c).
  - simpl. rewrite Et. simpl. rewrite notify_run. unfold told. simpl.
    destruct (on_evict c) as [f|]; [|done]. by destruct (f stored (tvalue e) w1) as [[[]|] w2].
Qed.

(** [cache_get] reads the clock once and never returns an expired value: a live entry is
    returned and counted (its deadline renewed if the cache refreshes on hit); an expired one
    is removed, counted as an eviction and handed, with its stored key, to [on_evict] after
    that; an absent key is a plain miss. *)
Theorem ttl_get k c w t w1 : clock_now w = (t, w1) ->
  cache_get k (c, w) =
  match find_key k (store c) with
  | Some (stored, e) =>
      if entry_live_at (expires_at e) t
      then (Done (Some (tvalue e)), (refreshed k e t (hit c), w1))
      else let '(o, w2) := told c stored (tvalue e) w1 in
           (match o with Done _ => Done None | Unwind => Unwind | OutOfFuel => OutOfFuel end,
            (swept (drop_key k (store c)) (missed c), w2))
  | None => (Done None, (missed c, w1))
  end.
Proof. apply ttl_get_run. Qed.

(** ** Every call keeps the invariant *)

(** A call of a public method; a [&mut V] that comes back is read and written by [g]. *)
Inductive Call (E : Type) : Type :=
| Get (k : K)
| GetMut (k : K) (g : V -> V)
| Set_ (k : K) (v : V)
| GetOrSet (k : K) (f : User W V) (g : V -> V)
| TryGetOrSet (k : K) (f : User W (result E V)) (g : V -> V)
| AsyncGetOrSet (k : K) (f : User W V) (g : V -> V)
| AsyncTryGetOrSet (k : K) (f : User W (result E V)) (g : V -> V)
| Remove (k : K)
| RemoveEntry (k : K)
| Retain (keep : K -> V -> User W bool)
| Evict
| Clear
| ClearWithOnEvict
| Reset_
| SetTtl (t : Z)
| UnsetTtl
| SetRefresh (b : bool)
| Peek (k : K)
| PeekStatus (k : K)
| GetStatus (k : K)
| Iter.

(** Read and write the value at a key that is present. *)
Definition deref (g : V -> V) (k : K) : Op K V W unit :=
  let! c := self in
  match find_key k (store c) with
  | Some (_, e) => map_update k (mkTimed (expires_at e) (g (tvalue e)))
  | None => unwind
  end.

Definition run {E} (q : Call E) : Op K V W unit :=
  match q with
  | Get _ k => cache_get k ;; ret tt
  | GetMut _ k g => let! r := cache_get_mut k in match r with Some k => deref g k | None => ret tt end
  | Set_ _ k v => cache_set k v ;; ret tt
  | GetOrSet _ k f g => let! k := cache_get_or_set_with_mut k f in deref g k
  | TryGetOrSet _ k f g =>
      let! r := cache_try_get_or_set_with_mut k f in
      match r with Ok k => deref g k | Err _ => ret tt end
  | AsyncGetOrSet _ k f g => let! k := async_cache_get_or_set_with_mut k f in deref g k
  | AsyncTryGetOrSet _ k f g =>
      let! r := async_cache_try_get_or_set_with_mut k f in
      match r with Ok k => deref g k | Err _ => ret tt end
  | Remove _ k => cache_remove k ;; ret tt
  | RemoveEntry _ k => cache_remove_entry k ;; ret tt
  | Retain _ keep => retain keep ;; ret tt
  | Evict _ => evict ;; ret tt
  | Clear _ => cache_clear
  | ClearWithOnEvict _ => cache_clear_with_on_evict
  | Reset_ _ => cache_reset
  | SetTtl _ t => set_ttl t ;; ret tt
  | UnsetTtl _ => unset_ttl ;; ret tt
  | SetRefresh _ b => set_refresh_on_hit b ;; ret tt
  | Peek _ k => cache_peek k ;; ret tt
  | PeekStatus _ k => cache_peek_with_expiry_status k ;; ret tt
  | GetStatus _ k => cache_get_with_expiry_status k ;; ret tt
  | Iter _ => iter ;; ret tt
  end.

(** The closures of a call may panic only if [P]. *)
Definition call_ok {E} (P : Prop) (q : Call E) : Prop :=
  match q with
  | GetOrSet _ _ f _ => P \/ total f
  | TryGetOrSet _ _ f _ => P \/ total f
  | AsyncGetOrSet _ _ f _ => P \/ total f
  | AsyncTryGetOrSet _ _ f _ => P \/ total f
  | Retain _ keep => forall k v, P \/ total (keep k v)
  | _ => True
  end.

Context (P : Prop).

Definition Inv c : Prop := wf c /\ (P \/ callback_total (on_evict c)).

(** What holds after a call that returns, and after one that unwinds. *)
Notation ok m := (forall c w, Inv c -> wp m (fun _ s => Inv s.1) (fun s => P /\ Inv s.1) (c, w)).

Lemma wp_notify k v (Q : unit -> TtlCache K V W * W -> Prop) U c w :
  P \/ callback_total (on_evict c) -> (forall w', Q tt (c, w')) -> (forall w', P -> U (c, w')) ->
  wp (notify k v) Q U (c, w).
Proof.
  intros HP HQ HU. unfold notify. apply wp_bind, wp_gets. by apply (wp_callback P).
Qed.

(** Symbolic run of a method, down to the states it can end in. *)
Ltac go1 :=
  match goal with
  | |- wp (bind _ _) _ _ _ => apply wp_bind
  | |- wp (ret _) _ _ _ => apply wp_ret
  | |- wp self _ _ _ => apply wp_gets
  | |- wp (set_self _) _ _ _ => apply wp_modify
  | |- wp count_hit _ _ _ => apply wp_modify
  | |- wp count_miss _ _ _ => apply wp_modify
  | |- wp (count_evictions _) _ _ _ => apply wp_modify
  | |- wp (map_update _ _) _ _ _ => apply wp_modify
  | |- wp (map_push _ _) _ _ _ => apply wp_modify
  | |- wp now _ _ _ => apply wp_now
  | |- wp (notify _ _) _ _ _ => apply wp_notify; [done|intros ?|intros ? ?]
  | |- wp (user _) _ _ _ => apply (wp_user_ok P); [done|intros ? ?|intros ? ?]
  | |- wp (match ?x with _ => _ end) _ _ _ => destruct x eqn:?
  | |- wp (match ?x with _ => _ end _) _ _ _ => destruct x eqn:?
  | |- wp (let '_ := ?x in _) _ _ _ => destruct x eqn:?
  end; simpl.
Ltac go := repeat go1.

(** The states it can end in: their keys are distinct. *)
Ltac leaf := unfold Inv, wf in *; simpl in *; repeat match goal with |- _ /\ _ => split end; try done;
  eauto using distinct_update, distinct_snoc, find_fresh, distinct_drop_key.

Ltac present := simpl in *; try done;
  try (apply present_update; congruence); try apply present_snoc; try congruence.

Ltac methods := unfold cache_get, cache_get_mut, cache_set, set_entry, cache_get_or_set_with_mut,
  cache_try_get_or_set_with_mut, async_cache_get_or_set_with_mut, async_cache_try_get_or_set_with_mut,
  cache_remove, cache_remove_entry, cache_clear, cache_reset, cache_reset_metrics, set_ttl, unset_ttl,
  set_refresh_on_hit, cache_peek, cache_peek_with_expiry_status, cache_get_with_expiry_status,
  entry_live, sweep_expired, refresh_entry, map_remove_entry.

(** The place a [&mut V] names is there when the method returns. *)
Definition here k (s : TtlCache K V W * W) : Prop := Inv s.1 /\ find_key k (store s.1) <> None.

Lemma deref_ok g k c w : here k (c, w) ->
  wp (deref g k) (fun _ s => Inv s.1) (fun s => P /\ Inv s.1) (c, w).
Proof.
  intros [[HI HP] Hk]. unfold deref. go; [leaf|done].
Qed.

Lemma get_mut_ok k c w : Inv c ->
  wp (cache_get_mut k) (fun r s => match r with Some k => here k s | None => Inv s.1 end)
    (fun s => P /\ Inv s.1) (c, w).
Proof. intros [HI HP]. methods. go. all: try (split; [leaf|present]). all: leaf. Qed.

Lemma get_or_set_ok k f c w : Inv c -> P \/ total f ->
  wp (cache_get_or_set_with_mut k f) (fun r s => here r s) (fun s => P /\ Inv s.1) (c, w) /\
  wp (async_cache_get_or_set_with_mut k f) (fun r s => here r s) (fun s => P /\ Inv s.1) (c, w).
Proof.
  intros [HI HP] Hf. split; methods; go.
  all: try (split; [done|leaf]; fail). all: split; [leaf|present].
Qed.

Lemma try_get_or_set_ok {E} k (f : User W (result E V)) c w : Inv c -> P \/ total f ->
  wp (cache_try_get_or_set_with_mut k f)
    (fun r s => match r with Ok k => here k s | Err _ => Inv s.1 end) (fun s => P /\ Inv s.1) (c, w) /\
  wp (async_cache_try_get_or_set_with_mut k f)
    (fun r s => match r with Ok k => here k s | Err _ => Inv s.1 end) (fun s => P /\ Inv s.1) (c, w).
Proof.
  intros [HI HP] Hf. split; methods; go.
  all: try (leaf; fail). all: split; [leaf|present].
Qed.

Lemma take_doomed_ok d : (forall k e, P \/ total (d k e)) -> ok (take_doomed d).
Proof.
  intros Hd c w [HI HP]. unfold take_doomed. apply wp_zoom. simpl.
  eapply wp_mono; [by apply (keeps_take_doomed P d Hd (store c, w))| |]; simpl; [done|].
  intros [m w'] [? ?]. by split.
Qed.

Lemma notify_all_ok (l : list (K * TimedEntry V)) : ok (for_each l (fun e => notify e.1 (tvalue e.2))).
Proof.
  intros c w HI. apply (keeps_for_each (fun s : TtlCache K V W * W => Inv s.1) P); [|done].
  intros e [c' w'] [HI' HP']. go; leaf.
Qed.

Lemma notify_evicted_ok l : ok (notify_evicted l).
Proof.
  intros c w HI. unfold notify_evicted. apply wp_bind. destruct (decide (l = [])); go.
  all: (eapply wp_mono; [by apply notify_all_ok| |done]); intros [] s H; by apply wp_ret.
Qed.

Lemma sweep_ok d : (forall k e, P \/ total (d k e)) ->
  ok (let! removed := take_doomed d in notify_evicted removed).
Proof.
  intros Hd c w HI. apply wp_bind. eapply wp_mono; [by apply take_doomed_ok| |done].
  intros l [c' w'] HI'. by apply notify_evicted_ok.
Qed.

Lemma retain_ok keep : (forall k v, P \/ total (keep k v)) -> ok (retain keep).
Proof.
  intros Hk c w HI. unfold retain. apply wp_bind, wp_now. apply sweep_ok; [|done].
  intros k e. destruct (Hk k (tvalue e)) as [H|H]; [by left|]. right. intros w'.
  destruct (entry_live_at _ _); [|by eexists _, _]. destruct (H w') as (b & w2 & ->). by eexists _, _.
Qed.

Lemma clear_with_ok : ok cache_clear_with_on_evict.
Proof.
  intros c w [HI HP]. unfold cache_clear_with_on_evict. go. all: apply notify_all_ok; leaf.
Qed.

Lemma iter_ok : ok iter.
Proof.
  intros c w HI. unfold iter. apply wp_bind, wp_gets. apply wp_bind. simpl.
  eapply wp_mono; [apply (keeps_filter_each (fun s : TtlCache K V W * W => Inv s.1) P); [|done]| |done].
  - intros e [c' w'] HI'. methods. by go.
  - intros l s H. by apply wp_ret.
Qed.

(** Ignoring the result. *)
Lemma ok_seq {A} (m : Op K V W A) : ok m -> ok (m ;; ret tt).
Proof. intros H c w HI. apply wp_bind. eapply wp_mono; [by apply H| |done]. intros a s H'. by apply wp_ret. Qed.

Lemma run_ok {E} (q : Call E) : call_ok P q -> ok (run q).
Proof.
  destruct q; simpl; intros Hq c w HI.
  all: try (destruct HI; methods; go; leaf; fail).
  - apply wp_bind. eapply wp_mono; [by apply get_mut_ok| |done].
    intros [k'|] [c' w'] H; [by apply deref_ok|by apply wp_ret].
  - apply wp_bind. eapply wp_mono; [by apply get_or_set_ok| |done]. intros k' [c' w'] H. by apply deref_ok.
  - apply wp_bind. eapply wp_mono; [by apply try_get_or_set_ok| |done].
    intros [k'|] [c' w'] H; [by apply deref_ok|by apply wp_ret].
  - apply wp_bind. eapply wp_mono; [by apply get_or_set_ok| |done]. intros k' [c' w'] H. by apply deref_ok.
  - apply wp_bind. eapply wp_mono; [by apply try_get_or_set_ok| |done].
    intros [k'|] [c' w'] H; [by apply deref_ok|by apply wp_ret].
  - apply ok_seq; [by apply retain_ok|done].
  - apply ok_seq; [|done]. intros c' w' HI'. unfold evict. apply wp_bind, wp_now, sweep_ok; [|done].
    intros k e. right. apply total_pure.
  - by apply clear_with_ok.
  - apply ok_seq; [apply iter_ok|done].
Qed.

Lemma ttl_runs_ok {E} (qs : list (Call E)) c w : Inv c -> Forall (call_ok P) qs ->
  Forall (fun o => o = Done tt \/ (o = Unwind /\ P)) (runs run qs (c, w)).1 /\ Inv (runs run qs (c, w)).2.1.
Proof.
  intros HI H. destruct (runs_keep (fun s => Inv s.1) P (call_ok P) run qs (c, w)) as [H1 H2]; [|done|done|].
  - intros q [c' w'] Hq HI'. by apply run_ok.
  - split; [|done]. eapply Forall_impl; [exact H1|]. intros o [[[] ->]|?]; auto.
Qed.
End Properties.
Arguments Call : clear implicits.

Section Claims.
Context {K V W : Type} `{!KeyEq K, !KeyLaws K, !Clock W}.
Implicit Types (c : TtlCache K V W) (k : K) (v : V) (w : W).

(** Any sequence of calls of [TtlCache], blocking and [async], leaves keys distinct, even
    after panics of user code that the caller caught; and when the closures and the callback do
    not panic, every call returns. *)
Theorem ttl_calls {E} (P : Prop) (b : TtlCacheBuilder) c (qs : list (Call K V W E)) w :
  build b = Ok c -> P \/ callback_total (b_on_evict b) -> Forall (call_ok P) qs ->
  wf (runs run qs (c, w)).2.1 /\
  Forall (fun o => o = Done tt \/ (o = Unwind /\ P)) (runs run qs (c, w)).1.
Proof.
  intros Hb HP Hq. assert (Inv P c) as HI.
  { unfold build in Hb. destruct (b_ttl b) as [t|]; [|done]. destruct (validate_ttl t); [|done].
    simplify_eq. by split. }
  destruct (ttl_runs_ok P qs c w HI Hq) as [H1 [H2 _]]. done.
Qed.

(** The entry a [cache_set] of [k] at time [t] leaves: the first stored key stays. *)
Definition set_binding k v c t : K * TimedEntry V :=
  (match find_key k (store c) with Some (stored, _) => stored | None => k end,
   mkTimed (compute_expires_at (ttl c) t) v).

Lemma set_lookup k v c w t w1 : wf c -> clock_now w = (t, w1) ->
  exists o c' w', cache_set k v (c, w) = (o, (c', w')) /\ o <> OutOfFuel /\ wf c' /\ ttl c' = ttl c /\
    (forall k', find_key k' (store c') = if keq k k' then Some (set_binding k v c t)
                                         else find_key k' (store c)) /\
    (forall r, o = Done r ->
       r = match find_key k (store c) with
           | Some (_, old) => if entry_live_at (expires_at old) t then Some (tvalue old) else None
           | None => None
           end).
Proof.
  intros D E. unfold cache_set, set_entry, bind at 1, now. simpl. rewrite E.
  unfold bind at 1, self, gets. simpl. unfold bind at 1. simpl. unfold set_binding.
  destruct (find_key k (store c)) as [[stored old]|] eqn:Ef; simpl.
  - assert (forall k', find_key k' (hm_update k (mkTimed (compute_expires_at (ttl c) t) v) (store c)) =
      if keq k k' then Some (stored, mkTimed (compute_expires_at (ttl c) t) v) else find_key k' (store c)) as Hl
      by (intros k'; by apply (find_key_update k _ _ _ D Ef)).
    unfold bind at 1, map_update, set_self, modify. simpl.
    destruct (entry_live_at (expires_at old) t).
    + do 3 eexists. split; [done|]. split_and!; [done|by apply distinct_update|done|exact Hl|by intros r [= <-]].
    + unfold bind at 1, count_evictions, set_self, modify. simpl. unfold bind at 1.
      rewrite notify_run. unfold told. simpl.
      destruct (on_evict c) as [f|]; [destruct (f stored (tvalue old) w1) as [[[]|] w2]|];
        (do 3 eexists; split; [done|]; split_and!;
         [done|by apply distinct_update|done|exact Hl|by intros r [= <-]]).
  - do 3 eexists. split; [done|]. apply find_fresh in Ef.
    split_and!; [done|by apply distinct_snoc|done|by apply find_key_snoc|by intros r [= <-]].
Qed.

(** [cache_set] binds the key to the value with a deadline one ttl after its clock reading
    and changes no other key; an equal key that was there keeps its stored form; the old value
    is returned only if it was still live.  All of this holds also when the displaced entry was
    expired and [on_evict] panics. *)
Theorem ttl_set k v c w t w1 : wf c -> clock_now w = (t, w1) ->
  exists o c' w', cache_set k v (c, w) = (o, (c', w')) /\ o <> OutOfFuel /\ wf c' /\ ttl c' = ttl c /\
    (forall k', find_key k' (store c') = if keq k k' then Some (set_binding k v c t)
                                         else find_key k' (store c)) /\
    (forall r, o = Done r ->
       r = match find_key k (store c) with
           | Some (_, old) => if entry_live_at (expires_at old) t then Some (tvalue old) else None
           | None => None
           end).
Proof. apply set_lookup. Qed.

(** Round trip through time: a value set at time [t0] is read back by every equal key at any
    time [t1] before its deadline [t0 + ttl] - for ever, if the ttl is zero or the deadline is
    past the last representable instant - and never at or after it. *)
Theorem ttl_set_get k k' v c w t0 w1 r c' w' w2 t1 w3 : wf c -> keq k k' = true ->
  clock_now w = (t0, w1) -> cache_set k v (c, w) = (Done r, (c', w')) -> clock_now w2 = (t1, w3) ->
  let alive := ttl c = 0 \/ instant_max < t0 + ttl c \/ t1 < t0 + ttl c in
  (alive -> (cache_get k' (c', w2)).1 = Done (Some v)) /\
  (~ alive -> forall x, (cache_get k' (c', w2)).1 <> Done (Some x)).
Proof.
  intros D Hk E0 Es E1 alive. destruct (set_lookup k v c w t0 w1 D E0) as (o & c1 & w4 & E & _ & D' & _ & Hl & _).
  rewrite E in Es. simplify_eq. specialize (Hl k'). rewrite Hk in Hl.
  assert (entry_live_at (compute_expires_at (ttl c) t0) t1 = true <-> alive) as Ha.
  { unfold alive, entry_live_at, compute_expires_at, instant_checked_add.
    destruct (Z.eqb_spec (ttl c) 0); [tauto|]. destruct (Z.leb_spec (t0 + ttl c) instant_max); [|intuition].
    rewrite Z.ltb_lt. intuition lia. }
  rewrite (ttl_get_run k' c' w2 t1 w3 E1), Hl. unfold set_binding. simpl.
  split; intros Hx.
  - by rewrite (proj2 Ha Hx).
  - destruct (entry_live_at (compute_expires_at (ttl c) t0) t1) eqn:El; [by destruct Hx; apply Ha|].
    intros x. destruct (told c' _ v w3) as [[] ?]; done.
Qed.

(** A get-or-set, blocking or [async], whose factory panics (or is dropped at its await)
    changes nothing but the miss count: an expired entry it was about to replace is still there,
    is not counted as evicted and has not been handed to [on_evict]. *)
Theorem ttl_get_or_set_panic k f c w m :
  (forall w', exists w'', f w' = (None, w'')) ->
  m = cache_get_or_set_with_mut k f \/ m = async_cache_get_or_set_with_mut k f ->
  match find_key k (store c) with
  | Some (_, e) => entry_live_at (expires_at e) (clock_now w).1 = false
  | None => True
  end ->
  exists w', m (c, w) = (Unwind, (missed c, w')).
Proof.
  intros Hf Hm Hk. destruct (clock_now w) as [t w1] eqn:Et.
  destruct Hm as [-> | ->];
    unfold cache_get_or_set_with_mut, async_cache_get_or_set_with_mut, bind, self, gets, now, user; simpl;
    rewrite ?Et; simpl in *; (destruct (find_key k (store c)) as [[stored e]|]); simpl;
    rewrite ?Et; simpl; try rewrite Hk; simpl;
    match goal with |- context [f ?w0] => destruct (Hf w0) as (w2 & ->) end; by exists w2.
Qed.

(** The callback over a list of removed entries, in the outer world alone. *)
Definition tell_all c (l : list (K * TimedEntry V)) w : outcome unit * W :=
  let '(o, (_, w')) := for_each l (fun e => fun s : unit * W =>
    let '(o, w') := told c e.1 (tvalue e.2) s.2 in (o, (tt, w'))) (tt, w) in (o, w').

Lemma tell_all_run (l : list (K * TimedEntry V)) c w :
  for_each l (fun e => notify e.1 (tvalue e.2)) (c, w) = let '(o, w') := tell_all c l w in (o, (c, w')).
Proof.
  revert w. induction l as [|e l IH]; intros w; [done|]. unfold tell_all in *. cbn [for_each].
  unfold bind. rewrite notify_run. simpl. destruct (told c e.1 (tvalue e.2) w) as [[[]| |] w1]; [|done|done].
  apply IH.
Qed.

(** The cache after a sweep that removed [gone] and left [rest]. *)
Definition sweeps (gone rest : list (K * TimedEntry V)) c : TtlCache K V W :=
  let c' := with_store rest c in
  if decide (gone = []) then c'
  else with_evictions (fetch_add (evictions c) (Z.of_nat (length gone))) c'.

Lemma notify_evicted_run gone rest c w :
  notify_evicted gone (with_store rest c, w) =
    let '(o, w') := tell_all c gone w in
    (match o with Done _ => Done (length gone) | Unwind => Unwind | OutOfFuel => OutOfFuel end,
     (sweeps gone rest c, w')).
Proof.
  unfold notify_evicted, sweeps, bind. destruct (decide (gone = [])) as [->|Hn]; simpl; [done|].
  rewrite tell_all_run. assert (tell_all (with_evictions (fetch_add (evictions c) (Z.of_nat (length gone)))
    (with_store rest c)) gone w = tell_all c gone w) as -> by done.
  by destruct (tell_all c gone w) as [[[]| |] w'].
Qed.

(** [evict] removes exactly the entries whose deadline has passed at the one clock reading
    it takes, counts them all, and only then runs [on_evict] on each; so a panicking callback
    leaves no expired entry stored and none uncounted.  It returns how many it removed. *)
Theorem ttl_evict c w t w1 : clock_now w = (t, w1) ->
  let expired := fun e : K * TimedEntry V => negb (entry_live_at (expires_at e.2) t) in
  let gone := List.filter expired (store c) in
  let rest := List.filter (fun e => negb (expired e)) (store c) in
  evict (c, w) =
    let '(o, w') := tell_all c gone w1 in
    (match o with Done _ => Done (length gone) | Unwind => Unwind | OutOfFuel => OutOfFuel end,
     (sweeps gone rest c, w')).
Proof.
  intros E. unfold evict. unfold bind at 1, now. simpl. rewrite E.
  pose proof (take_doomed_run (fun _ e => Some (negb (entry_live_at (expires_at e) t)))
    (fun _ _ w => w) (store c) w1 ltac:(done)) as Ed.
  unfold bind at 1, take_doomed, zoom. simpl.
  unfold answers in Ed. rewrite Ed. cbn [fst snd]. unfold picks in *. simpl in *.
  rewrite foldl_same.
  apply notify_evicted_run.
Qed.

(** [retain] removes the expired entries and the entries its predicate rejects - it is not
    asked about expired ones - keeps the others in order, counts all it removed, then notifies;
    if the predicate panics nothing is removed, counted or notified. *)
Theorem ttl_retain p c w t w1 : clock_now w = (t, w1) ->
  let live := fun e : K * TimedEntry V => entry_live_at (expires_at e.2) t in
  let doomed := fun e => if live e then negb (default true (p e.1 (tvalue e.2))) else true in
  let gone := List.filter doomed (store c) in
  let rest := List.filter (fun e => negb (doomed e)) (store c) in
  ((forall e, e ∈ store c -> live e = true -> p e.1 (tvalue e.2) <> None) ->
   retain (fun k v w => (p k v, w)) (c, w) =
     let '(o, w') := tell_all c gone w1 in
     (match o with Done _ => Done (length gone) | Unwind => Unwind | OutOfFuel => OutOfFuel end,
      (sweeps gone rest c, w'))) /\
  (forall e, e ∈ store c -> live e = true -> p e.1 (tvalue e.2) = None ->
   exists w', retain (fun k v w => (p k v, w)) (c, w) = (Unwind, (c, w'))).
Proof.
  intros E live doomed gone rest.
  set (q := fun k e => if entry_live_at (expires_at e) t then negb <$> p k (tvalue e) else Some true).
  assert (forall s, Stores.take_doomed (fun key entry w =>
    if entry_live_at (expires_at entry) t
    then let '(b, w) := (p key (tvalue entry), w) in (negb <$> b, w) else (Some true, w)) s =
    Stores.take_doomed (answers q (fun _ _ w => w)) s) as Hq.
  { intros s. apply take_doomed_ext. intros k e w'. unfold answers, q.
    by destruct (entry_live_at (expires_at e) t). }
  assert (forall e, picks q e = doomed e) as Hp.
  { intros e. unfold picks, q, doomed, live. destruct (entry_live_at (expires_at e.2) t); [|done].
    by destruct (p e.1 (tvalue e.2)). }
  assert (retain (fun k v w => (p k v, w)) (c, w) =
    bind (zoom (fun s => (store s.1, s.2)) (fun p s => (with_store p.1 s.1, p.2))
      (Stores.take_doomed (answers q (fun _ _ w => w)))) notify_evicted (c, w1)) as ->.
  { unfold retain. unfold bind at 1, now. simpl. rewrite E. unfold bind, take_doomed, zoom. simpl.
    by rewrite Hq. }
  unfold bind, zoom. simpl. split.
  - intros Hk. rewrite take_doomed_run; simpl.
    + rewrite foldl_same, (filter_ext _ _ Hp), (filter_ext (fun e => negb (picks q e)) (fun e => negb (doomed e)))
        by (intros e; by rewrite Hp). apply notify_evicted_run.
    + intros e He. unfold q. specialize (Hk e He). unfold live in Hk.
      destruct (entry_live_at (expires_at e.2) t); [|done]. destruct (p e.1 (tvalue e.2)); [done|by destruct Hk].
  - intros e He Hl Hn. destruct (take_doomed_panic q (fun _ _ w => w) (store c) w1 e He) as (w' & E').
    { unfold q. unfold live in Hl. by rewrite Hl, Hn. }
    rewrite E'. exists w'. by destruct c.
Qed.
End Claims.

(** ** Witnesses *)
Module Demo.
Import Tick.

Definition blueprint : TtlCacheBuilder (K := TaggedKey.t) (V := Z) (W := Tick.t) :=
  builder_on_evict log (builder_ttl 50 builder).
Definition empty : TtlCache TaggedKey.t Z Tick.t := mkTtl [] 50 0 0 0 None false (Some log).

(** [k1] expires at 100, [k2] at 200, [k3] never. *)
Definition full : TtlCache TaggedKey.t Z Tick.t :=
  with_store [(k1, mkTimed (Some 100) 7); (k2, mkTimed (Some 200) 8); (k3, mkTimed None 9)] empty.

Lemma full_wf : wf full.
Proof. unfold wf. simpl. repeat split; repeat constructor. Qed.

Lemma ttl_get_witness :
  cache_get k1' (full, Tick.mk 100 []) =
    (Done None, (swept [(k2, mkTimed (Some 200) 8); (k3, mkTimed None 9)] (missed full),
                 Tick.mk 101 [(k1, 7)])).
Proof. rewrite (ttl_get k1' full _ _ _ (read 100 [])). reflexivity. Defined.

Lemma ttl_calls_witness :
  Forall (fun o => o = Done tt \/ (o = Unwind /\ False))
    (runs run [Set_ unit k1 7; GetMut unit k1' Z.succ; AsyncGetOrSet unit k2 (fun w => (Some 5, w)) Z.succ; Evict unit]
       (empty, Tick.mk 0 [])).1.
Proof.
  apply (ttl_calls False blueprint empty); [done| |].
  - right. intros k v w. by eexists _, _.
  - repeat apply Forall_cons_2; try done. right. apply total_pure.
Defined.

Lemma ttl_set_witness : exists o c' w',
  cache_set k1' 70 (full, Tick.mk 100 []) = (o, (c', w')) /\
  find_key k1 (store c') = Some (k1, mkTimed (Some 150) 70).
Proof.
  destruct (ttl_set k1' 70 full _ _ _ full_wf (read 100 []))
    as (o & c' & w' & E & _ & _ & _ & H & _).
  exists o, c', w'. split; [exact E|]. rewrite H. reflexivity.
Defined.

Lemma ttl_set_get_witness : exists c' w',
  cache_set k2 80 (full, Tick.mk 100 []) = (Done (Some 8), (c', w')) /\
  (cache_get k2 (c', Tick.mk 149 [])).1 = Done (Some 80).
Proof.
  destruct (cache_set k2 80 (full, Tick.mk 100 [])) as [o [c' w']] eqn:E. exists c', w'.
  assert (o = Done (Some 8)) as -> by (apply (f_equal fst) in E; vm_compute in E; by rewrite <- E).
  split; [done|].
  apply (ttl_set_get k2 k2 80 full _ _ _ (Some 8) c' w' _ _ _ full_wf (keq_refl k2) (read 100 []) E (read 149 [])).
  right. right. done.
Defined.

Lemma ttl_get_or_set_panic_witness : exists w',
  cache_get_or_set_with_mut k1 (fun w => (None, w)) (full, Tick.mk 100 []) = (Unwind, (missed full, w')).
Proof.
  apply (ttl_get_or_set_panic k1 (fun w => (None, w)) full (Tick.mk 100 [])); [|by left|done].
  intros w'. by exists w'.
Defined.

Lemma ttl_evict_witness :
  (evict (full, Tick.mk 150 [])).1 = Done 1%nat.
Proof. rewrite (ttl_evict full _ _ _ (read 150 [])). reflexivity. Defined.

Lemma ttl_retain_witness :
  (retain (fun k v w => (Some (Z.even v), w)) (full, Tick.mk 100 [])).1 = Done 2%nat.
Proof.
  destruct (ttl_retain (fun _ v => Some (Z.even v)) full _ _ _ (read 100 [])) as [H _].
  rewrite H by done. reflexivity.
Defined.
End Demo.
