(* ===== verification/LruTtl.v ===== *)
(** * The LRU store with a global time-to-live ([src/stores/lru_ttl.rs])

    [LruTtlCache] keeps deadlines in the entries of an inner [LruCache] and its own counters.
    A [&mut V] is a slot of the inner slab. *)
From Stdlib Require Import String.
From S2P Require Import Prelude Keys Stores LruList HashTable Lru.
#[local] Close Scope string_scope.

(** ** The locals that the closures passed to the inner store capture

    [misses] is the wrapper's counter, [hit_at] the clock reading taken by the validity
    closure. *)
Record Frame (W : Type) : Type := mkFrame { f_misses : Z; f_hit_at : option Z; f_world : W }.
Arguments mkFrame {W} _ _ _.
Arguments f_misses {W} _.
Arguments f_hit_at {W} _.
Arguments f_world {W} _.

#[global] Instance frame_world W : World (Frame W) W := {|
  world_of := f_world;
  put_world := fun w f => mkFrame (f_misses f) (f_hit_at f) w |}.

Section LruTtlCache.
Context {K V W HT : Type} `{!KeyEq K, !Clock W, !HashTable HT}.

Record LruTtlCache : Type := mkLruTtl {
  store : LruCache K (TimedEntry V) W HT;
  size : Z;
  ttl : Z;
  hits : Z;
  misses : Z;
  evictions : Z;
  refresh : bool;
  on_evict : OnEvict K V W }.

Definition with_store (t : LruCache K (TimedEntry V) W HT) (c : LruTtlCache) : LruTtlCache :=
  mkLruTtl t (size c) (ttl c) (hits c) (misses c) (evictions c) (refresh c) (on_evict c).
Definition with_size (n : Z) (c : LruTtlCache) : LruTtlCache :=
  mkLruTtl (store c) n (ttl c) (hits c) (misses c) (evictions c) (refresh c) (on_evict c).
Definition with_ttl (n : Z) (c : LruTtlCache) : LruTtlCache :=
  mkLruTtl (store c) (size c) n (hits c) (misses c) (evictions c) (refresh c) (on_evict c).
Definition with_hits (n : Z) (c : LruTtlCache) : LruTtlCache :=
  mkLruTtl (store c) (size c) (ttl c) n (misses c) (evictions c) (refresh c) (on_evict c).
Definition with_misses (n : Z) (c : LruTtlCache) : LruTtlCache :=
  mkLruTtl (store c) (size c) (ttl c) (hits c) n (evictions c) (refresh c) (on_evict c).
Definition with_evictions (n : Z) (c : LruTtlCache) : LruTtlCache :=
  mkLruTtl (store c) (size c) (ttl c) (hits c) (misses c) n (refresh c) (on_evict c).
Definition with_refresh (b : bool) (c : LruTtlCache) : LruTtlCache :=
  mkLruTtl (store c) (size c) (ttl c) (hits c) (misses c) (evictions c) b (on_evict c).
Definition with_on_evict (f : OnEvict K V W) (c : LruTtlCache) : LruTtlCache :=
  mkLruTtl (store c) (size c) (ttl c) (hits c) (misses c) (evictions c) (refresh c) f.

Definition Op (A : Type) : Type := ST (LruTtlCache * W) A.
Definition self : Op LruTtlCache := gets fst.
Definition set_self (f : LruTtlCache -> LruTtlCache) : Op unit := modify (fun s => (f s.1, s.2)).

(** A call of the inner store. *)
Definition inner {A} (m : Lru.Op K (TimedEntry V) W W HT A) : Op A :=
  zoom (fun s => (store s.1, s.2)) (fun p s => (with_store p.1 s.1, p.2)) m.

(** A call of the inner store with closures over [misses] and [hit_at]; the final [hit_at] is
    part of the result. *)
Definition framed {A} (m : Lru.Op K (TimedEntry V) W (Frame W) HT A) : Op (A * option Z) := fun s =>
  let '(o, (t, f)) := m (store s.1, mkFrame (misses s.1) None s.2) in
  let s' := (with_misses (f_misses f) (with_store t s.1), f_world f) in
  match o with
  | Done a => (Done (a, f_hit_at f), s')
  | Unwind => (Unwind, s')
  | OutOfFuel => (OutOfFuel, s')
  end.

Definition count_hit : Op unit := set_self (fun c => with_hits (fetch_add (hits c) 1) c).
Definition count_miss : Op unit := set_self (fun c => with_misses (fetch_add (misses c) 1) c).
Definition count_evictions (n : Z) : Op unit :=
  set_self (fun c => with_evictions (fetch_add (evictions c) n) c).
Definition notify (k : K) (v : V) : Op unit :=
  let! c := self in match on_evict c with Some f => user (f k v) | None => ret tt end.

(** [self.store.order.get_mut(index).1.expires_at = e] *)
Definition set_expiry (index : nat) (e : option Z) : Op unit :=
  let! c := self in
  let! p := of_outcome (get (order (store c)) index) in
  inner (on_order (write index (p.1, mkTimed e (tvalue p.2)))).

Definition clone (c : LruTtlCache) : LruTtlCache :=
  mkLruTtl (Lru.clone (store c)) (size c) (ttl c) (hits c) (misses c) (evictions c) (refresh c) (on_evict c).

(** ** Construction *)

Record LruTtlCacheBuilder : Type := mkBuilder {
  b_size : option Z; b_ttl : option Z; b_refresh : bool; b_on_evict : OnEvict K V W }.

Definition builder : LruTtlCacheBuilder := mkBuilder None None false None.
Definition builder_max_size (n : Z) (b : LruTtlCacheBuilder) :=
  mkBuilder (Some n) (b_ttl b) (b_refresh b) (b_on_evict b).
Definition builder_ttl (t : Z) (b : LruTtlCacheBuilder) :=
  mkBuilder (b_size b) (Some t) (b_refresh b) (b_on_evict b).
Definition builder_ttl_secs (secs : Z) (b : LruTtlCacheBuilder) := builder_ttl (from_secs secs) b.
Definition builder_ttl_millis (millis : Z) (b : LruTtlCacheBuilder) := builder_ttl (from_millis millis) b.
Definition builder_refresh_on_hit (r : bool) (b : LruTtlCacheBuilder) :=
  mkBuilder (b_size b) (b_ttl b) r (b_on_evict b).
Definition builder_on_evict (f : K -> V -> User W unit) (b : LruTtlCacheBuilder) :=
  mkBuilder (b_size b) (b_ttl b) (b_refresh b) (Some f).

Definition new_internal (try_reserve_exact : Z -> bool) (size ttl : Z) (refresh : bool) :
    result BuildError LruTtlCache :=
  match Lru.build try_reserve_exact (Lru.builder_max_size size Lru.builder) with
  | Err e => Err e
  | Ok store => Ok (mkLruTtl (disable_hit_miss_tracking store) size ttl 0 0 0 refresh None)
  end.

(** The inner store's callback forwards the value to the user's. *)
Definition forward (f : K -> V -> User W unit) (k : K) (entry : TimedEntry V) : User W unit :=
  f k (tvalue entry).

Definition with_inner_on_evict (f : OnEvict K (TimedEntry V) W) (t : LruCache K (TimedEntry V) W HT) :=
  mkLru (Lru.store t) (order t) (Lru.capacity t) (Lru.hits t) (Lru.misses t) (Lru.evictions t) f
    (track_hit_miss t).

Definition sync_on_evict (c : LruTtlCache) : LruTtlCache :=
  match on_evict c with
  | Some f => with_store (with_inner_on_evict (Some (forward f)) (store c)) c
  | None => c
  end.

(** [LruTtlCacheBuilder::build], with and without a callback. *)
Definition build (try_reserve_exact : Z -> bool) (b : LruTtlCacheBuilder) : result BuildError LruTtlCache :=
  match b_size b with
  | None => Err (MissingRequired "max_size")
  | Some size =>
      match b_ttl b with
      | None => Err (MissingRequired "ttl")
      | Some ttl =>
          match validate_ttl ttl with
          | Err e => Err e
          | Ok _ =>
              match new_internal try_reserve_exact size ttl (b_refresh b) with
              | Err e => Err e
              | Ok c =>
                  match b_on_evict b with
                  | None => Ok c
                  | Some f => Ok (sync_on_evict (with_on_evict (Some f) c))
                  end
              end
          end
      end
  end.

Definition new (try_reserve_exact : Z -> bool) (max_size ttl : Z) : outcome LruTtlCache :=
  match build try_reserve_exact (builder_ttl ttl (builder_max_size max_size builder)) with
  | Ok c => Done c
  | Err _ => Unwind
  end.

(** ** Helpers *)

Definition entry_live (expires_at : option Z) : Op bool :=
  match expires_at with
  | None => ret true
  | Some t => let! n := now in ret (n <? t)
  end.

Definition set_entry (key : K) (entry : TimedEntry V) (now : Z) : Op (option V) :=
  let! r := inner (cache_set_returning_entry key entry) in
  match r with
  | Some (stored_key, old) =>
      if entry_live_at (expires_at old) now then ret (Some (tvalue old))
      else count_evictions 1 ;; notify stored_key (tvalue old) ;; ret None
  | None => ret None
  end.

(** ** Order views: one clock reading each *)

Definition live_order (n : Z) : Op (list (K * TimedEntry V)) :=
  let! c := self in
  let! l := of_outcome (iter (order (store c))) in
  ret (List.filter (fun e => entry_live_at (expires_at e.2) n) l).

Definition iter_order : Op (list (K * CacheValue V (option Z))) :=
  let! n := now in
  let! l := live_order n in
  ret ((fun e => (e.1, mkCacheValue (tvalue e.2) (expires_at e.2))) <$> l).

Definition key_order : Op (list K) :=
  let! n := now in let! l := live_order n in ret (fst <$> l).

Definition value_order : Op (list (CacheValue V (option Z))) :=
  let! n := now in
  let! l := live_order n in
  ret ((fun e => mkCacheValue (tvalue e.2) (expires_at e.2)) <$> l).

Definition capacity (c : LruTtlCache) : Z := size c.

Definition set_max_size (max_size : Z) : Op (option Z) :=
  if max_size <=? 0 then unwind else
  let! prev := inner (Lru.set_max_size max_size) in
  set_self (fun c => with_size (Lru.capacity (store c)) c) ;;
  ret prev.

Definition try_set_max_size (max_size : Z) : Op (result SetMaxSizeError (option Z)) :=
  if max_size =? 0 then ret (Err ZeroMaxSize) else
  let! r := set_max_size max_size in ret (Ok r).

(** ** Sweeps *)

Definition doomed_indices (doomed : K -> TimedEntry V -> User W bool) : Op (list nat) :=
  let! c := self in
  let! ids := of_outcome (iter_indices (order (store c))) in
  filter_each ids (fun i =>
    let! e := of_outcome (get (order (store c)) i) in
    user (doomed e.1 e.2)).

Definition remove_and_notify (doomed : list nat) : Op nat :=
  let! removed := map_each doomed (fun index => inner (remove_index index)) in
  (if decide (removed = []) then ret tt else count_evictions (Z.of_nat (length removed))) ;;
  for_each removed (fun e => notify e.1 (tvalue e.2)) ;;
  ret (length removed).

Definition evict : Op nat :=
  let! n := now in
  let! doomed := doomed_indices (fun _ entry w => (Some (negb (entry_live_at (expires_at entry) n)), w)) in
  remove_and_notify doomed.

Definition retain (keep : K -> V -> User W bool) : Op nat :=
  let! n := now in
  let! doomed := doomed_indices (fun key entry w =>
    if entry_live_at (expires_at entry) n then
      let '(b, w) := keep key (tvalue entry) w in (negb <$> b, w)
    else (Some true, w)) in
  remove_and_notify doomed.

Definition cache_clear_with_on_evict : Op unit :=
  let! removed := inner drain_all in
  let count := Z.of_nat (length removed) in
  (if 0 <? count then count_evictions count else ret tt) ;;
  for_each removed (fun e => notify e.1 (tvalue e.2)).

(** ** [Cached] *)

(** The part of a hit that follows the liveness check. *)
Definition touch (index : nat) (n : Z) : Op unit :=
  inner (on_order (move_to_front index)) ;;
  count_hit ;;
  let! c := self in
  if refresh c then
    let! e := of_outcome (get (order (store c)) index) in
    set_expiry index (refreshed_expires_at (ttl c) n (expires_at e.2))
  else ret tt.

(** The lazy sweep of an expired entry. *)
Definition sweep (h : Z) (key : K) : Op unit :=
  count_miss ;;
  let! r := inner (pop_raw_with_hash h key) in
  match r with
  | Some (k, entry) => count_evictions 1 ;; notify k (tvalue entry)
  | None => ret tt
  end.

Definition cache_get (key : K) : Op (option V) :=
  let! c := self in
  let h := hash key in
  let! i := of_outcome (get_index (store c) h key) in
  match i with
  | Some index =>
      let! n := now in
      let! e := of_outcome (get (order (store c)) index) in
      if entry_live_at (expires_at e.2) n then
        touch index n ;;
        let! c := self in
        let! e := of_outcome (get (order (store c)) index) in
        ret (Some (tvalue e.2))
      else sweep h key ;; ret None
  | None => count_miss ;; ret None
  end.

Definition cache_get_mut (key : K) : Op (option nat) :=
  let! c := self in
  let h := hash key in
  let! i := of_outcome (get_index (store c) h key) in
  match i with
  | Some index =>
      let! n := now in
      let! e := of_outcome (get (order (store c)) index) in
      if entry_live_at (expires_at e.2) n then
        touch index n ;;
        let! c := self in
        let! _ := of_outcome (get (order (store c)) index) in
        ret (Some index)
      else sweep h key ;; ret None
  | None => count_miss ;; ret None
  end.

(** [misses.fetch_add(1)] inside the setter. *)
Definition frame_miss (f : Frame W) : Frame W :=
  mkFrame (fetch_add (f_misses f) 1) (f_hit_at f) (f_world f).

(** [|entry| entry_live_at(entry.expires_at, *hit_at.insert(Instant::now()))] *)
Definition is_valid (entry : TimedEntry V) : User (Frame W) bool := fun f =>
  let '(n, w) := clock_now (f_world f) in
  (Some (entry_live_at (expires_at entry) n), mkFrame (f_misses f) (Some n) w).

Definition setter (ttl : Z) (f : User W V) : User (Frame W) (TimedEntry V) := fun fr =>
  let fr := frame_miss fr in
  match lift_user f fr with
  | (Some v, fr) =>
      let '(n, w) := clock_now (f_world fr) in
      (Some (mkTimed (compute_expires_at ttl n) v), mkFrame (f_misses fr) (f_hit_at fr) w)
  | (None, fr) => (None, fr)
  end.

Definition try_setter {E} (ttl : Z) (f : User W (result E V)) : User (Frame W) (result E (TimedEntry V)) :=
  fun fr =>
  let fr := frame_miss fr in
  match lift_user f fr with
  | (Some (Ok v), fr) =>
      let '(n, w) := clock_now (f_world fr) in
      (Some (Ok (mkTimed (compute_expires_at ttl n) v)), mkFrame (f_misses fr) (f_hit_at fr) w)
  | (Some (Err e), fr) => (Some (Err e), fr)
  | (None, fr) => (None, fr)
  end.

(** What the get-or-set methods do with the inner store's answer. *)
Definition settle (r : GetOrSetOutcome (K := K) (V := TimedEntry V)) (hit_at : option Z) : Op nat :=
  let '(was_present, was_valid, old_entry, index) := r in
  (if was_present && was_valid then
     let! c := self in
     (if refresh c then
        let! n := match hit_at with Some n => ret n | None => now end in
        let! e := of_outcome (get (order (store c)) index) in
        set_expiry index (refreshed_expires_at (ttl c) n (expires_at e.2))
      else ret tt) ;;
     count_hit
   else
     match old_entry with
     | Some (old_key, old) => count_evictions 1 ;; notify old_key (tvalue old)
     | None => ret tt
     end) ;;
  ret index.

Definition cache_get_or_set_with_mut (key : K) (f : User W V) : Op nat :=
  let! c := self in
  let! (r, hit_at) := framed (get_or_set_with_if key (setter (ttl c) f) is_valid) in
  settle r hit_at.

Definition cache_try_get_or_set_with_mut {E} (key : K) (f : User W (result E V)) : Op (result E nat) :=
  let! c := self in
  let! (r, hit_at) := framed (try_get_or_set_with_if key (try_setter (ttl c) f) is_valid) in
  match r with
  | Err e => ret (Err e)
  | Ok r => let! index := settle r hit_at in ret (Ok index)
  end.

Definition cache_set (key : K) (val : V) : Op (option V) :=
  let! n := now in
  let! c := self in
  set_entry key (mkTimed (compute_expires_at (ttl c) n) val) n.

Definition cache_remove (k : K) : Op (option V) :=
  let! r := inner (pop_raw k) in
  match r with
  | Some (stored_k, entry) =>
      let! live := entry_live (expires_at entry) in
      count_evictions 1 ;;
      notify stored_k (tvalue entry) ;;
      ret (if live then Some (tvalue entry) else None)
  | None => ret None
  end.

Definition cache_remove_entry (k : K) : Op (option (K * V)) :=
  let! r := inner (pop_raw k) in
  match r with
  | Some (stored_k, entry) =>
      count_evictions 1 ;;
      notify stored_k (tvalue entry) ;;
      ret (Some (stored_k, tvalue entry))
  | None => ret None
  end.

Definition cache_clear : Op unit := inner Lru.cache_clear.

Definition cache_reset (try_reserve_exact : Z -> bool) : Op unit :=
  inner (Lru.cache_reset try_reserve_exact) ;;
  set_self (with_hits 0) ;; set_self (with_misses 0) ;; set_self (with_evictions 0).

Definition cache_reset_metrics : Op unit :=
  set_self (with_misses 0) ;; set_self (with_hits 0) ;; set_self (with_evictions 0) ;;
  inner Lru.cache_reset_metrics.

Definition cache_size (c : LruTtlCache) : Z := Lru.cache_size (store c).

(** The sum of the two counters; [+] on [u64] panics on overflow in a checked build. *)
Definition cache_evictions (c : LruTtlCache) : outcome (option Z) :=
  match checked_add (evictions c) (Lru.evictions (store c)) with
  | Some n => Done (Some n)
  | None => Unwind
  end.

Definition cache_capacity (c : LruTtlCache) : option Z := Some (size c).

Definition cache_peek (k : K) : Op (option V) :=
  let! c := self in
  let! r := of_outcome (Lru.cache_peek (store c) k) in
  match r with
  | Some entry =>
      let! live := entry_live (expires_at entry) in
      ret (if live then Some (tvalue entry) else None)
  | None => ret None
  end.

Definition cache_contains (k : K) : Op bool :=
  let! v := cache_peek k in ret (match v with Some _ => true | None => false end).

(** [CachedIter::iter], collected: a clock reading per entry with a deadline. *)
Definition iter_live : Op (list (K * V)) :=
  let! c := self in
  let! l := of_outcome (iter (order (store c))) in
  let! live := filter_each l (fun e => entry_live (expires_at e.2)) in
  ret ((fun e => (e.1, tvalue e.2)) <$> live).

(** ** [CacheTtl], [CacheRefreshOnHit], [CloneCached] *)

Definition get_ttl (c : LruTtlCache) : option Z := if ttl c =? 0 then None else Some (ttl c).

Definition set_ttl (t : Z) : Op (option Z) :=
  let! c := self in
  set_self (with_ttl t) ;;
  ret (if ttl c =? 0 then None else Some (ttl c)).

Definition unset_ttl : Op (option Z) :=
  let! c := self in
  set_self (with_ttl 0) ;;
  ret (if ttl c =? 0 then None else Some (ttl c)).

Definition set_refresh_on_hit (b : bool) : Op bool :=
  let! c := self in
  set_self (with_refresh b) ;;
  ret (refresh c).

Definition cache_get_with_expiry_status (k : K) : Op (option V * bool) :=
  let! c := self in
  let! i := of_outcome (get_index (store c) (hash k) k) in
  match i with
  | Some index =>
      let! n := now in
      let! e := of_outcome (get (order (store c)) index) in
      if entry_live_at (expires_at e.2) n then
        touch index n ;;
        let! c := self in
        let! e := of_outcome (get (order (store c)) index) in
        ret (Some (tvalue e.2), false)
      else
        count_miss ;;
        let! e := of_outcome (get (order (store c)) index) in
        ret (Some (tvalue e.2), true)
  | None => count_miss ;; ret (None, false)
  end.

Definition cache_peek_with_expiry_status (k : K) : Op (option V * bool) :=
  let! c := self in
  let! r := of_outcome (Lru.cache_peek (store c) k) in
  match r with
  | Some entry =>
      let! live := entry_live (expires_at entry) in
      ret (Some (tvalue entry), negb live)
  | None => ret (None, false)
  end.

(** ** The [async] variants *)

Definition async_cache_get_or_set_with_mut (key : K) (f : User W V) : Op nat :=
  let! c := self in
  let! (r, hit_at) := framed (get_or_set_with_if_async key (setter (ttl c) f) is_valid) in
  settle r hit_at.

Definition async_cache_try_get_or_set_with_mut {E} (key : K) (f : User W (result E V)) :
    Op (result E nat) :=
  let! c := self in
  let! (r, hit_at) := framed (try_get_or_set_with_if_async key (try_setter (ttl c) f) is_valid) in
  match r with
  | Err e => ret (Err e)
  | Ok r => let! index := settle r hit_at in ret (Ok index)
  end.
End LruTtlCache.
Arguments LruTtlCache : clear implicits.
Arguments Op : clear implicits.
