(* ===== verification/LruTtlProps.v ===== *)
(** * The properties of the LRU store with a time-to-live

    The wrapper's state is read through the abstract view of its inner [LruCache]. *)
From Stdlib Require Import String.
From S2P Require Import Prelude Keys Stores LruList HashTable Lru LruSpec LruRefine LruTtl.
#[local] Close Scope string_scope.

Section Lift.
Context {K V W HT : Type} `{!KeyEq K, !KeyLaws K, !Clock W, !HashTable HT, !HashTableLaws HT}.
Implicit Types (c : LruTtlCache K V W HT) (a : View K (TimedEntry V) W) (k : K) (v : V) (w : W).

(** The inner store is well formed and holds [a]; it does not count hits and misses, and it
    forwards its evictions to the user's callback. *)
Definition holds c a : Prop :=
  models (store c) a /\ vtrack a = false /\ von_evict a = forward <$> on_evict c.

(** The wrapper but for its inner store, when only that may change. *)
Definition same_frame c c' : Prop := c' = with_store (store c') c.

Lemma bind_cache {B} (f : LruTtlCache K V W HT -> Op K V W HT B) c w : bind self f (c, w) = f c (c, w).
Proof. done. Qed.
Lemma bind_set_cache {B} f (g : unit -> Op K V W HT B) c w : bind (set_self f) g (c, w) = g tt (f c, w).
Proof. done. Qed.
Lemma bind_now {B} (f : Z -> Op K V W HT B) c w t w1 : clock_now w = (t, w1) ->
  bind now f (c, w) = f t (c, w1).
Proof. intros E. unfold bind, now. simpl. by rewrite E. Qed.

(** An inner call whose run is known. *)
Lemma inner_run {A} (m : Lru.Op K (TimedEntry V) W W HT A) c w r t w' :
  m (store c, w) = (r, (t, w')) -> inner m (c, w) = (r, (with_store t c, w')).
Proof. intros E. unfold inner, zoom. simpl. by rewrite E. Qed.

(** An inner call that refines its specification. *)
Lemma inner_wp {A} (m : Lru.Op K (TimedEntry V) W W HT A) (sm : Spec K (TimedEntry V) W W A)
    (Q : A -> View K (TimedEntry V) W * W -> Prop) U c a w :
  refines Rel m sm -> models (store c) a -> wp sm Q U (a, w) ->
  wp (inner m)
    (fun r s => exists t a', s.1 = with_store t c /\ models t a' /\ Q r (a', s.2))
    (fun s => exists t a', s.1 = with_store t c /\ models t a' /\ U (a', s.2)) (c, w).
Proof.
  intros HR HM Hw. pose proof (agree_wp _ _ _ _ _ _ _ (HR (store c, w) (a, w) (conj eq_refl HM)) Hw) as H.
  apply wp_zoom. eapply wp_mono; [exact H| |]; simpl.
  - intros r [t w'] ([a' w2] & [Ew HM'] & HQ). simpl in *. subst w2. eauto 10.
  - intros [t w'] ([a' w2] & [Ew HM'] & HQ). simpl in *. subst w2. eauto 10.
Qed.

(** The callback, in the outer world alone. *)
Definition told c k v w : outcome unit * W :=
  match on_evict c with
  | Some f => match f k v w with (Some _, w') => (Done tt, w') | (None, w') => (Unwind, w') end
  | None => (Done tt, w)
  end.

Lemma lt_notify_run k v c w : notify k v (c, w) = let '(o, w') := told c k v w in (o, (c, w')).
Proof.
  unfold notify, told, bind, self, gets, user. simpl. destruct (on_evict c) as [f|]; [|done].
  unfold user. simpl. by destruct (f k v w) as [[[]|] w'].
Qed.

Definition unit_to {A} (o : outcome unit) (a : A) : outcome A :=
  match o with Done _ => Done a | Unwind => Unwind | OutOfFuel => OutOfFuel end.

Lemma holds_put c a t l : holds c a -> models t (put_entries l a) -> holds (with_store t c) (put_entries l a).
Proof. intros (_ & H1 & H2) H. done. Qed.

(** Setting the deadline of the front entry. *)
Lemma set_expiry_run c a i k e occ fre w d : models_at (store c) a ((i, (k, e)) :: occ) fre ->
  exists t, set_expiry i d (c, w) = (Done tt, (with_store t c, w)) /\
    models_at t (put_entries ((k, mkTimed d (tvalue e)) :: occ.*2) a) ((i, (k, mkTimed d (tvalue e))) :: occ) fre.
Proof.
  intros HA. destruct (step_write (store c) a [] i (k, e) occ fre (k, mkTimed d (tvalue e)) w HA)
    as (t & E & HA'); [apply keq_refl|]. exists t. split; [|exact HA'].
  unfold set_expiry. rewrite bind_cache, (bind_of_outcome _ _ _ _ (slot_get_front _ _ _ _ _ _ HA)).
  by apply inner_run.
Qed.

(** What a hit at time [n] does: the entry moves to the front, with a new deadline if the
    cache refreshes. *)
Definition renewed c (e : TimedEntry V) (n : Z) : TimedEntry V :=
  if refresh c then mkTimed (refreshed_expires_at (ttl c) n (expires_at e)) (tvalue e) else e.

Definition hit c : LruTtlCache K V W HT := with_hits (fetch_add (hits c) 1) c.
Definition missed c : LruTtlCache K V W HT := with_misses (fetch_add (misses c) 1) c.
Definition counted n c : LruTtlCache K V W HT := with_evictions (fetch_add (evictions c) n) c.

Lemma touch_run c a xs i k e ys fre w n : models_at (store c) a (xs ++ (i, (k, e)) :: ys) fre ->
  exists t, touch i n (c, w) = (Done tt, (with_store t (hit c), w)) /\
    models_at t (put_entries ((k, renewed c e n) :: (xs ++ ys).*2) a) ((i, (k, renewed c e n)) :: xs ++ ys) fre.
Proof.
  intros HA. destruct (step_promote (store c) a xs i (k, e) ys fre w HA) as (t & E & HA1).
  unfold touch. rewrite (bind_run _ _ _ _ _ (inner_run _ _ _ _ _ _ E)).
  unfold count_hit. rewrite bind_set_cache, bind_cache. simpl. unfold renewed.
  destruct (refresh c) eqn:Er.
  - rewrite (bind_of_outcome _ _ _ _ (slot_get_front _ _ _ _ _ _ HA1)). simpl.
    destruct (set_expiry_run (with_hits (fetch_add (hits c) 1) (with_store t c)) _ i k e (xs ++ ys) fre w
      (refreshed_expires_at (ttl c) n (expires_at e)) HA1) as (t' & E' & HA2).
    exists t'. split; [exact E'|exact HA2].
  - exists t. split; [done|exact HA1].
Qed.

(** Removal of the inner store, run. *)
Lemma pop_run k (c : LruCache K (TimedEntry V) W HT) a w : models c a ->
  exists t, pop_raw k (c, w) = (Done (find_key k (entries a)), (t, w)) /\
    models t (put_entries (drop_key k (entries a)) a).
Proof.
  intros HM. pose proof (pop_raw_refines k (c, w) (a, w) (conj eq_refl HM)) as [HR Hr].
  unfold s_pop in HR, Hr. rewrite bind_s_self in HR, Hr. unfold find_key, drop_key.
  destruct (pop_raw k (c, w)) as [o [t w']].
  destruct (take_key k (entries a)) as [[e r]|]; simpl in *; destruct HR as [Ew HM'], o; try done;
    simplify_eq/=; exists t; (split; [done|]); [done|by destruct a].
Qed.

(** The lookup both sides agree on. *)
Lemma lookup c a k : models (store c) a ->
  (exists xs i stored e ys fre, models_at (store c) a (xs ++ (i, (stored, e)) :: ys) fre /\
     get_index (store c) (hash k) k = Done (Some i) /\
     find_key k (entries a) = Some (stored, e) /\ drop_key k (entries a) = (xs ++ ys).*2) \/
  (find_key k (entries a) = None /\ get_index (store c) (hash k) k = Done None).
Proof.
  intros HM. destruct (get_index_found (store c) a k HM) as (oi & E & F). unfold find_key, drop_key.
  inversion F as [xs i [stored e] ys fre HA Hk E1 E2|occ fre HA Hf E1 E2]; subst oi.
  - left. exists xs, i, stored, e, ys, fre. split_and!; done.
  - right. done.
Qed.

Lemma sweep_run c a k w stored e : holds c a -> find_key k (entries a) = Some (stored, e) ->
  exists t, sweep (hash k) k (c, w) =
      (let '(o, w2) := told c stored (tvalue e) w in (o, (with_store t (counted 1 (missed c)), w2))) /\
    holds (with_store t (counted 1 (missed c))) (put_entries (drop_key k (entries a)) a).
Proof.
  intros (HM & H1 & H2) Ef. destruct (pop_run k (store c) a w HM) as (t & E & HM').
  exists t. split; [|done]. unfold sweep, count_miss. rewrite bind_set_cache.
  rewrite (bind_run _ _ _ _ _ (inner_run (pop_raw k) (missed c) _ _ _ _ E)), Ef.
  unfold count_evictions. rewrite bind_set_cache, lt_notify_run. unfold told. done.
Qed.

(** [cache_get] on every branch. *)
Lemma lt_get_run k c a w t w1 : holds c a -> clock_now w = (t, w1) ->
  match find_key k (entries a) with
  | None => cache_get k (c, w) = (Done None, (missed c, w)) /\ holds (missed c) a
  | Some (stored, e) =>
      if entry_live_at (expires_at e) t then
        exists s, cache_get k (c, w) = (Done (Some (tvalue e)), (with_store s (hit c), w1)) /\
          holds (with_store s (hit c))
            (put_entries ((stored, renewed c e t) :: drop_key k (entries a)) a)
      else
        exists s, cache_get k (c, w) =
            (let '(o, w2) := told c stored (tvalue e) w1 in
             (unit_to o None, (with_store s (counted 1 (missed c)), w2))) /\
          holds (with_store s (counted 1 (missed c))) (put_entries (drop_key k (entries a)) a)
  end.
Proof.
  intros HH E. pose proof HH as (HM & H1 & H2).
  destruct (lookup c a k HM) as [(xs & i & stored & e & ys & fre & HA & Ei & Ef & Ed)|[Ef Ei]];
    rewrite Ef; unfold cache_get; rewrite bind_cache, (bind_of_outcome _ _ _ _ Ei).
  - rewrite (bind_now _ _ _ _ _ E), (bind_of_outcome _ _ _ _ (slot_get _ _ _ _ _ _ _ HA)). simpl.
    destruct (entry_live_at (expires_at e) t).
    + destruct (touch_run c a xs i stored e ys fre w1 t HA) as (s & Et & HA1).
      rewrite (bind_run _ _ _ _ _ Et), bind_cache.
      rewrite (bind_of_outcome _ _ _ _ (slot_get_front _ _ _ _ _ _ HA1)). exists s.
      split; [by unfold renewed; destruct (refresh c)|]. rewrite Ed.
      split; [by eapply models_intro|done].
    + destruct (sweep_run c a k w1 stored e HH Ef) as (s & Es & HH'). exists s. split; [|done].
      unfold bind at 1. rewrite Es. by destruct (told c stored (tvalue e) w1) as [[[]| |] w2].
  - split; [done|]. by split.
Qed.

(** [LruTtlCache::cache_get] never returns an expired value.  An absent key is a plain miss
    and does not read the clock; a live entry is counted, moves to the front (with a renewed
    deadline if the cache refreshes on hit) and is returned; an expired one is removed from the
    store and counted before [on_evict] gets its stored key and value. *)
Theorem lruttl_get k c a w t w1 : holds c a -> clock_now w = (t, w1) ->
  match find_key k (entries a) with
  | None => cache_get k (c, w) = (Done None, (missed c, w)) /\ holds (missed c) a
  | Some (stored, e) =>
      if entry_live_at (expires_at e) t then
        exists s, cache_get k (c, w) = (Done (Some (tvalue e)), (with_store s (hit c), w1)) /\
          holds (with_store s (hit c))
            (put_entries ((stored, renewed c e t) :: drop_key k (entries a)) a)
      else
        exists s, cache_get k (c, w) =
            (let '(o, w2) := told c stored (tvalue e) w1 in
             (unit_to o None, (with_store s (counted 1 (missed c)), w2))) /\
          holds (with_store s (counted 1 (missed c))) (put_entries (drop_key k (entries a)) a)
  end.
Proof. apply lt_get_run. Qed.

Lemma wp_lt_notify k v c w (Q : unit -> LruTtlCache K V W HT * W -> Prop) U :
  (forall w', Q tt (c, w')) -> (forall w', U (c, w')) -> wp (notify k v) Q U (c, w).
Proof.
  intros HQ HU. unfold notify. apply wp_bind, wp_gets. apply (wp_callback True); auto.
Qed.

(** [cache_set], on return and on unwind. *)
Lemma lt_set_wp k v c a w t w1 : holds c a -> clock_now w = (t, w1) ->
  let l := (k, mkTimed (compute_expires_at (ttl c) t) v) :: drop_key k (entries a) in
  let cap := Z.to_nat (vcapacity a) in
  let expired := match find_key k (entries a) with
                 | Some (_, old) => negb (entry_live_at (expires_at old) t)
                 | None => false
                 end in
  wp (cache_set k v)
    (fun r s =>
       r = match find_key k (entries a) with
           | Some (_, old) => if expired then None else Some (tvalue old)
           | None => None
           end /\
       evictions s.1 = (if expired then fetch_add (evictions c) 1 else evictions c) /\
       holds s.1 (evicted (take cap l) (length l - cap) a))
    (fun s => exists n, (cap <= n)%nat /\ holds s.1 (evicted (take n l) (length l - n) a)) (c, w).
Proof.
  intros (HM & H1 & H2) E l cap expired. unfold cache_set, set_entry.
  apply wp_bind, wp_now. rewrite E. simpl. apply wp_bind, wp_gets. simpl. apply wp_bind.
  eapply wp_mono; [eapply inner_wp; [apply cache_set_returning_entry_refines|exact HM|apply s_put_wp]| |]; simpl.
  - intros r [c' w'] (s & a' & Ec & HM' & -> & Ea). simplify_eq/=. unfold expired.
    destruct (find_key k (entries a)) as [[stored old]|]; [|by apply wp_ret].
    destruct (entry_live_at (expires_at old) t); simpl; [by apply wp_ret|].
    apply wp_bind, wp_modify. simpl. apply wp_bind, wp_lt_notify; intros w2.
    + by apply wp_ret.
    + exists cap. split; [lia|]. done.
  - intros [c' w'] (s & a' & Ec & HM' & n & Hn & Ea). simplify_eq/=. exists n. split; [lia|]. done.
Qed.

(** [LruTtlCache::cache_set] puts the caller's key in front with a deadline one ttl after its
    clock reading, evicts what exceeds the capacity from the least recently used end, and
    returns the displaced value only if that was still live; a displaced expired entry is counted
    as an eviction of its own before [on_evict] sees it.  After a panic of [on_evict] the new
    entry is in place and the store is well formed. *)
Theorem lruttl_set k v c a w t w1 : holds c a -> clock_now w = (t, w1) ->
  let l := (k, mkTimed (compute_expires_at (ttl c) t) v) :: drop_key k (entries a) in
  let cap := Z.to_nat (vcapacity a) in
  let expired := match find_key k (entries a) with
                 | Some (_, old) => negb (entry_live_at (expires_at old) t)
                 | None => false
                 end in
  wp (cache_set k v)
    (fun r s =>
       r = match find_key k (entries a) with
           | Some (_, old) => if expired then None else Some (tvalue old)
           | None => None
           end /\
       evictions s.1 = (if expired then fetch_add (evictions c) 1 else evictions c) /\
       holds s.1 (evicted (take cap l) (length l - cap) a))
    (fun s => exists n, (cap <= n)%nat /\ holds s.1 (evicted (take n l) (length l - n) a)) (c, w).
Proof. apply lt_set_wp. Qed.

(** The abstract get-or-set under the wrapper's closures. *)
Lemma untracked a (x : Frame W) (m : Spec K (TimedEntry V) W (Frame W) unit) : vtrack a = false ->
  s_tracked m (a, x) = (Done tt, (a, x)).
Proof. intros H. unfold s_tracked. rewrite bind_s_self, H. done. Qed.

Lemma s_gos_valid k f a m h w t w1 stored e : vtrack a = false -> clock_now w = (t, w1) ->
  find_key k (entries a) = Some (stored, e) ->
  s_get_or_set k f is_valid (a, mkFrame m h w) =
    if entry_live_at (expires_at e) t then
      (Done (true, true, None),
       (put_entries ((stored, e) :: drop_key k (entries a)) a, mkFrame m (Some t) w1))
    else
      bind (user f) (fun val => s_entries ((k, val) :: drop_key k (entries a)) ;; ret (true, false, Some (stored, e)))
        (a, mkFrame m (Some t) w1).
Proof.
  intros Ht E Ef. unfold s_get_or_set. rewrite bind_s_self, (find_take _ _ _ Ef).
  unfold bind at 1, user at 1, is_valid at 1. simpl. rewrite E.
  destruct (entry_live_at (expires_at e) t); rewrite (bind_run _ _ _ _ _ (untracked _ _ _ Ht)); done.
Qed.

Lemma s_gos_absent k f a m h w : vtrack a = false -> find_key k (entries a) = None ->
  s_get_or_set k f is_valid (a, mkFrame m h w) =
    bind (user f) (fun val => s_entries ((k, val) :: entries a) ;; s_trim ;; ret (false, false, None))
      (a, mkFrame m h w).
Proof.
  intros Ht Ef. unfold s_get_or_set. rewrite bind_s_self. unfold find_key in Ef.
  destruct (take_key k (entries a)) as [[]|]; [done|].
  by rewrite (bind_run _ _ _ _ _ (untracked _ _ _ Ht)).
Qed.

(** A framed call of the inner get-or-set, against its specification. *)
Lemma framed_simulates k f c a w : models (store c) a ->
  match s_get_or_set k f is_valid (a, mkFrame (misses c) None w),
        framed (get_or_set_with_if k f is_valid) (c, w) with
  | (Done r, (a', x)), (Done (r1, h), s) =>
      r1.1 = r /\ h = f_hit_at x /\ s.2 = f_world x /\
      exists t e occ fre, s.1 = with_misses (f_misses x) (with_store t c) /\
        models_at t a' ((r1.2, e) :: occ) fre
  | (Unwind, (a', x)), (Unwind, s) =>
      s.2 = f_world x /\ exists t, s.1 = with_misses (f_misses x) (with_store t c) /\ models t a'
  | _, _ => False
  end.
Proof.
  intros HM. pose proof (get_or_set_simulates k f is_valid (store c) a (mkFrame (misses c) None w) HM) as Hs.
  unfold framed. simpl.
  destruct (s_get_or_set k f is_valid _) as [[r| |] [a' x]],
    (get_or_set_with_if k f is_valid _) as [[r1| |] [t x1]]; simpl in *; try done.
  - destruct Hs as [-> (Ex & e & occ & fre & HA)]. simpl in *. subst x1. split_and!; try done.
    by exists t, e, occ, fre.
  - destruct Hs as [Ex HM']. simpl in *. subst x1. eauto.
Qed.

(** Get-or-set of a live entry, blocking or [async], does not run the factory: nothing but the
    clock of the outer world moves; the returned reference points at the entry, now in front
    and, if the cache refreshes on hit, with the deadline renewed from the same clock reading;
    one hit and no miss is counted. *)
Theorem lruttl_get_or_set_hit k f c a w t w1 stored e m : holds c a -> clock_now w = (t, w1) ->
  find_key k (entries a) = Some (stored, e) -> entry_live_at (expires_at e) t = true ->
  m = cache_get_or_set_with_mut k f \/ m = async_cache_get_or_set_with_mut k f ->
  exists i s, m (c, w) = (Done i, (with_store s (hit c), w1)) /\
    get (order s) i = Done (stored, renewed c e t) /\
    holds (with_store s (hit c)) (put_entries ((stored, renewed c e t) :: drop_key k (entries a)) a).
Proof.
  intros (HM & H1 & H2) E Ef Hl Hm.
  assert (m = cache_get_or_set_with_mut k f) as -> by (by destruct Hm; subst).
  unfold cache_get_or_set_with_mut. rewrite bind_cache.
  pose proof (framed_simulates k (setter (ttl c) f) c a w HM) as Hs.
  rewrite (s_gos_valid _ _ _ _ _ _ _ _ _ _ H1 E Ef), Hl in Hs. unfold bind at 1.
  destruct (framed _ (c, w)) as [[[[r i] h]| |] [c' w']]; try done.
  destruct Hs as (E1 & E2 & E3 & s & e' & occ & fre & E4 & HA). simpl in *. subst r h w' c'.
  assert ((i, e') :: occ = (i, (stored, e)) :: occ /\ occ.*2 = drop_key k (entries a)) as [Eo Ed].
  { apply models_entries in HA as HE. simpl in HE. by injection HE as -> ->. }
  rewrite Eo in HA. simpl. rewrite bind_assoc, bind_cache. simpl. unfold renewed.
  destruct (refresh c).
  - rewrite !bind_assoc, bind_ret, bind_assoc.
    rewrite (bind_of_outcome _ _ _ _ (slot_get_front _ _ _ _ _ _ HA)). simpl.
    destruct (set_expiry_run (with_misses (misses c) (with_store s c)) _ i stored e occ fre w1
      (refreshed_expires_at (ttl c) t (expires_at e)) HA) as (s' & E' & HA').
    rewrite (bind_run _ _ _ _ _ E'). exists i, s'. rewrite <- Ed.
    split; [by destruct c|]. split; [by eapply slot_get_front|]. split; [by eapply models_intro|done].
  - exists i, s. split; [by destruct c|]. split; [by eapply slot_get_front|].
    split; [by eapply models_intro|done].
Qed.

(** Get-or-set whose factory panics, or is dropped at its await, on an absent or expired key
    leaves every entry - the expired one too - where it was, counts one miss and no eviction,
    and has not called [on_evict]. *)
Theorem lruttl_get_or_set_panic k f c a w m : holds c a ->
  (forall w', exists w'', f w' = (None, w'')) ->
  match find_key k (entries a) with
  | Some (_, e) => entry_live_at (expires_at e) (clock_now w).1 = false
  | None => True
  end ->
  m = cache_get_or_set_with_mut k f \/ m = async_cache_get_or_set_with_mut k f ->
  exists s w', m (c, w) = (Unwind, (with_store s (missed c), w')) /\ holds (with_store s (missed c)) a.
Proof.
  intros (HM & H1 & H2) Hf Hk Hm.
  assert (m = cache_get_or_set_with_mut k f) as -> by (by destruct Hm; subst).
  unfold cache_get_or_set_with_mut. rewrite bind_cache.
  pose proof (framed_simulates k (setter (ttl c) f) c a w HM) as Hs.
  assert (exists h w', s_get_or_set k (setter (ttl c) f) is_valid (a, mkFrame (misses c) None w) =
    (Unwind, (a, mkFrame (fetch_add (misses c) 1) h w'))) as (h & w' & Es).
  { destruct (find_key k (entries a)) as [[stored e]|] eqn:Ef.
    - destruct (clock_now w) as [t w1] eqn:E.
      rewrite (s_gos_valid _ _ _ _ _ _ _ _ _ _ H1 E Ef). simpl in Hk. rewrite Hk.
      destruct (Hf w1) as (w2 & Ew). unfold bind, user, setter, lift_user. simpl. rewrite Ew. eauto.
    - rewrite (s_gos_absent _ _ _ _ _ _ H1 Ef). destruct (Hf w) as (w2 & Ew).
      unfold bind, user, setter, lift_user. simpl. rewrite Ew. eauto. }
  rewrite Es in Hs. unfold bind at 1.
  destruct (framed _ (c, w)) as [[[[r i] h']| |] [c' w2]]; try done.
  destruct Hs as (E1 & s & E2 & HM'). simpl in *. subst. exists s, w'. split; [done|]. done.
Qed.

(** ** Sweeps *)

(** Selection with a predicate that answers by [p] and leaves the world alone. *)
Lemma select_run (p : K -> TimedEntry V -> bool) (d : K -> TimedEntry V -> User W bool) c a occ fre w :
  models_at (store c) a occ fre -> (forall k e w, d k e w = (Some (p k e), w)) ->
  doomed_indices d (c, w) = (Done (List.filter (fun x => p x.2.1 x.2.2) occ).*1, (c, w)).
Proof.
  intros HA Hd. unfold doomed_indices. rewrite bind_cache.
  assert (iter_indices (order (store c)) = Done occ.*1) as Ei
    by (rewrite order_eta; eapply iter_indices_run, HA).
  rewrite (bind_of_outcome _ _ _ _ Ei).
  assert (forall x, x ∈ occ -> get (order (store c)) x.1 = Done x.2) as Hg.
  { intros [i e] Hin. by eapply inv_get; [apply HA|]. }
  clear Ei HA. induction occ as [|[i [k e]] occ IH]; [done|].
  change ((i, (k, e)) :: occ).*1 with (i :: occ.*1). cbn [filter_each].
  pose proof (Hg (i, (k, e)) ltac:(left)) as Hi. simpl in Hi.
  rewrite bind_assoc, (bind_of_outcome _ _ _ _ Hi). simpl.
  assert (user (d k e) (c, w) = (Done (p k e), (c, w))) as Eu by (unfold user; simpl; by rewrite Hd).
  rewrite (bind_run _ _ _ _ _ Eu), (bind_run _ _ _ _ _ (IH ltac:(intros; apply Hg; by right))).
  by destruct (p k e).
Qed.

(** The removal pass over selected slots, in one go. *)
Lemma remove_all_run doomed c a occ fre w : models_at (store c) a occ fre -> doomed `sublist_of` occ ->
  exists t, map_each doomed.*1 (fun i => inner (remove_index i)) (c, w) =
      (Done doomed.*2, (with_store t c, w)) /\
    models t (put_entries (LruSpec.sweep (entries a) doomed.*2) a).
Proof.
  revert c a occ fre. induction doomed as [|[i e] doomed IH]; intros c a occ fre HA S.
  { exists (store c). split; [by destruct c|]. apply models_intro in HA. by destruct a. }
  apply sublist_cons_l in S as (xs & ys & -> & S).
  destruct (remove_index_run (store c) a xs i e ys fre w HA) as (t & E1 & HA1).
  change ((i, e) :: doomed).*1 with (i :: doomed.*1). cbn [map_each].
  rewrite (bind_run _ _ _ _ _ (inner_run _ _ _ _ _ _ E1)).
  destruct (IH (with_store t c) _ _ _ HA1) as (t' & E2 & HM').
  { by apply sublist_inserts_l. }
  rewrite (bind_run _ _ _ _ _ E2). exists t'. split; [done|].
  pose proof (inv_keys _ _ _ (proj1 HA)) as D. rewrite fmap_app, fmap_cons in D. simpl in D.
  simpl in HM'. rewrite (models_entries _ _ _ _ HA). rewrite !fmap_app, !fmap_cons in *. simpl.
  rewrite (drop_key_mid _ _ _ D). done.
Qed.

(** The callback over removed entries, in order, in the outer world alone. *)
Definition tell_all c (l : list (K * TimedEntry V)) w : outcome unit * W :=
  let '(o, (_, w')) := for_each l (fun e => fun s : unit * W =>
    let '(o, w') := told c e.1 (tvalue e.2) s.2 in (o, (tt, w'))) (tt, w) in (o, w').

Lemma lt_tell_all_run (l : list (K * TimedEntry V)) c w :
  for_each l (fun e => notify e.1 (tvalue e.2)) (c, w) = let '(o, w') := tell_all c l w in (o, (c, w')).
Proof.
  revert w. induction l as [|e l IH]; intros w; [done|]. unfold tell_all in *. cbn [for_each].
  unfold bind. rewrite lt_notify_run. simpl. destruct (told c e.1 (tvalue e.2) w) as [[[]| |] w1]; [|done|done].
  apply IH.
Qed.

Definition sweeps (gone : list (K * TimedEntry V)) c : LruTtlCache K V W HT :=
  if decide (gone = []) then c else counted (Z.of_nat (length gone)) c.

Lemma sweep_entries p c a w (d : K -> TimedEntry V -> User W bool) : holds c a ->
  (forall k e w, d k e w = (Some (p k e), w)) ->
  let gone := List.filter (fun e => p e.1 e.2) (entries a) in
  exists s, (let! doomed := doomed_indices d in remove_and_notify doomed) (c, w) =
      (let '(o, w') := tell_all c gone w in
       (unit_to o (length gone), (sweeps gone (with_store s c), w'))) /\
    holds (sweeps gone (with_store s c))
      (put_entries (List.filter (fun e => negb (p e.1 e.2)) (entries a)) a).
Proof.
  intros ((occ & fre & HA) & H1 & H2) Hd gone.
  rewrite (bind_run _ _ _ _ _ (select_run p d c a occ fre w HA Hd)).
  destruct (remove_all_run (List.filter (fun x => p x.2.1 x.2.2) occ) c a occ fre w HA) as (s & E & HM).
  { clear. induction occ as [|x occ IH]; simpl; [constructor|].
    destruct (p x.2.1 x.2.2); [by apply sublist_skip|by apply sublist_cons]. }
  assert ((List.filter (fun x => p x.2.1 x.2.2) occ).*2 = gone) as Eg.
  { subst gone. rewrite (models_entries _ _ _ _ HA). clear.
    induction occ as [|x occ IH]; [done|]. rewrite fmap_cons. simpl.
    destruct (p x.2.1 x.2.2); [rewrite fmap_cons|]; by rewrite IH. }
  rewrite Eg in E, HM. exists s. split.
  - unfold remove_and_notify. rewrite (bind_run _ _ _ _ _ E). unfold sweeps.
    destruct (decide (gone = [])) as [->|Hn]; [done|].
    unfold count_evictions. rewrite bind_set_cache. unfold bind. rewrite lt_tell_all_run.
    assert (tell_all (counted (Z.of_nat (length gone)) (with_store s c)) gone w = tell_all c gone w) as Et by done.
    unfold counted in Et at 1. simpl in Et |- *. rewrite Et.
    by destruct (tell_all c gone w) as [[[]| |] w'].
  - assert (distinct (entries a)) as D by (rewrite (models_entries _ _ _ _ HA); apply HA).
    rewrite <- (sweep_filter (fun e => negb (p e.1 e.2)) _ D).
    rewrite (filter_ext (fun e => negb (negb (p e.1 e.2))) (fun e => p e.1 e.2))
      by (intros e; apply negb_involutive).
    unfold sweeps. destruct (decide (gone = [])); (split; [exact HM|done]).
Qed.

(** [LruTtlCache::evict] removes exactly the entries whose deadline has passed at its one clock
    reading, leaves the others in recency order, counts all it removed, and only then runs
    [on_evict] on each; it returns how many it removed. *)
Theorem lruttl_evict c a w t w1 : holds c a -> clock_now w = (t, w1) ->
  let expired := fun e : K * TimedEntry V => negb (entry_live_at (expires_at e.2) t) in
  let gone := List.filter expired (entries a) in
  exists s, evict (c, w) =
      (let '(o, w') := tell_all c gone w1 in
       (unit_to o (length gone), (sweeps gone (with_store s c), w'))) /\
    holds (sweeps gone (with_store s c)) (put_entries (List.filter (fun e => negb (expired e)) (entries a)) a).
Proof.
  intros HH E expired gone. unfold evict. rewrite (bind_now _ _ _ _ _ E).
  by apply (sweep_entries (fun _ e => negb (entry_live_at (expires_at e) t)) c a w1).
Qed.

(** C39: [LruTtlCache::set_max_size] to a positive bound keeps the most recently used entries and
    updates [capacity] together with the inner bound when it returns.  If [on_evict] panics
    during the shrink, the inner store already has the new bound but the wrapper still reports
    the old one. *)
Theorem lruttl_set_max_size n c a w : holds c a -> 0 < n ->
  wp (set_max_size n)
    (fun r s => r = Some (Lru.capacity (store c)) /\ cache_capacity s.1 = Some n /\
       holds s.1 (evicted (take (Z.to_nat n) (entries a)) (length (entries a) - Z.to_nat n)
                    (put_capacity n a)))
    (fun s => cache_capacity s.1 = cache_capacity c /\ Lru.capacity (store s.1) = n /\
       exists m, (Z.to_nat n <= m < length (entries a))%nat /\
         holds s.1 (evicted (take m (entries a)) (length (entries a) - m) (put_capacity n a))) (c, w).
Proof.
  intros (HM & H1 & H2) Hn. unfold set_max_size. destruct (Z.leb_spec n 0) as [|_]; [lia|].
  assert (vcapacity a = Lru.capacity (store c)) as Ec by (destruct HM as (? & ? & HA); by eapply models_cap).
  apply wp_bind. eapply wp_mono;
    [eapply inner_wp; [apply set_max_size_spec|exact HM|by apply s_set_max_size_wp]| |]; simpl.
  - intros r [c' w'] (s & a' & E & HM' & -> & Ea). simplify_eq/=.
    assert (Lru.capacity s = n) as En.
    { destruct HM' as (? & ? & HA). symmetry. by apply models_cap in HA. }
    apply wp_bind, wp_modify, wp_ret. simpl. rewrite En, Ec. split_and!; try done.
  - intros [c' w'] (s & a' & E & HM' & m & Hm & Ea). simplify_eq/=.
    assert (Lru.capacity s = n) as En.
    { destruct HM' as (? & ? & HA). symmetry. by apply models_cap in HA. }
    split; [done|]. split; [done|]. by exists m.
Qed.
End Lift.

(** ** Witnesses *)
Module Demo.
Import Tick.

Notation Cache := (LruTtlCache TaggedKey.t Z Tick.t ListTable.t).
Notation Inner := (LruCache TaggedKey.t (TimedEntry Z) Tick.t ListTable.t).

Definition e1 : TimedEntry Z := mkTimed (Some 100) 7.
Definition e2 : TimedEntry Z := mkTimed (Some 200) 8.

Definition inner_empty : Inner := mkLru [] (mkList sentinels) 2 0 0 0 (Some (forward log)) false.
Definition inner_one : Inner := (cache_set_returning_entry k1 e1 (inner_empty, Tick.mk 0 [])).2.1.
Definition inner_two : Inner := (cache_set_returning_entry k2 e2 (inner_one, Tick.mk 0 [])).2.1.

Definition view : View TaggedKey.t (TimedEntry Z) Tick.t :=
  mkView [(k2, e2); (k1, e1)] 2 0 0 0 (Some (forward log)) false.

Lemma inner_two_models : models inner_two view.
Proof.
  assert (models inner_empty (mkView [] 2 0 0 0 (Some (forward log)) false)) as H0.
  { exists [], []. split; [|done]. split; simpl; [apply rep_new|done|done|lia]. }
  destruct (cache_set_returning_entry_refines k1 e1 (inner_empty, Tick.mk 0 []) (_, Tick.mk 0 [])
    (conj eq_refl H0)) as [[_ H1] _].
  destruct (cache_set_returning_entry_refines k2 e2 (inner_one, Tick.mk 0 []) (_, Tick.mk 0 [])
    (conj eq_refl H1)) as [[_ H2] _]. exact H2.
Qed.

(** [k2] in front of [k1], which expires at 100; ttl 50, refreshing. *)
Definition full : Cache := mkLruTtl inner_two 2 50 0 0 0 true (Some log).

Lemma full_holds : holds full view.
Proof. split; [apply inner_two_models|done]. Qed.

Lemma lruttl_get_witness : exists s,
  cache_get k1 (full, Tick.mk 100 []) =
    (Done None, (with_store s (counted 1 (missed full)), Tick.mk 101 [(k1, 7)])).
Proof.
  destruct (lruttl_get k1 full view _ _ _ full_holds (read 100 [])) as (s & E & _). exists s. exact E.
Defined.

Lemma lruttl_set_witness :
  wp (cache_set k3 9)
    (fun r s => r = None /\ evictions s.1 = 0 /\
       holds s.1 (evicted [(k3, mkTimed (Some 150) 9); (k2, e2)] 1 view))
    (fun s => exists n, (2 <= n)%nat /\
       holds s.1 (evicted (take n [(k3, mkTimed (Some 150) 9); (k2, e2); (k1, e1)]) (3 - n) view))
    (full, Tick.mk 100 []).
Proof. apply (lruttl_set k3 9 full view _ _ _ full_holds (read 100 [])). Defined.

Lemma lruttl_get_or_set_hit_witness : exists i s,
  cache_get_or_set_with_mut k1' (fun w => (None, w)) (full, Tick.mk 60 []) =
    (Done i, (with_store s (hit full), Tick.mk 61 [])) /\
  get (order s) i = Done (k1, mkTimed (Some 110) 7).
Proof.
  destruct (lruttl_get_or_set_hit k1' (fun w => (None, w)) full view _ _ _ k1 e1 _ full_holds (read 60 [])
    ltac:(reflexivity) ltac:(reflexivity) ltac:(by left)) as (i & s & E1 & E2 & _).
  exists i, s. split; [exact E1|exact E2].
Defined.

Lemma lruttl_get_or_set_panic_witness : exists s w',
  async_cache_get_or_set_with_mut k1 (fun w => (None, w)) (full, Tick.mk 100 []) =
    (Unwind, (with_store s (missed full), w')) /\ holds (with_store s (missed full)) view.
Proof.
  apply (lruttl_get_or_set_panic k1 (fun w => (None, w)) full view _ _ full_holds); [|done|by right].
  intros w'. by exists w'.
Defined.

Lemma lruttl_evict_witness : exists s,
  evict (full, Tick.mk 100 []) =
    (Done 1%nat, (counted 1 (with_store s full), Tick.mk 101 [(k1, 7)])).
Proof.
  destruct (lruttl_evict full view _ _ _ full_holds (read 100 [])) as (s & E & _). exists s. exact E.
Defined.

Lemma lruttl_set_max_size_witness :
  wp (set_max_size 1)
    (fun r s => r = Some 2 /\ cache_capacity s.1 = Some 1 /\
       holds s.1 (evicted [(k2, e2)] 1 (put_capacity 1 view)))
    (fun s => cache_capacity s.1 = Some 2 /\ Lru.capacity (store s.1) = 1 /\
       exists m, (1 <= m < 2)%nat /\
         holds s.1 (evicted (take m (entries view)) (2 - m) (put_capacity 1 view)))
    (full, Tick.mk 0 []).
Proof. apply (lruttl_set_max_size 1 full view (Tick.mk 0 []) full_holds). lia. Defined.
End Demo.
