(* ===== verification/TtlSorted.v ===== *)
(** * The store sorted by deadline ([src/stores/ttl_sorted.rs])

    [TtlSortedCache] keeps its entries in a hash map and, beside it, the set of their stamps
    (deadline and key) in deadline order.  [CacheArc] shares one immutable key between the two,
    so it is the key itself here.  A [&mut V] is named by its key. *)
From Stdlib Require Import String.
From S2P Require Import Prelude Keys Stores BTree.
#[local] Close Scope string_scope.

(** ** Stamps *)

Record Stamped (K : Type) : Type := mkStamped { s_expiry : option Z; s_key : option K }.
Arguments mkStamped {K} _ _.
Arguments s_expiry {K} _.
Arguments s_key {K} _.

(** No deadline sorts last. *)
Definition expiry_cmp (a b : option Z) : comparison :=
  match a, b with
  | None, None => Eq
  | None, Some _ => Gt
  | Some _, None => Lt
  | Some a, Some b => Z.compare a b
  end.

#[global] Instance stamped_cmp {K} `{!Cmp K} : Cmp (Stamped K) := {|
  cmp := fun a b =>
    match expiry_cmp (s_expiry a) (s_expiry b) with
    | Eq => cmp (s_key a) (s_key b)
    | o => o
    end |}.

(** The derived [PartialEq]. *)
Definition stamped_eq {K} `{!KeyEq K} (a b : Stamped K) : bool :=
  bool_decide (s_expiry a = s_expiry b) &&
  match s_key a, s_key b with
  | Some k, Some k' => keq k k'
  | None, None => true
  | _, _ => false
  end.

(** [Stamped::bound]: below every stamp of that deadline. *)
Definition bound {K} (expiry : Z) : Stamped K := mkStamped (Some expiry) None.

Record Entry (K V : Type) : Type := mkEntry { e_expiry : option Z; e_key : K; e_value : V }.
Arguments mkEntry {K V} _ _ _.
Arguments e_expiry {K V} _.
Arguments e_key {K V} _.
Arguments e_value {K V} _.

Definition as_stamped {K V} (e : Entry K V) : Stamped K := mkStamped (e_expiry e) (Some (e_key e)).

Definition is_expired_at {K V} (e : Entry K V) (now : Z) : bool :=
  match e_expiry e with Some t => t <=? now | None => false end.

Section TtlSortedCache.
Context {K V W : Type} `{!KeyEq K, !Cmp K, !Clock W, !Threads W}.

(** ** Data *)

Record TtlSortedCache : Type := mkSorted {
  min_instant : Z;
  map : list (K * Entry K V);
  keys : list (Stamped K);
  ttl : Z;
  size_limit : option Z;
  initial_capacity : option Z;
  hits : StripedCounter.t;
  misses : StripedCounter.t;
  evictions : Z;
  on_evict : OnEvict K V W }.

Definition with_map m (c : TtlSortedCache) : TtlSortedCache :=
  mkSorted (min_instant c) m (keys c) (ttl c) (size_limit c) (initial_capacity c) (hits c) (misses c)
    (evictions c) (on_evict c).
Definition with_keys l (c : TtlSortedCache) : TtlSortedCache :=
  mkSorted (min_instant c) (map c) l (ttl c) (size_limit c) (initial_capacity c) (hits c) (misses c)
    (evictions c) (on_evict c).
Definition with_ttl t (c : TtlSortedCache) : TtlSortedCache :=
  mkSorted (min_instant c) (map c) (keys c) t (size_limit c) (initial_capacity c) (hits c) (misses c)
    (evictions c) (on_evict c).
Definition with_size_limit n (c : TtlSortedCache) : TtlSortedCache :=
  mkSorted (min_instant c) (map c) (keys c) (ttl c) n (initial_capacity c) (hits c) (misses c)
    (evictions c) (on_evict c).
Definition with_hits n (c : TtlSortedCache) : TtlSortedCache :=
  mkSorted (min_instant c) (map c) (keys c) (ttl c) (size_limit c) (initial_capacity c) n (misses c)
    (evictions c) (on_evict c).
Definition with_misses n (c : TtlSortedCache) : TtlSortedCache :=
  mkSorted (min_instant c) (map c) (keys c) (ttl c) (size_limit c) (initial_capacity c) (hits c) n
    (evictions c) (on_evict c).
Definition with_evictions n (c : TtlSortedCache) : TtlSortedCache :=
  mkSorted (min_instant c) (map c) (keys c) (ttl c) (size_limit c) (initial_capacity c) (hits c) (misses c)
    n (on_evict c).
Definition with_min_instant n (c : TtlSortedCache) : TtlSortedCache :=
  mkSorted n (map c) (keys c) (ttl c) (size_limit c) (initial_capacity c) (hits c) (misses c)
    (evictions c) (on_evict c).

Definition Op (A : Type) : Type := ST (TtlSortedCache * W) A.
Definition self : Op TtlSortedCache := gets fst.
Definition set_self (f : TtlSortedCache -> TtlSortedCache) : Op unit := modify (fun s => (f s.1, s.2)).

Definition count_hit : Op unit :=
  let! s := gets id in
  let! n := of_outcome (StripedCounter.increment (current_thread s.2) (hits s.1)) in
  set_self (with_hits n).
Definition count_miss : Op unit :=
  let! s := gets id in
  let! n := of_outcome (StripedCounter.increment (current_thread s.2) (misses s.1)) in
  set_self (with_misses n).
Definition count_evictions (n : Z) : Op unit :=
  set_self (fun c => with_evictions (fetch_add (evictions c) n) c).
Definition notify (k : K) (v : V) : Op unit :=
  let! c := self in match on_evict c with Some f => user (f k v) | None => ret tt end.

(** [self.map.remove(key)] *)
Definition map_remove (key : K) : Op (option (Entry K V)) :=
  let! c := self in
  match take_key key (map c) with
  | Some (e, m) => set_self (with_map m) ;; ret (Some e.2)
  | None => ret None
  end.

Definition keys_insert (s : Stamped K) : Op unit := set_self (fun c => with_keys (bt_insert s (keys c)) c).
Definition keys_remove (s : Stamped K) : Op unit := set_self (fun c => with_keys (bt_remove s (keys c)) c).

(** ** Construction *)

(** [Clone::clone]: the keys are shared, the user's data clones to itself, the counters are their sums. *)
Definition clone (c : TtlSortedCache) : TtlSortedCache :=
  mkSorted (min_instant c) (map c) (keys c) (ttl c) (size_limit c) (initial_capacity c)
    (StripedCounter.snapshot (hits c)) (StripedCounter.snapshot (misses c)) (evictions c) (on_evict c).

Record TtlSortedCacheBuilder : Type := mkBuilder {
  b_size : option Z; b_capacity : option Z; b_ttl : option Z; b_on_evict : OnEvict K V W }.

Definition builder : TtlSortedCacheBuilder := mkBuilder None None None None.
Definition builder_max_size (n : Z) (b : TtlSortedCacheBuilder) :=
  mkBuilder (Some n) (b_capacity b) (b_ttl b) (b_on_evict b).
Definition builder_initial_capacity (n : Z) (b : TtlSortedCacheBuilder) :=
  mkBuilder (b_size b) (Some n) (b_ttl b) (b_on_evict b).
Definition builder_ttl (t : Z) (b : TtlSortedCacheBuilder) :=
  mkBuilder (b_size b) (b_capacity b) (Some t) (b_on_evict b).
Definition builder_on_evict (f : K -> V -> User W unit) (b : TtlSortedCacheBuilder) :=
  mkBuilder (b_size b) (b_capacity b) (b_ttl b) (Some f).

(** [try_reserve amount] tells whether the map's reservation succeeds; [now] is the clock
    reading of [min_instant]. *)
Definition build (try_reserve : Z -> bool) (now : Z) (b : TtlSortedCacheBuilder) :
    result BuildError TtlSortedCache :=
  match b_ttl b with
  | None => Err (MissingRequired "ttl")
  | Some ttl =>
      match validate_ttl ttl with
      | Err e => Err e
      | Ok _ =>
          if bool_decide (b_size b = Some 0)
          then Err (InvalidValue "max_size" "must be greater than zero") else
          let cache cap := mkSorted now [] [] ttl (b_size b) cap StripedCounter.new StripedCounter.new 0
                             (b_on_evict b) in
          let '(preallocate, field) :=
            match b_capacity b with
            | Some cap => (Some cap, "initial_capacity"%string)
            | None => ((fun size => saturating_add size 1) <$> b_size b, "max_size"%string)
            end in
          match preallocate with
          | Some amount =>
              if try_reserve amount then Ok (cache (Some amount))
              else Err (InvalidValue field "allocation failed")
          | None => Ok (cache None)
          end
      end
  end.

(** ** Eviction by deadline *)

(** The loop that takes the expired stamps' entries out of the map. *)
Definition remove_stamped (stamped : Stamped K) : Op (list (K * Entry K V)) :=
  match s_key stamped with
  | None => unwind
  | Some key =>
      let! r := map_remove key in
      ret (match r with Some entry => [(key, entry)] | None => [] end)
  end.

Definition evict_at (cutoff : Z) : Op nat :=
  let! c := self in
  let '(expired, live) := bt_split_off (bound cutoff) (keys c) in
  set_self (with_keys live) ;;
  let count := length expired in
  if Nat.eqb count 0 then ret 0%nat else
  let! removed := map_each expired remove_stamped in
  let removed := concat removed in
  count_evictions (Z.of_nat (length removed)) ;;
  for_each removed (fun e => notify e.1 (e_value e.2)) ;;
  ret count.

Definition evict : Op nat := let! n := now in evict_at n.

(** [pop_first_unprotected] *)
Definition pop_first_unprotected (protected : option (Stamped K)) : Op (option (Stamped K)) :=
  let! c := self in
  match bt_pop_first (keys c) with
  | None => ret None
  | Some (first, rest) =>
      set_self (with_keys rest) ;;
      match protected with
      | Some p =>
          if stamped_eq p first then
            let! c := self in
            match bt_pop_first (keys c) with
            | Some (next, rest) => set_self (with_keys rest) ;; keys_insert first ;; ret (Some next)
            | None => keys_insert first ;; ret None
            end
          else ret (Some first)
      | None => ret (Some first)
      end
  end.

(** The [while let] loop of [retain_latest_at_protecting]; it returns [dropped]. *)
Fixpoint retain_loop (fuel : nat) (drop_count : nat) (cutoff : option Z)
    (protected : option (Stamped K)) (dropped : nat) : Op nat :=
  let! r := pop_first_unprotected protected in
  match r with
  | None => ret dropped
  | Some stamped =>
      let expired :=
        match cutoff with
        | Some cutoff => match s_expiry stamped with Some expiry => expiry <? cutoff | None => false end
        | None => false
        end in
      if Nat.leb drop_count dropped && negb expired then keys_insert stamped ;; ret dropped
      else
        match s_key stamped with
        | None => unwind
        | Some key =>
            let! r := map_remove key in
            match r with
            | Some entry => count_evictions 1 ;; notify key (e_value entry)
            | None => ret tt
            end ;;
            match fuel with
            | O => of_outcome OutOfFuel
            | S fuel => retain_loop fuel drop_count cutoff protected (S dropped)
            end
        end
  end.

Definition retain_latest_at_protecting (count : Z) (cutoff : option Z) (protected : option (Stamped K)) :
    Op nat :=
  let! c := self in
  let retain_drop_count := Z.to_nat (saturating_sub (Z.of_nat (length (map c))) count) in
  if Nat.eqb retain_drop_count 0 && bool_decide (protected = None) then
    match cutoff with Some cutoff => evict_at cutoff | None => ret 0%nat end
  else if Nat.eqb retain_drop_count 0 && bool_decide (cutoff = None) then ret 0%nat
  else retain_loop (length (keys c)) retain_drop_count cutoff protected 0.

Definition retain_latest_at (count : Z) (cutoff : option Z) : Op nat :=
  retain_latest_at_protecting count cutoff None.

Definition retain_latest (count : Z) (evict : bool) : Op nat :=
  if evict then let! n := now in retain_latest_at count (Some n)
  else retain_latest_at count None.

Definition set_max_size (max_size : Z) : Op (option Z) :=
  if max_size <=? 0 then unwind else
  let! c := self in
  let prev := size_limit c in
  set_self (with_size_limit (Some max_size)) ;;
  (if max_size <? Z.of_nat (length (map c)) then retain_latest max_size false ;; ret tt else ret tt) ;;
  ret prev.

Definition try_set_max_size (max_size : Z) : Op (result SetMaxSizeError (option Z)) :=
  if max_size =? 0 then ret (Err ZeroMaxSize) else
  let! r := set_max_size max_size in ret (Ok r).

(** [retain]: first every decision, then the removals, the count, the callbacks. *)
Definition retain (keep : K -> V -> User W bool) : Op nat :=
  let! n := now in
  let! c := self in
  let! doomed := filter_each (map c) (fun e =>
    if is_expired_at e.2 n then ret true
    else let! b := user (keep e.1 (e_value e.2)) in ret (negb b)) in
  let! removed := map_each ((fun e => as_stamped e.2) <$> doomed) (fun stamped =>
    match s_key stamped with
    | None => unwind
    | Some key =>
        keys_remove stamped ;;
        let! r := map_remove key in
        ret (match r with Some entry => [entry] | None => [] end)
    end) in
  let removed := concat removed in
  let count := length removed in
  count_evictions (Z.of_nat count) ;;
  for_each removed (fun entry => notify (e_key entry) (e_value entry)) ;;
  ret count.

(** ** Insertion *)

Definition set_inner (key : K) (value : V) (ttl_ : option Z) (evict skip_size_eviction : bool) :
    Op (option V * Stamped K) :=
  let! c := self in
  let effective_ttl := default (ttl c) ttl_ in
  let! n := now in
  let expiry := if effective_ttl =? 0 then None else instant_checked_add n effective_ttl in
  let! (arc_key, old) :=
    match find_key key (map c) with
    | Some (_, old) =>
        let arc_key := e_key old in
        set_self (fun c => with_map (hm_update key (mkEntry expiry arc_key value) (map c)) c) ;;
        ret (arc_key, Some old)
    | None =>
        set_self (fun c => with_map (map c ++ [(key, mkEntry expiry key value)]) c) ;;
        ret (key, None)
    end in
  let new_stamped := mkStamped expiry (Some arc_key) in
  keys_insert new_stamped ;;
  match old with
  | Some old =>
      if bool_decide (e_expiry old = expiry) then ret tt else keys_remove (as_stamped old)
  | None => ret tt
  end ;;
  let! old_value :=
    match old with
    | Some entry =>
        if is_expired_at entry n then
          count_evictions 1 ;; notify (e_key entry) (e_value entry) ;; ret None
        else ret (Some (e_value entry))
    | None => ret None
    end in
  (if skip_size_eviction then ret tt else
   let! c := self in
   match size_limit c with
   | Some size_limit => retain_latest_at size_limit (if evict then Some n else None) ;; ret tt
   | None => if evict then evict_at n ;; ret tt else ret tt
   end) ;;
  ret (old_value, new_stamped).

Definition set (key : K) (value : V) : Op (option V) :=
  let! r := set_inner key value None false false in ret r.1.

(** [TtlSortedSetBuilder::set], with the builder's [ttl] and [evict]. *)
Definition set_with (key : K) (value : V) (ttl_ : option Z) (evict : bool) : Op (option V) :=
  let! r := set_inner key value ttl_ evict false in ret r.1.

Definition set_and_get_mut (key : K) (value : V) : Op K :=
  let! r := set_inner key value None false true in
  let protected := r.2 in
  let! c := self in
  match size_limit c with
  | Some size_limit =>
      if size_limit <? Z.of_nat (length (map c))
      then retain_latest_at_protecting size_limit None (Some protected) ;; ret tt
      else ret tt
  | None => ret tt
  end ;;
  match s_key protected with
  | None => unwind
  | Some key =>
      let! c := self in
      match find_key key (map c) with
      | Some _ => ret key
      | None => unwind
      end
  end.

Definition remove_expired_entry (key : K) : Op unit :=
  let! r := map_remove key in
  match r with
  | Some entry =>
      keys_remove (as_stamped entry) ;;
      count_evictions 1 ;;
      notify (e_key entry) (e_value entry)
  | None => ret tt
  end.

Definition cache_clear : Op unit := set_self (with_map []) ;; set_self (with_keys []).

Definition cache_clear_with_on_evict : Op unit :=
  let! c := self in
  match on_evict c with
  | None => cache_clear
  | Some f =>
      let entries := map c in
      set_self (with_map []) ;;
      set_self (with_keys []) ;;
      let count := Z.of_nat (length entries) in
      (if 0 <? count then count_evictions count else ret tt) ;;
      for_each entries (fun e => notify (e_key e.2) (e_value e.2))
  end.

(** ** [Cached] and the other traits *)

(** [entry.is_expired()]: the clock is read whether or not there is a deadline. *)
Definition is_expired (e : Entry K V) : Op bool := let! n := now in ret (is_expired_at e n).

Definition cache_get (key : K) : Op (option V) :=
  let! c := self in
  match find_key key (map c) with
  | None => count_miss ;; ret None
  | Some (_, entry) =>
      let! x := is_expired entry in
      if x then count_miss ;; remove_expired_entry key ;; ret None
      else
        count_hit ;;
        let! c := self in
        ret ((fun e => e_value e.2) <$> find_key key (map c))
  end.

Definition cache_get_mut (key : K) : Op (option K) :=
  let! c := self in
  match find_key key (map c) with
  | None => count_miss ;; ret None
  | Some (_, entry) =>
      let! x := is_expired entry in
      if x then count_miss ;; remove_expired_entry key ;; ret None
      else
        count_hit ;;
        let! c := self in
        ret ((fun _ => key) <$> find_key key (map c))
  end.

Definition cache_set (key : K) (value : V) : Op (option V) :=
  let! r := set_inner key value None false false in ret r.1.

(** [matches!(self.map.get(&key), Some(entry) if !entry.is_expired())] *)
Definition is_live (key : K) : Op bool :=
  let! c := self in
  match find_key key (map c) with
  | Some (_, entry) => let! x := is_expired entry in ret (negb x)
  | None => ret false
  end.

Definition entry_vanished (key : K) : Op K :=
  let! c := self in match find_key key (map c) with Some _ => ret key | None => unwind end.

Definition cache_get_or_set_with_mut (key : K) (f : User W V) : Op K :=
  let! live := is_live key in
  if live then count_hit ;; entry_vanished key
  else
    count_miss ;;
    let! value := user f in
    set_and_get_mut key value.

Definition cache_try_get_or_set_with_mut {E} (key : K) (f : User W (result E V)) : Op (result E K) :=
  let! live := is_live key in
  if live then count_hit ;; let! k := entry_vanished key in ret (Ok k)
  else
    count_miss ;;
    let! r := user f in
    match r with
    | Err e => ret (Err e)
    | Ok value => let! k := set_and_get_mut key value in ret (Ok k)
    end.

Definition cache_remove (key : K) : Op (option V) :=
  let! r := map_remove key in
  match r with
  | None => ret None
  | Some removed =>
      let! expired := is_expired removed in
      keys_remove (as_stamped removed) ;;
      count_evictions 1 ;;
      notify (e_key removed) (e_value removed) ;;
      ret (if expired then None else Some (e_value removed))
  end.

Definition cache_remove_entry (key : K) : Op (option (K * V)) :=
  let! r := map_remove key in
  match r with
  | None => ret None
  | Some removed =>
      keys_remove (as_stamped removed) ;;
      let stored_k := e_key removed in
      count_evictions 1 ;;
      notify stored_k (e_value removed) ;;
      ret (Some (stored_k, e_value removed))
  end.

Definition cache_reset_metrics : Op unit :=
  set_self (fun c => with_misses (StripedCounter.reset (misses c)) c) ;;
  set_self (fun c => with_hits (StripedCounter.reset (hits c)) c) ;;
  set_self (with_evictions 0).

Definition cache_reset : Op unit :=
  set_self (with_map []) ;;
  set_self (with_keys []) ;;
  let! n := now in
  set_self (with_min_instant n) ;;
  cache_reset_metrics.

Definition cache_size (c : TtlSortedCache) : Z := Z.of_nat (length (map c)).
Definition cache_capacity (c : TtlSortedCache) : option Z := size_limit c.

Definition cache_peek (key : K) : Op (option V) :=
  let! c := self in
  match find_key key (map c) with
  | Some (_, entry) => let! x := is_expired entry in ret (if x then None else Some (e_value entry))
  | None => ret None
  end.

Definition cache_contains (k : K) : Op bool :=
  let! v := cache_peek k in ret (match v with Some _ => true | None => false end).

Definition cache_get_read (key : K) : Op (option V) :=
  let! v := cache_peek key in
  match v with
  | Some value => count_hit ;; ret (Some value)
  | None => count_miss ;; ret None
  end.

(** [CachedIter::iter], collected. *)
Definition iter : Op (list (K * V)) :=
  let! c := self in
  let! live := filter_each (map c) (fun e => let! x := is_expired e.2 in ret (negb x)) in
  ret ((fun e => (e.1, e_value e.2)) <$> live).

Definition get_ttl (c : TtlSortedCache) : option Z := if ttl c =? 0 then None else Some (ttl c).

Definition set_ttl (t : Z) : Op (option Z) :=
  let! c := self in
  set_self (with_ttl t) ;;
  ret (if ttl c =? 0 then None else Some (ttl c)).

Definition unset_ttl : Op (option Z) :=
  let! c := self in
  set_self (with_ttl 0) ;;
  ret (if ttl c =? 0 then None else Some (ttl c)).

Definition cache_get_with_expiry_status (k : K) : Op (option V * bool) :=
  let! c := self in
  match find_key k (map c) with
  | None => count_miss ;; ret (None, false)
  | Some (_, entry) =>
      let! x := is_expired entry in
      if x then count_miss ;; ret (Some (e_value entry), true)
      else count_hit ;; ret (Some (e_value entry), false)
  end.

Definition cache_peek_with_expiry_status (k : K) : Op (option V * bool) :=
  let! c := self in
  match find_key k (map c) with
  | None => ret (None, false)
  | Some (_, entry) => let! x := is_expired entry in ret (Some (e_value entry), x)
  end.

(** ** The [async] variants *)

Definition async_cache_get_or_set_with_mut (key : K) (f : User W V) : Op K :=
  let! live := is_live key in
  if live then count_hit ;; entry_vanished key
  else
    count_miss ;;
    let! value := user f in
    set_and_get_mut key value.

Definition async_cache_try_get_or_set_with_mut {E} (key : K) (f : User W (result E V)) : Op (result E K) :=
  let! live := is_live key in
  if live then count_hit ;; let! k := entry_vanished key in ret (Ok k)
  else
    count_miss ;;
    let! r := user f in
    match r with
    | Err e => ret (Err e)
    | Ok value => let! k := set_and_get_mut key value in ret (Ok k)
    end.
End TtlSortedCache.
Arguments TtlSortedCache : clear implicits.
Arguments Op : clear implicits.
