(* ===== verification/TtlSortedProps.v ===== *)
(** * The properties of the store sorted by deadline

    The map and the set of stamps describe the same entries; every method keeps them so. *)
From Stdlib Require Import String Sorted.
From S2P Require Import Prelude Keys Stores BTree TtlSorted.
#[local] Close Scope string_scope.

Lemma stamped_cmp_eq {K} `{!Cmp K} (a b : Stamped K) :
  cmp a b = match expiry_cmp (s_expiry a) (s_expiry b) with Eq => cmp (s_key a) (s_key b) | o => o end.
Proof. done. Qed.

#[global] Instance stamped_cmp_laws {K} `{!Cmp K, !CmpLaws K} : CmpLaws (Stamped K).
Proof.
  assert (forall a b, expiry_cmp b a = CompOpp (expiry_cmp a b)) as Ha.
  { intros [a|] [b|]; simpl; try done. apply Z.compare_antisym. }
  assert (forall a b, expiry_cmp a b = Eq -> a = b) as He.
  { intros [a|] [b|]; simpl; try done. by intros ->%Z.compare_eq_iff. }
  assert (forall a b c, expiry_cmp a b = Lt -> expiry_cmp b c = Lt -> expiry_cmp a c = Lt) as Ht.
  { intros [a|] [b|] [d|]; simpl; try done. rewrite !Z.compare_lt_iff. lia. }
  assert (forall a, expiry_cmp a a = Eq) as Hr by (intros [a|]; simpl; [apply Z.compare_refl|done]).
  split.
  - intros a. rewrite stamped_cmp_eq. by rewrite Hr, cmp_refl.
  - intros a b. rewrite !stamped_cmp_eq. rewrite (Ha (s_expiry a)). destruct (expiry_cmp (s_expiry a) (s_expiry b)); simpl; try done.
    apply cmp_antisym.
  - intros a b d. rewrite !stamped_cmp_eq.
    destruct (expiry_cmp (s_expiry a) (s_expiry b)) eqn:E1; try done.
    + apply He in E1. rewrite E1. destruct (expiry_cmp (s_expiry b) (s_expiry d)); try done. apply cmp_lt_trans.
    + intros _. destruct (expiry_cmp (s_expiry b) (s_expiry d)) eqn:E2; try done.
      * apply He in E2. by rewrite <- E2, E1.
      * intros _. by rewrite (Ht _ _ _ E1 E2).
  - intros a b d. rewrite !stamped_cmp_eq.
    destruct (expiry_cmp (s_expiry a) (s_expiry b)) eqn:E1; try done.
    apply He in E1. rewrite E1. intros E. by rewrite (cmp_eq_l _ _ (s_key d) E).
Qed.

Section Invariant.
Context {K V W : Type} `{!KeyEq K, !KeyLaws K, !Cmp K, !CmpLaws K, !KeyOrd K, !Clock W, !Threads W}.
Implicit Types (c : TtlSortedCache K V W) (k : K) (v : V) (w : W) (e : Entry K V) (s : Stamped K)
  (m : list (K * Entry K V)) (ext : list (Stamped K)).

Definition stamps m : list (Stamped K) := (fun p => as_stamped p.2) <$> m.

(** The map is keyed by the shared keys, and the stamps of its entries are those in the set
    and those in [ext]. *)
Record indexed m (ks : list (Stamped K)) ext : Prop := {
  ix_keys : distinct m;
  ix_arcs : Forall (fun p => e_key p.2 = p.1) m;
  ix_sorted : bt_sorted ks;
  ix_stamps : ext ++ ks ≡ₚ stamps m }.

Definition wf c : Prop :=
  indexed (map c) (keys c) [] /\ StripedCounter.wf (hits c) /\ StripedCounter.wf (misses c) /\
  match size_limit c with Some n => 0 < n | None => True end.

Lemma arc m p : Forall (fun p => e_key p.2 = p.1) m -> p ∈ m -> e_key p.2 = p.1.
Proof. intros F Hp. by apply (proj1 (Forall_forall _ _) F). Qed.

(** A stamp names one entry. *)
Lemma stamp_entry m ks ext s : indexed m ks ext -> s ∈ stamps m ->
  exists k e r, take_key k m = Some ((k, e), r) /\ s = as_stamped e /\ s_key s = Some k /\
    stamps m ≡ₚ s :: stamps r /\ distinct r /\ Forall (fun p => e_key p.2 = p.1) r.
Proof.
  intros H Hs. apply list_elem_of_fmap in Hs as ([k e] & -> & Hin). simpl.
  pose proof (arc _ _ (ix_arcs _ _ _ H) Hin) as Ek. simpl in Ek.
  pose proof (ix_arcs _ _ _ H) as FA. apply list_elem_of_split in Hin as (xs & ys & ->).
  exists k, e, (xs ++ ys). pose proof (ix_keys _ _ _ H) as D. apply distinct_mid in D as [D F].
  split_and!; try done.
  - apply take_key_app; [|apply keq_refl]. by apply fresh_app in F as [F _].
  - unfold as_stamped. simpl. by rewrite Ek.
  - unfold stamps. rewrite !fmap_app, fmap_cons. simpl. by rewrite <- Permutation_middle.
  - apply Forall_app in FA as [FA1 [_ FA2]%Forall_cons]. by apply Forall_app.
Qed.

(** Taking the entry of a detached stamp out of the map. *)
Lemma indexed_remove m ks ext s : indexed m ks (s :: ext) ->
  exists k e r, take_key k m = Some ((k, e), r) /\ s = as_stamped e /\ s_key s = Some k /\
    indexed r ks ext.
Proof.
  intros H. assert (s ∈ stamps m) as Hs by (rewrite <- (ix_stamps _ _ _ H); by left).
  destruct (stamp_entry _ _ _ _ H Hs) as (k & e & r & Et & Es & Ek & P & D & F).
  exists k, e, r. split_and!; try done. split; [done|done|apply H|].
  pose proof (ix_stamps _ _ _ H) as P2. rewrite P in P2. simpl in P2.
  by apply Permutation_cons_inv in P2.
Qed.

(** Stamps of entries with different keys are different. *)
Lemma stamp_apart k e k' e' : e_key e = k -> e_key e' = k' -> keq k k' = false ->
  cmp (as_stamped e) (as_stamped e') <> Eq.
Proof.
  intros E1 E2 Hk. rewrite stamped_cmp_eq. simpl. subst.
  destruct (expiry_cmp (e_expiry e) (e_expiry e')); [|done|done].
  change (cmp (e_key e) (e_key e') = Eq -> False). intros Hc. apply cmp_keq in Hc. congruence.
Qed.

(** Detaching and attaching stamps. *)
Lemma indexed_detach m ks ext s : indexed m ks ext -> s ∈ ks -> indexed m (bt_remove s ks) (s :: ext).
Proof.
  intros H Hs. split; [apply H|apply H|apply remove_sorted, H|].
  rewrite <- (ix_stamps _ _ _ H). rewrite <- (remove_perm s ks) at 2 by (done || apply H).
  simpl. by rewrite Permutation_middle.
Qed.

Lemma indexed_pop m ks ext s : indexed m (s :: ks) ext -> indexed m ks (s :: ext).
Proof.
  intros H. split; [apply H|apply H| |].
  - pose proof (ix_sorted _ _ _ H) as S. by apply StronglySorted_inv in S as [S _].
  - rewrite <- (ix_stamps _ _ _ H). simpl. by rewrite Permutation_middle.
Qed.

(** In an index no two stamps are equal. *)
Lemma stamps_apart m p xs ys : distinct m -> Forall (fun p => e_key p.2 = p.1) m ->
  m = xs ++ p :: ys -> apart (as_stamped p.2) (stamps (xs ++ ys)).
Proof.
  intros D F ->. apply distinct_mid in D as [_ Fr]. apply Forall_forall. intros s Hs.
  apply list_elem_of_fmap in Hs as (q & -> & Hq).
  assert (q ∈ xs ++ p :: ys) as Hq' by mem.
  apply (stamp_apart p.1 _ q.1).
  - apply (arc _ _ F). mem.
  - by apply (arc _ _ F).
  - unfold fresh in Fr. rewrite Forall_forall in Fr. by apply Fr.
Qed.

Lemma indexed_attach m ks ext s : indexed m ks (s :: ext) -> indexed m (bt_insert s ks) ext.
Proof.
  intros H. assert (s ∈ stamps m) as Hs by (rewrite <- (ix_stamps _ _ _ H); by left).
  apply list_elem_of_fmap in Hs as (p & -> & Hp). apply list_elem_of_split in Hp as (xs & ys & E).
  pose proof (stamps_apart m p xs ys (ix_keys _ _ _ H) (ix_arcs _ _ _ H) E) as A.
  assert (apart (as_stamped p.2) ks) as Ak.
  { apply Forall_forall. intros s Hs. unfold apart in A. rewrite Forall_forall in A. apply A.
    pose proof (ix_stamps _ _ _ H) as P. rewrite E in P. unfold stamps in P.
    rewrite fmap_app, fmap_cons, <- Permutation_middle, <- fmap_app in P. simpl in P.
    apply Permutation_cons_inv in P. unfold stamps. rewrite <- P. mem. }
  split; [apply H|apply H|apply insert_sorted, H|].
  rewrite insert_perm by done. rewrite <- (ix_stamps _ _ _ H). simpl. by rewrite Permutation_middle.
Qed.

(** ** Steps *)

Context (P : Prop).

(** The invariant of the methods, with the stamps [ext] detached. *)
Definition At ext c : Prop :=
  indexed (map c) (keys c) ext /\ StripedCounter.wf (hits c) /\ StripedCounter.wf (misses c) /\
  match size_limit c with Some n => 0 < n | None => True end /\
  (P \/ callback_total (on_evict c)).

Notation Inv := (At []).

Lemma map_remove_run c w k p r : take_key k (map c) = Some (p, r) ->
  map_remove k (c, w) = (Done (Some p.2), (with_map r c, w)).
Proof. intros E. unfold map_remove, bind, self, gets. simpl. by rewrite E. Qed.

Lemma map_remove_none c w k : take_key k (map c) = None -> map_remove k (c, w) = (Done None, (c, w)).
Proof. intros E. unfold map_remove, bind, self, gets. simpl. by rewrite E. Qed.

(** Dropping an entry and its stamp together. *)
Lemma indexed_both m ks k p r : indexed m ks [] -> take_key k m = Some (p, r) ->
  indexed r (bt_remove (as_stamped p.2) ks) [].
Proof.
  intros H E. pose proof E as E'. apply take_key_Some in E' as (xs & ys & -> & -> & Hk & F).
  assert (as_stamped p.2 ∈ ks) as Hs.
  { pose proof (ix_stamps _ _ _ H) as Ps. simpl in Ps. rewrite Ps. unfold stamps.
    rewrite fmap_app, fmap_cons. mem. }
  pose proof (ix_arcs _ _ _ H) as FA. apply Forall_app in FA as [FA1 [FAp FA2]%Forall_cons].
  pose proof (ix_keys _ _ _ H) as D. apply distinct_mid in D as [D _].
  split; [done|by apply Forall_app|apply remove_sorted, H|]. simpl.
  pose proof (ix_stamps _ _ _ H) as Ps. simpl in Ps. rewrite <- (remove_perm _ ks) in Ps by (done || apply H).
  unfold stamps in Ps. rewrite fmap_app, fmap_cons, <- Permutation_middle in Ps. simpl in Ps.
  apply Permutation_cons_inv in Ps. rewrite Ps. unfold stamps. by rewrite fmap_app.
Qed.

Lemma wp_sorted_notify k v (Q : unit -> TtlSortedCache K V W * W -> Prop) U c w :
  P \/ callback_total (on_evict c) -> (forall w', Q tt (c, w')) -> (forall w', P -> U (c, w')) ->
  wp (notify k v) Q U (c, w).
Proof.
  intros HP HQ HU. unfold notify. apply wp_bind, wp_gets. by apply (wp_callback P).
Qed.

Lemma wp_count_hit (Q : unit -> TtlSortedCache K V W * W -> Prop) U c w : StripedCounter.wf (hits c) ->
  (forall n, StripedCounter.wf n -> Q tt (with_hits n c, w)) -> wp count_hit Q U (c, w).
Proof.
  intros Hh HQ. unfold count_hit. apply wp_bind, wp_gets. simpl. apply wp_bind.
  destruct (StripedCounter.increment_run (current_thread w) (hits c) Hh) as (n & E & Hn & _).
  eapply wp_of_outcome; [exact E|]. apply wp_modify. by apply HQ.
Qed.

Lemma wp_count_miss (Q : unit -> TtlSortedCache K V W * W -> Prop) U c w : StripedCounter.wf (misses c) ->
  (forall n, StripedCounter.wf n -> Q tt (with_misses n c, w)) -> wp count_miss Q U (c, w).
Proof.
  intros Hh HQ. unfold count_miss. apply wp_bind, wp_gets. simpl. apply wp_bind.
  destruct (StripedCounter.increment_run (current_thread w) (misses c) Hh) as (n & E & Hn & _).
  eapply wp_of_outcome; [exact E|]. apply wp_modify. by apply HQ.
Qed.

(** ** Popping stamps *)

Definition guarded (prot : option (Stamped K)) s : bool :=
  match prot with Some p => stamped_eq p s | None => false end.

Lemma stamped_eq_cmp s s' : stamped_eq s s' = true -> cmp s s' = Eq.
Proof.
  unfold stamped_eq. rewrite andb_true_iff, bool_decide_eq_true. intros [E Hk].
  rewrite stamped_cmp_eq, E. assert (forall a, expiry_cmp a a = Eq) as Hr
    by (intros [a|]; simpl; [apply Z.compare_refl|done]). rewrite Hr.
  destruct (s_key s) as [k|], (s_key s') as [k'|]; try done.
  by apply cmp_keq in Hk.
Qed.

Local Ltac pops := unfold pop_first_unprotected, keys_insert, bind, self, gets, set_self, modify, ret; simpl.

Lemma pop_first_run prot c w : bt_sorted (keys c) ->
  (pop_first_unprotected prot (c, w) = (Done None, (c, w)) /\ Forall (fun s => guarded prot s = true) (keys c)) \/
  (exists pre s post, keys c = pre ++ s :: post /\
     pop_first_unprotected prot (c, w) = (Done (Some s), (with_keys (pre ++ post) c, w)) /\
     Forall (fun s => guarded prot s = true) pre /\ guarded prot s = false /\
     Forall (fun q => cmp s q = Lt) post).
Proof.
  intros S. destruct (keys c) as [|f rest] eqn:Ek.
  { left. split; [|done]. pops. by rewrite Ek. }
  pose proof (StronglySorted_inv S) as [Sr Fr]. unfold guarded.
  destruct prot as [p|]; [destruct (stamped_eq p f) eqn:Ep|].
  - destruct rest as [|n rest]; simpl.
    + left. split; [|by repeat constructor]. pops. rewrite Ek. simpl. rewrite Ep. simpl.
      destruct c; simpl in *; subst; done.
    + right. exists [f], n, rest. pose proof (StronglySorted_inv Sr) as [_ Fn].
      assert (stamped_eq p n = false) as En.
      { destruct (stamped_eq p n) eqn:En; [|done]. apply stamped_eq_cmp in Ep, En.
        apply Forall_cons in Fr as [Fn' _]. unfold below in Fn'.
        rewrite <- (cmp_eq_l p f n Ep), En in Fn'. done. }
      split_and!; [done| |by constructor|done|exact Fn].
      pops. rewrite Ek. simpl. rewrite Ep. simpl.
      rewrite (insert_head f rest); [done|]. by apply Forall_cons in Fr as [_ ?].
  - right. exists [], f, rest. split_and!; try done. pops. rewrite Ek. simpl. by rewrite Ep.
  - right. exists [], f, rest. split_and!; try done. pops. by rewrite Ek.
Qed.

Lemma indexed_mid m pre s post ext : indexed m (pre ++ s :: post) ext -> indexed m (pre ++ post) (s :: ext).
Proof.
  intros H. split; [apply H|apply H|by eapply sorted_mid, H|].
  rewrite <- (ix_stamps _ _ _ H), <- Permutation_middle. simpl. by rewrite Permutation_middle.
Qed.

(** ** The eviction loops *)

(** What the loops leave of [c]: [n] entries have gone, none of them guarded, and every one of
    them expires before every entry that stays and is not guarded. *)
Definition after prot c c' (n : nat) : Prop :=
  At [] c' /\ size_limit c' = size_limit c /\ (forall p, p ∈ map c' -> p ∈ map c) /\
  exists gone, length gone = n /\ keys c ≡ₚ gone ++ keys c' /\
    Forall (fun s => guarded prot s = false) gone /\
    forall s q, s ∈ gone -> q ∈ keys c' -> guarded prot q = false -> cmp s q = Lt.

Lemma after_refl prot c : At [] c -> after prot c c 0.
Proof.
  intros H. split; [done|]. split; [done|]. split; [done|]. exists []. split_and!; try done.
  intros s q Hs. by apply elem_of_nil in Hs.
Qed.

Lemma after_step prot c c1 c2 s pre post n : keys c = pre ++ s :: post -> keys c1 = pre ++ post ->
  size_limit c1 = size_limit c -> (forall p, p ∈ map c1 -> p ∈ map c) -> guarded prot s = false ->
  Forall (fun s => guarded prot s = true) pre -> Forall (fun q => cmp s q = Lt) post ->
  after prot c1 c2 n -> after prot c c2 (S n).
Proof.
  intros E1 E2 El Hm Hs Hpre Hpost (HA & El2 & Hm2 & gone & Hn & Pk & Hg & Ho).
  split; [done|]. split; [congruence|]. split; [auto|]. exists (s :: gone). split_and!.
  - simpl. lia.
  - rewrite E1, <- Permutation_middle. simpl. f_equiv. by rewrite <- E2.
  - by constructor.
  - assert (forall q, q ∈ keys c1 -> guarded prot q = false -> cmp s q = Lt) as Hlt.
    { intros q Hq Hg'. rewrite E2 in Hq. rewrite Forall_forall in Hpre, Hpost.
      apply elem_of_app in Hq as [Hq|Hq]; [by rewrite Hpre in Hg'|auto]. }
    intros s' q [->|Hs']%elem_of_cons Hq Hg'; [|auto]. apply Hlt; [|done]. rewrite Pk. mem.
Qed.

Lemma take_key_mem k m p r q : take_key k m = Some (p, r) -> q ∈ r -> q ∈ m.
Proof. intros (xs & ys & -> & -> & _)%take_key_Some Hq. mem. Qed.

(** Putting a popped stamp back. *)
Lemma after_put_back prot c s pre post : At [] c -> keys c = pre ++ s :: post ->
  after prot c (with_keys (bt_insert s (pre ++ post)) c) 0.
Proof.
  intros (H & Hh & Hm & Hl & HP) Ek. pose proof H as H0. rewrite Ek in H. apply indexed_mid, indexed_attach in H.
  split; [by split_and!|]. split; [done|]. split; [done|]. exists []. split_and!; try done.
  - simpl. pose proof (ix_stamps _ _ _ H) as P1. pose proof (ix_stamps _ _ _ H0) as P2.
    simpl in P1, P2. by rewrite P1, P2.
  - intros ? ? Hs. by apply elem_of_nil in Hs.
Qed.

Lemma retain_loop_wp fuel dc cutoff prot d c w : At [] c -> (length (keys c) <= fuel)%nat ->
  wp (retain_loop fuel dc cutoff prot d)
    (fun n st => (d <= n)%nat /\ after prot c st.1 (n - d) /\
       (dc <= n \/ Forall (fun q => guarded prot q = true) (keys st.1))%nat /\
       (cutoff = None -> (n <= Nat.max dc d)%nat))
    (fun st => P /\ exists n, after prot c st.1 n) (c, w).
Proof.
  revert d c w. induction fuel as [|fuel IH]; intros d c w HI Hf;
    pose proof HI as (H & Hh & Hm & Hl & HP); simpl; apply wp_bind;
    (destruct (pop_first_run prot c w (ix_sorted _ _ _ H)) as [[E Hg]|(pre & s & post & Ek & E & Hpre & Hs & Hpost)];
     (eapply wp_run; [exact E|])).
  1, 3: apply wp_ret; rewrite Nat.sub_diag; split_and!; [lia|by apply after_refl|by right|lia].
  { rewrite Ek, length_app in Hf. simpl in Hf. lia. }
  cbv beta iota. match goal with |- context [negb ?x] => remember x as expired eqn:Hexp end.
  destruct (Nat.leb dc d && negb expired) eqn:Eb.
  { apply andb_true_iff in Eb as [Eb%Nat.leb_le _]. apply wp_bind, wp_modify, wp_ret. simpl.
    rewrite Nat.sub_diag. split_and!; [lia|exact (after_put_back prot c s pre post HI Ek)|by left|lia]. }
  rewrite Ek in H. apply indexed_mid in H.
  destruct (indexed_remove _ _ _ _ H) as (k & e & r & Et & Ee & Esk & Hr). rewrite Esk.
  apply wp_bind. eapply wp_run; [by apply map_remove_run|]. simpl. do 2 apply wp_bind. apply wp_modify. simpl.
  set (c1 := with_evictions _ _).
  assert (At [] c1) as HI1 by (by split_and!).
  assert (forall n c2, after prot c1 c2 n -> after prot c c2 (S n)) as Hstep.
  { intros n c2. apply (after_step prot c c1 c2 s pre post n); try done.
    intros p Hp. by eapply take_key_mem. }
  assert (expired = true -> cutoff <> None) as Hx by (by intros ? ->; subst).
  apply wp_sorted_notify; [done| |].
  - intros w'. eapply wp_mono; [apply IH; [done|]| |].
    + rewrite Ek, length_app in Hf. subst c1. simpl in *. rewrite length_app. lia.
    + intros n st (Hn & Ha & Hd & Hc). split_and!; [lia| |done|].
      * replace (n - d)%nat with (S (n - S d)) by lia. by apply Hstep.
      * intros Hn'. specialize (Hc Hn'). apply andb_false_iff in Eb as [Eb%Nat.leb_gt|Eb%negb_false_iff]; [lia|].
        by apply Hx in Eb.
    + intros st (Hp & n & Ha). split; [done|]. exists (S n). by apply Hstep.
  - intros w' Hp. split; [done|]. exists 1%nat. by apply Hstep, after_refl.
Qed.

(** The deadline of an entry is before [t]. *)
Definition before (t : Z) (p : K * Entry K V) : bool :=
  match e_expiry p.2 with Some x => x <? t | None => false end.

Lemma below_bound t e k : cmp (as_stamped e) (bound t) = Lt <-> before t (k, e) = true.
Proof.
  rewrite stamped_cmp_eq. unfold before. simpl. destruct (e_expiry e) as [x|]; simpl; [|done].
  rewrite Z.ltb_compare. by destruct (x ?= t).
Qed.

Lemma remove_stamped_run c w s ext : At (s :: ext) c ->
  exists k e r, remove_stamped s (c, w) = (Done [(k, e)], (with_map r c, w)) /\ At ext (with_map r c) /\
    length (map c) = S (length r) /\ (forall p, p ∈ r -> p ∈ map c).
Proof.
  intros (H & Hh & Hm & Hl & HP). destruct (indexed_remove _ _ _ _ H) as (k & e & r & Et & Ee & Esk & Hr).
  exists k, e, r. unfold remove_stamped. rewrite Esk, (bind_run _ _ _ _ _ (map_remove_run _ _ _ _ _ Et)).
  split_and!; try done.
  - by destruct (take_key_distinct _ _ _ _ (ix_keys _ _ _ H) Et) as (_ & _ & _ & _ & ?).
  - intros p Hp. by eapply take_key_mem.
Qed.

Lemma remove_stamps_run lo c w : At lo c ->
  exists es r, map_each lo remove_stamped (c, w) = (Done es, (with_map r c, w)) /\ At [] (with_map r c) /\
    length (concat es) = length lo /\ length (map c) = (length lo + length r)%nat /\
    (forall p, p ∈ r -> p ∈ map c).
Proof.
  revert c. induction lo as [|s lo IH]; intros c HA.
  { exists [], (map c). destruct c. by split_and!. }
  destruct (remove_stamped_run c w s lo HA) as (k & e & r & E & HA1 & Hl & Hm).
  destruct (IH (with_map r c) HA1) as (es & r' & E' & HA2 & Hn & Hl' & Hm').
  exists ([(k, e)] :: es), r'. cbn [map_each]. rewrite (bind_run _ _ _ _ _ E), (bind_run _ _ _ _ _ E').
  split_and!; [done|done| | |]; simpl in *; [lia|lia|auto].
Qed.

(** What an eviction at [t] leaves: exactly the entries whose deadline is not before [t]. *)
Definition swept t c c' (n : nat) : Prop :=
  At [] c' /\ size_limit c' = size_limit c /\ length (map c) = (n + length (map c'))%nat /\
  forall p, p ∈ map c' <-> p ∈ map c /\ before t p = false.

Lemma indexed_mem m ks p : indexed m ks [] -> p ∈ m -> as_stamped p.2 ∈ ks.
Proof.
  intros H Hp. pose proof (ix_stamps _ _ _ H) as Ps. simpl in Ps. rewrite Ps.
  by apply (list_elem_of_fmap_2 (fun p => as_stamped p.2)).
Qed.

(** Two entries of one index with the same stamp are the same. *)
Lemma stamp_inj m ks ext p q : indexed m ks ext -> p ∈ m -> q ∈ m -> as_stamped p.2 = as_stamped q.2 -> p = q.
Proof.
  intros H Hp Hq E. pose proof (arc _ _ (ix_arcs _ _ _ H) Hp). pose proof (arc _ _ (ix_arcs _ _ _ H) Hq).
  assert (p.1 = q.1) as E1 by (injection E as ? ?; congruence).
  pose proof (distinct_find m p (ix_keys _ _ _ H) Hp) as F1.
  pose proof (distinct_find m q (ix_keys _ _ _ H) Hq) as F2. congruence.
Qed.

Lemma swept_intro t c r lo hi : At [] c -> bt_split_off (bound t) (keys c) = (lo, hi) ->
  At [] (with_map r (with_keys hi c)) -> length (map c) = (length lo + length r)%nat ->
  (forall p, p ∈ r -> p ∈ map c) -> swept t c (with_map r (with_keys hi c)) (length lo).
Proof.
  intros (H & _) Es HA Hl Hm. split; [done|]. split; [done|]. split; [done|].
  pose proof (split_off_spec (bound t) (keys c) (ix_sorted _ _ _ H)) as Hs. rewrite Es in Hs.
  destruct Hs as (Ek & _ & Hlo & Hhi). rewrite Forall_forall in Hlo, Hhi. destruct HA as (H' & _).
  simpl in *. intros p. split.
  - intros Hp. split; [auto|]. pose proof (indexed_mem _ _ _ H' Hp) as Hp'. apply Hhi in Hp'.
    destruct p as [k e]. simpl in Hp'. rewrite (below_bound t e k) in Hp'. by destruct (before t (k, e)).
  - intros [Hp Hb]. pose proof (indexed_mem _ _ _ H Hp) as Hp'. rewrite Ek in Hp'.
    apply elem_of_app in Hp' as [Hp'|Hp'].
    + apply Hlo in Hp'. destruct p as [k e]. simpl in Hp'. rewrite (below_bound t e k) in Hp'. congruence.
    + pose proof (ix_stamps _ _ _ H') as Ps. simpl in Ps. rewrite Ps in Hp'.
      apply list_elem_of_fmap in Hp' as (q & Eq & Hq).
      rewrite (stamp_inj _ _ _ p q H Hp (Hm _ Hq) Eq). done.
Qed.

Lemma notify_all_wp {A} (l : list A) (f : A -> K * V) c w (Q : unit -> TtlSortedCache K V W * W -> Prop) U :
  P \/ callback_total (on_evict c) -> (forall w', Q tt (c, w')) -> (forall w', P -> U (c, w')) ->
  wp (for_each l (fun x => notify (f x).1 (f x).2)) Q U (c, w).
Proof.
  intros HP HQ HU. revert w. induction l as [|x l IH]; intros w; simpl; [apply HQ|].
  apply wp_bind, wp_sorted_notify; auto.
Qed.

Lemma evict_at_wp t c w : At [] c ->
  wp (evict_at t)
    (fun n st => swept t c st.1 n /\ evictions st.1 = Nat.iter (Nat.min n 1) (fun z => fetch_add z (Z.of_nat n)) (evictions c))
    (fun st => P /\ exists n, swept t c st.1 n) (c, w).
Proof.
  intros HI. pose proof HI as (H & Hh & Hm & Hl & HP). unfold evict_at. apply wp_bind, wp_gets. simpl.
  pose proof (split_off_spec (bound t) (keys c) (ix_sorted _ _ _ H)) as Hs.
  destruct (bt_split_off (bound t) (keys c)) as [lo hi] eqn:Es. destruct Hs as (Ek & Sh & _ & _).
  apply wp_bind, wp_modify. simpl.
  assert (At lo (with_keys hi c)) as HA.
  { split_and!; try done. split; [apply H|apply H|done|]. rewrite <- (ix_stamps _ _ _ H), Ek. done. }
  destruct (remove_stamps_run lo (with_keys hi c) w HA) as (es & r & E & HA' & Hn & Hlen & Hmem).
  pose proof (swept_intro t c r lo hi HI Es HA' Hlen Hmem) as Hsw.
  destruct (Nat.eqb_spec (length lo) 0) as [E0|E0].
  - apply wp_ret. destruct lo; [|done]. simpl in *. split; [|done]. injection E as <- Er.
    rewrite <- Er in Hsw. exact Hsw.
  - apply wp_bind. eapply wp_run; [exact E|]. apply wp_bind, wp_modify. simpl. apply wp_bind.
    apply (notify_all_wp (concat es) (fun x : K * Entry K V => (x.1, e_value x.2))); [done| |].
    + intros w'. apply wp_ret. split; [exact Hsw|]. simpl. rewrite Hn.
      destruct (length lo); [done|]. by rewrite Nat.min_r by lia.
    + intros w' Hp. split; [done|]. by exists (length lo).
Qed.

(** ** Trimming to a size *)

Lemma indexed_length m ks : indexed m ks [] -> length ks = length m.
Proof. intros H. pose proof (ix_stamps _ _ _ H) as Ps. simpl in Ps. rewrite Ps. unfold stamps. apply length_fmap. Qed.

Lemma after_length prot c c' n : At [] c -> after prot c c' n -> length (map c) = (n + length (map c'))%nat.
Proof.
  intros (H & _) ((H' & _) & _ & _ & gone & <- & Pk & _).
  rewrite <- (indexed_length _ _ H), <- (indexed_length _ _ H'), <- length_app. by rewrite Pk.
Qed.

Lemma after_guarded prot c c' n p : At [] c -> after prot c c' n -> p ∈ map c ->
  guarded prot (as_stamped p.2) = true -> p ∈ map c'.
Proof.
  intros (H & _) ((H' & _) & _ & Hm & gone & _ & Pk & Hg & _) Hp Hpg.
  pose proof (indexed_mem _ _ _ H Hp) as Hs. rewrite Pk in Hs. rewrite Forall_forall in Hg.
  apply elem_of_app in Hs as [Hs|Hs]; [apply Hg in Hs; congruence|].
  pose proof (ix_stamps _ _ _ H') as Ps. simpl in Ps. rewrite Ps in Hs.
  apply list_elem_of_fmap in Hs as (q & Eq & Hq). by rewrite (stamp_inj _ _ _ p q H Hp (Hm _ Hq) Eq).
Qed.

Lemma guarded_few prot ks : bt_sorted ks -> Forall (fun s => guarded prot s = true) ks -> (length ks <= 1)%nat.
Proof.
  intros S F. destruct ks as [|a [|b ks]]; simpl; [lia|lia|]. exfalso.
  apply StronglySorted_inv in S as [_ S]. apply Forall_cons in S as [S _].
  apply Forall_cons in F as [Ha F]. apply Forall_cons in F as [Hb _]. unfold below in S.
  destruct prot as [q|]; [|done]. simpl in *. apply stamped_eq_cmp in Ha, Hb.
  rewrite <- (cmp_eq_l q a b Ha), Hb in S. done.
Qed.

Definition shrunk c c' : Prop :=
  At [] c' /\ size_limit c' = size_limit c /\ forall p, p ∈ map c' -> p ∈ map c.

Lemma after_shrunk prot c c' n : after prot c c' n -> shrunk c c'.
Proof. intros (? & ? & ? & _). by split_and!. Qed.

Lemma swept_shrunk t c c' n : swept t c c' n -> shrunk c c'.
Proof. intros (? & ? & _ & H). split_and!; try done. intros p Hp. by apply H. Qed.

(** A trim to [count], when that is positive, leaves at most [count] entries. *)
Lemma retain_protecting_wp count cutoff prot c w : At [] c -> 0 <= count ->
  wp (retain_latest_at_protecting count cutoff prot)
    (fun n st => shrunk c st.1 /\ Z.of_nat (length (map st.1)) <= Z.max 1 count /\
       (cutoff = None -> after prot c st.1 n /\ Z.of_nat n <= Z.max 0 (Z.of_nat (length (map c)) - count)))
    (fun st => P /\ shrunk c st.1) (c, w).
Proof.
  intros HI Hc. unfold retain_latest_at_protecting. apply wp_bind, wp_gets. simpl.
  set (dc := Z.to_nat (saturating_sub (Z.of_nat (length (map c))) count)).
  assert (Z.of_nat dc = Z.max 0 (Z.of_nat (length (map c)) - count)) as Hdc.
  { unfold dc, saturating_sub. lia. }
  assert (shrunk c c) as Hs by done.
  destruct (Nat.eqb dc 0 && bool_decide (prot = None)) eqn:E1.
  { apply andb_true_iff in E1 as [E0%Nat.eqb_eq _]. destruct cutoff as [t|].
    - eapply wp_mono; [by apply evict_at_wp| |].
      + intros n st [Hw _]. split_and!; [by eapply swept_shrunk| |done].
        destruct Hw as (_ & _ & Hl & _). lia.
      + intros st (Hp & n & Hw). split; [done|by eapply swept_shrunk].
    - apply wp_ret. split_and!; [done|simpl; lia|]. intros _. split; [by apply after_refl|lia]. }
  destruct (Nat.eqb dc 0 && bool_decide (cutoff = None)) eqn:E2.
  { apply andb_true_iff in E2 as [E0%Nat.eqb_eq _]. apply wp_ret. split_and!; [done|simpl; lia|].
    intros _. split; [by apply after_refl|lia]. }
  eapply wp_mono; [by apply retain_loop_wp| |].
  - intros n st (_ & Ha & Hd & Hn). rewrite Nat.sub_0_r in Ha. split_and!; [by eapply after_shrunk| |].
    + pose proof (after_length _ _ _ _ HI Ha) as Hl. destruct Hd as [Hd|Hd]; [lia|].
      destruct Ha as ((H' & _) & _). rewrite <- (indexed_length _ _ H').
      pose proof (guarded_few _ _ (ix_sorted _ _ _ H') Hd). lia.
    + intros Hcut. split; [done|]. specialize (Hn Hcut). lia.
  - intros st (Hp & n & Ha). split; [done|by eapply after_shrunk].
Qed.

(** ** Placing an entry *)

Lemma apart_expiry s s' : s_expiry s <> s_expiry s' -> cmp s s' <> Eq.
Proof.
  rewrite stamped_cmp_eq. intros H. destruct (s_expiry s) as [a|], (s_expiry s') as [b|]; simpl; try done.
  destruct (a ?= b) eqn:E; try done. apply Z.compare_eq_iff in E. congruence.
Qed.

(** The map and the set after [key] was bound, before any eviction. *)
Definition placed key v (x : option Z) c : TtlSortedCache K V W :=
  match find_key key (map c) with
  | Some (_, old) =>
      let new := mkStamped x (Some (e_key old)) in
      with_keys (if bool_decide (e_expiry old = x) then bt_insert new (keys c)
                 else bt_remove (as_stamped old) (bt_insert new (keys c)))
        (with_map (hm_update key (mkEntry x (e_key old) v) (map c)) c)
  | None => with_keys (bt_insert (mkStamped x (Some key)) (keys c))
              (with_map (map c ++ [(key, mkEntry x key v)]) c)
  end.

Lemma indexed_update m ks xs k old ys x v : m = xs ++ (k, old) :: ys -> indexed m ks [] ->
  let new := mkEntry x k v in
  indexed (xs ++ (k, new) :: ys)
    (if bool_decide (e_expiry old = x) then bt_insert (as_stamped new) ks
     else bt_remove (as_stamped old) (bt_insert (as_stamped new) ks)) [].
Proof.
  intros -> H new. pose proof (ix_arcs _ _ _ H) as FA. pose proof (ix_keys _ _ _ H) as D.
  assert (e_key old = k) as Ek by (apply (arc _ (k, old) FA); mem).
  assert (Forall (fun p => e_key p.2 = p.1) (xs ++ (k, new) :: ys)) as FA'.
  { apply Forall_app in FA as [? [_ ?]%Forall_cons]. apply Forall_app. split; [done|by constructor]. }
  assert (distinct (xs ++ (k, new) :: ys)) as D'.
  { apply distinct_mid in D as [D1 D2]. by apply distinct_insert. }
  assert (stamps (xs ++ (k, old) :: ys) ≡ₚ as_stamped old :: stamps (xs ++ ys)) as P1
    by (unfold stamps; by rewrite !fmap_app, fmap_cons, <- Permutation_middle).
  assert (stamps (xs ++ (k, new) :: ys) ≡ₚ as_stamped new :: stamps (xs ++ ys)) as P2
    by (unfold stamps; by rewrite !fmap_app, fmap_cons, <- Permutation_middle).
  pose proof (ix_stamps _ _ _ H) as Ps. simpl in Ps. rewrite P1 in Ps.
  destruct (bool_decide_reflect (e_expiry old = x)) as [Ex|Ex].
  - assert (as_stamped new = as_stamped old) as En by (unfold as_stamped, new; simpl; congruence).
    rewrite En, (insert_present _ (as_stamped old)); [|apply H|rewrite Ps; left|apply cmp_refl].
    split; [done|done|apply H|]. simpl. by rewrite P2, En, Ps.
  - assert (apart (as_stamped new) ks) as A.
    { apply Forall_forall. intros s Hs. rewrite Ps in Hs. apply elem_of_cons in Hs as [->|Hs].
      - by apply apart_expiry.
      - pose proof (stamps_apart _ (k, new) xs ys D' FA' eq_refl) as A. unfold apart in A.
        rewrite Forall_forall in A. by apply A. }
    assert (as_stamped old ∈ bt_insert (as_stamped new) ks) as Hin
      by (rewrite (insert_perm _ _ A), Ps; right; left).
    split; [done|done|apply remove_sorted, insert_sorted, H|]. simpl. rewrite P2.
    apply (Permutation_cons_inv (a := as_stamped old)).
    rewrite (remove_perm _ _ (insert_sorted _ _ (ix_sorted _ _ _ H)) Hin), (insert_perm _ _ A), Ps.
    apply Permutation_swap.
Qed.

Lemma find_split k m p : find_key k m = Some p ->
  exists xs ys, m = xs ++ p :: ys /\ fresh k xs /\ keq k p.1 = true.
Proof.
  unfold find_key. destruct (take_key k m) as [[q r]|] eqn:E; [|done]. intros [= ->].
  apply take_key_Some in E as (xs & ys & -> & _ & Hk & F). by exists xs, ys.
Qed.

(** The key an entry is filed under. *)
Definition filed key c : K := match find_key key (map c) with Some (k, _) => k | None => key end.

Lemma placed_at key v x c : At [] c -> At [] (placed key v x c).
Proof.
  intros (H & Hh & Hm & Hl & HP). unfold placed.
  destruct (find_key key (map c)) as [[k old]|] eqn:E; (split; [simpl|by split_and!]).
  - destruct (find_split _ _ _ E) as (xs & ys & Em & F & Hk).
    assert (e_key old = k) as -> by (apply (arc _ (k, old) (ix_arcs _ _ _ H)); rewrite Em; mem).
    rewrite Em, hm_update_split by done.
    exact (indexed_update _ _ xs k old ys x v Em H).
  - apply find_fresh in E. apply (indexed_attach _ _ [] (as_stamped (mkEntry x key v))).
    split; [by apply distinct_snoc; [apply H|]|apply Forall_app; split; [apply H|by repeat constructor]|apply H|].
    simpl. unfold stamps. rewrite fmap_app. simpl. rewrite <- Permutation_cons_append. f_equiv. apply H.
Qed.

Lemma placed_lookup key v x c k : At [] c -> find_key k (map (placed key v x c)) =
  if keq key k then Some (filed key c, mkEntry x (filed key c) v) else find_key k (map c).
Proof.
  intros (H & _). unfold placed, filed. destruct (find_key key (map c)) as [[k0 old]|] eqn:E; simpl.
  - assert (e_key old = k0) as -> by (apply (arc _ (k0, old) (ix_arcs _ _ _ H)); by apply find_key_Some in E as [? _]).
    by rewrite (find_key_update key _ _ _ (ix_keys _ _ _ H) E).
  - rewrite find_key_snoc; [done|by apply find_fresh|apply H].
Qed.

Lemma placed_mem key v x c : At [] c ->
  (filed key c, mkEntry x (filed key c) v) ∈ map (placed key v x c).
Proof.
  intros HI. pose proof (placed_lookup key v x c key HI) as E. rewrite keq_refl in E.
  by apply find_key_Some in E as [? _].
Qed.

Lemma placed_same key v x c : on_evict (placed key v x c) = on_evict c /\
  size_limit (placed key v x c) = size_limit c /\ evictions (placed key v x c) = evictions c.
Proof. unfold placed. by destruct (find_key key (map c)) as [[? ?]|]. Qed.

(** An expired entry that is replaced counts as evicted. *)
Definition displaced key (t : Z) c c' : TtlSortedCache K V W :=
  match find_key key (map c) with
  | Some (_, old) => if is_expired_at old t then with_evictions (fetch_add (evictions c') 1) c' else c'
  | None => c'
  end.

Definition set_done key v (x : option Z) (t : Z) c := displaced key t c (placed key v x c).

Lemma set_done_at key v x t c : At [] c -> At [] (set_done key v x t c).
Proof.
  intros HI. unfold set_done, displaced. pose proof (placed_at key v x c HI) as H.
  destruct (find_key key (map c)) as [[k old]|]; [|done]. by destruct (is_expired_at old t).
Qed.

Lemma set_done_map key v x t c : map (set_done key v x t c) = map (placed key v x c) /\
  keys (set_done key v x t c) = keys (placed key v x c) /\ size_limit (set_done key v x t c) = size_limit c.
Proof.
  unfold set_done, displaced. destruct (placed_same key v x c) as (_ & El & _).
  destruct (find_key key (map c)) as [[k old]|]; [destruct (is_expired_at old t)|]; by split_and!.
Qed.

(** The value [set] gives back. *)
Definition prior key (t : Z) c : option V :=
  match find_key key (map c) with
  | Some (_, old) => if is_expired_at old t then None else Some (e_value old)
  | None => None
  end.

(** The size or deadline eviction that ends an insertion. *)
Definition trim (evict skip : bool) (t : Z) : Op K V W unit :=
  if skip then ret tt else
  let! c := self in
  match size_limit c with
  | Some size_limit => retain_latest_at size_limit (if evict then Some t else None) ;; ret tt
  | None => if evict then evict_at t ;; ret tt else ret tt
  end.

Lemma set_inner_wp key v ttl_ ev skip c w (Q : option V * Stamped K -> TtlSortedCache K V W * W -> Prop) U :
  At [] c ->
  let t := (clock_now w).1 in
  let x := compute_expires_at (default (ttl c) ttl_) t in
  (forall w', wp (trim ev skip t) (fun _ st => Q (prior key t c, mkStamped x (Some (filed key c))) st) U
     (set_done key v x t c, w')) ->
  (forall w', P -> U (set_done key v x t c, w')) ->
  wp (set_inner key v ttl_ ev skip) Q U (c, w).
Proof.
  intros HI t x HQ HU. pose proof (set_done_at key v x t c HI) as HD.
  pose proof HI as (H & _). unfold set_inner. apply wp_bind, wp_gets. apply wp_bind, wp_now. cbn [fst snd]. fold t.
  change (if default (ttl c) ttl_ =? 0 then None else instant_checked_add t (default (ttl c) ttl_)) with x.
  cbv zeta. unfold set_done, displaced, placed, prior, filed in *.
  destruct (find_key key (map c)) as [[k old]|] eqn:E.
  - assert (e_key old = k) as Ek by (apply (arc _ (k, old) (ix_arcs _ _ _ H)); by apply find_key_Some in E as [? _]).
    simpl in *. rewrite Ek in *. apply wp_bind, wp_bind, wp_modify. simpl. apply wp_ret.
    apply wp_bind, wp_modify. apply wp_bind. simpl.
    destruct (bool_decide (e_expiry old = x)); (apply wp_ret || apply wp_modify); apply wp_bind; simpl in *;
    (destruct (is_expired_at old t);
     [apply wp_bind, wp_modify; apply wp_bind, wp_sorted_notify; [apply HD|intros w'; apply wp_ret|intros w' Hp; by apply HU]
     |apply wp_ret]); apply wp_bind; apply HQ.
  - simpl. apply wp_bind, wp_bind, wp_modify. simpl. apply wp_ret. apply wp_bind, wp_modify. simpl.
    apply wp_bind, wp_ret. apply wp_bind, wp_ret. apply wp_bind. apply HQ.
Qed.

Lemma trim_wp ev skip t c w : At [] c ->
  wp (trim ev skip t)
    (fun _ st => shrunk c st.1 /\
       (skip = false -> match size_limit c with Some n => Z.of_nat (length (map st.1)) <= n | None => True end) /\
       (skip = true -> st.1 = c) /\
       (ev = false -> exists n, after None c st.1 n /\
          match size_limit c with
          | Some lim => Z.of_nat n <= Z.max 0 (Z.of_nat (length (map c)) - lim)
          | None => n = 0%nat
          end))
    (fun st => P /\ shrunk c st.1) (c, w).
Proof.
  intros HI. pose proof (after_refl None c HI) as Ha. pose proof HI as (_ & _ & _ & Hl & _).
  unfold trim. destruct skip.
  { apply wp_ret. split_and!; try done. intros _. exists 0%nat. split; [done|].
    destruct (size_limit c); [lia|done]. }
  apply wp_bind, wp_gets. simpl. destruct (size_limit c) as [n|] eqn:En.
  - apply wp_bind. eapply wp_mono; [apply (retain_protecting_wp n _ None c w HI); lia| |done].
    intros d st (Hs & Hlen & Hc). apply wp_ret. split_and!; try done; [simpl in *; lia|]. intros ->.
    destruct (Hc eq_refl) as [Ha' Hd]. by exists d.
  - destruct ev; [|apply wp_ret; split_and!; try done; by exists 0%nat].
    apply wp_bind. eapply wp_mono; [by apply evict_at_wp| |].
    + intros d st [Hw _]. apply wp_ret. split_and!; try done. by eapply swept_shrunk.
    + intros st (Hp & d & Hw). split; [done|]. by eapply swept_shrunk.
Qed.

(** ** The other methods *)

Notation ok m := (forall c w, Inv c -> wp m (fun _ st => Inv st.1) (fun st => P /\ Inv st.1) (c, w)).

Lemma shrunk_at c c' : shrunk c c' -> At [] c'.
Proof. by intros [? _]. Qed.

Lemma set_inner_ok key v ttl_ ev skip : ok (set_inner key v ttl_ ev skip).
Proof.
  intros c w HI. apply set_inner_wp; [done| |].
  - intros w'. eapply wp_mono; [apply trim_wp, set_done_at, HI| |]; simpl.
    + intros _ st [Hs _]. by eapply shrunk_at.
    + intros st [Hp Hs]. split; [done|]. by eapply shrunk_at.
  - intros w' Hp. split; [done|]. by apply set_done_at.
Qed.

(** The entry just set is there when [set_and_get_mut] hands out a reference to it. *)
Definition bound_to key (x : option Z) v c (st : TtlSortedCache K V W * W) : Prop :=
  At [] st.1 /\ find_key key (map st.1) = Some (filed key c, mkEntry x (filed key c) v) /\
  match size_limit c with Some n => Z.of_nat (length (map st.1)) <= n | None => True end.

Lemma find_member key v x c c' : At [] c -> At [] c' ->
  (filed key c, mkEntry x (filed key c) v) ∈ map c' ->
  find_key (filed key c) (map c') = Some (filed key c, mkEntry x (filed key c) v) /\
  find_key key (map c') = Some (filed key c, mkEntry x (filed key c) v).
Proof.
  intros HI (H & _) Hin. pose proof (distinct_find _ _ (ix_keys _ _ _ H) Hin) as E. simpl in E.
  split; [done|]. rewrite <- E. apply find_key_cong. unfold filed.
  destruct (find_key key (map c)) as [[k old]|] eqn:Ef; [|apply keq_refl].
  by apply find_key_Some in Ef as [_ ?].
Qed.

Lemma set_and_get_mut_wp key v c w : At [] c ->
  let x := compute_expires_at (ttl c) (clock_now w).1 in
  wp (set_and_get_mut key v) (fun r st => r = filed key c /\ bound_to key x v c st)
    (fun st => P /\ At [] st.1) (c, w).
Proof.
  intros HI x. unfold set_and_get_mut. apply wp_bind, set_inner_wp; [done| |].
  2: { intros w' Hp. split; [done|]. by apply set_done_at. }
  intros w'. apply wp_ret. cbn [snd default]. fold x. set (t := (clock_now w).1).
  pose proof (set_done_at key v x t c HI) as HD. destruct (set_done_map key v x t c) as (Em & _ & El).
  pose proof (placed_mem key v x c HI) as Hin. rewrite <- Em in Hin.
  set (c2 := set_done key v x t c) in *. apply wp_bind, wp_gets. apply wp_bind. cbn [fst]. rewrite El.
  assert (forall c3 w3, At [] c3 -> (filed key c, mkEntry x (filed key c) v) ∈ map c3 ->
    match size_limit c with Some n => Z.of_nat (length (map c3)) <= n | None => True end ->
    wp (match s_key (mkStamped x (Some (filed key c))) with
        | Some key0 => let! c4 := self in match find_key key0 (map c4) with Some _ => ret key0 | None => unwind end
        | None => unwind
        end) (fun r st => r = filed key c /\ bound_to key x v c st) (fun st => P /\ At [] st.1) (c3, w3)) as Hend.
  { intros c3 w3 H3 Hin3 Hl3. simpl. apply wp_bind, wp_gets. simpl.
    destruct (find_member key v x c c3 HI H3 Hin3) as [-> E]. apply wp_ret. done. }
  pose proof HI as (_ & _ & _ & Hpos & _). destruct (size_limit c) as [n|] eqn:En; [|by apply wp_ret, Hend].
  destruct (n <? Z.of_nat (length (map c2))) eqn:Elt; [|apply wp_ret, Hend; [done|done|lia]].
  apply wp_bind. eapply wp_mono; [apply (retain_protecting_wp n None (Some (mkStamped x (Some (filed key c)))) c2 w' HD); lia| |].
  - intros d st (Hs & Hlen & Ha). destruct (Ha eq_refl) as [Ha' _]. destruct st as [c3 w3].
    apply wp_ret, Hend; [by eapply shrunk_at| |simpl in *; lia]. eapply after_guarded; [exact HD|exact Ha'|exact Hin|].
    simpl. unfold stamped_eq. simpl. by rewrite bool_decide_true, keq_refl.
  - intros st [Hp Hs]. split; [done|by eapply shrunk_at].
Qed.

(** Rewriting a value in place. *)
Lemma indexed_value m ks ext k k0 e v : indexed m ks ext -> find_key k m = Some (k0, e) ->
  indexed (hm_update k (mkEntry (e_expiry e) (e_key e) v) m) ks ext.
Proof.
  intros H E. destruct (find_split _ _ _ E) as (xs & ys & -> & F & Hk).
  pose proof (distinct_update k (mkEntry (e_expiry e) (e_key e) v) _ (ix_keys _ _ _ H)) as D.
  rewrite hm_update_split in * by done. simpl in *. pose proof (ix_arcs _ _ _ H) as FA.
  apply Forall_app in FA as [F1 [F2 F3]%Forall_cons].
  split; [done|apply Forall_app; split; [done|by constructor]|apply H|].
  rewrite (ix_stamps _ _ _ H). unfold stamps. by rewrite !fmap_app, !fmap_cons.
Qed.

Lemma distinct_sublist (l l' : list (K * Entry K V)) : sublist l l' -> distinct l' -> distinct l.
Proof.
  induction 1 as [|p l l' Hs IH|p l l' Hs IH]; simpl; [done| |by intros [_ ?]; auto].
  intros [F D]. split; [|auto]. rewrite Forall_forall in *. intros q Hq. apply F.
  by eapply elem_of_sublist.
Qed.

(** The removal loop of [retain]. *)
Definition retain_step s : Op K V W (list (Entry K V)) :=
  match s_key s with
  | None => unwind
  | Some key =>
      keys_remove s ;;
      let! r := map_remove key in
      ret (match r with Some e => [e] | None => [] end)
  end.

Lemma retain_step_run c w p : At [] c -> p ∈ map c ->
  exists r, retain_step (as_stamped p.2) (c, w) =
      (Done [p.2], (with_map r (with_keys (bt_remove (as_stamped p.2) (keys c)) c), w)) /\
    At [] (with_map r (with_keys (bt_remove (as_stamped p.2) (keys c)) c)) /\ map c ≡ₚ p :: r /\ fresh p.1 r.
Proof.
  intros (H & Hrest) Hp. pose proof (arc _ _ (ix_arcs _ _ _ H) Hp) as Ek.
  pose proof (distinct_find _ _ (ix_keys _ _ _ H) Hp) as Ef. unfold find_key in Ef.
  destruct (take_key p.1 (map c)) as [[q r]|] eqn:Et; [|done]. injection Ef as ->. exists r.
  destruct (take_key_distinct _ _ _ _ (ix_keys _ _ _ H) Et) as (_ & Pm & _ & F & _).
  split_and!; [|split; [by eapply indexed_both|done]|done|done].
  unfold retain_step. simpl. unfold keys_remove, bind at 1, set_self, modify. simpl. rewrite Ek.
  erewrite bind_run; [|by apply map_remove_run]. done.
Qed.

Lemma retain_removes l c w : At [] c -> distinct l -> (forall p, p ∈ l -> p ∈ map c) ->
  exists rs c', map_each ((fun p => as_stamped p.2) <$> l) retain_step (c, w) = (Done rs, (c', w)) /\
    concat rs = (fun p => p.2) <$> l /\ At [] c' /\ map c ≡ₚ l ++ map c' /\
    size_limit c' = size_limit c /\ evictions c' = evictions c /\ on_evict c' = on_evict c.
Proof.
  revert c. induction l as [|p l IH]; intros c HI D Hl; [by exists [], c|].
  destruct D as [Fp D]. destruct (retain_step_run c w p HI) as (r & E & HI1 & Pm & F); [apply Hl; left|].
  set (c1 := with_map r _) in *.
  assert (forall q, q ∈ l -> q ∈ map c1) as Hl1.
  { intros q Hq. assert (q ∈ map c) as Hm by (apply Hl; by right). rewrite Pm in Hm.
    apply elem_of_cons in Hm as [->|Hm]; [|done]. exfalso. rewrite Forall_forall in Fp.
    pose proof (Fp _ Hq) as Hk. by rewrite keq_refl in Hk. }
  destruct (IH c1 HI1 D Hl1) as (rs & c' & E' & Hc & HI' & Pm' & Es & Ee & Eo).
  exists ([p.2] :: rs), c'. rewrite fmap_cons. cbn [map_each].
  rewrite (bind_run _ _ _ _ _ E), (bind_run _ _ _ _ _ E').
  split_and!; try done; [simpl; by rewrite Hc|]. rewrite Pm. simpl. f_equiv. exact Pm'.
Qed.

Lemma sorted_retain_ok keep : (forall k v, P \/ total (keep k v)) -> ok (retain keep).
Proof.
  intros Hk c w HI. unfold retain. apply wp_bind, wp_now. apply wp_bind, wp_gets. apply wp_bind. simpl.
  eapply wp_mono; [apply (keeps_filter_sub (fun st : TtlSortedCache K V W * W => st.1 = c) P); [|done]| |].
  - intros p [c0 w0] E. simpl in E. destruct (is_expired_at _ _); [done|]. apply wp_bind.
    eapply wp_mono; [apply (keeps_user (fun c0 => c0 = c) P); [apply Hk|exact E]|done|done].
  - intros doomed [c0 w0] [E Hs]. simpl in E. subst c0. pose proof HI as (H & _).
    destruct (retain_removes doomed c w0 HI) as (rs & c' & Er & Ec & HI' & _).
    { eapply distinct_sublist; [exact Hs|apply H]. }
    { intros p Hp. eapply elem_of_sublist; [exact Hp|exact Hs]. }
    apply wp_bind. eapply wp_run; [exact Er|]. apply wp_bind, wp_modify. apply wp_bind. simpl.
    apply (notify_all_wp (concat rs) (fun e => (e_key e, e_value e))); [apply HI'| |done].
    intros w'. by apply wp_ret.
  - intros [c0 w0] [Hp E]. simpl in *. by subst.
Qed.

(** Symbolic run of a method, down to the states it can end in. *)
Ltac go1 :=
  match goal with
  | |- wp (bind _ _) _ _ _ => apply wp_bind
  | |- wp (ret _) _ _ _ => apply wp_ret
  | |- wp self _ _ _ => apply wp_gets
  | |- wp (set_self _) _ _ _ => apply wp_modify
  | |- wp count_hit _ _ _ => apply wp_count_hit; [done|intros ? ?]
  | |- wp count_miss _ _ _ => apply wp_count_miss; [done|intros ? ?]
  | |- wp (count_evictions _) _ _ _ => apply wp_modify
  | |- wp (keys_remove _) _ _ _ => apply wp_modify
  | |- wp now _ _ _ => apply wp_now
  | |- wp (notify _ _) _ _ _ => apply wp_sorted_notify; [done|intros ?|intros ? ?]
  | |- wp (user _) _ _ _ => apply (wp_user_ok P); [done|intros ? ?|intros ? ?]
  | |- wp (match ?x with _ => _ end) _ _ _ => destruct x eqn:?
  | |- wp (match ?x with _ => _ end _) _ _ _ => destruct x eqn:?
  | |- wp (let '_ := ?x in _) _ _ _ => destruct x eqn:?
  end; simpl.
Ltac go := repeat go1.

Ltac leaf := unfold At in *; simpl in *; repeat match goal with |- _ /\ _ => split end; try done;
  eauto using indexed_both, indexed_value, StripedCounter.wf_reset.

Ltac methods := unfold cache_contains, cache_get_read, cache_get, cache_get_mut, cache_remove, cache_remove_entry, cache_clear, cache_reset,
  cache_reset_metrics, set_ttl, unset_ttl, cache_peek,
  cache_peek_with_expiry_status, cache_get_with_expiry_status, remove_expired_entry, is_expired, is_live,
  map_remove, entry_vanished.

Lemma indexed_nil : indexed [] [] [].
Proof. split; [done|done|constructor|done]. Qed.

Hint Resolve indexed_nil : core.

(** The place a [&mut V] names is there when the method returns. *)
Definition here k (st : TtlSortedCache K V W * W) : Prop := At [] st.1 /\ find_key k (map st.1) <> None.

(** Read and write the value at a key that is present. *)
Definition deref (g : V -> V) k : Op K V W unit :=
  let! c := self in
  match find_key k (map c) with
  | Some (_, e) => set_self (fun c => with_map (hm_update k (mkEntry (e_expiry e) (e_key e) (g (e_value e))) (map c)) c)
  | None => unwind
  end.

Lemma sorted_deref_ok g k c w : here k (c, w) -> wp (deref g k) (fun _ st => Inv st.1) (fun st => P /\ Inv st.1) (c, w).
Proof. intros [(H & Hh & Hm & Hl & HP) Hk]. unfold deref. go; [leaf|done]. Qed.

Lemma sorted_get_mut_ok k c w : Inv c ->
  wp (cache_get_mut k) (fun r st => match r with Some k => here k st | None => Inv st.1 end)
    (fun st => P /\ Inv st.1) (c, w).
Proof.
  intros (H & Hh & Hm & Hl & HP). methods. go. all: try (leaf; fail).
  destruct (find_key k (map c)) as [[k' e']|] eqn:E; simpl; [|done]. split; [leaf|]. simpl. by rewrite E.
Qed.

Lemma bound_here k x v c st : bound_to k x v c st -> here (filed k c) st.
Proof.
  intros (HI & E & _). split; [done|].
  rewrite <- (find_key_cong k); [by rewrite E|]. unfold filed.
  destruct (find_key k (map c)) as [[k' old]|] eqn:Ef; [|apply keq_refl].
  by apply find_key_Some in Ef as [_ ?].
Qed.

Lemma is_live_wp k c w (Q : bool -> TtlSortedCache K V W * W -> Prop) U :
  (forall w' b, (b = true -> find_key k (map c) <> None) -> Q b (c, w')) -> wp (is_live k) Q U (c, w).
Proof.
  intros HQ. methods. apply wp_bind, wp_gets. simpl. destruct (find_key k (map c)) as [[k' e]|] eqn:E.
  - apply wp_bind, wp_bind, wp_now. apply wp_ret, wp_ret. by apply HQ.
  - by apply wp_ret, HQ.
Qed.

Lemma sorted_get_or_set_ok k f c w : Inv c -> P \/ total f ->
  wp (cache_get_or_set_with_mut k f) (fun r st => here r st) (fun st => P /\ Inv st.1) (c, w) /\
  wp (async_cache_get_or_set_with_mut k f) (fun r st => here r st) (fun st => P /\ Inv st.1) (c, w).
Proof.
  intros HI Hf. pose proof HI as (H & Hh & Hm & Hl & HP).
  split; (unfold cache_get_or_set_with_mut, async_cache_get_or_set_with_mut; apply wp_bind, is_live_wp;
    intros w' [] Hk; [unfold entry_vanished; go; [split; [leaf|simpl; congruence]|by destruct Hk]|]; go; [|leaf];
    (eapply wp_mono; [apply set_and_get_mut_wp; leaf| |done]); intros r st [-> Hb]; by eapply bound_here).
Qed.

Lemma sorted_try_get_or_set_ok {E} k (f : User W (result E V)) c w : Inv c -> P \/ total f ->
  wp (cache_try_get_or_set_with_mut k f)
    (fun r st => match r with Ok k => here k st | Err _ => Inv st.1 end) (fun st => P /\ Inv st.1) (c, w) /\
  wp (async_cache_try_get_or_set_with_mut k f)
    (fun r st => match r with Ok k => here k st | Err _ => Inv st.1 end) (fun st => P /\ Inv st.1) (c, w).
Proof.
  intros HI Hf. pose proof HI as (H & Hh & Hm & Hl & HP).
  split; (unfold cache_try_get_or_set_with_mut, async_cache_try_get_or_set_with_mut; apply wp_bind, is_live_wp;
    intros w' [] Hk; [unfold entry_vanished; go; [split; [leaf|simpl; congruence]|by destruct Hk]|]; go; [|leaf|leaf];
    (eapply wp_mono; [apply set_and_get_mut_wp; leaf| |done]); intros r st [-> Hb]; apply wp_ret; by eapply bound_here).
Qed.

Lemma retain_latest_ok n b : 0 <= n -> ok (retain_latest n b).
Proof.
  intros Hn c w HI. unfold retain_latest. assert (forall t w', wp (retain_latest_at n t)
    (fun _ st => Inv st.1) (fun st => P /\ Inv st.1) (c, w')) as H.
  { intros t w'. eapply wp_mono; [by apply (retain_protecting_wp n t None c w' HI)| |].
    - intros d st (Hs & _). by eapply shrunk_at.
    - intros st [Hp Hs]. split; [done|by eapply shrunk_at]. }
  destruct b; [apply wp_bind, wp_now|]; apply H.
Qed.

Lemma set_max_size_ok n : 0 < n -> ok (set_max_size n).
Proof.
  intros Hn c w (H & Hh & Hm & _ & HP). unfold set_max_size. rewrite (proj2 (Z.leb_gt _ _) Hn).
  apply wp_bind, wp_gets. apply wp_bind, wp_modify. apply wp_bind. simpl. destruct (n <? _).
  - apply wp_bind. eapply wp_mono; [apply (retain_latest_ok n false); [lia|leaf]| |done].
    intros d st HI. by apply wp_ret, wp_ret.
  - apply wp_ret, wp_ret. leaf.
Qed.

Lemma evict_ok : ok evict.
Proof.
  intros c w HI. unfold evict. apply wp_bind, wp_now. eapply wp_mono; [by apply evict_at_wp| |].
  - intros n st [Hw _]. eapply shrunk_at, swept_shrunk, Hw.
  - intros st (Hp & n & Hw). split; [done|]. eapply shrunk_at, swept_shrunk, Hw.
Qed.

Lemma sorted_clear_with_ok : ok cache_clear_with_on_evict.
Proof.
  intros c w (H & Hh & Hm & Hl & HP). unfold cache_clear_with_on_evict.
  apply wp_bind, wp_gets. simpl. destruct (on_evict c) eqn:E; [|methods; go; unfold At; simpl; rewrite E; by split_and!].
  rewrite <- E in HP. go.
  all: apply (notify_all_wp (map c) (fun p : K * Entry K V => (e_key p.2, e_value p.2))); leaf.
Qed.

Lemma sorted_iter_ok : ok iter.
Proof.
  intros c w HI. unfold iter. apply wp_bind, wp_gets. apply wp_bind. simpl.
  eapply wp_mono; [apply (keeps_filter_each (fun st : TtlSortedCache K V W * W => Inv st.1) P); [|done]| |done].
  - intros p [c' w'] HI'. methods. by go.
  - intros l st H. by apply wp_ret.
Qed.

Lemma sorted_ok_seq {A} (m : Op K V W A) : ok m -> ok (m ;; ret tt).
Proof. intros H c w HI. apply wp_bind. eapply wp_mono; [by apply H| |done]. intros a st H'. by apply wp_ret. Qed.

(** A call of a public method; a [&mut V] that comes back is read and written by [g]. *)
Inductive Call (E : Type) : Type :=
| Get (k : K)
| GetMut (k : K) (g : V -> V)
| GetRead (k : K)
| Contains (k : K)
| Peek (k : K)
| PeekStatus (k : K)
| GetStatus (k : K)
| Iter
| Set_ (k : K) (v : V)
| SetWith (k : K) (v : V) (t : option Z) (ev : bool)
| GetOrSet (k : K) (f : User W V) (g : V -> V)
| TryGetOrSet (k : K) (f : User W (result E V)) (g : V -> V)
| AsyncGetOrSet (k : K) (f : User W V) (g : V -> V)
| AsyncTryGetOrSet (k : K) (f : User W (result E V)) (g : V -> V)
| Remove (k : K)
| RemoveEntry (k : K)
| Retain (keep : K -> V -> User W bool)
| RetainLatest (n : nat) (ev : bool)
| Evict
| SetMaxSize (n : positive)
| TrySetMaxSize (n : nat)
| Clear
| ClearWithOnEvict
| Reset_
| SetTtl (t : Z)
| UnsetTtl.

Definition run {E} (q : Call E) : Op K V W unit :=
  match q with
  | Get _ k => cache_get k ;; ret tt
  | GetMut _ k g => let! r := cache_get_mut k in match r with Some k => deref g k | None => ret tt end
  | GetRead _ k => cache_get_read k ;; ret tt
  | Contains _ k => cache_contains k ;; ret tt
  | Peek _ k => cache_peek k ;; ret tt
  | PeekStatus _ k => cache_peek_with_expiry_status k ;; ret tt
  | GetStatus _ k => cache_get_with_expiry_status k ;; ret tt
  | Iter _ => iter ;; ret tt
  | Set_ _ k v => cache_set k v ;; ret tt
  | SetWith _ k v t ev => set_with k v t ev ;; ret tt
  | GetOrSet _ k f g => let! k := cache_get_or_set_with_mut k f in deref g k
  | TryGetOrSet _ k f g =>
      let! r := cache_try_get_or_set_with_mut k f in match r with Ok k => deref g k | Err _ => ret tt end
  | AsyncGetOrSet _ k f g => let! k := async_cache_get_or_set_with_mut k f in deref g k
  | AsyncTryGetOrSet _ k f g =>
      let! r := async_cache_try_get_or_set_with_mut k f in match r with Ok k => deref g k | Err _ => ret tt end
  | Remove _ k => cache_remove k ;; ret tt
  | RemoveEntry _ k => cache_remove_entry k ;; ret tt
  | Retain _ keep => retain keep ;; ret tt
  | RetainLatest _ n ev => retain_latest (Z.of_nat n) ev ;; ret tt
  | Evict _ => evict ;; ret tt
  | SetMaxSize _ n => set_max_size (Zpos n) ;; ret tt
  | TrySetMaxSize _ n => try_set_max_size (Z.of_nat n) ;; ret tt
  | Clear _ => cache_clear
  | ClearWithOnEvict _ => cache_clear_with_on_evict
  | Reset_ _ => cache_reset
  | SetTtl _ t => set_ttl t ;; ret tt
  | UnsetTtl _ => unset_ttl ;; ret tt
  end.

(** The closures of a call may panic only if [P]. *)
Definition call_ok {E} (q : Call E) : Prop :=
  match q with
  | GetOrSet _ _ f _ => P \/ total f
  | TryGetOrSet _ _ f _ => P \/ total f
  | AsyncGetOrSet _ _ f _ => P \/ total f
  | AsyncTryGetOrSet _ _ f _ => P \/ total f
  | Retain _ keep => forall k v, P \/ total (keep k v)
  | _ => True
  end.

Lemma set_ok k v t ev : ok (let! r := set_inner k v t ev false in ret r.1).
Proof.
  intros c w HI. apply wp_bind. eapply wp_mono; [by apply set_inner_ok| |done]. intros r st H. by apply wp_ret.
Qed.

Lemma try_set_max_size_ok n : ok (try_set_max_size (Z.of_nat n)).
Proof.
  intros c w HI. unfold try_set_max_size. destruct (Z.eqb_spec (Z.of_nat n) 0); [by apply wp_ret|].
  apply wp_bind. eapply wp_mono; [apply set_max_size_ok; [lia|done]| |done]. intros r st H. by apply wp_ret.
Qed.

Lemma sorted_run_ok {E} (q : Call E) : call_ok q -> ok (run q).
Proof.
  destruct q; simpl; intros Hq c w HI.
  all: try (destruct HI as (H & Hh & Hm & Hl & HP); methods; go; leaf; fail).
  all: try (apply sorted_ok_seq; [|done]).
  - apply wp_bind. eapply wp_mono; [by apply sorted_get_mut_ok| |done].
    intros [k'|] [c' w'] H; [by apply sorted_deref_ok|by apply wp_ret].
  - apply sorted_iter_ok.
  - apply set_ok.
  - apply set_ok.
  - apply wp_bind. eapply wp_mono; [by apply sorted_get_or_set_ok| |done]. intros k' [c' w'] H. by apply sorted_deref_ok.
  - apply wp_bind. eapply wp_mono; [by apply sorted_try_get_or_set_ok| |done].
    intros [k'|] [c' w'] H; [by apply sorted_deref_ok|by apply wp_ret].
  - apply wp_bind. eapply wp_mono; [by apply sorted_get_or_set_ok| |done]. intros k' [c' w'] H. by apply sorted_deref_ok.
  - apply wp_bind. eapply wp_mono; [by apply sorted_try_get_or_set_ok| |done].
    intros [k'|] [c' w'] H; [by apply sorted_deref_ok|by apply wp_ret].
  - by apply sorted_retain_ok.
  - apply retain_latest_ok. lia.
  - apply evict_ok.
  - by apply set_max_size_ok.
  - apply try_set_max_size_ok.
  - by apply sorted_clear_with_ok.
Qed.

Lemma sorted_runs_ok {E} (qs : list (Call E)) c w : Inv c -> Forall call_ok qs ->
  Forall (fun o => o = Done tt \/ (o = Unwind /\ P)) (runs run qs (c, w)).1 /\ Inv (runs run qs (c, w)).2.1.
Proof.
  intros HI H. destruct (runs_keep (fun st : TtlSortedCache K V W * W => Inv st.1) P call_ok run qs (c, w)) as [H1 H2]; [|done|done|].
  - intros q [c' w'] Hq HI'. by apply sorted_run_ok.
  - split; [|done]. eapply Forall_impl; [exact H1|]. intros o [[[] ->]|?]; auto.
Qed.

(** An entry that a trim dropped expires before every entry it kept. *)
Lemma after_order c c' n p q : At [] c -> after None c c' n -> p ∈ map c -> p ∉ map c' -> q ∈ map c' ->
  cmp (as_stamped p.2) (as_stamped q.2) = Lt.
Proof.
  intros (H & _) ((H' & _) & _ & Hm & gone & _ & Pk & _ & Ho) Hp Hn Hq.
  pose proof (indexed_mem _ _ _ H Hp) as Hs. rewrite Pk in Hs.
  apply elem_of_app in Hs as [Hs|Hs]; [by apply Ho; [|eapply indexed_mem|]|].
  destruct Hn. pose proof (ix_stamps _ _ _ H') as Ps. simpl in Ps. rewrite Ps in Hs.
  apply list_elem_of_fmap in Hs as (p' & Eq & Hp'). by rewrite (stamp_inj _ _ _ p p' H Hp (Hm _ Hp') Eq).
Qed.

Lemma at_wf c : At [] c -> wf c.
Proof. intros (? & ? & ? & ? & _). by split_and!. Qed.
End Invariant.
Arguments Call : clear implicits.

Section Claims.
Context {K V W : Type} `{!KeyEq K, !KeyLaws K, !Cmp K, !CmpLaws K, !KeyOrd K, !Clock W, !Threads W}.
Implicit Types (c : TtlSortedCache K V W) (k : K) (v : V) (w : W) (p q : K * Entry K V).

(** A clone is consistent, with the same entries and the same counts. *)
Lemma clone_wf c : wf c ->
  wf (clone c) /\ map (clone c) = map c /\ keys (clone c) = keys c /\
  StripedCounter.load (hits (clone c)) = StripedCounter.load (hits c) /\
  StripedCounter.load (misses (clone c)) = StripedCounter.load (misses c).
Proof.
  intros (H & Hh & Hm & Hl). destruct (StripedCounter.load_snapshot (hits c)), (StripedCounter.load_snapshot (misses c)).
  by split_and!.
Qed.

Lemma wf_at c : wf c -> At True [] c.
Proof. intros (? & ? & ? & ?). split_and!; try done. by left. Qed.

(** C13: Whatever calls are made of [TtlSortedCache], blocking and [async], the map and the set of
    stamps go on describing the same entries, in deadline order, even after panics of user code
    that the caller caught; and when the closures and the callback do not panic, every call
    returns: none of the internal [expect]s and [unreachable!]s is ever reached. *)
Theorem sorted_calls {E} (P : Prop) try_reserve t b c (qs : list (Call K V W E)) w :
  build try_reserve t b = Ok c -> P \/ callback_total (b_on_evict b) ->
  match b_size b with Some n => 0 <= n | None => True end -> Forall (call_ok P) qs ->
  wf (runs run qs (c, w)).2.1 /\
  Forall (fun o => o = Done tt \/ (o = Unwind /\ P)) (runs run qs (c, w)).1.
Proof.
  intros Hb HP Hs Hq. assert (At P [] c) as HI.
  { unfold build in Hb. destruct (b_ttl b) as [u|]; [|done]. destruct (validate_ttl u); [|done].
    destruct (bool_decide_reflect (b_size b = Some 0)) as [E0|E0]; [done|].
    assert (match b_size b with Some n => 0 < n | None => True end).
    { destruct (b_size b) as [n|]; [|done]. assert (n <> 0) by congruence. lia. }
    destruct (b_capacity b), (b_size b); simpl in Hb; try (destruct (try_reserve _)); simplify_eq;
      (split; [apply indexed_nil|by split_and!]). }
  destruct (sorted_runs_ok P qs c w HI Hq) as [H1 H2]. split; [|done]. by eapply at_wf.
Qed.

(** [evict] removes exactly the entries whose deadline is before its one clock reading, counts
    them and returns their number; also when [on_evict] panics, all of them are gone. *)
Theorem sorted_evict c w : wf c ->
  let t := (clock_now w).1 in
  wp evict
    (fun n st => wf st.1 /\ (forall p, p ∈ map st.1 <-> p ∈ map c /\ before t p = false) /\
       length (map c) = (n + length (map st.1))%nat /\
       evictions st.1 = (if Nat.eqb n 0 then evictions c else fetch_add (evictions c) (Z.of_nat n)))
    (fun st => wf st.1 /\ (forall p, p ∈ map st.1 <-> p ∈ map c /\ before t p = false)) (c, w).
Proof.
  intros HI%wf_at t. unfold evict. apply wp_bind, wp_now. eapply wp_mono; [apply (evict_at_wp True), HI| |].
  - intros n st [(HA & _ & Hl & Hm) He]. split_and!; [by eapply at_wf|exact Hm|done|].
    rewrite He. destruct n as [|n]; [done|]. by rewrite Nat.min_r by lia.
  - intros st (_ & n & HA & _ & _ & Hm). split; [by eapply at_wf|exact Hm].
Qed.

(** [cache_set] binds the key to the value, with a deadline one ttl after its clock reading,
    beside the other entries; it then drops exactly the excess over the size limit, every dropped
    entry expiring before every kept one (equal deadlines in key order).  A value it returns was
    live.  If [on_evict] panics, entries were only dropped. *)
Theorem sorted_set k v c w : wf c ->
  let t := (clock_now w).1 in
  exists full : list (K * Entry K V),
    (forall k', find_key k' full =
       if keq k k' then Some (filed k c, mkEntry (compute_expires_at (ttl c) t) (filed k c) v)
       else find_key k' (map c)) /\
    wp (cache_set k v)
      (fun r st => r = prior k t c /\ wf st.1 /\ (forall p, p ∈ map st.1 -> p ∈ full) /\
         Z.of_nat (length (map st.1)) =
           match size_limit c with
           | Some n => Z.min (Z.of_nat (length full)) n
           | None => Z.of_nat (length full)
           end /\
         forall p q, p ∈ full -> p ∉ map st.1 -> q ∈ map st.1 -> cmp (as_stamped p.2) (as_stamped q.2) = Lt)
      (fun st => wf st.1 /\ forall p, p ∈ map st.1 -> p ∈ full) (c, w).
Proof.
  intros HI%wf_at t. set (x := compute_expires_at (ttl c) t).
  pose proof (set_done_at True k v x t c HI) as HD. destruct (set_done_map k v x t c) as (Em & _ & El).
  exists (map (set_done k v x t c)). split; [intros k'; rewrite Em; by apply (placed_lookup True)|].
  unfold cache_set. apply wp_bind, (set_inner_wp True); [done| |].
  - intros w'. eapply wp_mono; [exact (trim_wp True false false t _ w' HD)| |].
    + intros _ st (Hs & Hl & _ & Ha). apply wp_ret. destruct (Ha eq_refl) as (n & Han & Hn).
      pose proof (after_length True _ _ _ _ HD Han) as Hlen. specialize (Hl eq_refl). rewrite El in Hl, Hn.
      split_and!; [done|by eapply at_wf, shrunk_at|apply Hs| |].
      * destruct (size_limit c); simpl in *; lia.
      * intros p q. by apply (after_order True _ _ n).
    + intros st [_ Hs]. split; [by eapply at_wf, shrunk_at|apply Hs].
  - intros w' _. split; [by eapply at_wf|done].
Qed.

(** A get-or-set, blocking or [async], of an absent or expired key whose factory gives [v]
    returns a reference to the entry it made: it is in the cache, with [v] and a deadline one ttl
    after the insertion, and the size limit holds - the eviction it triggers never takes the
    entry itself, even when its deadline is the earliest. *)
Theorem sorted_get_or_set k f v c w w2 m : wf c ->
  match find_key k (map c) with
  | Some (_, e) => is_expired_at e (clock_now w).1 = true /\ f (clock_now w).2 = (Some v, w2)
  | None => f w = (Some v, w2)
  end ->
  m = cache_get_or_set_with_mut k f \/ m = async_cache_get_or_set_with_mut k f ->
  let x := compute_expires_at (ttl c) (clock_now w2).1 in
  wp m (fun r st => r = filed k c /\ wf st.1 /\
          find_key k (map st.1) = Some (filed k c, mkEntry x (filed k c) v) /\
          match size_limit c with Some n => Z.of_nat (length (map st.1)) <= n | None => True end)
    (fun st => wf st.1) (c, w).
Proof.
  intros HI%wf_at Hf Hm x. pose proof HI as (H & Hh & Hms & Hl & _).
  assert (forall c1, (exists n, StripedCounter.wf n /\ c1 = with_misses n c) ->
    wp (set_and_get_mut k v) (fun r st => r = filed k c /\ wf st.1 /\
          find_key k (map st.1) = Some (filed k c, mkEntry x (filed k c) v) /\
          match size_limit c with Some n => Z.of_nat (length (map st.1)) <= n | None => True end)
    (fun st => wf st.1) (c1, w2)) as Hset.
  { intros c1 (n & Hn & ->). eapply wp_mono; [apply (set_and_get_mut_wp True k v _ w2); split_and!; try done; by left| |].
    - intros r st (-> & HA & Hfind & Hlim). split_and!; try done. by eapply at_wf.
    - intros st [_ HA]. by eapply at_wf. }
  destruct Hm as [-> | ->];
    unfold cache_get_or_set_with_mut, async_cache_get_or_set_with_mut, is_live, is_expired;
    apply wp_bind, wp_bind, wp_gets; simpl;
    (destruct (find_key k (map c)) as [[k0 e]|];
     [destruct Hf as [Hx Hf]; apply wp_bind, wp_bind, wp_now, wp_ret, wp_ret; rewrite Hx; simpl|apply wp_ret]);
    apply wp_bind, (wp_count_miss); try done; intros n Hn; apply wp_bind;
    (eapply wp_run; [unfold user; simpl; rewrite Hf; reflexivity|]); simpl; apply Hset; eauto.
Qed.
End Claims.

(** ** Witnesses *)
Module Demo.
Import Tick.

Definition blueprint : TtlSortedCacheBuilder (K := TaggedKey.t) (V := Z) (W := Tick.t) :=
  builder_on_evict log (builder_max_size 2 (builder_ttl 50 builder)).
Definition empty : TtlSortedCache TaggedKey.t Z Tick.t :=
  mkSorted 0 [] [] 50 (Some 2) (Some 3) StripedCounter.new StripedCounter.new 0 (Some log).

(** [k1] expires at 200, [k2] at 100. *)
Definition full : TtlSortedCache TaggedKey.t Z Tick.t :=
  with_keys [mkStamped (Some 100) (Some k2); mkStamped (Some 200) (Some k1)]
    (with_map [(k1, mkEntry (Some 200) k1 7); (k2, mkEntry (Some 100) k2 8)] empty).

Lemma sorted_full_wf : wf full.
Proof.
  split_and!; [|done|done|done]. split.
  - simpl. repeat split; repeat constructor.
  - repeat constructor.
  - repeat constructor.
  - simpl. apply Permutation_swap.
Qed.

Lemma sorted_calls_witness :
  Forall (fun o => o = Done tt \/ (o = Unwind /\ False))
    (runs run [Set_ unit k1 7; GetMut unit k1' Z.succ; AsyncGetOrSet unit k2 (fun w => (Some 5, w)) Z.succ;
           Set_ unit k3 9; Evict unit; SetMaxSize unit 1] (empty, Tick.mk 0 [])).1.
Proof.
  apply (sorted_calls False (fun _ => true) 0 blueprint empty); [reflexivity| |done|].
  - right. intros k v w. by eexists _, _.
  - repeat apply Forall_cons_2; try done. right. apply total_pure.
Defined.

Lemma sorted_evict_witness :
  exists st, evict (full, Tick.mk 150 []) = (Done 1%nat, st) /\ wf st.1 /\
    (forall p, p ∈ map st.1 -> before 150 p = false).
Proof.
  pose proof (sorted_evict full (Tick.mk 150 []) sorted_full_wf) as H. unfold wp in H.
  destruct (evict (full, Tick.mk 150 [])) as [o st] eqn:E.
  assert (o = Done 1%nat) as -> by (apply (f_equal fst) in E; vm_compute in E; by rewrite <- E).
  exists st. split; [done|]. destruct H as (Hw & Hm & _). split; [done|]. intros p Hp. by apply Hm in Hp as [_ ?].
Defined.

Lemma sorted_set_witness : exists l,
  find_key k3 l = Some (k3, mkEntry (Some 60) k3 9) /\
  wp (cache_set k3 9)
    (fun r st => r = None /\ Z.of_nat (length (map st.1)) <= 2 /\ forall p, p ∈ map st.1 -> p ∈ l)
    (fun st => wf st.1) (full, Tick.mk 10 []).
Proof.
  destruct (sorted_set k3 9 full (Tick.mk 10 []) sorted_full_wf) as (l & Hf & H). exists l.
  split; [exact (Hf k3)|]. eapply wp_mono; [exact H| |].
  - intros r st (Hr & _ & Hm & Hl & _). split; [exact Hr|]. split; [|exact Hm]. rewrite Hl. apply Z.le_min_r.
  - intros st [Hw _]. exact Hw.
Defined.

Lemma sorted_get_or_set_witness :
  wp (cache_get_or_set_with_mut k3 (fun w => (Some 9, w)))
    (fun r st => r = k3 /\ wf st.1 /\ find_key k3 (map st.1) = Some (k3, mkEntry (Some 60) k3 9) /\
       Z.of_nat (length (map st.1)) <= 2)
    (fun st => wf st.1) (full, Tick.mk 10 []).
Proof.
  eapply wp_mono.
  - apply (sorted_get_or_set k3 (fun w => (Some 9, w)) 9 full (Tick.mk 10 []) (Tick.mk 10 [])
      (cache_get_or_set_with_mut k3 (fun w => (Some 9, w))) sorted_full_wf); [reflexivity|by left].
  - intros r st (Hr & Hw & Hf & Hl). split; [exact Hr|]. split; [exact Hw|]. split; [exact Hf|exact Hl].
  - intros st Hw. exact Hw.
Defined.
End Demo.
