(* ===== verification/Unbound.v ===== *)
(** * The unbounded store ([src/stores/unbound.rs]) and the plain [HashMap] as a store
      ([src/stores/mod.rs])

    A [&mut V] into a map is named by the key it was looked up with. *)
From Stdlib Require Import String.
From S2P Require Import Prelude Keys Stores.
#[local] Close Scope string_scope.

(** ** [UnboundCache] *)
Section UnboundCache.
Context {K V W : Type} `{!KeyEq K, !Threads W}.

Record UnboundCache : Type := mkUnbound {
  store : list (K * V);
  hits : StripedCounter.t;
  misses : StripedCounter.t;
  initial_capacity : option Z;
  on_evict : OnEvict K V W }.

Definition with_store (m : list (K * V)) (c : UnboundCache) : UnboundCache :=
  mkUnbound m (hits c) (misses c) (initial_capacity c) (on_evict c).
Definition with_hits (n : StripedCounter.t) (c : UnboundCache) : UnboundCache :=
  mkUnbound (store c) n (misses c) (initial_capacity c) (on_evict c).
Definition with_misses (n : StripedCounter.t) (c : UnboundCache) : UnboundCache :=
  mkUnbound (store c) (hits c) n (initial_capacity c) (on_evict c).

Definition Op (A : Type) : Type := ST (UnboundCache * W) A.
Definition self : Op UnboundCache := gets fst.
Definition set_self (f : UnboundCache -> UnboundCache) : Op unit := modify (fun s => (f s.1, s.2)).

(** [hits.increment_mut()], [misses.increment_mut()] *)
Definition count_hit : Op unit :=
  let! c := self in
  let! n := of_outcome (StripedCounter.increment_mut (hits c)) in
  set_self (with_hits n).
Definition count_miss : Op unit :=
  let! c := self in
  let! n := of_outcome (StripedCounter.increment_mut (misses c)) in
  set_self (with_misses n).

Definition notify (k : K) (v : V) : Op unit :=
  let! c := self in match on_evict c with Some f => user (f k v) | None => ret tt end.

(** [Clone::clone]; the user's data clones to itself. *)
Definition clone (c : UnboundCache) : UnboundCache :=
  mkUnbound (store c) (StripedCounter.snapshot (hits c)) (StripedCounter.snapshot (misses c))
    (initial_capacity c) (on_evict c).

(** [PartialEq]: the maps are compared, as [HashMap] does it. *)
Definition cache_eq (veq : V -> V -> bool) (c c' : UnboundCache) : bool :=
  Nat.eqb (length (store c)) (length (store c')) &&
  forallb (fun e => match find_key e.1 (store c') with Some e' => veq e.2 e'.2 | None => false end) (store c).

(** *** Construction *)

Record UnboundCacheBuilder : Type := mkBuilder { b_capacity : option Z; b_on_evict : OnEvict K V W }.

Definition builder : UnboundCacheBuilder := mkBuilder None None.
Definition builder_initial_capacity (n : Z) (b : UnboundCacheBuilder) := mkBuilder (Some n) (b_on_evict b).
Definition builder_on_evict (f : K -> V -> User W unit) (b : UnboundCacheBuilder) :=
  mkBuilder (b_capacity b) (Some f).

Definition build (b : UnboundCacheBuilder) : result BuildError UnboundCache :=
  Ok (mkUnbound [] StripedCounter.new StripedCounter.new (b_capacity b) (b_on_evict b)).

Definition new : outcome UnboundCache :=
  match build builder with Ok c => Done c | Err _ => Unwind end.

(** *** Inherent methods *)

Definition cache_clear : Op unit := set_self (with_store []).

Definition cache_clear_with_on_evict : Op unit :=
  let! c := self in
  match on_evict c with
  | None => cache_clear
  | Some _ =>
      let entries := store c in
      set_self (with_store []) ;;
      for_each entries (fun e => notify e.1 e.2)
  end.

(** [HashMap::retain] visits the entries in turn and erases one as soon as the closure has
    rejected it. *)
Fixpoint retain_loop (keep : K -> V -> User W bool) (todo : list (K * V)) (removed : nat) : Op nat :=
  match todo with
  | [] => ret removed
  | e :: todo =>
      let! b := user (keep e.1 e.2) in
      if b then retain_loop keep todo removed
      else
        notify e.1 e.2 ;;
        set_self (fun c => with_store (drop_key e.1 (store c)) c) ;;
        retain_loop keep todo (S removed)
  end.

Definition retain (keep : K -> V -> User W bool) : Op nat :=
  let! c := self in retain_loop keep (store c) 0.

(** *** [Cached] *)

Definition cache_get (key : K) : Op (option V) :=
  let! c := self in
  match find_key key (store c) with
  | Some (_, v) => count_hit ;; ret (Some v)
  | None => count_miss ;; ret None
  end.

Definition cache_get_mut (key : K) : Op (option K) :=
  let! c := self in
  match find_key key (store c) with
  | Some _ => count_hit ;; ret (Some key)
  | None => count_miss ;; ret None
  end.

Definition cache_set (key : K) (val : V) : Op (option V) :=
  let! c := self in
  let '(old, m) := hm_insert key val (store c) in
  set_self (with_store m) ;;
  ret old.

(** [vacant.insert(value)] *)
Definition vacant_insert (key : K) (value : V) : Op K :=
  set_self (fun c => with_store (store c ++ [(key, value)]) c) ;; ret key.

Definition cache_get_or_set_with_mut (key : K) (f : User W V) : Op K :=
  let! c := self in
  match find_key key (store c) with
  | Some _ => count_hit ;; ret key
  | None =>
      count_miss ;;
      let! v := user f in
      vacant_insert key v
  end.

Definition cache_try_get_or_set_with_mut {E} (key : K) (f : User W (result E V)) : Op (result E K) :=
  let! c := self in
  match find_key key (store c) with
  | Some _ => count_hit ;; ret (Ok key)
  | None =>
      count_miss ;;
      let! r := user f in
      match r with
      | Ok v => let! k := vacant_insert key v in ret (Ok k)
      | Err e => ret (Err e)
      end
  end.

Definition cache_remove_entry (k : K) : Op (option (K * V)) :=
  let! c := self in
  match take_key k (store c) with
  | Some (e, m) =>
      set_self (with_store m) ;;
      notify e.1 e.2 ;;
      ret (Some e)
  | None => ret None
  end.

Definition cache_remove (k : K) : Op (option V) :=
  let! r := cache_remove_entry k in ret (snd <$> r).

Definition cache_reset_metrics : Op unit :=
  set_self (fun c => with_misses (StripedCounter.reset (misses c)) c) ;;
  set_self (fun c => with_hits (StripedCounter.reset (hits c)) c).

Definition cache_reset : Op unit := set_self (with_store []) ;; cache_reset_metrics.

Definition cache_size (c : UnboundCache) : Z := Z.of_nat (length (store c)).
Definition cache_hits (c : UnboundCache) : option Z := Some (StripedCounter.load (hits c)).
Definition cache_misses (c : UnboundCache) : option Z := Some (StripedCounter.load (misses c)).

Definition cache_peek (k : K) : Op (option V) :=
  let! c := self in ret (snd <$> find_key k (store c)).

Definition cache_contains (k : K) : Op bool :=
  let! v := cache_peek k in ret (match v with Some _ => true | None => false end).

Definition iter : Op (list (K * V)) := let! c := self in ret (store c).

(** [CachedRead::cache_get_read]: through [&self], so on the striped counters of the thread. *)
Definition cache_get_read (k : K) : Op (option V) :=
  let! v := cache_peek k in
  match v with
  | Some value =>
      let! s := gets id in
      let! n := of_outcome (StripedCounter.increment (current_thread s.2) (hits s.1)) in
      set_self (with_hits n) ;;
      ret (Some value)
  | None =>
      let! s := gets id in
      let! n := of_outcome (StripedCounter.increment (current_thread s.2) (misses s.1)) in
      set_self (with_misses n) ;;
      ret None
  end.

(** *** The [async] variants *)

Definition async_cache_get_or_set_with_mut (key : K) (f : User W V) : Op K :=
  let! c := self in
  match find_key key (store c) with
  | Some _ => count_hit ;; ret key
  | None =>
      count_miss ;;
      let! v := user f in
      vacant_insert key v
  end.

Definition async_cache_try_get_or_set_with_mut {E} (key : K) (f : User W (result E V)) : Op (result E K) :=
  let! c := self in
  match find_key key (store c) with
  | Some _ => count_hit ;; ret (Ok key)
  | None =>
      count_miss ;;
      let! r := user f in
      match r with
      | Ok v => let! k := vacant_insert key v in ret (Ok k)
      | Err e => ret (Err e)
      end
  end.
End UnboundCache.
Arguments UnboundCache : clear implicits.
Arguments Op : clear implicits.

(** ** [HashMap] as a store: no metrics, no callback *)
Module MapCached.
Section MapCached.
Context {K V W : Type} `{!KeyEq K}.

Definition Op (A : Type) : Type := ST (list (K * V) * W) A.
Definition self : Op (list (K * V)) := gets fst.
Definition set_self (f : list (K * V) -> list (K * V)) : Op unit := modify (fun s => (f s.1, s.2)).

Definition cache_get (k : K) : Op (option V) := let! m := self in ret (snd <$> find_key k m).
Definition cache_get_mut (k : K) : Op (option K) := let! m := self in ret ((fun _ => k) <$> find_key k m).

Definition cache_set (k : K) (v : V) : Op (option V) :=
  let! m := self in
  let '(old, m) := hm_insert k v m in
  set_self (fun _ => m) ;;
  ret old.

Definition cache_get_or_set_with_mut (key : K) (f : User W V) : Op K :=
  let! m := self in
  match find_key key m with
  | Some _ => ret key
  | None => let! v := user f in set_self (fun m => m ++ [(key, v)]) ;; ret key
  end.

Definition cache_try_get_or_set_with_mut {E} (key : K) (f : User W (result E V)) : Op (result E K) :=
  let! m := self in
  match find_key key m with
  | Some _ => ret (Ok key)
  | None =>
      let! r := user f in
      match r with
      | Ok v => set_self (fun m => m ++ [(key, v)]) ;; ret (Ok key)
      | Err e => ret (Err e)
      end
  end.

Definition cache_remove_entry (k : K) : Op (option (K * V)) :=
  let! m := self in
  match take_key k m with
  | Some (e, m) => set_self (fun _ => m) ;; ret (Some e)
  | None => ret None
  end.
Definition cache_remove (k : K) : Op (option V) := let! r := cache_remove_entry k in ret (snd <$> r).
Definition cache_clear : Op unit := set_self (fun _ => []).
Definition cache_reset : Op unit := set_self (fun _ => []).
Definition cache_size (m : list (K * V)) : Z := Z.of_nat (length m).
Definition cache_peek (k : K) : Op (option V) := let! m := self in ret (snd <$> find_key k m).
Definition iter : Op (list (K * V)) := self.

Definition async_cache_get_or_set_with_mut (k : K) (f : User W V) : Op K :=
  let! m := self in
  match find_key k m with
  | Some _ => ret k
  | None => let! v := user f in set_self (fun m => m ++ [(k, v)]) ;; ret k
  end.

Definition async_cache_try_get_or_set_with_mut {E} (k : K) (f : User W (result E V)) : Op (result E K) :=
  let! m := self in
  match find_key k m with
  | Some _ => ret (Ok k)
  | None =>
      let! r := user f in
      match r with
      | Ok v => set_self (fun m => m ++ [(k, v)]) ;; ret (Ok k)
      | Err e => ret (Err e)
      end
  end.
End MapCached.
End MapCached.

(** ** What [UnboundCache] is: a map

    The specification's state is a partial function, with the order in which its keys are visited; the
    counters are numbers. *)
Section Spec.
Context {K V W : Type} `{!KeyEq K}.

Record MapSpec : Type := mkSpec {
  binding : K -> option (K * V); visit : list K; n_hits : Z; n_misses : Z; callback : OnEvict K V W }.

Definition Spec (A : Type) : Type := ST (MapSpec * W) A.
Definition spec : Spec MapSpec := gets fst.
Definition set_spec (f : MapSpec -> MapSpec) : Spec unit := modify (fun s => (f s.1, s.2)).

Definition bind_key (k : K) (p : option (K * V)) (m : MapSpec) : MapSpec :=
  mkSpec (fun k' => if keq k k' then p else binding m k')
    (match p, binding m k with
     | Some e, None => visit m ++ [e.1]
     | Some _, Some _ => visit m
     | None, _ => List.filter (fun k' => negb (keq k k')) (visit m)
     end) (n_hits m) (n_misses m) (callback m).
Definition unbind_all (m : MapSpec) : MapSpec := mkSpec (fun _ => None) [] (n_hits m) (n_misses m) (callback m).
Definition s_reset_metrics (m : MapSpec) : MapSpec := mkSpec (binding m) (visit m) 0 0 (callback m).
Definition s_hit : Spec unit :=
  set_spec (fun m => mkSpec (binding m) (visit m) (fetch_add (n_hits m) 1) (n_misses m) (callback m)).
Definition s_miss : Spec unit :=
  set_spec (fun m => mkSpec (binding m) (visit m) (n_hits m) (fetch_add (n_misses m) 1) (callback m)).

Inductive Call (E : Type) : Type :=
| Get (k : K)
| GetRead (k : K)
| GetMut (k : K) (g : V -> V)
| Peek (k : K)
| Set_ (k : K) (v : V)
| GetOrSet (k : K) (f : User W V) (g : V -> V)
| TryGetOrSet (k : K) (f : User W (result E V)) (g : V -> V)
| AsyncGetOrSet (k : K) (f : User W V) (g : V -> V)
| AsyncTryGetOrSet (k : K) (f : User W (result E V)) (g : V -> V)
| Remove (k : K)
| RemoveEntry (k : K)
| Retain (keep : K -> V -> User W bool)
| Clear
| ClearWithOnEvict
| ResetMetrics
| Reset_
| Contains (k : K)
| Size
| Metrics.

Inductive Reply (E : Type) : Type :=
| Nothing
| Value (v : option V)
| Pair (e : option (K * V))
| Error (e : E)
| Count (n : Z)
| Told (b : bool)
| Numbers (h m : option Z).

Definition s_deref {E} (g : V -> V) (k : K) : Spec (Reply E) :=
  let! m := spec in
  match binding m k with
  | Some (k0, v) => set_spec (bind_key k (Some (k0, g v))) ;; ret (Value _ (Some v))
  | None => unwind
  end.

Definition s_get_or_set {E} (k : K) (f : User W (result E V)) (g : V -> V) : Spec (Reply E) :=
  let! m := spec in
  match binding m k with
  | Some _ => s_hit ;; s_deref g k
  | None =>
      s_miss ;;
      let! r := user f in
      match r with
      | Ok v => set_spec (bind_key k (Some (k, v))) ;; s_deref g k
      | Err e => ret (Error _ e)
      end
  end.

Definition s_tell (e : K * V) : Spec unit :=
  let! m := spec in match callback m with Some f => user (f e.1 e.2) | None => ret tt end.

Definition s_remove (k : K) : Spec (option (K * V)) :=
  let! m := spec in
  match binding m k with
  | Some e => set_spec (bind_key k None) ;; s_tell e ;; ret (Some e)
  | None => ret None
  end.

(** The keys in their order: what the predicate rejects is told, then unbound, before the next is asked. *)
Fixpoint s_retain (keep : K -> V -> User W bool) (todo : list K) (removed : nat) : Spec nat :=
  match todo with
  | [] => ret removed
  | k :: todo =>
      let! m := spec in
      match binding m k with
      | Some e =>
          let! kept := user (keep e.1 e.2) in
          if kept then s_retain keep todo removed
          else s_tell e ;; set_spec (bind_key k None) ;; s_retain keep todo (S removed)
      | None => s_retain keep todo removed
      end
  end.

(** Everything is unbound first, then told; a callback that panics leaves an empty map. *)
Definition s_clear_telling : Spec unit :=
  let! m := spec in
  set_spec unbind_all ;;
  for_each (visit m) (fun k => match binding m k with Some e => s_tell e | None => ret tt end).

Definition always {E} (f : User W V) : User W (result E V) := fun w =>
  let '(v, w) := f w in (Ok <$> v, w).

Definition s_run {E} (q : Call E) : Spec (Reply E) :=
  match q with
  | Get _ k | GetRead _ k =>
      let! m := spec in
      match binding m k with
      | Some e => s_hit ;; ret (Value _ (Some e.2))
      | None => s_miss ;; ret (Value _ None)
      end
  | GetMut _ k g =>
      let! m := spec in
      match binding m k with
      | Some e => s_hit ;; s_deref g k
      | None => s_miss ;; ret (Value _ None)
      end
  | Peek _ k => let! m := spec in ret (Value _ (snd <$> binding m k))
  | Set_ _ k v =>
      let! m := spec in
      set_spec (bind_key k (Some (from_option fst k (binding m k), v))) ;;
      ret (Value _ (snd <$> binding m k))
  | GetOrSet _ k f g | AsyncGetOrSet _ k f g => s_get_or_set k (always f) g
  | TryGetOrSet _ k f g | AsyncTryGetOrSet _ k f g => s_get_or_set k f g
  | Remove _ k => let! r := s_remove k in ret (Value _ (snd <$> r))
  | RemoveEntry _ k => let! r := s_remove k in ret (Pair _ r)
  | Retain _ keep => let! m := spec in let! n := s_retain keep (visit m) 0 in ret (Count _ (Z.of_nat n))
  | Clear _ => set_spec unbind_all ;; ret (Nothing _)
  | ClearWithOnEvict _ => s_clear_telling ;; ret (Nothing _)
  | ResetMetrics _ => set_spec s_reset_metrics ;; ret (Nothing _)
  | Reset_ _ => set_spec (fun m => s_reset_metrics (unbind_all m)) ;; ret (Nothing _)
  | Contains _ k => let! m := spec in ret (Told _ (match binding m k with Some _ => true | None => false end))
  | Size _ => let! m := spec in ret (Count _ (Z.of_nat (length (visit m))))
  | Metrics _ => let! m := spec in ret (Numbers _ (Some (n_hits m)) (Some (n_misses m)))
  end.
End Spec.
Arguments MapSpec : clear implicits.
Arguments Spec : clear implicits.
Arguments Call : clear implicits.
Arguments Reply : clear implicits.

Section Refinement.
Context {K V W : Type} `{!KeyEq K, !KeyLaws K, !Threads W}.
Implicit Types (c : UnboundCache K V W) (m : MapSpec K V W) (k : K) (v : V) (w : W).

(** Read and write the value at a key that is present. *)
Definition deref {E} (g : V -> V) (k : K) : Op K V W (Reply K V E) :=
  let! c := self in
  match find_key k (store c) with
  | Some (_, v) => set_self (fun c => with_store (hm_update k (g v) (store c)) c) ;; ret (Value _ (Some v))
  | None => unwind
  end.

Definition run {E} (q : Call K V W E) : Op K V W (Reply K V E) :=
  match q with
  | Get _ k => let! r := cache_get k in ret (Value _ r)
  | GetRead _ k => let! r := cache_get_read k in ret (Value _ r)
  | GetMut _ k g => let! r := cache_get_mut k in match r with Some k => deref g k | None => ret (Value _ None) end
  | Peek _ k => let! r := cache_peek k in ret (Value _ r)
  | Set_ _ k v => let! r := cache_set k v in ret (Value _ r)
  | GetOrSet _ k f g => let! k := cache_get_or_set_with_mut k f in deref g k
  | TryGetOrSet _ k f g =>
      let! r := cache_try_get_or_set_with_mut k f in match r with Ok k => deref g k | Err e => ret (Error _ e) end
  | AsyncGetOrSet _ k f g => let! k := async_cache_get_or_set_with_mut k f in deref g k
  | AsyncTryGetOrSet _ k f g =>
      let! r := async_cache_try_get_or_set_with_mut k f in
      match r with Ok k => deref g k | Err e => ret (Error _ e) end
  | Remove _ k => let! r := cache_remove k in ret (Value _ r)
  | RemoveEntry _ k => let! r := cache_remove_entry k in ret (Pair _ r)
  | Retain _ keep => let! n := retain keep in ret (Count _ (Z.of_nat n))
  | Clear _ => cache_clear ;; ret (Nothing _)
  | ClearWithOnEvict _ => cache_clear_with_on_evict ;; ret (Nothing _)
  | ResetMetrics _ => cache_reset_metrics ;; ret (Nothing _)
  | Reset_ _ => cache_reset ;; ret (Nothing _)
  | Contains _ k => let! b := cache_contains k in ret (Told _ b)
  | Size _ => let! c := self in ret (Count _ (cache_size c))
  | Metrics _ => let! c := self in ret (Numbers _ (cache_hits c) (cache_misses c))
  end.

Record rel c m : Prop := {
  rel_distinct : distinct (store c);
  rel_binding : forall k, binding m k = find_key k (store c);
  rel_visit : visit m = (store c).*1;
  rel_hits : StripedCounter.wf (hits c) /\ n_hits m = StripedCounter.load (hits c);
  rel_misses : StripedCounter.wf (misses c) /\ n_misses m = StripedCounter.load (misses c);
  rel_callback : callback m = on_evict c }.

Definition R (s : UnboundCache K V W * W) (t : MapSpec K V W * W) : Prop := s.2 = t.2 /\ rel s.1 t.1.

Ltac enter := intros [c w] [m w'] [Ew H]; simpl in Ew, H; subst w'.

Lemma rel_store c m k p st : rel c m -> distinct st ->
  (forall k', find_key k' st = if keq k k' then p else find_key k' (store c)) ->
  visit (bind_key k p m) = st.*1 ->
  rel (with_store st c) (bind_key k p m).
Proof.
  intros [D B Q H M C] D' Hst Hv. split; try done. intros k'. simpl. by rewrite Hst, B.
Qed.

Lemma keep_fresh_keys k (l : list (K * V)) : fresh k l -> List.filter (fun k' => negb (keq k k')) l.*1 = l.*1.
Proof. induction 1 as [|e l He _ IH]; simpl; [done|]. rewrite He. simpl. by f_equal. Qed.

Lemma keys_without k (l : list (K * V)) e r : distinct l -> take_key k l = Some (e, r) ->
  List.filter (fun k' => negb (keq k k')) l.*1 = r.*1.
Proof.
  intros D Et. destruct (take_key_distinct _ _ _ _ D Et) as (_ & _ & _ & Fr & _).
  destruct (take_key_Some _ _ _ _ Et) as (xs & ys & -> & -> & Hk & _). apply fresh_app in Fr as [Fx Fy].
  rewrite !fmap_app, List.filter_app, keep_fresh_keys by done. simpl. rewrite Hk. simpl. by rewrite keep_fresh_keys.
Qed.

Lemma rel_drop c m k e r : rel c m -> take_key k (store c) = Some (e, r) ->
  rel (with_store r c) (bind_key k None m).
Proof.
  intros H Et. apply rel_store; [done|by eapply distinct_drop_key; [apply H|]|..].
  - intros k'. rewrite <- (find_key_drop k k') by apply H. unfold drop_key. by rewrite Et.
  - simpl. rewrite (rel_visit _ _ H). by apply (keys_without k _ e), Et; apply H.
Qed.

Lemma rel_new c m k v : rel c m -> find_key k (store c) = None ->
  rel (with_store (store c ++ [(k, v)]) c) (bind_key k (Some (k, v)) m).
Proof.
  intros H E. apply find_fresh in E. apply rel_store; [done|by apply distinct_snoc; [apply H|]|..].
  - apply find_key_snoc; [done|apply H].
  - simpl. rewrite (rel_binding _ _ H), (proj2 (find_key_None _ _) E), (rel_visit _ _ H). by rewrite fmap_app.
Qed.

Lemma rel_over c m k v k0 v0 : rel c m -> find_key k (store c) = Some (k0, v0) ->
  rel (with_store (hm_update k v (store c)) c) (bind_key k (Some (k0, v)) m).
Proof.
  intros H E. apply rel_store; [done|by apply distinct_update, H|..].
  - intros k'. by rewrite (find_key_update k v _ _ (rel_distinct _ _ H) E).
  - simpl. by rewrite (rel_binding _ _ H), E, (rel_visit _ _ H), hm_update_keys.
Qed.

Lemma hit_refines : refines R count_hit s_hit.
Proof.
  enter. unfold count_hit, bind, self, gets, of_outcome. simpl.
  destruct (rel_hits _ _ H) as [Hw Hl]. destruct (StripedCounter.increment_mut_run _ Hw) as (n & -> & Hn & E).
  split; [|done]. split; [done|]. destruct H. split; try done. simpl. split; [done|]. by rewrite E, <- Hl.
Qed.

Lemma miss_refines : refines R count_miss s_miss.
Proof.
  enter. unfold count_miss, bind, self, gets, of_outcome. simpl.
  destruct (rel_misses _ _ H) as [Hw Hl]. destruct (StripedCounter.increment_mut_run _ Hw) as (n & -> & Hn & E).
  split; [|done]. split; [done|]. destruct H. split; try done. simpl. split; [done|]. by rewrite E, <- Hl.
Qed.

Lemma deref_refines {E} g k : refines R (deref (E := E) g k) (s_deref g k).
Proof.
  enter. unfold deref, s_deref, bind, self, spec, gets. simpl.
  rewrite (rel_binding _ _ H). destruct (find_key k (store c)) as [[k0 v]|] eqn:Ef; [|by split].
  split; [|done]. split; [done|]. by apply rel_over with v.
Qed.

(** Two runs that start by reading the store. *)
Lemma unbound_refines_read {A} (f : UnboundCache K V W -> Op K V W A) (f' : MapSpec K V W -> Spec K V W A) :
  (forall c m w, rel c m -> agree R eq (f c (c, w)) (f' m (m, w))) ->
  refines R (bind self f) (bind spec f').
Proof. intros Hf. enter. by apply Hf. Qed.

(** A counting step, then the rest. *)
Lemma agree_then {A} (a : Op K V W unit) (b : Spec K V W unit) (f : Op K V W A) f' c m w :
  refines R a b -> refines R f f' -> rel c m -> agree R eq (bind a (fun _ => f) (c, w)) (bind b (fun _ => f') (m, w)).
Proof. intros Ha Hf H. by apply (refines_bind R _ _ _ _ Ha (fun _ => Hf) (c, w) (m, w)). Qed.

Lemma refines_step {A} (f : UnboundCache K V W -> UnboundCache K V W) g (r : A) c m w :
  rel (f c) (g m) -> agree R eq (bind (set_self f) (fun _ => ret r) (c, w)) (bind (set_spec g) (fun _ => ret r) (m, w)).
Proof. intros H. by split. Qed.

Lemma get_refines {E} k : refines R (run (Get E k)) (s_run (Get E k)).
Proof.
  intros s t HR. simpl. unfold cache_get. rewrite bind_assoc. revert s t HR. apply unbound_refines_read.
  intros c m w H. rewrite (rel_binding _ _ H).
  destruct (find_key k (store c)) as [[k0 v]|]; rewrite bind_assoc;
    (apply agree_then; [apply hit_refines || apply miss_refines| |done]; intros s t HR; by split).
Qed.

Lemma get_read_refines {E} k : refines R (run (GetRead E k)) (s_run (GetRead E k)).
Proof.
  enter. simpl.
  unfold cache_get_read, cache_peek, s_hit, s_miss, bind, self, spec, gets, of_outcome. simpl.
  rewrite (rel_binding _ _ H). destruct (find_key k (store c)) as [[k0 v]|]; simpl.
  - destruct (rel_hits _ _ H) as [Hw Hl].
    destruct (StripedCounter.increment_run (current_thread w) _ Hw) as (n & -> & Hn & E1).
    split; [|done]. split; [done|]. destruct H. split; try done. simpl. split; [done|]. by rewrite E1, <- Hl.
  - destruct (rel_misses _ _ H) as [Hw Hl].
    destruct (StripedCounter.increment_run (current_thread w) _ Hw) as (n & -> & Hn & E1).
    split; [|done]. split; [done|]. destruct H. split; try done. simpl. split; [done|]. by rewrite E1, <- Hl.
Qed.

Lemma get_mut_refines {E} k g : refines R (run (GetMut E k g)) (s_run (GetMut E k g)).
Proof.
  intros s t HR. simpl. unfold cache_get_mut. rewrite bind_assoc. revert s t HR. apply unbound_refines_read.
  intros c m w H. rewrite (rel_binding _ _ H).
  destruct (find_key k (store c)) as [[k0 v]|]; rewrite bind_assoc.
  - apply agree_then; [apply hit_refines|apply deref_refines|done].
  - apply agree_then; [apply miss_refines|intros s t HR; by split|done].
Qed.

Lemma set_refines {E} k v : refines R (run (Set_ E k v)) (s_run (Set_ E k v)).
Proof.
  enter. simpl. unfold cache_set, hm_insert, bind, self, spec, gets. simpl.
  rewrite (rel_binding _ _ H). destruct (find_key k (store c)) as [[k0 v0]|] eqn:Ef; (split; [|done]); (split; [done|]).
  - by apply rel_over with v0.
  - by apply rel_new.
Qed.

(** The insertion at the end of a miss. *)
Lemma insert_refines {E} k v g c m w : rel c m -> find_key k (store c) = None ->
  agree R eq (bind (vacant_insert k v) (deref (E := E) g) (c, w))
    (bind (set_spec (bind_key k (Some (k, v)))) (fun _ => s_deref g k) (m, w)).
Proof.
  intros H Ef. unfold vacant_insert. rewrite bind_assoc. apply (deref_refines g k). split; [done|]. by apply rel_new.
Qed.

Lemma get_or_set_refines {E} k (f : User W (result E V)) g (op : Op K V W (Reply K V E)) :
  (forall s, op s = bind self (fun c => match find_key k (store c) with
     | Some _ => count_hit ;; deref g k
     | None => count_miss ;; let! r := user f in
               match r with Ok v => let! k := vacant_insert k v in deref g k | Err e => ret (Error _ e) end
     end) s) -> refines R op (s_get_or_set k f g).
Proof.
  intros Hm s t HR. rewrite Hm. unfold s_get_or_set. revert s t HR. apply unbound_refines_read. intros c m w H.
  rewrite (rel_binding _ _ H). destruct (find_key k (store c)) as [[k0 v0]|] eqn:Ef.
  - apply agree_then; [apply hit_refines|apply deref_refines|done].
  - pose proof (miss_refines (c, w) (m, w) (conj eq_refl H)) as Hmiss.
    eapply (agree_seq R (fun s t => R s t /\ store s.1 = store c) eq eq); [| |].
    + destruct Hmiss as [HR HE]. split; [split; [done|]|done].
      unfold count_miss, bind, self, gets, of_outcome. simpl.
      destruct (rel_misses _ _ H) as [Hw _]. by destruct (StripedCounter.increment_mut_run _ Hw) as (n & -> & _).
    + by intros ? ? [? _].
    + intros [] [] [c1 w1] [m1' w2] _ [[Ew H1] Es]. simpl in *. subst w2. unfold bind at 1 3, user. simpl.
      destruct (f _) as [[[v|e]|] w3]; [|by split|by split].
      apply insert_refines; [done|]. simpl in Es. by rewrite Es.
Qed.

Lemma tell_refines (e : K * V) : refines R (notify e.1 e.2) (s_tell e).
Proof.
  enter. unfold notify, s_tell, bind, self, spec, gets. simpl. rewrite (rel_callback _ _ H).
  destruct (on_evict c) as [f|]; [|by split]. unfold user. simpl. destruct (f e.1 e.2 w) as [[[]|] w2]; by split.
Qed.

(** Callbacks run on the side: the map they are told about stays as it is. *)
Lemma tell_keeps (e : K * V) (s : UnboundCache K V W * W) r s' : notify e.1 e.2 s = (r, s') -> s'.1 = s.1.
Proof.
  destruct s as [c w]. unfold notify, bind, self, gets. simpl. destruct (on_evict c) as [f|]; [|by intros [= <- <-]].
  unfold user. simpl. destruct (f e.1 e.2 w) as [[[]|] w2]; by intros [= <- <-].
Qed.

Lemma s_retain_next keep k todo n m w e : binding m k = Some e ->
  s_retain keep (k :: todo) n (m, w) = (let! kept := user (keep e.1 e.2) in
    if kept then s_retain keep todo n
    else s_tell e ;; set_spec (bind_key k None) ;; s_retain keep todo (S n)) (m, w).
Proof. intros E. simpl. unfold bind at 1, spec, gets. simpl. by rewrite E. Qed.

Lemma retain_refines keep (todo : list (K * V)) : forall n c m w, rel c m -> distinct todo -> (forall e, e ∈ todo -> find_key e.1 (store c) = Some e) ->
  agree R eq (retain_loop keep todo n (c, w)) (s_retain keep todo.*1 n (m, w)).
Proof.
  induction todo as [|e todo IH]; intros n c m w H D Hin; [by apply agree_ret|]. destruct D as [De D].
  pose proof (Hin e (list_elem_of_here _ _)) as Ef. rewrite fmap_cons, (s_retain_next keep e.1 todo.*1 n m w e) by (by rewrite (rel_binding _ _ H)).
  simpl. unfold bind at 1 4, user. simpl. destruct (keep e.1 e.2 w) as [[[]|] w1]; [|..]; simpl.
  - apply IH; [done|done|]. intros e' He. apply Hin. by right.
  - eapply agree_bind; [apply (tell_refines e); by split|]. intros [] [] [c1 w2] [m1 w3] Et _ _ [Ew H1]. simpl in Ew, H1. subst w3.
    apply tell_keeps in Et. simpl in Et. subst c1. unfold bind at 1 2, set_self, set_spec, modify. simpl.
    unfold find_key in Ef. unfold drop_key. destruct (take_key e.1 (store c)) as [[e0 r]|] eqn:Et; [|done]. injection Ef as ->.
    pose proof (rel_drop _ _ _ _ _ H1 Et) as H2. apply IH; [exact H2|done|].
    intros e' He. simpl. pose proof (find_key_drop e.1 e'.1 (store c) (rel_distinct _ _ H)) as Hd. unfold drop_key in Hd. rewrite Et in Hd.
    rewrite Hd, (proj1 (Forall_forall _ _) De e' He). apply Hin. by right.
  - by apply agree_unwind.
Qed.

Lemma clear_telling_refines : refines R cache_clear_with_on_evict s_clear_telling.
Proof.
  apply unbound_refines_read. intros c m w H.
  assert (rel (with_store [] c) (unbind_all m)) as H0 by (destruct H; by split).
  assert (forall l : list (K * V), (forall e, e ∈ l -> binding m e.1 = Some e) ->
    refines R (for_each l (fun e => notify e.1 e.2)) (for_each l.*1 (fun k => match binding m k with Some e => s_tell e | None => ret tt end))) as Hl.
  { induction l as [|e l IH]; intros Hin; simpl; [apply refines_ret|]. rewrite Hin by apply list_elem_of_here.
    apply refines_bind; [apply tell_refines|]. intros _. apply IH. intros e' He. apply Hin. by right. }
  assert (agree R eq (bind (set_self (with_store [])) (fun _ => for_each (store c) (fun e => notify e.1 e.2)) (c, w))
    (bind (set_spec unbind_all) (fun _ => for_each (visit m) (fun k => match binding m k with Some e => s_tell e | None => ret tt end)) (m, w))) as Hall.
  { rewrite (rel_visit _ _ H). unfold bind, set_self, set_spec, modify. simpl. apply Hl; [|by split].
    intros e He. rewrite (rel_binding _ _ H). apply distinct_find; [apply H|done]. }
  destruct (on_evict c) as [f|] eqn:Ef; [exact Hall|].
  assert (forall l : list (K * V), for_each l (fun e => notify e.1 e.2) (with_store [] c, w) = (Done tt, (with_store [] c, w))) as Hn.
  { induction l as [|e l IH]; [done|]. simpl. unfold bind at 1, notify. unfold bind, self, gets. simpl. by rewrite Ef. }
  unfold bind at 1, set_self, modify in Hall. simpl in Hall. rewrite Hn in Hall. exact Hall.
Qed.

Lemma remove_refines k : refines R (cache_remove_entry k) (s_remove k).
Proof.
  apply unbound_refines_read. intros c m w H. rewrite (rel_binding _ _ H). unfold find_key. destruct (take_key k (store c)) as [[e r]|] eqn:Et; [|by split].
  pose proof (rel_drop _ _ _ _ _ H Et) as H'. unfold bind at 1 3. simpl.
  apply (refines_bind R _ _ (fun _ => ret (Some e)) (fun _ => ret (Some e)) (tell_refines e)); [intros; apply refines_ret|by split].
Qed.

(** The four get-or-set bodies have the shape of [get_or_set_refines]. *)
Ltac gos := apply get_or_set_refines; intros [c w]; simpl;
  unfold cache_get_or_set_with_mut, cache_try_get_or_set_with_mut, async_cache_get_or_set_with_mut,
    async_cache_try_get_or_set_with_mut, count_hit, count_miss, vacant_insert,
    always, user, bind, self, gets, set_self, modify, of_outcome, ret;
  simpl; repeat (case_match; simplify_eq/=; try done).

Lemma unbound_run_refines {E} (q : Call K V W E) : refines R (run q) (s_run q).
Proof.
  destruct q.
  - apply get_refines.
  - apply get_read_refines.
  - apply get_mut_refines.
  - enter. split; [done|]. simpl. by rewrite (rel_binding _ _ H).
  - apply set_refines.
  - gos.
  - gos.
  - gos.
  - gos.
  - intros s t HR. simpl. unfold cache_remove. rewrite bind_assoc. revert s t HR.
    apply refines_bind; [apply remove_refines|intros r; apply refines_ret].
  - apply refines_bind; [apply remove_refines|intros r; apply refines_ret].
  - intros s t HR. simpl. unfold retain. rewrite bind_assoc. revert s t HR. apply unbound_refines_read.
    intros c m w H. rewrite (rel_visit _ _ H).
    eapply agree_bind; [apply retain_refines; [done|apply H|]|by intros ? ? ? ? _ _ -> HR; apply agree_ret].
    intros e He. apply distinct_find; [apply H|done].
  - enter. split; [|done]. split; [done|]. by destruct H.
  - apply refines_bind; [apply clear_telling_refines|intros; apply refines_ret].
  - enter. split; [|done]. split; [done|]. destruct H as [D B Q [Hh _] [Hm _] C].
    split; try done; simpl; (split; [by apply StripedCounter.wf_reset|]); by rewrite StripedCounter.load_zeros.
  - enter. split; [|done]. split; [done|]. destruct H as [D B Q [Hh _] [Hm _] C].
    split; try done; simpl; (split; [by apply StripedCounter.wf_reset|]); by rewrite StripedCounter.load_zeros.
  - enter. split; [done|]. simpl. rewrite (rel_binding _ _ H). by destruct (find_key k (store c)).
  - enter. split; [done|]. simpl. unfold cache_size. by rewrite (rel_visit _ _ H), length_fmap.
  - enter. split; [done|]. simpl. unfold cache_hits, cache_misses.
    destruct (rel_hits _ _ H) as [_ ->], (rel_misses _ _ H) as [_ ->]. done.
Qed.

(** Calls one after the other, each panic caught. *)
Lemma runs_refines {E} (qs : list (Call K V W E)) s t : R s t ->
  (runs run qs s).1 = (runs s_run qs t).1 /\ R (runs run qs s).2 (runs s_run qs t).2.
Proof. intros HR. by destruct (runs_refine R run s_run qs s t unbound_run_refines HR) as (? & _ & ?). Qed.


(** ** [retain] *)

Lemma unbound_retain_loop_wp p todo kept n c w : distinct (kept ++ todo) -> store c = kept ++ todo ->
  let keeps e := default false (p e.1 e.2) in
  wp (retain_loop (fun k v w => (p k v, w)) todo n)
    (fun r s => store s.1 = kept ++ List.filter keeps todo /\
       r = (n + length (List.filter (fun e => negb (keeps e)) todo))%nat)
    (fun s => exists seen e rest, todo = seen ++ e :: rest /\
       (p e.1 e.2 = None \/ p e.1 e.2 = Some false /\ on_evict c <> None) /\
       store s.1 = kept ++ List.filter keeps seen ++ e :: rest) (c, w).
Proof.
  intros D Es keeps. revert kept n c w D Es. induction todo as [|e todo IH]; intros kept n c w D Es; simpl.
  { apply wp_ret. simpl. split; [done|lia]. }
  apply wp_bind, wp_user.
  2: { intros w' E. exists [], e, todo. injection E as E _. by split_and!; [|left|]. }
  intros b w' E. injection E as E _. assert (keeps e = b) as Hk by (unfold keeps; by rewrite E). rewrite Hk.
  destruct b; simpl.
  - change (e :: todo) with ([e] ++ todo) in D, Es. rewrite app_assoc in D, Es. eapply wp_mono; [by apply (IH (kept ++ [e]))| |]; simpl.
    + intros r s [H1 H2]. split; [by rewrite H1, <- app_assoc|done].
    + intros s (seen & e' & rest & -> & Hp & H). exists (e :: seen), e', rest. simpl. rewrite Hk.
      split_and!; [done|done|]. by rewrite H, <- app_assoc.
  - apply wp_bind. unfold notify. apply wp_bind, wp_gets. cbn [fst].
    assert (forall w1, wp (set_self (fun c => with_store (drop_key e.1 (store c)) c) ;;
        retain_loop (fun k v w => (p k v, w)) todo (S n))
      (fun r s => store s.1 = kept ++ List.filter keeps todo /\
         r = (n + S (length (List.filter (fun e => negb (keeps e)) todo)))%nat)
      (fun s => exists seen e' rest, e :: todo = seen ++ e' :: rest /\
         (p e'.1 e'.2 = None \/ p e'.1 e'.2 = Some false /\ on_evict c <> None) /\
         store s.1 = kept ++ List.filter keeps seen ++ e' :: rest) (c, w1)) as Hgo.
    { intros w1. apply wp_bind, wp_modify. simpl. rewrite Es, drop_key_mid by done.
      eapply wp_mono; [apply (IH kept)| |]; simpl; [by apply distinct_mid in D as [? _]|done| |].
      - intros r s [H1 H2]. split; [done|lia].
      - intros s (seen & e' & rest & -> & Hp & H). exists (e :: seen), e', rest. simpl. by rewrite Hk. }
    destruct (on_evict c) as [f|] eqn:Ef; [|by apply wp_ret, Hgo].
    apply wp_user; [intros [] w1 _; apply Hgo|]. intros w1 _. exists [], e, todo. split_and!; [done| |done].
    right. by split.
Qed.

(** [UnboundCache::retain] keeps exactly the entries its predicate accepts and returns how
    many it removed.  It decides and removes entry by entry: if the predicate panics on an entry,
    or [on_evict] panics on a rejected one, the entries before it have been dealt with, and that
    entry and those after it are still in the store. *)
Theorem unbound_retain p c w : distinct (store c) ->
  let keeps e := default false (p e.1 e.2) in
  wp (retain (fun k v w => (p k v, w)))
    (fun n s => store s.1 = List.filter keeps (store c) /\
       n = length (List.filter (fun e => negb (keeps e)) (store c)))
    (fun s => exists seen e rest, store c = seen ++ e :: rest /\
       (p e.1 e.2 = None \/ p e.1 e.2 = Some false /\ on_evict c <> None) /\
       store s.1 = List.filter keeps seen ++ e :: rest) (c, w).
Proof. intros D keeps. apply wp_bind, wp_gets. by apply (unbound_retain_loop_wp p (store c) [] 0). Qed.
End Refinement.

(** ** Witnesses *)
Module Demo.
Import Tick.

Definition blueprint : UnboundCacheBuilder (K := TaggedKey.t) (V := Z) (W := Tick.t) := builder_on_evict log builder.
Definition empty : UnboundCache TaggedKey.t Z Tick.t :=
  mkUnbound [] StripedCounter.new StripedCounter.new None (Some log).
Definition full : UnboundCache TaggedKey.t Z Tick.t := with_store [(k1, 7); (k2, 8); (k3, 9)] empty.


Lemma unbound_retain_witness :
  wp (retain (fun k v w => (Some (Z.odd v), w)))
    (fun n s => store s.1 = [(k1, 7); (k3, 9)] /\ n = 1%nat) (fun _ => True) (full, Tick.mk 0 []).
Proof.
  eapply wp_mono; [apply (unbound_retain (fun _ v => Some (Z.odd v)) full (Tick.mk 0 []))| |done].
  - simpl. repeat split; repeat constructor.
  - intros n s H. exact H.
Defined.
End Demo.
