(* ===== verification/Expiring.v ===== *)
(** * The store whose values know their own expiry ([src/stores/expiring.rs])

    [ExpiringCache] asks the value, through the user's [Expires::is_expired], whether it is still
    live.  That is user code: it may answer differently each time, and it may panic.  A [&mut V]
    into the map is named by the key it was looked up with. *)
From S2P Require Import Prelude Keys Stores.

Section ExpiringCache.
Context {K V W : Type} `{!KeyEq K, !Expires V W}.

(** ** Data *)

Record ExpiringCache : Type := mkExpiring {
  store : list (K * V);
  initial_capacity : option Z;
  hits : Z;
  misses : Z;
  evictions : Z;
  on_evict : OnEvict K V W }.

Definition with_store (m : list (K * V)) (c : ExpiringCache) : ExpiringCache :=
  mkExpiring m (initial_capacity c) (hits c) (misses c) (evictions c) (on_evict c).
Definition with_hits (n : Z) (c : ExpiringCache) : ExpiringCache :=
  mkExpiring (store c) (initial_capacity c) n (misses c) (evictions c) (on_evict c).
Definition with_misses (n : Z) (c : ExpiringCache) : ExpiringCache :=
  mkExpiring (store c) (initial_capacity c) (hits c) n (evictions c) (on_evict c).
Definition with_evictions (n : Z) (c : ExpiringCache) : ExpiringCache :=
  mkExpiring (store c) (initial_capacity c) (hits c) (misses c) n (on_evict c).

Definition Op (A : Type) : Type := ST (ExpiringCache * W) A.
Definition self : Op ExpiringCache := gets fst.
Definition set_self (f : ExpiringCache -> ExpiringCache) : Op unit := modify (fun s => (f s.1, s.2)).

Definition count_hit : Op unit := set_self (fun c => with_hits (fetch_add (hits c) 1) c).
Definition count_miss : Op unit := set_self (fun c => with_misses (fetch_add (misses c) 1) c).
Definition count_evictions (n : Z) : Op unit :=
  set_self (fun c => with_evictions (fetch_add (evictions c) n) c).
Definition notify (k : K) (v : V) : Op unit :=
  let! c := self in match on_evict c with Some f => user (f k v) | None => ret tt end.

(** The map's own calls. *)
Definition map_update (k : K) (v : V) : Op unit :=
  set_self (fun c => with_store (hm_update k v (store c)) c).
Definition map_push (k : K) (v : V) : Op unit :=
  set_self (fun c => with_store (store c ++ [(k, v)]) c).
Definition map_remove_entry (k : K) : Op (option (K * V)) :=
  let! c := self in
  match take_key k (store c) with
  | Some (e, m) => set_self (with_store m) ;; ret (Some e)
  | None => ret None
  end.

(** [PartialEq]: the maps are equal, whatever the metrics. *)
Definition cache_eq (value_eq : V -> V -> bool) (c d : ExpiringCache) : bool :=
  (length (store c) =? length (store d))%nat &&
  forallb (fun e => match find_key e.1 (store d) with Some e' => value_eq e.2 e'.2 | None => false end)
    (store c).

Definition clone (c : ExpiringCache) : ExpiringCache :=
  mkExpiring (store c) (initial_capacity c) (hits c) (misses c) (evictions c) (on_evict c).

(** ** Construction *)

Record ExpiringCacheBuilder : Type := mkBuilder { b_capacity : option Z; b_on_evict : OnEvict K V W }.

Definition builder : ExpiringCacheBuilder := mkBuilder None None.
Definition builder_initial_capacity (n : Z) (b : ExpiringCacheBuilder) := mkBuilder (Some n) (b_on_evict b).
Definition builder_on_evict (f : K -> V -> User W unit) (b : ExpiringCacheBuilder) :=
  mkBuilder (b_capacity b) (Some f).

Definition build (b : ExpiringCacheBuilder) : result BuildError ExpiringCache :=
  Ok (mkExpiring [] (b_capacity b) 0 0 0 (b_on_evict b)).

Definition new : outcome ExpiringCache := match build builder with Ok c => Done c | Err _ => Unwind end.

(** ** Sweeps *)

Definition take_doomed (doomed : K -> V -> User W bool) : Op (list (K * V)) :=
  zoom (fun s => (store s.1, s.2)) (fun p s => (with_store p.1 s.1, p.2)) (Stores.take_doomed doomed).

Definition notify_evicted (removed : list (K * V)) : Op nat :=
  (if decide (removed = []) then ret tt else count_evictions (Z.of_nat (length removed))) ;;
  for_each removed (fun e => notify e.1 e.2) ;;
  ret (length removed).

Definition evict : Op nat :=
  let! removed := take_doomed (fun _ value => is_expired value) in
  notify_evicted removed.

Definition retain (keep : K -> V -> User W bool) : Op nat :=
  let! removed := take_doomed (expired_or_rejected keep) in
  notify_evicted removed.

Definition cache_clear_with_on_evict : Op unit :=
  let! c := self in
  let entries := store c in
  set_self (with_store []) ;;
  let count := Z.of_nat (length entries) in
  (if 0 <? count then count_evictions count else ret tt) ;;
  for_each entries (fun e => notify e.1 e.2).

(** ** [Cached] *)

(** The branch of the two reads on an expired entry. *)
Definition sweep_expired (k : K) : Op unit :=
  count_miss ;;
  let! r := map_remove_entry k in
  match r with
  | Some (key, old) => count_evictions 1 ;; notify key old
  | None => ret tt
  end.

Definition cache_get (k : K) : Op (option V) :=
  let! c := self in
  match find_key k (store c) with
  | None => count_miss ;; ret None
  | Some (_, v) =>
      let! expired := user (is_expired v) in
      if expired then sweep_expired k ;; ret None
      else
        count_hit ;;
        let! c := self in
        ret (snd <$> find_key k (store c))
  end.

Definition cache_get_mut (k : K) : Op (option K) :=
  let! c := self in
  match find_key k (store c) with
  | None => count_miss ;; ret None
  | Some (_, v) =>
      let! expired := user (is_expired v) in
      if expired then sweep_expired k ;; ret None
      else
        count_hit ;;
        let! c := self in
        ret (match find_key k (store c) with Some _ => Some k | None => None end)
  end.

Definition cache_get_or_set_with_mut (k : K) (f : User W V) : Op K :=
  let! c := self in
  match find_key k (store c) with
  | Some (stored, old) =>
      let! expired := user (is_expired old) in
      if negb expired then count_hit ;; ret k
      else
        count_miss ;;
        let! new_val := user f in
        map_update k new_val ;;
        count_evictions 1 ;;
        notify stored old ;;
        ret k
  | None =>
      count_miss ;;
      let! v := user f in
      map_push k v ;;
      ret k
  end.

Definition cache_try_get_or_set_with_mut {E} (k : K) (f : User W (result E V)) : Op (result E K) :=
  let! c := self in
  match find_key k (store c) with
  | Some (stored, old) =>
      let! expired := user (is_expired old) in
      if negb expired then count_hit ;; ret (Ok k)
      else
        count_miss ;;
        let! r := user f in
        match r with
        | Err e => ret (Err e)
        | Ok new_val =>
            map_update k new_val ;;
            count_evictions 1 ;;
            notify stored old ;;
            ret (Ok k)
        end
  | None =>
      count_miss ;;
      let! r := user f in
      match r with
      | Err e => ret (Err e)
      | Ok v => map_push k v ;; ret (Ok k)
      end
  end.

(** The [async] variants are the same text around [f().await]. *)
Definition async_cache_get_or_set_with_mut (k : K) (f : User W V) : Op K :=
  cache_get_or_set_with_mut k f.
Definition async_cache_try_get_or_set_with_mut {E} (k : K) (f : User W (result E V)) : Op (result E K) :=
  cache_try_get_or_set_with_mut k f.

Definition cache_set (k : K) (v : V) : Op (option V) :=
  let! c := self in
  match find_key k (store c) with
  | Some (stored, old) =>
      map_update k v ;;
      let! expired := user (is_expired old) in
      if expired then count_evictions 1 ;; notify stored old ;; ret None
      else ret (Some old)
  | None => map_push k v ;; ret None
  end.

Definition cache_remove (k : K) : Op (option V) :=
  let! r := map_remove_entry k in
  match r with
  | None => ret None
  | Some (stored_k, v) =>
      let! expired := user (is_expired v) in
      count_evictions 1 ;;
      notify stored_k v ;;
      ret (if expired then None else Some v)
  end.

Definition cache_remove_entry (k : K) : Op (option (K * V)) :=
  let! r := map_remove_entry k in
  match r with
  | Some (stored_k, v) =>
      count_evictions 1 ;;
      notify stored_k v ;;
      ret (Some (stored_k, v))
  | None => ret None
  end.

Definition cache_clear : Op unit := set_self (with_store []).

Definition cache_reset_metrics : Op unit :=
  set_self (with_hits 0) ;; set_self (with_misses 0) ;; set_self (with_evictions 0).

(** [shrink_to] only gives memory back. *)
Definition cache_reset : Op unit := set_self (with_store []) ;; cache_reset_metrics.

Definition cache_size (c : ExpiringCache) : Z := Z.of_nat (length (store c)).

Definition cache_peek (k : K) : Op (option V) :=
  let! c := self in
  match find_key k (store c) with
  | Some (_, value) =>
      let! expired := user (is_expired value) in
      ret (if expired then None else Some value)
  | None => ret None
  end.

Definition cache_contains (k : K) : Op bool :=
  let! v := cache_peek k in ret (match v with Some _ => true | None => false end).

(** [CachedIter::iter], collected. *)
Definition iter : Op (list (K * V)) :=
  let! c := self in
  filter_each (store c) (fun e => let! expired := user (is_expired e.2) in ret (negb expired)).

(** ** [CloneCached] *)

Definition cache_get_with_expiry_status (k : K) : Op (option V * bool) :=
  let! c := self in
  match find_key k (store c) with
  | Some (_, value) =>
      let! expired := user (is_expired value) in
      if expired then count_miss ;; ret (Some value, true)
      else count_hit ;; ret (Some value, false)
  | None => count_miss ;; ret (None, false)
  end.

Definition cache_peek_with_expiry_status (k : K) : Op (option V * bool) :=
  let! c := self in
  match find_key k (store c) with
  | Some (_, value) =>
      let! expired := user (is_expired value) in
      ret (Some value, expired)
  | None => ret (None, false)
  end.
End ExpiringCache.
Arguments ExpiringCache : clear implicits.
Arguments Op : clear implicits.

(** ** Properties *)
Section Properties.
Context {K V W : Type} `{!KeyEq K, !KeyLaws K, !Expires V W}.
Implicit Types (c : ExpiringCache K V W) (k : K) (v : V) (w : W).

(** No two keys are equal. *)
Definition wf c : Prop := distinct (store c).

(** A call of a public method; a [&mut V] that comes back is written by [g]. *)
Inductive Call (E : Type) : Type :=
| Get (k : K)
| GetMut (k : K) (g : V -> V)
| Set_ (k : K) (v : V)
| GetOrSet (k : K) (f : User W V) (g : V -> V)
| TryGetOrSet (k : K) (f : User W (result E V)) (g : V -> V)
| AsyncGetOrSet (k : K) (f : User W V) (g : V -> V)
| AsyncTryGetOrSet (k : K) (f : User W (result E V)) (g : V -> V)
| Remove (k : K)
| RemoveEntry (k : K)
| Retain (keep : K -> V -> User W bool)
| Evict
| ClearWithOnEvict
| Peek (k : K)
| PeekStatus (k : K)
| GetStatus (k : K)
| Iter
| Clear
| Reset_
| ResetMetrics.

Definition deref (g : V -> V) (k : K) : Op K V W unit :=
  let! c := self in
  match find_key k (store c) with
  | Some (_, v) => map_update k (g v)
  | None => unwind
  end.

Definition run {E} (q : Call E) : Op K V W unit :=
  match q with
  | Get _ k => cache_get k ;; ret tt
  | GetMut _ k g => let! r := cache_get_mut k in match r with Some k => deref g k | None => ret tt end
  | Set_ _ k v => cache_set k v ;; ret tt
  | GetOrSet _ k f g => let! k := cache_get_or_set_with_mut k f in deref g k
  | TryGetOrSet _ k f g =>
      let! r := cache_try_get_or_set_with_mut k f in
      match r with Ok k => deref g k | Err _ => ret tt end
  | AsyncGetOrSet _ k f g => let! k := async_cache_get_or_set_with_mut k f in deref g k
  | AsyncTryGetOrSet _ k f g =>
      let! r := async_cache_try_get_or_set_with_mut k f in
      match r with Ok k => deref g k | Err _ => ret tt end
  | Remove _ k => cache_remove k ;; ret tt
  | RemoveEntry _ k => cache_remove_entry k ;; ret tt
  | Retain _ keep => retain keep ;; ret tt
  | Evict _ => evict ;; ret tt
  | ClearWithOnEvict _ => cache_clear_with_on_evict
  | Peek _ k => cache_peek k ;; ret tt
  | PeekStatus _ k => cache_peek_with_expiry_status k ;; ret tt
  | GetStatus _ k => cache_get_with_expiry_status k ;; ret tt
  | Iter _ => iter ;; ret tt
  | Clear _ => cache_clear
  | Reset_ _ => cache_reset
  | ResetMetrics _ => cache_reset_metrics
  end.

(** The calls that drop entries, or counts, silently by contract. *)
Definition silent {E} (q : Call E) : bool :=
  match q with Clear _ | Reset_ _ | ResetMetrics _ => true | _ => false end.

(** The closures of a call, [is_expired] and the callback may panic only if [P]. *)
Definition call_ok {E} (P : Prop) (q : Call E) : Prop :=
  match q with
  | GetOrSet _ _ f _ | AsyncGetOrSet _ _ f _ => P \/ total f
  | TryGetOrSet _ _ f _ | AsyncTryGetOrSet _ _ f _ => P \/ total f
  | Retain _ keep => forall k v, P \/ total (keep k v)
  | _ => True
  end.

(** [c'] comes from [c] by a step that counted [n] evictions, of entries that were there, and at
    least all those that are gone. *)
Definition counted c c' : Prop := exists n : nat,
  evictions c' = u64_wrap (evictions c + Z.of_nat n) /\
  (n <= length (store c) <= length (store c') + n)%nat.

Context (P PE : Prop) (is_expired_ok : forall v, PE \/ total (is_expired (W := W) v)) (PE_P : PE -> P).

(** The state after a call from [c]: whatever happened the keys are distinct and the callback is
    the same; what left the map was counted, unless [is_expired] panicked on the way. *)
Definition after c c' : Prop :=
  wf c' /\ on_evict c' = on_evict c /\ 0 <= evictions c' < 2 ^ 64 /\ (PE \/ counted c c').

Definition Inv c : Prop :=
  wf c /\ 0 <= evictions c < 2 ^ 64 /\ (P \/ callback_total (on_evict c)).

Lemma counted_same c c' : 0 <= evictions c < 2 ^ 64 ->
  evictions c' = evictions c -> (length (store c) <= length (store c'))%nat -> counted c c'.
Proof. intros H E L. exists 0%nat. unfold u64_wrap. rewrite E, Z.add_0_r, Z.mod_small by lia. split; [done|lia]. Qed.

Lemma counted_one c c' : evictions c' = fetch_add (evictions c) 1 -> store c <> [] ->
  (length (store c) <= length (store c') + 1)%nat -> counted c c'.
Proof. intros E Hn L. exists 1%nat. split; [done|]. destruct (store c); simpl in *; [done|lia]. Qed.

Lemma take_key_length k (m : list (K * V)) e r : take_key k m = Some (e, r) -> length m = S (length r).
Proof.
  intros H. apply take_key_Some in H as (xs & ys & -> & -> & _). rewrite !length_app. simpl. lia.
Qed.

Lemma hm_update_length k v (m : list (K * V)) : length (hm_update k v m) = length m.
Proof. rewrite <- (length_fmap fst), hm_update_keys. apply length_fmap. Qed.

Lemma find_key_some_ne k (m : list (K * V)) e : find_key k m = Some e -> m <> [].
Proof. by intros H ->. Qed.

Lemma wrap_range x : 0 <= fetch_add x 1 < 2 ^ 64.
Proof. apply Z.mod_pos_bound. lia. Qed.

Lemma wp_exp_notify k v (Q : unit -> ExpiringCache K V W * W -> Prop) U c w :
  P \/ callback_total (on_evict c) -> (forall w', Q tt (c, w')) -> (forall w', P -> U (c, w')) ->
  wp (notify k v) Q U (c, w).
Proof. intros HP HQ HU. unfold notify. apply wp_bind, wp_gets. by apply (wp_callback P). Qed.

(** Symbolic run of a method, down to the states it can end in. *)
Ltac go1 :=
  match goal with
  | |- wp (bind _ _) _ _ _ => apply wp_bind
  | |- wp (ret _) _ _ _ => apply wp_ret
  | |- wp self _ _ _ => apply wp_gets
  | |- wp (set_self _) _ _ _ => apply wp_modify
  | |- wp count_hit _ _ _ => apply wp_modify
  | |- wp count_miss _ _ _ => apply wp_modify
  | |- wp (count_evictions _) _ _ _ => apply wp_modify
  | |- wp (map_update _ _) _ _ _ => apply wp_modify
  | |- wp (map_push _ _) _ _ _ => apply wp_modify
  | |- wp (notify _ _) _ _ _ => apply wp_exp_notify; [done|intros ?|intros ? ?]
  | |- wp (user (is_expired ?v)) _ _ _ => apply (wp_user_ok PE); [apply is_expired_ok|intros ? ?|intros ? ?]
  | |- wp (user _) _ _ _ => apply (wp_user_ok P); [done|intros ? ?|intros ? ?]
  | |- wp (match ?x with _ => _ end) _ _ _ => destruct x eqn:?
  | |- wp (match ?x with _ => _ end _) _ _ _ => destruct x eqn:?
  end; simpl.
Ltac go := repeat go1.

(** The count of a state a method ends in. *)
Ltac count := first
  [ by left
  | right; first
    [ apply counted_same; [done|done|simpl; rewrite ?hm_update_length, ?length_app; lia]
    | apply counted_one; [done|by eapply find_key_some_ne|simpl; rewrite ?hm_update_length, ?length_app; lia]
    | apply counted_one; [done|by match goal with H : take_key _ ?m = Some _ |- _ => intros Hn; rewrite Hn in H end|
        simpl; match goal with H : take_key _ _ = Some _ |- _ => rewrite (take_key_length _ _ _ _ H) end; lia] ] ].

Ltac leaf := unfold after, wf in *; simpl in *; repeat match goal with |- _ /\ _ => split end; try done; auto;
  try (apply wrap_range; fail); try lia;
  eauto using distinct_update, distinct_snoc, find_fresh, distinct_drop_key; try count.

Ltac methods := unfold cache_get, cache_get_mut, cache_set, cache_get_or_set_with_mut,
  cache_try_get_or_set_with_mut, async_cache_get_or_set_with_mut, async_cache_try_get_or_set_with_mut,
  cache_remove, cache_remove_entry, cache_peek, cache_peek_with_expiry_status,
  cache_get_with_expiry_status, sweep_expired, map_remove_entry.

Notation good c m := (forall w, wp m (fun _ s => after c s.1) (fun s => P /\ after c s.1) (c, w)).

(** The place a [&mut V] names is there when the method returns. *)
Definition here c k (s : ExpiringCache K V W * W) : Prop := after c s.1 /\ find_key k (store s.1) <> None.

Ltac present := simpl in *; try done;
  try (apply present_update; congruence); try apply present_snoc; try congruence.

Lemma deref_good g c k s : here c k s -> wp (deref g k) (fun _ s => after c s.1) (fun s => P /\ after c s.1) s.
Proof.
  destruct s as [c' w]. intros [(H1 & H2 & H3 & H4) Hk]. simpl in *. unfold deref. go; [|done].
  refine (conj _ (conj _ (conj _ _))); [by apply distinct_update|done|exact H3|]. destruct H4 as [H4|(n & E & L)]; [by left|right].
  exists n. split; [done|]. simpl. by rewrite hm_update_length.
Qed.

Lemma get_mut_good k c w : Inv c ->
  wp (cache_get_mut k) (fun r s => match r with Some k => here c k s | None => after c s.1 end)
    (fun s => P /\ after c s.1) (c, w).
Proof. intros (D & He & HP). methods. go.
  all: try match goal with H : find_key ?a ?m = _ |- context [find_key ?a ?m] => rewrite H end.
  all: try (split; [leaf|present]; fail). all: leaf.
Qed.

Lemma get_or_set_good k f c w : Inv c -> P \/ total f ->
  wp (cache_get_or_set_with_mut k f) (fun r s => here c r s) (fun s => P /\ after c s.1) (c, w).
Proof.
  intros (D & He & HP) Hf. methods. go. all: try (split; [by auto|leaf]; fail). all: split; [leaf|present].
Qed.

Lemma try_get_or_set_good {E} k (f : User W (result E V)) c w : Inv c -> P \/ total f ->
  wp (cache_try_get_or_set_with_mut k f)
    (fun r s => match r with Ok k => here c k s | Err _ => after c s.1 end)
    (fun s => P /\ after c s.1) (c, w).
Proof.
  intros (D & He & HP) Hf. methods. go. all: try (leaf; fail). all: split; [leaf|present].
Qed.

Lemma after_intro c c' : wf c' -> on_evict c' = on_evict c -> 0 <= evictions c' < 2 ^ 64 -> counted c c' ->
  after c c'.
Proof. unfold after. tauto. Qed.

(** Entries already removed are counted before the callback sees the first. *)
Lemma notify_all_good (l : list (K * V)) c c' w : P \/ callback_total (on_evict c') -> after c c' ->
  wp (for_each l (fun e => notify e.1 e.2)) (fun _ s => after c s.1) (fun s => P /\ after c s.1) (c', w).
Proof.
  intros HP HA. eapply wp_mono;
    [apply (keeps_for_each (fun s : ExpiringCache K V W * W => s.1 = c') P); [|done]| |].
  - intros e [c2 w2] Ec. simpl in Ec. subst c2. go; done.
  - intros [] s ->. done.
  - intros s [? ->]. done.
Qed.

Lemma counted_all c (l m : list (K * V)) : (length (store c) = length l + length m)%nat -> 0 <= evictions c < 2 ^ 64 ->
  counted c (with_evictions (if decide (l = []) then evictions c
                             else fetch_add (evictions c) (Z.of_nat (length l))) (with_store m c)).
Proof.
  intros L H. exists (length l). simpl. destruct (decide (l = [])) as [->|_]; simpl in *.
  - unfold u64_wrap. rewrite Z.add_0_r, Z.mod_small by lia. split; [done|lia].
  - split; [done|lia].
Qed.

Lemma sweep_good d c : (forall k v, P \/ total (d k v)) -> Inv c ->
  good c (let! removed := take_doomed d in notify_evicted removed).
Proof.
  intros Hd (D & He & HP) w. apply wp_bind. unfold take_doomed. apply wp_zoom. simpl.
  eapply wp_mono; [by apply (take_doomed_split P d (store c) w Hd D)| |]; simpl.
  - intros l [m w'] [Hp D']. simpl in *. assert (length (store c) = length l + length m)%nat as L
      by (rewrite <- Hp; apply length_app).
    pose proof (counted_all c l m L He) as Hc. unfold notify_evicted. destruct (decide (l = [])) as [->|Hn].
    + apply wp_bind, wp_ret, wp_bind, wp_ret, wp_ret. by apply after_intro; [| |simpl|destruct c].
    + apply wp_bind, wp_modify, wp_bind. simpl.
      eapply wp_mono; [apply (notify_all_good l c); [exact HP|]| |done].
      * apply after_intro; [done|done|apply Z.mod_pos_bound; lia|done].
      * intros [] s H. by apply wp_ret.
  - intros [m w'] [HP' E]. simpl in *. subst m. split; [done|]. by apply after_intro; [| |simpl|apply counted_same].
Qed.

Lemma clear_with_good c : Inv c -> good c cache_clear_with_on_evict.
Proof.
  intros (D & He & HP) w. unfold cache_clear_with_on_evict. go1. go1. go1. go1. go1.
  pose proof (counted_all c (store c) [] ltac:(simpl; lia) He) as Hc.
  destruct (Z.ltb_spec 0 (Z.of_nat (length (store c)))) as [Hl|Hl]; go; apply notify_all_good; try exact HP.
  - apply after_intro; [done|done|apply Z.mod_pos_bound; lia|].
    destruct (decide (store c = [])) as [E|_]; [rewrite E in Hl; simpl in Hl; lia|exact Hc].
  - destruct (store c) as [|e m] eqn:Es; [|simpl in Hl; lia]. by apply after_intro; [| |simpl|apply counted_same; [| |rewrite Es]].
Qed.

Lemma iter_good c : Inv c -> good c iter.
Proof.
  intros (D & He & HP) w. unfold iter. apply wp_bind, wp_gets. simpl.
  eapply wp_mono; [apply (keeps_filter_each (fun s : ExpiringCache K V W * W => s.1 = c) P); [|done]| |].
  - intros e [c2 w2] Ec. simpl in Ec. subst c2. go; [done|]. split; [by apply PE_P|done].
  - intros l s ->. by leaf.
  - intros s [? ->]. by leaf.
Qed.

(** Ignoring the result. *)
Lemma good_seq {A} c (m : Op K V W A) : good c m -> good c (m ;; ret tt).
Proof. intros H w. apply wp_bind. eapply wp_mono; [by apply H| |done]. intros a s H'. by apply wp_ret. Qed.

Lemma retain_good keep c : (forall k v, P \/ total (keep k v)) -> Inv c -> good c (retain keep).
Proof.
  intros Hk HI. apply sweep_good; [|done]. intros k v.
  destruct (is_expired_ok v) as [H|H]; [left; auto|]. destruct (Hk k v) as [H2|H2]; [by left|right].
  intros w. unfold expired_or_rejected. destruct (H w) as ([] & w' & ->); [by eexists _, _|].
  destruct (H2 w') as (b & w2 & ->). by eexists _, _.
Qed.

Lemma evict_good c : Inv c -> good c evict.
Proof.
  intros HI. apply sweep_good; [|done]. intros k v. destruct (is_expired_ok v); auto.
Qed.

Lemma run_good {E} (q : Call E) c : call_ok P q -> silent q = false -> Inv c -> good c (run q).
Proof.
  destruct q; simpl; intros Hq Hs HI w; try done.
  all: try (destruct HI as (D & He & HP); methods; go; leaf; fail).
  - apply wp_bind. eapply wp_mono; [by apply get_mut_good| |done].
    intros [k'|] s H; [by apply deref_good|by apply wp_ret].
  - apply wp_bind. eapply wp_mono; [by apply get_or_set_good| |done]. intros k' s H. by apply deref_good.
  - apply wp_bind. eapply wp_mono; [by apply try_get_or_set_good| |done].
    intros [k'|] s H; [by apply deref_good|by apply wp_ret].
  - apply wp_bind. eapply wp_mono; [by apply get_or_set_good| |done]. intros k' s H. by apply deref_good.
  - apply wp_bind. eapply wp_mono; [by apply try_get_or_set_good| |done].
    intros [k'|] s H; [by apply deref_good|by apply wp_ret].
  - apply good_seq. by apply retain_good.
  - apply good_seq. by apply evict_good.
  - by apply clear_with_good.
  - apply good_seq. by apply iter_good.
Qed.

Lemma run_silent {E} (q : Call E) c w : silent q = true -> Inv c ->
  wp (run q) (fun _ s => Inv s.1) (fun _ => False) (c, w).
Proof. destruct q; try done; intros _ (D & He & HP); simpl; unfold cache_clear, cache_reset, cache_reset_metrics; go; (split; [done|split; [simpl; lia|exact HP]]). Qed.

Lemma after_inv c c' : Inv c -> after c c' -> Inv c'.
Proof. intros (_ & _ & HP) (H1 & H2 & H3 & _). split; [done|]. split; [done|]. by rewrite H2. Qed.

Lemma expiring_runs_ok {E} (qs : list (Call E)) c w : Inv c -> Forall (call_ok P) qs ->
  Forall (fun o => o = Done tt \/ (o = Unwind /\ P)) (runs run qs (c, w)).1 /\ Inv (runs run qs (c, w)).2.1.
Proof.
  intros HI H. destruct (runs_keep (fun s => Inv s.1) P (call_ok P) run qs (c, w)) as [H1 H2]; [|done|done|].
  - intros q [c' w'] Hq HI'. destruct (silent q) eqn:Es.
    + eapply wp_mono; [by apply run_silent|done|done].
    + eapply wp_mono; [by apply run_good| |]; [|intros s [? ?]; split; [done|]]; intros; by eapply after_inv.
  - split; [|done]. eapply Forall_impl; [exact H1|]. intros o [[[] ->]|?]; auto.
Qed.
End Properties.
Arguments Call : clear implicits.

Section Claims.
Context {K V W : Type} `{!KeyEq K, !KeyLaws K, !Expires V W}.
Implicit Types (c : ExpiringCache K V W) (k : K) (v : V) (w : W).

(** Any sequence of calls of [ExpiringCache], blocking and [async], leaves keys distinct, even
    after panics of user code (of [is_expired] too) that the caller caught; and when no user code
    panics every call returns. *)
Theorem expiring_calls {E} (P : Prop) (b : ExpiringCacheBuilder) c (qs : list (Call K V W E)) w :
  build b = Ok c -> P \/ callback_total (b_on_evict b) -> (forall v, P \/ total (is_expired (W := W) v)) ->
  Forall (call_ok P) qs ->
  wf (runs run qs (c, w)).2.1 /\
  Forall (fun o => o = Done tt \/ (o = Unwind /\ P)) (runs run qs (c, w)).1.
Proof.
  intros [= <-] HP He Hq.
  assert (Inv P (mkExpiring [] (b_capacity b) 0 0 0 (b_on_evict b))) as HI by (by split).
  by destruct (expiring_runs_ok P P He id qs _ w HI Hq) as [H1 [H2 _]].
Qed.

(** No entry is ever removed and not counted: if [is_expired] does not panic, then after any
    call but the clearing ones - whatever else panicked in it, [on_evict] included - the eviction
    counter has grown by at least the number of entries the map has lost, and by no more than it
    had. *)
Theorem expiring_counted {E} c (q : Call K V W E) w : wf c -> 0 <= evictions c < 2 ^ 64 ->
  (forall v, total (is_expired (W := W) v)) -> silent q = false ->
  wp (run q) (fun _ s => counted c s.1) (fun s => counted c s.1) (c, w).
Proof.
  intros D He Hx Hs. eapply wp_mono; [apply (run_good True False); try done| |].
  - auto.
  - destruct q; simpl; auto.
  - split; [done|]. split; [done|by left].
  - by intros [] s (_ & _ & _ & [[]|H]).
  - by intros s (_ & _ & _ & _ & [[]|H]).
Qed.

Definition hit c : ExpiringCache K V W := with_hits (fetch_add (hits c) 1) c.
Definition missed c : ExpiringCache K V W := with_misses (fetch_add (misses c) 1) c.
Definition swept m c : ExpiringCache K V W :=
  with_evictions (fetch_add (evictions c) 1) (with_store m c).

(** The callback in the outer world alone, then the result [r]. *)
Definition told {A} c k v w (r : A) : outcome A * W :=
  match on_evict c with
  | Some f => match f k v w with (Some _, w') => (Done r, w') | (None, w') => (Unwind, w') end
  | None => (Done r, w)
  end.

Lemma told_run {A} k v c w (r : A) :
  (notify k v ;; ret r) (c, w) = let '(o, w') := told c k v w r in (o, (c, w')).
Proof.
  unfold notify, told, bind, self, gets, user. simpl. destruct (on_evict c) as [f|]; [|done].
  unfold user. simpl. by destruct (f k v w) as [[[]|] w'].
Qed.

Lemma user_is_expired {A} v b (m : bool -> Op K V W A) c w w1 :
  is_expired v w = (Some b, w1) -> bind (user (is_expired v)) m (c, w) = m b (c, w1).
Proof. intros E. unfold bind, user. simpl. by rewrite E. Qed.

(** Get-or-set asks the stored value once.  Live: a hit, the factory does not run.  Expired: a
    miss; the factory runs while the old entry is still in place, so its panic or error changes
    nothing else; its value then takes the entry's place, under the stored key, and only after
    that is the old value counted and handed to [on_evict], whose panic cannot undo the
    replacement.  Absent: the factory's value is inserted. *)
Theorem expiring_get_or_set {E} k (f : User W (result E V)) c w : wf c ->
  cache_try_get_or_set_with_mut k f (c, w) =
  match find_key k (store c) with
  | Some (stored, old) =>
      match is_expired old w with
      | (None, w1) => (Unwind, (c, w1))
      | (Some false, w1) => (Done (Ok k), (hit c, w1))
      | (Some true, w1) =>
          match f w1 with
          | (None, w2) => (Unwind, (missed c, w2))
          | (Some (Err e), w2) => (Done (Err e), (missed c, w2))
          | (Some (Ok v), w2) =>
              let '(o, w3) := told c stored old w2 (Ok k) in
              (o, (swept (hm_update k v (store c)) (missed c), w3))
          end
      end
  | None =>
      match f w with
      | (None, w2) => (Unwind, (missed c, w2))
      | (Some (Err e), w2) => (Done (Err e), (missed c, w2))
      | (Some (Ok v), w2) => (Done (Ok k), (with_store (store c ++ [(k, v)]) (missed c), w2))
      end
  end /\
  (forall v k', find_key k (store c) <> None ->
     find_key k' (hm_update k v (store c)) =
       if keq k k' then (fun e => (e.1, v)) <$> find_key k (store c) else find_key k' (store c)) /\
  (forall v k', find_key k (store c) = None ->
     find_key k' (store c ++ [(k, v)]) = if keq k k' then Some (k, v) else find_key k' (store c)).
Proof.
  intros D. split; [|split].
  - unfold cache_try_get_or_set_with_mut, bind at 1, self, gets. simpl.
    destruct (find_key k (store c)) as [[stored old]|].
    + destruct (is_expired old w) as [[[]|] w1] eqn:Ex;
        [rewrite (user_is_expired _ _ _ _ _ _ Ex)|rewrite (user_is_expired _ _ _ _ _ _ Ex)|]; simpl.
      * unfold count_miss, set_self, bind at 1, modify. simpl. unfold bind at 1, user. simpl.
        destruct (f w1) as [[[v|e]|] w2]; [|done|done].
        unfold map_update, count_evictions, set_self, bind at 1, modify. simpl. unfold bind at 1. simpl.
        rewrite told_run. unfold told. simpl. destruct (on_evict c) as [g|]; [|done].
        by destruct (g stored old w2) as [[]].
      * done.
      * unfold bind, user. simpl. by rewrite Ex.
    + unfold count_miss, set_self, bind at 1, modify. simpl. unfold bind at 1, user. simpl.
      by destruct (f w) as [[[v|e]|] w2].
  - intros v k' Hk. destruct (find_key k (store c)) as [e|] eqn:Ef; [|done].
    by rewrite (find_key_update k v _ e D Ef).
  - intros v k' Hk. apply find_key_snoc; [by apply find_fresh|done].
Qed.

(** One read, on every branch. *)
Lemma expiring_get_run k c w :
  cache_get k (c, w) =
  match find_key k (store c) with
  | Some (stored, v) =>
      match is_expired v w with
      | (None, w1) => (Unwind, (c, w1))
      | (Some false, w1) => (Done (Some v), (hit c, w1))
      | (Some true, w1) =>
          let '(o, w2) := told c stored v w1 None in
          (o, (swept (drop_key k (store c)) (missed c), w2))
      end
  | None => (Done None, (missed c, w))
  end.
Proof.
  unfold cache_get, bind at 1, self, gets. simpl.
  destruct (find_key k (store c)) as [[stored v]|] eqn:Ef; [|done].
  destruct (is_expired v w) as [[[]|] w1] eqn:Ex;
    [rewrite (user_is_expired _ _ _ _ _ _ Ex)|rewrite (user_is_expired _ _ _ _ _ _ Ex)|].
  - unfold sweep_expired. rewrite !bind_assoc. unfold count_miss, set_self. unfold bind at 1, modify. simpl.
    unfold map_remove_entry. rewrite !bind_assoc. unfold bind at 1, self, gets. simpl.
    unfold find_key in Ef. unfold drop_key. destruct (take_key k (store c)) as [[[k0 v0] m]|]; simplify_eq/=.
    rewrite !bind_assoc. unfold set_self, bind at 1, modify. simpl. unfold bind at 1, ret at 1. simpl.
    rewrite !bind_assoc. unfold count_evictions, set_self, bind at 1, modify. simpl.
    rewrite told_run. unfold told. simpl. destruct (on_evict c) as [g|]; [|done].
    by destruct (g stored v w1) as [[]].
  - simpl. unfold count_hit, set_self, bind at 1, modify. simpl. unfold bind, self, gets, ret. simpl. by rewrite Ef.
  - unfold bind, user. simpl. by rewrite Ex.
Qed.
End Claims.

(** ** Witnesses *)
Module Demo.
Import Tick.

(** A value is its own deadline. *)
#[local] Instance deadline : Expires Z Tick.t := {| is_expired v w := (Some (v <=? time w), w) |}.

Lemma deadline_total v : total (is_expired v : User Tick.t bool).
Proof. intros w. by eexists _, _. Qed.

Definition blueprint : ExpiringCacheBuilder (K := TaggedKey.t) (V := Z) (W := Tick.t) := builder_on_evict log builder.
Definition empty : ExpiringCache TaggedKey.t Z Tick.t := mkExpiring [] None 0 0 0 (Some log).
Definition full : ExpiringCache TaggedKey.t Z Tick.t := with_store [(k1, 100); (k2, 200)] empty.

Lemma expiring_full_wf : wf full.
Proof. unfold wf. simpl. repeat split; repeat constructor. Qed.

Lemma expiring_calls_witness :
  Forall (fun o => o = Done tt \/ (o = Unwind /\ False))
    (runs run [Set_ unit k1 7; GetMut unit k1' Z.succ; AsyncGetOrSet unit k2 (fun w => (Some 5, w)) Z.succ; Evict unit]
       (empty, Tick.mk 0 [])).1.
Proof.
  apply (expiring_calls False blueprint empty); [done| | |].
  - right. intros k v w. by eexists _, _.
  - intros v. right. apply deadline_total.
  - repeat apply Forall_cons_2; try done. right. apply total_pure.
Defined.

(** The callback panics; [k1] is gone and counted. *)
Definition fragile : ExpiringCache TaggedKey.t Z Tick.t :=
  mkExpiring [(k1, 100); (k2, 200)] None 0 0 0 (Some (fun _ _ w => (None, w))).

Lemma expiring_counted_witness :
  wp (run (Get unit k1')) (fun _ s => counted fragile s.1) (fun s => counted fragile s.1) (fragile, Tick.mk 150 []).
Proof. apply (expiring_counted fragile (Get unit k1')); [apply expiring_full_wf|done|apply deadline_total|done]. Defined.

Lemma expiring_get_or_set_witness :
  cache_try_get_or_set_with_mut k1' (fun w => (Some (Ok 300 : result unit Z), w)) (full, Tick.mk 150 []) =
    (Done (Ok k1'), (swept [(k1, 300); (k2, 200)] (missed full), Tick.mk 150 [(k1, 100)])).
Proof.
  destruct (expiring_get_or_set k1' (fun w => (Some (Ok 300 : result unit Z), w)) full (Tick.mk 150 []) expiring_full_wf)
    as [-> _]. reflexivity.
Defined.
End Demo.
