(* ===== verification/ExpiringLru.v ===== *)
(** * The size-bounded store whose values know their own expiry ([src/stores/expiring_lru.rs])

    [ExpiringLruCache] wraps an [LruCache] that does not count hits and misses, and keeps its own
    counters.  A [&mut V] is a slot of the inner slab. *)
From Stdlib Require Import String.
From S2P Require Import Prelude Keys Stores LruList HashTable Lru.
#[local] Close Scope string_scope.

(** ** What the factory passed to the inner store captures: the wrapper's [misses] *)
Record Captured (W : Type) : Type := mkCaptured { cap_misses : Z; cap_world : W }.
Arguments mkCaptured {W} _ _.
Arguments cap_misses {W} _.
Arguments cap_world {W} _.

#[global] Instance captured_world W : World (Captured W) W := {|
  world_of := cap_world;
  put_world := fun w x => mkCaptured (cap_misses x) w |}.

Section ExpiringLruCache.
Context {K V W HT : Type} `{!KeyEq K, !Expires V W, !HashTable HT}.

Record ExpiringLruCache : Type := mkExpiringLru {
  store : LruCache K V W HT;
  hits : Z;
  misses : Z;
  evictions : Z;
  on_evict : OnEvict K V W }.

Definition with_store (t : LruCache K V W HT) (c : ExpiringLruCache) : ExpiringLruCache :=
  mkExpiringLru t (hits c) (misses c) (evictions c) (on_evict c).
Definition with_hits (n : Z) (c : ExpiringLruCache) : ExpiringLruCache :=
  mkExpiringLru (store c) n (misses c) (evictions c) (on_evict c).
Definition with_misses (n : Z) (c : ExpiringLruCache) : ExpiringLruCache :=
  mkExpiringLru (store c) (hits c) n (evictions c) (on_evict c).
Definition with_evictions (n : Z) (c : ExpiringLruCache) : ExpiringLruCache :=
  mkExpiringLru (store c) (hits c) (misses c) n (on_evict c).

Definition Op (A : Type) : Type := ST (ExpiringLruCache * W) A.
Definition self : Op ExpiringLruCache := gets fst.
Definition set_self (f : ExpiringLruCache -> ExpiringLruCache) : Op unit := modify (fun s => (f s.1, s.2)).

(** A call of the inner store. *)
Definition inner {A} (m : Lru.Op K V W W HT A) : Op A :=
  zoom (fun s => (store s.1, s.2)) (fun p s => (with_store p.1 s.1, p.2)) m.

(** A call of the inner store with a factory that counts on [misses]. *)
Definition framed {A} (m : Lru.Op K V W (Captured W) HT A) : Op A :=
  zoom (fun s => (store s.1, mkCaptured (misses s.1) s.2))
    (fun p s => (with_misses (cap_misses p.2) (with_store p.1 s.1), cap_world p.2)) m.

Definition count_hit : Op unit := set_self (fun c => with_hits (fetch_add (hits c) 1) c).
Definition count_miss : Op unit := set_self (fun c => with_misses (fetch_add (misses c) 1) c).
Definition count_evictions (n : Z) : Op unit :=
  set_self (fun c => with_evictions (fetch_add (evictions c) n) c).
Definition notify (k : K) (v : V) : Op unit :=
  let! c := self in match on_evict c with Some f => user (f k v) | None => ret tt end.

Definition clone (c : ExpiringLruCache) : ExpiringLruCache :=
  mkExpiringLru (store c) (hits c) (misses c) (evictions c) (on_evict c).

Definition cache_eq (value_eq : V -> V -> bool) (c other : ExpiringLruCache) : outcome bool :=
  Lru.cache_eq value_eq (store c) (store other).

(** ** Construction *)

Record ExpiringLruCacheBuilder : Type := mkBuilder { b_size : option Z; b_on_evict : OnEvict K V W }.

Definition builder : ExpiringLruCacheBuilder := mkBuilder None None.
Definition builder_max_size (n : Z) (b : ExpiringLruCacheBuilder) := mkBuilder (Some n) (b_on_evict b).
Definition builder_on_evict (f : K -> V -> User W unit) (b : ExpiringLruCacheBuilder) :=
  mkBuilder (b_size b) (Some f).

(** [cache.store.on_evict = Some(on_evict)] *)
Definition with_inner_on_evict (f : OnEvict K V W) (t : LruCache K V W HT) : LruCache K V W HT :=
  mkLru (Lru.store t) (order t) (Lru.capacity t) (Lru.hits t) (Lru.misses t) (Lru.evictions t) f
    (track_hit_miss t).

Definition build (try_reserve_exact : Z -> bool) (b : ExpiringLruCacheBuilder) :
    result BuildError ExpiringLruCache :=
  match b_size b with
  | None => Err (MissingRequired "max_size")
  | Some size =>
      match Lru.build try_reserve_exact (Lru.builder_max_size size Lru.builder) with
      | Err e => Err e
      | Ok store =>
          let store := disable_hit_miss_tracking store in
          let cache := mkExpiringLru store 0 0 0 (b_on_evict b) in
          match b_on_evict b with
          | Some f => Ok (with_store (with_inner_on_evict (Some f) store) cache)
          | None => Ok cache
          end
      end
  end.

Definition new (try_reserve_exact : Z -> bool) (max_size : Z) : outcome ExpiringLruCache :=
  match build try_reserve_exact (builder_max_size max_size builder) with
  | Ok c => Done c
  | Err _ => Unwind
  end.

Definition capacity (c : ExpiringLruCache) : Z := Lru.capacity (store c).

Definition set_max_size (max_size : Z) : Op (option Z) := inner (Lru.set_max_size max_size).
Definition try_set_max_size (max_size : Z) : Op (result SetMaxSizeError (option Z)) :=
  inner (Lru.try_set_max_size max_size).

(** ** Sweeps *)

Definition doomed_indices (doomed : K -> V -> User W bool) : Op (list nat) :=
  let! c := self in
  let! ids := of_outcome (iter_indices (order (store c))) in
  filter_each ids (fun i =>
    let! e := of_outcome (get (order (store c)) i) in
    user (doomed e.1 e.2)).

Definition remove_and_notify (doomed : list nat) : Op nat :=
  let! removed := map_each doomed (fun index => inner (remove_index index)) in
  (if decide (removed = []) then ret tt else count_evictions (Z.of_nat (length removed))) ;;
  for_each removed (fun e => notify e.1 e.2) ;;
  ret (length removed).

Definition evict : Op nat :=
  let! doomed := doomed_indices (fun _ value => is_expired value) in
  remove_and_notify doomed.

Definition retain (keep : K -> V -> User W bool) : Op nat :=
  let! doomed := doomed_indices (expired_or_rejected keep) in
  remove_and_notify doomed.

Definition cache_clear_with_on_evict : Op unit :=
  let! removed := inner drain_all in
  let count := Z.of_nat (length removed) in
  (if 0 <? count then count_evictions count else ret tt) ;;
  for_each removed (fun e => notify e.1 e.2).

(** ** Order views: every value is asked once *)

Definition live_entries (l : list (K * V)) : Op (list (K * V)) :=
  filter_each l (fun e => let! expired := user (is_expired e.2) in ret (negb expired)).

Definition iter_order : Op (list (K * CacheValue V unit)) :=
  let! c := self in
  let! l := of_outcome (iter_order_raw (store c)) in
  let! live := live_entries l in
  ret ((fun e => (e.1, mkCacheValue e.2 tt)) <$> live).

Definition key_order : Op (list K) :=
  let! c := self in
  let! l := of_outcome (iter (order (store c))) in
  let! live := live_entries l in
  ret (fst <$> live).

Definition value_order : Op (list (CacheValue V unit)) :=
  let! c := self in
  let! l := of_outcome (iter (order (store c))) in
  let! live := live_entries l in
  ret ((fun e => mkCacheValue e.2 tt) <$> live).

(** ** [Cached] *)

(** The lazy sweep of an expired entry. *)
Definition sweep (h : Z) (key : K) : Op unit :=
  count_miss ;;
  let! r := inner (pop_raw_with_hash h key) in
  match r with
  | Some (k, old) => count_evictions 1 ;; notify k old
  | None => ret tt
  end.

Definition cache_get (k : K) : Op (option V) :=
  let! c := self in
  let h := hash k in
  let! i := of_outcome (get_index (store c) h k) in
  match i with
  | Some index =>
      let! e := of_outcome (get (order (store c)) index) in
      let! expired := user (is_expired e.2) in
      if negb expired then
        inner (on_order (move_to_front index)) ;;
        count_hit ;;
        let! c := self in
        let! e := of_outcome (get (order (store c)) index) in
        ret (Some e.2)
      else sweep h k ;; ret None
  | None => count_miss ;; ret None
  end.

Definition cache_get_mut (key : K) : Op (option nat) :=
  let! c := self in
  let h := hash key in
  let! i := of_outcome (get_index (store c) h key) in
  match i with
  | Some index =>
      let! e := of_outcome (get (order (store c)) index) in
      let! expired := user (is_expired e.2) in
      if negb expired then
        inner (on_order (move_to_front index)) ;;
        count_hit ;;
        let! c := self in
        let! _ := of_outcome (get (order (store c)) index) in
        ret (Some index)
      else sweep h key ;; ret None
  | None => count_miss ;; ret None
  end.

(** [counted_f], the fallible and the infallible. *)
Definition counted_f {A} (f : User W A) : User (Captured W) A := fun x =>
  lift_user f (mkCaptured (fetch_add (cap_misses x) 1) (cap_world x)).

(** [|v| !v.is_expired()] *)
Definition not_expired (v : V) : User (Captured W) bool := fun x =>
  let '(b, x) := lift_user (is_expired v) x in (negb <$> b, x).

(** What the get-or-set methods do with the inner store's answer. *)
Definition settle (r : GetOrSetOutcome (K := K) (V := V)) : Op nat :=
  let '(was_present, was_valid, old_val, index) := r in
  (if was_present && was_valid then count_hit
   else
     match old_val with
     | Some (old_key, old) => count_evictions 1 ;; notify old_key old
     | None => ret tt
     end) ;;
  ret index.

Definition cache_get_or_set_with_mut (k : K) (f : User W V) : Op nat :=
  let! r := framed (get_or_set_with_if k (counted_f f) not_expired) in
  settle r.

Definition cache_try_get_or_set_with_mut {E} (key : K) (f : User W (result E V)) : Op (result E nat) :=
  let! r := framed (try_get_or_set_with_if key (counted_f f) not_expired) in
  match r with
  | Err e => ret (Err e)
  | Ok r => let! index := settle r in ret (Ok index)
  end.

Definition cache_set (k : K) (v : V) : Op (option V) :=
  let! r := inner (cache_set_returning_entry k v) in
  match r with
  | Some (stored_key, old) =>
      let! expired := user (is_expired old) in
      if expired then count_evictions 1 ;; notify stored_key old ;; ret None
      else ret (Some old)
  | None => ret None
  end.

Definition cache_remove (k : K) : Op (option V) :=
  let! r := inner (pop_raw k) in
  match r with
  | Some (stored_k, v) =>
      let! expired := user (is_expired v) in
      count_evictions 1 ;;
      notify stored_k v ;;
      ret (if expired then None else Some v)
  | None => ret None
  end.

Definition cache_remove_entry (k : K) : Op (option (K * V)) :=
  let! r := inner (pop_raw k) in
  match r with
  | Some (stored_k, v) =>
      count_evictions 1 ;;
      notify stored_k v ;;
      ret (Some (stored_k, v))
  | None => ret None
  end.

Definition cache_clear : Op unit := inner Lru.cache_clear.

Definition cache_reset (try_reserve_exact : Z -> bool) : Op unit :=
  inner (Lru.cache_reset try_reserve_exact) ;;
  set_self (with_hits 0) ;; set_self (with_misses 0) ;; set_self (with_evictions 0).

Definition cache_reset_metrics : Op unit :=
  set_self (with_hits 0) ;; set_self (with_misses 0) ;; set_self (with_evictions 0) ;;
  inner Lru.cache_reset_metrics.

Definition cache_size (c : ExpiringLruCache) : Z := Lru.cache_size (store c).
Definition cache_capacity (c : ExpiringLruCache) : option Z := Lru.cache_capacity (store c).

(** The sum of the two counters; [+] on [u64] panics on overflow in a checked build. *)
Definition cache_evictions (c : ExpiringLruCache) : outcome (option Z) :=
  match checked_add (evictions c) (Lru.evictions (store c)) with
  | Some n => Done (Some n)
  | None => Unwind
  end.

Definition cache_peek (key : K) : Op (option V) :=
  let! c := self in
  let! r := of_outcome (Lru.cache_peek (store c) key) in
  match r with
  | Some value =>
      let! expired := user (is_expired value) in
      ret (if expired then None else Some value)
  | None => ret None
  end.

Definition cache_contains (k : K) : Op bool :=
  let! v := cache_peek k in ret (match v with Some _ => true | None => false end).

(** [CachedIter::iter], collected. *)
Definition iter_live : Op (list (K * V)) :=
  let! c := self in
  let! l := of_outcome (iter (order (store c))) in
  live_entries l.

(** ** [CloneCached] *)

Definition cache_get_with_expiry_status (k : K) : Op (option V * bool) :=
  let! c := self in
  let! i := of_outcome (get_index (store c) (hash k) k) in
  match i with
  | Some index =>
      let! e := of_outcome (get (order (store c)) index) in
      let! expired := user (is_expired e.2) in
      if expired then
        count_miss ;;
        let! e := of_outcome (get (order (store c)) index) in
        ret (Some e.2, true)
      else
        inner (on_order (move_to_front index)) ;;
        count_hit ;;
        let! c := self in
        let! e := of_outcome (get (order (store c)) index) in
        ret (Some e.2, false)
  | None => count_miss ;; ret (None, false)
  end.

Definition cache_peek_with_expiry_status (k : K) : Op (option V * bool) :=
  let! c := self in
  let! r := of_outcome (Lru.cache_peek (store c) k) in
  match r with
  | Some value =>
      let! expired := user (is_expired value) in
      ret (Some value, expired)
  | None => ret (None, false)
  end.

(** ** The [async] variants *)

Definition async_cache_get_or_set_with_mut (k : K) (f : User W V) : Op nat :=
  let! r := framed (get_or_set_with_if_async k (counted_f f) not_expired) in
  settle r.

Definition async_cache_try_get_or_set_with_mut {E} (key : K) (f : User W (result E V)) :
    Op (result E nat) :=
  let! r := framed (try_get_or_set_with_if_async key (counted_f f) not_expired) in
  match r with
  | Err e => ret (Err e)
  | Ok r => let! index := settle r in ret (Ok index)
  end.
End ExpiringLruCache.
Arguments ExpiringLruCache : clear implicits.
Arguments Op : clear implicits.
