(* ===== verification/ExpiringLruProps.v ===== *)
(** * The properties of the size-bounded store whose values know their own expiry

    What the store promises, as programs over a list of entries in recency order, and the proof
    that every sequence of public calls does just that. *)
From Stdlib Require Import String.
From S2P Require Import Prelude Keys Stores LruList HashTable Lru LruSpec LruRefine ExpiringLru.
#[local] Close Scope string_scope.

(** ** The abstract store *)
Section ESpec.
Context {K V W : Type} `{!KeyEq K, !Expires V W}.

(** The entries, most recently used first, with the bound and the counters of the inner store; the
    wrapper's own counters and callback. *)
Record EView : Type := mkEView {
  eview : View K V W;
  ehits : Z;
  emisses : Z;
  eevictions : Z;
  eon_evict : OnEvict K V W }.

Definition put_view (v : View K V W) (a : EView) : EView :=
  mkEView v (ehits a) (emisses a) (eevictions a) (eon_evict a).
Definition put_ehits (n : Z) (a : EView) : EView :=
  mkEView (eview a) n (emisses a) (eevictions a) (eon_evict a).
Definition put_emisses (n : Z) (a : EView) : EView :=
  mkEView (eview a) (ehits a) n (eevictions a) (eon_evict a).
Definition put_eevictions (n : Z) (a : EView) : EView :=
  mkEView (eview a) (ehits a) (emisses a) n (eon_evict a).

Definition ESpec (A : Type) : Type := ST (EView * W) A.
Definition e_self : ESpec EView := gets fst.
Definition e_set (f : EView -> EView) : ESpec unit := modify (fun s => (f s.1, s.2)).

(** A program of the inner abstract store. *)
Definition e_inner {A} (m : Spec K V W W A) : ESpec A :=
  zoom (fun s => (eview s.1, s.2)) (fun p s => (put_view p.1 s.1, p.2)) m.

Definition e_entries (l : list (K * V)) : ESpec unit := e_inner (s_entries l).
Definition e_hit : ESpec unit := e_set (fun a => put_ehits (fetch_add (ehits a) 1) a).
Definition e_miss : ESpec unit := e_set (fun a => put_emisses (fetch_add (emisses a) 1) a).
Definition e_count (n : Z) : ESpec unit := e_set (fun a => put_eevictions (fetch_add (eevictions a) n) a).
Definition e_notify (k : K) (v : V) : ESpec unit :=
  let! a := e_self in match eon_evict a with Some f => user (f k v) | None => ret tt end.

(** A read: a live entry moves to the front; an expired one goes, is counted, then told. *)
Definition e_get (k : K) : ESpec (option V) :=
  let! a := e_self in
  match take_key k (entries (eview a)) with
  | Some (e, r) =>
      let! expired := user (is_expired e.2) in
      if expired then
        e_miss ;; e_entries r ;; e_count 1 ;; e_notify e.1 e.2 ;; ret None
      else e_entries (e :: r) ;; e_hit ;; ret (Some e.2)
  | None => e_miss ;; ret None
  end.

(** Get or set, the entry ending in front.  A miss is counted before the factory runs; an expired
    entry is replaced, key and value, before it is counted and told. *)
Definition e_try_get_or_set {E} (k : K) (f : User W (result E V)) : ESpec (result E unit) :=
  let! a := e_self in
  match take_key k (entries (eview a)) with
  | Some (e, r) =>
      let! expired := user (is_expired e.2) in
      if expired then
        e_miss ;;
        let! q := user f in
        match q with
        | Err x => ret (Err x)
        | Ok v => e_entries ((k, v) :: r) ;; e_count 1 ;; e_notify e.1 e.2 ;; ret (Ok tt)
        end
      else e_entries (e :: r) ;; e_hit ;; ret (Ok tt)
  | None =>
      e_miss ;;
      let! q := user f in
      match q with
      | Err x => ret (Err x)
      | Ok v => e_entries ((k, v) :: entries (eview a)) ;; e_inner s_trim ;; ret (Ok tt)
      end
  end.

Definition e_get_or_set (k : K) (f : User W V) : ESpec unit :=
  let! a := e_self in
  match take_key k (entries (eview a)) with
  | Some (e, r) =>
      let! expired := user (is_expired e.2) in
      if expired then
        e_miss ;;
        let! v := user f in
        e_entries ((k, v) :: r) ;; e_count 1 ;; e_notify e.1 e.2
      else e_entries (e :: r) ;; e_hit
  | None =>
      e_miss ;;
      let! v := user f in
      e_entries ((k, v) :: entries (eview a)) ;; e_inner s_trim
  end.

Definition e_put (k : K) (v : V) : ESpec (option V) :=
  let! r := e_inner (s_put k v) in
  match r with
  | Some (stored, old) =>
      let! expired := user (is_expired old) in
      if expired then e_count 1 ;; e_notify stored old ;; ret None else ret (Some old)
  | None => ret None
  end.

Definition e_remove_entry (k : K) : ESpec (option (K * V)) :=
  let! r := e_inner (s_pop k) in
  match r with
  | Some (stored, v) => e_count 1 ;; e_notify stored v ;; ret (Some (stored, v))
  | None => ret None
  end.

(** Expiry is judged before the callback runs. *)
Definition e_remove (k : K) : ESpec (option V) :=
  let! r := e_inner (s_pop k) in
  match r with
  | Some (stored, v) =>
      let! expired := user (is_expired v) in
      e_count 1 ;; e_notify stored v ;; ret (if expired then None else Some v)
  | None => ret None
  end.

(** A sweep: every decision, then every removal, then the count, then the callbacks. *)
Definition e_sweep (doomed : K -> V -> User W bool) : ESpec nat :=
  let! a := e_self in
  let! gone := filter_each (entries (eview a)) (fun e => user (doomed e.1 e.2)) in
  for_each gone (fun e => e_inner (s_drop e) ;; ret tt) ;;
  (if decide (gone = []) then ret tt else e_count (Z.of_nat (length gone))) ;;
  for_each gone (fun e => e_notify e.1 e.2) ;;
  ret (length gone).

Definition e_clear_with_on_evict : ESpec unit :=
  let! gone := e_inner s_drain in
  let count := Z.of_nat (length gone) in
  (if 0 <? count then e_count count else ret tt) ;;
  for_each gone (fun e => e_notify e.1 e.2).

Definition e_peek (k : K) : ESpec (option V * bool) :=
  let! a := e_self in
  match find_key k (entries (eview a)) with
  | Some (_, v) => let! expired := user (is_expired v) in ret (Some v, expired)
  | None => ret (None, false)
  end.

Definition e_get_status (k : K) : ESpec (option V * bool) :=
  let! a := e_self in
  match take_key k (entries (eview a)) with
  | Some (e, r) =>
      let! expired := user (is_expired e.2) in
      if expired then e_miss ;; ret (Some e.2, true)
      else e_entries (e :: r) ;; e_hit ;; ret (Some e.2, false)
  | None => e_miss ;; ret (None, false)
  end.

Definition e_live : ESpec (list (K * V)) :=
  let! a := e_self in
  filter_each (entries (eview a)) (fun e => let! expired := user (is_expired e.2) in ret (negb expired)).
End ESpec.
Arguments EView : clear implicits.
Arguments ESpec : clear implicits.

(** ** The inner store's tracking flag and callback never change *)
Section Still.
Context {K V W X : Type} `{!KeyEq K, !World X W}.

Definition still {A} (m : Spec K V W X A) : Prop :=
  forall b, keeps (fun s : View K V W * X => (vtrack s.1, von_evict s.1) = b) True m.

Lemma still_set f : (forall a : View K V W, (vtrack (f a), von_evict (f a)) = (vtrack a, von_evict a)) -> still (s_set f).
Proof. intros H b [a x] E. apply wp_modify. simpl. by rewrite H. Qed.

Lemma still_self {A} (f : View K V W -> Spec K V W X A) : (forall a, still (f a)) -> still (bind s_self f).
Proof. intros H b [a x] E. by apply H. Qed.

Lemma still_ret {A} (r : A) : still (ret r).
Proof. intros b. apply keeps_ret. Qed.

Lemma still_bind {A B} (m : Spec K V W X A) (f : A -> Spec K V W X B) :
  still m -> (forall r, still (f r)) -> still (bind m f).
Proof. intros H1 H2 b. apply keeps_bind; [apply H1|]. intros r. apply H2. Qed.

Lemma still_for_each {A} (l : list A) (f : A -> Spec K V W X unit) : (forall r, still (f r)) -> still (for_each l f).
Proof. intros H b. apply keeps_for_each. intros r. apply H. Qed.

Lemma still_user {A} (m : User X A) : still (user m).
Proof. intros b. apply (keeps_user (fun a => (vtrack a, von_evict a) = b) True). by left. Qed.

Lemma still_unwind {A} : still (unwind : Spec K V W X A).
Proof. by intros b [a x] E. Qed.

(** So a store that does not count goes on not counting. *)
Lemma still_tracks {A} (m : Spec K V W X A) a x : still m -> vtrack a = false ->
  wp m (fun _ s => vtrack s.1 = false) (fun s => True /\ vtrack s.1 = false) (a, x).
Proof.
  intros H Ht. eapply wp_mono; [apply (H _ (a, x) eq_refl)| |]; [intros ? s E|intros s [_ E]]; injection E as -> _; by rewrite Ht.
Qed.

Ltac still_steps := repeat first
  [ apply still_ret | apply still_user | apply still_unwind
  | apply still_self; intros ?
  | apply still_bind; [|intros ?]
  | apply still_for_each; intros ?
  | apply still_set; intros []; done
  | case_match ].

Lemma still_entries l : still (s_entries l).
Proof. unfold s_entries. still_steps. Qed.
Lemma still_count n : still (s_count n).
Proof. unfold s_count. still_steps. Qed.
Lemma still_trim : still s_trim.
Proof. unfold s_trim, s_evict_last, s_entries, s_count, s_notify. still_steps. Qed.
Lemma still_put k v : still (s_put k v).
Proof. unfold s_put. still_steps. Qed.
Lemma still_pop k : still (s_pop k).
Proof. unfold s_pop, s_entries. still_steps. Qed.
Lemma still_drop e : still (s_drop e).
Proof. unfold s_drop, s_entries. still_steps. Qed.
Lemma still_drain : still s_drain.
Proof. unfold s_drain, s_entries. still_steps. Qed.
Lemma still_set_max_size n : still (s_set_max_size n).
Proof. unfold s_set_max_size. still_steps. Qed.
Lemma still_reset : still s_reset.
Proof. unfold s_reset, s_entries. still_steps. Qed.
Lemma still_tracked m : still m -> still (s_tracked m).
Proof. intros H. apply still_self. intros a. destruct (vtrack a); [exact H|apply still_ret]. Qed.
Lemma still_get_or_set k f valid : still (s_get_or_set k f valid).
Proof. unfold s_get_or_set, s_entries, s_hit, s_miss. still_steps; apply still_tracked; still_steps. Qed.
Lemma still_try_get_or_set {E} k (f : User X (result E V)) valid : still (s_try_get_or_set k f valid).
Proof. unfold s_try_get_or_set, s_entries, s_hit, s_miss. still_steps; apply still_tracked; still_steps. Qed.
End Still.
#[export] Hint Resolve still_entries still_trim still_put still_pop still_drop still_drain still_set_max_size
  still_reset still_ret : still.

(** ** Refinement *)
Section Refine.
Context {K V W HT : Type} `{!KeyEq K, !KeyLaws K, !Expires V W, !HashTable HT, !HashTableLaws HT}.
Implicit Types (c : ExpiringLruCache K V W HT) (a : EView K V W) (k : K) (v : V) (w : W).

(** [c] holds [a]; the inner store does not count hits and misses. *)
Definition holds c a : Prop :=
  models (store c) (eview a) /\ a = mkEView (eview a) (hits c) (misses c) (evictions c) (on_evict c) /\
  vtrack (eview a) = false.

Definition ERel (s1 : ExpiringLruCache K V W HT * W) (s2 : EView K V W * W) : Prop :=
  s1.2 = s2.2 /\ holds s1.1 s2.1.

(** [ERel], and slot [i] is the front entry. *)
Definition ERelF i (s1 : ExpiringLruCache K V W HT * W) (s2 : EView K V W * W) : Prop :=
  ERel s1 s2 /\ exists e occ fre, models_at (store s1.1) (eview s2.1) ((i, e) :: occ) fre.

Lemma ebind_self {B} (f : ExpiringLruCache K V W HT -> Op K V W HT B) c w : bind self f (c, w) = f c (c, w).
Proof. done. Qed.
Lemma ebind_e_self {B} (f : EView K V W -> ESpec K V W B) a w : bind e_self f (a, w) = f a (a, w).
Proof. done. Qed.
Lemma ebind_e_entries {B} l (f : unit -> ESpec K V W B) a w :
  bind (e_entries l) f (a, w) = f tt (put_view (put_entries l (eview a)) a, w).
Proof. done. Qed.

Lemma inner_refines {A} (m : Lru.Op K V W W HT A) (sm : Spec K V W W A) :
  refines Rel m sm -> still sm -> refines ERel (inner m) (e_inner sm).
Proof.
  intros HR HT' [c w] [a w'] [E (HM & Ha & Ht)]. simpl in *. subst w'.
  destruct (HR (store c, w) (eview a, w) (conj eq_refl HM)) as [HR' HA].
  unfold inner, e_inner, zoom. simpl. destruct (m (store c, w)) as [o [t w1]] eqn:E1.
  destruct (sm (eview a, w)) as [o' [a' w2]] eqn:E2. simpl in *. split; [|done]. simpl.
  destruct HR' as [Ew HM']. simpl in Ew, HM'. subst w2. split; [done|]. split; [done|]. rewrite Ha. split; [done|]. simpl.
  apply (still_tracks _ (eview a) w) in HT'; [|done]. unfold wp in HT'. rewrite E2 in HT'. by destruct o'; [|destruct HT'|].
Qed.

Lemma count_agree (b : bool) : refines ERel (if b then count_miss else count_hit) (if b then e_miss else e_hit).
Proof.
  intros [c w] [a w'] [E (HM & Ha & Ht)]. simpl in *. subst w'. rewrite Ha.
  destruct b; by split.
Qed.

Lemma ecount_refines n : refines ERel (count_evictions n) (e_count n).
Proof. intros [c w] [a w'] [E (HM & Ha & Ht)]. simpl in *. subst w'. rewrite Ha. by split. Qed.

Lemma enotify_refines k v : refines ERel (notify k v) (e_notify k v).
Proof.
  intros [c w] [a w'] [E HH]. simpl in *. subst w'.
  assert (eon_evict a = on_evict c) as Ho by (destruct HH as (_ & Ha & _); by rewrite Ha).
  unfold notify, e_notify. rewrite ebind_self, ebind_e_self, Ho.
  destruct (on_evict c) as [f|] eqn:Ef; [|by apply agree_ret].
  apply agree_user. by intros w'.
Qed.

Lemma told_refines {A} (k : K) (v : V) (r : A) :
  refines ERel (count_evictions 1 ;; notify k v ;; ret r) (e_count 1 ;; e_notify k v ;; ret r).
Proof.
  apply refines_bind; [apply ecount_refines|intros _].
  apply refines_bind; [apply enotify_refines|intros _]. apply refines_ret.
Qed.

(** The same user code on both sides. *)
Lemma refines_user {A B} (m : User W A) (f1 : A -> Op K V W HT B) (f2 : A -> ESpec K V W B) :
  (forall r, refines ERel (f1 r) (f2 r)) -> refines ERel (bind (user m) f1) (bind (user m) f2).
Proof.
  intros H. apply refines_bind; [|done]. intros [c w] [a w'] [E HH]. simpl in *. subst w'.
  apply agree_user. by intros w'.
Qed.

Lemma einner_run {A} (m : Lru.Op K V W W HT A) c w r t w' :
  m (store c, w) = (r, (t, w')) -> inner m (c, w) = (r, (with_store t c, w')).
Proof. intros E. unfold inner, zoom. simpl. by rewrite E. Qed.

Lemma e_holds_put c a t l : holds c a -> models t (put_entries l (eview a)) ->
  holds (with_store t c) (put_view (put_entries l (eview a)) a).
Proof. intros (_ & Ha & Ht) H. split; [done|]. split; [by rewrite Ha|done]. Qed.

Lemma e_pop_run k a w e r : take_key k (entries (eview a)) = Some (e, r) ->
  e_inner (s_pop k) (a, w) = (Done (Some e), (put_view (put_entries r (eview a)) a, w)).
Proof. intros E. unfold e_inner, zoom, s_pop, bind, s_self, gets. simpl. by rewrite E. Qed.

Lemma pop_refines k : refines ERel (inner (pop_raw k)) (e_inner (s_pop k)).
Proof. apply inner_refines; [apply pop_raw_refines|apply still_pop]. Qed.

(** The removal of an entry known to be expired. *)
Lemma e_sweep_agree k e r c a w : holds c a -> take_key k (entries (eview a)) = Some (e, r) ->
  agree ERel eq (sweep (hash k) k (c, w)) ((e_miss ;; e_entries r ;; e_count 1 ;; e_notify e.1 e.2) (a, w)).
Proof.
  intros HH E.
  assert ((e_miss ;; e_entries r ;; e_count 1 ;; e_notify e.1 e.2) (a, w) =
    (e_miss ;; let! q := e_inner (s_pop k) in
     match q with Some (s, v) => e_count 1 ;; e_notify s v | None => ret tt end) (a, w)) as ->.
  { unfold e_miss, e_set, bind at 1 4, modify. simpl.
    rewrite (bind_run (e_inner (s_pop k)) _ _ _ _ (e_pop_run k (put_emisses (fetch_add (emisses a) 1) a) w e r E)).
    by destruct e. }
  apply (refines_bind ERel count_miss e_miss); [apply (count_agree true)| |by split].
  intros _. apply refines_bind; [apply pop_refines|]. intros [[s v]|]; [|apply refines_ret].
  apply refines_bind; [apply ecount_refines|]. intros _. apply enotify_refines.
Qed.

(** The lookup both sides agree on. *)
Lemma e_lookup c a k : holds c a ->
  exists oi, get_index (store c) (hash k) k = Done oi /\
    match oi with
    | Some i => exists xs e ys fre, models_at (store c) (eview a) (xs ++ (i, e) :: ys) fre /\
        keq k e.1 = true /\ take_key k (entries (eview a)) = Some (e, (xs ++ ys).*2)
    | None => take_key k (entries (eview a)) = None
    end.
Proof.
  intros (HM & _). destruct (get_index_found (store c) (eview a) k HM) as (oi & E & F). exists oi. split; [done|].
  inversion F as [xs i e ys fre HA Hk E1 E2|occ fre HA Hf E1 E2]; subst oi; [|done].
  by exists xs, e, ys, fre.
Qed.

(** A hit: the entry found moves to the front, one hit is counted. *)
Lemma hit_simulates {B1 B2} Q U (f1 : Op K V W HT B1) (f2 : ESpec K V W B2) c a xs i e ys fre w :
  holds c a -> models_at (store c) (eview a) (xs ++ (i, e) :: ys) fre ->
  (forall s1 s2, ERelF i s1 s2 -> get (order (store s1.1)) i = Done e -> simulates Q U (f1 s1) (f2 s2)) ->
  simulates Q U ((inner (on_order (move_to_front i)) ;; count_hit ;; f1) (c, w))
    ((e_entries (e :: (xs ++ ys).*2) ;; e_hit ;; f2) (a, w)).
Proof.
  intros HH HA H. destruct (step_promote (store c) (eview a) xs i e ys fre w HA) as (t & E & HA1).
  rewrite (bind_run _ _ _ _ _ (einner_run _ _ _ _ _ _ E)), ebind_e_entries.
  pose proof (e_holds_put c a t _ HH (models_intro _ _ _ _ HA1)) as HH1.
  destruct (count_agree false (with_store t c, w) (_, w) (conj eq_refl HH1)) as [HR _].
  apply H; [|exact (slot_get_front _ _ _ _ _ _ HA1)]. split; [exact HR|]. by exists e, (xs ++ ys), fre.
Qed.

(** Pair a user call on both sides of a simulation. *)
Lemma euser_seq {A B1 B2} Q U (m : User W A) (f1 : A -> Op K V W HT B1) (f2 : A -> ESpec K V W B2) c a w :
  (forall w', U (c, w') (a, w')) -> (forall r w', simulates Q U (f1 r (c, w')) (f2 r (a, w'))) ->
  simulates Q U (bind (user m) f1 (c, w)) (bind (user m) f2 (a, w)).
Proof.
  intros HU H. unfold bind, user. simpl. destruct (m w) as [[r|] w']; [apply H|apply HU].
Qed.

Lemma e_get_refines k : refines ERel (cache_get k) (e_get k).
Proof.
  intros [c w] [a w'] [E HH]. simpl in *. subst w'. unfold cache_get, e_get.
  rewrite ebind_self, ebind_e_self. destruct (e_lookup c a k HH) as (oi & E1 & H).
  rewrite (bind_of_outcome _ _ _ _ E1). destruct oi as [i|].
  - destruct H as (xs & e & ys & fre & HA & Hk & Et). rewrite Et.
    rewrite (bind_of_outcome _ _ _ _ (slot_get _ _ _ _ _ _ _ HA)). apply agree_simulates.
    apply euser_seq; [done|]. intros [] w1; simpl.
    + pose proof (e_sweep_agree k e _ c a w1 HH Et) as Hs. apply agree_simulates.
      assert (forall s, (e_miss ;; e_entries (xs ++ ys).*2 ;; e_count 1 ;; e_notify e.1 e.2 ;; ret (None : option V)) s =
        ((e_miss ;; e_entries (xs ++ ys).*2 ;; e_count 1 ;; e_notify e.1 e.2) ;; ret None) s) as ->
        by (intros s; unfold bind; by repeat case_match; simplify_eq).
      eapply agree_bind; [exact Hs|]. intros [] [] s1 s2 _ _ _ HR. by apply agree_ret.
    + apply (hit_simulates _ _ (let! c := self in let! e := of_outcome (get (order (store c)) i) in ret (Some e.2))
        (ret (Some e.2)) c a xs i e ys fre w1 HH HA).
      intros [c1 w2] s2 [HR _] Eg. rewrite ebind_self, (bind_of_outcome _ _ _ _ Eg). by split.
  - rewrite H. apply (refines_bind ERel count_miss e_miss); [apply (count_agree true)| |by split].
    intros _. apply refines_ret.
Qed.

(** A reference that comes back names the front entry, whose value the abstract read returns. *)
Lemma get_mut_simulates k c a w : holds c a ->
  simulates (fun r1 s1 r2 s2 =>
      match r1 with
      | Some i => ERelF i s1 s2 /\ exists v, r2 = Some v
      | None => ERel s1 s2 /\ r2 = None
      end) ERel (cache_get_mut k (c, w)) (e_get k (a, w)).
Proof.
  intros HH. unfold cache_get_mut, e_get. rewrite ebind_self, ebind_e_self.
  destruct (e_lookup c a k HH) as (oi & E1 & H). rewrite (bind_of_outcome _ _ _ _ E1). destruct oi as [i|].
  - destruct H as (xs & e & ys & fre & HA & Hk & Et). rewrite Et.
    rewrite (bind_of_outcome _ _ _ _ (slot_get _ _ _ _ _ _ _ HA)).
    apply euser_seq; [done|]. intros [] w1; simpl.
    + pose proof (e_sweep_agree k e _ c a w1 HH Et) as Hs.
      assert (forall s, (e_miss ;; e_entries (xs ++ ys).*2 ;; e_count 1 ;; e_notify e.1 e.2 ;; ret (None : option V)) s =
        ((e_miss ;; e_entries (xs ++ ys).*2 ;; e_count 1 ;; e_notify e.1 e.2) ;; ret None) s) as ->
        by (intros s; unfold bind; by repeat case_match; simplify_eq).
      eapply simulates_bind; [by apply agree_simulates, Hs|]. by intros [] s1 [] s2 [HR _].
    + apply (hit_simulates _ _ (let! c := self in let! _ := of_outcome (get (order (store c)) i) in ret (Some i))
        (ret (Some e.2)) c a xs i e ys fre w1 HH HA).
      intros [c1 w2] s2 HF Eg. rewrite ebind_self, (bind_of_outcome _ _ _ _ Eg). split; [done|by exists e.2].
  - rewrite H. destruct (count_agree true (c, w) (a, w) (conj eq_refl HH)) as [HR _]. done.
Qed.

Lemma get_status_refines k : refines ERel (cache_get_with_expiry_status k) (e_get_status k).
Proof.
  intros [c w] [a w'] [E HH]. simpl in *. subst w'. unfold cache_get_with_expiry_status, e_get_status.
  rewrite ebind_self, ebind_e_self. destruct (e_lookup c a k HH) as (oi & E1 & H).
  rewrite (bind_of_outcome _ _ _ _ E1). destruct oi as [i|].
  - destruct H as (xs & e & ys & fre & HA & Hk & Et). rewrite Et.
    rewrite (bind_of_outcome _ _ _ _ (slot_get _ _ _ _ _ _ _ HA)). apply agree_simulates.
    apply euser_seq; [done|]. intros [] w1; simpl.
    + pose proof (slot_get _ _ _ _ _ _ _ HA) as Eg. apply agree_simulates.
      apply (refines_bind ERel count_miss e_miss); [apply (count_agree true)| |by split].
      intros _ s1 s2 HR. rewrite (bind_of_outcome _ _ _ _ Eg). by apply agree_ret.
    + apply (hit_simulates _ _ (let! c := self in let! e := of_outcome (get (order (store c)) i) in ret (Some e.2, false))
        (ret (Some e.2, false)) c a xs i e ys fre w1 HH HA).
      intros [c1 w2] s2 [HR _] Eg. rewrite ebind_self, (bind_of_outcome _ _ _ _ Eg). by split.
  - rewrite H. apply (refines_bind ERel count_miss e_miss); [apply (count_agree true)| |by split].
    intros _. apply refines_ret.
Qed.

(** Reads of the state. *)
Lemma erefines_read {A} (f : ExpiringLruCache K V W HT -> Op K V W HT A) (g : EView K V W -> ESpec K V W A) :
  (forall c a w, holds c a -> agree ERel eq (f c (c, w)) (g a (a, w))) -> refines ERel (bind self f) (bind e_self g).
Proof. intros H [c w] [a w'] [E1 HH]. simpl in *. subst w'. by apply H. Qed.

Lemma peek_status_refines k : refines ERel (cache_peek_with_expiry_status k) (e_peek k).
Proof.
  apply erefines_read. intros c a w HH. rewrite (bind_of_outcome _ _ _ _ (peek_models _ _ _ (proj1 HH))).
  destruct (find_key k (entries (eview a))) as [[k0 v]|]; simpl; [|by apply agree_ret].
  apply refines_user; [|by split]. intros b. apply refines_ret.
Qed.

Lemma peek_refines k : refines ERel (cache_peek k)
  (let! r := e_peek k in ret (if r.2 then None else r.1)).
Proof.
  intros s1 s2 HR. unfold e_peek. rewrite bind_assoc. revert s1 s2 HR. apply erefines_read. intros c a w HH.
  rewrite (bind_of_outcome _ _ _ _ (peek_models _ _ _ (proj1 HH))).
  destruct (find_key k (entries (eview a))) as [[k0 v]|]; simpl; [|by apply agree_ret].
  rewrite bind_assoc. apply refines_user; [|by split]. intros b s1 s2 HR. rewrite bind_ret. by apply agree_ret.
Qed.

Lemma refines_filter_each {A} (l : list A) (t1 : A -> Op K V W HT bool) (t2 : A -> ESpec K V W bool) :
  (forall x, refines ERel (t1 x) (t2 x)) -> refines ERel (filter_each l t1) (filter_each l t2).
Proof.
  intros H. induction l as [|x l IH]; simpl; [apply refines_ret|]. apply refines_bind; [apply H|]. intros b.
  apply refines_bind; [apply IH|]. intros r. apply refines_ret.
Qed.

Lemma live_refines {B} (g : list (K * V) -> B) :
  refines ERel
    (let! c := self in let! l := of_outcome (iter (order (store c))) in let! live := live_entries l in ret (g live))
    (let! live := e_live in ret (g live)).
Proof.
  intros s1 s2 HR. unfold e_live. rewrite bind_assoc. revert s1 s2 HR. apply erefines_read. intros c a w HH.
  rewrite (bind_of_outcome _ _ _ _ (iter_models _ _ (proj1 HH))).
  apply (refines_bind ERel); [|intros; apply refines_ret|by split]. apply refines_filter_each. intros e.
  apply refines_user. intros b. apply refines_ret.
Qed.

Lemma put_refines k v : refines ERel (cache_set k v) (e_put k v).
Proof.
  apply refines_bind; [apply inner_refines; [apply cache_set_returning_entry_refines|apply still_put]|].
  intros [[stored old]|]; [|apply refines_ret]. apply refines_user. intros []; [apply told_refines|apply refines_ret].
Qed.

Lemma remove_entry_refines k : refines ERel (cache_remove_entry k) (e_remove_entry k).
Proof.
  apply refines_bind; [apply pop_refines|]. intros [[s v]|]; [apply told_refines|apply refines_ret].
Qed.

Lemma e_remove_refines k : refines ERel (cache_remove k) (e_remove k).
Proof.
  apply refines_bind; [apply pop_refines|]. intros [[s v]|]; [|apply refines_ret].
  apply refines_user. intros b. apply told_refines.
Qed.

Lemma eclear_with_refines : refines ERel cache_clear_with_on_evict e_clear_with_on_evict.
Proof.
  apply refines_bind; [apply inner_refines; [apply drain_all_refines|apply still_drain]|]. intros l.
  apply refines_bind; [destruct (0 <? Z.of_nat (length l)); [apply ecount_refines|apply refines_ret]|].
  intros _. apply refines_for_each. intros e. apply enotify_refines.
Qed.

(** ** Sweeps *)

(** The selection: both sides ask for the same entries in order. *)
Lemma eselect_simulates (d : K -> V -> User W bool) c a l w :
  (forall i e, (i, e) ∈ l -> get (order (store c)) i = Done e) ->
  simulates (fun ids s1 es s2 => exists l', l' `sublist_of` l /\ ids = l'.*1 /\ es = l'.*2 /\
               s1.1 = c /\ s2.1 = a /\ s1.2 = s2.2)
    (fun s1 s2 => s1.1 = c /\ s2.1 = a /\ s1.2 = s2.2)
    (filter_each l.*1 (fun i =>
       let! e := of_outcome (get (order (store c)) i) in user (d e.1 e.2)) (c, w))
    (filter_each l.*2 (fun e => user (d e.1 e.2)) (a, w)).
Proof.
  revert w. induction l as [|[i e] l IH]; intros w HG; simpl; [by exists []|].
  rewrite bind_assoc, (bind_of_outcome _ _ _ _ (HG i e ltac:(by left))).
  apply euser_seq; [done|]. intros b w'.
  eapply simulates_bind; [apply IH; intros; apply HG; by right|].
  intros ids [c1 w1] es [a1 w2] (l' & S & -> & -> & E1 & E2 & E3). simpl in *. subst.
  exists (if b then (i, e) :: l' else l'). split_and!; try done.
  - destruct b; simpl; [by apply sublist_skip|by apply sublist_cons].
  - by destruct b.
  - by destruct b.
Qed.

(** The removal pass. *)
Lemma eremove_agree doomed c a occ fre w : holds c a -> models_at (store c) (eview a) occ fre ->
  doomed `sublist_of` occ ->
  simulates (fun r s1 _ s2 => r = doomed.*2 /\ ERel s1 s2) (fun _ _ => False)
    (map_each doomed.*1 (fun i => inner (remove_index i)) (c, w))
    (for_each doomed.*2 (fun e => e_inner (s_drop e) ;; ret tt) (a, w)).
Proof.
  revert c a occ fre w. induction doomed as [|[i e] doomed IH]; intros c a occ fre w HH HA S; csimpl; [done|].
  apply sublist_cons_l in S as (xs & ys & -> & S).
  destruct (remove_index_run (store c) (eview a) xs i e ys fre w HA) as (t & E1 & HA1).
  pose proof (s_drop_run (eview a) xs i e ys w (inv_keys _ _ _ (proj1 HA)) (models_entries _ _ _ _ HA)) as E2.
  rewrite (bind_run _ _ _ _ _ (einner_run _ _ _ _ _ _ E1)).
  assert (e_inner (s_drop e) (a, w) = (Done e, (put_view (put_entries (xs ++ ys).*2 (eview a)) a, w))) as E3
    by (unfold e_inner, zoom; cbn [fst snd]; by rewrite E2).
  rewrite bind_assoc, (bind_run _ _ _ _ _ E3), bind_ret.
  pose proof (e_holds_put c a t _ HH (models_intro _ _ _ _ HA1)) as HH1.
  assert (doomed `sublist_of` xs ++ ys) as S' by (by apply sublist_inserts_l).
  pose proof (IH (with_store t c) _ (xs ++ ys) (i :: fre) w HH1 HA1 S') as H.
  unfold bind at 1. destruct (map_each doomed.*1 _ _) as [[r| |] s1], (for_each doomed.*2 _ _) as [[[]| |] s2]; try done.
  by destruct H as [-> HR].
Qed.

Lemma sweep_refines d : refines ERel (let! doomed := doomed_indices d in remove_and_notify doomed) (e_sweep d).
Proof.
  intros [c w] [a w'] [E HH]. simpl in *. subst w'. pose proof HH as ((occ & fre & HA) & _).
  apply agree_simulates. unfold doomed_indices, e_sweep. rewrite bind_assoc, ebind_self, ebind_e_self.
  assert (iter_indices (order (store c)) = Done occ.*1) as Ei
    by (rewrite order_eta; eapply iter_indices_run, HA).
  rewrite bind_assoc, (bind_of_outcome _ _ _ _ Ei), (models_entries _ _ _ _ HA).
  eapply simulates_bind.
  - eapply simulates_mono; [| |apply (eselect_simulates d c a occ w)].
    + intros ids s1 es s2 H. exact H.
    + intros [c1 w1] [a1 w2] (E1 & E2 & E). simpl in *. by subst.
    + intros i e. eapply inv_get, HA.
  - intros ids [c1 w1] es [a1 w2] (l & S & -> & -> & E1 & E2 & E3). simpl in *. subst. unfold remove_and_notify.
    eapply simulates_bind; [eapply simulates_mono; [| |by eapply eremove_agree]; [intros ? ? ? ? H; exact H|done]|].
    intros r s1 [] s2 [-> HR]. apply agree_simulates. revert s1 s2 HR. apply refines_bind.
    + case_decide; [apply refines_ret|apply ecount_refines].
    + intros _. apply refines_bind; [apply refines_for_each; intros e; apply enotify_refines|].
      intros _. apply refines_ret.
Qed.

(** ** Get or set *)

(** The abstract inner store under the wrapper's closures. *)
Definition e_framed {A} (m : Spec K V W (Captured W) A) : ESpec K V W A :=
  zoom (fun s => (eview s.1, mkCaptured (emisses s.1) s.2))
    (fun p s => (put_emisses (cap_misses p.2) (put_view p.1 s.1), cap_world p.2)) m.

Definition e_settle (r : bool * bool * option (K * V)) : ESpec K V W unit :=
  let '(was_present, was_valid, old_val) := r in
  if was_present && was_valid then e_hit
  else match old_val with Some (k, old) => e_count 1 ;; e_notify k old | None => ret tt end.

Lemma e_framed_simulates {A B} (m : Lru.Op K V W (Captured W) HT A) (sm : Spec K V W (Captured W) B)
    (Q : A -> B -> option nat -> Prop) c a w : holds c a -> still sm ->
  simulates (fun r1 s1 r2 s2 => exists o, Q r1 r2 o /\ match o with Some i => RelF i s1 s2 | None => Rel s1 s2 end) Rel
    (m (store c, mkCaptured (misses c) w)) (sm (eview a, mkCaptured (misses c) w)) ->
  simulates (fun r1 s1 r2 s2 => exists o, Q r1 r2 o /\ match o with Some i => ERelF i s1 s2 | None => ERel s1 s2 end) ERel
    (framed m (c, w)) (e_framed sm (a, w)).
Proof.
  intros (HM & Ha & Ht) HS. unfold framed, e_framed, zoom. simpl.
  assert (emisses a = misses c) as -> by (by rewrite Ha).
  apply (still_tracks _ (eview a) (mkCaptured (misses c) w)) in HS; [|done]. unfold wp in HS.
  destruct (m _) as [[r1| |] [t x1]], (sm _) as [[r2| |] [a' x2]]; simpl in *; try done.
  - intros (o & HQ & H). exists o. split; [done|].
    assert (ERel (with_misses (cap_misses x1) (with_store t c), cap_world x1)
      (put_emisses (cap_misses x2) (put_view a' a), cap_world x2)) as HR.
    { assert (Rel (t, x1) (a', x2)) as [Ex HM'] by (destruct o; [by eapply RelF_Rel|done]).
      simpl in *. subst x2. split; [done|]. split; [done|]. rewrite Ha. by split. }
    destruct o as [i|]; [|done]. split; [done|]. by destruct H as (_ & ?).
  - intros [Ex HM']. simpl in *. subst x2. split; [done|]. split; [done|]. rewrite Ha. split; [done|]. simpl. tauto.
Qed.

(** The wrapper's bookkeeping leaves the reference in place. *)
Lemma settle_simulates r1 r2 s1 s2 : r1.1 = r2 -> ERelF r1.2 s1 s2 ->
  simulates (fun i s1 _ s2 => ERelF i s1 s2) ERel (settle r1 s1) (e_settle r2 s2).
Proof.
  destruct r1 as [[[p q] old] i]. simpl. intros <- [HR HF]. unfold settle, e_settle.
  assert (forall (m1 : Op K V W HT unit) (m2 : ESpec K V W unit), refines ERel m1 m2 ->
    (forall c w o c' w', m1 (c, w) = (o, (c', w')) -> store c' = store c) ->
    (forall a w o a' w', m2 (a, w) = (o, (a', w')) -> eview a' = eview a) ->
    simulates (fun i s1 _ s2 => ERelF i s1 s2) ERel ((m1 ;; ret i) s1) (m2 s2)) as Hstep.
  { intros m1 m2 Hm H1 H2. destruct (Hm s1 s2 HR) as [HR' HO]. destruct s1 as [c w], s2 as [a w'].
    specialize (H1 c w). specialize (H2 a w'). unfold bind, ret. destruct (m1 (c, w)) as [[[]| |] [c' w1]], (m2 (a, w')) as [[[]| |] [a' w2]]; try done.
    split; [done|]. simpl in *. by rewrite (H1 _ _ _ eq_refl), (H2 _ _ _ eq_refl). }
  assert (forall k v, refines ERel (count_evictions 1 ;; notify k v) (e_count 1 ;; e_notify k v)) as Ht.
  { intros k v. apply refines_bind; [apply ecount_refines|intros _; apply enotify_refines]. }
  destruct (p && q).
  - by apply Hstep; [apply (count_agree false)| |]; intros ????? [= <- <- <-].
  - destruct old as [[k v]|]; (apply Hstep; [first [apply Ht|apply refines_ret]| |]).
    + intros c w o c' w'. unfold count_evictions, notify, bind, set_self, modify, self, gets, user, ret. simpl.
      intros H. repeat case_match; by simplify_eq/=.
    + intros c w o c' w'. unfold e_count, e_notify, bind, e_set, modify, e_self, gets, user, ret. simpl.
      intros H. repeat case_match; by simplify_eq/=.
    + by intros ????? [= <- <- <-].
    + by intros ????? [= <- <- <-].
Qed.

(** Trimming does not look at the captured counter. *)
Lemma framed_evictions (l : list (K * V)) (b : View K V W) (m : Z) w :
  for_each l s_evict_last (b, mkCaptured m w) =
    let '(o, (b', w')) := for_each l s_evict_last (b, w) in (o, (b', mkCaptured m w')).
Proof.
  revert b w. induction l as [|e l IH]; intros b w; simpl; [done|].
  assert (s_evict_last e (b, mkCaptured m w) =
    let '(o, (b', w')) := s_evict_last e (b, w) in (o, (b', mkCaptured m w'))) as E.
  { unfold s_evict_last, s_entries, s_count, s_notify, s_set, s_self, bind, gets, modify, user, lift_user, ret. simpl.
    destruct (von_evict b) as [f|]; [|done]. simpl. by destruct (f e.1 e.2 w) as [[]]. }
  unfold bind at 1 2. rewrite E. destruct (s_evict_last e (b, w)) as [[[]| |] [b' w']]; [|done|done]. apply IH.
Qed.

Lemma framed_trim (b : View K V W) (m : Z) w :
  s_trim (b, mkCaptured m w) = let '(o, (b', w')) := s_trim (b, w) in (o, (b', mkCaptured m w')).
Proof. apply framed_evictions. Qed.

Ltac compute_frame := unfold e_framed, e_settle, s_get_or_set, s_try_get_or_set, e_get_or_set, e_try_get_or_set,
  e_inner, e_entries, s_entries, e_hit, e_miss, e_count, e_set, e_self, s_self, s_set, s_tracked, zoom, bind, gets,
  modify, user, counted_f, not_expired, lift_user, ret.

(** The flat program is the inner one between the wrapper's closures and its bookkeeping. *)
Lemma e_get_or_set_eq k (f : User W V) a w : vtrack (eview a) = false ->
  (let! r := e_framed (s_get_or_set k (counted_f f) not_expired) in e_settle r) (a, w) = e_get_or_set k f (a, w).
Proof.
  intros Ht. destruct a as [[l cap h m ev oe tr] eh em ee eo]. simpl in Ht. subst tr.
  compute_frame. simpl. destruct (take_key k l) as [[e r]|]; simpl.
  - destruct (is_expired e.2 w) as [[[]|] w1]; simpl; [|done|done]. destruct (f w1) as [[v|] w2]; simpl; [|done].
    by destruct e.
  - destruct (f w) as [[v|] w2]; simpl; [|done]. rewrite framed_trim.
    by destruct (s_trim _) as [[[]| |] [b w3]].
Qed.

Lemma e_try_get_or_set_eq {E} k (f : User W (result E V)) a w : vtrack (eview a) = false ->
  (let! r := e_framed (s_try_get_or_set k (counted_f f) not_expired) in
   match r with Ok r => e_settle r ;; ret (Ok tt) | Err x => ret (Err x) end) (a, w) =
  e_try_get_or_set k f (a, w).
Proof.
  intros Ht. destruct a as [[l cap h m ev oe tr] eh em ee eo]. simpl in Ht. subst tr.
  compute_frame. simpl. destruct (take_key k l) as [[e r]|]; simpl.
  - destruct (is_expired e.2 w) as [[[]|] w1]; simpl; [|done|done].
    destruct (f w1) as [[[v|x]|] w2]; simpl; [|done|done].
    destruct e as [k0 v0]. unfold e_notify, bind, e_self, gets. simpl.
    destruct eo as [g|]; simpl; [unfold user; simpl; by destruct (g k0 v0 w2) as [[]]|done].
  - destruct (f w) as [[[v|x]|] w2]; simpl; [|done|done]. rewrite framed_trim.
    by destruct (s_trim _) as [[[]| |] [b w3]].
Qed.

Lemma eget_or_set_simulates k f c a w : holds c a ->
  simulates (fun i s1 _ s2 => ERelF i s1 s2) ERel (cache_get_or_set_with_mut k f (c, w)) (e_get_or_set k f (a, w)).
Proof.
  intros HH. rewrite <- e_get_or_set_eq by apply HH. unfold cache_get_or_set_with_mut.
  eapply simulates_bind.
  - apply (e_framed_simulates _ _ (fun r1 r2 o => r2 = r1.1 /\ o = Some r1.2)); [done|apply still_get_or_set|].
    eapply simulates_mono; [|done|by apply get_or_set_simulates, HH]. intros r1 s1 r2 s2 [-> HF]. by exists (Some r1.2).
  - intros r1 s1 r2 s2 (o & [-> ->] & HF). by apply settle_simulates.
Qed.

Lemma etry_get_or_set_simulates {E} k (f : User W (result E V)) c a w : holds c a ->
  simulates (fun r1 s1 r2 s2 =>
      match r1, r2 with
      | Ok i, Ok _ => ERelF i s1 s2
      | Err x, Err y => x = y /\ ERel s1 s2
      | _, _ => False
      end) ERel
    (cache_try_get_or_set_with_mut k f (c, w)) (e_try_get_or_set k f (a, w)).
Proof.
  intros HH. rewrite <- e_try_get_or_set_eq by apply HH. unfold cache_try_get_or_set_with_mut.
  eapply simulates_bind.
  - apply (e_framed_simulates _ _ (fun r1 r2 o =>
      match r1, r2 with
      | Ok r1, Ok r2 => r2 = r1.1 /\ o = Some r1.2
      | Err x, Err y => x = y /\ o = None
      | _, _ => False
      end)); [done|apply still_try_get_or_set|].
    eapply simulates_mono; [|done|by apply try_get_or_set_simulates, HH].
    intros [r1|x] s1 [r2|y] s2; simpl; try done; [intros [-> HF]; by exists (Some r1.2)|intros [-> HF]; by exists None].
  - intros [r1|x] s1 [r2|y] s2 (o & HQ & HF); try done; destruct HQ as [-> ->]; [|done].
    eapply simulates_bind; [by apply settle_simulates|]. by intros i s1' [] s2' HF'.
Qed.
End Refine.

(** ** Programs of public calls *)
Section Programs.
Context {K V W HT E : Type} `{!KeyEq K, !KeyLaws K, !Expires V W, !HashTable HT, !HashTableLaws HT}.
Implicit Types (c : ExpiringLruCache K V W HT) (a : EView K V W) (k : K) (v : V) (w : W).

(** A call with its arguments; the user of a [&mut V] reads the value there and stores [g] of it. *)
Inductive Call : Type :=
| Get (k : K)
| GetMut (k : K) (g : V -> V)
| Set_ (k : K) (v : V)
| GetOrSet (async : bool) (k : K) (f : User W V) (g : V -> V)
| TryGetOrSet (async : bool) (k : K) (f : User W (result E V)) (g : V -> V)
| Remove (k : K)
| RemoveEntry (k : K)
| Evict
| Retain (keep : K -> V -> User W bool)
| Clear
| ClearWithOnEvict
| Reset_
| SetMaxSize (n : Z)
| Peek (k : K)
| PeekStatus (k : K)
| GetStatus (k : K)
| KeyOrder
| Size
| Capacity.

Inductive Reply : Type :=
| RUnit
| RNum (n : Z)
| RCount (n : nat)
| RVal (v : option V)
| REntry (e : option (K * V))
| RTry (r : result E V)
| RCap (r : option Z)
| RStatus (r : option V * bool)
| RKeys (l : list K).

Definition deref (g : V -> V) (i : nat) : Op K V W HT V :=
  let! c := self in
  let! e := of_outcome (get (order (store c)) i) in
  inner (on_order (write i (e.1, g e.2))) ;;
  ret e.2.

Definition run (alloc : Z -> bool) (q : Call) : Op K V W HT Reply :=
  match q with
  | Get k => let! r := cache_get k in ret (RVal r)
  | GetMut k g =>
      let! r := cache_get_mut k in
      match r with
      | Some i => let! v := deref g i in ret (RVal (Some v))
      | None => ret (RVal None)
      end
  | Set_ k v => let! r := cache_set k v in ret (RVal r)
  | GetOrSet async k f g =>
      let! i := (if async then async_cache_get_or_set_with_mut k f else cache_get_or_set_with_mut k f) in
      let! v := deref g i in ret (RVal (Some v))
  | TryGetOrSet async k f g =>
      let! r := (if async then async_cache_try_get_or_set_with_mut k f else cache_try_get_or_set_with_mut k f) in
      match r with
      | Ok i => let! v := deref g i in ret (RTry (Ok v))
      | Err e => ret (RTry (Err e))
      end
  | Remove k => let! r := cache_remove k in ret (RVal r)
  | RemoveEntry k => let! r := cache_remove_entry k in ret (REntry r)
  | Evict => let! n := evict in ret (RCount n)
  | Retain keep => let! n := retain keep in ret (RCount n)
  | Clear => cache_clear ;; ret RUnit
  | ClearWithOnEvict => cache_clear_with_on_evict ;; ret RUnit
  | Reset_ => cache_reset alloc ;; ret RUnit
  | SetMaxSize n => let! r := set_max_size n in ret (RCap r)
  | Peek k => let! r := cache_peek k in ret (RVal r)
  | PeekStatus k => let! r := cache_peek_with_expiry_status k in ret (RStatus r)
  | GetStatus k => let! r := cache_get_with_expiry_status k in ret (RStatus r)
  | KeyOrder => let! l := key_order in ret (RKeys l)
  | Size => let! c := self in ret (RNum (cache_size c))
  | Capacity => let! c := self in ret (RCap (cache_capacity c))
  end.

(** The same calls on the abstract store; a reference names the front entry. *)
Definition e_deref (g : V -> V) : ESpec K V W V :=
  let! a := e_self in
  match entries (eview a) with
  | e :: r => e_entries ((e.1, g e.2) :: r) ;; ret e.2
  | [] => unwind
  end.

Definition e_run (q : Call) : ESpec K V W Reply :=
  match q with
  | Get k => let! r := e_get k in ret (RVal r)
  | GetMut k g =>
      let! r := e_get k in
      match r with
      | Some _ => let! v := e_deref g in ret (RVal (Some v))
      | None => ret (RVal None)
      end
  | Set_ k v => let! r := e_put k v in ret (RVal r)
  | GetOrSet _ k f g => e_get_or_set k f ;; let! v := e_deref g in ret (RVal (Some v))
  | TryGetOrSet _ k f g =>
      let! r := e_try_get_or_set k f in
      match r with
      | Ok _ => let! v := e_deref g in ret (RTry (Ok v))
      | Err e => ret (RTry (Err e))
      end
  | Remove k => let! r := e_remove k in ret (RVal r)
  | RemoveEntry k => let! r := e_remove_entry k in ret (REntry r)
  | Evict => let! n := e_sweep (fun _ v => is_expired v) in ret (RCount n)
  | Retain keep => let! n := e_sweep (expired_or_rejected keep) in ret (RCount n)
  | Clear => e_entries [] ;; ret RUnit
  | ClearWithOnEvict => e_clear_with_on_evict ;; ret RUnit
  | Reset_ => e_inner s_reset ;; e_set (put_ehits 0) ;; e_set (put_emisses 0) ;; e_set (put_eevictions 0) ;; ret RUnit
  | SetMaxSize n => let! r := e_inner (s_set_max_size n) in ret (RCap r)
  | Peek k => let! r := e_peek k in ret (RVal (if r.2 then None else r.1))
  | PeekStatus k => let! r := e_peek k in ret (RStatus r)
  | GetStatus k => let! r := e_get_status k in ret (RStatus r)
  | KeyOrder => let! l := e_live in ret (RKeys (fst <$> l))
  | Size => let! a := e_self in ret (RNum (Z.of_nat (length (entries (eview a)))))
  | Capacity => let! a := e_self in ret (RCap (Some (vcapacity (eview a))))
  end.

Lemma ederef_agree g i s1 s2 : ERelF i s1 s2 -> agree ERel eq (deref g i s1) (e_deref g s2).
Proof.
  destruct s1 as [c w], s2 as [a w']. intros [[E1 HH] (e & occ & fre & HA)]. simpl in *. subst w'.
  unfold deref, e_deref. rewrite ebind_self, (bind_of_outcome _ _ _ _ (slot_get_front _ _ _ _ _ _ HA)).
  rewrite ebind_e_self, (models_entries _ _ _ _ HA). simpl.
  destruct (step_write (store c) (eview a) [] i e occ fre (e.1, g e.2) w HA) as (t & E2 & HA2); [apply keq_refl|].
  rewrite (bind_run _ _ _ _ _ (einner_run _ _ _ _ _ _ E2)), ebind_e_entries.
  apply agree_ret; [done|]. split; [done|]. apply e_holds_put; [done|by eapply models_intro].
Qed.

Lemma erefines_map {A B} (f : A -> B) (m1 : Op K V W HT A) (m2 : ESpec K V W A) :
  refines ERel m1 m2 -> refines ERel (let! r := m1 in ret (f r)) (let! r := m2 in ret (f r)).
Proof. intros H. apply refines_bind; [done|]. intros r. apply refines_ret. Qed.

Lemma erun_get_mut alloc k g : refines ERel (run alloc (GetMut k g)) (e_run (GetMut k g)).
Proof.
  intros [c w] [a w'] [E1 HH]. simpl in *. subst w'. apply agree_simulates.
  eapply simulates_bind; [by apply get_mut_simulates|]. intros [i|] s1 r2 s2 H; simpl in H.
  - destruct H as [HF [v ->]]. apply agree_simulates.
    eapply agree_bind; [by apply ederef_agree|]. intros v1 v2 t1 t2 _ _ -> HR. by apply agree_ret.
  - destruct H as [HF ->]. by apply agree_simulates, agree_ret.
Qed.

Lemma erun_get_or_set alloc b k f g : refines ERel (run alloc (GetOrSet b k f g)) (e_run (GetOrSet b k f g)).
Proof.
  intros [c w] [a w'] [E1 HH]. simpl in *. subst w'. apply agree_simulates. cbn [run e_run].
  eapply simulates_bind; [destruct b; by apply eget_or_set_simulates|]. intros i s1 [] s2 HF. apply agree_simulates.
  eapply agree_bind; [by apply ederef_agree|]. intros v1 v2 t1 t2 _ _ -> HR. by apply agree_ret.
Qed.

Lemma erun_try_get_or_set alloc b k f g :
  refines ERel (run alloc (TryGetOrSet b k f g)) (e_run (TryGetOrSet b k f g)).
Proof.
  intros [c w] [a w'] [E1 HH]. simpl in *. subst w'. apply agree_simulates. cbn [run e_run].
  eapply simulates_bind; [destruct b; by apply etry_get_or_set_simulates|].
  intros [i|x] s1 [[]|y] s2 H; simpl in H; try done; apply agree_simulates.
  - eapply agree_bind; [by apply ederef_agree|]. intros v1 v2 t1 t2 _ _ -> HR. by apply agree_ret.
  - destruct H as [-> HR]. by apply agree_ret.
Qed.

Lemma erun_reset alloc : refines ERel (run alloc Reset_) (e_run Reset_).
Proof.
  apply (refines_bind _ (cache_reset alloc)
    (e_inner s_reset ;; e_set (put_ehits 0) ;; e_set (put_emisses 0) ;; e_set (put_eevictions 0))); [|intros; apply refines_ret].
  apply refines_bind; [apply inner_refines; [apply cache_reset_spec|apply still_reset]|]. intros _ [c w] [a w'] [Ew (HM & Ha & Ht)].
  simpl in *. subst w'. rewrite Ha. by split.
Qed.

Lemma erun_refines alloc q : refines ERel (run alloc q) (e_run q).
Proof.
  destruct q.
  - apply erefines_map, e_get_refines.
  - apply erun_get_mut.
  - apply erefines_map, put_refines.
  - apply erun_get_or_set.
  - apply erun_try_get_or_set.
  - apply erefines_map, e_remove_refines.
  - apply erefines_map, remove_entry_refines.
  - apply erefines_map, sweep_refines.
  - apply erefines_map, sweep_refines.
  - apply refines_bind; [apply inner_refines; [apply cache_clear_spec|apply still_entries]|intros; apply refines_ret].
  - apply refines_bind; [apply eclear_with_refines|intros; apply refines_ret].
  - apply erun_reset.
  - apply erefines_map, inner_refines; [apply set_max_size_spec|apply still_set_max_size].
  - intros s1 s2 HR. destruct (erefines_map RVal _ _ (peek_refines k) s1 s2 HR) as [H1 H2]. simpl.
    rewrite (bind_assoc (e_peek k)) in H1, H2. done.
  - apply erefines_map, peek_status_refines.
  - apply erefines_map, get_status_refines.
  - intros s1 s2 HR. destruct (erefines_map RKeys _ _ (live_refines (fmap fst)) s1 s2 HR) as [H1 H2].
    simpl. rewrite (bind_assoc e_live) in H1, H2. done.
  - apply erefines_read. intros c a w HH. unfold cache_size. rewrite (size_models _ _ (proj1 HH)). by apply agree_ret.
  - apply erefines_read. intros c a w HH. apply agree_ret; [|done]. destruct HH as ((occ & fre & HA) & _).
    unfold cache_capacity, Lru.cache_capacity. by rewrite (models_cap _ _ _ _ HA).
Qed.
End Programs.

Section Claims.
Context {K V W HT : Type} `{!KeyEq K, !KeyLaws K, !Expires V W, !HashTable HT, !HashTableLaws HT}.

Lemma ebuild_holds alloc (b : ExpiringLruCacheBuilder (K := K) (V := V) (W := W)) n (c : ExpiringLruCache K V W HT) :
  b_size b = Some n -> 0 <= n -> build alloc b = Ok c ->
  0 < n /\ holds c (mkEView (mkView [] n 0 0 0 (b_on_evict b) false) 0 0 0 (b_on_evict b)).
Proof.
  intros Eb Hn. unfold build. rewrite Eb. destruct (Lru.build alloc _) as [t|] eqn:Et; [|done].
  destruct (build_models alloc (Lru.builder_max_size n Lru.builder) n t eq_refl Hn Et) as [Hp (occ & fre & [HI HA])].
  assert (forall f, models (with_inner_on_evict f (disable_hit_miss_tracking t)) (mkView [] n 0 0 0 f false)) as HM.
  { intros f. exists occ, fre. split; [split; apply HI|]. simpl. injection HA; intros; congruence. }
  intros Hb. split; [done|]. destruct (b_on_evict b) as [f|]; simplify_eq/=.
  - split; [apply HM|done].
  - split; [|done]. simpl. specialize (HM None). unfold with_inner_on_evict in HM. simpl in HM.
    assert (Lru.on_evict t = None) as Eo by (injection HA; intros; congruence).
    unfold disable_hit_miss_tracking in *. by rewrite Eo in *.
Qed.

(** C34: Every sequence of public calls of an [ExpiringLruCache], blocking and [async], with any
    [is_expired], factories and callback - panics included, each caught - replies exactly as the
    store of [ESpec] does, which is a list of entries in recency order; no loop runs on, and the
    slab and table hold the list's entries at the end. *)
Theorem expiring_lru_refines {E} alloc (b : ExpiringLruCacheBuilder (K := K) (V := V) (W := W)) n
    (c : ExpiringLruCache K V W HT) (qs : list (Call (K := K) (V := V) (W := W) (E := E))) w :
  b_size b = Some n -> 0 <= n -> build alloc b = Ok c ->
  let spec := runs e_run qs (mkEView (mkView [] n 0 0 0 (b_on_evict b) false) 0 0 0 (b_on_evict b), w) in
  let impl := runs (run alloc) qs (c, w) in
  impl.1 = spec.1 /\ OutOfFuel ∉ impl.1 /\ impl.2.2 = spec.2.2 /\ holds impl.2.1 spec.2.1.
Proof.
  intros Eb Hn Hb spec impl. destruct (ebuild_holds alloc b n c Eb Hn Hb) as [_ HH].
  destruct (runs_refine ERel (run alloc) e_run qs (c, w)
    (mkEView (mkView [] n 0 0 0 (b_on_evict b) false) 0 0 0 (b_on_evict b), w)) as (H1 & H2 & H3 & H4).
  - apply erun_refines.
  - by split.
  - done.
Qed.
End Claims.

(** ** Witnesses *)
Module Demo.
Import Tick.

(** A value is its own deadline. *)
#[local] Instance deadline : Expires Z Tick.t := {| is_expired v w := (Some (v <=? time w), w) |}.

Definition blueprint : ExpiringLruCacheBuilder (K := TaggedKey.t) (V := Z) (W := Tick.t) :=
  builder_on_evict log (builder_max_size 2 builder).
Definition empty : ExpiringLruCache TaggedKey.t Z Tick.t ListTable.t :=
  mkExpiringLru (mkLru [] (mkList sentinels) 2 0 0 0 (Some log) false) 0 0 0 (Some log).

(** [k1] expires at 5, before it is read at 9; [k3] pushes [k2] out. *)
Definition session : list (Call (K := TaggedKey.t) (V := Z) (W := Tick.t) (E := unit)) :=
  [Set_ k1 5; Set_ k2 100; GetOrSet true k3 (fun w => (Some 200, Tick.mk 9 (seen w))) Z.succ; Get k1'; Get k3; KeyOrder].

Lemma expiring_lru_refines_witness :
  (runs (run (fun _ => true)) session (empty, Tick.mk 0 [])).1 =
    [Done (RVal None); Done (RVal None); Done (RVal (Some 200)); Done (RVal None); Done (RVal (Some 201));
     Done (RKeys [k3; k2])].
Proof.
  destruct (expiring_lru_refines (fun _ => true) blueprint 2 empty session (Tick.mk 0 [])
    ltac:(reflexivity) ltac:(lia) ltac:(reflexivity)) as [H _].
  rewrite H. reflexivity.
Defined.
End Demo.
