(* ===== verification/Cached.v ===== *)
(** * The traits of the single-owner stores ([src/lib.rs])

    [Cached], [CachedPeek], [CachedRead] and [CloneCached] as classes of operations, their
    provided methods and the [CachedExt] aliases, [CachedGetOrSetAsync], and the contract a store keeps
    towards its clients as classes of laws.  A [&mut V] is a [place], read through the store. *)
From Stdlib Require Import SpecFloat.
From S2P Require Import Prelude Keys Stores.

(** ** [Cached]: the required methods, and the metrics a store may override *)
Class Cached (C K V W : Type) : Type := {
  place : Type;
  read_place : place -> C -> option V;
  cache_get : K -> ST (C * W) (option V);
  cache_get_mut : K -> ST (C * W) (option place);
  cache_set : K -> V -> ST (C * W) (option V);
  cache_get_or_set_with_mut : K -> User W V -> ST (C * W) place;
  cache_try_get_or_set_with_mut : forall E, K -> User W (result E V) -> ST (C * W) (result E place);
  cache_remove : K -> ST (C * W) (option V);
  cache_remove_entry : K -> ST (C * W) (option (K * V));
  cache_clear : ST (C * W) unit;
  cache_reset : ST (C * W) unit;
  cache_size : C -> Z;
  cache_hits : C -> option Z;
  cache_misses : C -> option Z;
  cache_capacity : C -> option Z;
  cache_evictions : C -> outcome (option Z) }.
Arguments place C K V W {_}.

(** ** [CachedPeek] and [CachedRead] *)
Class CachedRead (C K V W : Type) : Type := {
  cache_peek : K -> ST (C * W) (option V);
  cache_get_read : K -> ST (C * W) (option V) }.

(** ** [CloneCached] *)
Class CloneCached (C K V W : Type) : Type := {
  cache_get_with_expiry_status : K -> ST (C * W) (option V * bool);
  cache_peek_with_expiry_status : K -> ST (C * W) (option V * bool) }.

(** ** [CachedGetOrSetAsync]: the store is borrowed for as long as the future lives, so nothing else
    happens to it meanwhile; the factory is one piece of user code, which unwinds where the future is
    dropped. *)
Class CachedGetOrSetAsync (C K V W : Type) `{!Cached C K V W} : Type := {
  async_cache_get_or_set_with_mut : K -> User W V -> ST (C * W) (place C K V W);
  async_cache_try_get_or_set_with_mut : forall E, K -> User W (result E V) -> ST (C * W) (result E (place C K V W)) }.

(** ** The provided methods *)

Section Provided.
Context {C K V W : Type} `{!Cached C K V W}.

(** [&*place] *)
Definition deref (p : place C K V W) : ST (C * W) V :=
  let! s := gets fst in match read_place p s with Some v => ret v | None => unwind end.

Definition cache_try_set {E} (k : K) (v : V) : ST (C * W) (result E (option V)) :=
  let! r := cache_set k v in ret (Ok r).

Definition cache_get_or_set_with (key : K) (f : User W V) : ST (C * W) V :=
  let! p := cache_get_or_set_with_mut key f in deref p.

Definition cache_try_get_or_set_with {E} (key : K) (f : User W (result E V)) : ST (C * W) (result E V) :=
  let! r := cache_try_get_or_set_with_mut E key f in
  match r with Ok p => let! v := deref p in ret (Ok v) | Err e => ret (Err e) end.

Definition async_cache_get_or_set_with `{!CachedGetOrSetAsync C K V W} (k : K) (f : User W V) : ST (C * W) V :=
  let! p := async_cache_get_or_set_with_mut k f in deref p.

Definition async_cache_try_get_or_set_with `{!CachedGetOrSetAsync C K V W} {E} (k : K) (f : User W (result E V)) : ST (C * W) (result E V) :=
  let! r := async_cache_try_get_or_set_with_mut E k f in
  match r with Ok p => let! v := deref p in ret (Ok v) | Err e => ret (Err e) end.

(** The default, which the built-in stores override by a peek. *)
Definition cache_contains (k : K) : ST (C * W) bool :=
  let! r := cache_get k in ret (match r with Some _ => true | None => false end).

Definition cache_delete (k : K) : ST (C * W) bool :=
  let! r := cache_remove_entry k in ret (match r with Some _ => true | None => false end).

(** [CachedExt]. *)
Definition len (c : C) : Z := cache_size (K := K) (V := V) (W := W) c.
Definition is_empty (c : C) : bool := cache_size (K := K) (V := V) (W := W) c =? 0.
Definition metrics (c : C) : outcome CacheMetrics :=
  let? evictions := cache_evictions (K := K) (V := V) (W := W) c in
  Done (mkMetrics (cache_hits (K := K) (V := V) (W := W) c) (cache_misses (K := K) (V := V) (W := W) c)
    evictions (Some (cache_size (K := K) (V := V) (W := W) c))
    (cache_capacity (K := K) (V := V) (W := W) c)).
End Provided.

(** [CacheMetrics::hit_ratio]: [+] on [u64] panics on overflow in a checked build; [as f64] rounds to
    nearest, as the division does. *)
Definition f64_of (n : Z) : spec_float := binary_normalize 53 1024 n 0 false.

Definition hit_ratio (m : CacheMetrics) : outcome (option spec_float) :=
  match m_hits m, m_misses m with
  | Some hits, Some misses =>
      match checked_add hits misses with
      | None => Unwind
      | Some total => Done (if total =? 0 then None else Some (SFdiv 53 1024 (f64_of hits) (f64_of total)))
      end
  | _, _ => Done None
  end.

(** There is no ratio exactly if a counter is not kept or nothing was looked up. *)
Lemma hit_ratio_none m h s : m_hits m = Some h -> m_misses m = Some s -> 0 <= h -> 0 <= s -> h + s <= usize_max ->
  hit_ratio m = Done None <-> h = 0 /\ s = 0.
Proof.
  intros Eh Es Hh Hs Hb. unfold hit_ratio, checked_add. rewrite Eh, Es. destruct (h + s <=? usize_max) eqn:E1; [|lia].
  destruct (h + s =? 0) eqn:E2; (split; [intros [=]; lia|intros [-> ->]; done]) || (split; [by intros|lia]).
Qed.

(** Ten hits of twelve lookups, the documentation's example; all hits; nothing looked up yet. *)
Example hit_ratio_values :
  hit_ratio (mkMetrics (Some 10) (Some 2) None None None) = Done (Some (S754_finite false 7505999378950827 (-53))) /\
  hit_ratio (mkMetrics (Some 7) (Some 0) None None None) = Done (Some (S754_finite false 4503599627370496 (-52))) /\
  hit_ratio (mkMetrics (Some 0) (Some 0) None None None) = Done None.
Proof. repeat split; reflexivity. Qed.

(** ** The contract

    [holds c k v]: the store has the value [v] for [k], expired or not.  Whatever a client does,
    what a store has for a key is what was last put there; a read gives nothing else.  A store
    may drop entries at any time, and it stays consistent when user code unwinds. *)
Class StoreView (C K V : Type) : Type := {
  consistent : C -> Prop;
  holds : C -> K -> V -> Prop }.

Section Contract.
Context {C K V W : Type} `{!StoreView C K V, !KeyEq K}.

(** No entry of [c'] is new. *)
Definition narrows (c c' : C) : Prop := consistent c' /\ forall k v, holds c' k v -> holds c k v.

(** The only new entry of [c'] is [v] for [k]. *)
Definition adds (k : K) (v : V) (c c' : C) : Prop :=
  consistent c' /\ forall k' v', holds c' k' v' -> (keq k k' = true /\ v' = v) \/ holds c k' v'.

Definition reads {A} (found : A -> option V) (k : K) (m : ST (C * W) A) : Prop :=
  forall c w, consistent c ->
    wp m (fun r s => narrows c s.1 /\ forall v, found r = Some v -> holds c k v) (fun s => narrows c s.1) (c, w).

Definition writes (k : K) (v : V) (m : ST (C * W) (option V)) : Prop :=
  forall c w, consistent c -> wp m (fun _ s => adds k v c s.1) (fun s => adds k v c s.1) (c, w).
End Contract.

Class CachedLaws (C K V W : Type) `{!Cached C K V W, !StoreView C K V, !KeyEq K} : Prop := {
  get_reads : forall k, reads id k (cache_get k);
  set_writes : forall k v, writes k v (cache_set k v) }.

(** Get-or-set: what is new in the store is for the key, from the factory ([P]); a place that comes back
    has the factory's value or the one that was there; an error is the factory's, and nothing is new. *)
Section GetOrSet.
Context {C K V W : Type} `{!Cached C K V W, !StoreView C K V, !KeyEq K}.

Definition grows (k : K) (P : V -> Prop) (c c' : C) : Prop :=
  consistent c' /\ forall k' v, holds c' k' v -> holds c k' v \/ (keq k k' = true /\ P v).

Definition has (k : K) (P : V -> Prop) (c : C) (p : place C K V W) (c' : C) : Prop :=
  grows k P c c' /\ exists v, read_place p c' = Some v /\ (holds c k v \/ P v).

Definition computes (k : K) (P : V -> Prop) (m : ST (C * W) (place C K V W)) : Prop :=
  forall c w, consistent c -> wp m (fun p s => has k P c p s.1) (fun s => grows k P c s.1) (c, w).

Definition tries {E} (k : K) (P : result E V -> Prop) (m : ST (C * W) (result E (place C K V W))) : Prop :=
  forall c w, consistent c ->
    wp m (fun r s => match r with Ok p => has k (fun v => P (Ok v)) c p s.1 | Err e => narrows c s.1 /\ P (Err e) end)
      (fun s => grows k (fun v => P (Ok v)) c s.1) (c, w).
End GetOrSet.

Class GetOrSetLaws (C K V W : Type) `{!Cached C K V W, !CachedGetOrSetAsync C K V W, !StoreView C K V, !KeyEq K} : Prop := {
  get_or_set_computes : forall k f, computes k (may_return f) (cache_get_or_set_with_mut k f);
  try_get_or_set_tries : forall E k f, tries k (may_return f) (cache_try_get_or_set_with_mut E k f);
  async_get_or_set_computes : forall k f, computes k (may_return f) (async_cache_get_or_set_with_mut k f);
  async_try_get_or_set_tries : forall E k f, tries k (may_return f) (async_cache_try_get_or_set_with_mut E k f) }.

Class CachedReadLaws (C K V W : Type) `{!CachedRead C K V W, !StoreView C K V} : Prop := {
  peek_reads : forall k, reads id k (cache_peek k);
  get_read_reads : forall k, reads id k (cache_get_read k) }.

Class CloneCachedLaws (C K V W : Type) `{!CloneCached C K V W, !StoreView C K V} : Prop := {
  get_status_reads : forall k, reads fst k (cache_get_with_expiry_status k);
  peek_status_reads : forall k, reads fst k (cache_peek_with_expiry_status k) }.

Lemma narrows_refl {C K V} `{!StoreView C K V} (c : C) : consistent c -> narrows c c.
Proof. by split. Qed.

Lemma narrows_adds {C K V} `{!StoreView C K V, !KeyEq K} (c c' : C) k v : narrows c c' -> adds k v c c'.
Proof. intros [H1 H2]. split; [done|]. intros k' v' H. right. by apply H2. Qed.

Lemma narrows_grows {C K V} `{!StoreView C K V, !KeyEq K} (c c' : C) k P : narrows c c' -> grows k P c c'.
Proof. intros [H1 H2]. split; [done|]. intros k' v' H. left. by apply H2. Qed.

Lemma adds_grows {C K V} `{!StoreView C K V, !KeyEq K} (c c' : C) k v (P : V -> Prop) : P v -> adds k v c c' -> grows k P c c'.
Proof. intros HP [H1 H2]. split; [done|]. intros k' v' H. destruct (H2 _ _ H) as [[? ->]|?]; [by right|by left]. Qed.
