(* ===== verification/Instances.v ===== *)
(** * The stores as instances of the traits

    Each store implements [Cached] (and [CachedRead], [CloneCached] where the source has them)
    and keeps the contract of [Cached.v]. *)
From S2P Require Import Prelude Keys Stores BTree LruList HashTable Lru LruSpec LruRefine Ttl LruTtl LruTtlProps TtlSorted TtlSortedProps Unbound Cached.

(** ** [UnboundCache] *)
Section Unbound.
Context {K V W : Type} `{!KeyEq K, !KeyLaws K, !Threads W}.
Notation C := (UnboundCache K V W).

#[global] Instance unbound_cached : Cached C K V W := {|
  place := K;
  read_place k c := snd <$> find_key k (Unbound.store c);
  cache_get := Unbound.cache_get;
  cache_get_mut := Unbound.cache_get_mut;
  cache_set := Unbound.cache_set;
  cache_get_or_set_with_mut := Unbound.cache_get_or_set_with_mut;
  cache_try_get_or_set_with_mut E := Unbound.cache_try_get_or_set_with_mut;
  cache_remove := Unbound.cache_remove;
  cache_remove_entry := Unbound.cache_remove_entry;
  cache_clear := Unbound.cache_clear;
  cache_reset := Unbound.cache_reset;
  cache_size := Unbound.cache_size;
  cache_hits := Unbound.cache_hits;
  cache_misses := Unbound.cache_misses;
  cache_capacity _ := None;
  cache_evictions _ := Done None |}.

#[global] Instance unbound_read : CachedRead C K V W := {|
  cache_peek := Unbound.cache_peek;
  cache_get_read := Unbound.cache_get_read |}.

#[global] Instance unbound_view : StoreView C K V := {|
  consistent c := distinct (Unbound.store c) /\ StripedCounter.wf (Unbound.hits c) /\
    StripedCounter.wf (Unbound.misses c);
  holds c k v := exists k0, find_key k (Unbound.store c) = Some (k0, v) |}.

#[global] Instance unbound_laws : CachedLaws C K V W.
Proof.
  split.
  - intros k c w (D & Hh & Hm). unfold cache_get. simpl. unfold Unbound.cache_get. apply wp_bind, wp_gets. simpl.
    destruct (find_key k (Unbound.store c)) as [[k0 v]|] eqn:E;
      (apply wp_bind; unfold Unbound.count_hit, Unbound.count_miss; apply wp_bind, wp_gets; simpl; apply wp_bind).
    + destruct (StripedCounter.increment_mut_run _ Hh) as (t & Et & Ht & _).
      eapply wp_of_outcome; [exact Et|]. apply wp_modify, wp_ret. split; [by repeat split|].
      intros ? [= <-]. by exists k0.
    + destruct (StripedCounter.increment_mut_run _ Hm) as (t & Et & Ht & _).
      eapply wp_of_outcome; [exact Et|]. apply wp_modify, wp_ret. by repeat split.
  - intros k v c w (D & Hh & Hm). unfold cache_set. simpl. unfold Unbound.cache_set. apply wp_bind, wp_gets. simpl.
    unfold hm_insert. destruct (find_key k (Unbound.store c)) as [[k0 v0]|] eqn:E;
      (apply wp_bind, wp_modify, wp_ret; split; [split_and!; try done|]; simpl).
    + by apply distinct_update.
    + intros k' v' (k1 & H). rewrite (find_key_update k v _ _ D E) in H.
      destruct (keq k k'); [left; by simplify_eq/=|right; by exists k1].
    + apply find_fresh in E. by apply distinct_snoc.
    + intros k' v' (k1 & H). rewrite find_key_snoc in H by (done || by apply find_fresh).
      destruct (keq k k'); [left; by simplify_eq/=|right; by exists k1].
Qed.

#[global] Instance unbound_read_laws : CachedReadLaws C K V W.
Proof.
  split; intros k c w (D & Hh & Hm).
  - apply wp_bind, wp_gets, wp_ret. split; [by repeat split|]. unfold id, holds. simpl.
    intros v E. destruct (find_key k (Unbound.store c)) as [[k0 v0]|]; simplify_eq/=. by exists k0.
  - unfold cache_get_read. simpl. unfold Unbound.cache_get_read. apply wp_bind, wp_bind, wp_gets, wp_ret. simpl.
    destruct (find_key k (Unbound.store c)) as [[k0 v]|] eqn:E; simpl; apply wp_bind, wp_gets; simpl; apply wp_bind.
    + destruct (StripedCounter.increment_run (current_thread w) _ Hh) as (t & Et & Ht & _).
      eapply wp_of_outcome; [exact Et|]. apply wp_bind, wp_modify, wp_ret. split; [by repeat split|].
      intros ? [= <-]. by exists k0.
    + destruct (StripedCounter.increment_run (current_thread w) _ Hm) as (t & Et & Ht & _).
      eapply wp_of_outcome; [exact Et|]. apply wp_bind, wp_modify, wp_ret. by repeat split.
Qed.
End Unbound.

(** ** [HashMap] *)
Section HashMap.
Context {K V W : Type} `{!KeyEq K, !KeyLaws K}.
Notation C := (list (K * V)).

#[global] Instance map_cached : Cached C K V W := {|
  place := K;
  read_place k m := snd <$> find_key k m;
  cache_get := MapCached.cache_get;
  cache_get_mut := MapCached.cache_get_mut;
  cache_set := MapCached.cache_set;
  cache_get_or_set_with_mut := MapCached.cache_get_or_set_with_mut;
  cache_try_get_or_set_with_mut E := MapCached.cache_try_get_or_set_with_mut;
  cache_remove := MapCached.cache_remove;
  cache_remove_entry := MapCached.cache_remove_entry;
  cache_clear := MapCached.cache_clear;
  cache_reset := MapCached.cache_reset;
  cache_size := MapCached.cache_size;
  cache_hits _ := None;
  cache_misses _ := None;
  cache_capacity _ := None;
  cache_evictions _ := Done None |}.

(** [cache_get_read] is the provided one, a peek. *)
#[global] Instance map_read : CachedRead C K V W := {|
  cache_peek := MapCached.cache_peek;
  cache_get_read := MapCached.cache_peek |}.

#[global] Instance map_view : StoreView C K V := {|
  consistent := distinct;
  holds m k v := exists k0, find_key k m = Some (k0, v) |}.

Lemma map_snoc (m : C) k v : distinct m -> find_key k m = None -> adds k v m (m ++ [(k, v)]).
Proof.
  intros D Ef%find_fresh. split; [by apply distinct_snoc|]. intros k' v' (k1 & H).
  rewrite find_key_snoc in H by done. destruct (keq k k'); [left; by simplify_eq|right; by exists k1].
Qed.

Lemma map_peeks k : reads id k (MapCached.cache_peek (V := V) (W := W) k).
Proof.
  intros m w D. apply wp_bind, wp_gets, wp_ret. split; [by apply narrows_refl|]. unfold id, holds. simpl.
  intros v E. destruct (find_key k m) as [[k0 v0]|]; simplify_eq/=. by exists k0.
Qed.

#[global] Instance map_laws : CachedLaws C K V W.
Proof.
  split; [apply map_peeks|]. intros k v m w D. unfold cache_set. simpl. unfold MapCached.cache_set. apply wp_bind, wp_gets. simpl.
  unfold hm_insert. destruct (find_key k m) as [[k0 v0]|] eqn:E; apply wp_bind, wp_modify, wp_ret; simpl; [|by apply map_snoc].
  split; [by apply distinct_update|]. intros k' v' (k1 & H). simpl in H. rewrite (find_key_update k v _ _ D E) in H.
  destruct (keq k k'); [left; by simplify_eq/=|right; by exists k1].
Qed.

#[global] Instance map_read_laws : CachedReadLaws C K V W.
Proof. split; apply map_peeks. Qed.
End HashMap.

(** ** [TtlCache] *)
Section Ttl.
Context {K V W : Type} `{!KeyEq K, !KeyLaws K, !Clock W}.
Notation C := (TtlCache K V W).

#[global] Instance ttl_cached : Cached C K V W := {|
  place := K;
  read_place k c := (fun e => tvalue e.2) <$> find_key k (Ttl.store c);
  cache_get := Ttl.cache_get;
  cache_get_mut := Ttl.cache_get_mut;
  cache_set := Ttl.cache_set;
  cache_get_or_set_with_mut := Ttl.cache_get_or_set_with_mut;
  cache_try_get_or_set_with_mut E := Ttl.cache_try_get_or_set_with_mut;
  cache_remove := Ttl.cache_remove;
  cache_remove_entry := Ttl.cache_remove_entry;
  cache_clear := Ttl.cache_clear;
  cache_reset := Ttl.cache_reset;
  cache_size := Ttl.cache_size;
  cache_hits c := Some (Ttl.hits c);
  cache_misses c := Some (Ttl.misses c);
  cache_capacity _ := None;
  cache_evictions c := Done (Some (Ttl.evictions c)) |}.

#[global] Instance ttl_clone : CloneCached C K V W := {|
  cache_get_with_expiry_status := Ttl.cache_get_with_expiry_status;
  cache_peek_with_expiry_status := Ttl.cache_peek_with_expiry_status |}.

#[global] Instance ttl_view : StoreView C K V := {|
  consistent := Ttl.wf;
  holds c k v := exists k0 e, find_key k (Ttl.store c) = Some (k0, e) /\ tvalue e = v |}.

Lemma ttl_renewed (c c' : C) k k0 e x : Ttl.wf c -> find_key k (Ttl.store c) = Some (k0, e) ->
  Ttl.store c' = hm_update k (mkTimed x (tvalue e)) (Ttl.store c) -> narrows c c'.
Proof.
  intros D E Es. split; [simpl; unfold Ttl.wf; rewrite Es; by apply distinct_update|].
  intros k' v (k1 & e1 & H & Hv). rewrite Es, (find_key_update k _ _ _ D E) in H.
  destruct (keq k k') eqn:Ek; [|by exists k1, e1]. injection H as <- <-. exists k0, e.
  split; [by rewrite <- (find_key_cong k k')|exact Hv].
Qed.

Lemma ttl_same (c c' : C) : Ttl.wf c -> Ttl.store c' = Ttl.store c -> narrows c c'.
Proof.
  intros D Es. split; simpl; [unfold Ttl.wf; by rewrite Es|]. intros k v. by rewrite Es.
Qed.

#[global] Instance ttl_laws : CachedLaws C K V W.
Proof.
  split.
  - intros k c w D. unfold cache_get, wp. simpl. destruct (clock_now w) as [t w1] eqn:Et.
    rewrite (Ttl.ttl_get_run k c w t w1 Et). destruct (find_key k (Ttl.store c)) as [[k0 e]|] eqn:E.
    + destruct (entry_live_at (expires_at e) t).
      * split; [|intros ? [= <-]; by exists k0, e]. unfold Ttl.refreshed. simpl. destruct (Ttl.refresh c).
        -- by eapply ttl_renewed.
        -- by apply ttl_same.
      * assert (narrows c (Ttl.swept (drop_key k (Ttl.store c)) (Ttl.missed c))) as Hn.
        { split; unfold consistent, holds; simpl; [unfold Ttl.wf; simpl|].
          - unfold drop_key. destruct (take_key k (Ttl.store c)) as [[? ?]|] eqn:E2; [exact (distinct_drop_key _ _ _ _ D E2)|exact D].
          - intros k' v (k1 & e1 & H & Hv). rewrite find_key_drop in H by done. destruct (keq k k'); [done|by exists k1, e1]. }
        destruct (Ttl.told c k0 (tvalue e) w1) as [[]] eqn:Eo; [by split| |]; [done|].
        unfold Ttl.told in Eo. destruct (Ttl.on_evict c); [|done]. by repeat case_match.
    + split; [by apply ttl_same|done].
  - intros k v c w D. destruct (clock_now w) as [t w1] eqn:Et.
    destruct (Ttl.set_lookup k v c w t w1 D Et) as (o & c' & w' & E & Ho & D' & _ & Hl & _).
    assert (adds k v c c') as Ha.
    { split; [done|]. intros k' v' (k1 & e1 & H & Hv). rewrite Hl in H.
      destruct (keq k k'); [|right; by exists k1, e1]. left. split; [done|].
      unfold Ttl.set_binding in H. by injection H as _ <-. }
    unfold wp, cache_set. simpl. rewrite E. by destruct o.
Qed.

#[global] Instance ttl_clone_laws : CloneCachedLaws C K V W.
Proof.
  split; intros k c w D; simpl.
  - unfold Ttl.cache_get_with_expiry_status. apply wp_bind, wp_gets. simpl.
    destruct (find_key k (Ttl.store c)) as [[k0 e]|] eqn:E.
    + apply wp_bind, wp_now. destruct (entry_live_at (expires_at e) _).
      * apply wp_bind, wp_modify. simpl. apply wp_bind. unfold Ttl.refresh_entry. apply wp_bind, wp_gets. simpl.
        destruct (Ttl.refresh c); [apply wp_modify|]; apply wp_ret; (split; [|intros ? [= <-]; by exists k0, e]).
        -- by eapply ttl_renewed.
        -- by apply ttl_same.
      * apply wp_bind, wp_modify, wp_ret. split; [by apply ttl_same|]. intros ? [= <-]. by exists k0, e.
    + apply wp_bind, wp_modify, wp_ret. split; [by apply ttl_same|done].
  - unfold Ttl.cache_peek_with_expiry_status. apply wp_bind, wp_gets. simpl.
    destruct (find_key k (Ttl.store c)) as [[k0 e]|] eqn:E.
    + apply wp_bind. unfold Ttl.entry_live. destruct (expires_at e).
      * apply wp_bind, wp_now, wp_ret, wp_ret. split; [by apply ttl_same|]. intros ? [= <-]. by exists k0, e.
      * apply wp_ret, wp_ret. split; [by apply ttl_same|]. intros ? [= <-]. by exists k0, e.
    + apply wp_ret. split; [by apply ttl_same|done].
Qed.
End Ttl.

(** ** [TtlSortedCache] *)
Section Sorted.
Context {K V W : Type} `{!KeyEq K, !KeyLaws K, !Cmp K, !CmpLaws K, !KeyOrd K, !Clock W, !Threads W}.
Notation C := (TtlSortedCache K V W).
Implicit Types (c : C).

#[global] Instance sorted_cached : Cached C K V W := {|
  place := K;
  read_place k c := (fun e => e_value e.2) <$> find_key k (map c);
  cache_get := TtlSorted.cache_get;
  cache_get_mut := TtlSorted.cache_get_mut;
  cache_set := TtlSorted.cache_set;
  cache_get_or_set_with_mut := TtlSorted.cache_get_or_set_with_mut;
  cache_try_get_or_set_with_mut E := TtlSorted.cache_try_get_or_set_with_mut;
  cache_remove := TtlSorted.cache_remove;
  cache_remove_entry := TtlSorted.cache_remove_entry;
  cache_clear := TtlSorted.cache_clear;
  cache_reset := TtlSorted.cache_reset;
  cache_size := TtlSorted.cache_size;
  cache_hits c := Some (StripedCounter.load (TtlSorted.hits c));
  cache_misses c := Some (StripedCounter.load (TtlSorted.misses c));
  cache_capacity := TtlSorted.cache_capacity;
  cache_evictions c := Done (Some (TtlSorted.evictions c)) |}.

#[global] Instance sorted_read : CachedRead C K V W := {|
  cache_peek := TtlSorted.cache_peek;
  cache_get_read := TtlSorted.cache_get_read |}.

#[global] Instance sorted_clone : CloneCached C K V W := {|
  cache_get_with_expiry_status := TtlSorted.cache_get_with_expiry_status;
  cache_peek_with_expiry_status := TtlSorted.cache_peek_with_expiry_status |}.

#[global] Instance sorted_view : StoreView C K V := {|
  consistent := TtlSortedProps.wf;
  holds c k v := exists k0 e, find_key k (map c) = Some (k0, e) /\ e_value e = v |}.

Lemma sorted_narrows c c' : wf c -> wf c' -> (forall p, p ∈ map c' -> p ∈ map c) -> narrows c c'.
Proof.
  intros [H _] Hc' Hm. split; [done|]. intros k v (k0 & e & E & Hv). exists k0, e. split; [|done].
  apply find_key_Some in E as [Hin Hk]. apply Hm in Hin.
  rewrite (find_key_cong k k0 _ Hk). exact (distinct_find _ _ (ix_keys _ _ _ H) Hin).
Qed.

Lemma sorted_hit (Q : unit -> C * W -> Prop) U c w : wf c ->
  (forall n, wf (TtlSorted.with_hits n c) -> Q tt (TtlSorted.with_hits n c, w)) -> wp TtlSorted.count_hit Q U (c, w).
Proof.
  intros (H & Hh & Hm & Hl) HQ. apply wp_count_hit; [done|]. intros n Hn. apply HQ. by split_and!.
Qed.

Lemma sorted_miss (Q : unit -> C * W -> Prop) U c w : wf c ->
  (forall n, wf (TtlSorted.with_misses n c) -> Q tt (TtlSorted.with_misses n c, w)) -> wp TtlSorted.count_miss Q U (c, w).
Proof.
  intros (H & Hh & Hm & Hl) HQ. apply wp_count_miss; [done|]. intros n Hn. apply HQ. by split_and!.
Qed.

Lemma sorted_expire c k w : wf c ->
  wp (remove_expired_entry k) (fun _ s => narrows c s.1) (fun s => narrows c s.1) (c, w).
Proof.
  intros HC. pose proof HC as (H & Hh & Hm & Hl). unfold remove_expired_entry. apply wp_bind.
  destruct (take_key k (map c)) as [[p r]|] eqn:E.
  - eapply wp_run; [by apply map_remove_run|]. apply wp_bind, wp_modify. apply wp_bind, wp_modify. simpl.
    assert (narrows c (TtlSorted.with_evictions (fetch_add (TtlSorted.evictions c) 1)
      (TtlSorted.with_keys (bt_remove (as_stamped p.2) (keys c)) (TtlSorted.with_map r c)))) as Hn.
    { apply sorted_narrows; [done| |intros q Hq; by eapply take_key_mem].
      split_and!; try done. by eapply indexed_both. }
    apply (wp_sorted_notify True); [by left|intros; exact Hn|intros; exact Hn].
  - eapply wp_run; [by apply map_remove_none|]. apply wp_ret. by apply narrows_refl.
Qed.

Lemma sorted_gets c c' k k0 e v : find_key k (map c) = Some (k0, e) -> map c' = map c -> wf c -> wf c' ->
  narrows c c' /\ (Some (e_value e) = Some v -> holds c k v).
Proof.
  intros E Em Hc Hc'. split; [apply sorted_narrows; [done|done|by rewrite Em]|]. intros [= <-]. by exists k0, e.
Qed.

(** What setting a key leaves, before and after the store is trimmed. *)
Lemma sorted_done_adds c k v x t : wf c -> adds k v c (set_done k v x t c).
Proof.
  intros HI%wf_at. split; [by eapply at_wf, (set_done_at True)|]. simpl. destruct (set_done_map k v x t c) as (-> & _).
  intros k' v' (k1 & e1 & H & Hv). rewrite (placed_lookup True) in H by done.
  destruct (keq k k'); [left; by simplify_eq/=|right; by exists k1, e1].
Qed.

Lemma sorted_shrunk_adds c c' k v x t : wf c -> shrunk True (set_done k v x t c) c' -> adds k v c c'.
Proof.
  intros HC (HA & _ & Hm). split; [by eapply at_wf|]. intros k' v' H. apply (proj2 (sorted_done_adds c k v x t HC)).
  assert (wf (set_done k v x t c)) as Hd by (by eapply at_wf, (set_done_at True), wf_at).
  eapply (proj2 (sorted_narrows _ c' Hd (at_wf _ _ HA) Hm)), H.
Qed.

#[global] Instance sorted_laws : CachedLaws C K V W.
Proof.
  split.
  - intros k c w HC. unfold cache_get. simpl. unfold TtlSorted.cache_get. apply wp_bind, wp_gets. simpl.
    destruct (find_key k (map c)) as [[k0 e]|] eqn:E.
    + apply wp_bind, wp_bind, wp_now, wp_ret. destruct (is_expired_at e _); apply wp_bind.
      * apply sorted_miss; [done|]. intros n Hn. apply wp_bind.
        eapply wp_mono; [by apply sorted_expire| |]; [intros ? s H; apply wp_ret; by split|by intros s H].
      * apply sorted_hit; [done|]. intros n Hn. apply wp_bind, wp_gets, wp_ret. simpl. rewrite E. simpl.
        split; [by apply sorted_narrows|]. intros ? [= <-]. by exists k0, e.
    + apply wp_bind, sorted_miss; [done|]. intros n Hn. apply wp_ret. split; [by apply sorted_narrows|done].
  - intros k v c w HC. pose proof (wf_at c HC) as HI. simpl. unfold TtlSorted.cache_set.
    set (x := compute_expires_at (TtlSorted.ttl c) (clock_now w).1).
    pose proof (set_done_at True k v x (clock_now w).1 c HI) as HD.
    pose proof (sorted_done_adds c k v x (clock_now w).1 HC) as Ha.
    assert (forall c', shrunk True (set_done k v x (clock_now w).1 c) c' -> adds k v c c') as Hs
      by (intros c'; by apply sorted_shrunk_adds).
    apply wp_bind, (set_inner_wp True); [done| |by intros].
    intros w'. eapply wp_mono; [exact (trim_wp True false false _ _ w' HD)| |]; simpl.
    + intros _ s [H _]. apply wp_ret. by apply Hs.
    + intros s [_ H]. by apply Hs.
Qed.

Lemma sorted_peek k c w : wf c ->
  wp (TtlSorted.cache_peek k) (fun r s => s.1 = c /\ forall v, r = Some v -> holds c k v) (fun _ => False) (c, w).
Proof.
  intros HC. unfold TtlSorted.cache_peek. apply wp_bind, wp_gets. simpl.
  destruct (find_key k (map c)) as [[k0 e]|] eqn:E; [|by apply wp_ret].
  apply wp_bind, wp_bind, wp_now, wp_ret, wp_ret. split; [done|]. intros v Hv.
  destruct (is_expired_at e _); simplify_eq. by exists k0, e.
Qed.

#[global] Instance sorted_read_laws : CachedReadLaws C K V W.
Proof.
  split; intros k c w HC.
  - eapply wp_mono; [by apply sorted_peek| |done]. intros r s [-> H]. split; [by apply narrows_refl|exact H].
  - simpl. unfold TtlSorted.cache_get_read. apply wp_bind. eapply wp_mono; [by apply sorted_peek| |done].
    intros r [c' w'] [Ec H]. simpl in Ec. subst c'. destruct r as [v|]; apply wp_bind.
    + apply sorted_hit; [done|]. intros n Hn. apply wp_ret. split; [by apply sorted_narrows|exact H].
    + apply sorted_miss; [done|]. intros n Hn. apply wp_ret. split; [by apply sorted_narrows|done].
Qed.

#[global] Instance sorted_clone_laws : CloneCachedLaws C K V W.
Proof.
  split; intros k c w HC; simpl.
  - unfold TtlSorted.cache_get_with_expiry_status. apply wp_bind, wp_gets. simpl.
    destruct (find_key k (map c)) as [[k0 e]|] eqn:E.
    + apply wp_bind, wp_bind, wp_now, wp_ret. destruct (is_expired_at e _); apply wp_bind;
        (apply sorted_hit || apply sorted_miss); try done; intros n Hn; apply wp_ret;
        (split; [by apply sorted_narrows|]); intros ? [= <-]; by exists k0, e.
    + apply wp_bind, sorted_miss; [done|]. intros n Hn. apply wp_ret. split; [by apply sorted_narrows|done].
  - unfold TtlSorted.cache_peek_with_expiry_status. apply wp_bind, wp_gets. simpl.
    destruct (find_key k (map c)) as [[k0 e]|] eqn:E; [|apply wp_ret; split; [by apply narrows_refl|done]].
    apply wp_bind, wp_bind, wp_now, wp_ret, wp_ret. split; [by apply narrows_refl|]. intros ? [= <-]. by exists k0, e.
Qed.
End Sorted.

(** ** [LruCache] *)
Section Lru.
Context {K V W HT : Type} `{!KeyEq K, !KeyLaws K, !HashTable HT, !HashTableLaws HT}.
Context (try_reserve_exact : Z -> bool).
Notation C := (LruCache K V W HT).

#[global] Instance lru_cached : Cached C K V W := {|
  place := nat;
  read_place i c := match get (order c) i with Done e => Some e.2 | _ => None end;
  cache_get := Lru.cache_get;
  cache_get_mut := Lru.cache_get_mut;
  cache_set := Lru.cache_set;
  cache_get_or_set_with_mut := Lru.cache_get_or_set_with_mut;
  cache_try_get_or_set_with_mut E := Lru.cache_try_get_or_set_with_mut;
  cache_remove := Lru.cache_remove;
  cache_remove_entry := Lru.cache_remove_entry;
  cache_clear := Lru.cache_clear;
  cache_reset := Lru.cache_reset try_reserve_exact;
  cache_size := Lru.cache_size;
  cache_hits c := Some (Lru.hits c);
  cache_misses c := Some (Lru.misses c);
  cache_capacity := Lru.cache_capacity;
  cache_evictions c := Done (Some (Lru.evictions c)) |}.

#[global] Instance lru_view : StoreView C K V := {|
  consistent c := exists a, models c a;
  holds c k v := Lru.cache_peek c k = Done (Some v) |}.

Lemma lru_holds (c : C) a k v : models c a -> holds c k v <-> exists k0, find_key k (entries a) = Some (k0, v).
Proof.
  intros H. unfold holds. simpl. rewrite (peek_models c a k H).
  destruct (find_key k (entries a)) as [[k0 v0]|]; simpl; naive_solver.
Qed.

(** Keeping a prefix of distinct entries does not change what the kept keys have. *)
Lemma find_take_Some {A} n k (l : list (K * A)) p : distinct l -> find_key k (take n l) = Some p -> find_key k l = Some p.
Proof.
  intros D E. apply find_key_Some in E as [Hin Hk]. rewrite (find_key_cong k p.1 _ Hk).
  apply distinct_find; [done|]. rewrite <- (take_drop n l). mem.
Qed.

Lemma find_front {A} k k' (v : A) l p : distinct l -> find_key k' ((k, v) :: drop_key k l) = Some p ->
  (keq k k' = true /\ p.2 = v) \/ find_key k' l = Some p.
Proof.
  intros D. rewrite find_key_cons. simpl. rewrite keq_comm. destruct (keq k k') eqn:E.
  - intros [= <-]. by left.
  - rewrite find_key_drop, E by done. by right.
Qed.

Lemma distinct_front {A} k (v : A) l : distinct l -> distinct ((k, v) :: drop_key k l).
Proof.
  intros D. unfold drop_key. destruct (take_key k l) as [[e r]|] eqn:E.
  - destruct (take_key_distinct _ _ _ _ D E) as (_ & _ & D' & F & _). by split.
  - apply take_key_None in E. by split.
Qed.

Lemma adds_front {A} n k k' (v : A) l p : distinct l -> find_key k' (take n ((k, v) :: drop_key k l)) = Some p ->
  (keq k k' = true /\ p.2 = v) \/ find_key k' l = Some p.
Proof. intros D H. apply find_front; [done|]. by eapply find_take_Some; [apply distinct_front|]. Qed.

Lemma lru_adds (c c' : C) a a' k v n : models c a -> models c' a' ->
  entries a' = take n ((k, v) :: drop_key k (entries a)) -> adds k v c c'.
Proof.
  intros HM HM' E. split; [by exists a'|]. intros k' v'. rewrite (lru_holds _ _ _ _ HM), (lru_holds _ _ _ _ HM').
  intros (k0 & H). rewrite E in H. destruct (adds_front n k k' v _ _ (models_distinct _ _ HM) H); naive_solver.
Qed.

Lemma lru_narrows (c c' : C) a a' : models c a -> models c' a' ->
  (forall k, find_key k (entries a') = find_key k (entries a)) -> narrows c c'.
Proof.
  intros HM HM' E. split; [by exists a'|]. intros k v.
  rewrite (lru_holds _ _ _ _ HM), (lru_holds _ _ _ _ HM'). by rewrite E.
Qed.

#[global] Instance lru_laws : CachedLaws C K V W.
Proof.
  split.
  - intros k c w [a HM]. eapply wp_mono; [apply (lru_wp _ _
      (fun r s => (forall k', find_key k' (entries s.1) = find_key k' (entries a)) /\
         (forall v, r = Some v -> exists k0, find_key k (entries a) = Some (k0, v)))
      (fun s => False) _ _ _ (get_if_refines k _) HM)| |].
    + unfold s_get_if. apply wp_bind, wp_gets. simpl. pose proof (models_distinct _ _ HM) as D.
      unfold find_key at 3. destruct (take_key k (entries a)) as [[[k0 v0] r]|] eqn:E.
      * apply wp_bind, wp_run with true (a, w); [done|]. apply wp_bind, wp_modify. simpl.
        destruct (take_key_distinct _ _ _ _ D E) as (_ & Pm & _). apply wp_bind. unfold s_tracked. apply wp_bind, wp_gets. simpl.
        assert (forall k', find_key k' ((k0, v0) :: r) = find_key k' (entries a)) as Hf.
        { intros k'. symmetry. by apply find_key_perm. }
        destruct (vtrack a); [apply wp_modify|]; apply wp_ret; (split; [exact Hf|intros ? [= <-]; by exists k0]).
      * apply wp_bind. unfold s_tracked. apply wp_bind, wp_gets. simpl.
        destruct (vtrack a); [apply wp_modify|]; by apply wp_ret.
    + intros r s (a' & HM' & Hf & Hr). split; [by eapply lru_narrows|].
      intros v Hv. apply (lru_holds _ _ _ _ HM). by apply Hr.
    + by intros s (a' & _ & []).
  - intros k v c w [a HM]. eapply wp_mono; [apply (lru_wp _ _ _ _ _ _ _ (cache_set_spec k v) HM (s_cache_set_wp k v a w))| |].
    + intros r s (a' & HM' & _ & E). simpl in E. eapply lru_adds; [exact HM|exact HM'|]. by rewrite E.
    + intros s (a' & HM' & n & _ & E). simpl in E. eapply lru_adds; [exact HM|exact HM'|]. by rewrite E.
Qed.
End Lru.

(** ** [LruTtlCache] *)
Section LruTtl.
Context {K V W HT : Type} `{!KeyEq K, !KeyLaws K, !Clock W, !HashTable HT, !HashTableLaws HT}.
Context (try_reserve_exact : Z -> bool).
Notation C := (LruTtlCache K V W HT).

#[global] Instance lru_ttl_cached : Cached C K V W := {|
  place := nat;
  read_place i c := match get (order (LruTtl.store c)) i with Done e => Some (tvalue e.2) | _ => None end;
  cache_get := LruTtl.cache_get;
  cache_get_mut := LruTtl.cache_get_mut;
  cache_set := LruTtl.cache_set;
  cache_get_or_set_with_mut := LruTtl.cache_get_or_set_with_mut;
  cache_try_get_or_set_with_mut E := LruTtl.cache_try_get_or_set_with_mut;
  cache_remove := LruTtl.cache_remove;
  cache_remove_entry := LruTtl.cache_remove_entry;
  cache_clear := LruTtl.cache_clear;
  cache_reset := LruTtl.cache_reset try_reserve_exact;
  cache_size := LruTtl.cache_size;
  cache_hits c := Some (LruTtl.hits c);
  cache_misses c := Some (LruTtl.misses c);
  cache_capacity := LruTtl.cache_capacity;
  cache_evictions := LruTtl.cache_evictions |}.

#[global] Instance lru_ttl_clone : CloneCached C K V W := {|
  cache_get_with_expiry_status := LruTtl.cache_get_with_expiry_status;
  cache_peek_with_expiry_status := LruTtl.cache_peek_with_expiry_status |}.

#[global] Instance lru_ttl_view : StoreView C K V := {|
  consistent c := exists a, LruTtlProps.holds c a;
  holds c k v := exists e, Lru.cache_peek (LruTtl.store c) k = Done (Some e) /\ tvalue e = v |}.

Lemma lt_holds (c : C) a k v : LruTtlProps.holds c a ->
  holds c k v <-> exists k0 e, find_key k (entries a) = Some (k0, e) /\ tvalue e = v.
Proof.
  intros (H & _). unfold holds. simpl. rewrite (peek_models _ a k H).
  destruct (find_key k (entries a)) as [[k0 v0]|]; simpl; naive_solver.
Qed.

Lemma lt_narrows (c c' : C) a a' : LruTtlProps.holds c a -> LruTtlProps.holds c' a' ->
  (forall k k0 e, find_key k (entries a') = Some (k0, e) ->
     exists k1 e1, find_key k (entries a) = Some (k1, e1) /\ tvalue e1 = tvalue e) -> narrows c c'.
Proof.
  intros H H' Hf. split; [by exists a'|]. intros k v. rewrite (lt_holds _ _ _ _ H), (lt_holds _ _ _ _ H').
  intros (k0 & e & E & <-). destruct (Hf _ _ _ E) as (k1 & e1 & ? & ?). by exists k1, e1.
Qed.

(** A hit moves the entry to the front; its value stays. *)
Lemma lt_touched (c c' : C) a a' k stored e e' : LruTtlProps.holds c a -> LruTtlProps.holds c' a' ->
  find_key k (entries a) = Some (stored, e) -> tvalue e' = tvalue e ->
  entries a' = (stored, e') :: drop_key k (entries a) -> narrows c c'.
Proof.
  intros H H' E Ev Ea. eapply lt_narrows; [exact H|exact H'|]. intros k' k0 e0. rewrite Ea.
  assert (distinct (entries a)) as D by (eapply models_distinct, H).
  pose proof (find_key_Some _ _ _ E) as [_ Hk]. simpl in Hk.
  rewrite find_key_cons. simpl. rewrite keq_comm, <- (keq_cong k stored k' Hk). destruct (keq k k') eqn:Ek.
  - intros [= <- <-]. exists stored, e. split; [by rewrite <- (find_key_cong k k')|done].
  - rewrite find_key_drop, Ek by done. intros Hf. by exists k0, e0.
Qed.

Lemma lt_dropped (c c' : C) a a' k : LruTtlProps.holds c a -> LruTtlProps.holds c' a' ->
  entries a' = drop_key k (entries a) -> narrows c c'.
Proof.
  intros H H' Ea. eapply lt_narrows; [exact H|exact H'|]. intros k' k0 e0. rewrite Ea.
  rewrite find_key_drop by (eapply models_distinct, H). destruct (keq k k'); [done|]. intros Hf. by exists k0, e0.
Qed.

Lemma renewed_value (c : C) e t : tvalue (renewed c e t) = tvalue e.
Proof. unfold renewed. by destruct (LruTtl.refresh c). Qed.

Lemma lt_adds (c c' : C) a a' k v x n : LruTtlProps.holds c a -> LruTtlProps.holds c' a' ->
  entries a' = take n ((k, mkTimed x v) :: drop_key k (entries a)) -> adds k v c c'.
Proof.
  intros H H' E. split; [by exists a'|]. intros k' v'. rewrite (lt_holds _ _ _ _ H), (lt_holds _ _ _ _ H').
  assert (distinct (entries a)) as D by (eapply models_distinct, H).
  intros (k0 & e & Hf & <-). rewrite E in Hf.
  destruct (adds_front n k k' _ _ _ D Hf) as [[? Hv]|Hv]; [left; simpl in Hv; by subst|right; by exists k0, e].
Qed.

#[global] Instance lru_ttl_laws : CachedLaws C K V W.
Proof.
  split.
  - intros k c w [a H]. destruct (clock_now w) as [t w1] eqn:Et. pose proof (lt_get_run k c a w t w1 H Et) as Hg.
    unfold wp. simpl. destruct (find_key k (entries a)) as [[stored e]|] eqn:E.
    + destruct (entry_live_at (expires_at e) t); destruct Hg as (s & Eg & H'); rewrite Eg.
      * split; [eapply (lt_touched c _ a _ k stored e); [done|exact H'|done|apply renewed_value|done]|].
        intros v [= <-]. apply (lt_holds _ _ _ _ H). by exists stored, e.
      * assert (narrows c (LruTtl.with_store s (counted 1 (missed c)))) as Hn
          by (eapply (lt_dropped c _ a _ k); [done|exact H'|done]).
        unfold LruTtlProps.told. destruct (LruTtl.on_evict c) as [f|]; [destruct (f stored (tvalue e) w1) as [[[]|] ?]|]; done.
    + destruct Hg as [-> H']. split; [|done]. eapply lt_narrows; [exact H|exact H'|]. intros k' k0 e Hf. by exists k0, e.
  - intros k v c w [a H]. destruct (clock_now w) as [t w1] eqn:Et.
    eapply wp_mono; [apply (lt_set_wp k v c a w t w1 H Et)| |]; simpl.
    + intros r s (_ & _ & H'). by eapply lt_adds.
    + intros s (n & _ & H'). by eapply lt_adds.
Qed.

#[global] Instance lru_ttl_clone_laws : CloneCachedLaws C K V W.
Proof.
  split; intros k c w [a H].
  - simpl. unfold LruTtl.cache_get_with_expiry_status. pose proof H as (HM & H1 & H2).
    destruct (lookup c a k HM) as [(xs & i & stored & e & ys & fre & HA & Ei & Ef & Ed)|[Ef Ei]].
    + apply wp_bind, wp_gets. apply wp_bind. simpl. eapply wp_of_outcome; [exact Ei|].
      apply wp_bind, wp_now. apply wp_bind. simpl. eapply wp_of_outcome; [exact (slot_get _ _ _ _ _ _ _ HA)|]. simpl.
      assert (forall v, Some (tvalue e) = Some v -> holds c k v) as Hv.
      { intros v [= <-]. apply (lt_holds _ _ _ _ H). by exists stored, e. }
      destruct (entry_live_at (expires_at e) _).
      * destruct (touch_run c a xs i stored e ys fre (clock_now w).2 (clock_now w).1 HA) as (s & Et & HA1).
        apply wp_bind. eapply wp_run; [exact Et|]. apply wp_bind, wp_gets. apply wp_bind. simpl.
        eapply wp_of_outcome; [exact (slot_get_front _ _ _ _ _ _ HA1)|]. apply wp_ret. simpl. rewrite renewed_value.
        split; [|exact Hv]. eapply (lt_touched c _ a _ k stored e (renewed c e (clock_now w).1)); [done| |done|apply renewed_value|].
        -- split; [by eapply models_intro|done].
        -- simpl. by rewrite Ed.
      * apply wp_bind, wp_modify. apply wp_bind. simpl. eapply wp_of_outcome; [exact (slot_get _ _ _ _ _ _ _ HA)|].
        apply wp_ret. split; [|exact Hv]. eapply lt_narrows; [exact H|exact H|]. intros k' k0 e0 Hf. by exists k0, e0.
    + apply wp_bind, wp_gets. apply wp_bind. simpl. eapply wp_of_outcome; [exact Ei|]. apply wp_bind, wp_modify, wp_ret.
      split; [|done]. eapply lt_narrows; [exact H|exact H|]. intros k' k0 e0 Hf. by exists k0, e0.
  - simpl. unfold LruTtl.cache_peek_with_expiry_status. apply wp_bind, wp_gets. apply wp_bind. simpl.
    eapply wp_of_outcome; [apply (peek_models _ a k), H|].
    assert (narrows c c) as Hn by (apply narrows_refl; by exists a).
    destruct (find_key k (entries a)) as [[stored e]|] eqn:E; simpl; [|by apply wp_ret].
    assert (forall v, Some (tvalue e) = Some v -> holds c k v) as Hv.
    { intros v [= <-]. apply (lt_holds _ _ _ _ H). by exists stored, e. }
    apply wp_bind. unfold LruTtl.entry_live. destruct (expires_at e); [apply wp_bind, wp_now|]; by apply wp_ret, wp_ret.
Qed.
End LruTtl.

(** ** The self-expiring stores, whatever their values' [is_expired] does *)
From S2P Require Import LruList HashTable Lru LruSpec LruRefine Expiring ExpiringLru ExpiringLruProps Cached.

(** ** [ExpiringCache] *)
Section Expiring.
Context {K V W : Type} `{!KeyEq K, !KeyLaws K, !Expires V W}.
Notation C := (ExpiringCache K V W).
Implicit Types (c : C).

#[global] Instance expiring_cached : Cached C K V W := {|
  place := K;
  read_place k c := snd <$> find_key k (Expiring.store c);
  cache_get := Expiring.cache_get;
  cache_get_mut := Expiring.cache_get_mut;
  cache_set := Expiring.cache_set;
  cache_get_or_set_with_mut := Expiring.cache_get_or_set_with_mut;
  cache_try_get_or_set_with_mut E := Expiring.cache_try_get_or_set_with_mut;
  cache_remove := Expiring.cache_remove;
  cache_remove_entry := Expiring.cache_remove_entry;
  cache_clear := Expiring.cache_clear;
  cache_reset := Expiring.cache_reset;
  cache_size := Expiring.cache_size;
  cache_hits c := Some (Expiring.hits c);
  cache_misses c := Some (Expiring.misses c);
  cache_capacity _ := None;
  cache_evictions c := Done (Some (Expiring.evictions c)) |}.

#[global] Instance expiring_clone : CloneCached C K V W := {|
  cache_get_with_expiry_status := Expiring.cache_get_with_expiry_status;
  cache_peek_with_expiry_status := Expiring.cache_peek_with_expiry_status |}.

#[global] Instance expiring_view : StoreView C K V := {|
  consistent := Expiring.wf;
  holds c k v := exists k0, find_key k (Expiring.store c) = Some (k0, v) |}.

Lemma expiring_same c c' : Expiring.wf c -> Expiring.store c' = Expiring.store c -> narrows c c'.
Proof. intros D E. split; unfold consistent, holds; simpl; unfold Expiring.wf; by rewrite E. Qed.

Lemma expiring_dropped c c' k : Expiring.wf c -> Expiring.store c' = drop_key k (Expiring.store c) -> narrows c c'.
Proof.
  intros D E. split; unfold consistent, holds; simpl; [unfold Expiring.wf|]; rewrite E.
  - unfold drop_key. destruct (take_key k (Expiring.store c)) as [[? ?]|] eqn:E2; [|done].
    exact (distinct_drop_key _ _ _ _ D E2).
  - intros k' v (k1 & H). rewrite find_key_drop in H by done. destruct (keq k k'); [done|by exists k1].
Qed.

Lemma expiring_over c c' k v e : Expiring.wf c -> find_key k (Expiring.store c) = Some e ->
  Expiring.store c' = hm_update k v (Expiring.store c) -> adds k v c c'.
Proof.
  intros D Ef E. split; unfold consistent, holds; simpl; [unfold Expiring.wf|]; rewrite E; [by apply distinct_update|].
  intros k' v' (k1 & H). rewrite (find_key_update k v _ _ D Ef) in H.
  destruct (keq k k'); [left; by simplify_eq|right; by exists k1].
Qed.

Lemma expiring_told c c' k v (Q : unit -> C * W -> Prop) U w :
  (forall w', Q tt (c', w')) -> (forall w', U (c', w')) -> wp (Expiring.notify k v) Q U (c', w).
Proof. intros HQ HU. unfold Expiring.notify. apply wp_bind, wp_gets. apply (wp_callback True); auto. Qed.

#[global] Instance expiring_laws : CachedLaws C K V W.
Proof.
  split.
  - intros k c w D. unfold cache_get, wp. simpl. rewrite expiring_get_run.
    destruct (find_key k (Expiring.store c)) as [[k0 v]|] eqn:E; [|split; [by apply expiring_same|done]].
    destruct (Stores.is_expired v w) as [[[]|] w1]; [| |by apply expiring_same].
    + assert (narrows c (swept (drop_key k (Expiring.store c)) (missed c))) as Hn by (by eapply expiring_dropped).
      unfold told. destruct (Expiring.on_evict c) as [g|]; [by destruct (g k0 v w1) as [[]]|done].
    + split; [by apply expiring_same|]. intros ? [= <-]. by exists k0.
  - intros k v c w D. unfold cache_set. simpl. unfold Expiring.cache_set. apply wp_bind, wp_gets. simpl.
    destruct (find_key k (Expiring.store c)) as [[k0 old]|] eqn:E.
    + apply wp_bind, wp_modify. simpl. apply wp_bind, wp_user; intros; [|by eapply expiring_over].
      destruct a; [|by apply wp_ret; eapply expiring_over].
      apply wp_bind, wp_modify. simpl. apply wp_bind, (expiring_told c); intros; [apply wp_ret|]; by eapply expiring_over.
    + apply wp_bind, wp_modify, wp_ret. simpl. apply find_fresh in E. split; [by apply distinct_snoc|].
      intros k' v' (k1 & H). simpl in H. rewrite find_key_snoc in H by done.
      destruct (keq k k'); [left; by simplify_eq|right; by exists k1].
Qed.

#[global] Instance expiring_clone_laws : CloneCachedLaws C K V W.
Proof.
  split; intros k c w D; simpl.
  - unfold Expiring.cache_get_with_expiry_status. apply wp_bind, wp_gets. simpl.
    destruct (find_key k (Expiring.store c)) as [[k0 v]|] eqn:E.
    + apply wp_bind, wp_user; intros; [|by apply expiring_same].
      destruct a; (apply wp_bind, wp_modify, wp_ret; split; [by apply expiring_same|]; intros ? [= <-]; by exists k0).
    + apply wp_bind, wp_modify, wp_ret. split; [by apply expiring_same|done].
  - unfold Expiring.cache_peek_with_expiry_status. apply wp_bind, wp_gets. simpl.
    destruct (find_key k (Expiring.store c)) as [[k0 v]|] eqn:E.
    + apply wp_bind, wp_user; intros; [|by apply expiring_same].
      apply wp_ret. split; [by apply expiring_same|]. intros ? [= <-]. by exists k0.
    + apply wp_ret. split; [by apply expiring_same|done].
Qed.
End Expiring.

(** ** [ExpiringLruCache] *)
Section ExpiringLru.
Context {K V W HT : Type} `{!KeyEq K, !KeyLaws K, !Expires V W, !HashTable HT, !HashTableLaws HT}.
Context (try_reserve_exact : Z -> bool).
Notation C := (ExpiringLruCache K V W HT).
Implicit Types (c : C) (a : EView K V W).

#[global] Instance expiring_lru_cached : Cached C K V W := {|
  place := nat;
  read_place i c := match get (order (ExpiringLru.store c)) i with Done e => Some e.2 | _ => None end;
  cache_get := ExpiringLru.cache_get;
  cache_get_mut := ExpiringLru.cache_get_mut;
  cache_set := ExpiringLru.cache_set;
  cache_get_or_set_with_mut := ExpiringLru.cache_get_or_set_with_mut;
  cache_try_get_or_set_with_mut E := ExpiringLru.cache_try_get_or_set_with_mut;
  cache_remove := ExpiringLru.cache_remove;
  cache_remove_entry := ExpiringLru.cache_remove_entry;
  cache_clear := ExpiringLru.cache_clear;
  cache_reset := ExpiringLru.cache_reset try_reserve_exact;
  cache_size := ExpiringLru.cache_size;
  cache_hits c := Some (ExpiringLru.hits c);
  cache_misses c := Some (ExpiringLru.misses c);
  cache_capacity := ExpiringLru.cache_capacity;
  cache_evictions := ExpiringLru.cache_evictions |}.

#[global] Instance expiring_lru_clone : CloneCached C K V W := {|
  cache_get_with_expiry_status := ExpiringLru.cache_get_with_expiry_status;
  cache_peek_with_expiry_status := ExpiringLru.cache_peek_with_expiry_status |}.

#[global] Instance expiring_lru_view : StoreView C K V := {|
  consistent c := exists a, ExpiringLruProps.holds c a;
  holds c k v := Lru.cache_peek (ExpiringLru.store c) k = Done (Some v) |}.

Lemma el_holds c a k v : ExpiringLruProps.holds c a ->
  holds c k v <-> snd <$> find_key k (entries (eview a)) = Some v.
Proof. intros (H & _). unfold holds. simpl. rewrite (peek_models _ _ k H). split; congruence. Qed.

(** What the abstract store makes of its entries decides what the store does. *)
Definition keeps_entries (P : list (K * V) -> Prop) (s : EView K V W * W) : Prop := P (entries (eview s.1)).

Lemma el_narrows c c' a a' : ExpiringLruProps.holds c a -> ExpiringLruProps.holds c' a' ->
  (forall e, e ∈ entries (eview a') -> e ∈ entries (eview a)) -> narrows c c'.
Proof.
  intros H H' Hin. split; [by exists a'|]. intros k v. rewrite (el_holds _ _ _ _ H), (el_holds _ _ _ _ H').
  destruct (find_key k (entries (eview a'))) as [e|] eqn:E; [|done]. intros [= <-].
  apply find_key_Some in E as [He Hk]. apply Hin in He.
  by rewrite (find_key_cong k e.1 _ Hk), (distinct_find _ e (models_distinct _ _ (proj1 H)) He).
Qed.

Lemma el_adds c c' a a' k v : ExpiringLruProps.holds c a -> ExpiringLruProps.holds c' a' ->
  (forall e, e ∈ entries (eview a') -> e = (k, v) \/ e ∈ entries (eview a)) -> adds k v c c'.
Proof.
  intros H H' Hin. split; [by exists a'|]. intros k' v'. rewrite (el_holds _ _ _ _ H), (el_holds _ _ _ _ H').
  destruct (find_key k' (entries (eview a'))) as [e|] eqn:E; [|done]. intros [= <-].
  apply find_key_Some in E as [He Hk]. apply Hin in He as [->|He]; [left; by rewrite keq_comm|right].
  by rewrite (find_key_cong k' e.1 _ Hk), (distinct_find _ e (models_distinct _ _ (proj1 H)) He).
Qed.

(** From a run of the abstract store to the contract. *)
Lemma el_reads {A B} (f : B -> option V) (g : A -> B) k (m : ExpiringLru.Op K V W HT B) (sm : ESpec K V W B) c a w :
  ExpiringLruProps.holds c a -> refines ERel m sm ->
  wp sm (fun r s => keeps_entries (fun l => forall e, e ∈ l -> e ∈ entries (eview a)) s /\
           forall v, f r = Some v -> snd <$> find_key k (entries (eview a)) = Some v)
    (keeps_entries (fun l => forall e, e ∈ l -> e ∈ entries (eview a))) (a, w) ->
  wp m (fun r s => narrows c s.1 /\ forall v, f r = Some v -> holds c k v) (fun s => narrows c s.1) (c, w).
Proof.
  intros H HR Hw. eapply wp_mono; [exact (agree_wp _ _ _ _ _ _ _ (HR (c, w) (a, w) (conj eq_refl H)) Hw)| |].
  - intros r s ([a' w'] & [_ H'] & Hk & Hv). split; [by eapply el_narrows|].
    intros v Ev. apply (el_holds _ _ _ _ H). by apply Hv.
  - intros s ([a' w'] & [_ H'] & Hk). by eapply el_narrows.
Qed.

Lemma take_key_incl (k : K) (l : list (K * V)) e r : take_key k l = Some (e, r) ->
  find_key k l = Some e /\ (forall x, x ∈ e :: r -> x ∈ l).
Proof.
  intros E. split; [unfold find_key; by rewrite E|]. apply take_key_Some in E as (xs & ys & -> & -> & _).
  intros x. rewrite elem_of_cons, !elem_of_app, elem_of_cons. tauto.
Qed.

Lemma wp_e_notify k v a w (Q : unit -> EView K V W * W -> Prop) U :
  (forall w', Q tt (a, w')) -> (forall w', U (a, w')) -> wp (e_notify k v) Q U (a, w).
Proof. intros HQ HU. unfold e_notify. apply wp_bind, wp_gets. apply (wp_callback True); auto. Qed.

Lemma wp_e_inner {A} (m : Spec K V W W A) a w (Q : A -> EView K V W * W -> Prop) U :
  wp m (fun r s => Q r (put_view s.1 a, s.2)) (fun s => U (put_view s.1 a, s.2)) (eview a, w) ->
  wp (e_inner m) Q U (a, w).
Proof. intros H. unfold e_inner. apply wp_zoom. exact H. Qed.

#[global] Instance expiring_lru_laws : CachedLaws C K V W.
Proof.
  split.
  - intros k c w [a H]. simpl. eapply (el_reads id id); [exact H|apply e_get_refines|].
    unfold e_get. apply wp_bind, wp_gets. simpl. destruct (take_key k (entries (eview a))) as [[e r]|] eqn:Et.
    + destruct (take_key_incl _ _ _ _ Et) as [Ef Hin].
      apply wp_bind, wp_user; intros; [|by unfold keeps_entries]. destruct a0.
      * apply wp_bind, wp_modify, wp_bind, wp_e_inner, wp_modify, wp_bind, wp_modify, wp_bind, wp_e_notify; intros.
        -- apply wp_ret. split; [|done]. intros x Hx. apply Hin. by right.
        -- intros x Hx. apply Hin. by right.
      * apply wp_bind, wp_e_inner, wp_modify, wp_bind, wp_modify, wp_ret. split; [exact Hin|].
        unfold id. intros v [= <-]. by rewrite Ef.
    + apply wp_bind, wp_modify, wp_ret. split; [by unfold keeps_entries|done].
  - intros k v c w [a H]. simpl.
    assert (forall l a', l `sublist_of` (k, v) :: drop_key k (entries (eview a)) -> entries (eview a') = l ->
      forall x, x ∈ entries (eview a') -> x = (k, v) \/ x ∈ entries (eview a)) as Hin.
    { intros l a' Hs -> x Hx. eapply elem_of_sublist in Hx; [|exact Hs].
      apply elem_of_cons in Hx as [->|Hx]; [by left|right]. unfold drop_key in Hx.
      destruct (take_key k (entries (eview a))) as [[e r]|] eqn:Et; [|done].
      apply (take_key_incl _ _ _ _ Et). by right. }
    assert (wp (e_put k v)
      (fun _ s => forall x, x ∈ entries (eview s.1) -> x = (k, v) \/ x ∈ entries (eview a))
      (fun s => forall x, x ∈ entries (eview s.1) -> x = (k, v) \/ x ∈ entries (eview a)) (a, w)) as Hw.
    { unfold e_put. apply wp_bind, wp_e_inner. eapply wp_mono; [apply s_put_wp| |]; simpl.
      - intros r [a1 w1] [-> Ea]. simpl in Ea.
        assert (forall x, x ∈ entries (eview (put_view a1 a)) -> x = (k, v) \/ x ∈ entries (eview a)) as Hx.
        { eapply Hin; [|simpl; by rewrite Ea]. simpl. apply sublist_take. }
        destruct (find_key k (entries (eview a))) as [[s old]|]; [|by apply wp_ret].
        apply wp_bind, wp_user; [intros [] w2 _|intros w2 _; exact Hx]; [|by apply wp_ret].
        apply wp_bind, wp_modify, wp_bind, wp_e_notify; intros w3; [apply wp_ret|]; exact Hx.
      - intros [a1 w1] (n & _ & Ea). simpl in Ea. apply (Hin (take n ((k, v) :: drop_key k (entries (eview a)))) (put_view a1 a)); [apply sublist_take|].
        simpl. by rewrite Ea. }
    eapply wp_mono; [exact (agree_wp _ _ _ _ _ _ _ (put_refines k v (c, w) (a, w) (conj eq_refl H)) Hw)| |].
    + intros r s ([a' w'] & [_ H'] & Hx). by eapply el_adds.
    + intros s ([a' w'] & [_ H'] & Hx). by eapply el_adds.
Qed.

#[global] Instance expiring_lru_clone_laws : CloneCachedLaws C K V W.
Proof.
  split; intros k c w [a H]; simpl.
  - eapply (el_reads fst id); [exact H|apply get_status_refines|].
    unfold e_get_status. apply wp_bind, wp_gets. simpl. destruct (take_key k (entries (eview a))) as [[e r]|] eqn:Et.
    + destruct (take_key_incl _ _ _ _ Et) as [Ef Hin]. apply wp_bind, wp_user; intros; [|by unfold keeps_entries]. destruct a0.
      * apply wp_bind, wp_modify, wp_ret. split; [by unfold keeps_entries|]. intros v [= <-]. by rewrite Ef.
      * apply wp_bind, wp_e_inner, wp_modify, wp_bind, wp_modify, wp_ret. split; [exact Hin|].
        intros v [= <-]. by rewrite Ef.
    + apply wp_bind, wp_modify, wp_ret. split; [by unfold keeps_entries|done].
  - eapply (el_reads fst id); [exact H|apply peek_status_refines|].
    unfold e_peek. apply wp_bind, wp_gets. simpl. destruct (find_key k (entries (eview a))) as [[k0 v]|] eqn:Ef.
    + apply wp_bind, wp_user; intros; [|by unfold keeps_entries]. apply wp_ret. split; [by unfold keeps_entries|].
      intros ? [= <-]. done.
    + apply wp_ret. split; [by unfold keeps_entries|done].
Qed.
End ExpiringLru.
