(* ===== verification/GetOrSet.v ===== *)
(** * Get-or-set, blocking and async, of the single-owner stores

    Each store's [CachedGetOrSetAsync] ([src/stores/*.rs]), and the contract of get-or-set of [Cached.v],
    which all of them keep; so memoizing by hand over any of them is correct. *)
From S2P Require Import Prelude Keys Stores BTree LruList HashTable Lru LruSpec LruRefine Ttl LruTtl LruTtlProps TtlSorted TtlSortedProps Unbound Cached Instances.

(** The cases of a get-or-set, run forwards. *)
Ltac step_user := apply wp_bind, wp_user; [intros ? ? ?|intros ? ?].

Section Runs.
Context {C K V W : Type} `{!Cached C K V W, !StoreView C K V, !KeyEq K}.

(** Get-or-set gives back an entry that is there. *)
Lemma has_kept k P (c c' : C) p v : narrows c c' -> read_place p c' = Some v -> holds c k v -> has k P c p c'.
Proof. intros Hn Hp Hv. split; [by apply narrows_grows|]. exists v. auto. Qed.

(** It has made an entry. *)
Lemma has_made k (P : V -> Prop) (c c' : C) p v : P v -> adds k v c c' -> read_place p c' = Some v -> has k P c p c'.
Proof. intros HP Ha Hp. split; [by eapply adds_grows|]. exists v. auto. Qed.
End Runs.

(** ** [UnboundCache] *)
Section Unbound.
Context {K V W : Type} `{!KeyEq K, !KeyLaws K, !Threads W}.
Notation C := (UnboundCache K V W).
Implicit Types (c : C).

#[global] Instance unbound_async_cached : CachedGetOrSetAsync C K V W := {|
  async_cache_get_or_set_with_mut := Unbound.async_cache_get_or_set_with_mut;
  async_cache_try_get_or_set_with_mut E := Unbound.async_cache_try_get_or_set_with_mut |}.

Lemma unbound_counted (m : Unbound.Op K V W unit) c w (Q : unit -> C * W -> Prop) U :
  m = Unbound.count_hit \/ m = Unbound.count_miss -> consistent c ->
  (forall c', consistent c' -> Unbound.store c' = Unbound.store c -> Q tt (c', w)) -> wp m Q U (c, w).
Proof.
  intros Hm (D & Hh & Hs) HQ. destruct Hm as [-> | ->]; apply wp_bind, wp_gets; simpl; apply wp_bind.
  - destruct (StripedCounter.increment_mut_run _ Hh) as (t & Et & Ht & _).
    eapply wp_of_outcome; [exact Et|]. apply wp_modify. by apply HQ.
  - destruct (StripedCounter.increment_mut_run _ Hs) as (t & Et & Ht & _).
    eapply wp_of_outcome; [exact Et|]. apply wp_modify. by apply HQ.
Qed.

Lemma unbound_narrows c c' : consistent c' -> Unbound.store c' = Unbound.store c -> narrows c c'.
Proof. intros Hc E. split; [done|]. intros k v. unfold holds. simpl. by rewrite E. Qed.

Lemma unbound_inserts c c' k v w (Q : K -> C * W -> Prop) U : consistent c' -> Unbound.store c' = Unbound.store c ->
  find_key k (Unbound.store c) = None ->
  (forall c'', adds k v c c'' -> snd <$> find_key k (Unbound.store c'') = Some v -> Q k (c'', w)) -> wp (Unbound.vacant_insert k v) Q U (c', w).
Proof.
  intros (D & Hh & Hm) E Ef%find_fresh HQ. rewrite E in D. apply wp_bind, wp_modify, wp_ret. simpl. rewrite E. apply HQ.
  - split; [split; [by apply distinct_snoc|done]|]. intros k' v' (k1 & H). simpl in H. rewrite find_key_snoc in H by done.
    destruct (keq k k'); [left; by simplify_eq|right; by exists k1].
  - simpl. rewrite find_key_snoc by done. by rewrite keq_refl.
Qed.

Lemma unbound_computes k f : computes k (may_return f) (Unbound.cache_get_or_set_with_mut (V := V) (W := W) k f).
Proof.
  intros c w Hc. unfold Unbound.cache_get_or_set_with_mut. apply wp_bind, wp_gets. simpl.
  destruct (find_key k (Unbound.store c)) as [[k0 v]|] eqn:E; apply wp_bind.
  - eapply unbound_counted; [by left|done|]. intros c' Hc' Es. apply wp_ret.
    apply (has_kept _ _ _ _ _ v); [by apply unbound_narrows|simpl; by rewrite Es, E|by exists k0].
  - eapply unbound_counted; [by right|done|]. intros c' Hc' Es. step_user.
    + eapply unbound_inserts; [done..|]. intros c'' Ha Hr. eapply has_made; [|exact Ha|exact Hr]. by eexists _, _.
    + by apply narrows_grows, unbound_narrows.
Qed.

Lemma unbound_tries {E} k (f : User W (result E V)) :
  tries k (may_return f) (Unbound.cache_try_get_or_set_with_mut (V := V) (W := W) k f).
Proof.
  intros c w Hc. unfold Unbound.cache_try_get_or_set_with_mut. apply wp_bind, wp_gets. simpl.
  destruct (find_key k (Unbound.store c)) as [[k0 v]|] eqn:Ef; apply wp_bind.
  - eapply unbound_counted; [by left|done|]. intros c' Hc' Es. apply wp_ret.
    apply (has_kept _ _ _ _ _ v); [by apply unbound_narrows|simpl; by rewrite Es, Ef|by exists k0].
  - eapply unbound_counted; [by right|done|]. intros c' Hc' Es. step_user; [|by apply narrows_grows, unbound_narrows].
    destruct a as [v|e].
    + apply wp_bind. eapply unbound_inserts; [done..|]. intros c'' Ha Hr. apply wp_ret. eapply has_made; [|exact Ha|exact Hr]. by eexists _, _.
    + apply wp_ret. split; [by apply unbound_narrows|]. by eexists _, _.
Qed.

#[global] Instance unbound_get_or_set : GetOrSetLaws C K V W.
Proof. split; intros; apply unbound_computes || apply unbound_tries. Qed.
End Unbound.

(** ** [HashMap] *)
Section HashMap.
Context {K V W : Type} `{!KeyEq K, !KeyLaws K}.
Notation C := (list (K * V)).

#[global] Instance map_async_cached : CachedGetOrSetAsync C K V W := {|
  async_cache_get_or_set_with_mut := MapCached.async_cache_get_or_set_with_mut;
  async_cache_try_get_or_set_with_mut E := MapCached.async_cache_try_get_or_set_with_mut |}.

Lemma map_made k (P : V -> Prop) (m : C) v : P v -> distinct m -> find_key k m = None ->
  has (C := C) (W := W) k P m k (m ++ [(k, v)]).
Proof.
  intros HP D E. eapply has_made; [exact HP|by apply map_snoc|]. simpl. rewrite find_key_snoc by (done || by apply find_fresh).
  by rewrite keq_refl.
Qed.

Lemma map_kept k (P : V -> Prop) (m : C) k0 v : distinct m -> find_key k m = Some (k0, v) -> has (C := C) (W := W) k P m k m.
Proof. intros D E. apply (has_kept _ _ _ _ _ v); [by apply narrows_refl|simpl; by rewrite E|by exists k0]. Qed.

Lemma map_computes k f : computes k (may_return f) (MapCached.cache_get_or_set_with_mut (V := V) (W := W) k f).
Proof.
  intros m w D. unfold MapCached.cache_get_or_set_with_mut. apply wp_bind, wp_gets. simpl.
  destruct (find_key k m) as [[k0 v]|] eqn:E; [apply wp_ret; by eapply map_kept|].
  step_user; [|by apply narrows_grows, narrows_refl]. apply wp_bind, wp_modify, wp_ret. apply map_made; [by eexists _, _|done|done].
Qed.

Lemma map_tries {E} k (f : User W (result E V)) :
  tries k (may_return f) (MapCached.cache_try_get_or_set_with_mut (V := V) (W := W) k f).
Proof.
  intros m w D. unfold MapCached.cache_try_get_or_set_with_mut. apply wp_bind, wp_gets. simpl.
  destruct (find_key k m) as [[k0 v]|] eqn:Ef; [apply wp_ret; by eapply map_kept|].
  step_user; [|by apply narrows_grows, narrows_refl]. destruct a as [v|e].
  - apply wp_bind, wp_modify, wp_ret. apply map_made; [by eexists _, _|done|done].
  - apply wp_ret. split; [by apply narrows_refl|by eexists _, _].
Qed.

#[global] Instance map_get_or_set : GetOrSetLaws C K V W.
Proof. split; intros; apply map_computes || apply map_tries. Qed.
End HashMap.

(** ** [TtlCache] *)
Section Ttl.
Context {K V W : Type} `{!KeyEq K, !KeyLaws K, !Clock W}.
Notation C := (TtlCache K V W).
Implicit Types (c : C).

#[global] Instance ttl_async_cached : CachedGetOrSetAsync C K V W := {|
  async_cache_get_or_set_with_mut := Ttl.async_cache_get_or_set_with_mut;
  async_cache_try_get_or_set_with_mut E := Ttl.async_cache_try_get_or_set_with_mut |}.

(** A live entry: it may be refreshed, and the hit is counted. *)
Lemma ttl_live c k k0 e n w {A} (r : A) (P : V -> Prop) (Q : A -> C * W -> Prop) U : Ttl.wf c -> find_key k (Ttl.store c) = Some (k0, e) ->
  (forall c', has k P c k c' -> Q r (c', w)) -> wp (Ttl.refresh_entry k e n ;; Ttl.count_hit ;; ret r) Q U (c, w).
Proof.
  intros D E HQ. assert (holds c k (tvalue e)) as Hh by (by exists k0, e).
  apply wp_bind. unfold Ttl.refresh_entry. apply wp_bind, wp_gets. simpl.
  destruct (Ttl.refresh c); [apply wp_modify|apply wp_ret]; apply wp_bind, wp_modify, wp_ret; apply HQ;
    (apply (has_kept _ _ _ _ _ (tvalue e)); [|simpl|done]).
  - by eapply ttl_renewed.
  - by rewrite (find_key_update k _ _ _ D E), keq_refl.
  - by apply ttl_same.
  - by rewrite E.
Qed.

(** The factory's value replaces an expired entry. *)
Lemma ttl_replaces c c' k k0 e v w {A} (r : A) (P : V -> Prop) (Q : A -> C * W -> Prop) U : Ttl.wf c -> Ttl.store c' = Ttl.store c ->
  find_key k (Ttl.store c) = Some (k0, e) -> P v ->
  (forall c'' w, has k P c k c'' -> Q r (c'', w)) -> (forall c'' w, grows k P c c'' -> U (c'', w)) ->
  wp (let! n := now in Ttl.map_update k (mkTimed (Stores.compute_expires_at (Ttl.ttl c) n) v) ;; Ttl.count_evictions 1 ;;
      Ttl.notify k0 (tvalue e) ;; ret r) Q U (c', w).
Proof.
  intros D Es E HP HQ HU. apply wp_bind, wp_now. apply wp_bind, wp_modify. apply wp_bind, wp_modify. apply wp_bind. simpl.
  set (x := mkTimed _ v). match goal with |- wp _ _ _ (?d, _) => set (c2 := d) end.
  assert (Ttl.store c2 = hm_update k x (Ttl.store c)) as E2 by (simpl; by rewrite Es).
  assert (adds k v c c2) as Ha.
  { split; [simpl; unfold Ttl.wf; rewrite E2; by apply distinct_update|]. intros k' v' (k1 & e1 & H & Hv).
    rewrite E2, (find_key_update k x _ _ D E) in H. destruct (keq k k'); [left; by simplify_eq/=|right; by exists k1, e1]. }
  unfold Ttl.notify. apply wp_bind, wp_gets. apply (wp_callback True); [by left|intros w'|intros w' _].
  - apply wp_ret, HQ. eapply has_made; [done|exact Ha|]. simpl. rewrite Es, (find_key_update k x _ _ D E), keq_refl. done.
  - apply HU. by eapply adds_grows.
Qed.

Lemma ttl_pushes c c' k v w {A} (r : A) (P : V -> Prop) (Q : A -> C * W -> Prop) U : Ttl.wf c -> Ttl.store c' = Ttl.store c ->
  find_key k (Ttl.store c) = None -> P v -> (forall c'' w, has k P c k c'' -> Q r (c'', w)) ->
  wp (let! n := now in Ttl.map_push k (mkTimed (Stores.compute_expires_at (Ttl.ttl c) n) v) ;; ret r) Q U (c', w).
Proof.
  intros D Es E%find_fresh HP HQ. apply wp_bind, wp_now. apply wp_bind, wp_modify, wp_ret. apply HQ.
  eapply has_made; [done|split; [simpl; unfold Ttl.wf; simpl; rewrite Es; by apply distinct_snoc|]|].
  - intros k' v' (k1 & e1 & H & Hv). simpl in H. rewrite Es, find_key_snoc in H by done.
    destruct (keq k k'); [left; by simplify_eq/=|right; by exists k1, e1].
  - simpl. by rewrite Es, find_key_snoc, keq_refl by done.
Qed.

(** The four methods. *)
Ltac ttl_entries D :=
  repeat match goal with
  | a : result _ _ |- _ => destruct a
  | |- wp (if entry_live_at ?x ?n then _ else _) _ _ _ => destruct (entry_live_at x n)
  | |- wp (ret _) _ _ _ => apply wp_ret
  | |- wp (bind (Ttl.refresh_entry _ _ _) _) _ _ _ => eapply ttl_live; [exact D|eassumption|done]
  | |- wp (bind Ttl.count_miss _) _ _ _ => apply wp_bind, wp_modify; simpl
  | |- wp (bind (user _) _) _ _ _ => step_user; [|by apply narrows_grows, ttl_same]
  | |- narrows _ _ /\ _ => split; [by apply ttl_same|by eexists _, _]
  end;
  (eapply ttl_replaces || eapply ttl_pushes); [exact D|done|eassumption|..]; swap 1 2; first [done|by eexists _, _].

Lemma ttl_computes k f : computes k (may_return f) (Ttl.cache_get_or_set_with_mut (V := V) (W := W) k f).
Proof.
  intros c w D. unfold Ttl.cache_get_or_set_with_mut. apply wp_bind, wp_gets. simpl.
  destruct (find_key k (Ttl.store c)) as [[k0 e]|] eqn:E; [apply wp_bind, wp_now|]; ttl_entries D.
Qed.

Lemma ttl_async_computes k f : computes k (may_return f) (Ttl.async_cache_get_or_set_with_mut (V := V) (W := W) k f).
Proof.
  intros c w D. unfold Ttl.async_cache_get_or_set_with_mut. apply wp_bind, wp_now. apply wp_bind, wp_gets. simpl.
  destruct (find_key k (Ttl.store c)) as [[k0 e]|] eqn:E; ttl_entries D.
Qed.

Lemma ttl_tries {E} k (f : User W (result E V)) : tries k (may_return f) (Ttl.cache_try_get_or_set_with_mut (V := V) (W := W) k f).
Proof.
  intros c w D. unfold Ttl.cache_try_get_or_set_with_mut. apply wp_bind, wp_gets. simpl.
  destruct (find_key k (Ttl.store c)) as [[k0 e]|] eqn:Ef; [apply wp_bind, wp_now|]; ttl_entries D.
Qed.

Lemma ttl_async_tries {E} k (f : User W (result E V)) : tries k (may_return f) (Ttl.async_cache_try_get_or_set_with_mut (V := V) (W := W) k f).
Proof.
  intros c w D. unfold Ttl.async_cache_try_get_or_set_with_mut. apply wp_bind, wp_now. apply wp_bind, wp_gets. simpl.
  destruct (find_key k (Ttl.store c)) as [[k0 e]|] eqn:Ef; ttl_entries D.
Qed.

#[global] Instance ttl_get_or_set : GetOrSetLaws C K V W.
Proof. split; intros; [apply ttl_computes|apply ttl_tries|apply ttl_async_computes|apply ttl_async_tries]. Qed.
End Ttl.

(** ** [TtlSortedCache] *)
Section Sorted.
Context {K V W : Type} `{!KeyEq K, !KeyLaws K, !Cmp K, !CmpLaws K, !KeyOrd K, !Clock W, !Threads W}.
Notation C := (TtlSortedCache K V W).
Implicit Types (c : C).

#[global] Instance sorted_async_cached : CachedGetOrSetAsync C K V W := {|
  async_cache_get_or_set_with_mut := TtlSorted.async_cache_get_or_set_with_mut;
  async_cache_try_get_or_set_with_mut E := TtlSorted.async_cache_try_get_or_set_with_mut |}.

Lemma sorted_protect c2 n p (w : W) (Q : unit -> C * W -> Prop) U : wf c2 -> 0 < n ->
  (forall s, shrunk True c2 s.1 -> Q tt s) -> (forall s, shrunk True c2 s.1 -> U s) ->
  wp (if n <? Z.of_nat (length (map c2)) then retain_latest_at_protecting n None p ;; ret tt else ret tt) Q U (c2, w).
Proof.
  intros HD%wf_at Hn HQ HU. destruct (n <? _); [|by apply wp_ret, HQ]. apply wp_bind.
  eapply wp_mono; [apply (retain_protecting_wp True n None p c2 w HD); lia| |].
  - intros d s [H _]. apply wp_ret. by apply HQ.
  - intros s [_ H]. by apply HU.
Qed.

Lemma sorted_set_adds c k v w : wf c -> wp (set_and_get_mut k v) (fun _ s => adds k v c s.1) (fun s => adds k v c s.1) (c, w).
Proof.
  intros HC. pose proof (wf_at c HC) as HI. unfold set_and_get_mut. apply wp_bind, (set_inner_wp True); [done| |].
  2: { intros w' _. by apply sorted_done_adds. }
  intros w'. apply wp_ret. simpl. set (x := compute_expires_at _ _). set (t := (clock_now w).1).
  assert (forall c', shrunk True (set_done k v x t c) c' -> adds k v c c') as Hs by (intros c'; by apply sorted_shrunk_adds).
  assert (wf (set_done k v x t c)) as HD by (by eapply at_wf, (set_done_at True)).
  destruct (set_done_map k v x t c) as (_ & _ & El). destruct HI as (_ & _ & _ & Hpos & _).
  apply wp_bind, wp_gets. apply wp_bind. simpl. rewrite El.
  assert (forall s : C * W, adds k v c s.1 -> wp (let! d := TtlSorted.self in match find_key (filed k c) (map d) with
    | Some _ => ret (filed k c) | None => unwind end) (fun _ s => adds k v c s.1) (fun s => adds k v c s.1) s) as Hf.
  { intros s H. apply wp_bind, wp_gets. by destruct (find_key _ _). }
  destruct (size_limit c) as [n|]; [|apply wp_ret; exact (Hf (_, w') (sorted_done_adds c k v x t HC))].
  apply sorted_protect; [done|done|intros s H; exact (Hf s (Hs _ H))|auto].
Qed.

(** Handing out a reference to the entry just set: it is there, and nothing else is new. *)
Lemma sorted_put k v c w : wf c ->
  wp (set_and_get_mut k v) (fun p s => adds k v c s.1 /\ read_place (C := C) (W := W) p s.1 = Some v)
    (fun s => adds k v c s.1) (c, w).
Proof.
  intros HC. pose proof (wf_at c HC) as HI.
  eapply wp_mono; [apply wp_and; [exact (set_and_get_mut_wp True k v c w HI)|exact (sorted_set_adds c k v w HC)]| |by intros s [_ H]].
  intros p s [[-> Hb] Ha]. split; [done|]. destruct Hb as (_ & E & _). simpl. rewrite <- (find_key_cong k); [by rewrite E|].
  unfold filed. destruct (find_key k (map c)) as [[k' old]|] eqn:Ef; [|apply keq_refl]. by apply find_key_Some in Ef as [_ ?].
Qed.

(** An entry that is there is handed out. *)
Lemma sorted_there c c' k w (Q : K -> C * W -> Prop) U : wf c -> wf c' -> map c' = map c -> find_key k (map c) <> None ->
  ((forall P : V -> Prop, has (C := C) (W := W) k P c k c') -> Q k (c', w)) -> wp (entry_vanished k) Q U (c', w).
Proof.
  intros HC HC' Em Hk HQ. destruct (find_key k (map c)) as [[k0 e]|] eqn:E; [|done].
  apply wp_bind, wp_gets. simpl. rewrite Em, E. apply wp_ret, HQ. intros P. apply (has_kept _ _ _ _ _ (e_value e)).
  - apply sorted_narrows; [done|done|by rewrite Em].
  - simpl. by rewrite Em, E.
  - by exists k0, e.
Qed.

(** An entry is made after the miss has been counted. *)
Lemma sorted_makes c n (k : K) v (w : W) (P : V -> Prop) : wf (TtlSorted.with_misses n c) -> P v ->
  wp (set_and_get_mut k v) (fun (p : K) (s : C * W) => has (C := C) (W := W) k P c p s.1) (fun s => grows k P c s.1) (TtlSorted.with_misses n c, w).
Proof.
  intros Hn HP. eapply wp_mono; [by apply sorted_put| |].
  - intros p s [Ha Hr]. by apply (has_made _ _ _ _ _ v).
  - intros s Ha. by eapply (adds_grows c s.1).
Qed.

Lemma sorted_computes k f : computes k (may_return f) (TtlSorted.cache_get_or_set_with_mut (V := V) (W := W) k f).
Proof.
  intros c w HC. unfold TtlSorted.cache_get_or_set_with_mut. apply wp_bind, is_live_wp. intros w' [] Hk.
  - apply wp_bind, sorted_hit; [done|]. intros n Hn. apply (sorted_there c); [done|done|done|by apply Hk|by intros].
  - apply wp_bind, sorted_miss; [done|]. intros n Hn. step_user; [|by apply narrows_grows, sorted_narrows].
    apply sorted_makes; [done|by eexists _, _].
Qed.

Lemma sorted_tries {E} k (f : User W (result E V)) :
  tries k (may_return f) (TtlSorted.cache_try_get_or_set_with_mut (V := V) (W := W) k f).
Proof.
  intros c w HC. unfold TtlSorted.cache_try_get_or_set_with_mut. apply wp_bind, is_live_wp. intros w' [] Hk.
  - apply wp_bind, sorted_hit; [done|]. intros n Hn. apply wp_bind, (sorted_there c); [done|done|done|by apply Hk|].
    intros H. by apply wp_ret, H.
  - apply wp_bind, sorted_miss; [done|]. intros n Hn. step_user; [|by apply narrows_grows, sorted_narrows].
    destruct a as [v|e].
    + apply wp_bind. eapply wp_mono; [apply (sorted_makes c n k v _ (fun v => may_return f (Ok v))); [done|by eexists _, _]| |done].
      intros p s H'. by apply wp_ret.
    + apply wp_ret. split; [by apply sorted_narrows|by eexists _, _].
Qed.

#[global] Instance sorted_get_or_set : GetOrSetLaws C K V W.
Proof. split; intros; apply sorted_computes || apply sorted_tries. Qed.
End Sorted.

From S2P Require Import LruList HashTable Lru LruSpec LruRefine Expiring ExpiringLru ExpiringLruProps Cached.

(** ** [ExpiringCache] *)
Section Expiring.
Context {K V W : Type} `{!KeyEq K, !KeyLaws K, !Expires V W}.
Notation C := (ExpiringCache K V W).
Implicit Types (c : C).

#[global] Instance expiring_async_cached : CachedGetOrSetAsync C K V W := {|
  async_cache_get_or_set_with_mut := Expiring.async_cache_get_or_set_with_mut;
  async_cache_try_get_or_set_with_mut E := Expiring.async_cache_try_get_or_set_with_mut |}.

Lemma expiring_keeps c c' k k0 v (P : V -> Prop) : Expiring.wf c -> find_key k (Expiring.store c) = Some (k0, v) ->
  Expiring.store c' = Expiring.store c -> has (C := C) (W := W) k P c k c'.
Proof.
  intros D E Es. apply (has_kept _ _ _ _ _ v); [by apply expiring_same|simpl; by rewrite Es, E|by exists k0].
Qed.

Lemma expiring_replaces c c' k k0 old v w {A} (r : A) (P : V -> Prop) (Q : A -> C * W -> Prop) U : Expiring.wf c ->
  Expiring.store c' = Expiring.store c -> find_key k (Expiring.store c) = Some (k0, old) -> P v ->
  (forall c'' w, has k P c k c'' -> Q r (c'', w)) -> (forall c'' w, grows k P c c'' -> U (c'', w)) ->
  wp (Expiring.map_update k v ;; Expiring.count_evictions 1 ;; Expiring.notify k0 old ;; ret r) Q U (c', w).
Proof.
  intros D Es E HP HQ HU. apply wp_bind, wp_modify. apply wp_bind, wp_modify. apply wp_bind. simpl.
  match goal with |- wp _ _ _ (?d, _) => set (c2 := d) end.
  assert (Expiring.store c2 = hm_update k v (Expiring.store c)) as E2 by (simpl; by rewrite Es).
  assert (adds k v c c2) as Ha by (by eapply expiring_over).
  apply (expiring_told c2); intros; [apply wp_ret, HQ|apply HU; by eapply adds_grows].
  eapply has_made; [done|exact Ha|]. simpl. by rewrite Es, (find_key_update k v _ _ D E), keq_refl.
Qed.

Lemma expiring_pushes c c' k v w {A} (r : A) (P : V -> Prop) (Q : A -> C * W -> Prop) U : Expiring.wf c ->
  Expiring.store c' = Expiring.store c -> find_key k (Expiring.store c) = None -> P v ->
  (forall c'' w, has k P c k c'' -> Q r (c'', w)) -> wp (Expiring.map_push k v ;; ret r) Q U (c', w).
Proof.
  intros D Es E%find_fresh HP HQ. apply wp_bind, wp_modify, wp_ret. apply HQ.
  eapply has_made; [done|split; [simpl; unfold Expiring.wf; simpl; rewrite Es; by apply distinct_snoc|]|].
  - intros k' v' (k1 & H). simpl in H. rewrite Es, find_key_snoc in H by done.
    destruct (keq k k'); [left; by simplify_eq/=|right; by exists k1].
  - simpl. by rewrite Es, find_key_snoc, keq_refl by done.
Qed.

Lemma expiring_computes k f : computes k (may_return f) (Expiring.cache_get_or_set_with_mut (V := V) (W := W) k f).
Proof.
  intros c w D. unfold Expiring.cache_get_or_set_with_mut. apply wp_bind, wp_gets. simpl.
  destruct (find_key k (Expiring.store c)) as [[k0 old]|] eqn:E.
  - step_user; [|by apply narrows_grows, expiring_same]. destruct a; apply wp_bind, wp_modify; simpl.
    + step_user; [|by apply narrows_grows, expiring_same]. eapply (expiring_replaces _ _ _ _ _ _ _ _ (may_return f)); [exact D|done|eassumption|by eexists _, _|done|done].
    + apply wp_ret. by eapply expiring_keeps.
  - apply wp_bind, wp_modify. step_user; [|by apply narrows_grows, expiring_same].
    apply (expiring_pushes c _ _ _ _ _ (may_return f)); [exact D|done|eassumption|by eexists _, _|done].
Qed.

Lemma expiring_tries {E} k (f : User W (result E V)) :
  tries k (may_return f) (Expiring.cache_try_get_or_set_with_mut (V := V) (W := W) k f).
Proof.
  intros c w D. unfold Expiring.cache_try_get_or_set_with_mut. apply wp_bind, wp_gets. simpl.
  destruct (find_key k (Expiring.store c)) as [[k0 old]|] eqn:Ef.
  - step_user; [|by apply narrows_grows, expiring_same]. destruct a; apply wp_bind, wp_modify; simpl.
    + step_user; [|by apply narrows_grows, expiring_same]. destruct a as [v|e].
      * eapply (expiring_replaces _ _ _ _ _ _ _ _ (fun v => may_return f (Ok v))); [exact D|done|eassumption|by eexists _, _|done|done].
      * apply wp_ret. split; [by apply expiring_same|by eexists _, _].
    + apply wp_ret. by eapply expiring_keeps.
  - apply wp_bind, wp_modify. step_user; [|by apply narrows_grows, expiring_same]. destruct a as [v|e].
    + apply (expiring_pushes c _ _ _ _ _ (fun v => may_return f (Ok v))); [exact D|done|eassumption|by eexists _, _|done].
    + apply wp_ret. split; [by apply expiring_same|by eexists _, _].
Qed.

#[global] Instance expiring_get_or_set : GetOrSetLaws C K V W.
Proof. split; intros; apply expiring_computes || apply expiring_tries. Qed.
End Expiring.

(** ** Get-or-set of the inner LRU store, on its entries *)
Section Entries.
Context {K V W X : Type} `{!KeyEq K, !KeyLaws K, !World X W}.
Implicit Types (a : View K V W) (x : X) (P : V -> Prop).

(** Nothing is new but an entry for [k]; the front entry is one for [k], new or old. *)
Definition comes k P (l l' : list (K * V)) : Prop := forall e, e ∈ l' -> e ∈ l \/ exists v, e = (k, v) /\ P v.
Definition fronts k P (l l' : list (K * V)) : Prop :=
  comes k P l l' /\ forall e, head l' = Some e -> (e ∈ l /\ keq k e.1 = true) \/ exists v, e = (k, v) /\ P v.

Lemma comes_same k P l : comes k P l l.
Proof. intros e. by left. Qed.

Lemma fronts_kept k P l e r : take_key k l = Some (e, r) -> fronts k P l (e :: r).
Proof.
  intros (xs & ys & -> & -> & Hk & _)%take_key_Some. split.
  - intros x. rewrite elem_of_cons, !elem_of_app, elem_of_cons. tauto.
  - intros ? [= <-]. left. split; [rewrite elem_of_app, elem_of_cons; auto|done].
Qed.

Lemma fronts_made k P l r v : P v -> (forall e, e ∈ r -> e ∈ l) -> fronts k P l ((k, v) :: r).
Proof.
  intros HP Hr. split; [|intros ? [= <-]; right; by exists v].
  intros e [->|He]%elem_of_cons; [right; by exists v|left; auto].
Qed.

Lemma fronts_take k P l l' n : fronts k P l l' -> fronts k P l (take n l').
Proof.
  intros [Hc Hh]. split; [|by destruct n, l'].
  intros e He. eapply elem_of_sublist in He; [|apply sublist_take]. by apply Hc.
Qed.

Lemma taken_incl k (l : list (K * V)) e r : take_key k l = Some (e, r) -> forall e, e ∈ r -> e ∈ l.
Proof. intros (xs & ys & -> & -> & _)%take_key_Some z. rewrite !elem_of_app, elem_of_cons. tauto. Qed.

(** The inserted entry in front, then trimmed. *)
Lemma wp_trims k P l a v r x {A} (y : A) : P v -> (forall e, e ∈ r -> e ∈ l) -> wp (s_entries ((k, v) :: r) ;; s_trim ;; ret y)
  (fun z s => z = y /\ fronts k P l (entries s.1)) (fun s => comes k P l (entries s.1)) (a, x).
Proof.
  intros HP Hr. apply wp_bind, wp_modify. simpl. apply wp_bind. eapply wp_mono; [apply s_trim_wp| |]; simpl.
  - intros _ [a' x'] Ea. simplify_eq/=. apply wp_ret. by split; [|apply fronts_take, fronts_made].
  - intros [a' x'] (n & _ & Ea). simplify_eq/=. by apply fronts_take, fronts_made.
Qed.

Lemma wp_tracked (m : Spec K V W X unit) a x (Q : unit -> View K V W * X -> Prop) U :
  m = s_hit \/ m = s_miss -> (forall a', entries a' = entries a -> Q tt (a', x)) -> wp (s_tracked m) Q U (a, x).
Proof.
  intros Hm HQ. apply wp_bind, wp_gets. simpl. destruct (vtrack a); [|by apply wp_ret, HQ].
  destruct Hm as [-> | ->]; by apply wp_modify, HQ.
Qed.

Ltac tracked := apply wp_bind, wp_tracked; [auto|intros ? ?].

Lemma gos_wp k (f : User X V) valid a x : wp (s_get_or_set k f valid)
  (fun _ s => fronts k (may_return f) (entries a) (entries s.1)) (fun s => comes k (may_return f) (entries a) (entries s.1)) (a, x).
Proof.
  assert (forall a', entries a' = entries a -> comes k (may_return f) (entries a) (entries a')) as Hs by (intros ? ->; apply comes_same).
  unfold s_get_or_set. apply wp_bind, wp_gets. simpl. destruct (take_key k (entries a)) as [[e r]|] eqn:E.
  - step_user; [|auto]. destruct a0; tracked.
    + apply wp_bind, wp_modify, wp_ret. by eapply fronts_kept.
    + step_user; [|auto]. apply wp_bind, wp_modify, wp_ret. apply fronts_made; [by eexists _, _|by eapply taken_incl].
  - tracked. step_user; [|auto]. eapply wp_mono; [apply (wp_trims _ (may_return f) (entries a)); [by eexists _, _|done]|by intros ? ? []|done].
Qed.

Lemma try_gos_wp {E} k (f : User X (result E V)) valid a x : let P := fun v => may_return f (Ok v) in
  wp (s_try_get_or_set k f valid)
    (fun r s => match r with Ok _ => fronts k P (entries a) (entries s.1) | Err e => entries s.1 = entries a /\ may_return f (Err e) end)
    (fun s => comes k P (entries a) (entries s.1)) (a, x).
Proof.
  intros P. assert (forall a', entries a' = entries a -> comes k P (entries a) (entries a')) as Hs by (intros ? ->; apply comes_same).
  unfold s_try_get_or_set. apply wp_bind, wp_gets. simpl. destruct (take_key k (entries a)) as [[e r]|] eqn:Ef.
  - step_user; [|auto]. destruct a0; tracked.
    + apply wp_bind, wp_modify, wp_ret. by eapply fronts_kept.
    + step_user; [|auto]. destruct a0 as [v|y]; [|apply wp_ret; split; [done|by eexists _, _]].
      apply wp_bind, wp_modify, wp_ret. apply fronts_made; [by eexists _, _|by eapply taken_incl].
  - tracked. step_user; [|auto]. destruct a0 as [v|y]; [|apply wp_ret; split; [done|by eexists _, _]].
    eapply wp_mono; [apply (wp_trims _ P (entries a)); [by eexists _, _|done]|by intros ? ? [-> ?]|done].
Qed.
End Entries.

(** ** [LruCache] *)
Section Lru.
Context {K V W HT : Type} `{!KeyEq K, !KeyLaws K, !HashTable HT, !HashTableLaws HT}.
Context (try_reserve_exact : Z -> bool).
Notation C := (LruCache K V W HT).
#[local] Hint Extern 0 (Cached (LruCache _ _ _ _) _ _ _) => exact (lru_cached try_reserve_exact) : typeclass_instances.

#[global] Instance lru_async_cached : CachedGetOrSetAsync C K V W :=
  Build_CachedGetOrSetAsync C K V W (lru_cached try_reserve_exact) Lru.async_cache_get_or_set_with_mut (fun E => Lru.async_cache_try_get_or_set_with_mut).

Lemma lru_grows k (P : V -> Prop) (c c' : C) a a' : models c a -> models c' a' -> comes k P (entries a) (entries a') -> grows k P c c'.
Proof.
  intros HM HM' Hc. split; [by exists a'|]. intros k' v. rewrite (lru_holds _ _ _ _ HM), (lru_holds _ _ _ _ HM').
  intros (k0 & [He Hk]%find_key_Some). simpl in Hk. destruct (Hc _ He) as [Hl|(v' & E & HP)].
  - left. exists k0. rewrite (find_key_cong k' k0 _ Hk). exact (distinct_find _ _ (models_distinct _ _ HM) Hl).
  - right. simplify_eq. by rewrite keq_comm.
Qed.

Lemma lru_has k (P : V -> Prop) (c c' : C) a a' i e occ fre : models c a -> models_at c' a' ((i, e) :: occ) fre ->
  fronts k P (entries a) (entries a') -> has (C := C) (W := W) k P c i c'.
Proof.
  intros HM HA [Hc Hf]. split; [eapply lru_grows; [exact HM|by eapply models_intro|done]|].
  exists e.2. simpl. rewrite (slot_get_front _ _ _ _ _ _ HA). split; [done|].
  apply models_entries in HA as HE. destruct (Hf e) as [[Hl Hk]|(v & -> & HP)]; [by rewrite HE|left|by right].
  apply (lru_holds _ _ _ _ HM). exists e.1. rewrite (find_key_cong k e.1 _ Hk).
  destruct e. exact (distinct_find _ _ (models_distinct _ _ HM) Hl).
Qed.

Lemma lru_computes k (f : User W V) : computes (C := C) (W := W) k (may_return f) (Lru.cache_get_or_set_with_mut k f).
Proof.
  intros c w [a HM]. unfold Lru.cache_get_or_set_with_mut. apply wp_bind.
  eapply wp_mono; [apply (simulates_wp _ _ _ _ _ _ _ _ (get_or_set_simulates k f _ c a w HM) (gos_wp _ _ _ _ _))| |].
  - intros r [c' w'] (r' & [a' w2] & [_ (Ew & e & occ & fre & HA)] & Hf). simpl in *. apply wp_ret. by eapply lru_has.
  - intros [c' w'] ([a' w2] & [Ew HM'] & Hc). by eapply lru_grows.
Qed.

Lemma lru_tries {E} k (f : User W (result E V)) :
  tries (C := C) (W := W) k (may_return f) (Lru.cache_try_get_or_set_with_mut k f).
Proof.
  intros c w [a HM]. unfold Lru.cache_try_get_or_set_with_mut. apply wp_bind.
  eapply wp_mono; [apply (simulates_wp _ _ _ _ _ _ _ _ (try_get_or_set_simulates k f _ c a w HM) (try_gos_wp _ _ _ _ _))| |].
  - intros [r|e] [c' w'] ([r'|e'] & [a' w2] & HP & HQ); try done; simpl in *; apply wp_ret.
    + destruct HP as [_ (Ew & e & occ & fre & HA)]. by eapply lru_has.
    + destruct HP as [-> [Ew HM']], HQ as [Ee HP]. split; [|done]. eapply lru_narrows; [exact HM|exact HM'|]. simpl. by rewrite Ee.
  - intros [c' w'] ([a' w2] & [Ew HM'] & Hc). by eapply lru_grows.
Qed.

#[global] Instance lru_get_or_set : GetOrSetLaws C K V W.
Proof. split; intros; apply lru_computes || apply lru_tries. Qed.
End Lru.

(** ** [ExpiringLruCache] *)
Section ExpiringLru.
Context {K V W HT : Type} `{!KeyEq K, !KeyLaws K, !Expires V W, !HashTable HT, !HashTableLaws HT}.
Context (try_reserve_exact : Z -> bool).
Notation C := (ExpiringLruCache K V W HT).
Implicit Types (c : C) (a : EView K V W).
#[local] Hint Extern 0 (Cached (ExpiringLruCache _ _ _ _) _ _ _) => exact (expiring_lru_cached try_reserve_exact) : typeclass_instances.

#[global] Instance expiring_lru_async_cached : CachedGetOrSetAsync C K V W :=
  Build_CachedGetOrSetAsync C K V W (expiring_lru_cached try_reserve_exact)
    ExpiringLru.async_cache_get_or_set_with_mut (fun E => ExpiringLru.async_cache_try_get_or_set_with_mut).

Lemma el_grows k (P : V -> Prop) c c' a a' : ExpiringLruProps.holds c a -> ExpiringLruProps.holds c' a' ->
  comes k P (entries (eview a)) (entries (eview a')) -> grows k P c c'.
Proof.
  intros H H' Hc. split; [by exists a'|]. intros k' v. rewrite (el_holds _ _ _ _ H), (el_holds _ _ _ _ H').
  destruct (find_key k' (entries (eview a'))) as [e|] eqn:E; [|done]. intros [= <-].
  apply find_key_Some in E as [He Hk]. destruct (Hc _ He) as [Hl|(v' & -> & HP)]; [left|right].
  - by rewrite (find_key_cong k' e.1 _ Hk), (distinct_find _ e (models_distinct _ _ (proj1 H)) Hl).
  - by rewrite keq_comm.
Qed.

Lemma el_has k (P : V -> Prop) c c' a a' i w w' : ExpiringLruProps.holds c a -> ERelF i (c', w) (a', w') ->
  fronts k P (entries (eview a)) (entries (eview a')) -> has (C := C) (W := W) k P c i c'.
Proof.
  intros H [[_ H'] (e & occ & fre & HA)] [Hc Hf]. simpl in *. split; [by eapply el_grows|].
  exists e.2. simpl. rewrite (slot_get_front _ _ _ _ _ _ HA). split; [done|].
  apply models_entries in HA as HE. destruct (Hf e) as [[Hl Hk]|(v & -> & HP)]; [by rewrite HE|left|by right].
  apply (el_holds _ _ _ _ H). by rewrite (find_key_cong k e.1 _ Hk), (distinct_find _ e (models_distinct _ _ (proj1 H)) Hl).
Qed.

(** The factory's value in front of the entries, trimmed. *)
Lemma wp_e_trims {A} (y : A) k (P : V -> Prop) l a v w : P v -> entries (eview a) = l ->
  wp (e_entries ((k, v) :: l) ;; e_inner s_trim ;; ret y)
    (fun z s => z = y /\ fronts k P l (entries (eview s.1))) (fun s => comes k P l (entries (eview s.1))) (a, w).
Proof.
  intros HP El. apply wp_bind, wp_e_inner, wp_modify. simpl. apply wp_bind, wp_e_inner.
  eapply wp_mono; [apply s_trim_wp| |]; simpl.
  - intros _ [a' w'] Ea. simplify_eq/=. apply wp_ret. by split; [|apply fronts_take, fronts_made].
  - intros [a' w'] (n & _ & Ea). simplify_eq/=. by apply fronts_take, fronts_made.
Qed.

(** An expired entry replaced by the factory's value. *)
Lemma wp_e_replaces {A} (y : A) k (P : V -> Prop) l e r a v w : P v -> take_key k l = Some (e, r) ->
  wp (e_entries ((k, v) :: r) ;; e_count 1 ;; e_notify e.1 e.2 ;; ret y)
    (fun z s => z = y /\ fronts k P l (entries (eview s.1))) (fun s => comes k P l (entries (eview s.1))) (a, w).
Proof.
  intros HP Et. assert (fronts k P l ((k, v) :: r)) as Hf by (apply fronts_made; [done|by eapply taken_incl]).
  apply wp_bind, wp_e_inner, wp_modify. simpl. apply wp_bind, wp_modify, wp_bind, wp_e_notify; intros w'; [by apply wp_ret|apply Hf].
Qed.

Lemma e_try_gos_wp {E} k (f : User W (result E V)) a w : let P := fun v => may_return f (Ok v) in let l := entries (eview a) in
  wp (e_try_get_or_set k f)
    (fun r s => match r with Ok _ => fronts k P l (entries (eview s.1)) | Err e => entries (eview s.1) = l /\ may_return f (Err e) end)
    (fun s => comes k P l (entries (eview s.1))) (a, w).
Proof.
  intros P l. pose proof (comes_same k P l) as Hs. unfold e_try_get_or_set. apply wp_bind, wp_gets. simpl. fold l.
  destruct (take_key k l) as [[e r]|] eqn:Et.
  - step_user; [|done]. destruct a0.
    + apply wp_bind, wp_modify. step_user; [|done]. destruct a0 as [v|x]; [|apply wp_ret; split; [done|by eexists _, _]].
      eapply wp_mono; [apply (wp_e_replaces _ k P l); [by eexists _, _|done]|by intros ? ? [-> ?]|done].
    + apply wp_bind, wp_e_inner, wp_modify, wp_bind, wp_modify, wp_ret. by eapply fronts_kept.
  - apply wp_bind, wp_modify. step_user; [|done]. destruct a0 as [v|x]; [|apply wp_ret; split; [done|by eexists _, _]].
    eapply wp_mono; [apply (wp_e_trims _ k P l); [by eexists _, _|done]|by intros ? ? [-> ?]|done].
Qed.

Lemma e_gos_wp k (f : User W V) a w : let P := may_return f in let l := entries (eview a) in
  wp (e_get_or_set k f) (fun _ s => fronts k P l (entries (eview s.1))) (fun s => comes k P l (entries (eview s.1))) (a, w).
Proof.
  intros P l. pose proof (comes_same k P l) as Hs. unfold e_get_or_set. apply wp_bind, wp_gets. simpl. fold l.
  destruct (take_key k l) as [[e r]|] eqn:Et.
  - step_user; [|done]. destruct a0.
    + apply wp_bind, wp_modify. step_user; [|done]. assert (fronts k P l ((k, a0) :: r)) as Hf
        by (apply fronts_made; [by eexists _, _|by eapply taken_incl]).
      apply wp_bind, wp_e_inner, wp_modify, wp_bind, wp_modify, wp_e_notify; intros w2; [done|apply Hf].
    + apply wp_bind, wp_e_inner, wp_modify, wp_modify. by eapply fronts_kept.
  - apply wp_bind, wp_modify. step_user; [|done]. apply wp_bind, wp_e_inner, wp_modify, wp_e_inner. simpl.
    eapply wp_mono; [apply s_trim_wp| |]; simpl.
    + intros _ [a' w2] Ea. simplify_eq/=. apply fronts_take, fronts_made; [by eexists _, _|done].
    + intros [a' w2] (n & _ & Ea). simplify_eq/=. apply fronts_take, fronts_made; [by eexists _, _|done].
Qed.

Lemma expiring_lru_computes k (f : User W V) :
  computes (C := C) (W := W) k (may_return f) (ExpiringLru.cache_get_or_set_with_mut k f).
Proof.
  intros c w [a H]. eapply wp_mono; [apply (simulates_wp _ _ _ _ _ _ _ _ (eget_or_set_simulates k f c a w H) (e_gos_wp _ _ _ _))| |].
  - intros i [c' w'] (r' & [a' w2] & HF & Hf). by eapply el_has.
  - intros [c' w'] ([a' w2] & [_ H'] & Hc). by eapply el_grows.
Qed.

Lemma expiring_lru_tries {E} k (f : User W (result E V)) :
  tries (C := C) (W := W) k (may_return f) (ExpiringLru.cache_try_get_or_set_with_mut k f).
Proof.
  intros c w [a H]. eapply wp_mono; [apply (simulates_wp _ _ _ _ _ _ _ _ (etry_get_or_set_simulates k f c a w H) (e_try_gos_wp _ _ _ _))| |].
  - intros [i|x] [c' w'] ([r'|x'] & [a' w2] & HF & HQ); try done; simpl in *.
    + by eapply el_has.
    + destruct HF as [-> [_ H']], HQ as [Ee HP]. split; [|done]. eapply el_narrows; [exact H|exact H'|]. simpl. by rewrite Ee.
  - intros [c' w'] ([a' w2] & [_ H'] & Hc). by eapply el_grows.
Qed.

#[global] Instance expiring_lru_get_or_set : GetOrSetLaws C K V W.
Proof. split; intros; apply expiring_lru_computes || apply expiring_lru_tries. Qed.
End ExpiringLru.

(** ** [LruTtlCache] *)
Section LruTtl.
Context {K V W HT : Type} `{!KeyEq K, !KeyLaws K, !Clock W, !HashTable HT, !HashTableLaws HT}.
Context (try_reserve_exact : Z -> bool).
Notation C := (LruTtlCache K V W HT).
Implicit Types (c : C) (a : View K (TimedEntry V) W).
#[local] Hint Extern 0 (Cached (LruTtlCache _ _ _ _) _ _ _) => exact (lru_ttl_cached try_reserve_exact) : typeclass_instances.

#[global] Instance lru_ttl_async_cached : CachedGetOrSetAsync C K V W :=
  Build_CachedGetOrSetAsync C K V W (lru_ttl_cached try_reserve_exact)
    LruTtl.async_cache_get_or_set_with_mut (fun E => LruTtl.async_cache_try_get_or_set_with_mut).

(** A call of the inner store between the wrapper's closures. *)
Lemma wp_framed {A} (m : Lru.Op K (TimedEntry V) W (Frame W) HT A) c w (Q : A * option Z -> C * W -> Prop) (U : C * W -> Prop) :
  wp m (fun r s => Q (r, f_hit_at s.2) (LruTtl.with_misses (f_misses s.2) (LruTtl.with_store s.1 c), f_world s.2))
    (fun s => U (LruTtl.with_misses (f_misses s.2) (LruTtl.with_store s.1 c), f_world s.2))
    (LruTtl.store c, mkFrame (LruTtl.misses c) None w) -> wp (LruTtl.framed m) Q U (c, w).
Proof. unfold wp, LruTtl.framed. simpl. by destruct (m _) as [[] [t fr]]. Qed.

Lemma may_set ttl (f : User W V) e : may_return (LruTtl.setter ttl f) e -> may_return f (tvalue e).
Proof.
  intros (fr & fr' & E). unfold LruTtl.setter, lift_user in E. simpl in E. destruct (f (f_world fr)) as [[v|] w'] eqn:Ef; [|done].
  destruct (clock_now _) as [t w2]. simplify_eq/=. by eexists _, _.
Qed.

Lemma may_try_set {E} ttl (f : User W (result E V)) e : may_return (LruTtl.try_setter ttl f) (Ok e) -> may_return f (Ok (tvalue e)).
Proof.
  intros (fr & fr' & Er). unfold LruTtl.try_setter, lift_user in Er. simpl in Er. destruct (f (f_world fr)) as [[[v|x]|] w'] eqn:Ef; [|done|done].
  destruct (clock_now _) as [t w2]. simplify_eq/=. by eexists _, _.
Qed.

Lemma may_try_fail {E} ttl (f : User W (result E V)) x : may_return (LruTtl.try_setter ttl f) (Err x) -> may_return f (Err x).
Proof.
  intros (fr & fr' & Er). unfold LruTtl.try_setter, lift_user in Er. simpl in Er. destruct (f (f_world fr)) as [[[v|y]|] w'] eqn:Ef; [|by simplify_eq/=; eexists _, _|done].
  destruct (clock_now _) as [t w2]. done.
Qed.

(** The wrapper's bookkeeping only renews the front entry's deadline. *)
Lemma wp_settle c a r h k e occ fre w : LruTtlProps.holds c a -> models_at (LruTtl.store c) a ((r.2, (k, e)) :: occ) fre ->
  let kept := fun s : C * W => exists a' e', LruTtlProps.holds s.1 a' /\ tvalue e' = tvalue e /\
    models_at (LruTtl.store s.1) a' ((r.2, (k, e')) :: occ) fre in
  wp (LruTtl.settle r h) (fun i s => i = r.2 /\ kept s) kept (c, w).
Proof.
  intros H HA kept. assert (forall c' w', LruTtl.store c' = LruTtl.store c -> LruTtlProps.holds c' a -> kept (c', w')) as Hk.
  { intros c' w' Es H'. exists a, e. simpl. by rewrite Es. }
  destruct r as [[[p q] old] i]. unfold LruTtl.settle. simpl in *. apply wp_bind. destruct (p && q).
  - apply wp_bind, wp_gets. simpl. apply wp_bind. destruct (LruTtl.refresh c).
    + assert (forall w', wp (match h with Some n => ret n | None => now end) (fun _ s => s.1 = c) (fun _ => False) (c, w')) as Hn
        by (intros w'; by destruct h; [apply wp_ret|apply wp_now]).
      apply wp_bind. eapply wp_mono; [apply Hn| |done]. intros n [c' w'] Ec. simpl in Ec. subst c'.
      apply wp_bind. eapply wp_of_outcome; [exact (slot_get_front _ _ _ _ _ _ HA)|].
      destruct (set_expiry_run c a i k e occ fre w' (refreshed_expires_at (LruTtl.ttl c) n (expires_at e)) HA) as (t & Et & HA').
      eapply wp_run; [exact Et|]. apply wp_modify, wp_ret. split; [done|]. eexists _, _. split; [|split; [|exact HA']]; [|done].
      split; [by eapply models_intro|apply H].
    + apply wp_ret, wp_modify, wp_ret. split; [done|]. by apply Hk.
  - destruct old as [[k1 o]|]; [|apply wp_ret, wp_ret; split; [done|by apply Hk]].
    apply wp_bind, wp_modify, wp_lt_notify; intros w'; [apply wp_ret; split; [done|]|]; by apply Hk.
Qed.

(** [comes] and [fronts], up to the deadlines. *)
Definition values_come k (P : V -> Prop) (l l' : list (K * TimedEntry V)) : Prop :=
  forall x, x ∈ l' -> (exists y, y ∈ l /\ y.1 = x.1 /\ tvalue y.2 = tvalue x.2) \/ (x.1 = k /\ P (tvalue x.2)).

Lemma values_of_comes k (P : V -> Prop) (Q : TimedEntry V -> Prop) l l' : (forall e, Q e -> P (tvalue e)) -> comes k Q l l' -> values_come k P l l'.
Proof. intros HQ Hc x Hx. destruct (Hc x Hx) as [Hl|(v & -> & Hv)]; [left; by exists x|right; auto]. Qed.

Lemma lt_grows k (P : V -> Prop) c c' a a' : LruTtlProps.holds c a -> LruTtlProps.holds c' a' ->
  values_come k P (entries a) (entries a') -> grows k P c c'.
Proof.
  intros H H' Hc. split; [by exists a'|]. intros k' v. rewrite (lt_holds _ _ _ _ H), (lt_holds _ _ _ _ H').
  intros (k0 & e & [He Hk]%find_key_Some & <-). simpl in Hk. destruct (Hc _ He) as [([k1 y] & Hl & E1 & E2)|[E HP]]; simpl in *.
  - left. subst k1. exists k0, y. rewrite (find_key_cong k' k0 _ Hk).
    split; [exact (distinct_find _ _ (models_distinct _ _ (proj1 H)) Hl)|done].
  - right. subst. by rewrite keq_comm.
Qed.

Lemma lt_has k (P : V -> Prop) (Q : TimedEntry V -> Prop) c c' a a1 a' i k1 e e' occ fre : LruTtlProps.holds c a -> LruTtlProps.holds c' a' ->
  (forall e, Q e -> P (tvalue e)) -> fronts k Q (entries a) (entries a1) -> entries a1 = (k1, e) :: occ.*2 ->
  models_at (LruTtl.store c') a' ((i, (k1, e')) :: occ) fre -> tvalue e' = tvalue e -> has (C := C) (W := W) k P c i c'.
Proof.
  intros H H' HQ [Hc Hf] E1 HA Ev. apply models_entries in HA as HE. simpl in HE. split.
  - eapply lt_grows; [exact H|exact H'|]. intros x. rewrite HE. intros [->|Hx]%elem_of_cons; simpl; [rewrite Ev|].
    + apply (values_of_comes k P Q _ _ HQ Hc (k1, e)). rewrite E1. apply elem_of_cons. by left.
    + apply (values_of_comes k P Q _ _ HQ Hc x). rewrite E1. apply elem_of_cons. by right.
  - exists (tvalue e'). simpl. rewrite (slot_get_front _ _ _ _ _ _ HA). split; [done|]. rewrite Ev.
    destruct (Hf (k1, e)) as [[Hl Hk]|(v & ? & HP)]; [by rewrite E1|left|right; simplify_eq; auto].
    apply (lt_holds _ _ _ _ H). exists k1, e. simpl in Hk. rewrite (find_key_cong k k1 _ Hk).
    split; [exact (distinct_find _ _ (models_distinct _ _ (proj1 H)) Hl)|done].
Qed.

(** The inner call has answered: what [settle] makes of it. *)
Lemma lt_settles k (P : V -> Prop) (Q : TimedEntry V -> Prop) c a s (fr fr0 : Frame W) r h b (w : W) : LruTtlProps.holds c a -> (forall e, Q e -> P (tvalue e)) ->
  RelF r.2 (s, fr) (b, fr0) -> vtrack b = vtrack a -> von_evict b = von_evict a -> fronts k Q (entries a) (entries b) -> let c1 := LruTtl.with_misses (f_misses fr) (LruTtl.with_store s c) in
  wp (LruTtl.settle r h) (fun i s => has (C := C) (W := W) k P c i s.1) (fun s => grows k P c s.1) (c1, w).
Proof.
  intros H HQ [_ ([k1 e] & occ & fre & HA)] Ht Ho Hf c1. simpl in *.
  assert (LruTtlProps.holds c1 b) as H1.
  { destruct H as (_ & Hv & Hc). split; [by eapply models_intro|]. split; [by rewrite Ht|by rewrite Ho]. }
  apply models_entries in HA as HE. simpl in HE.
  assert (forall s : C * W, (exists a' e', LruTtlProps.holds s.1 a' /\ tvalue e' = tvalue e /\
    models_at (LruTtl.store s.1) a' ((r.2, (k1, e')) :: occ) fre) -> has (C := C) (W := W) k P c r.2 s.1) as Hh.
  { intros s' (a' & e' & H' & Ev & HA'). by eapply (lt_has k P Q c s'.1 a b a'). }
  eapply wp_mono; [apply (wp_settle c1 b r h k1 e occ fre w H1 HA)| |].
  - intros i s' [-> Hk]. by apply Hh.
  - intros s' Hk. apply Hh, Hk.
Qed.

Lemma lt_framed (P : V -> Prop) (Q : TimedEntry V -> Prop) k c a s (fr : Frame W) b : LruTtlProps.holds c a -> (forall e, Q e -> P (tvalue e)) ->
  models s b -> (vtrack b, von_evict b) = (vtrack a, von_evict a) -> comes k Q (entries a) (entries b) ->
  grows k P c (LruTtl.with_misses (f_misses fr) (LruTtl.with_store s c)).
Proof.
  intros H HQ HM [= Ht Ho] Hc. apply (lt_grows k P c _ a b); [done|destruct H as (_ & Hv & Hf)|by apply (values_of_comes k P Q)].
  split; [done|]. by rewrite Ht, Ho.
Qed.

Lemma lru_ttl_computes k (f : User W V) : computes (C := C) (W := W) k (may_return f) (LruTtl.cache_get_or_set_with_mut k f).
Proof.
  intros c w [a H]. unfold LruTtl.cache_get_or_set_with_mut. apply wp_bind, wp_gets. simpl.
  set (g := LruTtl.setter (LruTtl.ttl c) f). pose proof (may_set (LruTtl.ttl c) f) as Hg. fold g in Hg.
  apply wp_bind, wp_framed.
  eapply wp_mono; [apply (simulates_wp _ _ _ _ _ _ _ _ (get_or_set_simulates k g _ _ a (mkFrame (LruTtl.misses c) None w) (proj1 H))
    (wp_and _ _ _ _ _ _ (gos_wp _ _ _ _ _) (still_get_or_set k g _ _ (a, _) eq_refl)))| |].
  - intros r [s fr] (r' & [b fr'] & [_ HF] & Hf & [= Ht Ho]). simpl in *. by eapply (lt_settles k _ (may_return g)).
  - intros [s fr] ([b fr'] & [_ HM] & Hc & _ & Hs). simpl in *. by eapply (lt_framed _ (may_return g)).
Qed.

Lemma lru_ttl_tries {E} k (f : User W (result E V)) :
  tries (C := C) (W := W) k (may_return f) (LruTtl.cache_try_get_or_set_with_mut k f).
Proof.
  intros c w [a H]. unfold LruTtl.cache_try_get_or_set_with_mut. apply wp_bind, wp_gets. simpl.
  set (g := LruTtl.try_setter (LruTtl.ttl c) f). pose proof (may_try_set (LruTtl.ttl c) f) as Hg. fold g in Hg.
  apply wp_bind, wp_framed.
  eapply wp_mono; [apply (simulates_wp _ _ _ _ _ _ _ _ (try_get_or_set_simulates k g _ _ a (mkFrame (LruTtl.misses c) None w) (proj1 H))
    (wp_and _ _ _ _ _ _ (try_gos_wp _ _ _ _ _) (still_try_get_or_set k g _ _ (a, _) eq_refl)))| |].
  - intros [r|x] [s fr] ([r'|x'] & [b fr'] & HP & Hf & [= Ht Ho]); try done; simpl in *.
    + destruct HP as [_ HF]. apply wp_bind.
      eapply wp_mono; [by eapply (lt_settles k (fun v => may_return f (Ok v)) (fun v => may_return g (Ok v)))| |done]. intros i s' Hi. by apply wp_ret.
    + destruct HP as [-> [_ HM]], Hf as [Ee Hx]. apply wp_ret. split; [|by apply (may_try_fail (LruTtl.ttl c))].
      apply (lt_narrows c _ a b); [exact H|split; [exact HM|destruct H as (_ & Hv & Hf); simpl in *; by rewrite Ht, Ho]|].
      rewrite Ee. intros k' k0 e Hk. by exists k0, e.
  - intros [s fr] ([b fr'] & [_ HM] & Hc & _ & Hs). simpl in *. by eapply (lt_framed _ (fun v => may_return g (Ok v))).
Qed.

#[global] Instance lru_ttl_get_or_set : GetOrSetLaws C K V W.
Proof. split; intros; apply lru_ttl_computes || apply lru_ttl_tries. Qed.
End LruTtl.

(** ** Memoizing by hand

    A client that goes through get-or-set for every value it wants, blocking or awaited, with a factory
    that may fail or not, and catches the panics of its factories. *)
Section HandMemo.
Context {C K V W E : Type} `{!Cached C K V W, !CachedGetOrSetAsync C K V W, !StoreView C K V, !KeyEq K, !KeyLaws K, !GetOrSetLaws C K V W}.
Context (compute : K -> User W V) (attempt : K -> User W (result E V)).

Inductive Fetch : Type :=
| FetchNow (k : K)
| FetchAsync (k : K)
| TryFetchNow (k : K)
| TryFetchAsync (k : K).

Definition wanted (q : Fetch) : K := match q with FetchNow k | FetchAsync k | TryFetchNow k | TryFetchAsync k => k end.

Definition infallible (m : ST (C * W) V) : ST (C * W) (result E V) := let! v := m in ret (Ok v).

Definition fetch (q : Fetch) : ST (C * W) (result E V) :=
  match q with
  | FetchNow k => infallible (cache_get_or_set_with k (compute k))
  | FetchAsync k => infallible (async_cache_get_or_set_with k (compute k))
  | TryFetchNow k => cache_try_get_or_set_with k (attempt k)
  | TryFetchAsync k => async_cache_try_get_or_set_with k (attempt k)
  end.

(** A value some factory for the key may return. *)
Definition made_for (k : K) (v : V) : Prop :=
  exists k', keq k k' = true /\ (may_return (compute k') v \/ may_return (attempt k') (Ok v)).

Definition answers (q : Fetch) (r : result E V) : Prop :=
  match r with Ok v => made_for (wanted q) v | Err e => may_return (attempt (wanted q)) (Err e) end.

Definition honest (c : C) : Prop := consistent c /\ forall k v, holds c k v -> made_for k v.

Lemma honest_grows k (P : V -> Prop) c c' : (forall v, P v -> may_return (compute k) v \/ may_return (attempt k) (Ok v)) ->
  honest c -> grows k P c c' -> honest c'.
Proof.
  intros HP [_ Hh] [Hc Hg]. split; [done|]. intros k' v Hv. destruct (Hg _ _ Hv) as [?|[Hk Pv]]; [auto|].
  exists k. rewrite keq_comm. auto.
Qed.

Lemma made_here k (P : V -> Prop) c v : (forall v, P v -> may_return (compute k) v \/ may_return (attempt k) (Ok v)) ->
  honest c -> holds c k v \/ P v -> made_for k v.
Proof. intros HP [_ Hh] [?|?]; [auto|]. exists k. rewrite keq_refl. auto. Qed.

(** What a caller of one get-or-set sees. *)
Lemma hand_computes q m c w : honest c -> computes (wanted q) (may_return (compute (wanted q))) m ->
  wp (infallible (let! p := m in deref p)) (fun r s => answers q r /\ honest s.1) (fun s => honest s.1) (c, w).
Proof.
  intros Hc Hm. apply wp_bind, wp_bind. eapply wp_mono; [apply (Hm c w), Hc| |].
  - intros p s [Hg (v & Er & Hv)]. apply wp_bind, wp_gets. rewrite Er. apply wp_ret, wp_ret. split; [simpl|].
    + by apply (made_here _ (may_return (compute (wanted q))) c); [auto| |].
    + by apply (honest_grows (wanted q) (may_return (compute (wanted q))) c); [auto| |].
  - intros s Hg. by apply (honest_grows (wanted q) (may_return (compute (wanted q))) c); [auto| |].
Qed.

Lemma hand_tries q m c w : honest c -> tries (wanted q) (may_return (attempt (wanted q))) m ->
  wp (let! r := m in match r with Ok p => let! v := deref p in ret (Ok v) | Err e => ret (Err e) end)
    (fun r s => answers q r /\ honest s.1) (fun s => honest s.1) (c, w).
Proof.
  intros Hc Hm. apply wp_bind. eapply wp_mono; [apply (Hm c w), Hc| |].
  - intros [p|e] s Hr.
    + destruct Hr as [Hg (v & Er & Hv)]. apply wp_bind, wp_bind, wp_gets. rewrite Er. apply wp_ret, wp_ret. split; [simpl|].
      * by apply (made_here _ (fun v => may_return (attempt (wanted q)) (Ok v)) c); [auto| |].
      * by apply (honest_grows (wanted q) (fun v => may_return (attempt (wanted q)) (Ok v)) c); [auto| |].
    + destruct Hr as [Hn He]. apply wp_ret. split; [done|]. split; [apply Hn|]. intros k v Hv. by apply Hc, Hn.
  - intros s Hg. by apply (honest_grows (wanted q) (fun v => may_return (attempt (wanted q)) (Ok v)) c); [auto| |].
Qed.

Lemma fetch_answers q c w : honest c ->
  wp (fetch q) (fun r s => answers q r /\ honest s.1) (fun s => honest s.1) (c, w).
Proof.
  intros Hc. destruct q; simpl.
  - apply (hand_computes (FetchNow k)), get_or_set_computes; done.
  - apply (hand_computes (FetchAsync k)), async_get_or_set_computes; done.
  - apply (hand_tries (TryFetchNow k)), try_get_or_set_tries; done.
  - apply (hand_tries (TryFetchAsync k)), async_try_get_or_set_tries; done.
Qed.

(** C28: Memoizing by hand is correct over every store that keeps the contract of get-or-set - and all eight
    do - whatever mix of the four get-or-set methods the client uses, blocking or awaited: a value it is
    given was returned by a factory for an equal key, an error by this call's own factory, and when a factory
    or a callback panics, or a future is dropped at its await, the store is as good as before for the calls
    that follow. *)
Theorem hand_memo_serves cs c w : honest c ->
  Forall2 (fun q o => match o with Done r => answers q r | Unwind => True | OutOfFuel => False end)
    cs (runs fetch cs (c, w)).1 /\ honest (runs fetch cs (c, w)).2.1.
Proof.
  revert c w. induction cs as [|q cs IH]; intros c w Hc; simpl; [by split|].
  pose proof (fetch_answers q c w Hc) as Hq. unfold wp in Hq. destruct (fetch q (c, w)) as [o [c' w']].
  assert (honest c') as Hc' by (destruct o; [apply Hq|exact Hq|done]). destruct (IH c' w' Hc') as [Hr Hh].
  destruct (runs fetch cs (c', w')) as [rs s]. simpl in *. split; [|done]. constructor; [|done]. by destruct o; [apply Hq| |].
Qed.
End HandMemo.

(** ** Witness *)
Module Demo.
Import Tick LruTtlProps.Demo.

#[local] Instance full_cached : Cached Cache TaggedKey.t Z Tick.t := lru_ttl_cached (fun _ => true).
#[local] Instance full_async : CachedGetOrSetAsync Cache TaggedKey.t Z Tick.t := lru_ttl_async_cached (fun _ => true).
#[local] Instance full_laws : GetOrSetLaws Cache TaggedKey.t Z Tick.t := lru_ttl_get_or_set (fun _ => true).

Definition compute (k : TaggedKey.t) : User Tick.t Z := fun w => (Some (TaggedKey.id k + 6), w).
Definition attempt (k : TaggedKey.t) : User Tick.t (result nat Z) := fun w =>
  (if TaggedKey.id k =? 3 then Some (Err 5%nat) else if TaggedKey.id k =? 2 then None else Some (Ok (TaggedKey.id k + 6)), w).

Lemma full_honest : honest compute attempt full.
Proof.
  split; [exists view; apply full_holds|]. intros k v (k0 & e & E & <-)%(lt_holds full view k v full_holds).
  apply find_key_Some in E as [Hin Hk]. exists k0. split; [done|left]. exists (Tick.mk 0 []), (Tick.mk 0 []).
  apply elem_of_cons in Hin as [[= -> ->]|[[= -> ->]|[]%elem_of_nil]%elem_of_cons]; reflexivity.
Qed.

(** A hit on an equal key, an error, an awaited miss that evicts the least recently used entry, a
    panic, and a hit again. *)
Definition calls : list (Fetch (K := TaggedKey.t)) :=
  [FetchNow k1'; TryFetchNow k3; FetchAsync k3; TryFetchAsync k2; TryFetchNow k1].

Lemma hand_memo_serves_witness : let s := runs (fetch compute attempt) calls (full, Tick.mk 60 []) in
  s.1 = [Done (Ok 7); Done (Err 5%nat); Done (Ok 9); Unwind; Done (Ok 7)] /\
  Forall2 (fun q o => match o with Done r => answers compute attempt q r | Unwind => True | OutOfFuel => False end) calls s.1 /\
  honest compute attempt s.2.1.
Proof. split; [vm_compute; reflexivity|]. exact (hand_memo_serves compute attempt calls full (Tick.mk 60 []) full_honest). Defined.
End Demo.
