(* ===== verification/Return.v ===== *)
(** * What a cached function returns and what of it is stored

    [find_value_type] and the blocks [set_cache_block] and [return_cache_block] of the macros, and the
    type [Return] of [cached_proc_macro_types/src/lib.rs]. *)
From S2P Require Import Prelude.

(** [set_cache_block] and [return_cache_block]: the value stored for a result, if any, and the
    result given for a stored value. *)
Class Returns (R V : Type) : Type := { stored : R -> option V; hit : V -> R }.

Class ReturnsLaws (R V : Type) `{!Returns R V} : Prop := {
  hit_stored : forall r v, stored r = Some v -> hit v = r;
  stored_hit : forall v, stored (hit v) = Some v }.

(** Any type; [Result], of which only [Ok] is stored; [Option], of which only [Some] is. *)
Definition plain_returns (V : Type) : Returns V V := {| stored := Some; hit := id |}.
#[global] Instance result_returns E V : Returns (result E V) V :=
  {| stored r := match r with Ok v => Some v | Err _ => None end; hit := Ok |}.
#[global] Instance option_returns V : Returns (option V) V := {| stored := id; hit := Some |}.

(** [Return] of [cached_proc_macro_types/src/lib.rs], and [with_cached_flag]. *)
Record Return (T : Type) : Type := mkReturn { was_cached : bool; value : T }.
Arguments mkReturn {T}.
Arguments was_cached {T}.
Arguments value {T}.
Definition return_new {T} (v : T) : Return T := mkReturn false v.
Definition set_was_cached {T} (b : bool) (r : Return T) : Return T := mkReturn b (value r).
Definition into_inner {T} (r : Return T) : T := value r.

Definition flagged_returns T : Returns (Return T) (Return T) := {| stored := Some; hit := set_was_cached true |}.
Definition flagged_result E T : Returns (result E (Return T)) (Return T) :=
  {| stored r := match r with Ok r => Some r | Err _ => None end; hit r := Ok (set_was_cached true r) |}.
Definition flagged_option T : Returns (option (Return T)) (Return T) :=
  {| stored r := r; hit r := Some (set_was_cached true r) |}.

(** [r] is what the body returned, [r'], or what is given for its stored value. *)
Definition comes_from {R V} `{!Returns R V} (r r' : R) : Prop := r = r' \/ hit <$> stored r' = Some r.

Lemma plain_returns_laws V : @ReturnsLaws V V (plain_returns V).
Proof. split; [|done]. by intros r v [= ->]. Qed.
#[global] Instance result_returns_laws E V : ReturnsLaws (result E V) V.
Proof. split; [|done]. intros [r|e] v; [|done]. by intros [= ->]. Qed.
#[global] Instance option_returns_laws V : ReturnsLaws (option V) V.
Proof. split; [|done]. intros r v H. exact (eq_sym H). Qed.

(** Without a flag the two are the same; with one they differ in the flag. *)
Lemma comes_from_eq {R V} `{!Returns R V, !ReturnsLaws R V} (r r' : R) : comes_from r r' -> r = r'.
Proof. intros [->|H]; [done|]. destruct (stored r') as [v|] eqn:E; [|done]. injection H as <-. exact (hit_stored _ _ E). Qed.

Lemma comes_from_flagged {T} (r r' : Return T) : @comes_from _ _ (flagged_returns T) r r' ->
  into_inner r = into_inner r' /\ (r = r' \/ was_cached r = true).
Proof. intros [->|[= <-]]; [by split; [|left]|by split; [|right]]. Qed.
