(* ===== verification/Threads.v ===== *)
(** * The code of the macros as threads

    Programs over a shared cell behind a lock; threads that interleave at every node of their
    program, and whose bodies may call the function themselves.  The functions that [#[cached]] ([Memo.v]) and [#[once]] ([Once.v]) generate are such
    programs. *)
From S2P Require Import Prelude Keys Return.

(** ** Programs *)

(** The lock of the cache static; the per-key locks of [KeyedCache]. *)
Inductive LockName : Type := CacheLock | BucketLock (b : Z).
#[global] Instance LockName_eq_dec : EqDecision LockName.
Proof. solve_decision. Defined.

Section Programs.
Context {C W A R : Type}.

Inductive Prog : Type :=
| Finish (r : R)
| Acquire (l : LockName) (md : Mode) (p : Prog)
| Release (l : LockName) (p : Prog)
| Eval {X : Type} (m : User W X) (k : X -> Prog)
| Access {X : Type} (op : ST (C * W) X) (k : X -> Prog)
| RunBody (k : R -> Prog).

(** Leave the function with [r], dropping the guards [held]. *)
Definition return_with (held : list LockName) (r : R) : Prog := foldr Release (Finish r) held.

(** The attribute [force_refresh]: a block over the arguments. *)
Context (force_refresh : option (A -> User W bool)).

(** [if !(block)], or [if true] without a block. *)
Definition force_refresh_guard (a : A) (taken skipped : Prog) : Prog :=
  match force_refresh with
  | None => taken
  | Some block => Eval (block a) (fun b => if b then skipped else taken)
  end.

(** [let __cached_force_refreshing = ..;], evaluated once, before any lock. *)
Definition hoisted (a : A) (k : bool -> Prog) : Prog :=
  match force_refresh with None => k false | Some block => Eval (block a) k end.

(** A run of the program on its own, of which the body does [run]. *)
Fixpoint alone (run : User W R) (p : Prog) : ST (C * W) R :=
  match p with
  | Finish r => ret r
  | Acquire _ _ p => alone run p
  | Release _ p => alone run p
  | Eval m k => let! x := user m in alone run (k x)
  | Access op k => let! x := op in alone run (k x)
  | RunBody k => let! r := user run in alone run (k r)
  end.
End Programs.
Arguments Prog : clear implicits.

(** ** Threads *)
Section Threads.
Context {C K V W A R : Type}.

(** A call of the function or of its priming companion; [None] after a panic. *)
Record Thread : Type := mkThread { arg : A; priming : bool; code : option (Prog C W R) }.

Record Config : Type := mkConfig {
  cache : C;
  world : W;
  writer : LockName -> option nat;
  readers : LockName -> list nat;
  threads : list Thread }.

(** Thread [i], which is [t], goes on with [p]. *)
Definition goto (i : nat) (t : Thread) (p : option (Prog C W R)) (g : Config) : Config :=
  mkConfig (cache g) (world g) (writer g) (readers g) (<[i := mkThread (arg t) (priming t) p]> (threads g)).
Definition put (s : C * W) (g : Config) : Config := mkConfig s.1 s.2 (writer g) (readers g) (threads g).

Definition free (l : LockName) (md : Mode) (g : Config) : Prop :=
  writer g l = None /\ (md = Exclusive -> readers g l = []).
Definition lock (i : nat) (l : LockName) (md : Mode) (g : Config) : Config :=
  match md with
  | Exclusive => mkConfig (cache g) (world g) (fun l' => if decide (l' = l) then Some i else writer g l') (readers g) (threads g)
  | Shared => mkConfig (cache g) (world g) (writer g) (fun l' => if decide (l' = l) then i :: readers g l' else readers g l') (threads g)
  end.

(** Thread [i] drops its guards on the locks that satisfy [d]. *)
Definition unlock (i : nat) (d : LockName -> bool) (g : Config) : Config :=
  mkConfig (cache g) (world g)
    (fun l => if d l && bool_decide (writer g l = Some i) then None else writer g l)
    (fun l => if d l then filter (fun j => j <> i) (readers g l) else readers g l)
    (threads g).

(** [body a r]: a run of the user's function on [a] may return [r].  It may also panic, and the
    outer world may change in any way while it runs. *)
Context (body : A -> R -> Prop) (call primer : A -> Prog C W R).

Inductive thread_step (i : nat) (g : Config) : Config -> Prop :=
| step_acquire t l md p : threads g !! i = Some t -> code t = Some (Acquire l md p) -> free l md g ->
    thread_step i g (goto i t (Some p) (lock i l md g))
| step_release t l p : threads g !! i = Some t -> code t = Some (Release l p) ->
    thread_step i g (goto i t (Some p) (unlock i (fun l' => bool_decide (l' = l)) g))
| step_eval t X (m : User W X) k x w : threads g !! i = Some t -> code t = Some (Eval m k) -> m (world g) = (Some x, w) ->
    thread_step i g (goto i t (Some (k x)) (put (cache g, w) g))
| step_eval_panic t X (m : User W X) k w : threads g !! i = Some t -> code t = Some (Eval m k) -> m (world g) = (None, w) ->
    thread_step i g (goto i t None (unlock i (fun _ => true) (put (cache g, w) g)))
| step_access t X (op : ST (C * W) X) k x s : threads g !! i = Some t -> code t = Some (Access op k) ->
    op (cache g, world g) = (Done x, s) -> thread_step i g (goto i t (Some (k x)) (put s g))
| step_access_panic t X (op : ST (C * W) X) k s : threads g !! i = Some t -> code t = Some (Access op k) ->
    op (cache g, world g) = (Unwind, s) ->
    thread_step i g (goto i t None (unlock i (fun _ => true) (put s g)))
| step_body t k r : threads g !! i = Some t -> code t = Some (RunBody k) -> body (arg t) r ->
    thread_step i g (goto i t (Some (k r)) g)
| step_body_panic t k : threads g !! i = Some t -> code t = Some (RunBody k) ->
    thread_step i g (goto i t None (unlock i (fun _ => true) g)).

Inductive step (g : Config) : Config -> Prop :=
| step_thread i g' : thread_step i g g' -> step g g'
| step_world w : step g (put (cache g, w) g)
| step_call a : step g (mkConfig (cache g) (world g) (writer g) (readers g)
    (threads g ++ [mkThread a false (Some (call a))]))
| step_prime a : step g (mkConfig (cache g) (world g) (writer g) (readers g)
    (threads g ++ [mkThread a true (Some (primer a))])).

Definition start (c : C) (w : W) : Config := mkConfig c w (fun _ => None) (fun _ => []) [].

Inductive reachable (c : C) (w : W) : Config -> Prop :=
| reach_start : reachable c w (start c w)
| reach_step g g' : reachable c w g -> step g g' -> reachable c w g'.

(** *** Bodies that call the function themselves

    A call that a body makes is a thread of its own, and the thread of the body stands still until it is
    over.  The locks know nothing of it: they are not reentrant. *)
Record Nested : Type := mkNested { flat : Config; inside : nat -> option nat }.

Definition spawn (a : A) (b : bool) (g : Config) : Config :=
  mkConfig (cache g) (world g) (writer g) (readers g) (threads g ++ [mkThread a b (Some (if b then primer a else call a))]).

(** Whether a call has returned or panicked. *)
Definition over (t : Thread) : bool := match code t with None | Some (Finish _) => true | _ => false end.

(** The body of thread [i] is not in a call. *)
Definition outside_calls (n : Nested) (i : nat) : Prop :=
  forall j t, inside n i = Some j -> threads (flat n) !! j = Some t -> over t = true.

(** The body of thread [i] makes a call; with [b], of the priming companion. *)
Definition enter (i : nat) (a : A) (b : bool) (n : Nested) : Nested :=
  mkNested (spawn a b (flat n)) (fun i' => if decide (i' = i) then Some (length (threads (flat n))) else inside n i').

Inductive nested_step (n : Nested) : Nested -> Prop :=
| nested_thread i g : outside_calls n i -> thread_step i (flat n) g -> nested_step n (mkNested g (inside n))
| nested_world w : nested_step n (mkNested (put (cache (flat n), w) (flat n)) (inside n))
| nested_call a b : nested_step n (mkNested (spawn a b (flat n)) (inside n))
| nested_enter i t k a b : threads (flat n) !! i = Some t -> code t = Some (RunBody k) -> outside_calls n i ->
    nested_step n (enter i a b n).

Inductive nested_reachable (c : C) (w : W) : Nested -> Prop :=
| nested_start : nested_reachable c w (mkNested (start c w) (fun _ => None))
| nested_reach n n' : nested_reachable c w n -> nested_step n n' -> nested_reachable c w n'.
End Threads.
Arguments Thread : clear implicits.
Arguments Config : clear implicits.
Arguments Nested : clear implicits.
