(* ===== verification/ThreadsProps.v ===== *)
(** * Properties of interleaved programs

    Three invariants of the reachable states: every thread stays sound, the locks are kept in
    order, and a thread that waits waits for one that can go on.  Calls in bodies keep them: without the
    knowledge of which call is in which body a run with such calls is a run without; and what progress
    is left then, and what is lost for good. *)
From stdpp Require Import relations.
From S2P Require Import Prelude Keys Return Threads.

(** ** Soundness *)
Section Soundness.
Context {C W A R : Type} (genuine : C -> Prop) (justified : A -> R -> Prop) (body : A -> R -> Prop).

(** A program of a call for [a] keeps the cell genuine and ends with a justified result. *)
Fixpoint sound (a : A) (p : Prog C W R) : Prop :=
  match p with
  | Finish r => justified a r
  | Acquire _ _ p => sound a p
  | Release _ p => sound a p
  | Eval _ k => forall x, sound a (k x)
  | Access op k => forall c w, genuine c ->
      wp op (fun x s => genuine s.1 /\ sound a (k x)) (fun s => genuine s.1) (c, w)
  | RunBody k => forall r, body a r -> sound a (k r)
  end.

Lemma sound_return held a r : justified a r -> sound a (return_with (C := C) (W := W) held r).
Proof. intros H. by induction held. Qed.

Context (call primer : A -> Prog C W R).
Hypothesis calls_sound : forall a, sound a (call a) /\ sound a (primer a).

Definition all_sound (g : Config C W A R) : Prop :=
  genuine (cache g) /\
  forall i t p, threads g !! i = Some t -> code t = Some p -> sound (arg t) p.

Lemma all_sound_goto g i t q w' wr rd : all_sound g -> threads g !! i = Some t ->
  (forall p, q = Some p -> sound (arg t) p) -> forall c', genuine c' ->
  all_sound (mkConfig c' w' wr rd (<[i := mkThread (arg t) (priming t) q]> (threads g))).
Proof.
  intros [_ HT] Et Hq c' HG. split; [done|]. simpl. intros j t' p.
  destruct (decide (i = j)) as [<-|Hij].
  - rewrite list_lookup_insert_eq by (by eapply lookup_lt_Some). intros [= <-] Hp. by apply Hq.
  - rewrite list_lookup_insert_ne by done. apply HT.
Qed.

Lemma all_sound_spawn g a b q : all_sound g -> sound a q ->
  all_sound (mkConfig (cache g) (world g) (writer g) (readers g) (threads g ++ [mkThread a b (Some q)])).
Proof.
  intros [HG HT] Hq. split; [done|]. simpl. intros j t p [Hj|[_ Hj]]%lookup_app_Some; [by apply HT with j|].
  apply list_lookup_singleton_Some in Hj as [_ <-]. by intros [= <-].
Qed.

Lemma all_sound_step g g' : all_sound g -> step body call primer g g' -> all_sound g'.
Proof.
  intros HS [i g1 Hst|w|a|a]; [|done| |]; [|by apply all_sound_spawn; [|apply calls_sound]..].
  pose proof HS as [HG HT].
  destruct Hst as [t l md p Et Ec _|t l p Et Ec|t X m k x w Et Ec Em|t X m k w Et Ec Em|t X op k x s Et Ec Eo
    |t X op k s Et Ec Eo|t k r Et Ec Hb|t k Et Ec]; pose proof (HT i t _ Et Ec) as Hs; simpl in Hs.
  - destruct md; apply all_sound_goto; try done; by intros ? [= <-].
  - apply all_sound_goto; try done; by intros ? [= <-].
  - apply all_sound_goto; try done; by intros ? [= <-].
  - by apply all_sound_goto.
  - specialize (Hs (cache g) (world g) HG). unfold wp in Hs. rewrite Eo in Hs. destruct Hs as [HG' Hs].
    apply all_sound_goto; try done; by intros ? [= <-].
  - specialize (Hs (cache g) (world g) HG). unfold wp in Hs. rewrite Eo in Hs. by apply all_sound_goto.
  - apply all_sound_goto; try done. intros ? [= <-]. by apply Hs.
  - by apply all_sound_goto.
Qed.

Lemma all_sound_reachable c w g : genuine c -> reachable body call primer c w g -> all_sound g.
Proof. intros HG. induction 1 as [|g g' _ IH Hs]; [|by eapply all_sound_step]. by split. Qed.
End Soundness.

(** ** The lock discipline *)
Section Discipline.
Context {C K V W A R : Type}.
Implicit Types (g : Config C W A R) (i j : nat) (l : LockName) (hs : list (LockName * Mode)).

(** A program that holds the locks [hs] takes no lock it holds, takes a bucket only when it holds
    nothing, releases in reverse order, touches the store only under the cache lock, and runs
    the body only under [guard], or, without one, while it holds nothing. *)
Fixpoint balanced (guard : option LockName) hs (p : Prog C W R) : Prop :=
  match p with
  | Finish _ => hs = []
  | Acquire l md p =>
      l ∉ hs.*1 /\ match l with CacheLock => True | BucketLock _ => hs = [] end /\ balanced guard ((l, md) :: hs) p
  | Release l p => match hs with (l', _) :: hs => l' = l /\ balanced guard hs p | [] => False end
  | Eval _ k => forall x, balanced guard hs (k x)
  | Access _ k => CacheLock ∈ hs.*1 /\ forall x, balanced guard hs (k x)
  | RunBody k =>
      match guard with Some l => (l, Exclusive) ∈ hs | None => hs = [] end /\ forall r, balanced guard hs (k r)
  end.

Definition owns g i hs : Prop :=
  (forall l, writer g l = Some i <-> (l, Exclusive) ∈ hs) /\ (forall l, i ∈ readers g l <-> (l, Shared) ∈ hs).

Lemma owns_lock_other g i j l md hs : i <> j -> free l md g -> owns g j hs -> owns (lock i l md g) j hs.
Proof.
  intros Hij [Hw _] [H1 H2]. destruct md; (split; intros l'; simpl; [|try apply H2]); try apply H1.
  - rewrite <- H2. destruct (decide (l' = l)) as [->|]; [|done]. rewrite elem_of_cons. naive_solver.
  - rewrite <- H1. destruct (decide (l' = l)) as [->|]; [|done]. rewrite Hw. naive_solver.
Qed.

Lemma owns_lock_self g i l md hs : l ∉ hs.*1 -> owns g i hs -> owns (lock i l md g) i ((l, md) :: hs).
Proof.
  intros Hl [H1 H2].
  assert (forall m, (l, m) ∉ hs) as Hn by (intros m Hin; apply Hl; by apply (list_elem_of_fmap_2 fst hs (l, m))).
  destruct md; (split; intros l'; simpl; rewrite elem_of_cons; [rewrite <- H1|rewrite <- H2]);
    destruct (decide (l' = l)) as [->|]; rewrite ?elem_of_cons; naive_solver.
Qed.

Lemma owns_unlock_other g i j d hs : i <> j -> owns g j hs -> owns (unlock i d g) j hs.
Proof.
  intros Hij [H1 H2]. split; intros l; simpl.
  - rewrite <- H1. destruct (d l); simpl; [|done]. destruct (bool_decide_reflect (writer g l = Some i)); naive_solver.
  - rewrite <- H2. destruct (d l); [|done]. rewrite list_elem_of_filter. naive_solver.
Qed.

Lemma owns_unlock_one g i l md hs : NoDup ((l, md) :: hs).*1 -> owns g i ((l, md) :: hs) ->
  owns (unlock i (fun l' => bool_decide (l' = l)) g) i hs.
Proof.
  intros HN [H1 H2]. apply NoDup_cons in HN as [Hl _].
  assert (forall m, (l, m) ∉ hs) as Hn by (intros m Hin; apply Hl; by apply (list_elem_of_fmap_2 fst hs (l, m))).
  split; intros l'; simpl; [specialize (H1 l')|specialize (H2 l')]; rewrite elem_of_cons in *;
    destruct (bool_decide_reflect (l' = l)) as [->|Hne]; simpl.
  - destruct (bool_decide_reflect (writer g l = Some i)); naive_solver.
  - naive_solver.
  - rewrite list_elem_of_filter. naive_solver.
  - naive_solver.
Qed.

Lemma owns_unlock_all g i hs : owns g i hs -> owns (unlock i (fun _ => true) g) i [].
Proof.
  intros _. split; intros l; simpl; rewrite elem_of_nil.
  - destruct (bool_decide_reflect (writer g l = Some i)); naive_solver.
  - rewrite list_elem_of_filter. naive_solver.
Qed.

Lemma balanced_return held hs guard (r : R) : hs.*1 = held ->
  balanced guard hs (return_with (C := C) (W := W) held r).
Proof. revert hs. induction held as [|l held IH]; intros [|[l' md] hs]; try done. intros [= -> E]. split; [done|by apply IH]. Qed.

Context (body : A -> R -> Prop) (call primer : A -> Prog C W R) (guard : A -> option LockName).
Hypothesis calls_balanced : forall a, balanced (guard a) [] (call a) /\ balanced None [] (primer a).

Definition guard_of (t : Thread C W A R) : option LockName := if priming t then None else guard (arg t).

(** What the thread holds, with the programs it may be at. *)
Definition orderly g i (t : Thread C W A R) : Prop :=
  exists hs, owns g i hs /\ NoDup hs.*1 /\
    match code t with Some p => balanced (guard_of t) hs p | None => hs = [] end.

Record disciplined g : Prop := {
  d_threads : forall i t, threads g !! i = Some t -> orderly g i t;
  d_writer : forall l i, writer g l = Some i -> (i < length (threads g))%nat;
  d_readers : forall l i, i ∈ readers g l -> (i < length (threads g))%nat }.

(** A step of thread [i] that changes locks to those of [g1] and code to [q]. *)
Lemma disciplined_goto g g1 i t q hs : disciplined g -> threads g !! i = Some t ->
  threads g1 = threads g -> (forall j hs, i <> j -> owns g j hs -> owns g1 j hs) ->
  (forall l j, writer g1 l = Some j -> j = i \/ writer g l = Some j) ->
  (forall l j, j ∈ readers g1 l -> j = i \/ j ∈ readers g l) ->
  owns g1 i hs -> NoDup hs.*1 ->
  match q with Some p => balanced (guard_of t) hs p | None => hs = [] end ->
  disciplined (goto i t q g1).
Proof.
  intros [DT DW DR] Et E1 Ho Hw Hr Hi HN Hq. pose proof (lookup_lt_Some _ _ _ Et) as Hlt. split; simpl.
  - intros j t'. rewrite E1. destruct (decide (i = j)) as [<-|Hij].
    + rewrite list_lookup_insert_eq by done. intros [= <-]. by exists hs.
    + rewrite list_lookup_insert_ne by done. intros Hj. destruct (DT j t' Hj) as (hs' & Ho' & ? & ?).
      exists hs'. split_and!; try done. by apply Ho.
  - intros l j Hj. rewrite length_insert, E1. destruct (Hw l j Hj) as [->|Hj']; [done|by eapply DW].
  - intros l j Hj. rewrite length_insert, E1. destruct (Hr l j Hj) as [->|Hj']; [done|by eapply DR].
Qed.

Lemma disciplined_same g s i t q hs : disciplined g -> threads g !! i = Some t -> owns g i hs -> NoDup hs.*1 ->
  balanced (guard_of t) hs q -> disciplined (goto i t (Some q) (put s g)).
Proof.
  intros HD Et Ho HN Hb. eapply (disciplined_goto g _ i t (Some q) hs); try done; intros ? ? ?; by right.
Qed.

Lemma disciplined_panic g s i t hs : disciplined g -> threads g !! i = Some t -> owns g i hs ->
  disciplined (goto i t None (unlock i (fun _ => true) (put s g))).
Proof.
  intros HD Et Ho. eapply (disciplined_goto g _ i t None []); try done.
  - intros j hs' Hij Hj. by apply owns_unlock_other.
  - intros l j. simpl. destruct (bool_decide_reflect (writer g l = Some i)); [done|by right].
  - intros l j. simpl. rewrite list_elem_of_filter. naive_solver.
  - by eapply owns_unlock_all.
  - constructor.
Qed.

Lemma disciplined_spawn g a (b : bool) q : disciplined g ->
  balanced (if b then None else guard a) [] q ->
  disciplined (mkConfig (cache g) (world g) (writer g) (readers g) (threads g ++ [mkThread a b (Some q)])).
Proof.
  intros [DT DW DR] Hq. split; simpl.
  - intros j t [Hj|[Hge Hj]]%lookup_app_Some.
    + destruct (DT j t Hj) as (hs & Ho & ? & ?). by exists hs.
    + apply list_lookup_singleton_Some in Hj as [_ <-]. exists []. split_and!; [|constructor|done].
      split; intros l; simpl; rewrite elem_of_nil; (split; [|done]); intros H; [apply DW in H|apply DR in H]; lia.
  - intros l j H%DW. rewrite length_app. lia.
  - intros l j H%DR. rewrite length_app. lia.
Qed.

Lemma disciplined_step g g' : disciplined g -> step body call primer g g' -> disciplined g'.
Proof.
  intros HD [i g1 Hst|w|a|a].
  2: { destruct HD as [DT DW DR]. split; try done. }
  2, 3: apply disciplined_spawn; [done|apply calls_balanced].
  destruct Hst as [t l md p Et Ec Hf|t l p Et Ec|t X m k x w Et Ec Em|t X m k w Et Ec Em|t X op k x s Et Ec Eo
    |t X op k s Et Ec Eo|t k r Et Ec Hb|t k Et Ec];
    destruct (d_threads _ HD i t Et) as (hs & Ho & HN & Hc); rewrite Ec in Hc; simpl in Hc.
  - destruct Hc as (Hl & _ & Hb). eapply (disciplined_goto g _ i t (Some p) ((l, md) :: hs)); try done.
    + by destruct md.
    + intros j hs' Hij Hj. by apply owns_lock_other.
    + intros l' j. destruct md; simpl; [by right|]. destruct (decide (l' = l)); [|by right]. intros [= <-]. by left.
    + intros l' j. destruct md; simpl; [|by right]. destruct (decide (l' = l)); [|by right].
      rewrite elem_of_cons. naive_solver.
    + by apply owns_lock_self.
    + apply NoDup_cons. by split.
  - destruct hs as [|[l' md] hs]; [done|]. destruct Hc as [-> Hb].
    eapply (disciplined_goto g _ i t (Some p) hs); try done.
    + intros j hs' Hij Hj. by apply owns_unlock_other.
    + intros l' j. simpl. case_match; [done|by right].
    + intros l' j. simpl. case_match; [|by right]. rewrite list_elem_of_filter. naive_solver.
    + by eapply owns_unlock_one.
    + by apply NoDup_cons in HN as [_ ?].
  - by eapply disciplined_same.
  - by eapply disciplined_panic.
  - destruct Hc as [_ Hc]. by eapply disciplined_same.
  - by eapply disciplined_panic.
  - destruct Hc as [_ Hc]. eapply (disciplined_same g (cache g, world g)); [done|done|done|done|apply Hc].
  - by eapply (disciplined_panic g (cache g, world g)).
Qed.

Lemma disciplined_reachable c w g : reachable body call primer c w g -> disciplined g.
Proof.
  induction 1 as [|g g' _ IH Hs]; [|by eapply disciplined_step]. split; simpl; try done.
  intros l i Hi. by apply elem_of_nil in Hi.
Qed.

(** A thread stays what it was called as. *)
Lemma priming_stays g g' i t : step body call primer g g' -> threads g !! i = Some t ->
  exists t', threads g' !! i = Some t' /\ priming t' = priming t.
Proof.
  assert (forall g0 j t0 q, threads g0 = threads g -> threads g !! j = Some t0 -> threads g !! i = Some t ->
    exists t', threads (goto j t0 q g0) !! i = Some t' /\ priming t' = priming t) as Hgo.
  { intros g0 j t0 q E Ej Ei. simpl. rewrite E. destruct (decide (j = i)) as [->|Hne].
    - rewrite list_lookup_insert_eq by (by eapply lookup_lt_Some). eexists. split; [done|]. by rewrite Ei in Ej; injection Ej as ->.
    - rewrite list_lookup_insert_ne by done. by exists t. }
  intros [j g1 Hst|w|a|a] Ei; [|by exists t|simpl; exists t; by rewrite lookup_app_l by (by eapply lookup_lt_Some)..].
  destruct Hst; eapply Hgo; try done. by destruct md.
Qed.

(** A lock with a writer has no readers. *)
Lemma no_readers c w g l i : reachable body call primer c w g -> writer g l = Some i -> readers g l = [].
Proof.
  intros HR. revert l i. induction HR as [|g g' _ IH Hs]; [done|]. destruct Hs as [i g1 Hst|w'|a|a]; [|exact IH..].
  assert (forall g0 d j, (forall l k, writer g0 l = Some k -> readers g0 l = []) ->
    forall l k, writer (unlock j d g0) l = Some k -> readers (unlock j d g0) l = []) as Hun.
  { intros g0 d j H l k. simpl. destruct (d l) eqn:Ed; simpl; [|apply H].
    destruct (bool_decide_reflect (writer g0 l = Some j)); [done|]. intros Hw. by rewrite (H l k Hw). }
  destruct Hst as [t l md p Et Ec [Hw Hr]|t l p Et Ec|t X m k x w' Et Ec Em|t X m k w' Et Ec Em|t X op k x s Et Ec Eo
    |t X op k s Et Ec Eo|t k r Et Ec Hb|t k Et Ec]; try exact IH; try (intros l'; by apply Hun).
  intros l' j. destruct md; simpl; destruct (decide (l' = l)) as [->|]; try apply IH; [by rewrite Hw|].
  intros _. by apply Hr.
Qed.

(** Two threads that hold one lock exclusively are one. *)
Lemma exclusive g i j t t' k k' : disciplined g -> threads g !! i = Some t -> threads g !! j = Some t' ->
  code t = Some (RunBody k) -> code t' = Some (RunBody k') ->
  guard_of t = guard_of t' -> guard_of t <> None -> i = j.
Proof.
  intros HD Et Et' Ec Ec' Eg Hg.
  destruct (d_threads _ HD i t Et) as (hs & [Ho _] & _ & Hc), (d_threads _ HD j t' Et') as (hs' & [Ho' _] & _ & Hc').
  rewrite Ec in Hc. rewrite Ec' in Hc'. destruct Hc as [Hc _], Hc' as [Hc' _]. rewrite <- Eg in Hc'.
  destruct (guard_of t) as [l|]; [|done]. apply Ho in Hc. apply Ho' in Hc'. congruence.
Qed.
End Discipline.

(** A run of a program on its own is a run of the machine, with the other threads at rest. *)
Section Alone.
Context {C W A R : Type} (body : A -> R -> Prop) (call primer : A -> Prog C W R).
Implicit Types (g : Config C W A R) (t : Thread C W A R).

Lemma goto_at g g1 i a b q p : threads g !! i = Some (mkThread a b q) -> threads g1 = threads g ->
  threads (goto i (mkThread a b q) (Some p) g1) !! i = Some (mkThread a b (Some p)).
Proof. intros Et E. simpl. rewrite E. apply list_lookup_insert_eq. by eapply lookup_lt_Some. Qed.

(** The thread is the only one that holds locks. *)
Lemma alone_runs guard (run : User W R) a i b r c' w' (p : Prog C W R) c0 w0 : (forall w r w', run w = (Some r, w') -> body a r) ->
  forall hs g, reachable body call primer c0 w0 g -> threads g !! i = Some (mkThread a b (Some p)) ->
  balanced guard hs p -> NoDup hs.*1 -> owns g i hs -> (forall l j, j ∈ readers g l -> j = i) ->
  (forall l j, writer g l = Some j -> j = i) -> alone run p (cache g, world g) = (Done r, (c', w')) ->
  exists g', reachable body call primer c0 w0 g' /\ threads g' !! i = Some (mkThread a b (Some (Finish r))) /\
    cache g' = c' /\ world g' = w'.
Proof.
  intros Hrun. induction p as [r0|l md p IH|l p IH|X m k IH|X op k IH|k IH]; intros hs g HR Et Hb HN Ho Hr Hw Ea; simpl in *.
  - injection Ea as -> <- <-. by exists g.
  - destruct Hb as (Hl & _ & Hb).
    assert (free l md g) as Hf.
    { destruct Ho as [H1 H2]. split.
      - destruct (writer g l) as [j|] eqn:E; [|done]. rewrite (Hw l j E) in E. apply H1 in E.
        destruct Hl. by apply (list_elem_of_fmap_2 fst hs (l, Exclusive)).
      - intros _. destruct (readers g l) as [|j js] eqn:E; [done|]. assert (j ∈ readers g l) as Hj by (rewrite E; left).
        rewrite (Hr l j Hj) in Hj. apply H2 in Hj. destruct Hl. by apply (list_elem_of_fmap_2 fst hs (l, Shared)). }
    eapply (IH ((l, md) :: hs) (goto i (mkThread a b (Some (Acquire l md p))) (Some p) (lock i l md g))).
    + eapply reach_step; [exact HR|]. eapply step_thread, step_acquire; done.
    + apply (goto_at g); [done|by destruct md].
    + done.
    + by constructor.
    + apply (owns_lock_self g i l md hs Hl Ho).
    + intros l' j. destruct md; simpl; [|apply Hr]. case_decide; [|apply Hr]. intros [->|Hj]%elem_of_cons; [done|by eapply Hr].
    + intros l' j. destruct md; simpl; [apply Hw|]. case_decide; [by intros [= <-]|apply Hw].
    + by destruct md.
  - destruct hs as [|[l' md] hs]; [done|]. destruct Hb as [-> Hb].
    eapply (IH hs (goto i (mkThread a b (Some (Release l p))) (Some p) (unlock i (fun l' => bool_decide (l' = l)) g))).
    + eapply reach_step; [exact HR|]. by eapply step_thread, step_release.
    + by apply (goto_at g).
    + done.
    + by apply NoDup_cons in HN as [_ ?].
    + by apply (owns_unlock_one g i l md hs).
    + intros l' j. simpl. case_match; [|apply Hr]. rewrite list_elem_of_filter. intros [_ Hj]. by eapply Hr.
    + intros l' j. simpl. case_match; [done|apply Hw].
    + done.
  - unfold bind, user in Ea. simpl in Ea. destruct (m (world g)) as [[x|] w] eqn:Em; [|done].
    eapply (IH x hs (goto i (mkThread a b (Some (Eval m k))) (Some (k x)) (put (cache g, w) g))); try done.
    + eapply reach_step; [exact HR|]. by eapply step_thread, step_eval.
    + by apply (goto_at g).
  - unfold bind in Ea. destruct (op (cache g, world g)) as [[x| |] s] eqn:Eo; try done. destruct Hb as [_ Hb].
    eapply (IH x hs (goto i (mkThread a b (Some (Access op k))) (Some (k x)) (put s g))); try done.
    + eapply reach_step; [exact HR|]. by eapply step_thread, step_access.
    + by apply (goto_at g).
    + by destruct s.
  - unfold bind, user in Ea. simpl in Ea. destruct (run (world g)) as [[x|] w] eqn:Em; [|done]. destruct Hb as [_ Hb].
    eapply (IH x hs (goto i (mkThread a b (Some (RunBody k))) (Some (k x)) (put (cache g, w) g))); try done.
    + eapply reach_step; [eapply reach_step; [exact HR|exact (step_world _ _ _ g w)]|].
      eapply step_thread. eapply (step_body body i (put (cache g, w) g)); [done|done|by eapply Hrun].
    + by apply (goto_at g).
Qed.

(** A call on its own that ends is a run of the machine. *)
Lemma alone_call guard (run : User W R) a r c w c' w' : (forall w r w', run w = (Some r, w') -> body a r) ->
  balanced guard [] (call a) -> alone run (call a) (c, w) = (Done r, (c', w')) ->
  exists g, reachable body call primer c w g /\ threads g !! 0%nat = Some (mkThread a false (Some (Finish r))) /\
    cache g = c' /\ world g = w'.
Proof.
  intros Hrun Hb Ea.
  eapply (alone_runs guard run a 0 false r c' w' (call a) c w Hrun [] (mkConfig c w (fun _ => None) (fun _ => []) [mkThread a false (Some (call a))]));
    try done.
  - exact (reach_step _ _ _ _ _ _ _ (reach_start _ _ _ _ _) (step_call _ _ _ (start c w) a)).
  - constructor.
  - split; intros l; simpl; by rewrite ?elem_of_nil.
  - intros l j Hj. by apply elem_of_nil in Hj.
Qed.
End Alone.

(** ** Progress *)
Section Progress.
Context {C W A R : Type} (genuine : C -> Prop) (justified : A -> R -> Prop) (body : A -> R -> Prop).
Implicit Types (g : Config C W A R) (t : Thread C W A R).

(** A thread that does not wait for a lock can go on. *)
Lemma can_step g i t p : all_sound genuine justified body g -> threads g !! i = Some t -> code t = Some p -> (forall r, p <> Finish r) ->
  (forall l md q, p = Acquire l md q -> free l md g) -> exists g', thread_step body i g g'.
Proof.
  intros [HG HT] Et Ec Hf Ha. pose proof (HT i t p Et Ec) as Hs. destruct p as [r|l md p|l p|X m k|X op k|k].
  - by destruct (Hf r).
  - eexists. by eapply step_acquire; [| |eapply Ha].
  - eexists. by eapply step_release.
  - destruct (m (world g)) as [[b|] w'] eqn:Em; eexists; [by eapply step_eval|by eapply step_eval_panic].
  - specialize (Hs (cache g) (world g) HG). unfold wp in Hs.
    destruct (op (cache g, world g)) as [[x| |] s] eqn:Eo; [| |done]; eexists;
      [by eapply step_access|by eapply step_access_panic].
  - eexists. by eapply step_body_panic.
Qed.

(** A thread that holds a lock waits for the cache lock at most, and not if it holds that. *)
Lemma holder_waits guard g i t hs l md : owns g i hs -> (l, md) ∈ hs ->
  match code t with Some p => balanced (guard_of guard t) hs p | None => hs = [] end ->
  exists p, code t = Some p /\ (forall r, p <> Finish r) /\
    (forall l' md' q, p = Acquire l' md' q -> l' = CacheLock /\ CacheLock ∉ hs.*1).
Proof.
  intros Ho Hl Hc. destruct (code t) as [p|]; [|subst; by apply elem_of_nil in Hl]. exists p. split; [done|].
  split; [intros r ->; simpl in Hc; subst; by apply elem_of_nil in Hl|].
  intros l' md' q ->. destruct Hc as (Hn & Hb & _). destruct l'; [done|]. subst. by apply elem_of_nil in Hl.
Qed.

(** A lock that is not free is held by a thread. *)
Lemma held_by guard g l md : disciplined guard g -> ~ free l md g ->
  exists i t hs md', threads g !! i = Some t /\ owns g i hs /\ (l, md') ∈ hs /\
    match code t with Some p => balanced (guard_of guard t) hs p | None => hs = [] end.
Proof.
  intros HD Hf. destruct (writer g l) as [i|] eqn:Ew.
  - destruct (lookup_lt_is_Some_2 _ _ (d_writer _ _ HD l i Ew)) as [t Et].
    destruct (d_threads _ _ HD i t Et) as (hs & Ho & _ & Hc). exists i, t, hs, Exclusive. split_and!; try done. by apply Ho.
  - destruct (readers g l) as [|i rs] eqn:Er; [by destruct Hf|].
    assert (i ∈ readers g l) as Hi by (rewrite Er; left).
    destruct (lookup_lt_is_Some_2 _ _ (d_readers _ _ HD l i Hi)) as [t Et].
    destruct (d_threads _ _ HD i t Et) as (hs & Ho & _ & Hc). exists i, t, hs, Shared. split_and!; try done. by apply Ho.
Qed.

Lemma free_dec g l md : free l md g \/ ~ free l md g.
Proof.
  unfold free. destruct (writer g l), md, (readers g l); (by left; split) || (right; naive_solver).
Qed.

(** Thread [i] holds a lock. *)
Definition holds_lock g i : Prop := exists l, writer g l = Some i \/ i ∈ readers g l.

Lemma owned_lock g i hs l md : owns g i hs -> (l, md) ∈ hs -> holds_lock g i.
Proof. intros [H1 H2] Hl. exists l. destruct md; [right; by apply H2|left; by apply H1]. Qed.

(** Whoever holds a lock can go on, or the holder of the cache lock can. *)
Lemma holder_goes_on guard g l md : all_sound genuine justified body g ->
  disciplined guard g -> ~ free l md g -> exists i g', holds_lock g i /\ thread_step body i g g'.
Proof.
  intros HS HD Hf. destruct (held_by guard g l md HD Hf) as (i & t & hs & md' & Et & Ho & Hl & Hc).
  destruct (holder_waits guard g i t hs l md' Ho Hl Hc) as (p & Ec & Hp & Ha).
  assert ((forall l' m q, p = Acquire l' m q -> free l' m g) -> exists i g', holds_lock g i /\ thread_step body i g g') as Hgo.
  { intros Hw. destruct (can_step g i t p) as [g' Hg']; try done. exists i, g'. split; [by eapply owned_lock|done]. }
  destruct p as [r|l' m q| | | |]; try (by apply Hgo). destruct (free_dec g l' m) as [Hl'|Hl']; [by apply Hgo; intros ? ? ? [= <- <- <-]|].
  destruct (Ha _ _ _ eq_refl) as [-> _].
  destruct (held_by guard g CacheLock m HD Hl') as (j & t' & hs' & md2 & Et' & Ho' & Hl2 & Hc').
  destruct (holder_waits guard g j t' hs' CacheLock md2 Ho' Hl2 Hc') as (p' & Ec' & Hp' & Ha').
  destruct (can_step g j t' p') as [g' Hg']; [done..| |exists j, g'; split; [by eapply owned_lock|done]].
  intros l2 m2 q2 E. exfalso.
  destruct (Ha' _ _ _ E) as [_ Hn]. apply Hn. by apply (list_elem_of_fmap_2 fst hs' (CacheLock, md2)).
Qed.

(** A call that has not finished can go on, or one that holds a lock can. *)
Lemma goes_on guard g i t p : all_sound genuine justified body g -> disciplined guard g ->
  threads g !! i = Some t -> code t = Some p -> (forall r, p <> Finish r) ->
  exists j g', (j = i \/ holds_lock g j) /\ thread_step body j g g'.
Proof.
  intros HS HD Et Ec Hp. destruct p as [r|l md q| | | |]; try (destruct (can_step g i t _ HS Et Ec Hp) as [g' Hg']; [done|exists i, g'; by auto]).
  destruct (free_dec g l md) as [Hf|Hf].
  - destruct (can_step g i t _ HS Et Ec Hp) as [g' Hg']; [by intros ? ? ? [= <- <- <-]|exists i, g'; by auto].
  - destruct (holder_goes_on guard g l md HS HD Hf) as (j & g' & Hh & Hg'). exists j, g'. by auto.
Qed.

Context (call primer : A -> Prog C W R) (guard : A -> option LockName).

(** While a call has not finished, some thread can take a step. *)
Lemma progress c w g i t p :
  (forall a, sound genuine justified body a (call a) /\ sound genuine justified body a (primer a)) ->
  (forall a, balanced (guard a) [] (call a) /\ balanced None [] (primer a)) ->
  genuine c -> reachable body call primer c w g ->
  threads g !! i = Some t -> code t = Some p -> (forall r, p <> Finish r) ->
  exists j g', thread_step body j g g'.
Proof.
  intros Hs Hb HG HR Et Ec Hp.
  pose proof (all_sound_reachable genuine justified body call primer Hs c w g HG HR) as HS.
  pose proof (disciplined_reachable body call primer guard Hb c w g HR) as HD.
  destruct (goes_on guard g i t p HS HD Et Ec Hp) as (j & g' & _ & Hg'). by exists j, g'.
Qed.
End Progress.

(** ** Bodies that call the function themselves *)
Section Nesting.
Context {C W A R : Type} (body : A -> R -> Prop) (call primer : A -> Prog C W R).
Implicit Types (g : Config C W A R) (t : Thread C W A R) (n : Nested C W A R).
Notation nested_reachable := (nested_reachable body call primer).
Notation nested_step := (nested_step body call primer).

(** Without what it knows of calls in bodies, every run is one of the machine above: what holds in all its
    reachable states holds also with calls in bodies. *)
Lemma nested_flat c w n : nested_reachable c w n -> reachable body call primer c w (flat n).
Proof.
  induction 1 as [|n n' _ IH Hs]; [apply reach_start|]. eapply reach_step; [exact IH|].
  destruct Hs as [i g _ Hs|w'|a [|]|i t k a [|] _ _ _]; [by eapply step_thread|apply step_world|..];
    apply step_prime || apply step_call.
Qed.

(** A step of a thread changes its own code, and that was not over. *)
Lemma thread_step_threads i g g' : thread_step body i g g' ->
  exists t q, threads g !! i = Some t /\ over t = false /\ threads g' = <[i := mkThread (arg t) (priming t) q]> (threads g).
Proof.
  destruct 1 as [t l md p Et Ec Hf|t l p Et Ec|t X m k x w Et Ec Em|t X m k w Et Ec Em|t X op k x s Et Ec Eo
    |t X op k s Et Ec Eo|t k r Et Ec Hb|t k Et Ec]; (do 2 eexists; split; [exact Et|]; split; [unfold over; by rewrite Ec|]); try done.
  by destruct md.
Qed.

(** Who is in a call of its body's is at its body, and the call is younger. *)
Definition nests n : Prop := forall i j, inside n i = Some j -> (i < j < length (threads (flat n)))%nat /\
  forall t', threads (flat n) !! j = Some t' -> over t' = false ->
    exists t k, threads (flat n) !! i = Some t /\ code t = Some (RunBody k).

Lemma nests_spawn n a b : nests n -> nests (mkNested (spawn call primer a b (flat n)) (inside n)).
Proof.
  intros HN i j Hij. destruct (HN i j Hij) as [Hj Hc]. simpl. rewrite length_app. split; [lia|].
  intros t' Ht' Ho. rewrite lookup_app_l in Ht' by lia. destruct (Hc t' Ht' Ho) as (t & k & Ht & Hk).
  exists t, k. split; [|done]. rewrite lookup_app_l; [done|lia].
Qed.

Lemma nests_step n n' : nests n -> nested_step n n' -> nests n'.
Proof.
  intros HN Hs. destruct Hs as [i g Hout Hs|w|a b|i t k a b Ht Hk Hout].
  - destruct (thread_step_threads _ _ _ Hs) as (t & q & Et & Ho & E). intros i' j Hij.
    destruct (HN i' j Hij) as [Hj Hc]. simpl. rewrite E, length_insert. split; [done|]. intros t' Ht' Ho'.
    destruct (decide (i = j)) as [<-|Hne].
    + destruct (Hc t Et Ho) as (t0 & k0 & ? & ?). exists t0, k0. rewrite list_lookup_insert_ne by lia. done.
    + rewrite list_lookup_insert_ne in Ht' by done. destruct (Hc t' Ht' Ho') as (t0 & k0 & ? & ?).
      exists t0, k0. rewrite list_lookup_insert_ne; [done|]. intros ->. by rewrite (Hout j t' Hij Ht') in Ho'.
  - exact HN.
  - by apply nests_spawn.
  - intros i' j. simpl. case_decide as E.
    + subst. intros [= <-]. pose proof (lookup_lt_Some _ _ _ Ht). rewrite length_app. simpl. split; [lia|].
      intros _ _ _. exists t, k. by rewrite lookup_app_l.
    + intros Hij. by apply (nests_spawn n a b HN i' j).
Qed.

Lemma nests_reachable c w n : nested_reachable c w n -> nests n.
Proof. induction 1 as [|n n' _ IH Hs]; [done|by eapply nests_step]. Qed.

Lemma outside_dec n i : outside_calls n i \/ exists j t, inside n i = Some j /\ threads (flat n) !! j = Some t /\ over t = false.
Proof.
  destruct (inside n i) as [j|] eqn:E; [|left; intros j t; congruence].
  destruct (threads (flat n) !! j) as [t|] eqn:Et; [|left; intros j' t; congruence].
  destruct (over t) eqn:Eo; [left; intros j' t'; congruence|right; by exists j, t].
Qed.

(** A call that is not over leads, through the calls that bodies are in, to one whose body is in none. *)
Lemma innermost n i t : nests n -> threads (flat n) !! i = Some t -> over t = false ->
  exists j t', threads (flat n) !! j = Some t' /\ over t' = false /\ outside_calls n j.
Proof.
  intros HN. remember (length (threads (flat n)) - i)%nat as m eqn:Em. revert i t Em.
  induction m as [m IH] using lt_wf_ind. intros i t -> Ht Ho.
  destruct (outside_dec n i) as [H|(j & t' & Hj & Ht' & Ho')]; [by exists i, t|].
  destruct (HN i j Hj) as [Hij _]. apply (IH (length (threads (flat n)) - j)%nat) with j t'; [lia|done..].
Qed.

Context (genuine : C -> Prop) (justified : A -> R -> Prop) (guard : A -> option LockName).
Hypothesis calls_sound : forall a, sound genuine justified body a (call a) /\ sound genuine justified body a (primer a).
Hypothesis calls_balanced : forall a, balanced (guard a) [] (call a) /\ balanced None [] (primer a).

(** Thread [i] is in its body, which makes or has made a call. *)
Definition calls_inside n i t : Prop :=
  threads (flat n) !! i = Some t /\ exists j t', inside n i = Some j /\ threads (flat n) !! j = Some t' /\ over t' = false.

(** If no body that is in a call runs under a guard, and a call is not over, some thread can go on. *)
Lemma nested_progress c w n i t : genuine c -> nested_reachable c w n ->
  (forall i t, calls_inside n i t -> guard_of guard t = None) ->
  threads (flat n) !! i = Some t -> over t = false ->
  exists j g, outside_calls n j /\ thread_step body j (flat n) g.
Proof.
  intros HG HR Hfree Ht Ho. pose proof (nested_flat c w n HR) as HF. pose proof (nests_reachable c w n HR) as HN.
  pose proof (all_sound_reachable genuine justified body call primer calls_sound c w _ HG HF) as HS.
  pose proof (disciplined_reachable body call primer guard calls_balanced c w _ HF) as HD.
  destruct (innermost n i t HN Ht Ho) as (j & u & Hu & Ho' & Hout).
  destruct (code u) as [p|] eqn:Ec; [|unfold over in Ho'; by rewrite Ec in Ho'].
  destruct (goes_on genuine justified body guard (flat n) j u p HS HD Hu Ec) as (h & g & Hh & Hg).
  { intros r ->. unfold over in Ho'. by rewrite Ec in Ho'. }
  exists h, g. split; [|done]. destruct Hh as [->|[l Hl]]; [done|].
  destruct (outside_dec n h) as [|(j' & t' & Hj' & Ht' & Ho2)]; [done|exfalso].
  destruct (HN h j' Hj') as [_ Hc]. destruct (Hc t' Ht' Ho2) as (th & k & Eth & Ek).
  destruct (d_threads guard (flat n) HD h th Eth) as (hs & [H1 H2] & _ & Hb). rewrite Ek in Hb. destruct Hb as [Hb _].
  rewrite (Hfree h th) in Hb by (split; [done|by exists j', t']). subst hs.
  destruct Hl as [Hl%H1|Hl%H2]; by apply elem_of_nil in Hl.
Qed.

(** A program that takes [l] before it does anything with the store, or anything else but user code. *)
Fixpoint first_takes (l : LockName) (p : Prog C W R) : Prop :=
  match p with
  | Acquire l' _ _ => l' = l
  | Eval _ k => forall x, first_takes l (k x)
  | _ => False
  end.


(** The call [j] has panicked, or the body of [i] runs under [l] and is in it, and it takes [l] first. *)
Definition stuck l i j n : Prop :=
  exists t, threads (flat n) !! j = Some t /\
    match code t with
    | None => True
    | Some p => first_takes l p /\ inside n i = Some j /\ writer (flat n) l = Some i
    end.

Lemma lock_kept l m i g g' : thread_step body m g g' -> writer g l = Some i -> m <> i -> writer g' l = Some i.
Proof.
  intros Hs Hw Hm.
  assert (forall d s, writer (unlock m d (put s g)) l = Some i) as Hu.
  { intros d s. simpl. rewrite Hw. rewrite bool_decide_false by congruence. by rewrite andb_false_r. }
  destruct Hs as [t l' md p Et Ec [Hf _]|t l' p Et Ec|t X mm k x w Et Ec Em|t X mm k w Et Ec Em|t X op k x s Et Ec Eo
    |t X op k s Et Ec Eo|t k r Et Ec Hb|t k Et Ec]; try done; try apply (Hu _ (cache g, world g)); try apply Hu.
  destruct md; [done|]. simpl. case_decide; [congruence|done].
Qed.

Lemma first_takes_not_over l p t : code t = Some p -> first_takes l p -> over t = false.
Proof. unfold over. intros ->. by destruct p. Qed.

Lemma stuck_spawn l i j n a b f : stuck l i j n -> (forall t, inside n i = Some j -> threads (flat n) !! j = Some t -> over t = false -> f i = Some j) ->
  stuck l i j (mkNested (spawn call primer a b (flat n)) f).
Proof.
  intros (t & Ht & Hc) Hf. exists t. simpl. rewrite lookup_app_l by (by eapply lookup_lt_Some). split; [done|].
  destruct (code t) as [p|] eqn:Ec; [|done]. destruct Hc as (Hp & Hi & Hw). split_and!; [done| |done].
  apply (Hf t Hi Ht). by eapply first_takes_not_over.
Qed.

Lemma stuck_step l i j n n' : stuck l i j n -> nested_step n n' -> stuck l i j n'.
Proof.
  intros Hst Hs. destruct Hs as [m g Hout Hs|w|a b|m u k a b Hu Hk Hout].
  - destruct Hst as (t & Ht & Hc). destruct (thread_step_threads _ _ _ Hs) as (u & q & Hu & Hov & E).
    destruct (code t) as [p|] eqn:Ec.
    2: { exists t. rewrite Ec. simpl. rewrite E, list_lookup_insert_ne; [done|]. intros ->. unfold over in Hov.
         rewrite Ht in Hu. injection Hu as <-. by rewrite Ec in Hov. }
    destruct Hc as (Hp & Hi & Hw). assert (m <> i) as Hmi.
    { intros ->. pose proof (Hout j t Hi Ht) as Ho. by rewrite (first_takes_not_over l p t) in Ho. }
    pose proof (lock_kept l m i (flat n) g Hs Hw Hmi) as Hw'.
    destruct (decide (m = j)) as [->|Hne].
    2: { exists t. simpl. rewrite E, list_lookup_insert_ne, Ec by done. by split. }
    clear E Hov u q Hu. destruct Hs as [u l' md p' Et Ec' Hf|u l' p' Et Ec'|u X mm k x w Et Ec' Em|u X mm k w Et Ec' Em|u X op k x s Et Ec' Eo
      |u X op k s Et Ec' Eo|u k r Et Ec' Hb|u k Et Ec']; rewrite Ht in Et; injection Et as <-; rewrite Ec in Ec'; injection Ec' as ->; try done.
    + simpl in Hp. subst. destruct Hf. congruence.
    + eexists. simpl. rewrite list_lookup_insert_eq by (by eapply lookup_lt_Some). split; [done|]. simpl. split; [apply Hp|done].
    + eexists. simpl. by rewrite list_lookup_insert_eq by (by eapply lookup_lt_Some).
  - exact Hst.
  - apply stuck_spawn; [done|by intros].
  - apply stuck_spawn; [done|]. intros t Hi Ht Ho. case_decide as E; [|done]. subst. by rewrite (Hout j t Hi Ht) in Ho.
Qed.

(** A body under [l] makes a call that takes [l] first: the call never returns. *)
Lemma never_returns c w n n' i t k l a (b : bool) : nested_reachable c w n -> threads (flat n) !! i = Some t -> code t = Some (RunBody k) ->
  guard_of guard t = Some l -> first_takes l (if b then primer a else call a) ->
  rtc nested_step (enter call primer i a b n) n' ->
  forall t' r, threads (flat n') !! (length (threads (flat n))) = Some t' -> code t' <> Some (Finish r).
Proof.
  intros HR Ht Hk Hg Hl Hs. assert (stuck l i (length (threads (flat n))) n') as (u & Hu & Hc).
  { assert (stuck l i (length (threads (flat n))) (enter call primer i a b n)) as Hst.
    { eexists. simpl. rewrite lookup_app_r, Nat.sub_diag by done. split; [done|]. simpl. rewrite decide_True by done. split_and!; [done..|].
      pose proof (disciplined_reachable body call primer guard calls_balanced c w _ (nested_flat c w n HR)) as HD.
      destruct (d_threads guard (flat n) HD i t Ht) as (hs & [H1 _] & _ & Hb). rewrite Hk in Hb. destruct Hb as [Hb _].
      rewrite Hg in Hb. by apply H1. }
    clear HR Ht Hk Hg Hl. induction Hs as [|n1 n2 n3 H1 _ IH]; [done|]. apply IH. by eapply stuck_step. }
  intros t' r Ht' E. rewrite Hu in Ht'. injection Ht' as <-. rewrite E in Hc. by destruct Hc.
Qed.
End Nesting.
