(* ===== verification/Memo.v ===== *)
(** * The functions the [#[cached]] macro generates
      ([cached_proc_macro/src/cached.rs], [cached_proc_macro/src/helpers.rs])

    A generated function looks its key up in a shared store behind a lock, runs the user's body
    on a miss and stores the result.  Its code is a tree of lock operations, store accesses and
    runs of user code; threads interleave at every node.  Guards are dropped at the end of their
    block or when the thread unwinds, and the locks do not poison. *)
From S2P Require Import Prelude Keys Cached Return Threads.

Section Generated.
Context {C K V W A R : Type} `{!KeyEq K, !Cached C K V W, !Returns R V}.

(** The attributes: the key expression, the [force_refresh] block, the bucket hasher and count. *)
Context (convert : A -> K) (force_refresh : option (A -> User W bool)) (hash_one : K -> Z) (buckets : Z).

Definition bucket_for (key : K) : Z := hash_one key mod buckets.

Definition set_cache_block (key : K) (r : R) (p : Prog C W R) : Prog C W R :=
  Access (match stored r with Some v => cache_set key v ;; ret tt | None => ret tt end) (fun _ => p).

(** The first lookup: [cache_get] under the write lock. *)
Record Lookup : Type := mkLookup { lk_mode : Mode; lk_get : K -> ST (C * W) (option V) }.
Definition sync_lookup : Lookup := mkLookup Exclusive cache_get.

Definition cache_get_return_block (lk : Lookup) (a : A) (held : list LockName) (miss : Prog C W R) : Prog C W R :=
  Acquire CacheLock (lk_mode lk)
    (force_refresh_guard force_refresh a
      (Access (lk_get lk (convert a)) (fun r =>
         match r with
         | Some v => Release CacheLock (return_with held (hit v))
         | None => Release CacheLock miss
         end))
      (Release CacheLock miss)).

(** [SyncWriteMode::Disabled] *)
Definition disabled (lk : Lookup) (a : A) : Prog C W R :=
  cache_get_return_block lk a []
    (RunBody (fun r => Acquire CacheLock Exclusive
       (set_cache_block (convert a) r (return_with [CacheLock] r)))).

(** [SyncWriteMode::ByKey] *)
Definition by_key (lk : Lookup) (a : A) : Prog C W R :=
  let bucket := BucketLock (bucket_for (convert a)) in
  Acquire bucket Exclusive
    (cache_get_return_block lk a [bucket]
      (RunBody (fun r => Acquire CacheLock Exclusive
         (set_cache_block (convert a) r (return_with [CacheLock; bucket] r))))).

(** The end of [SyncWriteMode::Default], the write lock held. *)
Definition compute_and_set (a : A) : Prog C W R :=
  RunBody (fun r => set_cache_block (convert a) r (return_with [CacheLock] r)).

Definition get_or_compute (a : A) : Prog C W R :=
  Access (cache_get (convert a)) (fun r =>
    match r with
    | Some v => return_with [CacheLock] (hit v)
    | None => compute_and_set a
    end).

(** [SyncWriteMode::Default] *)
Definition default_ (a : A) : Prog C W R :=
  Acquire CacheLock Exclusive (force_refresh_guard force_refresh a (get_or_compute a) (compute_and_set a)).

(** The priming functions. *)
Definition prime (a : A) : Prog C W R :=
  RunBody (fun r => Acquire CacheLock Exclusive
    (set_cache_block (convert a) r (return_with [CacheLock] r))).

Definition prime_by_key (a : A) : Prog C W R :=
  let bucket := BucketLock (bucket_for (convert a)) in
  RunBody (fun r => Acquire bucket Exclusive (Acquire CacheLock Exclusive
    (set_cache_block (convert a) r (return_with [CacheLock; bucket] r)))).

(** [unsync_reads]: the first lookup through [CachedRead], under the read lock. *)
Section UnsyncReads.
Context `{!CachedRead C K V W}.

Definition unsync_lookup : Lookup := mkLookup Shared cache_get_read.

Definition default_unsync (a : A) : Prog C W R :=
  hoisted force_refresh a (fun refreshing =>
    let locked := Acquire CacheLock Exclusive (if refreshing then compute_and_set a else get_or_compute a) in
    Acquire CacheLock Shared
      (if refreshing then Release CacheLock locked
       else
         Access (cache_peek (convert a)) (fun p =>
           match p with
           | Some _ =>
               Access (cache_get_read (convert a)) (fun r =>
                 match r with
                 | Some v => return_with [CacheLock] (hit v)
                 | None => Release CacheLock locked
                 end)
           | None => Release CacheLock locked
           end))).
End UnsyncReads.

(** [result_fallback]: a stale value instead of an error. *)
Section ResultFallback.
Context `{!CloneCached C K V W}.

Definition fallback (a : A) : Prog C W R :=
  hoisted force_refresh a (fun refreshing =>
    let key := convert a in
    let body :=
      RunBody (fun r => Acquire CacheLock Exclusive
        match stored r with
        | None =>
            Access (cache_peek_with_expiry_status key) (fun p =>
              let r := match p.1 with Some v => hit v | None => r end in
              set_cache_block key r (return_with [CacheLock] r))
        | Some _ => set_cache_block key r (return_with [CacheLock] r)
        end) in
    Acquire CacheLock Exclusive
      (if refreshing
       then Access (cache_peek_with_expiry_status key) (fun _ => Release CacheLock body)
       else
         Access (cache_get_with_expiry_status key) (fun p =>
           match p with
           | (Some v, false) => return_with [CacheLock] (hit v)
           | _ => Release CacheLock body
           end))).
End ResultFallback.
End Generated.
