(* ===== verification/MemoProps.v ===== *)
(** * The properties of the generated functions

    Proved against the contract of [Cached.v]: soundness of what they return under every
    interleaving, mutual exclusion of the body, and when they deadlock and when not, with bodies that
    call the function themselves. *)
From stdpp Require Import relations.
From S2P Require Import Prelude Keys Stores Unbound Cached Instances Return Threads ThreadsProps Memo.

(** ** Soundness *)
Section Soundness.
Context {C K V W A R : Type} `{!KeyEq K, !KeyLaws K, !Cached C K V W, !StoreView C K V, !CachedLaws C K V W}.
Context `{!Returns R V}.
Context (convert : A -> K) (body : A -> R -> Prop).

(** [r] comes from what the body returned for a call with the key of [a]. *)
Definition justified (a : A) (r : R) : Prop :=
  exists a' r', keq (convert a') (convert a) = true /\ body a' r' /\ comes_from r r'.

(** [v] is the stored value of a result of the body for [key]. *)
Definition produced (key : K) (v : V) : Prop :=
  exists a r, keq (convert a) key = true /\ body a r /\ stored r = Some v.

(** Every stored value comes from a run of the body for its key. *)
Definition genuine (c : C) : Prop := consistent c /\ forall k v, holds c k v -> produced k v.

Notation sound := (sound (W := W) genuine justified body).

Lemma genuine_empty c : consistent c -> (forall k v, ~ holds c k v) -> genuine c.
Proof. intros HC HE. split; [done|]. intros k v Hv. by apply HE in Hv. Qed.

Lemma genuine_narrows c c' : genuine c -> narrows c c' -> genuine c'.
Proof. intros [_ H] [HC Hn]. split; [done|]. intros k v Hv. by apply H, Hn. Qed.

Lemma produced_hit a v : produced (convert a) v -> justified a (hit v).
Proof. intros (a' & r & Hk & Hb & Hs). exists a', r. split_and!; [done..|]. right. by rewrite Hs. Qed.

Lemma genuine_adds c c' a v : genuine c -> produced (convert a) v -> adds (convert a) v c c' -> genuine c'.
Proof.
  intros [_ H] (a' & r & Hk & Hb & Hs) [HC Ha]. split; [done|]. intros k' v' Hv.
  destruct (Ha _ _ Hv) as [[Hk' ->]|Hv']; [|by apply H]. exists a', r. split_and!; try done.
  by eapply keq_trans.
Qed.

(** Reading accesses. *)
Lemma sound_read {X} (found : X -> option V) (op : ST (C * W) X) a k c w :
  reads found (convert a) op -> genuine c ->
  (forall x, (forall v, found x = Some v -> produced (convert a) v) -> sound a (k x)) ->
  wp op (fun x s => genuine s.1 /\ sound a (k x)) (fun s => genuine s.1) (c, w).
Proof.
  intros Hr HG Hk. eapply wp_mono; [apply Hr, HG| |].
  - intros x s [Hn Hf]. split; [by eapply genuine_narrows|]. apply Hk. intros v Hv. apply HG. by apply Hf.
  - intros s Hn. by eapply genuine_narrows.
Qed.

Lemma sound_hit held a v : produced (convert a) v -> sound a (return_with (C := C) (W := W) held (hit v)).
Proof. intros H. by apply sound_return, produced_hit. Qed.

(** What is stored of [r] was produced for the key of [a]. *)
Definition storable (a : A) (r : R) : Prop := forall v, stored r = Some v -> produced (convert a) v.

Lemma sound_set a r p : storable a r -> sound a p -> sound a (set_cache_block (convert a) r p).
Proof.
  intros Hr Hp c w HG. destruct (stored r) as [v|] eqn:E; [|by apply wp_ret].
  apply wp_bind. eapply wp_mono; [apply set_writes, HG| |].
  - intros x s Ha. apply wp_ret. split; [by eapply genuine_adds; [|apply Hr|]|done].
  - intros s Ha. by eapply genuine_adds; [|apply Hr|].
Qed.

Lemma sound_set_return a held r : justified a r -> storable a r ->
  sound a (set_cache_block (convert a) r (return_with held r)).
Proof. intros H Hs. apply sound_set; [done|]. by apply sound_return. Qed.

Lemma body_justified a r : body a r -> justified a r /\ storable a r.
Proof.
  intros H. split; [exists a, r; by rewrite keq_refl; split_and!; [| |left]|].
  intros v Hv. exists a, r. by rewrite keq_refl.
Qed.

(** ** The expansions of the macro *)
Context (force_refresh : option (A -> User W bool)) (hash_one : K -> Z) (buckets : Z).

Notation call_by m := (m convert force_refresh).
Notation bucket a := (BucketLock (bucket_for hash_one buckets (convert a))).

(** The function, its priming companion, and the lock that guards the runs of the body. *)
Inductive generated : (A -> Prog C W R) -> (A -> Prog C W R) -> (A -> option LockName) -> Prop :=
| gen_disabled : generated (call_by disabled sync_lookup) (prime convert) (fun _ => None)
| gen_disabled_unsync `{!CachedRead C K V W, !CachedReadLaws C K V W} :
    generated (call_by disabled unsync_lookup) (prime convert) (fun _ => None)
| gen_default : generated (call_by default_) (prime convert) (fun _ => Some CacheLock)
| gen_default_unsync `{!CachedRead C K V W, !CachedReadLaws C K V W} :
    generated (call_by default_unsync) (prime convert) (fun _ => Some CacheLock)
| gen_by_key : generated (call_by by_key hash_one buckets sync_lookup) (prime_by_key convert hash_one buckets)
    (fun a => Some (bucket a))
| gen_by_key_unsync `{!CachedRead C K V W, !CachedReadLaws C K V W} :
    generated (call_by by_key hash_one buckets unsync_lookup) (prime_by_key convert hash_one buckets)
      (fun a => Some (bucket a))
| gen_fallback `{!CloneCached C K V W, !CloneCachedLaws C K V W, !ReturnsLaws R V} :
    generated (call_by fallback) (prime convert) (fun _ => None).

Lemma sound_guard a p q : sound a p -> sound a q -> sound a (force_refresh_guard force_refresh a p q).
Proof. intros Hp Hq. unfold force_refresh_guard. destruct force_refresh; [|done]. by intros []. Qed.

Lemma sound_hoisted a k : (forall b, sound a (k b)) -> sound a (hoisted force_refresh a k).
Proof. intros H. unfold hoisted. by destruct force_refresh. Qed.

Lemma sound_lookup lk a held miss : (forall a, reads id (convert a) (lk_get lk (convert a))) -> sound a miss ->
  sound a (cache_get_return_block convert force_refresh lk a held miss).
Proof.
  intros Hr Hm. apply sound_guard; [|done]. intros c w HG. apply (sound_read id); [apply Hr|done|].
  intros [v|] Hv; [|done]. by apply sound_hit, Hv.
Qed.

Lemma sound_run_body a k : (forall r, justified a r -> storable a r -> sound a (k r)) -> sound a (RunBody k).
Proof. intros H r [Hj Hs]%body_justified. by apply H. Qed.

Lemma sound_compute a : sound a (compute_and_set convert a).
Proof. apply sound_run_body. intros r Hr Hs. by apply sound_set_return. Qed.

Lemma sound_get_or_compute a : sound a (get_or_compute convert a).
Proof.
  intros c w HG. apply (sound_read id); [apply get_reads|done|]. intros [v|] Hv; [|apply sound_compute].
  by apply sound_hit, Hv.
Qed.

Lemma sound_default_unsync `{!CachedRead C K V W, !CachedReadLaws C K V W} a :
  sound a (call_by default_unsync a).
Proof.
  apply sound_hoisted. intros b.
  assert (sound a (if b then compute_and_set convert a else get_or_compute convert a)) as Hl
    by (destruct b; [apply sound_compute|apply sound_get_or_compute]).
  destruct b; [exact Hl|]. intros c w HG. apply (sound_read id); [apply peek_reads|done|]. intros [p|] _; [|exact Hl].
  intros c' w' HG'. apply (sound_read id); [apply get_read_reads|done|]. intros [v|] Hv; [|exact Hl].
  by apply sound_hit, Hv.
Qed.

Lemma sound_fallback `{!CloneCached C K V W, !CloneCachedLaws C K V W, !ReturnsLaws R V} a : sound a (call_by fallback a).
Proof.
  apply sound_hoisted. intros b.
  assert (sound a (RunBody (fun r => Acquire CacheLock Exclusive
    match stored r with
    | None => Access (cache_peek_with_expiry_status (convert a)) (fun p =>
        let r := match p.1 with Some v => hit v | None => r end in
        set_cache_block (convert a) r (return_with [CacheLock] r))
    | Some _ => set_cache_block (convert a) r (return_with [CacheLock] r)
    end))) as Hb.
  { apply sound_run_body. intros r Hr Hs. destruct (stored r); [by apply (sound_set_return a [CacheLock])|].
    intros c w HG. apply (sound_read fst); [apply peek_status_reads|done|]. intros p Hp.
    destruct p as [[v|] ?]; apply sound_set_return; try done; [by apply produced_hit, Hp|].
    intros v' Hv'. simpl in Hv'. rewrite stored_hit in Hv'. injection Hv' as <-. by apply Hp. }
  destruct b; intros c w HG.
  - apply (sound_read fst); [apply peek_status_reads|done|]. intros p _. exact Hb.
  - apply (sound_read fst); [apply get_status_reads|done|]. intros [[v|] [|]] Hv; try exact Hb.
    by apply sound_hit, Hv.
Qed.

Lemma sound_generated call primer guard : generated call primer guard ->
  forall a, sound a (call a) /\ sound a (primer a).
Proof.
  assert (forall a held, sound a (RunBody (fun r =>
    Acquire CacheLock Exclusive (set_cache_block (convert a) r (return_with held r))))) as Hm.
  { intros a held. apply sound_run_body. intros r Hr Hs. by apply sound_set_return. }
  intros []; intros a; (split; [|apply (Hm a)]).
  - apply sound_lookup; [intros; apply get_reads|apply Hm].
  - apply sound_lookup; [intros; apply get_read_reads|apply Hm].
  - apply sound_guard; [apply sound_get_or_compute|apply sound_compute].
  - apply sound_default_unsync.
  - apply sound_lookup; [intros; apply get_reads|apply Hm].
  - apply sound_lookup; [intros; apply get_read_reads|apply Hm].
  - apply sound_fallback.
Qed.
End Soundness.

(** ** The generated functions keep the discipline, and what follows *)
Section Claims.
Context {C K V W A R : Type} `{!KeyEq K, !KeyLaws K, !Cached C K V W, !StoreView C K V, !CachedLaws C K V W}.
Context `{!Returns R V}.
Context (convert : A -> K) (force_refresh : option (A -> User W bool)) (hash_one : K -> Z) (buckets : Z).

Implicit Types (g : Config C W A R) (t : Thread C W A R).

Lemma balanced_set guard hs held key r : CacheLock ∈ hs.*1 -> hs.*1 = held ->
  balanced guard hs (set_cache_block (C := C) (W := W) key r (return_with held r)).
Proof. intros H1 H2. split; [done|]. intros _. by apply balanced_return. Qed.

Lemma balanced_guard guard hs a (p q : Prog C W R) : balanced guard hs p -> balanced guard hs q ->
  balanced guard hs (force_refresh_guard force_refresh a p q).
Proof. intros Hp Hq. unfold force_refresh_guard. destruct force_refresh; [|done]. by intros []. Qed.

Lemma balanced_hoisted guard a (k : bool -> Prog C W R) : (forall b, balanced guard [] (k b)) ->
  balanced guard [] (hoisted force_refresh a k).
Proof. intros H. unfold hoisted. by destruct force_refresh. Qed.

Lemma balanced_lookup lk a guard hs (miss : Prog C W R) : CacheLock ∉ hs.*1 -> balanced guard hs miss ->
  balanced guard hs (cache_get_return_block convert force_refresh lk a hs.*1 miss).
Proof.
  intros Hc Hm. split; [done|]. split; [done|]. apply balanced_guard; [|by split].
  split; [left|]. intros [v|]; (split; [done|]); [by apply balanced_return|done].
Qed.

(** Running the body and then storing its result. *)
Lemma balanced_miss a guard hs held : CacheLock ∉ hs.*1 -> held = CacheLock :: hs.*1 ->
  match guard with Some l => (l, Exclusive) ∈ hs | None => hs = [] end ->
  balanced guard hs (RunBody (fun r => Acquire CacheLock Exclusive
    (set_cache_block (C := C) (W := W) (convert a) r (return_with held r)))).
Proof.
  intros Hc -> Hg. split; [done|]. intros r. split; [done|]. split; [done|]. apply balanced_set; [left|done].
Qed.

Lemma balanced_compute a (guard : option LockName) : guard = Some CacheLock ->
  balanced guard [(CacheLock, Exclusive)] (compute_and_set (C := C) (W := W) (R := R) convert a).
Proof. intros ->. split; [left|]. intros r. apply balanced_set; [left|done]. Qed.

Lemma balanced_get_or_compute a :
  balanced (Some CacheLock) [(CacheLock, Exclusive)] (get_or_compute (R := R) convert a).
Proof. split; [left|]. intros [v|]; [by apply balanced_return|by apply balanced_compute]. Qed.

Lemma balanced_generated call primer guard :
  generated (R := R) convert force_refresh hash_one buckets call primer guard ->
  forall a, balanced (guard a) [] (call a) /\ balanced None [] (primer a).
Proof.
  assert (CacheLock ∉ (@nil (LockName * Mode)).*1) as Hn by apply not_elem_of_nil.
  assert (forall b, CacheLock ∉ [(BucketLock b, Exclusive)].*1) as Hb
    by (intros b H; by apply list_elem_of_singleton in H).
  assert (forall a, balanced None [] (prime (C := C) (W := W) (R := R) convert a)) as Hp
    by (intros a; by apply balanced_miss).
  assert (forall a, balanced None [] (prime_by_key (C := C) (W := W) (R := R) convert hash_one buckets a)) as Hpk.
  { intros a. split; [done|]. intros r. split; [apply not_elem_of_nil|]. split; [done|]. split; [apply Hb|].
    split; [done|]. apply balanced_set; [left|done]. }
  assert (forall lk a, balanced None [] (disabled (R := R) convert force_refresh lk a)) as Hd
    by (intros lk a; apply (balanced_lookup lk a None []); [done|by apply balanced_miss]).
  assert (forall lk a, balanced (Some (BucketLock (bucket_for hash_one buckets (convert a)))) []
    (by_key (R := R) convert force_refresh hash_one buckets lk a)) as Hk.
  { intros lk a. split; [apply not_elem_of_nil|]. split; [done|].
    apply (balanced_lookup lk a _ [(BucketLock (bucket_for hash_one buckets (convert a)), Exclusive)]); [apply Hb|].
    apply balanced_miss; [apply Hb|done|left]. }
  intros []; intros a; (split; [|apply Hp || apply Hpk]); try (apply Hd || apply Hk).
  - split; [done|]. split; [done|]. apply balanced_guard; [apply balanced_get_or_compute|by apply balanced_compute].
  - apply balanced_hoisted. intros b. split; [done|]. split; [done|].
    assert (balanced (Some CacheLock) [] (Acquire CacheLock Exclusive
      (if b then compute_and_set (R := R) convert a else get_or_compute convert a))) as Hl.
    { split; [done|]. split; [done|]. destruct b; [by apply balanced_compute|apply balanced_get_or_compute]. }
    destruct b; [by split|]. split; [left|]. intros [p|]; [|by split]. split; [left|].
    intros [v|]; [by apply balanced_return|by split].
  - apply balanced_hoisted. intros b. split; [done|]. split; [done|].
    assert (balanced None [] (RunBody (fun r : R => Acquire CacheLock Exclusive
      match stored r with
      | None => Access (cache_peek_with_expiry_status (convert a)) (fun p =>
          let r := match p.1 with Some v => hit v | None => r end in
          set_cache_block (convert a) r (return_with [CacheLock] r))
      | Some _ => set_cache_block (convert a) r (return_with [CacheLock] r)
      end))) as Hl.
    { split; [done|]. intros r. split; [done|]. split; [done|].
      destruct (stored r); [apply (balanced_set _ _ [CacheLock]); [left|done]|].
      split; [left|]. intros p. apply (balanced_set _ _ [CacheLock]); [left|done]. }
    destruct b; (split; [left|]); [by intros p; split|]. intros [[v|] [|]]; by split.
Qed.

(** C3: However the calls interleave, whatever the outer world does and whoever panics, every
    value a function generated by [#[cached]] returns is one that the user's body returned for
    arguments with an equal key - fresh or from the cache, for each lock mode, with unsynchronised
    reads, forced refreshes, priming and stale fallbacks - or, with [with_cached_flag], what is
    returned for the stored form of that result: the same value with the flag set.  The store only
    needs to keep the contract of [Cached]. *)
Theorem memo_sound body call primer guard c w g i a b r :
  generated (R := R) convert force_refresh hash_one buckets call primer guard ->
  consistent c -> (forall k v, ~ holds c k v) -> reachable body call primer c w g ->
  threads g !! i = Some (mkThread a b (Some (Finish r))) ->
  exists a' r', keq (convert a') (convert a) = true /\ body a' r' /\ comes_from r r'.
Proof.
  intros HG HC HE HR Hi.
  destruct (all_sound_reachable (genuine convert body) (justified convert body) body call primer
    (sound_generated _ _ _ _ _ _ _ _ HG) c w g (genuine_empty _ _ c HC HE) HR) as [_ HT].
  exact (HT i _ _ Hi eq_refl).
Qed.

(** C33: [sync_writes] synchronises.  Two calls whose runs of the body are guarded by the same lock -
    any two calls in the default mode, calls with equal keys in the by-key mode - are never both
    running the body. *)
Theorem memo_exclusive body call primer guard c w g :
  generated (R := R) convert force_refresh hash_one buckets call primer guard ->
  (forall x y, keq x y = true -> hash_one x = hash_one y) ->
  reachable body call primer c w g ->
  (forall a a', keq (convert a) (convert a') = true -> guard a = guard a') /\
  (forall i j a a' k k', guard a = guard a' -> guard a <> None ->
     threads g !! i = Some (mkThread a false (Some (RunBody k))) ->
     threads g !! j = Some (mkThread a' false (Some (RunBody k'))) -> i = j).
Proof.
  intros HG Hh HR. split.
  - intros a a' Hk. destruct HG; try done; unfold bucket_for; by rewrite (Hh _ _ Hk).
  - intros i j a a' k k' Eg Hg Hi Hj.
    pose proof (disciplined_reachable body call primer guard (balanced_generated _ _ _ HG) c w g HR) as HD.
    by apply (exclusive guard g i j _ _ k k' HD Hi Hj).
Qed.

(** Under [sync_writes] a call takes the lock of its body first, after the block of [force_refresh] at most. *)
Lemma first_takes_guard call primer guard a l :
  generated (R := R) convert force_refresh hash_one buckets call primer guard -> guard a = Some l -> first_takes l (call a).
Proof.
  destruct 1; intros [= <-]; try done. unfold default_unsync, hoisted. destruct force_refresh; [|done]. by intros x.
Qed.

(** C36: When the generated functions deadlock, where bodies may call the function, and its priming companion,
    themselves.  In every reachable state in which no body that is in such a call runs under a lock - always
    without [sync_writes], with [result_fallback] and in a priming call, whose bodies run under none; always
    where bodies make no such calls - some thread can take a step if a call is not over: also after panics,
    since the locks do not poison.  But a call from a body under a lock, which is a call under [sync_writes],
    for arguments with the same lock - any, in the default mode; those of the same bucket, by key - never
    returns, whatever happens: the locks are not reentrant. *)
Theorem memo_progress body call primer guard c w (n : Nested C W A R) i t :
  generated (R := R) convert force_refresh hash_one buckets call primer guard ->
  consistent c -> (forall k v, ~ holds c k v) -> nested_reachable body call primer c w n ->
  threads (flat n) !! i = Some t ->
  (over t = false -> (forall i t, calls_inside n i t -> guard_of guard t = None) ->
     exists j g, outside_calls n j /\ thread_step body j (flat n) g) /\
  (forall k l a n' t' r, code t = Some (RunBody k) -> guard_of guard t = Some l -> guard a = Some l ->
     rtc (nested_step body call primer) (enter call primer i a false n) n' ->
     threads (flat n') !! (length (threads (flat n))) = Some t' -> code t' <> Some (Finish r)).
Proof.
  intros HG HC HE HR Ht. split.
  - intros Ho Hfree. eapply (nested_progress body call primer (genuine convert body) (justified convert body) guard);
      [apply (sound_generated _ _ _ _ _ _ _ _ HG)|apply (balanced_generated _ _ _ HG)|by apply genuine_empty|done..].
  - intros k l a n' t' r Hk Hg Ha Hs Ht'. eapply (never_returns body call primer guard); [apply (balanced_generated _ _ _ HG)|done..| |exact Hs|exact Ht'].
    by eapply (first_takes_guard call primer guard).
Qed.

(** ** A call on its own *)

(** Look the key up unless a refresh is forced; on a miss run the body and store its result. *)
Definition memo_spec (lk : @Lookup C K V W) (run : User W R) (a : A) : ST (C * W) R :=
  let! refreshing := match force_refresh with Some block => user (block a) | None => ret false end in
  let! found := if refreshing : bool then ret None else lk_get lk (convert a) in
  match found with
  | Some v => ret (hit v)
  | None =>
      let! r := user run in
      match stored r with Some v => cache_set (convert a) v ;; ret tt | None => ret tt end ;;
      ret r
  end.

Lemma alone_miss lk run a (p : Prog C W R) (hitting : V -> Prog C W R) s :
  (forall s, alone run p s =
    (let! r := user run in match stored r with Some v => cache_set (convert a) v ;; ret tt | None => ret tt end ;; ret r) s) ->
  (forall v s, alone run (hitting v) s = ret (hit v) s) ->
  alone run (force_refresh_guard force_refresh a
    (Access (lk_get lk (convert a)) (fun r => match r with Some v => hitting v | None => p end)) p) s = memo_spec lk run a s.
Proof.
  intros Hp Hh. unfold force_refresh_guard, memo_spec.
  destruct force_refresh as [block|]; simpl; [apply bind_ext; intros [] s'; [by rewrite bind_ret|]|rewrite bind_ret];
    apply bind_ext; intros [v|] s2; auto.
Qed.

(** C27: On its own, a function generated by [#[cached]] does what its specification says - look the
    key up unless a refresh is forced, serve what is found, otherwise run the body once and store
    the result - and the same in each lock mode. *)
Theorem memo_alone lk run a s :
  alone run (disabled convert force_refresh lk a) s = memo_spec lk run a s /\
  alone run (by_key convert force_refresh hash_one buckets lk a) s = memo_spec lk run a s /\
  alone run (default_ convert force_refresh a) s = memo_spec sync_lookup run a s.
Proof.
  assert (forall held r s, alone run (return_with (C := C) held r) s = ret r s) as Hret
    by (intros held r s0; induction held as [|l held IH]; [done|exact IH]).
  assert (forall held k r s, alone run (set_cache_block (C := C) k r (return_with held r)) s =
    (match stored r with Some v => cache_set k v ;; ret tt | None => ret tt end ;; ret r) s) as Hset
    by (intros; apply bind_ext; intros; apply Hret).
  split_and!.
  - apply (alone_miss lk run a (Release CacheLock (RunBody (fun r => Acquire CacheLock Exclusive
      (set_cache_block (convert a) r (return_with [CacheLock] r))))) (fun v => Release CacheLock (return_with [] (hit v)))); [|done].
    intros s'. apply bind_ext. intros r s2. apply Hset.
  - set (b := BucketLock (bucket_for hash_one buckets (convert a))).
    apply (alone_miss lk run a (Release CacheLock (RunBody (fun r => Acquire CacheLock Exclusive
      (set_cache_block (convert a) r (return_with [CacheLock; b] r))))) (fun v => Release CacheLock (return_with [b] (hit v)))); [|done].
    intros s'. apply bind_ext. intros r s2. apply Hset.
  - apply (alone_miss sync_lookup run a (compute_and_set convert a) (fun v => return_with [CacheLock] (hit v))); [|done].
    intros s'. apply bind_ext. intros r s2. apply Hset.
Qed.
End Claims.

(** ** Witnesses: an [UnboundCache] behind each lock mode *)
Module Demo.
Import Tick.
#[local] Existing Instance plain_returns.
#[local] Existing Instance plain_returns_laws.

Notation St := (UnboundCache TaggedKey.t Z Tick.t).
Notation Code := (Prog St Tick.t Z).
Notation Cfg := (Config St Tick.t TaggedKey.t Z).

Definition body (a : TaggedKey.t) (r : Z) : Prop := r = TaggedKey.id a * 10.
Definition convert (a : TaggedKey.t) : TaggedKey.t := a.
Definition empty : St := mkUnbound [] StripedCounter.new StripedCounter.new None None.
Definition call_disabled : TaggedKey.t -> Code := disabled convert None sync_lookup.
Definition call_by_key : TaggedKey.t -> Code := by_key convert None TaggedKey.id 8 sync_lookup.

Lemma empty_consistent : consistent empty.
Proof. by repeat split. Qed.

Lemma empty_holds k v : ~ holds empty k v.
Proof. by intros (k0 & H). Qed.

Lemma reach_thread (call primer : TaggedKey.t -> Code) w g i g' : reachable body call primer empty w g -> thread_step body i g g' ->
  reachable body call primer empty w g'.
Proof. intros H Hs. eapply reach_step; [exact H|]. by eapply step_thread. Qed.

(** A call that misses, runs the body, and stores its result. *)
Lemma memo_sound_witness : exists g : Cfg,
  Threads.threads g !! 0%nat = Some (mkThread k1 false (Some (Finish 10))) /\
  exists a' r', keq (convert a') (convert k1) = true /\ body a' r' /\ comes_from 10 r'.
Proof.
  pose proof (reach_step body call_disabled (prime convert) empty (Tick.mk 0 []) _ _
    (reach_start body call_disabled (prime convert) empty (Tick.mk 0 [])) (step_call body _ _ _ k1)) as H.
  eapply reach_thread in H; [|eapply (step_acquire body 0); [reflexivity|reflexivity|by split]].
  eapply reach_thread in H; [|eapply (step_access body 0); [reflexivity|reflexivity|reflexivity]].
  eapply reach_thread in H; [|eapply (step_release body 0); [reflexivity|reflexivity]].
  eapply reach_thread in H; [|eapply (step_body body 0 _ _ _ 10); [reflexivity|reflexivity|reflexivity]].
  eapply reach_thread in H; [|eapply (step_acquire body 0); [reflexivity|reflexivity|by split]].
  eapply reach_thread in H; [|eapply (step_access body 0); [reflexivity|reflexivity|reflexivity]].
  eapply reach_thread in H; [|eapply (step_release body 0); [reflexivity|reflexivity]].
  match type of H with reachable _ _ _ _ _ ?g => exists g end. split; [reflexivity|].
  eapply (memo_sound convert None TaggedKey.id 8 body call_disabled (prime convert) _ empty (Tick.mk 0 []) _ 0%nat k1 false 10).
  - apply gen_disabled.
  - apply empty_consistent.
  - apply empty_holds.
  - exact H.
  - reflexivity.
Defined.

(** A call inside the body, and another with an equal key that waits for its bucket. *)
Lemma memo_exclusive_witness : exists (g : Cfg) k,
  Threads.threads g !! 0%nat = Some (mkThread k1 false (Some (RunBody k))) /\
  forall j k', Threads.threads g !! j = Some (mkThread k1' false (Some (RunBody k'))) -> 0%nat = j.
Proof.
  pose proof (reach_step body call_by_key (prime_by_key convert TaggedKey.id 8) empty (Tick.mk 0 []) _ _
    (reach_start body call_by_key (prime_by_key convert TaggedKey.id 8) empty (Tick.mk 0 [])) (step_call body _ _ _ k1)) as H.
  eapply reach_step in H; [|eapply (step_call body _ _ _ k1')].
  eapply reach_thread in H; [|eapply (step_acquire body 0); [reflexivity|reflexivity|by split]].
  eapply reach_thread in H; [|eapply (step_acquire body 0); [reflexivity|reflexivity|by split]].
  eapply reach_thread in H; [|eapply (step_access body 0); [reflexivity|reflexivity|reflexivity]].
  eapply reach_thread in H; [|eapply (step_release body 0); [reflexivity|reflexivity]].
  match type of H with reachable _ _ _ _ _ ?g => exists g end. eexists. split; [reflexivity|]. intros j k' Hj.
  eapply (memo_exclusive convert None TaggedKey.id 8 body call_by_key (prime_by_key convert TaggedKey.id 8) _ empty
    (Tick.mk 0 []) _); [apply gen_by_key| |exact H| | |reflexivity|exact Hj].
  - intros x y Hxy. by apply Z.eqb_eq.
  - reflexivity.
  - discriminate.
Defined.

(** A body under its bucket: it can go on, and a call it makes for the same key would not return. *)
Lemma memo_progress_witness : exists n : Nested St Tick.t TaggedKey.t Z,
  length (Threads.threads (flat n)) = 1%nat /\
  (exists j g', outside_calls n j /\ thread_step body j (flat n) g') /\
  forall n' t' r, rtc (nested_step body call_by_key (prime_by_key convert TaggedKey.id 8)) (enter call_by_key (prime_by_key convert TaggedKey.id 8) 0 k1' false n) n' ->
    Threads.threads (flat n') !! 1%nat = Some t' -> code t' <> Some (Finish r).
Proof.
  pose proof (nested_reach body call_by_key (prime_by_key convert TaggedKey.id 8) empty (Tick.mk 0 []) _ _
    (nested_start _ _ _ _ _) (nested_call body _ _ _ k1 false)) as H.
  eapply nested_reach in H; [|apply (nested_thread body _ _ _ 0); [by intros ? ? ?|eapply (step_acquire body 0); [reflexivity|reflexivity|by split]]].
  eapply nested_reach in H; [|apply (nested_thread body _ _ _ 0); [by intros ? ? ?|eapply (step_acquire body 0); [reflexivity|reflexivity|by split]]].
  eapply nested_reach in H; [|apply (nested_thread body _ _ _ 0); [by intros ? ? ?|eapply (step_access body 0); [reflexivity|reflexivity|reflexivity]]].
  eapply nested_reach in H; [|apply (nested_thread body _ _ _ 0); [by intros ? ? ?|eapply (step_release body 0); [reflexivity|reflexivity]]].
  match type of H with nested_reachable _ _ _ _ _ ?n => set (n0 := n) in H; exists n0 end. split; [reflexivity|].
  assert (exists k, Threads.threads (flat n0) !! 0%nat = Some (mkThread k1 false (Some (RunBody k)))) as [k Hk] by (eexists; reflexivity).
  destruct (memo_progress convert None TaggedKey.id 8 body call_by_key (prime_by_key convert TaggedKey.id 8) _ empty
    (Tick.mk 0 []) n0 0%nat _ (gen_by_key _ _ _ _) empty_consistent empty_holds H Hk) as [Hgo Hstuck]. split.
  - apply Hgo; [reflexivity|]. by intros i t (_ & j & t' & Hj & _).
  - intros n' t' r Hs Ht'. exact (Hstuck k _ k1' n' t' r eq_refl eq_refl eq_refl Hs Ht').
Defined.
End Demo.
