(* ===== verification/Once.v ===== *)
(** * The functions the [#[once]] macro generates
      ([cached_proc_macro/src/once.rs], [cached_proc_macro/src/helpers.rs])

    One value for all arguments, in a cell behind a read-write lock.  The cell is an [Option] of
    the value, with the instant it was stored at when the attribute has a ttl. *)
From S2P Require Import Prelude Keys Stores Return Threads.

(** [Instant::saturating_duration_since] *)
Definition saturating_duration_since (now earlier : Z) : Z := Z.max (now - earlier) 0.

(** ** The cell *)

(** [now_block], the test of [gen_return_cache_block], and the assignment of [set_cache_block]. *)
Class OnceCell (C V W : Type) : Type := {
  Entry : Type;
  now_block : User W Entry;
  check : Entry -> ST (C * W) (option V);
  assign : V -> ST (C * W) unit }.

Section Cells.
Context {V W : Type}.

Definition set_cell {C} (c : C) : ST (C * W) unit := modify (fun s => (c, s.2)).

(** Without expiry. *)
Definition plain_cell : OnceCell (option V) V W := {|
  Entry := unit;
  now_block w := (Some tt, w);
  check _ := gets fst;
  assign v := set_cell (Some v) |}.

(** [ttl], [ttl_secs] or [ttl_millis]: the age of the entry when the function was called. *)
Definition ttl_cell `{!Clock W} (ttl_duration : Z) : OnceCell (option (Z * V)) V W := {|
  Entry := Z;
  now_block w := let '(n, w) := clock_now w in (Some n, w);
  check cached_now :=
    let! cached := gets fst in
    match cached with
    | Some (created, v) =>
        if saturating_duration_since cached_now created <? ttl_duration then ret (Some v) else ret None
    | None => ret None
    end;
  assign v := let! n := now in set_cell (Some (n, v)) |}.

(** [expires]: the value decides. *)
Definition expires_cell `{!Expires V W} : OnceCell (option V) V W := {|
  Entry := unit;
  now_block w := (Some tt, w);
  check _ :=
    let! cached := gets fst in
    match cached with
    | Some v => let! expired := user (is_expired v) in ret (if expired : bool then None else Some v)
    | None => ret None
    end;
  assign v := set_cell (Some v) |}.
End Cells.

(** ** The programs *)
Section Generated.
Context {C V W A R : Type} `{!OnceCell C V W, !Returns R V}.
Context (force_refresh : option (A -> User W bool)).

Definition set_cache_block (r : R) (p : Prog C W R) : Prog C W R :=
  Access (match stored r with Some v => assign v | None => ret tt end) (fun _ => p).

(** [#set_cache_block], then [__cached_result], under the write lock. *)
Definition set_cache_and_return (r : R) : Prog C W R := set_cache_block r (return_with [CacheLock] r).

(** [if let Some(__cached_result) = &*__cached_cached { #return_cache_block }], the lock held. *)
Definition return_cached (cached_now : Entry) (miss : Prog C W R) : Prog C W R :=
  Access (check cached_now) (fun found =>
    match found with Some v => return_with [CacheLock] (hit v) | None => miss end).

(** [SyncWriteMode::Disabled] *)
Definition disabled (cached_now : Entry) (a : A) : Prog C W R :=
  let miss := Release CacheLock (RunBody (fun r => Acquire CacheLock Exclusive (set_cache_and_return r))) in
  Acquire CacheLock Shared (force_refresh_guard force_refresh a (return_cached cached_now miss) miss).

(** [SyncWriteMode::Default]: a second look under the write lock, which stays held. *)
Definition default_ (cached_now : Entry) (a : A) : Prog C W R :=
  hoisted force_refresh a (fun refreshing =>
    let recompute := RunBody set_cache_and_return in
    let locked :=
      Release CacheLock (Acquire CacheLock Exclusive
        (if refreshing then recompute else return_cached cached_now recompute)) in
    Acquire CacheLock Shared (if refreshing then locked else return_cached cached_now locked)).

Inductive SyncWriteMode : Type := Disabled | Default.

Definition do_set_return_block (sync_writes : SyncWriteMode) (cached_now : Entry) (a : A) : Prog C W R :=
  match sync_writes with Disabled => disabled cached_now a | Default => default_ cached_now a end.

(** The cached function. *)
Definition once (sync_writes : SyncWriteMode) (a : A) : Prog C W R :=
  (Eval now_block (fun cached_now => do_set_return_block sync_writes cached_now a)).

(** The priming function. *)
Definition prime_cache (_ : A) : Prog C W R :=
  (Eval now_block (fun _ => RunBody (fun r => Acquire CacheLock Exclusive (set_cache_and_return r)))).
End Generated.
