(* ===== verification/OnceProps.v ===== *)
(** * The properties of the functions of [#[once]] *)
From S2P Require Import Prelude Keys Stores Return Threads ThreadsProps Once.

(** ** What the cell promises *)
Class OnceView (C V : Type) : Type := once_value : C -> option V.

Class OnceLaws (C V W : Type) `{!OnceCell C V W, !OnceView C V} : Prop := {
  check_finds e c w : wp (check e) (fun r s => s.1 = c /\ forall v, r = Some v -> once_value c = Some v)
    (fun s => s.1 = c) (c, w);
  assign_sets v c w : wp (assign v) (fun _ s => once_value s.1 = Some v) (fun _ => False) (c, w) }.

Section Cells.
Context {V W : Type}.

#[global] Instance plain_view : OnceView (option V) V := id.
#[global] Instance timed_view : OnceView (option (Z * V)) V := fmap snd.

Lemma plain_cell_laws : @OnceLaws (option V) V W plain_cell _.
Proof. by split. Qed.

Lemma ttl_cell_laws `{!Clock W} ttl : @OnceLaws (option (Z * V)) V W (ttl_cell ttl) _.
Proof.
  split; simpl.
  - intros n [[t v]|] w; apply wp_bind, wp_gets; simpl; [|by apply wp_ret].
    case_match; apply wp_ret; [|done]. split; [done|]. by intros ? [= <-].
  - intros v c w. apply wp_bind, wp_now. by apply wp_modify.
Qed.

Lemma expires_cell_laws `{!Expires V W} : @OnceLaws (option V) V W expires_cell _.
Proof.
  split; simpl; [|by intros].
  intros _ [v|] w; apply wp_bind, wp_gets; simpl; [|by apply wp_ret].
  apply wp_bind, wp_user; [|done]. intros [] w' _; apply wp_ret; [done|]. split; [done|]. by intros ? [= <-].
Qed.
End Cells.

(** ** Soundness and the locks, of every cell *)
Section Generated.
Context {C V W A R : Type} `{!OnceCell C V W, !OnceView C V, !OnceLaws C V W, !Returns R V}.
Context (force_refresh : option (A -> User W bool)) (body : A -> R -> Prop).

(** The value of the cell is the stored value of a result of the body. *)
Definition genuine (c : C) : Prop := forall v, once_value c = Some v -> exists a r, body a r /\ stored r = Some v.

(** [r] comes from a result of the body, for some call. *)
Definition justified (_ : A) (r : R) : Prop := exists a r', body a r' /\ comes_from r r'.

Notation sound := (sound (W := W) genuine justified body).

Lemma once_sound_set a r : body a r -> sound a (set_cache_and_return r).
Proof.
  intros Hb c w HG. assert (justified a r) as Hr by (exists a, r; split; [|left]; done).
  destruct (stored r) as [v|] eqn:E; [|by apply wp_ret].
  eapply wp_mono; [apply assign_sets| |done]. intros x s Hs. split; [|by apply (sound_return genuine justified body [CacheLock])].
  intros v'. rewrite Hs. intros [= <-]. by exists a, r.
Qed.

Lemma once_sound_return_cached n a miss : sound a miss -> sound a (return_cached n miss).
Proof.
  intros Hm c w HG. eapply wp_mono; [apply check_finds| |by intros s ->].
  intros [v|] s [-> Hv]; (split; [done|]); [|done]. destruct (HG v (Hv v eq_refl)) as (a' & r & Hb & Hs).
  apply (sound_return genuine justified body [CacheLock]). exists a', r. split; [done|]. right. by rewrite Hs.
Qed.

Lemma sound_once md a : sound a (once force_refresh md a).
Proof.
  intros n. assert (sound a (RunBody set_cache_and_return)) as Hc by (intros r; apply once_sound_set).
  destruct md; simpl; unfold force_refresh_guard, hoisted; destruct force_refresh; simpl; try intros [];
    try (by apply once_sound_return_cached); try done; by repeat apply once_sound_return_cached.
Qed.

Lemma sound_prime a : sound a (prime_cache a).
Proof. intros n r. apply once_sound_set. Qed.

Lemma sound_calls md a : sound a (once force_refresh md a) /\ sound a (prime_cache a).
Proof. split; [apply sound_once|apply sound_prime]. Qed.

(** ** The locks *)
Definition guard (md : SyncWriteMode) : option LockName :=
  match md with Disabled => None | Default => Some CacheLock end.

Lemma once_balanced_set g r : balanced g [(CacheLock, Exclusive)] (set_cache_and_return (C := C) (W := W) r).
Proof. split; [left|]. by intros _. Qed.

Lemma once_balanced_return_cached g m n miss : balanced g [(CacheLock, m)] miss ->
  balanced g [(CacheLock, m)] (return_cached (C := C) (W := W) (R := R) n miss).
Proof. intros Hm. split; [left|]. by intros [v|]. Qed.

Lemma balanced_calls md a : balanced (guard md) [] (once (C := C) (R := R) force_refresh md a) /\
  balanced None [] (prime_cache (C := C) (W := W) (R := R) a).
Proof.
  assert (CacheLock ∉ (@nil (LockName * Mode)).*1) as Hn by apply not_elem_of_nil.
  split; [|intros n; split; [done|]; intros r; split_and!; [done..|apply once_balanced_set]].
  assert (balanced (guard Default) [(CacheLock, Exclusive)] (RunBody (set_cache_and_return (C := C) (W := W)))) as Hc
    by (split; [left|intros r; apply once_balanced_set]).
  assert (balanced None [(CacheLock, Shared)] (Release CacheLock (RunBody (fun r =>
    Acquire CacheLock Exclusive (set_cache_and_return (C := C) (W := W) r))))) as Hm
    by (split; [done|]; split; [done|]; intros r; split_and!; [done..|apply once_balanced_set]).
  intros n. destruct md; simpl.
  - split; [done|]. split; [done|]. unfold force_refresh_guard.
    destruct force_refresh; [intros []|]; [exact Hm|by apply once_balanced_return_cached..].
  - unfold hoisted.
    assert (forall b : bool, balanced (guard Default) [(CacheLock, Shared)] (Release CacheLock (Acquire CacheLock Exclusive
      (if b then RunBody set_cache_and_return else return_cached n (RunBody (set_cache_and_return (C := C) (W := W))))))) as Hl
      by (intros []; (split; [done|]); (split; [done|]); (split; [done|]); [apply Hc|by apply once_balanced_return_cached]).
    destruct force_refresh; [intros b; specialize (Hl b); destruct b|specialize (Hl false)]; (split; [done|]); (split; [done|]);
      [exact Hl|by apply once_balanced_return_cached..].
Qed.
End Generated.

(** ** The value settles

    Without expiry, forced refreshes and priming, the cell is written once. *)
Section Settles.
Context {V W A R : Type} `{!Returns R V, !ReturnsLaws R V} (body : A -> R -> Prop).
#[local] Existing Instance plain_cell.
#[local] Existing Instance plain_cell_laws.

Definition grows (c c' : option V) : Prop := c = None \/ c' = c.

(** What a step may do to the cell: nothing, or fill it under the write lock, [ex]. *)
Definition fills (ex : bool) (c c' : option V) : Prop := c' = c \/ ex = true /\ c = None.

(** From the cell [c] and the write lock held if [ex], the program only fills an empty cell, and a
    result of which something is stored is that of the cell. *)
Fixpoint tame (ex : bool) (p : Prog (option V) W R) (c : option V) : Prop :=
  match p with
  | Finish r => forall v, stored r = Some v -> c = Some v
  | Acquire l md p => l = CacheLock /\ forall c', grows c c' -> tame (match md with Exclusive => true | Shared => false end) p c'
  | Release _ p => forall c', grows c c' -> tame false p c'
  | Eval _ k => forall x c', grows c c' -> tame ex (k x) c'
  | Access op k => forall w, wp op (fun x s => fills ex c s.1 /\ tame ex (k x) s.1) (fun s => fills ex c s.1) (c, w)
  | RunBody k => forall r, tame ex (k r) c
  end.

Lemma grows_trans c1 c2 c3 : grows c1 c2 -> grows c2 c3 -> grows c1 c3.
Proof. unfold grows. naive_solver. Qed.

Lemma fills_grows ex c c' : fills ex c c' -> grows c c'.
Proof. unfold fills, grows. naive_solver. Qed.

(** Programs that hold no lock, or are about to drop one, bear it that the cell is filled. *)
Lemma tame_grows ex p c c' : match p with Access _ _ | RunBody _ => False | _ => True end ->
  grows c c' -> tame ex p c -> tame ex p c'.
Proof.
  intros Hp Hg. destruct p; simpl in *; try done; try (intros H; intros; eapply H; by eapply grows_trans);
    [|intros [-> H]; split; [done|]; intros; eapply H; by eapply grows_trans].
  intros H v Hv. specialize (H v Hv). destruct Hg as [-> | ->]; [done|exact H].
Qed.

Lemma tame_return r c : (forall v, stored r = Some v -> c = Some v) -> tame true (return_with [CacheLock] r) c /\
  tame false (return_with [CacheLock] r) c.
Proof. intros H. by split; intros c' Hg; apply (tame_grows false (Finish r) c c'). Qed.

Lemma tame_set r : tame true (set_cache_and_return r) None.
Proof.
  intros w. destruct (stored r) as [v|] eqn:E.
  - apply wp_modify. split; [by right|]. apply tame_return. intros v' Hv. by rewrite E in Hv.
  - apply wp_ret. split; [by left|]. apply tame_return. intros v' Hv. by rewrite E in Hv.
Qed.

Lemma tame_return_cached ex miss c : (c = None -> tame ex miss None) -> tame ex (return_cached tt miss) c.
Proof.
  intros Hm w. apply wp_gets. simpl. split; [by left|]. destruct c as [v|]; [|by apply Hm].
  destruct ex; apply tame_return; intros v' Hv; rewrite stored_hit in Hv; exact Hv.
Qed.

Lemma tame_once a c : tame false (once (A := A) None Default a) c.
Proof.
  intros [] c0 _. split; [done|]. intros c1 _. apply tame_return_cached. intros _ c2 _. split; [done|]. intros c3 _. apply tame_return_cached. intros _ r. apply tame_set.
Qed.

Notation call := (once (A := A) None Default).

(** Every thread is tame, and holds the write lock where its program says so. *)
Definition settled (g : Config (option V) W A R) : Prop :=
  forall i t p, threads g !! i = Some t -> code t = Some p ->
    exists ex, (ex = true -> writer g CacheLock = Some i) /\ tame ex p (cache g).

Definition unprimed (g : Config (option V) W A R) : Prop := forall i t, threads g !! i = Some t -> priming t = false.

Lemma unprimed_before g g' : step body call prime_cache g g' -> unprimed g' -> unprimed g.
Proof.
  intros Hs Hu i t Ei. destruct (priming_stays body call prime_cache g g' i t Hs Ei) as (t' & Ei' & <-).
  by apply Hu in Ei'.
Qed.

(** While a thread holds the write lock, the others hold no lock. *)
Lemma holder_alone g w0 i j t p : reachable body call prime_cache None w0 g -> unprimed g ->
  writer g CacheLock = Some i -> threads g !! j = Some t -> code t = Some p -> i <> j ->
  match p with Access _ _ | RunBody _ => False | _ => True end.
Proof.
  intros HR Hu Hw Et Ec Hij.
  destruct (d_threads _ _ (disciplined_reachable body call prime_cache (fun _ => Some CacheLock) (balanced_calls None Default)
    None w0 g HR) j t Et) as (hs & [H1 H2] & _ & Hc).
  rewrite Ec in Hc. unfold guard_of in Hc. rewrite (Hu j t Et) in Hc.
  assert (forall md, (CacheLock, md) ∉ hs) as Hn.
  { intros md Hin. destruct md.
    - apply H2 in Hin. rewrite (no_readers body call prime_cache None w0 g CacheLock i HR Hw) in Hin. by apply elem_of_nil in Hin.
    - apply H1 in Hin. congruence. }
  destruct p; try done.
  - destruct Hc as [([l md] & E & Hin)%list_elem_of_fmap _]. simpl in E. subst. by apply Hn in Hin.
  - destruct Hc as [Hin _]. by apply Hn in Hin.
Qed.

(** The other threads bear what a step does to the cell. *)
Lemma settled_others g w0 i ex c' : reachable body call prime_cache None w0 g -> unprimed g -> settled g ->
  (ex = true -> writer g CacheLock = Some i) -> fills ex (cache g) c' ->
  forall j t p, i <> j -> threads g !! j = Some t -> code t = Some p ->
    exists ex', (ex' = true -> writer g CacheLock = Some j) /\ tame ex' p c'.
Proof.
  intros HR Hu HS Hw Hf j t p Hij Et Ec. destruct (HS j t p Et Ec) as (ex' & Hw' & Ht). exists ex'. split; [done|].
  destruct Hf as [-> | [-> Hc]]; [done|]. eapply tame_grows; [|left; exact Hc|exact Ht].
  exact (holder_alone g w0 i j t p HR Hu (Hw eq_refl) Et Ec Hij).
Qed.

Lemma unlock_other (g : Config (option V) W A R) i j d : i <> j -> writer g CacheLock = Some j ->
  writer (unlock i d g) CacheLock = Some j.
Proof. intros Hij Hj. simpl. rewrite Hj, bool_decide_false by congruence. by rewrite andb_false_r. Qed.

Lemma settled_goto g g1 w0 i ex t q c' : reachable body call prime_cache None w0 g -> unprimed g -> settled g ->
  threads g !! i = Some t -> (ex = true -> writer g CacheLock = Some i) -> fills ex (cache g) c' ->
  cache g1 = c' -> threads g1 = threads g -> (forall j, i <> j -> writer g CacheLock = Some j -> writer g1 CacheLock = Some j) ->
  (forall p, q = Some p -> exists ex', (ex' = true -> writer g1 CacheLock = Some i) /\ tame ex' p c') ->
  settled (goto i t q g1).
Proof.
  intros HR Hu HS Et Hw Hf <- E1 Ho Hq j t' p. simpl. rewrite E1. destruct (decide (i = j)) as [<-|Hij].
  - rewrite list_lookup_insert_eq by (by eapply lookup_lt_Some). intros [= <-] Hp. by apply Hq.
  - rewrite list_lookup_insert_ne by done. intros Et' Ec.
    destruct (settled_others g w0 i ex _ HR Hu HS Hw Hf j t' p Hij Et' Ec) as (ex' & Hw' & Ht).
    exists ex'. split; [|done]. intros E. by apply Ho, Hw'.
Qed.

Lemma settled_step g g' w0 : reachable body call prime_cache None w0 g -> unprimed g' -> settled g ->
  step body call prime_cache g g' -> settled g'.
Proof.
  intros HR Hu' HS Hs. pose proof (unprimed_before g g' Hs Hu') as Hu. destruct Hs as [i g1 Hst|w|a|a]; [|done| |].
  2: { intros j t p [Hj|[_ Hj]]%lookup_app_Some Ec; [by apply (HS j t p)|].
    apply list_lookup_singleton_Some in Hj as [_ <-]. injection Ec as <-. exists false. split; [done|apply tame_once]. }
  2: { specialize (Hu' (length (threads g))). simpl in Hu'. rewrite lookup_app_r, Nat.sub_diag in Hu' by done.
    by specialize (Hu' _ eq_refl). }
  destruct Hst as [t l md p Et Ec Hf|t l p Et Ec|t X m k x w Et Ec Em|t X m k w Et Ec Em|t X op k x s Et Ec Eo
    |t X op k s Et Ec Eo|t k r Et Ec Hb|t k Et Ec]; destruct (HS i t _ Et Ec) as (ex & Hw & Ht); simpl in Ht.
  - destruct Ht as [-> Ht].
    eapply (settled_goto g _ w0 i ex t _ (cache g)); try done; [by left|by destruct md|by destruct md| |].
    + intros j Hij Hj. destruct md; simpl; [done|]. destruct Hf as [Hf _]. congruence.
    + intros ? [= <-]. eexists. split; [|by apply Ht; right]. by destruct md.
  - eapply (settled_goto g _ w0 i ex t _ (cache g)); try done; [by left|by intros; apply unlock_other|].
    intros ? [= <-]. exists false. split; [done|]. by apply Ht; right.
  - eapply (settled_goto g _ w0 i ex t _ (cache g)); try done; [by left|].
    intros ? [= <-]. exists ex. split; [done|]. by apply Ht; right.
  - eapply (settled_goto g _ w0 i ex t _ (cache g)); try done; [by left|by intros; apply unlock_other].
  - specialize (Ht (world g)). unfold wp in Ht. rewrite Eo in Ht. destruct Ht as [Hf Ht].
    eapply (settled_goto g _ w0 i ex t _ s.1); try done. intros ? [= <-]. by exists ex.
  - specialize (Ht (world g)). unfold wp in Ht. rewrite Eo in Ht.
    eapply (settled_goto g _ w0 i ex t _ s.1); try done. by intros; apply unlock_other.
  - eapply (settled_goto g _ w0 i ex t _ (cache g)); try done; [by left|]. intros ? [= <-]. by exists ex.
  - eapply (settled_goto g _ w0 i ex t _ (cache g)); try done; [by left|by intros; apply unlock_other].
Qed.

Lemma settled_reachable w0 g : reachable body call prime_cache None w0 g -> unprimed g -> settled g.
Proof.
  induction 1 as [|g g' HR IH Hs]; intros Hu; [done|]. eapply settled_step; try done. apply IH. by eapply unprimed_before.
Qed.
End Settles.

(** ** The properties *)
Section Claims.
Context {C V W A R : Type} `{!OnceCell C V W, !OnceView C V, !OnceLaws C V W, !Returns R V}.
Context (force_refresh : option (A -> User W bool)) (body : A -> R -> Prop).
Implicit Types (md : SyncWriteMode).

(** However the calls interleave, force a refresh, prime the cell, or panic, a function
    generated by [#[once]] returns only what its body returned, in this call or in one before it:
    with and without expiry, in both lock modes. *)
Theorem once_sound md c w g i a b r : once_value c = None ->
  reachable body (once force_refresh md) prime_cache c w g -> threads g !! i = Some (mkThread a b (Some (Finish r))) ->
  exists a' r', body a' r' /\ comes_from r r'.
Proof.
  intros Hc HR Ei.
  destruct (all_sound_reachable (genuine body) (justified body) body _ _ (sound_calls force_refresh body md) c w g) as [_ HT]; [|done|].
  - intros v. by rewrite Hc.
  - exact (HT i _ _ Ei eq_refl).
Qed.

(** [sync_writes] of [#[once]] runs the body of one call at a time; and where bodies do not call the function
    themselves the generated functions do not deadlock, in either mode: while a call has not finished, some
    thread can take a step. *)
Theorem once_synchronised md c w g : once_value c = None ->
  reachable body (once force_refresh md) prime_cache c w g ->
  (md = Default -> forall i j a a' k k', threads g !! i = Some (mkThread a false (Some (RunBody k))) ->
     threads g !! j = Some (mkThread a' false (Some (RunBody k'))) -> i = j) /\
  (forall i t p, threads g !! i = Some t -> code t = Some p -> (forall r, p <> Finish r) ->
     exists j g', thread_step body j g g').
Proof.
  intros Hc HR. split.
  - intros -> i j a a' k k' Hi Hj.
    pose proof (disciplined_reachable body _ _ (fun _ => Some CacheLock) (balanced_calls force_refresh Default) c w g HR) as HD.
    by apply (exclusive (fun _ => Some CacheLock) g i j _ _ k k' HD Hi Hj).
  - intros i t p. apply (progress (genuine body) (justified body) body (once force_refresh md) prime_cache (fun _ => guard md) c w);
      [apply sound_calls|apply balanced_calls| |done]. intros v. by rewrite Hc.
Qed.

(** ** A call on its own *)

(** Serve the cell if it is fresh by the clock at entry and no refresh is forced; else run the body
    and store its result. *)
Definition once_spec (run : User W R) (a : A) : ST (C * W) R :=
  let! cached_now := user now_block in
  let! refreshing := match force_refresh with Some block => user (block a) | None => ret false end in
  let! found := if refreshing : bool then ret None else check cached_now in
  match found with
  | Some v => ret (hit v)
  | None =>
      let! r := user run in
      match stored r with Some v => assign v | None => ret tt end ;;
      ret r
  end.

(** A cell that is not fresh does not become so by asking twice. *)
Definition repeatable : Prop := forall n s s', check n s = (Done None, s') -> check n s' = (Done None, s').

Lemma alone_set run r s : alone run (set_cache_and_return (C := C) r) s =
  ((match stored r with Some v => assign v | None => ret tt end) ;; ret r) s.
Proof. by apply bind_ext. Qed.

Lemma alone_return_cached run n miss s : alone run (return_cached n miss) s =
  (let! found := check n in match found with Some v => ret (hit v) | None => alone run miss end) s.
Proof. apply bind_ext. by intros [v|] s'. Qed.

Lemma alone_run_and_set run s : alone run (RunBody (set_cache_and_return (C := C))) s =
  (let! r := user run in match stored r with Some v => assign v | None => ret tt end ;; ret r) s.
Proof. apply bind_ext. intros r s'. apply alone_set. Qed.

Lemma alone_twice run n s miss : repeatable ->
  (forall s, alone run miss s = alone run (return_cached n (RunBody (set_cache_and_return (C := C)))) s) ->
  alone run (return_cached n miss) s =
  (let! found := check n in
   match found with
   | Some v => ret (hit v)
   | None => let! r := user run in match stored r with Some v => assign v | None => ret tt end ;; ret r
   end) s.
Proof.
  intros Hr Hm. rewrite alone_return_cached. unfold bind at 1 2. destruct (check n s) as [[[v|]| |] s'] eqn:E; try done.
  rewrite Hm, alone_return_cached. unfold bind at 1. rewrite (Hr n s s' E). apply alone_run_and_set.
Qed.

(** On its own, a function generated by [#[once]] in either mode does what its specification
    says, although the default mode looks twice: it reads the clock, serves a fresh cell, and
    otherwise runs the body and stores the result.  A run that ends is a run of the threads. *)
Theorem once_alone md run a c w : (md = Default -> repeatable) ->
  (forall w r w', run w = (Some r, w') -> body a r) ->
  alone run (once force_refresh md a) (c, w) = once_spec run a (c, w) /\
  (forall r c' w', once_spec run a (c, w) = (Done r, (c', w')) ->
     exists g, reachable body (once force_refresh md) prime_cache c w g /\
       threads g !! 0%nat = Some (mkThread a false (Some (Finish r))) /\ cache g = c' /\ world g = w').
Proof.
  intros Hrep Hrun. assert (alone run (once force_refresh md a) (c, w) = once_spec run a (c, w)) as E.
  { unfold once, once_spec. simpl. apply bind_ext. intros n s. destruct md; simpl.
    - unfold force_refresh_guard. destruct force_refresh as [block|]; simpl; [apply bind_ext; intros [] s'|].
      + apply alone_run_and_set.
      + apply (eq_trans (alone_return_cached run n _ _)), bind_ext. intros [v|] s2; [done|]. apply alone_run_and_set.
      + rewrite bind_ret. apply (eq_trans (alone_return_cached run n _ _)), bind_ext. intros [v|] s2; [done|]. apply alone_run_and_set.
    - unfold hoisted. destruct force_refresh as [block|]; simpl; [apply bind_ext; intros [] s'|].
      + apply alone_run_and_set.
      + apply (alone_twice run n); [by apply Hrep|done].
      + rewrite bind_ret. apply (alone_twice run n); [by apply Hrep|done]. }
  split; [done|]. intros r c' w' Es. rewrite <- E in Es.
  exact (alone_call body (once force_refresh md) prime_cache (guard md) run a r c w c' w' Hrun
    (proj1 (balanced_calls force_refresh md a)) Es).
Qed.
End Claims.

(** C7: A function generated by [#[once]] with [sync_writes], without expiry and forced refreshes,
    and without [with_cached_flag], which makes a hit differ from the result of the body, settles on one value:
    whatever its body returns from run to run and for whichever arguments, and however the calls interleave and
    panic, any two calls whose results are ones the cell stores - not the [Err] or [None] of a function that
    does not store these - return the same value.  Only the priming function could replace it, and it is not
    called. *)
Theorem once_settles {V W A R : Type} `{!Returns R V, !ReturnsLaws R V} (body : A -> R -> Prop)
    (w : W) (g : Config (option V) W A R) i j a a' r r' v v' :
  reachable body (@once _ V _ _ _ plain_cell _ None Default) (@prime_cache _ V _ _ _ plain_cell _) None w g ->
  (forall i t, threads g !! i = Some t -> priming t = false) ->
  threads g !! i = Some (mkThread a false (Some (Finish r))) ->
  threads g !! j = Some (mkThread a' false (Some (Finish r'))) ->
  stored r = Some v -> stored r' = Some v' -> v = v'.
Proof.
  intros HR Hu Hi Hj Hv Hv'. pose proof (settled_reachable body w g HR Hu) as HS.
  destruct (HS i _ _ Hi eq_refl) as (? & _ & H1), (HS j _ _ Hj eq_refl) as (? & _ & H2).
  specialize (H1 v Hv). specialize (H2 v' Hv'). congruence.
Qed.

(** ** Witnesses *)
Module Demo.
Import Tick.
#[local] Existing Instance plain_returns.
#[local] Existing Instance plain_returns_laws.

(** A body that returns its argument tenfold. *)
Definition body (a r : Z) : Prop := r = a * 10.
Definition run (a : Z) : User Tick.t Z := fun w => (Some (a * 10), w).

(** The next step of the reachable state [H]. *)
Tactic Notation "go" uconstr(st) :=
  match goal with H : reachable _ _ _ _ _ _ |- _ =>
    eapply reach_step in H; [|eapply step_thread; eapply st; (reflexivity || by split)]; cbn in H
  end.

Section Cells.
#[local] Instance timed : OnceCell (option (Z * Z)) Z Tick.t := ttl_cell 5.
#[local] Instance timed_laws : OnceLaws (option (Z * Z)) Z Tick.t := ttl_cell_laws 5.

Notation call := (once (C := option (Z * Z)) (W := Tick.t) (R := Z) None).

Lemma timed_repeatable : repeatable (C := option (Z * Z)) (V := Z) (W := Tick.t).
Proof.
  intros n [c w] s'. unfold check. simpl. unfold bind, gets. simpl.
  destruct c as [[t v]|]; [|by intros [= <-]]. destruct (_ <? _) eqn:E; [done|]. intros [= <-]. simpl. by rewrite E.
Qed.

(** A call that finds an expired value runs the body. *)
Lemma demo_run : exists g : Config (option (Z * Z)) Tick.t Z Z, reachable body (call Default) prime_cache None (Tick.mk 5 []) g /\
  Threads.threads g !! 0%nat = Some (mkThread 7 false (Some (Finish 70))).
Proof.
  destruct (alone_call body (call Default) prime_cache (Some CacheLock) (run 7) 7 70 None (Tick.mk 5 [])
    (Some (6, 70)) (Tick.mk 7 [])) as (g & HR & Hg & _); [by intros w r w' [= <- <-]| |reflexivity|by exists g].
  apply (balanced_calls None Default 7).
Qed.

Lemma once_alone_witness : exists g : Config (option (Z * Z)) Tick.t Z Z,
  reachable body (call Default) prime_cache (Some (0, 30)) (Tick.mk 5 []) g /\
  Threads.threads g !! 0%nat = Some (mkThread 7 false (Some (Finish 70))) /\ cache g = Some (6, 70).
Proof.
  destruct (once_alone None body Default (run 7) 7 (Some (0, 30)) (Tick.mk 5 [])) as [_ H];
    [intros _; apply timed_repeatable|by intros w r w' [= <- <-]|].
  destruct (H 70 (Some (6, 70)) (Tick.mk 7 []) eq_refl) as (g & HR & Hg & Hc & _). by exists g.
Defined.

Lemma once_sound_witness : exists g : Config (option (Z * Z)) Tick.t Z Z,
  Threads.threads g !! 0%nat = Some (mkThread 7 false (Some (Finish 70))) /\
  exists a' r', body a' r' /\ comes_from 70 r'.
Proof.
  destruct demo_run as (g & HR & Hg). exists g. split; [done|].
  by apply (once_sound None body Default None (Tick.mk 5 []) g 0 7 false 70).
Defined.

(** A call inside the body, and another that waits. *)
Lemma once_synchronised_witness : exists (g : Config (option (Z * Z)) Tick.t Z Z) k,
  Threads.threads g !! 0%nat = Some (mkThread 7 false (Some (RunBody k))) /\
  (forall j a k', Threads.threads g !! j = Some (mkThread a false (Some (RunBody k'))) -> 0%nat = j) /\
  exists j g', thread_step body j g g'.
Proof.
  pose proof (reach_step body (call Default) prime_cache None (Tick.mk 5 []) _ _
    (reach_start body (call Default) prime_cache None (Tick.mk 5 [])) (step_call body _ _ _ 7)) as H.
  eapply reach_step in H; [|eapply (step_call body _ _ _ 8)].
  go (step_eval body 0).
  go (step_acquire body 0).
  go (step_access body 0).
  go (step_release body 0).
  go (step_acquire body 0).
  go (step_access body 0).
  match type of H with reachable _ _ _ _ _ ?g => exists g end. eexists. split; [reflexivity|].
  epose proof (once_synchronised (C := option (Z * Z)) (V := Z) (R := Z) None body Default None (Tick.mk 5 []) _ eq_refl) as HH.
  specialize (HH H). destruct HH as [He Hp]. split.
  - intros j a k' Hj. exact (He eq_refl 0%nat j _ _ _ _ eq_refl Hj).
  - eapply (Hp 0%nat); [reflexivity|reflexivity|]. discriminate.
Defined.
End Cells.

(** Two calls with different arguments and one result. *)
Lemma once_settles_witness : exists g : Config (option Z) Tick.t Z Z,
  Threads.threads g !! 0%nat = Some (mkThread 7 false (Some (Finish 70))) /\
  Threads.threads g !! 1%nat = Some (mkThread 8 false (Some (Finish 70))) /\
  forall a' r', Threads.threads g !! 1%nat = Some (mkThread a' false (Some (Finish r'))) -> 70 = r'.
Proof.
  pose proof (reach_step body (@once _ Z _ _ _ plain_cell _ None Default) (@prime_cache _ Z _ _ _ plain_cell _)
    None (Tick.mk 5 []) _ _ (reach_start body _ _ None (Tick.mk 5 [])) (step_call body _ _ _ 7)) as H.
  go (step_eval body 0).
  go (step_acquire body 0).
  go (step_access body 0).
  go (step_release body 0).
  go (step_acquire body 0).
  go (step_access body 0).
  go (step_body body 0 _ _ _ 70).
  go (step_access body 0).
  go (step_release body 0).
  eapply reach_step in H; [|eapply (step_call body _ _ _ 8)].
  go (step_eval body 1).
  go (step_acquire body 1).
  go (step_access body 1).
  go (step_release body 1).
  match type of H with reachable _ _ _ _ _ ?g => exists g end. split; [reflexivity|]. split; [reflexivity|].
  intros a' r' Hr. eapply (once_settles body (Tick.mk 5 []) _ 0 1 7 a' 70 r'); [exact H| |reflexivity|exact Hr|reflexivity|reflexivity].
  intros [|[|i]] t Ht; simpl in Ht; by inversion Ht.
Defined.
End Demo.
