(* ===== verification/Sharded.v ===== *)
(** * The layout of the sharded stores ([src/stores/sharded/mod.rs])

    How many shards a store has, which shard a hash goes to, how a size limit is divided over the
    shards, and how a ttl is kept in an atomic. *)
From Stdlib Require Import String.
From S2P Require Import Prelude Keys Stores.
#[local] Close Scope string_scope.

(** [usize::next_power_of_two] and its checked form, on 64 bits. *)
Definition next_power_of_two (n : Z) : Z := 2 ^ Z.log2_up n.
Definition checked_next_power_of_two (n : Z) : option Z :=
  if next_power_of_two n <=? usize_max then Some (next_power_of_two n) else None.
Definition clamp (n lo hi : Z) : Z := Z.min (Z.max n lo) hi.
Definition div_ceil (a b : Z) : Z := a / b + (if 0 <? a mod b then 1 else 0).

Section Layout.
(** [std::thread::available_parallelism()], sampled once. *)
Context (available_parallelism : option Z).

Definition default_shard_count : Z :=
  next_power_of_two (clamp (saturating_mul (default 4 available_parallelism) 4) 8 1024).

Definition default_shard_count_for_capacity (max_size : option Z) : Z :=
  match max_size with
  | Some n => clamp (next_power_of_two (n / 16)) 1 default_shard_count
  | None => default_shard_count
  end.

Definition checked_shard_count (shards : option Z) : result BuildError Z :=
  if bool_decide (shards = Some 0)
  then Err (InvalidValue "shards" "shard count must be >= 1")
  else
    match checked_next_power_of_two (default default_shard_count shards) with
    | Some n => Ok n
    | None => Err (InvalidValue "shards" "rounded shard count overflows usize")
    end.

Definition checked_per_shard_cap_from_total (total n_shards : Z) : result SetMaxSizeError (Z * Z) :=
  let per_shard := div_ceil total n_shards in
  let per_shard := if 1 <? n_shards then Z.max per_shard 16 else per_shard in
  match checked_mul n_shards per_shard with
  | Some total_cap => Ok (per_shard, total_cap)
  | None => Err CapacityOverflow
  end.

Definition per_shard_cap_from_total (total n_shards : Z) : outcome (Z * Z) :=
  match checked_per_shard_cap_from_total total n_shards with Ok r => Done r | Err _ => Unwind end.
End Layout.

(** [(hash >> 32) as usize & mask] *)
Definition shard_index (hash mask : Z) : Z := Z.land (Z.shiftr hash 32) mask.

(** A [Duration] of [ttl] nanoseconds. *)
Definition encode_ttl (ttl : Z) : Z := Z.min ttl (2 ^ 64 - 1).
Definition decode_ttl (nanos : Z) : option Z := if nanos =? 0 then None else Some nanos.

(** What every sharded store has besides its shards: how many there are, the mask, the shard
    hasher and the callback.  [Arc::clone] shares it. *)
Record Inner (K V W : Type) : Type := mkInner {
  shard_len : nat;
  shard_mask : Z;
  hasher : K -> Z;
  on_evict : OnEvict K V W }.
Arguments mkInner {K V W} _ _ _ _.
Arguments shard_len {K V W} _.
Arguments shard_mask {K V W} _.
Arguments hasher {K V W} _.
Arguments on_evict {K V W} _.

(** The index of the shard of a key. *)
Definition index_of {K V W} (d : Inner K V W) (k : K) : nat := Z.to_nat (shard_index (hasher d k) (shard_mask d)).
#[global] Arguments index_of : simpl never.

(** ** Lemmas *)

Lemma next_power_le n : n <= next_power_of_two n.
Proof.
  unfold next_power_of_two. destruct (Z.le_gt_cases n 1).
  - rewrite Z.log2_up_eqn0 by lia. simpl. lia.
  - by apply Z.log2_up_spec.
Qed.

Lemma next_power_mono n m : n <= m -> next_power_of_two n <= next_power_of_two m.
Proof. intros H. unfold next_power_of_two. apply Z.pow_le_mono_r; [lia|]. by apply Z.log2_up_le_mono. Qed.

Lemma next_power_of_power e : 0 <= e -> next_power_of_two (2 ^ e) = 2 ^ e.
Proof. intros H. unfold next_power_of_two. by rewrite Z.log2_up_pow2. Qed.

Definition power_of_two (n : Z) : Prop := exists e, 0 <= e /\ n = 2 ^ e.

Lemma next_power_is_power n : power_of_two (next_power_of_two n).
Proof. exists (Z.log2_up n). split; [apply Z.log2_up_nonneg|done]. Qed.

(** Powers of two are closed under clamping between powers of two. *)
Lemma clamp_power n hi : power_of_two n -> power_of_two hi -> power_of_two (clamp n 1 hi).
Proof.
  intros Hn Hh. unfold clamp. assert (power_of_two 1) as H1 by (by exists 0).
  destruct (Z.max_spec n 1) as [[_ ->]|[_ ->]];
    match goal with |- power_of_two (Z.min ?a ?b) => destruct (Z.min_spec a b) as [[_ ->]|[_ ->]] end; done.
Qed.

Lemma default_shard_count_spec p :
  power_of_two (default_shard_count p) /\ 8 <= default_shard_count p <= 1024.
Proof.
  split; [apply next_power_is_power|]. unfold default_shard_count.
  set (n := clamp _ 8 1024). assert (8 <= n <= 1024) by (unfold n, clamp; lia).
  split; [etransitivity; [|apply next_power_le]; lia|].
  change 1024 with (2 ^ 10). rewrite <- (next_power_of_power 10) by lia. apply next_power_mono. simpl. lia.
Qed.

Lemma div_ceil_spec a b : 0 <= a -> 0 < b -> div_ceil a b * b = a + (- a) mod b.
Proof.
  intros Ha Hb. unfold div_ceil. pose proof (Z.div_mod a b ltac:(lia)) as E.
  destruct (Z.ltb_spec 0 (a mod b)) as [H|H].
  - rewrite Z.mod_opp_l_nz by lia. lia.
  - pose proof (Z.mod_pos_bound a b Hb). assert (a mod b = 0) as Hz by lia.
    rewrite Z.mod_opp_l_z by lia. lia.
Qed.

Lemma shard_index_mod e hash : 0 <= e -> 0 <= hash < 2 ^ 64 ->
  shard_index hash (2 ^ e - 1) = (hash / 2 ^ 32) mod 2 ^ e.
Proof.
  intros He Hh. unfold shard_index. rewrite Z.shiftr_div_pow2 by lia.
  rewrite <- (Z.land_ones _ e) by done. f_equal. rewrite Z.ones_equiv. lia.
Qed.

(** A power of two many shards, the mask that goes with it, and a hasher of 64 bits that gives
    equal keys equal hashes - what [Hash] and [Eq] ask of a key type. *)
Record proper {K V W} `{!KeyEq K} (d : Inner K V W) : Prop := {
  proper_len : power_of_two (Z.of_nat (shard_len d));
  proper_mask : shard_mask d = Z.of_nat (shard_len d) - 1;
  proper_hash : forall k, 0 <= hasher d k < 2 ^ 64;
  proper_cong : forall k k', keq k k' = true -> hasher d k = hasher d k' }.

(** What [Hash] and [Eq] promise of a hasher. *)
Definition hash_ok {K} `{!KeyEq K} (h : K -> Z) : Prop :=
  (forall k, 0 <= h k < 2 ^ 64) /\ forall k k', keq k k' = true -> h k = h k'.

(** A hasher that spreads the identifiers over the upper half. *)
Definition spread (k : TaggedKey.t) : Z := (TaggedKey.id k * 2 ^ 32) mod 2 ^ 64.

Lemma spread_ok : hash_ok spread.
Proof.
  split; [intros k; apply Z.mod_pos_bound; lia|]. intros k k' H. unfold spread. f_equal. f_equal.
  by apply Z.eqb_eq in H.
Qed.

Lemma built_proper {K V W} `{!KeyEq K} n h (cb : OnEvict K V W) : power_of_two n -> 1 <= n -> hash_ok h ->
  proper (mkInner (Z.to_nat n) (n - 1) h cb).
Proof. intros Hp Hn [H1 H2]. split; simpl; rewrite ?Z2Nat.id by lia; done. Qed.

Lemma checked_shard_count_spec p shards n : checked_shard_count p shards = Ok n ->
  match shards with Some s => 0 <= s | None => True end -> power_of_two n /\ 1 <= n <= usize_max.
Proof.
  intros Hc Hs. unfold checked_shard_count in Hc. destruct (bool_decide _) eqn:Eb; [done|].
  unfold checked_next_power_of_two in Hc. set (m := default _ shards) in *.
  destruct (Z.leb_spec (next_power_of_two m) usize_max) as [Hle|]; [|done]. injection Hc as <-.
  split; [apply next_power_is_power|]. split; [|done].
  destruct (next_power_is_power m) as (e & He & Ee). rewrite Ee. pose proof (Z.pow_pos_nonneg 2 e). lia.
Qed.

Lemma index_bound {K V W} `{!KeyEq K} (d : Inner K V W) k : proper d -> (index_of d k < shard_len d)%nat.
Proof.
  intros [(e & He & E) Hm Hh _]. unfold index_of. rewrite Hm, E, shard_index_mod by done.
  pose proof (Z.mod_pos_bound (hasher d k / 2 ^ 32) (2 ^ e) ltac:(by apply Z.pow_pos_nonneg)). lia.
Qed.

Lemma index_cong {K V W} `{!KeyEq K} (d : Inner K V W) k k' : proper d -> keq k k' = true -> index_of d k = index_of d k'.
Proof. intros Hd Hk. unfold index_of. by rewrite (proper_cong d Hd k k' Hk). Qed.

(** The number of shards is a power of two, at least what was asked for (and at least 1), and
    the index of any 64-bit hash, computed by masking, is the upper half of the hash modulo that
    number - so it is in range.  An unconfigured store has between 1 and 1024 shards. *)
Theorem shard_layout p shards n hash : checked_shard_count p shards = Ok n ->
  match shards with Some s => 0 <= s | None => True end -> 0 <= hash < 2 ^ 64 ->
  power_of_two n /\ default (default_shard_count p) shards <= n <= usize_max /\ 1 <= n /\
  shard_index hash (n - 1) = (hash / 2 ^ 32) mod n /\ 0 <= shard_index hash (n - 1) < n /\
  forall max_size, power_of_two (default_shard_count_for_capacity p max_size) /\
    1 <= default_shard_count_for_capacity p max_size <= 1024.
Proof.
  intros Hc Hs Hh. unfold checked_shard_count in Hc. destruct (bool_decide _); [done|].
  unfold checked_next_power_of_two in Hc. set (m := default _ shards) in *.
  destruct (Z.leb_spec (next_power_of_two m) usize_max) as [Hle|]; [|done]. injection Hc as <-.
  destruct (next_power_is_power m) as (e & He & Ee).
  assert (0 < next_power_of_two m) as Hpos by (rewrite Ee; by apply Z.pow_pos_nonneg).
  assert (shard_index hash (next_power_of_two m - 1) = (hash / 2 ^ 32) mod next_power_of_two m) as Hi.
  { rewrite Ee. by apply shard_index_mod. }
  split_and!; [by exists e|apply next_power_le|done|lia|done|rewrite Hi; by apply Z.mod_pos_bound..|].
  intros max_size. destruct (default_shard_count_spec p) as [Hd1 Hd2].
  destruct max_size as [k|]; simpl; [|split; [done|lia]].
  split; [apply clamp_power; [apply next_power_is_power|done]|]. unfold clamp. lia.
Qed.

Lemma shard_layout_witness :
  checked_shard_count (Some 4) (Some 5) = Ok 8 /\
  shard_index (2 ^ 40 + 2 ^ 33 + 7) 7 = ((2 ^ 40 + 2 ^ 33 + 7) / 2 ^ 32) mod 8.
Proof.
  split; [reflexivity|].
  apply (shard_layout (Some 4) (Some 5) 8 (2 ^ 40 + 2 ^ 33 + 7)); [reflexivity|lia|lia].
Defined.

(** The per-shard limit: the shards together can hold at least the requested total, and the
    total they are given is the exact product.  With more than one shard each gets at least 16;
    above that floor the total exceeds the request by less than one entry per shard.  The
    computation fails exactly when the product does not fit in 64 bits, and then the panicking
    variant unwinds. *)
Theorem shard_capacity total n : 0 <= total -> 0 < n ->
  match checked_per_shard_cap_from_total total n with
  | Ok (per, cap) =>
      cap = n * per /\ total <= cap <= usize_max /\ (1 < n -> 16 <= per) /\
      (cap < total + n \/ (1 < n /\ per = 16)) /\ per_shard_cap_from_total total n = Done (per, cap)
  | Err e =>
      e = CapacityOverflow /\ per_shard_cap_from_total total n = Unwind /\
      (if 1 <? n then usize_max < n * Z.max (div_ceil total n) 16 else usize_max < total)
  end.
Proof.
  intros Ht Hn. pose proof (div_ceil_spec total n Ht Hn) as E. pose proof (Z.mod_pos_bound (- total) n Hn) as Hm.
  unfold per_shard_cap_from_total, checked_per_shard_cap_from_total, checked_mul.
  destruct (Z.ltb_spec 1 n) as [H1|H1].
  - destruct (Z.leb_spec (n * Z.max (div_ceil total n) 16) usize_max) as [Hle|Hgt]; [|by split_and!].
    split_and!; try done; [nia|lia|]. destruct (Z.max_spec (div_ceil total n) 16) as [[_ ->]|[_ ->]]; [by right|left; lia].
  - assert (n = 1) as -> by lia. rewrite Z.mul_1_l in *. rewrite Z.mod_1_r in *.
    destruct (Z.leb_spec (div_ceil total 1) usize_max) as [Hle|Hgt]; [split_and!; try done; lia|split_and!; try done; lia].
Qed.

Lemma shard_capacity_witness :
  checked_per_shard_cap_from_total 100 4 = Ok (25, 100) /\
  match checked_per_shard_cap_from_total (2 ^ 64 - 1) 4 with Ok _ => False | Err e => e = CapacityOverflow end.
Proof.
  split; [reflexivity|].
  pose proof (shard_capacity (2 ^ 64 - 1) 4 ltac:(lia) ltac:(lia)) as H.
  destruct (checked_per_shard_cap_from_total (2 ^ 64 - 1) 4) as [[per cap]|e] eqn:E; [discriminate E|]. apply H.
Defined.
