(* ===== verification/Shards.v ===== *)
(** * Shards behind locks ([src/stores/sharded/mod.rs])

    A sharded store is an array of shards, each with its own reader-writer lock, three counters,
    and the store proper inside the lock.  A call is a program of lock operations, accesses to one
    shard's store, atomic operations, and runs of user code; threads interleave between any two of
    them.  This file has the programs, their sequential and their concurrent meaning, and a logic
    for them whose adequacy theorem covers every interleaving.

    The lock is [parking_lot::RwLock]: many readers or one writer, no poisoning, guards dropped on
    unwinding.  What runs within one access - the user's [keep], [is_expired], and the callbacks
    that fire under the lock included - is one step.  The atomics are sequentially consistent
    here; they are touched one location at a time and the source relies on no order between
    them other than program order. *)
From stdpp Require Import relations.
From S2P Require Import Prelude.

(** ** Shards and programs *)
Section Programs.
Context {S G W : Type}.

(** [Shard<S>]: the counters, and the store behind the lock. *)
Record Counters : Type := mkCounters { hits : Z; misses : Z; evictions : Z }.
Record Shard : Type := mkShard { content : S; counters : Counters }.

(** [Shard::new] *)
Definition new_shard (s : S) : Shard := mkShard s (mkCounters 0 0 0).

(** The array of shards and the atomics of the store as a whole. *)
Record Memory : Type := mkMemory { shards : list Shard; globals : G }.

Inductive Prog (A : Type) : Type :=
| Ret (a : A)
| Panic
| Lock (i : nat) (md : Mode) (p : Prog A)
| Unlock (i : nat) (p : Prog A)
| ReadStore {X : Type} (i : nat) (f : S -> ST W X) (k : X -> Prog A)
| WriteStore {X : Type} (i : nat) (f : ST (S * W) X) (k : X -> Prog A)
| Atomic {X : Type} (i : nat) (f : Counters -> X * Counters) (k : X -> Prog A)
| Global {X : Type} (f : G -> X * G) (k : X -> Prog A)
| Outside {X : Type} (m : User W X) (k : X -> Prog A).
#[global] Arguments Ret {A} a.
#[global] Arguments Panic {A}.
#[global] Arguments Lock {A} i md p.
#[global] Arguments Unlock {A} i p.
#[global] Arguments ReadStore {A X} i f k.
#[global] Arguments WriteStore {A X} i f k.
#[global] Arguments Atomic {A X} i f k.
#[global] Arguments Global {A X} f k.
#[global] Arguments Outside {A X} m k.

Fixpoint pbind {A B} (p : Prog A) (k : A -> Prog B) : Prog B :=
  match p with
  | Ret a => k a
  | Panic => Panic
  | Lock i md p => Lock i md (pbind p k)
  | Unlock i p => Unlock i (pbind p k)
  | ReadStore i f q => ReadStore i f (fun x => pbind (q x) k)
  | WriteStore i f q => WriteStore i f (fun x => pbind (q x) k)
  | Atomic i f q => Atomic i f (fun x => pbind (q x) k)
  | Global f q => Global f (fun x => pbind (q x) k)
  | Outside m q => Outside m (fun x => pbind (q x) k)
  end.

(** *** The single operations *)

Definition plock (i : nat) (md : Mode) : Prog unit := Lock i md (Ret tt).
Definition punlock (i : nat) : Prog unit := Unlock i (Ret tt).
Definition peek_store {X} (i : nat) (f : S -> X) : Prog X := ReadStore i (fun s => ret (f s)) Ret.
Definition read_store {X} (i : nat) (f : S -> ST W X) : Prog X := ReadStore i f Ret.
Definition write_store {X} (i : nat) (f : ST (S * W) X) : Prog X := WriteStore i f Ret.
Definition atomic {X} (i : nat) (f : Counters -> X * Counters) : Prog X := Atomic i f Ret.
Definition global {X} (f : G -> X * G) : Prog X := Global f Ret.
Definition outside {X} (m : User W X) : Prog X := Outside m Ret.

Fixpoint piter {A} (l : list A) (body : A -> Prog unit) : Prog unit :=
  match l with
  | [] => Ret tt
  | a :: l => pbind (body a) (fun _ => piter l body)
  end.

Fixpoint pmap {A B} (l : list A) (body : A -> Prog B) : Prog (list B) :=
  match l with
  | [] => Ret []
  | a :: l => pbind (body a) (fun b => pbind (pmap l body) (fun bs => Ret (b :: bs)))
  end.

(** [fetch_add], [load] and [store] on a shard's counters. *)
Definition add_hits (i : nat) (n : Z) : Prog unit :=
  atomic i (fun c => (tt, mkCounters (fetch_add (hits c) n) (misses c) (evictions c))).
Definition add_misses (i : nat) (n : Z) : Prog unit :=
  atomic i (fun c => (tt, mkCounters (hits c) (fetch_add (misses c) n) (evictions c))).
Definition add_evictions (i : nat) (n : Z) : Prog unit :=
  atomic i (fun c => (tt, mkCounters (hits c) (misses c) (fetch_add (evictions c) n))).
Definition load_hits (i : nat) : Prog Z := atomic i (fun c => (hits c, c)).
Definition load_misses (i : nat) : Prog Z := atomic i (fun c => (misses c, c)).
Definition load_evictions (i : nat) : Prog Z := atomic i (fun c => (evictions c, c)).
Definition reset_hits (i : nat) : Prog unit := atomic i (fun c => (tt, mkCounters 0 (misses c) (evictions c))).
Definition reset_misses (i : nat) : Prog unit := atomic i (fun c => (tt, mkCounters (hits c) 0 (evictions c))).
Definition reset_evictions (i : nat) : Prog unit := atomic i (fun c => (tt, mkCounters (hits c) (misses c) 0)).
End Programs.
Arguments Shard : clear implicits.
Arguments Memory : clear implicits.
Arguments Prog : clear implicits.

Declare Scope prog_scope.
Delimit Scope prog_scope with prog.
#[global] Open Scope prog_scope.
Notation "'let*' x ':=' p 'in' q" := (pbind p (fun x => q))
  (at level 10, x pattern, p at level 100, q at level 200) : prog_scope.
Notation "p ;;; q" := (pbind p (fun _ => q))
  (at level 100, q at level 200, right associativity) : prog_scope.

(** A guard's scope: [{ let guard = shards[i].lock.read(); .. }] and [.write()]. *)
Definition with_read {S G W X} (i : nat) (f : S -> ST W X) : Prog S G W X :=
  plock i Shared ;;; let* x := read_store i f in punlock i ;;; Ret x.
Definition with_write {S G W X} (i : nat) (f : ST (S * W) X) : Prog S G W X :=
  plock i Exclusive ;;; let* x := write_store i f in punlock i ;;; Ret x.

(** Sums of counters and sizes wrap. *)
Definition wrapping_sum (l : list Z) : Z := foldr (fun x acc => fetch_add x acc) 0 l.

(** ** What the operations do to the memory *)
Section Meaning.
Context {S G W : Type}.
Notation M := (Memory S G).

Definition set_shard (i : nat) (s : Shard S) (m : M) : M := mkMemory (<[i := s]> (shards m)) (globals m).

(** Out of range, indexing panics. *)
Definition do_read {X} (i : nat) (f : S -> ST W X) : ST (M * W) X := fun '(m, w) =>
  match shards m !! i with
  | Some s => let '(r, w) := f (content s) w in (r, (m, w))
  | None => (Unwind, (m, w))
  end.

Definition do_write {X} (i : nat) (f : ST (S * W) X) : ST (M * W) X := fun '(m, w) =>
  match shards m !! i with
  | Some s => let '(r, (c, w)) := f (content s, w) in (r, (set_shard i (mkShard c (counters s)) m, w))
  | None => (Unwind, (m, w))
  end.

Definition do_atomic {X} (i : nat) (f : Counters -> X * Counters) : ST (M * W) X := fun '(m, w) =>
  match shards m !! i with
  | Some s => let '(x, c) := f (counters s) in (Done x, (set_shard i (mkShard (content s) c) m, w))
  | None => (Unwind, (m, w))
  end.

Definition do_global {X} (f : G -> X * G) : ST (M * W) X := fun '(m, w) =>
  let '(x, g) := f (globals m) in (Done x, (mkMemory (shards m) g, w)).

(** *** A call that runs alone: every lock it asks for is free. *)
Fixpoint exec {A} (p : Prog S G W A) : ST (M * W) A :=
  match p with
  | Ret a => ret a
  | Panic => unwind
  | Lock i _ p => fun s => if (i <? length (shards s.1))%nat then exec p s else (Unwind, s)
  | Unlock _ p => exec p
  | ReadStore i f k => bind (do_read i f) (fun x => exec (k x))
  | WriteStore i f k => bind (do_write i f) (fun x => exec (k x))
  | Atomic i f k => bind (do_atomic i f) (fun x => exec (k x))
  | Global f k => bind (do_global f) (fun x => exec (k x))
  | Outside m k => bind (user m) (fun x => exec (k x))
  end.

(** A call on a store of one's own, as code that runs in the outer world. *)
Definition alone {A} (m : M) (p : Prog S G W A) : User W (A * M) := fun w =>
  match exec p (m, w) with
  | (Done a, (m, w)) => (Some (a, m), w)
  | (_, (_, w)) => (None, w)
  end.

Lemma exec_bind {A B} (p : Prog S G W A) (k : A -> Prog S G W B) s :
  exec (pbind p k) s = bind (exec p) (fun a => exec (k a)) s.
Proof.
  revert s. induction p as [a| |i md p IH|i p IH|X i f q IH|X i f q IH|X i f q IH|X f q IH|X m q IH];
    intros s; simpl; try done;
    try (rewrite bind_assoc; apply bind_ext; intros x s'; apply IH).
  unfold bind at 1. destruct (i <? length (shards s.1))%nat; [apply IH|done].
Qed.
End Meaning.

(** ** Threads *)

Inductive LockState : Type := Readers (l : list nat) | Writer (t : nat).

(** Thread [t] takes the lock in mode [md], if it is free for that. *)
Definition acquire (t : nat) (md : Mode) (l : LockState) : option LockState :=
  match md, l with
  | Shared, Readers l => Some (Readers (t :: l))
  | Exclusive, Readers [] => Some (Writer t)
  | _, _ => None
  end.

(** Thread [t] drops its guard, if it has one. *)
Definition release (t : nat) (l : LockState) : LockState :=
  match l with
  | Readers l => Readers (filter (fun u => u <> t) l)
  | Writer u => if Nat.eqb u t then Readers [] else Writer u
  end.

Section Threads.
Context {S G W R : Type}.
Notation M := (Memory S G).
Notation P := (Prog S G W R).

(** A thread is what is left of its call; it has finished when that is [Ret] or [Panic]. *)
Record Config : Type := mkConfig {
  memory : M; world : W; locks : nat -> LockState; threads : list P }.

Definition set_lock (i : nat) (l : LockState) (ls : nat -> LockState) : nat -> LockState :=
  fun j => if Nat.eqb j i then l else ls j.

Definition goto (t : nat) (p : P) (s : M * W) (ls : nat -> LockState) (g : Config) : Config :=
  mkConfig s.1 s.2 ls (<[t := p]> (threads g)).

(** The guards of an unwinding thread are dropped. *)
Definition crash (t : nat) (s : M * W) (g : Config) : Config :=
  goto t Panic s (fun i => release t (locks g i)) g.

Definition run_at {X} (t : nat) (m : ST (M * W) X) (k : X -> P) (g : Config) : option Config :=
  match m (memory g, world g) with
  | (Done x, s) => Some (goto t (k x) s (locks g) g)
  | (Unwind, s) => Some (crash t s g)
  | (OutOfFuel, _) => None
  end.

(** One step of thread [t]; none if it has finished, or waits for a lock. *)
Definition step (t : nat) (g : Config) : option Config :=
  match threads g !! t with
  | None | Some (Ret _) | Some Panic => None
  | Some (Lock i md p) =>
      if (i <? length (shards (memory g)))%nat then
        match acquire t md (locks g i) with
        | Some l => Some (goto t p (memory g, world g) (set_lock i l (locks g)) g)
        | None => None
        end
      else Some (crash t (memory g, world g) g)
  | Some (Unlock i p) =>
      Some (goto t p (memory g, world g) (set_lock i (release t (locks g i)) (locks g)) g)
  | Some (ReadStore i f k) => run_at t (do_read i f) k g
  | Some (WriteStore i f k) => run_at t (do_write i f) k g
  | Some (Atomic i f k) => run_at t (do_atomic i f) k g
  | Some (Global f k) => run_at t (do_global f) k g
  | Some (Outside m k) => run_at t (user m) k g
  end.

(** Threads take steps in any order, new calls begin at any time, and the outer world changes. *)
Inductive moves {Q} (code : Q -> P) (g : Config) : Config -> Prop :=
| move_thread t g' : step t g = Some g' -> moves code g g'
| move_world w : moves code g (mkConfig (memory g) w (locks g) (threads g))
| move_call q : moves code g (mkConfig (memory g) (world g) (locks g) (threads g ++ [code q])).

Definition start (m : M) (w : W) : Config := mkConfig m w (fun _ => Readers []) [].

Definition reachable {Q} (code : Q -> P) (m : M) (w : W) (g : Config) : Prop :=
  rtc (moves code) (start m w) g.

Definition finished (p : P) : Prop := match p with Ret _ | Panic => True | _ => False end.

(** *** Termination: with no new calls, threads cannot step forever

    whatever the outer world does between two steps. *)
Definition next (g' g : Config) : Prop :=
  exists t w, step t (mkConfig (memory g) w (locks g) (threads g)) = Some g'.

(** [shorter q p]: [q] is what may be left of [p] after a step. *)
Definition shorter (q p : P) : Prop :=
  match p with
  | Ret _ | Panic => False
  | Lock _ _ p | Unlock _ p => q = p
  | ReadStore _ _ k | WriteStore _ _ k | Atomic _ _ k | Global _ k | Outside _ k => exists x, q = k x
  end \/ q = Panic /\ ~ finished p.

Lemma shorter_panic : Acc shorter Panic.
Proof. constructor. intros q [[]|[_ H]]. by destruct H. Qed.

Lemma shorter_acc p : Acc shorter p.
Proof.
  induction p as [a| |i md p IH|i p IH|X i f k IH|X i f k IH|X i f k IH|X f k IH|X m k IH];
    constructor; intros q [Hq|[-> _]]; try exact shorter_panic;
    first [destruct Hq as [x ->]; exact (IH x)|rewrite Hq; exact IH|destruct Hq].
Qed.

(** A list of programs of which one gets shorter. *)
Definition some_shorter (l' l : list P) : Prop :=
  exists t p q, l !! t = Some p /\ shorter q p /\ l' = <[t := q]> l.

Lemma some_shorter_acc l : Acc some_shorter l.
Proof.
  induction l as [|p l IH]; [constructor; intros l' (t & p & q & H & _); done|].
  revert l IH. induction (shorter_acc p) as [p _ IHp]. intros l Hl.
  induction Hl as [l Hl IHl]. constructor. intros l' ([|t] & p' & q & H & Hq & ->); simplify_eq/=.
  - apply IHp; [done|]. by constructor.
  - apply IHl. by exists t, p', q.
Qed.

Lemma run_at_shorter {X} t (m : ST (M * W) X) k g g' p : threads g !! t = Some p -> ~ finished p ->
  (forall x, shorter (k x) p) -> run_at t m k g = Some g' -> some_shorter (threads g') (threads g).
Proof.
  intros Hp Hf Hk H. unfold run_at in H. destruct (m _) as [[x| |] s]; simplify_eq/=.
  - exists t, p, (k x). by split_and!.
  - exists t, p, Panic. split_and!; [done|by right|done].
Qed.

Lemma step_shorter t g g' : step t g = Some g' -> some_shorter (threads g') (threads g).
Proof.
  unfold step. destruct (threads g !! t) as [p|] eqn:Hp; [|done]. intros H.
  destruct p as [a| |i md p|i p|X i f k|X i f k|X i f k|X f k|X m k]; try done;
    try (eapply run_at_shorter; [exact Hp|by intros []|intros x; left; by exists x|exact H]).
  - destruct (_ <? _)%nat; [destruct (acquire _ _ _); [|done]|]; simplify_eq/=.
    + exists t, (Lock i md p), p. split_and!; [done|by left|done].
    + exists t, (Lock i md p), Panic. split_and!; [done|by right; split; [|intros []]|done].
  - simplify_eq/=. exists t, (Unlock i p), p. split_and!; [done|by left|done].
Qed.

Lemma next_acc g : Acc next g.
Proof.
  remember (threads g) as l eqn:E. revert g E. induction (some_shorter_acc l) as [l _ IH].
  intros g ->. constructor. intros g' (t & w & H). eapply IH; [|done]. by apply step_shorter in H.
Qed.
End Threads.
Arguments Config : clear implicits.

(** The shard lock a thread holds, if any: the logic allows one at a time. *)
Notation Held := (option (nat * Mode)).

(** ** A logic for calls

    [I i s x]: the store of shard [i] is well formed, and it is what the specification's state
    [x] says of that shard.  Each thread carries what is left of its specification, [T]; the
    specification moves by [ghost].  [safe h t p Q]: with the lock [h] held and [t] left of its
    specification, [p] keeps the invariant, accesses a store only under its lock and in a mode that
    allows it, asks for a lock only when it holds none, follows its specification, and ends
    with [Q]. *)
Section Logic.
Context {S G W R X T : Type}.
Context (n : nat) (I : nat -> S -> X -> Prop) (J : G -> Prop) (ghost : T * X -> T * X -> Prop).

(** The other shards do not see the move. *)
Definition stable (i : nat) (x x' : X) : Prop := forall j s, j <> i -> I j s x -> I j s x'.

Definition advance (i : nat) (t : T) (x : X) (P : T -> X -> Prop) : Prop :=
  exists t' x', rtc ghost (t, x) (t', x') /\ stable i x x' /\ P t' x'.

Fixpoint safe {A} (h : Held) (t : T) (p : Prog S G W A) (Q : Held -> T -> A -> Prop) : Prop :=
  match p with
  | Ret a => Q h t a
  | Panic => h = None
  | Lock i md p => h = None /\ (i < n)%nat /\ safe (Some (i, md)) t p Q
  | Unlock i p => (exists md, h = Some (i, md)) /\ safe None t p Q
  | ReadStore i f k => (exists md, h = Some (i, md)) /\ forall s x w, I i s x ->
      wp (f s) (fun y _ => advance i t x (fun t' x' => I i s x' /\ safe h t' (k y) Q)) (fun _ => True) w
  | WriteStore i f k => h = Some (i, Exclusive) /\ forall s x w, I i s x ->
      wp f (fun y s' => advance i t x (fun t' x' => I i s'.1 x' /\ safe h t' (k y) Q))
        (fun s' => advance i t x (fun _ x' => I i s'.1 x')) (s, w)
  | Atomic i f k => (i < n)%nat /\ forall c, safe h t (k (f c).1) Q
  | Global f k => forall g, J g -> J (f g).2 /\
      exists t', (forall x, rtc ghost (t, x) (t', x)) /\ safe h t' (k (f g).1) Q
  | Outside m k => forall w y w', m w = (Some y, w') ->
      exists t', (forall x, rtc ghost (t, x) (t', x)) /\ safe h t' (k y) Q
  end.

Lemma advance_mono i t x (P P' : T -> X -> Prop) :
  (forall t' x', P t' x' -> P' t' x') -> advance i t x P -> advance i t x P'.
Proof. intros H (t' & x' & Hg & Hs & HP). exists t', x'. split_and!; auto. Qed.

Lemma advance_refl i t x (P : T -> X -> Prop) : P t x -> advance i t x P.
Proof. intros H. exists t, x. split_and!; [constructor|by intros j s _|done]. Qed.

Lemma safe_mono {A} h t (p : Prog S G W A) Q Q' :
  (forall h t a, Q h t a -> Q' h t a) -> safe h t p Q -> safe h t p Q'.
Proof.
  intros HQ. revert h t. induction p as [a| |i md p IH|i p IH|Y i f q IH|Y i f q IH|Y i f q IH|Y f q IH|Y m q IH];
    intros h t; simpl; auto.
  - intros (? & ? & Hp). eauto.
  - intros [? Hp]. eauto.
  - intros [? Hp]. split; [done|]. intros s x w Hi. eapply wp_mono; [by apply Hp| |done].
    intros y w'. apply advance_mono. intros t' x' [? ?]. eauto.
  - intros [? Hp]. split; [done|]. intros s x w Hi. eapply wp_mono; [by apply Hp| |done].
    intros y s'. apply advance_mono. intros t' x' [? ?]. eauto.
  - intros [? Hp]. eauto.
  - intros Hp g Hg. destruct (Hp g Hg) as (? & t' & ? & ?). eauto.
  - intros Hp w y w' E. destruct (Hp w y w' E) as (t' & ? & ?). eauto.
Qed.

Lemma call_bind {A B} h t (p : Prog S G W A) (k : A -> Prog S G W B) Q :
  safe h t p (fun h t a => safe h t (k a) Q) -> safe h t (pbind p k) Q.
Proof.
  revert h t. induction p as [a| |i md p IH|i p IH|Y i f q IH|Y i f q IH|Y i f q IH|Y f q IH|Y m q IH];
    intros h t; simpl; auto.
  - intros (? & ? & Hp). eauto.
  - intros [? Hp]. eauto.
  - intros [? Hp]. split; [done|]. intros s x w Hi. eapply wp_mono; [by apply Hp| |done].
    intros y w'. apply advance_mono. intros t' x' [? ?]. eauto.
  - intros [? Hp]. split; [done|]. intros s x w Hi. eapply wp_mono; [by apply Hp| |done].
    intros y s'. apply advance_mono. intros t' x' [? ?]. eauto.
  - intros [? Hp]. eauto.
  - intros Hp g Hg. destruct (Hp g Hg) as (? & t' & ? & ?). eauto.
  - intros Hp w y w' E. destruct (Hp w y w' E) as (t' & ? & ?). eauto.
Qed.

(** The rules for the single operations. *)
Lemma safe_atomic {A} i (f : Counters -> A * Counters) h t (Q : Held -> T -> A -> Prop) :
  (i < n)%nat -> (forall a, Q h t a) -> safe h t (atomic i f) Q.
Proof. intros Hi HQ. split; [done|]. intros c. apply HQ. Qed.

Lemma safe_iter {A} (l : list A) body (f : A -> T -> T) t (Q : Held -> T -> unit -> Prop) :
  (forall a t', a ∈ l -> safe None (f a t') (body a) (fun h t _ => h = None /\ t = t')) ->
  Q None t tt -> safe None (foldr f t l) (piter l body) Q.
Proof.
  induction l as [|a l IH]; intros Hb HQ; simpl; [done|]. apply call_bind.
  eapply safe_mono; [|by apply Hb; left]. intros h t' _ [-> ->]. apply IH; [|done].
  intros b t' Hm. apply Hb. by right.
Qed.
End Logic.

(** ** Adequacy: every interleaving *)

(** What the lock of shard [i] says of who holds it. *)
Definition lock_at (hs : list Held) (i : nat) (l : LockState) : Prop :=
  forall u md, hs !! u = Some (Some (i, md)) <->
    match l with Readers l => u ∈ l /\ md = Shared | Writer u' => u = u' /\ md = Exclusive end.

Definition locks_ok (hs : list Held) (ls : nat -> LockState) : Prop := forall i, lock_at hs i (ls i).

Lemma lock_other hs i l t h : lock_at hs i l -> hs !! t = Some None ->
  (forall md, h <> Some (i, md)) -> lock_at (<[t := h]> hs) i l.
Proof.
  intros H Ht Hh u md. specialize (H u md). rewrite <- H. destruct (decide (t = u)) as [->|Hu].
  - rewrite list_lookup_insert_eq by (by eapply lookup_lt_Some). split; [|congruence].
    intros [= ->]. by destruct (Hh md).
  - by rewrite list_lookup_insert_ne.
Qed.

Lemma locks_acquire hs ls t i md l : locks_ok hs ls -> hs !! t = Some None ->
  acquire t md (ls i) = Some l -> locks_ok (<[t := Some (i, md)]> hs) (set_lock i l ls).
Proof.
  intros H Ht Ha j. unfold set_lock. destruct (Nat.eqb_spec j i) as [->|Hj];
    [|apply lock_other; [apply H|done|congruence]].
  intros u md'. specialize (H i u md'). destruct (decide (t = u)) as [<-|Hu].
  - rewrite list_lookup_insert_eq by (by eapply lookup_lt_Some). rewrite Ht in H.
    destruct md, (ls i) as [[|r rs]|w]; simplify_eq/=; split; intros HH; simplify_eq/=;
      try (split; [by left|done]); try done; by destruct HH as [_ ->].
  - rewrite list_lookup_insert_ne by done. rewrite H.
    destruct md, (ls i) as [[|r rs]|w]; simplify_eq/=; rewrite ?elem_of_cons; naive_solver set_solver.
Qed.

Lemma locks_drop hs ls t h : locks_ok hs ls -> hs !! t = Some h ->
  locks_ok (<[t := None]> hs) (fun i => release t (ls i)).
Proof.
  intros H Ht i u md. specialize (H i u md). destruct (decide (t = u)) as [<-|Hu].
  - rewrite list_lookup_insert_eq by (by eapply lookup_lt_Some). split; [done|].
    destruct (ls i) as [l|w]; simpl; [rewrite list_elem_of_filter; naive_solver|].
    destruct (Nat.eqb_spec w t); [by intros [?%elem_of_nil _]|naive_solver].
  - rewrite list_lookup_insert_ne by done. rewrite H. destruct (ls i) as [l|w]; simpl;
      [rewrite list_elem_of_filter; naive_solver|].
    destruct (Nat.eqb_spec w t); [|done]. split; [naive_solver|by intros [?%elem_of_nil _]].
Qed.

Lemma locks_ext hs ls ls' : (forall i, ls i = ls' i) -> locks_ok hs ls -> locks_ok hs ls'.
Proof. intros E H i. rewrite <- E. apply H. Qed.

(** A thread that holds one lock drops that one. *)
Lemma locks_release hs ls t i md : locks_ok hs ls -> hs !! t = Some (Some (i, md)) ->
  locks_ok (<[t := None]> hs) (set_lock i (release t (ls i)) ls).
Proof.
  intros H Ht. pose proof (locks_drop _ _ _ _ H Ht) as Hd. intros j. specialize (Hd j).
  unfold set_lock. destruct (Nat.eqb_spec j i) as [->|Hj]; [done|].
  intros u md'. rewrite (Hd u md'). specialize (H j t md'). rewrite Ht in H.
  destruct (ls j) as [l|w]; simpl.
  - rewrite list_elem_of_filter. split; [naive_solver|]. intros [Hu ->]. split_and!; [|done|done].
    intros ->. destruct H as [_ H]. specialize (H (conj Hu eq_refl)). congruence.
  - destruct (Nat.eqb_spec w t) as [->|]; [|done]. split; [by intros [?%elem_of_nil _]|].
    intros [-> ->]. destruct H as [_ H]. specialize (H (conj eq_refl eq_refl)). congruence.
Qed.

Section Adequacy.
Context {S G W R X T Q : Type}.
Context (n : nat) (I : nat -> S -> X -> Prop) (J : G -> Prop) (ghost : T * X -> T * X -> Prop).
Context (ends : T -> R -> Prop) (code : Q -> Prog S G W R) (spec : Q -> T).
Notation M := (Memory S G).

(** The specification's threads move one at a time, and begin when the calls do. *)
Inductive spec_moves : X * list T -> X * list T -> Prop :=
| spec_thread i t x t' x' ts : ts !! i = Some t -> ghost (t, x) (t', x') ->
    spec_moves (x, ts) (x', <[i := t']> ts)
| spec_call q x ts : spec_moves (x, ts) (x, ts ++ [spec q]).

Definition post (h : Held) (t : T) (r : R) : Prop := h = None /\ ends t r.
Notation ok h t p := (safe n I J ghost h t p post).

Definition memory_ok (m : M) (x : X) : Prop :=
  length (shards m) = n /\ (forall i s, shards m !! i = Some s -> I i (content s) x) /\ J (globals m).

Record good (g : Config S G W R) (x : X) (ts : list T) (hs : list Held) : Prop := {
  good_memory : memory_ok (memory g) x;
  good_locks : locks_ok hs (locks g);
  good_held : length hs = length (threads g);
  good_specs : length ts = length (threads g);
  good_threads : forall i p h t, threads g !! i = Some p -> hs !! i = Some h -> ts !! i = Some t -> ok h t p }.

Lemma spec_ghosts i t x t' x' ts : rtc ghost (t, x) (t', x') -> ts !! i = Some t ->
  rtc spec_moves (x, ts) (x', <[i := t']> ts).
Proof.
  intros H. remember (t, x) as a eqn:Ea. remember (t', x') as b eqn:Eb. revert t x ts Ea.
  induction H as [a|a [t1 x1] b H1 _ IH]; intros t x ts -> Hi.
  - injection Eb as -> ->. by rewrite list_insert_id.
  - econstructor; [by apply (spec_thread i t x t1 x1)|].
    rewrite <- (list_insert_insert_eq ts i t' t1). apply (IH Eb t1 x1); [done|].
    apply list_lookup_insert_eq. by eapply lookup_lt_Some.
Qed.

(** One thread goes on; the others are as they were. *)
Lemma good_goto g x ts hs i p0 t0 h0 p m w ls h t x' :
  good g x ts hs -> threads g !! i = Some p0 -> hs !! i = Some h0 -> ts !! i = Some t0 ->
  memory_ok m x' -> locks_ok (<[i := h]> hs) ls -> ok h t p ->
  good (goto i p (m, w) ls g) x' (<[i := t]> ts) (<[i := h]> hs).
Proof.
  intros [Hm Hl Hh Hs Ht] Hp Hhi Hti Hm' Hl' Hok. split; simpl; [done|done|by rewrite !length_insert..|].
  intros j p' h' t' Hp' Hh' Ht'. destruct (decide (j = i)) as [->|Hj].
  - rewrite list_lookup_insert_eq in Hp' by (by eapply lookup_lt_Some).
    rewrite list_lookup_insert_eq in Hh' by (by eapply lookup_lt_Some).
    rewrite list_lookup_insert_eq in Ht' by (by eapply lookup_lt_Some). by simplify_eq.
  - rewrite list_lookup_insert_ne in Hp' by done. rewrite list_lookup_insert_ne in Hh' by done.
    rewrite list_lookup_insert_ne in Ht' by done. by eapply Ht.
Qed.

Lemma good_lookup g x ts hs i p : good g x ts hs -> threads g !! i = Some p ->
  exists h t, hs !! i = Some h /\ ts !! i = Some t /\ ok h t p.
Proof.
  intros HG Hp. pose proof (lookup_lt_Some _ _ _ Hp) as Hi.
  destruct (lookup_lt_is_Some_2 hs i) as [h Hh]; [by rewrite (good_held _ _ _ _ HG)|].
  destruct (lookup_lt_is_Some_2 ts i) as [t Ht]; [by rewrite (good_specs _ _ _ _ HG)|].
  exists h, t. split_and!; [done|done|]. by eapply good_threads.
Qed.

Lemma memory_ok_set m x x' i s s' : memory_ok m x -> shards m !! i = Some s -> stable I i x x' ->
  I i (content s') x' -> memory_ok (set_shard i s' m) x'.
Proof.
  intros (Hn & Hi & Hj) Hs Hst Hs'. split_and!; simpl; [by rewrite length_insert| |done].
  intros j s0. destruct (decide (j = i)) as [->|Hne].
  - rewrite list_lookup_insert_eq by (by eapply lookup_lt_Some). by intros [= <-].
  - rewrite list_lookup_insert_ne by done. intros H. by apply Hst; [|apply Hi].
Qed.

Lemma memory_ok_same m x x' i s : memory_ok m x -> shards m !! i = Some s -> stable I i x x' ->
  I i (content s) x' -> memory_ok m x'.
Proof.
  intros (Hn & Hi & Hj) Hs Hst Hs'. split_and!; [done| |done].
  intros j s0 H. destruct (decide (j = i)) as [->|Hne]; [by simplify_eq|]. by apply Hst; [|apply Hi].
Qed.

(** A call that runs alone follows its specification too. *)
Lemma exec_safe {A} (p : Prog S G W A) (post' : Held -> T -> A -> Prop) h t x m w :
  memory_ok m x -> safe n I J ghost h t p post' ->
  wp (exec p)
    (fun a s => exists h' t' x', rtc ghost (t, x) (t', x') /\ memory_ok s.1 x' /\ post' h' t' a)
    (fun s => exists t' x', rtc ghost (t, x) (t', x') /\ memory_ok s.1 x') (m, w).
Proof.
  revert h t x m w. induction p as [a| |i md p IH|i p IH|Y i f k IH|Y i f k IH|Y i f k IH|Y f k IH|Y u k IH];
    intros h t x m w Hm Hs; simpl in Hs |- *.
  - apply wp_ret. by exists h, t, x.
  - by exists t, x.
  - destruct Hs as (_ & Hi & Hs). unfold wp. simpl.
    destruct (Nat.ltb_spec i (length (shards m))) as [_|Hlt]; [|destruct Hm; lia]. exact (IH _ _ _ _ _ Hm Hs).
  - destruct Hs as [_ Hs]. exact (IH _ _ _ _ _ Hm Hs).
  - destruct Hs as [_ Hs]. apply wp_bind. pose proof Hm as (Hn & HI & HJ). unfold wp at 1, do_read.
    destruct (shards m !! i) as [s|] eqn:Es; [|by exists t, x].
    specialize (Hs (content s) x w (HI i s Es)). unfold wp in Hs.
    destruct (f (content s) w) as [[y| |] w']; [|by exists t, x|done].
    destruct Hs as (t' & x' & Hg & Hst & HIs & Hs).
    pose proof (memory_ok_same _ _ _ _ _ Hm Es Hst HIs) as Hm'.
    eapply wp_mono; [exact (IH _ _ _ _ _ w' Hm' Hs)|..].
    + intros a s' (h2 & t2 & x2 & Hg2 & HQ). exists h2, t2, x2. split; [by etransitivity; [exact Hg|exact Hg2]|done].
    + intros s' (t2 & x2 & Hg2 & HQ). exists t2, x2. split; [by etransitivity; [exact Hg|exact Hg2]|done].
  - destruct Hs as [_ Hs]. apply wp_bind. pose proof Hm as (Hn & HI & HJ). unfold wp at 1, do_write.
    destruct (shards m !! i) as [s|] eqn:Es; [|by exists t, x].
    specialize (Hs (content s) x w (HI i s Es)). unfold wp in Hs.
    destruct (f (content s, w)) as [[y| |] [c w']]; [| |done].
    + destruct Hs as (t' & x' & Hg & Hst & HIs & Hs).
      pose proof (memory_ok_set _ _ _ _ _ (mkShard c (counters s)) Hm Es Hst HIs) as Hm'.
      eapply wp_mono; [exact (IH _ _ _ _ _ w' Hm' Hs)|..].
      * intros a s' (h2 & t2 & x2 & Hg2 & HQ). exists h2, t2, x2. split; [by etransitivity; [exact Hg|exact Hg2]|done].
      * intros s' (t2 & x2 & Hg2 & HQ). exists t2, x2. split; [by etransitivity; [exact Hg|exact Hg2]|done].
    + destruct Hs as (t' & x' & Hg & Hst & HIs). exists t', x'. split; [done|].
      exact (memory_ok_set _ _ _ _ _ (mkShard c (counters s)) Hm Es Hst HIs).
  - destruct Hs as [_ Hs]. apply wp_bind. pose proof Hm as (Hn & HI & HJ). unfold wp at 1, do_atomic.
    destruct (shards m !! i) as [s|] eqn:Es; [|by exists t, x].
    specialize (Hs (counters s)). destruct (f (counters s)) as [y c].
    assert (memory_ok (set_shard i (mkShard (content s) c) m) x) as Hm'.
    { eapply memory_ok_set; [done|done|by intros ? ? _|]. exact (HI i s Es). }
    exact (IH _ _ _ _ _ w Hm' Hs).
  - apply wp_bind. pose proof Hm as (Hn & HI & HJ). destruct (Hs _ HJ) as (HJ' & t' & Hg' & Hs'). pose proof (Hg' x) as Hg.
    unfold wp at 1, do_global. destruct (f (globals m)) as [y g].
    assert (memory_ok (mkMemory (shards m) g) x) as Hm' by done.
    eapply wp_mono; [exact (IH _ _ _ _ _ w Hm' Hs')|..].
    + intros a s' (h2 & t2 & x2 & Hg2 & HQ). exists h2, t2, x2. split; [by etransitivity; [exact Hg|exact Hg2]|done].
    + intros s' (t2 & x2 & Hg2 & HQ). exists t2, x2. split; [by etransitivity; [exact Hg|exact Hg2]|done].
  - apply wp_bind. unfold wp at 1, user. simpl. destruct (u w) as [[y|] w'] eqn:Eu; [|by exists t, x].
    destruct (Hs _ _ _ Eu) as (t' & Hg' & Hs'). pose proof (Hg' x) as Hg.
    eapply wp_mono; [exact (IH _ _ _ _ _ w' Hm Hs')|..].
    + intros a s' (h2 & t2 & x2 & Hg2 & HQ). exists h2, t2, x2. split; [by etransitivity; [exact Hg|exact Hg2]|done].
    + intros s' (t2 & x2 & Hg2 & HQ). exists t2, x2. split; [by etransitivity; [exact Hg|exact Hg2]|done].
Qed.

(** What a step of one thread does: the specification follows. *)
Definition follows (g' : Config S G W R) (x : X) (ts : list T) : Prop :=
  exists x' ts' hs', rtc spec_moves (x, ts) (x', ts') /\ good g' x' ts' hs'.

Lemma follow_run {Y} g x ts hs i p h t (m : ST (M * W) Y) k g' :
  good g x ts hs -> threads g !! i = Some p -> hs !! i = Some h -> ts !! i = Some t ->
  wp m (fun y s => exists t' x', rtc ghost (t, x) (t', x') /\ memory_ok s.1 x' /\ ok h t' (k y))
    (fun s => exists t' x', rtc ghost (t, x) (t', x') /\ memory_ok s.1 x') (memory g, world g) ->
  run_at i m k g = Some g' -> follows g' x ts.
Proof.
  intros HG Hp Hh Ht Hw Hr. unfold run_at in Hr. unfold wp in Hw.
  destruct (m (memory g, world g)) as [[y| |] [m' w']]; simplify_eq/=.
  - destruct Hw as (t' & x' & Hgh & Hm & Hok). exists x', (<[i := t']> ts), (<[i := h]> hs).
    split; [by eapply spec_ghosts|]. eapply good_goto; [done..| |done]. rewrite list_insert_id by done.
    exact (good_locks _ _ _ _ HG).
  - destruct Hw as (t' & x' & Hgh & Hm). exists x', (<[i := t']> ts), (<[i := None]> hs).
    split; [by eapply spec_ghosts|]. eapply good_goto; [done..| |done].
    eapply locks_drop; [exact (good_locks _ _ _ _ HG)|done].
Qed.

Lemma follow_step g x ts hs i g' : good g x ts hs -> step i g = Some g' -> follows g' x ts.
Proof.
  intros HG Hs. unfold step in Hs. destruct (threads g !! i) as [p|] eqn:Hp; [|done].
  destruct (good_lookup _ _ _ _ _ _ HG Hp) as (h & t & Hh & Ht & Hok).
  pose proof (good_memory _ _ _ _ HG) as Hmem. pose proof Hmem as (Hn & HI & HJ).
  destruct p as [a| |j md p|j p|Y j f k|Y j f k|Y j f k|Y f k|Y m k]; try done.
  - destruct Hok as (-> & Hj & Hok). destruct (Nat.ltb_spec j (length (shards (memory g)))); [|lia].
    destruct (acquire i md (locks g j)) as [l|] eqn:Ha; simplify_eq/=.
    exists x, (<[i := t]> ts), (<[i := Some (j, md)]> hs). split; [by rewrite list_insert_id|].
    eapply good_goto; [done..| |done]. apply locks_acquire; [exact (good_locks _ _ _ _ HG)|done..].
  - destruct Hok as ([md ->] & Hok). simplify_eq/=. exists x, (<[i := t]> ts), (<[i := None]> hs).
    split; [by rewrite list_insert_id|]. eapply good_goto; [done..| |done].
    eapply locks_release; [exact (good_locks _ _ _ _ HG)|done].
  - destruct Hok as ([md ->] & Hok). eapply follow_run; [done..| |exact Hs]. unfold wp, do_read.
    destruct (shards (memory g) !! j) as [s|] eqn:Es; [|by exists t, x].
    specialize (Hok (content s) x (world g) (HI j s Es)). unfold wp in Hok.
    destruct (f (content s) (world g)) as [[y| |] w']; [|by exists t, x|done].
    destruct Hok as (t' & x' & Hg & Hst & HIs & Hok). exists t', x'. split_and!; [done| |done].
    by eapply memory_ok_same.
  - destruct Hok as (-> & Hok). eapply follow_run; [done..| |exact Hs]. unfold wp, do_write.
    destruct (shards (memory g) !! j) as [s|] eqn:Es; [|by exists t, x].
    specialize (Hok (content s) x (world g) (HI j s Es)). unfold wp in Hok.
    destruct (f (content s, world g)) as [[y| |] [c w']]; [| |done].
    + destruct Hok as (t' & x' & Hg & Hst & HIs & Hok). exists t', x'. split_and!; [done| |done].
      by eapply memory_ok_set.
    + destruct Hok as (t' & x' & Hg & Hst & HIs). exists t', x'. split; [done|].
      by eapply memory_ok_set.
  - destruct Hok as (Hj & Hok). eapply follow_run; [done..| |exact Hs]. unfold wp, do_atomic.
    destruct (shards (memory g) !! j) as [s|] eqn:Es; [|by exists t, x].
    specialize (Hok (counters s)). destruct (f (counters s)) as [y c]. exists t, x.
    split_and!; [done| |done]. eapply memory_ok_set; [done|done|by intros ? ? _|]. exact (HI j s Es).
  - eapply follow_run; [done..| |exact Hs]. unfold wp, do_global.
    destruct (Hok (globals (memory g)) HJ) as (HJ' & t' & Hg & Hk).
    destruct (f (globals (memory g))) as [y c]. by exists t', x.
  - eapply follow_run; [done..| |exact Hs]. unfold wp, user. simpl.
    destruct (m (world g)) as [[y|] w'] eqn:Em; [|by exists t, x].
    destruct (Hok _ _ _ Em) as (t' & Hg & Hk). by exists t', x.
Qed.

(** Every call keeps to the rules of the logic. *)
Hypothesis calls_safe : forall q, ok None (spec q) (code q).

Lemma good_start m w x : memory_ok m x -> good (start m w) x [] [].
Proof.
  intros Hm. split; simpl; try done. intros i u md. rewrite lookup_nil. split; [done|].
  by intros [?%elem_of_nil _].
Qed.

Lemma good_call g x ts hs q : good g x ts hs ->
  good (mkConfig (memory g) (world g) (locks g) (threads g ++ [code q])) x (ts ++ [spec q]) (hs ++ [None]).
Proof.
  intros [Hm Hl Hh Hs Ht]. split; simpl; [done| |rewrite !length_app; simpl; lia..|].
  - intros i u md. rewrite <- (Hl i u md). destruct (decide (u < length hs)%nat).
    + by rewrite lookup_app_l.
    + rewrite lookup_app_r by lia. rewrite (lookup_ge_None_2 hs u) by lia.
      destruct (u - length hs)%nat; simpl; rewrite ?lookup_nil; split; congruence.
  - intros i p h t Hp Hhi Hti. destruct (decide (i < length (threads g))%nat).
    + rewrite lookup_app_l in Hp by done. rewrite lookup_app_l in Hhi by (by rewrite Hh).
      rewrite lookup_app_l in Hti by (by rewrite Hs). by eapply Ht.
    + rewrite lookup_app_r in Hp by lia. rewrite lookup_app_r, Hh in Hhi by lia.
      rewrite lookup_app_r, Hs in Hti by lia.
      destruct (i - length (threads g))%nat; simplify_eq/=. apply calls_safe.
Qed.

Lemma good_moves g x ts hs g' : good g x ts hs -> moves code g g' -> follows g' x ts.
Proof.
  intros HG Hs. destruct Hs as [i g' Hs|w|q].
  - by eapply follow_step.
  - exists x, ts, hs. split; [done|]. by destruct HG.
  - exists x, (ts ++ [spec q]), (hs ++ [None]). split; [by eapply rtc_once, spec_call|by apply good_call].
Qed.

Lemma adequacy m w x g : memory_ok m x -> reachable code m w g -> follows g x [].
Proof.
  intros Hm Hr. unfold reachable in Hr.
  refine (rtc_ind_r (fun g => follows g x []) (start m w) _ _ g Hr).
  - exists x, [], []. split; [done|by apply good_start].
  - intros g1 g2 _ Hs (x1 & ts1 & hs1 & Hsp & HG).
    destruct (good_moves _ _ _ _ _ HG Hs) as (x2 & ts2 & hs2 & Hsp' & HG').
    exists x2, ts2, hs2. split; [by etransitivity|done].
Qed.

(** *** Progress *)

(** A thread that holds a lock, or does not ask for one, can take a step. *)
Lemma holder_steps g x ts hs i p : good g x ts hs -> threads g !! i = Some p ->
  (exists l, hs !! i = Some (Some l)) \/ (~ finished p /\ forall j md q, p <> Lock j md q) ->
  exists g', step i g = Some g'.
Proof.
  intros HG Hp Hx. destruct (good_lookup _ _ _ _ _ _ HG Hp) as (h & t & Hh & Ht & Hok).
  destruct (good_memory _ _ _ _ HG) as (Hn & HI & HJ). unfold step. rewrite Hp.
  destruct p as [a| |j md p|j p|Y j f k|Y j f k|Y j f k|Y f k|Y m k].
  - destruct Hok as [-> _]. destruct Hx as [[l E]|[Hx _]]; [congruence|by destruct Hx].
  - simpl in Hok. destruct Hx as [[l E]|[Hx _]]; [congruence|by destruct Hx].
  - destruct Hok as [-> _]. destruct Hx as [[l E]|[_ Hx]]; [congruence|by destruct (Hx j md p)].
  - by eexists.
  - destruct Hok as (_ & Hok). unfold run_at, do_read.
    destruct (shards (memory g) !! j) as [s|] eqn:Es; [|by eexists].
    specialize (Hok (content s) x (world g) (HI j s Es)). unfold wp in Hok.
    destruct (f (content s) (world g)) as [[] ?]; by eauto.
  - destruct Hok as (_ & Hok). unfold run_at, do_write.
    destruct (shards (memory g) !! j) as [s|] eqn:Es; [|by eexists].
    specialize (Hok (content s) x (world g) (HI j s Es)). unfold wp in Hok.
    destruct (f (content s, world g)) as [[] [? ?]]; by eauto.
  - unfold run_at, do_atomic. destruct (shards (memory g) !! j); [|by eexists]. destruct (f _). by eexists.
  - unfold run_at, do_global. destruct (f _). by eexists.
  - unfold run_at, user. destruct (m _) as [[] ?]; by eexists.
Qed.

Lemma can_go_on g x ts hs i p : good g x ts hs -> threads g !! i = Some p -> ~ finished p ->
  exists j g', step j g = Some g'.
Proof.
  intros HG Hp Hf. destruct (step i g) as [g'|] eqn:Hs; [by exists i, g'|].
  assert (exists j md q, p = Lock j md q) as (j & md & q & ->).
  { destruct p; eauto; exfalso; try (by destruct Hf);
      destruct (holder_steps _ _ _ _ _ _ HG Hp) as [g' E]; try congruence; right; (split; [by intros []|done]). }
  destruct (good_lookup _ _ _ _ _ _ HG Hp) as (h & t & Hh & Ht & -> & Hj & _).
  unfold step in Hs. rewrite Hp in Hs. destruct (_ <? _)%nat; [|done].
  assert (exists u md', hs !! u = Some (Some (j, md'))) as (u & md' & Hu).
  { pose proof (good_locks _ _ _ _ HG j) as Hl.
    destruct (locks g j) as [[|u l]|u] eqn:El; [by destruct md|..].
    - exists u, Shared. apply Hl. split; [by left|done].
    - exists u, Exclusive. by apply Hl. }
  destruct (lookup_lt_is_Some_2 (threads g) u) as [pu Hpu].
  { rewrite <- (good_held _ _ _ _ HG). by eapply lookup_lt_Some. }
  destruct (holder_steps _ _ _ _ _ _ HG Hpu) as [g' E]; [left; by eexists|]. by exists u, g'.
Qed.

(** When every thread has finished, every lock is free. *)
Lemma quiescent g x ts hs : good g x ts hs -> Forall finished (threads g) ->
  forall i, locks g i = Readers [].
Proof.
  intros HG Hf i. assert (forall u h, hs !! u = Some (Some h) -> False) as Hno.
  { intros u h Hu. destruct (lookup_lt_is_Some_2 (threads g) u) as [p Hp].
    { rewrite <- (good_held _ _ _ _ HG). by eapply lookup_lt_Some. }
    destruct (good_lookup _ _ _ _ _ _ HG Hp) as (h' & t & Hh & _ & Hok).
    pose proof (Forall_lookup_1 _ _ _ _ Hf Hp) as Hfp.
    destruct p; try done; simpl in Hok; [destruct Hok|]; congruence. }
  pose proof (good_locks _ _ _ _ HG i) as Hl.
  destruct (locks g i) as [[|u l]|u]; [done|exfalso..].
  - apply (Hno u (i, Shared)). apply Hl. split; [by left|done].
  - apply (Hno u (i, Exclusive)). by apply Hl.
Qed.
End Adequacy.
