(* ===== verification/Concurrent.v ===== *)
(** * The traits of the concurrent stores ([src/lib.rs])

    [ConcurrentCached], [ConcurrentCachePeek] and [ConcurrentCloneCached] as classes of programs
    over shared memory, their provided methods, and the contract the sharded stores keep: seen
    through its calls, however they interleave, a store is one map whose operations are atomic. *)
From stdpp Require Import relations.
From S2P Require Import Prelude Keys Stores Shards.

(** ** The traits.  The sharded stores cannot fail: [Result<_, Infallible>] is its [Ok]. *)

Class ConcurrentCached (D S G K V W : Type) : Type := {
  cache_get : D -> K -> Prog S G W (option V);
  cache_set : D -> K -> V -> Prog S G W (option V);
  cache_remove : D -> K -> Prog S G W (option V);
  cache_remove_entry : D -> K -> Prog S G W (option (K * V));
  cache_contains : D -> K -> Prog S G W bool;
  cache_clear : D -> Prog S G W unit;
  cache_reset : D -> Prog S G W unit;
  cache_reset_metrics : D -> Prog S G W unit }.

Class ConcurrentCachePeek (D S G K V W : Type) : Type := {
  cache_peek : D -> K -> Prog S G W (option V) }.

Class ConcurrentCloneCached (D S G K V W : Type) : Type := {
  cache_get_with_expiry_status : D -> K -> Prog S G W (option V * bool);
  cache_peek_with_expiry_status : D -> K -> Prog S G W (option V * bool) }.

Class ConcurrentCacheEvict (D S G W : Type) : Type := { evict : D -> Prog S G W Z }.

Class ConcurrentCacheTtl (D S G W : Type) : Type := {
  ttl : D -> Prog S G W (option Z);
  set_ttl : D -> Z -> Prog S G W (option Z);
  unset_ttl : D -> Prog S G W (option Z) }.

Class ConcurrentCacheRefreshOnHit (D S G W : Type) : Type := {
  refresh_on_hit : D -> Prog S G W bool;
  set_refresh_on_hit : D -> bool -> Prog S G W bool }.

Definition try_set_ttl {D S G W} `{!ConcurrentCacheTtl D S G W} (d : D) (t : Z) : Prog S G W (result SetTtlError (option Z)) :=
  if t =? 0 then Ret (Err ZeroTtl) else let* prev := set_ttl d t in Ret (Ok prev).

(** *** The provided methods *)
Section Provided.
Context {D S G K V W : Type} `{!ConcurrentCached D S G K V W}.

Definition cache_delete (d : D) (k : K) : Prog S G W bool :=
  let* removed := cache_remove_entry d k in
  Ret (match removed with Some _ => true | None => false end).

(** A get, then a set: another thread may store a value in between. *)
Definition cache_get_or_set_with (d : D) (k : K) (f : User W V) : Prog S G W V :=
  let* r := cache_get d k in
  match r with
  | Some v => Ret v
  | None =>
      let* v := outside f in
      cache_set d k v ;;;
      Ret v
  end.

Definition cache_try_get_or_set_with {E} (d : D) (k : K) (f : User W (result E V)) : Prog S G W (result E V) :=
  let* r := cache_get d k in
  match r with
  | Some v => Ret (Ok v)
  | None =>
      let* r := outside f in
      match r with
      | Ok v => cache_set d k v ;;; Ret (Ok v)
      | Err e => Ret (Err e)
      end
  end.
End Provided.

(** ** The specification: one map, atomic operations

    The operations of a call take effect one at a time; between them anything may happen to the
    map.  With [lossy] the map may have forgotten a binding: a store that evicts or expires
    entries answers [None] instead of the latest value, never another value. *)
Section Spec.
Context {K V : Type} `{!KeyEq K}.

Definition Map : Type := K -> option V.

Inductive MapOp : Type :=
| Read (k : K)
| Write (k : K) (v : V)
| Erase (k : K)
| Modify (k : K) (rel : option V -> option V -> option V -> Prop)  (** its binding, the answer, its new binding *)
| EraseAll (on : K -> bool)                              (** every binding of these keys *)
| Filter (on : K -> bool) (kept dropped : K -> V -> Prop).  (** of these keys, some bindings *)

Definition told (lossy : bool) (r m : option V) : Prop := r = m \/ (lossy = true /\ r = None).

Definition put (k : K) (v : option V) (m : Map) : Map := fun k' => if keq k k' then v else m k'.

Definition filtered (lossy : bool) (kept dropped : K -> V -> Prop) (k : K) (b b' : option V) : Prop :=
  match b with
  | None => b' = None
  | Some v => (b' = None /\ dropped k v) \/ (b' = Some v /\ (kept k v \/ lossy = true))
  end.

Definition answers (lossy : bool) (op : MapOp) (m : Map) (r : option V) (m' : Map) : Prop :=
  match op with
  | Read k => told lossy r (m k) /\ m' = m
  | Write k v => told lossy r (m k) /\ m' = put k (Some v) m
  | Erase k => told lossy r (m k) /\ m' = put k None m
  | Modify k rel => exists b, rel (m k) r b /\ m' = put k b m
  | EraseAll on => m' = (fun k => if on k then None else m k)
  | Filter on kept dropped =>
      forall k, if on k then filtered lossy kept dropped k (m k) (m' k) else m' k = m k
  end.

(** What is left of a call: it waits for an operation, it has a value chosen by user code, or
    it returns. *)
Inductive Spec (R : Type) : Type :=
| Returns (P : R -> Prop)
| Await (op : MapOp) (k : option V -> Spec R)
| Choose {X : Type} (P : X -> Prop) (k : X -> Spec R).
#[global] Arguments Returns {R} P.
#[global] Arguments Await {R} op k.
#[global] Arguments Choose {R X} P k.

Inductive spec_step {R} (lossy : bool) : Spec R * Map -> Spec R * Map -> Prop :=
| spec_answer op k r m m' : answers lossy op m r m' -> spec_step lossy (Await op k, m) (k r, m')
| spec_choose X (P : X -> Prop) k x m : P x -> spec_step lossy (Choose P k, m) (k x, m).

(** All that is left may be choices, and then the result [r]. *)
Fixpoint ends {R} (t : Spec R) (r : R) : Prop :=
  match t with
  | Returns P => P r
  | Await _ _ => False
  | Choose P k => exists x, P x /\ ends (k x) r
  end.

(** One operation after the other, the answers unused. *)
Definition await_all {R} (ops : list MapOp) (t : Spec R) : Spec R :=
  foldr (fun op t => Await op (fun _ => t)) t ops.
End Spec.
Arguments Map : clear implicits.
Arguments MapOp : clear implicits.
Arguments Spec : clear implicits.

(** ** The contract of a store *)
Section Contract.
Context {S G K V W : Type} `{!KeyEq K}.

(** The number of shards, the invariant of the store in shard [i] towards the map, and the
    invariant of the atomics. *)
Record Layout : Type := mkLayout {
  shard_count : nat;
  slot : K -> nat;
  lossy : bool;
  inv : nat -> S -> Map K V -> Prop;
  ginv : G -> Prop;
  slot_cong : forall k k', keq k k' = true -> slot k = slot k';
  slot_bound : forall k, (slot k < shard_count)%nat;
  inv_local : forall i s (m m' : Map K V), (forall k, slot k = i -> m' k = m k) -> inv i s m -> inv i s m' }.

Context (L : Layout).

Definition safely {A R} (h : Held) (t : Spec K V R) (p : Prog S G W A) (Q : Held -> Spec K V R -> A -> Prop) : Prop :=
  safe (shard_count L) (inv L) (ginv L) (spec_step (lossy L)) h t p Q.

(** [p] is the operation [op], atomically, and returns what [ok] says of its answer. *)
Definition does {A} (op : MapOp K V) (p : Prog S G W A) (ok : A -> option V -> Prop) : Prop :=
  forall R (q : option V -> Spec K V R),
    safely None (Await op q) p (fun h t a => h = None /\ exists r, t = q r /\ ok a r).

(** [p] is the operations [ops], one after the other. *)
Definition does_all {A} (ops : list (MapOp K V)) (p : Prog S G W A) : Prop :=
  forall R (q : Spec K V R), safely None (await_all ops q) p (fun h t _ => h = None /\ t = q).

Definition shard_wise (op : nat -> MapOp K V) : list (MapOp K V) := op <$> seq 0 (shard_count L).
Definition on_shard (i : nat) (k : K) : bool := Nat.eqb (slot L k) i.
Definition erase_shards : list (MapOp K V) := shard_wise (fun i => EraseAll (on_shard i)).

Lemma does_bind {A B} op (p : Prog S G W A) ok (k : A -> Prog S G W B) R (q : option V -> Spec K V R) Q :
  does op p ok -> (forall a r, ok a r -> safely None (q r) (k a) Q) ->
  safely None (Await op q) (pbind p k) Q.
Proof.
  intros Hp Hk. apply call_bind. eapply safe_mono; [|by apply Hp].
  intros h t a (-> & r & -> & Hok). by apply Hk.
Qed.

Lemma does_ret {A B} op (p : Prog S G W A) (ok : A -> option V -> Prop) (f : A -> B) (ok' : B -> option V -> Prop) :
  does op p ok -> (forall a r, ok a r -> ok' (f a) r) -> does op (pbind p (fun a => Ret (f a))) ok'.
Proof. intros Hp Hf R q. eapply does_bind; [done|]. intros a r Hok. split; [done|]. eauto. Qed.

Lemma does_all_bind {A B} ops (p : Prog S G W A) (k : A -> Prog S G W B) R (q : Spec K V R) Q :
  does_all ops p -> (forall a, safely None q (k a) Q) -> safely None (await_all ops q) (pbind p k) Q.
Proof.
  intros Hp Hk. apply call_bind. eapply safe_mono; [|by apply Hp]. intros h t a (-> & ->). apply Hk.
Qed.

Lemma does_all_seq {A B} ops1 ops2 (p : Prog S G W A) (k : A -> Prog S G W B) :
  does_all ops1 p -> (forall a, does_all ops2 (k a)) -> does_all (ops1 ++ ops2) (pbind p k).
Proof.
  intros Hp Hk R q. unfold await_all. rewrite foldr_app. apply (does_all_bind ops1); [done|].
  intros a. apply Hk.
Qed.

Lemma does_all_iter {A} (op : A -> list (MapOp K V)) (l : list A) (body : A -> Prog S G W unit) :
  (forall a, a ∈ l -> does_all (op a) (body a)) -> does_all (l ≫= op) (piter l body).
Proof.
  induction l as [|a l IH]; intros H; simpl; [by intros R q|].
  apply does_all_seq; [by apply H; left|]. intros _. apply IH. intros b Hb. apply H. by right.
Qed.

Lemma does_all_map {A B} (op : A -> list (MapOp K V)) (l : list A) (body : A -> Prog S G W B) :
  (forall a, a ∈ l -> does_all (op a) (body a)) -> does_all (l ≫= op) (pmap l body).
Proof.
  induction l as [|a l IH]; intros H; [by intros R q|]. rewrite bind_cons. cbn [pmap].
  apply does_all_seq; [by apply H; left|]. intros b. rewrite <- (app_nil_r (l ≫= op)).
  apply does_all_seq; [|by intros bs R q]. apply IH. intros b' Hb. apply H. by right.
Qed.

(** An operation whose answer is not used. *)
Lemma does_does_all {A} op (p : Prog S G W A) ok : does op p ok -> does_all [op] p.
Proof.
  intros H R q. eapply safe_mono; [|apply (H R (fun _ => q))]. intros h t a (-> & r & -> & _). done.
Qed.

Lemma shard_wise_bind (op : nat -> MapOp K V) : shard_wise op = seq 0 (shard_count L) ≫= fun i => [op i].
Proof. unfold shard_wise. induction (seq 0 (shard_count L)) as [|i l IH]; [done|]. cbn. by rewrite <- IH. Qed.

(** The same operation on every shard. *)
Lemma does_all_shards (op : nat -> MapOp K V) (body : nat -> Prog S G W unit) :
  (forall i, (i < shard_count L)%nat -> does_all [op i] (body i)) ->
  does_all (shard_wise op) (piter (seq 0 (shard_count L)) body).
Proof.
  intros H. rewrite shard_wise_bind. apply (does_all_iter (fun i => [op i])). intros i Hi%elem_of_seq. apply H. lia.
Qed.

Lemma does_all_shards_map {A} (op : nat -> MapOp K V) (body : nat -> Prog S G W A) :
  (forall i, (i < shard_count L)%nat -> does_all [op i] (body i)) ->
  does_all (shard_wise op) (pmap (seq 0 (shard_count L)) body).
Proof.
  intros H. rewrite shard_wise_bind. apply (does_all_map (fun i => [op i])). intros i Hi%elem_of_seq. apply H. lia.
Qed.

(** None on any of them. *)
Lemma does_none_iter {A} (l : list A) (body : A -> Prog S G W unit) :
  (forall a, a ∈ l -> does_all [] (body a)) -> does_all [] (piter l body).
Proof.
  intros H. pose proof (does_all_iter (fun _ => []) l body H) as H'.
  assert (l ≫= (fun _ => []) = ([] : list (MapOp K V))) as E by (clear; by induction l). by rewrite E in H'.
Qed.

Lemma does_none_map {A B} (l : list A) (body : A -> Prog S G W B) :
  (forall a, a ∈ l -> does_all [] (body a)) -> does_all [] (pmap l body).
Proof.
  intros H. pose proof (does_all_map (fun _ => []) l body H) as H'.
  assert (l ≫= (fun _ => []) = ([] : list (MapOp K V))) as E by (clear; by induction l). by rewrite E in H'.
Qed.

(** Silent steps around an operation. *)
Lemma does_all_then {A B} ops (p : Prog S G W A) (k : A -> Prog S G W B) :
  does_all ops p -> (forall a, does_all [] (k a)) -> does_all ops (pbind p k).
Proof. intros Hp Hk. rewrite <- (app_nil_r ops). by apply does_all_seq. Qed.

Lemma does_none_then {A B} ops (p : Prog S G W A) (k : A -> Prog S G W B) :
  does_all [] p -> (forall a, does_all ops (k a)) -> does_all ops (pbind p k).
Proof. intros Hp Hk. by apply (does_all_seq []). Qed.

Lemma does_then {A B} op (p : Prog S G W A) ok (k : A -> Prog S G W B) ok' : does op p ok ->
  (forall a r R (q : option V -> Spec K V R), ok a r ->
     safely None (q r) (k a) (fun h t b => h = None /\ exists r, t = q r /\ ok' b r)) ->
  does op (pbind p k) ok'.
Proof. intros Hp Hk R q. eapply does_bind; [done|]. intros a r Hok. by apply Hk. Qed.

(** A silent step, then the result. *)
Lemma silent_ret {A B R} (p : Prog S G W A) (b : B) (q : option V -> Spec K V R) r (ok : B -> option V -> Prop) :
  does_all [] p -> ok b r -> safely None (q r) (p ;;; Ret b) (fun h t b => h = None /\ exists r, t = q r /\ ok b r).
Proof.
  intros Hp Hok. apply (does_all_bind []); [done|]. intros _. split; [done|]. by exists r.
Qed.

Lemma does_all_nil {A} (a : A) : does_all [] (Ret a : Prog S G W A).
Proof. by intros R q. Qed.

Lemma does_all_atomic {A} i (f : Counters -> A * Counters) :
  (i < shard_count L)%nat -> does_all [] (atomic i f : Prog S G W A).
Proof. intros Hi R q. by apply safe_atomic. Qed.

Lemma does_all_outside {A} (m : User W A) : does_all [] (outside m : Prog S G W A).
Proof. intros R q w y w' _. exists q. split; [intros x; constructor|done]. Qed.

Lemma outside_then {A B R} h (m : User W A) (k : A -> Prog S G W B) (t : Spec K V R) Q :
  (forall a, safely h t (k a) Q) -> safely h t (let* a := outside m in k a) Q.
Proof. intros Hk w a w' _. exists t. split; [intros x; constructor|]. apply Hk. Qed.

Lemma does_all_global {A} (f : G -> A * G) : (forall g, ginv L g -> ginv L (f g).2) ->
  does_all [] (global f : Prog S G W A).
Proof. intros H R q g Hg. split; [by apply H|]. by exists q. Qed.

(** A global access that the specification does not see. *)
Lemma global_then {A B R} h (f : G -> A * G) (k : A -> Prog S G W B) (t : Spec K V R) Q :
  (forall g, ginv L g -> ginv L (f g).2 /\ safely h t (k (f g).1) Q) -> safely h t (let* a := global f in k a) Q.
Proof. intros H g Hg. destruct (H g Hg) as [Hg' Hk]. split; [done|]. by exists t. Qed.

(** The rules for a locked scope. *)
Lemma lock_scope {A R} i md (p : Prog S G W A) (t : Spec K V R) Q : (i < shard_count L)%nat ->
  safely (Some (i, md)) t p (fun h t a => h = Some (i, md) /\ Q t a) ->
  safely None t (plock i md ;;; let* a := p in punlock i ;;; Ret a) (fun h t a => h = None /\ Q t a).
Proof.
  intros Hi Hp. split; [done|]. split; [done|]. cbn [pbind]. apply call_bind. eapply safe_mono; [|exact Hp].
  intros h t' a [-> HQ]. split; [by exists md|]. by split.
Qed.

(** A change of one shard's bindings is not seen by the others. *)
Lemma stable_local i m m' : (forall k, slot L k <> i -> m' k = m k) -> stable (inv L) i m m'.
Proof. intros H j s Hj. apply inv_local. intros k <-. by apply H. Qed.

Lemma stable_put i k v m : slot L k = i -> stable (inv L) i m (put k v m).
Proof.
  intros Hk. apply stable_local. intros k' Hk'. unfold put. destruct (keq k k') eqn:E; [|done].
  apply (slot_cong L) in E. congruence.
Qed.

(** An operation that touches the bindings of shard [i] only. *)
Definition within (i : nat) (op : MapOp K V) : Prop :=
  match op with
  | Read k | Write k _ | Erase k | Modify k _ => slot L k = i
  | EraseAll on | Filter on _ _ => forall k, on k = true -> slot L k = i
  end.

Lemma within_shard i k : on_shard i k = true -> slot L k = i.
Proof. apply Nat.eqb_eq. Qed.

Lemma within_stable i op m r m' : within i op -> answers (lossy L) op m r m' -> stable (inv L) i m m'.
Proof.
  destruct op as [k|k v|k|k rel|on|on kept dropped]; simpl; intros Hw.
  - intros [_ ->]. by intros ? ? _.
  - intros [_ ->]. by apply stable_put.
  - intros [_ ->]. by apply stable_put.
  - intros (b & _ & ->). by apply stable_put.
  - intros ->. apply stable_local. intros k Hk. destruct (on k) eqn:E; [by apply Hw in E|done].
  - intros H. apply stable_local. intros k Hk. specialize (H k). destruct (on k) eqn:E; [by apply Hw in E|done].
Qed.

(** *** Accesses under a lock that are one operation, or none *)

Lemma write_step {A R} i op (f : ST (S * W) A) (k : A -> Prog S G W R) (q : option V -> Spec K V R)
    (Q : Held -> Spec K V R -> R -> Prop) : within i op ->
  (forall s m w, inv L i s m ->
     wp f (fun a s' => exists r m', answers (lossy L) op m r m' /\ inv L i s'.1 m' /\
                         safely (Some (i, Exclusive)) (q r) (k a) Q)
       (fun s' => inv L i s'.1 m \/ exists r m', answers (lossy L) op m r m' /\ inv L i s'.1 m') (s, w)) ->
  safely (Some (i, Exclusive)) (Await op q) (WriteStore i f k) Q.
Proof.
  intros Hin Hf. split; [done|]. intros s m w Hi. eapply wp_mono; [by apply (Hf s m w)|..].
  - intros a s' (r & m' & Ha & Hi' & Hk). exists (q r), m'. split_and!; [|by eapply within_stable|done|done].
    by eapply rtc_once, spec_answer.
  - intros s' [Hi'|(r & m' & Ha & Hi')]; [by apply advance_refl|]. exists (q r), m'.
    split_and!; [|by eapply within_stable|done]. by eapply rtc_once, spec_answer.
Qed.

Lemma quiet_write {A B R} i (f : ST (S * W) A) (k : A -> Prog S G W B) (t : Spec K V R) Q :
  (forall s m w, inv L i s m ->
     wp f (fun a s' => inv L i s'.1 m /\ safely (Some (i, Exclusive)) t (k a) Q) (fun s' => inv L i s'.1 m) (s, w)) ->
  safely (Some (i, Exclusive)) t (WriteStore i f k) Q.
Proof.
  intros Hf. split; [done|]. intros s m w Hi. eapply wp_mono; [by apply (Hf s m w)|..].
  - intros a s' [Hi' Hk]. by apply advance_refl.
  - intros s' Hi'. by apply advance_refl.
Qed.

Lemma read_step {A B R} i md op (f : S -> ST W A) (k : A -> Prog S G W B) (q : option V -> Spec K V R) Q : within i op ->
  (forall s m w, inv L i s m ->
     wp (f s) (fun a _ => exists r, answers (lossy L) op m r m /\ safely (Some (i, md)) (q r) (k a) Q) (fun _ => True) w) ->
  safely (Some (i, md)) (Await op q) (ReadStore i f k) Q.
Proof.
  intros Hin Hf. split; [by exists md|]. intros s m w Hi. eapply wp_mono; [by apply (Hf s m w)| |done].
  intros a w' (r & Ha & Hk). exists (q r), m. split_and!; [|by intros ? ? _|done|done].
  by eapply rtc_once, spec_answer.
Qed.

Lemma quiet_read {A B R} i md (f : S -> ST W A) (k : A -> Prog S G W B) (t : Spec K V R) Q :
  (forall s m w, inv L i s m -> wp (f s) (fun a _ => safely (Some (i, md)) t (k a) Q) (fun _ => True) w) ->
  safely (Some (i, md)) t (ReadStore i f k) Q.
Proof.
  intros Hf. split; [by exists md|]. intros s m w Hi. eapply wp_mono; [by apply (Hf s m w)| |done].
  intros a w' Hk. apply advance_refl. by split.
Qed.

(** A read in the middle of an access. *)
Lemma advance_read {R} i k (q : option V -> Spec K V R) m r (P : Spec K V R -> Map K V -> Prop) :
  answers (lossy L) (Read k) m r m -> P (q r) m -> advance (inv L) (spec_step (lossy L)) i (Await (Read k) q) m P.
Proof. intros Ha HP. exists (q r), m. split_and!; [by eapply rtc_once, spec_answer|by intros ? ?|done]. Qed.

(** *** Whole guard scopes *)

Lemma with_write_does {A} i op (f : ST (S * W) A) ok : (i < shard_count L)%nat -> within i op ->
  (forall s m w, inv L i s m ->
     wp f (fun a s' => exists r m', answers (lossy L) op m r m' /\ inv L i s'.1 m' /\ ok a r)
       (fun s' => inv L i s'.1 m \/ exists r m', answers (lossy L) op m r m' /\ inv L i s'.1 m') (s, w)) ->
  does op (with_write i f) ok.
Proof.
  intros Hi Hin Hf R q. split; [done|]. split; [done|]. cbn [pbind write_store].
  split; [done|]. intros s m w HI. eapply wp_mono; [by apply (Hf s m w)|..].
  - intros a s' (r & m' & Ha & Hi' & Hk). exists (q r), m'. split_and!; [|by eapply within_stable|done|].
    + by eapply rtc_once, spec_answer.
    + split; [by eexists|]. split; [done|]. eauto.
  - intros s' [Hi'|(r & m' & Ha & Hi')]; [by apply advance_refl|]. exists (q r), m'.
    split_and!; [|by eapply within_stable|done]. by eapply rtc_once, spec_answer.
Qed.

Lemma with_read_does {A} i op (f : S -> ST W A) ok : (i < shard_count L)%nat -> within i op ->
  (forall s m w, inv L i s m ->
     wp (f s) (fun a _ => exists r, answers (lossy L) op m r m /\ ok a r) (fun _ => True) w) ->
  does op (with_read i f) ok.
Proof.
  intros Hi Hin Hf R q. split; [done|]. split; [done|]. cbn [pbind read_store]. apply read_step; [done|].
  intros s m w HI. eapply wp_mono; [by apply (Hf s m w)| |done]. intros a w' (r & Ha & Hok). exists r.
  split; [done|]. split; [by eexists|]. split; [done|]. eauto.
Qed.

Lemma with_write_quiet {A} i (f : ST (S * W) A) : (i < shard_count L)%nat ->
  (forall s m w, inv L i s m -> wp f (fun _ s' => inv L i s'.1 m) (fun s' => inv L i s'.1 m) (s, w)) ->
  does_all [] (with_write (G := G) i f).
Proof.
  intros Hi Hf R q. split; [done|]. split; [done|]. cbn [pbind write_store]. apply quiet_write.
  intros s m w HI. eapply wp_mono; [by apply (Hf s m w)| |done]. intros a s' HI'. split; [done|].
  split; [by eexists|done].
Qed.

Lemma with_read_quiet {A} i (f : S -> ST W A) : (i < shard_count L)%nat ->
  (forall s m w, inv L i s m -> wp (f s) (fun _ _ => True) (fun _ => True) w) ->
  does_all [] (with_read (G := G) i f).
Proof.
  intros Hi Hf R q. split; [done|]. split; [done|]. cbn [pbind read_store]. apply quiet_read.
  intros s m w HI. eapply wp_mono; [by apply (Hf s m w)| |done]. intros a w' _. split; [by eexists|done].
Qed.
End Contract.
Arguments Layout S G K V {_}.

Definition is_some {A} (o : option A) : bool := match o with Some _ => true | None => false end.

(** The entry that was removed. *)
Definition entry_of {K V} `{!KeyEq K} (k : K) (e : option (K * V)) (r : option V) : Prop :=
  snd <$> e = r /\ forall e', e = Some e' -> keq k e'.1 = true.

(** What a store promises: each call on a key is one atomic operation of the map.  A removed value
    may be withheld by a lossy store: whether it had expired is asked after it is gone. *)
Class ConcurrentLaws {D S G K V W} `{!KeyEq K, !ConcurrentCached D S G K V W, !ConcurrentCachePeek D S G K V W}
    (d : D) (L : Layout S G K V) : Prop := {
  get_does : forall k, does L (Read k) (cache_get (W := W) d k) eq;
  set_does : forall k v, does L (Write k v) (cache_set (W := W) d k v) eq;
  remove_does : forall k, does L (Erase k) (cache_remove (W := W) d k) (told (lossy L));
  remove_entry_does : forall k, does L (Erase k) (cache_remove_entry (W := W) d k) (entry_of k);
  contains_does : forall k, does L (Read k) (cache_contains (W := W) d k) (fun b r => b = is_some r);
  peek_does : forall k, does L (Read k) (cache_peek (W := W) d k) eq;
  clear_does : does_all L (erase_shards L) (cache_clear (W := W) d);
  reset_does : does_all L (erase_shards L) (cache_reset (W := W) d);
  reset_metrics_does : does_all L [] (cache_reset_metrics (W := W) d) }.

Class ConcurrentCloneLaws {D S G K V W} `{!KeyEq K, !ConcurrentCloneCached D S G K V W}
    (d : D) (L : Layout S G K V) : Prop := {
  get_status_does : forall k, does L (Read k) (cache_get_with_expiry_status (W := W) d k) (fun a r => a.1 = r);
  peek_status_does : forall k, does L (Read k) (cache_peek_with_expiry_status (W := W) d k) (fun a r => a.1 = r) }.

(** A global access at the head of a call, of which the specification sees nothing. *)
Ltac skip_global g Hg := intros g Hg; split; [done|]; eexists; split; [intros ?; apply rtc_refl|].

(** ** Clients: any calls, in any interleaving *)

Inductive Reply (K V E : Type) : Type :=
| Nothing
| Value (v : option V)
| Entry (e : option (K * V))
| Flag (b : bool)
| Failed (e : E)
| Status (v : option V) (expired : bool)
| Numbers (l : list (option Z)).
Arguments Nothing {K V E}.
Arguments Value {K V E} v.
Arguments Entry {K V E} e.
Arguments Flag {K V E} b.
Arguments Failed {K V E} e.
Arguments Status {K V E} v expired.
Arguments Numbers {K V E} l.

(** A call; [X] are the calls that only this store has. *)
Inductive Call (K V W E X : Type) : Type :=
| Get (k : K)
| Peek (k : K)
| Contains (k : K)
| Set_ (k : K) (v : V)
| GetOrSetWith (k : K) (f : User W V)
| TryGetOrSetWith (k : K) (f : User W (result E V))
| Remove (k : K)
| RemoveEntry (k : K)
| Delete (k : K)
| Clear
| Reset_
| ResetMetrics
| Own (x : X).
Arguments Get {K V W E X} k.
Arguments Peek {K V W E X} k.
Arguments Contains {K V W E X} k.
Arguments Set_ {K V W E X} k v.
Arguments GetOrSetWith {K V W E X} k f.
Arguments TryGetOrSetWith {K V W E X} k f.
Arguments Remove {K V W E X} k.
Arguments RemoveEntry {K V W E X} k.
Arguments Delete {K V W E X} k.
Arguments Clear {K V W E X}.
Arguments Reset_ {K V W E X}.
Arguments ResetMetrics {K V W E X}.
Arguments Own {K V W E X} x.

(** *** Calls over the memory against their specifications *)
Section Simulation.
Context {S G K V W Q R : Type} `{!KeyEq K} (L : Layout S G K V).
Context (code : Q -> Prog S G W R) (spec : Q -> Spec K V R).

(** [m] follows [x]: every shard is what the map says. *)
Definition follows_map (m : Memory S G) (x : Map K V) : Prop :=
  length (shards m) = shard_count L /\
  (forall i s, shards m !! i = Some s -> inv L i (content s) x) /\ ginv L (globals m).

(** A call over the memory and what the specification has for it: the same number of threads, the
    map the shards follow, and for every call that has returned, the result it may have. *)
Definition matches (g : Config S G W R) (x : Map K V) (ts : list (Spec K V R)) : Prop :=
  length ts = length (threads g) /\ follows_map (memory g) x /\
  forall t r, threads g !! t = Some (Ret r) -> exists q, ts !! t = Some q /\ ends q r.

(** From a memory that follows the map [x], however threads interleave and however the outer
    world changes meanwhile:
    - the calls over the shards are simulated by their specifications over one map: a call begins
      in both at once, every step of the code is some atomic operations of calls that have begun
      and not returned, and the code and the specification match throughout;
    - threads cannot take steps forever, and when none can step all calls are over, each by a
      return or by a panic of user code, and every lock is free. *)
Definition implements (m : Memory S G) (x : Map K V) : Prop :=
  forall w,
    (exists Rel : Config S G W R -> Map K V -> list (Spec K V R) -> Prop,
       Rel (start m w) x [] /\
       (forall g x ts g', Rel g x ts -> moves code g g' -> exists x' ts',
          rtc (spec_moves (spec_step (lossy L)) spec) (x, ts) (x', ts') /\ Rel g' x' ts') /\
       forall g x ts, Rel g x ts -> matches g x ts) /\
    (forall g : Config S G W R, Acc next g) /\
    forall g, reachable code m w g -> (forall t, step t g = None) ->
      Forall finished (threads g) /\ forall i, locks g i = Readers [].

Hypothesis code_safe : forall q, safely L None (spec q) (code q) (post ends).

Lemma safe_implements m x : follows_map m x -> implements m x.
Proof.
  intros Hm w. split_and!.
  - exists (fun g x ts => exists hs, good (shard_count L) (inv L) (ginv L) (spec_step (lossy L)) ends g x ts hs).
    split_and!; [exists []; by apply good_start|..].
    + intros g x1 ts g' [hs HG] Hs.
      destruct (good_moves _ _ _ _ _ _ _ code_safe _ _ _ _ _ HG Hs) as (x' & ts' & hs' & Hsp & HG').
      exists x', ts'. split; [done|]. by exists hs'.
    + intros g x1 ts [hs HG].
      split_and!; [exact (good_specs _ _ _ _ _ _ _ _ _ HG)|exact (good_memory _ _ _ _ _ _ _ _ _ HG)|].
      intros t r Ht. destruct (good_lookup _ _ _ _ _ _ _ _ _ _ _ HG Ht) as (h & q & Hh & Hq & _ & Hends).
      by exists q.
  - apply next_acc.
  - intros g Hr Hno. destruct (adequacy _ _ _ _ _ _ _ code_safe m w x g Hm Hr) as (x' & ts & hs & Hs & HG).
    assert (Forall finished (threads g)) as Hf.
    { apply Forall_lookup. intros t p Hp. destruct p; try done; exfalso;
        (destruct (can_go_on _ _ _ _ _ _ _ _ _ _ _ HG Hp) as (j & g' & Hj); [by intros []|]; by rewrite Hno in Hj). }
    split; [done|]. by eapply quiescent.
Qed.

(** At every moment the memory follows some map. *)
Lemma implements_always m x w g : implements m x -> reachable code m w g -> exists x' ts, matches g x' ts.
Proof.
  intros H Hr. destruct (H w) as ((Rel & H0 & Hs & HM) & _). unfold reachable in Hr.
  assert (exists x' ts, Rel g x' ts) as (x' & ts & HR); [|exists x', ts; by apply HM].
  refine (rtc_ind_r (fun g => exists x' ts, Rel g x' ts) (start m w) _ _ g Hr); [by exists x, []|].
  intros g1 g2 _ Hm (x1 & ts1 & HR1). destruct (Hs _ _ _ _ HR1 Hm) as (x2 & ts2 & _ & HR2). by exists x2, ts2.
Qed.

(** What the specification keeps, every reachable state has. *)
Lemma implements_invariant (Inv : Map K V -> list (Spec K V R) -> Prop) m x w g :
  implements m x -> Inv x [] ->
  (forall x ts x' ts', Inv x ts -> spec_moves (spec_step (lossy L)) spec (x, ts) (x', ts') -> Inv x' ts') ->
  reachable code m w g -> exists x' ts, matches g x' ts /\ Inv x' ts.
Proof.
  intros H HI Hk Hr. destruct (H w) as ((Rel & H0 & Hs & HM) & _). unfold reachable in Hr.
  assert (exists x' ts, Rel g x' ts /\ Inv x' ts) as (x' & ts & HR & HI'); [|exists x', ts; split; [by apply HM|done]].
  refine (rtc_ind_r (fun g => exists x' ts, Rel g x' ts /\ Inv x' ts) (start m w) _ _ g Hr); [by exists x, []|].
  intros g1 g2 _ Hm (x1 & ts1 & HR1 & HI1). destruct (Hs _ _ _ _ HR1 Hm) as (x2 & ts2 & Hsp & HR2).
  exists x2, ts2. split; [done|]. clear HR1 HR2 Hs HM Hm.
  refine (rtc_ind_r (fun p => Inv p.1 p.2) (x1, ts1) HI1 _ (x2, ts2) Hsp).
  intros [y us] [z vs] _ Hst Hy. by eapply Hk.
Qed.

(** [stays good P t]: over maps that are [good], whatever is left of the call in [t] keeps the map
    good, and has only results that satisfy [P]. *)
Fixpoint stays (good : Map K V -> Prop) (P : R -> Prop) (t : Spec K V R) : Prop :=
  match t with
  | Returns H => forall r, H r -> P r
  | Await op k => forall m r m', good m -> answers (lossy L) op m r m' -> good m' /\ stays good P (k r)
  | Choose H k => forall x, H x -> stays good P (k x)
  end.

Lemma stays_ends good P t r : stays good P t -> ends t r -> P r.
Proof.
  induction t as [H|op k IH|X H k IH]; simpl; [by intros Hs; apply Hs|done|]. intros Hs (x & Hx & He). exact (IH x (Hs x Hx) He).
Qed.

(** So does every state that threads reach, and every call that has returned. *)
Lemma implements_results (good : Map K V -> Prop) (P : R -> Prop) m x w g :
  implements m x -> good x -> (forall q, stays good P (spec q)) -> reachable code m w g ->
  (exists x', follows_map (memory g) x' /\ good x') /\ forall t r, threads g !! t = Some (Ret r) -> P r.
Proof.
  intros H Hx Hq Hr.
  destruct (implements_invariant (fun x ts => good x /\ Forall (stays good P) ts) m x w g H) as (x' & ts & HM & Hx' & Hts).
  - by split; [|constructor].
  - intros y us y' us' [Hy Hus] Hs. inversion Hs as [i t y1 t' y2 us1 Hi Hg|q y1 us1]; subst.
    + pose proof (proj1 (Forall_lookup _ _) Hus i t Hi) as Ht. inversion Hg as [op k r ? ? Ha|X HP k a ? Hxa]; subst; simpl in Ht.
      * destruct (Ht _ _ _ Hy Ha) as [Hy' Hk]. split; [done|]. by apply Forall_insert.
      * split; [done|]. apply Forall_insert; [done|]. by apply Ht.
    + split; [done|]. apply Forall_app. by split; [|constructor].
  - done.
  - destruct HM as (_ & HF & HR). split; [by exists x'|]. intros t r Ht. destruct (HR t r Ht) as (q & Eq & Hr').
    exact (stays_ends good P q r (proj1 (Forall_lookup _ _) Hts _ _ Eq) Hr').
Qed.
End Simulation.

(** What it takes to know about a store to let threads loose on it. *)
Section Clients.
Context {D S G K V W E X : Type} `{!KeyEq K, !ConcurrentCached D S G K V W, !ConcurrentCachePeek D S G K V W}.
Context (own : X -> Prog S G W (Reply K V E)) (d : D).

Definition run_call (q : Call K V W E X) : Prog S G W (Reply K V E) :=
  match q with
  | Get k => let* r := cache_get d k in Ret (Value r)
  | Peek k => let* r := cache_peek d k in Ret (Value r)
  | Contains k => let* b := cache_contains d k in Ret (Flag b)
  | Set_ k v => let* r := cache_set d k v in Ret (Value r)
  | GetOrSetWith k f => let* v := cache_get_or_set_with d k f in Ret (Value (Some v))
  | TryGetOrSetWith k f =>
      let* r := cache_try_get_or_set_with d k f in
      Ret (match r with Ok v => Value (Some v) | Err e => Failed e end)
  | Remove k => let* r := cache_remove d k in Ret (Value r)
  | RemoveEntry k => let* e := cache_remove_entry d k in Ret (Entry e)
  | Delete k => let* b := cache_delete d k in Ret (Flag b)
  | Clear => cache_clear d ;;; Ret Nothing
  | Reset_ => cache_reset d ;;; Ret Nothing
  | ResetMetrics => cache_reset_metrics d ;;; Ret Nothing
  | Own x => own x
  end.

Context (L : Layout S G K V) (own_spec : X -> Spec K V (Reply K V E)).

Definition answer (op : MapOp K V) (f : option V -> Reply K V E) : Spec K V (Reply K V E) :=
  Await op (fun r => Returns (eq (f r))).

(** The value found, or the operations and the result of [next]. *)
Definition or_else (k : K) (next : Spec K V (Reply K V E)) : Spec K V (Reply K V E) :=
  Await (Read k) (fun r => match r with Some v => Returns (eq (Value (Some v))) | None => next end).

Definition store_it (k : K) (v : V) : Spec K V (Reply K V E) :=
  Await (Write k v) (fun _ => Returns (eq (Value (Some v)))).

Definition call_spec (q : Call K V W E X) : Spec K V (Reply K V E) :=
  match q with
  | Get k | Peek k => answer (Read k) Value
  | Contains k => answer (Read k) (fun r => Flag (is_some r))
  | Set_ k v => answer (Write k v) Value
  | GetOrSetWith k f => or_else k (Choose (may_return f) (store_it k))
  | TryGetOrSetWith k f =>
      or_else k (Choose (may_return f)
        (fun r => match r with Ok v => store_it k v | Err e => Returns (eq (Failed e)) end))
  | Remove k => Await (Erase k) (fun r => Returns (fun a => exists v, a = Value v /\ told (lossy L) v r))
  | RemoveEntry k => Await (Erase k) (fun r => Returns (fun a => exists e, a = Entry e /\ entry_of k e r))
  | Delete k => answer (Erase k) (fun r => Flag (is_some r))
  | Clear | Reset_ => await_all (erase_shards L) (Returns (eq Nothing))
  | ResetMetrics => Returns (eq Nothing)
  | Own x => own_spec x
  end.

(** The claim made of each store. *)
Definition serves (m : Memory S G) (x : Map K V) : Prop := implements L run_call call_spec m x.

Hypothesis laws : ConcurrentLaws (W := W) d L.
Hypothesis own_safe : forall x, safely L None (own_spec x) (own x) (post ends).

Lemma post_ret {A} (P : A -> Prop) (a : A) : P a -> post (@ends K V A) None (Returns P) a.
Proof. by split. Qed.

Lemma answers_with {A} op (p : Prog S G W A) ok (f : A -> Reply K V E) (g : option V -> Reply K V E) :
  does L op p ok -> (forall a r, ok a r -> f a = g r) ->
  safely L None (answer op g) (pbind p (fun a => Ret (f a))) (post ends).
Proof.
  intros Hp Hf. eapply (does_bind L); [done|]. intros a r Hok. apply post_ret. by rewrite (Hf a r).
Qed.

(** User code, whose value the specification takes. *)
Lemma choose_safe {A B R} (f : User W A) (k : A -> Prog S G W B) (q : A -> Spec K V R) Q :
  (forall a, safely L None (q a) (k a) Q) -> safely L None (Choose (may_return f) q) (pbind (outside f) k) Q.
Proof.
  intros Hk. apply call_bind. intros w a w' E1. exists (q a). split; [|apply Hk].
  intros x. apply rtc_once, spec_choose. by exists w, w'.
Qed.

(** A value is computed and stored, after a miss. *)
Lemma store_it_safe {A} k v (a : A) (f : A -> Reply K V E) : f a = Value (Some v) ->
  safely L None (store_it k v) (cache_set d k v ;;; Ret a) (fun h t a => safely (W := W) L h t (Ret (f a)) (post ends)).
Proof. intros Hf. eapply (does_bind L); [apply set_does|]. intros a' r _. apply post_ret. by rewrite Hf. Qed.

Lemma call_safe q : safely L None (call_spec q) (run_call q) (post ends).
Proof.
  destruct q as [k|k|k|k v|k f|k f|k|k|k| | | |x]; simpl.
  - eapply answers_with; [apply get_does|]. by intros ? ? ->.
  - eapply answers_with; [apply peek_does|]. by intros ? ? ->.
  - eapply answers_with; [apply contains_does|]. by intros ? ? ->.
  - eapply answers_with; [apply set_does|]. by intros ? ? ->.
  - apply call_bind. eapply (does_bind L); [apply get_does|]. intros a r ->.
    destruct r as [v|]; [by apply post_ret|]. apply choose_safe. intros v. by apply store_it_safe.
  - apply call_bind. eapply (does_bind L); [apply get_does|]. intros a r ->.
    destruct r as [v|]; [by apply post_ret|]. apply choose_safe. intros [v|e]; [by apply store_it_safe|by apply post_ret].
  - eapply (does_bind L); [apply remove_does|]. intros v r Hv. apply post_ret. by exists v.
  - eapply (does_bind L); [apply remove_entry_does|]. intros e r He. apply post_ret. by exists e.
  - apply call_bind. eapply (does_bind L); [apply remove_entry_does|]. intros e r [<- _]. apply post_ret. by destruct e.
  - apply (does_all_bind L (erase_shards L)); [apply clear_does|]. intros _. by apply post_ret.
  - apply (does_all_bind L (erase_shards L)); [apply reset_does|]. intros _. by apply post_ret.
  - apply (does_all_bind L []); [apply reset_metrics_does|]. intros _. by apply post_ret.
  - apply own_safe.
Qed.

Lemma lawful_serves m x : follows_map L m x -> serves m x.
Proof. apply safe_implements, call_safe. Qed.
End Clients.

(** ** A call that runs alone *)
Section Alone.
Context {S G K V W : Type} `{!KeyEq K} (L : Layout S G K V).

Lemma await_one {R} (op : MapOp K V) (q : option V -> Spec K V R) x t' x' :
  (forall r, exists P, q r = Returns P) -> rtc (spec_step (lossy L)) (Await op q, x) (t', x') ->
  (t' = Await op q /\ x' = x) \/ exists r, answers (lossy L) op x r x' /\ t' = q r.
Proof.
  intros Hq H. inversion H as [|? b ? Hstep Hrest]; subst; [by left|]. right.
  inversion Hstep; simplify_eq. destruct (Hq r) as [P E]. exists r. rewrite E in Hrest |- *.
  inversion Hrest as [|? b ? Hstep']; subst; [done|]. inversion Hstep'.
Qed.

Lemma does_alone {A} op (p : Prog S G W A) ok m x w : does L op p ok -> follows_map L m x ->
  wp (exec p) (fun a s => exists r x', answers (lossy L) op x r x' /\ follows_map L s.1 x' /\ ok a r)
    (fun s => exists x', follows_map L s.1 x' /\ (x' = x \/ exists r, answers (lossy L) op x r x')) (m, w).
Proof.
  intros Hp Hm. pose proof (Hp (option V) (fun r => Returns (eq r))) as Hs.
  assert (forall r, exists P, (Returns (eq r) : Spec K V (option V)) = Returns P) as HR by (intros r; by eexists).
  eapply wp_mono; [exact (exec_safe _ _ _ _ p _ None _ x m w Hm Hs)|..].
  - intros a s (h & t & x' & Hg & Hm' & -> & r & -> & Hok).
    destruct (await_one _ _ _ _ _ HR Hg) as [[E _]|(r' & Ha & E)]; [done|].
    exists r, x'. split_and!; [|done|done]. assert (r = r') as -> by (injection E as E; by rewrite E). done.
  - intros s (t & x' & Hg & Hm'). exists x'. split; [done|].
    destruct (await_one _ _ _ _ _ HR Hg) as [[_ E]|(r' & Ha & E)]; [by left|right; by exists r'].
Qed.
End Alone.
