(* ===== verification/ShardOps.v ===== *)
(** * What the sharded stores have in common

    Every sharded store walks its shards in order, one lock at a time, calls [on_evict] outside
    the locks, sums sizes and counters, and copies its entries into a store that is not yet
    shared.  None of this is seen by the map of the specification. *)
From S2P Require Import Prelude Keys Stores Sharded Shards Concurrent.

Section Ops.
Context {K V W S G : Type} (d : Inner K V W).
Notation P := (Prog S G W).

(** [self.inner.shards.iter()] *)
Definition each : list nat := seq 0 (shard_len d).

(** [if let Some(on_evict) = &self.inner.on_evict { on_evict(&k, &v) }] *)
Definition notify (e : K * V) : P unit :=
  match on_evict d with Some f => outside (f e.1 e.2) | None => Ret tt end.

Definition notify_all (l : list (K * V)) : P unit := piter l notify.

Definition sizes (size : S -> Z) : P (list Z) := pmap each (fun i => with_read i (fun s => ret (size s))).

(** [all] stops at the first shard that has an entry. *)
Fixpoint all_empty (size : S -> Z) (l : list nat) : P bool :=
  match l with
  | [] => Ret true
  | i :: l =>
      let* n := with_read i (fun s => ret (size s)) in
      if n =? 0 then all_empty size l else Ret false
  end.

Definition sum_of (load : nat -> P Z) : P Z := let* l := pmap each load in Ret (wrapping_sum l).

(** [if removed > 0 { evictions.fetch_add(removed) }] *)
Definition count_evicted (i : nat) (n : Z) : P unit := if 0 <? n then add_evictions i n else Ret tt.

(** A sweep of every shard: what [take] removes under the shard's lock is counted, and told to
    the callback once the lock is released. *)
Definition sweep_shards (take : nat -> P (list (K * V))) : P Z :=
  sum_of (fun i =>
    let* removed := take i in
    notify_all removed ;;;
    Ret (Z.of_nat (length removed))).

(** The store that [copy_from] fills is not shared yet: its calls run alone. *)
Fixpoint copy_entries {X M} (insert : M -> X -> User W M) (es : list X) (m : M) : P M :=
  match es with
  | [] => Ret m
  | e :: es => let* m := outside (insert m e) in copy_entries insert es m
  end.

Fixpoint copy_shards {X M} (entries : S -> ST W (list X)) (insert : M -> X -> User W M) (l : list nat) (m : M) : P M :=
  match l with
  | [] => Ret m
  | i :: l =>
      let* es := with_read i entries in
      let* m := copy_entries insert es m in
      copy_shards entries insert l m
  end.

(** The store and the counters of a shard, read under one guard; evictions start anew. *)
Definition clone_shard (i : nat) : P (Shard S) :=
  plock i Shared ;;;
  let* s := peek_store i id in
  let* h := load_hits i in
  let* m := load_misses i in
  punlock i ;;;
  Ret (mkShard s (mkCounters h m 0)).

(** The same with the evictions. *)
Definition clone_shard_all (i : nat) : P (Shard S) :=
  plock i Shared ;;;
  let* s := peek_store i id in
  let* h := load_hits i in
  let* m := load_misses i in
  let* e := load_evictions i in
  punlock i ;;;
  Ret (mkShard s (mkCounters h m e)).
End Ops.

(** [set] on a store of one's own, its result dropped. *)
Definition set_alone {S G W A} (m : Memory S G) (p : Prog S G W A) : User W (Memory S G) := fun w =>
  let '(r, w) := alone m p w in (snd <$> r, w).

(** ** Lemmas *)
Section Silent.
Context {K V V' W S G : Type} `{!KeyEq K} (d : Inner K V W) (L : Layout S G K V').
Context (Hlen : shard_count L = shard_len d).
Notation P := (Prog S G W).

Lemma each_lt i : i ∈ each d -> (i < shard_count L)%nat.
Proof. intros Hi%elem_of_seq. lia. Qed.

Lemma notify_silent e : does_all L [] (notify d e : P unit).
Proof. unfold notify. destruct (on_evict d); [apply does_all_outside|apply does_all_nil]. Qed.

Lemma notify_all_silent l : does_all L [] (notify_all d l : P unit).
Proof. apply does_none_iter. intros e _. apply notify_silent. Qed.

Lemma read_silent {A} i (f : S -> A) : (i < shard_count L)%nat -> does_all L [] (with_read i (fun s => ret (f s)) : P A).
Proof. intros Hi. apply with_read_quiet; [done|]. intros s m w _. by apply wp_ret. Qed.

Lemma count_silent i n : (i < shard_count L)%nat -> does_all L [] (count_evicted i n : P unit).
Proof. intros Hi. unfold count_evicted. destruct (0 <? n); [by apply does_all_atomic|apply does_all_nil]. Qed.

(** Nothing is done on any shard. *)
Lemma each_silent {A} (f : nat -> P A) : (forall i, (i < shard_count L)%nat -> does_all L [] (f i)) ->
  does_all L [] (pmap (each d) f).
Proof. intros H. apply does_none_map. intros i Hi. by apply H, each_lt. Qed.

Lemma each_silent_iter (f : nat -> P unit) : (forall i, (i < shard_count L)%nat -> does_all L [] (f i)) ->
  does_all L [] (piter (each d) f).
Proof. intros H. apply does_none_iter. intros i Hi. by apply H, each_lt. Qed.

Lemma sizes_silent size : does_all L [] (sizes d size : P (list Z)).
Proof. apply each_silent. intros i Hi. by apply read_silent. Qed.

Lemma all_empty_silent size l : (forall i, i ∈ l -> (i < shard_count L)%nat) -> does_all L [] (all_empty size l : P bool).
Proof.
  induction l as [|i l IH]; intros H; [apply does_all_nil|]. cbn [all_empty].
  apply does_none_then; [apply read_silent, H; by left|]. intros n. destruct (n =? 0); [|apply does_all_nil].
  apply IH. intros j Hj. apply H. by right.
Qed.

Lemma sum_silent load : (forall i, (i < shard_count L)%nat -> does_all L [] (load i)) -> does_all L [] (sum_of d load : P Z).
Proof. intros H. apply does_none_then; [by apply each_silent|]. intros l. apply does_all_nil. Qed.

Lemma load_silent {A} i (f : Counters -> A) : (i < shard_count L)%nat ->
  does_all L [] (atomic i (fun c => (f c, c)) : P A).
Proof. intros Hi. by apply does_all_atomic. Qed.

Lemma copy_entries_silent {X M} (insert : M -> X -> User W M) es m : does_all L [] (copy_entries insert es m : P M).
Proof.
  revert m. induction es as [|e es IH]; intros m; [apply does_all_nil|]. cbn [copy_entries].
  apply does_none_then; [apply does_all_outside|]. intros r. apply IH.
Qed.

Lemma copy_silent {X M} entries (insert : M -> X -> User W M) l m : (forall i, i ∈ l -> (i < shard_count L)%nat) ->
  (forall i s x w, inv L i s x -> wp (entries s) (fun _ _ => True) (fun _ => True) w) ->
  does_all L [] (copy_shards entries insert l m : P M).
Proof.
  intros H He. revert m. induction l as [|i l IH]; intros m; [apply does_all_nil|]. cbn [copy_shards].
  apply does_none_then; [apply with_read_quiet; [apply H; by left|by intros; eapply He]|]. intros es.
  apply does_none_then; [apply copy_entries_silent|intros m'; apply IH; intros j Hj; apply H; by right].
Qed.

Lemma clone_shard_silent i : (i < shard_count L)%nat -> does_all L [] (clone_shard i : P (Shard S)).
Proof.
  intros Hi R q. split; [done|]. split; [done|]. cbn [pbind peek_store]. apply quiet_read. intros s m w HI. apply wp_ret.
  cbn. split; [done|]. intros cs. split; [done|]. intros cs'. split; [by eexists|done].
Qed.

Lemma clone_shard_all_silent i : (i < shard_count L)%nat -> does_all L [] (clone_shard_all i : P (Shard S)).
Proof.
  intros Hi R q. split; [done|]. split; [done|]. cbn [pbind peek_store]. apply quiet_read. intros s m w HI. apply wp_ret.
  cbn. split; [done|]. intros c1. split; [done|]. intros c2. split; [done|]. intros c3. split; [by eexists|done].
Qed.

(** A sweep does on each shard what taking does. *)
Lemma sweep_does op take : (forall i, (i < shard_count L)%nat -> does_all L [op i] (take i)) ->
  does_all L (shard_wise L op) (sweep_shards d take : P Z).
Proof.
  intros H. apply does_all_then; [|intros l; apply does_all_nil]. unfold each. rewrite <- Hlen.
  apply does_all_shards_map. intros i Hi. apply does_all_then; [by apply H|]. intros l.
  apply does_none_then; [apply notify_all_silent|]. intros _. apply does_all_nil.
Qed.

(** One operation on each shard. *)
Lemma each_does op (body : nat -> P unit) : (forall i, (i < shard_count L)%nat -> does_all L [op i] (body i)) ->
  does_all L (shard_wise L op) (piter (each d) body).
Proof. intros H. unfold each. rewrite <- Hlen. by apply does_all_shards. Qed.

(** Every binding of a shard goes. *)
Lemma erase_shard_does {A} i (f : ST (S * W) A) : (i < shard_count L)%nat ->
  (forall s m w, inv L i s m ->
     wp f (fun _ s' => inv L i s'.1 (fun k => if on_shard L i k then None else m k)) (fun s' => inv L i s'.1 m) (s, w)) ->
  does_all L [EraseAll (on_shard L i)] (with_write i f : P A).
Proof.
  intros Hi Hf. apply (does_does_all L _ _ (fun _ _ => True)). apply with_write_does; [done|by intros k Hk%within_shard|].
  intros s m w HI. eapply wp_mono; [apply (Hf s m w HI)| |by left]. intros a s' HI'.
  exists None, (fun k => if on_shard L i k then None else m k). by split_and!.
Qed.

(** The removed entry is told to the callback. *)
Lemma removed_then {A R} (p : P unit) (a : A) (r : option V') (q : option V' -> Spec K V' R) (ok : A -> option V' -> Prop) :
  does_all L [] p -> ok a r -> safely L None (q r) (p ;;; Ret a) (fun h t b => h = None /\ exists r, t = q r /\ ok b r).
Proof. apply silent_ret. Qed.
End Silent.

(** A program whose result the specification leaves open, or fixes. *)
Lemma then_returns {S G K V W E A} `{!KeyEq K} (L : Layout S G K V) ops (p : Prog S G W A) (f : A -> Reply K V E) (P : Reply K V E -> Prop) :
  does_all L ops p -> (forall a, P (f a)) ->
  safely L None (await_all ops (Returns P)) (let* a := p in Ret (f a)) (post ends).
Proof. intros Hp HP. apply (does_all_bind L ops); [done|]. intros a. by apply post_ret. Qed.

(** Running alone, piece by piece. *)
Lemma wp_exec_bind {S G W A B} (p : Prog S G W A) (k : A -> Prog S G W B) Q U s :
  wp (exec p) (fun a s' => wp (exec (k a)) Q U s') U s -> wp (exec (pbind p k)) Q U s.
Proof. intros H. apply wp_bind in H. unfold wp in *. by rewrite exec_bind. Qed.

Lemma wp_exec_read {S G W A B} i (f : S -> ST W A) (k : A -> Prog S G W B) Q U m w s :
  Shards.shards m !! i = Some s -> wp (f (content s)) (fun a w' => wp (exec (k a)) Q U (m, w')) (fun w' => U (m, w')) w ->
  wp (exec (pbind (with_read i f) k)) Q U (m, w).
Proof.
  intros Hs H. pose proof (lookup_lt_Some _ _ _ Hs) as Hl. unfold wp in *. simpl. apply Nat.ltb_lt in Hl as ->.
  unfold bind at 1, do_read. rewrite Hs. by destruct (f (content s) w) as [[a| |] w'].
Qed.

Lemma wp_exec_write {S G W A B} i (f : ST (S * W) A) (k : A -> Prog S G W B) Q U m w s :
  Shards.shards m !! i = Some s ->
  wp f (fun a s' => wp (exec (k a)) Q U (set_shard i (mkShard s'.1 (counters s)) m, s'.2))
    (fun s' => U (set_shard i (mkShard s'.1 (counters s)) m, s'.2)) (content s, w) ->
  wp (exec (pbind (with_write i f) k)) Q U (m, w).
Proof.
  intros Hs H. pose proof (lookup_lt_Some _ _ _ Hs) as Hl. unfold wp in *. simpl. apply Nat.ltb_lt in Hl as ->.
  unfold bind at 1, do_write. rewrite Hs. by destruct (f (content s, w)) as [[a| |] [c' w']].
Qed.

Lemma wp_exec_atomic {S G W A B} i (f : Counters -> A * Counters) (k : A -> Prog S G W B) Q U m w s :
  Shards.shards m !! i = Some s ->
  wp (exec (k (f (counters s)).1)) Q U (set_shard i (mkShard (content s) (f (counters s)).2) m, w) ->
  wp (exec (pbind (atomic i f) k)) Q U (m, w).
Proof.
  intros Hs H. unfold wp in *. simpl. unfold bind at 1, do_atomic. rewrite Hs. by destruct (f (counters s)).
Qed.

Lemma set_shard_lookup {S G} i s s' (m : Memory S G) : Shards.shards m !! i = Some s ->
  Shards.shards (set_shard i s' m) !! i = Some s'.
Proof. intros H. apply list_lookup_insert_eq. by eapply lookup_lt_Some. Qed.

(** Each operation with a known outcome. *)
Section Run.
Context {S G W A : Type}.
Implicit Types (m : Memory S G) (w : W) (s : Shard S).

Lemma set_set_shard i s s' m : set_shard i s (set_shard i s' m) = set_shard i s m.
Proof. unfold set_shard. simpl. by rewrite list_insert_insert_eq. Qed.

Lemma set_same_shard i s m : Shards.shards m !! i = Some s -> set_shard i s m = m.
Proof. intros H. unfold set_shard. rewrite list_insert_id by done. by destruct m. Qed.

Lemma run_lock i md (p : Prog S G W A) m w s : Shards.shards m !! i = Some s ->
  exec (plock i md ;;; p) (m, w) = exec p (m, w).
Proof. intros Hs. apply lookup_lt_Some in Hs. simpl. by apply Nat.ltb_lt in Hs as ->. Qed.

Lemma run_unlock i (p : Prog S G W A) x : exec (punlock i ;;; p) x = exec p x.
Proof. done. Qed.

Lemma run_read {X} i (f : S -> ST W X) (k : X -> Prog S G W A) m w s x w' : Shards.shards m !! i = Some s ->
  f (content s) w = (Done x, w') -> exec (pbind (read_store i f) k) (m, w) = exec (k x) (m, w').
Proof. intros Hs E. simpl. unfold bind, do_read. by rewrite Hs, E. Qed.

Lemma run_peek {X} i (f : S -> X) (k : X -> Prog S G W A) m w s : Shards.shards m !! i = Some s ->
  exec (pbind (peek_store i f) k) (m, w) = exec (k (f (content s))) (m, w).
Proof. intros Hs. simpl. unfold bind, do_read. by rewrite Hs. Qed.

Lemma run_write {X} i (f : ST (S * W) X) (k : X -> Prog S G W A) m w s x c' w' : Shards.shards m !! i = Some s ->
  f (content s, w) = (Done x, (c', w')) ->
  exec (pbind (write_store i f) k) (m, w) = exec (k x) (set_shard i (mkShard c' (counters s)) m, w').
Proof. intros Hs E. simpl. unfold bind, do_write. by rewrite Hs, E. Qed.

Lemma run_atomic {X} i (f : Counters -> X * Counters) (k : X -> Prog S G W A) m w s : Shards.shards m !! i = Some s ->
  exec (pbind (atomic i f) k) (m, w) = exec (k (f (counters s)).1) (set_shard i (mkShard (content s) (f (counters s)).2) m, w).
Proof. intros Hs. simpl. unfold bind, do_atomic. rewrite Hs. by destruct (f (counters s)). Qed.

Lemma run_with_read {X} i (f : S -> ST W X) (k : X -> Prog S G W A) m w s x w' : Shards.shards m !! i = Some s ->
  f (content s) w = (Done x, w') -> exec (pbind (with_read i f) k) (m, w) = exec (k x) (m, w').
Proof. intros Hs E. unfold with_read. apply lookup_lt_Some in Hs as Hl. simpl. apply Nat.ltb_lt in Hl as ->. unfold bind, do_read. by rewrite Hs, E. Qed.

Lemma run_with_write {X} i (f : ST (S * W) X) (k : X -> Prog S G W A) m w s x c' w' : Shards.shards m !! i = Some s ->
  f (content s, w) = (Done x, (c', w')) ->
  exec (pbind (with_write i f) k) (m, w) = exec (k x) (set_shard i (mkShard c' (counters s)) m, w').
Proof. intros Hs E. unfold with_write. apply lookup_lt_Some in Hs as Hl. simpl. apply Nat.ltb_lt in Hl as ->. unfold bind, do_write. by rewrite Hs, E. Qed.

(** The last thing done: a counter. *)
Lemma run_last i (f : Counters -> unit * Counters) (a : A) m w s : Shards.shards m !! i = Some s ->
  exec (atomic i f ;;; Ret a) (m, w) = (Done a, (set_shard i (mkShard (content s) (f (counters s)).2) m, w)).
Proof. intros Hs. by rewrite (run_atomic _ _ _ _ _ s). Qed.
End Run.

(** Programs that no map operation is needed for, piece by piece. *)
Ltac silent_step :=
  lazymatch goal with
  | |- does_all _ _ (Ret _) => apply does_all_nil
  | |- does_all _ _ (pbind _ _) => apply does_none_then; [|intros ?]
  | |- does_all _ _ (outside _) => apply does_all_outside
  | |- does_all _ _ (atomic _ _) => apply does_all_atomic; done
  | |- does_all _ _ (global _) => apply does_all_global; done
  | |- does_all _ _ (with_read _ _) => apply read_silent; done
  | |- does_all _ _ (count_evicted _ _) => apply count_silent; done
  | |- does_all _ _ (clone_shard _) => apply clone_shard_silent; done
  | |- does_all _ _ (clone_shard_all _) => apply clone_shard_all_silent; done
  | |- does_all _ _ (sizes _ _) => apply sizes_silent; done
  | |- does_all _ _ (notify _ _) => apply notify_silent
  | |- does_all _ _ (notify_all _ _) => apply notify_all_silent
  | |- does_all _ _ (all_empty _ _) => apply all_empty_silent; by apply each_lt
  | |- does_all _ _ (sum_of _ _) => apply sum_silent; [done|intros ? ?]
  | |- does_all _ _ (pmap (each _) _) => apply each_silent; [done|intros ? ?]
  | |- does_all _ _ (piter (each _) _) => apply each_silent_iter; [done|intros ? ?]
  | |- does_all _ _ (match _ with _ => _ end) => case_match
  | |- does_all _ _ (let _ := _ in _) => cbv zeta
  | |- does_all _ _ (add_hits _ _) => unfold add_hits
  | |- does_all _ _ (add_misses _ _) => unfold add_misses
  | |- does_all _ _ (add_evictions _ _) => unfold add_evictions
  | |- does_all _ _ (load_hits _) => unfold load_hits
  | |- does_all _ _ (load_misses _) => unfold load_misses
  | |- does_all _ _ (load_evictions _) => unfold load_evictions
  | |- does_all _ _ (reset_hits _) => unfold reset_hits
  | |- does_all _ _ (reset_misses _) => unfold reset_misses
  | |- does_all _ _ (reset_evictions _) => unfold reset_evictions
  end.
Ltac silent := repeat silent_step.
