(* ===== verification/MapShards.v ===== *)
(** * Shards that follow a map

    What the entries of one shard have to do with the map of the specification, and how the
    operations on a list of entries - those of [HashMap], and the abstract ones of an LRU store -
    keep it. *)
From S2P Require Import Prelude Keys Stores Sharded Shards Concurrent.

Section MapInv.
Context {K E V : Type} `{!KeyEq K, !KeyLaws K}.
Context (slot : K -> nat) (slot_cong : forall k k', keq k k' = true -> slot k = slot k').
Context (lossy : bool) (val : E -> V).
Implicit Types (s : list (K * E)) (m : Map K V).

Definition lookup_val (k : K) (s : list (K * E)) : option V := (fun e => val e.2) <$> find_key k s.

(** The keys of shard [i] are distinct and belong there; what it has for a key is what the map
    has, or nothing if the store is lossy. *)
Definition map_inv (i : nat) (s : list (K * E)) (m : Map K V) : Prop :=
  distinct s /\ (forall e, e ∈ s -> slot e.1 = i) /\
  forall k, slot k = i -> told lossy (lookup_val k s) (m k).

Lemma map_inv_local i s m m' : (forall k, slot k = i -> m' k = m k) -> map_inv i s m -> map_inv i s m'.
Proof. intros H (D & P & T). split_and!; [done|done|]. intros k Hk. rewrite H by done. by apply T. Qed.

Lemma map_inv_told i s m k : map_inv i s m -> slot k = i -> told lossy (lookup_val k s) (m k).
Proof. intros (_ & _ & H). apply H. Qed.

(** Reads. *)
Lemma answers_read i s m k : map_inv i s m -> slot k = i -> answers lossy (Read k) m (lookup_val k s) m.
Proof. intros H Hk. split; [by eapply map_inv_told|done]. Qed.

Lemma answers_read_none i s m k : lossy = true -> map_inv i s m -> slot k = i -> answers lossy (Read k) m None m.
Proof. intros Hl H Hk. split; [by right|done]. Qed.

(** Another list with the same keys, and the same values or fewer. *)
Lemma map_inv_same i s s' m : map_inv i s m -> distinct s' -> (forall e, e ∈ s' -> slot e.1 = i) ->
  (forall k, slot k = i -> lookup_val k s' = lookup_val k s \/ (lossy = true /\ lookup_val k s' = None)) ->
  map_inv i s' m.
Proof.
  intros (D & P & T) D' P' HL. split_and!; [done|done|]. intros k Hk.
  destruct (HL k Hk) as [->|[Hl ->]]; [by apply T|by right].
Qed.

Lemma find_perm_val s s' k : s ≡ₚ s' -> distinct s -> lookup_val k s = lookup_val k s'.
Proof. intros H D. unfold lookup_val. by rewrite (find_key_perm k s s' H D). Qed.

Lemma map_inv_perm i s s' m : map_inv i s m -> s ≡ₚ s' -> distinct s' -> map_inv i s' m.
Proof.
  intros (D & P & T) Hp D'. split_and!; [done|intros e He; apply P; by rewrite Hp|].
  intros k Hk. rewrite <- (find_perm_val s s' k Hp D). by apply T.
Qed.

(** Writes. *)
Lemma map_inv_put i s m k x e r : map_inv i s m -> slot k = i -> take_key k s = Some (e, r) ->
  forall k0, keq k k0 = true -> map_inv i ((k0, x) :: r) (put k (Some (val x)) m).
Proof.
  intros (D & P & T) Hk Et k0 Hk0. destruct (take_key_Some _ _ _ _ Et) as (xs & ys & -> & -> & He & F).
  pose proof (distinct_mid _ _ _ D) as [D1 F1].
  assert (fresh k0 (xs ++ ys)) as F0.
  { eapply fresh_cong; [|exact F1]. rewrite <- (keq_cong k e.1) by done. done. }
  split_and!.
  - by apply distinct_cons.
  - intros e' [->|He']%elem_of_cons; simpl; [by rewrite <- (slot_cong k k0)|].
    apply P. apply elem_of_app in He' as [?|?]; apply elem_of_app; [by left|by right; right].
  - intros k' Hk'. unfold lookup_val. rewrite find_key_cons. simpl. unfold put.
    rewrite (keq_comm k' k0), <- (keq_cong k k0) by done. destruct (keq k k') eqn:Ek; [by left|].
    replace (find_key k' (xs ++ ys)) with (find_key k' (xs ++ e :: ys)); [by apply T|].
    rewrite (find_key_perm k' (xs ++ e :: ys) (e :: xs ++ ys)) by (by rewrite ?Permutation_middle || done).
    rewrite find_key_cons. by rewrite (keq_comm k' e.1), <- (keq_cong k e.1), Ek.
Qed.

Lemma map_inv_cons i s m k x : map_inv i s m -> slot k = i -> find_key k s = None ->
  map_inv i ((k, x) :: s) (put k (Some (val x)) m).
Proof.
  intros (D & P & T) Hk F. apply find_key_None in F. split_and!.
  - by apply distinct_cons.
  - intros e [->|He]%elem_of_cons; [done|by apply P].
  - intros k' Hk'. unfold lookup_val. rewrite find_key_cons. simpl. unfold put. rewrite (keq_comm k' k).
    destruct (keq k k'); [by left|by apply T].
Qed.

Lemma hm_update_perm k x s e r : take_key k s = Some (e, r) -> hm_update k x s ≡ₚ (e.1, x) :: r.
Proof.
  intros Et. destruct (take_key_Some _ _ _ _ Et) as (xs & ys & -> & -> & He & F).
  rewrite hm_update_split by done. by rewrite <- Permutation_middle.
Qed.

Lemma find_taken k s e : find_key k s = Some e -> exists r, take_key k s = Some (e, r).
Proof. unfold find_key. destruct (take_key k s) as [[e' r]|]; [|done]. intros [= ->]. by exists r. Qed.

Lemma map_inv_update i s m k x e : map_inv i s m -> slot k = i -> find_key k s = Some e ->
  map_inv i (hm_update k x s) (put k (Some (val x)) m).
Proof.
  intros H Hk F. destruct (find_taken _ _ _ F) as [r Et]. eapply map_inv_perm.
  - eapply (map_inv_put i s m k x e r H Hk Et e.1). exact (proj2 (find_key_Some _ _ _ F)).
  - symmetry. by apply hm_update_perm.
  - apply distinct_update, H.
Qed.

Lemma map_inv_snoc i s m k x : map_inv i s m -> slot k = i -> find_key k s = None ->
  map_inv i (s ++ [(k, x)]) (put k (Some (val x)) m).
Proof.
  intros H Hk F. eapply map_inv_perm; [by apply (map_inv_cons i s m k x)| |].
  - by rewrite Permutation_app_comm.
  - apply distinct_snoc; [apply H|]. by apply find_key_None.
Qed.

Lemma map_inv_insert i s m k x : map_inv i s m -> slot k = i ->
  map_inv i (hm_insert k x s).2 (put k (Some (val x)) m) /\
  answers lossy (Write k (val x)) m (val <$> (hm_insert k x s).1) (put k (Some (val x)) m).
Proof.
  intros H Hk. pose proof (map_inv_told i s m k H Hk) as HT. unfold hm_insert, lookup_val in *.
  destruct (find_key k s) as [e|] eqn:F; simpl; (split; [|by split]).
  - by eapply map_inv_update.
  - by apply map_inv_snoc.
Qed.

(** A new value that counts as the old one: a deadline moved. *)
Lemma map_inv_refresh i s m k x e : map_inv i s m -> slot k = i -> find_key k s = Some e -> val x = val e.2 ->
  map_inv i (hm_update k x s) m.
Proof.
  intros H Hk F Hv. destruct H as (D & P & T). pose proof (distinct_update k x s D) as D'.
  split_and!; [done|..].
  - intros e' He'. destruct (find_taken _ _ _ F) as [r Et]. rewrite (hm_update_perm _ _ _ _ _ Et) in He'.
    apply elem_of_cons in He' as [->|He']; [simpl; apply P; exact (proj1 (find_key_Some _ _ _ F))|].
    apply P. destruct (take_key_Some _ _ _ _ Et) as (xs & ys & -> & -> & _).
    apply elem_of_app in He' as [?|?]; apply elem_of_app; [by left|by right; right].
  - intros k' Hk'. unfold lookup_val. rewrite (find_key_update k x s e D F).
    destruct (keq k k') eqn:Ek; [|by apply T]. simpl. rewrite Hv.
    specialize (T k' Hk'). unfold lookup_val in T. by rewrite <- (find_key_cong k k' s Ek), F in T.
Qed.

(** Removals. *)
Lemma map_inv_erase i s m k : map_inv i s m -> slot k = i -> map_inv i (drop_key k s) (put k None m).
Proof.
  intros (D & P & T) Hk. split_and!.
  - unfold drop_key. destruct (take_key k s) as [[e r]|] eqn:Et; [exact (distinct_drop_key _ _ _ _ D Et)|done].
  - intros e He. apply P. unfold drop_key in He. destruct (take_key k s) as [[e' r]|] eqn:Et; [|done].
    destruct (take_key_Some _ _ _ _ Et) as (xs & ys & -> & -> & _).
    apply elem_of_app in He as [?|?]; apply elem_of_app; [by left|by right; right].
  - intros k' Hk'. unfold lookup_val, put. rewrite find_key_drop by done.
    destruct (keq k k'); [by left|by apply T].
Qed.

Lemma answers_erase i s m k : map_inv i s m -> slot k = i ->
  answers lossy (Erase k) m (lookup_val k s) (put k None m).
Proof. intros H Hk. split; [by eapply map_inv_told|done]. Qed.

(** A lossy store may drop what it likes. *)
Lemma map_inv_sublist i s s' r m : lossy = true -> map_inv i s m -> r ++ s' ≡ₚ s -> map_inv i s' m.
Proof.
  intros Hl (D & P & T) Hp. assert (distinct (r ++ s')) as D1 by (by rewrite Hp).
  apply distinct_app in D1 as (D1 & D2 & F). split_and!; [done|..].
  - intros e He. apply P. rewrite <- Hp. apply elem_of_app. by right.
  - intros k Hk. unfold lookup_val. destruct (find_key k s') as [e|] eqn:Fk; [|by right].
    specialize (T k Hk). unfold lookup_val in T. replace (find_key k s) with (Some e) in T; [done|].
    symmetry. apply find_key_Some in Fk as [He Hke]. rewrite (find_key_cong k e.1 s Hke).
    apply distinct_find; [done|]. rewrite <- Hp. apply elem_of_app. by right.
Qed.

(** A sweep: [r] goes, [s'] stays. *)
Lemma map_inv_filter i s s' r m (kept dropped : K -> V -> Prop) o : map_inv i s m -> r ++ s' ≡ₚ s ->
  (forall e k, e ∈ r -> keq k e.1 = true -> dropped k (val e.2)) ->
  (forall e k, e ∈ s' -> keq k e.1 = true -> kept k (val e.2)) ->
  exists m', answers lossy (Filter (fun k => Nat.eqb (slot k) i) kept dropped) m o m' /\ map_inv i s' m'.
Proof.
  intros (D & P & T) Hp Hd Hk.
  exists (fun k => if Nat.eqb (slot k) i && existsb (fun e => keq k e.1) r then None else m k).
  assert (distinct (r ++ s')) as Drs by (by rewrite Hp). pose proof (proj1 (distinct_app _ _) Drs) as (Dr & Ds & F).
  assert (forall k e, e ∈ r -> keq k e.1 = true -> find_key k s = Some e) as Hr.
  { intros k e He Hke. rewrite (find_key_cong k e.1 s Hke). apply distinct_find; [done|].
    rewrite <- Hp. apply elem_of_app. by left. }
  assert (forall k, existsb (fun e => keq k e.1) r = true -> exists e, e ∈ r /\ keq k e.1 = true) as Hex.
  { intros k (e & He & Hke)%existsb_exists. exists e. by split; [apply list_elem_of_In|]. }
  assert (forall k e, e ∈ s' -> keq k e.1 = true -> existsb (fun e => keq k e.1) r = false) as Hno.
  { intros k e He Hke. apply not_true_iff_false. intros (e' & He' & Hke')%Hex.
    rewrite Forall_forall in F. specialize (F e' He'). unfold fresh in F. rewrite Forall_forall in F.
    specialize (F e He). rewrite <- (keq_cong k e'.1) in F by done. congruence. }
  split.
  - intros k. cbv beta. destruct (Nat.eqb_spec (slot k) i) as [Hs|]; simpl; [|done]. specialize (T k Hs).
    unfold filtered. destruct (m k) as [v|] eqn:Em.
    + destruct (existsb _ r) eqn:Ex.
      * left. split; [done|]. destruct (Hex k Ex) as (e & He & Hke). unfold lookup_val in T.
        rewrite (Hr k e He Hke) in T. destruct T as [[= <-]|[_ [=]]]. by apply Hd.
      * right. split; [done|]. destruct T as [T|[-> _]]; [|by right]. left. unfold lookup_val in T.
        destruct (find_key k s) as [e|] eqn:Fk; [|done]. injection T as <-. apply find_key_Some in Fk as [He Hke].
        rewrite <- Hp in He. apply elem_of_app in He as [He|He]; [|by apply Hk].
        exfalso. assert (existsb (fun e => keq k e.1) r = true); [|congruence].
        apply existsb_exists. exists e. by split; [apply list_elem_of_In|].
    + by destruct (existsb _ r).
  - split_and!; [done|intros e He; apply P; rewrite <- Hp; apply elem_of_app; by right|].
    intros k Hs. rewrite (proj2 (Nat.eqb_eq _ _) Hs). simpl. unfold lookup_val.
    destruct (existsb _ r) eqn:Ex.
    + destruct (find_key k s') as [e|] eqn:Fk; [|by left]. apply find_key_Some in Fk as [He Hke].
      by rewrite (Hno k e He Hke) in Ex.
    + specialize (T k Hs). unfold lookup_val in T. replace (find_key k s') with (find_key k s); [done|].
      rewrite <- (find_key_perm k (r ++ s') s Hp Drs). clear -Ex. induction r as [|e r IH]; [done|].
      simpl in Ex. apply orb_false_iff in Ex as [E1 E2]. simpl. rewrite find_key_cons, E1. by apply IH.
Qed.

Lemma map_inv_nil i m on : (forall k, slot k = i -> on k = true) ->
  map_inv i [] (fun k => if on k then None else m k).
Proof.
  intros Ho. split_and!; [done|by intros e He%elem_of_nil|]. intros k Hk. left. by rewrite (Ho k Hk).
Qed.
End MapInv.

(** What the user's predicate said of the value stored for [k]. *)
Definition judged {K V W} `{!KeyEq K} (keep : K -> V -> User W bool) (b : bool) (k : K) (v : V) : Prop :=
  exists k0, keq k k0 = true /\ may_return (keep k0 v) b.

Lemma said_rejected {K V W} `{!KeyEq K} (keep : K -> V -> User W bool) b (e : K * V) k :
  said (rejected keep) b e -> keq k e.1 = true -> judged keep (negb b) k e.2.
Proof.
  intros (w & w' & E) Hk. exists e.1. split; [done|]. unfold rejected in E.
  destruct (keep e.1 e.2 w) as [[b'|] w1] eqn:Ek; [|done]. injection E as <- <-. exists w, w1. by rewrite Ek, negb_involutive.
Qed.

(** ** The layout of the map-backed stores *)
Section MapLayout.
Context {K E V W G : Type} `{!KeyEq K, !KeyLaws K}.

Program Definition map_layout (lossy : bool) (val : E -> V) (ginv : G -> Prop) (d : Inner K V W) (Hd : proper d) :
    Layout (list (K * E)) G K V :=
  {| shard_count := shard_len d;
     slot := index_of d;
     lossy := lossy;
     inv := map_inv (index_of d) lossy val;
     ginv := ginv |}.
Next Obligation. intros. by apply index_cong. Qed.
Next Obligation. intros. by apply index_bound. Qed.
Next Obligation. intros. by eapply map_inv_local. Qed.
End MapLayout.
