(* ===== verification/ShardTtl.v ===== *)
(** * Time in the sharded stores

    The ttl and the refresh flag are atomics of the store as a whole; an entry carries its own
    deadline.  [ShardedTtlCache] and [ShardedLruTtlCache] share this part. *)
From S2P Require Import Prelude Keys Stores Sharded Shards Concurrent ShardOps MapShards.

(** [ttl_nanos] - zero if entries do not expire - and [refresh]. *)
Record TtlAtomics : Type := mkTtl { ttl_nanos : Z; refresh : bool }.

(** [expired_at] *)
Definition expired_at {V} (entry : TimedEntry V) (now : Z) : bool :=
  match expires_at entry with Some t => t <=? now | None => false end.

(** [Instant::now()] *)
Definition read_clock {W} `{!Clock W} : ST W Z := fun w => let '(t, w) := clock_now w in (Done t, w).
Definition clock_reading {W} `{!Clock W} : User W Z := fun w => let '(t, w) := clock_now w in (Some t, w).

(** [expires_at.is_some_and(|t| Instant::now() >= t)]: the clock is read only if there is a deadline. *)
Definition past_deadline {W V} `{!Clock W} (entry : TimedEntry V) : ST W bool :=
  match expires_at entry with
  | Some t => let! now := read_clock in ret (t <=? now)
  | None => ret false
  end.
Definition past_deadline_now {W V} `{!Clock W} (entry : TimedEntry V) : User W bool := fun w =>
  match expires_at entry with
  | Some t => let '(now, w) := clock_now w in (Some (t <=? now), w)
  | None => (Some false, w)
  end.

Section TtlOps.
Context {S X W : Type} `{!Clock W}.
Notation P := (Prog S (TtlAtomics * X) W).

Definition ttl_duration : P (option Z) := let* nanos := global (fun g => (ttl_nanos g.1, g)) in Ret (decode_ttl nanos).

Definition swap_ttl (nanos : Z) : P (option Z) :=
  let* prev := global (fun g => (ttl_nanos g.1, (mkTtl nanos (refresh g.1), g.2))) in
  Ret (decode_ttl prev).

Definition load_refresh : P bool := global (fun g => (refresh g.1, g)).
Definition swap_refresh (b : bool) : P bool := global (fun g => (refresh g.1, (mkTtl (ttl_nanos g.1) b, g.2))).

(** [compute_expires_at]: the deadline of an entry stored at [now]. *)
Definition deadline_from (now : Z) : P (option Z) :=
  let* nanos := global (fun g => (ttl_nanos g.1, g)) in Ret (compute_expires_at nanos now).
End TtlOps.

(** [self.or(other)] *)
Definition or_else_some {A} (o other : option A) : option A := match o with Some _ => o | None => other end.

(** The stored entry, as the callback sees it. *)
Definition bare {K V} (e : K * TimedEntry V) : K * V := (e.1, tvalue e.2).

(** [expired_at(entry, now) || !keep(k, &entry.value)] *)
Definition stale_or_rejected {K V W} (keep : K -> V -> User W bool) (now : Z) (k : K) (entry : TimedEntry V) : User W bool :=
  if expired_at entry now then fun w => (Some true, w) else rejected keep k (tvalue entry).

(** ** Lemmas *)
Lemma judged_stale {K V W} `{!KeyEq K} (keep : K -> V -> User W bool) now (e : K * TimedEntry V) k :
  said (stale_or_rejected keep now) false e -> keq k e.1 = true -> judged keep true k (tvalue e.2).
Proof.
  intros (w & w' & H) Hk. unfold stale_or_rejected in H. destruct (expired_at e.2 now); [done|].
  apply (said_rejected keep false (e.1, tvalue e.2)); [|done]. by exists w, w'.
Qed.


Lemma wp_read_clock {W} `{!Clock W} (Q : Z -> W -> Prop) U w : (forall t w', Q t w') -> wp read_clock Q U w.
Proof. intros H. unfold wp, read_clock. destruct (clock_now w). apply H. Qed.

Lemma wp_past_deadline {W V} `{!Clock W} (e : TimedEntry V) (Q : bool -> W -> Prop) U w : (forall b w', Q b w') -> wp (past_deadline e) Q U w.
Proof.
  intros H. unfold past_deadline. destruct (expires_at e); [|by apply wp_ret]. apply wp_bind, wp_read_clock. intros t w'. by apply wp_ret.
Qed.

(** The atomics on their own: no map operation is needed for any of these. *)
Section TtlSilent.
Context {K V S X W : Type} `{!KeyEq K} (L : Layout S (TtlAtomics * X) K V) (Hg : forall g, ginv L g).
Notation P := (Prog S (TtlAtomics * X) W).

Lemma global_silent {A} (f : TtlAtomics * X -> A * (TtlAtomics * X)) : does_all L [] (global f : P A).
Proof. by apply does_all_global. Qed.

Lemma ttl_duration_silent : does_all L [] (ttl_duration : P (option Z)).
Proof. apply does_none_then; [apply global_silent|intros n; apply does_all_nil]. Qed.

Lemma swap_ttl_silent n : does_all L [] (swap_ttl n : P (option Z)).
Proof. apply does_none_then; [apply global_silent|intros m; apply does_all_nil]. Qed.

Lemma deadline_from_silent now : does_all L [] (deadline_from now : P (option Z)).
Proof. apply does_none_then; [apply global_silent|intros n; apply does_all_nil]. Qed.
End TtlSilent.
