(* ===== verification/ShardAlone.v ===== *)
(** * A call that runs alone

    While nothing else runs, a call of a sharded store is a function of one shard, the clock and
    user code.  This part is shared by the exact statements on the expiring stores. *)
From S2P Require Import Prelude Keys Stores Sharded Shards Concurrent ShardOps ShardTtl.

Definition counted_hit (n : Counters) : Counters := mkCounters (fetch_add (hits n) 1) (misses n) (evictions n).
Definition counted_miss (n : Counters) : Counters := mkCounters (hits n) (fetch_add (misses n) 1) (evictions n).
Definition counted_eviction (n : Counters) : Counters := mkCounters (hits n) (misses n) (fetch_add (evictions n) 1).

Section Alone.
Context {K V W S G : Type} (d : Inner K V W).
Implicit Types (m : Memory S G) (w : W).

(** The callback, if there is one. *)
Definition told_to (e : K * V) (w : W) : option unit * W :=
  match on_evict d with Some f => f e.1 e.2 w | None => (Some tt, w) end.

(** The end of a [get] that has removed the entry [e]: the eviction is counted, the callback told,
    the miss counted; if the callback panics the miss is not. *)
Definition expired_out (i : nat) (gone : S) (n : Counters) (e : K * V) m w : outcome (option V) * (Memory S G * W) :=
  match told_to e w with
  | (Some _, w') => (Done None, (set_shard i (mkShard gone (counted_miss (counted_eviction n))) m, w'))
  | (None, w') => (Unwind, (set_shard i (mkShard gone (counted_eviction n)) m, w'))
  end.

Lemma set_shard_expired_out i gone n e s m w : expired_out i gone n e (set_shard i s m) w = expired_out i gone n e m w.
Proof. unfold expired_out. destruct (told_to e w) as [[[]|] w']; by rewrite set_set_shard. Qed.

Lemma run_expired i e m w s : Shards.shards m !! i = Some s ->
  exec ((add_evictions i 1 ;;; notify d e) ;;; add_misses i 1 ;;; Ret None) (m, w) =
    expired_out i (content s) (counters s) e m w.
Proof.
  intros Hs. unfold add_evictions, add_misses, atomic, notify, expired_out, told_to. cbn [pbind exec].
  unfold bind at 1, do_atomic. rewrite Hs. cbn [content counters].
  destruct (on_evict d) as [f|]; cbn [pbind exec].
  - unfold outside. cbn [pbind exec]. unfold bind at 1, user. cbn [fst snd].
    destruct (f e.1 e.2 w) as [[[]|] w']; [|done]. cbn [pbind exec]. unfold bind at 1, do_atomic.
    rewrite (set_shard_lookup _ s) by done. cbn [content counters]. by rewrite set_set_shard.
  - unfold bind at 1, do_atomic. rewrite (set_shard_lookup _ s) by done. cbn [content counters]. by rewrite set_set_shard.
Qed.

Lemma run_outside {X A} (f : User W X) (k : X -> Prog S G W A) m w x w' : f w = (Some x, w') ->
  exec (pbind (outside f) k) (m, w) = exec (k x) (m, w').
Proof. intros E. unfold outside. cbn [pbind exec]. unfold bind at 1, user. cbn [fst snd]. by rewrite E. Qed.

Lemma run_global {X A} (f : G -> X * G) (k : X -> Prog S G W A) m w : (f (globals m)).2 = globals m ->
  exec (pbind (global f) k) (m, w) = exec (k (f (globals m)).1) (m, w).
Proof.
  intros E. unfold global. cbn [pbind exec]. unfold bind at 1, do_global. destruct (f (globals m)) as [x g].
  simpl in E. subst g. simpl. by destruct m.
Qed.

Lemma run_bind {X A} (p : Prog S G W X) (k : X -> Prog S G W A) x y s : exec p s = (Done x, y) -> exec (pbind p k) s = exec (k x) y.
Proof. intros E. rewrite exec_bind. unfold bind. by rewrite E. Qed.

(** An access that ends the call by a panic. *)
Lemma run_write_unwind {X A} i (f : ST (S * W) X) (k : X -> Prog S G W A) m w s c' w' : Shards.shards m !! i = Some s ->
  f (content s, w) = (Unwind, (c', w')) ->
  exec (pbind (write_store i f) k) (m, w) = (Unwind, (set_shard i (mkShard c' (counters s)) m, w')).
Proof. intros Hs E. simpl. unfold bind, do_write. by rewrite Hs, E. Qed.

Lemma run_read_unwind {X A} i (f : S -> ST W X) (k : X -> Prog S G W A) m w s w' : Shards.shards m !! i = Some s ->
  f (content s) w = (Unwind, w') -> exec (pbind (read_store i f) k) (m, w) = (Unwind, (m, w')).
Proof. intros Hs E. simpl. unfold bind, do_read. by rewrite Hs, E. Qed.

Lemma run_with_read_unwind {X A} i (f : S -> ST W X) (k : X -> Prog S G W A) m w s w' : Shards.shards m !! i = Some s ->
  f (content s) w = (Unwind, w') -> exec (pbind (with_read i f) k) (m, w) = (Unwind, (m, w')).
Proof.
  intros Hs E. unfold with_read. apply lookup_lt_Some in Hs as Hl. simpl. apply Nat.ltb_lt in Hl as ->.
  unfold bind, do_read. by rewrite Hs, E.
Qed.
End Alone.

Lemma exec_deadline {S X W} `{!Clock W} now (m : Memory S (TtlAtomics * X)) (w : W) :
  exec (deadline_from now) (m, w) = (Done (compute_expires_at (ttl_nanos (globals m).1) now), (m, w)).
Proof. unfold deadline_from. by rewrite run_global. Qed.
