(* ===== verification/ShardedUnbound.v ===== *)
(** * The sharded unbounded store ([src/stores/sharded/unbound.rs])

    Shards of [HashMap]s; no metrics of evictions.  Reads take the read lock.  The callback runs
    after the shard's lock has been released. *)
From Stdlib Require Import String.
From S2P Require Import Prelude Keys Stores Sharded Shards Concurrent ShardOps.
#[local] Close Scope string_scope.

Section ShardedUnbound.
Context {K V W : Type} `{!KeyEq K}.
Notation Store := (list (K * V)).
Notation P := (Prog Store unit W).
Notation Mem := (Memory Store unit).

(** The handle behind the [Arc]. *)
Record ShardedUnboundCache : Type := mkSharded { inner : Inner K V W }.

Definition shard_of (c : ShardedUnboundCache) (k : K) : nat := index_of (inner c) k.

(** *** The store under its lock *)
Definition hm_get (k : K) (s : Store) : ST W (option V) := ret (snd <$> find_key k s).
Definition hm_set (k : K) (v : V) : ST (Store * W) (option V) :=
  let! s := gets fst in
  let '(old, s) := hm_insert k v s in
  modify (fun p => (s, p.2)) ;;
  ret old.
Definition hm_remove_entry (k : K) : ST (Store * W) (option (K * V)) :=
  let! s := gets fst in
  match take_key k s with
  | Some (e, s) => modify (fun p => (s, p.2)) ;; ret (Some e)
  | None => ret None
  end.
Definition hm_clear : ST (Store * W) unit := modify (fun p => ([], p.2)).
Definition hm_drain : ST (Store * W) Store :=
  let! s := gets fst in modify (fun p => ([], p.2)) ;; ret s.

(** *** [ConcurrentCached] *)

Definition cache_get (c : ShardedUnboundCache) (k : K) : P (option V) :=
  let shard := shard_of c k in
  let* found := with_read shard (hm_get k) in
  match found with
  | Some v => add_hits shard 1 ;;; Ret (Some v)
  | None => add_misses shard 1 ;;; Ret None
  end.

Definition cache_set (c : ShardedUnboundCache) (k : K) (v : V) : P (option V) :=
  with_write (shard_of c k) (hm_set k v).

Definition cache_remove_entry (c : ShardedUnboundCache) (k : K) : P (option (K * V)) :=
  let* removed := with_write (shard_of c k) (hm_remove_entry k) in
  match removed with
  | Some e => notify (inner c) e ;;; Ret removed
  | None => Ret removed
  end.

Definition cache_remove (c : ShardedUnboundCache) (k : K) : P (option V) :=
  let* r := cache_remove_entry c k in Ret (snd <$> r).

Definition clear (c : ShardedUnboundCache) : P unit := piter (each (inner c)) (fun i => with_write i hm_clear).
Definition cache_clear : ShardedUnboundCache -> P unit := clear.

Definition cache_reset_metrics (c : ShardedUnboundCache) : P unit :=
  piter (each (inner c)) (fun i => reset_hits i ;;; reset_misses i).

Definition cache_reset (c : ShardedUnboundCache) : P unit := clear c ;;; cache_reset_metrics c.

Definition cache_contains (c : ShardedUnboundCache) (k : K) : P bool :=
  with_read (shard_of c k) (fun s => ret (is_some (find_key k s))).

Definition peek (c : ShardedUnboundCache) (k : K) : P (option V) := with_read (shard_of c k) (hm_get k).

#[global] Instance unbound_concurrent : ConcurrentCached ShardedUnboundCache Store unit K V W := {|
  Concurrent.cache_get := cache_get;
  Concurrent.cache_set := cache_set;
  Concurrent.cache_remove := cache_remove;
  Concurrent.cache_remove_entry := cache_remove_entry;
  Concurrent.cache_contains := cache_contains;
  Concurrent.cache_clear := cache_clear;
  Concurrent.cache_reset := cache_reset;
  Concurrent.cache_reset_metrics := cache_reset_metrics |}.
#[global] Instance unbound_concurrent_peek : ConcurrentCachePeek ShardedUnboundCache Store unit K V W := {|
  Concurrent.cache_peek := peek |}.

(** *** Inherent methods *)

Definition size_of (s : Store) : Z := Z.of_nat (length s).
Definition shard_sizes (c : ShardedUnboundCache) : P (list Z) := sizes (inner c) size_of.
Definition len (c : ShardedUnboundCache) : P Z := let* l := shard_sizes c in Ret (wrapping_sum l).
Definition is_empty (c : ShardedUnboundCache) : P bool := all_empty size_of (each (inner c)).

Definition cache_hits (c : ShardedUnboundCache) : P (option Z) :=
  let* n := sum_of (inner c) load_hits in Ret (Some n).
Definition cache_misses (c : ShardedUnboundCache) : P (option Z) :=
  let* n := sum_of (inner c) load_misses in Ret (Some n).
Definition cache_size (c : ShardedUnboundCache) : P (option Z) := let* n := len c in Ret (Some n).

Definition metrics (c : ShardedUnboundCache) : P CacheMetrics :=
  let* l := pmap (each (inner c)) (fun i =>
    let* h := load_hits i in
    let* m := load_misses i in
    let* n := with_read i (fun s : Store => ret (Z.of_nat (length s))) in
    Ret (h, m, n)) in
  Ret (mkMetrics (Some (wrapping_sum (l.*1.*1))) (Some (wrapping_sum (l.*1.*2))) None (Some (wrapping_sum (l.*2))) None).

Definition shards (c : ShardedUnboundCache) : nat := shard_len (inner c).

Definition cache_clear_with_on_evict (c : ShardedUnboundCache) : P unit :=
  match on_evict (inner c) with
  | None => clear c
  | Some _ => piter (each (inner c)) (fun i => let* entries := with_write i hm_drain in notify_all (inner c) entries)
  end.

Definition retain (c : ShardedUnboundCache) (keep : K -> V -> User W bool) : P Z :=
  sweep_shards (inner c) (fun i => with_write i (take_doomed (rejected keep))).

Definition deep_clone (c : ShardedUnboundCache) : P (ShardedUnboundCache * Mem) :=
  let* l := pmap (each (inner c)) clone_shard in
  Ret (c, mkMemory l tt).

(** *** The builder *)

Record ShardedUnboundCacheBuilder : Type := mkBuilder {
  b_shards : option Z; b_capacity : option Z; b_hasher : option (K -> Z); b_on_evict : OnEvict K V W }.

(** [Default]: the default hasher. *)
Definition builder (default_hasher : K -> Z) : ShardedUnboundCacheBuilder :=
  mkBuilder None None (Some default_hasher) None.
Definition builder_shards (n : Z) (b : ShardedUnboundCacheBuilder) :=
  mkBuilder (Some n) (b_capacity b) (b_hasher b) (b_on_evict b).
Definition builder_per_shard_initial_capacity (n : Z) (b : ShardedUnboundCacheBuilder) :=
  mkBuilder (b_shards b) (Some n) (b_hasher b) (b_on_evict b).
Definition builder_hasher (h : K -> Z) (b : ShardedUnboundCacheBuilder) :=
  mkBuilder (b_shards b) (b_capacity b) (Some h) (b_on_evict b).
Definition builder_on_evict (f : K -> V -> User W unit) (b : ShardedUnboundCacheBuilder) :=
  mkBuilder (b_shards b) (b_capacity b) (b_hasher b) (Some f).

Context (available_parallelism : option Z).

(** The initial capacity is a hint: it leaves no trace in what the map holds.  [hasher] is always
    set; without one [expect] panics. *)
Definition build (b : ShardedUnboundCacheBuilder) : outcome (result BuildError (ShardedUnboundCache * Mem)) :=
  match checked_shard_count available_parallelism (b_shards b) with
  | Err e => Done (Err e)
  | Ok n =>
      let? h := expect (b_hasher b) in
      Done (Ok (mkSharded (mkInner (Z.to_nat n) (n - 1) h (b_on_evict b)),
                mkMemory (replicate (Z.to_nat n) (new_shard [])) tt))
  end.

Definition new (default_hasher : K -> Z) : outcome (ShardedUnboundCache * Mem) :=
  let? r := build (builder default_hasher) in match r with Ok c => Done c | Err _ => Unwind end.

Definition copy_from (b : ShardedUnboundCacheBuilder) (existing : ShardedUnboundCache) :
    P (result BuildError (ShardedUnboundCache * Mem)) :=
  match build b with
  | Done (Ok (c, m)) => let* m := copy_shards (fun s => ret s) (fun m e => set_alone m (cache_set c e.1 e.2)) (each (inner existing)) m in
      Ret (Ok (c, m))
  | Done (Err e) => Ret (Err e)
  | _ => Panic
  end.
End ShardedUnbound.
Arguments ShardedUnboundCache : clear implicits.
Arguments ShardedUnboundCacheBuilder : clear implicits.
