(* ===== verification/ShardedUnboundProps.v ===== *)
(** * The sharded unbounded store is one atomic map

    It keeps the contract of [Concurrent.v] exactly: no binding is ever forgotten. *)
From S2P Require Import Prelude Keys Stores Sharded Shards Concurrent ShardOps MapShards ShardedUnbound.

Section Laws.
Context {K V W : Type} `{!KeyEq K, !KeyLaws K}.
Context (c : ShardedUnboundCache K V W) (Hd : proper (inner c)).

Definition unbound_layout : Layout (list (K * V)) unit K V := map_layout false id (fun _ => True) (inner c) Hd.
Notation L := unbound_layout.

Lemma shard_lt k : (shard_of c k < shard_count L)%nat.
Proof. by apply index_bound. Qed.

Lemma hm_get_does k : does L (Read k) (with_read (W := W) (shard_of c k) (hm_get k)) eq.
Proof.
  apply with_read_does; [apply shard_lt|done|]. intros s m w HI. apply wp_ret.
  eexists. split; [by apply (answers_read (index_of (inner c)) false id (shard_of c k) s m k)|].
  unfold lookup_val. by destruct (find_key k s).
Qed.

Lemma hm_remove_does k : does L (Erase k) (with_write (W := W) (shard_of c k) (hm_remove_entry k)) (entry_of k).
Proof.
  apply with_write_does; [apply shard_lt|done|]. intros s m w HI. unfold hm_remove_entry.
  apply wp_bind, wp_gets. simpl. pose proof (map_inv_erase (index_of (inner c)) false id _ s m k HI eq_refl) as HE.
  pose proof (answers_erase (index_of (inner c)) false id _ s m k HI eq_refl) as HA.
  unfold drop_key, lookup_val, find_key in *. destruct (take_key k s) as [[e r]|] eqn:Et.
  - apply wp_bind, wp_modify, wp_ret. eexists _, _. refine (conj HA (conj HE (conj _ _))); [done|].
    intros e' [= <-]. by destruct (take_key_Some _ _ _ _ Et) as (? & ? & _ & _ & ? & _).
  - apply wp_ret. eexists _, _. by refine (conj HA (conj HE (conj _ _))).
Qed.

Lemma hm_empty_does {A} i (f : ST (list (K * V) * W) A) : (i < shard_count L)%nat ->
  (forall s w, exists a, f (s, w) = (Done a, ([], w))) -> does_all L [EraseAll (on_shard L i)] (with_write i f).
Proof.
  intros Hi Hf. apply erase_shard_does; [done|]. intros s m w HI. destruct (Hf s w) as [a E].
  apply (wp_run _ _ _ _ a ([], w)); [done|]. apply map_inv_nil. intros k Hk. by apply Nat.eqb_eq.
Qed.

Lemma clear_all : does_all L (erase_shards L) (clear c).
Proof. apply (each_does (inner c)); [done|]. intros i Hi. apply hm_empty_does; [done|]. intros s w. by exists tt. Qed.

Lemma reset_silent : does_all L [] (cache_reset_metrics c).
Proof.
  apply (each_silent_iter (inner c)); [done|]. intros i Hi.
  apply does_none_then; [by apply does_all_atomic|]. intros _. by apply does_all_atomic.
Qed.

#[export] Instance unbound_concurrent_laws : ConcurrentLaws (W := W) c L.
Proof.
  split.
  - intros k. eapply does_then; [apply hm_get_does|]. intros a r R q ->.
    destruct r as [v|]; apply silent_ret; try done; apply does_all_atomic, shard_lt.
  - intros k v. apply with_write_does; [apply shard_lt|done|]. intros s m w HI. unfold hm_set.
    apply wp_bind, wp_gets. simpl.
    pose proof (map_inv_insert (index_of (inner c)) (fun k k' => index_cong (inner c) k k' Hd) false id _ s m k v HI eq_refl) as [HI' HA].
    destruct (hm_insert k v s) as [old s']. apply wp_bind, wp_modify, wp_ret. eexists _, _.
    refine (conj HA (conj HI' _)). by destruct old.
  - intros k. apply (does_ret L _ _ (entry_of k)).
    + eapply does_then; [apply hm_remove_does|]. intros e r R q He. destruct e as [e|].
      * apply silent_ret; [apply notify_silent|done].
      * split; [done|]. by exists r.
    + intros e r [<- _]. by left.
  - intros k. eapply does_then; [apply hm_remove_does|]. intros e r R q He. destruct e as [e|].
    + apply silent_ret; [apply notify_silent|done].
    + split; [done|]. by exists r.
  - intros k. apply with_read_does; [apply shard_lt|done|]. intros s m w HI. apply wp_ret.
    eexists. split; [by apply (answers_read (index_of (inner c)) false id (shard_of c k) s m k)|].
    unfold lookup_val. by destruct (find_key k s).
  - intros k. apply hm_get_does.
  - apply clear_all.
  - apply does_all_then; [apply clear_all|]. intros _. apply reset_silent.
  - apply reset_silent.
Qed.
End Laws.

(** ** The calls of this store alone *)
Section Own.
Context {K V W E : Type} `{!KeyEq K, !KeyLaws K}.
Context (available_parallelism : option Z).

Inductive UnboundCall : Type :=
| Retain (keep : K -> V -> User W bool)
| ClearWithOnEvict
| Len | ShardSizes | IsEmpty | Hits | Misses | Metrics
| DeepClone
| CopyFrom (b : ShardedUnboundCacheBuilder K V W).

Context (c : ShardedUnboundCache K V W) (Hd : proper (inner c)).
Notation L := (unbound_layout c Hd).
Notation Rep := (Reply K V E).

Definition own (q : UnboundCall) : Prog (list (K * V)) unit W Rep :=
  match q with
  | Retain keep => let* n := retain c keep in Ret (Numbers [Some n])
  | ClearWithOnEvict => cache_clear_with_on_evict c ;;; Ret Nothing
  | Len => let* n := len c in Ret (Numbers [Some n])
  | ShardSizes => let* l := shard_sizes c in Ret (Numbers (Some <$> l))
  | IsEmpty => let* b := is_empty c in Ret (Flag b)
  | Hits => let* n := cache_hits c in Ret (Numbers [n])
  | Misses => let* n := cache_misses c in Ret (Numbers [n])
  | Metrics => let* m := metrics c in Ret (Numbers [m_hits m; m_misses m; m_evictions m; m_entry_count m; m_capacity m])
  | DeepClone => deep_clone c ;;; Ret Nothing
  | CopyFrom b => copy_from available_parallelism b c ;;; Ret Nothing
  end.

(** [retain] is a sweep of one shard after the other, by what the predicate says. *)
Definition own_spec (q : UnboundCall) : Spec K V Rep :=
  match q with
  | Retain keep =>
      await_all (shard_wise L (fun i => Filter (on_shard L i) (judged keep true) (judged keep false))) (Returns (fun _ => True))
  | ClearWithOnEvict => await_all (erase_shards L) (Returns (eq Nothing))
  | _ => Returns (fun _ => True)
  end.

Lemma retain_sweeps keep i : (i < shard_count L)%nat ->
  does_all L [Filter (on_shard L i) (judged keep true) (judged keep false)] (with_write (W := W) i (take_doomed (rejected keep))).
Proof.
  intros Hi. apply (does_does_all L _ _ (fun _ _ => True)). apply with_write_does; [done|by intros k Hk%within_shard|].
  intros s m w HI. eapply wp_mono; [apply (take_doomed_said (rejected keep) s w), HI|..].
  - intros l s' (Hp & D' & H1 & H2). rewrite Forall_forall in H1, H2.
    destruct (map_inv_filter (index_of (inner c)) false id i s s'.1 l m (judged keep true) (judged keep false) None HI Hp) as (m' & HA & HI').
    + intros e k He Hk. eapply (said_rejected keep true); [by apply H1|done].
    + intros e k He Hk. eapply (said_rejected keep false); [by apply H2|done].
    + exists None, m'. exact (conj HA (conj HI' I)).
  - intros s' ->. by left.
Qed.

Lemma unbound_own_safe q : safely L None (own_spec q) (own q) (post ends).
Proof.
  destruct q as [keep| | | | | | | | |b]; simpl.
  - apply then_returns; [|done]. apply sweep_does; [done|]. apply retain_sweeps.
  - apply then_returns; [|done]. unfold cache_clear_with_on_evict. destruct (on_evict (inner c)) as [f|]; [|apply clear_all].
    apply (each_does (inner c)); [done|]. intros i Hi. apply does_all_then; [|intros l; silent].
    apply hm_empty_does; [done|]. intros s w. by exists s.
  - apply (then_returns L []); [|done]. unfold len, shard_sizes. silent.
  - apply (then_returns L []); [|done]. unfold shard_sizes. silent.
  - apply (then_returns L []); [|done]. unfold is_empty. silent.
  - apply (then_returns L []); [|done]. unfold cache_hits, load_hits. silent.
  - apply (then_returns L []); [|done]. unfold cache_misses, load_misses. silent.
  - apply (then_returns L []); [|done]. unfold metrics, load_hits, load_misses. silent.
  - apply (then_returns L []); [|done]. unfold deep_clone. silent.
  - apply (then_returns L []); [|done]. unfold copy_from. destruct (build _ b) as [[[c' m]|e]| |]; [|silent|by intros R q..].
    apply does_none_then; [|intros m'; silent]. apply copy_silent; [by apply each_lt|]. intros. by apply wp_ret.
Qed.
End Own.

(** ** A built store *)
Section Built.
Context {K V W : Type} `{!KeyEq K, !KeyLaws K} (available_parallelism : option Z).
Implicit Types (b : ShardedUnboundCacheBuilder K V W) (c : ShardedUnboundCache K V W).

Definition builder_ok b : Prop :=
  match b_shards b with Some n => 0 <= n | None => True end /\ exists h, b_hasher b = Some h /\ hash_ok h.

Lemma built_follows b c m : builder_ok b -> build available_parallelism b = Done (Ok (c, m)) ->
  exists Hd : proper (inner c), follows_map (unbound_layout c Hd) m (fun _ => None).
Proof.
  intros [Hn (h & Eh & Hh)]. unfold build. destruct (checked_shard_count _ _) as [n|] eqn:En; [|done].
  rewrite Eh. intros [= <- <-]. destruct (checked_shard_count_spec _ _ _ En Hn) as [Hp Hr].
  exists (built_proper n h (b_on_evict b) Hp (proj1 Hr) Hh). split_and!; simpl; [by rewrite length_replicate| |done].
  intros i s [-> _]%lookup_replicate. split_and!; [done|by intros e He%elem_of_nil|]. intros k _. by left.
Qed.

(** *** Copying *)

Lemma set_exec c k v m w s : Shards.shards m !! shard_of c k = Some s ->
  exec (cache_set c k v) (m, w) =
    (Done (hm_insert k v (content s)).1, (set_shard (shard_of c k) (mkShard (hm_insert k v (content s)).2 (counters s)) m, w)).
Proof.
  intros Hs. pose proof (lookup_lt_Some _ _ _ Hs) as Hl. unfold cache_set, with_write, plock, write_store, punlock. simpl.
  apply Nat.ltb_lt in Hl as ->. unfold bind at 1, do_write. rewrite Hs. unfold hm_set, bind, gets, modify, ret. simpl.
  by destruct (hm_insert k v (content s)).
Qed.

Definition put_all (es : list (K * V)) (x : Map K V) : Map K V := foldl (fun x e => put e.1 (Some e.2) x) x es.

Lemma put_all_find es x k : distinct es ->
  put_all es x k = match find_key k es with Some e => Some e.2 | None => x k end.
Proof.
  revert x. induction es as [|e es IH]; intros x; [done|]. intros [F D]. simpl. rewrite IH by done.
  rewrite find_key_cons. unfold put at 1. rewrite (keq_comm k e.1). destruct (keq e.1 k) eqn:E.
  - replace (find_key k es) with (None : option (K * V)); [done|]. symmetry. apply find_key_None.
    by eapply fresh_cong.
  - done.
Qed.

Context (existing : ShardedUnboundCache K V W) (He : proper (inner existing)).
Context (c : ShardedUnboundCache K V W) (Hc : proper (inner c)).

Lemma set_follows k v m x w : follows_map (unbound_layout c Hc) m x ->
  exists m', exec (cache_set c k v) (m, w) = (Done (x k), (m', w)) /\ follows_map (unbound_layout c Hc) m' (put k (Some v) x).
Proof.
  intros Hm. pose proof Hm as (Hl & HI & HJ). destruct (lookup_lt_is_Some_2 (Shards.shards m) (shard_of c k)) as [s Hs].
  { rewrite Hl. by apply index_bound. }
  destruct (map_inv_insert (index_of (inner c)) (fun k k' => index_cong (inner c) k k' Hc) false id _ _ _ k v (HI _ _ Hs) eq_refl) as [HI' [HA _]].
  rewrite (set_exec _ _ v m w s Hs). eexists. split.
  - f_equal. f_equal. destruct HA as [HA|[HA _]]; [|done]. rewrite <- HA. by destruct (hm_insert k v (content s)).1.
  - exact (memory_ok_set _ _ _ m x _ _ s (mkShard (hm_insert k v (content s)).2 (counters s)) Hm Hs (stable_put (unbound_layout c Hc) _ k _ x eq_refl) HI').
Qed.

Lemma copy_entries_run es m0 m x w : follows_map (unbound_layout c Hc) m x ->
  wp (exec (S := list (K * V)) (G := unit) (copy_entries (fun m e => set_alone m (cache_set c e.1 e.2)) es m))
    (fun m' s => s = (m0, w) /\ follows_map (unbound_layout c Hc) m' (put_all es x)) (fun _ => False) (m0, w).
Proof.
  revert m x. induction es as [|e es IH]; intros m x Hm; simpl; [by apply wp_ret|].
  apply wp_bind. destruct (set_follows e.1 e.2 m x w Hm) as (m' & E1 & Hm').
  unfold wp at 1, user, set_alone, alone. cbn [snd]. rewrite E1. cbn. by apply IH.
Qed.

Lemma copy_shards_run l m0 x0 m x w : follows_map (unbound_layout existing He) m0 x0 ->
  NoDup l -> (forall i, i ∈ l -> (i < shard_len (inner existing))%nat) ->
  follows_map (unbound_layout c Hc) m x -> (forall k, index_of (inner existing) k ∈ l -> x k = None) ->
  wp (exec (copy_shards (fun s => ret s) (fun m e => set_alone m (cache_set c e.1 e.2)) l m))
    (fun m' s => s = (m0, w) /\ exists y, follows_map (unbound_layout c Hc) m' y /\
       forall k, y k = if bool_decide (index_of (inner existing) k ∈ l) then x0 k else x k) (fun _ => False) (m0, w).
Proof.
  intros Hm0. revert m x. induction l as [|i l IH]; intros m x ND Hl Hm Hx; cbn [copy_shards].
  { apply wp_ret. split; [done|]. exists x. by split. }
  apply NoDup_cons in ND as [Hi ND].
  destruct (lookup_lt_is_Some_2 (Shards.shards m0) i) as [s Hs].
  { rewrite (proj1 Hm0). apply Hl. by left. }
  pose proof (lookup_lt_Some _ _ _ Hs) as Hlt. pose proof Hm0 as (_ & HI0 & _). destruct (HI0 i s Hs) as (D & P & T).
  eapply wp_exec_read; [exact Hs|]. apply wp_ret.
  apply wp_exec_bind.
  eapply wp_mono; [by apply copy_entries_run| |done]. intros m1 s1 [-> Hm1].
  eapply wp_mono; [apply IH; [done|intros j Hj; apply Hl; by right|exact Hm1|]| |done].
  - intros k Hk. rewrite put_all_find by done. rewrite Hx by (by right).
    destruct (find_key k (content s)) as [e|] eqn:F; [|done]. destruct Hi. apply find_key_Some in F as [F1 F2].
    by rewrite <- (P e F1), <- (index_cong _ _ _ He F2).
  - intros m2 s2 [-> (y & Hy & Ey)]. split; [done|]. exists y. split; [done|]. intros k. rewrite Ey.
    rewrite put_all_find by done. destruct (decide (index_of (inner existing) k ∈ l)) as [H|H].
    { rewrite !bool_decide_true; [done|by right|done]. }
    rewrite (bool_decide_false (_ ∈ l)) by done. destruct (decide (index_of (inner existing) k = i)) as [Hk|Hk].
    + rewrite bool_decide_true by (rewrite Hk; by left). destruct (T k Hk) as [ET|[ET _]]; [|done]. rewrite <- ET.
      unfold lookup_val. destruct (find_key k (content s)) as [e|] eqn:F; [done|]. simpl. apply Hx. rewrite Hk. by left.
    + rewrite bool_decide_false by (by intros [?|?]%elem_of_cons).
      destruct (find_key k (content s)) as [e|] eqn:F; [|done]. destruct Hk. apply find_key_Some in F as [F1 F2].
      by rewrite (index_cong _ _ _ He F2), (P e F1).
Qed.
End Built.

(** C11: [ShardedUnboundCache] is linearizable.  A freshly built store is the empty map; and from any
    memory that follows a map, whatever calls threads make - the trait's, [retain],
    [cache_clear_with_on_evict], [metrics], [deep_clone], [copy_from] - and however they interleave,
    each keyed call takes effect atomically on one map and answers what that map holds at that moment
    (a get-or-set is a get, then, on a miss, a set of a value its factory may return); the calls
    that walk the shards are one atomic operation per shard.  No call runs for ever, none deadlocks,
    and when all are over every shard's lock is free - panics of user code included. *)
Theorem sharded_unbound_serves {K V W E : Type} `{!KeyEq K, !KeyLaws K} (p : option Z)
    (b : ShardedUnboundCacheBuilder K V W) c m : builder_ok b -> build p b = Done (Ok (c, m)) ->
  exists Hd : proper (inner c),
    follows_map (unbound_layout c Hd) m (fun _ => None) /\
    forall m' x, follows_map (unbound_layout c Hd) m' x ->
      serves (E := E) (own p c) c (unbound_layout c Hd) (own_spec c Hd) m' x.
Proof.
  intros Hb HB. destruct (built_follows p b c m Hb HB) as [Hd Hm]. exists Hd. split; [done|].
  intros m' x Hm'. apply lawful_serves; [apply unbound_concurrent_laws|apply unbound_own_safe|done].
Qed.

(** [copy_from] reshards.  While nothing else runs, a store built with another number of
    shards, another shard hasher or another callback holds after the copy exactly what the existing store
    holds, the existing one is as it was, and no callback ran; a builder that is rejected is
    rejected here too. *)
Theorem sharded_unbound_copy {K V W : Type} `{!KeyEq K, !KeyLaws K} (p : option Z)
    (existing : ShardedUnboundCache K V W) (He : proper (inner existing)) b m x w :
  builder_ok b -> follows_map (unbound_layout existing He) m x ->
  wp (exec (copy_from p b existing))
    (fun r s => s = (m, w) /\
       match r with
       | Ok (c, m') => exists Hc : proper (inner c), follows_map (unbound_layout c Hc) m' x /\
           checked_shard_count p (b_shards b) = Ok (Z.of_nat (shard_len (inner c))) /\ on_evict (inner c) = b_on_evict b
       | Err e => checked_shard_count p (b_shards b) = Err e
       end) (fun _ => False) (m, w).
Proof.
  intros Hb Hm. unfold copy_from. pose proof Hb as [Hn (h & Eh & Hh)]. pose proof (built_follows p b) as HB.
  unfold build in *. destruct (checked_shard_count p (b_shards b)) as [n|e] eqn:En; [|by apply wp_ret].
  rewrite Eh in *. cbn [expect obind] in *. destruct (HB _ _ Hb eq_refl) as [Hc Hm']. apply wp_exec_bind.
  eapply wp_mono; [eapply (copy_shards_run existing He _ Hc _ m x _ _ w Hm)| |done].
  - apply NoDup_seq.
  - intros i Hi%elem_of_seq. lia.
  - exact Hm'.
  - done.
  - intros m2 s [-> (y & Hy & Ey)]. apply wp_ret. split; [done|]. exists Hc. split; [|split; [|done]].
    + destruct Hy as (Hl & HI & HJ). split_and!; [done| |done]. intros i s Hs. eapply inv_local; [|by apply HI].
      intros k _. rewrite Ey, bool_decide_true; [done|]. apply elem_of_seq. split; [lia|]. simpl. by apply index_bound.
    + simpl. destruct (checked_shard_count_spec _ _ _ En Hn) as [_ Hr]. by rewrite Z2Nat.id by lia.
Qed.

(** *** Witnesses *)

Definition demo : ShardedUnboundCacheBuilder TaggedKey.t Z Tick.t :=
  builder_on_evict Tick.log (builder_shards 3 (builder spread)).

Lemma demo_ok : builder_ok demo.
Proof. split; [done|]. exists spread. split; [done|]. apply spread_ok. Qed.

Lemma sharded_unbound_serves_witness : exists c m (Hd : proper (inner c)),
  build (Some 8) demo = Done (Ok (c, m)) /\ shard_len (inner c) = 4%nat /\
  serves (E := unit) (own (Some 8) c) c (unbound_layout c Hd) (own_spec c Hd) m (fun _ => None).
Proof.
  destruct (build (Some 8) demo) as [[[c m]|e]| |] eqn:EB; try discriminate EB.
  destruct (sharded_unbound_serves (E := unit) (Some 8) demo c m demo_ok EB) as (Hd & Hm & H).
  exists c, m, Hd. split; [done|]. split; [by injection EB as <- _|]. by apply H.
Defined.

Definition four : ShardedUnboundCache TaggedKey.t Z Tick.t := mkSharded (mkInner 4 3 spread (Some Tick.log)).

Lemma four_proper : proper (inner four).
Proof. apply (built_proper 4); [by exists 2|done|apply spread_ok]. Qed.

Definition two_entries : Memory (list (TaggedKey.t * Z)) unit :=
  mkMemory [new_shard []; new_shard [(Tick.k1, 10)]; new_shard [(Tick.k2, 20)]; new_shard []] tt.

Definition two_map : Map TaggedKey.t Z := put Tick.k2 (Some 20) (put Tick.k1 (Some 10) (fun _ => None)).

Lemma two_entries_follow : follows_map (unbound_layout four four_proper) two_entries two_map.
Proof.
  set (L := unbound_layout four four_proper).
  assert (follows_map L (mkMemory (replicate 4 (new_shard [])) tt) (fun _ => None)) as H0.
  { split_and!; [done| |done]. intros i s [-> _]%lookup_replicate.
    split_and!; [done|by intros e He%elem_of_nil|]. intros k _. by left. }
  destruct (set_follows four four_proper Tick.k1 10 _ _ (Tick.mk 0 []) H0) as (m1 & E1 & H1).
  destruct (set_follows four four_proper Tick.k2 20 _ _ (Tick.mk 0 []) H1) as (m2 & E2 & H2).
  replace two_entries with m2; [exact H2|]. vm_compute in E1. injection E1 as <-. vm_compute in E2. by injection E2 as <-.
Qed.

Lemma sharded_unbound_copy_witness :
  wp (exec (copy_from None (builder_shards 1 (builder spread)) four))
    (fun r s => s = (two_entries, Tick.mk 0 []) /\ match r with Ok (c, _) => shard_len (inner c) = 1%nat | Err _ => False end)
    (fun _ => False) (two_entries, Tick.mk 0 []).
Proof.
  eapply wp_mono; [apply (sharded_unbound_copy None four four_proper (builder_shards 1 (builder spread)) two_entries two_map (Tick.mk 0 []))|..].
  - split; [done|]. exists spread. split; [done|apply spread_ok].
  - apply two_entries_follow.
  - intros [[c m]|e] s [Hs Hr]; (split; [exact Hs|]); [|discriminate Hr].
    destruct Hr as (Hc & _ & E & _). apply (f_equal (fun r => match r with Ok n => n | Err _ => 0 end)) in E.
    change (1 = Z.of_nat (shard_len (inner c))) in E. lia.
  - intros s H. exact H.
Defined.
