(* ===== verification/ShardedTtl.v ===== *)
(** * The sharded expiring store ([src/stores/sharded/ttl.rs])

    Shards of [HashMap]s of entries with deadlines.  With refresh-on-hit a read takes the write
    lock; without it, a read takes the read lock, and only when it finds the entry expired does it
    come back with the write lock, check again, and remove it.  The callback runs after the
    shard's lock has been released. *)
From Stdlib Require Import String.
From S2P Require Import Prelude Keys Stores Sharded Shards Concurrent ShardOps ShardTtl.
#[local] Close Scope string_scope.

Section ShardedTtl.
Context {K V W : Type} `{!KeyEq K, !Clock W}.
Notation Store := (list (K * TimedEntry V)).
Notation Entry := (K * TimedEntry V)%type.
Notation P := (Prog Store (TtlAtomics * unit) W).
Notation Mem := (Memory Store (TtlAtomics * unit)).

(** The handle behind the [Arc]. *)
Record ShardedTtlCache : Type := mkSharded { inner : Inner K V W }.

Definition shard_of (c : ShardedTtlCache) (k : K) : nat := index_of (inner c) k.

(** *** The store under its lock *)

Definition hm_remove_entry (k : K) : ST (Store * W) (option Entry) :=
  let! s := gets fst in
  match take_key k s with
  | Some (e, s) => modify (fun p => (s, p.2)) ;; ret (Some e)
  | None => ret None
  end.

(** What a lookup that may expire the entry finds. *)
Inductive Found : Type := Absent | Expired (v : V) | Live (v : V) (now : Z).

(** [guard.get(k)], and the clock if the key is there. *)
Definition look_up (k : K) (s : Store) : ST W Found :=
  match find_key k s with
  | None => ret Absent
  | Some e =>
      let! now := read_clock in
      ret (if expired_at e.2 now then Expired (tvalue e.2) else Live (tvalue e.2) now)
  end.

(** [entry.expires_at = deadline.or(entry.expires_at)] *)
Definition hm_refresh (k : K) (deadline : option Z) : ST (Store * W) unit :=
  modify (fun p =>
    (match find_key k p.1 with
     | Some e => hm_update k (mkTimed (or_else_some deadline (expires_at e.2)) (tvalue e.2)) p.1
     | None => p.1
     end, p.2)).

(** [get_mut] and [replace], or [insert]; what was displaced, and whether it had expired. *)
Definition hm_replace (k : K) (new_entry : TimedEntry V) (now : Z) : ST (Store * W) (option (Entry * bool)) :=
  let! s := gets fst in
  match find_key k s with
  | Some e => modify (fun p => (hm_update k new_entry s, p.2)) ;; ret (Some ((k, e.2), expired_at e.2 now))
  | None => modify (fun p => (s ++ [(k, new_entry)], p.2)) ;; ret None
  end.

(** [retain], for its count, and [extract_if]. *)
Definition hm_retain (keep : Entry -> bool) : ST (Store * W) Z :=
  let! s := gets fst in
  modify (fun p => (List.filter keep s, p.2)) ;;
  ret (Z.of_nat (length s) - Z.of_nat (length (List.filter keep s))).
Definition hm_extract_if (gone : Entry -> bool) : ST (Store * W) (list Entry) :=
  let! s := gets fst in
  modify (fun p => (List.filter (fun e => negb (gone e)) s, p.2)) ;;
  ret (List.filter gone s).

Definition hm_clear : ST (Store * W) Z :=
  let! s := gets fst in modify (fun p => ([], p.2)) ;; ret (Z.of_nat (length s)).
Definition hm_drain : ST (Store * W) Store :=
  let! s := gets fst in modify (fun p => ([], p.2)) ;; ret s.

(** *** [ConcurrentCached] *)

(** The removed entry is counted and told, then the miss is counted. *)
Definition expire (c : ShardedTtlCache) (shard : nat) (removed : option Entry) : P (option V) :=
  match removed with
  | Some e => add_evictions shard 1 ;;; notify (inner c) (bare e)
  | None => Ret tt
  end ;;;
  add_misses shard 1 ;;;
  Ret None.

Definition get_refresh (c : ShardedTtlCache) (k : K) : P (option V) :=
  let shard := shard_of c k in
  plock shard Exclusive ;;;
  let* found := read_store shard (look_up k) in
  match found with
  | Live v now =>
      let* deadline := deadline_from now in
      write_store shard (hm_refresh k deadline) ;;;
      punlock shard ;;;
      add_hits shard 1 ;;;
      Ret (Some v)
  | Expired _ =>
      let* removed := write_store shard (hm_remove_entry k) in
      punlock shard ;;;
      expire c shard removed
  | Absent =>
      punlock shard ;;;
      add_misses shard 1 ;;;
      Ret None
  end.

(** Back with the write lock: the entry may have been replaced meanwhile; the clock is not read again. *)
Definition get_expired (c : ShardedTtlCache) (k : K) (now : Z) : P (option V) :=
  let shard := shard_of c k in
  plock shard Exclusive ;;;
  let* fresh := peek_store shard (fun s =>
    match find_key k s with
    | Some e => if expired_at e.2 now then None else Some (tvalue e.2)
    | None => None
    end) in
  match fresh with
  | Some v =>
      punlock shard ;;;
      add_hits shard 1 ;;;
      Ret (Some v)
  | None =>
      let* removed := write_store shard (hm_remove_entry k) in
      punlock shard ;;;
      expire c shard removed
  end.

(** The expired entry with the instant it was found so. *)
Definition look_up_at (k : K) (s : Store) : ST W (option (bool * V * Z)) :=
  match find_key k s with
  | None => ret None
  | Some e => let! now := read_clock in ret (Some (expired_at e.2 now, tvalue e.2, now))
  end.

Definition get_plain (c : ShardedTtlCache) (k : K) : P (option V) :=
  let shard := shard_of c k in
  let* found := with_read shard (look_up_at k) in
  match found with
  | None => add_misses shard 1 ;;; Ret None
  | Some (true, _, now) => get_expired c k now
  | Some (false, v, _) => add_hits shard 1 ;;; Ret (Some v)
  end.

Definition cache_get (c : ShardedTtlCache) (k : K) : P (option V) :=
  let* r := load_refresh in
  if r then get_refresh c k else get_plain c k.

Definition cache_set (c : ShardedTtlCache) (k : K) (v : V) : P (option V) :=
  let shard := shard_of c k in
  let* now := outside clock_reading in
  let* deadline := deadline_from now in
  let* old := with_write shard (hm_replace k (mkTimed deadline v) now) in
  match old with
  | Some (e, true) =>
      add_evictions shard 1 ;;;
      notify (inner c) (bare e) ;;;
      Ret None
  | Some (e, false) => Ret (Some (tvalue e.2))
  | None => Ret None
  end.

Definition cache_remove (c : ShardedTtlCache) (k : K) : P (option V) :=
  let shard := shard_of c k in
  let* removed := with_write shard (hm_remove_entry k) in
  match removed with
  | Some e =>
      add_evictions shard 1 ;;;
      notify (inner c) (bare e) ;;;
      let* expired := outside (past_deadline_now e.2) in
      if (expired : bool) then Ret None else Ret (Some (tvalue e.2))
  | None => Ret None
  end.

Definition cache_remove_entry (c : ShardedTtlCache) (k : K) : P (option (K * V)) :=
  let shard := shard_of c k in
  let* removed := with_write shard (hm_remove_entry k) in
  match removed with
  | Some e =>
      add_evictions shard 1 ;;;
      notify (inner c) (bare e) ;;;
      Ret (Some (bare e))
  | None => Ret None
  end.

Definition clear (c : ShardedTtlCache) : P unit := piter (each (inner c)) (fun i => with_write i hm_clear ;;; Ret tt).
Definition cache_clear : ShardedTtlCache -> P unit := clear.

Definition cache_reset_metrics (c : ShardedTtlCache) : P unit :=
  piter (each (inner c)) (fun i => reset_hits i ;;; reset_misses i ;;; reset_evictions i).

Definition cache_reset (c : ShardedTtlCache) : P unit := clear c ;;; cache_reset_metrics c.

Definition cache_contains (c : ShardedTtlCache) (k : K) : P bool :=
  with_read (shard_of c k) (fun s =>
    match find_key k s with
    | Some e => let! now := read_clock in ret (negb (expired_at e.2 now))
    | None => ret false
    end).

Definition peek (c : ShardedTtlCache) (k : K) : P (option V) :=
  with_read (shard_of c k) (fun s =>
    match find_key k s with
    | Some e => let! now := read_clock in ret (if expired_at e.2 now then None else Some (tvalue e.2))
    | None => ret None
    end).

#[global] Instance ttl_concurrent : ConcurrentCached ShardedTtlCache Store (TtlAtomics * unit) K V W := {|
  Concurrent.cache_get := cache_get;
  Concurrent.cache_set := cache_set;
  Concurrent.cache_remove := cache_remove;
  Concurrent.cache_remove_entry := cache_remove_entry;
  Concurrent.cache_contains := cache_contains;
  Concurrent.cache_clear := cache_clear;
  Concurrent.cache_reset := cache_reset;
  Concurrent.cache_reset_metrics := cache_reset_metrics |}.
#[global] Instance ttl_concurrent_peek : ConcurrentCachePeek ShardedTtlCache Store (TtlAtomics * unit) K V W := {|
  Concurrent.cache_peek := peek |}.

(** *** [ConcurrentCloneCached]: an expired value is served, marked, and stays *)

Definition cache_get_with_expiry_status (c : ShardedTtlCache) (k : K) : P (option V * bool) :=
  let shard := shard_of c k in
  let* r := load_refresh in
  if (r : bool) then
    plock shard Exclusive ;;;
    let* found := read_store shard (look_up k) in
    match found with
    | Absent => punlock shard ;;; add_misses shard 1 ;;; Ret (None, false)
    | Expired v => punlock shard ;;; add_misses shard 1 ;;; Ret (Some v, true)
    | Live v now =>
        let* deadline := deadline_from now in
        write_store shard (hm_refresh k deadline) ;;;
        punlock shard ;;;
        add_hits shard 1 ;;;
        Ret (Some v, false)
    end
  else
    let* found := with_read shard (look_up k) in
    match found with
    | Absent => add_misses shard 1 ;;; Ret (None, false)
    | Expired v => add_misses shard 1 ;;; Ret (Some v, true)
    | Live v _ => add_hits shard 1 ;;; Ret (Some v, false)
    end.

Definition cache_peek_with_expiry_status (c : ShardedTtlCache) (k : K) : P (option V * bool) :=
  with_read (shard_of c k) (fun s =>
    match find_key k s with
    | None => ret (None, false)
    | Some e => let! now := read_clock in ret (Some (tvalue e.2), expired_at e.2 now)
    end).

#[global] Instance ttl_clone_cached : ConcurrentCloneCached ShardedTtlCache Store (TtlAtomics * unit) K V W := {|
  Concurrent.cache_get_with_expiry_status := cache_get_with_expiry_status;
  Concurrent.cache_peek_with_expiry_status := cache_peek_with_expiry_status |}.

(** *** The ttl, and sweeps *)

#[global] Instance ttl_concurrent_ttl : ConcurrentCacheTtl ShardedTtlCache Store (TtlAtomics * unit) W := {|
  Concurrent.ttl := fun _ => ttl_duration;
  Concurrent.set_ttl := fun _ t => swap_ttl (encode_ttl t);
  Concurrent.unset_ttl := fun _ => swap_ttl 0 |}.
#[global] Instance ttl_concurrent_refresh : ConcurrentCacheRefreshOnHit ShardedTtlCache Store (TtlAtomics * unit) W := {|
  Concurrent.refresh_on_hit := fun _ => load_refresh;
  Concurrent.set_refresh_on_hit := fun _ b => swap_refresh b |}.

Definition evict (c : ShardedTtlCache) : P Z :=
  let* now := outside clock_reading in
  match on_evict (inner c) with
  | None =>
      sum_of (inner c) (fun i =>
        let* removed := with_write i (hm_retain (fun e => negb (expired_at e.2 now))) in
        count_evicted i removed ;;;
        Ret removed)
  | Some _ =>
      sweep_shards (inner c) (fun i =>
        let* removed := with_write i (hm_extract_if (fun e => expired_at e.2 now)) in
        count_evicted i (Z.of_nat (length removed)) ;;;
        Ret (bare <$> removed))
  end.
#[global] Instance ttl_concurrent_evict : ConcurrentCacheEvict ShardedTtlCache Store (TtlAtomics * unit) W := {| Concurrent.evict := evict |}.

Definition retain (c : ShardedTtlCache) (keep : K -> V -> User W bool) : P Z :=
  let* now := outside clock_reading in
  sweep_shards (inner c) (fun i =>
    let* removed := with_write i (take_doomed (stale_or_rejected keep now)) in
    count_evicted i (Z.of_nat (length removed)) ;;;
    Ret (bare <$> removed)).

Definition cache_clear_with_on_evict (c : ShardedTtlCache) : P unit :=
  match on_evict (inner c) with
  | None => piter (each (inner c)) (fun i => let* removed := with_write i hm_clear in count_evicted i removed)
  | Some _ =>
      piter (each (inner c)) (fun i =>
        let* removed := with_write i hm_drain in
        count_evicted i (Z.of_nat (length removed)) ;;;
        notify_all (inner c) (bare <$> removed))
  end.

(** *** Inherent methods *)

Definition size_of (s : Store) : Z := Z.of_nat (length s).
Definition shard_sizes (c : ShardedTtlCache) : P (list Z) := sizes (inner c) size_of.
Definition len (c : ShardedTtlCache) : P Z := let* l := shard_sizes c in Ret (wrapping_sum l).
Definition is_empty (c : ShardedTtlCache) : P bool := all_empty size_of (each (inner c)).
Definition shards (c : ShardedTtlCache) : nat := shard_len (inner c).
Definition cache_size (c : ShardedTtlCache) : P (option Z) := let* n := len c in Ret (Some n).
Definition cache_hits (c : ShardedTtlCache) : P (option Z) := let* n := sum_of (inner c) load_hits in Ret (Some n).
Definition cache_misses (c : ShardedTtlCache) : P (option Z) := let* n := sum_of (inner c) load_misses in Ret (Some n).
Definition cache_evictions (c : ShardedTtlCache) : P (option Z) := let* n := sum_of (inner c) load_evictions in Ret (Some n).

Definition metrics (c : ShardedTtlCache) : P CacheMetrics :=
  let* l := pmap (each (inner c)) (fun i =>
    let* h := load_hits i in
    let* m := load_misses i in
    let* e := load_evictions i in
    let* n := with_read i (fun s : Store => ret (size_of s)) in
    Ret (h, m, (e, n))) in
  Ret (mkMetrics (Some (wrapping_sum (l.*1.*1))) (Some (wrapping_sum (l.*1.*2)))
         (Some (wrapping_sum (l.*2.*1))) (Some (wrapping_sum (l.*2.*2))) None).

(** Here the evictions are copied too. *)
Definition deep_clone (c : ShardedTtlCache) : P (ShardedTtlCache * Mem) :=
  let* l := pmap (each (inner c)) clone_shard_all in
  let* nanos := global (fun g => (ttl_nanos g.1, g)) in
  let* r := load_refresh in
  Ret (c, mkMemory l (mkTtl nanos r, tt)).

(** *** The builder *)

Record ShardedTtlCacheBuilder : Type := mkBuilder {
  b_shards : option Z; b_capacity : option Z; b_ttl : option Z; b_refresh : bool;
  b_hasher : option (K -> Z); b_on_evict : OnEvict K V W }.

(** [Default]: the default hasher. *)
Definition builder (default_hasher : K -> Z) : ShardedTtlCacheBuilder :=
  mkBuilder None None None false (Some default_hasher) None.
Definition builder_ttl (t : Z) (b : ShardedTtlCacheBuilder) :=
  mkBuilder (b_shards b) (b_capacity b) (Some t) (b_refresh b) (b_hasher b) (b_on_evict b).
Definition builder_ttl_secs (secs : Z) (b : ShardedTtlCacheBuilder) := builder_ttl (from_secs secs) b.
Definition builder_ttl_millis (millis : Z) (b : ShardedTtlCacheBuilder) := builder_ttl (from_millis millis) b.
Definition builder_shards (n : Z) (b : ShardedTtlCacheBuilder) :=
  mkBuilder (Some n) (b_capacity b) (b_ttl b) (b_refresh b) (b_hasher b) (b_on_evict b).
Definition builder_per_shard_initial_capacity (n : Z) (b : ShardedTtlCacheBuilder) :=
  mkBuilder (b_shards b) (Some n) (b_ttl b) (b_refresh b) (b_hasher b) (b_on_evict b).
Definition builder_refresh_on_hit (r : bool) (b : ShardedTtlCacheBuilder) :=
  mkBuilder (b_shards b) (b_capacity b) (b_ttl b) r (b_hasher b) (b_on_evict b).
Definition builder_hasher (h : K -> Z) (b : ShardedTtlCacheBuilder) :=
  mkBuilder (b_shards b) (b_capacity b) (b_ttl b) (b_refresh b) (Some h) (b_on_evict b).
Definition builder_on_evict (f : K -> V -> User W unit) (b : ShardedTtlCacheBuilder) :=
  mkBuilder (b_shards b) (b_capacity b) (b_ttl b) (b_refresh b) (b_hasher b) (Some f).

Context (available_parallelism : option Z).

Definition build (b : ShardedTtlCacheBuilder) : outcome (result BuildError (ShardedTtlCache * Mem)) :=
  match b_ttl b with
  | None => Done (Err (MissingRequired "ttl"))
  | Some t =>
      match validate_ttl t with
      | Err e => Done (Err e)
      | Ok _ =>
          match checked_shard_count available_parallelism (b_shards b) with
          | Err e => Done (Err e)
          | Ok n =>
              let? h := expect (b_hasher b) in
              Done (Ok (mkSharded (mkInner (Z.to_nat n) (n - 1) h (b_on_evict b)),
                        mkMemory (replicate (Z.to_nat n) (new_shard [])) (mkTtl (encode_ttl t) (b_refresh b), tt)))
          end
      end
  end.

Definition new (default_hasher : K -> Z) (t : Z) : outcome (ShardedTtlCache * Mem) :=
  let? r := build (builder_ttl t (builder default_hasher)) in match r with Ok c => Done c | Err _ => Unwind end.

(** The live entries of a shard, by one reading of the clock under its lock. *)
Definition live_entries (s : Store) : ST W Store :=
  let! now := read_clock in
  ret (List.filter (fun e => entry_live_at (expires_at e.2) now) s).

(** Entries keep their deadlines. *)
Definition copy_from (b : ShardedTtlCacheBuilder) (existing : ShardedTtlCache) :
    P (result BuildError (ShardedTtlCache * Mem)) :=
  match build b with
  | Done (Ok (c, m)) =>
      let* m := copy_shards live_entries
        (fun m e => set_alone m (with_write (shard_of c e.1)
           (let! s := gets fst in let '(old, s) := hm_insert e.1 e.2 s in modify (fun p => (s, p.2)) ;; ret old) : P _))
        (each (inner existing)) m in
      Ret (Ok (c, m))
  | Done (Err e) => Ret (Err e)
  | _ => Panic
  end.
End ShardedTtl.
Arguments ShardedTtlCache : clear implicits.
Arguments ShardedTtlCacheBuilder : clear implicits.
