(* ===== verification/ShardedTtlProps.v ===== *)
(** * The sharded expiring store is one lossy atomic map, and expiry is exact *)
From S2P Require Import Prelude Keys Stores Sharded Shards Concurrent ShardOps ShardTtl MapShards ShardAlone ShardedTtl.

Section Laws.
Context {K V W : Type} `{!KeyEq K, !KeyLaws K, !Clock W}.
Context (c : ShardedTtlCache K V W) (Hd : proper (inner c)).
Notation Store := (list (K * TimedEntry V)).

Definition ttl_layout : Layout Store (TtlAtomics * unit) K V := map_layout true tvalue (fun _ => True) (inner c) Hd.
Notation L := ttl_layout.
Notation inv0 := (map_inv (E := TimedEntry V) (V := V) (index_of (inner c)) true tvalue).
Implicit Types (m : Map K V).

Lemma ttl_shard_lt k : (shard_of c k < shard_count L)%nat.
Proof. by apply index_bound. Qed.

Lemma ttl_cong k k' : keq k k' = true -> index_of (inner c) k = index_of (inner c) k'.
Proof. by apply index_cong. Qed.

(** *** The accesses *)

Lemma find_answers i s m k : inv0 i s m -> index_of (inner c) k = i ->
  match find_key k s with
  | Some e => answers (V := V) true (Read k) m (Some (tvalue e.2)) m
  | None => True
  end /\ answers (V := V) true (Read k) m None m.
Proof.
  intros HI Hk. pose proof (answers_read (index_of (inner c)) true tvalue i s m k HI Hk) as HA.
  unfold lookup_val in HA. split; [by destruct (find_key k s)|]. by eapply answers_read_none.
Qed.

Lemma ttl_remove_wp i s m k w (Q : option (K * TimedEntry V) -> Store * W -> Prop) U : inv0 i s m -> index_of (inner c) k = i ->
  (forall r s', inv0 i s' (put k None m) -> inv0 i s' m -> answers true (Erase k) m (tvalue <$> (snd <$> r)) (put k None m) ->
     (forall e, r = Some e -> keq k e.1 = true) -> Q r (s', w)) -> wp (hm_remove_entry k) Q U (s, w).
Proof.
  intros HI Hk HQ. unfold hm_remove_entry. apply wp_bind, wp_gets. simpl.
  pose proof (map_inv_erase (index_of (inner c)) true tvalue _ s m k HI Hk) as HE.
  pose proof (answers_erase (index_of (inner c)) true tvalue _ s m k HI Hk) as HA.
  unfold drop_key, lookup_val, find_key in *. destruct (take_key k s) as [[e r]|] eqn:Et.
  - apply wp_bind, wp_modify, wp_ret. destruct (take_key_Some _ _ _ _ Et) as (xs & ys & Es & Er & He & _).
    apply HQ; [done| |done|by intros e' [= <-]].
    eapply (map_inv_sublist _ _ _ _ s r [e]); [done|done|]. rewrite Es, Er. simpl. by rewrite Permutation_middle.
  - apply wp_ret. by apply HQ.
Qed.

Lemma refresh_wp i s m k deadline w : inv0 i s m -> index_of (inner c) k = i ->
  wp (hm_refresh (V := V) (W := W) k deadline) (fun _ s' => inv0 i s'.1 m) (fun _ => False) (s, w).
Proof.
  intros HI Hk. apply wp_modify. simpl. destruct (find_key k s) as [e|] eqn:F; [|done].
  by eapply map_inv_refresh.
Qed.

Lemma replace_wp i s m k x now w (Q : option (K * TimedEntry V * bool) -> Store * W -> Prop) U : inv0 i s m -> index_of (inner c) k = i ->
  (forall r s', inv0 i s' (put k (Some (tvalue x)) m) ->
     answers true (Write k (tvalue x)) m (r ≫= fun o : K * TimedEntry V * bool => if o.2 then None else Some (tvalue o.1.2)) (put k (Some (tvalue x)) m) -> Q r (s', w)) ->
  wp (hm_replace k x now) Q U (s, w).
Proof.
  intros HI Hk HQ. unfold hm_replace. apply wp_bind, wp_gets. simpl.
  destruct (find_answers i s m k HI Hk) as [H1 H2].
  destruct (find_key k s) as [e|] eqn:F; apply wp_bind, wp_modify, wp_ret; apply HQ.
  - eapply map_inv_update; [apply ttl_cong|done..].
  - simpl. split; [|done]. destruct (expired_at e.2 now); [apply H2|apply H1].
  - by apply map_inv_snoc.
  - split; [apply H2|done].
Qed.

(** A part of the entries goes. *)
Lemma filter_part i s m (p : K * TimedEntry V -> bool) : inv0 i s m -> inv0 i (List.filter p s) m.
Proof.
  intros HI. eapply (map_inv_sublist _ _ _ _ s _ (List.filter (fun e => negb (p e)) s)); [done|done|]. clear.
  induction s as [|e s IH]; [done|]. simpl. destruct (p e); simpl; [by rewrite <- Permutation_middle, IH|by rewrite IH].
Qed.

(** *** Calls *)

Lemma expire_silent k removed : does_all L [] (expire c (shard_of c k) removed).
Proof.
  unfold expire. apply does_none_then; [|intros _; apply does_none_then; [apply does_all_atomic, ttl_shard_lt|intros _; apply does_all_nil]].
  destruct removed as [e|]; [|apply does_all_nil]. apply does_none_then; [apply does_all_atomic, ttl_shard_lt|intros _; silent].
Qed.

Lemma expire_none {R} k removed (q : option V -> Spec K V R) :
  safely L None (q None) (expire c (shard_of c k) removed) (fun h t a => h = None /\ exists r, t = q r /\ a = r).
Proof.
  unfold expire. apply (does_all_bind L []).
  - destruct removed as [e|]; [|apply does_all_nil]. apply does_none_then; [apply does_all_atomic, ttl_shard_lt|intros _; silent].
  - intros _. apply silent_ret; [apply does_all_atomic, ttl_shard_lt|done].
Qed.

(** The removal of an entry found expired: the store forgets it. *)
Lemma forget_then {R} k (q : Spec K V R) Q :
  (forall removed, safely L None q (expire c (shard_of c k) removed) Q) ->
  safely L (Some (shard_of c k, Exclusive)) q
    (let* removed := write_store (shard_of c k) (hm_remove_entry k) in punlock (shard_of c k) ;;; expire c (shard_of c k) removed) Q.
Proof.
  intros H. apply (quiet_write L). intros s m w HI. eapply ttl_remove_wp; [exact HI|done|].
  intros r s' _ HI' _ _. split; [exact HI'|]. split; [by eexists|]. apply H.
Qed.

Lemma refresh_then {R A} k now (q : Spec K V R) (p : Prog Store (TtlAtomics * unit) W A) Q :
  safely L None q p Q ->
  safely L (Some (shard_of c k, Exclusive)) q
    (let* deadline := deadline_from now in write_store (shard_of c k) (hm_refresh k deadline) ;;; punlock (shard_of c k) ;;; p) Q.
Proof.
  intros Hp. skip_global g Hg. cbn [pbind write_store]. apply (quiet_write L). intros s m w HI.
  eapply wp_mono; [eapply (refresh_wp (shard_of c k) s m k); [exact HI|done]| |by intros ? []].
  intros u s' HI'. split; [exact HI'|]. split; [by eexists|]. exact Hp.
Qed.

(** What a lookup tells; with [serve], expired values too. *)
Definition told_of (serve : bool) (found : Found) : option V :=
  match found with Absent => None | Expired v => if serve then Some v else None | Live v _ => Some v end.

Lemma look_up_wp serve i s m k w (Q : Found -> W -> Prop) : inv0 i s m -> index_of (inner c) k = i ->
  (forall found w', answers true (Read k) m (told_of serve found) m -> Q found w') -> wp (look_up k s) Q (fun _ => True) w.
Proof.
  intros HI Hk HQ. destruct (find_answers i s m k HI Hk) as [H1 H2]. unfold look_up.
  destruct (find_key k s) as [e|]; [|by apply wp_ret, HQ]. apply wp_bind, wp_read_clock. intros t w'. apply wp_ret, HQ.
  destruct (expired_at e.2 t); simpl; [destruct serve|]; done.
Qed.

Lemma look_up_then {A R} serve k md (q : option V -> Spec K V R) (p : Found -> Prog Store (TtlAtomics * unit) W A) Q :
  (forall found, safely L (Some (shard_of c k, md)) (q (told_of serve found)) (p found) Q) ->
  safely L (Some (shard_of c k, md)) (Await (Read k) q) (let* found := read_store (shard_of c k) (look_up k) in p found) Q.
Proof.
  intros Hp. apply (read_step L); [done|]. intros s m w HI. apply (look_up_wp serve (shard_of c k) s m k); [exact HI|done|].
  intros found w' HA. eexists. split; [exact HA|]. apply Hp.
Qed.

(** A counter, then the result, with the lock released. *)
Lemma unlock_then {A R} i md (q : Spec K V R) (p : Prog Store (TtlAtomics * unit) W A) Q :
  safely L None q p Q -> safely L (Some (i, md)) q (punlock i ;;; p) Q.
Proof. intros Hp. split; [by eexists|]. exact Hp. Qed.

Lemma counted {A R} k (f : Counters -> unit * Counters) (a : A) r (q : option V -> Spec K V R) (ok : A -> option V -> Prop) : ok a r ->
  safely L None (q r) (atomic (shard_of c k) f ;;; Ret a : Prog Store (TtlAtomics * unit) W A)
    (fun h t b => h = None /\ exists r, t = q r /\ ok b r).
Proof. intros Hok. by apply silent_ret; [apply does_all_atomic, ttl_shard_lt|]. Qed.

Lemma get_refresh_does k : does L (Read k) (get_refresh c k) eq.
Proof.
  intros R q. split; [done|]. split; [apply ttl_shard_lt|]. apply (look_up_then false). intros [|v|v now].
  - apply unlock_then. by apply (counted k).
  - apply forget_then. intros removed. apply expire_none.
  - apply refresh_then. by apply (counted k).
Qed.

Lemma get_expired_does k now : does L (Read k) (get_expired c k now) eq.
Proof.
  intros R q. split; [done|]. split; [apply ttl_shard_lt|]. apply (read_step L); [done|]. intros s m w HI.
  destruct (find_answers _ s m k HI eq_refl) as [H1 H2]. apply wp_ret.
  assert (forall r, answers true (Read k) m r m -> exists r0, answers (lossy L) (Read k) m r0 m /\ r0 = r) as Hr by (intros r Hr; by exists r).
  destruct (find_key k s) as [e|]; [destruct (expired_at e.2 now)|].
  - exists None. split; [done|]. apply forget_then. intros removed. apply expire_none.
  - eexists. split; [exact H1|]. apply unlock_then. by apply (counted k).
  - exists None. split; [done|]. apply forget_then. intros removed. apply expire_none.
Qed.

Lemma get_plain_does k : does L (Read k) (get_plain c k) eq.
Proof.
  intros R q. split; [done|]. split; [apply ttl_shard_lt|]. split; [by eexists|]. intros s m w HI.
  destruct (find_answers _ s m k HI eq_refl) as [H1 H2]. unfold look_up_at.
  destruct (find_key k s) as [e|]; [apply wp_bind, wp_read_clock; intros t w'|]; apply wp_ret.
  - destruct (expired_at e.2 t).
    + apply advance_refl. split; [exact HI|]. apply unlock_then. apply get_expired_does.
    + eapply advance_read; [exact H1|]. split; [exact HI|]. apply unlock_then. by apply (counted k).
  - eapply advance_read; [exact H2|]. split; [exact HI|]. apply unlock_then. by apply (counted k).
Qed.

Lemma load_refresh_then {A R} (q : Spec K V R) (p : bool -> Prog Store (TtlAtomics * unit) W A) Q :
  (forall b, safely L None q (p b) Q) -> safely L None q (let* r := load_refresh in p r) Q.
Proof. intros Hp. skip_global g Hg. apply Hp. Qed.

Lemma remove_does_entry k : does L (Erase k) (with_write (W := W) (shard_of c k) (hm_remove_entry k))
  (fun e r => tvalue <$> (snd <$> e) = r /\ forall e', e = Some e' -> keq k e'.1 = true).
Proof.
  apply with_write_does; [apply ttl_shard_lt|done|]. intros s m w HI. eapply ttl_remove_wp; [exact HI|done|].
  intros r s' HI' _ HA He. eexists _, _. refine (conj HA (conj HI' (conj _ He))). done.
Qed.

(** An eviction counted and told. *)
Lemma evicted_silent k (e : K * TimedEntry V) :
  does_all L [] (add_evictions (shard_of c k) 1 ;;; notify (inner c) (bare e) : Prog Store (TtlAtomics * unit) W unit).
Proof. apply does_none_then; [apply does_all_atomic, ttl_shard_lt|intros _; silent]. Qed.

Lemma ttl_clear_all : does_all L (erase_shards L) (ShardedTtl.clear (W := W) c).
Proof.
  apply (each_does (inner c)); [done|]. intros i Hi. apply does_all_then; [|intros _; silent].
  apply erase_shard_does; [done|]. intros s m w HI. unfold hm_clear. apply wp_bind, wp_gets, wp_bind, wp_modify, wp_ret.
  apply map_inv_nil. intros k Hk. by apply Nat.eqb_eq.
Qed.

Lemma ttl_reset_silent : does_all L [] (ShardedTtl.cache_reset_metrics (W := W) c).
Proof. unfold ShardedTtl.cache_reset_metrics, reset_hits, reset_misses, reset_evictions. silent. Qed.

Lemma peek_wp {A} i s m k w (f : option (TimedEntry V) -> Z -> A) (Q : A -> W -> Prop) : inv0 i s m -> index_of (inner c) k = i ->
  (forall e t w', find_key k s = Some e -> Q (f (Some e.2) t) w') -> (forall w', find_key k s = None -> Q (f None 0) w') ->
  wp (match find_key k s with Some e => let! now := read_clock in ret (f (Some e.2) now) | None => ret (f None 0) end) Q (fun _ => True) w.
Proof.
  intros HI Hk H1 H2. destruct (find_key k s) as [e|] eqn:F; [|by apply wp_ret, H2].
  apply wp_bind, wp_read_clock. intros t w'. apply wp_ret. by eapply H1.
Qed.

#[export] Instance sharded_ttl_laws : ConcurrentLaws (W := W) c L.
Proof.
  split.
  - intros k R q. apply load_refresh_then. intros []; [apply get_refresh_does|apply get_plain_does].
  - intros k v R q w now w' _. exists (Await (Write k v) q). split; [intros x; constructor|]. skip_global g Hg.
    apply (does_bind L _ _ (fun o r => (o ≫= fun o : K * TimedEntry V * bool => if o.2 then None else Some (tvalue o.1.2)) = r)).
    + apply with_write_does; [apply ttl_shard_lt|done|]. intros s m w1 HI. eapply replace_wp; [exact HI|done|].
      intros r s' HI' HA. eexists _, _. exact (conj HA (conj HI' eq_refl)).
    + intros [[e []]|] r <-; cbn [mbind option_bind snd fst].
      * apply (does_all_bind L []); [apply does_all_atomic, ttl_shard_lt|]. intros _. apply silent_ret; [silent|done].
      * split; [done|]. by eexists.
      * split; [done|]. by eexists.
  - intros k. eapply does_then; [apply remove_does_entry|]. intros e r R q [<- He]. destruct e as [e|].
    + apply (does_all_bind L []); [apply does_all_atomic, ttl_shard_lt|]. intros _.
      apply (does_all_bind L []); [silent|]. intros _.
      apply (does_all_bind L []); [silent|]. intros []; (split; [done|]); eexists; (split; [done|]); [by right|by left].
    + split; [done|]. eexists. split; [done|]. by left.
  - intros k. eapply does_then; [apply remove_does_entry|]. intros e r R q [<- He]. destruct e as [e|].
    + apply (does_all_bind L []); [apply does_all_atomic, ttl_shard_lt|]. intros _.
      apply silent_ret; [silent|]. split; [done|]. intros e' [= <-]. by apply He.
    + split; [done|]. eexists. split; [done|]. by split.
  - intros k. apply with_read_does; [apply ttl_shard_lt|done|]. intros s m w HI.
    destruct (find_answers _ s m k HI eq_refl) as [H1 H2].
    destruct (find_key k s) as [e|]; [apply wp_bind, wp_read_clock; intros t w'|]; apply wp_ret; [|by exists None].
    destruct (expired_at e.2 t); [by exists None|eexists; split; [exact H1|done]].
  - intros k. apply with_read_does; [apply ttl_shard_lt|done|]. intros s m w HI.
    destruct (find_answers _ s m k HI eq_refl) as [H1 H2].
    destruct (find_key k s) as [e|]; [apply wp_bind, wp_read_clock; intros t w'|]; apply wp_ret; [|by exists None].
    destruct (expired_at e.2 t); [by exists None|eexists; split; [exact H1|done]].
  - apply ttl_clear_all.
  - apply does_all_then; [apply ttl_clear_all|]. intros _. apply ttl_reset_silent.
  - apply ttl_reset_silent.
Qed.

#[export] Instance sharded_ttl_clone_laws : ConcurrentCloneLaws (W := W) c L.
Proof.
  split.
  - intros k R q. apply load_refresh_then. intros [].
    + split; [done|]. split; [apply ttl_shard_lt|]. apply (look_up_then true). intros [|v|v now].
      * apply unlock_then. by apply (counted k).
      * apply unlock_then. by apply (counted k).
      * apply refresh_then. by apply (counted k).
    + apply (does_bind L _ _ (fun found r => told_of true found = r)).
      * apply with_read_does; [apply ttl_shard_lt|done|]. intros s m w HI.
        apply (look_up_wp true (shard_of c k) s m k); [exact HI|done|]. intros found w' HA. eexists. by split.
      * intros [|v|v now] r <-; by apply (counted k).
  - intros k. apply with_read_does; [apply ttl_shard_lt|done|]. intros s m w HI.
    destruct (find_answers _ s m k HI eq_refl) as [H1 H2].
    destruct (find_key k s) as [e|]; [apply wp_bind, wp_read_clock; intros t w'|]; apply wp_ret; [|by exists None].
    eexists. split; [exact H1|done].
Qed.
End Laws.

(** ** The calls of this store alone *)
Section Own.
Context {K V W E : Type} `{!KeyEq K, !KeyLaws K, !Clock W}.
Context (available_parallelism : option Z).

Inductive TtlCall : Type :=
| GetStatus (k : K)
| PeekStatus (k : K)
| Retain (keep : K -> V -> User W bool)
| Evict
| ClearWithOnEvict
| Ttl
| SetTtl (t : Z)
| TrySetTtl (t : Z)
| UnsetTtl
| RefreshOnHit
| SetRefreshOnHit (b : bool)
| Len | ShardSizes | IsEmpty | Hits | Misses | Evictions | Metrics
| DeepClone
| CopyFrom (b : ShardedTtlCacheBuilder K V W).

Context (c : ShardedTtlCache K V W) (Hd : proper (inner c)).
Notation L := (ttl_layout c Hd).
Notation Store := (list (K * TimedEntry V)).
Notation P := (Prog Store (TtlAtomics * unit) W).
Notation Rep := (Reply K V (E + SetTtlError)).

Definition own (q : TtlCall) : P Rep :=
  match q with
  | GetStatus k => let* r := Concurrent.cache_get_with_expiry_status c k in Ret (Status r.1 r.2)
  | PeekStatus k => let* r := Concurrent.cache_peek_with_expiry_status c k in Ret (Status r.1 r.2)
  | Retain keep => let* n := retain c keep in Ret (Numbers [Some n])
  | Evict => let* n := Concurrent.evict c in Ret (Numbers [Some n])
  | ClearWithOnEvict => cache_clear_with_on_evict c ;;; Ret Nothing
  | Ttl => let* n := Concurrent.ttl c in Ret (Numbers [n])
  | SetTtl t => let* n := Concurrent.set_ttl c t in Ret (Numbers [n])
  | TrySetTtl t => let* r := try_set_ttl c t in Ret (match r with Ok n => Numbers [n] | Err e => Failed (inr e) end)
  | UnsetTtl => let* n := Concurrent.unset_ttl c in Ret (Numbers [n])
  | RefreshOnHit => let* b := Concurrent.refresh_on_hit c in Ret (Flag b)
  | SetRefreshOnHit b => let* b := Concurrent.set_refresh_on_hit c b in Ret (Flag b)
  | Len => let* n := len c in Ret (Numbers [Some n])
  | ShardSizes => let* l := shard_sizes c in Ret (Numbers (Some <$> l))
  | IsEmpty => let* b := is_empty c in Ret (Flag b)
  | Hits => let* n := cache_hits c in Ret (Numbers [n])
  | Misses => let* n := cache_misses c in Ret (Numbers [n])
  | Evictions => let* n := cache_evictions c in Ret (Numbers [n])
  | Metrics => let* m := metrics c in Ret (Numbers [m_hits m; m_misses m; m_evictions m; m_entry_count m; m_capacity m])
  | DeepClone => deep_clone c ;;; Ret Nothing
  | CopyFrom b => copy_from available_parallelism b c ;;; Ret Nothing
  end.

(** A status read tells the value even when it has expired. *)
Definition own_spec (q : TtlCall) : Spec K V Rep :=
  match q with
  | GetStatus k | PeekStatus k => Await (Read k) (fun r => Returns (fun a => exists b, a = Status r b))
  | Retain keep =>
      await_all (shard_wise L (fun i => Filter (on_shard L i) (judged keep true) (fun _ _ => True))) (Returns (fun _ => True))
  | ClearWithOnEvict => await_all (erase_shards L) (Returns (eq Nothing))
  | TrySetTtl t => Returns (fun a => if t =? 0 then a = Failed (inr ZeroTtl) else exists prev, a = Numbers [prev])
  | _ => Returns (fun _ => True)
  end.

Lemma ttl_retain_sweeps keep now i : (i < shard_count L)%nat ->
  does_all L [Filter (on_shard L i) (judged keep true) (fun _ _ => True)]
    (let* removed := with_write i (take_doomed (stale_or_rejected keep now)) in
     count_evicted i (Z.of_nat (length removed)) ;;; Ret (bare <$> removed) : P _).
Proof.
  intros Hi. apply does_all_then; [|intros l; apply does_none_then; [by apply count_silent|intros _; silent]].
  apply (does_does_all L _ _ (fun _ _ => True)). apply with_write_does; [done|by intros k Hk%within_shard|].
  intros s m w HI. eapply wp_mono; [apply (take_doomed_said (stale_or_rejected keep now) s w), HI|..].
  - intros l s' (Hp & D' & H1 & H2). rewrite Forall_forall in H1, H2.
    destruct (map_inv_filter (index_of (inner c)) true tvalue i s s'.1 l m (judged keep true) (fun _ _ => True) None HI Hp) as (m' & HA & HI').
    + done.
    + intros e k He Hk. eapply judged_stale; [by apply H2|done].
    + exists None, m'. exact (conj HA (conj HI' I)).
  - intros s' ->. by left.
Qed.

Lemma part_quiet {A} i (f : ST (Store * W) A) (p : K * TimedEntry V -> bool) : (i < shard_count L)%nat ->
  (forall s w, exists a, f (s, w) = (Done a, (List.filter p s, w))) -> does_all L [] (with_write i f : P A).
Proof.
  intros Hi Hf. apply with_write_quiet; [done|]. intros s m w HI. destruct (Hf s w) as [a E1].
  eapply wp_run; [exact E1|]. by apply filter_part.
Qed.

Lemma evict_silent : does_all L [] (Concurrent.evict c : P Z).
Proof.
  simpl. unfold evict. apply does_none_then; [silent|]. intros now. destruct (on_evict (inner c)).
  - unfold sweep_shards. apply sum_silent; [done|]. intros i Hi.
    apply does_none_then; [|intros l; silent]. apply does_none_then; [|intros l; apply does_none_then; [by apply count_silent|intros _; silent]].
    eapply part_quiet; [done|]. intros s w. by eexists.
  - apply sum_silent; [done|]. intros i Hi. apply does_none_then; [|intros l; apply does_none_then; [by apply count_silent|intros _; silent]].
    eapply part_quiet; [done|]. intros s w. by eexists.
Qed.

Lemma drain_does {A} i (f : ST (Store * W) A) : (i < shard_count L)%nat ->
  (forall s w, exists a, f (s, w) = (Done a, ([], w))) -> does_all L [EraseAll (on_shard L i)] (with_write i f : P A).
Proof.
  intros Hi Hf. apply erase_shard_does; [done|]. intros s m w HI. destruct (Hf s w) as [a E1].
  eapply wp_run; [exact E1|]. apply map_inv_nil. intros k Hk. by apply Nat.eqb_eq.
Qed.

Lemma ttl_own_safe q : safely L None (own_spec q) (own q) (post ends).
Proof.
  destruct q as [k|k|keep| | | |t|t| | |r| | | | | | | | |b]; cbn [own own_spec].
  - eapply (does_bind L); [apply get_status_does|]. intros a r <-. apply post_ret. by exists a.2.
  - eapply (does_bind L); [apply peek_status_does|]. intros a r <-. apply post_ret. by exists a.2.
  - apply then_returns; [|done]. apply does_none_then; [silent|]. intros now. apply sweep_does; [done|]. apply ttl_retain_sweeps.
  - apply (then_returns L []); [apply evict_silent|done].
  - apply then_returns; [|done]. unfold cache_clear_with_on_evict. destruct (on_evict (inner c)) as [f|];
      (apply (each_does (inner c)); [done|]; intros i Hi; apply does_all_then;
       [apply drain_does; [done|]; intros s w; by eexists|intros l]).
    + apply does_none_then; [by apply count_silent|intros _; silent].
    + by apply count_silent.
  - apply (then_returns L []); [by apply ttl_duration_silent|done].
  - apply (then_returns L []); [by apply swap_ttl_silent|done].
  - unfold try_set_ttl. destruct (t =? 0); [by apply post_ret|]. skip_global g Hg. apply post_ret. by eexists.
  - apply (then_returns L []); [by apply swap_ttl_silent|done].
  - apply (then_returns L []); [by apply global_silent|done].
  - apply (then_returns L []); [by apply global_silent|done].
  - apply (then_returns L []); [|done]. unfold len, shard_sizes. silent.
  - apply (then_returns L []); [|done]. unfold shard_sizes. silent.
  - apply (then_returns L []); [|done]. unfold is_empty. silent.
  - apply (then_returns L []); [|done]. unfold cache_hits, load_hits. silent.
  - apply (then_returns L []); [|done]. unfold cache_misses, load_misses. silent.
  - apply (then_returns L []); [|done]. unfold cache_evictions, load_evictions. silent.
  - apply (then_returns L []); [|done]. unfold metrics, load_hits, load_misses, load_evictions. silent.
  - apply (then_returns L []); [|done]. unfold deep_clone, load_refresh. silent.
  - apply (then_returns L []); [|done]. unfold copy_from. destruct (build _ b) as [[[c' m]|e]| |]; [|silent|by intros R q..].
    apply does_none_then; [|intros m'; silent]. apply copy_silent; [by apply each_lt|].
    intros i s x w HI. apply wp_bind, wp_read_clock. intros t w'. by apply wp_ret.
Qed.
End Own.

(** ** A built store *)
Section Built.
Context {K V W : Type} `{!KeyEq K, !KeyLaws K, !Clock W} (available_parallelism : option Z).
Implicit Types (b : ShardedTtlCacheBuilder K V W) (c : ShardedTtlCache K V W).

Definition ttl_builder_ok b : Prop :=
  match b_shards b with Some n => 0 <= n | None => True end /\ exists h, b_hasher b = Some h /\ hash_ok h.

Lemma ttl_built_follows b c m : ttl_builder_ok b -> build available_parallelism b = Done (Ok (c, m)) ->
  exists Hd : proper (inner c), follows_map (ttl_layout c Hd) m (fun _ => None).
Proof.
  intros [Hn (h & Eh & Hh)]. unfold build. destruct (b_ttl b) as [t|]; [|done]. destruct (validate_ttl t); [|done].
  destruct (checked_shard_count _ _) as [n|] eqn:En; [|done].
  rewrite Eh. intros [= <- <-]. destruct (checked_shard_count_spec _ _ _ En Hn) as [Hp Hr].
  exists (built_proper n h (b_on_evict b) Hp (proj1 Hr) Hh). split_and!; simpl; [by rewrite length_replicate| |done].
  intros i s [-> _]%lookup_replicate. split_and!; [done|by intros e He%elem_of_nil|]. intros k _. by left.
Qed.
End Built.

(** *** Running alone *)
Section Alone.
Context {K V W : Type} `{!KeyEq K, !KeyLaws K, !Clock W}.
Implicit Types (c : ShardedTtlCache K V W) (m : Memory (list (K * TimedEntry V)) (TtlAtomics * unit)).

(** The deadline a hit leaves: with refresh-on-hit it starts anew, unless the ttl is off. *)
Definition after_hit (g : TtlAtomics) (now : Z) (k : K) (s : list (K * TimedEntry V)) : list (K * TimedEntry V) :=
  if refresh g then
    match find_key k s with
    | Some e => hm_update k (mkTimed (or_else_some (compute_expires_at (ttl_nanos g) now) (expires_at e.2)) (tvalue e.2)) s
    | None => s
    end
  else s.

(** What a [get] that runs alone does, from shard [s] and clock reading [(now, w)]. *)
Definition got c (k : K) (s : Shard (list (K * TimedEntry V))) m (now : Z) (w0 w : W) :
    outcome (option V) * (Memory (list (K * TimedEntry V)) (TtlAtomics * unit) * W) :=
  let become s' := set_shard (shard_of c k) s' m in
  match find_key k (content s) with
  | None => (Done None, (become (mkShard (content s) (counted_miss (counters s))), w0))
  | Some e =>
      if expired_at e.2 now then
        expired_out (inner c) (shard_of c k) (drop_key k (content s)) (counters s) (bare e) m w
      else (Done (Some (tvalue e.2)), (become (mkShard (after_hit (globals m).1 now k (content s)) (counted_hit (counters s))), w))
  end.

Lemma exec_expire c i e m w s : Shards.shards m !! i = Some s ->
  exec (expire c i (Some e)) (m, w) = expired_out (inner c) i (content s) (counters s) (bare e) m w.
Proof. apply run_expired. Qed.

Lemma ttl_remove_run k (s : list (K * TimedEntry V)) (w : W) e : find_key k s = Some e ->
  hm_remove_entry k (s, w) = (Done (Some e), (drop_key k s, w)).
Proof.
  intros F. unfold hm_remove_entry, bind, gets, drop_key. unfold find_key in F. cbn [fst].
  destruct (take_key k s) as [[e' r]|]; [|done]. by injection F as ->.
Qed.

Lemma exec_get c k m s w now w1 : Shards.shards m !! shard_of c k = Some s -> clock_now w = (now, w1) ->
  exec (cache_get c k) (m, w) = got c k s m now w w1.
Proof.
  intros Hs Hw. unfold cache_get, load_refresh, global. cbn [pbind exec]. unfold bind at 1, do_global.
  cbn [globals fst snd]. replace (mkMemory (Shards.shards m) (globals m)) with m by (by destruct m).
  set (i := shard_of c k) in *. unfold got, after_hit. fold i.
  assert (look_up k (content s) w = (Done match find_key k (content s) with
    | None => Absent | Some e => if expired_at e.2 now then Expired (tvalue e.2) else Live (tvalue e.2) now end,
    match find_key k (content s) with None => w | Some _ => w1 end)) as El.
  { unfold look_up. destruct (find_key k (content s)); [|done]. unfold bind, read_clock. by rewrite Hw. }
  assert (look_up_at k (content s) w = (Done ((fun e : K * TimedEntry V => (expired_at e.2 now, tvalue e.2, now)) <$> find_key k (content s)),
    match find_key k (content s) with None => w | Some _ => w1 end)) as Ep.
  { unfold look_up_at. destruct (find_key k (content s)); [|done]. unfold bind, read_clock. by rewrite Hw. }
  assert (mkShard (content s) (counters s) = s) as Es by (by destruct s).
  destruct (refresh (globals m).1) eqn:Er.
  - unfold get_refresh, add_hits, add_misses. fold i. rewrite (run_lock _ _ _ _ _ s) by done. rewrite (run_read _ _ _ _ _ s _ _ Hs El).
    destruct (find_key k (content s)) as [e|] eqn:F; [|rewrite run_unlock; by erewrite run_last].
    destruct (expired_at e.2 now).
    + rewrite (run_write _ _ _ _ _ s _ _ _ Hs (ttl_remove_run _ _ _ _ F)), run_unlock.
      erewrite exec_expire by (by eapply set_shard_lookup). by rewrite set_shard_expired_out.
    + unfold deadline_from, global. cbn [pbind exec]. unfold bind at 1, do_global. cbn [fst snd].
      replace (mkMemory (Shards.shards m) (globals m)) with m by (by destruct m).
      erewrite run_write; [|done|done]. rewrite run_unlock. erewrite run_last by (by eapply set_shard_lookup).
      rewrite set_set_shard. cbn [content counters]. cbn [fst snd]. by rewrite F.
  - unfold get_plain, add_hits, add_misses. fold i. rewrite (run_with_read _ _ _ _ _ s _ _ Hs Ep).
    destruct (find_key k (content s)) as [e|] eqn:F; cbn [fmap option_fmap option_map]; [|by erewrite run_last].
    destruct (expired_at e.2 now) eqn:Ee; [|by erewrite run_last]. unfold get_expired. fold i.
    rewrite (run_lock _ _ _ _ _ s) by done. rewrite (run_peek _ _ _ _ _ s) by done. rewrite F, Ee.
    rewrite (run_write _ _ _ _ _ s _ _ _ Hs (ttl_remove_run _ _ _ _ F)), run_unlock.
    erewrite exec_expire by (by eapply set_shard_lookup). by rewrite set_shard_expired_out.
Qed.

(** What a [set] that runs alone does. *)
Definition put_alone c (k : K) (v : V) (s : Shard (list (K * TimedEntry V))) m (now : Z) (w : W) :
    outcome (option V) * (Memory (list (K * TimedEntry V)) (TtlAtomics * unit) * W) :=
  let become s' n := set_shard (shard_of c k) (mkShard s' n) m in
  let new_entry := mkTimed (compute_expires_at (ttl_nanos (globals m).1) now) v in
  match find_key k (content s) with
  | None => (Done None, (become (content s ++ [(k, new_entry)]) (counters s), w))
  | Some e =>
      let updated := hm_update k new_entry (content s) in
      if expired_at e.2 now then
        match told_to (inner c) (k, tvalue e.2) w with
        | (Some _, w') => (Done None, (become updated (counted_eviction (counters s)), w'))
        | (None, w') => (Unwind, (become updated (counted_eviction (counters s)), w'))
        end
      else (Done (Some (tvalue e.2)), (become updated (counters s), w))
  end.

Lemma exec_set c k v m s w now w1 : Shards.shards m !! shard_of c k = Some s -> clock_now w = (now, w1) ->
  exec (cache_set c k v) (m, w) = put_alone c k v s m now w1.
Proof.
  intros Hs Hw. unfold cache_set, outside, clock_reading. cbn [pbind exec]. unfold bind at 1, user. cbn [fst snd]. rewrite Hw.
  unfold deadline_from, global. cbn [pbind exec]. unfold bind at 1, do_global. cbn [fst snd].
  replace (mkMemory (Shards.shards m) (globals m)) with m by (by destruct m). set (new_entry := mkTimed _ v).
  unfold put_alone. fold new_entry.
  destruct (find_key k (content s)) as [e|] eqn:F.
  - erewrite (run_with_write _ _ _ _ _ s (Some (k, e.2, expired_at e.2 now)) (hm_update k new_entry (content s)) w1); [|done|].
    2: { unfold hm_replace, bind, gets. cbn [fst]. by rewrite F. }
    destruct (expired_at e.2 now); [|done]. unfold add_evictions, notify, told_to.
    erewrite run_atomic by (by eapply set_shard_lookup). rewrite set_set_shard. cbn [content counters fst snd].
    destruct (on_evict (inner c)) as [f|]; [|done]. unfold outside. cbn [pbind exec]. unfold bind at 1, user. cbn [bare fst snd].
    by destruct (f k (tvalue e.2) w1) as [[[]|] w'].
  - erewrite (run_with_write _ _ _ _ _ s None (content s ++ [(k, new_entry)]) w1); [done|done|].
    unfold hm_replace, bind, gets. cbn [fst]. by rewrite F.
Qed.
End Alone.

(** C6: [ShardedTtlCache] is one atomic map that may forget.  From any memory that follows a map - a
    freshly built store follows the empty one - any calls in any interleaving, with the ttl and
    refresh-on-hit changed meanwhile and the clock read at any values: a keyed call is atomic and
    answers the latest value written or nothing (a status read answers it even past its deadline);
    a value is never served after it was overwritten or removed - not by the read that comes back
    with the write lock either; [retain] drops no live binding its predicate kept; no call runs for
    ever, none deadlocks, and when all are over every lock is free. *)
Theorem sharded_ttl_serves {K V W E : Type} `{!KeyEq K, !KeyLaws K, !Clock W} (p : option Z)
    (b : ShardedTtlCacheBuilder K V W) c m : ttl_builder_ok b -> build p b = Done (Ok (c, m)) ->
  exists Hd : proper (inner c),
    follows_map (ttl_layout c Hd) m (fun _ => None) /\
    forall m' x, follows_map (ttl_layout c Hd) m' x ->
      serves (own (E := E) p c) c (ttl_layout c Hd) (own_spec c Hd) m' x.
Proof.
  intros Hb HB. destruct (ttl_built_follows p b c m Hb HB) as [Hd Hm]. exists Hd. split; [done|].
  intros m' x Hm'. apply lawful_serves; [apply sharded_ttl_laws|apply ttl_own_safe|done].
Qed.

(** Expiry of a sharded [get], exactly, while nothing else runs.  An absent key is a miss and
    the clock is not read.  A key whose deadline the one clock reading has not reached is a hit with
    its value, and with refresh-on-hit its deadline starts anew unless the ttl is off.  A key
    whose deadline is reached is removed, counted as an eviction, told to the callback, and is a
    miss; if the callback panics the entry is gone and counted, the miss is not.  The other
    shards are not touched. *)
Theorem sharded_ttl_get {K V W : Type} `{!KeyEq K, !Clock W} (c : ShardedTtlCache K V W) k m s w now w1 :
  Shards.shards m !! shard_of c k = Some s -> clock_now w = (now, w1) ->
  exec (cache_get c k) (m, w) = got c k s m now w w1.
Proof. apply exec_get. Qed.

(** A sharded [set], exactly, while nothing else runs.  The entry's deadline is the ttl from the
    one clock reading, or none.  A new key is added; a present one keeps its stored key, and its
    value is returned if that reading had not reached its deadline; an expired one is counted
    as an eviction, told to the callback with the caller's key, and nothing is returned. *)
Theorem sharded_ttl_set {K V W : Type} `{!KeyEq K, !Clock W} (c : ShardedTtlCache K V W) k v m s w now w1 :
  Shards.shards m !! shard_of c k = Some s -> clock_now w = (now, w1) ->
  exec (cache_set c k v) (m, w) = put_alone c k v s m now w1.
Proof. apply exec_set. Qed.

(** *** Witnesses *)

Definition ttl_demo : ShardedTtlCacheBuilder TaggedKey.t Z Tick.t :=
  builder_on_evict Tick.log (builder_ttl 5 (builder_shards 2 (builder spread))).

Lemma sharded_ttl_serves_witness : exists c m (Hd : proper (inner c)),
  build (Some 8) ttl_demo = Done (Ok (c, m)) /\ shard_len (inner c) = 2%nat /\
  serves (own (E := unit) (Some 8) c) c (ttl_layout c Hd) (own_spec c Hd) m (fun _ => None).
Proof.
  destruct (build (Some 8) ttl_demo) as [[[c m]|e]| |] eqn:EB; try discriminate EB.
  destruct (sharded_ttl_serves (E := unit) (Some 8) ttl_demo c m) as (Hd & Hm & H); [|done|].
  { split; [done|]. exists spread. split; [done|apply spread_ok]. }
  exists c, m, Hd. split; [done|]. split; [by injection EB as <- _|]. by apply H.
Defined.

(** Two shards; key 1, in the second, expires at 5. *)
Definition ttl_two : ShardedTtlCache TaggedKey.t Z Tick.t := mkSharded (mkInner 2 1 spread (Some Tick.log)).
Definition ttl_shard : Shard (list (TaggedKey.t * TimedEntry Z)) := mkShard [(Tick.k1, mkTimed (Some 5) 10)] (mkCounters 0 0 0).
Definition ttl_memory : Memory (list (TaggedKey.t * TimedEntry Z)) (TtlAtomics * unit) :=
  mkMemory [new_shard []; ttl_shard] (mkTtl 5 false, tt).

Lemma sharded_ttl_get_witness :
  exec (cache_get ttl_two Tick.k1') (ttl_memory, Tick.mk 4 []) =
    (Done (Some 10), (set_shard 1 (mkShard (content ttl_shard) (mkCounters 1 0 0)) ttl_memory, Tick.mk 5 [])) /\
  exec (cache_get ttl_two Tick.k1') (ttl_memory, Tick.mk 5 []) =
    (Done None, (set_shard 1 (mkShard [] (mkCounters 0 1 1)) ttl_memory, Tick.mk 6 [(Tick.k1, 10)])).
Proof.
  split.
  - exact (sharded_ttl_get ttl_two Tick.k1' ttl_memory ttl_shard (Tick.mk 4 []) 4 (Tick.mk 5 []) eq_refl eq_refl).
  - exact (sharded_ttl_get ttl_two Tick.k1' ttl_memory ttl_shard (Tick.mk 5 []) 5 (Tick.mk 6 []) eq_refl eq_refl).
Defined.

Lemma sharded_ttl_set_witness :
  exec (cache_set ttl_two Tick.k1' 11) (ttl_memory, Tick.mk 7 []) =
    (Done None, (set_shard 1 (mkShard [(Tick.k1, mkTimed (Some 12) 11)] (mkCounters 0 0 1)) ttl_memory,
                 Tick.mk 8 [(Tick.k1', 10)])).
Proof. exact (sharded_ttl_set ttl_two Tick.k1' 11 ttl_memory ttl_shard (Tick.mk 7 []) 7 (Tick.mk 8 []) eq_refl eq_refl). Defined.
