(* ===== verification/LruShards.v ===== *)
(** * Shards that are [LruCache]s

    What the sharded LRU stores do to the [LruCache] behind a shard's lock, and how it keeps the
    shard in step with the map of the specification.  The store is lossy: it evicts. *)
From Stdlib Require Import String.
From S2P Require Import Prelude Keys Stores LruList HashTable Lru LruSpec LruRefine LruProps Sharded Shards Concurrent ShardOps MapShards.
#[local] Close Scope string_scope.

(** ** Under the lock *)
Section Inner.
Context {K E W HT : Type} `{!KeyEq K, !HashTable HT}.
Notation Inner A := (ST (LruCache K E W HT * W) A).

(** Two passes over the shard: the first runs the predicate and copies the keys of the doomed
    entries, the second removes them one by one and runs no user code. *)
Fixpoint pop_each (doomed : list K) : Inner (list (K * E)) :=
  match doomed with
  | [] => ret []
  | k :: doomed =>
      let! popped := Lru.pop_raw k in
      let! removed := pop_each doomed in
      ret (match popped with Some e => e :: removed | None => removed end)
  end.

Definition sweep_doomed (doomed : K -> E -> User W bool) : Inner (list (K * E)) :=
  let! c := Lru.self in
  let! entries := of_outcome (iter (Lru.order c)) in
  let! doomed := filter_each entries (fun e => user (doomed e.1 e.2)) in
  pop_each (fst <$> doomed).

(** [get_mut_if(..)], and the value behind the reference it returns. *)
Definition get_mut_value (k : K) (valid : E -> User W bool) : Inner (option E) :=
  let! r := Lru.get_mut_if k valid in
  match r with
  | Some index =>
      let! c := Lru.self in
      let! e := of_outcome (get (order c) index) in
      ret (Some e.2)
  | None => ret None
  end.

(** A write through that reference, the guard still held: to the entry of the key. *)
Definition write_entry (k : K) (g : E -> E) : Inner unit :=
  let! c := Lru.self in
  let! i := of_outcome (get_index c (hash k) k) in
  match i with
  | Some index =>
      let! e := of_outcome (get (order c) index) in
      on_order (write index (e.1, g e.2))
  | None => ret tt
  end.

(** [guard.evictions.fetch_add(n)], when there is something to count. *)
Definition count_removed (removed : list (K * E)) : Inner unit :=
  if decide (removed = []) then ret tt else Lru.count_evictions (Z.of_nat (length removed)).

(** [pop_raw], counted. *)
Definition pop_counted (k : K) : Inner (option (K * E)) :=
  let! removed := Lru.pop_raw k in
  (match removed with Some _ => Lru.count_evictions 1 | None => ret tt end) ;;
  ret removed.
End Inner.

(** ** Sizes: the builders of the three LRU-bounded stores share these *)

(** How many shards: as asked for, or scaled to the total size. *)
Definition resolve_shard_count (available_parallelism shards max_size : option Z) : result BuildError Z :=
  match shards with
  | Some _ => checked_shard_count available_parallelism shards
  | None => Ok (default_shard_count_for_capacity available_parallelism max_size)
  end.

Definition resolve_per_shard_cap (max_size per_shard_max_size : option Z) (n_shards : Z) : result BuildError Z :=
  match max_size, per_shard_max_size with
  | Some _, Some _ =>
      Err (InvalidValue "max_size / per_shard_max_size" "`max_size` and `per_shard_max_size` are mutually exclusive")
  | None, None => Err (MissingRequired "max_size")
  | Some total, None =>
      if total =? 0 then Err (InvalidValue "max_size" "must be greater than zero") else
      let cap := div_ceil total n_shards in
      Ok (if 1 <? n_shards then Z.max cap 16 else cap)
  | None, Some per =>
      if per =? 0 then Err (InvalidValue "per_shard_max_size" "must be greater than zero") else Ok per
  end.

Definition total_capacity (per_shard_max_size : option Z) (n_shards per_shard_cap : Z) : result BuildError Z :=
  let field := match per_shard_max_size with Some _ => "per_shard_max_size"%string | None => "max_size"%string end in
  match checked_mul n_shards per_shard_cap with
  | Some total => Ok total
  | None => Err (InvalidValue field "effective sharded capacity overflows usize")
  end.

(** The three together: shard count, capacity of a shard, total capacity. *)
Definition resolve_sizes (available_parallelism shards max_size per_shard_max_size : option Z) : result BuildError (Z * Z * Z) :=
  match resolve_shard_count available_parallelism shards max_size with
  | Err e => Err e
  | Ok n =>
      match resolve_per_shard_cap max_size per_shard_max_size n with
      | Err e => Err e
      | Ok per_shard_cap =>
          match total_capacity per_shard_max_size n per_shard_cap with
          | Err e => Err e
          | Ok total_cap => Ok (n, per_shard_cap, total_cap)
          end
      end
  end.

Section Build.
Context {K E W HT : Type} `{!KeyEq K, !HashTable HT} (try_reserve_exact : Z -> bool).

(** [lru.on_evict = on_evict] *)
Definition with_on_evict (cb : OnEvict K E W) (c : LruCache K E W HT) : LruCache K E W HT :=
  mkLru (store c) (order c) (capacity c) (Lru.hits c) (Lru.misses c) (Lru.evictions c) cb (track_hit_miss c).

Definition build_shard (cb : OnEvict K E W) (per_shard_cap : Z) : result BuildError (LruCache K E W HT) :=
  match Lru.build try_reserve_exact (Lru.builder_max_size per_shard_cap Lru.builder) with
  | Err e => Err e
  | Ok lru => Ok (disable_hit_miss_tracking (with_on_evict cb lru))
  end.

(** [collect] stops at the first error. *)
Fixpoint build_shards (cb : OnEvict K E W) (per_shard_cap : Z) (n : nat) : result BuildError (list (Shard (LruCache K E W HT))) :=
  match n with
  | O => Ok []
  | S n =>
      match build_shard cb per_shard_cap with
      | Err e => Err e
      | Ok s => match build_shards cb per_shard_cap n with Err e => Err e | Ok l => Ok (new_shard s :: l) end
      end
  end.
End Build.

(** ** Resizing: every shard takes its part, then the total is published *)
Section Resize.
Context {K E V W HT G : Type} `{!KeyEq K, !HashTable HT}.
Notation P := (Prog (LruCache K E W HT) G W).

(** [max_size > 0] is asserted; [publish] swaps the atomic total. *)
Definition resize (d : Inner K V W) (publish : Z -> G -> Z * G) (max_size : Z) : P (option Z) :=
  if max_size <=? 0 then Panic else
  match per_shard_cap_from_total max_size (Z.of_nat (shard_len d)) with
  | Done (per_shard_cap, total_cap) =>
      piter (each d) (fun i => with_write i (Lru.set_max_size per_shard_cap) ;;; Ret tt) ;;;
      let* prev := global (publish total_cap) in
      Ret (Some prev)
  | _ => Panic
  end.

Definition try_resize (d : Inner K V W) (publish : Z -> G -> Z * G) (max_size : Z) : P (result SetMaxSizeError (option Z)) :=
  if max_size =? 0 then Ret (Err ZeroMaxSize) else
  match checked_per_shard_cap_from_total max_size (Z.of_nat (shard_len d)) with
  | Err e => Ret (Err e)
  | Ok _ => let* prev := resize d publish max_size in Ret (Ok prev)
  end.
End Resize.

(** What the abstract store does, the store does. *)
Lemma refined_run {K E W HT A} `{!KeyEq K, !KeyLaws K, !HashTable HT, !HashTableLaws HT}
    (f : ST (LruCache K E W HT * W) A) (sf : LruSpec.Spec K E W W A) c a w r a' w' :
  refines Rel f sf -> models c a -> sf (a, w) = (r, (a', w')) -> exists c', f (c, w) = (r, (c', w')) /\ models c' a'.
Proof.
  intros HR HM E1. specialize (HR (c, w) (a, w) (conj eq_refl HM)). rewrite E1 in HR.
  destruct (f (c, w)) as [r1 [c1 w1]], HR as [[Ew HM'] Hm]. simpl in *. subst w1. exists c1. split; [|done].
  f_equal. destruct r1, r; try done. by subst.
Qed.

Lemma s_pop_run {K E W} `{!KeyEq K} k (a : View K E W) (w : W) :
  s_pop k (a, w) = (Done (find_key k (entries a)), (put_entries (drop_key k (entries a)) a, w)).
Proof.
  unfold s_pop, s_self, bind, gets, find_key, drop_key. cbn [fst]. destruct (take_key k (entries a)) as [[e r]|]; [done|].
  by destruct a.
Qed.

Lemma drop_absent {K E W} `{!KeyEq K} k (a : View K E W) : find_key k (entries a) = None -> put_entries (drop_key k (entries a)) a = a.
Proof. unfold find_key, drop_key. destruct (take_key k (entries a)) as [[e r]|]; [done|]. by destruct a. Qed.

(** ** The layout *)
Section LruLayout.
Context {K E V W HT G : Type} `{!KeyEq K, !KeyLaws K, !HashTable HT, !HashTableLaws HT}.
Context (val : E -> V) (d : Inner K V W) (Hd : proper d) (cb : OnEvict K E W) (capok : Z -> Prop) (gok : G -> Prop).
Notation View := (View K E W).
Notation C := (LruCache K E W HT).
Implicit Types (a : View) (c : C) (m : Map K V).

Definition cap_fits (n : Z) : Prop := 0 < n /\ capok n.

(** The store allows one capacity only: no one resizes. *)
Definition fixed_capacity : Prop := exists per, forall n, capok n -> n = per.

(** The entries follow the map, the callback is the store's, the capacity is one the store
    allows, and the shard is within it - unless it is resized and a callback panics meanwhile. *)
Definition view_inv (i : nat) (a : View) (m : Map K V) : Prop :=
  map_inv (index_of d) true val i (entries a) m /\ von_evict a = cb /\ cap_fits (vcapacity a) /\
  (callback_total cb \/ fixed_capacity -> Z.of_nat (length (entries a)) <= vcapacity a).

Definition lru_inv (i : nat) (c : C) (m : Map K V) : Prop := exists a, models c a /\ view_inv i a m.

Lemma view_inv_local i a m m' : (forall k, index_of d k = i -> m' k = m k) -> view_inv i a m -> view_inv i a m'.
Proof. intros H (H1 & H2). split; [|done]. by eapply map_inv_local. Qed.

Program Definition lru_layout : Layout C G K V :=
  {| shard_count := shard_len d; slot := index_of d; lossy := true; inv := lru_inv; ginv := gok |}.
Next Obligation. intros. by apply index_cong. Qed.
Next Obligation. intros. by apply index_bound. Qed.
Next Obligation. intros i c m m' H (a & HM & HV). exists a. split; [done|]. by eapply view_inv_local. Qed.

(** An access through the abstract store. *)
Lemma shard_wp {A} (f : ST (C * W) A) (sf : LruSpec.Spec K E W W A) (Q : A -> C * W -> Prop) U i c m w :
  refines Rel f sf -> lru_inv i c m ->
  (forall a, view_inv i a m ->
     wp sf (fun r s => forall c', models c' s.1 -> Q r (c', s.2)) (fun s => forall c', models c' s.1 -> U (c', s.2)) (a, w)) ->
  wp f Q U (c, w).
Proof.
  intros HR (a & HM & HV) Hw. eapply wp_mono; [apply (lru_wp _ _ _ _ _ _ _ HR HM (Hw a HV))|..].
  - intros r [c' w'] (a' & HM' & HQ). by apply HQ.
  - intros [c' w'] (a' & HM' & HU). by apply HU.
Qed.

(** *** Steps of the abstract store *)

Lemma view_inv_same i a a' m : view_inv i a m -> entries a' = entries a -> vcapacity a' = vcapacity a ->
  von_evict a' = von_evict a -> view_inv i a' m.
Proof. intros (H1 & H2 & H3 & H4) Ee Ec Eo. unfold view_inv. by rewrite Ee, Ec, Eo. Qed.

(** A part of the entries. *)
Lemma view_inv_less i a m l' r : view_inv i a m -> r ++ l' ≡ₚ entries a ->
  forall n, view_inv i (evicted l' n a) m.
Proof.
  intros (H1 & H2 & H3 & H4) Hp n. split_and!; [|done|done|].
  - by eapply map_inv_sublist.
  - intros Hc. specialize (H4 Hc). apply Permutation_length in Hp. rewrite length_app in Hp. simpl. lia.
Qed.

Lemma put_entries_evicted l a : put_entries l a = evicted l 0 a.
Proof. by destruct a. Qed.

(** Insertion at the front, then eviction from the back. *)
Lemma view_inv_put i a m k x n j : view_inv i a m -> index_of d k = i ->
  (Z.to_nat (vcapacity a) <= n)%nat -> (n <= length (drop_key k (entries a)) \/ n = Z.to_nat (vcapacity a))%nat ->
  view_inv i (evicted (take n ((k, x) :: drop_key k (entries a))) j a) (put k (Some (val x)) m).
Proof.
  intros (H1 & H2 & H3 & H4) Hk Hn Hn'.
  assert (map_inv (index_of d) true val i ((k, x) :: drop_key k (entries a)) (put k (Some (val x)) m)) as Hf.
  { unfold drop_key. destruct (take_key k (entries a)) as [[e r]|] eqn:Et.
    - eapply map_inv_put; [by intros; apply index_cong|done|done|done|apply keq_refl].
    - apply map_inv_cons; [done|done|]. unfold find_key. by rewrite Et. }
  split_and!; [|done|done|].
  - eapply map_inv_sublist; [done|exact Hf|]. simpl. rewrite Permutation_app_comm. by rewrite take_drop.
  - intros Hc. specialize (H4 Hc). simpl. rewrite length_take. simpl. destruct Hn' as [Hn'| ->]; [|lia].
    assert (length (drop_key k (entries a)) <= length (entries a))%nat; [|lia].
    unfold drop_key. destruct (take_key k (entries a)) as [[e r]|] eqn:Et; [|done].
    destruct (take_key_Some _ _ _ _ Et) as (xs & ys & -> & -> & _). rewrite !length_app. simpl. lia.
Qed.

Lemma view_inv_erase i a m k : view_inv i a m -> index_of d k = i ->
  view_inv i (put_entries (drop_key k (entries a)) a) (put k None m).
Proof.
  intros (H1 & H2 & H3 & H4) Hk. split_and!; [by apply map_inv_erase|done|done|].
  intros Hc. specialize (H4 Hc). simpl. unfold drop_key. destruct (take_key k (entries a)) as [[e r]|] eqn:Et; [|done].
  destruct (take_key_Some _ _ _ _ Et) as (xs & ys & E1 & -> & _).
  rewrite E1 in H4. rewrite length_app in *. simpl in H4. lia.
Qed.

Lemma view_inv_nil i a m on : view_inv i a m -> (forall k, index_of d k = i -> on k = true) ->
  view_inv i (put_entries [] a) (fun k => if on k then None else m k).
Proof. intros (H1 & H2 & H3 & H4) Ho. split_and!; [by apply map_inv_nil|done|done|]. intros _. simpl. destruct H3. lia. Qed.

Lemma view_told i a m k : view_inv i a m -> index_of d k = i ->
  answers true (Read k) m (val <$> (snd <$> find_key k (entries a))) m.
Proof.
  intros (H1 & _) Hk. pose proof (answers_read (index_of d) true val i _ m k H1 Hk) as H.
  unfold lookup_val in H. by destruct (find_key k (entries a)).
Qed.

Lemma view_hidden i a m k : view_inv i a m -> index_of d k = i -> answers true (Read k) m None m.
Proof. intros (H1 & _) Hk. by apply (answers_read_none (index_of d) true val i (entries a)). Qed.

(** *** Accesses *)

Lemma lru_peek_wp i c m k w (Q : option E -> W -> Prop) : lru_inv i c m -> index_of d k = i ->
  (forall r, answers true (Read k) m (val <$> r) m -> Q r w) -> wp (of_outcome (Lru.cache_peek c k)) Q (fun _ => True) w.
Proof.
  intros (a & HM & HV) Hk HQ. eapply wp_of_outcome; [by apply peek_models|]. by apply HQ, (view_told i).
Qed.

Lemma s_tracked_wp (b : bool) (a : View) w (Q : unit -> View * W -> Prop) U :
  (forall a', entries a' = entries a -> vcapacity a' = vcapacity a -> von_evict a' = von_evict a -> Q tt (a', w)) ->
  wp (s_tracked (if b then s_hit else s_miss)) Q U (a, w).
Proof.
  intros HQ. unfold s_tracked. apply wp_bind, wp_gets. simpl.
  destruct (vtrack a); [|by apply wp_ret, HQ]. destruct b; by apply wp_modify, HQ.
Qed.

(** A conditional read: the value if the entry is valid, and the shard follows the same map. *)
Lemma s_get_if_inv i a m k valid w (Q : option E -> View * W -> Prop) U : view_inv i a m -> index_of d k = i ->
  (forall r a' w', view_inv i a' m -> answers true (Read k) m (val <$> r) m -> Q r (a', w')) ->
  (forall a' w', view_inv i a' m -> U (a', w')) ->
  wp (s_get_if k valid) Q U (a, w).
Proof.
  intros HV Hk HQ HU. unfold s_get_if. apply wp_bind, wp_gets. cbn [fst]. pose proof (view_told i a m k HV Hk) as Ht.
  unfold find_key in Ht. pose proof HV as ((D & _) & _). destruct (take_key k (entries a)) as [[e r]|] eqn:Et; cbn in Ht.
  - apply wp_bind, wp_user.
    + intros b w' _. destruct b.
      * apply wp_bind, wp_modify, wp_bind. cbn [fst snd]. apply (s_tracked_wp true). intros a' Ee Ec Eo. apply wp_ret.
        apply HQ; [|done]. apply (view_inv_same i (put_entries (e :: r) a)); [|done..].
        destruct (take_key_distinct _ _ _ _ D Et) as (_ & Pm & _). rewrite put_entries_evicted.
        apply (view_inv_less i a m _ []); [done|]. by symmetry.
      * apply wp_bind, (s_tracked_wp false). intros a' Ee Ec Eo. apply wp_ret.
        apply HQ; [|by eapply view_hidden]. by apply (view_inv_same i a).
    + intros w' _. by apply HU.
  - apply wp_bind, (s_tracked_wp false). intros a' Ee Ec Eo. apply wp_ret.
    apply HQ; [|done]. by apply (view_inv_same i a).
Qed.

Lemma get_if_wp (f : ST (C * W) (option E)) i c m k valid w (Q : option E -> C * W -> Prop) U :
  refines Rel f (s_get_if k valid) -> lru_inv i c m -> index_of d k = i ->
  (forall r c' w', lru_inv i c' m -> answers true (Read k) m (val <$> r) m -> Q r (c', w')) ->
  (forall c' w', lru_inv i c' m -> U (c', w')) ->
  wp f Q U (c, w).
Proof.
  intros Hf Hc Hk HQ HU. eapply shard_wp; [exact Hf|done|]. intros a HV. eapply s_get_if_inv; [done|done|..].
  - intros r a' w' HV' HA c' HM. apply HQ; [by exists a'|done].
  - intros a' w' HV' c' HM. apply HU. by exists a'.
Qed.

Lemma lru_get_if_wp i c m k valid w (Q : option E -> C * W -> Prop) U : lru_inv i c m -> index_of d k = i ->
  (forall r c' w', lru_inv i c' m -> answers true (Read k) m (val <$> r) m -> Q r (c', w')) ->
  (forall c' w', lru_inv i c' m -> U (c', w')) ->
  wp (Lru.get_if k valid) Q U (c, w).
Proof. intros Hc Hk HQ HU. by eapply get_if_wp; [apply get_if_refines|..]. Qed.

(** The same through a reference. *)
Lemma get_mut_value_refines k valid : refines (Rel (HT := HT)) (get_mut_value k valid) (s_get_if (K := K) (V := E) (W := W) k valid).
Proof.
  intros [c x] [a x'] [Ex HM]. simpl in *. subst x'. pose proof (get_mut_if_simulates k valid c a x HM) as Hs.
  unfold get_mut_value, bind. destruct (get_mut_if k valid (c, x)) as [[[i|]| |] [c1 x1]],
    (s_get_if k valid (a, x)) as [[r| |] [a1 x2]]; simpl in Hs; try done.
  - destruct Hs as [[E1 (e & occ & fre & HA)] ->]. simpl in *. subst x2.
    unfold Lru.self, gets, of_outcome. cbn [fst]. rewrite (slot_get_front _ _ _ _ _ _ HA).
    apply agree_ret; [by rewrite (models_entries _ _ _ _ HA)|by eapply Rel_at].
  - destruct Hs as [HR ->]. by apply agree_ret.
Qed.

Lemma lru_get_mut_wp i c m k valid w (Q : option E -> C * W -> Prop) U : lru_inv i c m -> index_of d k = i ->
  (forall r c' w', lru_inv i c' m -> answers true (Read k) m (val <$> r) m -> Q r (c', w')) ->
  (forall c' w', lru_inv i c' m -> U (c', w')) ->
  wp (get_mut_value k valid) Q U (c, w).
Proof. intros Hc Hk HQ HU. by eapply get_if_wp; [apply get_mut_value_refines|..]. Qed.

Definition s_update (k : K) (g : E -> E) : LruSpec.Spec K E W W unit :=
  let! a := s_self in
  match find_key k (entries a) with
  | Some e => s_entries (hm_update k (g e.2) (entries a))
  | None => ret tt
  end.

Lemma write_entry_refines k g : refines (Rel (HT := HT)) (write_entry k g) (s_update k g).
Proof.
  intros [c x] [a x'] [Ex HM]. simpl in *. subst x'. unfold write_entry, s_update. rewrite bind_self, bind_s_self.
  destruct (get_index_found c a k HM) as (oi & Ei & F). unfold hash. rewrite (bind_of_outcome _ _ _ _ Ei). unfold find_key.
  destruct F as [xs j e ys fre HA Hk|occ fre HA Hf]; [|apply agree_ret; [done|by split]].
  rewrite (bind_of_outcome _ _ _ _ (slot_get _ _ _ _ _ _ _ HA)).
  destruct (step_write c a xs j e ys fre (e.1, g e.2) x HA) as (c' & E2 & HA2); [apply keq_refl|]. rewrite E2.
  apply agree_done; [done|].
  assert (entries a = xs.*2 ++ e :: ys.*2) as Ea by (by rewrite (models_entries _ _ _ _ HA), fmap_app, fmap_cons).
  replace (hm_update k (g e.2) (entries a)) with ((xs ++ (j, (e.1, g e.2)) :: ys).*2); [by eapply Rel_at|].
  rewrite Ea, hm_update_split; [by rewrite fmap_app, fmap_cons| |done].
  pose proof (models_distinct _ _ HM) as D. rewrite Ea in D. apply distinct_mid in D as [_ Fr].
  apply fresh_app in Fr as [Fr _]. by eapply fresh_cong; [apply keq_sym|].
Qed.

Lemma write_entry_wp i c m k g w (Q : unit -> C * W -> Prop) U : lru_inv i c m -> index_of d k = i ->
  (forall x, val (g x) = val x) -> (forall c', lru_inv i c' m -> Q tt (c', w)) -> wp (write_entry k g) Q U (c, w).
Proof.
  intros Hc Hk Hg HQ. eapply shard_wp; [apply write_entry_refines|done|]. intros a (H1 & H2 & H3 & H4).
  unfold s_update. apply wp_bind, wp_gets. cbn [fst].
  destruct (find_key k (entries a)) as [e|] eqn:F.
  - apply wp_modify. intros c' HM. apply HQ. eexists. split; [exact HM|]. split_and!; [|done|done|].
    + by eapply map_inv_refresh.
    + intros Hcb. specialize (H4 Hcb). simpl. rewrite <- (length_fmap fst), hm_update_keys. by rewrite length_fmap.
  - apply wp_ret. intros c' HM. apply HQ. exists a. by split.
Qed.

(** A set, with the displaced entry or only its value. *)
Lemma s_put_inv i a m k x w (Q : option (K * E) -> View * W -> Prop) U : view_inv i a m -> index_of d k = i ->
  (forall r a' w', view_inv i a' (put k (Some (val x)) m) ->
     answers true (Write k (val x)) m (val <$> (snd <$> r)) (put k (Some (val x)) m) ->
     (forall e, r = Some e -> keq k e.1 = true) -> Q r (a', w')) ->
  (forall a' w', view_inv i a' (put k (Some (val x)) m) -> U (a', w')) ->
  wp (s_put k x) Q U (a, w).
Proof.
  intros HV Hk HQ HU. pose proof (view_told i a m k HV Hk) as [Ht _].
  eapply wp_mono; [apply (s_put_wp k x a w)|..].
  - intros r [a' w'] [-> E1]. simpl in E1. subst a'. apply HQ.
    + apply view_inv_put; [done|done|done|by right].
    + by split.
    + intros e He. exact (proj2 (find_key_Some _ _ _ He)).
  - intros [a' w'] (n & Hn & E1). simpl in E1. subst a'. apply HU. apply view_inv_put; [done|done|lia|left; lia].
Qed.

Lemma lru_set_wp i c m k x w (Q : option E -> C * W -> Prop) U : lru_inv i c m -> index_of d k = i ->
  (forall r c' w', lru_inv i c' (put k (Some (val x)) m) ->
     answers true (Write k (val x)) m (val <$> r) (put k (Some (val x)) m) -> Q r (c', w')) ->
  (forall c' w', lru_inv i c' (put k (Some (val x)) m) -> U (c', w')) ->
  wp (Lru.cache_set k x) Q U (c, w).
Proof.
  intros Hc Hk HQ HU. eapply shard_wp; [apply cache_set_spec|done|]. intros a HV. apply wp_bind.
  eapply s_put_inv; [done|done|..].
  - intros r a' w' HV' Ha _. apply wp_ret. intros c' HM'. apply HQ; [by exists a'|]. done.
  - intros a' w' HV' c' HM'. apply HU. by exists a'.
Qed.

Lemma lru_set_returning_wp i c m k x w (Q : option (K * E) -> C * W -> Prop) U : lru_inv i c m -> index_of d k = i ->
  (forall r c' w', lru_inv i c' (put k (Some (val x)) m) ->
     answers true (Write k (val x)) m (val <$> (snd <$> r)) (put k (Some (val x)) m) ->
     (forall e, r = Some e -> keq k e.1 = true) -> Q r (c', w')) ->
  (forall c' w', lru_inv i c' (put k (Some (val x)) m) -> U (c', w')) ->
  wp (Lru.cache_set_returning_entry k x) Q U (c, w).
Proof.
  intros Hc Hk HQ HU. eapply shard_wp; [apply cache_set_returning_entry_refines|done|]. intros a HV.
  eapply s_put_inv; [done|done|..].
  - intros r a' w' HV' Ha He c' HM'. apply HQ; [by exists a'|done|done].
  - intros a' w' HV' c' HM'. apply HU. by exists a'.
Qed.

(** The entry just set is there; only a panic of the callback unwinds. *)
Lemma lru_set_front_wp i c m k x w : lru_inv i c m -> index_of d k = i ->
  wp (Lru.cache_set k x) (fun _ s => exists a, models s.1 a /\ find_key k (entries a) = Some (k, x))
    (fun _ => ~ callback_total cb) (c, w).
Proof.
  intros Hc Hk. eapply shard_wp; [apply cache_set_spec|done|]. intros a (H1 & H2 & [H3 _] & H4).
  assert (callback_total cb -> wp (s_cache_set k x) (fun _ _ => True) (fun _ => False) (a, w)) as Hsafe.
  { intros Hcb. eapply wp_mono; [apply (safe_bind (s_put k x))| |].
    - unfold s_put. apply safe_self. intros a0. destruct (take_key k (entries a0)) as [[e r]|];
        (apply safe_bind; [apply safe_entries|intros _; apply safe_bind; [apply safe_trim|intros _; apply safe_ret]]).
    - intros r. apply safe_ret.
    - split; [done|]. by rewrite H2.
    - done.
    - done. }
  pose proof (s_cache_set_wp k x a w) as Hw. unfold wp in *.
  destruct (s_cache_set k x (a, w)) as [[r| |] [a' w']]; [| |done].
  - destruct Hw as [_ Ea]. simpl in Ea. subst a'. intros c' HM. eexists. split; [exact HM|]. simpl.
    destruct (Z.to_nat (vcapacity a)) eqn:En; [lia|]. simpl. rewrite find_key_cons. simpl. by rewrite keq_refl.
  - by intros c' _ ?%Hsafe.
Qed.

Lemma lru_get_present c a k e w : models c a -> find_key k (entries a) = Some e ->
  wp (Lru.cache_get (X := W) k) (fun r _ => r = Some e.2) (fun _ => False) (c, w).
Proof.
  intros HM F. eapply wp_mono; [eapply (lru_wp _ _ _ _ _ _ _ (get_if_refines k (fun _ x => (Some true, x))) HM)|..].
  - unfold s_get_if. apply wp_bind, wp_gets. cbn [fst]. unfold find_key in F.
    destruct (take_key k (entries a)) as [[e' r]|]; [|done]. injection F as ->.
    apply wp_bind. unfold wp at 1, user. simpl. apply wp_bind, wp_modify, wp_bind. unfold s_tracked.
    apply wp_bind, wp_gets. cbn [fst]. instantiate (1 := fun _ => False).
    instantiate (1 := fun r _ => r = Some e.2). by case_match.
  - by intros r s (a' & _ & ->).
  - by intros s (a' & _ & []).
Qed.

(** Removals. *)
Lemma pop_raw_wp i c m k w (Q : option (K * E) -> C * W -> Prop) U : lru_inv i c m -> index_of d k = i ->
  (forall r c', lru_inv i c' (put k None m) ->
     answers true (Erase k) m (val <$> (snd <$> r)) (put k None m) ->
     (forall e, r = Some e -> keq k e.1 = true) -> lru_inv i c' m -> Q r (c', w)) ->
  wp (Lru.pop_raw k) Q U (c, w).
Proof.
  intros Hc Hk HQ. eapply shard_wp; [apply pop_raw_refines|done|]. intros a HV.
  pose proof (view_told i a m k HV Hk) as [Ht _]. pose proof (view_inv_erase i a m k HV Hk) as HE.
  unfold s_pop. apply wp_bind, wp_gets. simpl. unfold drop_key, find_key in *.
  destruct (take_key k (entries a)) as [[e r]|] eqn:Et.
  - apply wp_bind, wp_modify, wp_ret. intros c' HM'. destruct (take_key_Some _ _ _ _ Et) as (xs & ys & Es & Er & Hke & _).
    apply HQ; [by eexists|by split|by intros e' [= <-]|]. eexists. split; [exact HM'|]. rewrite put_entries_evicted.
    apply (view_inv_less i a m r [e]); [done|]. rewrite Es, Er. simpl. by rewrite Permutation_middle.
  - apply wp_ret. intros c' HM'. apply HQ; [|by split|done|by exists a].
    exists a. split; [done|]. by eapply view_inv_same.
Qed.

Lemma count_wp i c m n w (Q : unit -> C * W -> Prop) U : lru_inv i c m ->
  (forall c', lru_inv i c' m -> Q tt (c', w)) -> wp (Lru.count_evictions n) Q U (c, w).
Proof.
  intros Hc HQ. eapply shard_wp; [apply count_refines|done|]. intros a HV.
  apply wp_modify. intros c' HM'. apply HQ. eexists. split; [done|]. by eapply view_inv_same.
Qed.

Lemma pop_counted_wp i c m k w (Q : option (K * E) -> C * W -> Prop) U : lru_inv i c m -> index_of d k = i ->
  (forall r c', lru_inv i c' (put k None m) ->
     answers true (Erase k) m (val <$> (snd <$> r)) (put k None m) ->
     (forall e, r = Some e -> keq k e.1 = true) -> Q r (c', w)) ->
  wp (pop_counted k) Q U (c, w).
Proof.
  intros Hc Hk HQ. apply wp_bind. eapply pop_raw_wp; [done|done|]. intros r c' HI Ha He _.
  apply wp_bind. destruct r as [e|].
  - eapply count_wp; [done|]. intros c2 HI2. apply wp_ret. by apply HQ.
  - apply wp_ret, wp_ret. by apply HQ.
Qed.

Lemma drain_all_wp i c m on w (Q : list (K * E) -> C * W -> Prop) U : lru_inv i c m ->
  (forall k, index_of d k = i -> on k = true) ->
  (forall l c', lru_inv i c' (fun k => if on k then None else m k) -> Q l (c', w)) ->
  wp Lru.drain_all Q U (c, w).
Proof.
  intros Hc Ho HQ. eapply shard_wp; [apply drain_all_refines|done|]. intros a HV.
  unfold s_drain. apply wp_bind, wp_gets. cbn [fst]. apply wp_bind, wp_modify, wp_ret. intros c' HM'.
  apply HQ. eexists. split; [done|]. by apply view_inv_nil.
Qed.

Lemma drain_wp i c m on w (Q : list (K * E) -> C * W -> Prop) U : lru_inv i c m ->
  (forall k, index_of d k = i -> on k = true) ->
  (forall l c', lru_inv i c' (fun k => if on k then None else m k) -> Q l (c', w)) ->
  wp (let! removed := Lru.drain_all in count_removed removed ;; ret removed) Q U (c, w).
Proof.
  intros Hc Ho HQ. apply wp_bind. eapply drain_all_wp; [done|done|]. intros l c' HI.
  apply wp_bind. unfold count_removed. case_decide; [by apply wp_ret, wp_ret, HQ|].
  eapply count_wp; [done|]. intros c2 HI2. by apply wp_ret, HQ.
Qed.

Lemma clear_wp i c m on w (Q : unit -> C * W -> Prop) U : lru_inv i c m ->
  (forall k, index_of d k = i -> on k = true) ->
  (forall c', lru_inv i c' (fun k => if on k then None else m k) -> Q tt (c', w)) ->
  wp Lru.cache_clear Q U (c, w).
Proof.
  intros Hc Ho HQ. eapply shard_wp; [apply cache_clear_spec|done|]. intros a HV.
  apply wp_modify. intros c' HM'. apply HQ. eexists. split; [done|]. by apply view_inv_nil.
Qed.

Lemma reset_metrics_wp i c m w (Q : unit -> C * W -> Prop) U : lru_inv i c m ->
  (forall c', lru_inv i c' m -> Q tt (c', w)) -> wp Lru.cache_reset_metrics Q U (c, w).
Proof.
  intros Hc HQ. eapply shard_wp; [apply reset_metrics_spec|done|]. intros a HV.
  do 2 apply wp_bind, wp_modify. apply wp_modify. intros c' HM'. apply HQ.
  eexists. split; [done|]. by eapply view_inv_same.
Qed.

(** Resizing: a lossy step that no map operation is needed for. *)
Lemma set_max_size_wp i c m n w : 0 < n -> capok n -> lru_inv i c m ->
  wp (Lru.set_max_size n) (fun _ s => lru_inv i s.1 m) (fun s => lru_inv i s.1 m) (c, w).
Proof.
  intros Hn Hok Hc. eapply shard_wp; [apply set_max_size_spec|done|]. intros a (H1 & H2 & H3 & H4).
  assert (fixed_capacity -> n = vcapacity a) as Hsame by (intros [per Hf]; by rewrite (Hf n Hok), (Hf _ (proj2 H3))).
  assert (forall k l, (Z.to_nat n <= k)%nat -> (callback_total cb -> k = Z.to_nat n) -> l = take k (entries a) ->
    forall j, view_inv i (evicted l j (put_capacity n a)) m) as Hfits.
  { intros k l Hk Hcb -> j. split_and!; [|done|done|].
    - eapply map_inv_sublist; [done|exact H1|]. simpl. rewrite Permutation_app_comm. by rewrite take_drop.
    - intros Hc'. specialize (H4 Hc'). simpl. rewrite length_take. destruct Hc' as [Hc'|Hf]; [rewrite (Hcb Hc'); lia|].
      specialize (Hsame Hf). lia. }
  assert (callback_total cb -> wp (s_set_max_size n) (fun _ _ => True) (fun _ => False) (a, w)) as Hsafe.
  { intros Hcb. unfold s_set_max_size. destruct (Z.leb_spec n 0); [lia|]. apply wp_bind, wp_gets. simpl.
    apply wp_bind, wp_modify. simpl. apply wp_bind. eapply wp_mono; [apply safe_trim|done|done].
    split; [done|]. simpl. by rewrite H2. }
  pose proof (s_set_max_size_wp n a w Hn) as Hw. unfold wp in *.
  destruct (s_set_max_size n (a, w)) as [[r| |] [a' w']]; [| |done].
  - destruct Hw as [_ Ea]. simpl in Ea. subst a'. intros c' HM'. eexists. split; [exact HM'|].
    by eapply (Hfits (Z.to_nat n)).
  - destruct Hw as (k & Hk & Ea). simpl in Ea. subst a'. intros c' HM'. eexists. split; [exact HM'|].
    eapply (Hfits k); [lia|by intros ?%Hsafe|done].
Qed.

(** *** Sweeps *)

(** What the selection pass picks, and what it said of the rest. *)
Lemma select_said {S} (doomed : K -> E -> User W bool) (l : list (K * E)) (c : S) w :
  wp (filter_each l (fun e => user (doomed e.1 e.2)))
    (fun r s => s.1 = c /\ exists rest, r ++ rest ≡ₚ l /\ Forall (said doomed true) r /\ Forall (said doomed false) rest)
    (fun s => s.1 = c) (c, w).
Proof.
  revert w. induction l as [|e l IH]; intros w; simpl; [apply wp_ret; split; [done|by exists []]|].
  apply wp_bind, wp_user; [|done]. intros b w1 E1. apply wp_bind. eapply wp_mono; [apply IH| |done].
  intros r s (Hs & rest & Hp & H1 & H2). apply wp_ret. split; [done|].
  assert (said doomed b e) as Hb by (by exists w, w1). destruct b.
  - exists rest. split_and!; [by simpl; rewrite Hp|by constructor|done].
  - exists (e :: rest). split_and!; [by rewrite <- Permutation_middle, Hp|done|by constructor].
Qed.

(** The removal pass, abstractly. *)
Fixpoint s_pop_each (doomed : list K) : LruSpec.Spec K E W W (list (K * E)) :=
  match doomed with
  | [] => ret []
  | k :: doomed =>
      let! popped := s_pop k in
      let! removed := s_pop_each doomed in
      ret (match popped with Some e => e :: removed | None => removed end)
  end.

Lemma pop_each_refines doomed : refines (Rel (HT := HT)) (pop_each doomed) (s_pop_each doomed).
Proof.
  induction doomed as [|k doomed IH]; [apply refines_ret|]. apply refines_bind; [apply pop_raw_refines|].
  intros popped. apply refines_bind; [done|]. intros removed. apply refines_ret.
Qed.

Lemma s_pop_each_wp (l rest : list (K * E)) a w : l ++ rest ≡ₚ entries a -> distinct (entries a) ->
  wp (s_pop_each (fst <$> l)) (fun r s => r = l /\ exists es, s.1 = put_entries es a /\ es ≡ₚ rest) (fun _ => False) (a, w).
Proof.
  revert a w. induction l as [|e l IH]; intros a w Hp D; simpl.
  { apply wp_ret. split; [done|]. exists (entries a). split; [by destruct a|by symmetry]. }
  assert (find_key e.1 (entries a) = Some e) as F by (apply distinct_find; [done|]; rewrite <- Hp; by left).
  unfold find_key in F. apply wp_bind. unfold s_pop. apply wp_bind, wp_gets. simpl.
  destruct (take_key e.1 (entries a)) as [[e' r]|] eqn:Et; [|done]. injection F as ->.
  destruct (take_key_distinct _ _ _ _ D Et) as (_ & Pm & Dr & _).
  apply wp_bind, wp_modify, wp_ret, wp_bind. eapply wp_mono; [apply (IH (put_entries r a))| |done].
  - simpl. apply (Permutation_cons_inv (a := e)). by rewrite <- Pm.
  - done.
  - intros r' [a' w'] (-> & es & Ea & He). simpl in Ea. subst a'. apply wp_ret. split; [done|]. by exists es.
Qed.

Lemma sweep_doomed_wp i c m (doomed : K -> E -> User W bool) (kept dropped : K -> V -> Prop) w : lru_inv i c m ->
  (forall e k, said doomed true e -> keq k e.1 = true -> dropped k (val e.2)) ->
  (forall e k, said doomed false e -> keq k e.1 = true -> kept k (val e.2)) ->
  wp (sweep_doomed doomed)
    (fun _ s => lru_inv i s.1 m /\
       exists m', answers true (Filter (fun k => Nat.eqb (index_of d k) i) kept dropped) m None m' /\ lru_inv i s.1 m')
    (fun s => lru_inv i s.1 m) (c, w).
Proof.
  intros Hc Hd1 Hd2. pose proof Hc as (a & HM & HV). pose proof HV as (H1 & H2 & H3 & H4). pose proof (proj1 H1) as D.
  unfold sweep_doomed. apply wp_bind, wp_gets. cbn [fst]. apply wp_bind.
  apply (wp_of_outcome _ (entries a)); [by apply iter_models|]. apply wp_bind.
  eapply wp_mono; [apply (select_said doomed (entries a) c w)| |intros s ->; done].
  intros r [c1 w1] (E1 & rest & Hp & Hr & Hrest). simpl in E1. subst c1. rewrite Forall_forall in Hr, Hrest.
  eapply wp_mono; [apply (lru_wp _ _ _ _ _ _ _ (pop_each_refines (fst <$> r)) HM (s_pop_each_wp r rest a w1 Hp D))| |].
  2: by intros s (a' & _ & []).
  intros removed [c2 w2] (a' & HM' & -> & es & Ea & Hes). cbn [fst snd] in Ea, HM'. subst a'.
  assert (forall m', map_inv (index_of d) true val i es m' -> lru_inv i c2 m') as Hpart.
  { intros m' HI'. eexists. split; [exact HM'|]. split_and!; [done..|]. intros Hcb. specialize (H4 Hcb).
    apply Permutation_length in Hp. apply Permutation_length in Hes. rewrite length_app in Hp. simpl. lia. }
  split; [apply Hpart; eapply (map_inv_sublist _ _ _ _ _ _ r); [done|exact H1|by rewrite Hes]|].
  destruct (map_inv_filter (index_of d) true val i (entries a) es r m kept dropped None H1) as (m' & HA & HI').
  - by rewrite Hes.
  - intros e k He. by apply Hd1, Hr.
  - intros e k He. rewrite Hes in He. by apply Hd2, Hrest.
  - exists m'. exact (conj HA (Hpart _ HI')).
Qed.

Lemma sweep_wp i c m (doomed : K -> E -> User W bool) (kept dropped : K -> V -> Prop) w : lru_inv i c m ->
  (forall e k, said doomed true e -> keq k e.1 = true -> dropped k (val e.2)) ->
  (forall e k, said doomed false e -> keq k e.1 = true -> kept k (val e.2)) ->
  wp (let! removed := sweep_doomed doomed in count_removed removed ;; ret removed)
    (fun _ s => exists m', answers true (Filter (fun k => Nat.eqb (index_of d k) i) kept dropped) m None m' /\ lru_inv i s.1 m')
    (fun s => lru_inv i s.1 m) (c, w).
Proof.
  intros Hc Hd1 Hd2. apply wp_bind. eapply wp_mono; [by apply (sweep_doomed_wp i c m doomed kept dropped w)| |done].
  intros removed [c2 w2] (_ & m' & HA & HI2). apply wp_bind. unfold count_removed. case_decide.
  - apply wp_ret, wp_ret. exists m'. exact (conj HA HI2).
  - eapply count_wp; [exact HI2|]. intros c3 HI3. apply wp_ret. exists m'. exact (conj HA HI3).
Qed.

(** *** Construction *)

Lemma build_shard_models alloc (cb' : OnEvict K E W) per c : 0 <= per -> build_shard (HT := HT) alloc cb' per = Ok c ->
  0 < per /\ models c (mkView [] per 0 0 0 cb' false).
Proof.
  intros Hper Ec. unfold build_shard in Ec. destruct (Lru.build alloc _) as [lru|e] eqn:El; [|done]. injection Ec as <-.
  destruct (build_models alloc (Lru.builder_max_size per Lru.builder) per lru eq_refl Hper El) as (Hp & occ & fre & [H1 H2 H3 H4] & Ea).
  injection Ea as Eo Eper Eh Em Ee _ _. split; [done|]. exists occ, fre. split; [by split|]. simpl.
  by rewrite <- Eo, <- Eper, <- Eh, <- Em, <- Ee.
Qed.

Lemma build_shards_inv alloc per n l : 0 <= per -> capok per -> build_shards (HT := HT) alloc cb per n = Ok l ->
  length l = n /\ forall s, s ∈ l -> (forall i, lru_inv i (content s) (fun _ => None)) /\ capacity (content s) = per.
Proof.
  intros Hper Hok. revert l. induction n as [|n IH]; intros l; simpl; [intros [= <-]; split; [done|by intros s ?%elem_of_nil]|].
  destruct (build_shard alloc cb per) as [c|e] eqn:Ec; [|done]. destruct (build_shards alloc cb per n) as [l'|e]; [|done].
  intros [= <-]. destruct (IH l' eq_refl) as [Hl Hi]. simpl. split; [by rewrite Hl|].
  destruct (build_shard_models alloc cb per c Hper Ec) as [Hp HM].
  assert ((forall i, lru_inv i c (fun _ => None)) /\ capacity c = per) as Hc.
  { split; [|by destruct HM as (occ & fre & _ & Ea); injection Ea]. intros i. eexists. split; [exact HM|].
    split_and!; [split_and!; [done|by intros e He%elem_of_nil|by intros k _; left]|done|done|]. intros _. simpl. lia. }
  intros s [->|Hs]%elem_of_cons; [done|by apply Hi].
Qed.
End LruLayout.

Lemma resolve_sizes_spec p shards max_size per_shard n per total :
  resolve_sizes p shards max_size per_shard = Ok (n, per, total) ->
  match shards with Some s => 0 <= s | None => True end ->
  match max_size with Some s => 0 <= s | None => True end ->
  match per_shard with Some s => 0 <= s | None => True end ->
  power_of_two n /\ 1 <= n <= usize_max /\ 0 < per /\ total = n * per /\ total <= usize_max.
Proof.
  unfold resolve_sizes. destruct (resolve_shard_count p shards max_size) as [n'|] eqn:En; [|done].
  destruct (resolve_per_shard_cap max_size per_shard n') as [per'|] eqn:Ep; [|done].
  destruct (total_capacity per_shard n' per') as [t'|] eqn:Et; [|done]. intros [= -> -> ->] H1 H2 H3.
  unfold total_capacity, checked_mul in Et. destruct (Z.leb_spec (n * per) usize_max) as [Ht|]; [|done].
  injection Et as <-.
  assert (power_of_two n /\ 1 <= n <= usize_max) as [Hn Hn'].
  { unfold resolve_shard_count in En. destruct shards as [s|].
    - unfold checked_shard_count in En. destruct (bool_decide _) eqn:Eb; [done|]. simpl in En.
      unfold checked_next_power_of_two in En. destruct (Z.leb_spec (next_power_of_two s) usize_max); [|done].
      injection En as <-. split; [apply next_power_is_power|].
      assert (s <> 0) by (intros ->; by rewrite bool_decide_true in Eb). pose proof (next_power_le s). lia.
    - injection En as <-. destruct (default_shard_count_spec p) as [Hd1 Hd2].
      destruct max_size as [k|]; simpl; [|split; [done|unfold usize_max; lia]].
      split; [apply clamp_power; [apply next_power_is_power|done]|]. unfold clamp, usize_max. lia. }
  split_and!; try done; [lia|lia|]. unfold resolve_per_shard_cap in Ep. destruct max_size as [t|], per_shard as [q|]; try done.
  - destruct (Z.eqb_spec t 0); [done|]. injection Ep as <-.
    pose proof (div_ceil_spec t n ltac:(lia) ltac:(lia)). pose proof (Z.mod_pos_bound (- t) n ltac:(lia)).
    assert (0 < div_ceil t n) by nia. destruct (1 <? n); lia.
  - destruct (Z.eqb_spec q 0); [done|]. injection Ep as <-. lia.
Qed.

(** *** Resizing *)
Lemma checked_cap_pos n k per total : 0 < n -> 0 < k -> checked_per_shard_cap_from_total n k = Ok (per, total) -> 0 < per.
Proof.
  intros Hn Hk. unfold checked_per_shard_cap_from_total, checked_mul. destruct (_ <=? _); [|done]. intros [= <- _].
  pose proof (div_ceil_spec n k ltac:(lia) ltac:(lia)). pose proof (Z.mod_pos_bound (- n) k ltac:(lia)).
  assert (0 < div_ceil n k) by nia. destruct (1 <? k); lia.
Qed.

Section ResizeSafe.
Context {K E V W HT G F : Type} `{!KeyEq K, !KeyLaws K, !HashTable HT, !HashTableLaws HT}.
Context (val : E -> V) (d : Inner K V W) (Hd : proper d) (cb : OnEvict K E W) (capok : Z -> Prop) (gok : G -> Prop).
Context (publish : Z -> G -> Z * G) (capok_any : forall n, capok n) (gok_any : forall g, gok g).
Notation L := (lru_layout (HT := HT) val d Hd cb capok gok).
Notation Rep := (Reply K V (F + SetMaxSizeError)).

Lemma shard_len_pos : (0 < shard_len d)%nat.
Proof. destruct Hd as [(e & He & Ee) _ _ _]. pose proof (Z.pow_pos_nonneg 2 e ltac:(lia) He). lia. Qed.

Lemma resize_shards_silent per : 0 < per ->
  does_all L [] (piter (each d) (fun i => with_write i (Lru.set_max_size per) ;;; Ret tt)).
Proof.
  intros Hp. apply (each_silent_iter d); [done|]. intros i Hi. apply does_none_then; [|intros _; silent].
  apply with_write_quiet; [done|]. intros s m w HI. by apply (set_max_size_wp val).
Qed.

(** What a resize answers. *)
Definition resize_spec (n : Z) : Spec K V Rep := Returns (fun _ => 0 < n).
Definition try_resize_spec (n : Z) : Spec K V Rep := Returns (fun a =>
  if n =? 0 then a = Failed (inr ZeroMaxSize) else
  match checked_per_shard_cap_from_total n (Z.of_nat (shard_len d)) with
  | Err e => a = Failed (inr e)
  | Ok _ => exists prev, a = Numbers [Some prev]
  end).

Lemma resize_then {A} (q : Spec K V Rep) n (k : option Z -> Prog (LruCache K E W HT) G W A) Q :
  (forall prev, 0 < n -> safely L None q (k (Some prev)) Q) -> safely L None q (let* r := resize d publish n in k r) Q.
Proof.
  intros Hk. unfold resize. destruct (Z.leb_spec n 0) as [|Hn]; [done|].
  unfold per_shard_cap_from_total. destruct (checked_per_shard_cap_from_total _ _) as [[per total]|e] eqn:E1; [|done].
  apply checked_cap_pos in E1; [|done|pose proof shard_len_pos; lia].
  apply call_bind, (does_all_bind L []); [by apply resize_shards_silent|].
  intros _. apply (global_then L). intros g Hg. split; [by apply gok_any|]. by apply Hk.
Qed.

Lemma resize_safe n : safely L None (resize_spec n) (let* r := resize d publish n in Ret (Numbers [r])) (post ends).
Proof. apply resize_then. intros prev Hn. by apply post_ret. Qed.

Lemma try_resize_safe n : safely L None (try_resize_spec n)
  (let* r := try_resize d publish n in Ret (match r with Ok prev => Numbers [prev] | Err e => Failed (inr e) end)) (post ends).
Proof.
  unfold try_resize, try_resize_spec. destruct (Z.eqb_spec n 0) as [->|Hn]; [by apply post_ret|].
  destruct (checked_per_shard_cap_from_total _ _) as [pt|e] eqn:E1; [|by apply post_ret].
  apply call_bind, resize_then. intros prev Hn'. split; [done|]. apply post_ret. by exists prev.
Qed.
End ResizeSafe.

(** ** A freshly built store *)
Definition nonneg (o : option Z) : Prop := match o with Some n => 0 <= n | None => True end.

(** The sizes a builder was given are unsigned. *)
Definition sizes_ok (shards max_size per_shard_max_size : option Z) : Prop :=
  nonneg shards /\ nonneg max_size /\ nonneg per_shard_max_size.

Section BuiltShards.
Context {K E V W HT G : Type} `{!KeyEq K, !KeyLaws K, !HashTable HT, !HashTableLaws HT}.
Context (val : E -> V) (p : option Z) (alloc : Z -> bool).

Lemma built_shards_follow shards max_size per_shard n per total (h : K -> Z) (f : OnEvict K V W) cb l (g : G) (capok : Z -> Prop) :
  sizes_ok shards max_size per_shard -> hash_ok h -> resolve_sizes p shards max_size per_shard = Ok (n, per, total) ->
  capok per -> build_shards (HT := HT) alloc cb per (Z.to_nat n) = Ok l ->
  exists Hd : proper (mkInner (Z.to_nat n) (n - 1) h f),
    follows_map (lru_layout val (mkInner (Z.to_nat n) (n - 1) h f) Hd cb capok (fun _ => True)) (mkMemory l g) (fun _ => None).
Proof.
  intros (H1 & H2 & H3) Hh Er Hok Eb. destruct (resolve_sizes_spec _ _ _ _ _ _ _ Er H1 H2 H3) as (Hp & Hn & Hper & _).
  exists (built_proper n h f Hp (proj1 Hn) Hh).
  destruct (build_shards_inv val (mkInner (Z.to_nat n) (n - 1) h f) cb capok alloc per (Z.to_nat n) l ltac:(lia) Hok Eb) as [Hl Hi].
  split_and!; [done| |done]. intros i s Hs. by apply Hi, (list_elem_of_lookup_2 _ _ _ Hs).
Qed.
End BuiltShards.
