(* ===== verification/ShardedLru.v ===== *)
(** * The sharded LRU store ([src/stores/sharded/lru.rs])

    Shards of [LruCache]s that do not count hits and misses themselves.  A read promotes its
    entry, so it takes the write lock.  The callback runs under the shard's lock when the shard
    evicts for capacity, and after the lock has been released in every other case. *)
From Stdlib Require Import String.
From S2P Require Import Prelude Keys Stores LruList HashTable Lru Sharded Shards Concurrent ShardOps LruShards.
#[local] Close Scope string_scope.

Section ShardedLru.
Context {K V W HT : Type} `{!KeyEq K, !HashTable HT}.
Notation Store := (LruCache K V W HT).
(** [total_capacity] *)
Notation P := (Prog Store Z W).
Notation Mem := (Memory Store Z).

(** The handle behind the [Arc]. *)
Record ShardedLruCache : Type := mkSharded { inner : Inner K V W }.

Definition shard_of (c : ShardedLruCache) (k : K) : nat := index_of (inner c) k.

(** *** [ConcurrentCached] *)

Definition cache_get (c : ShardedLruCache) (k : K) : P (option V) :=
  let shard := shard_of c k in
  let* value := with_write shard (Lru.cache_get k) in
  match value with
  | Some v => add_hits shard 1 ;;; Ret (Some v)
  | None => add_misses shard 1 ;;; Ret None
  end.

Definition cache_set (c : ShardedLruCache) (k : K) (v : V) : P (option V) :=
  with_write (shard_of c k) (Lru.cache_set k v).

Definition cache_remove_entry (c : ShardedLruCache) (k : K) : P (option (K * V)) :=
  let* removed := with_write (shard_of c k) (pop_counted k) in
  match removed with
  | Some e => notify (inner c) e ;;; Ret removed
  | None => Ret removed
  end.

Definition cache_remove (c : ShardedLruCache) (k : K) : P (option V) :=
  let* r := cache_remove_entry c k in Ret (snd <$> r).

Definition clear (c : ShardedLruCache) : P unit := piter (each (inner c)) (fun i => with_write i Lru.cache_clear).
Definition cache_clear : ShardedLruCache -> P unit := clear.

Definition cache_reset_metrics (c : ShardedLruCache) : P unit :=
  piter (each (inner c)) (fun i => reset_hits i ;;; reset_misses i ;;; with_write i Lru.cache_reset_metrics).

Definition cache_reset (c : ShardedLruCache) : P unit := clear c ;;; cache_reset_metrics c.

Definition cache_contains (c : ShardedLruCache) (k : K) : P bool :=
  with_read (shard_of c k) (fun s => let! r := of_outcome (Lru.cache_peek s k) in ret (is_some r)).

Definition peek (c : ShardedLruCache) (k : K) : P (option V) :=
  with_read (shard_of c k) (fun s => of_outcome (Lru.cache_peek s k)).

#[global] Instance lru_concurrent : ConcurrentCached ShardedLruCache Store Z K V W := {|
  Concurrent.cache_get := cache_get;
  Concurrent.cache_set := cache_set;
  Concurrent.cache_remove := cache_remove;
  Concurrent.cache_remove_entry := cache_remove_entry;
  Concurrent.cache_contains := cache_contains;
  Concurrent.cache_clear := cache_clear;
  Concurrent.cache_reset := cache_reset;
  Concurrent.cache_reset_metrics := cache_reset_metrics |}.
#[global] Instance lru_concurrent_peek : ConcurrentCachePeek ShardedLruCache Store Z K V W := {|
  Concurrent.cache_peek := peek |}.

(** *** Inherent methods *)

Definition shard_sizes (c : ShardedLruCache) : P (list Z) := sizes (inner c) Lru.cache_size.
Definition len (c : ShardedLruCache) : P Z := let* l := shard_sizes c in Ret (wrapping_sum l).
Definition is_empty (c : ShardedLruCache) : P bool := all_empty Lru.cache_size (each (inner c)).
Definition shards (c : ShardedLruCache) : nat := shard_len (inner c).
Definition capacity (c : ShardedLruCache) : P Z := global (fun total => (total, total)).

Definition cache_size (c : ShardedLruCache) : P (option Z) := let* n := len c in Ret (Some n).
Definition cache_hits (c : ShardedLruCache) : P (option Z) := let* n := sum_of (inner c) load_hits in Ret (Some n).
Definition cache_misses (c : ShardedLruCache) : P (option Z) := let* n := sum_of (inner c) load_misses in Ret (Some n).
Definition cache_evictions (c : ShardedLruCache) : P (option Z) :=
  let* n := sum_of (inner c) (fun i => with_read i (fun s => ret (Lru.evictions s))) in Ret (Some n).
Definition cache_capacity (c : ShardedLruCache) : P (option Z) := let* n := capacity c in Ret (Some n).

Definition metrics (c : ShardedLruCache) : P CacheMetrics :=
  let* l := pmap (each (inner c)) (fun i =>
    let* h := load_hits i in
    let* m := load_misses i in
    let* en := with_read i (fun s : Store => ret (Lru.evictions s, Lru.cache_size s)) in
    Ret (h, m, en)) in
  let* total := capacity c in
  Ret (mkMetrics (Some (wrapping_sum (l.*1.*1))) (Some (wrapping_sum (l.*1.*2)))
         (Some (wrapping_sum (l.*2.*1))) (Some (wrapping_sum (l.*2.*2))) (Some total)).

Definition cache_clear_with_on_evict (c : ShardedLruCache) : P unit :=
  piter (each (inner c)) (fun i =>
    let* removed := with_write i (let! removed := Lru.drain_all in count_removed removed ;; ret removed) in
    notify_all (inner c) removed).

Definition retain (c : ShardedLruCache) (keep : K -> V -> User W bool) : P Z :=
  sweep_shards (inner c) (fun i =>
    with_write i (let! removed := sweep_doomed (rejected keep) in count_removed removed ;; ret removed)).

Definition swap_total (total_cap total : Z) : Z * Z := (total, total_cap).
Definition set_max_size (c : ShardedLruCache) (max_size : Z) : P (option Z) := resize (inner c) swap_total max_size.
Definition try_set_max_size (c : ShardedLruCache) (max_size : Z) : P (result SetMaxSizeError (option Z)) :=
  try_resize (inner c) swap_total max_size.

Definition deep_clone (c : ShardedLruCache) : P (ShardedLruCache * Mem) :=
  let* l := pmap (each (inner c)) clone_shard in
  let* total := capacity c in
  Ret (c, mkMemory l total).

(** *** The builder *)

Record ShardedLruCacheBuilder : Type := mkBuilder {
  b_shards : option Z; b_max_size : option Z; b_per_shard_max_size : option Z;
  b_hasher : option (K -> Z); b_on_evict : OnEvict K V W }.

(** [Default]: the default hasher. *)
Definition builder (default_hasher : K -> Z) : ShardedLruCacheBuilder :=
  mkBuilder None None None (Some default_hasher) None.
Definition builder_max_size (n : Z) (b : ShardedLruCacheBuilder) :=
  mkBuilder (b_shards b) (Some n) (b_per_shard_max_size b) (b_hasher b) (b_on_evict b).
Definition builder_per_shard_max_size (n : Z) (b : ShardedLruCacheBuilder) :=
  mkBuilder (b_shards b) (b_max_size b) (Some n) (b_hasher b) (b_on_evict b).
Definition builder_shards (n : Z) (b : ShardedLruCacheBuilder) :=
  mkBuilder (Some n) (b_max_size b) (b_per_shard_max_size b) (b_hasher b) (b_on_evict b).
Definition builder_hasher (h : K -> Z) (b : ShardedLruCacheBuilder) :=
  mkBuilder (b_shards b) (b_max_size b) (b_per_shard_max_size b) (Some h) (b_on_evict b).
Definition builder_on_evict (f : K -> V -> User W unit) (b : ShardedLruCacheBuilder) :=
  mkBuilder (b_shards b) (b_max_size b) (b_per_shard_max_size b) (b_hasher b) (Some f).

Context (available_parallelism : option Z) (try_reserve_exact : Z -> bool).

Definition build (b : ShardedLruCacheBuilder) : outcome (result BuildError (ShardedLruCache * Mem)) :=
  match resolve_sizes available_parallelism (b_shards b) (b_max_size b) (b_per_shard_max_size b) with
  | Err e => Done (Err e)
  | Ok (n, per_shard_cap, total_cap) =>
      match build_shards try_reserve_exact (b_on_evict b) per_shard_cap (Z.to_nat n) with
      | Err e => Done (Err e)
      | Ok shards =>
          let? h := expect (b_hasher b) in
          Done (Ok (mkSharded (mkInner (Z.to_nat n) (n - 1) h (b_on_evict b)), mkMemory shards total_cap))
      end
  end.

Definition new (default_hasher : K -> Z) (max_size : Z) : outcome (ShardedLruCache * Mem) :=
  let? r := build (builder_max_size max_size (builder default_hasher)) in
  match r with Ok c => Done c | Err _ => Unwind end.

(** Least recently used entries first, so that the most recently used end up in front. *)
Definition copy_from (b : ShardedLruCacheBuilder) (existing : ShardedLruCache) :
    P (result BuildError (ShardedLruCache * Mem)) :=
  match build b with
  | Done (Ok (c, m)) =>
      let* m := copy_shards (fun s => let! l := of_outcome (iter_order_raw s) in ret (rev l))
                  (fun m e => set_alone m (cache_set c e.1 e.2)) (each (inner existing)) m in
      Ret (Ok (c, m))
  | Done (Err e) => Ret (Err e)
  | _ => Panic
  end.
End ShardedLru.
Arguments ShardedLruCache : clear implicits.
Arguments ShardedLruCacheBuilder : clear implicits.
