(* ===== verification/ShardedLruProps.v ===== *)
(** * The sharded LRU store is one lossy atomic map, within its capacity *)
From S2P Require Import Prelude Keys Stores LruList HashTable Lru LruSpec LruRefine LruProps Sharded Shards Concurrent ShardOps MapShards LruShards ShardedLru.

(** Nested scopes: what a guard does to the store, as an operation of the map. *)
Section Laws.
Context {K V W HT : Type} `{!KeyEq K, !KeyLaws K, !HashTable HT, !HashTableLaws HT}.
Context (c : ShardedLruCache K V W) (Hd : proper (inner c)) (capok : Z -> Prop).

Definition sharded_lru_layout : Layout (LruCache K V W HT) Z K V :=
  lru_layout id (inner c) Hd (on_evict (inner c)) capok (fun _ => True).
Notation L := sharded_lru_layout.

Lemma lru_shard_lt k : (ShardedLru.shard_of c k < shard_count L)%nat.
Proof. by apply index_bound. Qed.

Lemma pop_does k : does L (Erase k) (with_write (W := W) (ShardedLru.shard_of c k) (pop_counted k)) (entry_of k).
Proof.
  apply with_write_does; [apply lru_shard_lt|done|]. intros s m w HI.
  eapply (pop_counted_wp id); [exact HI|done|]. intros r s' HI' HA He. eexists _, _.
  refine (conj HA (conj HI' (conj _ He))). by destruct r.
Qed.

Lemma lru_clear_all : does_all L (erase_shards L) (ShardedLru.clear (W := W) c).
Proof.
  apply (each_does (inner c)); [done|]. intros i Hi. apply erase_shard_does; [done|]. intros s m w HI.
  eapply (clear_wp id); [exact HI| |]; [|intros c' HI'; exact HI']. intros k Hk. by apply Nat.eqb_eq.
Qed.

Lemma lru_reset_silent : does_all L [] (ShardedLru.cache_reset_metrics (W := W) c).
Proof.
  apply (each_silent_iter (inner c)); [done|]. intros i Hi.
  apply does_none_then; [by apply does_all_atomic|]. intros _.
  apply does_none_then; [by apply does_all_atomic|]. intros _.
  apply with_write_quiet; [done|]. intros s m w HI. eapply (reset_metrics_wp id); [exact HI|]. intros c' HI'. exact HI'.
Qed.

#[export] Instance sharded_lru_laws : ConcurrentLaws (W := W) c L.
Proof.
  split.
  - intros k. eapply (does_then L _ _ eq).
    + apply with_write_does; [apply lru_shard_lt|done|]. intros s m w HI.
      eapply (lru_get_if_wp id); [exact HI|done|..].
      * intros r s' w' HI' HA. eexists _, _. refine (conj HA (conj HI' _)). by destruct r.
      * intros s' w' HI'. by left.
    + intros a r R q ->. destruct r as [v|]; apply silent_ret; try done; apply does_all_atomic, lru_shard_lt.
  - intros k v. apply with_write_does; [apply lru_shard_lt|done|]. intros s m w HI.
    eapply (lru_set_wp id _ Hd); [exact HI|done|..].
    + intros r s' w' HI' HA. eexists _, _. refine (conj HA (conj HI' _)). by destruct r.
    + intros s' w' HI'. right. exists None, (put k (Some v) m). split; [split; [by right|done]|done].
  - intros k. apply (does_ret L _ _ (entry_of k)); [|intros e r [<- _]; by left].
    eapply does_then; [apply pop_does|]. intros e r R q He.
    destruct e as [e|]; [apply silent_ret; [silent|done]|split; [done|by exists r]].
  - intros k. eapply does_then; [apply pop_does|]. intros e r R q He.
    destruct e as [e|]; [apply silent_ret; [silent|done]|split; [done|by exists r]].
  - intros k. apply with_read_does; [apply lru_shard_lt|done|]. intros s m w HI. apply wp_bind.
    eapply (lru_peek_wp id); [exact HI|done|]. intros r HA. apply wp_ret. eexists. split; [exact HA|]. by destruct r.
  - intros k. apply with_read_does; [apply lru_shard_lt|done|]. intros s m w HI.
    eapply (lru_peek_wp id); [exact HI|done|]. intros r HA. eexists. split; [exact HA|]. by destruct r.
  - apply lru_clear_all.
  - apply does_all_then; [apply lru_clear_all|]. intros _. apply lru_reset_silent.
  - apply lru_reset_silent.
Qed.
End Laws.

(** ** The calls of this store alone *)
Section Own.
Context {K V W HT E : Type} `{!KeyEq K, !KeyLaws K, !HashTable HT, !HashTableLaws HT}.
Context (available_parallelism : option Z) (try_reserve_exact : Z -> bool).

(** The calls that leave the capacity alone. *)
Inductive LruCall : Type :=
| Retain (keep : K -> V -> User W bool)
| ClearWithOnEvict
| Len | ShardSizes | IsEmpty | Hits | Misses | Evictions | Capacity | Metrics
| DeepClone
| CopyFrom (b : ShardedLruCacheBuilder K V W).

Inductive ResizingCall : Type :=
| Plain (q : LruCall)
| SetMaxSize (n : Z)
| TrySetMaxSize (n : Z).

Context (c : ShardedLruCache K V W) (Hd : proper (inner c)).
Notation Rep := (Reply K V (E + SetMaxSizeError)).
Notation P := (Prog (LruCache K V W HT) Z W).

Definition own (q : LruCall) : P Rep :=
  match q with
  | Retain keep => let* n := retain c keep in Ret (Numbers [Some n])
  | ClearWithOnEvict => cache_clear_with_on_evict c ;;; Ret Nothing
  | Len => let* n := len c in Ret (Numbers [Some n])
  | ShardSizes => let* l := shard_sizes c in Ret (Numbers (Some <$> l))
  | IsEmpty => let* b := is_empty c in Ret (Flag b)
  | Hits => let* n := cache_hits c in Ret (Numbers [n])
  | Misses => let* n := cache_misses c in Ret (Numbers [n])
  | Evictions => let* n := cache_evictions c in Ret (Numbers [n])
  | Capacity => let* n := cache_capacity c in Ret (Numbers [n])
  | Metrics => let* m := metrics c in Ret (Numbers [m_hits m; m_misses m; m_evictions m; m_entry_count m; m_capacity m])
  | DeepClone => deep_clone c ;;; Ret Nothing
  | CopyFrom b => copy_from available_parallelism try_reserve_exact b c ;;; Ret Nothing
  end.

Definition resizing (q : ResizingCall) : P Rep :=
  match q with
  | Plain q => own q
  | SetMaxSize n => let* r := set_max_size c n in Ret (Numbers [r])
  | TrySetMaxSize n =>
      let* r := try_set_max_size c n in
      Ret (match r with Ok prev => Numbers [prev] | Err e => Failed (inr e) end)
  end.

Context (capok : Z -> Prop).
Notation L := (sharded_lru_layout (HT := HT) c Hd capok).

Definition own_spec (q : LruCall) : Spec K V Rep :=
  match q with
  | Retain keep =>
      await_all (shard_wise L (fun i => Filter (on_shard L i) (judged keep true) (judged keep false))) (Returns (fun _ => True))
  | ClearWithOnEvict => await_all (erase_shards L) (Returns (eq Nothing))
  | _ => Returns (fun _ => True)
  end.

(** A resize is refused at zero and when the capacity overflows. *)
Definition resizing_spec (q : ResizingCall) : Spec K V Rep :=
  match q with
  | Plain q => own_spec q
  | SetMaxSize n => resize_spec n
  | TrySetMaxSize n => try_resize_spec (inner c) n
  end.

Lemma judged_kept keep b (e : K * V) k : said (rejected keep) b e -> keq k e.1 = true -> judged (W := W) keep (negb b) k (id e.2).
Proof. apply said_rejected. Qed.

Lemma lru_own_safe q : safely L None (own_spec q) (own q) (post ends).
Proof.
  destruct q as [keep| | | | | | | | | | |b]; cbn [own own_spec].
  - apply then_returns; [|done]. apply sweep_does; [done|]. intros i Hi.
    apply (does_does_all L _ _ (fun _ _ => True)). apply with_write_does; [done|by intros k Hk%within_shard|].
    intros s m w HI. eapply wp_mono; [eapply (sweep_wp id _ _ _ i s m _ (judged keep true) (judged keep false)); [exact HI|..]|..].
    + intros e k. apply (judged_kept keep true).
    + intros e k. apply (judged_kept keep false).
    + intros l s' (m' & HA & HI'). exists None, m'. exact (conj HA (conj HI' I)).
    + intros s' HI'. by left.
  - apply then_returns; [|done]. apply (each_does (inner c)); [done|]. intros i Hi.
    apply does_all_then; [|intros l; silent]. apply erase_shard_does; [done|]. intros s m w HI.
    eapply (drain_wp id); [exact HI| |]; [|intros l c' HI'; exact HI']. intros k Hk. by apply Nat.eqb_eq.
  - apply (then_returns L []); [|done]. unfold len, shard_sizes. silent.
  - apply (then_returns L []); [|done]. unfold shard_sizes. silent.
  - apply (then_returns L []); [|done]. unfold is_empty. silent.
  - apply (then_returns L []); [|done]. unfold cache_hits, load_hits. silent.
  - apply (then_returns L []); [|done]. unfold cache_misses, load_misses. silent.
  - apply (then_returns L []); [|done]. unfold cache_evictions. silent.
  - apply (then_returns L []); [|done]. unfold cache_capacity, capacity. silent.
  - apply (then_returns L []); [|done]. unfold metrics, capacity, load_hits, load_misses. silent.
  - apply (then_returns L []); [|done]. unfold deep_clone, capacity. silent.
  - apply (then_returns L []); [|done]. unfold copy_from. destruct (build _ _ b) as [[[c' m]|e]| |]; [|silent|by intros R q..].
    apply does_none_then; [|intros m'; silent]. apply copy_silent; [by apply each_lt|].
    intros i s x w (a & HM & _). apply wp_bind. eapply wp_of_outcome; [by apply iter_models|]. by apply wp_ret.
Qed.

Hypothesis capok_any : forall n, capok n.

Lemma resizing_safe q : safely L None (resizing_spec q) (resizing q) (post ends).
Proof.
  destruct q as [q|n|n]; [apply lru_own_safe|by apply (resize_safe id (inner c) Hd)|by apply (try_resize_safe id (inner c) Hd)].
Qed.
End Own.

(** ** A built store *)
Section Built.
Context {K V W HT : Type} `{!KeyEq K, !KeyLaws K, !HashTable HT, !HashTableLaws HT}.
Context (available_parallelism : option Z) (try_reserve_exact : Z -> bool).
Implicit Types (b : ShardedLruCacheBuilder K V W) (c : ShardedLruCache K V W) (m : Memory (LruCache K V W HT) Z).

Definition lru_builder_ok b : Prop :=
  sizes_ok (b_shards b) (b_max_size b) (b_per_shard_max_size b) /\ exists h, b_hasher b = Some h /\ hash_ok h.

Lemma lru_built_follows b c m : lru_builder_ok b -> build available_parallelism try_reserve_exact b = Done (Ok (c, m)) ->
  exists per, resolve_sizes available_parallelism (b_shards b) (b_max_size b) (b_per_shard_max_size b) =
      Ok (Z.of_nat (shard_len (inner c)), per, globals m) /\ globals m = Z.of_nat (shard_len (inner c)) * per /\
    on_evict (inner c) = b_on_evict b /\
    forall capok : Z -> Prop, capok per -> exists Hd : proper (inner c), follows_map (sharded_lru_layout (HT := HT) c Hd capok) m (fun _ => None).
Proof.
  intros (Hs & h & Eh & Hh). unfold build.
  destruct (resolve_sizes _ _ _ _) as [[[n per] total]|e] eqn:Er; [|done].
  pose proof Hs as (H1 & H2 & H3). destruct (resolve_sizes_spec _ _ _ _ _ _ _ Er H1 H2 H3) as (_ & Hn & _ & Et & _).
  destruct (build_shards _ _ _ _) as [l|e] eqn:Eb; [|done]. rewrite Eh. intros [= <- <-]. simpl.
  exists per. split; [by rewrite Z2Nat.id by lia|]. split; [by rewrite Z2Nat.id by lia|]. split; [done|]. intros capok Hok.
  by eapply (built_shards_follow id).
Qed.

(** The entries of all shards. *)
Definition entry_count m : Z := foldr (fun s n => Lru.cache_size (content s) + n) 0 (Shards.shards m).

Lemma entry_count_bound m (per : Z) : (forall s, s ∈ Shards.shards m -> Lru.cache_size (content s) <= per) ->
  entry_count m <= Z.of_nat (length (Shards.shards m)) * per.
Proof.
  unfold entry_count. induction (Shards.shards m) as [|s l IH]; intros H; simpl; [lia|].
  pose proof (H s ltac:(by left)). specialize (IH ltac:(intros; apply H; by right)). lia.
Qed.

Lemma follows_bound c Hd (capok : Z -> Prop) per m x : (forall n, capok n -> n = per) ->
  follows_map (sharded_lru_layout (HT := HT) c Hd capok) m x -> entry_count m <= Z.of_nat (shard_len (inner c)) * per.
Proof.
  intros Hper (Hl & HI & _). replace (shard_len (inner c)) with (length (Shards.shards m)) by done.
  apply entry_count_bound. intros s (i & Hs)%list_elem_of_lookup. destruct (HI i s Hs) as (a & HM & _ & _ & [_ Hok] & Hlen).
  rewrite (size_models _ _ HM), <- (Hper _ Hok). apply Hlen. right. by exists per.
Qed.
End Built.

(** C2: [ShardedLruCache] is one atomic map that may forget.  From any memory that follows a map - a
    freshly built store follows the empty one - any calls of the store in any interleaving,
    [set_max_size] and [retain] included: a keyed call is atomic, and what it answers is the latest
    value written or nothing, never a value overwritten or removed; [retain] drops a binding only if
    its predicate refused it; [try_set_max_size] fails exactly at zero and on overflow; no call runs
    for ever, none deadlocks, and when all are over every lock is free. *)
Theorem sharded_lru_serves {K V W HT E : Type} `{!KeyEq K, !KeyLaws K, !HashTable HT, !HashTableLaws HT}
    (p : option Z) (alloc : Z -> bool) (b : ShardedLruCacheBuilder K V W) c (m : Memory (LruCache K V W HT) Z) :
  lru_builder_ok b -> build p alloc b = Done (Ok (c, m)) ->
  exists Hd : proper (inner c), let L := sharded_lru_layout (HT := HT) c Hd (fun _ => True) in
    follows_map L m (fun _ => None) /\
    forall m' x, follows_map L m' x -> serves (resizing p alloc c) c L (resizing_spec (E := E) c Hd (fun _ => True)) m' x.
Proof.
  intros Hb HB. destruct (lru_built_follows p alloc b c m Hb HB) as (per & _ & _ & _ & H).
  destruct (H (fun _ => True) I) as [Hd Hm]. exists Hd. split; [exact Hm|].
  intros m' x Hm'. apply lawful_serves; [apply sharded_lru_laws|by apply resizing_safe|exact Hm'].
Qed.

(** C18: The capacity holds under concurrency.  While no one resizes, at every moment of every interleaving
    of calls - also where a callback has panicked, since an entry is unlinked before it is told - the shards
    together hold no more entries than the total capacity, which is at least the [max_size] asked for. *)
Theorem sharded_lru_bounded {K V W HT E : Type} `{!KeyEq K, !KeyLaws K, !HashTable HT, !HashTableLaws HT}
    (p : option Z) (alloc : Z -> bool) (b : ShardedLruCacheBuilder K V W) c (m : Memory (LruCache K V W HT) Z) w g :
  lru_builder_ok b -> build p alloc b = Done (Ok (c, m)) ->
  reachable (run_call (own (E := E) p alloc c) c) m w g ->
  entry_count (memory g) <= globals m /\ forall n, b_max_size b = Some n -> n <= globals m.
Proof.
  intros Hb HB Hg. destruct (lru_built_follows p alloc b c m Hb HB) as (per & Er & Et & Eo & H). split.
  - destruct (H (fun n => n = per) eq_refl) as [Hd Hm].
    assert (serves (own (E := E) p alloc c) c (sharded_lru_layout (HT := HT) c Hd (fun n => n = per)) (own_spec c Hd (fun n => n = per)) m (fun _ => None)) as Hs.
    { apply lawful_serves; [apply sharded_lru_laws|apply lru_own_safe|exact Hm]. }
    destruct (implements_always _ _ _ _ _ _ _ Hs Hg) as (x & ts & _ & Hx & _). rewrite Et.
    eapply (follows_bound c Hd (fun n => n = per)); [done|exact Hx].
  - intros n En. destruct Hb as ((_ & Hn & _) & _). rewrite En in Er, Hn. simpl in Hn. unfold resolve_sizes in Er.
    destruct (resolve_shard_count _ _ _) as [k|] eqn:Ek; [|done].
    destruct (resolve_per_shard_cap _ _ _) as [per'|] eqn:Ep; [|done].
    destruct (total_capacity _ _ _) as [t|] eqn:Etc; [|done]. injection Er as -> -> ->.
    unfold resolve_per_shard_cap in Ep. destruct (b_per_shard_max_size b); [done|].
    destruct (Z.eqb_spec n 0) as [->|Hn0]; [done|]. injection Ep as <-. rewrite Et.
    set (k := Z.of_nat (shard_len (inner c))) in *. assert (0 < k) as Hk.
    { destruct (H (fun _ => True) I) as [Hd _]. pose proof (shard_len_pos (inner c) Hd). lia. }
    pose proof (div_ceil_spec n k Hn Hk). pose proof (Z.mod_pos_bound (- n) k Hk). destruct (1 <? k); nia.
Qed.

(** What was set is there.  While nothing else runs, a [set] followed by a [get] of an equal key
    returns the value set, whatever the shard had to evict for it; only a panicking callback can
    keep the pair of calls from returning. *)
Theorem sharded_lru_set_get {K V W HT : Type} `{!KeyEq K, !KeyLaws K, !HashTable HT, !HashTableLaws HT}
    (c : ShardedLruCache K V W) (Hd : proper (inner c)) (m : Memory (LruCache K V W HT) Z) x k k' v w :
  follows_map (sharded_lru_layout c Hd (fun _ => True)) m x -> keq k k' = true ->
  wp (exec (cache_set c k v ;;; cache_get c k')) (fun r _ => r = Some v) (fun _ => ~ callback_total (on_evict (inner c))) (m, w).
Proof.
  intros (Hl & HI & _) Hk. destruct (lookup_lt_is_Some_2 (Shards.shards m) (ShardedLru.shard_of c k)) as [s Hs].
  { rewrite Hl. by apply index_bound. }
  eapply wp_exec_write; [exact Hs|]. eapply wp_mono; [eapply (lru_set_front_wp id); [exact (HI _ _ Hs)|done]| |done].
  intros r [s' w'] (a & HM & F). unfold cache_get.
  replace (ShardedLru.shard_of c k') with (ShardedLru.shard_of c k) by (by apply index_cong).
  assert (find_key k' (entries a) = Some (k, v)) as F'.
  { rewrite <- F. symmetry. by apply find_key_cong. }
  eapply wp_exec_write; [by eapply set_shard_lookup|]. simpl.
  eapply wp_mono; [by eapply (lru_get_present s' a k' (k, v))| |by intros _ []].
  intros r' s2 ->. eapply wp_exec_atomic; [by do 2 eapply set_shard_lookup|]. by apply wp_ret.
Qed.

(** *** Witnesses *)

Definition lru_demo : ShardedLruCacheBuilder TaggedKey.t Z Tick.t :=
  builder_on_evict Tick.log (ShardedLru.builder_max_size 40 (builder_shards 2 (ShardedLru.builder spread))).

Lemma lru_demo_ok : lru_builder_ok lru_demo.
Proof. split_and!; [done..|]. exists spread. split; [done|]. apply spread_ok. Qed.

(** Two shards of twenty. *)
Definition lru_demo_store : outcome (result BuildError (ShardedLruCache TaggedKey.t Z Tick.t * Memory (LruCache TaggedKey.t Z Tick.t ListTable.t) Z)) :=
  build (Some 8) (fun _ => true) lru_demo.

Lemma sharded_lru_serves_witness : exists c m (Hd : proper (inner c)),
  lru_demo_store = Done (Ok (c, m)) /\ shard_len (inner c) = 2%nat /\ globals m = 40 /\
  serves (resizing (Some 8) (fun _ => true) c) c (sharded_lru_layout c Hd (fun _ => True))
    (resizing_spec (E := unit) c Hd (fun _ => True)) m (fun _ => None).
Proof.
  destruct lru_demo_store as [[[c m]|e]| |] eqn:EB; try discriminate EB.
  destruct (sharded_lru_serves (E := unit) (Some 8) (fun _ => true) lru_demo c m lru_demo_ok EB) as (Hd & Hm & H).
  exists c, m, Hd. split; [done|]. split; [by injection EB as <- _|]. split; [by injection EB as _ <-|]. by apply H.
Defined.

Lemma sharded_lru_bounded_witness : exists c m, lru_demo_store = Done (Ok (c, m)) /\
  forall w g, reachable (run_call (own (E := unit) (Some 8) (fun _ => true) c) c) m w g -> entry_count (memory g) <= globals m.
Proof.
  destruct lru_demo_store as [[[c m]|e]| |] eqn:EB; try discriminate EB.
  exists c, m. split; [done|]. intros w g Hg.
  exact (proj1 (sharded_lru_bounded (E := unit) (Some 8) (fun _ => true) lru_demo c m w g lru_demo_ok EB Hg)).
Defined.

Lemma sharded_lru_set_get_witness : exists c m, lru_demo_store = Done (Ok (c, m)) /\
  wp (exec (cache_set c Tick.k1 10 ;;; cache_get c Tick.k1')) (fun r _ => r = Some 10) (fun _ => False) (m, Tick.mk 0 []).
Proof.
  destruct lru_demo_store as [[[c m]|e]| |] eqn:EB; try discriminate EB.
  exists c, m. split; [done|].
  destruct (lru_built_follows (Some 8) (fun _ => true) lru_demo c m lru_demo_ok EB) as (per & _ & _ & Eo & H).
  destruct (H (fun _ => True) I) as [Hd Hm].
  eapply wp_mono; [apply (sharded_lru_set_get c Hd m _ Tick.k1 Tick.k1' 10 (Tick.mk 0 []) Hm); reflexivity| |].
  - intros r s Hr. exact Hr.
  - intros s Hn. apply Hn. rewrite Eo. intros k v w. by eexists _, _.
Defined.
