(* ===== verification/ShardedLruTtl.v ===== *)
(** * The sharded LRU store with deadlines ([src/stores/sharded/lru_ttl.rs])

    Shards of [LruCache]s of entries with deadlines.  Every read takes the write lock, since it
    promotes; the clock is read once, before the lock.  Two counters of evictions: the inner
    store's, for capacity, and the shard's, for everything else.  The callback runs under the
    shard's lock for a capacity eviction, and after it in every other case. *)
From Stdlib Require Import String.
From S2P Require Import Prelude Keys Stores LruList HashTable Lru Sharded Shards Concurrent ShardOps ShardTtl LruShards.
#[local] Close Scope string_scope.

Section ShardedLruTtl.
Context {K V W HT : Type} `{!KeyEq K, !HashTable HT, !Clock W}.
Notation Store := (LruCache K (TimedEntry V) W HT).
Notation Entry := (K * TimedEntry V)%type.
(** The atomics of time, and [total_capacity]. *)
Notation P := (Prog Store (TtlAtomics * Z) W).
Notation Mem := (Memory Store (TtlAtomics * Z)).

(** The handle behind the [Arc]. *)
Record ShardedLruTtlCache : Type := mkSharded { inner : Inner K V W }.

Definition shard_of (c : ShardedLruTtlCache) (k : K) : nat := index_of (inner c) k.

(** [e.expires_at.is_none_or(|t| now < t)] *)
Definition live_at (now : Z) (e : TimedEntry V) : bool :=
  match expires_at e with Some t => now <? t | None => true end.
Definition live (now : Z) (e : TimedEntry V) : User W bool := fun w => (Some (live_at now e), w).

(** *** [ConcurrentCached] *)

(** A live hit, promoted, under the lock already held; the deadline renewed on request. *)
Definition probe (shard : nat) (refresh : bool) (k : K) (now : Z) : P (option V) :=
  if refresh then
    let* found := write_store shard (get_mut_value k (live now)) in
    match found with
    | Some e =>
        let* deadline := deadline_from now in
        write_store shard (write_entry k (fun e => mkTimed (or_else_some deadline (expires_at e)) (tvalue e))) ;;;
        Ret (Some (tvalue e))
    | None => Ret None
    end
  else
    let* found := write_store shard (Lru.get_if k (live now)) in
    Ret (tvalue <$> found).

Definition tell (c : ShardedLruTtlCache) (shard : nat) (removed : option Entry) : P unit :=
  match removed with
  | Some e => add_evictions shard 1 ;;; notify (inner c) (bare e)
  | None => Ret tt
  end.

Definition cache_get (c : ShardedLruTtlCache) (k : K) : P (option V) :=
  let shard := shard_of c k in
  let* refresh := load_refresh in
  let* now := outside clock_reading in
  plock shard Exclusive ;;;
  let* value := probe shard refresh k now in
  match value with
  | Some v =>
      punlock shard ;;;
      add_hits shard 1 ;;;
      Ret (Some v)
  | None =>
      let* removed := write_store shard (Lru.pop_raw k) in
      punlock shard ;;;
      tell c shard removed ;;;
      add_misses shard 1 ;;;
      Ret None
  end.

(** With a callback the stored key is wanted too. *)
Definition displace (c : ShardedLruTtlCache) (k : K) (new_entry : TimedEntry V) (now : Z) :
    P (option (option K * TimedEntry V * bool)) :=
  match on_evict (inner c) with
  | Some _ =>
      let* old := with_write (shard_of c k) (Lru.cache_set_returning_entry k new_entry) in
      Ret ((fun e => (Some e.1, e.2, expired_at e.2 now)) <$> old)
  | None =>
      let* old := with_write (shard_of c k) (Lru.cache_set k new_entry) in
      Ret ((fun e => (None, e, expired_at e now)) <$> old)
  end.

Definition cache_set (c : ShardedLruTtlCache) (k : K) (v : V) : P (option V) :=
  let* now := outside clock_reading in
  let* deadline := deadline_from now in
  let* old := displace c k (mkTimed deadline v) now in
  match old with
  | Some (key, entry, true) =>
      add_evictions (shard_of c k) 1 ;;;
      (match key with Some key => notify (inner c) (key, tvalue entry) | None => Ret tt end) ;;;
      Ret None
  | Some (_, entry, false) => Ret (Some (tvalue entry))
  | None => Ret None
  end.

Definition cache_remove (c : ShardedLruTtlCache) (k : K) : P (option V) :=
  let shard := shard_of c k in
  let* removed := with_write shard (Lru.pop_raw k) in
  match removed with
  | Some e =>
      add_evictions shard 1 ;;;
      notify (inner c) (bare e) ;;;
      let* expired := outside (past_deadline_now e.2) in
      if (expired : bool) then Ret None else Ret (Some (tvalue e.2))
  | None => Ret None
  end.

Definition cache_remove_entry (c : ShardedLruTtlCache) (k : K) : P (option (K * V)) :=
  let shard := shard_of c k in
  let* removed := with_write shard (Lru.pop_raw k) in
  tell c shard removed ;;;
  Ret (bare <$> removed).

Definition clear (c : ShardedLruTtlCache) : P unit := piter (each (inner c)) (fun i => with_write i Lru.cache_clear).
Definition cache_clear : ShardedLruTtlCache -> P unit := clear.

Definition cache_reset_metrics (c : ShardedLruTtlCache) : P unit :=
  piter (each (inner c)) (fun i =>
    reset_hits i ;;; reset_misses i ;;; reset_evictions i ;;; with_write i Lru.cache_reset_metrics).

Definition cache_reset (c : ShardedLruTtlCache) : P unit := clear c ;;; cache_reset_metrics c.

Definition cache_contains (c : ShardedLruTtlCache) (k : K) : P bool :=
  with_read (shard_of c k) (fun s =>
    let! r := of_outcome (Lru.cache_peek s k) in
    match r with
    | Some entry => let! past := past_deadline entry in ret (negb past)
    | None => ret false
    end).

Definition peek (c : ShardedLruTtlCache) (k : K) : P (option V) :=
  with_read (shard_of c k) (fun s =>
    let! r := of_outcome (Lru.cache_peek s k) in
    match r with
    | Some entry => let! past := past_deadline entry in ret (if (past : bool) then None else Some (tvalue entry))
    | None => ret None
    end).

#[global] Instance lru_ttl_concurrent : ConcurrentCached ShardedLruTtlCache Store (TtlAtomics * Z) K V W := {|
  Concurrent.cache_get := cache_get;
  Concurrent.cache_set := cache_set;
  Concurrent.cache_remove := cache_remove;
  Concurrent.cache_remove_entry := cache_remove_entry;
  Concurrent.cache_contains := cache_contains;
  Concurrent.cache_clear := cache_clear;
  Concurrent.cache_reset := cache_reset;
  Concurrent.cache_reset_metrics := cache_reset_metrics |}.
#[global] Instance lru_ttl_concurrent_peek : ConcurrentCachePeek ShardedLruTtlCache Store (TtlAtomics * Z) K V W := {|
  Concurrent.cache_peek := peek |}.

(** *** [ConcurrentCloneCached]: an expired value is served, marked, and stays *)

Definition cache_get_with_expiry_status (c : ShardedLruTtlCache) (k : K) : P (option V * bool) :=
  let shard := shard_of c k in
  let* refresh := load_refresh in
  let* now := outside clock_reading in
  plock shard Exclusive ;;;
  let* value := probe shard refresh k now in
  match value with
  | Some v =>
      punlock shard ;;;
      add_hits shard 1 ;;;
      Ret (Some v, false)
  | None =>
      let* stale := read_store shard (fun s => of_outcome (Lru.cache_peek s k)) in
      punlock shard ;;;
      add_misses shard 1 ;;;
      match stale with
      | Some e => Ret (Some (tvalue e), true)
      | None => Ret (None, false)
      end
  end.

Definition cache_peek_with_expiry_status (c : ShardedLruTtlCache) (k : K) : P (option V * bool) :=
  with_read (shard_of c k) (fun s =>
    let! r := of_outcome (Lru.cache_peek s k) in
    match r with
    | None => ret (None, false)
    | Some entry => let! past := past_deadline entry in ret (Some (tvalue entry), past)
    end).

#[global] Instance lru_ttl_clone_cached : ConcurrentCloneCached ShardedLruTtlCache Store (TtlAtomics * Z) K V W := {|
  Concurrent.cache_get_with_expiry_status := cache_get_with_expiry_status;
  Concurrent.cache_peek_with_expiry_status := cache_peek_with_expiry_status |}.

(** *** The ttl, and sweeps *)

#[global] Instance lru_ttl_concurrent_ttl : ConcurrentCacheTtl ShardedLruTtlCache Store (TtlAtomics * Z) W := {|
  Concurrent.ttl := fun _ => ttl_duration;
  Concurrent.set_ttl := fun _ t => swap_ttl (encode_ttl t);
  Concurrent.unset_ttl := fun _ => swap_ttl 0 |}.
#[global] Instance lru_ttl_concurrent_refresh : ConcurrentCacheRefreshOnHit ShardedLruTtlCache Store (TtlAtomics * Z) W := {|
  Concurrent.refresh_on_hit := fun _ => load_refresh;
  Concurrent.set_refresh_on_hit := fun _ b => swap_refresh b |}.

(** The doomed entries of a shard go under its lock; then they are counted, and told. *)
Definition sweep_counted (i : nat) (doomed : K -> TimedEntry V -> User W bool) : P (list (K * V)) :=
  let* removed := with_write i (sweep_doomed doomed) in
  count_evicted i (Z.of_nat (length removed)) ;;;
  Ret (bare <$> removed).

Definition evict (c : ShardedLruTtlCache) : P Z :=
  let* now := outside clock_reading in
  sweep_shards (inner c) (fun i => sweep_counted i (fun _ e w => (Some (expired_at e now), w))).
#[global] Instance lru_ttl_concurrent_evict : ConcurrentCacheEvict ShardedLruTtlCache Store (TtlAtomics * Z) W := {| Concurrent.evict := evict |}.

Definition retain (c : ShardedLruTtlCache) (keep : K -> V -> User W bool) : P Z :=
  let* now := outside clock_reading in
  sweep_shards (inner c) (fun i => sweep_counted i (stale_or_rejected keep now)).

Definition cache_clear_with_on_evict (c : ShardedLruTtlCache) : P unit :=
  piter (each (inner c)) (fun i =>
    let* removed := with_write i Lru.drain_all in
    count_evicted i (Z.of_nat (length removed)) ;;;
    notify_all (inner c) (bare <$> removed)).

(** *** Inherent methods *)

Definition shard_sizes (c : ShardedLruTtlCache) : P (list Z) := sizes (inner c) Lru.cache_size.
Definition len (c : ShardedLruTtlCache) : P Z := let* l := shard_sizes c in Ret (wrapping_sum l).
Definition is_empty (c : ShardedLruTtlCache) : P bool := all_empty Lru.cache_size (each (inner c)).
Definition shards (c : ShardedLruTtlCache) : nat := shard_len (inner c).
Definition capacity (c : ShardedLruTtlCache) : P Z := global (fun g => (g.2, g)).
Definition non_capacity_evictions (c : ShardedLruTtlCache) : P Z := sum_of (inner c) load_evictions.

Definition cache_size (c : ShardedLruTtlCache) : P (option Z) := let* n := len c in Ret (Some n).
Definition cache_hits (c : ShardedLruTtlCache) : P (option Z) := let* n := sum_of (inner c) load_hits in Ret (Some n).
Definition cache_misses (c : ShardedLruTtlCache) : P (option Z) := let* n := sum_of (inner c) load_misses in Ret (Some n).
Definition cache_evictions (c : ShardedLruTtlCache) : P (option Z) :=
  let* lru := sum_of (inner c) (fun i => with_read i (fun s => ret (Lru.evictions s))) in
  let* rest := non_capacity_evictions c in
  Ret (Some (wrapping_sum [lru; rest])).
Definition cache_capacity (c : ShardedLruTtlCache) : P (option Z) := let* n := capacity c in Ret (Some n).

Definition metrics (c : ShardedLruTtlCache) : P CacheMetrics :=
  let* l := pmap (each (inner c)) (fun i =>
    let* h := load_hits i in
    let* m := load_misses i in
    let* other := load_evictions i in
    let* en := with_read i (fun s : Store => ret (Lru.evictions s, Lru.cache_size s)) in
    Ret (h, m, (other, en))) in
  let* total := capacity c in
  Ret (mkMetrics (Some (wrapping_sum (l.*1.*1))) (Some (wrapping_sum (l.*1.*2)))
         (Some (wrapping_sum [wrapping_sum (l.*2.*2.*1); wrapping_sum (l.*2.*1)]))
         (Some (wrapping_sum (l.*2.*2.*2))) (Some total)).

Definition swap_total (total_cap : Z) (g : TtlAtomics * Z) : Z * (TtlAtomics * Z) := (g.2, (g.1, total_cap)).
Definition set_max_size (c : ShardedLruTtlCache) (max_size : Z) : P (option Z) := resize (inner c) swap_total max_size.
Definition try_set_max_size (c : ShardedLruTtlCache) (max_size : Z) : P (result SetMaxSizeError (option Z)) :=
  try_resize (inner c) swap_total max_size.

(** The evictions of the shards are copied too. *)
Definition deep_clone (c : ShardedLruTtlCache) : P (ShardedLruTtlCache * Mem) :=
  let* l := pmap (each (inner c)) clone_shard_all in
  let* nanos := global (fun g => (ttl_nanos g.1, g)) in
  let* r := load_refresh in
  let* total := capacity c in
  Ret (c, mkMemory l (mkTtl nanos r, total)).

(** *** The builder *)

Record ShardedLruTtlCacheBuilder : Type := mkBuilder {
  b_shards : option Z; b_max_size : option Z; b_per_shard_max_size : option Z; b_ttl : option Z; b_refresh : bool;
  b_hasher : option (K -> Z); b_on_evict : OnEvict K V W }.

(** [Default]: the default hasher. *)
Definition builder (default_hasher : K -> Z) : ShardedLruTtlCacheBuilder :=
  mkBuilder None None None None false (Some default_hasher) None.
Definition builder_max_size (n : Z) (b : ShardedLruTtlCacheBuilder) :=
  mkBuilder (b_shards b) (Some n) (b_per_shard_max_size b) (b_ttl b) (b_refresh b) (b_hasher b) (b_on_evict b).
Definition builder_per_shard_max_size (n : Z) (b : ShardedLruTtlCacheBuilder) :=
  mkBuilder (b_shards b) (b_max_size b) (Some n) (b_ttl b) (b_refresh b) (b_hasher b) (b_on_evict b).
Definition builder_ttl (t : Z) (b : ShardedLruTtlCacheBuilder) :=
  mkBuilder (b_shards b) (b_max_size b) (b_per_shard_max_size b) (Some t) (b_refresh b) (b_hasher b) (b_on_evict b).
Definition builder_ttl_secs (secs : Z) (b : ShardedLruTtlCacheBuilder) := builder_ttl (from_secs secs) b.
Definition builder_ttl_millis (millis : Z) (b : ShardedLruTtlCacheBuilder) := builder_ttl (from_millis millis) b.
Definition builder_shards (n : Z) (b : ShardedLruTtlCacheBuilder) :=
  mkBuilder (Some n) (b_max_size b) (b_per_shard_max_size b) (b_ttl b) (b_refresh b) (b_hasher b) (b_on_evict b).
Definition builder_refresh_on_hit (r : bool) (b : ShardedLruTtlCacheBuilder) :=
  mkBuilder (b_shards b) (b_max_size b) (b_per_shard_max_size b) (b_ttl b) r (b_hasher b) (b_on_evict b).
Definition builder_hasher (h : K -> Z) (b : ShardedLruTtlCacheBuilder) :=
  mkBuilder (b_shards b) (b_max_size b) (b_per_shard_max_size b) (b_ttl b) (b_refresh b) (Some h) (b_on_evict b).
Definition builder_on_evict (f : K -> V -> User W unit) (b : ShardedLruTtlCacheBuilder) :=
  mkBuilder (b_shards b) (b_max_size b) (b_per_shard_max_size b) (b_ttl b) (b_refresh b) (b_hasher b) (Some f).

Context (available_parallelism : option Z) (try_reserve_exact : Z -> bool).

(** [validated_parts]: ttl, shard count, capacity of a shard, total capacity. *)
Definition validated_parts (b : ShardedLruTtlCacheBuilder) : result BuildError (Z * (Z * Z * Z)) :=
  match b_ttl b with
  | None => Err (MissingRequired "ttl")
  | Some t =>
      match validate_ttl t with
      | Err e => Err e
      | Ok _ =>
          match resolve_sizes available_parallelism (b_shards b) (b_max_size b) (b_per_shard_max_size b) with
          | Err e => Err e
          | Ok sizes => Ok (t, sizes)
          end
      end
  end.

(** The inner stores call back with the value of the entry they evict. *)
Definition lru_on_evict (cb : OnEvict K V W) : OnEvict K (TimedEntry V) W :=
  (fun f k entry => f k (tvalue entry)) <$> cb.

Definition build (b : ShardedLruTtlCacheBuilder) : outcome (result BuildError (ShardedLruTtlCache * Mem)) :=
  match validated_parts b with
  | Err e => Done (Err e)
  | Ok (t, (n, per_shard_cap, total_cap)) =>
      match build_shards try_reserve_exact (lru_on_evict (b_on_evict b)) per_shard_cap (Z.to_nat n) with
      | Err e => Done (Err e)
      | Ok shards =>
          let? h := expect (b_hasher b) in
          Done (Ok (mkSharded (mkInner (Z.to_nat n) (n - 1) h (b_on_evict b)),
                    mkMemory shards (mkTtl (encode_ttl t) (b_refresh b), total_cap)))
      end
  end.

Definition new (default_hasher : K -> Z) (max_size t : Z) : outcome (ShardedLruTtlCache * Mem) :=
  let? r := build (builder_ttl t (builder_max_size max_size (builder default_hasher))) in
  match r with Ok c => Done c | Err _ => Unwind end.

(** Entries keep their deadlines; those expired at the start of the copy are skipped. *)
Definition copy_from (b : ShardedLruTtlCacheBuilder) (existing : ShardedLruTtlCache) :
    P (result BuildError (ShardedLruTtlCache * Mem)) :=
  match build b with
  | Done (Ok (c, m)) =>
      let* now := outside clock_reading in
      let* m := copy_shards (fun s => let! l := of_outcome (iter_order_raw s) in ret (rev l))
        (fun m (e : Entry) =>
           if expired_at e.2 now then fun w => (Some m, w)
           else set_alone m (with_write (shard_of c e.1) (Lru.cache_set e.1 e.2) : P _))
        (each (inner existing)) m in
      Ret (Ok (c, m))
  | Done (Err e) => Ret (Err e)
  | _ => Panic
  end.
End ShardedLruTtl.
Arguments ShardedLruTtlCache : clear implicits.
Arguments ShardedLruTtlCacheBuilder : clear implicits.
