(* ===== verification/ShardedLruTtlProps.v ===== *)
(** * The sharded LRU store with deadlines is one lossy atomic map *)
From S2P Require Import Prelude Keys Stores LruList HashTable Lru LruSpec LruRefine LruProps Sharded Shards Concurrent ShardOps MapShards ShardTtl ShardAlone LruShards ShardedLruTtl.

Section Laws.
Context {K V W HT : Type} `{!KeyEq K, !KeyLaws K, !HashTable HT, !HashTableLaws HT, !Clock W}.
Context (c : ShardedLruTtlCache K V W) (Hd : proper (inner c)) (capok : Z -> Prop).
Notation Store := (LruCache K (TimedEntry V) W HT).
Notation P := (Prog Store (TtlAtomics * Z) W).

Definition sharded_lru_ttl_layout : Layout Store (TtlAtomics * Z) K V :=
  lru_layout tvalue (inner c) Hd (lru_on_evict (on_evict (inner c))) capok (fun _ => True).
Notation L := sharded_lru_ttl_layout.
Implicit Types (m : Map K V).

Lemma lru_ttl_shard_lt k : (shard_of c k < shard_count L)%nat.
Proof. by apply index_bound. Qed.

(** A probe tells the value of a live entry, or nothing yet. *)
Lemma probe_then {A R} r k now (q : option V -> Spec K V R) (p : option V -> P A) Q :
  (forall v, safely L (Some (shard_of c k, Exclusive)) (q (Some v)) (p (Some v)) Q) ->
  safely L (Some (shard_of c k, Exclusive)) (Await (Read k) q) (p None) Q ->
  safely L (Some (shard_of c k, Exclusive)) (Await (Read k) q) (let* v := probe (shard_of c k) r k now in p v) Q.
Proof.
  intros HS HN. unfold probe. destruct r; cbn [pbind write_store]; (split; [done|]); intros s m w HI.
  - eapply (lru_get_mut_wp tvalue); [exact HI|done|..]; [|intros s' w' HI'; by apply advance_refl].
    intros [e|] s' w' HI' HA; [|by apply advance_refl]. eapply advance_read; [exact HA|]. split; [exact HI'|].
    skip_global g Hg. cbn [pbind write_store]. apply (quiet_write L). intros s2 m2 w2 HI2.
    eapply (write_entry_wp tvalue); [exact HI2|done..|]. intros s3 HI3. split; [exact HI3|]. apply HS.
  - eapply (lru_get_if_wp tvalue); [exact HI|done|..]; [|intros s' w' HI'; by apply advance_refl].
    intros [e|] s' w' HI' HA; [|by apply advance_refl]. eapply advance_read; [exact HA|]. split; [exact HI'|]. apply HS.
Qed.

Lemma tell_silent k removed : does_all L [] (tell c (shard_of c k) removed).
Proof.
  unfold tell. destruct removed as [e|]; [|apply does_all_nil].
  apply does_none_then; [apply does_all_atomic, lru_ttl_shard_lt|intros _; silent].
Qed.

Lemma pop_step_does k : does L (Erase k) (with_write (W := W) (shard_of c k) (Lru.pop_raw k))
  (fun e r => tvalue <$> (snd <$> e) = r /\ forall e', e = Some e' -> keq k e'.1 = true).
Proof.
  apply with_write_does; [apply lru_ttl_shard_lt|done|]. intros s m w HI. eapply (pop_raw_wp tvalue); [exact HI|done|].
  intros r s' HI' HA He _. eexists _, _. refine (conj HA (conj HI' (conj _ He))). done.
Qed.

Lemma lru_ttl_get_does k : does L (Read k) (cache_get c k : P _) eq.
Proof.
  intros R q. skip_global g Hg. apply outside_then. intros now. split; [done|]. split; [apply lru_ttl_shard_lt|].
  apply probe_then.
  - intros v. split; [by eexists|]. apply silent_ret; [apply does_all_atomic, lru_ttl_shard_lt|done].
  - split; [done|]. intros s m w2 HI. eapply (pop_raw_wp tvalue); [exact HI|done|]. intros e s' _ _ _ HI'.
    pose proof HI as (a & _ & HV). eapply advance_read; [eapply (view_hidden tvalue); [exact HV|done]|].
    split; [exact HI'|]. split; [by eexists|].
    cbn [pbind]. apply (does_all_bind L []); [apply tell_silent|]. intros _. apply silent_ret; [apply does_all_atomic, lru_ttl_shard_lt|done].
Qed.

(** A displaced value that had expired is withheld. *)
Definition unexpired (now : Z) (old : option (TimedEntry V)) : option V :=
  old ≫= fun e : TimedEntry V => if expired_at e now then None else Some (tvalue e).

Lemma withheld k v m m' now (old : option (TimedEntry V)) :
  answers true (Write k v) m (tvalue <$> old) m' -> answers true (Write k v) m (unexpired now old) m'.
Proof.
  intros [Ht ->]. split; [|done]. unfold unexpired. destruct old as [e|]; [|done]. simpl.
  destruct (expired_at e now); [by right|done].
Qed.

Definition displaced (o : option (option K * TimedEntry V * bool)) : option V :=
  o ≫= fun o : option K * TimedEntry V * bool => if o.2 then None else Some (tvalue o.1.2).

Lemma displace_does k x now : does L (Write k (tvalue x)) (displace c k x now : P _) (fun o r => displaced o = r).
Proof.
  unfold displace. destruct (on_evict (inner c)) as [f|] eqn:Ef.
  - apply (does_ret L _ _ (fun (e : option (K * TimedEntry V)) r => unexpired now (snd <$> e) = r)); [|by intros [e|] r <-].
    apply with_write_does; [apply lru_ttl_shard_lt|done|]. intros s m w HI.
    eapply (lru_set_returning_wp tvalue _ Hd); [exact HI|done|..].
    + intros r s' w' HI' HA _. eexists _, _. exact (conj (withheld _ _ _ _ _ _ HA) (conj HI' eq_refl)).
    + intros s' w' HI'. right. eexists None, _. split; [split; [by right|done]|exact HI'].
  - apply (does_ret L _ _ (fun (e : option (TimedEntry V)) r => unexpired now e = r)); [|by intros [e|] r <-].
    apply with_write_does; [apply lru_ttl_shard_lt|done|]. intros s m w HI.
    eapply (lru_set_wp tvalue _ Hd); [exact HI|done|..].
    + intros r s' w' HI' HA. eexists _, _. exact (conj (withheld _ _ _ _ _ _ HA) (conj HI' eq_refl)).
    + intros s' w' HI'. right. eexists None, _. split; [split; [by right|done]|exact HI'].
Qed.

Lemma lru_ttl_clear_all : does_all L (erase_shards L) (clear c : P unit).
Proof.
  apply (each_does (inner c)); [done|]. intros i Hi. apply erase_shard_does; [done|]. intros s m w HI.
  eapply (clear_wp tvalue); [exact HI| |]; [|intros c' HI'; exact HI']. intros k Hk. by apply Nat.eqb_eq.
Qed.

Lemma lru_ttl_reset_silent : does_all L [] (cache_reset_metrics c : P unit).
Proof.
  apply (each_silent_iter (inner c)); [done|]. intros i Hi.
  do 3 (apply does_none_then; [by apply does_all_atomic|]; intros _).
  apply with_write_quiet; [done|]. intros s m w HI. eapply (reset_metrics_wp tvalue); [exact HI|]. intros c' HI'. exact HI'.
Qed.

(** Reading an entry, and perhaps the clock. *)
Lemma peek_entry_wp {A} i s m k w (f : option (TimedEntry V) -> bool -> A) (Q : A -> W -> Prop) :
  inv L i s m -> index_of (inner c) k = i ->
  (forall e b w', answers true (Read k) m (Some (tvalue e)) m -> answers true (Read k) m None m -> Q (f (Some e) b) w') ->
  (forall w', answers true (Read k) m None m -> Q (f None false) w') ->
  wp (let! r := of_outcome (Lru.cache_peek s k) in
      match r with Some e => let! past := past_deadline e in ret (f (Some e) past) | None => ret (f None false) end) Q (fun _ => True) w.
Proof.
  intros HI Hk HS HN. apply wp_bind. eapply (lru_peek_wp tvalue); [exact HI|done|]. intros [e|] HA; [|by apply wp_ret, HN].
  apply wp_bind, wp_past_deadline. intros b w'. apply wp_ret, HS; [done|]. destruct HA as [_ HA]. by split; [right|].
Qed.

#[export] Instance sharded_lru_ttl_laws : ConcurrentLaws (W := W) c L.
Proof.
  split.
  - apply lru_ttl_get_does.
  - intros k v R q. apply outside_then. intros now. skip_global g Hg. cbn [pbind].
    eapply (does_bind L); [apply (displace_does k (mkTimed _ v) now)|].
    intros [[[key e] []]|] r <-; cbn [displaced mbind option_bind snd fst].
    + apply (does_all_bind L []); [apply does_all_atomic, lru_ttl_shard_lt|]. intros _. apply silent_ret; [|done].
      destruct key; silent.
    + split; [done|]. by eexists.
    + split; [done|]. by eexists.
  - intros k. eapply does_then; [apply pop_step_does|]. intros e r R q [<- He]. destruct e as [e|].
    + apply (does_all_bind L []); [apply does_all_atomic, lru_ttl_shard_lt|]. intros _.
      apply (does_all_bind L []); [silent|]. intros _.
      apply (does_all_bind L []); [silent|]. intros []; (split; [done|]); eexists; (split; [done|]); [by right|by left].
    + split; [done|]. eexists. split; [done|]. by left.
  - intros k. eapply does_then; [apply pop_step_does|]. intros e r R q [<- He].
    apply silent_ret; [apply tell_silent|]. split; [by destruct e|]. intros e' He'. destruct e as [e|]; [|done].
    injection He' as <-. by apply He.
  - intros k. apply with_read_does; [apply lru_ttl_shard_lt|done|]. intros s m w HI.
    apply (peek_entry_wp (shard_of c k) s m k w (fun e b => match e with Some _ => negb b | None => false end)); [exact HI|done|..].
    + intros e [] w' H1 H2; [exists None|exists (Some (tvalue e))]; done.
    + intros w' H. by exists None.
  - intros k. apply with_read_does; [apply lru_ttl_shard_lt|done|]. intros s m w HI.
    apply (peek_entry_wp (shard_of c k) s m k w (fun e (b : bool) => match e with Some e => if b then None else Some (tvalue e) | None => None end)); [exact HI|done|..].
    + intros e [] w' H1 H2; [exists None|exists (Some (tvalue e))]; done.
    + intros w' H. by exists None.
  - apply lru_ttl_clear_all.
  - apply does_all_then; [apply lru_ttl_clear_all|]. intros _. apply lru_ttl_reset_silent.
  - apply lru_ttl_reset_silent.
Qed.

#[export] Instance sharded_lru_ttl_clone_laws : ConcurrentCloneLaws (W := W) c L.
Proof.
  split.
  - intros k R q. skip_global g Hg. apply outside_then. intros now. split; [done|]. split; [apply lru_ttl_shard_lt|].
    apply probe_then.
    + intros v. split; [by eexists|]. apply silent_ret; [apply does_all_atomic, lru_ttl_shard_lt|done].
    + apply (read_step L); [done|]. intros s m w HI. eapply (lru_peek_wp tvalue); [exact HI|done|].
      intros e HA. eexists. split; [exact HA|]. split; [by eexists|]. cbn [pbind].
      apply (does_all_bind L []); [apply does_all_atomic, lru_ttl_shard_lt|]. intros _.
      destruct e as [e|]; (split; [done|]); by eexists.
  - intros k. apply with_read_does; [apply lru_ttl_shard_lt|done|]. intros s m w HI.
    apply (peek_entry_wp (shard_of c k) s m k w (fun e b => match e with Some e => (Some (tvalue e), b) | None => (None, false) end)); [exact HI|done|..].
    + intros e b w' H1 H2. by exists (Some (tvalue e)).
    + intros w' H. by exists None.
Qed.
End Laws.

(** ** The calls of this store alone *)
Section Own.
Context {K V W HT E : Type} `{!KeyEq K, !KeyLaws K, !HashTable HT, !HashTableLaws HT, !Clock W}.
Context (available_parallelism : option Z) (try_reserve_exact : Z -> bool).

Inductive LruTtlCall : Type :=
| GetStatus (k : K)
| PeekStatus (k : K)
| Retain (keep : K -> V -> User W bool)
| Evict
| ClearWithOnEvict
| Ttl | SetTtl (t : Z) | TrySetTtl (t : Z) | UnsetTtl
| RefreshOnHit | SetRefreshOnHit (b : bool)
| SetMaxSize (n : Z) | TrySetMaxSize (n : Z)
| Len | ShardSizes | IsEmpty | Hits | Misses | Evictions | Capacity | Metrics
| DeepClone
| CopyFrom (b : ShardedLruTtlCacheBuilder K V W).

Context (c : ShardedLruTtlCache K V W) (Hd : proper (inner c)).
Notation L := (sharded_lru_ttl_layout (HT := HT) c Hd (fun _ => True)).
Notation Store := (LruCache K (TimedEntry V) W HT).
Notation P := (Prog Store (TtlAtomics * Z) W).
Notation Rep := (Reply K V (E + SetTtlError + SetMaxSizeError)).

Definition own (q : LruTtlCall) : P Rep :=
  match q with
  | GetStatus k => let* r := Concurrent.cache_get_with_expiry_status c k in Ret (Status r.1 r.2)
  | PeekStatus k => let* r := Concurrent.cache_peek_with_expiry_status c k in Ret (Status r.1 r.2)
  | Retain keep => let* n := retain c keep in Ret (Numbers [Some n])
  | Evict => let* n := Concurrent.evict c in Ret (Numbers [Some n])
  | ClearWithOnEvict => cache_clear_with_on_evict c ;;; Ret Nothing
  | Ttl => let* n := Concurrent.ttl c in Ret (Numbers [n])
  | SetTtl t => let* n := Concurrent.set_ttl c t in Ret (Numbers [n])
  | TrySetTtl t => let* r := try_set_ttl c t in Ret (match r with Ok n => Numbers [n] | Err e => Failed (inl (inr e)) end)
  | UnsetTtl => let* n := Concurrent.unset_ttl c in Ret (Numbers [n])
  | RefreshOnHit => let* b := Concurrent.refresh_on_hit c in Ret (Flag b)
  | SetRefreshOnHit b => let* b := Concurrent.set_refresh_on_hit c b in Ret (Flag b)
  | SetMaxSize n => let* r := set_max_size c n in Ret (Numbers [r])
  | TrySetMaxSize n => let* r := try_set_max_size c n in Ret (match r with Ok prev => Numbers [prev] | Err e => Failed (inr e) end)
  | Len => let* n := len c in Ret (Numbers [Some n])
  | ShardSizes => let* l := shard_sizes c in Ret (Numbers (Some <$> l))
  | IsEmpty => let* b := is_empty c in Ret (Flag b)
  | Hits => let* n := cache_hits c in Ret (Numbers [n])
  | Misses => let* n := cache_misses c in Ret (Numbers [n])
  | Evictions => let* n := cache_evictions c in Ret (Numbers [n])
  | Capacity => let* n := cache_capacity c in Ret (Numbers [n])
  | Metrics => let* m := metrics c in Ret (Numbers [m_hits m; m_misses m; m_evictions m; m_entry_count m; m_capacity m])
  | DeepClone => deep_clone c ;;; Ret Nothing
  | CopyFrom b => copy_from available_parallelism try_reserve_exact b c ;;; Ret Nothing
  end.

(** A status read tells the value even when it has expired. *)
Definition own_spec (q : LruTtlCall) : Spec K V Rep :=
  match q with
  | GetStatus k | PeekStatus k => Await (Read k) (fun r => Returns (fun a => exists b, a = Status r b))
  | Retain keep =>
      await_all (shard_wise L (fun i => Filter (on_shard L i) (judged keep true) (fun _ _ => True))) (Returns (fun _ => True))
  | ClearWithOnEvict => await_all (erase_shards L) (Returns (eq Nothing))
  | TrySetTtl t => Returns (fun a => if t =? 0 then a = Failed (inl (inr ZeroTtl)) else exists prev, a = Numbers [prev])
  | SetMaxSize n => resize_spec n
  | TrySetMaxSize n => try_resize_spec (inner c) n
  | _ => Returns (fun _ => True)
  end.

Lemma sweep_counted_does i doomed (kept : K -> V -> Prop) : (i < shard_count L)%nat ->
  (forall e k, said doomed false e -> keq k e.1 = true -> kept k (tvalue e.2)) ->
  does_all L [Filter (on_shard L i) kept (fun _ _ => True)] (sweep_counted i doomed : P _).
Proof.
  intros Hi Hk. apply does_all_then; [|intros l; silent].
  apply (does_does_all L _ _ (fun _ _ => True)). apply with_write_does; [done|by intros k Hk'%within_shard|].
  intros s m w HI. eapply wp_mono; [eapply (sweep_doomed_wp tvalue _ _ _ i s m _ kept (fun _ _ => True)); [exact HI|done|exact Hk]|..].
  - intros l s' (_ & m' & HA & HI'). exists None, m'. exact (conj HA (conj HI' I)).
  - intros s' HI'. by left.
Qed.

Lemma lru_ttl_evict_silent : does_all L [] (Concurrent.evict c : P Z).
Proof.
  simpl. unfold evict. apply does_none_then; [silent|]. intros now. apply sum_silent; [done|]. intros i Hi.
  apply does_none_then; [|intros l; silent]. apply does_none_then; [|intros l; silent].
  apply with_write_quiet; [done|]. intros s m w HI.
  eapply wp_mono; [eapply (sweep_doomed_wp tvalue _ _ _ i s m _ (fun _ _ => True) (fun _ _ => True)); [exact HI|done..]|..]; [|done].
  by intros l s' [HI' _].
Qed.

Lemma lru_ttl_own_safe q : safely L None (own_spec q) (own q) (post ends).
Proof.
  destruct q as [k|k|keep| | | |t|t| | |r|n|n| | | | | | | | | |b]; cbn [own own_spec].
  - eapply (does_bind L); [apply get_status_does|]. intros a r <-. apply post_ret. by exists a.2.
  - eapply (does_bind L); [apply peek_status_does|]. intros a r <-. apply post_ret. by exists a.2.
  - apply then_returns; [|done]. apply does_none_then; [silent|]. intros now. apply sweep_does; [done|]. intros i Hi.
    apply sweep_counted_does; [done|]. intros e k. apply judged_stale.
  - apply (then_returns L []); [apply lru_ttl_evict_silent|done].
  - apply then_returns; [|done]. apply (each_does (inner c)); [done|]. intros i Hi. apply does_all_then; [|intros l; silent].
    apply erase_shard_does; [done|]. intros s m w HI.
    eapply (drain_all_wp tvalue); [exact HI| |]; [|intros l c' HI'; exact HI']. intros k Hk. by apply Nat.eqb_eq.
  - apply (then_returns L []); [by apply ttl_duration_silent|done].
  - apply (then_returns L []); [by apply swap_ttl_silent|done].
  - unfold try_set_ttl. destruct (t =? 0); [by apply post_ret|]. skip_global g Hg. apply post_ret. by eexists.
  - apply (then_returns L []); [by apply swap_ttl_silent|done].
  - apply (then_returns L []); [by apply global_silent|done].
  - apply (then_returns L []); [by apply global_silent|done].
  - by apply (resize_safe tvalue (inner c) Hd).
  - by apply (try_resize_safe tvalue (inner c) Hd).
  - apply (then_returns L []); [|done]. unfold len, shard_sizes. silent.
  - apply (then_returns L []); [|done]. unfold shard_sizes. silent.
  - apply (then_returns L []); [|done]. unfold is_empty. silent.
  - apply (then_returns L []); [|done]. unfold cache_hits. silent.
  - apply (then_returns L []); [|done]. unfold cache_misses. silent.
  - apply (then_returns L []); [|done]. unfold cache_evictions, non_capacity_evictions. silent.
  - apply (then_returns L []); [|done]. unfold cache_capacity, capacity. silent.
  - apply (then_returns L []); [|done]. unfold metrics, capacity. silent.
  - apply (then_returns L []); [|done]. unfold deep_clone, load_refresh, capacity. silent.
  - apply (then_returns L []); [|done]. unfold copy_from. destruct (build _ _ b) as [[[c' m]|e]| |]; [|silent|by intros R q..].
    apply does_none_then; [silent|]. intros now. apply does_none_then; [|intros m'; silent]. apply copy_silent; [by apply each_lt|].
    intros i s x w (a & HM & _). apply wp_bind. eapply wp_of_outcome; [by apply iter_models|]. by apply wp_ret.
Qed.
End Own.

(** ** A built store *)
Section Built.
Context {K V W HT : Type} `{!KeyEq K, !KeyLaws K, !HashTable HT, !HashTableLaws HT, !Clock W}.
Context (available_parallelism : option Z) (try_reserve_exact : Z -> bool).
Implicit Types (b : ShardedLruTtlCacheBuilder K V W) (c : ShardedLruTtlCache K V W) (m : Memory (LruCache K (TimedEntry V) W HT) (TtlAtomics * Z)).

Definition lru_ttl_builder_ok b : Prop :=
  sizes_ok (b_shards b) (b_max_size b) (b_per_shard_max_size b) /\ exists h, b_hasher b = Some h /\ hash_ok h.

Lemma lru_ttl_built_follows b c m : lru_ttl_builder_ok b -> build available_parallelism try_reserve_exact b = Done (Ok (c, m)) ->
  exists Hd : proper (inner c), follows_map (sharded_lru_ttl_layout (HT := HT) c Hd (fun _ => True)) m (fun _ => None).
Proof.
  intros (Hs & h & Eh & Hh). unfold build, validated_parts. destruct (b_ttl b) as [t|]; [|done]. destruct (validate_ttl t); [|done].
  destruct (resolve_sizes _ _ _ _) as [[[n per] total]|e] eqn:Er; [|done].
  destruct (build_shards _ _ _ _) as [l|e] eqn:Eb; [|done]. rewrite Eh. intros [= <- <-].
  by eapply (built_shards_follow tvalue).
Qed.
End Built.

(** C16: [ShardedLruTtlCache] is one atomic map that may forget.  From any memory that follows a map -
    a freshly built store follows the empty one - any calls of the store in any interleaving,
    status reads, ttl and refresh changes, resizes and sweeps included: a keyed call is atomic, and
    what it answers is the latest value written or nothing, never a value overwritten or removed;
    a status read may answer an expired value, but only the latest; [retain] may drop a binding that
    has expired but none that its predicate kept live; no call runs for ever, none deadlocks, and
    when all are over every lock is free. *)
Theorem sharded_lru_ttl_serves {K V W HT E : Type} `{!KeyEq K, !KeyLaws K, !HashTable HT, !HashTableLaws HT, !Clock W}
    (p : option Z) (alloc : Z -> bool) (b : ShardedLruTtlCacheBuilder K V W) c (m : Memory (LruCache K (TimedEntry V) W HT) (TtlAtomics * Z)) :
  lru_ttl_builder_ok b -> build p alloc b = Done (Ok (c, m)) ->
  exists Hd : proper (inner c), let L := sharded_lru_ttl_layout (HT := HT) c Hd (fun _ => True) in
    follows_map L m (fun _ => None) /\
    forall m' x, follows_map L m' x -> serves (own p alloc c) c L (own_spec (E := E) c Hd) m' x.
Proof.
  intros Hb HB. destruct (lru_ttl_built_follows p alloc b c m Hb HB) as [Hd Hm]. exists Hd. split; [exact Hm|].
  intros m' x Hm'. apply lawful_serves; [apply sharded_lru_ttl_laws|by apply lru_ttl_own_safe|exact Hm'].
Qed.

(** *** Running alone *)
Section Alone.
Context {K V W HT : Type} `{!KeyEq K, !KeyLaws K, !HashTable HT, !HashTableLaws HT, !Clock W}.
Implicit Types (c : ShardedLruTtlCache K V W) (m : Memory (LruCache K (TimedEntry V) W HT) (TtlAtomics * Z)).
Implicit Types (a : View K (TimedEntry V) W) (w : W).

(** With refresh-on-hit the deadline starts anew, unless the ttl is off. *)
Definition renewed (g : TtlAtomics) (now : Z) (x : TimedEntry V) : TimedEntry V :=
  mkTimed (or_else_some (compute_expires_at (ttl_nanos g) now) (expires_at x)) (tvalue x).
Definition touched (g : TtlAtomics) (now : Z) (e : K * TimedEntry V) : K * TimedEntry V :=
  if refresh g then (e.1, renewed g now e.2) else e.

Lemma live_expired now (e : TimedEntry V) : live_at now e = negb (expired_at e now).
Proof. unfold live_at, expired_at. destruct (expires_at e); [|done]. apply Z.ltb_antisym. Qed.

(** The value of an entry that is there and live, and the entries a [get] leaves. *)
Definition live_value (k : K) (now : Z) a : option V :=
  find_key k (entries a) ≫= fun e : K * TimedEntry V => if expired_at e.2 now then None else Some (tvalue e.2).
Definition promoted (g : TtlAtomics) (k : K) (now : Z) a : View K (TimedEntry V) W :=
  match find_key k (entries a) with
  | Some e => if expired_at e.2 now then a else put_entries (touched g now e :: drop_key k (entries a)) a
  | None => a
  end.

Lemma s_get_if_live g k now a w : vtrack a = false -> refresh g = false ->
  s_get_if k (live now) (a, w) =
    (Done (find_key k (entries a) ≫= fun e : K * TimedEntry V => if expired_at e.2 now then None else Some e.2),
     (promoted g k now a, w)).
Proof.
  intros Ht Hg. unfold s_get_if, s_self, s_tracked, bind, gets, user, live, promoted, touched, find_key, drop_key. rewrite Hg. cbn [fst snd].
  destruct (take_key k (entries a)) as [[e r]|]; cbn [mbind option_bind];
    [rewrite live_expired; destruct (expired_at e.2 now) eqn:Ee|]; cbn; by rewrite Ht, ?Ee.
Qed.

Lemma s_update_promoted g k now a w : refresh g = true -> find_key k (entries a) ≫= (fun e : K * TimedEntry V => if expired_at e.2 now then None else Some e.2) <> None ->
  s_update k (renewed g now) (promoted (mkTtl 0 false) k now a, w) = (Done tt, (promoted g k now a, w)).
Proof.
  intros Hg. unfold promoted, touched, find_key, drop_key. rewrite Hg. cbn [refresh].
  destruct (take_key k (entries a)) as [[e r]|] eqn:Et; cbn; [|done].
  destruct (expired_at e.2 now); intros Hn; [done|].
  unfold s_update, s_self, bind, gets. cbn [fst snd entries put_entries]. rewrite find_key_cons.
  assert (keq k e.1 = true) as Hk by (by destruct (take_key_Some _ _ _ _ Et) as (? & ? & _ & _ & ? & _)).
  rewrite Hk. unfold hm_update. cbn. by rewrite Hk.
Qed.

(** The probe, alone: a live entry goes to the front, touched; otherwise nothing changes. *)
Lemma run_probe i k now m w s a : Shards.shards m !! i = Some s -> models (content s) a -> vtrack a = false ->
  exists cc, models cc (promoted (globals m).1 k now a) /\
    exec (probe i (refresh (globals m).1) k now) (m, w) = (Done (live_value k now a), (set_shard i (mkShard cc (counters s)) m, w)).
Proof.
  intros Hs HM Ht. unfold probe. destruct (refresh (globals m).1) eqn:Er.
  - destruct (refined_run _ _ _ _ _ _ _ _ (get_mut_value_refines k (live now)) HM (s_get_if_live (mkTtl 0 false) k now a w Ht eq_refl)) as (c1 & E1 & HM1).
    rewrite (run_write _ _ _ _ _ s _ _ _ Hs E1). unfold live_value.
    pose proof (s_update_promoted (globals m).1 k now a w Er) as E2.
    destruct (find_key k (entries a)) as [e|] eqn:F; cbn [mbind option_bind] in *; [destruct (expired_at e.2 now) eqn:Ee|].
    + exists c1. split; [|done]. revert HM1. unfold promoted. by rewrite F, Ee.
    + destruct (refined_run _ _ _ _ _ _ _ _ (write_entry_refines k _) HM1 (E2 ltac:(done))) as (c2 & E3 & HM2).
      exists c2. split; [done|]. rewrite (run_bind _ _ _ _ _ (exec_deadline _ _ _)).
      erewrite run_write; [|by eapply set_shard_lookup|exact E3]. by rewrite set_set_shard.
    + exists c1. split; [|done]. revert HM1. unfold promoted. by rewrite F.
  - destruct (refined_run _ _ _ _ _ _ _ _ (get_if_refines k (live now)) HM (s_get_if_live (globals m).1 k now a w Ht Er)) as (c1 & E1 & HM1).
    exists c1. split; [done|]. rewrite (run_write _ _ _ _ _ s _ _ _ Hs E1). unfold live_value.
    destruct (find_key k (entries a)) as [e|]; [|done]. cbn [mbind option_bind]. by destruct (expired_at e.2 now).
Qed.
End Alone.

(** Expiry of a [get] of the sharded LRU store, exactly, while nothing else runs: the clock is
    read once.  A key whose deadline that reading has not reached is a hit with its value; its entry
    becomes the most recently used and, with refresh-on-hit, its deadline starts anew unless the ttl
    is off.  A key whose deadline is reached is removed, counted in the shard, told to the callback,
    and is a miss; if the callback panics the entry is gone and counted, the miss is not.  An absent
    key is a miss.  No other entry moves, and the other shards are not touched. *)
Theorem sharded_lru_ttl_get {K V W HT : Type} `{!KeyEq K, !KeyLaws K, !HashTable HT, !HashTableLaws HT, !Clock W}
    (c : ShardedLruTtlCache K V W) (m : Memory (LruCache K (TimedEntry V) W HT) (TtlAtomics * Z)) k s a w now w1 :
  let i := shard_of c k in
  Shards.shards m !! i = Some s -> models (content s) a -> vtrack a = false -> clock_now w = (now, w1) ->
  exists s', let become n := set_shard i (mkShard s' n) m in
  match find_key k (entries a) with
  | None => models s' a /\ exec (cache_get c k) (m, w) = (Done None, (become (counted_miss (counters s)), w1))
  | Some e =>
      if expired_at e.2 now then
        models s' (put_entries (drop_key k (entries a)) a) /\
        exec (cache_get c k) (m, w) = expired_out (inner c) i s' (counters s) (bare e) m w1
      else
        models s' (put_entries (touched (globals m).1 now e :: drop_key k (entries a)) a) /\
        exec (cache_get c k) (m, w) = (Done (Some (tvalue e.2)), (become (counted_hit (counters s)), w1))
  end.
Proof.
  intros i Hs HM Ht Hw. unfold cache_get. fold i. unfold load_refresh. rewrite run_global by done. cbn [fst].
  rewrite (run_outside _ _ _ _ now w1) by (unfold clock_reading; by rewrite Hw). rewrite (run_lock _ _ _ _ _ s) by done.
  destruct (run_probe i k now m w1 s a Hs HM Ht) as (c1 & HM1 & E1). rewrite (run_bind _ _ _ _ _ E1).
  unfold live_value, promoted in *.
  assert (forall n, Shards.shards (set_shard i n m) !! i = Some n) as Hl by (intros n; by eapply set_shard_lookup).
  destruct (find_key k (entries a)) as [e|] eqn:F; cbn [mbind option_bind]; [destruct (expired_at e.2 now)|].
  - destruct (refined_run _ _ _ _ _ _ _ _ (pop_raw_refines k) HM1 (s_pop_run k a w1)) as (c2 & E2 & HM2).
    exists c2. split; [done|]. erewrite run_write; [|apply Hl|exact E2]. rewrite run_unlock, F, set_set_shard.
    unfold tell. rewrite (run_expired _ _ _ _ _ _ (Hl _)). apply set_shard_expired_out.
  - exists c1. split; [done|]. rewrite run_unlock. unfold add_hits. rewrite (run_last _ _ _ _ _ _ (Hl _)). by rewrite set_set_shard.
  - destruct (refined_run _ _ _ _ _ _ _ _ (pop_raw_refines k) HM1 (s_pop_run k a w1)) as (c2 & E2 & HM2).
    exists c2. split; [|erewrite run_write; [|apply Hl|exact E2]; rewrite run_unlock, F, set_set_shard; unfold add_misses; cbn [tell];
      cbn [pbind]; by rewrite (run_last _ _ _ _ _ _ (Hl _)), set_set_shard].
    by rewrite <- (drop_absent k a F).
Qed.

(** *** Witness *)

Definition lru_ttl_demo : ShardedLruTtlCacheBuilder TaggedKey.t Z Tick.t :=
  builder_on_evict Tick.log (builder_ttl_secs 60 (builder_max_size 40 (builder_shards 2 (ShardedLruTtl.builder spread)))).

Lemma lru_ttl_demo_ok : lru_ttl_builder_ok lru_ttl_demo.
Proof. split; [by split_and!|]. exists spread. split; [done|]. apply spread_ok. Qed.

(** Two shards of twenty, a minute's ttl. *)
Definition lru_ttl_demo_store : outcome (result BuildError (ShardedLruTtlCache TaggedKey.t Z Tick.t *
    Memory (LruCache TaggedKey.t (TimedEntry Z) Tick.t ListTable.t) (TtlAtomics * Z))) :=
  build (Some 8) (fun _ => true) lru_ttl_demo.

Lemma sharded_lru_ttl_serves_witness : exists c m (Hd : proper (inner c)),
  lru_ttl_demo_store = Done (Ok (c, m)) /\ shard_len (inner c) = 2%nat /\ globals m = (mkTtl (60 * 1000 * 1000 * 1000) false, 40) /\
  serves (own (Some 8) (fun _ => true) c) c (sharded_lru_ttl_layout c Hd (fun _ => True)) (own_spec (E := unit) c Hd) m (fun _ => None).
Proof.
  destruct lru_ttl_demo_store as [[[c m]|e]| |] eqn:EB; try discriminate EB.
  destruct (sharded_lru_ttl_serves (E := unit) (Some 8) (fun _ => true) lru_ttl_demo c m lru_ttl_demo_ok EB) as (Hd & Hm & H).
  exists c, m, Hd. split; [done|]. split; [by injection EB as <- _|]. split; [by injection EB as _ <-|]. by apply H.
Defined.

(** A shard that holds one entry with a deadline. *)
Lemma lru_ttl_demo_shard : exists sh : LruCache TaggedKey.t (TimedEntry Z) Tick.t ListTable.t,
  models sh (mkView [(Tick.k1, mkTimed (Some 5) 10)] 20 0 0 0 (lru_on_evict (Some Tick.log)) false).
Proof.
  destruct (build_shard (fun _ => true) (lru_on_evict (Some Tick.log)) 20) as [c|e] eqn:EB; [|discriminate EB].
  destruct (build_shard_models (fun _ => true) (lru_on_evict (Some Tick.log)) 20 c ltac:(lia) EB) as [_ HM].
  destruct (refined_run _ _ _ _ (Tick.mk 0 []) (Done None) (mkView [(Tick.k1, mkTimed (Some 5) 10)] 20 0 0 0 (lru_on_evict (Some Tick.log)) false)
    (Tick.mk 0 []) (cache_set_spec Tick.k1 (mkTimed (Some 5) 10)) HM eq_refl) as (c2 & _ & HM2). by exists c2.
Qed.

Definition lru_ttl_two : ShardedLruTtlCache TaggedKey.t Z Tick.t := mkSharded (mkInner 2 1 spread (Some Tick.log)).

(** Before the deadline and at it. *)
Lemma sharded_lru_ttl_get_witness : exists sh,
  let m := mkMemory [mkShard sh (mkCounters 0 0 0); mkShard sh (mkCounters 0 0 0)] (mkTtl 5 true, 40) in
  (exists s', exec (cache_get (HT := ListTable.t) lru_ttl_two Tick.k1') (m, Tick.mk 4 []) =
     (Done (Some 10), (set_shard 1 (mkShard s' (mkCounters 1 0 0)) m, Tick.mk 5 []))) /\
  (exists s', exec (cache_get (HT := ListTable.t) lru_ttl_two Tick.k1') (m, Tick.mk 5 []) =
     (Done None, (set_shard 1 (mkShard s' (mkCounters 0 1 1)) m, Tick.mk 6 [(Tick.k1, 10)]))).
Proof.
  destruct lru_ttl_demo_shard as [sh HM]. exists sh. cbv zeta. set (m := mkMemory _ _). set (s := mkShard sh (mkCounters 0 0 0)). split.
  - destruct (sharded_lru_ttl_get lru_ttl_two m Tick.k1' s _ (Tick.mk 4 []) 4 _ eq_refl HM eq_refl (Tick.read 4 [])) as (s' & _ & H).
    exists s'. exact H.
  - destruct (sharded_lru_ttl_get lru_ttl_two m Tick.k1' s _ (Tick.mk 5 []) 5 _ eq_refl HM eq_refl (Tick.read 5 [])) as (s' & _ & H).
    exists s'. exact H.
Defined.
