(* ===== verification/ShardExpiry.v ===== *)
(** * Expiry in the sharded stores whose values know it

    [is_expired] is user code that runs while a shard is locked: it may answer differently each
    time, and it may panic, which releases the lock.  [ShardedExpiringCache] and
    [ShardedExpiringLruCache] share this part. *)
From S2P Require Import Prelude Keys Stores Sharded Shards Concurrent ShardOps MapShards.

(** User code run by a reader of a shard. *)
Definition ask {W A} (m : User W A) : ST W A := fun w =>
  match m w with
  | (Some a, w) => (Done a, w)
  | (None, w) => (Unwind, w)
  end.

Section Expiry.
Context {K V W : Type} `{!Expires V W}.

(** [!v.is_expired()] *)
Definition unexpired (v : V) : User W bool := fun w => let '(r, w) := is_expired v w in (negb <$> r, w).

(** [Option::filter] by it. *)
Definition if_unexpired (found : option V) : ST W (option V) :=
  match found with
  | Some v => let! live := ask (unexpired v) in ret (if live then Some v else None)
  | None => ret None
  end.
Definition is_unexpired (found : option V) : ST W bool :=
  match found with
  | Some v => ask (unexpired v)
  | None => ret false
  end.

(** The value and whether it has expired. *)
Definition with_status (found : option V) : ST W (option (V * bool)) :=
  match found with
  | Some v => let! expired := ask (is_expired v) in ret (Some (v, expired))
  | None => ret None
  end.

(** [is_expired] said so of the value stored for [k]. *)
Definition said_expired (k : K) (v : V) : Prop := may_return (is_expired v) true.

(** ** Lemmas *)
Lemma wp_ask {A} (m : User W A) (Q : A -> W -> Prop) w : (forall a w', Q a w') -> wp (ask m) Q (fun _ => True) w.
Proof. intros H. unfold wp, ask. by destruct (m w) as [[a|] w']. Qed.

Lemma filter_ask_wp {A} (l : list A) (f : A -> User W bool) w :
  wp (filter_each l (fun e => ask (f e))) (fun _ _ => True) (fun _ => True) w.
Proof.
  revert w. induction l as [|e l IH]; intros w; simpl; [by apply wp_ret|]. apply wp_bind, wp_ask. intros b w'.
  apply wp_bind. eapply wp_mono; [apply IH| |done]. intros r w2 _. by apply wp_ret.
Qed.

Lemma wp_if_unexpired found (Q : option V -> W -> Prop) w : (forall w', Q None w') -> (forall w', Q found w') ->
  wp (if_unexpired found) Q (fun _ => True) w.
Proof.
  intros HN HF. destruct found as [v|]; [|by apply wp_ret]. apply wp_bind, wp_ask. intros [] w'; by apply wp_ret.
Qed.

Lemma wp_is_unexpired found (Q : bool -> W -> Prop) w : (forall w', Q false w') -> (forall w', Q (is_some found) w') ->
  wp (is_unexpired found) Q (fun _ => True) w.
Proof. intros HN HF. destruct found as [v|]; [|by apply wp_ret]. apply wp_ask. intros [] w'; [apply HF|apply HN]. Qed.

Lemma wp_with_status found (Q : option (V * bool) -> W -> Prop) w :
  (forall b w', Q ((fun v => (v, b)) <$> found) w') -> wp (with_status found) Q (fun _ => True) w.
Proof. intros H. destruct found as [v|]; [|apply wp_ret, (H false)]. apply wp_bind, wp_ask. intros b w'. apply wp_ret, (H b). Qed.

Lemma judged_unexpired `{!KeyEq K} (keep : K -> V -> User W bool) (e : K * V) k :
  said (expired_or_rejected keep) false e -> keq k e.1 = true -> judged keep true k e.2.
Proof.
  intros (w & w' & E) Hk. exists e.1. split; [done|]. unfold expired_or_rejected in E.
  destruct (is_expired e.2 w) as [[[]|] w1]; try done.
  destruct (keep e.1 e.2 w1) as [[b|] w2] eqn:Ek; [|done]. injection E as Eb <-. exists w1, w2. by destruct b.
Qed.
Lemma said_doomed `{!KeyEq K} (keep : K -> V -> User W bool) (e : K * V) k : said (expired_or_rejected keep) true e -> keq k e.1 = true ->
  said_expired k e.2 \/ judged keep false k e.2.
Proof.
  intros (w & w' & E1) Hk. unfold expired_or_rejected in E1.
  destruct (is_expired e.2 w) as [[[]|] w1] eqn:Ex; [by left; exists w, w1| |done].
  right. exists e.1. split; [done|]. destruct (keep e.1 e.2 w1) as [[b|] w2] eqn:Ek; [|done].
  injection E1 as Eb <-. exists w1, w2. by destruct b.
Qed.

End Expiry.
