(* ===== verification/ShardedExpiring.v ===== *)
(** * The sharded store of values that know their expiry ([src/stores/sharded/expiring.rs])

    Shards of [HashMap]s.  A read takes the read lock, and only when the value says it has expired
    does it come back with the write lock, ask again, and remove it.  The callback runs after the
    shard's lock has been released; [is_expired] runs under it. *)
From Stdlib Require Import String.
From S2P Require Import Prelude Keys Stores Sharded Shards Concurrent ShardOps MapShards ShardExpiry.
#[local] Close Scope string_scope.

Section ShardedExpiring.
Context {K V W : Type} `{!KeyEq K, !Expires V W}.
Notation Store := (list (K * V)).
Notation P := (Prog Store unit W).
Notation Mem := (Memory Store unit).

(** The handle behind the [Arc]. *)
Record ShardedExpiringCache : Type := mkSharded { inner : Inner K V W }.

Definition shard_of (c : ShardedExpiringCache) (k : K) : nat := index_of (inner c) k.

(** *** The store under its lock *)

Definition hm_get (k : K) (s : Store) : option V := snd <$> find_key k s.

Definition hm_remove_entry (k : K) : ST (Store * W) (option (K * V)) :=
  let! s := gets fst in
  match take_key k s with
  | Some (e, s) => modify (fun p => (s, p.2)) ;; ret (Some e)
  | None => ret None
  end.

(** [get_mut] and [replace], or [insert]; what was displaced, and whether it says it had expired. *)
Definition hm_replace (k : K) (v : V) : ST (Store * W) (option (K * V * bool)) :=
  let! s := gets fst in
  match find_key k s with
  | Some e =>
      modify (fun p => (hm_update k v s, p.2)) ;;
      let! expired := user (is_expired e.2) in
      ret (Some ((k, e.2), expired))
  | None => modify (fun p => (s ++ [(k, v)], p.2)) ;; ret None
  end.

Definition hm_clear : ST (Store * W) Z :=
  let! s := gets fst in modify (fun p => ([], p.2)) ;; ret (Z.of_nat (length s)).
Definition hm_drain : ST (Store * W) Store :=
  let! s := gets fst in modify (fun p => ([], p.2)) ;; ret s.

(** *** [ConcurrentCached] *)

(** Counted, then told. *)
Definition tell (c : ShardedExpiringCache) (shard : nat) (removed : option (K * V)) : P unit :=
  match removed with
  | Some e => add_evictions shard 1 ;;; notify (inner c) e
  | None => Ret tt
  end.

(** Back with the write lock: the entry may have been replaced meanwhile. *)
Definition get_expired (c : ShardedExpiringCache) (k : K) : P (option V) :=
  let shard := shard_of c k in
  plock shard Exclusive ;;;
  let* fresh := read_store shard (fun s => if_unexpired (hm_get k s)) in
  match fresh with
  | Some v =>
      punlock shard ;;;
      add_hits shard 1 ;;;
      Ret (Some v)
  | None =>
      let* removed := write_store shard (hm_remove_entry k) in
      punlock shard ;;;
      tell c shard removed ;;;
      add_misses shard 1 ;;;
      Ret None
  end.

Definition cache_get (c : ShardedExpiringCache) (k : K) : P (option V) :=
  let shard := shard_of c k in
  let* found := with_read shard (fun s => with_status (hm_get k s)) in
  match found with
  | None => add_misses shard 1 ;;; Ret None
  | Some (_, true) => get_expired c k
  | Some (v, false) => add_hits shard 1 ;;; Ret (Some v)
  end.

Definition cache_set (c : ShardedExpiringCache) (k : K) (v : V) : P (option V) :=
  let shard := shard_of c k in
  let* old := with_write shard (hm_replace k v) in
  match old with
  | Some (e, true) =>
      add_evictions shard 1 ;;;
      notify (inner c) e ;;;
      Ret None
  | Some (e, false) => Ret (Some e.2)
  | None => Ret None
  end.

Definition cache_remove (c : ShardedExpiringCache) (k : K) : P (option V) :=
  let shard := shard_of c k in
  let* removed := with_write shard (hm_remove_entry k) in
  match removed with
  | Some e =>
      add_evictions shard 1 ;;;
      notify (inner c) e ;;;
      let* expired := outside (is_expired e.2) in
      if (expired : bool) then Ret None else Ret (Some e.2)
  | None => Ret None
  end.

Definition cache_remove_entry (c : ShardedExpiringCache) (k : K) : P (option (K * V)) :=
  let shard := shard_of c k in
  let* removed := with_write shard (hm_remove_entry k) in
  tell c shard removed ;;;
  Ret removed.

Definition clear (c : ShardedExpiringCache) : P unit := piter (each (inner c)) (fun i => with_write i hm_clear ;;; Ret tt).
Definition cache_clear : ShardedExpiringCache -> P unit := clear.

Definition cache_reset_metrics (c : ShardedExpiringCache) : P unit :=
  piter (each (inner c)) (fun i => reset_hits i ;;; reset_misses i ;;; reset_evictions i).

Definition cache_reset (c : ShardedExpiringCache) : P unit := clear c ;;; cache_reset_metrics c.

Definition cache_contains (c : ShardedExpiringCache) (k : K) : P bool :=
  with_read (shard_of c k) (fun s => is_unexpired (hm_get k s)).

Definition peek (c : ShardedExpiringCache) (k : K) : P (option V) :=
  with_read (shard_of c k) (fun s => if_unexpired (hm_get k s)).

#[global] Instance expiring_concurrent : ConcurrentCached ShardedExpiringCache Store unit K V W := {|
  Concurrent.cache_get := cache_get;
  Concurrent.cache_set := cache_set;
  Concurrent.cache_remove := cache_remove;
  Concurrent.cache_remove_entry := cache_remove_entry;
  Concurrent.cache_contains := cache_contains;
  Concurrent.cache_clear := cache_clear;
  Concurrent.cache_reset := cache_reset;
  Concurrent.cache_reset_metrics := cache_reset_metrics |}.
#[global] Instance expiring_concurrent_peek : ConcurrentCachePeek ShardedExpiringCache Store unit K V W := {|
  Concurrent.cache_peek := peek |}.

(** *** [ConcurrentCloneCached]: an expired value is served, marked, and stays *)

Definition cache_get_with_expiry_status (c : ShardedExpiringCache) (k : K) : P (option V * bool) :=
  let shard := shard_of c k in
  let* found := with_read shard (fun s => with_status (hm_get k s)) in
  match found with
  | None => add_misses shard 1 ;;; Ret (None, false)
  | Some (v, true) => add_misses shard 1 ;;; Ret (Some v, true)
  | Some (v, false) => add_hits shard 1 ;;; Ret (Some v, false)
  end.

Definition cache_peek_with_expiry_status (c : ShardedExpiringCache) (k : K) : P (option V * bool) :=
  with_read (shard_of c k) (fun s =>
    let! found := with_status (hm_get k s) in
    ret (match found with None => (None, false) | Some (v, expired) => (Some v, expired) end)).

#[global] Instance expiring_clone_cached : ConcurrentCloneCached ShardedExpiringCache Store unit K V W := {|
  Concurrent.cache_get_with_expiry_status := cache_get_with_expiry_status;
  Concurrent.cache_peek_with_expiry_status := cache_peek_with_expiry_status |}.

(** *** Sweeps: chosen and removed under the shard's lock, then counted, then told *)

Definition sweep_counted (i : nat) (doomed : K -> V -> User W bool) : P (list (K * V)) :=
  let* removed := with_write i (take_doomed doomed) in
  count_evicted i (Z.of_nat (length removed)) ;;;
  Ret removed.

Definition evict (c : ShardedExpiringCache) : P Z :=
  sweep_shards (inner c) (fun i => sweep_counted i (fun _ v => is_expired v)).
#[global] Instance expiring_concurrent_evict : ConcurrentCacheEvict ShardedExpiringCache Store unit W := {| Concurrent.evict := evict |}.

Definition retain (c : ShardedExpiringCache) (keep : K -> V -> User W bool) : P Z :=
  sweep_shards (inner c) (fun i => sweep_counted i (expired_or_rejected keep)).

Definition cache_clear_with_on_evict (c : ShardedExpiringCache) : P unit :=
  match on_evict (inner c) with
  | None => piter (each (inner c)) (fun i => let* n := with_write i hm_clear in count_evicted i n)
  | Some _ =>
      piter (each (inner c)) (fun i =>
        let* removed := with_write i hm_drain in
        count_evicted i (Z.of_nat (length removed)) ;;;
        notify_all (inner c) removed)
  end.

(** *** Inherent methods *)

Definition size_of (s : Store) : Z := Z.of_nat (length s).
Definition shard_sizes (c : ShardedExpiringCache) : P (list Z) := sizes (inner c) size_of.
Definition len (c : ShardedExpiringCache) : P Z := let* l := shard_sizes c in Ret (wrapping_sum l).
Definition is_empty (c : ShardedExpiringCache) : P bool := all_empty size_of (each (inner c)).
Definition shards (c : ShardedExpiringCache) : nat := shard_len (inner c).
Definition cache_size (c : ShardedExpiringCache) : P (option Z) := let* n := len c in Ret (Some n).
Definition cache_hits (c : ShardedExpiringCache) : P (option Z) := let* n := sum_of (inner c) load_hits in Ret (Some n).
Definition cache_misses (c : ShardedExpiringCache) : P (option Z) := let* n := sum_of (inner c) load_misses in Ret (Some n).
Definition cache_evictions (c : ShardedExpiringCache) : P (option Z) := let* n := sum_of (inner c) load_evictions in Ret (Some n).

Definition metrics (c : ShardedExpiringCache) : P CacheMetrics :=
  let* l := pmap (each (inner c)) (fun i =>
    let* h := load_hits i in
    let* m := load_misses i in
    let* e := load_evictions i in
    let* n := with_read i (fun s : Store => ret (size_of s)) in
    Ret (h, m, (e, n))) in
  Ret (mkMetrics (Some (wrapping_sum (l.*1.*1))) (Some (wrapping_sum (l.*1.*2)))
         (Some (wrapping_sum (l.*2.*1))) (Some (wrapping_sum (l.*2.*2))) None).

(** Here the evictions are copied too. *)
Definition deep_clone (c : ShardedExpiringCache) : P (ShardedExpiringCache * Mem) :=
  let* l := pmap (each (inner c)) clone_shard_all in
  Ret (c, mkMemory l tt).

(** *** The builder *)

Record ShardedExpiringCacheBuilder : Type := mkBuilder {
  b_shards : option Z; b_capacity : option Z; b_hasher : option (K -> Z); b_on_evict : OnEvict K V W }.

(** [Default]: the default hasher. *)
Definition builder (default_hasher : K -> Z) : ShardedExpiringCacheBuilder := mkBuilder None None (Some default_hasher) None.
Definition builder_shards (n : Z) (b : ShardedExpiringCacheBuilder) :=
  mkBuilder (Some n) (b_capacity b) (b_hasher b) (b_on_evict b).
Definition builder_per_shard_initial_capacity (n : Z) (b : ShardedExpiringCacheBuilder) :=
  mkBuilder (b_shards b) (Some n) (b_hasher b) (b_on_evict b).
Definition builder_hasher (h : K -> Z) (b : ShardedExpiringCacheBuilder) :=
  mkBuilder (b_shards b) (b_capacity b) (Some h) (b_on_evict b).
Definition builder_on_evict (f : K -> V -> User W unit) (b : ShardedExpiringCacheBuilder) :=
  mkBuilder (b_shards b) (b_capacity b) (b_hasher b) (Some f).

Context (available_parallelism : option Z).

Definition build (b : ShardedExpiringCacheBuilder) : outcome (result BuildError (ShardedExpiringCache * Mem)) :=
  match checked_shard_count available_parallelism (b_shards b) with
  | Err e => Done (Err e)
  | Ok n =>
      let? h := expect (b_hasher b) in
      Done (Ok (mkSharded (mkInner (Z.to_nat n) (n - 1) h (b_on_evict b)),
                mkMemory (replicate (Z.to_nat n) (new_shard [])) tt))
  end.

Definition new (default_hasher : K -> Z) : outcome (ShardedExpiringCache * Mem) :=
  let? r := build (builder default_hasher) in match r with Ok c => Done c | Err _ => Unwind end.

(** Those that say they are live are copied, and set in the new store. *)
Definition copy_from (b : ShardedExpiringCacheBuilder) (existing : ShardedExpiringCache) :
    P (result BuildError (ShardedExpiringCache * Mem)) :=
  match build b with
  | Done (Ok (c, m)) =>
      let* m := copy_shards (fun s => filter_each s (fun e => ask (unexpired e.2)))
                  (fun m e => set_alone m (cache_set c e.1 e.2)) (each (inner existing)) m in
      Ret (Ok (c, m))
  | Done (Err e) => Ret (Err e)
  | _ => Panic
  end.
End ShardedExpiring.
Arguments ShardedExpiringCache : clear implicits.
Arguments ShardedExpiringCacheBuilder : clear implicits.
