(* ===== verification/ShardedExpiringProps.v ===== *)
(** * The sharded store of values that know their expiry is one lossy atomic map *)
From S2P Require Import Prelude Keys Stores Sharded Shards Concurrent ShardOps MapShards ShardAlone ShardExpiry ShardedExpiring.

Section Laws.
Context {K V W : Type} `{!KeyEq K, !KeyLaws K, !Expires V W}.
Context (c : ShardedExpiringCache K V W) (Hd : proper (inner c)).
Notation Store := (list (K * V)).
Notation P := (Prog Store unit W).

Definition expiring_layout : Layout Store unit K V := map_layout true id (fun _ => True) (inner c) Hd.
Notation L := expiring_layout.
Notation inv0 := (map_inv (E := V) (V := V) (index_of (inner c)) true id).
Implicit Types (m : Map K V).

Lemma expiring_shard_lt k : (shard_of c k < shard_count L)%nat.
Proof. by apply index_bound. Qed.

Lemma expiring_cong k k' : keq k k' = true -> index_of (inner c) k = index_of (inner c) k'.
Proof. by apply index_cong. Qed.

(** *** The accesses *)

Lemma get_answers i s m k : inv0 i s m -> index_of (inner c) k = i ->
  answers (V := V) true (Read k) m (hm_get k s) m /\ answers (V := V) true (Read k) m None m.
Proof.
  intros HI Hk. split; [exact (answers_read (index_of (inner c)) true id i s m k HI Hk)|by eapply answers_read_none].
Qed.

Lemma expiring_remove_wp i s m k w (Q : option (K * V) -> Store * W -> Prop) U : inv0 i s m -> index_of (inner c) k = i ->
  (forall r s', inv0 i s' (put k None m) -> inv0 i s' m -> answers true (Erase k) m (snd <$> r) (put k None m) ->
     (forall e, r = Some e -> keq k e.1 = true) -> Q r (s', w)) -> wp (hm_remove_entry k) Q U (s, w).
Proof.
  intros HI Hk HQ. unfold hm_remove_entry. apply wp_bind, wp_gets. simpl.
  pose proof (map_inv_erase (index_of (inner c)) true id _ s m k HI Hk) as HE.
  pose proof (answers_erase (index_of (inner c)) true id _ s m k HI Hk) as HA.
  unfold drop_key, lookup_val, find_key in *. destruct (take_key k s) as [[e r]|] eqn:Et.
  - apply wp_bind, wp_modify, wp_ret. destruct (take_key_Some _ _ _ _ Et) as (xs & ys & Es & Er & He & _).
    apply HQ; [done| |done|by intros e' [= <-]].
    eapply (map_inv_sublist _ _ _ _ s r [e]); [done|done|]. rewrite Es, Er. simpl. by rewrite Permutation_middle.
  - apply wp_ret. by apply HQ.
Qed.

Lemma expiring_replace_wp i s m k v w (Q : option (K * V * bool) -> Store * W -> Prop) (U : Store * W -> Prop) :
  inv0 i s m -> index_of (inner c) k = i ->
  (forall r s' w', inv0 i s' (put k (Some v) m) ->
     answers true (Write k v) m (r ≫= fun o : K * V * bool => if o.2 then None else Some o.1.2) (put k (Some v) m) -> Q r (s', w')) ->
  (forall s' w', inv0 i s' (put k (Some v) m) -> U (s', w')) ->
  wp (hm_replace k v) Q U (s, w).
Proof.
  intros HI Hk HQ HU. unfold hm_replace. apply wp_bind, wp_gets. simpl.
  destruct (get_answers i s m k HI Hk) as [[H1 _] [H2 _]]. unfold hm_get in H1.
  destruct (find_key k s) as [e|] eqn:F; apply wp_bind, wp_modify.
  - pose proof (map_inv_update (index_of (inner c)) expiring_cong true id i s m k v e HI Hk F) as HI'.
    apply wp_bind, wp_user; [|intros w' _; by apply HU]. intros b w' _. apply wp_ret, HQ; [done|].
    simpl. split; [by destruct b|done].
  - apply wp_ret, HQ; [by apply map_inv_snoc|by split].
Qed.

(** *** Calls *)

Lemma tell_all_silent k removed : does_all L [] (tell c (shard_of c k) removed).
Proof.
  unfold tell. destruct removed as [e|]; [|apply does_all_nil].
  apply does_none_then; [apply does_all_atomic, expiring_shard_lt|intros _; silent].
Qed.

Lemma remove_step_does k : does L (Erase k) (with_write (W := W) (shard_of c k) (hm_remove_entry k)) (entry_of k).
Proof.
  apply with_write_does; [apply expiring_shard_lt|done|]. intros s m w HI. eapply expiring_remove_wp; [exact HI|done|].
  intros r s' HI' _ HA He. eexists _, _. exact (conj HA (conj HI' (conj eq_refl He))).
Qed.

Lemma expiring_get_expired_does k : does L (Read k) (get_expired c k) eq.
Proof.
  intros R q. split; [done|]. split; [apply expiring_shard_lt|]. apply (read_step L); [done|]. intros s m w HI.
  destruct (get_answers _ s m k HI eq_refl) as [H1 H2].
  assert (forall v, safely L (Some (shard_of c k, Exclusive)) (q (Some v)) (punlock (shard_of c k) ;;; add_hits (shard_of c k) 1 ;;; Ret (Some v) : P _)
    (fun h t a => h = None /\ exists r, t = q r /\ a = r)) as Hhit.
  { intros v. split; [by eexists|]. apply silent_ret; [apply does_all_atomic, expiring_shard_lt|done]. }
  assert (safely L (Some (shard_of c k, Exclusive)) (q None)
    (let* removed := write_store (shard_of c k) (hm_remove_entry k) in
     punlock (shard_of c k) ;;; tell c (shard_of c k) removed ;;; add_misses (shard_of c k) 1 ;;; Ret None : P _)
    (fun h t a => h = None /\ exists r, t = q r /\ a = r)) as Hgone.
  { apply (quiet_write L). intros s2 m2 w2 HI2. eapply expiring_remove_wp; [exact HI2|done|]. intros r s3 _ HI3 _ _.
    split; [exact HI3|]. split; [by eexists|]. cbn [pbind]. apply (does_all_bind L []); [apply tell_all_silent|]. intros _.
    apply silent_ret; [apply does_all_atomic, expiring_shard_lt|done]. }
  apply wp_if_unexpired; intros w'; [by exists None|]. exists (hm_get k s). split; [exact H1|].
  destruct (hm_get k s) as [v|]; [apply Hhit|apply Hgone].
Qed.

(** A read that asks the value for its status: all of it, or the part that has not expired. *)
Lemma expiring_get_does k : does L (Read k) (cache_get c k) eq.
Proof.
  intros R q. split; [done|]. split; [apply expiring_shard_lt|]. split; [by eexists|]. intros s m w HI.
  destruct (get_answers _ s m k HI eq_refl) as [H1 H2]. apply wp_with_status. intros b w'.
  destruct (hm_get k s) as [v|]; cbn [fmap option_fmap option_map]; [destruct b|].
  - apply advance_refl. split; [exact HI|]. split; [by eexists|]. apply expiring_get_expired_does.
  - eapply advance_read; [exact H1|]. split; [exact HI|]. split; [by eexists|].
    apply silent_ret; [apply does_all_atomic, expiring_shard_lt|done].
  - eapply advance_read; [exact H2|]. split; [exact HI|]. split; [by eexists|].
    apply silent_ret; [apply does_all_atomic, expiring_shard_lt|done].
Qed.

Lemma expiring_empty_does {A} i (f : ST (Store * W) A) : (i < shard_count L)%nat ->
  (forall s w, exists a, f (s, w) = (Done a, ([], w))) -> does_all L [EraseAll (on_shard L i)] (with_write i f : P A).
Proof.
  intros Hi Hf. apply erase_shard_does; [done|]. intros s m w HI. destruct (Hf s w) as [a E1].
  eapply wp_run; [exact E1|]. apply map_inv_nil. intros k Hk. by apply Nat.eqb_eq.
Qed.

Lemma expiring_clear_all : does_all L (erase_shards L) (clear c : P unit).
Proof.
  apply (each_does (inner c)); [done|]. intros i Hi. apply does_all_then; [|intros _; silent].
  apply expiring_empty_does; [done|]. intros s w. by eexists.
Qed.

Lemma expiring_reset_silent : does_all L [] (cache_reset_metrics c : P unit).
Proof. unfold cache_reset_metrics. silent. Qed.

#[export] Instance sharded_expiring_laws : ConcurrentLaws (W := W) c L.
Proof.
  split.
  - apply expiring_get_does.
  - intros k v. apply (does_then L _ _ (fun o r => (o ≫= fun o : K * V * bool => if o.2 then None else Some o.1.2) = r)).
    + apply with_write_does; [apply expiring_shard_lt|done|]. intros s m w HI. eapply expiring_replace_wp; [exact HI|done|..].
      * intros r s' w' HI' HA. eexists _, _. exact (conj HA (conj HI' eq_refl)).
      * intros s' w' HI'. right. eexists None, _. split; [split; [by right|done]|exact HI'].
    + intros [[e []]|] r R q <-; cbn [mbind option_bind snd fst].
      * apply (does_all_bind L []); [apply does_all_atomic, expiring_shard_lt|]. intros _. apply silent_ret; [silent|done].
      * split; [done|]. by eexists.
      * split; [done|]. by eexists.
  - intros k. eapply does_then; [apply remove_step_does|]. intros e r R q [<- He]. destruct e as [e|].
    + apply (does_all_bind L []); [apply does_all_atomic, expiring_shard_lt|]. intros _.
      apply (does_all_bind L []); [silent|]. intros _.
      apply (does_all_bind L []); [silent|]. intros []; (split; [done|]); eexists; (split; [done|]); [by right|by left].
    + split; [done|]. eexists. split; [done|]. by left.
  - intros k. eapply does_then; [apply remove_step_does|]. intros e r R q He. apply silent_ret; [apply tell_all_silent|done].
  - intros k. apply with_read_does; [apply expiring_shard_lt|done|]. intros s m w HI.
    destruct (get_answers _ s m k HI eq_refl) as [H1 H2]. apply wp_is_unexpired; intros w'; [by exists None|by exists (hm_get k s)].
  - intros k. apply with_read_does; [apply expiring_shard_lt|done|]. intros s m w HI.
    destruct (get_answers _ s m k HI eq_refl) as [H1 H2]. apply wp_if_unexpired; intros w'; [by exists None|by exists (hm_get k s)].
  - apply expiring_clear_all.
  - apply does_all_then; [apply expiring_clear_all|]. intros _. apply expiring_reset_silent.
  - apply expiring_reset_silent.
Qed.

#[export] Instance sharded_expiring_clone_laws : ConcurrentCloneLaws (W := W) c L.
Proof.
  split.
  - intros k. eapply (does_then L _ _ (fun f r => fst <$> f = r)).
    + apply with_read_does; [apply expiring_shard_lt|done|]. intros s m w HI.
      destruct (get_answers _ s m k HI eq_refl) as [H1 H2]. apply wp_with_status. intros b w'.
      exists (hm_get k s). split; [exact H1|]. by destruct (hm_get k s).
    + intros [[v []]|] r R q <-; (apply silent_ret; [apply does_all_atomic, expiring_shard_lt|done]).
  - intros k. apply with_read_does; [apply expiring_shard_lt|done|]. intros s m w HI.
    destruct (get_answers _ s m k HI eq_refl) as [H1 H2]. apply wp_bind, wp_with_status. intros b w'. apply wp_ret.
    exists (hm_get k s). split; [exact H1|]. by destruct (hm_get k s).
Qed.
End Laws.

(** ** The calls of this store alone *)
Section Own.
Context {K V W E : Type} `{!KeyEq K, !KeyLaws K, !Expires V W}.
Context (available_parallelism : option Z).

Inductive ExpiringCall : Type :=
| GetStatus (k : K)
| PeekStatus (k : K)
| Retain (keep : K -> V -> User W bool)
| Evict
| ClearWithOnEvict
| Len | ShardSizes | IsEmpty | Hits | Misses | Evictions | Metrics
| DeepClone
| CopyFrom (b : ShardedExpiringCacheBuilder K V W).

Context (c : ShardedExpiringCache K V W) (Hd : proper (inner c)).
Notation L := (expiring_layout c Hd).
Notation Store := (list (K * V)).
Notation P := (Prog Store unit W).
Notation Rep := (Reply K V E).

Definition own (q : ExpiringCall) : P Rep :=
  match q with
  | GetStatus k => let* r := Concurrent.cache_get_with_expiry_status c k in Ret (Status r.1 r.2)
  | PeekStatus k => let* r := Concurrent.cache_peek_with_expiry_status c k in Ret (Status r.1 r.2)
  | Retain keep => let* n := retain c keep in Ret (Numbers [Some n])
  | Evict => let* n := Concurrent.evict c in Ret (Numbers [Some n])
  | ClearWithOnEvict => cache_clear_with_on_evict c ;;; Ret Nothing
  | Len => let* n := len c in Ret (Numbers [Some n])
  | ShardSizes => let* l := shard_sizes c in Ret (Numbers (Some <$> l))
  | IsEmpty => let* b := is_empty c in Ret (Flag b)
  | Hits => let* n := cache_hits c in Ret (Numbers [n])
  | Misses => let* n := cache_misses c in Ret (Numbers [n])
  | Evictions => let* n := cache_evictions c in Ret (Numbers [n])
  | Metrics => let* m := metrics c in Ret (Numbers [m_hits m; m_misses m; m_evictions m; m_entry_count m; m_capacity m])
  | DeepClone => deep_clone c ;;; Ret Nothing
  | CopyFrom b => copy_from available_parallelism b c ;;; Ret Nothing
  end.

(** A status read tells the value even when it has expired; an [evict] drops only what said it had. *)
Definition own_spec (q : ExpiringCall) : Spec K V Rep :=
  match q with
  | GetStatus k | PeekStatus k => Await (Read k) (fun r => Returns (fun a => exists b, a = Status r b))
  | Retain keep =>
      await_all (shard_wise L (fun i => Filter (on_shard L i) (judged keep true) (fun k v => said_expired k v \/ judged keep false k v))) (Returns (fun _ => True))
  | Evict => await_all (shard_wise L (fun i => Filter (on_shard L i) (fun _ _ => True) said_expired)) (Returns (fun _ => True))
  | ClearWithOnEvict => await_all (erase_shards L) (Returns (eq Nothing))
  | _ => Returns (fun _ => True)
  end.

Lemma expiring_sweep_does i doomed (kept dropped : K -> V -> Prop) : (i < shard_count L)%nat ->
  (forall e k, said doomed false e -> keq k e.1 = true -> kept k e.2) ->
  (forall e k, said doomed true e -> keq k e.1 = true -> dropped k e.2) ->
  does_all L [Filter (on_shard L i) kept dropped] (sweep_counted i doomed : P _).
Proof.
  intros Hi Hk Hx. apply does_all_then; [|intros l; silent].
  apply (does_does_all L _ _ (fun _ _ => True)). apply with_write_does; [done|by intros k Hk'%within_shard|].
  intros s m w HI. eapply wp_mono; [apply (take_doomed_said doomed s w), HI|..].
  - intros l s' (Hp & D' & H1 & H2). rewrite Forall_forall in H1, H2.
    destruct (map_inv_filter (index_of (inner c)) true id i s s'.1 l m kept dropped None HI Hp) as (m' & HA & HI').
    + intros e k He. by apply Hx, H1.
    + intros e k He. by apply Hk, H2.
    + exists None, m'. exact (conj HA (conj HI' I)).
  - intros s' ->. by left.
Qed.

Lemma expiring_own_safe q : safely L None (own_spec q) (own q) (post ends).
Proof.
  destruct q as [k|k|keep| | | | | | | | | | |b]; cbn [own own_spec].
  - eapply (does_bind L); [apply get_status_does|]. intros a r <-. apply post_ret. by exists a.2.
  - eapply (does_bind L); [apply peek_status_does|]. intros a r <-. apply post_ret. by exists a.2.
  - apply then_returns; [|done]. apply sweep_does; [done|]. intros i Hi. apply expiring_sweep_does; [done|..].
    + intros e k. apply judged_unexpired.
    + intros e k. apply said_doomed.
  - apply then_returns; [|done]. apply sweep_does; [done|]. intros i Hi. apply expiring_sweep_does; [done|done|].
    by intros e k (w & w' & Hs) _; exists w, w'.
  - apply then_returns; [|done]. unfold cache_clear_with_on_evict. destruct (on_evict (inner c)) as [f|];
      (apply (each_does (inner c)); [done|]; intros i Hi; apply does_all_then;
       [apply expiring_empty_does; [done|]; intros s w; by eexists|intros l; silent]).
  - apply (then_returns L []); [|done]. unfold len, shard_sizes. silent.
  - apply (then_returns L []); [|done]. unfold shard_sizes. silent.
  - apply (then_returns L []); [|done]. unfold is_empty. silent.
  - apply (then_returns L []); [|done]. unfold cache_hits. silent.
  - apply (then_returns L []); [|done]. unfold cache_misses. silent.
  - apply (then_returns L []); [|done]. unfold cache_evictions. silent.
  - apply (then_returns L []); [|done]. unfold metrics. silent.
  - apply (then_returns L []); [|done]. unfold deep_clone. silent.
  - apply (then_returns L []); [|done]. unfold copy_from. destruct (build _ b) as [[[c' m]|e]| |]; [|silent|by intros R q..].
    apply does_none_then; [|intros m'; silent]. apply copy_silent; [by apply each_lt|].
    intros i s x w HI. by apply filter_ask_wp.
Qed.
End Own.

(** ** A built store *)
Section Built.
Context {K V W : Type} `{!KeyEq K, !KeyLaws K, !Expires V W} (available_parallelism : option Z).
Implicit Types (b : ShardedExpiringCacheBuilder K V W) (c : ShardedExpiringCache K V W).

Definition expiring_builder_ok b : Prop :=
  match b_shards b with Some n => 0 <= n | None => True end /\ exists h, b_hasher b = Some h /\ hash_ok h.

Lemma expiring_built_follows b c m : expiring_builder_ok b -> build available_parallelism b = Done (Ok (c, m)) ->
  exists Hd : proper (inner c), follows_map (expiring_layout c Hd) m (fun _ => None).
Proof.
  intros [Hn (h & Eh & Hh)]. unfold build.
  destruct (checked_shard_count _ _) as [n|] eqn:En; [|done].
  rewrite Eh. intros [= <- <-]. destruct (checked_shard_count_spec _ _ _ En Hn) as [Hp Hr].
  exists (built_proper n h (b_on_evict b) Hp (proj1 Hr) Hh). split_and!; simpl; [by rewrite length_replicate| |done].
  intros i s [-> _]%lookup_replicate. split_and!; [done|by intros e He%elem_of_nil|]. intros k _. by left.
Qed.
End Built.

(** C15: [ShardedExpiringCache] is one atomic map that may forget, whatever [is_expired] answers and
    even if it panics under a lock.  From any memory that follows a map - a freshly built store
    follows the empty one - any calls of the store in any interleaving: a keyed call is atomic, and
    what it answers is the latest value written or nothing, never a value overwritten or removed;
    [evict] drops a binding only if its value said it had expired, and [retain] only if the value or
    the predicate did; no call runs for ever, none deadlocks, and when all are over every lock is
    free. *)
Theorem sharded_expiring_serves {K V W E : Type} `{!KeyEq K, !KeyLaws K, !Expires V W}
    (p : option Z) (b : ShardedExpiringCacheBuilder K V W) c m :
  expiring_builder_ok b -> build p b = Done (Ok (c, m)) ->
  exists Hd : proper (inner c), let L := expiring_layout c Hd in
    follows_map L m (fun _ => None) /\
    forall m' x, follows_map L m' x -> serves (own p c) c L (own_spec (E := E) c Hd) m' x.
Proof.
  intros Hb HB. destruct (expiring_built_follows p b c m Hb HB) as [Hd Hm]. exists Hd. split; [exact Hm|].
  intros m' x Hm'. apply lawful_serves; [apply sharded_expiring_laws|by apply expiring_own_safe|exact Hm'].
Qed.

(** *** Running alone *)
Section Alone.
Context {K V W : Type} `{!KeyEq K, !KeyLaws K, !Expires V W}.
Implicit Types (c : ShardedExpiringCache K V W) (m : Memory (list (K * V)) unit).

(** What a [get] that runs alone does: the value is asked under the read lock and, if it says it has
    expired, once more under the write lock. *)
Definition expiring_got c (k : K) (s : Shard (list (K * V))) m (w : W) : outcome (option V) * (Memory (list (K * V)) unit * W) :=
  let counted n := set_shard (shard_of c k) (mkShard (content s) n) m in
  match find_key k (content s) with
  | None => (Done None, (counted (counted_miss (counters s)), w))
  | Some e =>
      match is_expired e.2 w with
      | (None, w1) => (Unwind, (m, w1))
      | (Some false, w1) => (Done (Some e.2), (counted (counted_hit (counters s)), w1))
      | (Some true, w1) =>
          match is_expired e.2 w1 with
          | (None, w2) => (Unwind, (m, w2))
          | (Some false, w2) => (Done (Some e.2), (counted (counted_hit (counters s)), w2))
          | (Some true, w2) => expired_out (inner c) (shard_of c k) (drop_key k (content s)) (counters s) e m w2
          end
      end
  end.

Lemma hm_remove_run k (s : list (K * V)) (w : W) e : find_key k s = Some e -> hm_remove_entry k (s, w) = (Done (Some e), (drop_key k s, w)).
Proof.
  intros F. unfold hm_remove_entry, bind, gets, drop_key. unfold find_key in F. cbn [fst].
  destruct (take_key k s) as [[e' r]|]; [|done]. by injection F as ->.
Qed.

Lemma exec_get_expired c k m s w e : Shards.shards m !! shard_of c k = Some s -> find_key k (content s) = Some e ->
  exec (get_expired c k) (m, w) =
    match is_expired e.2 w with
    | (None, w1) => (Unwind, (m, w1))
    | (Some false, w1) => (Done (Some e.2), (set_shard (shard_of c k) (mkShard (content s) (counted_hit (counters s))) m, w1))
    | (Some true, w1) => expired_out (inner c) (shard_of c k) (drop_key k (content s)) (counters s) e m w1
    end.
Proof.
  intros Hs F. unfold get_expired. rewrite (run_lock _ _ _ _ _ s) by done.
  assert (forall x, if_unexpired (hm_get k (content s)) x =
    match is_expired e.2 x with
    | (None, x1) => (Unwind, x1) | (Some b, x1) => (Done (if b then None else Some e.2), x1) end) as Ef.
  { intros x. unfold if_unexpired, hm_get, bind, ask, unexpired. rewrite F. cbn.
    by destruct (is_expired e.2 x) as [[[]|] x1]. }
  specialize (Ef w). destruct (is_expired e.2 w) as [[[]|] w1].
  - rewrite (run_read _ _ _ _ _ s _ _ Hs Ef), (run_write _ _ _ _ _ s _ _ _ Hs (hm_remove_run _ _ _ _ F)), run_unlock. unfold tell.
    erewrite run_expired by (by eapply set_shard_lookup). apply set_shard_expired_out.
  - rewrite (run_read _ _ _ _ _ s _ _ Hs Ef), run_unlock. unfold add_hits. by rewrite (run_last _ _ _ _ _ s).
  - by rewrite (run_read_unwind _ _ _ _ _ s _ Hs Ef).
Qed.

Lemma exec_expiring_get c k m s w : Shards.shards m !! shard_of c k = Some s -> exec (cache_get c k) (m, w) = expiring_got c k s m w.
Proof.
  intros Hs. unfold cache_get, expiring_got. destruct (find_key k (content s)) as [e|] eqn:F.
  - assert (with_status (hm_get k (content s)) w =
      match is_expired e.2 w with (None, w1) => (Unwind, w1) | (Some b, w1) => (Done (Some (e.2, b)), w1) end) as Ef.
    { unfold with_status, hm_get, bind, ask. rewrite F. cbn. by destruct (is_expired e.2 w) as [[[]|] x1]. }
    destruct (is_expired e.2 w) as [[[]|] w1].
    + rewrite (run_with_read _ _ _ _ _ s _ _ Hs Ef). by apply exec_get_expired.
    + rewrite (run_with_read _ _ _ _ _ s _ _ Hs Ef). unfold add_hits. by rewrite (run_last _ _ _ _ _ s).
    + by rewrite (run_with_read_unwind _ _ _ _ _ s _ Hs Ef).
  - rewrite (run_with_read _ _ _ _ _ s None w Hs) by (unfold hm_get; by rewrite F). unfold add_misses. by rewrite (run_last _ _ _ _ _ s).
Qed.
End Alone.

(** Expiry of a sharded [get], exactly, while nothing else runs, whatever [is_expired] does.  An
    absent key is a miss and no value is asked.  A value that says it is live, at the first or at the
    second asking, is a hit and nothing moves.  A value that says twice that it has expired is
    removed, counted, told to the callback, and is a miss; if the callback panics the entry is gone
    and counted, the miss is not.  If [is_expired] itself panics, nothing has changed. *)
Theorem sharded_expiring_get {K V W : Type} `{!KeyEq K, !Expires V W} (c : ShardedExpiringCache K V W) k m s w :
  Shards.shards m !! shard_of c k = Some s -> exec (cache_get c k) (m, w) = expiring_got c k s m w.
Proof. apply exec_expiring_get. Qed.

(** *** Witness: values that are their own deadlines *)

#[local] Instance own_deadline : Expires Z Tick.t := {| is_expired v w := (Some (v <=? Tick.time w), w) |}.

Definition expiring_demo : ShardedExpiringCacheBuilder TaggedKey.t Z Tick.t :=
  builder_on_evict Tick.log (builder_shards 2 (builder spread)).

Lemma expiring_demo_ok : expiring_builder_ok expiring_demo.
Proof. split; [done|]. exists spread. split; [done|]. apply spread_ok. Qed.

Lemma sharded_expiring_serves_witness : exists c m (Hd : proper (inner c)),
  build (Some 8) expiring_demo = Done (Ok (c, m)) /\ shard_len (inner c) = 2%nat /\
  serves (own (Some 8) c) c (expiring_layout c Hd) (own_spec (E := unit) c Hd) m (fun _ => None).
Proof.
  destruct (build (Some 8) expiring_demo) as [[[c m]|e]| |] eqn:EB; try discriminate EB.
  destruct (sharded_expiring_serves (E := unit) (Some 8) expiring_demo c m expiring_demo_ok EB) as (Hd & Hm & H).
  exists c, m, Hd. split; [done|]. split; [by injection EB as <- _|]. by apply H.
Defined.

Definition expiring_two : ShardedExpiringCache TaggedKey.t Z Tick.t := mkSharded (mkInner 2 1 spread (Some Tick.log)).
Definition expiring_shard : Shard (list (TaggedKey.t * Z)) := mkShard [(Tick.k1, 10)] (mkCounters 0 0 0).
Definition expiring_memory : Memory (list (TaggedKey.t * Z)) unit := mkMemory [mkShard [] (mkCounters 0 0 0); expiring_shard] tt.

Lemma sharded_expiring_get_witness :
  exec (cache_get expiring_two Tick.k1') (expiring_memory, Tick.mk 9 []) =
    (Done (Some 10), (set_shard 1 (mkShard [(Tick.k1, 10)] (mkCounters 1 0 0)) expiring_memory, Tick.mk 9 [])) /\
  exec (cache_get expiring_two Tick.k1') (expiring_memory, Tick.mk 10 []) =
    (Done None, (set_shard 1 (mkShard [] (mkCounters 0 1 1)) expiring_memory, Tick.mk 10 [(Tick.k1, 10)])).
Proof.
  split.
  - exact (sharded_expiring_get expiring_two Tick.k1' expiring_memory expiring_shard (Tick.mk 9 []) eq_refl).
  - exact (sharded_expiring_get expiring_two Tick.k1' expiring_memory expiring_shard (Tick.mk 10 []) eq_refl).
Defined.
