(* ===== verification/ShardedExpiringLru.v ===== *)
(** * The sharded LRU store of values that know their expiry ([src/stores/sharded/expiring_lru.rs])

    Shards of [LruCache]s.  A read takes the write lock; [is_expired] runs under it.  An expired
    entry found by a read is counted in the shard's counter; removals and displaced expired values
    in the inner store's, under the lock.  The callback runs under the lock for a capacity
    eviction, and after it in every other case. *)
From Stdlib Require Import String.
From S2P Require Import Prelude Keys Stores LruList HashTable Lru Sharded Shards Concurrent ShardOps MapShards ShardExpiry LruShards.
#[local] Close Scope string_scope.

Section ShardedExpiringLru.
Context {K V W HT : Type} `{!KeyEq K, !HashTable HT, !Expires V W}.
Notation Store := (LruCache K V W HT).
(** [total_capacity] *)
Notation P := (Prog Store Z W).
Notation Mem := (Memory Store Z).

(** The handle behind the [Arc]. *)
Record ShardedExpiringLruCache : Type := mkSharded { inner : Inner K V W }.

Definition shard_of (c : ShardedExpiringLruCache) (k : K) : nat := index_of (inner c) k.

(** *** [ConcurrentCached] *)

(** Counted in the shard, then told. *)
Definition tell (c : ShardedExpiringLruCache) (shard : nat) (removed : option (K * V)) : P unit :=
  match removed with
  | Some e => add_evictions shard 1 ;;; notify (inner c) e
  | None => Ret tt
  end.

Definition cache_get (c : ShardedExpiringLruCache) (k : K) : P (option V) :=
  let shard := shard_of c k in
  plock shard Exclusive ;;;
  let* value := write_store shard (Lru.get_if k unexpired) in
  match value with
  | Some v =>
      punlock shard ;;;
      add_hits shard 1 ;;;
      Ret (Some v)
  | None =>
      let* removed := write_store shard (Lru.pop_raw k) in
      punlock shard ;;;
      tell c shard removed ;;;
      add_misses shard 1 ;;;
      Ret None
  end.

(** With a callback the stored key is wanted too. *)
Definition displace (c : ShardedExpiringLruCache) (k : K) (v : V) : ST (Store * W) (option (option K * V)) :=
  match on_evict (inner c) with
  | Some _ => let! old := Lru.cache_set_returning_entry k v in ret ((fun e => (Some e.1, e.2)) <$> old)
  | None => let! old := Lru.cache_set k v in ret ((fun v => (None, v)) <$> old)
  end.

(** The displaced value is asked, and counted if it has expired, under the lock. *)
Definition displace_counted (c : ShardedExpiringLruCache) (k : K) (v : V) : ST (Store * W) (option (option K * V * bool)) :=
  let! old := displace c k v in
  match old with
  | Some e =>
      let! expired := user (is_expired e.2) in
      (if expired then Lru.count_evictions 1 else ret tt) ;;
      ret (Some (e, expired))
  | None => ret None
  end.

Definition cache_set (c : ShardedExpiringLruCache) (k : K) (v : V) : P (option V) :=
  let* old := with_write (shard_of c k) (displace_counted c k v) in
  match old with
  | Some ((key, ov), true) =>
      (match key with Some key => notify (inner c) (key, ov) | None => Ret tt end) ;;;
      Ret None
  | Some ((_, ov), false) => Ret (Some ov)
  | None => Ret None
  end.

Definition cache_remove (c : ShardedExpiringLruCache) (k : K) : P (option V) :=
  let* removed := with_write (shard_of c k) (pop_counted k) in
  match removed with
  | Some e =>
      notify (inner c) e ;;;
      let* expired := outside (is_expired e.2) in
      if (expired : bool) then Ret None else Ret (Some e.2)
  | None => Ret None
  end.

Definition cache_remove_entry (c : ShardedExpiringLruCache) (k : K) : P (option (K * V)) :=
  let* removed := with_write (shard_of c k) (pop_counted k) in
  match removed with
  | Some e => notify (inner c) e ;;; Ret (Some e)
  | None => Ret None
  end.

Definition clear (c : ShardedExpiringLruCache) : P unit := piter (each (inner c)) (fun i => with_write i Lru.cache_clear).
Definition cache_clear : ShardedExpiringLruCache -> P unit := clear.

Definition cache_reset_metrics (c : ShardedExpiringLruCache) : P unit :=
  piter (each (inner c)) (fun i =>
    reset_hits i ;;; reset_misses i ;;; reset_evictions i ;;; with_write i Lru.cache_reset_metrics).

Definition cache_reset (c : ShardedExpiringLruCache) : P unit := clear c ;;; cache_reset_metrics c.

Definition cache_contains (c : ShardedExpiringLruCache) (k : K) : P bool :=
  with_read (shard_of c k) (fun s => let! r := of_outcome (Lru.cache_peek s k) in is_unexpired r).

Definition peek (c : ShardedExpiringLruCache) (k : K) : P (option V) :=
  with_read (shard_of c k) (fun s => let! r := of_outcome (Lru.cache_peek s k) in if_unexpired r).

#[global] Instance expiring_lru_concurrent : ConcurrentCached ShardedExpiringLruCache Store Z K V W := {|
  Concurrent.cache_get := cache_get;
  Concurrent.cache_set := cache_set;
  Concurrent.cache_remove := cache_remove;
  Concurrent.cache_remove_entry := cache_remove_entry;
  Concurrent.cache_contains := cache_contains;
  Concurrent.cache_clear := cache_clear;
  Concurrent.cache_reset := cache_reset;
  Concurrent.cache_reset_metrics := cache_reset_metrics |}.
#[global] Instance expiring_lru_concurrent_peek : ConcurrentCachePeek ShardedExpiringLruCache Store Z K V W := {|
  Concurrent.cache_peek := peek |}.

(** *** [ConcurrentCloneCached]: an expired value is served, marked, and stays *)

Definition cache_get_with_expiry_status (c : ShardedExpiringLruCache) (k : K) : P (option V * bool) :=
  let shard := shard_of c k in
  plock shard Exclusive ;;;
  let* found := read_store shard (fun s => let! r := of_outcome (Lru.cache_peek s k) in with_status r) in
  match found with
  | None =>
      punlock shard ;;;
      add_misses shard 1 ;;;
      Ret (None, false)
  | Some (peeked, true) =>
      punlock shard ;;;
      add_misses shard 1 ;;;
      Ret (Some peeked, true)
  | Some (_, false) =>
      let* value := write_store shard (Lru.cache_get k) in
      punlock shard ;;;
      add_hits shard 1 ;;;
      Ret (value, false)
  end.

Definition cache_peek_with_expiry_status (c : ShardedExpiringLruCache) (k : K) : P (option V * bool) :=
  with_read (shard_of c k) (fun s =>
    let! r := of_outcome (Lru.cache_peek s k) in
    let! found := with_status r in
    ret (match found with None => (None, false) | Some (v, expired) => (Some v, expired) end)).

#[global] Instance expiring_lru_clone_cached : ConcurrentCloneCached ShardedExpiringLruCache Store Z K V W := {|
  Concurrent.cache_get_with_expiry_status := cache_get_with_expiry_status;
  Concurrent.cache_peek_with_expiry_status := cache_peek_with_expiry_status |}.

(** *** Sweeps *)

(** The doomed entries of a shard go under its lock; then they are counted in the shard. *)
Definition sweep_counted (i : nat) (doomed : K -> V -> User W bool) : P (list (K * V)) :=
  let* removed := with_write i (sweep_doomed doomed) in
  count_evicted i (Z.of_nat (length removed)) ;;;
  Ret removed.

Definition evict (c : ShardedExpiringLruCache) : P Z :=
  sweep_shards (inner c) (fun i => sweep_counted i (fun _ v => is_expired v)).
#[global] Instance expiring_lru_concurrent_evict : ConcurrentCacheEvict ShardedExpiringLruCache Store Z W := {| Concurrent.evict := evict |}.

Definition retain (c : ShardedExpiringLruCache) (keep : K -> V -> User W bool) : P Z :=
  sweep_shards (inner c) (fun i => sweep_counted i (expired_or_rejected keep)).

(** Here the inner store counts. *)
Definition cache_clear_with_on_evict (c : ShardedExpiringLruCache) : P unit :=
  piter (each (inner c)) (fun i =>
    let* removed := with_write i (let! removed := Lru.drain_all in count_removed removed ;; ret removed) in
    notify_all (inner c) removed).

(** *** Inherent methods *)

Definition shard_sizes (c : ShardedExpiringLruCache) : P (list Z) := sizes (inner c) Lru.cache_size.
Definition len (c : ShardedExpiringLruCache) : P Z := let* l := shard_sizes c in Ret (wrapping_sum l).
Definition is_empty (c : ShardedExpiringLruCache) : P bool := all_empty Lru.cache_size (each (inner c)).
Definition shards (c : ShardedExpiringLruCache) : nat := shard_len (inner c).
Definition capacity (c : ShardedExpiringLruCache) : P Z := global (fun total => (total, total)).
Definition non_capacity_evictions (c : ShardedExpiringLruCache) : P Z := sum_of (inner c) load_evictions.

Definition cache_size (c : ShardedExpiringLruCache) : P (option Z) := let* n := len c in Ret (Some n).
Definition cache_hits (c : ShardedExpiringLruCache) : P (option Z) := let* n := sum_of (inner c) load_hits in Ret (Some n).
Definition cache_misses (c : ShardedExpiringLruCache) : P (option Z) := let* n := sum_of (inner c) load_misses in Ret (Some n).
Definition cache_evictions (c : ShardedExpiringLruCache) : P (option Z) :=
  let* lru := sum_of (inner c) (fun i => with_read i (fun s => ret (Lru.evictions s))) in
  let* rest := non_capacity_evictions c in
  Ret (Some (wrapping_sum [lru; rest])).
Definition cache_capacity (c : ShardedExpiringLruCache) : P (option Z) := let* n := capacity c in Ret (Some n).

Definition metrics (c : ShardedExpiringLruCache) : P CacheMetrics :=
  let* l := pmap (each (inner c)) (fun i =>
    let* h := load_hits i in
    let* m := load_misses i in
    let* other := load_evictions i in
    let* en := with_read i (fun s : Store => ret (Lru.evictions s, Lru.cache_size s)) in
    Ret (h, m, (other, en))) in
  let* total := capacity c in
  Ret (mkMetrics (Some (wrapping_sum (l.*1.*1))) (Some (wrapping_sum (l.*1.*2)))
         (Some (wrapping_sum [wrapping_sum (l.*2.*2.*1); wrapping_sum (l.*2.*1)]))
         (Some (wrapping_sum (l.*2.*2.*2))) (Some total)).

Definition swap_total (total_cap total : Z) : Z * Z := (total, total_cap).
Definition set_max_size (c : ShardedExpiringLruCache) (max_size : Z) : P (option Z) := resize (inner c) swap_total max_size.
Definition try_set_max_size (c : ShardedExpiringLruCache) (max_size : Z) : P (result SetMaxSizeError (option Z)) :=
  try_resize (inner c) swap_total max_size.

(** The evictions of the shards are copied too. *)
Definition deep_clone (c : ShardedExpiringLruCache) : P (ShardedExpiringLruCache * Mem) :=
  let* l := pmap (each (inner c)) clone_shard_all in
  let* total := capacity c in
  Ret (c, mkMemory l total).

(** *** The builder *)

Record ShardedExpiringLruCacheBuilder : Type := mkBuilder {
  b_shards : option Z; b_max_size : option Z; b_per_shard_max_size : option Z;
  b_hasher : option (K -> Z); b_on_evict : OnEvict K V W }.

(** [Default]: the default hasher. *)
Definition builder (default_hasher : K -> Z) : ShardedExpiringLruCacheBuilder :=
  mkBuilder None None None (Some default_hasher) None.
Definition builder_max_size (n : Z) (b : ShardedExpiringLruCacheBuilder) :=
  mkBuilder (b_shards b) (Some n) (b_per_shard_max_size b) (b_hasher b) (b_on_evict b).
Definition builder_per_shard_max_size (n : Z) (b : ShardedExpiringLruCacheBuilder) :=
  mkBuilder (b_shards b) (b_max_size b) (Some n) (b_hasher b) (b_on_evict b).
Definition builder_shards (n : Z) (b : ShardedExpiringLruCacheBuilder) :=
  mkBuilder (Some n) (b_max_size b) (b_per_shard_max_size b) (b_hasher b) (b_on_evict b).
Definition builder_hasher (h : K -> Z) (b : ShardedExpiringLruCacheBuilder) :=
  mkBuilder (b_shards b) (b_max_size b) (b_per_shard_max_size b) (Some h) (b_on_evict b).
Definition builder_on_evict (f : K -> V -> User W unit) (b : ShardedExpiringLruCacheBuilder) :=
  mkBuilder (b_shards b) (b_max_size b) (b_per_shard_max_size b) (b_hasher b) (Some f).

Context (available_parallelism : option Z) (try_reserve_exact : Z -> bool).

Definition build (b : ShardedExpiringLruCacheBuilder) : outcome (result BuildError (ShardedExpiringLruCache * Mem)) :=
  match resolve_sizes available_parallelism (b_shards b) (b_max_size b) (b_per_shard_max_size b) with
  | Err e => Done (Err e)
  | Ok (n, per_shard_cap, total_cap) =>
      match build_shards try_reserve_exact (b_on_evict b) per_shard_cap (Z.to_nat n) with
      | Err e => Done (Err e)
      | Ok shards =>
          let? h := expect (b_hasher b) in
          Done (Ok (mkSharded (mkInner (Z.to_nat n) (n - 1) h (b_on_evict b)), mkMemory shards total_cap))
      end
  end.

Definition new (default_hasher : K -> Z) (max_size : Z) : outcome (ShardedExpiringLruCache * Mem) :=
  let? r := build (builder_max_size max_size (builder default_hasher)) in
  match r with Ok c => Done c | Err _ => Unwind end.

(** Least recently used entries first; each is asked when its turn comes. *)
Definition copy_from (b : ShardedExpiringLruCacheBuilder) (existing : ShardedExpiringLruCache) :
    P (result BuildError (ShardedExpiringLruCache * Mem)) :=
  match build b with
  | Done (Ok (c, m)) =>
      let* m := copy_shards (fun s => let! l := of_outcome (iter_order_raw s) in ret (rev l))
        (fun m (e : K * V) w =>
           match is_expired e.2 w with
           | (Some true, w) => (Some m, w)
           | (Some false, w) => set_alone m (cache_set c e.1 e.2) w
           | (None, w) => (None, w)
           end)
        (each (inner existing)) m in
      Ret (Ok (c, m))
  | Done (Err e) => Ret (Err e)
  | _ => Panic
  end.
End ShardedExpiringLru.
Arguments ShardedExpiringLruCache : clear implicits.
Arguments ShardedExpiringLruCacheBuilder : clear implicits.
