(* ===== verification/ShardedExpiringLruProps.v ===== *)
(** * The sharded LRU store of values that know their expiry is one lossy atomic map *)
From S2P Require Import Prelude Keys Stores LruList HashTable Lru LruSpec LruRefine LruProps Sharded Shards Concurrent ShardOps MapShards ShardAlone ShardExpiry LruShards ShardedExpiringLru.

Section Laws.
Context {K V W HT : Type} `{!KeyEq K, !KeyLaws K, !HashTable HT, !HashTableLaws HT, !Expires V W}.
Context (c : ShardedExpiringLruCache K V W) (Hd : proper (inner c)) (capok : Z -> Prop).
Notation Store := (LruCache K V W HT).
Notation P := (Prog Store Z W).

Definition sharded_expiring_lru_layout : Layout Store Z K V :=
  lru_layout id (inner c) Hd (on_evict (inner c)) capok (fun _ => True).
Notation L := sharded_expiring_lru_layout.
Implicit Types (m : Map K V).

Lemma exp_lru_shard_lt k : (shard_of c k < shard_count L)%nat.
Proof. by apply index_bound. Qed.

Lemma exp_lru_tell_silent k removed : does_all L [] (tell c (shard_of c k) removed : P unit).
Proof.
  unfold tell. destruct removed as [e|]; [|apply does_all_nil].
  apply does_none_then; [apply does_all_atomic, exp_lru_shard_lt|intros _; silent].
Qed.

Lemma exp_lru_pop_does k : does L (Erase k) (with_write (W := W) (shard_of c k) (pop_counted k)) (entry_of k).
Proof.
  apply with_write_does; [apply exp_lru_shard_lt|done|]. intros s m w HI.
  eapply (pop_counted_wp id); [exact HI|done|]. intros r s' HI' HA He. eexists _, _.
  refine (conj HA (conj HI' (conj _ He))). by destruct r.
Qed.

Lemma exp_lru_get_does k : does L (Read k) (cache_get c k : P _) eq.
Proof.
  intros R q. split; [done|]. split; [apply exp_lru_shard_lt|]. split; [done|]. intros s m w HI.
  eapply (lru_get_if_wp id); [exact HI|done|..]; [|intros s' w' HI'; by apply advance_refl].
  intros [v|] s' w' HI' HA; (eapply advance_read; [exact HA|]); (split; [exact HI'|]).
  - split; [by eexists|]. apply silent_ret; [apply does_all_atomic, exp_lru_shard_lt|done].
  - apply (quiet_write L). intros s2 m2 w2 HI2. eapply (pop_raw_wp id); [exact HI2|done|]. intros e s3 _ _ _ HI3.
    split; [exact HI3|]. split; [by eexists|]. cbn [pbind].
    apply (does_all_bind L []); [apply exp_lru_tell_silent|]. intros _. apply silent_ret; [apply does_all_atomic, exp_lru_shard_lt|done].
Qed.

(** *** Setting *)

Lemma displace_wp i s m k v w (Q : option (option K * V) -> Store * W -> Prop) U : inv L i s m -> index_of (inner c) k = i ->
  (forall r s' w', inv L i s' (put k (Some v) m) -> told true (snd <$> r) (m k) -> Q r (s', w')) ->
  (forall s' w', inv L i s' (put k (Some v) m) -> U (s', w')) -> wp (displace c k v) Q U (s, w).
Proof.
  intros HI Hk HQ HU. unfold displace. destruct (on_evict (inner c)); apply wp_bind.
  - eapply (lru_set_returning_wp id _ Hd); [exact HI|done|..]; [|exact HU].
    intros r s' w' HI' [HA _] _. apply wp_ret, HQ; [exact HI'|]. by destruct r.
  - eapply (lru_set_wp id _ Hd); [exact HI|done|..]; [|exact HU].
    intros r s' w' HI' [HA _]. apply wp_ret, HQ; [exact HI'|]. by destruct r.
Qed.

Definition withheld (o : option (option K * V * bool)) : option V :=
  o ≫= fun o : option K * V * bool => if o.2 then None else Some o.1.2.

Lemma displace_counted_wp i s m k v w (Q : option (option K * V * bool) -> Store * W -> Prop) U :
  inv L i s m -> index_of (inner c) k = i ->
  (forall r s' w', inv L i s' (put k (Some v) m) -> answers true (Write k v) m (withheld r) (put k (Some v) m) -> Q r (s', w')) ->
  (forall s' w', inv L i s' (put k (Some v) m) -> U (s', w')) -> wp (displace_counted c k v) Q U (s, w).
Proof.
  intros HI Hk HQ HU. unfold displace_counted. apply wp_bind. eapply displace_wp; [exact HI|done| |exact HU].
  intros [[key ov]|] s' w' HI' HA; [|by apply wp_ret, HQ].
  apply wp_bind, wp_user; [|intros w2 _; by apply HU]. intros b w2 _. apply wp_bind. destruct b.
  - eapply (count_wp id); [exact HI'|]. intros s3 HI3. apply wp_ret, HQ; [exact HI3|]. split; [by right|done].
  - apply wp_ret, wp_ret, HQ; [exact HI'|]. by split.
Qed.

Lemma exp_lru_clear_all : does_all L (erase_shards L) (clear c : P unit).
Proof.
  apply (each_does (inner c)); [done|]. intros i Hi. apply erase_shard_does; [done|]. intros s m w HI.
  eapply (clear_wp id); [exact HI| |]; [|intros c' HI'; exact HI']. intros k Hk. by apply Nat.eqb_eq.
Qed.

Lemma exp_lru_reset_silent : does_all L [] (cache_reset_metrics c : P unit).
Proof.
  apply (each_silent_iter (inner c)); [done|]. intros i Hi.
  do 3 (apply does_none_then; [by apply does_all_atomic|]; intros _).
  apply with_write_quiet; [done|]. intros s m w HI. eapply (reset_metrics_wp id); [exact HI|]. intros c' HI'. exact HI'.
Qed.

(** Reading a value, and asking it. *)
Lemma peek_then_wp {A} i s m k w (f : option V -> ST W A) (Q : A -> W -> Prop) : inv L i s m -> index_of (inner c) k = i ->
  (forall r, answers true (Read k) m r m -> answers true (Read k) m None m -> wp (f r) Q (fun _ => True) w) ->
  wp (let! r := of_outcome (Lru.cache_peek s k) in f r) Q (fun _ => True) w.
Proof.
  intros HI Hk Hf. apply wp_bind. eapply (lru_peek_wp id); [exact HI|done|]. intros r [HA _]. rewrite option_fmap_id in HA.
  apply Hf; (split; [|done]); [done|by right].
Qed.

#[export] Instance sharded_expiring_lru_laws : ConcurrentLaws (W := W) c L.
Proof.
  split.
  - apply exp_lru_get_does.
  - intros k v. apply (does_then L _ _ (fun o r => withheld o = r)).
    + apply with_write_does; [apply exp_lru_shard_lt|done|]. intros s m w HI. eapply displace_counted_wp; [exact HI|done|..].
      * intros r s' w' HI' HA. eexists _, _. exact (conj HA (conj HI' eq_refl)).
      * intros s' w' HI'. right. eexists None, _. split; [split; [by right|done]|exact HI'].
    + intros [[[key ov] []]|] r R q <-; cbn [withheld mbind option_bind snd fst].
      * apply silent_ret; [|done]. destruct key; silent.
      * split; [done|]. by eexists.
      * split; [done|]. by eexists.
  - intros k. eapply does_then; [apply exp_lru_pop_does|]. intros e r R q [<- He]. destruct e as [e|].
    + apply (does_all_bind L []); [silent|]. intros _.
      apply (does_all_bind L []); [silent|]. intros []; (split; [done|]); eexists; (split; [done|]); [by right|by left].
    + split; [done|]. eexists. split; [done|]. by left.
  - intros k. eapply does_then; [apply exp_lru_pop_does|]. intros e r R q He.
    destruct e as [e|]; [apply silent_ret; [silent|done]|split; [done|by exists r]].
  - intros k. apply with_read_does; [apply exp_lru_shard_lt|done|]. intros s m w HI.
    eapply (peek_then_wp (shard_of c k)); [exact HI|done|]. intros r H1 H2.
    apply wp_is_unexpired; intros w'; [by exists None|by exists r].
  - intros k. apply with_read_does; [apply exp_lru_shard_lt|done|]. intros s m w HI.
    eapply (peek_then_wp (shard_of c k)); [exact HI|done|]. intros r H1 H2.
    apply wp_if_unexpired; intros w'; [by exists None|by exists r].
  - apply exp_lru_clear_all.
  - apply does_all_then; [apply exp_lru_clear_all|]. intros _. apply exp_lru_reset_silent.
  - apply exp_lru_reset_silent.
Qed.

#[export] Instance sharded_expiring_lru_clone_laws : ConcurrentCloneLaws (W := W) c L.
Proof.
  split.
  - intros k R q. split; [done|]. split; [apply exp_lru_shard_lt|]. split; [by eexists|]. intros s m w HI.
    eapply (peek_then_wp (shard_of c k)); [exact HI|done|]. intros r H1 H2. apply wp_with_status. intros b w'.
    destruct r as [v|]; cbn [fmap option_fmap option_map]; [destruct b|].
    + eapply advance_read; [exact H1|]. split; [exact HI|]. split; [by eexists|].
      apply silent_ret; [apply does_all_atomic, exp_lru_shard_lt|done].
    + apply advance_refl. split; [exact HI|]. split; [done|]. intros s2 m2 w2 HI2.
      eapply (lru_get_if_wp id); [exact HI2|done|..]; [|intros s' w3 HI'; by apply advance_refl].
      intros r s' w3 HI' HA. rewrite option_fmap_id in HA. eapply advance_read; [exact HA|]. split; [exact HI'|]. split; [by eexists|].
      apply silent_ret; [apply does_all_atomic, exp_lru_shard_lt|done].
    + eapply advance_read; [exact H2|]. split; [exact HI|]. split; [by eexists|].
      apply silent_ret; [apply does_all_atomic, exp_lru_shard_lt|done].
  - intros k. apply with_read_does; [apply exp_lru_shard_lt|done|]. intros s m w HI.
    eapply (peek_then_wp (shard_of c k)); [exact HI|done|]. intros r H1 H2.
    apply wp_bind, wp_with_status. intros b w'. apply wp_ret. exists r. split; [exact H1|]. by destruct r.
Qed.
End Laws.

(** ** The calls of this store alone *)
Section Own.
Context {K V W HT E : Type} `{!KeyEq K, !KeyLaws K, !HashTable HT, !HashTableLaws HT, !Expires V W}.
Context (available_parallelism : option Z) (try_reserve_exact : Z -> bool).

Inductive ExpiringLruCall : Type :=
| GetStatus (k : K)
| PeekStatus (k : K)
| Retain (keep : K -> V -> User W bool)
| Evict
| ClearWithOnEvict
| SetMaxSize (n : Z) | TrySetMaxSize (n : Z)
| Len | ShardSizes | IsEmpty | Hits | Misses | Evictions | Capacity | Metrics
| DeepClone
| CopyFrom (b : ShardedExpiringLruCacheBuilder K V W).

Context (c : ShardedExpiringLruCache K V W) (Hd : proper (inner c)).
Notation L := (sharded_expiring_lru_layout (HT := HT) c Hd (fun _ => True)).
Notation Store := (LruCache K V W HT).
Notation P := (Prog Store Z W).
Notation Rep := (Reply K V (E + SetMaxSizeError)).

Definition own (q : ExpiringLruCall) : P Rep :=
  match q with
  | GetStatus k => let* r := Concurrent.cache_get_with_expiry_status c k in Ret (Status r.1 r.2)
  | PeekStatus k => let* r := Concurrent.cache_peek_with_expiry_status c k in Ret (Status r.1 r.2)
  | Retain keep => let* n := retain c keep in Ret (Numbers [Some n])
  | Evict => let* n := Concurrent.evict c in Ret (Numbers [Some n])
  | ClearWithOnEvict => cache_clear_with_on_evict c ;;; Ret Nothing
  | SetMaxSize n => let* r := set_max_size c n in Ret (Numbers [r])
  | TrySetMaxSize n => let* r := try_set_max_size c n in Ret (match r with Ok prev => Numbers [prev] | Err e => Failed (inr e) end)
  | Len => let* n := len c in Ret (Numbers [Some n])
  | ShardSizes => let* l := shard_sizes c in Ret (Numbers (Some <$> l))
  | IsEmpty => let* b := is_empty c in Ret (Flag b)
  | Hits => let* n := cache_hits c in Ret (Numbers [n])
  | Misses => let* n := cache_misses c in Ret (Numbers [n])
  | Evictions => let* n := cache_evictions c in Ret (Numbers [n])
  | Capacity => let* n := cache_capacity c in Ret (Numbers [n])
  | Metrics => let* m := metrics c in Ret (Numbers [m_hits m; m_misses m; m_evictions m; m_entry_count m; m_capacity m])
  | DeepClone => deep_clone c ;;; Ret Nothing
  | CopyFrom b => copy_from available_parallelism try_reserve_exact b c ;;; Ret Nothing
  end.

(** A status read tells the value even when it has expired; an [evict] drops only what said it had. *)
Definition own_spec (q : ExpiringLruCall) : Spec K V Rep :=
  match q with
  | GetStatus k | PeekStatus k => Await (Read k) (fun r => Returns (fun a => exists b, a = Status r b))
  | Retain keep =>
      await_all (shard_wise L (fun i => Filter (on_shard L i) (judged keep true) (fun k v => said_expired k v \/ judged keep false k v))) (Returns (fun _ => True))
  | Evict => await_all (shard_wise L (fun i => Filter (on_shard L i) (fun _ _ => True) said_expired)) (Returns (fun _ => True))
  | ClearWithOnEvict => await_all (erase_shards L) (Returns (eq Nothing))
  | SetMaxSize n => resize_spec n
  | TrySetMaxSize n => try_resize_spec (inner c) n
  | _ => Returns (fun _ => True)
  end.

Lemma exp_lru_sweep_does i doomed (kept dropped : K -> V -> Prop) : (i < shard_count L)%nat ->
  (forall e k, said doomed false e -> keq k e.1 = true -> kept k e.2) ->
  (forall e k, said doomed true e -> keq k e.1 = true -> dropped k e.2) ->
  does_all L [Filter (on_shard L i) kept dropped] (sweep_counted i doomed : P _).
Proof.
  intros Hi Hk Hx. apply does_all_then; [|intros l; silent].
  apply (does_does_all L _ _ (fun _ _ => True)). apply with_write_does; [done|by intros k Hk'%within_shard|].
  intros s m w HI. eapply wp_mono; [eapply (sweep_doomed_wp id _ _ _ i s m _ kept dropped); [exact HI|exact Hx|exact Hk]|..].
  - intros l s' (_ & m' & HA & HI'). exists None, m'. exact (conj HA (conj HI' I)).
  - intros s' HI'. by left.
Qed.

Lemma exp_lru_own_safe q : safely L None (own_spec q) (own q) (post ends).
Proof.
  destruct q as [k|k|keep| | |n|n| | | | | | | | | |b]; cbn [own own_spec].
  - eapply (does_bind L); [apply get_status_does|]. intros a r <-. apply post_ret. by exists a.2.
  - eapply (does_bind L); [apply peek_status_does|]. intros a r <-. apply post_ret. by exists a.2.
  - apply then_returns; [|done]. apply sweep_does; [done|]. intros i Hi. apply exp_lru_sweep_does; [done|..].
    + intros e k. apply judged_unexpired.
    + intros e k. apply said_doomed.
  - apply then_returns; [|done]. apply sweep_does; [done|]. intros i Hi. apply exp_lru_sweep_does; [done|done|].
    by intros e k (w & w' & Hs) _; exists w, w'.
  - apply then_returns; [|done]. apply (each_does (inner c)); [done|]. intros i Hi.
    apply does_all_then; [|intros l; silent]. apply erase_shard_does; [done|]. intros s m w HI.
    eapply (drain_wp id); [exact HI| |]; [|intros l c' HI'; exact HI']. intros k Hk. by apply Nat.eqb_eq.
  - by apply (resize_safe id (inner c) Hd).
  - by apply (try_resize_safe id (inner c) Hd).
  - apply (then_returns L []); [|done]. unfold len, shard_sizes. silent.
  - apply (then_returns L []); [|done]. unfold shard_sizes. silent.
  - apply (then_returns L []); [|done]. unfold is_empty. silent.
  - apply (then_returns L []); [|done]. unfold cache_hits. silent.
  - apply (then_returns L []); [|done]. unfold cache_misses. silent.
  - apply (then_returns L []); [|done]. unfold cache_evictions, non_capacity_evictions. silent.
  - apply (then_returns L []); [|done]. unfold cache_capacity, capacity. silent.
  - apply (then_returns L []); [|done]. unfold metrics, capacity. silent.
  - apply (then_returns L []); [|done]. unfold deep_clone, capacity. silent.
  - apply (then_returns L []); [|done]. unfold copy_from. destruct (build _ _ b) as [[[c' m]|e]| |]; [|silent|by intros R q..].
    apply does_none_then; [|intros m'; silent]. apply copy_silent; [by apply each_lt|].
    intros i s x w (a & HM & _). apply wp_bind. eapply wp_of_outcome; [by apply iter_models|]. by apply wp_ret.
Qed.
End Own.

(** ** A built store *)
Section Built.
Context {K V W HT : Type} `{!KeyEq K, !KeyLaws K, !HashTable HT, !HashTableLaws HT, !Expires V W}.
Context (available_parallelism : option Z) (try_reserve_exact : Z -> bool).
Implicit Types (b : ShardedExpiringLruCacheBuilder K V W) (c : ShardedExpiringLruCache K V W) (m : Memory (LruCache K V W HT) Z).

Definition exp_lru_builder_ok b : Prop :=
  sizes_ok (b_shards b) (b_max_size b) (b_per_shard_max_size b) /\ exists h, b_hasher b = Some h /\ hash_ok h.

Lemma exp_lru_built_follows b c m : exp_lru_builder_ok b -> build available_parallelism try_reserve_exact b = Done (Ok (c, m)) ->
  exists Hd : proper (inner c), follows_map (sharded_expiring_lru_layout (HT := HT) c Hd (fun _ => True)) m (fun _ => None).
Proof.
  intros (Hs & h & Eh & Hh). unfold build.
  destruct (resolve_sizes _ _ _ _) as [[[n per] total]|e] eqn:Er; [|done].
  destruct (build_shards _ _ _ _) as [l|e] eqn:Eb; [|done]. rewrite Eh. intros [= <- <-].
  by eapply (built_shards_follow id).
Qed.
End Built.

(** C35: [ShardedExpiringLruCache] is one atomic map that may forget, whatever [is_expired] answers and
    even if it panics under a lock.  From any memory that follows a map - a freshly built store
    follows the empty one - any calls of the store in any interleaving, resizes and sweeps included:
    a keyed call is atomic, and what it answers is the latest value written or nothing, never a value
    overwritten or removed; no call runs for ever, none deadlocks, and when all are over every lock
    is free. *)
Theorem sharded_expiring_lru_serves {K V W HT E : Type} `{!KeyEq K, !KeyLaws K, !HashTable HT, !HashTableLaws HT, !Expires V W}
    (p : option Z) (alloc : Z -> bool) (b : ShardedExpiringLruCacheBuilder K V W) c (m : Memory (LruCache K V W HT) Z) :
  exp_lru_builder_ok b -> build p alloc b = Done (Ok (c, m)) ->
  exists Hd : proper (inner c), let L := sharded_expiring_lru_layout (HT := HT) c Hd (fun _ => True) in
    follows_map L m (fun _ => None) /\
    forall m' x, follows_map L m' x -> serves (own p alloc c) c L (own_spec (E := E) c Hd) m' x.
Proof.
  intros Hb HB. destruct (exp_lru_built_follows p alloc b c m Hb HB) as [Hd Hm]. exists Hd. split; [exact Hm|].
  intros m' x Hm'. apply lawful_serves; [apply sharded_expiring_lru_laws|by apply exp_lru_own_safe|exact Hm'].
Qed.

(** The conditional read, abstractly, on a shard that does not count. *)
Lemma s_get_if_unexpired {K V W} `{!KeyEq K, !Expires V W} k (a : View K V W) (w : W) : vtrack a = false ->
  s_get_if k unexpired (a, w) =
    match find_key k (entries a) with
    | None => (Done None, (a, w))
    | Some e =>
        match is_expired e.2 w with
        | (None, w1) => (Unwind, (a, w1))
        | (Some false, w1) => (Done (Some e.2), (put_entries (e :: drop_key k (entries a)) a, w1))
        | (Some true, w1) => (Done None, (a, w1))
        end
    end.
Proof.
  intros Ht. unfold s_get_if, s_self, s_tracked, bind, gets, user, unexpired, find_key, drop_key. cbn [fst snd].
  destruct (take_key k (entries a)) as [[e r]|]; cbn; [destruct (is_expired e.2 w) as [[[]|] w1]; cbn|]; by rewrite ?Ht.
Qed.

(** Expiry of a [get] of the sharded expiring LRU store, exactly, while nothing else runs, whatever
    [is_expired] does.  A value that says it is live is a hit and becomes the most recently used.
    One that says it has expired is removed, counted in the shard, told to the callback, and is a
    miss; if the callback panics the entry is gone and counted, the miss is not.  An absent key is a
    miss.  If [is_expired] panics, nothing has changed. *)
Theorem sharded_expiring_lru_get {K V W HT : Type} `{!KeyEq K, !KeyLaws K, !HashTable HT, !HashTableLaws HT, !Expires V W}
    (c : ShardedExpiringLruCache K V W) (m : Memory (LruCache K V W HT) Z) k s a w :
  let i := shard_of c k in
  Shards.shards m !! i = Some s -> models (content s) a -> vtrack a = false ->
  exists s', let become n := set_shard i (mkShard s' n) m in
  match find_key k (entries a) with
  | None => models s' a /\ exec (cache_get c k) (m, w) = (Done None, (become (counted_miss (counters s)), w))
  | Some e =>
      match is_expired e.2 w with
      | (Some false, w1) =>
          models s' (put_entries (e :: drop_key k (entries a)) a) /\
          exec (cache_get c k) (m, w) = (Done (Some e.2), (become (counted_hit (counters s)), w1))
      | (Some true, w1) =>
          models s' (put_entries (drop_key k (entries a)) a) /\
          exec (cache_get c k) (m, w) = expired_out (inner c) i s' (counters s) e m w1
      | (None, w1) => models s' a /\ exec (cache_get c k) (m, w) = (Unwind, (become (counters s), w1))
      end
  end.
Proof.
  intros i Hs HM Ht. unfold cache_get. fold i. rewrite (run_lock _ _ _ _ _ s) by done.
  pose proof (s_get_if_unexpired k a w Ht) as E1. pose proof (get_if_refines (HT := HT) (W := W) (K := K) k (unexpired (V := V) (W := W))) as Hg.
  assert (forall n, Shards.shards (set_shard i n m) !! i = Some n) as Hl by (intros n; by eapply set_shard_lookup).
  destruct (find_key k (entries a)) as [e|] eqn:F; [destruct (is_expired e.2 w) as [[[]|] w1]|];
    destruct (refined_run _ _ _ _ _ _ _ _ Hg HM E1) as (c1 & E2 & HM1).
  - destruct (refined_run _ _ _ _ _ _ _ _ (pop_raw_refines k) HM1 (s_pop_run k a w1)) as (c2 & E3 & HM2).
    exists c2. split; [done|]. rewrite (run_write _ _ _ _ _ s _ _ _ Hs E2). erewrite run_write; [|apply Hl|exact E3].
    rewrite run_unlock, F, set_set_shard. unfold tell. rewrite (run_expired _ _ _ _ _ _ (Hl _)). apply set_shard_expired_out.
  - exists c1. split; [done|]. rewrite (run_write _ _ _ _ _ s _ _ _ Hs E2), run_unlock. unfold add_hits.
    rewrite (run_last _ _ _ _ _ _ (Hl _)). by rewrite set_set_shard.
  - exists c1. split; [done|]. by apply run_write_unwind.
  - destruct (refined_run _ _ _ _ _ _ _ _ (pop_raw_refines k) HM1 (s_pop_run k a w)) as (c2 & E3 & HM2).
    rewrite drop_absent in HM2 by done. exists c2. split; [done|].
    rewrite (run_write _ _ _ _ _ s _ _ _ Hs E2). erewrite run_write; [|apply Hl|exact E3].
    rewrite run_unlock, F, set_set_shard. unfold tell, add_misses. cbn [pbind]. by rewrite (run_last _ _ _ _ _ _ (Hl _)), set_set_shard.
Qed.

(** *** Witness: values that are their own deadlines *)

#[local] Instance own_deadline : Expires Z Tick.t := {| is_expired v w := (Some (v <=? Tick.time w), w) |}.

Definition exp_lru_demo : ShardedExpiringLruCacheBuilder TaggedKey.t Z Tick.t :=
  builder_on_evict Tick.log (builder_max_size 40 (builder_shards 2 (builder spread))).

Lemma exp_lru_demo_ok : exp_lru_builder_ok exp_lru_demo.
Proof. split; [by split_and!|]. exists spread. split; [done|]. apply spread_ok. Qed.

Definition exp_lru_demo_store : outcome (result BuildError (ShardedExpiringLruCache TaggedKey.t Z Tick.t *
    Memory (LruCache TaggedKey.t Z Tick.t ListTable.t) Z)) :=
  build (Some 8) (fun _ => true) exp_lru_demo.

Lemma sharded_expiring_lru_serves_witness : exists c m (Hd : proper (inner c)),
  exp_lru_demo_store = Done (Ok (c, m)) /\ shard_len (inner c) = 2%nat /\ globals m = 40 /\
  serves (own (Some 8) (fun _ => true) c) c (sharded_expiring_lru_layout c Hd (fun _ => True)) (own_spec (E := unit) c Hd) m (fun _ => None).
Proof.
  destruct exp_lru_demo_store as [[[c m]|e]| |] eqn:EB; try discriminate EB.
  destruct (sharded_expiring_lru_serves (E := unit) (Some 8) (fun _ => true) exp_lru_demo c m exp_lru_demo_ok EB) as (Hd & Hm & H).
  exists c, m, Hd. split; [done|]. split; [by injection EB as <- _|]. split; [by injection EB as _ <-|]. by apply H.
Defined.

(** A shard that holds one value. *)
Lemma exp_lru_demo_shard : exists sh : LruCache TaggedKey.t Z Tick.t ListTable.t,
  models sh (mkView [(Tick.k1, 10)] 20 0 0 0 (Some Tick.log) false).
Proof.
  destruct (build_shard (fun _ => true) (Some Tick.log) 20) as [c|e] eqn:EB; [|discriminate EB].
  destruct (build_shard_models (fun _ => true) (Some Tick.log) 20 c ltac:(lia) EB) as [_ HM].
  destruct (refined_run _ _ _ _ (Tick.mk 0 []) (Done None) (mkView [(Tick.k1, 10)] 20 0 0 0 (Some Tick.log) false)
    (Tick.mk 0 []) (cache_set_spec Tick.k1 10) HM eq_refl) as (c2 & _ & HM2). by exists c2.
Qed.

Definition exp_lru_two : ShardedExpiringLruCache TaggedKey.t Z Tick.t := mkSharded (mkInner 2 1 spread (Some Tick.log)).

Lemma sharded_expiring_lru_get_witness : exists sh,
  let m := mkMemory [mkShard sh (mkCounters 0 0 0); mkShard sh (mkCounters 0 0 0)] 40 in
  (exists s', exec (cache_get (HT := ListTable.t) exp_lru_two Tick.k1') (m, Tick.mk 9 []) =
     (Done (Some 10), (set_shard 1 (mkShard s' (mkCounters 1 0 0)) m, Tick.mk 9 []))) /\
  (exists s', exec (cache_get (HT := ListTable.t) exp_lru_two Tick.k1') (m, Tick.mk 10 []) =
     (Done None, (set_shard 1 (mkShard s' (mkCounters 0 1 1)) m, Tick.mk 10 [(Tick.k1, 10)]))).
Proof.
  destruct exp_lru_demo_shard as [sh HM]. exists sh. cbv zeta. set (m := mkMemory _ _). set (s := mkShard sh (mkCounters 0 0 0)). split.
  - destruct (sharded_expiring_lru_get exp_lru_two m Tick.k1' s _ (Tick.mk 9 []) eq_refl HM eq_refl) as (s' & _ & H). exists s'. exact H.
  - destruct (sharded_expiring_lru_get exp_lru_two m Tick.k1' s _ (Tick.mk 10 []) eq_refl HM eq_refl) as (s' & _ & H). exists s'. exact H.
Defined.
