(* ===== verification/External.v ===== *)
(** * The traits of the stores outside the process ([src/lib.rs])

    [ConcurrentCached] and [SerializeCached] for stores whose calls can fail, with the provided
    methods, and the contract such a store keeps: every call is a sequence of atomic operations on
    the map of what the outside holds, with what each operation does said exactly, and what the call
    answers a function of their answers and of what user code and the clock returned. *)
From stdpp Require Import relations strings.
From S2P Require Import Prelude Keys Stores Shards Concurrent.

(** ** The [?] operator *)

Definition ebind {S E A B} (m : ST S (result E A)) (k : A -> ST S (result E B)) : ST S (result E B) :=
  bind m (fun r => match r with Ok a => k a | Err e => ret (Err e) end).

Definition pebind {S G W E A B} (p : Prog S G W (result E A)) (k : A -> Prog S G W (result E B)) : Prog S G W (result E B) :=
  pbind p (fun r => match r with Ok a => k a | Err e => Ret (Err e) end).

Notation "'try!' x ':=' m 'in' k" := (ebind m (fun x => k))
  (at level 10, x pattern, m at level 100, k at level 200) : store_scope.
Notation "'try*' x ':=' p 'in' q" := (pebind p (fun x => q))
  (at level 10, x pattern, p at level 100, q at level 200) : prog_scope.

(** [Result::map_err] and [Result::map] *)
Definition map_err {E E' A} (f : E -> E') (r : result E A) : result E' A :=
  match r with Ok a => Ok a | Err e => Err (f e) end.
Definition map_ok {E A B} (f : A -> B) (r : result E A) : result E B :=
  match r with Ok a => Ok (f a) | Err e => Err e end.
Definition ok {E A} (r : result E A) : option A := match r with Ok a => Some a | Err _ => None end.

(** [rmp_serde::to_vec] and [rmp_serde::from_slice], at a type. *)
Class Format (T Bytes SerError DeError : Type) : Type := {
  to_vec : T -> result SerError Bytes;
  from_slice : Bytes -> result DeError T }.

(** Decoding inverts encoding. *)
Class FormatLaws (T Bytes SerError DeError : Type) `{!Format T Bytes SerError DeError} : Prop := {
  from_to : forall (x : T) (b : Bytes), to_vec x = Ok b -> from_slice b = Ok x }.

(** [K: ToString], or [Display]. *)
Class ToString (K : Type) : Type := { to_string : K -> string }.

(** Outside, an entry is found by the string of its key. *)
#[export] Instance string_keyeq : KeyEq string := {| keq a b := bool_decide (a = b); khash _ := 0 |}.

(** ** The traits *)

(** [ConcurrentCached], with the methods the external stores override. *)
Class FallibleCached (D S G K V W Er : Type) : Type := {
  cache_get : D -> K -> Prog S G W (result Er (option V));
  cache_set : D -> K -> V -> Prog S G W (result Er (option V));
  cache_remove : D -> K -> Prog S G W (result Er (option V));
  cache_remove_entry : D -> K -> Prog S G W (result Er (option (K * V)));
  cache_delete : D -> K -> Prog S G W (result Er bool);
  cache_contains : D -> K -> Prog S G W (result Er bool);
  cache_clear : D -> Prog S G W (result Er unit);
  cache_reset : D -> Prog S G W (result Er unit) }.

Class SerializeCached (D S G K V W Er : Type) : Type := {
  cache_set_ref : D -> K -> V -> Prog S G W (result Er unit) }.

Section Provided.
Context {D S G K V W Er : Type} `{!FallibleCached D S G K V W Er}.

Definition cache_reset_metrics (d : D) : Prog S G W (result Er unit) := Ret (Ok tt).

Definition cache_get_or_set_with (d : D) (k : K) (f : User W V) : Prog S G W (result Er V) :=
  try* r := cache_get d k in
  match r with
  | Some v => Ret (Ok v)
  | None =>
      let* v := outside f in
      try* _ := cache_set d k v in
      Ret (Ok v)
  end.

Definition cache_try_get_or_set_with {E} (d : D) (k : K) (f : User W (result E V)) : Prog S G W (result Er (result E V)) :=
  try* r := cache_get d k in
  match r with
  | Some v => Ret (Ok (Ok v))
  | None =>
      let* r := outside f in
      match r with
      | Ok v => try* _ := cache_set d k v in Ret (Ok (Ok v))
      | Err e => Ret (Ok (Err e))
      end
  end.
End Provided.

(** ** Specifications that produce a value *)

Definition SpecOf (K V A : Type) : Type := forall R : Type, (A -> Spec K V R) -> Spec K V R.

Section SpecOf.
Context {K V : Type}.

Definition sret {A} (a : A) : SpecOf K V A := fun R q => q a.
Definition sbind {A B} (s : SpecOf K V A) (k : A -> SpecOf K V B) : SpecOf K V B :=
  fun R q => s R (fun a => k a R q).
Definition stry {E A B} (s : SpecOf K V (result E A)) (k : A -> SpecOf K V (result E B)) : SpecOf K V (result E B) :=
  sbind s (fun r => match r with Ok a => k a | Err e => sret (Err e) end).
(** Any value that satisfies [P]; one operation, whose answer is the value. *)
Definition schoose {A} (P : A -> Prop) : SpecOf K V A := fun R q => Choose P q.
Definition sop (op : MapOp K V) : SpecOf K V (option V) := fun R q => Await op q.
End SpecOf.

(** What may become of an operation on the outside: it fails; it fails, but has been done; it is done. *)
Inductive Fate (Er : Type) : Type := Fails (e : Er) | Unsure (e : Er) | Works.
Arguments Fails {Er} e.
Arguments Unsure {Er} e.
Arguments Works {Er}.

Declare Scope spec_scope.
Delimit Scope spec_scope with spec.
#[global] Open Scope spec_scope.
Notation "'let^' x ':=' s 'in' t" := (sbind s (fun x => t))
  (at level 10, x pattern, s at level 100, t at level 200) : spec_scope.
Notation "'try^' x ':=' s 'in' t" := (stry s (fun x => t))
  (at level 10, x pattern, s at level 100, t at level 200) : spec_scope.

(** ** What it means for a call to meet its specification *)
Section Meets.
Context {S G K V W : Type} `{!KeyEq K} (L : Layout S G K V).

Definition meets {A} (s : SpecOf K V A) (p : Prog S G W A) : Prop :=
  forall R (q : A -> Spec K V R), safely L None (s R q) p (fun h t a => h = None /\ t = q a).

Lemma meets_ret {A} (a : A) : meets (sret a) (Ret a).
Proof. by intros R q. Qed.

Lemma meets_bind {A B} s (p : Prog S G W A) (t : A -> SpecOf K V B) k :
  meets s p -> (forall a, meets (t a) (k a)) -> meets (sbind s t) (pbind p k).
Proof.
  intros Hp Hk R q. apply call_bind. eapply safe_mono; [|by apply Hp].
  intros h t' a (-> & ->). apply Hk.
Qed.

Lemma meets_try {E A B} s (p : Prog S G W (result E A)) (t : A -> SpecOf K V (result E B)) k :
  meets s p -> (forall a, meets (t a) (k a)) -> meets (stry s t) (pebind p k).
Proof. intros Hp Hk. apply meets_bind; [done|]. intros [a|e]; [apply Hk|apply meets_ret]. Qed.

Lemma meets_map {A B} s (p : Prog S G W A) (f : A -> B) :
  meets s p -> meets (let^ a := s in sret (f a)) (let* a := p in Ret (f a)).
Proof. intros Hp. apply meets_bind; [done|]. intros a. apply meets_ret. Qed.

Lemma meets_outside {A} (m : User W A) : meets (schoose (may_return m)) (outside m).
Proof.
  intros R q w a w' E. exists (q a). split; [|done]. intros x. apply rtc_once, spec_choose. by exists w, w'.
Qed.

(** A value read from the atomics. *)
Lemma meets_global {A} (f : G -> A * G) (P : A -> Prop) :
  (forall g, ginv L g -> ginv L (f g).2 /\ P (f g).1) -> meets (schoose P) (global f).
Proof.
  intros H R q g Hg. destruct (H g Hg) as [Hg' HP]. split; [done|]. exists (q (f g).1). split; [|done].
  intros x. by apply rtc_once, spec_choose.
Qed.

(** What the specification [s] may come to with the value [a]. *)
Definition comes_to {A} (s : SpecOf K V A) (m : Map K V) (a : A) (m' : Map K V) : Prop :=
  forall R (q : A -> Spec K V R), rtc (spec_step (lossy L)) (s R q, m) (q a, m').

(** What it may have done when the call dies. *)
Definition dies_at {A} (s : SpecOf K V A) (m m' : Map K V) : Prop :=
  forall R (q : A -> Spec K V R), exists t, rtc (spec_step (lossy L)) (s R q, m) (t, m').

Lemma comes_to_ret {A} (a : A) m : comes_to (sret a) m a m.
Proof. intros R q. apply rtc_refl. Qed.

Lemma comes_to_bind {A B} (s : SpecOf K V A) (t : A -> SpecOf K V B) m a m' b m'' :
  comes_to s m a m' -> comes_to (t a) m' b m'' -> comes_to (sbind s t) m b m''.
Proof. intros H1 H2 R q. etransitivity; [apply H1|]. apply H2. Qed.

Lemma comes_to_choose {A} (P : A -> Prop) (a : A) m : P a -> comes_to (schoose P) m a m.
Proof. intros HP R q. by apply rtc_once, spec_choose. Qed.

Lemma comes_to_op op m r m' : answers (lossy L) op m r m' -> comes_to (sop op) m r m'.
Proof. intros Ha R q. by apply rtc_once, spec_answer. Qed.

Lemma comes_to_dies {A} (s : SpecOf K V A) m a m' : comes_to s m a m' -> dies_at s m m'.
Proof. intros H R q. exists (q a). apply H. Qed.

Lemma dies_now {A} (s : SpecOf K V A) m : dies_at s m m.
Proof. intros R q. exists (s R q). apply rtc_refl. Qed.

(** A scope under the lock that is the whole of [s]. *)
Lemma meets_write {A} i (s : SpecOf K V A) (f : ST (S * W) A) : (i < shard_count L)%nat ->
  (forall c m w, inv L i c m ->
     wp f (fun a c' => exists m', inv L i c'.1 m' /\ stable (inv L) i m m' /\ comes_to s m a m')
       (fun c' => exists m', inv L i c'.1 m' /\ stable (inv L) i m m' /\ dies_at s m m') (c, w)) ->
  meets s (with_write i f).
Proof.
  intros Hi Hf R q. split; [done|]. split; [done|]. cbn [pbind write_store]. split; [done|].
  intros c m w HI. eapply wp_mono; [by apply (Hf c m w)|..].
  - intros a c' (m' & HI' & Hst & Hs). exists (q a), m'. split_and!; [apply Hs|done|done|].
    split; [by eexists|]. by split.
  - intros c' (m' & HI' & Hst & Hs). destruct (Hs R q) as [t Ht]. by exists t, m'.
Qed.

Lemma meets_read {A} i (s : SpecOf K V A) (f : S -> ST W A) : (i < shard_count L)%nat ->
  (forall c m w, inv L i c m -> wp (f c) (fun a _ => comes_to s m a m) (fun _ => True) w) ->
  meets s (with_read i f).
Proof.
  intros Hi Hf R q. split; [done|]. split; [done|]. cbn [pbind read_store]. split; [by eexists|].
  intros c m w HI. eapply wp_mono; [by apply (Hf c m w)| |done].
  intros a w' Hs. exists (q a), m. split_and!; [apply Hs|by intros ? ? _|done|].
  split; [by eexists|]. by split.
Qed.
End Meets.

(** ** What a specification keeps true of the map, and of its values *)
Section Sound.
Context {S G K V : Type} `{!KeyEq K} (L : Layout S G K V) (good : Map K V -> Prop).

Definition sound {A} (s : SpecOf K V A) (post : A -> Prop) : Prop :=
  forall R (P : R -> Prop) (q : A -> Spec K V R), (forall a, post a -> stays L good P (q a)) -> stays L good P (s R q).

Lemma sound_ret {A} (a : A) (post : A -> Prop) : post a -> sound (sret a) post.
Proof. intros Ha R P q Hq. by apply Hq. Qed.

Lemma sound_bind {A B} (s : SpecOf K V A) (t : A -> SpecOf K V B) P post :
  sound s P -> (forall a, P a -> sound (t a) post) -> sound (sbind s t) post.
Proof. intros Hs Ht R P' q Hq. apply Hs. intros a Ha. by apply Ht. Qed.

Lemma sound_try {E A B} (s : SpecOf K V (result E A)) (t : A -> SpecOf K V (result E B)) P post :
  sound s P -> (forall a, P (Ok a) -> sound (t a) post) -> (forall e, P (Err e) -> post (Err e)) -> sound (stry s t) post.
Proof. intros Hs Ht He. eapply sound_bind; [apply Hs|]. intros [a|e] Ha; [by apply Ht|by apply sound_ret, He]. Qed.

Lemma sound_map {A B} (s : SpecOf K V A) (f : A -> B) (P : A -> Prop) (post : B -> Prop) :
  sound s P -> (forall a, P a -> post (f a)) -> sound (let^ a := s in sret (f a)) post.
Proof. intros Hs Hf. eapply sound_bind; [apply Hs|]. intros a Ha. by apply sound_ret, Hf. Qed.

Lemma sound_choose {A} (P : A -> Prop) : sound (schoose P) P.
Proof. intros R P' q Hq a Ha. by apply Hq. Qed.

Lemma sound_op op (post : option V -> Prop) :
  (forall m r m', good m -> answers (lossy L) op m r m' -> good m' /\ post r) -> sound (sop op) post.
Proof. intros Ho R P' q Hq m r m' Hm Ha. destruct (Ho m r m' Hm Ha) as [Hm' Hr]. split; [done|]. by apply Hq. Qed.

Lemma sound_mono {A} (s : SpecOf K V A) (P P' : A -> Prop) : sound s P -> (forall a, P a -> P' a) -> sound s P'.
Proof. intros Hs HP R Q q Hq. apply Hs. intros a Ha. by apply Hq, HP. Qed.
End Sound.

(** ** The contract of an external store *)

(** Its calls over the map [KX -> option VX] of what the outside holds. *)
Record StoreSpec (KX VX K V Er : Type) : Type := mkStoreSpec {
  get_spec : K -> SpecOf KX VX (result Er (option V));
  set_spec : K -> V -> SpecOf KX VX (result Er (option V));
  remove_spec : K -> SpecOf KX VX (result Er (option V));
  remove_entry_spec : K -> SpecOf KX VX (result Er (option (K * V)));
  delete_spec : K -> SpecOf KX VX (result Er bool);
  contains_spec : K -> SpecOf KX VX (result Er bool);
  clear_spec : SpecOf KX VX (result Er unit);
  set_ref_spec : K -> V -> SpecOf KX VX (result Er unit) }.
Arguments get_spec {KX VX K V Er}.
Arguments set_spec {KX VX K V Er}.
Arguments remove_spec {KX VX K V Er}.
Arguments remove_entry_spec {KX VX K V Er}.
Arguments delete_spec {KX VX K V Er}.
Arguments contains_spec {KX VX K V Er}.
Arguments clear_spec {KX VX K V Er}.
Arguments set_ref_spec {KX VX K V Er}.

Class ExternalLaws {D S G KX VX K V W Er} `{!KeyEq KX, !FallibleCached D S G K V W Er, !SerializeCached D S G K V W Er}
    (d : D) (L : Layout S G KX VX) (sp : StoreSpec KX VX K V Er) : Prop := {
  get_meets : forall k, meets (W := W) L (get_spec sp k) (cache_get d k);
  set_meets : forall k v, meets (W := W) L (set_spec sp k v) (cache_set d k v);
  remove_meets : forall k, meets (W := W) L (remove_spec sp k) (cache_remove d k);
  remove_entry_meets : forall k, meets (W := W) L (remove_entry_spec sp k) (cache_remove_entry d k);
  delete_meets : forall k, meets (W := W) L (delete_spec sp k) (cache_delete d k);
  contains_meets : forall k, meets (W := W) L (contains_spec sp k) (cache_contains d k);
  clear_meets : meets (W := W) L (clear_spec sp) (cache_clear d);
  reset_meets : meets (W := W) L (clear_spec sp) (cache_reset d);
  set_ref_meets : forall k v, meets (W := W) L (set_ref_spec sp k v) (cache_set_ref d k v) }.

(** Calls; [X] are the calls that only this store has. *)
Inductive ExtCall (K V W E X : Type) : Type :=
| XGet (k : K)
| XContains (k : K)
| XSet (k : K) (v : V)
| XSetRef (k : K) (v : V)
| XGetOrSetWith (k : K) (f : User W V)
| XTryGetOrSetWith (k : K) (f : User W (result E V))
| XRemove (k : K)
| XRemoveEntry (k : K)
| XDelete (k : K)
| XClear
| XReset
| XResetMetrics
| XOwn (x : X).
Arguments XGet {K V W E X} k.
Arguments XContains {K V W E X} k.
Arguments XSet {K V W E X} k v.
Arguments XSetRef {K V W E X} k v.
Arguments XGetOrSetWith {K V W E X} k f.
Arguments XTryGetOrSetWith {K V W E X} k f.
Arguments XRemove {K V W E X} k.
Arguments XRemoveEntry {K V W E X} k.
Arguments XDelete {K V W E X} k.
Arguments XClear {K V W E X}.
Arguments XReset {K V W E X}.
Arguments XResetMetrics {K V W E X}.
Arguments XOwn {K V W E X} x.

Section Clients.
Context {D S G KX VX K V W Er E X : Type}.
Context `{!KeyEq KX, !FallibleCached D S G K V W Er, !SerializeCached D S G K V W Er}.
Context (own : X -> Prog S G W (result Er (Reply K V E))) (d : D).
Context (L : Layout S G KX VX) (sp : StoreSpec KX VX K V Er).
Context (own_spec : X -> SpecOf KX VX (result Er (Reply K V E))).
Notation Rep := (result Er (Reply K V E)).

Definition reply_of (r : result E V) : Reply K V E := match r with Ok v => Value (Some v) | Err e => Failed e end.

Definition run_call (q : ExtCall K V W E X) : Prog S G W Rep :=
  match q with
  | XGet k => let* r := cache_get d k in Ret (map_ok Value r)
  | XContains k => let* r := cache_contains d k in Ret (map_ok Flag r)
  | XSet k v => let* r := cache_set d k v in Ret (map_ok Value r)
  | XSetRef k v => let* r := cache_set_ref d k v in Ret (map_ok (fun _ => Nothing) r)
  | XGetOrSetWith k f => let* r := cache_get_or_set_with d k f in Ret (map_ok (fun v => Value (Some v)) r)
  | XTryGetOrSetWith k f => let* r := cache_try_get_or_set_with d k f in Ret (map_ok reply_of r)
  | XRemove k => let* r := cache_remove d k in Ret (map_ok Value r)
  | XRemoveEntry k => let* r := cache_remove_entry d k in Ret (map_ok Entry r)
  | XDelete k => let* r := cache_delete d k in Ret (map_ok Flag r)
  | XClear => let* r := cache_clear d in Ret (map_ok (fun _ => Nothing) r)
  | XReset => let* r := cache_reset d in Ret (map_ok (fun _ => Nothing) r)
  | XResetMetrics => let* r := cache_reset_metrics d in Ret (map_ok (fun _ => Nothing) r)
  | XOwn x => own x
  end.

(** The provided methods over the specification: a get, the user's function, a set. *)
Definition get_or_set_spec (k : K) (f : User W V) : SpecOf KX VX (result Er V) :=
  try^ r := get_spec sp k in
  match r with
  | Some v => sret (Ok v)
  | None => let^ v := schoose (may_return f) in try^ _ := set_spec sp k v in sret (Ok v)
  end.

Definition try_get_or_set_spec (k : K) (f : User W (result E V)) : SpecOf KX VX (result Er (result E V)) :=
  try^ r := get_spec sp k in
  match r with
  | Some v => sret (Ok (Ok v))
  | None =>
      let^ r := schoose (may_return f) in
      match r with
      | Ok v => try^ _ := set_spec sp k v in sret (Ok (Ok v))
      | Err e => sret (Ok (Err e))
      end
  end.

Definition call_spec (q : ExtCall K V W E X) : SpecOf KX VX Rep :=
  match q with
  | XGet k => let^ r := get_spec sp k in sret (map_ok Value r)
  | XContains k => let^ r := contains_spec sp k in sret (map_ok Flag r)
  | XSet k v => let^ r := set_spec sp k v in sret (map_ok Value r)
  | XSetRef k v => let^ r := set_ref_spec sp k v in sret (map_ok (fun _ => Nothing) r)
  | XGetOrSetWith k f => let^ r := get_or_set_spec k f in sret (map_ok (fun v => Value (Some v)) r)
  | XTryGetOrSetWith k f => let^ r := try_get_or_set_spec k f in sret (map_ok reply_of r)
  | XRemove k => let^ r := remove_spec sp k in sret (map_ok Value r)
  | XRemoveEntry k => let^ r := remove_entry_spec sp k in sret (map_ok Entry r)
  | XDelete k => let^ r := delete_spec sp k in sret (map_ok Flag r)
  | XClear | XReset => let^ r := clear_spec sp in sret (map_ok (fun _ => Nothing) r)
  | XResetMetrics => sret (Ok Nothing)
  | XOwn x => own_spec x
  end.

(** A call is over when its specification has its result. *)
Definition whole_spec (q : ExtCall K V W E X) : Spec KX VX Rep := call_spec q Rep (fun r => Returns (eq r)).

(** The claim made of each external store: however its calls interleave, they are the
    specification's operations on what the outside holds. *)
Definition serves (m : Memory S G) (x : Map KX VX) : Prop := implements L run_call whole_spec m x.

Hypothesis laws : ExternalLaws (W := W) d L sp.
Hypothesis own_meets : forall x, meets L (own_spec x) (own x).

Lemma call_meets q : meets L (call_spec q) (run_call q).
Proof.
  destruct q as [k|k|k v|k v|k f|k f|k|k|k| | | |x]; simpl; try apply meets_map.
  - apply get_meets.
  - apply contains_meets.
  - apply set_meets.
  - apply set_ref_meets.
  - apply meets_try; [apply get_meets|]. intros [v|]; [apply meets_ret|].
    apply meets_bind; [apply meets_outside|]. intros v. apply meets_try; [apply set_meets|]. intros _. apply meets_ret.
  - apply meets_try; [apply get_meets|]. intros [v|]; [apply meets_ret|].
    apply meets_bind; [apply meets_outside|]. intros [v|e]; [|apply meets_ret].
    apply meets_try; [apply set_meets|]. intros _. apply meets_ret.
  - apply remove_meets.
  - apply remove_entry_meets.
  - apply delete_meets.
  - apply clear_meets.
  - apply reset_meets.
  - apply meets_ret.
  - apply own_meets.
Qed.

(** Calls, each with its reply, of those that [allowed] allows. *)
Definition with_reply (q : ExtCall K V W E X) : Prog S G W (ExtCall K V W E X * Rep) := let* r := run_call q in Ret (q, r).

(** If the specification of every allowed call keeps the map good, so does every run of allowed calls,
    and the replies are what the specification says. *)
Lemma external_sound (allowed : ExtCall K V W E X -> Prop) (good : Map KX VX -> Prop) (post : ExtCall K V W E X -> Rep -> Prop) m x w g :
  follows_map L m x -> good x -> (forall q, allowed q -> sound L good (call_spec q) (post q)) ->
  reachable (fun q : {q | allowed q} => with_reply (proj1_sig q)) m w g ->
  (exists x', follows_map L (memory g) x' /\ good x') /\ forall t q r, threads g !! t = Some (Ret (q, r)) -> post q r.
Proof.
  intros Hm Hx Hs Hr.
  set (spec := fun q : {q | allowed q} => call_spec (proj1_sig q) (ExtCall K V W E X * Rep)%type (fun r => Returns (eq (proj1_sig q, r)))).
  destruct (implements_results L (fun q : {q | allowed q} => with_reply (proj1_sig q)) spec good (fun p => post p.1 p.2) m x w g) as [Hg Ht]; [|done|..|done|].
  - apply safe_implements; [|done]. intros [q Hq]. unfold with_reply. apply call_bind.
    eapply safe_mono; [|apply call_meets]. intros h t a (-> & ->). split; [done|]. by eexists.
  - intros [q Hq]. apply (Hs q Hq). intros r Hp r' E'. simpl in E'. by rewrite <- E'.
  - split; [done|]. intros t q r Hp. apply (Ht t (q, r) Hp).
Qed.

Lemma external_serves m x : follows_map L m x -> serves m x.
Proof.
  apply safe_implements. intros q. eapply safe_mono; [|apply call_meets].
  intros h t a (-> & ->). split; [done|]. by eexists.
Qed.
End Clients.
