(* ===== verification/RedisKeys.v ===== *)
(** * The keys of the redis store ([src/stores/redis.rs])

    How a namespace, a prefix and a key become one redis key, and the pattern that [cache_clear] scans
    for.  Strings are their UTF-8 bytes: every character the code looks for is one byte, and no byte of
    a longer character is equal to it. *)
From stdpp Require Import strings.
From Stdlib Require Import Ascii.
From S2P Require Import Prelude Keys Stores.

Notation char := Ascii.ascii.

Definition KEY_FIELD_SEPARATOR : char := ":"%char.
Definition KEY_FIELD_ESCAPE : char := "%"%char.

(** [str::contains] of a character among [cs]. *)
Fixpoint contains (cs : list char) (s : string) : bool :=
  match s with
  | "" => false
  | String c s => bool_decide (c ∈ cs) || contains cs s
  end.

(** The loop of [escape_key_field], from an empty [out]. *)
Fixpoint escape_chars (field : string) : string :=
  match field with
  | "" => ""
  | String c field =>
      (if decide (c = KEY_FIELD_SEPARATOR) then "%3A"
       else if decide (c = KEY_FIELD_ESCAPE) then "%25"
       else String c "") +:+ escape_chars field
  end.

Definition escape_key_field (field : string) : string :=
  if negb (contains [KEY_FIELD_SEPARATOR; KEY_FIELD_ESCAPE] field) then field else escape_chars field.

(** [str::trim_end_matches] *)
Fixpoint trim_end_matches (c : char) (s : string) : string :=
  match s with
  | "" => ""
  | String c' s =>
      let t := trim_end_matches c s in
      if bool_decide (t = "") && bool_decide (c' = c) then "" else String c' t
  end.

Definition canonical_namespace (namespace : string) : string := trim_end_matches KEY_FIELD_SEPARATOR namespace.

Definition join_key_fields (namespace prefix key : string) : string :=
  namespace +:+ String KEY_FIELD_SEPARATOR (prefix +:+ String KEY_FIELD_SEPARATOR key).

Definition generate_redis_key (namespace prefix key : string) : string :=
  join_key_fields (escape_key_field (canonical_namespace namespace)) (escape_key_field prefix) (escape_key_field key).

Definition glob_chars : list char := ["*"; "?"; "["; "]"; "\"]%char.

Fixpoint escape_glob (s : string) : string :=
  match s with
  | "" => ""
  | String c s => if bool_decide (c ∈ glob_chars) then String "\" (String c (escape_glob s)) else String c (escape_glob s)
  end.

Definition clear_match_pattern (namespace prefix : string) : string :=
  join_key_fields (escape_glob (escape_key_field (canonical_namespace namespace))) (escape_glob (escape_key_field prefix)) "*".

(** ** The ttl of a command, in milliseconds *)

Definition i64_max : Z := 2 ^ 63 - 1.

Inductive TtlError : Type := InvalidTtl.

Definition ttl_millis (ttl : Z) : result TtlError Z :=
  if ttl =? 0 then Err InvalidTtl
  else let millis := ttl / 1000000 in Ok (Z.max (Z.min millis i64_max) 1).

(** [ttl_millis(ttl)? as i64] *)
Definition to_i64 (x : Z) : Z := (x + 2 ^ 63) mod 2 ^ 64 - 2 ^ 63.
Definition ttl_millis_i64 (ttl : Z) : result TtlError Z :=
  match ttl_millis ttl with Ok m => Ok (to_i64 m) | Err e => Err e end.

(** ** The key determines its fields *)

Lemma escape_plain s : contains [KEY_FIELD_SEPARATOR; KEY_FIELD_ESCAPE] s = false -> escape_chars s = s.
Proof.
  induction s as [|c s IH]; [done|]. intros [Hc Hs]%orb_false_iff. apply bool_decide_eq_false in Hc. simpl.
  rewrite !elem_of_cons in Hc. rewrite !decide_False by naive_solver. simpl. by rewrite IH.
Qed.

(** The shortcut changes nothing. *)
Lemma escape_key_field_chars s : escape_key_field s = escape_chars s.
Proof. unfold escape_key_field. destruct (contains _ _) eqn:E; [done|]. by rewrite escape_plain. Qed.

(** [str::split_once] at the separator. *)
Fixpoint split_once (s : string) : option (string * string) :=
  match s with
  | "" => None
  | String c s =>
      if decide (c = KEY_FIELD_SEPARATOR) then Some ("", s)
      else match split_once s with Some (a, b) => Some (String c a, b) | None => None end
  end.

(** Percent-decoding, of the two escapes. *)
Fixpoint unescape (s : string) : string :=
  match s with
  | String c1 (String c2 (String c3 s') as t) =>
      if decide (c1 = KEY_FIELD_ESCAPE) then
        if decide (String c2 (String c3 "") = "3A") then String KEY_FIELD_SEPARATOR (unescape s')
        else if decide (String c2 (String c3 "") = "25") then String KEY_FIELD_ESCAPE (unescape s')
        else String c1 (unescape t)
      else String c1 (unescape t)
  | _ => s
  end.

(** The fields of a key. *)
Definition key_fields (s : string) : option (string * string * string) :=
  match split_once s with
  | Some (n, s) =>
      match split_once s with
      | Some (p, k) => Some (unescape n, unescape p, unescape k)
      | None => None
      end
  | None => None
  end.

Lemma string_app_cons x a b : String x a +:+ b = String x (a +:+ b).
Proof. done. Qed.

Lemma string_app_nil a : "" +:+ a = a.
Proof. done. Qed.

Lemma string_app_assoc a b c : (a +:+ b) +:+ c = a +:+ (b +:+ c).
Proof. induction a as [|x a IH]; [done|]. by rewrite !string_app_cons, IH. Qed.

Lemma split_once_other c s : c <> KEY_FIELD_SEPARATOR ->
  split_once (String c s) = match split_once s with Some (a, b) => Some (String c a, b) | None => None end.
Proof. intros Hc. simpl. by rewrite decide_False. Qed.

Lemma split_escaped s t : split_once (escape_chars s +:+ String KEY_FIELD_SEPARATOR t) = Some (escape_chars s, t).
Proof.
  induction s as [|c s IH]; [done|]. cbn [escape_chars]. rewrite string_app_assoc.
  destruct (decide (c = KEY_FIELD_SEPARATOR)) as [->|Hc]; [|destruct (decide (c = KEY_FIELD_ESCAPE)) as [->|He]];
    rewrite !string_app_cons, string_app_nil, !split_once_other, IH by done; done.
Qed.

Lemma unescape_plain c s : c <> KEY_FIELD_ESCAPE -> unescape (String c s) = String c (unescape s).
Proof. intros Hc. destruct s as [|c2 [|c3 s]]; [done..|]. simpl. by rewrite decide_False. Qed.

Lemma unescape_separator s : unescape ("%3A" +:+ s) = String KEY_FIELD_SEPARATOR (unescape s).
Proof. done. Qed.

Lemma unescape_percent s : unescape ("%25" +:+ s) = String KEY_FIELD_ESCAPE (unescape s).
Proof. done. Qed.

Lemma unescape_escape s : unescape (escape_chars s) = s.
Proof.
  induction s as [|c s IH]; [done|]. cbn [escape_chars].
  destruct (decide (c = KEY_FIELD_SEPARATOR)) as [->|Hc]; [by rewrite unescape_separator, IH|].
  destruct (decide (c = KEY_FIELD_ESCAPE)) as [->|He]; [by rewrite unescape_percent, IH|].
  by rewrite string_app_cons, string_app_nil, unescape_plain, IH.
Qed.

(** C14: A redis key is read back into its fields: splitting it at its first two separators and decoding
    the parts recovers the canonical namespace, the prefix and the key, whatever they contain, so no
    two caches, and no two keys of one cache, share a redis key. *)
Theorem redis_key_roundtrip (namespace prefix key : string) :
  key_fields (generate_redis_key namespace prefix key) = Some (canonical_namespace namespace, prefix, key).
Proof.
  unfold key_fields, generate_redis_key, join_key_fields. rewrite !escape_key_field_chars, !split_escaped, !unescape_escape. done.
Qed.

Lemma redis_key_inj n p k n' p' k' : generate_redis_key n p k = generate_redis_key n' p' k' ->
  canonical_namespace n = canonical_namespace n' /\ p = p' /\ k = k'.
Proof.
  intros E%(f_equal key_fields). revert E. unfold key_fields, generate_redis_key, join_key_fields.
  rewrite !escape_key_field_chars, !split_escaped, !unescape_escape. by intros [= -> -> ->].
Qed.

(** ** The pattern covers exactly the keys of its cache *)

(** The server's [MATCH]: an ordinary character stands for itself, a backslash makes the next one
    ordinary, and a star at the end stands for anything. *)
Class Glob : Type := { glob_match : string -> string -> bool }.

Definition starts_with (c : char) (s : string) (rest : string -> bool) : bool :=
  match s with String c' s => bool_decide (c = c') && rest s | "" => false end.

Class GlobLaws `{!Glob} : Prop := {
  glob_star : forall s, glob_match "*" s = true;
  glob_char : forall c p s, c ∉ glob_chars -> glob_match (String c p) s = starts_with c s (glob_match p);
  glob_escape : forall c p s, glob_match (String "\" (String c p)) s = starts_with c s (glob_match p) }.

Lemma starts_with_spec c s rest : starts_with c s rest = true <-> exists t, s = String c t /\ rest t = true.
Proof.
  destruct s as [|c' s]; simpl; [split; [done|by intros (? & ? & _)]|].
  rewrite andb_true_iff, bool_decide_eq_true. split; [intros [-> Hm]; by exists s|by intros (t & [= -> ->] & Hm)].
Qed.

(** What every key of a cache begins with. *)
Definition scope (namespace prefix : string) : string :=
  escape_key_field (canonical_namespace namespace) +:+ String KEY_FIELD_SEPARATOR (escape_key_field prefix +:+ String KEY_FIELD_SEPARATOR "").

Section Glob.
Context {glob : Glob} {glob_laws : GlobLaws}.

Lemma glob_literal f p s : glob_match (escape_glob f +:+ p) s = true <-> exists t, s = f +:+ t /\ glob_match p t = true.
Proof.
  revert s. induction f as [|c f IH]; intros s; [split; [by exists s|by intros (t & -> & Hm)]|].
  assert (starts_with c s (glob_match (escape_glob f +:+ p)) = true <->
    exists t, s = String c f +:+ t /\ glob_match p t = true) as H.
  { rewrite starts_with_spec. split.
    - intros (t & -> & (t' & -> & Ht)%IH). by exists t'.
    - intros (t & -> & Ht). exists (f +:+ t). split; [done|]. apply IH. by exists t. }
  cbn [escape_glob]. case_bool_decide as Hc; rewrite !string_app_cons.
  - by rewrite glob_escape.
  - by rewrite glob_char.
Qed.

Lemma pattern_scope n p s : glob_match (clear_match_pattern n p) s = true <-> exists t, s = scope n p +:+ t.
Proof.
  assert (forall q t, glob_match (String KEY_FIELD_SEPARATOR q) t = true <-> exists u, t = String KEY_FIELD_SEPARATOR u /\ glob_match q u = true) as Hsep.
  { intros q t. rewrite glob_char by (apply (bool_decide_unpack _); by vm_compute). apply starts_with_spec. }
  unfold clear_match_pattern, join_key_fields, scope. rewrite glob_literal. split.
  - intros (t & -> & (u & -> & (t2 & -> & (u2 & -> & _)%Hsep)%glob_literal)%Hsep). exists u2.
    by rewrite !string_app_assoc, string_app_cons, string_app_assoc, string_app_cons, string_app_nil.
  - intros (t & ->). eexists. rewrite !string_app_assoc, string_app_cons, string_app_assoc, string_app_cons, string_app_nil.
    split; [done|]. apply Hsep. eexists. split; [done|]. apply glob_literal. eexists. split; [done|].
    apply Hsep. eexists. split; [done|]. apply glob_star.
Qed.

Lemma key_in_scope n p k : generate_redis_key n p k = scope n p +:+ escape_key_field k.
Proof.
  unfold generate_redis_key, join_key_fields, scope.
  by rewrite !string_app_assoc, string_app_cons, string_app_assoc, string_app_cons, string_app_nil.
Qed.

(** C32: The pattern that [cache_clear] scans for matches a key of some cache exactly if it is a key of
    this one, whatever the namespaces, prefixes and keys contain: clearing a cache deletes all its
    keys and none of another cache. *)
Theorem redis_clear_scope n p n' p' k :
  glob_match (clear_match_pattern n p) (generate_redis_key n' p' k) = true <->
  canonical_namespace n = canonical_namespace n' /\ p = p'.
Proof.
  rewrite pattern_scope. split.
  - intros [t E]. revert E. rewrite key_in_scope. unfold scope. rewrite !escape_key_field_chars.
    rewrite !string_app_assoc, !string_app_cons, !string_app_assoc, !string_app_cons, !string_app_nil.
    intros E%(f_equal split_once). rewrite !split_escaped in E. injection E as E1 E%(f_equal split_once).
    rewrite !split_escaped in E. injection E as E2 _.
    split; [by rewrite <- (unescape_escape (canonical_namespace n)), <- E1, unescape_escape|].
    by rewrite <- (unescape_escape p), <- E2, unescape_escape.
  - intros [E <-]. exists (escape_key_field k). rewrite key_in_scope. unfold scope. by rewrite E.
Qed.
End Glob.

Lemma to_i64_small x : 1 <= x <= i64_max -> to_i64 x = x.
Proof. unfold i64_max, to_i64. intros Hx. rewrite Z.mod_small; lia. Qed.

(** The time a redis command is given is at least one and at most [i64::MAX] milliseconds, the same
    number as a signed and as an unsigned integer, and the ttl rounded down within that range; only a
    zero ttl is refused. *)
Theorem redis_ttl_millis (ttl : Z) : 0 <= ttl ->
  match ttl_millis ttl with
  | Ok m => ttl <> 0 /\ 1 <= m <= i64_max /\ ttl_millis_i64 ttl = Ok m /\
            (m * 1000000 <= ttl \/ (m = 1 /\ ttl < 1000000)) /\ (ttl < (m + 1) * 1000000 \/ m = i64_max)
  | Err e => ttl = 0 /\ ttl_millis_i64 ttl = Err e
  end.
Proof.
  intros Ht. unfold ttl_millis_i64, ttl_millis. destruct (Z.eqb_spec ttl 0) as [->|Hn]; [done|].
  assert (1 <= Z.max (Z.min (ttl / 1000000) i64_max) 1 <= i64_max) as Hr by (assert (1 <= i64_max) by done; lia).
  split; [done|]. split; [done|]. split.
  - f_equal. by apply to_i64_small.
  - pose proof (Z.mul_div_le ttl 1000000). pose proof (Z.mul_succ_div_gt ttl 1000000). lia.
Qed.

Lemma redis_ttl_millis_witness : 0 <= 1500000 /\ ttl_millis 1500000 = Ok 1 /\
  match ttl_millis 1500000 with
  | Ok m => 1500000 <> 0 /\ 1 <= m <= i64_max /\ ttl_millis_i64 1500000 = Ok m /\
            (m * 1000000 <= 1500000 \/ (m = 1 /\ 1500000 < 1000000)) /\ (1500000 < (m + 1) * 1000000 \/ m = i64_max)
  | Err e => 1500000 = 0 /\ ttl_millis_i64 1500000 = Err e
  end.
Proof. split; [done|]. split; [done|]. exact (redis_ttl_millis 1500000 ltac:(done)). Defined.

(** ** A matcher *)
Module Matcher.

(** Without character classes. *)
Fixpoint matches (p s : string) : bool :=
  match p with
  | "" => bool_decide (s = "")
  | String c p =>
      if decide (c = "*"%char) then
        (fix any s := matches p s || match s with "" => false | String _ s => any s end) s
      else if decide (c = "\"%char) then
        match p with
        | "" => bool_decide (s = "\")
        | String c p => match s with String c' s => bool_decide (c = c') && matches p s | "" => false end
        end
      else if decide (c = "?"%char) then match s with String _ s => matches p s | "" => false end
      else match s with String c' s => bool_decide (c = c') && matches p s | "" => false end
  end.

#[export] Instance matcher : Glob := { glob_match := matches }.

#[export] Instance matcher_laws : GlobLaws.
Proof.
  split.
  - intros s. cbn. induction s as [|c s IH]; [done|]. cbn. done.
  - intros c p s Hc. unfold glob_chars in Hc. rewrite !elem_of_cons in Hc. cbn.
    rewrite !decide_False by (intros ->; naive_solver). done.
  - done.
Qed.

Example clear_neighbour : glob_match (clear_match_pattern "a" "b*") (generate_redis_key "a:" "b*" "c") = true /\
  glob_match (clear_match_pattern "a" "b*") (generate_redis_key "a" "bc" "c") = false.
Proof. by vm_compute. Qed.

Lemma redis_clear_scope_witness :
  glob_match (clear_match_pattern "a" "b*") (generate_redis_key "a:" "b*" "c") = true <->
  canonical_namespace "a" = canonical_namespace "a:" /\ "b*" = "b*".
Proof. exact (redis_clear_scope "a" "b*" "a:" "b*" "c"). Defined.

End Matcher.
