(* ===== verification/Redb.v ===== *)
(** * The store on disk ([src/stores/redb.rs])

    [RedbCache] keeps each entry, serialized with its creation time, in one table of an embedded
    [redb] database.  [redb] is third-party code: the class [Redb] names the calls the store makes to it.  Write
    transactions are serialized by [redb] and become visible when they commit; one is a scope under
    the exclusive lock of the only shard here, and a read transaction, which sees a snapshot, a scope
    under the shared lock.  The ttl, behind a mutex, and the refresh flag are the atomics. *)
From stdpp Require Import strings gmap.
From S2P Require Import Prelude Keys Stores Shards Concurrent External.

(** ** The libraries *)

(** [redb], over its database, its transactions and the outside world, where the disk is.  Every call
    may fail, or panic. *)
Class Redb (DB RTxn WTxn Bytes IoError W : Type) : Type := {
  database_create : string -> ST W (result IoError DB);
  db_begin_read : DB -> ST W (result IoError RTxn);
  r_open_table : RTxn -> ST W (result IoError unit);
  r_get : RTxn -> string -> ST W (result IoError (option Bytes));
  r_iter : RTxn -> ST W (result IoError (list (result IoError (string * Bytes))));
  db_begin_write : DB -> ST W (result IoError WTxn);
  set_durability : bool -> WTxn -> ST W (result IoError WTxn);      (** [Immediate] or [None] *)
  open_table : WTxn -> ST W (result IoError WTxn);
  get : WTxn -> string -> ST W (result IoError (option Bytes));
  insert : WTxn -> string -> Bytes -> ST W (result IoError (option Bytes * WTxn));
  remove : WTxn -> string -> ST W (result IoError (option Bytes * WTxn));
  delete_table : WTxn -> ST W (result IoError (bool * WTxn));
  commit : WTxn -> ST (DB * W) (result IoError unit) }.

(** [CachedDiskValue], with wall-clock nanoseconds. *)
Record CachedDiskValue (V : Type) : Type := mkDiskValue { value : V; created_at : Z }.
Arguments mkDiskValue {V} _ _.
Arguments value {V} _.
Arguments created_at {V} _.

Inductive RedbCacheError (Bytes IoError SerError DeError : Type) : Type :=
| Storage (source : IoError)
| CacheDeserialization (source : DeError) (cached_value : Bytes)
| CacheSerialization (source : SerError).
Arguments Storage {Bytes IoError SerError DeError} source.
Arguments CacheDeserialization {Bytes IoError SerError DeError} source cached_value.
Arguments CacheSerialization {Bytes IoError SerError DeError} source.

Definition is_deserialization {Bytes IoError SerError DeError} (e : RedbCacheError Bytes IoError SerError DeError) : bool :=
  match e with CacheDeserialization _ _ => true | _ => false end.

(** ** The store *)

(** What a [RedbCache] does not change, and what it does. *)
Record RedbCache : Type := mkRedb { durable : bool; disk_path : string; strict_deserialization : bool }.
Record Settings : Type := mkSettings { ttl : option Z; refresh : bool }.

Section Redb.
Context {DB RTxn WTxn Bytes IoError SerError DeError K V W : Type}.
Context `{!Redb DB RTxn WTxn Bytes IoError W, !Format (CachedDiskValue V) Bytes SerError DeError}.
Context `{!Clock W, !ToString K}.
Notation Error := (RedbCacheError Bytes IoError SerError DeError).
Notation P := (Prog DB Settings W).
Notation Txn A := (ST (DB * W) (result Error A)).

(** [.map_err(RedbCacheError::storage)?] *)
Definition storage {S A} (m : ST S (result IoError A)) : ST S (result Error A) :=
  let! r := m in ret (map_err Storage r).

(** The outside, from a transaction. *)
Definition io {A} (m : ST W A) : ST (DB * W) A := fun '(db, w) => let '(r, w) := m w in (r, (db, w)).

(** [SystemTime::now().duration_since(t).unwrap_or(0)] *)
Definition since (now created_at : Z) : Z := Z.max 0 (now - created_at).

(** [SystemTime::now()], outside a transaction; [now] is the same within one. *)
Definition system_now : User W Z := fun w => let '(t, w) := clock_now w in (Some t, w).

(** The calls on a transaction, their errors mapped. *)
Definition t_open (t : WTxn) : Txn WTxn := storage (io (open_table t)).
Definition t_get (t : WTxn) (key : string) : Txn (option Bytes) := storage (io (get t key)).
Definition t_insert (t : WTxn) (key : string) (b : Bytes) : Txn (option Bytes * WTxn) := storage (io (insert t key b)).
Definition t_remove (t : WTxn) (key : string) : Txn (option Bytes * WTxn) := storage (io (remove t key)).
Definition t_delete_table (t : WTxn) : Txn (bool * WTxn) := storage (io (delete_table t)).
Definition t_commit (t : WTxn) : Txn unit := storage (commit t).

Definition begin_write (durable : bool) : Txn WTxn := fun '(db, w) =>
  (try! wtxn := storage (io (db_begin_write db)) in
   if durable then ret (Ok wtxn) else storage (io (set_durability false wtxn))) (db, w).

Definition open_and {A} (durable : bool) (body : WTxn -> Txn A) : Txn A :=
  try! wtxn := begin_write durable in
  try! table := t_open wtxn in
  body table.

(** [wtxn.commit()?; Ok(a)] *)
Definition commit_and {A} (wtxn : WTxn) (a : A) : Txn A :=
  try! _ := t_commit wtxn in ret (Ok a).

(** *** [disk_cache_get] *)

(** The read transaction. *)
Definition read_entry (key : string) (db : DB) : ST W (result Error (option Bytes)) :=
  try! rtxn := storage (db_begin_read db) in
  try! _ := storage (r_open_table rtxn) in
  storage (r_get rtxn key).

(** Read again under a write transaction, and removed if still corrupt. *)
Definition heal (key : string) (durable : bool) : Txn (option (CachedDiskValue V)) :=
  open_and durable (fun table =>
    try! current := t_get table key in
    match current with
    | None => commit_and table None
    | Some bytes =>
        match from_slice bytes with
        | Ok v => commit_and table (Some v)
        | Err _ =>
            try! (_, table) := t_remove table key in
            commit_and table None
        end
    end).

(** The refresh, or the eviction, under a write transaction that reads the entry again. *)
Definition settle (key : string) (ttl : Z) (refresh durable strict : bool) : Txn (option V) :=
  open_and durable (fun table =>
    try! current := t_get table key in
    match current with
    | None => commit_and table None
    | Some bytes =>
        match from_slice bytes with
        | Err e =>
            if strict then ret (Err (CacheDeserialization e bytes))
            else
              try! (_, table) := t_remove table key in
              commit_and table None
        | Ok current =>
            let! t := now in
            if since t (created_at current) <? ttl then
              if refresh then
                let! t := now in
                match to_vec (mkDiskValue (value current) t) with
                | Err e => ret (Err (CacheSerialization e))
                | Ok serialized =>
                    try! (_, table) := t_insert table key serialized in
                    commit_and table (Some (value current))
                end
              else commit_and table (Some (value current))
            else
              try! (_, table) := t_remove table key in
              commit_and table None
        end
    end).

(** An entry was read, and decoded. *)
Definition serve (key : string) (ttl : option Z) (refresh durable strict : bool) (cached : CachedDiskValue V) : P (result Error (option V)) :=
  match ttl with
  | None => Ret (Ok (Some (value cached)))
  | Some ttl =>
      let* now := outside system_now in
      if (since now (created_at cached) <? ttl) && negb refresh then Ret (Ok (Some (value cached)))
      else with_write 0 (settle key ttl refresh durable strict)
  end.

Definition disk_cache_get (key : string) (ttl : option Z) (refresh durable strict : bool) : P (result Error (option V)) :=
  try* raw := with_read 0 (read_entry key) in
  match raw with
  | None => Ret (Ok None)
  | Some raw_bytes =>
      match from_slice raw_bytes with
      | Ok cached => serve key ttl refresh durable strict cached
      | Err e =>
          if strict then Ret (Err (CacheDeserialization e raw_bytes))
          else
            try* healed := with_write 0 (heal key durable) in
            match healed with
            | None => Ret (Ok None)
            | Some cached => serve key ttl refresh durable strict cached
            end
      end
  end.

(** *** Writes *)

(** [Some] unless the ttl had passed. *)
Definition unless_expired (ttl : option Z) (cached : CachedDiskValue V) : P (option V) :=
  match ttl with
  | None => Ret (Some (value cached))
  | Some ttl =>
      let* now := outside system_now in
      Ret (if since now (created_at cached) <? ttl then Some (value cached) else None)
  end.

(** The displaced or removed bytes, decoded after the commit. *)
Definition live_previous (ttl : option Z) (previous_bytes : option Bytes) : P (result Error (option V)) :=
  match previous_bytes ≫= (fun bytes => ok (from_slice bytes)) with
  | None => Ret (Ok None)
  | Some cached => let* v := unless_expired ttl cached in Ret (Ok v)
  end.

Definition insert_txn (key : string) (serialized : Bytes) (durable : bool) : Txn (option Bytes) :=
  open_and durable (fun table =>
    try! (previous_bytes, table) := t_insert table key serialized in
    commit_and table previous_bytes).

Definition remove_txn (key : string) (durable : bool) : Txn (option Bytes) :=
  open_and durable (fun table =>
    try! (removed_bytes, table) := t_remove table key in
    commit_and table removed_bytes).

Definition disk_cache_set (key : string) (serialized : Bytes) (ttl : option Z) (durable : bool) : P (result Error (option V)) :=
  try* previous_bytes := with_write 0 (insert_txn key serialized durable) in
  live_previous ttl previous_bytes.

Definition disk_cache_set_no_return (key : string) (serialized : Bytes) (durable : bool) : P (result Error unit) :=
  try* _ := with_write 0 (insert_txn key serialized durable) in
  Ret (Ok tt).

Definition disk_cache_remove (key : string) (ttl : option Z) (durable : bool) : P (result Error (option V)) :=
  try* removed_bytes := with_write 0 (remove_txn key durable) in
  live_previous ttl removed_bytes.

Definition disk_cache_remove_entry (key : string) (durable : bool) : P (result Error (option V)) :=
  try* removed_bytes := with_write 0 (remove_txn key durable) in
  Ret (Ok (value <$> (removed_bytes ≫= (fun bytes => ok (from_slice bytes))))).

Definition disk_cache_delete (key : string) (durable : bool) : P (result Error bool) :=
  try* removed_bytes := with_write 0 (remove_txn key durable) in
  Ret (Ok (is_some removed_bytes)).

Definition disk_cache_clear (durable : bool) : P (result Error unit) :=
  with_write 0
    (try! wtxn := begin_write durable in
     try! (_, wtxn) := t_delete_table wtxn in
     try! wtxn := t_open wtxn in
     commit_and wtxn tt).

Definition redb_flush : P (result Error unit) :=
  with_write 0 (fun '(db, w) =>
    (try! wtxn := storage (io (db_begin_write db)) in
     try! wtxn := storage (io (set_durability true wtxn)) in
     commit_and wtxn tt) (db, w)).

(** *** The sweep *)

Definition expired_at (now ttl : Z) (cached : CachedDiskValue V) : bool := ttl <=? since now (created_at cached).

(** The scan: the keys of expired entries and, unless [strict], of corrupt ones. *)
Fixpoint candidates (now ttl : Z) (strict : bool) (items : list (result IoError (string * Bytes))) : result Error (list string) :=
  match items with
  | [] => Ok []
  | Err e :: _ => Err (Storage e)
  | Ok (key, raw) :: items =>
      match from_slice raw with
      | Ok cached => map_ok (fun keys => if expired_at now ttl cached then key :: keys else keys) (candidates now ttl strict items)
      | Err e => if strict then Err (CacheDeserialization e raw) else map_ok (cons key) (candidates now ttl strict items)
      end
  end.

Definition scan (now ttl : Z) (strict : bool) (db : DB) : ST W (result Error (list string)) :=
  try! rtxn := storage (db_begin_read db) in
  try! _ := storage (r_open_table rtxn) in
  try! items := storage (r_iter rtxn) in
  ret (candidates now ttl strict items).

(** Each candidate, read again. *)
Fixpoint sweep (now ttl : Z) (strict : bool) (keys : list string) (table : WTxn) (removed : Z) : Txn (Z * WTxn) :=
  match keys with
  | [] => ret (Ok (removed, table))
  | key :: keys =>
      try! raw := t_get table key in
      match raw with
      | None => sweep now ttl strict keys table removed
      | Some bytes =>
          match from_slice bytes with
          | Ok entry =>
              if expired_at now ttl entry then
                try! (_, table) := t_remove table key in
                sweep now ttl strict keys table (removed + 1)
              else sweep now ttl strict keys table removed
          | Err e =>
              if strict then ret (Err (CacheDeserialization e bytes))
              else
                try! (_, table) := t_remove table key in
                sweep now ttl strict keys table (removed + 1)
          end
      end
  end.

Definition remove_expired_entries_impl (ttl : option Z) (strict durable : bool) : P (result Error Z) :=
  match ttl with
  | None => Ret (Ok 0)
  | Some ttl =>
      let* now := outside system_now in
      try* expired_keys := with_read 0 (scan now ttl strict) in
      match expired_keys with
      | [] => Ret (Ok 0)
      | _ =>
          with_write 0 (open_and durable (fun table =>
            try! (removed, table) := sweep now ttl strict expired_keys table 0 in
            commit_and table removed))
      end
  end.

(** ** The methods *)

Definition lock_ttl : P (option Z) := global (fun g => (ttl g, g)).
Definition load_refresh : P bool := global (fun g => (refresh g, g)).

Definition remove_expired_entries (c : RedbCache) : P (result Error Z) :=
  let* ttl := lock_ttl in
  remove_expired_entries_impl ttl (strict_deserialization c) (durable c).

Definition flush (c : RedbCache) : P (result Error unit) := redb_flush.

Definition get_ttl (c : RedbCache) : P (option Z) := lock_ttl.

Definition set_ttl (c : RedbCache) (t : Z) : P (option Z) :=
  global (fun g => (ttl g, mkSettings (if t =? 0 then None else Some t) (refresh g))).

Definition unset_ttl (c : RedbCache) : P (option Z) := global (fun g => (ttl g, mkSettings None (refresh g))).

Definition refresh_on_hit (c : RedbCache) : P bool := load_refresh.

Definition set_refresh_on_hit (c : RedbCache) (b : bool) : P bool :=
  global (fun g => (refresh g, mkSettings (ttl g) b)).

#[export] Instance redb_ttl : ConcurrentCacheTtl RedbCache DB Settings W := {|
  Concurrent.ttl := get_ttl; Concurrent.set_ttl := set_ttl; Concurrent.unset_ttl := unset_ttl |}.

#[export] Instance redb_refresh : ConcurrentCacheRefreshOnHit RedbCache DB Settings W := {|
  Concurrent.refresh_on_hit := refresh_on_hit; Concurrent.set_refresh_on_hit := set_refresh_on_hit |}.

Definition redb_get (c : RedbCache) (k : K) : P (result Error (option V)) :=
  let* ttl := lock_ttl in
  let* refresh := load_refresh in
  disk_cache_get (to_string k) ttl refresh (durable c) (strict_deserialization c).

Definition redb_set (c : RedbCache) (k : K) (v : V) : P (result Error (option V)) :=
  let* ttl := lock_ttl in
  let* now := outside system_now in
  match to_vec (mkDiskValue v now) with
  | Err e => Ret (Err (CacheSerialization e))
  | Ok serialized => disk_cache_set (to_string k) serialized ttl (durable c)
  end.

Definition redb_remove (c : RedbCache) (k : K) : P (result Error (option V)) :=
  let* ttl := lock_ttl in
  disk_cache_remove (to_string k) ttl (durable c).

Definition redb_remove_entry (c : RedbCache) (k : K) : P (result Error (option (K * V))) :=
  let* r := disk_cache_remove_entry (to_string k) (durable c) in
  Ret (map_ok (fmap (fun v => (k, v))) r).

Definition redb_contains (c : RedbCache) (k : K) : P (result Error bool) :=
  let* r := redb_get c k in Ret (map_ok is_some r).

#[export] Instance redb_cached : FallibleCached RedbCache DB Settings K V W Error := {|
  cache_get := redb_get;
  cache_set := redb_set;
  cache_remove := redb_remove;
  cache_remove_entry := redb_remove_entry;
  cache_delete c k := disk_cache_delete (to_string k) (durable c);
  cache_contains := redb_contains;
  cache_clear c := disk_cache_clear (durable c);
  cache_reset c := disk_cache_clear (durable c) |}.

(** [CachedDiskValueRef] serializes to the bytes of [CachedDiskValue]. *)
Definition redb_set_ref (c : RedbCache) (k : K) (v : V) : P (result Error unit) :=
  let* now := outside system_now in
  match to_vec (mkDiskValue v now) with
  | Err e => Ret (Err (CacheSerialization e))
  | Ok serialized => disk_cache_set_no_return (to_string k) serialized (durable c)
  end.

#[export] Instance redb_serialize : SerializeCached RedbCache DB Settings K V W Error := {| cache_set_ref := redb_set_ref |}.
End Redb.
