(* ===== verification/RedbBuild.v ===== *)
(** * Building the store on disk ([src/stores/redb.rs])

    The builder, the checks on the cache name, and the preparation of the directory and of the
    database file, on a unix target.  The file system and the environment are the world's: the class
    [FileSystem] names the calls that are made to them. *)
From stdpp Require Import strings gmap.
From Stdlib Require Import Ascii.
From S2P Require Import Prelude Keys Stores Shards Concurrent External Redb.

(** [std::io::Error], by its kind. *)
Inductive ErrorKind : Type := PermissionDenied | ReadOnlyFilesystem | NotFound | OtherKind.

(** [std::fs::Metadata]: whether it is a symlink, and the mode bits. *)
Record Metadata : Type := mkMetadata { is_symlink : bool; mode : Z }.

(** Calls that may fail; [current_exe] is its file name. *)
Class FileSystem (W : Type) : Type := {
  symlink_metadata : string -> ST W (result ErrorKind Metadata);
  create_dir_all : Z -> string -> ST W (result ErrorKind unit);     (** recursive, with a mode *)
  set_dir_mode : Z -> string -> ST W (result ErrorKind unit);
  open_file : Z -> string -> ST W (result ErrorKind unit);          (** created with a mode if absent *)
  set_file_mode : Z -> string -> ST W (result ErrorKind unit);
  current_exe : ST W (option string);
  base_cache_dir : ST W (option string);
  temp_dir : ST W string }.

(** [Path::join] with a relative component. *)
Definition join (dir file : string) : string := dir +:+ "/" +:+ file.

(** ** The builder *)

Record RedbCacheBuilder : Type := mkBuilder {
  b_ttl : option Z; b_refresh : bool; b_durable : bool; b_disk_dir : option string;
  b_cache_name : option string; b_strict : bool }.

Definition builder_new : RedbCacheBuilder := mkBuilder None false true None None false.
Definition builder_name (n : string) (b : RedbCacheBuilder) : RedbCacheBuilder :=
  mkBuilder (b_ttl b) (b_refresh b) (b_durable b) (b_disk_dir b) (Some n) (b_strict b).
Definition builder_ttl (t : Z) (b : RedbCacheBuilder) : RedbCacheBuilder :=
  mkBuilder (Some t) (b_refresh b) (b_durable b) (b_disk_dir b) (b_cache_name b) (b_strict b).
Definition builder_ttl_secs (secs : Z) : RedbCacheBuilder -> RedbCacheBuilder := builder_ttl (from_secs secs).
Definition builder_ttl_millis (millis : Z) : RedbCacheBuilder -> RedbCacheBuilder := builder_ttl (from_millis millis).
Definition builder_refresh_on_hit (r : bool) (b : RedbCacheBuilder) : RedbCacheBuilder :=
  mkBuilder (b_ttl b) r (b_durable b) (b_disk_dir b) (b_cache_name b) (b_strict b).
Definition builder_disk_dir (dir : string) (b : RedbCacheBuilder) : RedbCacheBuilder :=
  mkBuilder (b_ttl b) (b_refresh b) (b_durable b) (Some dir) (b_cache_name b) (b_strict b).
Definition builder_durable (d : bool) (b : RedbCacheBuilder) : RedbCacheBuilder :=
  mkBuilder (b_ttl b) (b_refresh b) d (b_disk_dir b) (b_cache_name b) (b_strict b).
Definition builder_strict_deserialization (s : bool) (b : RedbCacheBuilder) : RedbCacheBuilder :=
  mkBuilder (b_ttl b) (b_refresh b) (b_durable b) (b_disk_dir b) (b_cache_name b) s.

(** [RedbCache::builder] *)
Definition redb_builder (n : string) : RedbCacheBuilder := builder_name n builder_new.

Definition DISK_FILE_PREFIX : string := "cached_disk_cache".
Definition DISK_FILE_VERSION : string := "3".

Inductive RedbCacheBuildError (IoError : Type) : Type :=
| BStorage (source : IoError + string)     (** an error of [redb], or the message of a panic *)
| BBuild (e : BuildError)
| BIo (source : ErrorKind)
| BInvalidCacheName.
Arguments BStorage {IoError} source.
Arguments BBuild {IoError} e.
Arguments BIo {IoError} source.
Arguments BInvalidCacheName {IoError}.

(** ** The cache name *)

Definition is_ascii_control (c : Ascii.ascii) : bool :=
  let n := Ascii.N_of_ascii c in ((n <? 32) || (n =? 127))%N.

(** 34 is the double quote. *)
Definition reserved_chars : list Ascii.ascii := ["/"; "\"; ":"; "<"; ">"; Ascii.ascii_of_N 34; "|"; "?"; "*"]%char.

Definition reserved_char (c : Ascii.ascii) : bool := bool_decide (c ∈ reserved_chars) || is_ascii_control c.

Definition invalid_cache_name (n : string) : bool :=
  bool_decide (n = "") || bool_decide (n = ".") || bool_decide (n = "..") ||
  existsb reserved_char (String.list_ascii_of_string n).

(** ** Directories *)
Section Build.
Context {DB RTxn WTxn Bytes IoError W : Type} `{!Redb DB RTxn WTxn Bytes IoError W, !FileSystem W}.
Notation Io A := (ST W (result ErrorKind A)).

(** 0o700, 0o600, 0o022 *)
Definition mode_700 : Z := 448.
Definition mode_600 : Z := 384.
Definition mode_022 : Z := 18.

Definition create_cache_dir (path : string) : Io unit := create_dir_all mode_700 path.

Definition validate_cache_dir (path : string) : Io unit :=
  try! meta := symlink_metadata path in
  if is_symlink meta then ret (Err PermissionDenied)
  else if negb (Z.land (mode meta) mode_022 =? 0) then ret (Err PermissionDenied)
  else ret (Ok tt).

(** A directory that fails the validation is made private and validated again, unless it is a
    symlink; if that fails, the error is the first one. *)
Definition prepare_default_cache_dir (disk_dir : string) : Io unit :=
  try! _ := create_cache_dir disk_dir in
  let! valid := validate_cache_dir disk_dir in
  match valid with
  | Ok _ => ret (Ok tt)
  | Err error =>
      try! meta := symlink_metadata disk_dir in
      if is_symlink meta then ret (Err error)
      else
        let! r := set_dir_mode mode_700 disk_dir in
        match r with
        | Err _ => ret (Err error)
        | Ok _ => validate_cache_dir disk_dir
        end
  end.

Definition reject_if_symlink (path : string) : Io unit :=
  let! r := symlink_metadata path in
  ret match r with
      | Ok meta => if is_symlink meta then Err PermissionDenied else Ok tt
      | Err NotFound => Ok tt
      | Err e => Err e
      end.

Definition default_disk_dir_candidates : ST W (list string) :=
  let! exe := current_exe in
  let exe_name := match exe with Some name => name +:+ "_" | None => "" end in
  let dir_prefix := exe_name +:+ DISK_FILE_PREFIX in
  let! base := base_cache_dir in
  let! temp := temp_dir in
  ret ((match base with Some dir => [join dir dir_prefix] | None => [] end) ++ [join temp dir_prefix]).

(** The first candidate that can be used; one that is denied is passed over. *)
Fixpoint first_usable (candidates : list string) (last_error : ErrorKind) : Io string :=
  match candidates with
  | [] => ret (Err last_error)
  | disk_dir :: candidates =>
      let! r := prepare_default_cache_dir disk_dir in
      match r with
      | Ok _ => ret (Ok disk_dir)
      | Err PermissionDenied => first_usable candidates PermissionDenied
      | Err ReadOnlyFilesystem => first_usable candidates ReadOnlyFilesystem
      | Err e => ret (Err e)
      end
  end.

Definition default_disk_path : Io string :=
  let! candidates := default_disk_dir_candidates in
  first_usable candidates PermissionDenied.

(** ** The database *)

(** What runs under [catch_unwind]. *)
Definition open_or_create (disk_path : string) : ST W (result IoError DB) :=
  try! db := database_create disk_path in
  fun w =>
    match (try! wtxn := io (db_begin_write db) in try! wtxn := io (open_table wtxn) in commit wtxn) (db, w) with
    | (Done (Ok _), (db, w)) => (Done (Ok db), w)
    | (Done (Err e), (_, w)) => (Done (Err e), w)
    | (Unwind, (_, w)) => (Unwind, w)
    | (OutOfFuel, (_, w)) => (OutOfFuel, w)
    end.

Definition open_database (disk_path : string) : ST W (result (RedbCacheBuildError IoError) DB) := fun w =>
  match open_or_create disk_path w with
  | (Done r, w) => (Done (map_err (fun e => BStorage (inl e)) r), w)
  | (Unwind, w) => (Done (Err (BStorage (inr "redb panicked opening the database file (it is most likely damaged or truncated); the file was left untouched"))), w)
  | (OutOfFuel, w) => (OutOfFuel, w)
  end.

(** [.map_err(RedbCacheBuildError::io)?] *)
Definition bio {A} (m : Io A) : ST W (result (RedbCacheBuildError IoError) A) :=
  let! r := m in ret (map_err BIo r).

Definition resolve_dir (dir : option string) : ST W (result (RedbCacheBuildError IoError) string) :=
  match dir with
  | Some disk_dir =>
      try! _ := bio (create_cache_dir disk_dir) in
      try! _ := bio (reject_if_symlink disk_dir) in
      ret (Ok disk_dir)
  | None => bio default_disk_path
  end.

(** The database file exists, is no symlink, and is private, before [redb] opens it. *)
Definition prepare_file (disk_path : string) : ST W (result (RedbCacheBuildError IoError) unit) :=
  try! _ := bio (reject_if_symlink disk_path) in
  try! _ := bio (open_file mode_600 disk_path) in
  bio (set_file_mode mode_600 disk_path).

Definition redb_file (cache_name : string) : string := cache_name +:+ "_v" +:+ DISK_FILE_VERSION +:+ ".redb".

(** The store, and the memory its calls run over. *)
Definition build (b : RedbCacheBuilder) : ST W (result (RedbCacheBuildError IoError) (RedbCache * Memory DB Settings)) :=
  match b_cache_name b with
  | None => ret (Err (BBuild (MissingRequired "name")))
  | Some cache_name =>
      if invalid_cache_name cache_name then ret (Err BInvalidCacheName)
      else
        match match b_ttl b with Some t => validate_ttl t | None => Ok tt end with
        | Err e => ret (Err (BBuild e))
        | Ok _ =>
            try! disk_dir := resolve_dir (b_disk_dir b) in
            let disk_path := join disk_dir (redb_file cache_name) in
            try! _ := prepare_file disk_path in
            try! db := open_database disk_path in
            ret (Ok (mkRedb (b_durable b) disk_path (b_strict b),
                     mkMemory [new_shard db] (mkSettings (b_ttl b) (b_refresh b))))
        end
  end.
End Build.
