(* ===== verification/RedbProps.v ===== *)
(** * The store on disk is one map of serialized entries

    Against the documented behaviour of [redb] - snapshots, atomic commits, failures at any call -
    every call of [RedbCache] is a few atomic operations on the table, however calls interleave;
    no operation drops an entry unless it is expired, or corrupt, in the transaction that drops it. *)
From stdpp Require Import strings gmap relations.
From S2P Require Import Prelude Keys Stores Shards Concurrent External Redb RedbBuild.

(** ** What [redb] promises *)

(** The table of a database, of a snapshot, and as a write transaction sees it. *)
Class RedbView (DB RTxn WTxn Bytes : Type) : Type := {
  contents : DB -> gmap string Bytes;
  snapshot : RTxn -> gmap string Bytes;
  view : WTxn -> gmap string Bytes }.

(** [m] terminates, and a success satisfies [Q]; it may fail, and it may panic. *)
Definition yields {W E A} (m : ST W (result E A)) (Q : A -> Prop) : Prop :=
  forall w, wp m (fun r _ => match r with Ok a => Q a | Err _ => True end) (fun _ => True) w.

(** A commit that fails, or panics, may have taken effect. *)
Class RedbLaws (DB RTxn WTxn Bytes IoError W : Type)
    `{!Redb DB RTxn WTxn Bytes IoError W, !RedbView DB RTxn WTxn Bytes} : Prop := {
  begin_read_sees : forall db : DB, yields (db_begin_read db) (fun t => snapshot t = contents db);
  r_open_sees : forall t : RTxn, yields (r_open_table t) (fun _ => True);
  r_get_sees : forall (t : RTxn) s, yields (r_get t s) (fun b => b = snapshot t !! s);
  r_iter_sees : forall t : RTxn, yields (r_iter t) (fun l => exists items,
    items ≡ₚ map_to_list (snapshot t) /\ Forall2 (fun i e => match i with Ok e' => e' = e | Err _ => True end) l items);
  begin_write_sees : forall db : DB, yields (db_begin_write db) (fun t => view t = contents db);
  set_durability_keeps : forall b (t : WTxn), yields (set_durability b t) (fun t' => view t' = view t);
  open_keeps : forall t : WTxn, yields (open_table t) (fun t' => view t' = view t);
  get_sees : forall (t : WTxn) s, yields (get t s) (fun b => b = view t !! s);
  insert_puts : forall (t : WTxn) s b, yields (insert t s b) (fun r => r.1 = view t !! s /\ view r.2 = <[s := b]> (view t));
  remove_drops : forall (t : WTxn) s, yields (remove t s) (fun r => r.1 = view t !! s /\ view r.2 = delete s (view t));
  delete_table_empties : forall t : WTxn, yields (delete_table t) (fun r => view r.2 = ∅);
  commit_publishes : forall (t : WTxn) (db : DB) w, wp (commit t)
    (fun r s => match r with Ok _ => contents s.1 = view t | Err _ => contents s.1 = contents db \/ contents s.1 = view t end)
    (fun s => contents s.1 = contents db \/ contents s.1 = view t) (db, w) }.

(** ** The specification *)
Section Specification.
Context {Bytes IoError SerError DeError K V W : Type}.
Context `{!Format (CachedDiskValue V) Bytes SerError DeError, !Clock W, !ToString K}.
Notation Error := (RedbCacheError Bytes IoError SerError DeError).
Notation Of A := (SpecOf string Bytes (result Error A)).

Definition decode (b : option Bytes) : option (CachedDiskValue V) := b ≫= (fun bytes => ok (from_slice bytes)).

(** A reading of the clock. *)
Definition a_reading (t : Z) : Prop := may_return (W := W) system_now t.
Definition reading : SpecOf string Bytes Z := schoose a_reading.

(** An operation in a transaction: it may fail, and if its commit fails it may have been done. *)
Definition attempt (op : MapOp string Bytes) : Of (option Bytes) :=
  let^ fate := schoose (fun _ : Fate IoError => True) in
  match fate with
  | Fails e => sret (Err (Storage e))
  | Unsure e => let^ _ := sop op in sret (Err (Storage e))
  | Works => let^ r := sop op in sret (Ok r)
  end.

(** A transaction on one key: what it makes of the entry, and what it returns. *)
Definition txn_spec {A} (key : string) (f : option Bytes -> result Error A * option Bytes) : Of A :=
  try^ b := attempt (Modify key (fun b r b' => r = b /\ b' = (f b).2)) in
  sret (f b).1.

(** [heal]: an entry that is still corrupt goes. *)
Definition healed (b : option Bytes) : result Error (option (CachedDiskValue V)) * option Bytes :=
  match decode b with Some cached => (Ok (Some cached), b) | None => (Ok None, None) end.

(** [settle], with the readings of the clock for the age and for the new stamp. *)
Definition settled (ttl : Z) (refresh strict : bool) (now : Z * Z) (b : option Bytes) : result Error (option V) * option Bytes :=
  match b with
  | None => (Ok None, None)
  | Some bytes =>
      match from_slice bytes with
      | Err e => if strict then (Err (CacheDeserialization e bytes), b) else (Ok None, None)
      | Ok cached =>
          if since now.1 (created_at cached) <? ttl then
            if refresh then
              match to_vec (mkDiskValue (value cached) now.2) with
              | Err e => (Err (CacheSerialization e), b)
              | Ok serialized => (Ok (Some (value cached)), Some serialized)
              end
            else (Ok (Some (value cached)), b)
          else (Ok None, None)
      end
  end.

Definition two_readings : SpecOf string Bytes (Z * Z) := schoose (fun p : Z * Z => a_reading p.1 /\ a_reading p.2).

Definition serve_spec (key : string) (ttl : option Z) (refresh strict : bool) (cached : CachedDiskValue V) : Of (option V) :=
  match ttl with
  | None => sret (Ok (Some (value cached)))
  | Some ttl =>
      let^ now := reading in
      if (since now (created_at cached) <? ttl) && negb refresh then sret (Ok (Some (value cached)))
      else let^ now := two_readings in txn_spec key (settled ttl refresh strict now)
  end.

Definition entry_spec (key : string) (ttl : option Z) (refresh strict : bool) : Of (option V) :=
  try^ raw := attempt (Read key) in
  match raw with
  | None => sret (Ok None)
  | Some bytes =>
      match from_slice bytes with
      | Ok cached => serve_spec key ttl refresh strict cached
      | Err e =>
          if strict then sret (Err (CacheDeserialization e bytes))
          else
            try^ healed := txn_spec key healed in
            match healed with
            | None => sret (Ok None)
            | Some cached => serve_spec key ttl refresh strict cached
            end
      end
  end.

(** What a displaced entry is worth. *)
Definition previous_spec (ttl : option Z) (b : option Bytes) : Of (option V) :=
  match decode b with
  | None => sret (Ok None)
  | Some cached =>
      match ttl with
      | None => sret (Ok (Some (value cached)))
      | Some ttl => let^ now := reading in sret (Ok (if since now (created_at cached) <? ttl then Some (value cached) else None))
      end
  end.

Definition put_spec (key : string) (bytes : Bytes) : Of (option Bytes) := txn_spec key (fun b => (Ok b, Some bytes)).
Definition drop_spec (key : string) : Of (option Bytes) := txn_spec key (fun b => (Ok b, None)).

(** The value, stamped and serialized. *)
Definition stamped (v : V) : Of Bytes :=
  let^ now := reading in
  match to_vec (mkDiskValue v now) with
  | Err e => sret (Err (CacheSerialization e))
  | Ok bytes => sret (Ok bytes)
  end.

(** An entry the sweep may drop: one that a get would not serve. *)
Definition stale (now ttl : Z) (strict : bool) (bytes : Bytes) : bool :=
  match from_slice bytes with
  | Ok cached => negb (since now (created_at cached) <? ttl)
  | Err _ => negb strict
  end.

Definition all_keys : string -> bool := fun _ => true.

(** The keys come from a snapshot; those whose entry has not been replaced meanwhile by one that is
    not stale are dropped together, or an error is reported and none is. *)
Definition sweep_spec (ttl : option Z) (strict : bool) : Of Z :=
  match ttl with
  | None => sret (Ok 0)
  | Some ttl =>
      let^ now := reading in
      try^ keys := schoose (fun _ : result Error (list string) => True) in
      match keys with
      | [] => sret (Ok 0)
      | _ =>
          try^ _ := schoose (fun _ : result Error unit => True) in
          try^ _ := attempt (Filter (fun k => bool_decide (k ∈ keys)) (fun _ bytes => stale now ttl strict bytes = false)
                                    (fun _ bytes => stale now ttl strict bytes = true)) in
          let^ n := schoose (fun n => 0 <= n) in sret (Ok n)
      end
  end.

(** The ttl, among those it is ever given, and the flag. *)
Context (ttl_ok : option Z -> Prop).
Definition some_ttl : SpecOf string Bytes (option Z) := schoose ttl_ok.
Definition some_flag : SpecOf string Bytes bool := schoose (fun _ : bool => True).

Definition redb_get_spec (strict : bool) (k : K) : Of (option V) :=
  let^ ttl := some_ttl in
  let^ refresh := some_flag in
  entry_spec (to_string k) ttl refresh strict.

Definition redb_spec (strict : bool) : StoreSpec string Bytes K V Error := {|
  get_spec := redb_get_spec strict;
  set_spec k v :=
    let^ ttl := some_ttl in
    try^ bytes := stamped v in
    try^ previous := put_spec (to_string k) bytes in
    previous_spec ttl previous;
  remove_spec k := let^ ttl := some_ttl in try^ removed := drop_spec (to_string k) in previous_spec ttl removed;
  remove_entry_spec k :=
    let^ r := (try^ removed := drop_spec (to_string k) in sret (Ok (value <$> decode removed))) in
    sret (map_ok (fmap (fun v => (k, v))) r);
  delete_spec k := try^ removed := drop_spec (to_string k) in sret (Ok (is_some removed));
  contains_spec k := let^ r := redb_get_spec strict k in sret (map_ok is_some r);
  clear_spec := try^ _ := attempt (EraseAll all_keys) in sret (Ok tt);
  set_ref_spec k v :=
    try^ bytes := stamped v in
    try^ _ := put_spec (to_string k) bytes in sret (Ok tt) |}.
End Specification.

(** ** The code meets it *)
Section Meets.
Context {DB RTxn WTxn Bytes IoError SerError DeError K V W : Type}.
Context `{!Redb DB RTxn WTxn Bytes IoError W, !RedbView DB RTxn WTxn Bytes, !RedbLaws DB RTxn WTxn Bytes IoError W}.
Context `{!Format (CachedDiskValue V) Bytes SerError DeError, !Clock W, !ToString K}.
Notation Error := (RedbCacheError Bytes IoError SerError DeError).
Notation Txn A := (ST (DB * W) (result Error A)).
Context (ttl_ok : option Z -> Prop).

(** One shard, whose database holds exactly the map. *)
Definition holds_exactly (i : nat) (db : DB) (m : Map string Bytes) : Prop :=
  forall s, 0%nat = i -> m s = contents db !! s.

Lemma holds_local i db m m' : (forall k : string, 0%nat = i -> m' k = m k) -> holds_exactly i db m -> holds_exactly i db m'.
Proof. intros H Hm s Hi. rewrite H by done. by apply Hm. Qed.

Definition redb_layout : Layout DB Settings string Bytes := {|
  shard_count := 1;
  slot _ := 0%nat;
  lossy := false;
  inv := holds_exactly;
  ginv g := ttl_ok (ttl g);
  slot_cong _ _ _ := eq_refl;
  slot_bound _ := Nat.lt_0_1;
  inv_local := holds_local |}.
Notation L := redb_layout.

(** *** Calls on [redb] *)
Section Calls.
Context {A B : Type} (Q : result Error B -> DB * W -> Prop) (U : DB * W -> Prop).

(** What [Q] and [U] say of a failure that leaves the database as it is. *)
Definition bears_failure (db : DB) : Prop := (forall e w, Q (Err (Storage e)) (db, w)) /\ forall w, U (db, w).

Lemma io_wp (m : ST W (result IoError A)) (k : A -> Txn B) P db w :
  yields m P -> bears_failure db -> (forall a w', P a -> wp (k a) Q U (db, w')) ->
  wp (ebind (storage (io m)) k) Q U (db, w).
Proof.
  intros Hm [HQ HU] Hk. specialize (Hm w). apply wp_bind. unfold storage. apply wp_bind.
  unfold wp at 1, io. unfold wp in Hm. destruct (m w) as [[r| |] w']; [|apply HU|done].
  destruct r as [a|e]; simpl; [by apply Hk|apply wp_ret, HQ].
Qed.
End Calls.

(** What a commit may leave. *)
Definition committed (db : DB) (t : gmap string Bytes) (db' : DB) : Prop := contents db' = contents db \/ contents db' = t.

Lemma commit_wp {B} (t : WTxn) (b : B) (Q : result Error B -> DB * W -> Prop) (U : DB * W -> Prop) db w :
  (forall db' w', contents db' = view t -> Q (Ok b) (db', w')) ->
  (forall e db' w', committed db (view t) db' -> Q (Err (Storage e)) (db', w')) ->
  (forall db' w', committed db (view t) db' -> U (db', w')) ->
  wp (commit_and t b) Q U (db, w).
Proof.
  intros HQ HE HU. apply wp_bind. unfold t_commit, storage. apply wp_bind.
  eapply wp_mono; [apply commit_publishes|..].
  - intros [[]|e] [db' w'] Hc; simpl; apply wp_ret; apply wp_ret; [by apply HQ|by apply HE].
  - intros [db' w'] Hc. by apply HU.
Qed.

Lemma begin_write_wp {B} d (k : WTxn -> Txn B) Q U db w : bears_failure Q U db ->
  (forall t w', view t = contents db -> wp (k t) Q U (db, w')) -> wp (ebind (begin_write d) k) Q U (db, w).
Proof.
  intros HF Hk. unfold begin_write, ebind at 1. unfold bind at 1.
  change (wp (bind (fun s : DB * W => (try! wtxn := storage (io (db_begin_write db)) in
    if d then ret (Ok wtxn) else storage (io (set_durability false wtxn))) s)
    (fun r => match r with Ok a => k a | Err e => ret (Err e) end)) Q U (db, w)).
  apply wp_bind. eapply io_wp; [apply begin_write_sees|..].
  - destruct HF as [HQ HU]. split; [intros e w'; apply wp_ret, HQ|apply HU].
  - intros t w1 Ht. destruct d; [apply wp_ret; by apply Hk|].
    unfold storage. apply wp_bind. pose proof (set_durability_keeps false t w1) as Hs.
    unfold wp at 1, io. unfold wp in Hs. destruct (set_durability false t w1) as [[r| |] w2]; [|by apply HF|done].
    apply wp_ret. destruct r as [t'|e]; simpl; [apply Hk; by rewrite Hs|by apply wp_ret, HF].
Qed.

Lemma open_and_wp {B} d (body : WTxn -> Txn B) Q U db w : bears_failure Q U db ->
  (forall t w', view t = contents db -> wp (body t) Q U (db, w')) -> wp (open_and d body) Q U (db, w).
Proof.
  intros HF Hb. apply begin_write_wp; [done|]. intros t w1 Ht. eapply io_wp; [apply open_keeps|done|].
  intros t' w2 Ht'. apply Hb. by rewrite Ht'.
Qed.

(** *** A transaction on one key *)

Definition updated (key : string) (b : option Bytes) (t : gmap string Bytes) : gmap string Bytes :=
  partial_alter (fun _ => b) key t.

(** What it may leave and return, of [f] as its effect. *)
Definition effect {A} (key : string) (f : option Bytes -> result Error A * option Bytes) (db : DB) (r : result Error A) (db' : DB) : Prop :=
  let b := contents db !! key in
  match r with
  | Err (Storage _) => committed db (updated key (f b).2 (contents db)) db'
  | _ => r = (f b).1 /\ contents db' = updated key (f b).2 (contents db)
  end.

Lemma updated_same key t : updated key (t !! key) t = t.
Proof. apply map_eq. intros k. unfold updated. destruct (decide (k = key)) as [->|Hk];
  [by rewrite lookup_partial_alter_eq|by rewrite lookup_partial_alter_ne]. Qed.

Lemma updated_holds key b db db' m : holds_exactly 0 db m -> contents db' = updated key b (contents db) ->
  holds_exactly 0 db' (put key b m).
Proof.
  intros H E s _. unfold put. simpl. rewrite E. unfold updated. destruct (decide (key = s)) as [->|Hk].
  - by rewrite bool_decide_true, lookup_partial_alter_eq by done.
  - rewrite bool_decide_false, lookup_partial_alter_ne by done. by apply H.
Qed.

Lemma kept_holds key db db' m : holds_exactly 0 db m -> contents db' = contents db -> holds_exactly 0 db' (put key (m key) m).
Proof. intros H E. eapply updated_holds; [exact H|]. rewrite H by done. by rewrite E, updated_same. Qed.

(** The specification's map when nothing has changed is the map before. *)
Lemma same_holds db db' m : holds_exactly 0 db m -> contents db' = contents db -> holds_exactly 0 db' m.
Proof. intros H E s Hs. rewrite E. by apply H. Qed.
Lemma one_shard m m' : stable holds_exactly 0 m m'.
Proof. intros [|j] db Hj Hm; [done|]. by intros s. Qed.

Lemma attempt_fails op e m : comes_to L (attempt (IoError := IoError) (SerError := SerError) (DeError := DeError) op) m (Err (Storage e)) m.
Proof. eapply comes_to_bind; [by apply (comes_to_choose L _ (Fails e))|apply comes_to_ret]. Qed.

Lemma attempt_unsure op e m r m' : answers false op m r m' -> comes_to L (attempt (IoError := IoError) (SerError := SerError) (DeError := DeError) op) m (Err (Storage e)) m'.
Proof.
  intros Ha. eapply comes_to_bind; [by apply (comes_to_choose L _ (Unsure e))|].
  eapply comes_to_bind; [by apply (comes_to_op L _ _ r)|apply comes_to_ret].
Qed.

Lemma attempt_works op m r m' : answers false op m r m' ->
  comes_to L (attempt (IoError := IoError) (SerError := SerError) (DeError := DeError) op) m (Ok r) m'.
Proof.
  intros Ha. eapply comes_to_bind; [by apply (comes_to_choose L _ Works)|].
  eapply comes_to_bind; [by apply (comes_to_op L)|apply comes_to_ret].
Qed.

Lemma comes_to_try {A B E} (s : SpecOf string Bytes (result E A)) (t : A -> SpecOf string Bytes (result E B)) m a m' b m'' :
  comes_to L s m (Ok a) m' -> comes_to L (t a) m' b m'' -> comes_to L (stry s t) m b m''.
Proof. intros H1 H2. eapply comes_to_bind; [exact H1|exact H2]. Qed.

Lemma comes_to_err {A B E} (s : SpecOf string Bytes (result E A)) (t : A -> SpecOf string Bytes (result E B)) m e m' :
  comes_to L s m (Err e) m' -> comes_to L (stry s t) m (Err e) m'.
Proof. intros H1. eapply comes_to_bind; [exact H1|apply comes_to_ret]. Qed.

(** The effect of a transaction is its specification's. *)
Lemma effect_comes {A} key (f : option Bytes -> result Error A * option Bytes) db m r db' :
  holds_exactly 0 db m -> effect key f db r db' ->
  exists m', holds_exactly 0 db' m' /\ comes_to L (txn_spec key f) m r m'.
Proof.
  intros Hm He. unfold effect in He. rewrite <- (Hm key eq_refl) in He. unfold txn_spec.
  set (op := Modify key _).
  assert (answers false op m (m key) (put key (f (m key)).2 m)) as Ha by (by exists (f (m key)).2).
  assert (r = (f (m key)).1 -> contents db' = updated key (f (m key)).2 (contents db) ->
    exists m', holds_exactly 0 db' m' /\
      comes_to L (try^ b := attempt op in sret (f b).1) m r m') as Hok.
  { intros -> E. exists (put key (f (m key)).2 m). split; [by eapply updated_holds|].
    eapply comes_to_try; [by apply attempt_works|apply comes_to_ret]. }
  destruct r as [a|[e|e bytes|e]]; [by destruct He; apply Hok| |by destruct He; apply Hok..].
  destruct He as [E|E].
  - exists m. split; [by eapply same_holds|]. apply comes_to_err, attempt_fails.
  - exists (put key (f (m key)).2 m). split; [by eapply updated_holds|].
    apply comes_to_err. by eapply attempt_unsure.
Qed.

Lemma effect_dies {A X} key (P : X -> Prop) (f : X -> option Bytes -> result Error A * option Bytes) db m db' :
  holds_exactly 0 db m ->
  (contents db' = contents db \/ exists x, P x /\ contents db' = updated key (f x (contents db !! key)).2 (contents db)) ->
  exists m', holds_exactly 0 db' m' /\ dies_at L (let^ x := schoose P in txn_spec key (f x)) m m'.
Proof.
  intros Hm [E|(x & Hx & E)].
  - exists m. split; [by eapply same_holds|apply dies_now].
  - rewrite <- (Hm key eq_refl) in E. exists (put key (f x (m key)).2 m). split; [by eapply updated_holds|].
    eapply comes_to_dies. eapply comes_to_bind; [by apply comes_to_choose|].
    eapply comes_to_try; [apply attempt_works; by exists (f x (m key)).2|apply comes_to_ret].
Qed.

(** How a transaction on one key ends, for some [x] that satisfies [P]: with the effect of [f x], or
    with a failure before it had any; and how it may unwind. *)
Section Ends.
Context {A X : Type} (key : string) (P : X -> Prop) (f : X -> option Bytes -> result Error A * option Bytes).
Definition good_end (db : DB) (r : result Error A) (s : DB * W) : Prop :=
  (exists e, r = Err (Storage e) /\ contents s.1 = contents db) \/ exists x, P x /\ effect key (f x) db r s.1.
Definition good_death (db : DB) (s : DB * W) : Prop :=
  contents s.1 = contents db \/ exists x, P x /\ contents s.1 = updated key (f x (contents db !! key)).2 (contents db).
Definition takes_effect (t : Txn A) : Prop := forall db w, wp t (good_end db) (good_death db) (db, w).
End Ends.

(** A transaction on one key, whose effect depends on what it chooses. *)
Lemma txn_meets {A X} key (P : X -> Prop) (f : X -> option Bytes -> result Error A * option Bytes) (t : Txn A) :
  takes_effect key P f t -> (W -> exists x, P x) ->
  meets L (let^ x := schoose P in txn_spec key (f x)) (with_write 0 t).
Proof.
  intros Ht HP. apply meets_write; [simpl; lia|]. intros db m w Hm. destruct (HP w) as [x0 Hx0]. eapply wp_mono; [apply Ht|..].
  - intros r [db' w'] H. assert (exists x, P x /\ effect key (f x) db r db') as (x & Hx & He).
    { destruct H as [(e & -> & E)|H]; [|done]. exists x0. split; [done|]. by left. }
    destruct (effect_comes key (f x) _ _ _ _ Hm He) as (m' & Hm' & Hc). exists m'. split_and!; [done|apply one_shard|].
    eapply comes_to_bind; [by apply comes_to_choose|exact Hc].
  - intros [db' w'] H. destruct (effect_dies key P f _ _ _ Hm H) as (m' & Hm' & Hd).
    exists m'. split_and!; [done|apply one_shard|done].
Qed.

(** One that chooses nothing. *)
Lemma plain_txn_meets {A} key (f : option Bytes -> result Error A * option Bytes) (t : Txn A) :
  takes_effect key (fun _ : unit => True) (fun _ => f) t ->
  meets L (txn_spec key f) (with_write 0 t).
Proof.
  intros Ht. apply meets_write; [simpl; lia|]. intros db m w Hm. eapply wp_mono; [apply Ht|..].
  - intros r [db' w'] H. assert (effect key f db r db') as He.
    { destruct H as [(e & -> & E)|(_ & _ & H)]; [by left|done]. }
    destruct (effect_comes key f _ _ _ _ Hm He) as (m' & Hm' & Hc). exists m'. split_and!; [done|apply one_shard|done].
  - intros [db' w'] [E|(_ & _ & E)].
    + exists m. split_and!; [by eapply same_holds|apply one_shard|apply dies_now].
    + simpl in E. rewrite <- (Hm key eq_refl) in E. exists (put key (f (m key)).2 m).
      split_and!; [by eapply updated_holds|apply one_shard|]. eapply comes_to_dies, comes_to_try;
        [apply attempt_works; by exists (f (m key)).2|apply comes_to_ret].
Qed.

(** *** The transactions *)
Section Txns.
Context {A X : Type} (key : string) (P : X -> Prop) (f : X -> option Bytes -> result Error A * option Bytes).

Lemma txn_bears db : bears_failure (good_end key P f db) (good_death key P f db) db.
Proof. split; [intros e w; left; by exists e|intros w; by left]. Qed.

(** The transaction ends with a commit of the effect of [f x]. *)
Lemma commit_effect x (t : WTxn) (a : A) db w : P x -> (f x (contents db !! key)).1 = Ok a ->
  view t = updated key (f x (contents db !! key)).2 (contents db) ->
  wp (commit_and t a) (good_end key P f db) (good_death key P f db) (db, w).
Proof.
  intros Hx Ha Hv. apply commit_wp.
  - intros db' w' E. right. exists x. split; [done|]. split; [by rewrite Ha|]. simpl. by rewrite E.
  - intros e db' w' Hc. right. exists x. split; [done|]. unfold effect. by rewrite <- Hv.
  - intros db' w' [E|E]; [by left|right]. exists x. split; [done|]. simpl. by rewrite E.
Qed.

(** It ends with an error of its own, nothing done. *)
Lemma error_effect x e db (w : W) : P x -> f x (contents db !! key) = (Err e, contents db !! key) ->
  good_end key P f db (Err e) (db, w).
Proof.
  intros Hx E. right. exists x. split; [done|]. unfold effect. rewrite E. cbn [fst snd]. rewrite updated_same.
  destruct e; [by left|done|done].
Qed.
End Txns.

Lemma updated_none key (t : gmap string Bytes) : updated key None t = delete key t.
Proof. done. Qed.

Lemma updated_some key b (t : gmap string Bytes) : updated key (Some b) t = <[key := b]> t.
Proof. done. Qed.

Lemma updated_eq key o (t : gmap string Bytes) : o = t !! key -> updated key o t = t.
Proof. intros ->. apply updated_same. Qed.

Lemma now_reading w : a_reading (W := W) (clock_now w).1.
Proof. exists w, (clock_now w).2. unfold system_now. by destruct (clock_now w). Qed.

(** Cases of a program that goes on after reading the clock, in a transaction. *)
Lemma now_then {B} (k : Z -> Txn B) Q U db w : (forall w', wp (k (clock_now w).1) Q U (db, w')) -> wp (let! t := now in k t) Q U (db, w).
Proof. intros Hk. apply wp_bind, wp_now, Hk. Qed.

(** A removal, then the commit. *)
Lemma remove_commit {A X} key (P : X -> Prop) (f : X -> option Bytes -> result Error A * option Bytes) x (t : WTxn) (a : A) db w :
  P x -> f x (contents db !! key) = (Ok a, None) -> view t = contents db ->
  wp (try! (_, t) := t_remove t key in commit_and t a) (good_end key P f db) (good_death key P f db) (db, w).
Proof.
  intros Hx Ef Ht. eapply io_wp; [apply remove_drops|apply txn_bears|]. intros [b t'] w' [_ Hv].
  apply (commit_effect key P f x); [done|by rewrite Ef|]. rewrite Ef. simpl in Hv. by rewrite Hv, Ht.
Qed.

Lemma settle_effect key t refresh d strict :
  takes_effect key (fun p : Z * Z => a_reading (W := W) p.1 /\ a_reading (W := W) p.2) (settled t refresh strict) (settle key t refresh d strict).
Proof.
  intros db w. assert (forall w w', a_reading (W := W) (clock_now w).1 /\ a_reading (W := W) (clock_now w').1) as Hr
    by (split; apply now_reading).
  apply open_and_wp; [apply txn_bears|]. intros t1 w1 Ht1.
  eapply io_wp; [apply get_sees|apply txn_bears|]. intros b w2 Eb. rewrite Ht1 in Eb. symmetry in Eb.
  set (p := ((clock_now w2).1, (clock_now w2).1)). destruct b as [bytes|].
  2:{ apply (commit_effect key _ (settled t refresh strict) p); rewrite ?Eb; [apply Hr|done|]. simpl. by rewrite updated_eq. }
  destruct (from_slice bytes) as [c|e] eqn:Ec.
  2:{ destruct strict.
      - apply wp_ret, (error_effect key _ (settled t refresh true) p); [apply Hr|]. rewrite Eb. simpl. by rewrite Ec.
      - apply (remove_commit key _ (settled t refresh false) p); [apply Hr| |done]. rewrite Eb. simpl. by rewrite Ec. }
  apply now_then. intros w3. destruct (_ <? t) eqn:Et.
  2:{ apply (remove_commit key _ (settled t refresh strict) p); [apply Hr| |done].
      rewrite Eb. simpl. by rewrite Ec, Et. }
  destruct refresh.
  2:{ apply (commit_effect key _ (settled t false strict) p); rewrite ?Eb; simpl; rewrite ?Ec, ?Et; [apply Hr|done|].
      by rewrite updated_eq. }
  apply now_then. intros w4. set (p' := ((clock_now w2).1, (clock_now w3).1)).
  destruct (to_vec _) as [s|e] eqn:Es.
  2:{ apply wp_ret, (error_effect key _ (settled t true strict) p'); [apply Hr|]. rewrite Eb. simpl. by rewrite Ec, Et, Es. }
  eapply io_wp; [apply insert_puts|apply txn_bears|]. intros [prev t2] w5 [_ Hv].
  apply (commit_effect key _ (settled t true strict) p'); rewrite ?Eb; simpl; rewrite ?Ec, ?Et, ?Es; [apply Hr|done|].
  simpl in Hv. by rewrite Hv, Ht1.
Qed.

Lemma settle_meets key t refresh d strict :
  meets L (let^ now := two_readings in txn_spec key (settled t refresh strict now)) (with_write 0 (settle key t refresh d strict)).
Proof.
  apply txn_meets; [apply settle_effect|]. intros w. exists ((clock_now w).1, (clock_now w).1). split; apply now_reading.
Qed.

Lemma heal_effect key d : takes_effect key (fun _ : unit => True) (fun _ => healed) (heal key d).
Proof.
  intros db w. apply open_and_wp; [apply (txn_bears key (fun _ => True) (fun _ : unit => healed))|].
  intros t1 w1 Ht1. eapply io_wp; [apply get_sees|apply (txn_bears key (fun _ => True) (fun _ : unit => healed))|].
  intros b w2 Eb. rewrite Ht1 in Eb. symmetry in Eb. destruct b as [bytes|].
  2:{ apply (commit_effect key (fun _ => True) (fun _ : unit => healed) tt); rewrite ?Eb; [done|done|]. simpl. by rewrite updated_eq. }
  destruct (from_slice bytes) as [c|e] eqn:Ec.
  - apply (commit_effect key (fun _ => True) (fun _ : unit => healed) tt); rewrite ?Eb; unfold healed; simpl; rewrite ?Ec; [done|done|].
    simpl. by rewrite updated_eq.
  - apply (remove_commit key (fun _ => True) (fun _ : unit => healed) tt); [done| |done].
    rewrite Eb. unfold healed. simpl. by rewrite Ec.
Qed.

Lemma heal_meets key d : meets L (txn_spec key healed) (with_write 0 (heal key d)).
Proof. apply plain_txn_meets, heal_effect. Qed.

Lemma insert_effect key bytes d :
  takes_effect key (fun _ : unit => True) (fun _ b => (Ok b, Some bytes)) (insert_txn (SerError := SerError) (DeError := DeError) key bytes d).
Proof.
  set (f := fun b : option Bytes => (Ok b : result Error (option Bytes), Some bytes)).
  intros db w. apply open_and_wp; [apply (txn_bears key (fun _ => True) (fun _ : unit => f))|].
  intros t1 w1 Ht1. eapply io_wp; [apply insert_puts|apply (txn_bears key (fun _ => True) (fun _ : unit => f))|].
  intros [prev t2] w2 [Ep Hv]. simpl in *.
  apply (commit_effect key (fun _ => True) (fun _ : unit => f) tt); [done|by rewrite Ep, Ht1|]. by rewrite Hv, Ht1.
Qed.

Lemma insert_meets key bytes d : meets L (put_spec (IoError := IoError) (SerError := SerError) (DeError := DeError) key bytes) (with_write 0 (insert_txn key bytes d)).
Proof. apply plain_txn_meets, insert_effect. Qed.

Lemma remove_effect key d :
  takes_effect key (fun _ : unit => True) (fun _ b => (Ok b, None)) (remove_txn (SerError := SerError) (DeError := DeError) key d).
Proof.
  set (f := fun b : option Bytes => (Ok b : result Error (option Bytes), None : option Bytes)).
  intros db w. apply open_and_wp; [apply (txn_bears key (fun _ => True) (fun _ : unit => f))|].
  intros t1 w1 Ht1. eapply io_wp; [apply remove_drops|apply (txn_bears key (fun _ => True) (fun _ : unit => f))|].
  intros [prev t2] w2 [Ep Hv]. simpl in *.
  apply (commit_effect key (fun _ => True) (fun _ : unit => f) tt); [done|by rewrite Ep, Ht1|]. by rewrite Hv, Ht1.
Qed.

Lemma remove_meets key d : meets L (drop_spec (IoError := IoError) (SerError := SerError) (DeError := DeError) key) (with_write 0 (remove_txn key d)).
Proof. apply plain_txn_meets, remove_effect. Qed.

(** *** Reads *)

(** A call on a snapshot. *)
Lemma storage_wp {A B} (m : ST W (result IoError A)) (k : A -> ST W (result Error B)) P (Q : result Error B -> W -> Prop) w :
  yields m P -> (forall e w', Q (Err (Storage e)) w') -> (forall a w', P a -> wp (k a) Q (fun _ => True) w') ->
  wp (ebind (storage m) k) Q (fun _ => True) w.
Proof.
  intros Hm HQ Hk. apply wp_bind. unfold storage. apply wp_bind. eapply wp_mono; [apply Hm| |done].
  intros [a|e] w' HP; apply wp_ret; [by apply Hk|by apply wp_ret].
Qed.

Lemma read_meets key : meets L (attempt (IoError := IoError) (SerError := SerError) (DeError := DeError) (Read key)) (with_read 0 (read_entry key)).
Proof.
  apply meets_read; [simpl; lia|]. intros db m w Hm.
  apply storage_wp with (fun t => snapshot t = contents db); [apply begin_read_sees|intros; apply attempt_fails|].
  intros t w1 Ht. apply storage_wp with (fun _ => True); [apply r_open_sees|intros; apply attempt_fails|].
  intros _ w2 _. unfold storage. apply wp_bind. eapply wp_mono; [apply r_get_sees| |done].
  intros [b|e] w3 Hb; apply wp_ret; [|apply attempt_fails]. simpl in Hb. subst b. rewrite Ht. simpl.
  apply attempt_works. split; [|done]. left. by rewrite (Hm key eq_refl).
Qed.

Lemma reading_meets : meets (W := W) L reading (outside system_now).
Proof. apply meets_outside. Qed.

Lemma serve_meets key t r d strict c : meets L (serve_spec key t r strict c) (serve key t r d strict c).
Proof.
  unfold serve_spec, serve. destruct t as [t|]; [|apply meets_ret]. apply meets_bind; [apply reading_meets|].
  intros now. destruct (_ && _); [apply meets_ret|apply settle_meets].
Qed.

Lemma entry_meets key t r d strict : meets L (entry_spec key t r strict) (disk_cache_get key t r d strict).
Proof.
  apply meets_try; [apply read_meets|]. intros [bytes|]; [|apply meets_ret].
  destruct (from_slice bytes) as [c|e]; [apply serve_meets|]. destruct strict; [apply meets_ret|].
  apply meets_try; [apply heal_meets|]. intros [c|]; [apply serve_meets|apply meets_ret].
Qed.

Lemma previous_meets t b : meets L (previous_spec (IoError := IoError) t b) (live_previous t b).
Proof.
  unfold previous_spec, live_previous, decode. destruct (b ≫= _) as [c|]; [|apply meets_ret].
  unfold unless_expired. destruct t as [t|]; [|apply meets_ret].
  refine (meets_bind L reading (outside system_now) _
    (fun now => Ret (Ok (if since now (created_at c) <? t then Some (value c) else None))) reading_meets _).
  intros now. apply meets_ret.
Qed.
Lemma clear_meets d : meets L (try^ _ := attempt (IoError := IoError) (SerError := SerError) (DeError := DeError) (EraseAll all_keys) in sret (Ok tt)) (disk_cache_clear d).
Proof.
  apply meets_write; [simpl; lia|]. intros db m w Hm.
  set (s := (try^ _ := attempt (IoError := IoError) (SerError := SerError) (DeError := DeError) (EraseAll all_keys) in sret (Ok tt))).
  set (m' := fun _ : string => None : option Bytes).
  assert (answers false (EraseAll all_keys) m None m') as Ha by done.
  assert (forall db', contents db' = contents db -> exists m', holds_exactly 0 db' m' /\ stable holds_exactly 0 m m' /\ forall e, comes_to L s m (Err (Storage e)) m') as Hsame.
  { intros db' E. exists m. split_and!; [by eapply same_holds|apply one_shard|]. intros e. apply comes_to_err, attempt_fails. }
  assert (forall db', contents db' = ∅ -> holds_exactly 0 db' m') as Hempty by (intros db' E k _; by rewrite E, lookup_empty).
  assert (bears_failure (fun r s' => exists m', holds_exactly 0 s'.1 m' /\ stable holds_exactly 0 m m' /\ comes_to L s m r m')
    (fun s' => exists m', holds_exactly 0 s'.1 m' /\ stable holds_exactly 0 m m' /\ dies_at L s m m') db) as HF.
  { destruct (Hsame db eq_refl) as (m1 & H1 & H2 & H3). split; [intros e w'; by exists m1|].
    intros w'. exists m. split_and!; [done|apply one_shard|apply dies_now]. }
  apply begin_write_wp; [done|]. intros t w1 _. eapply io_wp; [apply delete_table_empties|done|].
  intros [b t1] w2 E1. eapply io_wp; [apply open_keeps|done|]. intros t2 w3 E2. simpl in E1. rewrite E1 in E2.
  apply commit_wp; rewrite ?E2.
  - intros db' w' E. exists m'. split_and!; [by apply Hempty|apply one_shard|].
    eapply comes_to_try; [by apply attempt_works|apply comes_to_ret].
  - intros e db' w' [E|E]; [destruct (Hsame db' E) as (m1 & H1 & H2 & H3); by exists m1|].
    exists m'. split_and!; [by apply Hempty|apply one_shard|]. by eapply comes_to_err, attempt_unsure.
  - intros db' w' [E|E]; [exists m; split_and!; [by eapply same_holds|apply one_shard|apply dies_now]|].
    exists m'. split_and!; [by apply Hempty|apply one_shard|].
    eapply comes_to_dies, comes_to_try; [by apply attempt_works|apply comes_to_ret].
Qed.

(** A scope that does not change the table. *)
Lemma quiet_meets {A} (P : result Error A -> Prop) (t : Txn A) :
  (forall db w, wp t (fun r s => P r /\ contents s.1 = contents db) (fun s => contents s.1 = contents db) (db, w)) ->
  meets L (schoose P) (with_write 0 t).
Proof.
  intros Ht. apply meets_write; [simpl; lia|]. intros db m w Hm. eapply wp_mono; [apply Ht|..].
  - intros r [db' w'] [HP E]. exists m. split_and!; [by eapply same_holds|apply one_shard|by apply comes_to_choose].
  - intros [db' w'] E. exists m. split_and!; [by eapply same_holds|apply one_shard|apply dies_now].
Qed.

(** A flush succeeds or reports an error of the storage. *)
Definition flushed (r : result Error unit) : Prop := match r with Ok _ => True | Err e => exists e', e = Storage e' end.

Lemma flush_meets : meets L (schoose flushed) redb_flush.
Proof.
  apply quiet_meets. intros db w.
  assert (bears_failure (fun r (s : DB * W) => flushed r /\ contents s.1 = contents db) (fun s => contents s.1 = contents db) db) as HF
    by (split; [intros e w'; split; [by exists e|done]|done]).
  unfold redb_flush. eapply io_wp; [apply begin_write_sees|done|]. intros t w1 Ht.
  eapply io_wp; [apply set_durability_keeps|done|]. intros t' w2 Ht'. rewrite Ht in Ht'.
  apply commit_wp; rewrite ?Ht'.
  - done.
  - intros e db' w' [E|E]; by split; [exists e|].
  - by intros db' w' [E|E].
Qed.
(** *** The sweep *)

(** [m'] is [m] without the stale entries of [keys]. *)
Definition swept (now ttl : Z) (strict : bool) (keys : list string) (m m' : gmap string Bytes) : Prop :=
  forall k, m' !! k = m !! k ≫= (fun b => if bool_decide (k ∈ keys) && stale now ttl strict b then None else Some b).

(** The sweep unwinds nothing and drops what is stale; in strict mode it may meet corrupt bytes. *)
Lemma redb_sweep_wp now ttl strict keys Q U db : bears_failure Q U db ->
  forall t n w,
  (forall e bytes w k, strict = true -> view t !! k = Some bytes -> from_slice bytes = Err e ->
     Q (Err (CacheDeserialization e bytes)) (db, w)) ->
  (forall t' w', swept now ttl strict keys (view t) (view t') -> 
     Q (Ok (n + (Z.of_nat (size (view t)) - Z.of_nat (size (view t'))), t')) (db, w')) ->
  wp (sweep now ttl strict keys t n) Q U (db, w).
Proof.
  intros HF. induction keys as [|key keys IH]; intros t n w HD HQ; cbn [sweep].
  - apply wp_ret. replace n with (n + (Z.of_nat (size (view t)) - Z.of_nat (size (view t)))) at 1 by lia.
    apply HQ. intros k. by destruct (view t !! k).
  - eapply io_wp; [apply get_sees|done|]. intros b w1 ->.
    assert (forall t' w', stale now ttl strict <$> (view t !! key) <> Some true -> swept now ttl strict keys (view t) (view t') ->
      Q (Ok (n + (Z.of_nat (size (view t)) - Z.of_nat (size (view t'))), t')) (db, w')) as Hkeep.
    { intros t' w' Hs Hw. apply HQ. intros k. rewrite Hw. destruct (view t !! k) as [b|] eqn:E; [simpl|done].
      destruct (decide (k = key)) as [->|Hk].
      - rewrite E in Hs. simpl in Hs. destruct (stale now ttl strict b); [done|]. by rewrite !andb_false_r.
      - rewrite (bool_decide_ext (k ∈ key :: keys) (k ∈ keys)); [done|]. rewrite elem_of_cons. naive_solver. }
    assert (forall b, view t !! key = Some b -> stale now ttl strict b = true ->
      wp (try! (_, table) := t_remove t key in sweep now ttl strict keys table (n + 1)) Q U (db, w1)) as Hdrop.
    { intros b Eb Hs. eapply io_wp; [apply remove_drops|done|]. intros [r t1] w2 [_ Hv]. simpl in Hv. apply IH.
      { intros e bytes w' k He Hk. rewrite Hv in Hk. apply lookup_delete_Some in Hk as [_ Hk]. by eapply HD. }
      intros t' w' Hw. rewrite Hv in Hw |- *. assert (size (delete key (view t)) = pred (size (view t))) as Hsz by (apply map_size_delete_Some; by eexists).
      assert (Z.of_nat (size (view t)) <> 0) as Hnz.
      { intros H0. assert (size (view t) = 0%nat) as H1 by lia. apply map_size_empty_inv in H1. rewrite H1 in Eb. done. }
      replace (n + 1 + (Z.of_nat (size (delete key (view t))) - Z.of_nat (size (view t'))))
        with (n + (Z.of_nat (size (view t)) - Z.of_nat (size (view t')))) by lia.
      apply HQ. intros k. rewrite Hw. destruct (decide (k = key)) as [->|Hk].
      - rewrite lookup_delete_eq, Eb. simpl. by rewrite bool_decide_true, Hs by left.
      - rewrite lookup_delete_ne by done. destruct (view t !! k); [simpl|done].
        rewrite (bool_decide_ext (k ∈ key :: keys) (k ∈ keys)); [done|]. rewrite elem_of_cons. naive_solver. }
    destruct (view t !! key) as [b|] eqn:Eb; [|apply IH; [done|]; intros t' w' Hw; by apply Hkeep].
    unfold stale in Hkeep, Hdrop. destruct (from_slice b) as [c|e] eqn:Ec; simpl in Hkeep.
    + specialize (Hdrop b eq_refl). rewrite Ec in Hdrop. unfold expired_at. rewrite Z.leb_antisym.
      destruct (negb (since now (created_at c) <? ttl)) eqn:Ee; [by apply Hdrop|].
      apply IH; [done|]. intros t' w' Hw. apply Hkeep; [by rewrite Ec, Ee|done].
    + specialize (Hdrop b eq_refl). rewrite Ec in Hdrop. destruct strict; [by apply wp_ret, (HD e b w1 key)|by apply Hdrop].
Qed.
Lemma scan_meets now t strict : meets L (schoose (fun _ : result Error (list string) => True)) (with_read 0 (scan (V := V) now t strict)).
Proof.
  apply meets_read; [simpl; lia|]. intros db m w Hm.
  assert (forall r, comes_to L (schoose (fun _ : result Error (list string) => True)) m r m) as Hr
    by (intros r; by apply comes_to_choose).
  apply storage_wp with (fun t => snapshot t = contents db); [apply begin_read_sees|intros; apply Hr|].
  intros rt w1 Ht. apply storage_wp with (fun _ => True); [apply r_open_sees|intros; apply Hr|].
  intros _ w2 _. eapply storage_wp; [apply r_iter_sees|intros; apply Hr|]. intros l w3 _. apply wp_ret, Hr.
Qed.

Lemma swept_answers now t strict keys db db' m : holds_exactly 0 db m -> swept now t strict keys (contents db) (contents db') ->
  answers false (Filter (fun k => bool_decide (k ∈ keys)) (fun _ bytes => stale now t strict bytes = false)
    (fun _ bytes => stale now t strict bytes = true)) m None (fun k => contents db' !! k).
Proof.
  intros Hm Hs k. rewrite (Hs k), (Hm k eq_refl). destruct (bool_decide (k ∈ keys)); [|by destruct (contents db !! k)].
  destruct (contents db !! k) as [b|]; [|done]. simpl. destruct (stale now t strict b) eqn:E; [by left|by right; eauto].
Qed.

Lemma swept_size now t strict keys m m' : swept now t strict keys m m' -> (size m' <= size m)%nat.
Proof.
  intros H. apply map_subseteq_size, map_subseteq_spec. intros k b Hk. rewrite H in Hk.
  destruct (m !! k) as [b'|]; [simpl in Hk|done]. destruct (_ && _); [done|by injection Hk as ->].
Qed.

Lemma sweep_meets now t strict keys d :
  meets L (try^ _ := schoose (fun _ : result Error unit => True) in
           try^ _ := attempt (IoError := IoError) (SerError := SerError) (DeError := DeError) (Filter (fun k => bool_decide (k ∈ keys)) (fun _ bytes => stale now t strict bytes = false)
                       (fun _ bytes => stale now t strict bytes = true)) in
           let^ n := schoose (fun n => 0 <= n) in sret (Ok n))
    (with_write 0 (open_and d (fun table =>
       try! (removed, table) := sweep now t strict keys table 0 in commit_and table removed))).
Proof.
  apply meets_write; [simpl; lia|]. intros db m w Hm. set (s := stry _ _).
  assert (forall e, comes_to L s m (Err e) m) as Herr by (intros e; by eapply comes_to_err, comes_to_choose).
  assert (bears_failure (fun r s' => exists m', holds_exactly 0 s'.1 m' /\ stable holds_exactly 0 m m' /\ comes_to L s m r m')
    (fun s' => exists m', holds_exactly 0 s'.1 m' /\ stable holds_exactly 0 m m' /\ dies_at L s m m') db) as HF.
  { split; [intros e w'|intros w']; exists m; split_and!; try done; try apply one_shard. apply dies_now. }
  apply open_and_wp; [done|]. intros t0 w0 Ht0. apply wp_bind.
  apply redb_sweep_wp; [|intros e bytes w' k _ _ _; apply wp_ret; exists m; split_and!; [done|apply one_shard|apply Herr]|].
  { destruct HF as [HQ HU]. split; [intros e w'; apply wp_ret, HQ|apply HU]. }
  intros t' w' Hsw. rewrite Ht0 in Hsw |- *. pose proof (swept_size _ _ _ _ _ _ Hsw) as Hsz.
  assert (forall db', contents db' = view t' -> exists m', holds_exactly 0 db' m' /\ stable holds_exactly 0 m m' /\
    answers false (Filter (fun k => bool_decide (k ∈ keys)) (fun _ bytes => stale now t strict bytes = false)
      (fun _ bytes => stale now t strict bytes = true)) m None m') as Hdone.
  { intros db' E. exists (fun k => contents db' !! k). split_and!; [by intros k _|apply one_shard|].
    eapply swept_answers; [exact Hm|by rewrite E]. }
  apply commit_wp.
  - intros db' w2 E. destruct (Hdone db' E) as (m' & H1 & H2 & Ha). exists m'. split_and!; [done|done|].
    eapply comes_to_try; [by apply (comes_to_choose L _ (Ok tt))|]. eapply comes_to_try; [by apply attempt_works|].
    eapply comes_to_bind; [apply comes_to_choose|apply comes_to_ret]. simpl. lia.
  - intros e db' w2 [E|E]; [exists m; split_and!; [by eapply same_holds|apply one_shard|apply Herr]|].
    destruct (Hdone db' E) as (m' & H1 & H2 & Ha). exists m'. split_and!; [done|done|].
    eapply comes_to_try; [by apply (comes_to_choose L _ (Ok tt))|]. by eapply comes_to_err, attempt_unsure.
  - intros db' w2 [E|E]; [exists m; split_and!; [by eapply same_holds|apply one_shard|apply dies_now]|].
    destruct (Hdone db' E) as (m' & H1 & H2 & Ha). exists m'. split_and!; [done|done|].
    eapply comes_to_dies. eapply comes_to_try; [by apply (comes_to_choose L _ (Ok tt))|].
    eapply comes_to_try; [by apply attempt_works|]. eapply comes_to_bind; [by apply (comes_to_choose L _ 0)|apply comes_to_ret].
Qed.

Lemma impl_meets t strict d : meets L (sweep_spec (V := V) (W := W) t strict) (remove_expired_entries_impl (V := V) t strict d).
Proof.
  unfold sweep_spec, remove_expired_entries_impl. destruct t as [t|]; [|apply meets_ret].
  apply meets_bind; [apply reading_meets|]. intros now. apply meets_try; [apply scan_meets|].
  intros [|k keys]; [apply meets_ret|apply sweep_meets].
Qed.
End Meets.
