(* ===== verification/RedbBuildProps.v ===== *)
(** * What the builder of the store on disk promises

    Whatever the file system answers and wherever [redb] fails or panics, [build] returns; what it
    accepts keeps to the directory it was given.  The world keeps a record of what is asked of the file system,
    and the record of a build shows the order of its calls: the file is opened right after its path was seen to be
    no symlink, and, when [build] chose the directory itself, after that was seen to be writable by nobody else. *)
From stdpp Require Import strings gmap.
From Stdlib Require Import Ascii.
From S2P Require Import Prelude Keys Stores Shards Concurrent External Redb RedbBuild RedbProps.

(** ** The name of the file *)

Notation chars := String.list_ascii_of_string.

Lemma chars_app a b : chars (a +:+ b) = chars a ++ chars b.
Proof. induction a as [|c a IH]; [done|]. simpl. by rewrite IH. Qed.

Lemma chars_inj a b : chars a = chars b -> a = b.
Proof. intros E. rewrite <- (String.string_of_list_ascii_of_string a), E. apply String.string_of_list_ascii_of_string. Qed.

Lemma string_app_inj_l a b c : a +:+ b = a +:+ c -> b = c.
Proof. intros E%(f_equal chars). rewrite !chars_app in E. by apply app_inv_head, chars_inj in E. Qed.

Lemma string_app_inj_r a b c : a +:+ c = b +:+ c -> a = b.
Proof. intros E%(f_equal chars). rewrite !chars_app in E. by apply app_inv_tail, chars_inj in E. Qed.

Lemma redb_file_inj n n' : redb_file n = redb_file n' -> n = n'.
Proof. unfold redb_file. apply string_app_inj_r. Qed.

(** A component of a path: one that does not leave its directory. *)
Definition plain (file : string) : Prop :=
  Forall (fun c => c ∉ ["/"; "\"; Ascii.zero]%char) (chars file) /\ file <> "." /\ file <> ".." /\ file <> "".

Lemma redb_file_plain n : invalid_cache_name n = false -> plain (redb_file n).
Proof.
  unfold invalid_cache_name. rewrite !orb_false_iff. intros [_ H]. split_and!.
  - unfold redb_file, DISK_FILE_VERSION. rewrite !chars_app. apply Forall_app. split.
    + apply Forall_forall. intros c Hc Hbad. apply not_true_iff_false in H. apply H, existsb_exists.
      exists c. split; [by apply list_elem_of_In|]. rewrite !elem_of_cons, elem_of_nil in Hbad.
      by destruct Hbad as [->|[->|[->|[]]]].
    + apply (bool_decide_unpack _). by vm_compute.
  - intros E%(f_equal (fun s => length (chars s))). unfold redb_file in E. rewrite !chars_app, !length_app in E. simpl in E. lia.
  - intros E%(f_equal (fun s => length (chars s))). unfold redb_file in E. rewrite !chars_app, !length_app in E. simpl in E. lia.
  - intros E%(f_equal (fun s => length (chars s))). unfold redb_file in E. rewrite !chars_app, !length_app in E. simpl in E. lia.
Qed.

(** ** What is asked of the file system

    The world keeps a record of the calls that are made to the file system and to [redb]'s open, with their
    answers. *)
Inductive Event : Type :=
| EMeta (path : string) (r : result ErrorKind Metadata)
| ECreateDir (m : Z) (path : string) (r : result ErrorKind unit)
| EDirMode (m : Z) (path : string) (r : result ErrorKind unit)
| EOpen (m : Z) (path : string) (r : result ErrorKind unit)
| EFileMode (m : Z) (path : string) (r : result ErrorKind unit)
| EDatabase (path : string).

Class Recorded (W : Type) : Type := { record : W -> list Event }.

(** [m] returns, and what it answers is put on record as [ev] says. *)
Definition answers {W A} `{!Recorded W} (m : ST W A) (ev : A -> list Event) : Prop :=
  forall w, exists a w', m w = (Done a, w') /\ record w' = record w ++ ev a.

Class FileLaws (W : Type) `{!FileSystem W, !Recorded W} : Prop := {
  symlink_metadata_answers : forall p, answers (symlink_metadata p) (fun r => [EMeta p r]);
  create_dir_all_answers : forall m p, answers (create_dir_all m p) (fun r => [ECreateDir m p r]);
  set_dir_mode_answers : forall m p, answers (set_dir_mode m p) (fun r => [EDirMode m p r]);
  open_file_answers : forall m p, answers (open_file m p) (fun r => [EOpen m p r]);
  set_file_mode_answers : forall m p, answers (set_file_mode m p) (fun r => [EFileMode m p r]);
  current_exe_answers : answers current_exe (fun _ => []);
  base_cache_dir_answers : answers base_cache_dir (fun _ => []);
  temp_dir_answers : answers temp_dir (fun _ => []) }.

(** [m] ends, also by a panic, and puts [ev] on record. *)
Definition ends_with {S A} (record_of : S -> list Event) (m : ST S A) (ev : list Event) : Prop :=
  forall s, wp m (fun _ s' => record_of s' = record_of s ++ ev) (fun s' => record_of s' = record_of s ++ ev) s.

(** [redb] opens the file it is told to; its transactions are not on record. *)
Class OpenLaws (DB RTxn WTxn Bytes IoError W : Type) `{!Redb DB RTxn WTxn Bytes IoError W, !Recorded W} : Prop := {
  create_recorded : forall path, ends_with record (database_create path : ST W (result IoError DB)) [EDatabase path];
  begin_write_quiet : forall db : DB, ends_with record (db_begin_write db : ST W (result IoError WTxn)) [];
  open_table_quiet : forall t : WTxn, ends_with record (open_table t : ST W (result IoError WTxn)) [];
  commit_quiet : forall t : WTxn, ends_with (fun s : DB * W => record s.2) (commit t) [] }.

(** The last answer about a path says it is no symlink, or is not there. *)
Definition not_a_link (r : result ErrorKind Metadata) : Prop :=
  match r with Ok meta => is_symlink meta = false | Err NotFound => True | Err _ => False end.

(** It is a directory, not a symlink, and nobody else may write to it. *)
Definition private_dir (r : result ErrorKind Metadata) : Prop :=
  match r with Ok meta => is_symlink meta = false /\ Z.land (mode meta) mode_022 = 0 | Err _ => False end.

(** A call, right after the call [prev]: a directory is created private, and made private only when it was just
    seen to be no symlink; a file is opened, private, only when its path was just seen to be no symlink; it is
    made private as soon as it is open, and [redb] opens it as soon as it is private. *)
Definition careful (prev : option Event) (e : Event) : Prop :=
  match e with
  | EMeta _ _ => True
  | ECreateDir m _ _ => m = mode_700
  | EDirMode m d _ => m = mode_700 /\ exists meta, prev = Some (EMeta d (Ok meta)) /\ is_symlink meta = false
  | EOpen m p _ => m = mode_600 /\ exists r, prev = Some (EMeta p r) /\ not_a_link r
  | EFileMode m p _ => m = mode_600 /\ prev = Some (EOpen mode_600 p (Ok tt))
  | EDatabase p => prev = Some (EFileMode mode_600 p (Ok tt))
  end.

Fixpoint all_careful (prev : option Event) (evs : list Event) : Prop :=
  match evs with [] => True | e :: evs => careful prev e /\ all_careful (Some e) evs end.

(** No file is opened or changed yet. *)
Definition on_dir (e : Event) : Prop :=
  match e with EMeta _ _ | ECreateDir _ _ _ | EDirMode _ _ _ => True | _ => False end.
Definition dir_stage (evs : list Event) : Prop := (forall prev, all_careful prev evs) /\ Forall on_dir evs.

(** The directory of a store, after the calls [evs]: the one given, created and then seen to be no symlink; or one
    of the default ones, of which the last call saw that it is private. *)
Definition chosen (given : option string) (dir : string) (evs : list Event) : Prop :=
  match given with
  | Some d => dir = d /\ exists r, evs = [ECreateDir mode_700 d (Ok tt); EMeta d r] /\ not_a_link r
  | None => (exists parent exe, dir = join parent (exe +:+ DISK_FILE_PREFIX)) /\
      exists before r, evs = before ++ [EMeta dir r] /\ private_dir r
  end.

(** From the check of the path of the file to its opening there is nothing else. *)
Definition opened (path : string) (r : result ErrorKind Metadata) : list Event :=
  [EMeta path r; EOpen mode_600 path (Ok tt); EFileMode mode_600 path (Ok tt); EDatabase path].

Section Build.
Context {DB RTxn WTxn Bytes IoError W : Type}.
Context `{!Redb DB RTxn WTxn Bytes IoError W, !FileSystem W, !Recorded W, !FileLaws W, !OpenLaws DB RTxn WTxn Bytes IoError W}.
Notation BuildErr := (RedbCacheBuildError IoError).

(** [m] returns; what it returns and what it puts on record satisfy [Q]. *)
Definition runs {A} (m : ST W A) (Q : A -> list Event -> Prop) : Prop :=
  forall w, wp m (fun a w' => exists evs, record w' = record w ++ evs /\ Q a evs) (fun _ => False) w.

Lemma runs_ret {A} (a : A) (Q : A -> list Event -> Prop) : Q a [] -> runs (ret a) Q.
Proof. intros H w. apply wp_ret. exists []. by rewrite app_nil_r. Qed.

Lemma runs_mono {A} (m : ST W A) (P Q : A -> list Event -> Prop) : runs m P -> (forall a evs, P a evs -> Q a evs) -> runs m Q.
Proof. intros Hm H w. eapply wp_mono; [apply Hm| |done]. intros a w' (evs & ? & ?). exists evs. auto. Qed.

Lemma runs_bind {A B} (m : ST W A) (k : A -> ST W B) P Q :
  runs m P -> (forall a evs, P a evs -> runs (k a) (fun b evs' => Q b (evs ++ evs'))) -> runs (bind m k) Q.
Proof.
  intros Hm Hk w. apply wp_bind. eapply wp_mono; [apply Hm| |done]. intros a w1 (evs & E1 & HP).
  eapply wp_mono; [apply (Hk a evs HP)| |done]. intros b w2 (evs' & E2 & HQ). exists (evs ++ evs'). by rewrite E2, E1, app_assoc.
Qed.

Lemma runs_answers {A B} (m : ST W A) ev (k : A -> ST W B) Q :
  answers m ev -> (forall a, runs (k a) (fun b evs => Q b (ev a ++ evs))) -> runs (bind m k) Q.
Proof.
  intros Hm Hk. eapply (runs_bind m k (fun a evs => evs = ev a)); [|by intros a evs ->].
  intros w. destruct (Hm w) as (a & w' & E & Er). eapply wp_run; [exact E|]. by exists (ev a).
Qed.

(** [bio(m)?] *)
Lemma runs_bio {A B} (m : ST W (result ErrorKind A)) P (k : A -> ST W (result BuildErr B)) Q :
  runs m P -> (forall a evs, P (Ok a) evs -> runs (k a) (fun b evs' => Q b (evs ++ evs'))) ->
  (forall e evs, P (Err e) evs -> Q (Err (BIo e)) evs) -> runs (ebind (bio m) k) Q.
Proof.
  intros Hm Hk He. apply (runs_bind (bio m) _ (fun r' evs => exists r, r' = map_err BIo r /\ P r evs)).
  - eapply runs_bind; [exact Hm|]. intros r evs Hr. apply runs_ret. rewrite app_nil_r. by exists r.
  - intros r' evs (r & -> & Hr). destruct r as [a|e]; simpl; [by apply Hk|]. apply runs_ret. rewrite app_nil_r. by apply He.
Qed.

(** [bio(m)], at the end. *)
Lemma runs_bio_last {A} (m : ST W (result ErrorKind A)) P (Q : result BuildErr A -> list Event -> Prop) :
  runs m P -> (forall r evs, P r evs -> Q (map_err BIo r) evs) -> runs (bio m) Q.
Proof. intros Hm H. eapply runs_bind; [exact Hm|]. intros r evs Hr. apply runs_ret. rewrite app_nil_r. by apply H. Qed.

Lemma answers_runs {A} (m : ST W A) ev : answers m ev -> runs m (fun a evs => evs = ev a).
Proof. intros Hm w. destruct (Hm w) as (a & w' & E & Er). eapply wp_run; [exact E|]. by exists (ev a). Qed.

(** *** The directory *)

Lemma all_careful_app prev evs evs' : all_careful prev evs -> (forall prev, all_careful prev evs') -> all_careful prev (evs ++ evs').
Proof. revert prev. induction evs as [|e evs IH]; intros prev; simpl; [auto|]. intros [H1 H2] H. auto. Qed.

Lemma dir_stage_app evs evs' : dir_stage evs -> dir_stage evs' -> dir_stage (evs ++ evs').
Proof. intros [H1 H2] [H3 H4]. split; [intros prev; by apply all_careful_app|by apply Forall_app]. Qed.

Lemma validate_runs path : runs (validate_cache_dir path) (fun r evs => exists a, evs = [EMeta path a] /\ (r = Ok tt -> private_dir a)).
Proof.
  eapply runs_answers; [apply symlink_metadata_answers|]. intros [meta|e]; [|apply runs_ret; by exists (Err e)].
  destruct (is_symlink meta) eqn:El; [by apply runs_ret; eexists|].
  destruct (Z.land _ _ =? 0) eqn:Em; simpl; apply runs_ret; (eexists; split; [done|]); [|done]. intros _. split; [done|lia].
Qed.

(** The calls are a list of careful ones, all on directories. *)
Ltac staged := by split; [intros prev; repeat split; eauto|repeat constructor].

Lemma default_dir_runs path : runs (prepare_default_cache_dir path) (fun r evs => dir_stage evs /\
  (r = Ok tt -> exists before a, evs = before ++ [EMeta path a] /\ private_dir a)).
Proof.
  eapply runs_answers; [apply create_dir_all_answers|]. intros [[]|e]; [|apply runs_ret; split; [staged|done]].
  eapply runs_bind; [apply validate_runs|]. intros [[]|error] ev1 (a1 & -> & Hv).
  { apply runs_ret. split; [staged|]. intros _. exists [ECreateDir mode_700 path (Ok tt)], a1. auto. }
  eapply runs_answers; [apply symlink_metadata_answers|]. intros [meta|e]; [|apply runs_ret; split; [staged|done]].
  destruct (is_symlink meta) eqn:El; [apply runs_ret; split; [staged|done]|].
  eapply runs_answers; [apply set_dir_mode_answers|]. intros [[]|e']; [|apply runs_ret; split; [staged|done]].
  eapply runs_mono; [apply validate_runs|]. intros r evs (a & -> & Ha). split; [staged|].
  intros Hr. eexists [_; _; _; _], a. split; [reflexivity|auto].
Qed.

Lemma first_usable_runs candidates e : runs (first_usable candidates e) (fun r evs => dir_stage evs /\
  forall d, r = Ok d -> d ∈ candidates /\ exists before a, evs = before ++ [EMeta d a] /\ private_dir a).
Proof.
  revert e. induction candidates as [|d candidates IH]; intros e; [by apply runs_ret; repeat split|]. simpl.
  eapply runs_bind; [apply default_dir_runs|]. intros r ev1 [Hs Hr].
  assert (forall e, runs (first_usable candidates e) (fun r evs => dir_stage (ev1 ++ evs) /\
    forall d', r = Ok d' -> d' ∈ d :: candidates /\ exists before a, ev1 ++ evs = before ++ [EMeta d' a] /\ private_dir a)) as Hn.
  { intros e'. eapply runs_mono; [apply IH|]. intros r' evs [Hs' Hr']. split; [by apply dir_stage_app|].
    intros d' E. destruct (Hr' d' E) as (Hin & before & a & -> & Ha). split; [by right|]. exists (ev1 ++ before), a. by rewrite app_assoc. }
  destruct r as [[]|[]]; try apply Hn; apply runs_ret; rewrite app_nil_r; (split; [done|]); [|done..].
  intros d' [= <-]. split; [left|by apply Hr].
Qed.

(** An error of the file system or of [redb], which [build] passes on. *)
Definition from_outside {A} (r : result BuildErr A) : Prop := match r with Ok _ | Err (BIo _ | BStorage _) => True | _ => False end.

Lemma reject_runs path : runs (reject_if_symlink path) (fun r evs => exists a, evs = [EMeta path a] /\ (r = Ok tt -> not_a_link a)).
Proof.
  eapply runs_answers; [apply symlink_metadata_answers|]. intros a. apply runs_ret. exists a. split; [done|].
  destruct a as [meta|[]]; try done. by destruct (is_symlink meta) eqn:El.
Qed.

Lemma default_path_runs : runs default_disk_path (fun r evs => dir_stage evs /\ forall dir, r = Ok dir -> chosen None dir evs).
Proof.
  apply (runs_bind default_disk_dir_candidates _ (fun cs evs => evs = [] /\ forall d, d ∈ cs -> exists parent exe, d = join parent (exe +:+ DISK_FILE_PREFIX))).
  - eapply runs_answers; [apply current_exe_answers|]. intros exe. eapply runs_answers; [apply base_cache_dir_answers|]. intros base.
    eapply runs_answers; [apply temp_dir_answers|]. intros temp. apply runs_ret. split; [done|].
    intros d [Hd|Hd%list_elem_of_singleton]%elem_of_app; [|by eexists _, _].
    destruct base as [d'|]; [|by apply elem_of_nil in Hd]. apply list_elem_of_singleton in Hd. by eexists _, _.
  - intros cs evs [-> Hc]. eapply runs_mono; [apply first_usable_runs|]. intros r evs [Hs Hr]. split; [done|].
    intros dir E. destruct (Hr dir E) as [Hin Hp]. split; [by apply Hc|exact Hp].
Qed.

Lemma resolve_runs given : runs (resolve_dir (IoError := IoError) given) (fun r evs => from_outside r /\ dir_stage evs /\ forall dir, r = Ok dir -> chosen given dir evs).
Proof.
  destruct given as [d|]; simpl.
  - eapply runs_bio; [apply answers_runs, create_dir_all_answers| |].
    2: { intros e evs ->. split_and!; [done|staged|done]. }
    intros [] ev1 ->. eapply runs_bio; [apply reject_runs| |].
    2: { intros e evs (a & -> & _). split_and!; [done|staged|done]. }
    intros [] ev2 (a & -> & Ha). apply runs_ret. split_and!; [done|staged|]. intros dir [= <-]. split; [done|]. exists a. auto.
  - eapply runs_bio_last; [apply default_path_runs|]. intros r evs [Hs Hr]. split_and!; [by destruct r|done|].
    intros dir E. apply Hr. destruct r; [by injection E as ->|done].
Qed.

(** *** The file *)

Lemma prepare_file_runs path : runs (prepare_file (IoError := IoError) path) (fun r evs => from_outside r /\ (forall prev, all_careful prev evs) /\
  (r = Ok tt -> exists a, evs ++ [EDatabase path] = opened path a /\ not_a_link a)).
Proof.
  eapply runs_bio; [apply reject_runs| |]; [|intros e evs (a & -> & _); by repeat split].
  intros [] ev1 (a & -> & Ha). specialize (Ha eq_refl).
  eapply runs_bio; [apply answers_runs, open_file_answers| |]; [|intros e evs ->; repeat split; eauto; done].
  intros [] ev2 ->. eapply runs_bio_last; [apply answers_runs, set_file_mode_answers|]. intros r evs ->.
  split_and!; [by destruct r|intros prev; repeat split; eauto|]. intros E. destruct r as [[]|]; [|done]. by exists a.
Qed.

Lemma ends_bind {S A B} (rec : S -> list Event) (m : ST S (result IoError A)) (k : A -> ST S (result IoError B)) ev ev' :
  ends_with rec m ev -> (forall a, ends_with rec (k a) ev') -> ev' = [] -> ends_with rec (ebind m k) ev.
Proof.
  intros Hm Hk -> s. apply wp_bind. eapply wp_mono; [apply Hm| |done]. intros [a|e] s1 E; [|by apply wp_ret].
  eapply wp_mono; [apply Hk|..]; simpl; intros; by rewrite app_nil_r in *; congruence.
Qed.

Lemma io_quiet {A} (m : ST W A) : ends_with record m [] -> ends_with (fun s : DB * W => record s.2) (io m) [].
Proof. intros Hm [db w]. specialize (Hm w). unfold wp, io in *. by destruct (m w) as [[]]. Qed.

Lemma open_runs path : runs (open_database path) (fun r evs => evs = [EDatabase path] /\ from_outside (r : result BuildErr DB)).
Proof.
  assert (ends_with record (open_or_create (DB := DB) path) [EDatabase path]) as H.
  { eapply (ends_bind record (database_create path) _ _ []); [apply create_recorded| |done]. intros db w.
    assert (ends_with (fun s : DB * W => record s.2) (try! wtxn := io (db_begin_write db) in try! wtxn := io (open_table wtxn) in commit wtxn) []) as Ht.
    { eapply (ends_bind _ _ _ _ []); [apply io_quiet, begin_write_quiet|intros t|done].
      eapply (ends_bind _ _ _ _ []); [apply io_quiet, open_table_quiet|intros t'; apply commit_quiet|done]. }
    specialize (Ht (db, w)). unfold wp in *. revert Ht.
    generalize ((try! wtxn := io (db_begin_write db) in try! wtxn := io (open_table wtxn) in commit wtxn) (db, w)).
    by intros [[[]| |] []]. }
  intros w. specialize (H w). unfold wp, open_database in *. destruct (open_or_create path w) as [[[db|e]| |] w']; simpl in H; try done;
    (exists [EDatabase path]; split; [exact H|done]).
Qed.

(** What [build] makes of its arguments, and the calls it makes on the way, whatever the world does. *)
Definition built (b : RedbCacheBuilder) (r : result BuildErr (RedbCache * Memory DB Settings)) (evs : list Event) : Prop :=
  match r with
  | Ok (c, m) => exists name dir db in_dir link,
      b_cache_name b = Some name /\ invalid_cache_name name = false /\ b_ttl b <> Some 0 /\
      disk_path c = join dir (redb_file name) /\ plain (redb_file name) /\
      evs = in_dir ++ opened (disk_path c) link /\ Forall on_dir in_dir /\ chosen (b_disk_dir b) dir in_dir /\ not_a_link link /\
      durable c = b_durable b /\ strict_deserialization c = b_strict b /\
      m = mkMemory [new_shard db] (mkSettings (b_ttl b) (b_refresh b))
  | Err (BBuild e) => evs = [] /\
      ((b_cache_name b = None /\ e = MissingRequired "name") \/ (b_ttl b = Some 0 /\ e = InvalidValue "ttl" "must be greater than zero"))
  | Err BInvalidCacheName => evs = [] /\ exists name, b_cache_name b = Some name /\ invalid_cache_name name = true
  | Err (BIo _ | BStorage _) => exists name, b_cache_name b = Some name /\ invalid_cache_name name = false /\ b_ttl b <> Some 0
  end.

(** The part of [build] that asks anything of the file system. *)
Lemma opening_runs {A} (dir_given : option string) name (f : string -> DB -> A) :
  runs (try! disk_dir := resolve_dir dir_given in
        try! _ := prepare_file (join disk_dir (redb_file name)) in
        try! db := open_database (join disk_dir (redb_file name)) in
        ret (Ok (f disk_dir db)))
    (fun (r : result BuildErr A) evs => from_outside r /\ (forall prev, all_careful prev evs) /\
       forall a, r = Ok a -> exists dir db in_dir link, a = f dir db /\ evs = in_dir ++ opened (join dir (redb_file name)) link /\
         Forall on_dir in_dir /\ chosen dir_given dir in_dir /\ not_a_link link).
Proof.
  eapply runs_bind; [apply resolve_runs|]. intros [dir|e] ev1 (Ho & [Hc Hd] & Hch).
  2: { apply runs_ret. rewrite app_nil_r. by split_and!; [destruct e| |]. }
  eapply runs_bind; [apply prepare_file_runs|]. intros [[]|e] ev2 (Ho2 & Hc2 & Hp).
  2: { apply runs_ret. rewrite app_nil_r. split_and!; [by destruct e|intros prev; by apply all_careful_app|done]. }
  destruct (Hp eq_refl) as (link & Hev & Hl).
  eapply runs_bind; [apply open_runs|]. intros r ev3 [-> Ho3].
  assert (forall prev, all_careful prev (ev1 ++ ev2 ++ [EDatabase (join dir (redb_file name))])) as Hcare.
  { intros prev. apply all_careful_app; [done|]. intros prev'. rewrite Hev. repeat split; eauto. }
  destruct r as [db|e]; apply runs_ret; rewrite app_nil_r; (split_and!; [by try destruct e|done|]); [|done].
  intros a [= <-]. exists dir, db, ev1, link. rewrite Hev. split_and!; [done|done|done|by apply Hch|done].
Qed.

(** C38: Building a [RedbCache] always ends, and what it asks of the file system and of [redb] on the way is this.
    A missing or invalid name and a zero ttl are refused before anything is asked; what the file system or
    [redb] refuses, a panic included, is an error.  Every call is careful, whether the build succeeds or not: a
    directory is created private, and its mode is changed, to private, only when the call before saw that it is no
    symlink; the file is opened, private, only when the call before saw that its path is no symlink; [redb] opens
    it right after.  A store that is built is over a file with the cache's name: in the directory that was
    given, which was seen to be no symlink after it was created, or in a default one, where the last call before
    those on the file saw that nobody else may write to it. *)
Theorem redb_build (b : RedbCacheBuilder) w :
  wp (build b) (fun r w' => exists evs, record w' = record w ++ evs /\ all_careful None evs /\ built b r evs) (fun _ => False) w.
Proof.
  revert w. enough (runs (build b) (fun r evs => all_careful None evs /\ built b r evs)) as H by exact H.
  unfold build. destruct (b_cache_name b) as [name|] eqn:En; [|by apply runs_ret; repeat split; left].
  destruct (invalid_cache_name name) eqn:Ei; [by apply runs_ret; repeat split; exists name|].
  assert (b_ttl b = Some 0 \/ (match b_ttl b with Some t => validate_ttl t | None => Ok tt end = Ok tt /\ b_ttl b <> Some 0)) as Ht.
  { unfold validate_ttl. destruct (b_ttl b) as [t|]; [|by right]. destruct (Z.eqb_spec t 0) as [->|]; [by left|right]. split; congruence. }
  destruct Ht as [Ht|[-> Ht]]; [rewrite Ht; apply runs_ret; repeat split; by right|].
  eapply runs_mono; [apply (opening_runs _ name (fun dir db => (mkRedb (b_durable b) (join dir (redb_file name)) (b_strict b),
    mkMemory [new_shard db] (mkSettings (b_ttl b) (b_refresh b)))))|].
  intros [[c m]|[e|e|e|]] evs (Ho & Hc & Hr); (split; [apply Hc|]); try done; try by exists name.
  destruct (Hr _ eq_refl) as (dir & db & in_dir & link & [= -> ->] & -> & Hd & Hch & Hl).
  exists name, dir, db, in_dir, link. by split_and!; try done; apply redb_file_plain.
Qed.
End Build.

(** ** A small disk *)
Module Disk.

(** A [redb] that does not fail, over strings that are already parsed; [None] is corrupt, and the
    clock stands at 5.  A value below zero cannot be serialized. *)
Definition Bytes : Type := option (Z * Z).
Definition DB : Type := gmap string Bytes.

Definition fine {W A} (a : A) : ST W (result unit A) := ret (Ok a).

#[export] Instance disk {W} : Redb DB DB DB Bytes unit W := {
  database_create _ := fine (∅ : DB);
  db_begin_read db := fine db;
  r_open_table _ := fine tt;
  r_get db k := fine (db !! k);
  r_iter db := fine (Ok <$> map_to_list db);
  db_begin_write db := fine db;
  set_durability _ t := fine t;
  open_table t := fine t;
  get t k := fine (t !! k);
  insert t k b := fine (t !! k, <[k := b]> t);
  remove t k := fine (t !! k, delete k t);
  delete_table t := fine (negb (bool_decide (t = ∅)), ∅);
  commit t := fun '(_, w) => (Done (Ok tt), (t, w)) }.

#[export] Instance disk_view : RedbView DB DB DB Bytes := {| contents := id; snapshot := id; view := id |}.

#[export] Instance disk_laws {W} : RedbLaws DB DB DB Bytes unit W.
Proof.
  split; try done. intros t w. unfold wp. simpl. exists (map_to_list t). split; [done|]. unfold id.
  induction (map_to_list t) as [|e l IH]; simpl; by constructor.
Qed.

#[export] Instance disk_format : Format (CachedDiskValue Z) Bytes unit unit := {
  to_vec x := if value x <? 0 then Err tt else Ok (Some (value x, created_at x));
  from_slice b := match b with Some (v, t) => Ok (mkDiskValue v t) | None => Err tt end }.

#[export] Instance disk_format_laws : FormatLaws (CachedDiskValue Z) Bytes unit unit.
Proof. split. intros [v t] b. simpl. destruct (v <? 0); [done|]. by intros [= <-]. Qed.

#[export] Instance disk_clock : Clock unit := { clock_now := fun w => (5, w) }.

(** A world that is the record itself. *)
Definition asking {A} (ev : A -> list Event) (a : A) : ST (list Event) A := fun w => (Done a, w ++ ev a).

(** Every directory exists, and is private; no file is there yet.  [redb] on it puts its open on record. *)
#[export] Instance disk_files : FileSystem (list Event) := {
  symlink_metadata p := asking (fun r => [EMeta p r]) (if bool_decide (p = "/tmp/prog_cached_disk_cache") then Ok (mkMetadata false mode_700) else Err NotFound);
  create_dir_all m p := asking (fun r => [ECreateDir m p r]) (Ok tt);
  set_dir_mode m p := asking (fun r => [EDirMode m p r]) (Ok tt);
  open_file m p := asking (fun r => [EOpen m p r]) (Ok tt);
  set_file_mode m p := asking (fun r => [EFileMode m p r]) (Ok tt);
  current_exe := ret (Some "prog");
  base_cache_dir := ret None;
  temp_dir := ret "/tmp" }.

#[export] Instance disk_record : Recorded (list Event) := { record := id }.

#[export] Instance disk_file_laws : FileLaws (list Event).
Proof. split; intros; intros w; eexists _, _; (split; [reflexivity|]); try done; by rewrite app_nil_r. Qed.

Definition recording : Redb DB DB DB Bytes unit (list Event) := {|
  database_create p := asking (fun _ => [EDatabase p]) (Ok (∅ : DB));
  db_begin_read := db_begin_read; r_open_table := r_open_table; r_get := r_get; r_iter := r_iter;
  db_begin_write := db_begin_write; set_durability := set_durability; open_table := open_table; get := get;
  insert := insert; remove := remove; delete_table := delete_table; commit := commit |}.

#[export] Instance recording_laws : OpenLaws (Redb0 := recording) DB DB DB Bytes unit (list Event).
Proof. split; intros; intros s; unfold wp; simpl; try (by rewrite app_nil_r); try done. destruct s. by rewrite app_nil_r. Qed.

Definition keyed : RedbCacheBuilder := builder_ttl 10 (redb_builder "users").

Example disk_build : exists m, build (Redb0 := recording) keyed [] =
  (Done (Ok (mkRedb true "/tmp/prog_cached_disk_cache/users_v3.redb" false, m)),
   [ECreateDir mode_700 "/tmp/prog_cached_disk_cache" (Ok tt); EMeta "/tmp/prog_cached_disk_cache" (Ok (mkMetadata false mode_700));
    EMeta "/tmp/prog_cached_disk_cache/users_v3.redb" (Err NotFound); EOpen mode_600 "/tmp/prog_cached_disk_cache/users_v3.redb" (Ok tt);
    EFileMode mode_600 "/tmp/prog_cached_disk_cache/users_v3.redb" (Ok tt); EDatabase "/tmp/prog_cached_disk_cache/users_v3.redb"]).
Proof. eexists. vm_compute. reflexivity. Qed.

Lemma redb_build_witness : wp (build (Redb0 := recording) keyed)
  (fun r w' => exists evs, record w' = record [] ++ evs /\ all_careful None evs /\ built keyed r evs) (fun _ => False) [].
Proof. exact (redb_build (Redb0 := recording) keyed []). Defined.

End Disk.
