(* ===== verification/RedbStore.v ===== *)
(** * What the store on disk promises

    The calls of [RedbCache], in any interleaving and with failures anywhere, as atomic operations on
    the table; then what a get, a set and a sweep do when they run alone. *)
From stdpp Require Import strings gmap relations.
From S2P Require Import Prelude Keys Stores Shards Concurrent External Redb RedbBuild RedbProps RedbBuildProps.

(** ** The calls that only this store has *)

(** A ttl is set only to one that [ttl_ok] allows. *)
Inductive RedbOwn (ttl_ok : option Z -> Prop) : Type :=
| OTtl
| OSetTtl (t : Z) (H : ttl_ok (if t =? 0 then None else Some t))
| OTrySetTtl (t : Z) (H : ttl_ok (if t =? 0 then None else Some t))
| OUnsetTtl (H : ttl_ok None)
| ORefreshOnHit
| OSetRefreshOnHit (b : bool)
| OSweep
| OFlush.
Arguments OTtl {ttl_ok}.
Arguments OSetTtl {ttl_ok} t H.
Arguments OTrySetTtl {ttl_ok} t H.
Arguments OUnsetTtl {ttl_ok} H.
Arguments ORefreshOnHit {ttl_ok}.
Arguments OSetRefreshOnHit {ttl_ok} b.
Arguments OSweep {ttl_ok}.
Arguments OFlush {ttl_ok}.

Section Store.
Context {DB RTxn WTxn Bytes IoError SerError DeError K V W : Type}.
Context `{!Redb DB RTxn WTxn Bytes IoError W, !RedbView DB RTxn WTxn Bytes, !RedbLaws DB RTxn WTxn Bytes IoError W}.
Context `{!Format (CachedDiskValue V) Bytes SerError DeError, !Clock W, !ToString K}.
Context (ttl_ok : option Z -> Prop).
Notation Error := (RedbCacheError Bytes IoError SerError DeError).
Notation Rep := (result Error (Reply K V SetTtlError)).
Notation L := (redb_layout (DB := DB) (RTxn := RTxn) (WTxn := WTxn) (Bytes := Bytes) ttl_ok).

Definition own (c : RedbCache) (x : RedbOwn ttl_ok) : Prog DB Settings W Rep :=
  match x with
  | OTtl => let* t := get_ttl c in Ret (Ok (Numbers [t]))
  | OSetTtl t _ => let* p := set_ttl c t in Ret (Ok (Numbers [p]))
  | OTrySetTtl t _ =>
      let* r := try_set_ttl c t in Ret (Ok (match r with Ok p => Numbers [p] | Err e => Failed e end))
  | OUnsetTtl _ => let* p := unset_ttl c in Ret (Ok (Numbers [p]))
  | ORefreshOnHit => let* b := refresh_on_hit c in Ret (Ok (Flag b))
  | OSetRefreshOnHit b => let* b := set_refresh_on_hit c b in Ret (Ok (Flag b))
  | OSweep => let* r := remove_expired_entries (V := V) c in Ret (map_ok (fun n => Numbers [Some n]) r)
  | OFlush => let* r := flush c in Ret (map_ok (fun _ => Nothing) r)
  end.

Definition a_ttl : SpecOf string Bytes Rep := let^ t := some_ttl ttl_ok in sret (Ok (Numbers [t])).
Definition a_flag : SpecOf string Bytes Rep := let^ b := some_flag in sret (Ok (Flag b)).

Definition own_spec (strict : bool) (x : RedbOwn ttl_ok) : SpecOf string Bytes Rep :=
  match x with
  | OTtl | OSetTtl _ _ | OUnsetTtl _ => a_ttl
  | OTrySetTtl t _ => if t =? 0 then sret (Ok (Failed ZeroTtl)) else a_ttl
  | ORefreshOnHit | OSetRefreshOnHit _ => a_flag
  | OSweep =>
      let^ t := some_ttl ttl_ok in
      let^ r := sweep_spec (V := V) (W := W) t strict in sret (map_ok (fun n => Numbers [Some n]) r)
  | OFlush => let^ r := schoose flushed in sret (map_ok (fun _ => Nothing) r)
  end.

Lemma lock_ttl_meets : meets (W := W) L (some_ttl ttl_ok) lock_ttl.
Proof. apply meets_global. intros g Hg. by split. Qed.

Lemma load_refresh_meets : meets (W := W) L some_flag load_refresh.
Proof. apply meets_global. intros g Hg. by split. Qed.

Lemma stamped_meets {A} v (s : Bytes -> SpecOf string Bytes (result Error A)) k :
  (forall bytes, meets (W := W) L (s bytes) (k bytes)) ->
  meets L (try^ bytes := stamped (W := W) (IoError := IoError) v in s bytes)
    (let* now := outside system_now in
     match to_vec (mkDiskValue v now) with Err e => Ret (Err (CacheSerialization e)) | Ok bytes => k bytes end).
Proof.
  intros Hk R q. cbn [pbind outside]. intros w now w' E.
  exists (match to_vec (mkDiskValue v now) with Err e => q (Err (CacheSerialization e)) | Ok bytes => s bytes R q end). split.
  - intros x. unfold stry, sbind, stamped, reading, schoose. eapply rtc_l; [apply (spec_choose _ _ _ _ now); by exists w, w'|].
    cbv beta. destruct (to_vec {| value := v; created_at := now |}); apply rtc_refl.
  - cbn [pbind]. destruct (to_vec _) as [bytes|e]; [apply Hk|by split].
Qed.

Lemma redb_get_meets (c : RedbCache) (k : K) :
  meets L (redb_get_spec ttl_ok (strict_deserialization c) k) (redb_get (V := V) c k).
Proof.
  apply meets_bind; [apply lock_ttl_meets|]. intros t. apply meets_bind; [apply load_refresh_meets|].
  intros r. apply entry_meets.
Qed.

#[export] Instance redb_laws (c : RedbCache) : ExternalLaws (K := K) (V := V) (W := W) c L (redb_spec (W := W) ttl_ok (strict_deserialization c)).
Proof.
  split; intros; cbn [get_spec set_spec remove_spec remove_entry_spec delete_spec contains_spec clear_spec set_ref_spec redb_spec].
  - apply redb_get_meets.
  - apply meets_bind; [apply lock_ttl_meets|]. intros t. apply (stamped_meets v). intros bytes.
    apply meets_try; [apply insert_meets|]. intros b. apply previous_meets.
  - apply meets_bind; [apply lock_ttl_meets|]. intros t.
    apply meets_try; [apply remove_meets|]. intros b. apply previous_meets.
  - apply (meets_map L). apply meets_try; [apply remove_meets|]. intros b. apply meets_ret.
  - apply meets_try; [apply remove_meets|]. intros b. apply meets_ret.
  - apply (meets_map L), redb_get_meets.
  - apply clear_meets.
  - apply clear_meets.
  - apply (stamped_meets v). intros bytes. apply meets_try; [apply insert_meets|]. intros b. apply meets_ret.
Qed.

Lemma own_meets (c : RedbCache) (x : RedbOwn ttl_ok) : meets L (own_spec (strict_deserialization c) x) (own c x).
Proof.
  assert (forall f : Settings -> option Z * Settings, (forall g, ttl_ok (ttl g) -> ttl_ok (ttl (f g).2) /\ ttl_ok (f g).1) ->
    meets (W := W) L a_ttl (let* t := global f in Ret (Ok (Numbers [t])))) as Ht.
  { intros f Hf. apply meets_bind; [apply meets_global, Hf|]. intros t. apply meets_ret. }
  assert (forall f : Settings -> bool * Settings, (forall g, ttl_ok (ttl g) -> ttl_ok (ttl (f g).2)) ->
    meets (W := W) L a_flag (let* b := global f in Ret (Ok (Flag b)))) as Hb.
  { intros f Hf. apply meets_bind; [|intros b; apply meets_ret]. apply meets_global. intros g Hg. split; [by apply Hf|done]. }
  destruct x as [|t H|t H|H| |b| |]; cbn [own own_spec].
  - by apply Ht.
  - by apply Ht.
  - unfold try_set_ttl. destruct (t =? 0) eqn:E; [apply meets_ret|].
    apply (Ht (fun g => (ttl g, mkSettings (if t =? 0 then None else Some t) (refresh g)))). by rewrite E.
  - by apply Ht.
  - by apply Hb.
  - by apply Hb.
  - apply (meets_map L (let^ t := some_ttl ttl_ok in sweep_spec (V := V) (W := W) t (strict_deserialization c))).
    apply meets_bind; [apply lock_ttl_meets|]. intros t. apply impl_meets.
  - apply (meets_map L), flush_meets.
Qed.

(** C10: [RedbCache] on disk, with several threads and with I/O failures at any point.  However calls
    interleave, each is the few atomic operations on the table that its specification says: no
    operation drops an entry that is neither expired nor corrupt in the very transaction that drops
    it, a write that reports an error has either been done or not, and every call ends. *)
Theorem redb_serves (c : RedbCache) (db : DB) (g : Settings) : ttl_ok (ttl g) ->
  serves (own c) c L (redb_spec (V := V) (W := W) ttl_ok (strict_deserialization c)) (own_spec (strict_deserialization c))
    (mkMemory [new_shard db] g) (fun s => contents db !! s).
Proof.
  intros Hg. apply external_serves; [apply redb_laws|apply own_meets|]. split; [done|]. split; [|done].
  intros [|i] s Hs; simpl in Hs; [|done]. injection Hs as <-. by intros k _.
Qed.
End Store.

(** ** A call that runs alone *)
Section Alone.
Context {DB RTxn WTxn Bytes IoError SerError DeError K V W : Type}.
Context `{!Redb DB RTxn WTxn Bytes IoError W, !RedbView DB RTxn WTxn Bytes, !RedbLaws DB RTxn WTxn Bytes IoError W}.
Context `{!Format (CachedDiskValue V) Bytes SerError DeError, !Clock W, !ToString K}.
Notation Error := (RedbCacheError Bytes IoError SerError DeError).
Context (g : Settings) (cs : Counters).

(** The memory of a store. *)
Definition over (db : DB) : Memory DB Settings := mkMemory [mkShard db cs] g.

(** [s] is that memory over a database that satisfies [P]. *)
Definition now_over (P : DB -> Prop) (s : Memory DB Settings * W) : Prop := exists db, s.1 = over db /\ P db.

Lemma exec_write_wp {A} (f : ST (DB * W) A) Q U db w :
  wp f (fun a s => Q a (over s.1, s.2)) (fun s => U (over s.1, s.2)) (db, w) -> wp (exec (with_write 0 f)) Q U (over db, w).
Proof.
  intros H. unfold wp in *. cbn. unfold bind, do_write. cbn. destruct (f (db, w)) as [[a| |] [db' w']]; exact H.
Qed.

Lemma exec_read_wp {A} (f : DB -> ST W A) Q U db w :
  wp (f db) (fun a w' => Q a (over db, w')) (fun w' => U (over db, w')) w -> wp (exec (with_read 0 f)) Q U (over db, w).
Proof.
  intros H. unfold wp in *. cbn. unfold bind, do_read. cbn. destruct (f db w) as [[a| |] w']; exact H.
Qed.

Lemma exec_bind_wp {A B} (p : Prog DB Settings W A) (k : A -> Prog DB Settings W B) Q U s :
  wp (exec p) (fun a s => wp (exec (k a)) Q U s) U s -> wp (exec (pbind p k)) Q U s.
Proof. intros H. unfold wp at 1. rewrite exec_bind. by apply wp_bind. Qed.

Lemma exec_now_wp {B} (k : Z -> Prog DB Settings W B) Q U m w :
  (forall w', wp (exec (k (clock_now w).1)) Q U (m, w')) -> wp (exec (pbind (outside system_now) k)) Q U (m, w).
Proof.
  intros H. apply exec_bind_wp. unfold wp at 1. cbn. unfold bind, user, system_now. cbn. destruct (clock_now w) as [t w']. apply H.
Qed.

Lemma exec_setting_wp {A B} (f : Settings -> A) (k : A -> Prog DB Settings W B) Q U db w :
  wp (exec (k (f g))) Q U (over db, w) -> wp (exec (pbind (global (fun g => (f g, g))) k)) Q U (over db, w).
Proof. done. Qed.

(** The clock stands still: every reading is [T]. *)
Context (T : Z) (frozen : forall w : W, (clock_now w).1 = T).

Lemma frozen_reading t : a_reading (W := W) t -> t = T.
Proof. intros (w & w' & E). unfold system_now in E. rewrite <- (frozen w). destruct (clock_now w). by injection E. Qed.

(** What a get makes of the entry it finds. *)
Definition looked_up (strict : bool) (b : option Bytes) : result Error (option V) * option Bytes :=
  match decode b with
  | Some cached =>
      match ttl g with
      | None => (Ok (Some (value cached)), b)
      | Some t => settled t (refresh g) strict (T, T) b
      end
  | None => settled 0 false strict (T, T) b
  end.

(** The storage failed, and the database is what it was. *)
Definition failed {A} (db : DB) (r : result Error A) (db' : DB) : Prop := (exists e, r = Err (Storage e)) /\ contents db' = contents db.

Lemma take_wp {A X} key (P : X -> Prop) (f : X -> option Bytes -> result Error A * option Bytes) t x db w
    (Q : result Error A -> Memory DB Settings * W -> Prop) :
  takes_effect key P f t -> (forall y, P y -> y = x) ->
  (forall r db' w', effect key (f x) db r db' -> Q r (over db', w')) ->
  wp (exec (with_write 0 t)) Q (now_over (committed db (updated key (f x (contents db !! key)).2 (contents db)))) (over db, w).
Proof.
  intros Ht HP HQ. apply exec_write_wp. eapply wp_mono; [apply Ht|..].
  - intros r [db' w'] [(e & -> & E)|(y & Hy & He)]; apply HQ; [by left|]. by rewrite <- (HP y Hy).
  - intros [db' w'] [E|(y & Hy & E)]; exists db'; (split; [done|]); [by left|right]. by rewrite <- (HP y Hy).
Qed.

Lemma serve_run key strict d bytes cached db w :
  contents db !! key = Some bytes -> from_slice bytes = Ok cached ->
  wp (exec (serve key (ttl g) (refresh g) d strict cached))
    (fun r s => now_over (effect key (looked_up strict) db r) s)
    (now_over (committed db (updated key (looked_up strict (contents db !! key)).2 (contents db)))) (over db, w).
Proof.
  intros Eb Ec. unfold serve.
  assert (forall r, r = (looked_up strict (Some bytes)).1 -> (looked_up strict (Some bytes)).2 = Some bytes ->
    forall w', now_over (effect key (looked_up strict) db r) (over db, w')) as Hkeep.
  { intros r -> E w'. exists db. split; [done|]. unfold effect. rewrite Eb, E, updated_eq by done.
    destruct (looked_up strict (Some bytes)).1 as [a|[]]; by try left. }
  assert (decode (Some bytes) = Some cached) as Ed by (unfold decode; simpl; by rewrite Ec).
  destruct (ttl g) as [t|] eqn:Et.
  2:{ apply wp_ret, Hkeep; unfold looked_up; rewrite Ed, Et; done. }
  apply exec_now_wp. intros w1. rewrite frozen.
  destruct (_ && _) eqn:E.
  - apply andb_true_iff in E as [E1 E2]. apply negb_true_iff in E2. apply wp_ret, Hkeep; unfold looked_up;
      rewrite Ed, Et; simpl; by rewrite Ec, E1, E2.
  - eapply wp_mono; [eapply (take_wp key _ (settled t (refresh g) strict) _ (T, T) db w1
      (fun r s => now_over (effect key (settled t (refresh g) strict (T, T)) db r) s)); [apply settle_effect|..]|..].
    + intros [a b] [Ha%frozen_reading Hb%frozen_reading]. simpl in Ha, Hb. by subst.
    + intros r db' w' He. by exists db'.
    + intros r s (db' & Hs & He). exists db'. split; [done|]. unfold effect, looked_up in *. by rewrite Eb, Ed, Et in *.
    + intros s (db' & Hs & He). exists db'. split; [done|]. unfold looked_up in *. by rewrite Eb, Ed, Et in *.
Qed.

Lemma redb_get_run key strict d db w :
  wp (exec (disk_cache_get (V := V) key (ttl g) (refresh g) d strict))
    (fun r s => now_over (effect key (looked_up strict) db r) s)
    (now_over (committed db (updated key (looked_up strict (contents db !! key)).2 (contents db)))) (over db, w).
Proof.
  unfold disk_cache_get. apply exec_bind_wp, exec_read_wp.
  assert (forall e w', now_over (effect key (looked_up strict) db (Err (Storage e))) (over db, w')) as Hfail
    by (intros e w'; exists db; split; [done|by left]).
  assert (forall w', now_over (committed db (updated key (looked_up strict (contents db !! key)).2 (contents db))) (over db, w')) as Hdie
    by (intros w'; exists db; split; [done|by left]).
  eapply wp_mono; [|intros r w' H; exact H|intros w' _; apply Hdie].
  apply storage_wp with (fun t => snapshot t = contents db); [apply begin_read_sees|intros; apply wp_ret, Hfail|].
  intros t w1 Ht. apply storage_wp with (fun _ => True); [apply r_open_sees|intros; apply wp_ret, Hfail|].
  intros _ w2 _. unfold storage. apply wp_bind. eapply wp_mono; [apply r_get_sees| |done].
  intros [b|e] w3 Hb; apply wp_ret; [|by apply wp_ret, Hfail]. simpl in Hb. rewrite Ht in Hb. simpl.
  symmetry in Hb. destruct b as [bytes|].
  2:{ apply wp_ret. exists db. split; [done|]. unfold effect, looked_up. rewrite Hb. simpl. by rewrite updated_eq. }
  destruct (from_slice bytes) as [cached|e] eqn:Ec; [by eapply serve_run|].
  assert (decode (Some bytes) = (None : option (CachedDiskValue V))) as Ed by (unfold decode; simpl; by rewrite Ec).
  destruct strict.
  - apply wp_ret. exists db. split; [done|]. unfold effect, looked_up. rewrite Hb, Ed. simpl. rewrite Ec. simpl. by rewrite updated_eq.
  - apply exec_bind_wp. eapply wp_mono; [eapply (take_wp key (fun _ : unit => True) (fun _ => healed) _ tt db w3
      (fun r s => now_over (effect key healed db r) s)); [apply heal_effect|by intros []|by intros r db' w' He; exists db']|..].
    + intros r s (db' & Hs & He). unfold effect in He. rewrite Hb in He.
      assert (healed (Some bytes) = (Ok None : result Error (option (CachedDiskValue V)), None)) as Eh by (unfold healed; by rewrite Ed).
      rewrite Eh in He. simpl in He. destruct s as [m w4]. simpl in Hs. subst m.
      destruct r as [a|[e'|e' b'|e']]; [destruct He as [[= ->] He]|..|destruct He as [[=] _]|destruct He as [[=] _]];
        apply wp_ret; exists db'; (split; [done|]); unfold effect, looked_up; rewrite Hb, Ed; simpl; rewrite Ec; [by split|exact He].
    + intros s (db' & Hs & He). exists db'. split; [done|]. unfold looked_up. rewrite Hb in *. rewrite Ed. simpl.
      rewrite Ec. unfold healed in He. by rewrite Ed in He.
Qed.

(** A get of [RedbCache] on its own, while the clock stands at [T], is one function of the entry
    it finds: nothing if there is none; the value if it is younger than the ttl or there is no ttl,
    stamped anew if refreshing is on; nothing, and the entry dropped, if it has expired, or if it is
    corrupt in the default mode; in strict mode, a corrupt entry is an error and stays.  Other keys
    are untouched; if the storage fails, this has been done or nothing has. *)
Theorem redb_get_alone (c : RedbCache) (k : K) db w :
  let key := to_string k in
  wp (exec (cache_get c k : Prog DB Settings W (result Error (option V))))
    (fun r s => now_over (effect key (looked_up (strict_deserialization c)) db r) s)
    (now_over (committed db (updated key (looked_up (strict_deserialization c) (contents db !! key)).2 (contents db)))) (over db, w).
Proof. apply redb_get_run. Qed.

(** The value a set reports as displaced. *)
Definition displaced (b : option Bytes) : option V :=
  decode b ≫= (fun cached =>
    match ttl g with
    | None => Some (value cached)
    | Some t => if since T (created_at cached) <? t then Some (value cached) else None
    end).

Lemma previous_run b m w (Q : result Error (option V) -> Memory DB Settings * W -> Prop) U :
  (forall w', Q (Ok (displaced b)) (m, w')) -> wp (exec (live_previous (ttl g) b)) Q U (m, w).
Proof.
  intros HQ. unfold live_previous, displaced, decode in *. destruct (b ≫= _) as [cached|]; [|apply wp_ret, HQ].
  simpl in HQ. apply exec_bind_wp. unfold unless_expired. destruct (ttl g) as [t|]; [|apply wp_ret, wp_ret, HQ].
  apply exec_now_wp. intros w'. rewrite frozen. apply wp_ret, wp_ret, HQ.
Qed.

Definition put_effect (v : V) (bytes : Bytes) (b : option Bytes) : result Error (option V) * option Bytes :=
  (Ok (displaced b), Some bytes).

Lemma redb_set_run (c : RedbCache) (k : K) (v : V) db w :
  let key := to_string k in
  wp (exec (cache_set c k v))
    (fun r s => match to_vec (mkDiskValue v T) with
                | Err e => r = Err (CacheSerialization e) /\ s.1 = over db
                | Ok bytes => now_over (effect key (put_effect v bytes) db r) s
                end) (fun _ => True) (over db, w).
Proof.
  intros key. change (cache_set c k v) with (redb_set c k v). unfold redb_set, lock_ttl. apply exec_setting_wp.
  apply exec_now_wp. intros w1. rewrite frozen. destruct (to_vec _) as [bytes|e]; [|by apply wp_ret].
  unfold disk_cache_set. apply exec_bind_wp. set (f := fun b : option Bytes => (Ok b : result Error (option Bytes), Some bytes)).
  eapply wp_mono; [eapply (take_wp key (fun _ : unit => True) (fun _ => f) _ tt db w1
    (fun r s => now_over (effect key f db r) s)); [apply insert_effect|by intros []|by intros r db' w' He; exists db']|..|done].
  intros r [m w2] (db' & Hs & He). simpl in Hs. subst m. unfold effect in He.
  destruct r as [b|[e'|e' b'|e']]; [|by apply wp_ret; exists db'|by destruct He as [[=] _]|by destruct He as [[=] _]].
  destruct He as [[= ->] He]. apply previous_run. intros w'. exists db'. by split.
Qed.

Lemma since_self t : since t t = 0.
Proof. unfold since. lia. Qed.

(** What is set is read back: after a set that succeeds, a get at the same moment serves the value,
    unless the storage fails; if the value cannot be serialized, the set says so. *)
Theorem redb_set_get `{!FormatLaws (CachedDiskValue V) Bytes SerError DeError} (c : RedbCache) (k : K) (v : V) db w :
  (forall t, ttl g = Some t -> 0 < t) ->
  wp (exec (try* _ := cache_set c k v in (cache_get c k : Prog DB Settings W (result Error (option V)))))
    (fun r _ => match r with
                | Ok o => o = Some v
                | Err (Storage _) => True
                | Err (CacheSerialization e) => to_vec (mkDiskValue v T) = Err e
                | Err (CacheDeserialization _ _) => False
                end) (fun _ => True) (over db, w).
Proof.
  intros Ht. apply exec_bind_wp. eapply wp_mono; [apply redb_set_run| |done]. intros r s Hr. cbv beta in Hr.
  destruct (to_vec _) as [bytes|e] eqn:Es; [|destruct Hr as [-> _]; by apply wp_ret].
  destruct Hr as (db' & Hs & He). destruct s as [m w1]. simpl in Hs. subst m. unfold effect in He.
  destruct r as [o|[e'|e' b'|e']]; [|by apply wp_ret|by destruct He as [[=] _]|by destruct He as [[=] _]].
  destruct He as [_ He]. eapply wp_mono; [apply redb_get_run| |done]. intros r s (db2 & _ & Hg). unfold effect in Hg.
  assert (contents db' !! to_string k = Some bytes) as Hb by (rewrite He; unfold updated; by rewrite lookup_partial_alter_eq).
  rewrite Hb in Hg.
  assert (from_slice bytes = (Ok (mkDiskValue v T) : result DeError _)) as Ec by by apply from_to.
  assert ((looked_up (strict_deserialization c) (Some bytes)).1 = Ok (Some v)) as E.
  { unfold looked_up, decode. simpl. rewrite Ec. simpl. destruct (ttl g) as [t|] eqn:Et; [|done].
    unfold settled. rewrite ?Ec. simpl. rewrite since_self. destruct (Z.ltb_spec 0 t); [|specialize (Ht t eq_refl); lia].
    destruct (refresh g); [|done]. by rewrite Es. }
  rewrite E in Hg. destruct r as [o'|[e'|e' b'|e']]; [|done|by destruct Hg..]. destruct Hg as [Hg _]. by injection Hg.
Qed.

(** The table without its stale entries. *)
Definition clean (t : Z) (strict : bool) (m : gmap string Bytes) : gmap string Bytes :=
  filter (fun e : string * Bytes => stale T t strict e.2 = false) m.

Lemma clean_lookup t strict m k : clean t strict m !! k = m !! k ≫= (fun b => if stale T t strict b then None else Some b).
Proof.
  unfold clean. destruct (m !! k) as [b|] eqn:E; simpl.
  - destruct (stale T t strict b) eqn:Es; [apply map_lookup_filter_None; right|apply map_lookup_filter_Some; by split].
    intros b' Hb'. rewrite E in Hb'. injection Hb' as <-. simpl. by rewrite Es.
  - apply map_lookup_filter_None. by left.
Qed.

(** The scan finds exactly the stale keys of what it reads. *)
Lemma candidates_spec t strict (l : list (result IoError (string * Bytes))) items :
  Forall2 (fun i e => match i with Ok e' => e' = e | Err _ => True end) l items ->
  match candidates T t strict l with
  | Ok keys => forall k, k ∈ keys <-> exists b, (k, b) ∈ items /\ stale T t strict b = true
  | Err (Storage _) => True
  | Err (CacheDeserialization e b) => strict = true /\ exists k, (k, b) ∈ items /\ from_slice b = Err e
  | Err (CacheSerialization _) => False
  end.
Proof.
  induction 1 as [|[[k b]|e] [k' b'] l items Hi _ IH]; simpl; [|injection Hi as <- <-|done].
  { intros k. rewrite elem_of_nil. split; [done|]. by intros (b & []%elem_of_nil & _). }
  assert (forall P : string -> Bytes -> Prop, (exists k0, (k0, b) ∈ items /\ P k0 b) -> exists k0, (k0, b) ∈ (k, b) :: items /\ P k0 b) as Hm
    by (intros P (k0 & H1 & H2); exists k0; split; [by right|done]).
  assert (forall k0, (exists b0, (k0, b0) ∈ (k, b) :: items /\ stale T t strict b0 = true) <->
    (k0 = k /\ stale T t strict b = true) \/ exists b0, (k0, b0) ∈ items /\ stale T t strict b0 = true) as Hc.
  { intros k0. split.
    - intros (b0 & [[= -> ->]|H]%elem_of_cons & Hs); [by left|right; by exists b0].
    - intros [[-> Hs]|(b0 & H & Hs)]; [exists b; split; [by left|done]|exists b0; split; [by right|done]]. }
  destruct (from_slice b) as [c|e] eqn:Eb.
  - assert (stale T t strict b = expired_at T t c) as Est by (unfold stale, expired_at; by rewrite Eb, Z.leb_antisym).
    destruct (candidates T t strict l) as [keys|[e|e b0|e]]; simpl; [|done| |done].
    + intros k0. rewrite Hc, <- IH, Est. destruct (expired_at T t c); [rewrite elem_of_cons|]; naive_solver.
    + destruct IH as [Hs (k0 & H1 & H2)]. split; [done|]. exists k0. split; [by right|done].
  - assert (stale T t strict b = negb strict) as Est by (unfold stale; by rewrite Eb).
    destruct strict; [split; [done|]; exists k; split; [by left|done]|].
    destruct (candidates T t false l) as [keys|[e0|e0 b0|e0]]; simpl; [|done| |done].
    + intros k0. rewrite Hc, <- IH, Est, elem_of_cons. naive_solver.
    + by destruct IH.
Qed.

(** How a sweep ends. *)
Definition swept_away (strict : bool) (db : DB) (r : result Error Z) (db' : DB) : Prop :=
  match ttl g with
  | None => r = Ok 0 /\ db' = db
  | Some t =>
      let m' := clean t strict (contents db) in
      match r with
      | Ok n => contents db' = m' /\ n = Z.of_nat (size (contents db)) - Z.of_nat (size m')
      | Err (Storage _) => committed db m' db'
      | Err (CacheDeserialization e b) =>
          strict = true /\ contents db' = contents db /\ exists k, contents db !! k = Some b /\ from_slice b = Err e
      | Err (CacheSerialization _) => False
      end
  end.

Lemma swept_clean t strict keys m m' :
  (forall k, k ∈ keys <-> exists b, m !! k = Some b /\ stale T t strict b = true) ->
  swept T t strict keys m m' -> m' = clean t strict m.
Proof.
  intros Hk Hs. apply map_eq. intros k. rewrite Hs, clean_lookup. destruct (m !! k) as [b|] eqn:E; [simpl|done].
  destruct (stale T t strict b) eqn:Est; [|by rewrite andb_false_r]. rewrite bool_decide_true; [done|]. apply Hk. eauto.
Qed.

Lemma redb_sweep_run strict d t db w keys : ttl g = Some t ->
  (forall k, k ∈ keys <-> exists b, contents db !! k = Some b /\ stale T t strict b = true) ->
  wp (exec (with_write 0 (open_and d (fun table =>
        try! (removed, table) := sweep T t strict keys table 0 in commit_and table removed))))
    (fun r s => now_over (swept_away strict db r) s) (fun _ => True) (over db, w).
Proof.
  intros Et Hk. apply exec_write_wp.
  assert (forall e w', now_over (swept_away strict db (Err (Storage e))) (over db, w')) as Hfail.
  { intros e w'. exists db. split; [done|]. unfold swept_away. rewrite Et. by left. }
  apply open_and_wp; [by split|]. intros t0 w0 Ht0. apply wp_bind.
  apply redb_sweep_wp; [split; [intros e w'; apply wp_ret, Hfail|done]|..].
  - intros e b w' k Hs Hkb He. apply wp_ret. exists db. split; [done|]. unfold swept_away. rewrite Et.
    rewrite Ht0 in Hkb. by split_and!; [|..|exists k].
  - intros t' w' Hsw. rewrite Ht0 in Hsw |- *. pose proof (swept_clean _ _ _ _ _ Hk Hsw) as E. rewrite E.
    apply commit_wp.
    + intros db' w2 Ec. exists db'. split; [done|]. unfold swept_away. rewrite Et, Ec, E. by split.
    + intros e db' w2 Hc. exists db'. split; [done|]. unfold swept_away. rewrite Et. by rewrite <- E.
    + done.
Qed.

(** [remove_expired_entries] on its own, while the clock stands at [T]: it drops exactly the
    entries past the ttl, and in the default mode the corrupt ones, and counts them; without a ttl it
    does nothing; in strict mode a corrupt entry makes it an error that leaves the table as it was.  If
    the storage fails, the sweep has been done or nothing has. *)
Theorem redb_sweep_alone (c : RedbCache) db w :
  wp (exec (remove_expired_entries (V := V) c)) (fun r s => now_over (swept_away (strict_deserialization c) db r) s)
    (fun _ => True) (over db, w).
Proof.
  unfold remove_expired_entries, lock_ttl. apply exec_setting_wp. unfold remove_expired_entries_impl.
  destruct (ttl g) as [t|] eqn:Et; [|apply wp_ret; exists db; split; [done|]; unfold swept_away; by rewrite Et].
  set (strict := strict_deserialization c). apply exec_now_wp. intros w1. rewrite frozen.
  assert (forall e w', now_over (swept_away strict db (Err (Storage e))) (over db, w')) as Hfail.
  { intros e w'. exists db. split; [done|]. unfold swept_away. rewrite Et. by left. }
  apply exec_bind_wp, exec_read_wp. eapply wp_mono; [|intros r w' H; exact H|done]. unfold scan.
  apply storage_wp with (fun t => snapshot t = contents db); [apply begin_read_sees|intros; apply wp_ret, Hfail|].
  intros rt w2 Ht. apply storage_wp with (fun _ => True); [apply r_open_sees|intros; apply wp_ret, Hfail|].
  intros _ w3 _. eapply storage_wp; [apply r_iter_sees|intros; apply wp_ret, Hfail|].
  intros l w4 (items & Hp & Hl). apply wp_ret. pose proof (candidates_spec t strict l items Hl) as Hc.
  assert (forall k b, (k, b) ∈ items <-> contents db !! k = Some b) as Hi.
  { intros k b. rewrite Hp, Ht. apply elem_of_map_to_list. }
  destruct (candidates T t strict l) as [keys|[e|e b|e]]; [|apply wp_ret, Hfail|..|done].
  - assert (forall k, k ∈ keys <-> exists b, contents db !! k = Some b /\ stale T t strict b = true) as Hk.
    { intros k. rewrite Hc. by setoid_rewrite Hi. }
    destruct keys as [|k0 keys]; [|by apply redb_sweep_run].
    apply wp_ret. exists db. split; [done|]. unfold swept_away. rewrite Et.
    assert (contents db = clean t strict (contents db)) as E.
    { eapply swept_clean; [exact Hk|]. intros k. by destruct (contents db !! k). }
    rewrite <- E. split; [done|]. lia.
  - apply wp_ret. exists db. split; [done|]. unfold swept_away. rewrite Et. destruct Hc as [Hs (k & Hk & He)].
    split_and!; [done|done|]. exists k. by rewrite <- Hi.
Qed.
End Alone.

(** ** The claims at the small disk *)
Module Demo.
Import Disk.

#[local] Instance demo_strings : ToString string := { to_string := id }.

Definition positive (t : option Z) : Prop := forall d, t = Some d -> 0 < d.
Definition settings : Settings := mkSettings (Some 10) true.
Definition store : RedbCache := mkRedb true "users_v3.redb" false.
Definition none : Counters := mkCounters 0 0 0.
(** One entry is fresh, one has expired, one is corrupt. *)
Definition three : DB := <["a" := Some (1, 4)]> (<["b" := Some (2, -6)]> {["c" := None]}).

Lemma settings_positive : positive (ttl settings).
Proof. by intros d [= <-]. Qed.

Lemma redb_serves_witness : positive (ttl settings) /\
  serves (own positive store) store (redb_layout (DB := DB) positive)
    (redb_spec (K := string) (V := Z) (W := unit) positive false) (own_spec positive false)
    (mkMemory [new_shard three] settings) (fun s => contents three !! s).
Proof. split; [exact settings_positive|exact (redb_serves positive store three settings settings_positive)]. Defined.

Lemma disk_frozen (w : unit) : (clock_now w).1 = 5.
Proof. done. Qed.

Example three_get : (exec (cache_get store "b" : Prog DB Settings unit (result (RedbCacheError Bytes unit unit unit) (option Z)))
    (over settings none three, tt)).1 = Done (Ok None).
Proof. by vm_compute. Qed.

Lemma redb_get_alone_witness :
  wp (exec (cache_get store "b" : Prog DB Settings unit (result (RedbCacheError Bytes unit unit unit) (option Z))))
    (fun r s => now_over settings none (effect "b" (looked_up settings 5 false) three r) s)
    (now_over settings none (committed three (updated "b" (looked_up (IoError := unit) (V := Z) settings 5 false (contents three !! "b")).2 (contents three))))
    (over settings none three, tt).
Proof. exact (redb_get_alone settings none 5 disk_frozen store "b" three tt). Defined.

Lemma redb_set_get_witness :
  wp (exec (try* _ := cache_set store "d" 7 in
      (cache_get store "d" : Prog DB Settings unit (result (RedbCacheError Bytes unit unit unit) (option Z)))))
    (fun r _ => match r with
                | Ok o => o = Some 7
                | Err (Storage _) => True
                | Err (CacheSerialization e) => to_vec (Bytes := Bytes) (mkDiskValue 7 5) = Err e
                | Err (CacheDeserialization _ _) => False
                end) (fun _ => True) (over settings none three, tt).
Proof. exact (redb_set_get settings none 5 disk_frozen store "d" 7 three tt settings_positive). Defined.

Lemma redb_sweep_alone_witness :
  wp (exec (remove_expired_entries (V := Z) store)) (fun r s => now_over settings none (swept_away (V := Z) settings 5 false three r) s)
    (fun _ => True) (over settings none three, tt).
Proof. exact (redb_sweep_alone settings none 5 disk_frozen store three tt). Defined.

End Demo.
