(* ===== verification/Redis.v ===== *)
(** * The redis store ([src/stores/redis.rs])

    [RedisCache] and [AsyncRedisCache] keep their entries on a redis server, each under one key, and let
    the server expire them.  The server and its client library are third-party code: [Redis] names the
    requests made to them and [MsgPack], [Json] the decoders.  The ttl, behind a mutex, and the refresh
    flag are the atomics; the server is the only shard. *)
From stdpp Require Import strings gmap.
From S2P Require Import Prelude Keys Stores Shards Concurrent External RedisKeys.

(** ** The libraries *)

(** Requests, by the type they are decoded to.  [Pipe q r] sends both at once, and ignores the answer
    of [r]; [SelfHeal] is the script that deletes a key if it has the given value. *)
Inductive Request (Bytes : Type) : Type -> Type :=
| GET (k : string) : Request Bytes (option Bytes)
| SET (k : string) (b : Bytes) : Request Bytes unit
| PSETEX (k : string) (millis : Z) (b : Bytes) : Request Bytes unit
| PEXPIRE (k : string) (millis : Z) : Request Bytes Z
| DEL (k : string) : Request Bytes Z
| DELS (ks : list string) : Request Bytes unit
| SelfHeal (k : string) (b : Bytes) : Request Bytes Z
| SCAN (cursor : Z) (pattern : string) (count : Z) : Request Bytes (Z * list string)
| Pipe {A B} (q : Request Bytes A) (r : Request Bytes B) : Request Bytes A.
Arguments GET {Bytes} k.
Arguments SET {Bytes} k b.
Arguments PSETEX {Bytes} k millis b.
Arguments PEXPIRE {Bytes} k millis.
Arguments DEL {Bytes} k.
Arguments DELS {Bytes} ks.
Arguments SelfHeal {Bytes} k b.
Arguments SCAN {Bytes} cursor pattern count.
Arguments Pipe {Bytes A B} q r.

(** A connection from the pool, and a request on one. *)
Class Redis (Srv G Bytes PoolError RedisError W : Type) : Type := {
  pool_get : User W (result PoolError unit);
  query : forall {A}, Request Bytes A -> Prog Srv G W (result RedisError A) }.

(** [CachedRedisValue] *)
Record CachedRedisValue (V : Type) : Type := mkRedisValue { value : V; version : option Z }.
Arguments mkRedisValue {V} _ _.
Arguments value {V} _.
Arguments version {V} _.

Definition REDIS_VALUE_VERSION : option Z := Some 1.

(** [CachedRedisValue::new], and the bytes of [CachedRedisValueRef::new]. *)
Definition new_value {V} (v : V) : CachedRedisValue V := mkRedisValue v REDIS_VALUE_VERSION.

(** [serde_json], as far as it is used to read entries of old releases. *)
Class Json (T Bytes : Type) : Type := {
  json : Type;
  json_from_slice : Bytes -> option json;
  json_get : json -> string -> option json;
  json_of : option Z -> json;
  json_eqb : json -> json -> bool;
  json_from_value : json -> option T }.

Inductive RedisSource (RedisError : Type) : Type :=
| FromServer (e : RedisError)
| FromTtl (e : TtlError).
Arguments FromServer {RedisError} e.
Arguments FromTtl {RedisError} e.

Inductive RedisCacheError (Bytes PoolError RedisError SerError DeError : Type) : Type :=
| Redis_ (source : RedisSource RedisError)
| Pool (source : PoolError)
| CacheDeserialization (source : DeError) (cached_value : Bytes)
| CacheSerialization (source : SerError).
Arguments Redis_ {Bytes PoolError RedisError SerError DeError} source.
Arguments Pool {Bytes PoolError RedisError SerError DeError} source.
Arguments CacheDeserialization {Bytes PoolError RedisError SerError DeError} source cached_value.
Arguments CacheSerialization {Bytes PoolError RedisError SerError DeError} source.

Definition is_deserialization {B P R S D} (e : RedisCacheError B P R S D) : bool :=
  match e with CacheDeserialization _ _ => true | _ => false end.

(** ** The store *)

(** What it does not change; and what it does: a zero ttl is none. *)
Record RedisCache : Type := mkRedis { namespace : string; prefix : string; strict_deserialization : bool }.
Record Settings : Type := mkSettings { ttl : Z; refresh : bool }.

Section Redis.
Context {Srv Bytes PoolError RedisError SerError DeError K V W : Type}.
Context `{!Redis Srv Settings Bytes PoolError RedisError W}.
Context `{!Format (CachedRedisValue V) Bytes SerError DeError, !Json (CachedRedisValue V) Bytes, !ToString K}.
Notation Error := (RedisCacheError Bytes PoolError RedisError SerError DeError).
Notation P := (Prog Srv Settings W).

Definition generate_key (c : RedisCache) (key : K) : string := generate_redis_key (namespace c) (prefix c) (to_string key).

Definition match_pattern (c : RedisCache) : string := clear_match_pattern (namespace c) (prefix c).

(** The legacy format, if the bytes carry the known version. *)
Definition from_legacy (bytes : Bytes) : option (CachedRedisValue V) :=
  match json_from_slice bytes with
  | Some j =>
      match json_get j "version" with
      | Some v => if json_eqb v (json_of REDIS_VALUE_VERSION) then json_from_value j else None
      | None => None
      end
  | None => None
  end.

Definition deserialize_cached_redis_value (bytes : Bytes) : result Error (CachedRedisValue V) :=
  match from_slice bytes with
  | Ok v => Ok v
  | Err msgpack_err =>
      match from_legacy bytes with
      | Some v => Ok v
      | None => Err (CacheDeserialization msgpack_err bytes)
      end
  end.

(** [.map_err(RedisCacheError::redis)?] *)
Definition redis {A} (q : Request Bytes A) : P (result Error A) :=
  let* r := query q in Ret (map_err (fun e => Redis_ (FromServer e)) r).

Definition millis {A} (r : result TtlError A) : P (result Error A) := Ret (map_err (fun e => Redis_ (FromTtl e)) r).

(** [*self.ttl.lock()] and [self.refresh.load(..)] *)
Definition lock_ttl : P Z := global (fun g => (ttl g, g)).
Definition load_refresh : P bool := global (fun g => (refresh g, g)).

(** *** The commands, over a way to connect: a pooled connection, or a shared one *)
Section Commands.
Context (connect : User W (result PoolError unit)).

Definition connected : P (result Error unit) :=
  let* r := outside connect in Ret (map_err Pool r).

(** The request of a get: with the renewal of the ttl, if asked for. *)
Definition get_request (key : string) : P (result Error (Request Bytes (option Bytes))) :=
  let* refresh := load_refresh in
  if refresh then
    let* t := lock_ttl in
    if t =? 0 then Ret (Ok (GET key))
    else
      try* ms := millis (ttl_millis_i64 t) in
      Ret (Ok (Pipe (GET key) (PEXPIRE key ms)))
  else Ret (Ok (GET key)).

Definition get_with (c : RedisCache) (k : K) : P (result Error (option V)) :=
  try* _ := connected in
  let key := generate_key c k in
  try* q := get_request key in
  try* res := redis q in
  match res with
  | None => Ret (Ok None)
  | Some bytes =>
      match deserialize_cached_redis_value bytes with
      | Ok v => Ret (Ok (Some (value v)))
      | Err e =>
          if strict_deserialization c then Ret (Err e)
          else
            try* _ := redis (SelfHeal key bytes) in
            Ret (Ok None)
      end
  end.

(** [SET] or [PSETEX] *)
Definition set_request (key : string) (serialized : Bytes) (t : Z) : P (result Error (Request Bytes unit)) :=
  if t =? 0 then Ret (Ok (SET key serialized))
  else try* ms := millis (ttl_millis t) in Ret (Ok (PSETEX key ms serialized)).

Definition set_with (c : RedisCache) (k : K) (v : V) : P (result Error (option V)) :=
  try* _ := connected in
  let key := generate_key c k in
  let* t := lock_ttl in
  match to_vec (new_value v) with
  | Err e => Ret (Err (CacheSerialization e))
  | Ok serialized =>
      try* q := set_request key serialized t in
      try* res := redis (Pipe (GET key) q) in
      Ret (Ok (res ≫= (fun bytes => value <$> ok (deserialize_cached_redis_value bytes))))
  end.

Definition remove_with (c : RedisCache) (k : K) : P (result Error (option V)) :=
  try* _ := connected in
  let key := generate_key c k in
  try* res := redis (Pipe (GET key) (DEL key)) in
  match res with
  | None => Ret (Ok None)
  | Some bytes =>
      match deserialize_cached_redis_value bytes with
      | Ok v => Ret (Ok (Some (value v)))
      | Err e => if strict_deserialization c then Ret (Err e) else Ret (Ok None)
      end
  end.

Definition remove_entry_with (c : RedisCache) (k : K) : P (result Error (option (K * V))) :=
  let* r := remove_with c k in
  Ret (map_ok (fmap (fun v => (k, v))) r).

Definition delete_with (c : RedisCache) (k : K) : P (result Error bool) :=
  try* _ := connected in
  try* removed := redis (DEL (generate_key c k)) in
  Ret (Ok (0 <? removed)).

Definition contains_with (c : RedisCache) (k : K) : P (result Error bool) :=
  let* r := get_with c k in Ret (map_ok is_some r).

(** The loop of [cache_clear].  The model makes at most [pages] requests; a run that would need more
    does not return. *)
Fixpoint clear_loop (pages : nat) (pattern : string) (cursor : Z) : P (result Error unit) :=
  match pages with
  | O => outside (fun w => (None, w))
  | S pages =>
      try* (next, keys) := redis (SCAN cursor pattern 100) in
      try* _ := match keys with [] => Ret (Ok tt) | _ => redis (DELS keys) end in
      if next =? 0 then Ret (Ok tt) else clear_loop pages pattern next
  end.

Definition clear_with (pages : nat) (c : RedisCache) : P (result Error unit) :=
  try* _ := connected in
  clear_loop pages (match_pattern c) 0.

Definition set_ref_with (c : RedisCache) (k : K) (v : V) : P (result Error unit) :=
  try* _ := connected in
  let key := generate_key c k in
  let* t := lock_ttl in
  match to_vec (new_value v) with
  | Err e => Ret (Err (CacheSerialization e))
  | Ok serialized =>
      try* q := set_request key serialized t in
      redis q
  end.
End Commands.

(** ** The methods *)

Definition non_zero (t : Z) : option Z := if t =? 0 then None else Some t.

Definition get_ttl (c : RedisCache) : P (option Z) := global (fun g => (non_zero (ttl g), g)).
Definition set_ttl (c : RedisCache) (t : Z) : P (option Z) := global (fun g => (non_zero (ttl g), mkSettings t (refresh g))).
Definition unset_ttl (c : RedisCache) : P (option Z) := global (fun g => (non_zero (ttl g), mkSettings 0 (refresh g))).
Definition refresh_on_hit (c : RedisCache) : P bool := load_refresh.
Definition set_refresh_on_hit (c : RedisCache) (b : bool) : P bool := global (fun g => (refresh g, mkSettings (ttl g) b)).

#[export] Instance redis_ttl : ConcurrentCacheTtl RedisCache Srv Settings W := {|
  Concurrent.ttl := get_ttl; Concurrent.set_ttl := set_ttl; Concurrent.unset_ttl := unset_ttl |}.

#[export] Instance redis_refresh : ConcurrentCacheRefreshOnHit RedisCache Srv Settings W := {|
  Concurrent.refresh_on_hit := refresh_on_hit; Concurrent.set_refresh_on_hit := set_refresh_on_hit |}.

Definition redis_with (connect : User W (result PoolError unit)) (pages : nat) : FallibleCached RedisCache Srv Settings K V W Error := {|
  cache_get := get_with connect;
  cache_set := set_with connect;
  cache_remove := remove_with connect;
  cache_remove_entry := remove_entry_with connect;
  cache_delete := delete_with connect;
  cache_contains := contains_with connect;
  cache_clear := clear_with connect pages;
  cache_reset := clear_with connect pages |}.

Definition redis_ref_with (connect : User W (result PoolError unit)) : SerializeCached RedisCache Srv Settings K V W Error := {|
  cache_set_ref := set_ref_with connect |}.

(** [RedisCache] *)
Definition redis_cached : nat -> FallibleCached RedisCache Srv Settings K V W Error := redis_with pool_get.
Definition redis_serialize : SerializeCached RedisCache Srv Settings K V W Error := redis_ref_with pool_get.

(** [AsyncRedisCache]: the connection is shared, and is only cloned. *)
Definition connection_clone : User W (result PoolError unit) := fun w => (Some (Ok tt), w).
Definition async_redis_cached : nat -> FallibleCached RedisCache Srv Settings K V W Error := redis_with connection_clone.
Definition async_redis_serialize : SerializeCached RedisCache Srv Settings K V W Error := redis_ref_with connection_clone.
End Redis.
