(* ===== verification/RedisProps.v ===== *)
(** * The redis store against the documented behaviour of redis

    A server holds values under string keys, some of which expire.  Requests are answered one at a time;
    those of a pipeline one after the other, with other clients' in between; any may fail, done or not.
    Every call of the store is a few such operations, however calls interleave. *)
From stdpp Require Import strings gmap relations.
From S2P Require Import Prelude Keys Stores Shards Concurrent External RedisKeys Redis.

(** ** What redis promises *)

(** What the server stores under a key, and whether it will expire. *)
Class RedisView (Srv Bytes : Type) : Type := { contents : Srv -> gmap string (Bytes * bool) }.

Section Specification.
Context {Srv Bytes PoolError RedisError SerError DeError K V : Type}.
Context `{!RedisView Srv Bytes, !EqDecision Bytes, !Glob}.
Notation E := (Bytes * bool)%type.
Notation Of A := (SpecOf string E A).

(** A binding, or nothing if it was one that expires. *)
Definition may_be (e e0 : option E) : Prop := e0 = e \/ (e0 = None /\ exists b, e = Some (b, true)).

(** An operation on the binding of a key, as the server finds it. *)
Definition on_key (k : string) (f : option E -> option E) : MapOp string E :=
  Modify k (fun e r e' => may_be e r /\ e' = f r).

Definition tried (op : MapOp string E) : Of (result RedisError (option E)) :=
  let^ fate := schoose (fun _ : Fate RedisError => True) in
  match fate with
  | Fails e => sret (Err e)
  | Unsure e => let^ _ := sop op in sret (Err e)
  | Works => let^ r := sop op in sret (Ok r)
  end.

Definition volatile (e : option E) : option E := (fun p => (p.1, true)) <$> e.
Definition dropped_if (b : Bytes) (e : option E) : option E := if decide (fst <$> e = Some b) then None else e.
Definition removed (e : option E) : Z := if is_some e then 1 else 0.

(** One after the other, both needed. *)
Definition piped {A B} (s : Of (result RedisError A)) (s' : Of (result RedisError B)) : Of (result RedisError A) :=
  let^ r := s in
  let^ r' := s' in
  sret (match r, r' with Ok a, Ok _ => Ok a | Err e, _ | _, Err e => Err e end).

Fixpoint request_spec {A} (q : Request Bytes A) : Of (result RedisError A) :=
  match q with
  | GET k => let^ r := tried (on_key k id) in sret (map_ok (fmap fst) r)
  | SET k b => let^ r := tried (on_key k (fun _ => Some (b, false))) in sret (map_ok (fun _ => tt) r)
  | PSETEX k _ b => let^ r := tried (on_key k (fun _ => Some (b, true))) in sret (map_ok (fun _ => tt) r)
  | PEXPIRE k _ => let^ r := tried (on_key k volatile) in sret (map_ok removed r)
  | DEL k => let^ r := tried (on_key k (fun _ => None)) in sret (map_ok removed r)
  | DELS ks => let^ r := tried (EraseAll (fun k => bool_decide (k ∈ ks))) in sret (map_ok (fun _ => tt) r)
  | SelfHeal k b => let^ r := tried (on_key k (dropped_if b)) in let^ n := schoose (fun _ => True) in sret (map_ok (fun _ => n) r)
  | SCAN _ pattern _ => schoose (fun r : result RedisError (Z * list string) =>
      match r with Ok (_, keys) => Forall (fun k => glob_match pattern k = true) keys | Err _ => True end)
  | Pipe q q' => piped (request_spec q) (request_spec q')
  end.

(** The server is the one shard; it has what the map says, but for what has expired. *)
Definition may_hold (i : nat) (srv : Srv) (m : Map string E) : Prop :=
  forall s, 0%nat = i -> may_be (m s) (contents srv !! s).

Lemma may_hold_local i srv m m' : (forall k : string, 0%nat = i -> m' k = m k) -> may_hold i srv m -> may_hold i srv m'.
Proof. intros Hk Hm s Hi. rewrite Hk by done. by apply Hm. Qed.

Definition redis_layout : Layout Srv Settings string E := {|
  shard_count := 1;
  slot _ := 0%nat;
  lossy := false;
  inv := may_hold;
  ginv _ := True;
  slot_cong _ _ _ := eq_refl;
  slot_bound _ := Nat.lt_0_1;
  inv_local := may_hold_local |}.
End Specification.

(** Every request is what its command is documented to be. *)
Class RedisLaws (Srv Bytes PoolError RedisError W : Type) `{!Redis Srv Settings Bytes PoolError RedisError W}
    `{!RedisView Srv Bytes, !EqDecision Bytes, !Glob} : Prop := {
  query_meets : forall A (q : Request Bytes A), meets (W := W) redis_layout (request_spec q) (query q) }.

(** ** The specification of the store *)
Section Store.
Context {Srv Bytes PoolError RedisError SerError DeError K V W : Type}.
Context `{!Redis Srv Settings Bytes PoolError RedisError W, !RedisView Srv Bytes, !EqDecision Bytes}.
Context {glob : Glob} {glob_laws : GlobLaws} `{!RedisLaws Srv Bytes PoolError RedisError W}.
Context `{!Format (CachedRedisValue V) Bytes SerError DeError, !Json (CachedRedisValue V) Bytes, !ToString K}.
Notation Error := (RedisCacheError Bytes PoolError RedisError SerError DeError).
Notation E := (Bytes * bool)%type.
Notation Of A := (SpecOf string E (result Error A)).
Notation L := (redis_layout (Srv := Srv) (Bytes := Bytes)).

Definition server {A} (s : SpecOf string E (result RedisError A)) : Of A :=
  let^ r := s in sret (map_err (fun e => Redis_ (FromServer e)) r).

(** A connection may not be had. *)
Definition connecting : Of unit :=
  schoose (fun r : result Error unit => match r with Ok _ => True | Err e => exists p, e = Pool p end).

(** The value, if the bytes have one. *)
Definition decode (b : option Bytes) : option V :=
  b ≫= (fun bytes => value <$> ok (deserialize_cached_redis_value (PoolError := PoolError) (RedisError := RedisError) bytes)).

(** The ttl, and the refresh flag, whatever they are at that moment. *)
Definition some_ttl : SpecOf string E Z := schoose (fun _ : Z => True).
Definition some_flag : SpecOf string E bool := schoose (fun _ : bool => True).

(** The request for an entry; its ttl may be renewed. *)
Definition looking_up (key : string) : Of (Request Bytes (option Bytes)) :=
  let^ renews := some_flag in
  if renews then
    let^ t := some_ttl in
    if t =? 0 then sret (Ok (GET key))
    else try^ ms := sret (map_err (fun e => Redis_ (FromTtl e)) (ttl_millis_i64 t)) in sret (Ok (Pipe (GET key) (PEXPIRE key ms)))
  else sret (Ok (GET key)).

(** The value of an entry; a corrupt one is dropped, if it is still the same, or an error. *)
Definition get_spec_of (c : RedisCache) (k : K) : Of (option V) :=
  try^ _ := connecting in
  try^ q := looking_up (generate_key c k) in
  try^ b := server (request_spec q) in
  match b with
  | None => sret (Ok None)
  | Some bytes =>
      match deserialize_cached_redis_value bytes with
      | Ok v => sret (Ok (Some (value v)))
      | Err e =>
          if strict_deserialization c then sret (Err e)
          else try^ _ := server (request_spec (SelfHeal (generate_key c k) bytes)) in sret (Ok None)
      end
  end.

(** The new entry, kept until it expires or for good. *)
Definition stored (v : V) (t : Z) (key : string) : result Error (Request Bytes unit) :=
  match to_vec (new_value v) with
  | Ok b => if t =? 0 then Ok (SET key b) else map_ok (fun ms => PSETEX key ms b) (map_err (fun e => Redis_ (FromTtl e)) (ttl_millis t))
  | Err s => Err (CacheSerialization s)
  end.

Definition remove_spec_of (c : RedisCache) (k : K) : Of (option V) :=
  try^ _ := connecting in
  try^ b := server (request_spec (Pipe (GET (generate_key c k)) (DEL (generate_key c k)))) in
  match b with
  | None => sret (Ok None)
  | Some bytes =>
      match deserialize_cached_redis_value bytes with
      | Ok v => sret (Ok (Some (value v)))
      | Err err => if strict_deserialization c then sret (Err err) else sret (Ok None)
      end
  end.

(** Pages of keys that match the pattern, each deleted at once. *)
Fixpoint clear_spec_of (pages : nat) (pattern : string) (cursor : Z) : Of unit :=
  match pages with
  | O => schoose (fun _ => False)
  | S pages =>
      try^ (next, keys) := server (request_spec (SCAN cursor pattern 100)) in
      try^ _ := match keys with [] => sret (Ok tt) | _ => server (request_spec (DELS keys)) end in
      if next =? 0 then sret (Ok tt) else clear_spec_of pages pattern next
  end.

Definition redis_spec (pages : nat) (c : RedisCache) : StoreSpec string E K V Error := {|
  get_spec := get_spec_of c;
  set_spec k v :=
    try^ _ := connecting in
    let^ t := some_ttl in
    try^ q := sret (stored v t (generate_key c k)) in
    try^ previous := server (request_spec (Pipe (GET (generate_key c k)) q)) in
    sret (Ok (decode previous));
  remove_spec := remove_spec_of c;
  remove_entry_spec k := let^ r := remove_spec_of c k in sret (map_ok (fmap (fun v => (k, v))) r);
  delete_spec k :=
    try^ _ := connecting in
    try^ n := server (request_spec (DEL (generate_key c k))) in sret (Ok (0 <? n));
  contains_spec k := let^ r := get_spec_of c k in sret (map_ok is_some r);
  clear_spec := try^ _ := connecting in clear_spec_of pages (match_pattern c) 0;
  set_ref_spec k v :=
    try^ _ := connecting in
    let^ t := some_ttl in
    try^ q := sret (stored v t (generate_key c k)) in
    server (request_spec q) |}.

(** ** The code meets it *)

Lemma redis_meets {A} (q : Request Bytes A) : meets L (server (request_spec q)) (redis (W := W) q).
Proof. apply meets_map, query_meets. Qed.

Lemma some_ttl_meets : meets (W := W) L some_ttl lock_ttl.
Proof. by apply meets_global. Qed.

Lemma some_flag_meets : meets (W := W) L some_flag load_refresh.
Proof. by apply meets_global. Qed.

Section Connected.
Context (connect : User W (result PoolError unit)).

Lemma connecting_meets : meets L connecting (connected (Srv := Srv) connect).
Proof.
  intros R q. cbn. intros w r w' _. exists (q (map_err Pool r)). split; [|done].
  intros x. apply rtc_once, (spec_choose _ _ _ _ (map_err Pool r)). destruct r as [u|p]; [done|by exists p].
Qed.

Lemma looking_up_meets key : meets (W := W) L (looking_up key) (get_request key).
Proof.
  apply meets_bind; [apply some_flag_meets|]. intros [|]; [|apply meets_ret].
  apply meets_bind; [apply some_ttl_meets|]. intros t. destruct (t =? 0); [apply meets_ret|].
  apply meets_try; [apply meets_ret|]. intros ms. apply meets_ret.
Qed.

Lemma redis_get_meets c (k : K) : meets L (get_spec_of c k) (get_with (V := V) connect c k).
Proof.
  apply meets_try; [apply connecting_meets|]. intros _. apply meets_try; [apply looking_up_meets|]. intros q.
  apply meets_try; [apply redis_meets|]. intros [bytes|]; [|apply meets_ret].
  destruct (deserialize_cached_redis_value bytes) as [v|e]; [apply meets_ret|].
  destruct (strict_deserialization c); [apply meets_ret|]. apply meets_try; [apply redis_meets|]. intros _. apply meets_ret.
Qed.

Lemma redis_remove_meets c (k : K) : meets L (remove_spec_of c k) (remove_with (V := V) connect c k).
Proof.
  apply meets_try; [apply connecting_meets|]. intros _. apply meets_try; [apply redis_meets|].
  intros [bytes|]; [|apply meets_ret]. destruct (deserialize_cached_redis_value bytes) as [v|e]; [apply meets_ret|].
  destruct (strict_deserialization c); apply meets_ret.
Qed.

Lemma clear_loop_meets pages pattern cursor : meets L (clear_spec_of pages pattern cursor) (clear_loop (W := W) pages pattern cursor).
Proof.
  revert cursor. induction pages as [|pages IH]; intros cursor; [intros R q w a w' [=]|].
  apply meets_try; [apply redis_meets|]. intros [next keys].
  apply meets_try; [destruct keys; [apply meets_ret|apply redis_meets]|]. intros _. destruct (next =? 0); [apply meets_ret|apply IH].
Qed.

(** The request of a write, once the ttl is known. *)
Lemma stored_meets {A} v t key (s : Request Bytes unit -> Of A) p : (forall q, meets (W := W) L (s q) (p q)) ->
  meets L (try^ q := sret (stored v t key) in s q)
    (match to_vec (new_value v) with
     | Err e => Ret (Err (CacheSerialization e))
     | Ok serialized => try* q := set_request key serialized t in p q
     end).
Proof.
  intros Hp. unfold stored, set_request. destruct (to_vec (new_value v)) as [b|e]; [|apply meets_ret].
  destruct (t =? 0); [apply Hp|]. unfold millis. destruct (ttl_millis t) as [ms|e]; [apply Hp|apply meets_ret].
Qed.

Lemma redis_laws pages (c : RedisCache) :
  @ExternalLaws _ _ _ _ _ _ _ W _ _ (redis_with (K := K) (V := V) connect pages) (redis_ref_with connect) c L (redis_spec pages c).
Proof.
  split; intros; cbn [get_spec set_spec remove_spec remove_entry_spec delete_spec contains_spec clear_spec set_ref_spec redis_spec].
  - apply redis_get_meets.
  - apply meets_try; [apply connecting_meets|]. intros _. apply meets_bind; [apply some_ttl_meets|]. intros t.
    apply (stored_meets v t (generate_key c k) (fun q => try^ previous := server (request_spec (Pipe (GET (generate_key c k)) q)) in sret (Ok (decode previous)))).
    intros q. apply meets_try; [apply redis_meets|]. intros b. apply meets_ret.
  - apply redis_remove_meets.
  - apply (meets_map L), redis_remove_meets.
  - apply meets_try; [apply connecting_meets|]. intros _. apply meets_try; [apply redis_meets|]. intros n. apply meets_ret.
  - apply (meets_map L), redis_get_meets.
  - apply meets_try; [apply connecting_meets|]. intros _. apply clear_loop_meets.
  - apply meets_try; [apply connecting_meets|]. intros _. apply clear_loop_meets.
  - apply meets_try; [apply connecting_meets|]. intros _. apply meets_bind; [apply some_ttl_meets|]. intros t.
    apply (stored_meets v t (generate_key c k) (fun q => server (request_spec q))). intros q. apply redis_meets.
Qed.
End Connected.
End Store.
