(* ===== verification/RedisStore.v ===== *)
(** * What the redis stores promise

    The calls of [RedisCache] and [AsyncRedisCache] in any interleaving and with failures anywhere: they
    end, a cache touches only its own keys, and what it returns is what was set under that key. *)
From stdpp Require Import strings gmap relations.
From S2P Require Import Prelude Keys Stores Shards Concurrent External RedisKeys Redis RedisProps.

(** ** The calls that only these stores have *)

Inductive RedisOwn : Type :=
| OTtl | OSetTtl (t : Z) | OTrySetTtl (t : Z) | OUnsetTtl | ORefreshOnHit | OSetRefreshOnHit (b : bool).

Section Store.
Context {Srv Bytes PoolError RedisError SerError DeError K V W : Type}.
Context `{!Redis Srv Settings Bytes PoolError RedisError W, !RedisView Srv Bytes, !EqDecision Bytes}.
Context {glob : Glob} {glob_laws : GlobLaws} `{!RedisLaws Srv Bytes PoolError RedisError W}.
Context `{!Format (CachedRedisValue V) Bytes SerError DeError, !Json (CachedRedisValue V) Bytes, !ToString K}.
Notation Error := (RedisCacheError Bytes PoolError RedisError SerError DeError).
Notation E := (Bytes * bool)%type.
Notation Rep := (result Error (Reply K V SetTtlError)).
Notation L := (redis_layout (Srv := Srv) (Bytes := Bytes)).
Notation call := (ExtCall K V W SetTtlError RedisOwn).

Notation des := (deserialize_cached_redis_value (PoolError := PoolError) (RedisError := RedisError)).

Definition own (c : RedisCache) (x : RedisOwn) : Prog Srv Settings W Rep :=
  match x with
  | OTtl => let* t := get_ttl c in Ret (Ok (Numbers [t]))
  | OSetTtl t => let* p := set_ttl c t in Ret (Ok (Numbers [p]))
  | OTrySetTtl t =>
      let* r := try_set_ttl c t in Ret (Ok (match r with Ok p => Numbers [p] | Err e => Failed e end))
  | OUnsetTtl => let* p := unset_ttl c in Ret (Ok (Numbers [p]))
  | ORefreshOnHit => let* b := refresh_on_hit c in Ret (Ok (Flag b))
  | OSetRefreshOnHit b => let* b := set_refresh_on_hit c b in Ret (Ok (Flag b))
  end.

Definition a_ttl : SpecOf string E Rep := let^ t := schoose (fun _ : option Z => True) in sret (Ok (Numbers [t])).
Definition a_flag : SpecOf string E Rep := let^ b := some_flag in sret (Ok (Flag b)).

Definition own_spec (x : RedisOwn) : SpecOf string E Rep :=
  match x with
  | OTtl | OSetTtl _ | OUnsetTtl => a_ttl
  | OTrySetTtl t => if t =? 0 then sret (Ok (Failed ZeroTtl)) else a_ttl
  | ORefreshOnHit | OSetRefreshOnHit _ => a_flag
  end.

Lemma redis_own_meets (c : RedisCache) (x : RedisOwn) : meets L (own_spec x) (own c x).
Proof.
  assert (forall f : Settings -> option Z * Settings, meets (W := W) L a_ttl (let* t := global f in Ret (Ok (Numbers [t])))) as Ht.
  { intros f. apply meets_bind; [by apply meets_global|]. intros t. apply meets_ret. }
  assert (forall f : Settings -> bool * Settings, meets (W := W) L a_flag (let* b := global f in Ret (Ok (Flag b)))) as Hb.
  { intros f. apply meets_bind; [by apply meets_global|]. intros b. apply meets_ret. }
  destruct x as [|t|t| | |b]; cbn [own own_spec]; try apply Ht; try apply Hb.
  unfold try_set_ttl. destruct (t =? 0); [apply meets_ret|]. apply (Ht (fun g => (non_zero (ttl g), mkSettings t (refresh g)))).
Qed.

Lemma redis_start (srv : Srv) (g : Settings) : follows_map L (mkMemory [new_shard srv] g) (fun s => contents srv !! s).
Proof.
  split; [done|]. split; [|done]. intros [|i] s Hs; simpl in Hs; [|done]. injection Hs as <-. by left.
Qed.

Context (connect : User W (result PoolError unit)) (pages : nat) (c : RedisCache).

(** A call, and its specification. *)
Definition redis_call : call -> Prog Srv Settings W Rep :=
  @run_call _ _ _ _ _ _ _ _ _ (redis_with connect pages) (redis_ref_with connect) (own c) c.
Definition redis_call_spec : call -> SpecOf string E Rep := call_spec (W := W) (redis_spec pages c) own_spec.

(** [RedisCache] and [AsyncRedisCache] over a server that answers one request at a time, with several
    clients and with failures at any point: however calls interleave, each is the operations on its
    own key that its specification says, and every call ends. *)
Theorem redis_serves (srv : Srv) (g : Settings) :
  implements L redis_call (fun q => redis_call_spec q Rep (fun r => Returns (eq r)))
    (mkMemory [new_shard srv] g) (fun s => contents srv !! s).
Proof. apply external_serves; [apply redis_laws|apply redis_own_meets|apply redis_start]. Qed.

(** ** What a cache returns is what was set *)

Definition key_of (s : string) : string := generate_redis_key (namespace c) (prefix c) s.

Lemma key_of_inj s s' : key_of s = key_of s' -> s = s'.
Proof. by intros (_ & _ & E)%redis_key_inj. Qed.

Definition in_scope (s : string) : Prop := exists t, s = scope (namespace c) (prefix c) +:+ t.

Lemma key_of_scope s : in_scope (key_of s).
Proof. exists (escape_key_field s). apply key_in_scope. Qed.

(** The values that are set, by key; and what the server has under other keys. *)
Context (given : string -> V -> Prop) (others : string -> option E).

(** The bytes have no value under this key but one that was given. *)
Definition fits (s : string) (b : Bytes) : Prop :=
  forall v, des b = Ok v -> given s (value v).

Definition good (m : Map string E) : Prop :=
  (forall s e, m (key_of s) = Some e -> fits s e.1) /\ forall s, ~ in_scope s -> m s = others s.

Lemma on_key_sound s (f : option E -> option E) :
  (forall e, (forall p, e = Some p -> fits s p.1) -> forall p, f e = Some p -> fits s p.1) ->
  sound L good (tried (RedisError := RedisError) (on_key (key_of s) f)) (fun r => forall p, r = Ok (Some p) -> fits s p.1).
Proof.
  intros Hf. assert (sound L good (sop (on_key (key_of s) f)) (fun r => forall p, r = Some p -> fits s p.1)) as Hop.
  { apply sound_op. intros m r m' [Hg Ho] (e & [Hr ->] & ->).
    assert (forall p, r = Some p -> fits s p.1) as Hp.
    { intros p ->. destruct Hr as [Hr|[[=] _]]. by apply (Hg s). }
    split; [|exact Hp]. split.
    - intros s' p. unfold put. destruct (keq _ _) eqn:Ek; [|apply Hg]. apply bool_decide_eq_true, key_of_inj in Ek. subst s'. by apply Hf.
    - intros s' Hs'. unfold put. destruct (keq _ _) eqn:Ek; [|by apply Ho]. apply bool_decide_eq_true in Ek. subst s'.
      destruct Hs'. apply key_of_scope. }
  eapply sound_bind; [apply sound_choose|]. intros [e|e|] _.
  - by apply sound_ret.
  - eapply sound_bind; [exact Hop|]. intros r _. by apply sound_ret.
  - eapply sound_map; [exact Hop|]. intros r Hr p [= ->]. by apply Hr.
Qed.

(** *** Requests *)

Notation srv := (server (PoolError := PoolError) (SerError := SerError) (DeError := DeError)).
Notation req := (request_spec (RedisError := RedisError)).

Definition got {Er} (s : string) (r : result Er (option Bytes)) : Prop := forall b, r = Ok (Some b) -> fits s b.
Definition anything {A} (r : A) : Prop := True.

Lemma get_sound s : sound L good (req (GET (key_of s))) (got s).
Proof.
  eapply sound_map; [by apply on_key_sound|]. intros [[p|]|e] Hr b E'; try done. injection E' as <-. by apply Hr.
Qed.

Lemma op_sound {A} s f (h : option E -> A) :
  (forall e, (forall p, e = Some p -> fits s p.1) -> forall p, f e = Some p -> fits s p.1) ->
  sound L good (let^ r := tried (RedisError := RedisError) (on_key (key_of s) f) in sret (map_ok h r)) anything.
Proof. intros Hf. eapply sound_map; [by apply on_key_sound|done]. Qed.

Lemma expire_sound s ms : sound L good (req (PEXPIRE (key_of s) ms)) anything.
Proof. apply op_sound. intros [p'|] He p [= <-]. by apply (He p'). Qed.

Lemma del_sound s : sound L good (req (DEL (key_of s))) anything.
Proof. by apply op_sound. Qed.

Lemma heal_sound s b : sound L good (req (SelfHeal (key_of s) b)) anything.
Proof.
  eapply sound_bind; [apply on_key_sound; intros e He p; unfold dropped_if; destruct (decide _); [done|apply He]|].
  intros r _. eapply sound_map; [apply sound_choose|done].
Qed.

Lemma pipe_sound s {B} (q : Request Bytes B) :
  sound L good (req q) anything -> sound L good (req (Pipe (GET (key_of s)) q)) (got s).
Proof.
  intros Hq. eapply sound_bind; [apply get_sound|]. intros r Hr. eapply sound_map; [exact Hq|].
  intros r' _. destruct r as [a|e], r' as [b|e']; done.
Qed.

Lemma server_sound {A} (q : SpecOf string E (result RedisError A)) (P : forall Er, result Er A -> Prop) :
  sound L good q (P RedisError) -> (forall a, P RedisError (Ok a) -> P Error (Ok a)) -> (forall e, P Error (Err e)) ->
  sound L good (srv q) (P Error).
Proof. intros Hq Hok He. eapply sound_map; [exact Hq|]. intros [a|e] Hr; [by apply Hok|apply He]. Qed.

Lemma server_got s (q : SpecOf string E (result RedisError (option Bytes))) : sound L good q (got s) -> sound L good (srv q) (got s).
Proof. intros Hq. eapply (server_sound q (fun Er => got s)); [exact Hq|..]; intros a; [|done]. intros Ha b [= ->]. by apply Ha. Qed.

Lemma server_anything {A} (q : SpecOf string E (result RedisError A)) : sound L good q anything -> sound L good (srv q) anything.
Proof. intros Hq. by eapply (server_sound q (fun Er => anything)). Qed.

Lemma connecting_sound (Q : result Error unit -> Prop) : (forall r, Q r) -> sound L good connecting Q.
Proof. intros HQ. eapply sound_mono; [apply sound_choose|]. intros r _. apply HQ. Qed.

(** *** Calls *)

(** A value of the key [s], if any. *)
Definition fetched (s : string) (r : result Error (option V)) : Prop := forall v, r = Ok (Some v) -> given s v.

Lemma looking_up_sound s : sound L good (looking_up (key_of s)) (fun r : result Error (Request Bytes (option Bytes)) => forall q, r = Ok q ->
  sound L good (req q) (got s)).
Proof.
  eapply sound_bind; [apply sound_choose|]. intros [|] _; [|apply sound_ret; intros q [= <-]; apply get_sound].
  eapply sound_bind; [apply sound_choose|]. intros t _. destruct (t =? 0); [apply sound_ret; intros q [= <-]; apply get_sound|].
  destruct (ttl_millis_i64 t) as [ms|e]; apply sound_ret; [|done]. intros q [= <-]. apply pipe_sound, expire_sound.
Qed.

Lemma try_connecting {A} (t : unit -> SpecOf string E (result Error A)) (Q : result Error A -> Prop) :
  (forall e, Q (Err e)) -> sound L good (t tt) Q -> sound L good (try^ u := connecting in t u) Q.
Proof. intros He Ht. eapply sound_try; [by apply (connecting_sound anything)|by intros [] _|by intros e _]. Qed.

Lemma value_sound s b v : fits s b -> des b = Ok v -> fetched s (Ok (Some (value v))).
Proof. intros Hb Ev v' [= <-]. by apply Hb. Qed.

Lemma get_call_sound k : sound L good (get_spec_of c k) (fetched (to_string k)).
Proof.
  apply try_connecting; [done|]. eapply sound_try; [apply looking_up_sound| |done]. intros q Hq.
  eapply sound_try; [by apply server_got, Hq| |done]. intros [bytes|] Hb; [|by apply sound_ret].
  destruct (des bytes) as [v|e] eqn:Ed; [by apply sound_ret; eapply value_sound; [apply Hb|]|].
  destruct (strict_deserialization c); [by apply sound_ret|].
  eapply sound_try; [apply server_anything, heal_sound| |done]. intros n _. by apply sound_ret.
Qed.

Lemma remove_call_sound k : sound L good (remove_spec_of c k) (fetched (to_string k)).
Proof.
  apply try_connecting; [done|]. eapply sound_try; [apply server_got, pipe_sound, del_sound| |done].
  intros [bytes|] Hb; [|by apply sound_ret].
  destruct (des bytes) as [v|e] eqn:Ed; [by apply sound_ret; eapply value_sound; [apply Hb|]|].
  by destruct (strict_deserialization c); apply sound_ret.
Qed.

Context `{!FormatLaws (CachedRedisValue V) Bytes SerError DeError}.

Lemma stored_sound s v t q : given s v -> stored (RedisError := RedisError) (PoolError := PoolError) v t (key_of s) = Ok q ->
  sound L good (req q) anything.
Proof.
  intros Hv. unfold stored. destruct (to_vec (new_value v)) as [b|e] eqn:Es; [|done].
  assert (forall (x : bool) (p : E), Some (b, x) = Some p -> fits s p.1) as Hb.
  { intros x p [= <-] v'. unfold deserialize_cached_redis_value. simpl. rewrite (from_to _ _ Es). by intros [= <-]. }
  destruct (t =? 0); [intros [= <-]; apply op_sound; intros e _; apply Hb|].
  destruct (ttl_millis t) as [ms|e]; [|done]. intros [= <-]. apply op_sound. intros e _. apply Hb.
Qed.

Lemma set_call_sound k v : given (to_string k) v -> sound L good (set_spec (redis_spec (K := K) pages c) k v) (fetched (to_string k)).
Proof.
  intros Hv. apply try_connecting; [done|]. eapply sound_bind; [apply sound_choose|]. intros t _.
  destruct (stored v t (generate_key c k)) as [q|e] eqn:Eq; [|by apply sound_ret].
  change (sound L good (try^ previous := server (req (Pipe (GET (generate_key c k)) q)) in
    sret (Ok (decode (PoolError := PoolError) (RedisError := RedisError) previous))) (fetched (to_string k))).
  eapply sound_try; [eapply server_got, pipe_sound, stored_sound; [exact Hv|exact Eq]| |done].
  intros b Hb. apply sound_ret. intros v' [= Ed]. unfold decode in Ed. destruct b as [bytes|]; [simpl in Ed|done].
  destruct (des bytes) as [w|e] eqn:Ew; [|done]. injection Ed as <-. by apply (Hb bytes).
Qed.

Lemma set_ref_call_sound k v : given (to_string k) v -> sound L good (set_ref_spec (redis_spec (K := K) pages c) k v) (anything (A := result Error unit)).
Proof.
  intros Hv. apply try_connecting; [done|]. eapply sound_bind; [apply sound_choose|]. intros t _.
  destruct (stored v t (generate_key c k)) as [q|e] eqn:Eq; [|by apply sound_ret].
  apply (server_anything (req q)). eapply stored_sound; [exact Hv|exact Eq].
Qed.

Lemma delete_call_sound k : sound L good (delete_spec (redis_spec (V := V) pages c) k) (anything (A := result Error bool)).
Proof.
  apply try_connecting; [done|]. eapply sound_try; [apply server_anything, del_sound| |done]. intros n _. by apply sound_ret.
Qed.

(** Only keys that match the pattern are scanned, and they are in scope. *)
Lemma dels_sound ks : Forall (fun s => glob_match (match_pattern c) s = true) ks ->
  sound L good (req (DELS ks)) anything.
Proof.
  intros Hks. apply (sound_map _ _ _ _ anything); [|done]. apply (sound_bind L good _ _ anything); [eapply sound_mono; [apply sound_choose|done]|].
  assert (sound L good (sop (EraseAll (V := E) (fun k => bool_decide (k ∈ ks)))) anything) as Hop.
  { apply sound_op. intros m r m' [Hg Ho] ->. split; [|done]. split; intros s.
    - intros e. case_bool_decide; [done|apply Hg].
    - intros Hs. rewrite bool_decide_false; [by apply Ho|]. intros Hk. apply Hs.
      apply pattern_scope. by eapply (proj1 (Forall_forall _ _) Hks). }
  intros [e|e|] _; [by apply sound_ret|..]; (eapply sound_bind; [exact Hop|]; intros r _; by apply sound_ret).
Qed.

Lemma clear_loop_sound n cursor : sound L good (clear_spec_of n (match_pattern c) cursor) (anything (A := result Error unit)).
Proof.
  revert cursor. induction n as [|n IH]; intros cursor; [eapply sound_mono; [apply sound_choose|done]|].
  eapply (sound_try _ _ _ _ (fun r : result Error (Z * list string) => match r with Ok (_, keys) => Forall (fun k => glob_match (match_pattern c) k = true) keys | Err _ => True end));
    [|intros [next keys] Hk|done].
  - eapply sound_map; [apply sound_choose|]. by intros [[next keys]|e] Hr.
  - eapply (sound_try _ _ _ _ anything); [destruct keys; [by apply sound_ret|by apply server_anything, dels_sound]| |done].
    intros _ _. destruct (next =? 0); [by apply sound_ret|apply IH].
Qed.

Lemma clear_call_sound : sound L good (clear_spec (redis_spec (K := K) (V := V) pages c)) (anything (A := result Error unit)).
Proof. apply try_connecting; [done|]. apply clear_loop_sound. Qed.
Lemma own_call_sound x : sound L good (own_spec x) (anything (A := Rep)).
Proof.
  assert (sound L good a_ttl (anything (A := Rep))) as Ht by (eapply sound_map; [apply sound_choose|done]).
  assert (sound L good a_flag (anything (A := Rep))) as Hb by (eapply sound_map; [apply sound_choose|done]).
  destruct x as [|t|t| | |b]; try done. simpl. destruct (t =? 0); [by apply sound_ret|done].
Qed.

(** The calls that set only values that are given; and a reply that has only such a value. *)
Definition allowed (q : call) : Prop :=
  match q with
  | XSet k v | XSetRef k v => given (to_string k) v
  | XGetOrSetWith k f => forall v, may_return f v -> given (to_string k) v
  | XTryGetOrSetWith k f => forall v, may_return f (Ok v) -> given (to_string k) v
  | _ => True
  end.

Definition replied (q : call) (r : Rep) : Prop :=
  match q, r with
  | (XGet k | XSet k _ | XRemove k | XGetOrSetWith k _ | XTryGetOrSetWith k _), Ok (Value (Some v)) => given (to_string k) v
  | XRemoveEntry k, Ok (Entry (Some (k', v))) => k' = k /\ given (to_string k) v
  | _, _ => True
  end.

Lemma call_sound q : allowed q -> sound L good (redis_call_spec q) (replied q).
Proof.
  assert (forall k, sound L good (get_spec (redis_spec (K := K) pages c) k) (fetched (to_string k))) as Hget by apply get_call_sound.
  unfold redis_call_spec. destruct q as [k|k|k v|k v|k f|k f|k|k|k| | | |x]; simpl allowed; intros Hq; cbn [call_spec].
  - eapply sound_map; [apply Hget|]. intros [[v|]|e] Hv; try done. by apply Hv.
  - apply (sound_map _ _ _ _ anything); [|done]. by apply (sound_map _ _ _ _ (fetched (to_string k))); [apply get_call_sound|].
  - eapply sound_map; [by apply set_call_sound|]. intros [[w|]|e] Hv; try done. by apply Hv.
  - eapply sound_map; [by apply set_ref_call_sound|done].
  - eapply (sound_map _ _ _ _ (fun r => forall v, r = Ok v -> given (to_string k) v)); [|intros [v|e] Hv; [by apply Hv|done]].
    eapply sound_try; [apply Hget| |done]. intros [v|] Hv; [apply sound_ret; intros w [= <-]; by apply Hv|].
    eapply sound_bind; [apply sound_choose|]. intros v Hf. eapply sound_try; [by apply set_call_sound, Hq| |done].
    intros _ _. apply sound_ret. intros w [= <-]. by apply Hq.
  - eapply (sound_map _ _ _ _ (fun r => forall v, r = Ok (Ok v) -> given (to_string k) v)); [|intros [[v|u]|e] Hv; [by apply Hv|done..]].
    eapply sound_try; [apply Hget| |done]. intros [v|] Hv; [apply sound_ret; intros w [= <-]; by apply Hv|].
    eapply sound_bind; [apply sound_choose|]. intros [v|u] Hf; [|by apply sound_ret].
    eapply sound_try; [by apply set_call_sound, Hq| |done]. intros _ _. apply sound_ret. intros w [= <-]. by apply Hq.
  - eapply sound_map; [apply remove_call_sound|]. intros [[v|]|e] Hv; try done. by apply Hv.
  - eapply (sound_map _ _ _ _ (fun r => forall k' v, r = Ok (Some (k', v)) -> k' = k /\ given (to_string k) v)).
    + eapply sound_map; [apply remove_call_sound|]. intros [[v|]|e] Hv; try done. intros k' w [= <- <-]. split; [done|by apply Hv].
    + intros [[[k' v]|]|e] Hv; try done. by apply Hv.
  - eapply sound_map; [apply delete_call_sound|done].
  - eapply sound_map; [apply clear_call_sound|done].
  - eapply sound_map; [apply clear_call_sound|done].
  - by apply sound_ret.
  - eapply sound_mono; [apply own_call_sound|done].
Qed.

(** C9: Nothing is mixed up.  Whatever calls clients make of a redis cache, interleaved in any way and
    with failures anywhere, if each sets only values that belong to its key, and so did whoever wrote
    what the server holds of this cache at the start, then every value a call returns belongs to the
    key it was asked for; and whatever the server holds under keys of other caches stays as it is until
    it expires, also when the cache is cleared. *)
Theorem redis_sound (srv : Srv) (g0 : Settings) w g :
  (forall s e, contents srv !! key_of s = Some e -> fits s e.1) ->
  (forall s, ~ in_scope s -> contents srv !! s = others s) ->
  reachable (fun q : {q | allowed q} => let* r := redis_call (proj1_sig q) in Ret (proj1_sig q, r)) (mkMemory [new_shard srv] g0) w g ->
  (forall t q r, threads g !! t = Some (Ret (q, r)) -> replied q r) /\
  forall i sh, shards (memory g) !! i = Some sh -> forall s, ~ in_scope s -> may_be (others s) (contents (content sh) !! s).
Proof.
  intros Hin Hout Hr.
  destruct (@external_sound _ _ _ _ _ _ _ _ _ _ _ _ (redis_with connect pages) (redis_ref_with connect) (own c) c L (redis_spec pages c) own_spec
    (redis_laws connect pages c) (redis_own_meets c) allowed good replied _ _ w g (redis_start srv g0) (conj Hin Hout) call_sound Hr)
    as [(x & (Hl & HI & _) & _ & Hx) Ht].
  split; [exact Ht|]. intros i sh Hi s Hs. rewrite <- Hx by done. apply (HI i sh Hi s).
  apply lookup_lt_Some in Hi. rewrite Hl in Hi. simpl in Hi. lia.
Qed.
End Store.
