(* ===== verification/RedisClear.v ===== *)
(** * Clearing a redis cache, and a small server

    What [cache_clear] does on its own, given that a [SCAN] from the start comes to an end and returns
    every key that is there throughout; then a server that keeps all the laws. *)
From stdpp Require Import strings gmap relations.
From S2P Require Import Prelude Keys Stores Shards Concurrent External RedisKeys Redis RedisProps RedisStore.

Section Clear.
Context {Srv Bytes PoolError RedisError SerError DeError W : Type}.
Context `{!Redis Srv Settings Bytes PoolError RedisError W, !RedisView Srv Bytes} {glob : Glob} {glob_laws : GlobLaws}.
Notation Error := (RedisCacheError Bytes PoolError RedisError SerError DeError).

(** The memory of a store. *)
Definition memory_over (g : Settings) (cs : Counters) (srv : Srv) : Memory Srv Settings := mkMemory [mkShard srv cs] g.

(** Between two moments nothing has happened to these keys, but that some may have expired. *)
Definition only_expired (on : string -> Prop) (srv srv' : Srv) : Prop :=
  forall s, on s -> may_be (contents srv !! s) (contents srv' !! s).

(** What [SCAN] promises: [pending] are the keys that the iteration has yet to return, and [rank]
    bounds the requests it takes. *)
Class ScanLaws : Type := {
  pending : Srv -> string -> Z -> string -> Prop;
  rank : Srv -> string -> Z -> nat;
  scan_starts : forall srv pattern s, pending srv pattern 0 s;
  scan_goes_on : forall g cs srv pattern cursor w,
    wp (exec (query (SCAN cursor pattern 100))) (fun r st => exists srv', st.1 = memory_over g cs srv' /\ only_expired (fun _ => True) srv srv' /\
      match r with
      | Ok (next, keys) =>
          Forall (fun k => glob_match pattern k = true) keys /\
          (forall s, is_Some (contents srv' !! s) -> glob_match pattern s = true -> pending srv pattern cursor s ->
             s ∈ keys \/ (next <> 0 /\ pending srv' pattern next s)) /\
          (next = 0 \/ (rank srv' pattern next < rank srv pattern cursor)%nat)
      | Err _ => True
      end) (fun _ => False) (memory_over g cs srv, w);
  scan_outlives : forall g cs srv ks w,
    wp (exec (query (DELS ks))) (fun r st => exists srv', st.1 = memory_over g cs srv' /\ only_expired (fun s => s ∉ ks) srv srv' /\
      (forall u, r = Ok u -> forall s, s ∈ ks -> contents srv' !! s = None) /\
      (forall pattern cursor s, pending srv pattern cursor s -> pending srv' pattern cursor s) /\
      forall pattern cursor, rank srv' pattern cursor = rank srv pattern cursor) (fun _ => False) (memory_over g cs srv, w) }.

Context {scan_laws : ScanLaws} (g : Settings) (cs : Counters).
Notation over := (memory_over g cs).

Lemma may_be_trans {E} (e e1 e2 : option (E * bool)) : may_be e e1 -> may_be e1 e2 -> may_be e e2.
Proof.
  intros [->|[-> He]] H2; [done|]. right. split; [|done]. by destruct H2 as [->|[-> _]].
Qed.

Lemma exec_try {A B} (p : Prog Srv Settings W (result Error A)) (k : A -> Prog Srv Settings W (result Error B)) Q U s :
  wp (exec p) (fun r s => match r with Ok a => wp (exec (k a)) Q U s | Err e => Q (Err e) s end) U s ->
  wp (exec (try* a := p in k a)) Q U s.
Proof.
  intros H. unfold wp at 1. unfold pebind. rewrite exec_bind. apply wp_bind. eapply wp_mono; [exact H| |done].
  intros [a|e] s'; [done|]. intros HQ. by apply wp_ret.
Qed.

Lemma exec_redis {A} (q : Request Bytes A) (Q : result Error A -> Memory Srv Settings * W -> Prop) U s :
  wp (exec (query q)) (fun r s => Q (map_err (fun e => Redis_ (FromServer e)) r) s) U s -> wp (exec (redis q)) Q U s.
Proof. intros H. unfold wp at 1, redis. rewrite exec_bind. apply wp_bind. eapply wp_mono; [exact H| |done]. intros r s' HQ. by apply wp_ret. Qed.

(** What a clear of [pattern] leaves. *)
Definition swept_by (pattern : string) (srv : Srv) (r : result Error unit) (st : Memory Srv Settings * W) : Prop :=
  exists srv', st.1 = over srv' /\ only_expired (fun s => glob_match pattern s = false) srv srv' /\
    (r = Ok tt -> forall s, glob_match pattern s = true -> contents srv' !! s = None).

Lemma clear_loop_run pattern pages : forall cursor srv w, (rank srv pattern cursor < pages)%nat ->
  (forall s, is_Some (contents srv !! s) -> glob_match pattern s = true -> pending srv pattern cursor s) ->
  wp (exec (clear_loop pages pattern cursor)) (swept_by pattern srv) (fun _ => False) (over srv, w).
Proof.
  induction pages as [|pages IH]; intros cursor srv w Hr Hp; [lia|]. cbn [clear_loop].
  apply exec_try, exec_redis. eapply wp_mono; [apply scan_goes_on| |done].
  intros r [m w1] (srv1 & Hm & He & Hs). simpl in Hm. subst m.
  assert (only_expired (fun s => glob_match pattern s = false) srv srv1) as He1 by (intros s _; by apply He).
  destruct r as [[next keys]|e]; simpl; [|by exists srv1]. destruct Hs as (Hkeys & Hcov & Hrank).
  assert (forall srv2 w2, only_expired (fun s => glob_match pattern s = false) srv1 srv2 ->
    (forall s, s ∈ keys -> contents srv2 !! s = None) -> (forall s, s ∉ keys -> may_be (contents srv1 !! s) (contents srv2 !! s)) ->
    (forall s, pending srv1 pattern next s -> pending srv2 pattern next s) -> rank srv2 pattern next = rank srv1 pattern next ->
    wp (exec (if next =? 0 then Ret (Ok tt) else clear_loop pages pattern next)) (swept_by pattern srv) (fun _ => False) (over srv2, w2)) as Hgo.
  { intros srv2 w2 He2 Hd Hk Hp2 Hr2.
    assert (only_expired (fun s => glob_match pattern s = false) srv srv2) as He12.
    { intros s Hs. eapply may_be_trans; [by apply He1|by apply He2]. }
    assert (forall s, is_Some (contents srv2 !! s) -> glob_match pattern s = true -> next <> 0 /\ pending srv2 pattern next s) as Hleft.
    { intros s Hs Hg. destruct (decide (s ∈ keys)) as [Hi|Hi]; [rewrite (Hd s Hi) in Hs; by destruct Hs|].
      assert (is_Some (contents srv1 !! s)) as Hs1 by (destruct (Hk s Hi) as [<-|[E _]]; [done|rewrite E in Hs; by destruct Hs]).
      assert (is_Some (contents srv !! s)) as Hs0 by (destruct (He s I) as [<-|[E _]]; [done|rewrite E in Hs1; by destruct Hs1]).
      destruct (Hcov s Hs1 Hg (Hp s Hs0 Hg)) as [|[Hn Hps]]; [done|]. split; [done|by apply Hp2]. }
    destruct (Z.eqb_spec next 0) as [Hn|Hn].
    - apply wp_ret. exists srv2. split; [done|]. split; [done|]. intros _ s Hg.
      destruct (contents srv2 !! s) eqn:E; [|done]. exfalso. by apply (Hleft s).
    - destruct Hrank as [|Hrank]; [done|]. eapply wp_mono; [apply IH; [lia|intros s Hs Hg; by apply Hleft]| |done].
      intros r [m w3] (srv3 & Hm & He3 & Hc). exists srv3. split; [done|]. split; [|exact Hc].
      intros s Hs. eapply may_be_trans; [by apply He12|by apply He3]. }
  apply exec_try. destruct keys as [|k keys].
  - apply wp_ret. apply Hgo; try done; [by intros s _; left|by intros s H%elem_of_nil|by intros s _; left].
  - apply exec_redis. eapply wp_mono; [apply scan_outlives| |done].
    intros r [m w2] (srv2 & Hm & He2 & Hd & Hp2 & Hr2). simpl in Hm. subst m.
    assert (only_expired (fun s => glob_match pattern s = false) srv1 srv2) as He2'.
    { intros s Hs. apply He2. intros Hi. rewrite (proj1 (Forall_forall _ _) Hkeys s Hi) in Hs. done. }
    destruct r as [[]|e]; simpl.
    + apply Hgo; try done; [by apply (Hd tt)|by apply Hp2].
    + exists srv2. split; [done|]. split; [|done]. intros s Hs. eapply may_be_trans; [by apply He1|by apply He2'].
Qed.

(** C26: [cache_clear] on its own, over a connection that can be had or not: it ends within the requests
    that the scan takes; when it succeeds, no key of the cache is left, and whether or not it succeeds,
    every key outside its scope has what it had, unless it has expired. *)
Theorem redis_clear_alone (connect : User W (result PoolError unit)) (pages : nat) (c : RedisCache) (srv : Srv) w :
  (forall w, exists r w', connect w = (Some r, w')) -> (rank srv (match_pattern c) 0 < pages)%nat ->
  wp (exec (clear_with connect pages c))
    (fun (r : result Error unit) st => exists srv', st.1 = over srv' /\ only_expired (fun s => ~ in_scope c s) srv srv' /\
       (r = Ok tt -> forall k, contents srv' !! key_of c k = None))
    (fun _ => False) (over srv, w).
Proof.
  intros Hc Hr. apply exec_try. unfold connected. unfold wp at 1. rewrite exec_bind. apply wp_bind.
  destruct (Hc w) as (r & w' & E). unfold wp at 1. cbn. unfold user, bind. cbn. rewrite E. apply wp_ret.
  destruct r as [[]|p]; simpl; [|exists srv; split; [done|]; split; [by intros s _; left|done]].
  eapply wp_mono; [apply clear_loop_run; [done|intros; apply scan_starts]| |done].
  intros r [m w1] (srv' & Hm & He & Hd). exists srv'. split; [done|]. split.
  - intros s Hs. apply He. destruct (glob_match _ s) eqn:Eg; [|done]. exfalso. by apply Hs, pattern_scope.
  - intros Er k. apply (Hd Er), pattern_scope, key_of_scope.
Qed.
End Clear.

(** ** A small server

    It does not fail, answers a pipeline at once, never expires what it has, and returns all keys in
    one page; [None] stands for corrupt bytes. *)
Module Toy.
Import Matcher.

Notation Bytes := (option Z).
Notation Srv := (gmap string (option Z * bool)).
#[export] Instance toy_view : RedisView Srv Bytes := {| contents := id |}.

Notation L := (redis_layout (Srv := Srv) (Bytes := Bytes)).

Definition drop_all (ks : list string) (m : Srv) : Srv := filter (fun e : string * (Bytes * bool) => e.1 ∉ ks) m.

Fixpoint answer {A} (q : Request Bytes A) (m : Srv) : A * Srv :=
  match q with
  | GET k => (fst <$> m !! k, m)
  | SET k b => (tt, <[k := (b, false)]> m)
  | PSETEX k _ b => (tt, <[k := (b, true)]> m)
  | PEXPIRE k _ => (removed (m !! k), alter (fun p => (p.1, true)) k m)
  | DEL k => (removed (m !! k), delete k m)
  | DELS ks => (tt, drop_all ks m)
  | SelfHeal k b => (0, partial_alter (dropped_if b) k m)
  | SCAN _ pattern _ => ((0, filter (fun k => glob_match pattern k = true) (map_to_list m).*1), m)
  | Pipe q r => let '(a, m) := answer q m in (a, (answer r m).2)
  end.

#[export] Instance toy : Redis Srv Settings Bytes unit unit unit := {
  pool_get := fun w => (Some (Ok tt), w);
  query A q := with_write 0 (fun '(m, w) => let '(a, m) := answer q m in (Done (Ok a), (m, w))) }.

Lemma tried_comes k f (srv srv' : Srv) (m : Map string (Bytes * bool)) : may_hold 0 srv m ->
  srv' = partial_alter (fun _ => f (srv !! k)) k srv ->
  exists m', comes_to L (tried (RedisError := unit) (on_key k f)) m (Ok (srv !! k)) m' /\ may_hold 0 srv' m'.
Proof.
  intros Hm ->. exists (put k (f (srv !! k)) m). split.
  - eapply comes_to_bind; [by apply (comes_to_choose L _ Works)|]. eapply comes_to_bind; [|apply comes_to_ret].
    apply (comes_to_op L _ _ (srv !! k)). eexists. split; [|done]. split; [by apply (Hm k)|done].
  - intros s _. unfold put. simpl. unfold contents, toy_view, id. case_bool_decide as Hk.
    + subst s. left. by rewrite lookup_partial_alter_eq.
    + rewrite lookup_partial_alter_ne by done. by apply (Hm s).
Qed.

Lemma answer_comes {A} (q : Request Bytes A) : forall (srv : Srv) m, may_hold 0 srv m ->
  exists m', comes_to L (request_spec (RedisError := unit) q) m (Ok (answer q srv).1) m' /\ may_hold 0 (answer q srv).2 m'.
Proof.
  assert (forall B (h : option (Bytes * bool) -> B) k f (srv srv' : Srv) m, may_hold 0 srv m -> srv' = partial_alter (fun _ => f (srv !! k)) k srv ->
    exists m', comes_to L (let^ r := tried (RedisError := unit) (on_key k f) in sret (map_ok h r)) m (Ok (h (srv !! k))) m' /\ may_hold 0 srv' m') as Hop.
  { intros B h k f srv srv' m Hm E. destruct (tried_comes k f srv srv' m Hm E) as (m' & Hc & Hm'). exists m'. split; [|done].
    eapply comes_to_bind; [exact Hc|apply comes_to_ret]. }
  induction q as [k|k b|k ms b|k ms|k|ks|k b|cu pat n|A B q IHq r IHr]; intros srv m Hm; cbn [answer request_spec fst snd].
  - apply (Hop _ (fmap fst) k id); [done|]. symmetry. apply map_eq. intros s. unfold id.
    destruct (decide (s = k)) as [->|Hk]; [by rewrite lookup_partial_alter_eq|by rewrite lookup_partial_alter_ne].
  - by apply (Hop _ (fun _ => tt) k (fun _ => Some (b, false)) srv).
  - by apply (Hop _ (fun _ => tt) k (fun _ => Some (b, true)) srv).
  - apply (Hop _ removed k volatile); [done|]. apply map_eq. intros s. destruct (decide (s = k)) as [->|Hk].
    + by rewrite lookup_alter_eq, lookup_partial_alter_eq.
    + by rewrite lookup_alter_ne, lookup_partial_alter_ne by done.
  - by apply (Hop _ removed k (fun _ => None)).
  - exists (fun s => if bool_decide (s ∈ ks) then None else m s). split.
    + eapply (comes_to_bind L _ _ _ (Ok None)); [|apply comes_to_ret].
      eapply comes_to_bind; [by apply (comes_to_choose L _ Works)|].
      eapply comes_to_bind; [by apply (comes_to_op L _ _ None)|apply comes_to_ret].
    + intros s _. unfold contents, toy_view, id, drop_all. case_bool_decide as Hs.
      * left. apply map_lookup_filter_None. right. intros e _ Hn. by apply Hn.
      * destruct (Hm s eq_refl) as [Hv|[Hv He]]; [left|right; split; [|done]].
        { unfold contents, toy_view, id in Hv. rewrite <- Hv. destruct (srv !! s) as [e|] eqn:E.
          - by apply map_lookup_filter_Some.
          - apply map_lookup_filter_None. by left. }
        apply map_lookup_filter_None. by left.
  - destruct (tried_comes k (dropped_if b) srv (partial_alter (dropped_if b) k srv) m Hm) as (m' & Hc & Hm').
    { apply map_eq. intros s. destruct (decide (s = k)) as [->|Hk]; [by rewrite !lookup_partial_alter_eq|by rewrite !lookup_partial_alter_ne]. }
    exists m'. split; [|done]. eapply comes_to_bind; [exact Hc|]. eapply comes_to_bind; [by apply (comes_to_choose L _ 0)|apply comes_to_ret].
  - exists m. split; [|done]. apply comes_to_choose. apply Forall_forall. intros s [Hs _]%list_elem_of_filter. exact Hs.
  - destruct (answer q srv) as [a srv1] eqn:Eq. destruct (IHq srv m Hm) as (m1 & H1 & Hm1). rewrite Eq in H1, Hm1.
    destruct (IHr srv1 m1 Hm1) as (m2 & H2 & Hm2). exists m2. split; [|done].
    eapply comes_to_bind; [exact H1|]. eapply comes_to_bind; [exact H2|apply comes_to_ret].
Qed.

#[export] Instance toy_laws : RedisLaws Srv Bytes unit unit unit.
Proof.
  split. intros A q. apply (meets_write L); [simpl; lia|]. intros srv m w Hm.
  destruct (answer_comes q srv m Hm) as (m' & Hc & Hm'). unfold wp. destruct (answer q srv) as [a srv'].
  exists m'. split_and!; [exact Hm'|by intros [|j] s Hj|exact Hc].
Qed.

#[export] Instance toy_scan : ScanLaws (Srv := Srv) (Bytes := Bytes) (PoolError := unit) (RedisError := unit) (W := unit).
Proof.
  refine {| pending _ _ _ _ := True; rank _ _ _ := 0%nat |}; try done.
  - intros g cs srv pattern cursor w. unfold wp. cbn. exists srv. split; [done|]. split; [by intros s _; left|].
    split; [apply Forall_forall; by intros s [Hs _]%list_elem_of_filter|]. split; [|by left].
    intros s [e He] Hg _. left. apply list_elem_of_filter. split; [done|]. apply list_elem_of_fmap. exists (s, e).
    split; [done|]. by apply elem_of_map_to_list.
  - intros g cs srv ks w. unfold wp. cbn. exists (drop_all ks srv). split; [done|]. unfold drop_all. split_and!; try done.
    + intros s Hs. left. unfold contents, toy_view, id. destruct (srv !! s) as [e|] eqn:E.
      * by apply map_lookup_filter_Some.
      * apply map_lookup_filter_None. by left.
    + intros u _ s Hs. apply map_lookup_filter_None. right. intros e _ Hn. by apply Hn.
Defined.

(** *** The claims at that server *)

#[local] Instance toy_strings : ToString string := { to_string := id }.

#[local] Instance toy_format : Format (CachedRedisValue Z) Bytes unit unit := {
  to_vec x := if (0 <=? value x) && bool_decide (version x = Some 1) then Ok (Some (value x)) else Err tt;
  from_slice b := match b with Some v => Ok (new_value v) | None => Err tt end }.

#[local] Instance toy_format_laws : FormatLaws (CachedRedisValue Z) Bytes unit unit.
Proof.
  split. intros [v n] b. simpl. destruct (0 <=? v); [simpl|done]. case_bool_decide as E; [|done]. intros [= <-]. simpl. by rewrite E.
Qed.

#[local] Instance toy_json : Json (CachedRedisValue Z) Bytes := {|
  json := unit; json_from_slice _ := None; json_get _ _ := None; json_of _ := tt; json_eqb _ _ := true; json_from_value _ := None |}.

Definition users : RedisCache := mkRedis "app:" "users" false.
Definition refreshing : Settings := mkSettings 5000000 true.

(** An entry of the cache, a corrupt one, and one of another cache. *)
Definition three : Srv := <["app:users:a" := (Some 1, false)]> (<["app:users:b" := (None, true)]> {["app:users2:a" := (Some (-1), false)]}).

Notation Toy_error := (RedisCacheError Bytes unit unit unit unit).

Example toy_get : exists m,
  exec (try* v := (get_with pool_get users "a" : Prog Srv Settings unit (result Toy_error (option Z))) in
        try* w := get_with pool_get users "b" in Ret (Ok (v, w)))
    (memory_over refreshing (mkCounters 0 0 0) three, tt) = (Done (Ok (Some 1, None)), m).
Proof. by eexists. Qed.

Lemma redis_serves_witness :
  implements L (redis_call (K := string) (V := Z) (SerError := unit) (DeError := unit) pool_get 2 users)
    (fun q => redis_call_spec (PoolError := unit) (RedisError := unit) 2 users q _ (fun r => Returns (eq r)))
    (mkMemory [new_shard three] refreshing) (fun s => contents three !! s).
Proof. exact (redis_serves pool_get 2 users three refreshing). Defined.

Definition positive (s : string) (v : Z) : Prop := 0 <= v.

Lemma three_fits s e : contents three !! key_of users s = Some e ->
  fits (PoolError := unit) (RedisError := unit) (SerError := unit) (DeError := unit) positive s e.1.
Proof.
  unfold contents, toy_view, id, three. rewrite !lookup_insert_Some, lookup_singleton_Some.
  intros [[_ <-]|[_ [[_ <-]|[_ [E _]]]]]; simpl; unfold fits, deserialize_cached_redis_value; simpl.
  - by intros v [= <-].
  - done.
  - exfalso. assert (key_fields "app:users2:a" = key_fields (key_of users s)) as H by (by rewrite E).
    unfold key_of, key_fields, generate_redis_key, join_key_fields in H.
    rewrite !escape_key_field_chars, !split_escaped, !unescape_escape in H. by vm_compute in H.
Qed.

Lemma redis_sound_witness : (forall s, ~ in_scope users s -> contents three !! s = contents three !! s) /\ forall w g,
  reachable (fun q : {q | allowed positive q} =>
      let* r := redis_call (K := string) (V := Z) (SerError := unit) (DeError := unit) pool_get 2 users (proj1_sig q) in Ret (proj1_sig q, r))
    (mkMemory [new_shard three] refreshing) w g ->
  (forall t q r, threads g !! t = Some (Ret (q, r)) -> replied positive q r) /\
  forall i sh, shards (memory g) !! i = Some sh ->
    forall s, ~ in_scope users s -> may_be (contents three !! s) (contents (content sh) !! s).
Proof.
  split; [done|]. intros w g Hr.
  exact (redis_sound pool_get 2 users positive (fun s => contents three !! s) three refreshing w g three_fits (fun s _ => eq_refl) Hr).
Defined.

Lemma redis_clear_alone_witness :
  wp (exec (clear_with pool_get 1 users))
    (fun (r : result Toy_error unit) st => exists srv', st.1 = memory_over refreshing (mkCounters 0 0 0) srv' /\
       only_expired (fun s => ~ in_scope users s) three srv' /\ (r = Ok tt -> forall k, contents srv' !! key_of users k = None))
    (fun _ => False) (memory_over refreshing (mkCounters 0 0 0) three, tt).
Proof.
  apply (redis_clear_alone refreshing (mkCounters 0 0 0) pool_get 1 users three tt); [intros w; by eexists _, w|exact Nat.lt_0_1].
Defined.
End Toy.
