(* ===== verification/RedisBuild.v ===== *)
(** * Building the redis stores ([src/stores/redis.rs])

    The builders of [RedisCache] and [AsyncRedisCache], with the optional features compiled in.  What
    they promise: configuration is checked before anything is contacted - but not the settings of the pool,
    at which [r2d2] may panic -, and no error carries the connection string, or an error of the client
    library, which may quote it. *)
From stdpp Require Import strings.
From Stdlib Require Import Ascii.
From S2P Require Import Prelude Keys Stores Shards External RedisKeys Redis.

(** ** The outside *)

(** [std::env::VarError] *)
Inductive VarError : Type := NotPresent | NotUnicode (raw : string).

Record PoolSettings : Type := mkPool {
  max_size : option Z; min_idle : option Z; max_lifetime : option Z; idle_timeout : option Z; connection_timeout : option Z }.

(** [std::env::var], and the calls on the client libraries: their errors may say anything, and the builder of
    [r2d2] may panic. *)
Class RedisClient (Client Info Conn E W PB : Type) : Type := {
  env_var : string -> ST W (result VarError string);
  client_open : string -> ST W (result E Client);
  pool_builder : PB;                                             (** [r2d2::Pool::builder()] *)
  pool_max_size : Z -> PB -> ST W PB;
  pool_min_idle : option Z -> PB -> ST W PB;
  pool_max_lifetime : option Z -> PB -> ST W PB;
  pool_idle_timeout : option Z -> PB -> ST W PB;
  pool_connection_timeout : Z -> PB -> ST W PB;
  pool_build : PB -> Client -> ST W (result E Conn);
  into_connection_info : string -> result E Info;
  client_open_resp3 : Info -> ST W (result E Client);
  get_multiplexed : bool -> Client -> ST W (result E Conn);        (** with client-side caching, or not *)
  new_manager : bool -> Client -> ST W (result E Conn) }.

(** ** Errors *)

Inductive ErrorKind : Type := InvalidClientConfig | Io.

(** A [redis::RedisError] that this crate makes. *)
Record RedisErrorHere : Type := mkRedisError { kind : ErrorKind; detail : string }.

Inductive RedisCacheBuildError : Type :=
| Connection (source : RedisErrorHere)
| PoolError (source : RedisErrorHere)
| Build (e : BuildError)
| MissingConnectionString (env_key : string) (error : VarError)
| Resp2DowngradeWithClientSideCaching.

Definition sanitize_var_error (e : VarError) : VarError :=
  match e with NotPresent => NotPresent | NotUnicode _ => NotUnicode "[REDACTED connection string]" end.

(** ** [RedisCacheBuilder] *)

Definition ENV_KEY : string := "CACHED_REDIS_CONNECTION_STRING".
Definition DEFAULT_NAMESPACE : string := "cached-redis-store:".

Record RedisCacheBuilder : Type := mkBuilder {
  b_ttl : option Z; b_refresh : bool; b_namespace : string; b_prefix : option string;
  b_connection_string : option string; b_pool : PoolSettings; b_strict : bool }.

Definition builder_new : RedisCacheBuilder := mkBuilder None false DEFAULT_NAMESPACE None None (mkPool None None None None None) false.
Definition builder_ttl (t : Z) (b : RedisCacheBuilder) : RedisCacheBuilder :=
  mkBuilder (Some t) (b_refresh b) (b_namespace b) (b_prefix b) (b_connection_string b) (b_pool b) (b_strict b).
Definition builder_ttl_secs (secs : Z) : RedisCacheBuilder -> RedisCacheBuilder := builder_ttl (from_secs secs).
Definition builder_ttl_millis (ms : Z) : RedisCacheBuilder -> RedisCacheBuilder := builder_ttl (from_millis ms).
Definition builder_refresh_on_hit (r : bool) (b : RedisCacheBuilder) : RedisCacheBuilder :=
  mkBuilder (b_ttl b) r (b_namespace b) (b_prefix b) (b_connection_string b) (b_pool b) (b_strict b).
Definition builder_namespace (n : string) (b : RedisCacheBuilder) : RedisCacheBuilder :=
  mkBuilder (b_ttl b) (b_refresh b) n (b_prefix b) (b_connection_string b) (b_pool b) (b_strict b).
Definition builder_prefix (p : string) (b : RedisCacheBuilder) : RedisCacheBuilder :=
  mkBuilder (b_ttl b) (b_refresh b) (b_namespace b) (Some p) (b_connection_string b) (b_pool b) (b_strict b).
Definition builder_connection_string (cs : string) (b : RedisCacheBuilder) : RedisCacheBuilder :=
  mkBuilder (b_ttl b) (b_refresh b) (b_namespace b) (b_prefix b) (Some cs) (b_pool b) (b_strict b).
Definition builder_strict_deserialization (s : bool) (b : RedisCacheBuilder) : RedisCacheBuilder :=
  mkBuilder (b_ttl b) (b_refresh b) (b_namespace b) (b_prefix b) (b_connection_string b) (b_pool b) s.

Definition with_pool (f : PoolSettings -> PoolSettings) (b : RedisCacheBuilder) : RedisCacheBuilder :=
  mkBuilder (b_ttl b) (b_refresh b) (b_namespace b) (b_prefix b) (b_connection_string b) (f (b_pool b)) (b_strict b).
Definition connection_pool_max_size (n : Z) : RedisCacheBuilder -> RedisCacheBuilder :=
  with_pool (fun p => mkPool (Some n) (min_idle p) (max_lifetime p) (idle_timeout p) (connection_timeout p)).
Definition connection_pool_min_idle (n : Z) : RedisCacheBuilder -> RedisCacheBuilder :=
  with_pool (fun p => mkPool (max_size p) (Some n) (max_lifetime p) (idle_timeout p) (connection_timeout p)).
Definition connection_pool_max_lifetime (d : Z) : RedisCacheBuilder -> RedisCacheBuilder :=
  with_pool (fun p => mkPool (max_size p) (min_idle p) (Some d) (idle_timeout p) (connection_timeout p)).
Definition connection_pool_idle_timeout (d : Z) : RedisCacheBuilder -> RedisCacheBuilder :=
  with_pool (fun p => mkPool (max_size p) (min_idle p) (max_lifetime p) (Some d) (connection_timeout p)).
Definition connection_pool_connection_timeout (d : Z) : RedisCacheBuilder -> RedisCacheBuilder :=
  with_pool (fun p => mkPool (max_size p) (min_idle p) (max_lifetime p) (idle_timeout p) (Some d)).

(** [RedisCache::builder] *)
Definition redis_builder (prefix : string) : RedisCacheBuilder := builder_prefix prefix builder_new.

Definition EMPTY_PREFIX : string :=
  "prefix must be non-empty: it is what scopes cache_clear to this cache; with an empty prefix cache_clear would delete every key under the namespace".

Section Build.
Context {Client Info Conn E W PB : Type} `{!RedisClient Client Info Conn E W PB}.
Notation Net A := (ST W (result RedisCacheBuildError A)).

(** [.map_err(|_| e)?] *)
Definition or_error {E A} (m : ST W (result E A)) (e : RedisCacheBuildError) : Net A :=
  let! r := m in ret (map_err (fun _ => e) r).

Definition resolve_connection_string (given : option string) : Net string :=
  match given with
  | Some s => ret (Ok s)
  | None => let! r := env_var ENV_KEY in ret (map_err (fun e => MissingConnectionString ENV_KEY (sanitize_var_error e)) r)
  end.

Definition no_client : RedisCacheBuildError :=
  Connection (mkRedisError InvalidClientConfig "failed to open redis client (connection string redacted)").
Definition no_pool : RedisCacheBuildError :=
  PoolError (mkRedisError Io "failed to establish initial redis pool connection (connection string redacted)").

(** [if let Some(x) = setting { pool_builder.set(x) } else { pool_builder }] *)
Definition if_set (setting : option Z) (set : Z -> PB -> ST W PB) (p : PB) : ST W PB :=
  match setting with Some x => set x p | None => ret p end.

Definition configured (s : PoolSettings) : ST W PB :=
  let! p := if_set (max_size s) pool_max_size pool_builder in
  let! p := if_set (min_idle s) (fun n => pool_min_idle (Some n)) p in
  let! p := if_set (max_lifetime s) (fun d => pool_max_lifetime (Some d)) p in
  let! p := if_set (idle_timeout s) (fun d => pool_idle_timeout (Some d)) p in
  if_set (connection_timeout s) pool_connection_timeout p.

Definition create_pool (b : RedisCacheBuilder) : Net Conn :=
  try! s := resolve_connection_string (b_connection_string b) in
  try! client := or_error (client_open s) no_client in
  let! p := configured (b_pool b) in
  or_error (pool_build p client) no_pool.

(** The checks that come first; the ttl of the store, zero if there is none. *)
Definition checked (prefix : option string) (ttl : option Z) : result RedisCacheBuildError (string * Z) :=
  match prefix with
  | None => Err (Build (MissingRequired "prefix"))
  | Some p =>
      match match ttl with Some t => match validate_ttl t with Ok _ => Ok t | Err e => Err (Build e) end | None => Ok 0 end with
      | Err e => Err e
      | Ok t => if bool_decide (p = "") then Err (Build (InvalidValue "prefix" EMPTY_PREFIX)) else Ok (p, t)
      end
  end.

(** The store, its settings, its connections, and its connection string. *)
Definition build (b : RedisCacheBuilder) : Net (RedisCache * Settings * Conn * string) :=
  match checked (b_prefix b) (b_ttl b) with
  | Err e => ret (Err e)
  | Ok (prefix, ttl) =>
      try! connection_string := resolve_connection_string (b_connection_string b) in
      try! pool := create_pool b in
      ret (Ok (mkRedis (b_namespace b) prefix (b_strict b), mkSettings ttl (b_refresh b), pool, connection_string))
  end.
End Build.

(** ** [AsyncRedisCacheBuilder] *)

Record AsyncRedisCacheBuilder : Type := mkAsyncBuilder {
  a_builder : RedisCacheBuilder;      (** its pool settings are not used *)
  a_client_side_caching : bool;
  a_connection_manager : bool }.

Definition async_builder_new : AsyncRedisCacheBuilder := mkAsyncBuilder builder_new false false.
Definition client_side_caching (e : bool) (b : AsyncRedisCacheBuilder) : AsyncRedisCacheBuilder :=
  mkAsyncBuilder (a_builder b) e (a_connection_manager b).
Definition connection_manager (e : bool) (b : AsyncRedisCacheBuilder) : AsyncRedisCacheBuilder :=
  mkAsyncBuilder (a_builder b) (a_client_side_caching b) e.

(** [str::split] at a character. *)
Fixpoint split (c : char) (s : string) : list string :=
  match s with
  | "" => [""]
  | String a s =>
      if decide (a = c) then "" :: split c s
      else match split c s with h :: t => String a h :: t | [] => [String a ""] end
  end.

(** [str::strip_prefix] *)
Fixpoint strip_prefix (p s : string) : option string :=
  match p with
  | "" => Some s
  | String a p => match s with String b s => if decide (a = b) then strip_prefix p s else None | "" => None end
  end.

(** The first pair that names the protocol decides. *)
Fixpoint pins_resp2 (pairs : list string) : bool :=
  match pairs with
  | [] => false
  | field :: pairs =>
      match strip_prefix "protocol=" field with
      | Some v => bool_decide (v = "resp2") || bool_decide (v = "2")
      | None => pins_resp2 pairs
      end
  end.

Definition url_pins_resp2 (s : string) : bool :=
  match split "?"%char s !! 1%nat with Some query => pins_resp2 (split "&"%char query) | None => false end.

Section AsyncBuild.
Context {Client Info Conn E W PB : Type} `{!RedisClient Client Info Conn E W PB}.
Notation Net A := (ST W (result RedisCacheBuildError A)).

Definition no_info : RedisCacheBuildError :=
  Connection (mkRedisError InvalidClientConfig "failed to parse redis connection info (connection string redacted)").
Definition no_connection : RedisCacheBuildError :=
  Connection (mkRedisError Io "failed to establish redis connection (connection string redacted)").

(** [create_multiplexed_connection] and [create_connection_manager], which differ in [connect]. *)
Definition create_with (connect : bool -> Client -> ST W (result E Conn)) (b : AsyncRedisCacheBuilder) : Net Conn :=
  try! s := resolve_connection_string (b_connection_string (a_builder b)) in
  if a_client_side_caching b then
    if url_pins_resp2 s then ret (Err Resp2DowngradeWithClientSideCaching)
    else
      try! info := or_error (ret (into_connection_info s)) no_info in
      try! client := or_error (client_open_resp3 info) no_client in
      or_error (connect true client) no_connection
  else
    try! client := or_error (client_open s) no_client in
    or_error (connect false client) no_connection.

Definition create_multiplexed_connection : AsyncRedisCacheBuilder -> Net Conn := create_with get_multiplexed.
Definition create_connection_manager : AsyncRedisCacheBuilder -> Net Conn := create_with new_manager.

Definition create_connection (b : AsyncRedisCacheBuilder) : Net Conn :=
  if a_connection_manager b then create_connection_manager b else create_multiplexed_connection b.

Definition async_build (a : AsyncRedisCacheBuilder) : Net (RedisCache * Settings * Conn * string) :=
  let b := a_builder a in
  match checked (b_prefix b) (b_ttl b) with
  | Err e => ret (Err e)
  | Ok (prefix, ttl) =>
      try! connection_string := resolve_connection_string (b_connection_string b) in
      try! connection := create_connection a in
      ret (Ok (mkRedis (b_namespace b) prefix (b_strict b), mkSettings ttl (b_refresh b), connection, connection_string))
  end.
End AsyncBuild.

(** ** What a build may return *)

(** Every error of a build: none says anything that was not written in this crate. *)
Definition build_errors : list RedisCacheBuildError :=
  [ Build (MissingRequired "prefix"); Build (InvalidValue "ttl" "must be greater than zero");
    Build (InvalidValue "prefix" EMPTY_PREFIX);
    MissingConnectionString ENV_KEY NotPresent; MissingConnectionString ENV_KEY (NotUnicode "[REDACTED connection string]");
    no_client; no_pool; no_info; no_connection; Resp2DowngradeWithClientSideCaching ].

(** What the builder of [r2d2] knows of the sizes. *)
Class PoolView (PB : Type) : Type := { limit : PB -> Z; idle : PB -> option Z }.

Definition fits `{!PoolView PB} (p : PB) : bool := match idle p with Some n => n <=? limit p | None => true end.

(** A setter of the builder of [r2d2] that changes the sizes to [q] of them, and panics for a [bad] setting. *)
Definition pool_setter {W PB X} `{!PoolView PB} (set : X -> PB -> ST W PB) (bad : X -> Prop) (q : X -> PB -> Z * option Z) : Prop :=
  forall x p w, (bad x -> set x p w = (Unwind, w)) /\
    (~ bad x -> exists p', set x p w = (Done p', w) /\ (limit p', idle p') = q x p).

(** The client libraries return; [r2d2] panics as it documents: for sizes and times of zero, and where more
    connections are to be kept idle than there may be. *)
Class ClientLaws {Client Info Conn E W PB : Type} `{!PoolView PB} (cl : RedisClient Client Info Conn E W PB) : Prop := {
  env_var_returns : forall k w, exists r w', env_var k w = (Done r, w');
  client_open_returns : forall s w, exists r w', client_open s w = (Done r, w');
  builder_sizes : limit pool_builder = 10 /\ idle pool_builder = None;
  max_size_sets : pool_setter pool_max_size (fun n => n = 0) (fun n p => (n, idle p));
  min_idle_sets : pool_setter pool_min_idle (fun _ => False) (fun n p => (limit p, n));
  max_lifetime_sets : pool_setter pool_max_lifetime (fun d => d = Some 0) (fun _ p => (limit p, idle p));
  idle_timeout_sets : pool_setter pool_idle_timeout (fun d => d = Some 0) (fun _ p => (limit p, idle p));
  connection_timeout_sets : pool_setter pool_connection_timeout (fun d => d = 0) (fun _ p => (limit p, idle p));
  pool_build_returns : forall p c w, fits p = true -> exists r w', pool_build p c w = (Done r, w');
  pool_build_panics : forall p c w, fits p = false -> pool_build p c w = (Unwind, w);
  client_open_resp3_returns : forall i w, exists r w', client_open_resp3 i w = (Done r, w');
  get_multiplexed_returns : forall b c w, exists r w', get_multiplexed b c w = (Done r, w');
  new_manager_returns : forall b c w, exists r w', new_manager b c w = (Done r, w') }.

Definition not_zero (setting : option Z) : bool := match setting with Some x => negb (x =? 0) | None => true end.

(** The settings [r2d2] takes: ten connections if nothing is said. *)
Definition no_zeros (s : PoolSettings) : bool :=
  not_zero (max_size s) && not_zero (max_lifetime s) && not_zero (idle_timeout s) && not_zero (connection_timeout s).
Definition valid_pool (s : PoolSettings) : bool :=
  no_zeros s && match min_idle s with Some n => n <=? default 10 (max_size s) | None => true end.

Section Promise.
Context {Client Info Conn E W PB : Type} `{!PoolView PB} {cl : RedisClient Client Info Conn E W PB} {laws : ClientLaws cl}.
Notation Net A := (ST W (result RedisCacheBuildError A)).

(** [m] returns, or it panics and [P]: a success satisfies [Q], and an error is one of those. *)
Definition redacts {A} (P : Prop) (m : Net A) (Q : A -> Prop) : Prop :=
  forall w, wp m (fun r _ => match r with Ok a => Q a | Err e => e ∈ build_errors end) (fun _ => P) w.

Lemma redacts_ret {A} P (r : result RedisCacheBuildError A) (Q : A -> Prop) :
  match r with Ok a => Q a | Err e => e ∈ build_errors end -> redacts P (ret r) Q.
Proof. intros H w. by apply wp_ret. Qed.

Lemma redacts_try {A B} P (m : Net A) (k : A -> Net B) (Q1 : A -> Prop) Q :
  redacts P m Q1 -> (forall a, Q1 a -> redacts P (k a) Q) -> redacts P (try! a := m in k a) Q.
Proof. intros Hm Hk w. apply wp_bind. eapply wp_mono; [apply Hm| |done]. intros [a|e] w' Ha; [by apply Hk|by apply wp_ret]. Qed.

Ltac listed := apply (bool_decide_unpack _); vm_compute; exact I.

#[local] Instance build_error_dec : EqDecision RedisCacheBuildError.
Proof. intros a b. unfold Decision. repeat decide equality. Defined.

Lemma redacts_mono {A} P (m : Net A) (Q Q' : A -> Prop) : redacts P m Q -> (forall a, Q a -> Q' a) -> redacts P m Q'.
Proof. intros Hm HQ w. eapply wp_mono; [apply Hm| |done]. intros [a|e] _; [apply HQ|done]. Qed.

Lemma redacts_or {E' A} P (m : ST W (result E' A)) e : (forall w, exists r w', m w = (Done r, w')) -> e ∈ build_errors ->
  redacts P (or_error m e) (fun _ => True).
Proof. intros Hm He w. apply wp_bind. destruct (Hm w) as (r & w' & E0). eapply wp_run; [exact E0|]. apply wp_ret. by destruct r. Qed.

Lemma resolve_redacts P given : redacts P (resolve_connection_string (RedisClient0 := cl) given) (fun s => forall g, given = Some g -> s = g).
Proof.
  destruct given as [s|]; [apply redacts_ret; by intros g [= ->]|]. intros w. apply wp_bind.
  destruct (env_var_returns ENV_KEY w) as (r & w' & E0). eapply wp_run; [exact E0|]. apply wp_ret.
  destruct r as [s|[|raw]]; [done|listed|listed].
Qed.

(** What a store that is built was asked to be. *)
Definition as_asked (b : RedisCacheBuilder) (r : RedisCache * Settings * Conn * string) : Prop :=
  let '(c, g, _, s) := r in
  b_prefix b = Some (prefix c) /\ prefix c <> "" /\ namespace c = b_namespace b /\ strict_deserialization c = b_strict b /\
  refresh g = b_refresh b /\ b_ttl b <> Some 0 /\ ttl g = default 0 (b_ttl b) /\ forall given, b_connection_string b = Some given -> s = given.

Lemma checked_ok b p t : checked (b_prefix b) (b_ttl b) = Ok (p, t) ->
  b_prefix b = Some p /\ p <> "" /\ b_ttl b <> Some 0 /\ t = default 0 (b_ttl b).
Proof.
  unfold checked, validate_ttl. destruct (b_prefix b) as [q|]; [|done]. destruct (b_ttl b) as [s|].
  - destruct (Z.eqb_spec s 0) as [|Hs]; [done|]. case_bool_decide as Hq; [done|]. intros [= -> ->]. split_and!; simpl; congruence.
  - case_bool_decide as Hq; [done|]. by intros [= -> ->].
Qed.

Lemma checked_err b e : checked (b_prefix b) (b_ttl b) = Err e -> e ∈ build_errors.
Proof.
  unfold checked, validate_ttl. destruct (b_prefix b) as [q|]; [|intros [= <-]; listed]. destruct (b_ttl b) as [s|].
  - destruct (Z.eqb_spec s 0) as [|Hs]; [intros [= <-]; listed|]. case_bool_decide as Hq; [intros [= <-]; listed|done].
  - case_bool_decide as Hq; [intros [= <-]; listed|done].
Qed.

(** Both builders, by how they connect. *)
Lemma build_redacts P (Q : Prop) b (create : Net Conn) : redacts P create (fun _ => Q) ->
  redacts P (match checked (b_prefix b) (b_ttl b) with
           | Err e => ret (Err e)
           | Ok (prefix, ttl) =>
               try! connection_string := resolve_connection_string (b_connection_string b) in
               try! connection := create in
               ret (Ok (mkRedis (b_namespace b) prefix (b_strict b), mkSettings ttl (b_refresh b), connection, connection_string))
           end) (fun r => as_asked b r /\ Q).
Proof.
  intros Hc. destruct (checked _ _) as [[p t]|e] eqn:Ec; [|apply redacts_ret; by eapply checked_err].
  apply checked_ok in Ec as (Hp & Hne & Ht & ->). eapply redacts_try; [apply resolve_redacts|]. intros s Hs.
  eapply redacts_try; [exact Hc|]. intros conn HQ. by apply redacts_ret.
Qed.

Lemma create_with_redacts connect a : (forall b c w, exists r w', connect b c w = (Done r, w')) ->
  redacts False (create_with (RedisClient0 := cl) connect a) (fun _ => True).
Proof.
  intros Hc. eapply redacts_try; [apply resolve_redacts|]. intros s _. destruct (a_client_side_caching a).
  - destruct (url_pins_resp2 s); [apply redacts_ret; listed|].
    eapply redacts_try; [apply redacts_or; [by intros w; eexists _, w|listed]|]. intros i _.
    eapply redacts_try; [apply redacts_or; [intros w; apply client_open_resp3_returns|listed]|]. intros client _.
    apply redacts_or; [apply Hc|listed].
  - eapply redacts_try; [apply redacts_or; [intros w; apply client_open_returns|listed]|]. intros client _.
    apply redacts_or; [apply Hc|listed].
Qed.

(** One setter, and what it leaves to the next. *)
Lemma set_then {X} (o : option Z) (set : Z -> PB -> ST W PB) (bad : Z -> Prop) q p (k : PB -> ST W X) w : pool_setter set bad q ->
  (forall x, bad x <-> x = 0) ->
  if not_zero o
  then exists p', (let! p := if_set o set p in k p) w = k p' w /\ (limit p', idle p') = match o with Some x => q x p | None => (limit p, idle p) end
  else (let! p := if_set o set p in k p) w = (Unwind, w).
Proof.
  intros H Hb. destruct o as [x|]; simpl; [|by exists p]. destruct (H x p w) as [H1 H2]. unfold bind.
  destruct (Z.eqb_spec x 0) as [Hx|Hx]; simpl; [by rewrite H1 by (by apply Hb)|].
  destruct H2 as (p' & -> & Hp); [by rewrite Hb|]. by exists p'.
Qed.

(** A setter that changes no size. *)
Lemma time_then {X} (o : option Z) (set : Z -> PB -> ST W PB) (bad : Z -> Prop) p (k : PB -> ST W X) w :
  pool_setter set bad (fun _ p => (limit p, idle p)) -> (forall x, bad x <-> x = 0) ->
  if not_zero o then exists p', (let! p := if_set o set p in k p) w = k p' w /\ limit p' = limit p /\ idle p' = idle p
  else (let! p := if_set o set p in k p) w = (Unwind, w).
Proof.
  intros H Hb. pose proof (set_then o set bad _ p k w H Hb) as Hs. destruct (not_zero o); [|done].
  destruct Hs as (p' & Hrun & Hp). exists p'. split; [done|]. destruct o; by injection Hp.
Qed.

(** The setters of an optional setting. *)
Lemma optional_setter (set : option Z -> PB -> ST W PB) bad q : pool_setter set bad q -> pool_setter (fun x => set (Some x)) (fun x => bad (Some x)) (fun x => q (Some x)).
Proof. intros H x. apply H. Qed.

Lemma some_zero (x : Z) : Some x = Some 0 <-> x = 0.
Proof. split; congruence. Qed.

Ltac next_setter o f H :=
  match goal with |- context [bind (if_set o _ _) ?k _] => pose proof (f k) as H end.

Lemma configured_runs s {X} (k : PB -> ST W X) w :
  if no_zeros s
  then exists p, (let! p := configured (RedisClient0 := cl) s in k p) w = k p w /\ limit p = default 10 (max_size s) /\ idle p = min_idle s
  else (let! p := configured (RedisClient0 := cl) s in k p) w = (Unwind, w).
Proof.
  unfold configured, no_zeros. destruct builder_sizes as [L0 I0]. rewrite bind_assoc.
  next_setter (max_size s) (fun k : PB -> ST W X => set_then (max_size s) pool_max_size _ _ pool_builder k w max_size_sets (fun _ => iff_refl _)) H1.
  destruct (not_zero (max_size s)); [|exact H1]. destruct H1 as (p1 & -> & S1).
  rewrite bind_assoc. 
  assert (exists p2, if_set (min_idle s) (fun n => pool_min_idle (Some n)) p1 w = (Done p2, w) /\
    limit p2 = limit p1 /\ idle p2 = match min_idle s with Some n => Some n | None => idle p1 end) as (p2 & E2 & L2 & I2).
  { destruct (min_idle s) as [n|]; [|by exists p1]. destruct (min_idle_sets (Some n) p1 w) as [_ H].
    destruct H as (p2 & E2 & [= L2 I2]); [by intros []|]. by exists p2. }
  rewrite (bind_run _ _ _ _ _ E2), bind_assoc.
  next_setter (max_lifetime s) (fun k : PB -> ST W X => time_then (max_lifetime s) _ _ p2 k w (optional_setter _ _ _ max_lifetime_sets) some_zero) H3.
  destruct (not_zero (max_lifetime s)); [|exact H3]. destruct H3 as (p3 & -> & L3 & I3). rewrite bind_assoc.
  next_setter (idle_timeout s) (fun k : PB -> ST W X => time_then (idle_timeout s) _ _ p3 k w (optional_setter _ _ _ idle_timeout_sets) some_zero) H4.
  destruct (not_zero (idle_timeout s)); [|exact H4]. destruct H4 as (p4 & -> & L4 & I4).
  pose proof (time_then (connection_timeout s) _ _ p4 k w connection_timeout_sets (fun _ => iff_refl _)) as H5.
  destruct (not_zero (connection_timeout s)); [|exact H5]. destruct H5 as (p5 & -> & L5 & I5).
  exists p5. split; [done|]. rewrite L5, I5, L4, I4, L3, I3, L2, I2. destruct (max_size s); injection S1 as -> ->; rewrite ?L0, ?I0; by destruct (min_idle s).
Qed.

(** The pool: it is built where the settings are valid, and where they are not there is a panic. *)
Lemma create_pool_redacts b : redacts (valid_pool (b_pool b) = false) (create_pool (RedisClient0 := cl) b) (fun _ => valid_pool (b_pool b) = true).
Proof.
  eapply redacts_try; [apply resolve_redacts|]. intros s _.
  eapply redacts_try; [apply redacts_or; [intros w; apply client_open_returns|listed]|]. intros client _ w.
  pose proof (configured_runs (b_pool b) (fun p => or_error (pool_build p client) no_pool) w) as H. unfold valid_pool.
  destruct (no_zeros (b_pool b)); [|unfold wp; by rewrite H]. destruct H as (p & Hrun & HL & HI). unfold wp. rewrite Hrun.
  assert (fits p = match min_idle (b_pool b) with Some n => n <=? default 10 (max_size (b_pool b)) | None => true end) as Hfit
    by (unfold fits; by rewrite HL, HI).
  rewrite <- Hfit. destruct (fits p) eqn:Ef.
  - destruct (pool_build_returns p client w Ef) as (r & w' & Hr). unfold or_error. rewrite (bind_run _ _ _ _ _ Hr). by destruct r; [|listed].
  - unfold or_error, bind. by rewrite pool_build_panics.
Qed.

(** It does panic. *)
Lemma create_pool_panics b client w w' s : b_connection_string b = Some s -> client_open s w = (Done (Ok client), w') ->
  valid_pool (b_pool b) = false -> create_pool (RedisClient0 := cl) b w = (Unwind, w').
Proof.
  intros Hs Hc Hv. unfold create_pool, ebind, or_error. rewrite Hs. simpl. rewrite bind_ret, bind_assoc, (bind_run _ _ _ _ _ Hc), bind_ret. simpl.
  match goal with |- bind _ ?k _ = _ => pose proof (configured_runs (b_pool b) k w') as H end. unfold valid_pool in Hv.
  destruct (no_zeros (b_pool b)); [|exact H]. destruct H as (p & Hrun & HL & HI). rewrite Hrun.
  unfold bind. rewrite pool_build_panics; [done|]. unfold fits. by rewrite HL, HI.
Qed.

(** C37: What both builders of the redis stores promise.  A store that is built has a non-empty prefix, the ttl
    asked for or none, never zero, and the other settings asked for; every error is one of ten that this crate
    spells out, so none can carry the connection string, whatever it is, whatever the environment holds and
    whatever the client library says; and client-side caching is refused for a connection string that pins the
    old protocol.  The async builder always returns; the other returns if the settings of its pool are
    ones that [r2d2] takes - no size or time of zero, and no more idle connections than connections, of which
    there are ten if nothing is said - and never builds a store with others: once the configuration is checked
    and the client is open, [r2d2] panics. *)
Theorem redis_build (b : RedisCacheBuilder) (a : AsyncRedisCacheBuilder) :
  redacts (valid_pool (b_pool b) = false) (build (RedisClient0 := cl) b) (fun r => as_asked b r /\ valid_pool (b_pool b) = true) /\
  (forall ok s client w w', checked (b_prefix b) (b_ttl b) = Ok ok -> b_connection_string b = Some s ->
     client_open s w = (Done (Ok client), w') -> valid_pool (b_pool b) = false -> build (RedisClient0 := cl) b w = (Unwind, w')) /\
  redacts False (async_build (RedisClient0 := cl) a) (fun r => as_asked (a_builder a) r) /\
  (forall given w, b_connection_string (a_builder a) = Some given -> a_client_side_caching a = true -> url_pins_resp2 given = true ->
     wp (async_build (RedisClient0 := cl) a) (fun r _ => exists e, r = Err e) (fun _ => False) w).
Proof.
  split; [|split; [|split]].
  - apply build_redacts, create_pool_redacts.
  - intros [p t] s client w w' Hc Hs Ho Hv. unfold build. rewrite Hc, Hs. unfold ebind, resolve_connection_string. rewrite bind_ret. unfold bind.
    by rewrite (create_pool_panics b client w w' s).
  - eapply redacts_mono; [apply (build_redacts False True)|by intros r [? _]]. unfold create_connection. destruct (a_connection_manager a);
      apply create_with_redacts; [apply new_manager_returns|apply get_multiplexed_returns].
  - intros given w Hg Hcsc Hpin. unfold async_build. destruct (checked _ _) as [[p t]|e]; [|apply wp_ret; by eexists].
    rewrite Hg. apply wp_bind, wp_ret, wp_bind. unfold create_connection, create_connection_manager, create_multiplexed_connection, create_with.
    rewrite Hg, Hcsc. destruct (a_connection_manager a); apply wp_bind, wp_ret; rewrite Hpin; apply wp_ret, wp_ret; by eexists.
Qed.
End Promise.

(** ** A client library that finds a server everywhere *)
Module Anywhere.

(** A builder of pools that keeps the sizes. *)
Notation PB := (Z * option Z)%type.

Definition refuse {A} (bad : bool) (p : A) : ST unit A := if bad then unwind else ret p.

#[export] Instance anywhere : RedisClient string string unit string unit PB := {
  env_var _ := ret (Err (NotUnicode "redis://:secret@host"));
  client_open s := ret (if bool_decide (s = "") then Err "no url" else Ok s);
  pool_builder := (10, None);
  pool_max_size n p := refuse (n =? 0) (n, p.2);
  pool_min_idle n p := ret (p.1, n);
  pool_max_lifetime d p := refuse (bool_decide (d = Some 0)) p;
  pool_idle_timeout d p := refuse (bool_decide (d = Some 0)) p;
  pool_connection_timeout d p := refuse (d =? 0) p;
  pool_build p _ := refuse (match p.2 with Some n => negb (n <=? p.1) | None => false end) (Ok tt);
  into_connection_info s := Ok s;
  client_open_resp3 s := ret (Ok s);
  get_multiplexed _ _ := ret (Ok tt);
  new_manager _ _ := ret (Ok tt) }.

#[export] Instance anywhere_view : PoolView PB := { limit := fst; idle := snd }.

#[export] Instance anywhere_laws : ClientLaws anywhere.
Proof.
  split; try (by intros; eexists _, _); try done.
  - intros n p w. simpl. unfold refuse. destruct (Z.eqb_spec n 0); split; try done. intros _. by eexists.
  - intros n p w. split; [done|]. intros _. by eexists.
  - intros d p w. simpl. unfold refuse. case_bool_decide; split; try done. intros _. by eexists.
  - intros d p w. simpl. unfold refuse. case_bool_decide; split; try done. intros _. by eexists.
  - intros d p w. simpl. unfold refuse. destruct (Z.eqb_spec d 0); split; try done. intros _. by eexists.
  - intros p c w. unfold fits. simpl. destruct p.2 as [n|]; [|by eexists _, _]. intros ->. by eexists _, _.
  - intros p c w. unfold fits. simpl. destruct p.2 as [n|]; [|done]. by intros ->.
Qed.

Definition pinned : AsyncRedisCacheBuilder :=
  client_side_caching true (mkAsyncBuilder (builder_connection_string "redis://h?db=1&protocol=resp2" (redis_builder "users")) false true).
Definition crowded : RedisCacheBuilder :=
  connection_pool_min_idle 20 (builder_connection_string "redis://h" (redis_builder "users")).

Example pinned_build : async_build pinned tt = (Done (Err Resp2DowngradeWithClientSideCaching), tt) /\
  (build (redis_builder "users") tt).1 = Done (Err (MissingConnectionString ENV_KEY (NotUnicode "[REDACTED connection string]"))) /\
  build crowded tt = (Unwind, tt).
Proof. by vm_compute. Qed.

Lemma redis_build_witness :
  redacts (valid_pool (b_pool crowded) = false) (build crowded) (fun r => as_asked crowded r /\ valid_pool (b_pool crowded) = true) /\
  build crowded tt = (Unwind, tt) /\
  redacts False (async_build pinned) (fun r => as_asked (a_builder pinned) r) /\
  wp (async_build pinned) (fun r _ => exists e, r = Err e) (fun _ => False) tt.
Proof.
  destruct (redis_build crowded pinned) as (H1 & H2 & H3 & H4). split_and!; [exact H1| |exact H3|].
  - by apply (H2 ("users", 0) "redis://h" "redis://h" tt tt).
  - by apply (H4 "redis://h?db=1&protocol=resp2" tt).
Defined.

End Anywhere.
