(* ===== verification/ConcurrentMemo.v ===== *)
(** * The functions the [#[concurrent_cached]] macro generates
      ([cached_proc_macro/src/concurrent_cached.rs])

    A generated function looks its key up in a concurrent store, runs the user's body on a miss, and
    stores the result; the store does its own locking, and may fail.  What the functions need of a
    store is an interface: the sharded stores and the redis stores provide it. *)
From S2P Require Import Prelude Keys Return Stores Shards Concurrent External.

(** ** User code that suspends *)

(** A future of user code: what it does up to each of its own suspensions, and its last stretch. *)
Definition UserFuture (W A : Type) : Type := list (User W unit) * User W A.
Definition await_user {S G W A} (u : UserFuture W A) : Prog S G W A :=
  foldr (fun m p => outside m ;;; p) (outside u.2) u.1.

(** ** The store behind a function *)

(** [cache_get], and [cache_set_dispatch] of [__set_dispatch] ([src/lib.rs]). *)
Class MemoStore (D S G K V W Er : Type) : Type := {
  lookup : D -> K -> Prog S G W (result Er (option V));
  set_dispatch : D -> K -> V -> Prog S G W (result Er unit) }.

Section Stores.
Context {D S G K V W Er : Type}.

(** The fallback arm: the owned setter, whose previous value is dropped. *)
Definition owned_store `{!FallibleCached D S G K V W Er} : MemoStore D S G K V W Er := {|
  lookup := External.cache_get;
  set_dispatch d k v := let* r := External.cache_set d k v in Ret (map_ok (fun _ => tt) r) |}.

(** The preferred arm: the borrowed setter of [SerializeCached]. *)
Definition serialized_store `{!FallibleCached D S G K V W Er, !SerializeCached D S G K V W Er} : MemoStore D S G K V W Er := {|
  lookup := External.cache_get;
  set_dispatch := cache_set_ref |}.

(** The sharded stores, whose error is [Infallible]. *)
Definition infallible_store `{!ConcurrentCached D S G K V W} : MemoStore D S G K V W Empty_set := {|
  lookup d k := let* r := Concurrent.cache_get d k in Ret (Ok r);
  set_dispatch d k v := let* _ := Concurrent.cache_set d k v in Ret (Ok tt) |}.
End Stores.

(** ** Return types of which the value inside [Return] is stored *)
Definition unwrapped_returns T : Return.Returns (Return T) T :=
  {| stored r := Some (into_inner r); hit v := set_was_cached true (return_new v) |}.
Definition unwrapped_result E T : Return.Returns (result E (Return T)) T :=
  {| stored r := match r with Ok r => Some (into_inner r) | Err _ => None end;
     hit v := Ok (set_was_cached true (return_new v)) |}.
Definition unwrapped_option T : Return.Returns (option (Return T)) T :=
  {| stored r := into_inner <$> r; hit v := Some (set_was_cached true (return_new v)) |}.

(** ** The programs *)
Section Generated.
Context {D S G K V W Er A R : Type} `{!MemoStore D S G K V W Er, !Return.Returns R V} (d : D).

(** The key expression; the [force_refresh] block; the user's function, which suspends at [pauses] if it
    is [async]; and what becomes of an error of the store: [.map_err(..)?] or [?] return what user code makes of it, [.expect(..)] panics. *)
Context (convert : A -> K) (force_refresh : option (A -> User W bool)).
Context (pauses : A -> list (User W unit)) (body : A -> User W R) (unwrap : Er -> User W R).

Definition unwrapping {X} (p : Prog S G W (result Er X)) (k : X -> Prog S G W R) : Prog S G W R :=
  let* r := p in match r with Ok x => k x | Err e => outside (unwrap e) end.

(** [#set_cache_block], then [__cached_result]. *)
Definition set_cache_block (key : K) (r : R) : Prog S G W R :=
  match stored r with
  | Some v => unwrapping (set_dispatch d key v) (fun _ => Ret r)
  | None => Ret r
  end.

Definition do_set_return_block (key : K) (a : A) : Prog S G W R :=
  let* r := await_user (pauses a, body a) in set_cache_block key r.

(** The predicate of [force_refresh], or [false]. *)
Definition force_refresh_bypass (a : A) : Prog S G W bool :=
  match force_refresh with Some block => outside (block a) | None => Ret false end.

(** The cached function. *)
Definition concurrent_cached (a : A) : Prog S G W R :=
  let key := convert a in
  let* bypass := force_refresh_bypass a in
  if bypass : bool then do_set_return_block key a
  else
    unwrapping (lookup d key) (fun found =>
      match found with
      | Some v => Ret (hit v)
      | None => do_set_return_block key a
      end).

(** The priming function, also with [result_fallback]. *)
Definition prime_cache (a : A) : Prog S G W R := do_set_return_block (convert a) a.

(** [result_fallback]: a stale value instead of an error. *)
Section ResultFallback.
Context `{!ConcurrentCloneCached D S G K V W}.

Definition fallback_set_return (key : K) (a : A) (old : option V) : Prog S G W R :=
  let* r := await_user (pauses a, body a) in
  set_cache_block key
    match stored r, old with
    | None, Some v => hit v
    | _, _ => r
    end.

Definition concurrent_fallback (a : A) : Prog S G W R :=
  let key := convert a in
  let* bypass := force_refresh_bypass a in
  if bypass : bool then
    let* p := cache_peek_with_expiry_status d key in
    fallback_set_return key a p.1
  else
    let* p := cache_get_with_expiry_status d key in
    match p with
    | (Some v, false) => Ret (hit v)
    | (stale, _) => fallback_set_return key a stale
    end.
End ResultFallback.
End Generated.

(** ** The interface: what the functions need of a store

    [same]: keys that the store does not tell apart.  The map of the store is [good] for a predicate
    on keys and values if every value it holds satisfies it. *)
Class MemoLaws {D S G KX VX K V W Er} `{!KeyEq KX, !MemoStore D S G K V W Er} (d : D) (L : Layout S G KX VX)
    (same : K -> K -> Prop) (good : (K -> V -> Prop) -> Map KX VX -> Prop) : Type := {
  lookup_spec : K -> SpecOf KX VX (result Er (option V));
  store_spec : K -> V -> SpecOf KX VX (result Er unit);
  same_equivalence : Equivalence same;
  lookup_meets : forall k, meets (W := W) L (lookup_spec k) (lookup d k);
  store_meets : forall k v, meets (W := W) L (store_spec k v) (set_dispatch d k v);
  lookup_valid : forall (valid : K -> V -> Prop) k, (forall k k' v, same k k' -> valid k v -> valid k' v) ->
    sound L (good valid) (lookup_spec k) (fun r => forall v, r = Ok (Some v) -> valid k v);
  store_valid : forall (valid : K -> V -> Prop) k v, (forall k k' v, same k k' -> valid k v -> valid k' v) ->
    valid k v -> sound L (good valid) (store_spec k v) (fun _ => True) }.
