(* ===== verification/Async.v ===== *)
(** * The async traits of the concurrent stores ([src/lib.rs])

    [ConcurrentCachedAsync] and [SerializeCachedAsync] with their provided methods, the two arms of
    [__set_dispatch_async], and the extension traits [ConcurrentCachedExt] and [ConcurrentCachedAsyncExt].
    A future is a program that runs when it is awaited; a method is what runs when it is called, which
    leaves a future.  A future may be dropped instead. *)
From stdpp Require Import relations strings.
From S2P Require Import Prelude Keys Stores Shards Concurrent External ConcurrentMemo.

(** ** Futures *)

(** A method that returns a future; an [async fn] does nothing before its future is awaited. *)
Definition Method (S G W A : Type) : Type := Prog S G W (Prog S G W A).
Definition async_fn {S G W A} (p : Prog S G W A) : Method S G W A := Ret p.
Definition await {S G W A} (m : Method S G W A) : Prog S G W A := let* f := m in f.
Definition drop_future {S G W A} (m : Method S G W A) : Prog S G W unit := let* _ := m in Ret tt.

(** ** The traits *)

Class ConcurrentCachedAsync (D S G K V W Er : Type) : Type := {
  async_cache_get : D -> K -> Method S G W (result Er (option V));
  async_cache_set : D -> K -> V -> Method S G W (result Er (option V));
  async_cache_remove : D -> K -> Method S G W (result Er (option V));
  async_cache_remove_entry : D -> K -> Method S G W (result Er (option (K * V)));
  async_cache_delete : D -> K -> Method S G W (result Er bool);
  async_cache_contains : D -> K -> Method S G W (result Er bool);
  async_cache_clear : D -> Method S G W (result Er unit);
  async_cache_reset : D -> Method S G W (result Er unit);
  async_cache_reset_metrics : D -> Method S G W (result Er unit) }.

Class ConcurrentCachePeekAsync (D S G K V W Er : Type) : Type := {
  async_cache_peek : D -> K -> Method S G W (result Er (option V)) }.

Class SerializeCachedAsync (D S G K V W Er : Type) : Type := {
  async_cache_set_ref : D -> K -> V -> Method S G W (result Er unit) }.

(** [async_cache_delete], where a store does not override it. *)
Definition delete_entry {D S G K V W Er} (remove_entry : D -> K -> Method S G W (result Er (option (K * V)))) (d : D) (k : K) :
    Method S G W (result Er bool) :=
  async_fn (let* r := await (remove_entry d k) in Ret (map_ok is_some r)).

Section Provided.
Context {D S G K V W Er : Type} `{!ConcurrentCachedAsync D S G K V W Er}.

Definition async_cache_get_or_set_with (d : D) (k : K) (f : UserFuture W V) : Method S G W (result Er V) :=
  async_fn (
    try* r := await (async_cache_get d k) in
    match r with
    | Some v => Ret (Ok v)
    | None =>
        let* v := await_user f in
        try* _ := await (async_cache_set d k v) in
        Ret (Ok v)
    end).

Definition async_cache_try_get_or_set_with {E} (d : D) (k : K) (f : UserFuture W (result E V)) :
    Method S G W (result Er (result E V)) :=
  async_fn (
    try* r := await (async_cache_get d k) in
    match r with
    | Some v => Ret (Ok (Ok v))
    | None =>
        let* r := await_user f in
        match r with
        | Ok v => try* _ := await (async_cache_set d k v) in Ret (Ok (Ok v))
        | Err e => Ret (Ok (Err e))
        end
    end).

(** [ConcurrentCachedAsyncExt] *)
Definition async_get := async_cache_get.
Definition async_set := async_cache_set.
Definition async_remove := async_cache_remove.
Definition async_remove_entry := async_cache_remove_entry.
Definition async_delete := async_cache_delete.
Definition async_contains := async_cache_contains.
Definition async_clear := async_cache_clear.
Definition async_reset := async_cache_reset.
Definition async_get_or_set_with := async_cache_get_or_set_with.
Definition async_try_get_or_set_with {E} := @async_cache_try_get_or_set_with E.

(** The arms of [cache_set_dispatch], and the store behind an async function. *)
Definition async_owned_store : MemoStore D S G K V W Er := {|
  lookup d k := await (async_cache_get d k);
  set_dispatch d k v := await (async_fn (let* r := await (async_cache_set d k v) in Ret (map_ok (fun _ => tt) r))) |}.

Definition async_serialized_store `{!SerializeCachedAsync D S G K V W Er} : MemoStore D S G K V W Er := {|
  lookup d k := await (async_cache_get d k);
  set_dispatch d k v := await (async_fn (await (async_cache_set_ref d k v))) |}.
End Provided.

(** [ConcurrentCachedExt] *)
Module Ext.
Section Ext.
Context {D S G K V W Er : Type} `{!FallibleCached D S G K V W Er}.

Definition get := External.cache_get.
Definition set := External.cache_set.
Definition remove := External.cache_remove.
Definition remove_entry := External.cache_remove_entry.
Definition delete := External.cache_delete.
Definition clear := External.cache_clear.
Definition reset := External.cache_reset.
Definition contains := External.cache_contains.
Definition get_or_set_with := External.cache_get_or_set_with.
Definition try_get_or_set_with {E} := @External.cache_try_get_or_set_with E.
End Ext.
End Ext.

(** ** The stores in memory

    Each sharded store has the same code: an [async fn] around the synchronous method, whose error is
    [Infallible]; [async_cache_contains] looks the key up when it is called, not when it is awaited. *)
Section Sharded.
Context {D S G K V W : Type} `{!ConcurrentCached D S G K V W}.

Definition infallibly {A} (p : Prog S G W A) : Prog S G W (result Empty_set A) := let* a := p in Ret (Ok a).

(** The synchronous trait, its errors in full. *)
Definition infallible_cached : FallibleCached D S G K V W Empty_set := {|
  External.cache_get d k := infallibly (Concurrent.cache_get d k);
  External.cache_set d k v := infallibly (Concurrent.cache_set d k v);
  External.cache_remove d k := infallibly (Concurrent.cache_remove d k);
  External.cache_remove_entry d k := infallibly (Concurrent.cache_remove_entry d k);
  External.cache_delete d k := infallibly (Concurrent.cache_delete d k);
  External.cache_contains d k := infallibly (Concurrent.cache_contains d k);
  External.cache_clear d := infallibly (Concurrent.cache_clear d);
  External.cache_reset d := infallibly (Concurrent.cache_reset d) |}.

Definition sharded_async : ConcurrentCachedAsync D S G K V W Empty_set := {|
  async_cache_get d k := async_fn (infallibly (Concurrent.cache_get d k));
  async_cache_set d k v := async_fn (infallibly (Concurrent.cache_set d k v));
  async_cache_remove d k := async_fn (infallibly (Concurrent.cache_remove d k));
  async_cache_remove_entry d k := async_fn (infallibly (Concurrent.cache_remove_entry d k));
  async_cache_delete := delete_entry (fun d k => async_fn (infallibly (Concurrent.cache_remove_entry d k)));
  async_cache_contains d k := let* result := infallibly (Concurrent.cache_contains d k) in async_fn (Ret result);
  async_cache_clear d := async_fn (infallibly (Concurrent.cache_clear d));
  async_cache_reset d := async_fn (infallibly (Concurrent.cache_reset d));
  async_cache_reset_metrics d := async_fn (infallibly (Concurrent.cache_reset_metrics d)) |}.

(** The store behind an async function over a sharded store. *)
Definition async_infallible_store : MemoStore D S G K V W Empty_set := @async_owned_store _ _ _ _ _ _ _ sharded_async.

Definition sharded_peek_async `{!ConcurrentCachePeek D S G K V W} : ConcurrentCachePeekAsync D S G K V W Empty_set := {|
  async_cache_peek d k := async_fn (infallibly (Concurrent.cache_peek d k)) |}.
End Sharded.

(** The inherent methods of the sharded stores, the same on each: the trait's method, unwrapped. *)
Module Inherent.
Section Inherent.
Context {D S G K V W : Type} `{!ConcurrentCached D S G K V W}.

(** [Result::unwrap]; the error is [Infallible]. *)
Definition unwrapped {A} (r : result Empty_set A) : A := match r with Ok a => a | Err e => match e with end end.
Definition unwrap {A} (p : Prog S G W (result Empty_set A)) : Prog S G W A := let* r := p in Ret (unwrapped r).

Definition get (d : D) (k : K) : Prog S G W (option V) := unwrap (infallibly (Concurrent.cache_get d k)).
Definition set (d : D) (k : K) (v : V) : Prog S G W (option V) := unwrap (infallibly (Concurrent.cache_set d k v)).
Definition get_or_set_with (d : D) (k : K) (f : User W V) : Prog S G W V :=
  unwrap (infallibly (Concurrent.cache_get_or_set_with d k f)).
Definition remove (d : D) (k : K) : Prog S G W (option V) := unwrap (infallibly (Concurrent.cache_remove d k)).
Definition remove_entry (d : D) (k : K) : Prog S G W (option (K * V)) := unwrap (infallibly (Concurrent.cache_remove_entry d k)).
Definition delete (d : D) (k : K) : Prog S G W bool := unwrap (infallibly (Concurrent.cache_delete d k)).
Definition reset (d : D) : Prog S G W unit := unwrap (infallibly (Concurrent.cache_reset d)).
Definition contains (d : D) (k : K) : Prog S G W bool := unwrap (infallibly (Concurrent.cache_contains d k)).
End Inherent.
End Inherent.

(** ** The stores outside the process: an [async fn] of the text of each synchronous method

    As [AsyncRedisCache] has them; a future is awaited, or dropped before it is polled.  Those of [RedbCache],
    which leave an operation on the blocking pool when they are dropped in it, are in [RedbAsync]. *)
Section External.
Context {D S G K V W Er : Type} `{!FallibleCached D S G K V W Er}.

Definition external_async : ConcurrentCachedAsync D S G K V W Er := {|
  async_cache_get d k := async_fn (External.cache_get d k);
  async_cache_set d k v := async_fn (External.cache_set d k v);
  async_cache_remove d k := async_fn (External.cache_remove d k);
  async_cache_remove_entry d k := async_fn (External.cache_remove_entry d k);
  async_cache_delete d k := async_fn (External.cache_delete d k);
  async_cache_contains d k := async_fn (External.cache_contains d k);
  async_cache_clear d := async_fn (External.cache_clear d);
  async_cache_reset d := async_fn (External.cache_reset d);
  async_cache_reset_metrics d := async_fn (External.cache_reset_metrics d) |}.
End External.

(** ** The instances of the sharded stores *)
From S2P Require Import Prelude Keys Stores HashTable Lru Sharded Shards Concurrent LruShards ShardTtl.
From S2P Require Import ShardedUnbound ShardedTtl ShardedLru ShardedLruTtl ShardedExpiring ShardedExpiringLru.

Section Instances.
Context {K V W HT : Type} `{!KeyEq K, !HashTable HT, !Clock W, !Expires V W}.

Definition unbound_async : ConcurrentCachedAsync (ShardedUnboundCache K V W) _ _ K V W Empty_set := sharded_async.
Definition unbound_peek_async : ConcurrentCachePeekAsync (ShardedUnboundCache K V W) _ _ K V W Empty_set := sharded_peek_async.
Definition ttl_async : ConcurrentCachedAsync (ShardedTtlCache K V W) _ _ K V W Empty_set := sharded_async.
Definition ttl_peek_async : ConcurrentCachePeekAsync (ShardedTtlCache K V W) _ _ K V W Empty_set := sharded_peek_async.
Definition lru_async : ConcurrentCachedAsync (ShardedLruCache K V W) (LruCache K V W HT) _ K V W Empty_set := sharded_async.
Definition lru_peek_async : ConcurrentCachePeekAsync (ShardedLruCache K V W) (LruCache K V W HT) _ K V W Empty_set := sharded_peek_async.
Definition lru_ttl_async : ConcurrentCachedAsync (ShardedLruTtlCache K V W) (LruCache K (TimedEntry V) W HT) _ K V W Empty_set := sharded_async.
Definition lru_ttl_peek_async : ConcurrentCachePeekAsync (ShardedLruTtlCache K V W) (LruCache K (TimedEntry V) W HT) _ K V W Empty_set :=
  sharded_peek_async.
Definition expiring_async : ConcurrentCachedAsync (ShardedExpiringCache K V W) _ _ K V W Empty_set := sharded_async.
Definition expiring_peek_async : ConcurrentCachePeekAsync (ShardedExpiringCache K V W) _ _ K V W Empty_set := sharded_peek_async.
Definition expiring_lru_async : ConcurrentCachedAsync (ShardedExpiringLruCache K V W) (LruCache K V W HT) _ K V W Empty_set := sharded_async.
Definition expiring_lru_peek_async : ConcurrentCachePeekAsync (ShardedExpiringLruCache K V W) (LruCache K V W HT) _ K V W Empty_set :=
  sharded_peek_async.
End Instances.
