(* ===== verification/ConcurrentMemoProps.v ===== *)
(** * The properties of the functions of [#[concurrent_cached]]

    Proved against the interface [MemoLaws], which the sharded stores implement. *)
From stdpp Require Import relations strings.
From S2P Require Import Prelude Keys Return Stores Shards Concurrent External ConcurrentMemo.

(** ** Suspensions are no operations *)
Section Suspending.
Context {S G KX VX W : Type} `{!KeyEq KX} (L : Layout S G KX VX).

Lemma meets_await_user {A} (u : UserFuture W A) : meets L (schoose (may_return u.2)) (await_user u).
Proof.
  destruct u as [ms f]. unfold await_user. simpl. induction ms as [|m ms IH]; [apply meets_outside|]. simpl.
  intros R q w a w' _. exists (schoose (may_return f) R q). split; [intros x; apply rtc_refl|]. apply IH.
Qed.

End Suspending.

(** ** The specification *)
Section Spec.
Context {D S G KX VX K V W Er A R : Type} `{!KeyEq KX, !MemoStore D S G K V W Er, !Return.Returns R V}.
Context (d : D) (L : Layout S G KX VX) {same : K -> K -> Prop} {good : (K -> V -> Prop) -> Map KX VX -> Prop}.
Context `{!MemoLaws d L same good}.
Context (convert : A -> K) (force_refresh : option (A -> User W bool)).
Context (pauses : A -> list (User W unit)) (body : A -> User W R) (unwrap : Er -> User W R).

Definition unwrapping_spec {X} (s : SpecOf KX VX (result Er X)) (k : X -> SpecOf KX VX R) : SpecOf KX VX R :=
  let^ r := s in match r with Ok x => k x | Err e => schoose (may_return (unwrap e)) end.

Definition set_return_spec (key : K) (r : R) : SpecOf KX VX R :=
  match stored r with
  | Some v => unwrapping_spec (store_spec key v) (fun _ => sret r)
  | None => sret r
  end.

Definition compute_spec (key : K) (a : A) : SpecOf KX VX R :=
  let^ r := schoose (may_return (body a)) in set_return_spec key r.

Definition bypass_spec (a : A) : SpecOf KX VX bool :=
  match force_refresh with Some block => schoose (may_return (block a)) | None => sret false end.

(** Look the key up; on a hit that is all; on a miss run the body and store what it returned. *)
Definition memo_spec (a : A) : SpecOf KX VX R :=
  let^ bypass := bypass_spec a in
  if bypass : bool then compute_spec (convert a) a
  else
    unwrapping_spec (lookup_spec (convert a)) (fun found =>
      match found with
      | Some v => sret (hit v)
      | None => compute_spec (convert a) a
      end).

Definition prime_spec (a : A) : SpecOf KX VX R := compute_spec (convert a) a.

Notation set_cache_block := (set_cache_block d unwrap).
Notation do_set_return_block := (do_set_return_block d pauses body unwrap).
Notation concurrent_cached := (concurrent_cached d convert force_refresh pauses body unwrap).
Notation prime_cache := (prime_cache d convert pauses body unwrap).

(** *** The programs meet it *)

Lemma meets_unwrapping {X} s (p : Prog S G W (result Er X)) t k :
  meets L s p -> (forall x, meets L (t x) (k x)) -> meets L (unwrapping_spec s t) (unwrapping unwrap p k).
Proof. intros Hp Hk. apply meets_bind; [done|]. intros [x|e]; [apply Hk|apply meets_outside]. Qed.

Lemma set_return_meets key r : meets L (set_return_spec key r) (set_cache_block key r).
Proof.
  unfold set_return_spec, ConcurrentMemo.set_cache_block. destruct (stored r); [|apply meets_ret].
  apply meets_unwrapping; [apply store_meets|]. intros _. apply meets_ret.
Qed.

Lemma compute_meets key a : meets L (compute_spec key a) (do_set_return_block key a).
Proof. apply meets_bind; [exact (meets_await_user L (pauses a, body a))|]. apply set_return_meets. Qed.

Lemma bypass_meets a : meets L (bypass_spec a) (force_refresh_bypass force_refresh a).
Proof. unfold bypass_spec, force_refresh_bypass. destruct force_refresh; [apply meets_outside|apply meets_ret]. Qed.

Lemma memo_meets a : meets L (memo_spec a) (concurrent_cached a).
Proof.
  apply meets_bind; [apply bypass_meets|]. intros []; [apply compute_meets|].
  apply meets_unwrapping; [apply lookup_meets|]. intros [v|]; [apply meets_ret|apply compute_meets].
Qed.

(** *** What it keeps *)

(** [v] is stored of a result of the body for a key that is the same. *)
Definition produced (k : K) (v : V) : Prop :=
  exists a r, same (convert a) k /\ may_return (body a) r /\ stored r = Some v.

(** [r] comes from such a result, or from an error of the store. *)
Definition justified (a : A) (r : R) : Prop :=
  (exists a' r', same (convert a') (convert a) /\ may_return (body a') r' /\ comes_from r r') \/
  exists e, may_return (unwrap e) r.

Lemma produced_same k k' v : same k k' -> produced k v -> produced k' v.
Proof.
  destruct same_equivalence as [_ _ Htr]. intros Hk (a & r & Hs & Hb & Hv). exists a, r. split_and!; [|done..].
  by eapply Htr.
Qed.

Lemma concurrent_produced_hit a v : produced (convert a) v -> justified a (hit v).
Proof. intros (a' & r & Hs & Hb & Hv). left. exists a', r. split_and!; [done..|]. right. by rewrite Hv. Qed.

Lemma concurrent_body_justified a r : may_return (body a) r -> justified a r /\ forall v, stored r = Some v -> produced (convert a) v.
Proof.
  destruct same_equivalence as [Hre _ _].
  intros Hb. split; [left; exists a, r; split_and!; [apply Hre|done|by left]|]. intros v Hv. by exists a, r.
Qed.

Notation sound := (sound L (good produced)).

Lemma sound_unwrapping {X} a s (k : X -> SpecOf KX VX R) (P : result Er X -> Prop) : sound s P ->
  (forall x, P (Ok x) -> sound (k x) (justified a)) -> sound (unwrapping_spec s k) (justified a).
Proof.
  intros Hs Hk. eapply sound_bind; [exact Hs|]. intros [x|e] Hx; [by apply Hk|].
  eapply sound_mono; [apply sound_choose|]. intros r Hr. right. by exists e.
Qed.

Lemma concurrent_set_return a r : justified a r -> (forall v, stored r = Some v -> produced (convert a) v) ->
  sound (set_return_spec (convert a) r) (justified a).
Proof.
  intros Hr Hv. unfold set_return_spec. destruct (stored r) as [v|]; [|by apply sound_ret].
  eapply sound_unwrapping; [apply store_valid; [apply produced_same|by apply Hv]|]. intros _ _. by apply sound_ret.
Qed.

Lemma sound_compute_spec a : sound (compute_spec (convert a) a) (justified a).
Proof. eapply sound_bind; [apply sound_choose|]. intros r [Hr Hs]%concurrent_body_justified. by apply concurrent_set_return. Qed.

Lemma sound_memo_spec a : sound (memo_spec a) (justified a).
Proof.
  eapply (sound_bind _ _ _ _ (fun _ => True)).
  { unfold bypass_spec. destruct force_refresh; [|by apply sound_ret]. by eapply sound_mono; [apply sound_choose|]. }
  intros [] _; [apply sound_compute_spec|]. eapply sound_unwrapping; [apply lookup_valid, produced_same|].
  intros [v|] Hv; [|apply sound_compute_spec]. apply sound_ret, concurrent_produced_hit. by apply Hv.
Qed.

(** *** Threads *)

(** A call of the function or, if the flag is set, of its priming companion, with its result. *)
Definition memo_call (q : A * bool) : Prog S G W (A * R) :=
  let* r := (if q.2 then prime_cache q.1 else concurrent_cached q.1) in Ret (q.1, r).

Definition memo_call_spec (q : A * bool) : Spec KX VX (A * R) :=
  (if q.2 then prime_spec q.1 else memo_spec q.1) (A * R)%type (fun r => Returns (eq (q.1, r))).

Lemma memo_call_safe q : safely L None (memo_call_spec q) (memo_call q) (post ends).
Proof.
  apply call_bind. eapply safe_mono; [|destruct q as [a []]; [apply compute_meets|apply memo_meets]].
  by intros h t r (-> & ->).
Qed.

(** C29: A function generated by [#[concurrent_cached]], whichever store is behind it: however calls
    interleave, each is one lookup, and only on a miss a run of the body and one store of its result -
    the store's own operations, failures included - and every call ends. *)
Theorem concurrent_memo_serves m x : follows_map L m x -> implements L memo_call memo_call_spec m x.
Proof. apply safe_implements, memo_call_safe. Qed.

(** C8: However calls and primings interleave, force a refresh, panic, and whatever the store forgets
    or fails at, a call returns only what the body returned for a key that is the same, now or before;
    or what user code makes of an error of the store. *)
Theorem concurrent_memo_sound m x w g t a r : follows_map L m x -> good produced x -> reachable memo_call m w g ->
  threads g !! t = Some (Ret (a, r)) ->
  (exists a' r', same (convert a') (convert a) /\ may_return (body a') r' /\ comes_from r r') \/
  exists e, may_return (unwrap e) r.
Proof.
  intros Hm Hx Hr Ht.
  destruct (implements_results L memo_call memo_call_spec (good produced) (fun p => justified p.1 p.2) m x w g) as [_ Hret];
    [by apply safe_implements; [apply memo_call_safe|]|done| |done|exact (Hret t (a, r) Ht)].
  intros [a' b]. destruct b; [apply sound_compute_spec|apply sound_memo_spec]; intros r' Hj ? <-; exact Hj.
Qed.
End Spec.

(** ** The sharded stores implement the interface *)
Section Sharded.
Context {D S G K V W : Type} `{!KeyEq K, !KeyLaws K, !ConcurrentCached D S G K V W, !ConcurrentCachePeek D S G K V W}.
Context (d : D) (L : Layout S G K V) `{!ConcurrentLaws (W := W) d L}.
#[local] Existing Instance infallible_store.

Definition same_key (k k' : K) : Prop := keq k k' = true.
Definition all_valid (valid : K -> V -> Prop) (m : Map K V) : Prop := forall k v, m k = Some v -> valid k v.

Lemma same_key_equivalence : Equivalence same_key.
Proof. split; [exact keq_refl|intros k k' H; unfold same_key; by rewrite keq_comm|]. intros k1 k2 k3. apply keq_trans. Qed.

Lemma read_valid (valid : K -> V -> Prop) k : (forall k k' v, same_key k k' -> valid k v -> valid k' v) ->
  sound L (all_valid valid) (sop (Read k)) (fun r => forall v, r = Some v -> valid k v).
Proof.
  intros _. apply sound_op. intros m r m' Hm [Ht ->]. split; [done|]. intros v ->. destruct Ht as [E|[_ [=]]]. by apply Hm.
Qed.

Lemma write_valid (valid : K -> V -> Prop) k v : (forall k k' v, same_key k k' -> valid k v -> valid k' v) ->
  valid k v -> sound L (all_valid valid) (sop (Write k v)) (fun _ => True).
Proof.
  intros Hs Hv. apply sound_op. intros m r m' Hm [_ ->]. split; [|done]. intros k' v'. unfold put.
  destruct (keq k k') eqn:E; [|apply Hm]. intros [= <-]. by eapply Hs.
Qed.

#[export] Instance sharded_memo : MemoLaws (Er := Empty_set) (W := W) d L same_key all_valid.
Proof.
  refine {| lookup_spec k := let^ r := sop (Read k) in sret (Ok r);
            store_spec k v := let^ _ := sop (Write k v) in sret (Ok tt) |}.
  - apply same_key_equivalence.
  - intros k. apply meets_bind; [|intros r; apply meets_ret]. intros R q. eapply safe_mono; [|apply get_does].
    by intros h t a (-> & r & -> & ->).
  - intros k v. apply meets_bind; [|intros r; apply meets_ret]. intros R q. eapply safe_mono; [|apply set_does].
    by intros h t a (-> & r & -> & ->).
  - intros valid k Hs. eapply sound_map; [by apply read_valid|]. intros r Hr v [= ->]. by apply Hr.
  - intros valid k v Hs Hv. eapply sound_map; [by apply write_valid|done].
Defined.

End Sharded.

(** ** [result_fallback], which only these stores allow *)
Section Fallback.
Context {D S G K V W A R : Type} `{!KeyEq K, !KeyLaws K, !MemoStore D S G K V W Empty_set, !ConcurrentCloneCached D S G K V W}.
Context `{!Return.Returns R V, !ReturnsLaws R V} (d : D) (L : Layout S G K V).
Context `{!MemoLaws (W := W) d L same_key all_valid, !ConcurrentCloneLaws (W := W) d L}.
Context (convert : A -> K) (force_refresh : option (A -> User W bool)).
Context (pauses : A -> list (User W unit)) (body : A -> User W R) (unwrap : Empty_set -> User W R).

Notation set_return_spec := (set_return_spec (W := W) d L unwrap).
Notation produced := (produced (same := same_key) convert body).
Notation sound := (sound L (all_valid produced)).

(** The value of the key, and whether it has expired. *)
Definition status_spec (k : K) : SpecOf K V (option V * bool) :=
  let^ r := sop (Read k) in let^ expired := schoose (fun _ => True) in sret (r, expired).

Definition compute_or_spec (key : K) (a : A) (old : option V) : SpecOf K V R :=
  let^ r := schoose (may_return (body a)) in
  set_return_spec key match stored r, old with None, Some v => hit v | _, _ => r end.

(** On a miss, or if the value has expired, run the body; if there is nothing to store of what it
    returned, return and store the value that was found. *)
Definition fallback_spec (a : A) : SpecOf K V R :=
  let^ bypass := bypass_spec force_refresh a in
  let^ p := status_spec (convert a) in
  match p with
  | (Some v, false) => if bypass : bool then compute_or_spec (convert a) a (Some v) else sret (hit v)
  | (stale, _) => compute_or_spec (convert a) a stale
  end.

Lemma compute_or_meets key a old : meets L (compute_or_spec key a old) (fallback_set_return d pauses body unwrap key a old).
Proof. apply meets_bind; [exact (meets_await_user L (pauses a, body a))|]. intros r. apply set_return_meets. Qed.

(** A choice of the specification before a run of user code. *)
Lemma choose_before {X Y B T} (P : X -> Prop) (f : X -> Spec K V T) (x : X) (u : UserFuture W Y) (k : Y -> Prog S G W B) Q :
  P x -> safely L None (f x) (let* y := await_user u in k y) Q -> safely L None (Choose P f) (let* y := await_user u in k y) Q.
Proof.
  destruct u as [[|m ms] b]; intros Hx Hs w y w' E; destruct (Hs w y w' E) as (t' & Ht & Hk); exists t'; (split; [|done]);
    intros z; (eapply rtc_l; [by apply (spec_choose _ X P f x)|apply Ht]).
Qed.

Lemma status_then {T B} k (p : Prog S G W (option V * bool)) (q : option V * bool -> Spec K V T) (c : option V * bool -> Prog S G W B) Q :
  does L (Read k) p (fun a r => a.1 = r) ->
  (forall a, safely L None (Choose (fun _ => True) (fun b => q (a.1, b))) (c a) Q) ->
  safely L None (status_spec k T q) (pbind p c) Q.
Proof. intros Hp Hc. eapply (does_bind L); [exact Hp|]. intros a r <-. apply Hc. Qed.

Definition fallback_call (q : A * bool) : Prog S G W (A * R) :=
  let* r := (if q.2 then prime_cache d convert pauses body unwrap q.1
             else concurrent_fallback d convert force_refresh pauses body unwrap q.1) in Ret (q.1, r).

Definition fallback_call_spec (q : A * bool) : Spec K V (A * R) :=
  (if q.2 then prime_spec d L convert body unwrap q.1 else fallback_spec q.1) (A * R)%type (fun r => Returns (eq (q.1, r))).

Lemma fallback_call_safe q : safely L None (fallback_call_spec q) (fallback_call q) (post ends).
Proof.
  assert (forall key a old, safely L None (compute_or_spec key a old (A * R)%type (fun r => Returns (eq (a, r))))
    (fallback_set_return d pauses body unwrap key a old) (fun h t r => h = None /\ ends t (a, r))) as Hc.
  { intros key a old. eapply safe_mono; [|apply compute_or_meets]. by intros h t r (-> & ->). }
  apply call_bind. destruct q as [a []]; cbn [fst snd].
  - eapply safe_mono; [|apply compute_meets]. by intros h t r (-> & ->).
  - unfold concurrent_fallback. apply call_bind. eapply safe_mono; [|apply bypass_meets]. intros h t bypass (-> & ->). destruct bypass.
    + eapply status_then; [apply peek_status_does|]. intros p. apply (choose_before _ _ true); [done|].
      destruct p as [[v|] b]; apply Hc.
    + eapply status_then; [apply get_status_does|]. intros [[v|] [|]].
      * apply (choose_before _ _ true); [done|]. apply Hc.
      * split; [done|]. by exists false.
      * apply (choose_before _ _ true); [done|]. apply Hc.
      * apply (choose_before _ _ true); [done|]. apply Hc.
Qed.

Lemma sound_compute_or a old : (forall v, old = Some v -> produced (convert a) v) ->
  sound (compute_or_spec (convert a) a old) (justified (same := same_key) convert body unwrap a).
Proof.
  intros Ho. eapply sound_bind; [apply sound_choose|]. intros r Hb.
  destruct (concurrent_body_justified d L convert body unwrap a r Hb) as [Hr Hs]. destruct (stored r) as [v|] eqn:E.
  - apply concurrent_set_return; [done|]. intros v' Hv'. rewrite E in Hv'. by apply Hs.
  - destruct old as [v|]; apply concurrent_set_return; try done; [by apply concurrent_produced_hit, Ho| |].
    + intros v' Hv'. rewrite stored_hit in Hv'. injection Hv' as <-. by apply Ho.
    + intros v' Hv'. by rewrite E in Hv'.
Qed.

Lemma sound_fallback_spec a : sound (fallback_spec a) (justified (same := same_key) convert body unwrap a).
Proof.
  eapply (sound_bind _ _ _ _ (fun _ => True)).
  { unfold bypass_spec. destruct force_refresh; [|by apply sound_ret]. by eapply sound_mono; [apply sound_choose|]. }
  intros b _. eapply (sound_bind _ _ _ _ (fun p => forall v, p.1 = Some v -> produced (convert a) v)).
  - eapply sound_bind; [apply read_valid; apply (produced_same d L)|]. intros r Hr. eapply sound_map; [apply sound_choose|]. done.
  - intros [[v|] [|]] Hv; try (by apply sound_compute_or). destruct b; [by apply sound_compute_or|].
    apply sound_ret, concurrent_produced_hit. by apply Hv.
Qed.

(** [result_fallback] over a sharded store: however calls interleave, each is one lookup, at most
    one run of the body, and at most one store; when the body has nothing to store, the value found
    at the lookup, expired or not, is returned and stored again; every call ends, and returns only
    what the body returned for an equal key. *)
Theorem concurrent_fallback_serves m x : follows_map L m x -> all_valid produced x ->
  implements L fallback_call fallback_call_spec m x /\
  forall w g t a r, reachable fallback_call m w g -> threads g !! t = Some (Ret (a, r)) ->
    (exists a' r', same_key (convert a') (convert a) /\ may_return (body a') r' /\ comes_from r r') \/
    exists e, may_return (unwrap e) r.
Proof.
  intros Hm Hx. pose proof (safe_implements L fallback_call fallback_call_spec fallback_call_safe m x Hm) as Hi.
  split; [exact Hi|]. intros w g t a r Hr Ht.
  destruct (implements_results L fallback_call fallback_call_spec (all_valid produced)
    (fun p => justified (same := same_key) convert body unwrap p.1 p.2) m x w g) as [_ Hret];
    [done|done| |done|exact (Hret t (a, r) Ht)].
  intros [a' []]; [apply (sound_compute_spec d L)|apply sound_fallback_spec]; intros r' Hj ? <-; exact Hj.
Qed.
End Fallback.
