(* ===== verification/AsyncProps.v ===== *)
(** * What the async methods promise

    Awaited, a method does what its synchronous counterpart does; dropped, it does nothing, but for the
    lookup of [async_cache_contains] over the stores in memory. *)
From stdpp Require Import relations strings.
From S2P Require Import Prelude Keys Stores Shards Concurrent External ConcurrentMemo ConcurrentMemoProps Async.

(** ** Programs that take the same steps, whatever they would do after values that user code never gives *)

Inductive peq {S G W A : Type} : Prog S G W A -> Prog S G W A -> Prop :=
| peq_ret a : peq (Ret a) (Ret a)
| peq_panic : peq Panic Panic
| peq_lock i md p q : peq p q -> peq (Lock i md p) (Lock i md q)
| peq_unlock i p q : peq p q -> peq (Unlock i p) (Unlock i q)
| peq_read X i (f : S -> ST W X) k k' : (forall x, peq (k x) (k' x)) -> peq (ReadStore i f k) (ReadStore i f k')
| peq_write X i (f : ST (S * W) X) k k' : (forall x, peq (k x) (k' x)) -> peq (WriteStore i f k) (WriteStore i f k')
| peq_atomic X i (f : Counters -> X * Counters) k k' : (forall x, peq (k x) (k' x)) -> peq (Atomic i f k) (Atomic i f k')
| peq_global X (f : G -> X * G) k k' : (forall x, peq (k x) (k' x)) -> peq (Global f k) (Global f k')
| peq_outside X (m : User W X) k k' : (forall x, may_return m x -> peq (k x) (k' x)) -> peq (Outside m k) (Outside m k').

Notation "p '≃' q" := (peq p q) (at level 70, no associativity) : prog_scope.

Section ProgEq.
Context {S G W : Type}.
Implicit Types (i : nat).

#[global] Instance peq_refl {A} : Reflexive (@peq S G W A).
Proof. intros p. induction p; constructor; auto. Qed.

#[global] Instance peq_sym {A} : Symmetric (@peq S G W A).
Proof. intros p q. induction 1; constructor; auto. Qed.

Lemma pbind_peq {A B} (p q : Prog S G W A) (k k' : A -> Prog S G W B) :
  p ≃ q -> (forall a, k a ≃ k' a) -> pbind p k ≃ pbind q k'.
Proof. intros H Hk. induction H; simpl; [apply Hk|constructor; auto..]. Qed.

#[global] Instance pbind_proper {A B} : Proper (peq ==> pointwise_relation A peq ==> peq) (@pbind S G W A B).
Proof. intros p q H k k' Hk. by apply pbind_peq. Qed.

(** The laws of a monad. *)
Lemma pbind_assoc {A B C} (p : Prog S G W A) (k : A -> Prog S G W B) (l : B -> Prog S G W C) :
  pbind (pbind p k) l ≃ let* a := p in pbind (k a) l.
Proof. induction p; simpl; [apply peq_refl|constructor; auto..]. Qed.

Lemma pbind_ret {A} (p : Prog S G W A) : pbind p Ret ≃ p.
Proof. induction p; simpl; constructor; auto. Qed.

(** Equivalent programs have the same meaning, alone and in the logic. *)
Lemma exec_peq {A} (p q : Prog S G W A) s : p ≃ q -> exec p s = exec q s.
Proof.
  intros He. revert s. induction He as [| | | | | | | |Y m k k' _ IH]; intros s; simpl; try done; try (apply bind_ext; by auto).
  - by destruct (i <? length (shards s.1))%nat.
  - destruct s as [mem w]. unfold bind at 1 2, user. simpl. destruct (m w) as [[x|] w'] eqn:E; [|done].
    apply IH. by exists w, w'.
Qed.

Lemma safe_peq {X T A} n (I : nat -> S -> X -> Prop) (J : G -> Prop) (ghost : T * X -> T * X -> Prop) h t
    (p q : Prog S G W A) Q :
  p ≃ q -> safe n I J ghost h t q Q -> safe n I J ghost h t p Q.
Proof.
  intros He. revert h t. induction He; intros h t; simpl; auto.
  - intros (? & ? & ?). eauto.
  - intros [? ?]. eauto.
  - intros [? Hq]. split; [done|]. intros s x w Hi. eapply wp_mono; [by apply Hq| |done].
    intros y w'. apply advance_mono. intros t' x' [? ?]. eauto.
  - intros [? Hq]. split; [done|]. intros s x w Hi. eapply wp_mono; [by apply Hq| |done].
    intros y s'. apply advance_mono. intros t' x' [? ?]. eauto.
  - intros [? Hq]. eauto.
  - intros Hq g Hg. destruct (Hq g Hg) as (? & t' & ? & ?). eauto.
  - intros Hq w y w' E. destruct (Hq w y w' E) as (t' & ? & ?). exists t'. split; [done|].
    assert (may_return m y) by (by exists w, w'). eauto.
Qed.
End ProgEq.

(** Two programs that go through the steps of [p] first. *)
Ltac same_steps p := induction p; simpl; [|constructor; intros; match goal with IH : _ |- _ => apply IH end..].

(** ** Calls *)

Inductive AsyncCall (K V W E : Type) : Type :=
| AGet (k : K)
| AContains (k : K)
| ASet (k : K) (v : V)
| AGetOrSetWith (k : K) (f : UserFuture W V)
| ATryGetOrSetWith (k : K) (f : UserFuture W (result E V))
| ARemove (k : K)
| ARemoveEntry (k : K)
| ADelete (k : K)
| AClear
| AReset
| AResetMetrics.
Arguments AGet {K V W E} k.
Arguments AContains {K V W E} k.
Arguments ASet {K V W E} k v.
Arguments AGetOrSetWith {K V W E} k f.
Arguments ATryGetOrSetWith {K V W E} k f.
Arguments ARemove {K V W E} k.
Arguments ARemoveEntry {K V W E} k.
Arguments ADelete {K V W E} k.
Arguments AClear {K V W E}.
Arguments AReset {K V W E}.
Arguments AResetMetrics {K V W E}.

Section Calls.
Context {D S G K V W Er E : Type} `{!ConcurrentCachedAsync D S G K V W Er} (d : D).
Notation Rep := (result Er (Reply K V E)).

(** A call whose future is awaited, and one whose future is dropped. *)
Definition awaited (q : AsyncCall K V W E) : Prog S G W Rep :=
  match q with
  | AGet k => let* r := await (async_cache_get d k) in Ret (map_ok Value r)
  | AContains k => let* r := await (async_cache_contains d k) in Ret (map_ok Flag r)
  | ASet k v => let* r := await (async_cache_set d k v) in Ret (map_ok Value r)
  | AGetOrSetWith k f => let* r := await (async_cache_get_or_set_with d k f) in Ret (map_ok (fun v => Value (Some v)) r)
  | ATryGetOrSetWith k f => let* r := await (async_cache_try_get_or_set_with d k f) in Ret (map_ok reply_of r)
  | ARemove k => let* r := await (async_cache_remove d k) in Ret (map_ok Value r)
  | ARemoveEntry k => let* r := await (async_cache_remove_entry d k) in Ret (map_ok Entry r)
  | ADelete k => let* r := await (async_cache_delete d k) in Ret (map_ok Flag r)
  | AClear => let* r := await (async_cache_clear d) in Ret (map_ok (fun _ => Nothing) r)
  | AReset => let* r := await (async_cache_reset d) in Ret (map_ok (fun _ => Nothing) r)
  | AResetMetrics => let* r := await (async_cache_reset_metrics d) in Ret (map_ok (fun _ => Nothing) r)
  end.

Definition dropped (q : AsyncCall K V W E) : Prog S G W unit :=
  match q with
  | AGet k => drop_future (async_cache_get d k)
  | AContains k => drop_future (async_cache_contains d k)
  | ASet k v => drop_future (async_cache_set d k v)
  | AGetOrSetWith k f => drop_future (async_cache_get_or_set_with d k f)
  | ATryGetOrSetWith k f => drop_future (async_cache_try_get_or_set_with d k f)
  | ARemove k => drop_future (async_cache_remove d k)
  | ARemoveEntry k => drop_future (async_cache_remove_entry d k)
  | ADelete k => drop_future (async_cache_delete d k)
  | AClear => drop_future (async_cache_clear d)
  | AReset => drop_future (async_cache_reset d)
  | AResetMetrics => drop_future (async_cache_reset_metrics d)
  end.

(** With the flag the future is awaited. *)
Definition run_async (c : AsyncCall K V W E * bool) : Prog S G W Rep :=
  if c.2 then awaited c.1 else (dropped c.1 ;;; Ret (Ok Nothing)).
End Calls.

(** The synchronous call: of the user's futures, the last stretch gives the value. *)
Definition sync_call {K V W E X} (q : AsyncCall K V W E) : ExtCall K V W E X :=
  match q with
  | AGet k => XGet k
  | AContains k => XContains k
  | ASet k v => XSet k v
  | AGetOrSetWith k f => XGetOrSetWith k f.2
  | ATryGetOrSetWith k f => XTryGetOrSetWith k f.2
  | ARemove k => XRemove k
  | ARemoveEntry k => XRemoveEntry k
  | ADelete k => XDelete k
  | AClear => XClear
  | AReset => XReset
  | AResetMetrics => XResetMetrics
  end.

(** ** Equivalent programs meet the same specification *)
Section Same.
Context {S G KX VX W : Type} `{!KeyEq KX} (L : Layout S G KX VX).

Lemma meets_peq {A} s (p q : Prog S G W A) : p ≃ q -> meets L s q -> meets L s p.
Proof. intros He Hq R k. eapply safe_peq; [exact He|apply Hq]. Qed.

(** Stores with equivalent calls keep the same contract. *)
Definition memo_peq {D K V Er same good} {M N : MemoStore D S G K V W Er} (d : D)
    (Hl : forall k, lookup (MemoStore := N) d k ≃ lookup (MemoStore := M) d k)
    (Hs : forall k v, set_dispatch (MemoStore := N) d k v ≃ set_dispatch (MemoStore := M) d k v)
    (HM : MemoLaws (MemoStore0 := M) d L same good) : MemoLaws (MemoStore0 := N) d L same good.
Proof.
  refine {| lookup_spec := lookup_spec (MemoLaws := HM); store_spec := store_spec (MemoLaws := HM) |}.
  - apply same_equivalence.
  - intros k. eapply meets_peq; [apply Hl|apply lookup_meets].
  - intros k v. eapply meets_peq; [apply Hs|apply store_meets].
  - apply lookup_valid.
  - apply store_valid.
Defined.
End Same.

(** ** The contract

    Awaited, a method takes the steps of its synchronous counterpart; dropped, none - except, if
    [eager], those of the lookup of [async_cache_contains]. *)
Definition lazily {S G W A} (m : Method S G W A) (p : Prog S G W A) : Prop := await m ≃ p /\ drop_future m ≃ Ret tt.

Class AsyncLaws {D S G K V W Er} `{!FallibleCached D S G K V W Er, !ConcurrentCachedAsync D S G K V W Er}
    (d : D) (reset_metrics : Prog S G W (result Er unit)) (eager : bool) : Prop := {
  async_get_lazily : forall k, lazily (W := W) (async_cache_get d k) (External.cache_get d k);
  async_set_lazily : forall k v, lazily (W := W) (async_cache_set d k v) (External.cache_set d k v);
  async_remove_lazily : forall k, lazily (W := W) (async_cache_remove d k) (External.cache_remove d k);
  async_remove_entry_lazily : forall k, lazily (W := W) (async_cache_remove_entry d k) (External.cache_remove_entry d k);
  async_delete_lazily : forall k, lazily (W := W) (async_cache_delete d k) (External.cache_delete d k);
  async_clear_lazily : lazily (W := W) (async_cache_clear d) (External.cache_clear d);
  async_reset_lazily : lazily (W := W) (async_cache_reset d) (External.cache_reset d);
  async_reset_metrics_lazily : lazily (W := W) (async_cache_reset_metrics d) reset_metrics;
  async_contains_awaited : forall k, await (W := W) (async_cache_contains d k) ≃ External.cache_contains d k;
  async_contains_dropped : forall k, drop_future (W := W) (async_cache_contains d k) ≃
    if eager then (External.cache_contains d k ;;; Ret tt) else Ret tt }.

Lemma pebind_peq {S G W Er A B} (p q : Prog S G W (result Er A)) (k k' : A -> Prog S G W (result Er B)) :
  p ≃ q -> (forall a, k a ≃ k' a) -> pebind p k ≃ pebind q k'.
Proof. intros H Hk. apply pbind_peq; [done|]. intros [a|e]; [apply Hk|apply peq_refl]. Qed.

Lemma await_fn {S G W A} (p q : Prog S G W A) : p ≃ q -> await (async_fn p) ≃ await (async_fn q).
Proof. exact id. Qed.

Lemma async_fn_lazily {S G W A} (p : Prog S G W A) : lazily (async_fn p) p.
Proof. split; apply peq_refl. Qed.

(** *** What the calls come to *)
Section Calls.
Context {D S G K V W Er E : Type} `{!FallibleCached D S G K V W Er, !ConcurrentCachedAsync D S G K V W Er}.
Context (d : D) (reset_metrics : Prog S G W (result Er unit)) (eager : bool) `{!AsyncLaws d reset_metrics eager}.
Notation Rep := (result Er (Reply K V E)).

(** The methods of the synchronous trait, with an update's factory awaited. *)
Definition blocking_async : ConcurrentCachedAsync D S G K V W Er := {|
  async_cache_get d k := async_fn (External.cache_get d k);
  async_cache_set d k v := async_fn (External.cache_set d k v);
  async_cache_remove d k := async_fn (External.cache_remove d k);
  async_cache_remove_entry d k := async_fn (External.cache_remove_entry d k);
  async_cache_delete d k := async_fn (External.cache_delete d k);
  async_cache_contains d k := async_fn (External.cache_contains d k);
  async_cache_clear d := async_fn (External.cache_clear d);
  async_cache_reset d := async_fn (External.cache_reset d);
  async_cache_reset_metrics _ := async_fn reset_metrics |}.

Definition blocking (q : AsyncCall K V W E) : Prog S G W Rep := @awaited D S G K V W Er E blocking_async d q.

Definition touched (q : AsyncCall K V W E) : Prog S G W unit :=
  match q with
  | AContains k => if eager then (External.cache_contains d k ;;; Ret tt) else Ret tt
  | _ => Ret tt
  end.

Lemma awaited_blocking q : awaited (E := E) d q ≃ blocking q.
Proof.
  destruct q as [k|k|k v|k f|k f|k|k|k| | |]; apply pbind_peq; try (intros ?; apply peq_refl).
  - apply (async_get_lazily (eager := eager)).
  - apply (async_contains_awaited (eager := eager)).
  - apply (async_set_lazily (eager := eager)).
  - apply await_fn, pebind_peq; [apply (async_get_lazily (eager := eager))|]. intros [v|]; [apply peq_refl|].
    apply pbind_peq; [apply peq_refl|]. intros v.
    apply pebind_peq; [apply (async_set_lazily (eager := eager))|]. intros _. apply peq_refl.
  - apply await_fn, pebind_peq; [apply (async_get_lazily (eager := eager))|]. intros [v|]; [apply peq_refl|].
    apply pbind_peq; [apply peq_refl|]. intros [v|e]; [|apply peq_refl].
    apply pebind_peq; [apply (async_set_lazily (eager := eager))|]. intros _. apply peq_refl.
  - apply (async_remove_lazily (eager := eager)).
  - apply (async_remove_entry_lazily (eager := eager)).
  - apply (async_delete_lazily (eager := eager)).
  - apply (async_clear_lazily (eager := eager)).
  - apply (async_reset_lazily (eager := eager)).
  - apply (async_reset_metrics_lazily (eager := eager)).
Qed.

Lemma dropped_touched q : dropped (E := E) d q ≃ touched q.
Proof.
  destruct q as [k|k|k v|k f|k f|k|k|k| | |]; simpl; try apply peq_refl.
  - apply (async_get_lazily (eager := eager)).
  - apply (async_contains_dropped (eager := eager)).
  - apply (async_set_lazily (eager := eager)).
  - apply (async_remove_lazily (eager := eager)).
  - apply (async_remove_entry_lazily (eager := eager)).
  - apply (async_delete_lazily (eager := eager)).
  - apply (async_clear_lazily (eager := eager)).
  - apply (async_reset_lazily (eager := eager)).
  - apply (async_reset_metrics_lazily (eager := eager)).
Qed.

(** A call, in terms of the synchronous trait. *)
Lemma run_async_steps c : run_async (E := E) d c ≃ if c.2 then blocking c.1 else (touched c.1 ;;; Ret (Ok Nothing)).
Proof.
  destruct c as [q []]; [apply awaited_blocking|]. apply pbind_peq; [apply dropped_touched|]. intros _. apply peq_refl.
Qed.
End Calls.

(** ** The stores outside the process *)
Section External.
Context {D S G KX VX K V W Er E : Type} `{!KeyEq KX, !FallibleCached D S G K V W Er, !SerializeCached D S G K V W Er}.
Context (d : D) (L : Layout S G KX VX) (sp : StoreSpec KX VX K V Er) `{HL : !ExternalLaws (W := W) d L sp}.
#[local] Existing Instance external_async.
Notation Rep := (result Er (Reply K V E)).

#[export] Instance external_async_laws : AsyncLaws (W := W) d (External.cache_reset_metrics d) false.
Proof. split; intros; try apply async_fn_lazily; apply peq_refl. Qed.

(** Awaited, the synchronous call; dropped, nothing. *)
Definition external_async_spec (c : AsyncCall K V W E * bool) : SpecOf KX VX Rep :=
  if c.2 then call_spec sp (fun x : Empty_set => match x with end) (sync_call c.1) else sret (Ok Nothing).

Lemma blocking_meets q :
  meets L (call_spec sp (fun x : Empty_set => match x with end) (sync_call q)) (blocking (E := E) d (External.cache_reset_metrics d) q).
Proof.
  destruct q as [k|k|k v|k f|k f|k|k|k| | |]; unfold blocking; simpl; try apply meets_map.
  - apply get_meets.
  - apply contains_meets.
  - apply set_meets.
  - apply meets_try; [apply get_meets|]. intros [v|]; [apply meets_ret|].
    apply meets_bind; [apply meets_await_user|]. intros v. apply meets_try; [apply set_meets|]. intros _. apply meets_ret.
  - apply meets_try; [apply get_meets|]. intros [v|]; [apply meets_ret|].
    apply meets_bind; [apply meets_await_user|]. intros [v|e]; [|apply meets_ret].
    apply meets_try; [apply set_meets|]. intros _. apply meets_ret.
  - apply remove_meets.
  - apply remove_entry_meets.
  - apply delete_meets.
  - apply clear_meets.
  - apply reset_meets.
  - apply meets_ret.
Qed.

Lemma external_async_meets c : meets L (external_async_spec c) (run_async (E := E) d c).
Proof.
  eapply meets_peq; [apply (run_async_steps d (External.cache_reset_metrics d) false)|]. destruct c as [q []]; [apply blocking_meets|].
  destruct q; apply meets_ret.
Qed.
(** *** With the borrowed setter *)
Section Serialize.
Context `{!SerializeCachedAsync D S G K V W Er}.

Class AsyncRefLaws : Prop := {
  async_set_ref_awaited : forall k v, await (W := W) (async_cache_set_ref d k v) ≃ cache_set_ref d k v;
  async_set_ref_dropped : forall k v, meets (W := W) L (sret tt) (drop_future (async_cache_set_ref d k v)) }.

(** A call of either trait; with the flag its future is awaited. *)
Definition external_async_call (c : (AsyncCall K V W E + K * V) * bool) : Prog S G W Rep :=
  match c with
  | (inl q, b) => run_async d (q, b)
  | (inr (k, v), true) => let* r := await (async_cache_set_ref d k v) in Ret (map_ok (fun _ => Nothing) r)
  | (inr (k, v), false) => drop_future (async_cache_set_ref d k v) ;;; Ret (Ok Nothing)
  end.

Definition external_call_spec (c : (AsyncCall K V W E + K * V) * bool) : SpecOf KX VX Rep :=
  match c with
  | (inl q, b) => external_async_spec (q, b)
  | (inr (k, v), true) => let^ r := set_ref_spec sp k v in sret (map_ok (fun _ => Nothing) r)
  | (inr (k, v), false) => sret (Ok Nothing)
  end.

Lemma external_call_meets `{!AsyncRefLaws} c : meets L (external_call_spec c) (external_async_call c).
Proof.
  destruct c as [[q|[k v]] b]; [apply external_async_meets|]. destruct b; simpl.
  - apply meets_map. eapply meets_peq; [apply async_set_ref_awaited|apply set_ref_meets].
  - apply (meets_map L (sret tt) _ (fun _ => Ok Nothing)), async_set_ref_dropped.
Qed.

Lemma external_async_serves `{!AsyncRefLaws} m x : follows_map L m x ->
  implements L external_async_call (fun c => external_call_spec c Rep (fun r => Returns (eq r))) m x.
Proof.
  apply safe_implements. intros c. eapply safe_mono; [|apply external_call_meets].
  intros h t a (-> & ->). split; [done|]. by eexists.
Qed.
End Serialize.
End External.

(** ** The stores in memory *)
Section Sharded.
Context {D S G K V W E : Type} `{!KeyEq K, !ConcurrentCached D S G K V W, !ConcurrentCachePeek D S G K V W}.
Context (d : D) (L : Layout S G K V) `{HL : !ConcurrentLaws (W := W) d L}.
#[local] Existing Instance infallible_cached.
#[local] Existing Instance sharded_async.
Notation reset_metrics := (infallibly (Concurrent.cache_reset_metrics d)).

#[export] Instance sharded_async_laws : AsyncLaws (W := W) d reset_metrics true.
Proof.
  split; intros; try apply async_fn_lazily.
  - split; [|apply peq_refl]. unfold async_cache_delete, await. simpl. unfold infallibly, Concurrent.cache_delete.
    same_steps (Concurrent.cache_remove_entry d k); constructor.
  - unfold await. simpl. unfold infallibly. same_steps (Concurrent.cache_contains d k); constructor.
  - unfold drop_future. simpl. unfold infallibly. same_steps (Concurrent.cache_contains d k); constructor.
Qed.

(** The synchronous call. *)
Definition sharded_call {X} (q : AsyncCall K V W E) : Call K V W E X :=
  match q with
  | AGet k => Get k
  | AContains k => Contains k
  | ASet k v => Set_ k v
  | AGetOrSetWith k f => GetOrSetWith k f.2
  | ATryGetOrSetWith k f => TryGetOrSetWith k f.2
  | ARemove k => Remove k
  | ARemoveEntry k => RemoveEntry k
  | ADelete k => Delete k
  | AClear => Clear
  | AReset => Reset_
  | AResetMetrics => ResetMetrics
  end.

(** Awaited, the synchronous call; dropped, nothing, or the lookup of [async_cache_contains]. *)
Definition sharded_async_spec (c : AsyncCall K V W E * bool) : Spec K V (Reply K V E) :=
  if c.2 then Concurrent.call_spec L (fun x : Empty_set => match x with end) (sharded_call c.1)
  else match c.1 with AContains k => Await (Read k) (fun _ => Returns (eq Nothing)) | _ => Returns (eq Nothing) end.


Definition sharded_async_call (c : AsyncCall K V W E * bool) : Prog S G W (Reply K V E) :=
  Inherent.unwrap (run_async d c).

Lemma unwrap_infallibly {A B} (p : Prog S G W A) (f : A -> B) :
  Inherent.unwrap (let* r := await (async_fn (infallibly p)) in Ret (map_ok f r)) ≃ let* a := p in Ret (f a).
Proof. unfold Inherent.unwrap, infallibly. simpl. same_steps p; constructor. Qed.

(** A get, the factory, a set. *)
Definition compute (k : K) {A} (factory : Prog S G W A) (stored : A -> result E V) : Prog S G W (Reply K V E) :=
  let* r := Concurrent.cache_get d k in
  match r with
  | Some v => Ret (Value (Some v))
  | None =>
      let* a := factory in
      match stored a with
      | Ok v => Concurrent.cache_set d k v ;;; Ret (Value (Some v))
      | Err e => Ret (Failed e)
      end
  end.

Lemma unwrap_get_or_set k f :
  Inherent.unwrap (blocking d reset_metrics (AGetOrSetWith k f)) ≃ compute k (await_user f) Ok.
Proof.
  unfold Inherent.unwrap, blocking, compute. simpl.
  unfold async_cache_get_or_set_with, async_cache_try_get_or_set_with, async_fn, await. simpl. unfold infallibly.
  same_steps (Concurrent.cache_get (S := S) (G := G) (V := V) (W := W) d k). destruct a as [v|]; [constructor|]. simpl.
  same_steps (await_user (S := S) (G := G) f). same_steps (Concurrent.cache_set (S := S) (G := G) (W := W) d k a). constructor.
Qed.

Lemma unwrap_try_get_or_set k f :
  Inherent.unwrap (blocking d reset_metrics (ATryGetOrSetWith k f)) ≃ compute k (await_user f) id.
Proof.
  unfold Inherent.unwrap, blocking, compute. simpl.
  unfold async_cache_get_or_set_with, async_cache_try_get_or_set_with, async_fn, await. simpl. unfold infallibly.
  same_steps (Concurrent.cache_get (S := S) (G := G) (V := V) (W := W) d k). destruct a as [v|]; [constructor|]. simpl.
  same_steps (await_user (S := S) (G := G) f). destruct a as [v|e]; [|constructor]. simpl.
  same_steps (Concurrent.cache_set (S := S) (G := G) (W := W) d k v). constructor.
Qed.

(** The factory's suspensions are no operations; its value is chosen by user code. *)
Lemma await_user_then {A B R} (u : UserFuture W A) (k : A -> Prog S G W B) (q : A -> Spec K V R) Q :
  (forall a, safely L None (q a) (k a) Q) -> safely L None (Choose (may_return u.2) q) (pbind (await_user u) k) Q.
Proof.
  intros Hk. apply call_bind. eapply safe_mono; [|apply meets_await_user]. intros h t a (-> & ->). apply Hk.
Qed.

Lemma compute_safe {A} k (u : UserFuture W A) stored :
  safely L None (or_else k (Choose (may_return u.2)
      (fun a => match stored a with Ok v => store_it k v | Err e => Returns (eq (Failed e)) end)))
    (compute k (await_user u) stored) (post ends).
Proof.
  eapply (does_bind L); [apply get_does|]. intros a r <-. destruct a as [v|]; [by apply post_ret|].
  apply await_user_then. intros a. destruct (stored a) as [v|e]; [|by apply post_ret].
  eapply (does_bind L); [apply set_does|]. intros a' r _. by apply post_ret.
Qed.

Lemma blocking_safe q :
  safely L None (Concurrent.call_spec L (fun x : Empty_set => match x with end) (sharded_call q))
    (Inherent.unwrap (blocking d reset_metrics q)) (post ends).
Proof.
  pose proof (call_safe (W := W) (E := E) (fun x : Empty_set => match x with end) d L
    (fun x : Empty_set => match x with end) HL (fun x => match x with end) (sharded_call q)) as Hq.
  destruct q as [k|k|k v|k f|k f|k|k|k| | |]; unfold blocking; simpl in *;
    try (eapply safe_peq; [apply unwrap_infallibly|exact Hq]).
  - eapply safe_peq; [apply unwrap_get_or_set|]. apply (compute_safe k f Ok).
  - eapply safe_peq; [apply unwrap_try_get_or_set|]. apply (compute_safe k f id).
Qed.

Lemma sharded_async_safe c : safely L None (sharded_async_spec c) (sharded_async_call c) (post ends).
Proof.
  unfold sharded_async_call. eapply safe_peq.
  { apply pbind_peq; [apply (run_async_steps d reset_metrics true)|]. intros r. apply peq_refl. }
  destruct c as [q []]; [apply blocking_safe|]. destruct q as [k|k|k v|k f|k f|k|k|k| | |]; simpl; try by apply post_ret.
  unfold infallibly. do 4 apply call_bind. eapply safe_mono; [|apply contains_does].
  intros h t b (-> & r & -> & _). by apply post_ret.
Qed.

(** C30: The async methods of the sharded stores.  However the calls of several threads interleave: a call
    whose future is awaited is the atomic operations of its synchronous counterpart - for an update, a
    get, then on a miss the factory, suspended any number of times, and a set; a call whose future is
    dropped before it is polled does nothing, but [async_cache_contains], whose lookup has then been made; all calls end. *)
Theorem sharded_async_serves m x : follows_map L m x -> implements L sharded_async_call sharded_async_spec m x.
Proof. apply safe_implements, sharded_async_safe. Qed.

(** The functions [#[concurrent_cached]] generates of an [async fn] look up and store as the others do. *)
Definition sharded_async_memo `{!KeyLaws K} : MemoLaws (MemoStore0 := async_infallible_store) d L same_key all_valid.
Proof.
  refine (memo_peq L (M := infallible_store) d _ _ (sharded_memo d L)).
  - intros k. apply peq_refl.
  - intros k v. simpl. unfold infallibly. same_steps (Concurrent.cache_set (S := S) (G := G) (W := W) d k v); constructor.
Defined.
End Sharded.
