(* ===== verification/ConcurrentMemoRedis.v ===== *)
(** * The redis stores behind functions and in async code ([src/stores/redis.rs])

    [RedisCache] and [AsyncRedisCache] implement the interface [MemoLaws].  The async methods of
    [AsyncRedisCache] are the code of their synchronous counterparts over a clone of the shared connection;
    a set by reference reads the ttl and serializes when it is called, before its future is awaited. *)
From stdpp Require Import relations strings gmap.
From S2P Require Import Prelude Keys Return Stores Shards Concurrent External ConcurrentMemo Async ConcurrentMemoProps AsyncProps.
From S2P Require Import RedisKeys Redis RedisProps RedisStore RedisClear.

Section OverRedis.
Context {Srv Bytes PoolError RedisError SerError DeError K V W : Type}.
Context `{!Redis Srv Settings Bytes PoolError RedisError W, !RedisView Srv Bytes, !EqDecision Bytes}.
Context {glob : Glob} {glob_laws : GlobLaws} `{!RedisLaws Srv Bytes PoolError RedisError W}.
Context `{!Format (CachedRedisValue V) Bytes SerError DeError, !Json (CachedRedisValue V) Bytes, !ToString K}.
Context `{!FormatLaws (CachedRedisValue V) Bytes SerError DeError}.
Context (connect : User W (result PoolError unit)) (pages : nat) (c : RedisCache).
Context (others : string -> option (Bytes * bool)).
Notation Error := (RedisCacheError Bytes PoolError RedisError SerError DeError).
Notation L := (redis_layout (Srv := Srv) (Bytes := Bytes)).

Definition memo_redis : MemoStore RedisCache Srv Settings K V W Error :=
  @serialized_store _ _ _ _ _ _ _ (redis_with connect pages) (redis_ref_with connect).

Definition same_string (k k' : K) : Prop := to_string k = to_string k'.
Definition redis_valid (valid : K -> V -> Prop) : Map string (Bytes * bool) -> Prop :=
  RedisStore.good (SerError := SerError) (DeError := DeError) (PoolError := PoolError) (RedisError := RedisError) c (fun s v => exists k, to_string k = s /\ valid k v) others.

Definition redis_memo :
  @MemoLaws _ _ _ _ _ _ _ _ _ _ memo_redis c L same_string redis_valid.
Proof.
  refine {| lookup_spec k := get_spec (redis_spec pages c) k;
            store_spec k v := set_ref_spec (redis_spec pages c) k v |}.
  - split; [done|by intros k k'|]. intros k1 k2 k3. apply eq_trans.
  - by destruct (redis_laws (K := K) (V := V) connect pages c).
  - by destruct (redis_laws (K := K) (V := V) connect pages c).
  - intros valid k Hs. eapply sound_mono; [apply get_call_sound|]. intros r Hr v E.
    destruct (Hr v E) as (k' & Ek & Hv). by apply (Hs k').
  - intros valid k v Hs Hv. apply set_ref_call_sound; [done|]. by exists k.
Defined.
End OverRedis.

(** ** The async methods of [AsyncRedisCache] *)
Section AsyncMethods.
Context {Srv Bytes PoolError RedisError SerError DeError K V W : Type}.
Context `{!Redis Srv Settings Bytes PoolError RedisError W}.
Context `{!Format (CachedRedisValue V) Bytes SerError DeError, !Json (CachedRedisValue V) Bytes, !ToString K}.
Notation Error := (RedisCacheError Bytes PoolError RedisError SerError DeError).
Notation P := (Prog Srv Settings W).

Definition redis_async (pages : nat) : ConcurrentCachedAsync RedisCache Srv Settings K V W Error :=
  @external_async _ _ _ _ _ _ _ (async_redis_cached pages).

(** The millis of a ttl, none for a ttl of zero; and the request they make. *)
Definition ttl_ms (t : Z) : result Error (option Z) :=
  if t =? 0 then Ok None else map_ok Some (map_err (fun e => Redis_ (FromTtl e)) (ttl_millis t)).

Definition set_or_psetex (key : string) (serialized : Bytes) (ttl_ms : option Z) : P (result Error unit) :=
  match ttl_ms with
  | None => redis (SET key serialized)
  | Some ttl_ms => redis (PSETEX key ttl_ms serialized)
  end.

Definition redis_set_ref_async (c : RedisCache) (k : K) (v : V) : Method Srv Settings W (result Error unit) :=
  let* _ := outside (connection_clone (PoolError := PoolError)) in
  let key := generate_key c k in
  let* t := lock_ttl in
  let ttl_ms := ttl_ms t in
  let serialized := map_err CacheSerialization (to_vec (new_value v)) in
  async_fn (
    try* serialized := Ret serialized in
    try* ttl_ms := Ret ttl_ms in
    set_or_psetex key serialized ttl_ms).

#[export] Instance redis_async_ref : SerializeCachedAsync RedisCache Srv Settings K V W Error := {|
  async_cache_set_ref := redis_set_ref_async |}.

(** *** The properties *)
Context `{!RedisView Srv Bytes, !EqDecision Bytes, glob : Glob, !GlobLaws, !RedisLaws Srv Bytes PoolError RedisError W}.
Context (pages : nat) (c : RedisCache).
Notation L := (redis_layout (Srv := Srv) (Bytes := Bytes)).
#[local] Instance async_calls : FallibleCached RedisCache Srv Settings K V W Error := async_redis_cached pages.
#[local] Existing Instance async_redis_serialize.

#[export] Instance redis_async_ref_laws : AsyncRefLaws (W := W) c L.
Proof.
  split; intros k v.
  - unfold await. simpl. constructor. intros ? (w & w' & [= <- _]). simpl. constructor. intros t. simpl.
    destruct (to_vec _) as [b|e]; [|apply peq_refl]. unfold set_request, ttl_ms. simpl. destruct (t =? 0); [apply peq_refl|].
    unfold millis. destruct (ttl_millis t); apply peq_refl.
  - intros R q w [u|e] w' E; (exists (sret tt R q); split; [intros x; apply rtc_refl|]); intros g Hg; (split; [done|]);
      by exists (sret tt R q).
Qed.

(** The async methods of [AsyncRedisCache], with several tasks and with failures at any point.  However
    their calls interleave, an awaited call is the requests on its own key that its specification
    says, a call whose future is dropped unawaited sends no request, and every call ends. *)
Theorem redis_async_serves {E} (srv : Srv) (g : Settings) :
  implements L (external_async_call (E := E) c)
    (fun q => external_call_spec (W := W) (redis_spec pages c) q _ (fun r => Returns (eq r)))
    (mkMemory [new_shard srv] g) (fun s => contents srv !! s).
Proof. apply external_async_serves; [apply (redis_laws connection_clone pages c)|apply _|apply redis_start]. Qed.
End AsyncMethods.

(** ** A concrete instance *)
Module Demo.
Import Matcher Toy.
#[local] Existing Instances toy_strings toy_format toy_format_laws toy_json.

Lemma redis_async_serves_witness :
  implements (redis_layout (Srv := Srv) (Bytes := Bytes)) 
    (external_async_call (FallibleCached0 := async_redis_cached 2) (SerializeCachedAsync0 := redis_async_ref) (E := unit) users)
    (fun q => external_call_spec (W := unit) (redis_spec (K := string) (V := Z) (PoolError := unit) (RedisError := unit) 2 users) q _
       (fun r => Returns (eq r)))
    (mkMemory [new_shard three] refreshing) (fun s => contents three !! s).
Proof. exact (redis_async_serves 2 users three refreshing). Defined.
End Demo.
