(* ===== verification/ConcurrentMemoDemo.v ===== *)
(** * Witnesses of the properties of [#[concurrent_cached]]

    A function over a [RedisCache] at the toy server, one with [result_fallback] over a [ShardedTtlCache],
    and the async methods of that store. *)
From stdpp Require Import relations strings gmap.
From S2P Require Import Prelude Keys Return Stores Sharded Shards Concurrent External ShardTtl ShardedTtl ShardedTtlProps.
From S2P Require Import ConcurrentMemo Async ConcurrentMemoProps AsyncProps RedisKeys Redis RedisProps RedisStore RedisClear ConcurrentMemoRedis.

(** ** Over redis *)
Module OverRedis.
Import Matcher Toy.
#[local] Existing Instances toy_strings toy_format toy_format_laws toy_json.

Notation Error := (RedisCacheError Bytes unit unit unit unit).

(** A body that fails on the empty string; an error of the store becomes [Err false]. *)
Definition body (a : string) : User unit (result bool Z) :=
  fun w => (Some (if decide (a = "") then Err true else Ok 7), w).
Definition unwrap (e : Error) : User unit (result bool Z) := fun w => (Some (Err false), w).
Definition force (a : string) : User unit bool := fun w => (Some (bool_decide (a = "fresh")), w).

#[local] Instance store : MemoStore RedisCache Srv Settings string Z unit Error := memo_redis pool_get 2.
#[local] Instance laws : MemoLaws (W := unit) users L same_string (redis_valid users (fun _ => None)) :=
  redis_memo pool_get 2 users (fun _ => None).

Notation memo := (memo_call (Er := Error) users id (Some force) (fun _ => []) body unwrap).

(** The first call runs the body and stores its result under the key of the string; the second finds it. *)
Example memo_runs :
  exec (let* r := memo ("a", false) in let* r' := memo ("a", false) in Ret (r, r'))
    (memory_over refreshing (mkCounters 0 0 0) ∅, tt) =
  (Done (("a", Ok 7), ("a", Ok 7)), (memory_over refreshing (mkCounters 0 0 0) {["app:users:a" := (Some 7, true)]}, tt)).
Proof. reflexivity. Qed.

Lemma empty_follows : follows_map L (mkMemory [new_shard (∅ : Srv)] refreshing) (fun _ => None).
Proof. exact (redis_start (∅ : Srv) refreshing). Qed.

Lemma concurrent_memo_serves_witness :
  implements L memo (memo_call_spec users L id (Some force) body unwrap) (mkMemory [new_shard (∅ : Srv)] refreshing) (fun _ => None).
Proof. exact (concurrent_memo_serves users L id (Some force) (fun _ => []) body unwrap _ _ empty_follows). Defined.

Lemma concurrent_memo_sound_witness :
  redis_valid (PoolError := unit) (RedisError := unit) (SerError := unit) (DeError := unit) users (fun _ => None)
    (produced (same := same_string) id body) (fun _ => None) /\
  forall w g t a v,
  reachable memo (mkMemory [new_shard (∅ : Srv)] refreshing) w g -> threads g !! t = Some (Ret (a, Ok v)) -> v = 7.
Proof.
  split; [by split|]. intros w g t a v Hr Ht.
  destruct (concurrent_memo_sound users L id (Some force) (fun _ => []) body unwrap _ _ w g t a (Ok v) empty_follows) as [(a' & r' & _ & (w1 & w2 & E) & Hc)|(e & w1 & w2 & E)];
    [by split|exact Hr|exact Ht| |by injection E].
  apply comes_from_eq in Hc. subst r'. unfold body in E. destruct (decide (a' = "")); by simplify_eq.
Defined.
End OverRedis.

(** ** Over a sharded store *)
Module OverTtl.
Import Tick.
#[local] Existing Instances async_infallible_store.

(** A body that fails from the time 5 on. *)
Definition body (a : TaggedKey.t) : User Tick.t (result bool Z) :=
  fun w => (Some (if time w <? 5 then Ok 7 else Err true), w).
(** It suspends once before that. *)
Definition pauses (a : TaggedKey.t) : list (User Tick.t unit) := [fun w => (Some tt, w)].
Definition unwrap (e : Empty_set) : User Tick.t (result bool Z) := match e with end.

Lemma concurrent_fallback_serves_witness : exists c m (Hd : proper (inner c)),
  ShardedTtl.build (Some 8) ttl_demo = Done (Ok (c, m)) /\
  forall w g t a v, reachable (fallback_call c id None pauses body unwrap) m w g -> Shards.threads g !! t = Some (Ret (a, Ok v)) -> v = 7.
Proof.
  destruct (ShardedTtl.build (Some 8) ttl_demo) as [[[c m]|e]| |] eqn:EB; try discriminate EB.
  destruct (ttl_built_follows (Some 8) ttl_demo c m) as [Hd Hm]; [|done|].
  { split; [done|]. exists spread. split; [done|apply spread_ok]. }
  exists c, m, Hd. split; [done|].
  pose proof (sharded_async_memo c (ttl_layout c Hd)) as HM.
  destruct (concurrent_fallback_serves c (ttl_layout c Hd) id None pauses body unwrap m (fun _ => None) Hm) as [_ Hs]; [done|].
  intros w g t a v Hr Ht. destruct (Hs w g t a (Ok v) Hr Ht) as [(a' & r' & _ & (w1 & w2 & E) & Hc)|([] & _)].
  apply comes_from_eq in Hc. subst r'. unfold body in E. destruct (time w1 <? 5); by simplify_eq.
Defined.

Lemma sharded_async_serves_witness : exists c m (Hd : proper (inner c)),
  ShardedTtl.build (Some 8) ttl_demo = Done (Ok (c, m)) /\
  implements (ttl_layout c Hd) (sharded_async_call (E := bool) c) (sharded_async_spec (ttl_layout c Hd)) m (fun _ => None).
Proof.
  destruct (ShardedTtl.build (Some 8) ttl_demo) as [[[c m]|e]| |] eqn:EB; try discriminate EB.
  destruct (ttl_built_follows (Some 8) ttl_demo c m) as [Hd Hm]; [|done|].
  { split; [done|]. exists spread. split; [done|apply spread_ok]. }
  exists c, m, Hd. split; [done|]. exact (sharded_async_serves c (ttl_layout c Hd) m (fun _ => None) Hm).
Defined.

(** A set whose future is dropped has not been made; an update of the missing key, awaited, suspends and
    stores its value. *)
Example async_update : exists c m m',
  ShardedTtl.build (Some 8) ttl_demo = Done (Ok (c, m)) /\
  exec (let* a := sharded_async_call (E := bool) c (ASet k1 3, false) in
        let* b := sharded_async_call (E := bool) c (AGet k1, true) in
        let* v := sharded_async_call (E := bool) c (AGetOrSetWith k1 ([fun w => (Some tt, w)], fun w => (Some 4, w)), true) in
        let* b' := sharded_async_call (E := bool) c (AContains k1, false) in Ret (a, b, v, b')) (m, Tick.mk 0 []) =
  (Done (Nothing, Value None, Value (Some 4), Nothing), m').
Proof.
  destruct (ShardedTtl.build (Some 8) ttl_demo) as [[[c m]|e]| |] eqn:EB; try discriminate EB.
  injection EB as <- <-. eexists _, _, _. split; [done|]. by vm_compute.
Qed.
End OverTtl.
