(* ===== verification/RedbAsync.v ===== *)
(** * The async methods of [RedbCache] ([src/stores/redb.rs])

    [redb] has no async interface: every method hands its operation to the blocking pool, where it runs to
    its end even if the future is dropped meanwhile.  A set by reference reads the clock and serializes
    when it is called, before its future is awaited. *)
From stdpp Require Import relations strings gmap.
From S2P Require Import Prelude Keys Stores Shards Concurrent External ConcurrentMemo Async ConcurrentMemoProps AsyncProps.
From S2P Require Import Redb RedbBuild RedbProps RedbBuildProps RedbStore.

(** ** Futures that hand work to the blocking pool

    What the future of an [async] block does: steps of its own when it is polled, suspensions of the user's
    code, and operations that [blocking::unblock] runs on another thread while the future is suspended. *)
Inductive Task (S G W A : Type) : Type :=
| Ready (a : A)
| Poll {X : Type} (p : Prog S G W X) (k : X -> Task S G W A)
| Suspend (t : Task S G W A)
| Unblock {X : Type} (p : Prog S G W X) (k : X -> Task S G W A).
Arguments Ready {S G W A} a.
Arguments Poll {S G W A X} p k.
Arguments Suspend {S G W A} t.
Arguments Unblock {S G W A X} p k.

Section Task.
Context {S G W : Type}.

Fixpoint tbind {A B} (t : Task S G W A) (k : A -> Task S G W B) : Task S G W B :=
  match t with
  | Ready a => k a
  | Poll p f => Poll p (fun x => tbind (f x) k)
  | Suspend t => Suspend (tbind t k)
  | Unblock p f => Unblock p (fun x => tbind (f x) k)
  end.
Definition tmap {A B} (f : A -> B) (t : Task S G W A) : Task S G W B := tbind t (fun a => Ready (f a)).

(** Awaited to its end. *)
Fixpoint run {A} (t : Task S G W A) : Prog S G W A :=
  match t with
  | Ready a => Ret a
  | Poll p k => let* x := p in run (k x)
  | Suspend t => run t
  | Unblock p k => let* x := p in run (k x)
  end.

(** Dropped where it is suspended for the [n]-th time; before it is polled at all, if [n] is 0.  An operation
    that is then on the pool runs to its end there, and its result is discarded; the caller does not wait for
    it, and its next calls are calls of other threads. *)
Fixpoint cut {A} (n : nat) (t : Task S G W A) : Prog S G W unit :=
  match n with
  | O => Ret tt
  | Datatypes.S n' =>
      match t with
      | Ready _ => Ret tt
      | Poll p k => let* x := p in cut n (k x)
      | Suspend t => cut n' t
      | Unblock p k => let* x := p in cut n' (k x)
      end
  end.

(** A future of the user's. *)
Fixpoint user_task {A} (pauses : list (User W unit)) (f : User W A) : Task S G W A :=
  match pauses with
  | [] => Poll (outside f) Ready
  | m :: pauses => Poll (outside m) (fun _ => Suspend (user_task pauses f))
  end.
End Task.

Notation "'let~' x ':=' t 'in' u" := (tbind t (fun x => u))
  (at level 10, x pattern, t at level 100, u at level 200) : prog_scope.

(** ** The methods *)
Section OnDisk.
Context {DB RTxn WTxn Bytes IoError SerError DeError K V W : Type}.
Context `{!Redb DB RTxn WTxn Bytes IoError W}.
Context `{!Format (CachedDiskValue V) Bytes SerError DeError, !Clock W, !ToString K}.
Notation Error := (RedbCacheError Bytes IoError SerError DeError).
Notation T := (Task DB Settings W).

Definition redb_get_task (c : RedbCache) (k : K) : T (result Error (option V)) :=
  Poll lock_ttl (fun ttl =>
  Poll load_refresh (fun refresh =>
  Unblock (disk_cache_get (to_string k) ttl refresh (durable c) (strict_deserialization c)) Ready)).

Definition redb_set_task (c : RedbCache) (k : K) (v : V) : T (result Error (option V)) :=
  Poll lock_ttl (fun ttl =>
  Poll (outside system_now) (fun now =>
  match to_vec (mkDiskValue v now) with
  | Err e => Ready (Err (CacheSerialization e))
  | Ok serialized => Unblock (disk_cache_set (to_string k) serialized ttl (durable c)) Ready
  end)).

Definition redb_remove_task (c : RedbCache) (k : K) : T (result Error (option V)) :=
  Poll lock_ttl (fun ttl => Unblock (disk_cache_remove (to_string k) ttl (durable c)) Ready).

Definition redb_remove_entry_task (c : RedbCache) (k : K) : T (result Error (option (K * V))) :=
  Unblock (disk_cache_remove_entry (to_string k) (durable c)) (fun r => Ready (map_ok (fmap (fun v => (k, v))) r)).

Definition redb_delete_task (c : RedbCache) (k : K) : T (result Error bool) :=
  Unblock (disk_cache_delete (to_string k) (durable c)) Ready.

Definition redb_contains_task (c : RedbCache) (k : K) : T (result Error bool) :=
  let~ r := redb_get_task c k in Ready (map_ok is_some r).

Definition redb_clear_task (c : RedbCache) : T (result Error unit) := Unblock (disk_cache_clear (durable c)) Ready.

(** Serialized when it is called; the error waits in the future. *)
Definition redb_set_ref_async (c : RedbCache) (k : K) (v : V) : Prog DB Settings W (T (result Error unit)) :=
  let* now := outside system_now in
  let serialized := map_err CacheSerialization (to_vec (mkDiskValue v now)) in
  Ret match serialized with
      | Err e => Ready (Err e)
      | Ok serialized => Unblock (disk_cache_set_no_return (to_string k) serialized (durable c)) Ready
      end.

(** The provided methods, as futures. *)
Definition redb_get_or_set_task (c : RedbCache) (k : K) (f : UserFuture W V) : T (result Error V) :=
  let~ r := redb_get_task c k in
  match r with
  | Err e => Ready (Err e)
  | Ok (Some v) => Ready (Ok v)
  | Ok None =>
      let~ v := user_task f.1 f.2 in
      let~ r := redb_set_task c k v in
      Ready (map_ok (fun _ => v) r)
  end.

Definition redb_try_get_or_set_task {E} (c : RedbCache) (k : K) (f : UserFuture W (result E V)) : T (result Error (result E V)) :=
  let~ r := redb_get_task c k in
  match r with
  | Err e => Ready (Err e)
  | Ok (Some v) => Ready (Ok (Ok v))
  | Ok None =>
      let~ r := user_task f.1 f.2 in
      match r with
      | Ok v => let~ r := redb_set_task c k v in Ready (map_ok (fun _ => Ok v) r)
      | Err e => Ready (Ok (Err e))
      end
  end.

Definition async_flush (c : RedbCache) : T (result Error unit) := Unblock redb_flush Ready.
Definition async_remove_expired_entries (c : RedbCache) : T (result Error Z) :=
  Poll lock_ttl (fun ttl => Unblock (remove_expired_entries_impl (V := V) ttl (strict_deserialization c) (durable c)) Ready).

(** The trait, whose methods a caller awaits. *)
Definition redb_async : ConcurrentCachedAsync RedbCache DB Settings K V W Error := {|
  async_cache_get c k := async_fn (run (redb_get_task c k));
  async_cache_set c k v := async_fn (run (redb_set_task c k v));
  async_cache_remove c k := async_fn (run (redb_remove_task c k));
  async_cache_remove_entry c k := async_fn (run (redb_remove_entry_task c k));
  async_cache_delete c k := async_fn (run (redb_delete_task c k));
  async_cache_contains c k := async_fn (run (redb_contains_task c k));
  async_cache_clear c := async_fn (run (redb_clear_task c));
  async_cache_reset c := async_fn (run (redb_clear_task c));
  async_cache_reset_metrics _ := async_fn (Ret (Ok tt)) |}.

Definition redb_async_ref : SerializeCachedAsync RedbCache DB Settings K V W Error := {|
  async_cache_set_ref c k v := let* t := redb_set_ref_async c k v in async_fn (run t) |}.

(** ** Calls *)

(** A call of the trait, the set by reference, and the store's own async methods. *)
Inductive RedbFuture (E : Type) : Type :=
| RCall (q : AsyncCall K V W E)
| RSetRef (k : K) (v : V)
| RFlush
| RSweep.
End OnDisk.
Arguments RedbFuture : clear implicits.
Arguments RCall {K V W E} q.
Arguments RSetRef {K V W E} k v.
Arguments RFlush {K V W E}.
Arguments RSweep {K V W E}.

Section Calls.
Context {DB RTxn WTxn Bytes IoError SerError DeError K V W E : Type}.
Context `{!Redb DB RTxn WTxn Bytes IoError W}.
Context `{!Format (CachedDiskValue V) Bytes SerError DeError, !Clock W, !ToString K}.
Notation Error := (RedbCacheError Bytes IoError SerError DeError).
Notation Rep := (result Error (Reply K V E)).
Notation nothing := (map_ok (fun _ => @Nothing K V E)).

(** What a call runs when it is made, and the future it leaves. *)
Definition redb_future (c : RedbCache) (q : RedbFuture K V W E) : Prog DB Settings W (Task DB Settings W Rep) :=
  match q with
  | RCall (AGet k) => Ret (tmap (map_ok Value) (redb_get_task c k))
  | RCall (AContains k) => Ret (tmap (map_ok Flag) (redb_contains_task (V := V) c k))
  | RCall (ASet k v) => Ret (tmap (map_ok Value) (redb_set_task c k v))
  | RCall (AGetOrSetWith k f) => Ret (tmap (map_ok (fun v => Value (Some v))) (redb_get_or_set_task c k f))
  | RCall (ATryGetOrSetWith k f) => Ret (tmap (map_ok reply_of) (redb_try_get_or_set_task c k f))
  | RCall (ARemove k) => Ret (tmap (map_ok Value) (redb_remove_task c k))
  | RCall (ARemoveEntry k) => Ret (tmap (map_ok Entry) (redb_remove_entry_task c k))
  | RCall (ADelete k) => Ret (tmap (map_ok Flag) (redb_delete_task c k))
  | RCall AClear | RCall AReset => Ret (tmap nothing (redb_clear_task c))
  | RCall AResetMetrics => Ret (Ready (Ok Nothing))
  | RSetRef k v => let* t := redb_set_ref_async c k v in Ret (tmap nothing t)
  | RFlush => Ret (tmap nothing (async_flush c))
  | RSweep => Ret (tmap (map_ok (fun n => Numbers [Some n])) (async_remove_expired_entries (V := V) c))
  end.

(** Awaited, or dropped where it is suspended for the [n]-th time. *)
Definition redb_async_call (c : RedbCache) (p : RedbFuture K V W E * option nat) : Prog DB Settings W Rep :=
  let* t := redb_future c p.1 in
  match p.2 with
  | None => run t
  | Some n => cut n t ;;; Ret (Ok Nothing)
  end.

(** *** Their specification *)
Context `{!RedbView DB RTxn WTxn Bytes}.
Context (ttl_ok : option Z -> Prop) (strict : bool).
Notation sp := (redb_spec (K := K) (V := V) (W := W) (IoError := IoError) (SerError := SerError) ttl_ok strict).

(** Awaited, a call is the operations on the table of its synchronous counterpart. *)
Definition redb_awaited_spec (q : RedbFuture K V W E) : SpecOf string Bytes Rep :=
  match q with
  | RCall q => call_spec sp (fun x : Empty_set => match x with end) (sync_call q)
  | RSetRef k v => call_spec (W := W) sp (fun x : Empty_set => match x with end) (XSetRef k v)
  | RFlush => let^ r := schoose flushed in sret (map_ok (fun _ => Nothing) r)
  | RSweep =>
      let^ t := some_ttl ttl_ok in
      let^ r := sweep_spec (V := V) (W := W) t strict in sret (map_ok (fun n => Numbers [Some n]) r)
  end.

(** A lookup, and, on a miss, the rest - if the future is still there when the user's has gone through its
    pauses, of which there are [pauses]. *)
Definition redb_cut_compute {A} (k : K) (f : User W A) (stored : A -> option V) (pauses n : nat) : SpecOf string Bytes unit :=
  let^ r := get_spec sp k in
  match r with
  | Ok None =>
      if (n <=? pauses)%nat then sret tt
      else
        let^ a := schoose (may_return f) in
        match stored a with
        | Some v => let^ _ := set_spec sp k v in sret tt
        | None => sret tt
        end
  | _ => sret tt
  end.

(** Dropped before it is polled, nothing - whatever was done when it was called left the table alone;
    dropped later, all of the operation that has been started, and nothing after it. *)
Definition redb_cut_spec (n : nat) (q : RedbFuture K V W E) : SpecOf string Bytes unit :=
  match n with
  | O => sret tt
  | S n =>
      match q with
      | RCall (AGetOrSetWith k f) => redb_cut_compute k f.2 Some (length f.1) n
      | RCall (ATryGetOrSetWith k f) => redb_cut_compute k f.2 ok (length f.1) n
      | q => let^ _ := redb_awaited_spec q in sret tt
      end
  end.

Definition redb_async_spec (p : RedbFuture K V W E * option nat) : SpecOf string Bytes Rep :=
  match p.2 with
  | None => redb_awaited_spec p.1
  | Some n => let^ _ := redb_cut_spec n p.1 in sret (Ok Nothing)
  end.
End Calls.

(** ** Futures and the programs they run *)
Section TaskLemmas.
Context {S G W : Type}.
Notation T := (Task S G W).

(** Steps before a bind. *)
Lemma pbind_nest {X A B} (p : Prog S G W X) (q : X -> Prog S G W B) (f : X -> Prog S G W A) (k : A -> Prog S G W B) :
  (forall x, q x ≃ pbind (f x) k) -> pbind p q ≃ pbind (pbind p f) k.
Proof. intros H. same_steps p. apply H. Qed.

Lemma run_tbind {A B} (t : T A) (k : A -> T B) : run (tbind t k) ≃ let* a := run t in run (k a).
Proof.
  induction t as [a|X p f IH|t IH|X p f IH]; simpl; [apply peq_refl|by apply pbind_nest|exact IH|by apply pbind_nest].
Qed.

Lemma run_user_task {A} (f : UserFuture W A) : run (S := S) (G := G) (user_task f.1 f.2) ≃ await_user f.
Proof.
  destruct f as [ms f]. unfold await_user. simpl. induction ms as [|m ms IH]; simpl; [apply peq_refl|].
  constructor. intros _ _. exact IH.
Qed.

(** At most one operation on the pool, and then only the answer. *)
Fixpoint one_shot {A} (t : T A) : Prop :=
  match t with
  | Ready _ => True
  | Poll _ k => forall x, one_shot (k x)
  | Suspend _ => False
  | Unblock _ k => forall x, exists a, k x = Ready a
  end.

(** Exactly one. *)
Fixpoint single {A} (t : T A) : Prop :=
  match t with
  | Ready _ | Suspend _ => False
  | Poll _ k => forall x, single (k x)
  | Unblock _ k => forall x, exists a, k x = Ready a
  end.

Lemma one_shot_tmap {A B} (f : A -> B) (t : T A) : one_shot t -> one_shot (tmap f t).
Proof.
  induction t as [a|X p k IH|t IH|X p k IH]; intros H; [done| |done|]; intros x.
  - apply (IH x), H.
  - destruct (H x) as [a ->]. by eexists.
Qed.

(** Dropped once it has been polled, such a future has done all it does, but answer. *)
Lemma cut_one_shot {A} n (t : T A) : one_shot t -> cut (Datatypes.S n) t ≃ (run t ;;; Ret tt).
Proof.
  induction t as [a|X p k IH|t IH|X p k IH]; intros H; [apply peq_refl| |done|]; simpl; apply pbind_nest; intros x.
  - apply (IH x), H.
  - destruct (H x) as [a ->]. simpl. destruct n; apply peq_refl.
Qed.

Lemma cut_single {A B} n (t : T A) (k : A -> T B) : single t -> cut (Datatypes.S n) (tbind t k) ≃ let* a := run t in cut n (k a).
Proof.
  induction t as [a|X p f IH|t IH|X p f IH]; intros H; try done; simpl; apply pbind_nest; intros x.
  - apply (IH x), H.
  - destruct (H x) as [a ->]. apply peq_refl.
Qed.

Lemma cut_tmap {A B} n (f : A -> B) (t : T A) : cut n (tmap f t) ≃ cut n t.
Proof.
  revert n. induction t as [a|X p k IH|t IH|X p k IH]; intros [|n]; simpl; try apply peq_refl.
  - apply pbind_peq; [apply peq_refl|]. intros x. apply (IH x (Datatypes.S n)).
  - apply IH.
  - apply pbind_peq; [apply peq_refl|]. intros x. apply (IH x n).
Qed.

Context {KX VX : Type} `{!KeyEq KX} (L : Layout S G KX VX).

(** Steps of user code that the specification does not see. *)
Lemma meets_unseen {A X} (s : SpecOf KX VX A) (m : User W X) (k : X -> Prog S G W A) :
  (forall x, meets L s (k x)) -> meets L s (let* x := outside m in k x).
Proof. intros H R q w x w' _. exists (s R q). split; [intros ?; apply rtc_refl|]. apply H. Qed.

Lemma meets_cut {A} n (s : SpecOf KX VX A) (t : T A) : one_shot t -> meets L s (run t) ->
  meets L (let^ _ := s in sret tt) (cut (Datatypes.S n) t).
Proof. intros H Hm. eapply meets_peq; [by apply cut_one_shot|]. by apply (meets_map L s (run t) (fun _ => tt)). Qed.

(** A future of the user's, dropped among its pauses or gone through. *)
Lemma meets_cut_user {A B} n ms (f : User W A) (k : A -> T B) (s : A -> SpecOf KX VX unit) :
  (forall a m, n = (length ms + Datatypes.S m)%nat -> meets L (s a) (cut (Datatypes.S m) (k a))) ->
  meets L (if (n <=? length ms)%nat then sret tt else let^ a := schoose (may_return f) in s a) (cut n (tbind (user_task ms f) k)).
Proof.
  revert n. induction ms as [|m ms IH]; intros n Hk.
  - destruct n as [|n]; [apply meets_ret|].
    apply (meets_bind L (schoose (may_return f)) (outside f) s (fun a => cut (Datatypes.S n) (k a))); [apply meets_outside|].
    intros a. by apply Hk.
  - destruct n as [|n]; [apply meets_ret|].
    apply (meets_unseen _ m (fun _ => cut n (tbind (user_task ms f) k))). intros _. apply IH. intros a j Hj. apply Hk. simpl. lia.
Qed.
End TaskLemmas.

(** ** The methods meet their specification *)
Section Serves.
Context {DB RTxn WTxn Bytes IoError SerError DeError K V W E : Type}.
Context `{!Redb DB RTxn WTxn Bytes IoError W, !RedbView DB RTxn WTxn Bytes, !RedbLaws DB RTxn WTxn Bytes IoError W}.
Context `{!Format (CachedDiskValue V) Bytes SerError DeError, !Clock W, !ToString K}.
Context (ttl_ok : option Z -> Prop) (c : RedbCache).
Notation Error := (RedbCacheError Bytes IoError SerError DeError).
Notation Rep := (result Error (Reply K V E)).
Notation L := (redb_layout (DB := DB) (RTxn := RTxn) (WTxn := WTxn) (Bytes := Bytes) ttl_ok).
Notation sp := (redb_spec (K := K) (V := V) (W := W) (IoError := IoError) (SerError := SerError) ttl_ok (strict_deserialization c)).
Notation T := (Task DB Settings W).
#[local] Instance calls : FallibleCached RedbCache DB Settings K V W Error := redb_cached.

(** Run to their ends, the futures are the synchronous calls. *)
Lemma get_task_runs k : run (redb_get_task c k) ≃ redb_get (V := V) c k.
Proof. constructor. intros t. constructor. intros r. apply pbind_ret. Qed.
Lemma set_task_runs k v : run (redb_set_task c k v) ≃ redb_set c k v.
Proof.
  constructor. intros t. constructor. intros now _. simpl. destruct (to_vec _); [apply pbind_ret|apply peq_refl].
Qed.
Lemma remove_task_runs k : run (redb_remove_task c k) ≃ redb_remove (V := V) c k.
Proof. constructor. intros t. apply pbind_ret. Qed.
Lemma get_task_meets k : meets L (get_spec sp k) (run (redb_get_task c k)).
Proof. eapply meets_peq; [apply get_task_runs|apply (External.get_meets (FallibleCached0 := calls))]. Qed.
Lemma set_task_meets k v : meets L (set_spec sp k v) (run (redb_set_task c k v)).
Proof. eapply meets_peq; [apply set_task_runs|apply (External.set_meets (FallibleCached0 := calls))]. Qed.
Lemma remove_task_meets k : meets L (remove_spec sp k) (run (redb_remove_task c k)).
Proof. eapply meets_peq; [apply remove_task_runs|apply (External.remove_meets (FallibleCached0 := calls))]. Qed.
Lemma remove_entry_task_meets k : meets L (remove_entry_spec sp k) (run (redb_remove_entry_task c k)).
Proof. apply (External.remove_entry_meets (FallibleCached0 := calls)). Qed.
Lemma delete_task_meets k : meets L (delete_spec sp k) (run (redb_delete_task c k)).
Proof. eapply meets_peq; [apply pbind_ret|apply (External.delete_meets (FallibleCached0 := calls))]. Qed.
Lemma contains_task_meets k : meets L (contains_spec sp k) (run (redb_contains_task (V := V) c k)).
Proof. eapply meets_peq; [apply run_tbind|]. apply (meets_map L), get_task_meets. Qed.
Lemma clear_task_meets : meets L (clear_spec sp) (run (redb_clear_task c)).
Proof. eapply meets_peq; [apply pbind_ret|apply (External.clear_meets (FallibleCached0 := calls))]. Qed.

Lemma meets_tmap {A B} s (t : T A) (f : A -> B) : meets L s (run t) -> meets L (let^ a := s in sret (f a)) (run (tmap f t)).
Proof. intros H. eapply meets_peq; [apply run_tbind|]. by apply meets_map. Qed.

Lemma run_user_meets {A} (f : UserFuture W A) : meets L (schoose (may_return f.2)) (run (user_task f.1 f.2)).
Proof. eapply meets_peq; [apply run_user_task|apply meets_await_user]. Qed.

(** The provided methods, awaited. *)
Lemma get_or_set_task_meets k f : meets L (get_or_set_spec sp k f.2) (run (redb_get_or_set_task c k f)).
Proof.
  eapply meets_peq; [apply run_tbind|]. apply meets_bind; [apply get_task_meets|]. intros [[v|]|e]; [apply meets_ret| |apply meets_ret].
  eapply meets_peq; [apply run_tbind|]. apply meets_bind; [apply run_user_meets|]. intros v.
  eapply meets_peq; [apply run_tbind|]. apply meets_bind; [apply set_task_meets|]. intros [o|e]; apply meets_ret.
Qed.

Lemma try_get_or_set_task_meets k (f : UserFuture W (result E V)) :
  meets L (try_get_or_set_spec sp k f.2) (run (redb_try_get_or_set_task c k f)).
Proof.
  eapply meets_peq; [apply run_tbind|]. apply meets_bind; [apply get_task_meets|]. intros [[v|]|e]; [apply meets_ret| |apply meets_ret].
  eapply meets_peq; [apply run_tbind|]. apply meets_bind; [apply run_user_meets|]. intros [v|e]; [|apply meets_ret].
  eapply meets_peq; [apply run_tbind|]. apply meets_bind; [apply set_task_meets|]. intros [o|e]; apply meets_ret.
Qed.

Lemma set_ref_runs k v :
  (let* t := redb_future (E := E) c (RSetRef k v) in run t) ≃ let* r := redb_set_ref c k v in Ret (map_ok (fun _ => Nothing) r).
Proof. constructor. intros now _. simpl. destruct (to_vec _); apply peq_refl. Qed.

(** Awaited. *)
Lemma redb_awaited_meets (q : RedbFuture K V W E) :
  meets L (redb_awaited_spec (IoError := IoError) (SerError := SerError) ttl_ok (strict_deserialization c) q) (let* t := redb_future c q in run t).
Proof.
  destruct q as [[k|k|k v|k f|k f|k|k|k| | |]|k v| |]; try apply meets_tmap.
  - apply get_task_meets.
  - apply contains_task_meets.
  - apply set_task_meets.
  - apply get_or_set_task_meets.
  - apply try_get_or_set_task_meets.
  - apply remove_task_meets.
  - apply remove_entry_task_meets.
  - apply delete_task_meets.
  - apply clear_task_meets.
  - apply clear_task_meets.
  - apply meets_ret.
  - eapply meets_peq; [apply set_ref_runs|]. apply (meets_map L (set_ref_spec sp k v)).
    exact (External.set_ref_meets (FallibleCached0 := calls) (SerializeCached0 := redb_serialize) (ExternalLaws := redb_laws ttl_ok c) k v).
  - eapply meets_peq; [apply pbind_ret|apply flush_meets].
  - apply (meets_bind L (some_ttl ttl_ok) lock_ttl); [apply lock_ttl_meets|]. intros t.
    apply (meets_map L), impl_meets.
Qed.

(** *** Dropped *)

Lemma get_task_single k : single (redb_get_task (V := V) c k).
Proof. intros t r x. by eexists. Qed.
Lemma get_task_one_shot k : one_shot (redb_get_task (V := V) c k).
Proof. intros t r x. by eexists. Qed.
Lemma set_task_one_shot k v : one_shot (redb_set_task c k v).
Proof. intros t now. destruct (to_vec _); simpl; [intros x; by eexists|done]. Qed.

(** Whether a call is one operation on the pool at most. *)
Definition plain (q : RedbFuture K V W E) : bool :=
  match q with
  | RCall (AGetOrSetWith _ _) | RCall (ATryGetOrSetWith _ _) | RSetRef _ _ => false
  | _ => true
  end.

Lemma plain_one_shot q : plain q -> exists t, redb_future c q = Ret t /\ one_shot t.
Proof.
  destruct q as [[k|k|k v|k f|k f|k|k|k| | |]|k v| |]; intros H; try done; (eexists; split; [reflexivity|]).
  all: try apply one_shot_tmap; try done.
  - apply get_task_one_shot.
  - apply one_shot_tmap, get_task_one_shot.
  - apply set_task_one_shot.
  - intros t x. by eexists.
  - intros x. by eexists.
  - intros x. by eexists.
  - intros x. by eexists.
  - intros x. by eexists.
  - intros x. by eexists.
  - intros t x. by eexists.
Qed.

Lemma plain_cut_meets n q : plain q ->
  meets L (let^ _ := redb_awaited_spec (IoError := IoError) (SerError := SerError) ttl_ok (strict_deserialization c) q in sret tt)
    (let* t := redb_future c q in cut (Datatypes.S n) t).
Proof.
  intros H. destruct (plain_one_shot q H) as (t & Ht & Hs). pose proof (redb_awaited_meets q) as Hm.
  rewrite Ht in Hm |- *. by apply (meets_cut L n).
Qed.

(** A get-or-set: its lookup, then the user's future, then the set. *)
Lemma compute_cut_meets {A B} n k (f : UserFuture W A) (stored : A -> option V) (after : result Error (option V) -> T B) (rest : A -> T B) :
  after (Ok None) = tbind (user_task f.1 f.2) rest ->
  (forall v, exists b, after (Ok (Some v)) = Ready b) -> (forall e, exists b, after (Err e) = Ready b) ->
  (forall a m, meets L (match stored a with Some v => let^ _ := set_spec sp k v in sret tt | None => sret tt end) (cut (Datatypes.S m) (rest a))) ->
  meets L (redb_cut_compute (IoError := IoError) (SerError := SerError) ttl_ok (strict_deserialization c) k f.2 stored (length f.1) n) (cut (Datatypes.S n) (tbind (redb_get_task c k) after)).
Proof.
  intros Hmiss Hhit Herr Hrest. eapply meets_peq; [apply cut_single, get_task_single|]. apply meets_bind; [apply get_task_meets|].
  intros [[v|]|e].
  - destruct (Hhit v) as [b ->]. destruct n; apply meets_ret.
  - rewrite Hmiss. apply meets_cut_user. intros a m _. apply Hrest.
  - destruct (Herr e) as [b ->]. destruct n; apply meets_ret.
Qed.

Lemma set_cut_meets {A} n k v (f : result Error (option V) -> A) :
  meets L (let^ _ := set_spec sp k v in sret tt) (cut (Datatypes.S n) (tmap f (redb_set_task c k v))).
Proof. eapply meets_peq; [apply cut_tmap|]. apply (meets_cut L n (set_spec sp k v)); [apply set_task_one_shot|apply set_task_meets]. Qed.

(** A set by reference, dropped after it was polled, has been served. *)
Lemma set_ref_cut n k v :
  (let* t := redb_future (E := E) c (RSetRef k v) in cut (Datatypes.S n) t) ≃ let* _ := redb_set_ref c k v in Ret tt.
Proof.
  constructor. intros now _. cbn -[disk_cache_set_no_return]. destruct (to_vec _); [|apply peq_refl].
  apply pbind_peq; [apply peq_refl|]. intros r. destruct n; apply peq_refl.
Qed.

Lemma redb_cut_meets n (q : RedbFuture K V W E) :
  meets L (redb_cut_spec (IoError := IoError) (SerError := SerError) ttl_ok (strict_deserialization c) n q) (let* t := redb_future c q in cut n t).
Proof.
  destruct n as [|n].
  { destruct q as [[]|k v| |]; try apply meets_ret. apply (meets_unseen L (sret tt) system_now). intros now.
    destruct (to_vec _); apply meets_ret. }
  destruct (plain q) eqn:H.
  { destruct q as [[]|k v| |]; try done; by apply plain_cut_meets. }
  destruct q as [[k|k|k v|k f|k f|k|k|k| | |]|k v| |]; try done.
  - eapply meets_peq; [apply cut_tmap|]. eapply compute_cut_meets; [reflexivity|by eexists|by eexists|].
    intros v m. apply set_cut_meets.
  - eapply meets_peq; [apply cut_tmap|]. eapply compute_cut_meets; [reflexivity|by eexists|by eexists|].
    intros [v|e] m; [apply set_cut_meets|apply meets_ret].
  - eapply meets_peq; [apply set_ref_cut|]. apply (meets_map L (set_ref_spec sp k v) (redb_set_ref c k v) (fun _ => tt)).
    exact (External.set_ref_meets (FallibleCached0 := calls) (SerializeCached0 := redb_serialize) (ExternalLaws := redb_laws ttl_ok c) k v).
Qed.

Lemma redb_async_meets (p : RedbFuture K V W E * option nat) :
  meets L (redb_async_spec (IoError := IoError) (SerError := SerError) ttl_ok (strict_deserialization c) p) (redb_async_call c p).
Proof.
  destruct p as [q [n|]]; [|apply redb_awaited_meets].
  eapply meets_peq; [apply (pbind_nest _ _ (cut n) (fun _ => Ret (Ok Nothing))); intros t; apply peq_refl|].
  apply meets_map, redb_cut_meets.
Qed.

(** C31: The async methods of [RedbCache], with several tasks and I/O failures at any point, where the
    future of a call may be dropped at any await, and an operation then on the blocking pool runs to its
    end.  However the calls interleave, an awaited call is the atomic operations on the table that its
    synchronous counterpart is; a call dropped before its future is polled leaves the table as it is - a set by
    reference has then read the clock; a call dropped while its operation is on the pool is nevertheless
    that operation on the table, its answer discarded; a get-or-set dropped in its lookup, or before the
    user's future ends, stores nothing, and one dropped in its set has set; and every call ends. *)
Theorem redb_async_serves (db : DB) (g : Settings) : ttl_ok (ttl g) ->
  implements L (redb_async_call (E := E) c)
    (fun p => redb_async_spec (IoError := IoError) (SerError := SerError) ttl_ok (strict_deserialization c) p _ (fun r => Returns (eq r)))
    (mkMemory [new_shard db] g) (fun s => contents db !! s).
Proof.
  intros Hg. apply safe_implements.
  - intros p. eapply safe_mono; [|apply redb_async_meets]. intros h t a (-> & ->). split; [done|]. by eexists.
  - split; [done|]. split; [|done]. intros [|i] s Hs; simpl in Hs; [|done]. injection Hs as <-. by intros k _.
Qed.
End Serves.

(** ** A concrete instance *)
Module Demo.
Import Disk RedbStore.Demo.
#[local] Existing Instance demo_strings.

Lemma redb_async_serves_witness : positive (ttl settings) /\
  implements (redb_layout (DB := DB) positive) (redb_async_call (K := string) (V := Z) (W := unit) (E := unit) store)
    (fun p => redb_async_spec (K := string) (V := Z) (W := unit) positive false p _ (fun r => Returns (eq r)))
    (mkMemory [new_shard three] settings) (fun s => contents three !! s).
Proof. split; [exact settings_positive|exact (redb_async_serves positive store three settings settings_positive)]. Defined.
End Demo.
