(* ===== verification/MacroSyntax.v ===== *)
(** * What the attribute macros read and how they reject it
      ([cached_proc_macro/src/helpers.rs])

    The tokens, types, expressions and signatures of [proc_macro2] and [syn] as far as the macros
    look into them, the values [darling] reads, errors with the place they are reported at, and the
    helpers the three macros share.  Parsing is [syn]'s: the class [Syn].  Messages are cut down to
    their opening words. *)
From Stdlib Require Import String Ascii.
From stdpp Require Import strings.
From S2P Require Import Prelude.

(** ** Tokens, types, expressions *)

Inductive TokenTree : Type :=
| TIdent (ident : string)
| TGroup (stream : list TokenTree)
| TOther (token : string).

(** [syn::Type]; a path is the list of its segments. *)
Inductive Ty : Type :=
| TPath (segments : list PathSegment)
| TReference (elem : Ty)
| TTuple (elems : list Ty)
| TVerbatim (tokens : string)
with PathSegment : Type := Segment (ident : string) (arguments : PathArguments)
with PathArguments : Type :=
| NoArguments
| AngleBracketed (args : list GenericArgument)
| Parenthesized (tokens : string)
with GenericArgument : Type :=
| GType (ty : Ty)
| GOther (tokens : string).

Inductive ReturnType : Type := ReturnDefault | ReturnTy (ty : Ty).

Inductive Expr : Type :=
| ELit (tokens : string)
| EBlock (attrs : list string) (label : option string) (stmts : list Stmt)
| EClosure (asyncness : bool) (tokens : string)
| EVerbatim (tokens : string)
with Stmt : Type :=
| SExpr (expr : Expr) (semi : bool)
| SOther (tokens : string).

Definition Block : Type := list Stmt.

Inductive Pat : Type :=
| PIdent (by_ref mutability : bool) (ident : string) (subpat : option string)
| POther (tokens : string).

Inductive FnArg : Type :=
| Receiver (tokens : string)
| Typed (pat : Pat) (ty : Ty).

(** [syn::ItemFn]; an attribute is the path it starts with and its tokens. *)
Record ItemFn : Type := mkFn {
  attrs : list (string * string);
  vis : string;
  asyncness : bool;
  fn_ident : string;
  type_params : list string;
  const_params : list string;
  inputs : list FnArg;
  output : ReturnType }.

(** [parse_str], the re-parse of an expression as a statement ([None] panics), and the strings
    [Ident::new] takes without a panic. *)
Class Syn : Type := {
  parse_expr : string -> option Expr;
  parse_type : string -> option Ty;
  parse_visibility : string -> option string;
  parse_ident : string -> bool;
  parse_stmt : Expr -> option Stmt;
  valid_ident : string -> bool }.

(** ** Errors *)

Inductive Span : Type :=
| FnIdent
| CallSite
| AttrAt (i : nat)
| TtlLiteral
| OutputTy
| AtExpr (e : Expr).

Record Error : Type := mkError { span : Span; message : string }.

(** A macro expands, rejects its input, or panics. *)
Definition Macro (A : Type) : Type := outcome (result Error A).

Definition accept {A} (a : A) : Macro A := Done (Ok a).
Definition reject {A} (sp : Span) (msg : string) : Macro A := Done (Err (mkError sp msg)).
Definition mbind {A B} (m : Macro A) (k : A -> Macro B) : Macro B :=
  match m with
  | Done (Ok a) => k a
  | Done (Err e) => Done (Err e)
  | Unwind => Unwind
  | OutOfFuel => OutOfFuel
  end.

Declare Scope macro_scope.
Delimit Scope macro_scope with macro.
Notation "'let^' x ':=' m 'in' k" := (mbind m (fun x => k))
  (at level 10, x pattern, m at level 100, k at level 200) : macro_scope.
Notation "m1 ;^ m2" := (mbind m1 (fun _ => m2))
  (at level 100, m2 at level 200, right associativity) : macro_scope.
Open Scope macro_scope.

Definition of_result {A} (r : result Error A) : Macro A := Done r.
Definition parsed {A} (o : option A) (sp : Span) (msg : string) : Macro A :=
  match o with Some a => accept a | None => reject sp msg end.
Definition unpanicked {A} (o : option A) : Macro A :=
  match o with Some a => accept a | None => Unwind end.

(** A run of [if condition { return error }], in order. *)
Fixpoint rejects (checks : list (bool * (Span * string))) : Macro unit :=
  match checks with
  | [] => accept tt
  | (c, (sp, msg)) :: checks => if c then reject sp msg else rejects checks
  end.

(** A missing [bool] attribute is [false]; of any other attribute only the presence. *)
Definition is_some {A} (o : option A) : bool := match o with Some _ => true | None => false end.
Definition is_zero (o : option Z) : bool := match o with Some n => n =? 0 | None => false end.

(** ** Values of the attributes *)

(** [syn::Lit] *)
Inductive Lit : Type := LStr (s : string) | LInt (n : Z) | LBool (b : bool) | LOther (tokens : string).

Inductive DarlingError : Type := UnknownValue (value : string) | Custom (msg : string).

Record TtlExpr : Type := mkTtlExpr { expr : string; ttl_span : option Span }.

Definition TTL_INT_MIGRATION_MESSAGE : string := "`ttl` now takes a Duration expression".

Definition ttl_from_string (value : string) : result DarlingError TtlExpr := Ok (mkTtlExpr value None).
Definition ttl_from_value (value : Lit) : result DarlingError TtlExpr :=
  match value with
  | LStr s => Ok (mkTtlExpr s (Some TtlLiteral))
  | _ => Err (Custom TTL_INT_MIGRATION_MESSAGE)
  end.

Inductive SyncWriteMode : Type := Disabled | Default | ByKey.
#[global] Instance SyncWriteMode_eq : EqDecision SyncWriteMode.
Proof. solve_decision. Defined.

Definition sync_writes_from_word : result DarlingError SyncWriteMode := Ok Default.
Definition sync_writes_from_bool (value : bool) : result DarlingError SyncWriteMode :=
  Ok (if value then Default else Disabled).
Definition sync_writes_from_string (value : string) : result DarlingError SyncWriteMode :=
  if String.eqb value "default" || String.eqb value "true" then Ok Default
  else if String.eqb value "by_key" then Ok ByKey
  else if String.eqb value "false" || String.eqb value "disabled" then Ok Disabled
  else Err (UnknownValue value).

(** ** The raw attribute list *)

(** [NestedMeta]: the identifier an entry starts with, if its path is one, and its tokens. *)
Inductive NestedMeta : Type := Meta (ident : option string) (tokens : string) | Literal (tokens : string).

Fixpoint assoc (key : string) (l : list (string * string)) : option string :=
  match l with
  | [] => None
  | (k, v) :: l => if String.eqb key k then Some v else assoc key l
  end.

(** The scan of [reject_concurrent_only_attrs], [reject_once_specific_attrs] and
    [reject_cached_only_attrs]: the first listed attribute, from the [i]th entry. *)
Fixpoint reject_listed (listed : list (string * string)) (i : nat) (attr_args : list NestedMeta) : Macro unit :=
  match attr_args with
  | [] => accept tt
  | Meta (Some ident) _ :: rest =>
      match assoc ident listed with
      | Some msg => reject (AttrAt i) msg
      | None => reject_listed listed (S i) rest
      end
  | _ :: rest => reject_listed listed (S i) rest
  end.

Definition not_supported (macro_name attr : string) : string * string :=
  (attr, "`" ++ attr ++ "` is not supported on `#[" ++ macro_name ++ "]`")%string.

Definition reject_concurrent_only_attrs (macro_name : string) (attr_args : list NestedMeta) : Macro unit :=
  reject_listed (not_supported macro_name <$>
    ["disk"; "redis"; "map_error"; "shards"; "durable"; "disk_dir"; "cache_prefix_block"]%string) 0 attr_args.

Definition names_one_of (names : list string) (arg : NestedMeta) : bool :=
  match arg with
  | Meta (Some ident) _ => existsb (String.eqb ident) names
  | _ => false
  end.

(** [rfind] *)
Fixpoint last_named (names : list string) (i : nat) (attr_args : list NestedMeta) : option nat :=
  match attr_args with
  | [] => None
  | arg :: rest =>
      match last_named names (S i) rest with
      | Some j => Some j
      | None => if names_one_of names arg then Some i else None
      end
  end.

Definition last_named_attr_span (attr_args : list NestedMeta) (names : list string) : option Span :=
  AttrAt <$> last_named names 0 attr_args.

(** [last_named_attr_span(..).unwrap_or_else(attr_list_span)] *)
Definition attr_span (attr_args : list NestedMeta) (names : list string) : Span :=
  default CallSite (last_named_attr_span attr_args names).

(** [conflicting.iter().map(|a| format!("`{a}`")).collect::<Vec<_>>().join(", ")] *)
Definition quoted_list (names : list string) : string :=
  String.concat ", " ((fun a => "`" ++ a ++ "`")%string <$> names).

(** The names of the attributes that are set. *)
Definition set_names (l : list (string * bool)) : list string := fst <$> filter (fun p => p.2 = true) l.

(** ** The return type *)

Definition last_segment (ty : Ty) : option (string * PathArguments) :=
  match ty with
  | TPath segments => (fun s => let '(Segment i a) := s in (i, a)) <$> last segments
  | _ => None
  end.

Definition has_arguments (a : PathArguments) : bool := match a with NoArguments => false | _ => true end.

Definition is_wrapper (ident : string) (output : ReturnType) : bool :=
  match output with
  | ReturnDefault => false
  | ReturnTy ty =>
      match last_segment ty with
      | Some (i, a) => has_arguments a && String.eqb i ident
      | None => false
      end
  end.

Definition is_result_return_type : ReturnType -> bool := is_wrapper "Result".
Definition is_option_return_type : ReturnType -> bool := is_wrapper "Option".

(** [match &output { ReturnType::Default => quote! {()}, ReturnType::Type(_, ty) => quote! {#ty} }] *)
Definition output_ty (output : ReturnType) : Ty :=
  match output with ReturnDefault => TTuple [] | ReturnTy ty => ty end.

Definition NO_INNER_TYPE : string := "function return type has no inner type".

(** [match (is_smart_result, is_smart_option)], which makes [set_cache_block] and [return_cache_block]: there
    are three arms for them, and the fourth is [unreachable!]. *)
Definition return_arm (is_smart_result is_smart_option : bool) : Macro unit :=
  match is_smart_result, is_smart_option with
  | true, true => Unwind
  | _, _ => accept tt
  end.

(** The type of the value to store. *)
Definition find_value_type (is_smart_result is_smart_option : bool) (output : ReturnType) : Macro GenericArgument :=
  match is_smart_result, is_smart_option with
  | false, false => accept (GType (output_ty output))
  | true, true => reject OutputTy "a return type cannot be detected as both `Result<T, E>` and `Option<T>`"
  | _, _ =>
      match output with
      | ReturnDefault => reject OutputTy "function must return a `Result<T, E>` or `Option<T>`"
      | ReturnTy (TPath segments) =>
          match last segments with
          | Some (Segment _ (AngleBracketed (inner_ty :: _))) => accept inner_ty
          | Some _ => reject OutputTy NO_INNER_TYPE
          | None => reject OutputTy "function return type is too complex"
          end
      | ReturnTy _ => reject OutputTy "function return type is too complex"
      end
  end.

Definition first_type_arg (ty : Ty) (sp : Span) (not_path no_arg : string) : Macro GenericArgument :=
  match ty with
  | TPath segments =>
      match last segments with
      | Some (Segment _ (AngleBracketed (a :: _))) => accept a
      | _ => reject sp no_arg
      end
  | _ => reject sp not_path
  end.

Definition is_return_path (idents : list string) : bool :=
  match idents with
  | [r] => String.eqb r "Return"
  | [c; r] => String.eqb c "cached" && String.eqb r "Return"
  | _ => false
  end.

Definition seg_ident (s : PathSegment) : string := let '(Segment i _) := s in i.

(** [at_last] walks to the last segment, [first_type] to its first type argument. *)
Fixpoint type_is_cached_return (ty : Ty) : bool :=
  match ty with
  | TPath segments =>
      (fix at_last (l : list PathSegment) : bool :=
         match l with
         | [] => false
         | [Segment ident arguments] =>
             if String.eqb ident "Result" || String.eqb ident "Option" then
               match arguments with
               | AngleBracketed args =>
                   (fix first_type (l : list GenericArgument) : bool :=
                      match l with
                      | [] => false
                      | GType inner :: _ => type_is_cached_return inner
                      | GOther _ :: l => first_type l
                      end) args
               | _ => false
               end
             else if String.eqb ident "Return" then is_return_path (seg_ident <$> segments)
             else false
         | _ :: l => at_last l
         end) segments
  | _ => false
  end.

(** Whether the return type is wrong for [with_cached_flag]. *)
Definition check_with_cache_flag (with_cached_flag : bool) (output : ReturnType) : bool :=
  if with_cached_flag then
    match output with
    | ReturnDefault => true
    | ReturnTy ty => negb (type_is_cached_return ty)
    end
  else false.

Definition with_cache_flag_error : Span * string :=
  (OutputTy, "When specifying `with_cached_flag = true`, the return type must be wrapped in `cached::Return<T>`."%string).

(** ** Inputs *)

Definition match_pattern_type (pat : Pat) : Pat :=
  match pat with
  | PIdent by_ref _ ident subpat => PIdent by_ref false ident subpat
  | POther _ => pat
  end.

Definition get_input_names (inputs : list FnArg) : list Pat :=
  omap (fun input => match input with Receiver _ => None | Typed pat _ => Some (match_pattern_type pat) end) inputs.

Definition get_input_types (inputs : list FnArg) : list Ty :=
  omap (fun input => match input with Receiver _ => None | Typed _ ty => Some ty end) inputs.

(** [get_mut_signature]: its inputs. *)
Definition get_mut_inputs (inputs : list FnArg) : list FnArg :=
  (fun input => match input with Receiver _ => input | Typed pat ty => Typed (match_pattern_type pat) ty end) <$> inputs.

Definition has_receiver (f : ItemFn) : bool :=
  existsb (fun input => match input with Receiver _ => true | Typed _ _ => false end) (inputs f).

Definition generic (f : ItemFn) : bool :=
  match type_params f, const_params f with [], [] => false | _, _ => true end.

Definition strip_ref (ty : Ty) : option Ty :=
  match ty with TReference elem => Some elem | _ => None end.

Definition option_ref_inner (ty : Ty) : option Ty :=
  match last_segment ty with
  | Some (ident, AngleBracketed (GType inner :: _)) =>
      if String.eqb ident "Option" then strip_ref inner else None
  | _ => None
  end.

(** ** The key *)

(** One input of a default key: [<T as ToOwned>::Owned], [Option] of it, or the type itself. *)
Inductive KeyPart : Type := Owned (inner : Ty) | OptionOwned (inner : Ty) | AsIs (ty : Ty).

Inductive KeyTy : Type := KeyGiven (ty : Ty) | KeyOmitted | KeyParts (parts : list KeyPart).

(** [name.to_owned()], [name.as_deref().map(..)], [name.clone()]. *)
Inductive KeyExpr : Type := ToOwned (name : Pat) | AsDerefToOwned (name : Pat) | CloneOf (name : Pat).

Inductive KeyBlock : Type := Convert (block : Block) | KeyExprs (exprs : list KeyExpr).

Definition key_part (ty : Ty) (name : Pat) : KeyPart * KeyExpr :=
  match strip_ref ty with
  | Some inner => (Owned inner, ToOwned name)
  | None =>
      match option_ref_inner ty with
      | Some inner => (OptionOwned inner, AsDerefToOwned name)
      | None => (AsIs ty, CloneOf name)
      end
  end.

(** ** Time to live *)

Inductive TtlTokens : Type := TtlParsed (e : Expr) | FromSecs (secs : Z) | FromMillis (millis : Z).

Section Parsing.
Context `{!Syn}.

Definition resolve_ttl_duration (ttl : option TtlExpr) (ttl_secs ttl_millis : option Z) (sp exclusive_span : Span) :
    Macro (bool * option TtlTokens) :=
  let set_count := (Nat.b2n (is_some ttl) + Nat.b2n (is_some ttl_secs) + Nat.b2n (is_some ttl_millis))%nat in
  rejects [
    (Nat.ltb 1 set_count, (exclusive_span, "`ttl`, `ttl_secs`, and `ttl_millis` are mutually exclusive"%string));
    (is_zero ttl_secs, (sp, "`ttl_secs` must be >= 1"%string));
    (is_zero ttl_millis, (sp, "`ttl_millis` must be >= 1"%string))] ;^
  let^ ttl_duration :=
    match ttl with
    | Some ttl_expr =>
        let^ e := parsed (parse_expr (expr ttl_expr)) (default sp (ttl_span ttl_expr))
                    "unable to parse `ttl` as a Duration expression" in
        accept (Some (TtlParsed e))
    | None =>
        match ttl_secs with
        | Some secs => accept (Some (FromSecs secs))
        | None => accept (FromMillis <$> ttl_millis)
        end
    end in
  accept (is_some ttl_duration, ttl_duration).

(** ** Expressions *)

(** [parse_quote!] panics where [syn] cannot parse. *)
Definition expr_to_block (e : Expr) : Macro Block :=
  match e with
  | EBlock _ _ stmts => accept stmts
  | other => let^ stmt := unpanicked (parse_stmt other) in accept [stmt]
  end.

Definition expr_value_tokens (e : Expr) : Expr :=
  match e with
  | EBlock [] None [SExpr inner false] => inner
  | _ => e
  end.

Definition parse_force_refresh_block (force_refresh : option Expr) : Macro (option Block) :=
  match force_refresh with
  | Some e =>
      match e with
      | ELit _ => reject (AtExpr e) "`force_refresh` takes a curly-brace block"
      | _ => let^ block := expr_to_block e in accept (Some block)
      end
  | None => accept None
  end.

Definition make_cache_key_type (key : option string) (convert : option Expr) (ty : option string)
    (input_tys : list Ty) (input_names : list Pat) : Macro (KeyTy * KeyBlock) :=
  match key, convert, ty with
  | Some key_str, Some convert_expr, _ =>
      let^ cache_key_ty := parsed (parse_type key_str) CallSite "unable to parse `key` as a type" in
      let^ key_convert_block := expr_to_block convert_expr in
      accept (KeyGiven cache_key_ty, Convert key_convert_block)
  | None, Some convert_expr, Some _ =>
      let^ key_convert_block := expr_to_block convert_expr in
      accept (KeyOmitted, Convert key_convert_block)
  | None, None, _ =>
      let parts := zip_with key_part input_tys input_names in
      accept (KeyParts (fst <$> parts), KeyExprs (snd <$> parts))
  | Some _, None, _ => reject CallSite "`key` requires `convert` to be set"
  | None, Some _, None => reject CallSite "`convert` requires `key` or `ty` to be set"
  end.

(** ** Names *)

Fixpoint drop_prefix (p s : string) : option string :=
  match p, s with
  | EmptyString, _ => Some s
  | String a p, String b s => if Ascii.eqb a b then drop_prefix p s else None
  | _, EmptyString => None
  end.

(** [str::to_uppercase] on the ASCII letters; other characters are left as they are. *)
Definition upper (c : ascii) : ascii :=
  let n := nat_of_ascii c in if (Nat.leb 97 n && Nat.leb n 122)%bool then ascii_of_nat (n - 32) else c.
Fixpoint to_uppercase (s : string) : string :=
  match s with EmptyString => EmptyString | String c s => String (upper c) (to_uppercase s) end.

(** [Ident::new], and [Ident::new_raw] of the rest of a raw identifier. *)
Definition ident_new (s : string) : Macro string := if valid_ident s then accept s else Unwind.
Definition ident_new_raw (s : string) : Macro string := if valid_ident s then accept ("r#" ++ s)%string else Unwind.

(** [cache_ident] of the three macros. *)
Definition make_cache_ident (name : option string) (fn_ident : string) : Macro string :=
  match name with
  | Some name =>
      let bare := default name (drop_prefix "r#" name) in
      rejects [
        (negb (parse_ident name), (FnIdent, "`name` must be a valid Rust identifier"%string));
        (is_some (drop_prefix "__cached" bare), (FnIdent, "cache names beginning with `__cached` are reserved"%string))] ;^
      match drop_prefix "r#" name with
      | Some stripped => ident_new_raw stripped
      | None => ident_new name
      end
  | None => ident_new (to_uppercase fn_ident)
  end.

(** [companions_visibility] of the three macros; [None] is private. *)
Definition make_companions_visibility (companions_vis : option string) (visibility : string) : Macro string :=
  match companions_vis with
  | None => accept visibility
  | Some s =>
      if String.eqb s "" then accept ""%string
      else parsed (parse_visibility s) FnIdent "unable to parse `companions_vis` as a visibility"
  end.
End Parsing.

(** ** Attributes of the function *)

(** [cfg] and [cfg_attr] go to the static, all but [doc] to the origin function. *)
Definition static_cfg_attrs (attributes : list (string * string)) : list (string * string) :=
  filter (fun a => a.1 = "cfg"%string \/ a.1 = "cfg_attr"%string) attributes.
Definition no_cache_attrs (attributes : list (string * string)) : list (string * string) :=
  filter (fun a => a.1 <> "doc"%string) attributes.

Definition fill_in_attributes (attributes : list (string * string)) (cache_fn_doc_extra : string) : list (string * string) :=
  if existsb (fun a => String.eqb a.1 "doc") attributes
  then attributes ++ [("doc", ""); ("doc", "# Caching"); ("doc", cache_fn_doc_extra)]%string
  else attributes ++ [("doc"%string, cache_fn_doc_extra)].

Definition validate_sync_writes_buckets (buckets : Z) (sp : Span) : Macro unit :=
  rejects [(buckets =? 0, (sp, "`sync_writes_buckets` must be greater than 0"%string))].

(** ** Stores and their constructors *)

Module Store.
Inductive Name : Type :=
| UnboundCache | LruCache | TtlCache | LruTtlCache | ExpiringCache | ExpiringLruCache
| ShardedUnboundCache | ShardedLruCache | ShardedTtlCache | ShardedLruTtlCache
| ShardedExpiringCache | ShardedExpiringLruCache
| RedisCache | AsyncRedisCache | RedbCache.
End Store.

Inductive CacheTy : Type :=
| StoreOf (s : Store.Name) (key : KeyTy) (value : GenericArgument)
| CustomTy (ty : Ty).

(** The argument of [builder] and the calls on the builder, in order, before [build]. *)
Inductive BuilderArg : Type := NoArg | NameArg (name : string) | PrefixArg (prefix : Expr).

Inductive BuilderCall : Type :=
| CallMaxSize (n : Z)
| CallTtl (t : TtlTokens)
| CallRefreshOnHit (b : bool)
| CallShards (n : Z)
| CallDurable (b : bool)
| CallDiskDir (dir : string).

Inductive CacheCreate : Type :=
| Builder (s : Store.Name) (arg : BuilderArg) (calls : list BuilderCall) (awaited : bool)
| CreateExpr (e : Expr).
