(* ===== verification/MacroCached.v ===== *)
(** * [#[cached]]: its attributes, their checks, and what it emits
      ([cached_proc_macro/src/cached.rs])

    The macro from its parsed attributes to the decisions its output is made of: the static and its
    lock, the store and its constructor, the key, the returns, the companions.  The function the
    decisions stand for is in [Memo]. *)
From Stdlib Require Import String.
From stdpp Require Import strings.
From S2P Require Import Prelude MacroSyntax.
#[local] Open Scope string_scope.

Inductive SyncLock : Type := Mutex | RwLock.

Definition sync_lock_from_string (value : string) : result DarlingError SyncLock :=
  if String.eqb value "mutex" then Ok Mutex
  else if String.eqb value "rwlock" || String.eqb value "rw_lock" then Ok RwLock
  else Err (UnknownValue value).

Record CachedMacroArgs : Type := mkArgs {
  name : option string;
  unbound : bool;
  max_size : option Z;
  ttl : option TtlExpr;
  ttl_secs : option Z;
  ttl_millis : option Z;
  refresh : bool;
  time : option Z;
  time_refresh : option bool;
  size : option Z;
  key : option string;
  convert : option Expr;
  cache_err : bool;
  cache_none : bool;
  sync_writes : option SyncWriteMode;
  sync_writes_buckets : option Z;
  sync_lock : option SyncLock;
  with_cached_flag : bool;
  ty : option string;
  create : option Expr;
  result_fallback : bool;
  unsync_reads : bool;
  expires : bool;
  force_refresh : option Expr;
  companions_vis : option string;
  companions : option bool;
  in_impl : bool;
  result_ : option bool;
  option_ : option bool }.

Definition default_sync_writes_buckets : Z := 64.

Definition create_conflicts (args : CachedMacroArgs) : list string :=
  set_names [
    ("ttl", is_some (ttl args)); ("ttl_secs", is_some (ttl_secs args)); ("ttl_millis", is_some (ttl_millis args));
    ("refresh", refresh args); ("max_size", is_some (max_size args))].

Definition check_create_conflicts (args : CachedMacroArgs) (sp : Span) : Macro unit :=
  match create_conflicts args with
  | [] => accept tt
  | conflicting => reject sp ("cannot specify " ++ quoted_list conflicting ++ " when passing a `create` block")
  end.

(** ** The checks, in their order *)

Definition nest_origin_fn (args : CachedMacroArgs) : bool :=
  negb (default true (companions args)) && negb (in_impl args).

Definition signature_checks (args : CachedMacroArgs) (f : ItemFn) : list (bool * (Span * string)) := [
  (has_receiver f && negb (in_impl args), (FnIdent, "#[cached] cannot be applied to methods that take `self`"));
  (in_impl args && negb (has_receiver f), (FnIdent, "in_impl = true requires a method with a `self` receiver"));
  (nest_origin_fn args && is_some (companions_vis args), (FnIdent, "`companions_vis` has no effect with `companions = false`"));
  (generic f && negb (is_some (convert args)), (CallSite, "#[cached] on a generic function requires `key` + `convert`"));
  (is_zero (max_size args), (FnIdent, "`max_size` must be >= 1"))].

Definition expires_ttl_checks (attr_args : list NestedMeta) (args : CachedMacroArgs) : list (bool * (Span * string)) := [
  (expires args && is_some (ttl_secs args), (attr_span attr_args ["ttl_secs"], "`expires` and `ttl_secs` are mutually exclusive"));
  (expires args && is_some (ttl_millis args), (attr_span attr_args ["ttl_millis"], "`expires` and `ttl_millis` are mutually exclusive"));
  (expires args && is_some (ttl args), (attr_span attr_args ["ttl"], "`expires` and `ttl` are mutually exclusive"))].

Definition removed_checks (attr_args : list NestedMeta) (args : CachedMacroArgs) : list (bool * (Span * string)) := [
  (is_some (time args), (FnIdent, "`time` was renamed in a prior major release; use `ttl_secs = ...`"));
  (is_some (time_refresh args), (FnIdent, "`time_refresh` was renamed in a prior major release; use `refresh = ...`"));
  (unbound args, (FnIdent, "the `unbound` attribute has been removed"));
  (is_some (size args), (attr_span attr_args ["size"], "`size` was renamed to `max_size`; use `max_size = ...`"));
  (is_some (result_ args), (FnIdent, "the `result` attribute has been removed"));
  (is_some (option_ args), (FnIdent, "the `option` attribute has been removed"))].

Definition expires_checks (args : CachedMacroArgs) (has_ttl : bool) : list (bool * (Span * string)) := [
  (expires args && is_some (ty args), (FnIdent, "`expires` and `ty` are mutually exclusive"));
  (expires args && is_some (create args), (FnIdent, "`expires` and `create` are mutually exclusive"));
  (expires args && with_cached_flag args, (FnIdent, "`expires` and `with_cached_flag` are mutually exclusive"));
  (expires args && unsync_reads args, (FnIdent, "`expires` and `unsync_reads` are mutually exclusive"));
  (expires args && refresh args, (FnIdent, "`expires` and `refresh` are mutually exclusive"));
  (refresh args && negb has_ttl && negb (expires args) && negb (is_some (create args)),
    (FnIdent, "`refresh` requires a TTL (`ttl`/`ttl_secs`/`ttl_millis`) to be set"));
  (expires args && cache_none args, (FnIdent, "`expires = true` and `cache_none = true` are incompatible"));
  (expires args && cache_err args, (FnIdent, "`expires = true` and `cache_err = true` are incompatible"))].

Definition return_checks (args : CachedMacroArgs) (output : ReturnType) : list (bool * (Span * string)) := [
  (check_with_cache_flag (with_cached_flag args) output, with_cache_flag_error);
  (cache_err args && negb (is_result_return_type output),
    (FnIdent, "`cache_err = true` requires the function to return `Result<T, E>`"));
  (cache_none args && negb (is_option_return_type output),
    (FnIdent, "`cache_none = true` requires the function to return `Option<T>`"));
  (cache_err args && result_fallback args, (FnIdent, "`cache_err` and `result_fallback` are mutually exclusive"));
  (result_fallback args && with_cached_flag args, (FnIdent, "`result_fallback` and `with_cached_flag` are mutually exclusive"));
  (cache_none args && with_cached_flag args,
    (FnIdent, "`cache_none = true` and `with_cached_flag = true` are structurally incompatible"))].

Definition is_smart_result (args : CachedMacroArgs) (output : ReturnType) : bool :=
  is_result_return_type output && negb (cache_err args).
Definition is_smart_option (args : CachedMacroArgs) (output : ReturnType) : bool :=
  is_option_return_type output && negb (cache_none args).

Definition effective_sync_writes (args : CachedMacroArgs) : SyncWriteMode := default Disabled (sync_writes args).

Definition buckets_checks (args : CachedMacroArgs) : list (bool * (Span * string)) := [
  (is_some (sync_writes_buckets args) && negb (bool_decide (effective_sync_writes args = ByKey)),
    (FnIdent, "`sync_writes_buckets` only applies to `sync_writes = by_key`"))].

Definition uses_mutex (args : CachedMacroArgs) : bool :=
  match sync_lock args with Some Mutex => true | _ => false end.

Definition store_demand_checks (args : CachedMacroArgs) (output : ReturnType) (has_ttl : bool) :
    list (bool * (Span * string)) := [
  (result_fallback args && is_some (sync_writes args) && negb (bool_decide (effective_sync_writes args = Disabled)),
    (FnIdent, "`result_fallback` and `sync_writes` are mutually exclusive"));
  (result_fallback args && negb (is_result_return_type output),
    (FnIdent, "`result_fallback` requires a `Result<T, E>` return type"));
  (result_fallback args && negb (is_some (ty args)) && negb has_ttl && negb (expires args),
    (FnIdent, "`result_fallback` requires a store that implements `CloneCached`"));
  (unsync_reads args && uses_mutex args, (FnIdent, "`unsync_reads` requires an RwLock"));
  (unsync_reads args && negb (is_some (ty args)) && (is_some (max_size args) || has_ttl),
    (FnIdent, "`unsync_reads` requires a store that implements `CachedRead`"))].

(** ** What is emitted *)

(** Where the origin function goes: next to the cached function, or into its body. *)
Inductive Origin : Type := Beside (vis : string) (hidden : bool) | Nested.

Record CachedFn : Type := mkCachedFn {
  cache_ident : string;
  lock_type : SyncLock;
  async_lock : bool;
  cache_ty : CacheTy;
  cache_create : CacheCreate;
  mode : SyncWriteMode;
  buckets : Z;
  static_vis : option string;
  static_attrs : list (string * string);
  key_block : KeyBlock;
  value_ty : GenericArgument;
  smart_result : bool;
  smart_option : bool;
  flagged : bool;
  unsync : bool;
  fallback : bool;
  refresh_block : option Block;
  no_cache_ident : string;
  no_cache_on_self : bool;
  origin : Origin;
  origin_attrs : list (string * string);
  fn_attrs : list (string * string);
  fn_inputs : list FnArg;
  call_args : list Pat;
  prime_fn : option (string * string);
  async_feature_guard : bool;
  time_stores_guard : bool }.

Section Macro.
Context `{!Syn}.

(** [#cache_ty] and [#cache_create].  [unpanicked] is [.expect("has_ttl implies ttl_duration")]. *)
Definition select_store (args : CachedMacroArgs) (has_ttl : bool) (ttl_duration : option TtlTokens) (cache_key_ty : KeyTy)
    (cache_value_ty : GenericArgument) : Macro (CacheTy * CacheCreate) :=
  let built s calls := accept (StoreOf s cache_key_ty cache_value_ty, Builder s NoArg calls false) in
  if expires args then
    match max_size args with
    | Some size => built Store.ExpiringLruCache [CallMaxSize size]
    | None => built Store.ExpiringCache []
    end
  else
    match max_size args, has_ttl, ty args, create args with
    | Some size, false, None, None => built Store.LruCache [CallMaxSize size]
    | None, true, None, None =>
        let^ ttl_dur := unpanicked ttl_duration in
        built Store.TtlCache [CallTtl ttl_dur; CallRefreshOnHit (refresh args)]
    | Some size, true, None, None =>
        let^ ttl_dur := unpanicked ttl_duration in
        built Store.LruTtlCache [CallMaxSize size; CallTtl ttl_dur; CallRefreshOnHit (refresh args)]
    | None, false, None, None => built Store.UnboundCache []
    | None, false, Some type_str, Some create_expr =>
        let^ ty := parsed (parse_type type_str) FnIdent "unable to parse cache type" in
        accept (CustomTy ty, CreateExpr (expr_value_tokens create_expr))
    | None, false, Some _, None => reject FnIdent "`ty` requires `create` to also be set"
    | None, false, None, Some _ => reject FnIdent "`create` requires `ty` to also be set"
    | _, _, _, _ => reject FnIdent "cache types (`max_size` and/or `ttl`, or `ty` and `create`) are mutually exclusive"
    end.

Definition make_doc_extra (args : CachedMacroArgs) (cache_ident : string) : string :=
  if in_impl args then "This is a cached method; its cache static is function-local to the method body."
  else "This is a cached function that uses the [`" ++ cache_ident ++ "`] cached static.".

(** The last third of the macro: identifiers, [force_refresh], and the items. *)
Definition emit (args : CachedMacroArgs) (f : ItemFn) (companions_visibility : string) (has_ttl : bool)
    (cache_ident : string) (key_block : KeyBlock) (cache_value_ty : GenericArgument)
    (store : CacheTy * CacheCreate) (buckets : Z) : Macro CachedFn :=
  let^ no_cache_fn_ident := ident_new (fn_ident f ++ "_no_cache") in
  let^ force_refresh_guard := parse_force_refresh_block (force_refresh args) in
  let^ prime_fn_ident := ident_new (fn_ident f ++ "_prime_cache") in
  accept {|
    MacroCached.cache_ident := cache_ident;
    lock_type := default RwLock (sync_lock args);
    async_lock := asyncness f;
    cache_ty := store.1;
    cache_create := store.2;
    mode := effective_sync_writes args;
    buckets := buckets;
    static_vis := if in_impl args then None else Some (vis f);
    static_attrs := static_cfg_attrs (attrs f);
    MacroCached.key_block := key_block;
    value_ty := cache_value_ty;
    smart_result := is_smart_result args (output f);
    smart_option := is_smart_option args (output f);
    flagged := with_cached_flag args;
    unsync := unsync_reads args;
    fallback := result_fallback args;
    refresh_block := force_refresh_guard;
    no_cache_ident := no_cache_fn_ident;
    no_cache_on_self := has_receiver f;
    origin := if nest_origin_fn args then Nested else Beside companions_visibility (in_impl args);
    origin_attrs := no_cache_attrs (attrs f);
    fn_attrs := fill_in_attributes (attrs f) (make_doc_extra args cache_ident);
    fn_inputs := get_mut_inputs (inputs f);
    call_args := get_input_names (inputs f);
    prime_fn := if in_impl args || negb (default true (companions args)) then None
                else Some (companions_visibility, prime_fn_ident);
    async_feature_guard := asyncness f;
    time_stores_guard := has_ttl && negb (is_some (ty args)) |}.

(** The macro on parsed attributes. *)
Definition cached_with (attr_args : list NestedMeta) (args : CachedMacroArgs) (f : ItemFn) : Macro CachedFn :=
  let^ companions_visibility := make_companions_visibility (companions_vis args) (vis f) in
  rejects (signature_checks args f) ;^
  rejects (expires_ttl_checks attr_args args) ;^
  let^ (has_ttl, ttl_duration) :=
    resolve_ttl_duration (ttl args) (ttl_secs args) (ttl_millis args) FnIdent
      (attr_span attr_args ["ttl"; "ttl_secs"; "ttl_millis"]) in
  rejects (removed_checks attr_args args) ;^
  rejects (expires_checks args has_ttl) ;^
  rejects (return_checks args (output f)) ;^
  let^ cache_value_ty := find_value_type (is_smart_result args (output f)) (is_smart_option args (output f)) (output f) in
  let^ cache_ident := make_cache_ident (name args) (fn_ident f) in
  let^ (cache_key_ty, key_convert_block) :=
    make_cache_key_type (key args) (convert args) (ty args) (get_input_types (inputs f)) (get_input_names (inputs f)) in
  (if is_some (create args) then check_create_conflicts args FnIdent else accept tt) ;^
  let^ store := select_store args has_ttl ttl_duration cache_key_ty cache_value_ty in
  return_arm (is_smart_result args (output f)) (is_smart_option args (output f)) ;^
  rejects (buckets_checks args) ;^
  let buckets := default default_sync_writes_buckets (sync_writes_buckets args) in
  validate_sync_writes_buckets buckets FnIdent ;^
  rejects (store_demand_checks args (output f) has_ttl) ;^
  emit args f companions_visibility has_ttl cache_ident key_convert_block cache_value_ty store buckets.

(** [from_list] is what [darling] derives for [CachedMacroArgs]. *)
Definition cached (from_list : list NestedMeta -> Macro CachedMacroArgs) (attr_args : list NestedMeta) (f : ItemFn) :
    Macro CachedFn :=
  reject_concurrent_only_attrs "cached" attr_args ;^
  let^ args := from_list attr_args in
  cached_with attr_args args f.
End Macro.
