(* ===== verification/MacroOnce.v ===== *)
(** * [#[once]]: its attributes, their checks, and what it emits
      ([cached_proc_macro/src/once.rs])

    The function the emitted items stand for is in [Once]. *)
From Stdlib Require Import String.
From stdpp Require Import strings.
From S2P Require Import Prelude MacroSyntax.
#[local] Open Scope string_scope.

Record OnceMacroArgs : Type := mkArgs {
  name : option string;
  ttl : option TtlExpr;
  ttl_secs : option Z;
  ttl_millis : option Z;
  time : option Z;
  sync_writes : option SyncWriteMode;
  sync_writes_buckets : option Z;
  cache_err : bool;
  cache_none : bool;
  with_cached_flag : bool;
  expires : bool;
  in_impl : bool;
  force_refresh : option Expr;
  companions_vis : option string;
  companions : option bool;
  result_ : option bool;
  option_ : option bool;
  sync_lock : option string;
  unsync_reads : option bool;
  result_fallback : option bool;
  refresh : option bool;
  max_size : option Z;
  ty : option string;
  key : option string;
  convert : option Expr }.

Definition reject_once_specific_attrs (attr_args : list NestedMeta) : Macro unit :=
  reject_listed [("create", "`create` is not supported on `#[once]`")] 0 attr_args.

(** ** The checks, in their order *)

Definition signature_checks (args : OnceMacroArgs) (f : ItemFn) : list (bool * (Span * string)) := [
  (has_receiver f && negb (in_impl args), (FnIdent, "#[once] cannot be applied to methods that take `self`"));
  (in_impl args && negb (has_receiver f), (FnIdent, "in_impl = true requires a method with a `self` receiver"));
  (negb (default true (companions args)) && negb (in_impl args) && is_some (companions_vis args),
    (FnIdent, "`companions_vis` has no effect with `companions = false`"));
  (is_some (time args), (FnIdent, "`time` was renamed in a prior major release; use `ttl_secs = ...`"))].

Definition expires_ttl_checks (attr_args : list NestedMeta) (args : OnceMacroArgs) : list (bool * (Span * string)) := [
  (expires args && is_some (ttl_secs args), (attr_span attr_args ["ttl_secs"], "`expires` and `ttl_secs` are mutually exclusive"));
  (expires args && is_some (ttl_millis args), (attr_span attr_args ["ttl_millis"], "`expires` and `ttl_millis` are mutually exclusive"));
  (expires args && is_some (ttl args), (attr_span attr_args ["ttl"], "`expires` and `ttl` are mutually exclusive"))].

Definition unsupported_checks (args : OnceMacroArgs) : list (bool * (Span * string)) := [
  (is_some (result_ args), (FnIdent, "the `result` attribute has been removed"));
  (is_some (option_ args), (FnIdent, "the `option` attribute has been removed"));
  (is_some (sync_lock args), (FnIdent, "`sync_lock` is not supported on `#[once]`"));
  (is_some (unsync_reads args), (FnIdent, "`unsync_reads` is not supported on `#[once]`"));
  (is_some (result_fallback args), (FnIdent, "`result_fallback` is not supported on `#[once]`"));
  (is_some (refresh args), (FnIdent, "`refresh` is not supported on `#[once]`"));
  (is_some (max_size args), (FnIdent, "`max_size` is not supported on `#[once]`"));
  (is_some (ty args), (FnIdent, "`ty` is not supported on `#[once]`"));
  (is_some (key args), (FnIdent, "`key` is not supported on `#[once]`"));
  (is_some (convert args), (FnIdent, "`convert` is not supported on `#[once]`"))].

Definition expires_checks (args : OnceMacroArgs) : list (bool * (Span * string)) := [
  (expires args && with_cached_flag args, (FnIdent, "`expires` and `with_cached_flag` are mutually exclusive"));
  (expires args && cache_none args, (FnIdent, "`expires = true` and `cache_none = true` are incompatible"));
  (expires args && cache_err args, (FnIdent, "`expires = true` and `cache_err = true` are incompatible"))].

Definition return_checks (args : OnceMacroArgs) (output : ReturnType) : list (bool * (Span * string)) := [
  (check_with_cache_flag (with_cached_flag args) output, with_cache_flag_error);
  (cache_err args && negb (is_result_return_type output),
    (FnIdent, "`cache_err = true` requires the function to return `Result<T, E>`"));
  (cache_none args && negb (is_option_return_type output),
    (FnIdent, "`cache_none = true` requires the function to return `Option<T>`"));
  (cache_none args && with_cached_flag args,
    (FnIdent, "`cache_none = true` and `with_cached_flag = true` are structurally incompatible"))].

Definition is_smart_result (args : OnceMacroArgs) (output : ReturnType) : bool :=
  is_result_return_type output && negb (cache_err args).
Definition is_smart_option (args : OnceMacroArgs) (output : ReturnType) : bool :=
  is_option_return_type output && negb (cache_none args).

Definition effective_sync_writes (args : OnceMacroArgs) : SyncWriteMode := default Disabled (sync_writes args).

Definition sync_checks (args : OnceMacroArgs) : list (bool * (Span * string)) := [
  (is_some (sync_writes_buckets args), (FnIdent, "`sync_writes_buckets` is not supported on `#[once]`"));
  (bool_decide (effective_sync_writes args = ByKey), (FnIdent, "`sync_writes = by_key` is not supported by `#[once]`"))].

(** ** Generic functions *)

Definition names_param (param_set : list string) (ident : string) : bool := existsb (String.eqb ident) param_set.

(** One stream of the walk: the first identifier in [param_set], or the stack with the groups met. *)
Fixpoint walk_stream (param_set : list string) (stream : list TokenTree) (stack : list (list TokenTree)) :
    result string (list (list TokenTree)) :=
  match stream with
  | [] => Ok stack
  | TIdent ident :: stream => if names_param param_set ident then Err ident else walk_stream param_set stream stack
  | TGroup group :: stream => walk_stream param_set stream (group :: stack)
  | TOther _ :: stream => walk_stream param_set stream stack
  end.

Fixpoint walk (fuel : nat) (param_set : list string) (stack : list (list TokenTree)) : outcome (option string) :=
  match fuel with
  | O => OutOfFuel
  | S fuel =>
      match stack with
      | [] => Done None
      | stream :: stack =>
          match walk_stream param_set stream stack with
          | Err ident => Done (Some ident)
          | Ok stack => walk fuel param_set stack
          end
      end
  end.

(** The groups of a stream, at any depth, bound the turns of the walk. *)
Fixpoint groups (t : TokenTree) : nat :=
  match t with
  | TGroup stream => S (sum_list (groups <$> stream))
  | _ => 0
  end.
Definition stream_groups (stream : list TokenTree) : nat := sum_list (groups <$> stream).

Definition found_param (param_set : list string) (stream : list TokenTree) : outcome (option string) :=
  walk (S (S (stream_groups stream))) param_set [stream].

Definition generic_param_idents (f : ItemFn) : list string := type_params f ++ const_params f.

(** [to_tokens] is how [quote!] prints the value type. *)
Definition check_concrete (to_tokens : GenericArgument -> list TokenTree) (f : ItemFn) (value_ty : GenericArgument) : Macro unit :=
  match generic_param_idents f with
  | [] => accept tt
  | params =>
      match found_param params (to_tokens value_ty) with
      | Done (Some param) =>
          reject FnIdent ("#[once]'s cache value type cannot name the function's generic parameter `" ++ param ++ "`")
      | Done None => accept tt
      | Unwind => Unwind
      | OutOfFuel => OutOfFuel
      end
  end.

(** ** What is emitted *)

(** [cache_ty]: an option of the value, with its instant if the attribute has a ttl. *)
Inductive CellTy : Type := Plain (value : GenericArgument) | Timed (value : GenericArgument).

(** The test around the return of the cached value. *)
Inductive HitTest : Type := Always | NotExpired | Younger (ttl : TtlTokens).

Record OnceFn : Type := mkOnceFn {
  cache_ident : string;
  cache_ty : CellTy;
  hit_test : HitTest;
  mode : SyncWriteMode;
  async_lock : bool;
  static_vis : option string;
  static_attrs : list (string * string);
  value_ty : GenericArgument;
  smart_result : bool;
  smart_option : bool;
  flagged : bool;
  refresh_block : option Block;
  no_cache_ident : string;
  no_cache_on_self : bool;
  inner_sibling : option (string * list (string * string));
  fn_attrs : list (string * string);
  fn_inputs : list FnArg;
  call_args : list Pat;
  prime_fn : option (string * string * list (string * string));
  now_block : bool;
  async_feature_guard : bool }.

(** [gen_return_cache_block]: the test it puts around the block. *)
Definition gen_return_cache_block (ttl_duration : option TtlTokens) (expires : bool) : HitTest :=
  if expires then NotExpired
  else match ttl_duration with Some ttl => Younger ttl | None => Always end.

Definition select_cell (has_ttl : bool) (cache_value_ty : GenericArgument) : CellTy :=
  if has_ttl then Timed cache_value_ty else Plain cache_value_ty.

Definition make_doc_extra (args : OnceMacroArgs) (cache_ident : string) : string :=
  if in_impl args then "This is a cached method; its cache static is function-local to the method body."
  else "This is a cached function that uses the [`" ++ cache_ident ++ "`] cached static.".

Section Macro.
Context `{!Syn}.

(** [prime_do_set_return_block] and [do_set_return_block]: the arms of their matches on [sync_writes], of which
    [unreachable!("ByKey rejected above")] is one. *)
Definition prime_do_set_return_block (sync_writes : SyncWriteMode) : Macro unit :=
  match sync_writes with
  | ByKey => Unwind
  | _ => accept tt
  end.

Definition do_set_return_block (sync_writes : SyncWriteMode) : Macro SyncWriteMode :=
  match sync_writes with
  | Default => accept Default
  | ByKey => Unwind
  | Disabled => accept Disabled
  end.

Definition emit (args : OnceMacroArgs) (f : ItemFn) (has_ttl : bool) (ttl_duration : option TtlTokens)
    (cache_ident : string) (cache_value_ty : GenericArgument) : Macro OnceFn :=
  let^ force_refresh_guard := parse_force_refresh_block (force_refresh args) in
  return_arm (is_smart_result args (output f)) (is_smart_option args (output f)) ;^
  let^ inner_fn_ident := ident_new (fn_ident f ++ "_no_cache") in
  let^ companions_visibility := make_companions_visibility (companions_vis args) (vis f) in
  prime_do_set_return_block (effective_sync_writes args) ;^
  let^ sync_writes := do_set_return_block (effective_sync_writes args) in
  let^ prime_fn_ident := ident_new (fn_ident f ++ "_prime_cache") in
  accept {|
    MacroOnce.cache_ident := cache_ident;
    cache_ty := select_cell has_ttl cache_value_ty;
    hit_test := gen_return_cache_block ttl_duration (expires args);
    mode := sync_writes;
    async_lock := asyncness f;
    static_vis := if in_impl args then None else Some (vis f);
    static_attrs := static_cfg_attrs (attrs f);
    value_ty := cache_value_ty;
    smart_result := is_smart_result args (output f);
    smart_option := is_smart_option args (output f);
    flagged := with_cached_flag args;
    refresh_block := force_refresh_guard;
    no_cache_ident := inner_fn_ident;
    no_cache_on_self := has_receiver f;
    inner_sibling := if in_impl args then Some (companions_visibility, no_cache_attrs (attrs f)) else None;
    fn_attrs := fill_in_attributes (attrs f) (make_doc_extra args cache_ident);
    fn_inputs := get_mut_inputs (inputs f);
    call_args := get_input_names (inputs f);
    prime_fn := if in_impl args || negb (default true (companions args)) then None
                else Some (companions_visibility, prime_fn_ident, no_cache_attrs (attrs f));
    now_block := has_ttl;
    async_feature_guard := asyncness f |}.

(** The macro on parsed attributes. *)
Definition once_with (to_tokens : GenericArgument -> list TokenTree) (attr_args : list NestedMeta) (args : OnceMacroArgs)
    (f : ItemFn) : Macro OnceFn :=
  rejects (signature_checks args f) ;^
  rejects (expires_ttl_checks attr_args args) ;^
  let^ (has_ttl, ttl_duration) :=
    resolve_ttl_duration (ttl args) (ttl_secs args) (ttl_millis args) FnIdent
      (attr_span attr_args ["ttl"; "ttl_secs"; "ttl_millis"]) in
  rejects (unsupported_checks args) ;^
  rejects (expires_checks args) ;^
  rejects (return_checks args (output f)) ;^
  let^ cache_value_ty := find_value_type (is_smart_result args (output f)) (is_smart_option args (output f)) (output f) in
  check_concrete to_tokens f cache_value_ty ;^
  let^ cache_ident := make_cache_ident (name args) (fn_ident f) in
  rejects (sync_checks args) ;^
  emit args f has_ttl ttl_duration cache_ident cache_value_ty.

(** [from_list] is what [darling] derives for [OnceMacroArgs]. *)
Definition once (to_tokens : GenericArgument -> list TokenTree) (from_list : list NestedMeta -> Macro OnceMacroArgs)
    (attr_args : list NestedMeta) (f : ItemFn) : Macro OnceFn :=
  reject_concurrent_only_attrs "once" attr_args ;^
  reject_once_specific_attrs attr_args ;^
  let^ args := from_list attr_args in
  once_with to_tokens attr_args args f.
End Macro.
