(* ===== verification/MacroConcurrent.v ===== *)
(** * [#[concurrent_cached]]: its attributes, their checks, and what it emits
      ([cached_proc_macro/src/concurrent_cached.rs])

    The function the emitted items stand for is in [ConcurrentMemo]. *)
From Stdlib Require Import String.
From stdpp Require Import strings.
From S2P Require Import Prelude MacroSyntax.
#[local] Open Scope string_scope.

Record ConcurrentCachedArgs : Type := mkArgs {
  map_error : option Expr;
  disk : bool;
  disk_dir : option string;
  redis : bool;
  cache_prefix_block : option Expr;
  name : option string;
  ttl : option TtlExpr;
  ttl_secs : option Z;
  ttl_millis : option Z;
  time : option Z;
  time_refresh : option bool;
  size : option Z;
  refresh : bool;
  key : option string;
  convert : option Expr;
  with_cached_flag : bool;
  cache_err : bool;
  cache_none : bool;
  result_fallback : bool;
  ty : option string;
  create : option Expr;
  durable : option bool;
  max_size : option Z;
  shards : option Z;
  expires : bool;
  force_refresh : option Expr;
  companions_vis : option string;
  companions : option bool;
  in_impl : bool }.

Definition create_conflicts (args : ConcurrentCachedArgs) : list string :=
  set_names [
    ("ttl", is_some (ttl args)); ("ttl_secs", is_some (ttl_secs args)); ("ttl_millis", is_some (ttl_millis args));
    ("refresh", refresh args); ("cache_prefix_block", is_some (cache_prefix_block args));
    ("disk_dir", is_some (disk_dir args)); ("durable", is_some (durable args));
    ("max_size", is_some (max_size args)); ("shards", is_some (shards args))].

Definition check_create_conflicts (args : ConcurrentCachedArgs) (sp : Span) : Macro unit :=
  match create_conflicts args with
  | [] => accept tt
  | conflicting => reject sp ("cannot specify " ++ quoted_list conflicting ++ " when passing a `create` block")
  end.

Definition reject_cached_only_attrs (attr_args : list NestedMeta) : Macro unit :=
  reject_listed [
    ("result", "`result` is not a valid attribute for `#[concurrent_cached]`");
    ("option", "`option = true` is not a valid attribute for `#[concurrent_cached]`");
    ("sync_writes", "`sync_writes` is not supported on `#[concurrent_cached]`");
    ("sync_writes_buckets", "`sync_writes_buckets` is not supported on `#[concurrent_cached]`");
    ("sync_lock", "`sync_lock` is not supported on `#[concurrent_cached]`");
    ("unsync_reads", "`unsync_reads` is not supported on `#[concurrent_cached]`")] 0 attr_args.

(** ** The checks, in their order *)

Definition signature_checks (attr_args : list NestedMeta) (args : ConcurrentCachedArgs) (f : ItemFn) :
    list (bool * (Span * string)) := [
  (has_receiver f && negb (in_impl args), (FnIdent, "#[concurrent_cached] cannot be applied to methods that take `self`"));
  (in_impl args && negb (has_receiver f), (FnIdent, "in_impl = true requires a method with a `self` receiver"));
  (negb (default true (companions args)) && negb (in_impl args) && is_some (companions_vis args),
    (FnIdent, "`companions_vis` has no effect with `companions = false`"));
  (generic f && negb (is_some (convert args)), (CallSite, "#[concurrent_cached] on a generic function requires `key` + `convert`"));
  (is_some (time args), (FnIdent, "`time` was renamed in a prior major release; use `ttl_secs = ...`"));
  (is_some (time_refresh args), (FnIdent, "`time_refresh` was renamed in a prior major release; use `refresh = ...`"));
  (is_some (size args), (attr_span attr_args ["size"], "`size` was renamed to `max_size`; use `max_size = ...`"))].

Definition expires_ttl_checks (attr_args : list NestedMeta) (args : ConcurrentCachedArgs) : list (bool * (Span * string)) := [
  (expires args && is_some (ttl_secs args), (attr_span attr_args ["ttl_secs"], "`expires` and `ttl_secs` are mutually exclusive"));
  (expires args && is_some (ttl_millis args), (attr_span attr_args ["ttl_millis"], "`expires` and `ttl_millis` are mutually exclusive"));
  (expires args && is_some (ttl args), (attr_span attr_args ["ttl"], "`expires` and `ttl` are mutually exclusive"))].

Definition expires_checks (args : ConcurrentCachedArgs) : list (bool * (Span * string)) := [
  (expires args && redis args, (FnIdent, "`expires` and `redis` are mutually exclusive"));
  (expires args && disk args, (FnIdent, "`expires` and `disk` are mutually exclusive"));
  (expires args && is_some (ty args), (FnIdent, "`expires` and `ty` are mutually exclusive"));
  (expires args && is_some (create args), (FnIdent, "`expires` and `create` are mutually exclusive"));
  (expires args && refresh args, (FnIdent, "`expires` and `refresh` are mutually exclusive"));
  (expires args && cache_none args, (FnIdent, "`expires = true` and `cache_none = true` are incompatible"));
  (expires args && cache_err args, (FnIdent, "`expires = true` and `cache_err = true` are mutually exclusive"))].

Definition is_smart_result (args : ConcurrentCachedArgs) (output : ReturnType) : bool :=
  is_result_return_type output && negb (cache_err args).
Definition is_smart_option (args : ConcurrentCachedArgs) (output : ReturnType) : bool :=
  is_option_return_type output && negb (cache_none args).

Definition return_checks (args : ConcurrentCachedArgs) (output : ReturnType) : list (bool * (Span * string)) := [
  (cache_err args && negb (is_result_return_type output),
    (FnIdent, "`cache_err = true` requires the function to return `Result<T, E>`"));
  (cache_none args && negb (is_option_return_type output),
    (FnIdent, "`cache_none = true` requires the function to return `Option<T>`"));
  (result_fallback args && negb (is_result_return_type output),
    (FnIdent, "`result_fallback` requires a `Result<T, E>` return type"));
  (result_fallback args && cache_err args, (FnIdent, "`result_fallback` and `cache_err` are mutually exclusive"));
  (result_fallback args && with_cached_flag args, (FnIdent, "`result_fallback` and `with_cached_flag` are mutually exclusive"));
  (is_smart_option args output && redis args,
    (FnIdent, "`Option<T>` return types that skip `None` are only supported for the default in-memory sharded stores, not `redis = true`"));
  (is_smart_option args output && disk args,
    (FnIdent, "`Option<T>` return types that skip `None` are only supported for the default in-memory sharded stores, not `disk = true`"));
  (is_smart_option args output && is_some (ty args),
    (FnIdent, "`Option<T>` return types that skip `None` are only supported for the default in-memory sharded stores, not a custom `ty`"));
  (is_smart_option args output && is_some (create args),
    (FnIdent, "`Option<T>` return types that skip `None` are only supported for the default in-memory sharded stores, not a custom `create`"));
  (check_with_cache_flag (with_cached_flag args) output, with_cache_flag_error);
  (with_cached_flag args && negb (is_smart_option args output) && is_option_return_type output,
    (OutputTy, "`with_cached_flag = true` and `cache_none = true` are structurally incompatible"))].

(** ** The type of the value *)

Definition UNABLE : string := "#[concurrent_cached] unable to determine cache value type".

(** [Return<T>]: [T]. *)
Definition peel_return (with_cached_flag : bool) (arg : GenericArgument) : Macro GenericArgument :=
  if with_cached_flag then
    match arg with
    | GType return_ty => first_type_arg return_ty OutputTy UNABLE UNABLE
    | GOther _ => reject OutputTy UNABLE
    end
  else accept arg.

Definition find_cache_value_ty (args : ConcurrentCachedArgs) (output : ReturnType) : Macro GenericArgument :=
  if is_smart_result args output then
    match output with
    | ReturnDefault => Unwind
    | ReturnTy ty =>
        let^ ok_ty := first_type_arg ty OutputTy "function return type too complex, #[concurrent_cached] functions must return `Result`s"
                        "#[concurrent_cached] functions must return `Result`s" in
        peel_return (with_cached_flag args) ok_ty
    end
  else if is_smart_option args output then
    match output with
    | ReturnDefault => Unwind
    | ReturnTy ty =>
        let^ inner_ty := first_type_arg ty OutputTy UNABLE UNABLE in
        peel_return (with_cached_flag args) inner_ty
    end
  else
    match output with
    | ReturnDefault => accept (GType (TTuple []))
    | ReturnTy ty => peel_return (with_cached_flag args) (GType ty)
    end.

(** ** The store *)

Definition path_conflicts (args : ConcurrentCachedArgs) : list string :=
  set_names [
    ("cache_prefix_block", is_some (cache_prefix_block args)); ("disk_dir", is_some (disk_dir args));
    ("durable", is_some (durable args))].

Section Stores.
Context `{!Syn}.

Definition custom_type (ty : string) : Macro CacheTy :=
  let^ ty := parsed (parse_type ty) FnIdent "unable to parse cache type" in accept (CustomTy ty).

Definition get_redis_cache_type_and_create (args : ConcurrentCachedArgs) (ttl_duration : option TtlTokens) (cache_ident : string)
    (cache_key_ty : KeyTy) (cache_value_ty : GenericArgument) (is_async : bool) : Macro (CacheTy * CacheCreate) :=
  let disk_only := set_names [("disk_dir", is_some (disk_dir args)); ("durable", is_some (durable args))] in
  rejects [
    (negb (bool_decide (disk_only = [])), (FnIdent, quoted_list disk_only ++ " can only be used with `disk = true` (the redb store), not the redis path"));
    (is_some (ty args) && negb (is_some (create args)), (FnIdent, "a custom `ty` on the redis path requires a matching `create` block"))] ;^
  let store := if is_async then Store.AsyncRedisCache else Store.RedisCache in
  let^ cache_ty :=
    match ty args with
    | Some ty => custom_type ty
    | None => accept (StoreOf store cache_key_ty cache_value_ty)
    end in
  let^ cache_create :=
    match create args with
    | Some create_expr => check_create_conflicts args FnIdent ;^ accept (CreateExpr (expr_value_tokens create_expr))
    | None =>
        match ttl_duration with
        | Some ttl_dur =>
            let cache_prefix_block :=
              match cache_prefix_block args with
              | Some cp_expr => expr_value_tokens cp_expr
              | None => EBlock [] None [SExpr (ELit ("cached::macros::concurrent_cached::" ++ cache_ident)) false]
              end in
            accept (Builder store (PrefixArg cache_prefix_block) [CallTtl ttl_dur; CallRefreshOnHit (refresh args)] is_async)
        | None =>
            reject FnIdent (if is_async then "AsyncRedisCache requires a TTL (`ttl`/`ttl_secs`/`ttl_millis`) when `create` block is not specified"
                            else "RedisCache requires a TTL (`ttl`/`ttl_secs`/`ttl_millis`) when `create` block is not specified")
        end
    end in
  accept (cache_ty, cache_create).

Definition get_disk_cache_type_and_create (args : ConcurrentCachedArgs) (ttl_duration : option TtlTokens) (cache_name : string)
    (cache_key_ty : KeyTy) (cache_value_ty : GenericArgument) : Macro (CacheTy * CacheCreate) :=
  rejects [
    (is_some (cache_prefix_block args), (FnIdent, "`cache_prefix_block` is redis-only and does not apply to the disk (`redb`) path"));
    (is_some (ty args) && negb (is_some (create args)), (FnIdent, "a custom `ty` on the disk path requires a matching `create` block"))] ;^
  let^ cache_ty :=
    match ty args with
    | Some ty => custom_type ty
    | None => accept (StoreOf Store.RedbCache cache_key_ty cache_value_ty)
    end in
  let^ cache_create :=
    match create args with
    | Some create_expr => check_create_conflicts args FnIdent ;^ accept (CreateExpr (expr_value_tokens create_expr))
    | None =>
        let calls := match ttl_duration with None => [] | Some ttl_dur => [CallTtl ttl_dur] end in
        let calls := (calls ++ [CallRefreshOnHit (refresh args)])%list in
        let calls := match durable args with None => calls | Some durable => (calls ++ [CallDurable durable])%list end in
        let calls := match disk_dir args with None => calls | Some dir => (calls ++ [CallDiskDir dir])%list end in
        accept (Builder Store.RedbCache (NameArg cache_name) calls false)
    end in
  accept (cache_ty, cache_create).

(** [.shards(n)], if given. *)
Definition shards_call (args : ConcurrentCachedArgs) : list BuilderCall :=
  match shards args with Some n => [CallShards n] | None => [] end.

Definition get_sharded_cache_type_and_create (args : ConcurrentCachedArgs) (ttl_duration : option TtlTokens)
    (cache_key_ty : KeyTy) (cache_value_ty : GenericArgument) : Macro (CacheTy * CacheCreate) :=
  rejects [
    (is_zero (shards args), (FnIdent, "`shards` must be >= 1"));
    (is_zero (max_size args), (FnIdent, "`max_size` must be >= 1"));
    (refresh args && negb (is_some ttl_duration),
      (FnIdent, "`refresh` requires a TTL (`ttl`/`ttl_secs`/`ttl_millis`) to be set on the default in-memory sharded path"));
    (negb (bool_decide (path_conflicts args = [])), (FnIdent, quoted_list (path_conflicts args) ++ " only apply to the redis/disk paths"))] ;^
  let built s calls := accept (StoreOf s cache_key_ty cache_value_ty, Builder s NoArg calls false) in
  let n := shards_call args in
  if expires args then
    match max_size args with
    | Some size => built Store.ShardedExpiringLruCache (CallMaxSize size :: n)
    | None => built Store.ShardedExpiringCache n
    end
  else
    match max_size args, ttl_duration with
    | None, None => built Store.ShardedUnboundCache n
    | Some size, None => built Store.ShardedLruCache (CallMaxSize size :: n)
    | None, Some ttl_dur =>
        built Store.ShardedTtlCache (CallTtl ttl_dur :: (n ++ [CallRefreshOnHit (refresh args)])%list)
    | Some size, Some ttl_dur =>
        built Store.ShardedLruTtlCache (CallMaxSize size :: CallTtl ttl_dur :: (n ++ [CallRefreshOnHit (refresh args)])%list)
    end.

Definition get_custom_cache_type_and_create (args : ConcurrentCachedArgs) : Macro (CacheTy * CacheCreate) :=
  let^ cache_ty :=
    match ty args with
    | Some ty => custom_type ty
    | None => reject FnIdent "`create` requires `ty` to also be set"
    end in
  let^ cache_create :=
    match create args with
    | Some create_expr => check_create_conflicts args FnIdent ;^ accept (CreateExpr (expr_value_tokens create_expr))
    | None => reject FnIdent "`ty` requires `create` to also be set"
    end in
  accept (cache_ty, cache_create).

(** [infallible_default], and [cache_ty] and [cache_create]. *)
Definition select_store (args : ConcurrentCachedArgs) (f : ItemFn) (ttl_duration : option TtlTokens) (cache_ident : string)
    (cache_key_ty : KeyTy) (cache_value_ty : GenericArgument) : Macro (bool * (CacheTy * CacheCreate)) :=
  let memory_only msg_shards msg_max_size :=
    rejects [(is_some (shards args), (FnIdent, msg_shards)); (is_some (max_size args), (FnIdent, msg_max_size))] in
  match redis args, disk args with
  | true, false =>
      memory_only "`shards` only applies to the default in-memory store, not `redis = true`"
                  "`max_size` only applies to the default in-memory store, not `redis = true`" ;^
      let^ store := get_redis_cache_type_and_create args ttl_duration cache_ident cache_key_ty cache_value_ty (asyncness f) in
      accept (false, store)
  | false, true =>
      memory_only "`shards` only applies to the default in-memory store, not `disk = true`"
                  "`max_size` only applies to the default in-memory store, not `disk = true`" ;^
      let^ store := get_disk_cache_type_and_create args ttl_duration cache_ident cache_key_ty cache_value_ty in
      accept (false, store)
  | true, true => reject FnIdent "`redis = true` and `disk = true` are mutually exclusive"
  | false, false =>
      if is_some (ty args) || is_some (create args) then
        let^ store := get_custom_cache_type_and_create args in accept (false, store)
      else
        let^ store := get_sharded_cache_type_and_create args ttl_duration cache_key_ty cache_value_ty in accept (true, store)
  end.

Definition store_demand_checks (args : ConcurrentCachedArgs) (output : ReturnType) (has_ttl infallible_default : bool) :
    list (bool * (Span * string)) := [
  (cache_none args && negb infallible_default,
    (FnIdent, "`cache_none = true` is only supported for the default in-memory sharded stores"));
  (negb (is_result_return_type output) && negb infallible_default,
    (OutputTy, "#[concurrent_cached] " ++ (if is_option_return_type output then "Option<T>" else "plain") ++
               " return types are only supported for the default in-memory sharded stores"));
  (cache_err args && negb infallible_default,
    (FnIdent, "`cache_err = true` is only supported for the default in-memory sharded stores"));
  (result_fallback args && negb infallible_default,
    (FnIdent, "`result_fallback` is only supported for the default in-memory sharded stores"));
  (result_fallback args && negb has_ttl && negb (expires args),
    (FnIdent, "`result_fallback` requires entries that expire"))].

(** [map_error_closure] *)
Definition check_map_error (args : ConcurrentCachedArgs) (infallible_default : bool) : Macro (option Expr) :=
  match map_error args, infallible_default with
  | Some _, true => reject FnIdent "`map_error` is not applicable to the default in-memory sharded stores"
  | Some e, false =>
      match e with
      | EClosure asyncness _ =>
          if asyncness then reject (AtExpr e) "`map_error` must be a synchronous closure" else accept (Some e)
      | _ => reject (AtExpr e) "`map_error` must be a closure, e.g. `map_error = |e| MyErr(e)`"
      end
  | None, _ => accept None
  end.

End Stores.

(** ** What is emitted *)

(** What follows a store call: [.expect(..)], [.map_err(closure)?] or [?]. *)
Inductive Unwrap : Type := UnwrapExpect | UnwrapMapErr (closure : Expr) | UnwrapTry.

Definition cache_unwrap (infallible_default : bool) (map_error_closure : option Expr) : Unwrap :=
  if infallible_default then UnwrapExpect
  else match map_error_closure with Some me => UnwrapMapErr me | None => UnwrapTry end.

(** The guards, in the order they are emitted. *)
Inductive FeatureGuard : Type := RedbStore | RedisFeature (async : bool) | AsyncFeature | TimeStores.

Definition feature_guards (args : ConcurrentCachedArgs) (is_async has_ttl : bool) : list FeatureGuard :=
  (if disk args && negb (is_some (ty args)) then [RedbStore] else [])
  ++ (if redis args && negb (is_some (ty args)) then [RedisFeature is_async] else [])
  ++ (if is_async then [AsyncFeature] else [])
  ++ (if negb (redis args) && negb (disk args) && negb (is_some (ty args)) && negb (is_some (create args))
         && negb (expires args) && has_ttl then [TimeStores] else []).

Record ConcurrentFn : Type := mkConcurrentFn {
  cache_ident : string;
  async_static : bool;
  cache_ty : CacheTy;
  cache_create : CacheCreate;
  infallible : bool;
  unwrap : Unwrap;
  static_vis : option string;
  static_attrs : list (string * string);
  key_block : KeyBlock;
  value_ty : GenericArgument;
  smart_result : bool;
  smart_option : bool;
  flagged : bool;
  flagged_result : bool;
  flagged_option : bool;
  fallback : bool;
  refresh_block : option Block;
  no_cache_ident : string;
  no_cache_on_self : bool;
  inner_sibling : option (string * list (string * string));
  fn_attrs : list (string * string);
  fn_inputs : list FnArg;
  call_args : list Pat;
  prime_fn : option (string * string * list (string * string));
  guards : list FeatureGuard }.

Definition make_doc_extra (args : ConcurrentCachedArgs) (cache_ident : string) : string :=
  if in_impl args then "This is a cached method; its cache static is function-local to the method body."
  else "This is a cached function that uses the [`" ++ cache_ident ++ "`] cached static.".

Section Emit.
Context `{!Syn}.

Definition emit (args : ConcurrentCachedArgs) (f : ItemFn) (has_ttl : bool) (cache_ident : string) (key_block : KeyBlock)
    (cache_value_ty : GenericArgument) (infallible_default : bool) (store : CacheTy * CacheCreate)
    (map_error_closure : option Expr) : Macro ConcurrentFn :=
  let^ companions_visibility := make_companions_visibility (companions_vis args) (vis f) in
  let^ inner_fn_ident := ident_new (fn_ident f ++ "_no_cache") in
  let^ force_refresh_block := parse_force_refresh_block (force_refresh args) in
  let^ prime_fn_ident := ident_new (fn_ident f ++ "_prime_cache") in
  accept {|
    MacroConcurrent.cache_ident := cache_ident;
    async_static := asyncness f;
    cache_ty := store.1;
    cache_create := store.2;
    infallible := infallible_default;
    unwrap := cache_unwrap infallible_default map_error_closure;
    static_vis := if in_impl args then None else Some (vis f);
    static_attrs := static_cfg_attrs (attrs f);
    MacroConcurrent.key_block := key_block;
    value_ty := cache_value_ty;
    smart_result := is_smart_result args (output f);
    smart_option := is_smart_option args (output f);
    flagged := with_cached_flag args;
    flagged_result := with_cached_flag args && is_smart_result args (output f);
    flagged_option := with_cached_flag args && is_smart_option args (output f);
    fallback := result_fallback args;
    refresh_block := force_refresh_block;
    no_cache_ident := inner_fn_ident;
    no_cache_on_self := has_receiver f;
    inner_sibling := if in_impl args then Some (companions_visibility, no_cache_attrs (attrs f)) else None;
    fn_attrs := fill_in_attributes (attrs f) (make_doc_extra args cache_ident);
    fn_inputs := get_mut_inputs (inputs f);
    call_args := get_input_names (inputs f);
    prime_fn := if in_impl args || negb (default true (companions args)) then None
                else Some (companions_visibility, prime_fn_ident, no_cache_attrs (attrs f));
    guards := feature_guards args (asyncness f) has_ttl |}.

(** The macro on parsed attributes. *)
Definition concurrent_cached_with (attr_args : list NestedMeta) (args : ConcurrentCachedArgs) (f : ItemFn) : Macro ConcurrentFn :=
  rejects (signature_checks attr_args args f) ;^
  rejects (expires_ttl_checks attr_args args) ;^
  let^ (has_ttl, ttl_duration) :=
    resolve_ttl_duration (ttl args) (ttl_secs args) (ttl_millis args) FnIdent
      (attr_span attr_args ["ttl"; "ttl_secs"; "ttl_millis"]) in
  rejects (expires_checks args) ;^
  rejects (return_checks args (output f)) ;^
  let^ cache_value_ty := find_cache_value_ty args (output f) in
  let^ cache_ident := make_cache_ident (name args) (fn_ident f) in
  let^ (cache_key_ty, key_convert_block) :=
    make_cache_key_type (key args) (convert args) (ty args) (get_input_types (inputs f)) (get_input_names (inputs f)) in
  let^ (infallible_default, store) := select_store args f ttl_duration cache_ident cache_key_ty cache_value_ty in
  rejects (store_demand_checks args (output f) has_ttl infallible_default) ;^
  let^ map_error_closure := check_map_error args infallible_default in
  emit args f has_ttl cache_ident key_convert_block cache_value_ty infallible_default store map_error_closure.

(** [from_list] is what [darling] derives for [ConcurrentCachedArgs]. *)
Definition concurrent_cached (from_list : list NestedMeta -> Macro ConcurrentCachedArgs) (attr_args : list NestedMeta)
    (f : ItemFn) : Macro ConcurrentFn :=
  reject_cached_only_attrs attr_args ;^
  let^ args := from_list attr_args in
  concurrent_cached_with attr_args args f.
End Emit.
