(* ===== verification/MacroProps.v ===== *)
(** * The helpers of the macros: what acceptance means, default keys, the walk of [#[once]]

    Lemmas that take an accepted expansion apart, shared by the proofs about the three macros. *)
From Stdlib Require Import String Ascii.
From stdpp Require Import strings.
From S2P Require Import Prelude MacroSyntax MacroOnce.
#[local] Open Scope string_scope.

(** ** Accepted expansions *)

Lemma mbind_ok {A B} (m : Macro A) (k : A -> Macro B) b :
  mbind m k = Done (Ok b) -> exists a, m = Done (Ok a) /\ k a = Done (Ok b).
Proof. destruct m as [[a|e]| |]; try done. intros H. by exists a. Qed.

Lemma rejects_ok l : rejects l = Done (Ok tt) <-> Forall (fun p => p.1 = false) l.
Proof.
  induction l as [|[c [sp msg]] l IH]; simpl; [by split|]. rewrite Forall_cons. simpl.
  destruct c; [|rewrite IH]; naive_solver.
Qed.

(** None of the conditions holds. *)
Notation passes l := (Forall (fun p : bool * (Span * string) => p.1 = false) l).

Lemma rejects_cases l : rejects l = Done (Ok tt) \/ exists e, rejects l = Done (Err e).
Proof. induction l as [|[c [sp msg]] l IH]; simpl; [by left|]. destruct c; [right; by eexists|exact IH]. Qed.

Lemma parsed_ok {A} (o : option A) sp msg a : parsed o sp msg = Done (Ok a) -> o = Some a.
Proof. destruct o; [by intros [= ->]|done]. Qed.

Lemma ident_new_ok `{!Syn} s s' : ident_new s = Done (Ok s') -> s' = s /\ valid_ident s = true.
Proof. unfold ident_new. destruct (valid_ident s); [by intros [= ->]|done]. Qed.

Lemma bool_and_false a b : a && b = false <-> (a = true -> b = false).
Proof. destruct a; naive_solver. Qed.

Lemma is_some_false {A} (o : option A) : is_some o = false <-> o = None.
Proof. by destruct o. Qed.
Lemma is_some_true {A} (o : option A) : is_some o = true <-> exists a, o = Some a.
Proof. destruct o; naive_solver. Qed.
Lemma is_zero_false o : is_zero o = false <-> forall n, o = Some n -> n <> 0.
Proof. destruct o as [n|]; simpl; [rewrite Z.eqb_neq|]; naive_solver. Qed.

Lemma set_names_nil l : set_names l = [] <-> Forall (fun p => p.2 = false) l.
Proof.
  induction l as [|[a b] l IH]; [by split|]. unfold set_names in *. rewrite Forall_cons. destruct b.
  - rewrite filter_cons_True by done. split; [done|]. by intros [? _].
  - rewrite filter_cons_False by done. rewrite IH. naive_solver.
Qed.

(** The conditions of a run of checks, one by one. *)
Ltac passed H := repeat rewrite Forall_cons in H; simpl in H.

(** Every stage of an accepted expansion was accepted. *)
Ltac accepted H :=
  repeat match type of H with
  | mbind _ _ = Done (Ok _) => apply mbind_ok in H as (? & ? & H)
  | (let '(_, _) := ?x in _) = Done (Ok _) => destruct x
  end.

(** ** Names, companions and keys, as the attributes give them *)

Lemma drop_prefix_app p s r : drop_prefix p s = Some r -> s = p ++ r.
Proof.
  revert s. induction p as [|a p IH]; intros s; [by intros [= ->]|]. destruct s as [|b s]; [done|]. simpl.
  destruct (Ascii.eqb_spec a b) as [->|]; [|done]. by intros ->%IH.
Qed.

(** The static has the name given, or that of the function in upper case. *)
Lemma cache_ident_ok `{!Syn} name fn id : make_cache_ident name fn = Done (Ok id) -> id = default (to_uppercase fn) name.
Proof.
  unfold make_cache_ident. destruct name as [n|]; [|by intros [-> _]%ident_new_ok].
  intros Ha. apply mbind_ok in Ha as ([] & _ & Ha). destruct (drop_prefix "r#" n) as [r|] eqn:Ed; [|by apply ident_new_ok in Ha as [-> _]].
  apply drop_prefix_app in Ed as ->. unfold ident_new_raw in Ha. destruct (valid_ident r); [|done]. by injection Ha as <-.
Qed.

(** How visible the companions are: as the function, as the attribute says, or private for the empty string. *)
Definition companions_visible `{!Syn} (companions_vis : option string) (vis cv : string) : Prop :=
  match companions_vis with
  | None => cv = vis
  | Some s => (s = "" /\ cv = "") \/ (s <> "" /\ parse_visibility s = Some cv)
  end.

Lemma companions_visibility_ok `{!Syn} o v cv : make_companions_visibility o v = Done (Ok cv) -> companions_visible o v cv.
Proof.
  unfold make_companions_visibility, companions_visible. destruct o as [s|]; [|by intros [= ->]].
  destruct (String.eqb_spec s "") as [->|Hs]; [intros [= <-]; by left|]. intros Hp%parsed_ok. by right.
Qed.

(** The key: of the type and by the expression given, or, with neither, made of the arguments. *)
Definition key_given `{!Syn} (key : option string) (convert : option Expr) (f : ItemFn) (k : KeyTy) (kb : KeyBlock) : Prop :=
  (forall s, key = Some s -> exists t, parse_type s = Some t /\ k = KeyGiven t) /\
  (forall c, convert = Some c -> exists b, expr_to_block c = accept b /\ kb = Convert b) /\
  (convert = None -> key = None /\ exists exprs, kb = KeyExprs exprs).

Lemma cache_key_ok `{!Syn} key convert ty f k kb :
  make_cache_key_type key convert ty (get_input_types (inputs f)) (get_input_names (inputs f)) = Done (Ok (k, kb)) ->
  key_given key convert f k kb /\ (k = KeyOmitted -> is_some ty = true).
Proof.
  unfold make_cache_key_type, key_given. destruct key as [s|], convert as [c|]; try done.
  - intros Ha. apply mbind_ok in Ha as (t & Ht%parsed_ok & Ha). apply mbind_ok in Ha as (b & Hb & Ha). injection Ha as <- <-.
    split; [|done]. split_and!; [intros ? [= <-]; by exists t|intros ? [= <-]; by exists b|done].
  - destruct ty as [y|]; [|done]. intros Ha. apply mbind_ok in Ha as (b & Hb & Ha). injection Ha as <- <-.
    split; [|done]. split_and!; [done|intros ? [= <-]; by exists b|done].
  - intros [= <- <-]. split; [|done]. split_and!; [done|done|]. intros _. split; [done|]. by eexists.
Qed.

Lemma force_refresh_ok `{!Syn} r b : parse_force_refresh_block r = Done (Ok b) ->
  match r with Some r => exists b', expr_to_block r = accept b' /\ b = Some b' | None => b = None end.
Proof.
  destruct r as [r|]; simpl; [|by intros [= <-]].
  destruct r; try done; intros Ha; apply mbind_ok in Ha as (b' & Hb & Ha); injection Ha as <-; by exists b'.
Qed.

(** No type is a [Result] and an [Option]. *)
Lemma result_not_option out : is_result_return_type out = true -> is_option_return_type out = false.
Proof.
  unfold is_result_return_type, is_option_return_type, is_wrapper. repeat case_match; try done.
  all: intros [_ ->%String.eqb_eq]%andb_true_iff; by rewrite andb_false_r.
Qed.

(** ** The time to live *)

(** The tokens the ttl attributes stand for. *)
Definition ttl_given `{!Syn} (ttl : option TtlExpr) (ttl_secs ttl_millis : option Z) (t : TtlTokens) : Prop :=
  match t with
  | TtlParsed e => (exists x, ttl = Some x /\ parse_expr (expr x) = Some e) /\ ttl_secs = None /\ ttl_millis = None
  | FromSecs n => ttl = None /\ ttl_secs = Some n /\ ttl_millis = None /\ n <> 0
  | FromMillis n => ttl = None /\ ttl_secs = None /\ ttl_millis = Some n /\ n <> 0
  end.

Lemma resolve_ttl_ok `{!Syn} ttl ttl_secs ttl_millis sp1 sp2 has t :
  resolve_ttl_duration ttl ttl_secs ttl_millis sp1 sp2 = Done (Ok (has, t)) ->
  has = is_some t /\
  match t with
  | Some t => ttl_given ttl ttl_secs ttl_millis t
  | None => ttl = None /\ ttl_secs = None /\ ttl_millis = None
  end.
Proof.
  unfold resolve_ttl_duration. intros Ha. apply mbind_ok in Ha as ([] & Hc%rejects_ok & Ha). passed Hc. destruct Hc as (E1 & E2 & E3 & _).
  apply mbind_ok in Ha as (t' & Ht & Ha). injection Ha as <- <-. split; [done|].
  destruct ttl as [x|], ttl_secs as [s|], ttl_millis as [ms|]; simpl in *; try done.
  - apply mbind_ok in Ht as (e & He & Ht). apply parsed_ok in He. injection Ht as <-. simpl. eauto.
  - injection Ht as <-. simpl. repeat split; [done..|by apply Z.eqb_neq].
  - injection Ht as <-. simpl. repeat split; [done..|by apply Z.eqb_neq].
  - by injection Ht as <-.
Qed.

Lemma resolve_ttl_cases `{!Syn} ttl ttl_secs ttl_millis sp1 sp2 :
  exists r, resolve_ttl_duration ttl ttl_secs ttl_millis sp1 sp2 = Done r.
Proof.
  unfold resolve_ttl_duration. destruct (rejects_cases [
    (Nat.ltb 1 (Nat.b2n (is_some ttl) + Nat.b2n (is_some ttl_secs) + Nat.b2n (is_some ttl_millis)),
      (sp2, "`ttl`, `ttl_secs`, and `ttl_millis` are mutually exclusive"));
    (is_zero ttl_secs, (sp1, "`ttl_secs` must be >= 1")); (is_zero ttl_millis, (sp1, "`ttl_millis` must be >= 1"))])
    as [-> | [e ->]]; simpl; [|by eexists].
  destruct ttl as [x|]; simpl; [|destruct ttl_secs; by eexists].
  unfold parsed. destruct (parse_expr _); by eexists.
Qed.

(** ** The key *)

(** The type is a borrow, or an [Option] - under any path - whose first argument is one. *)
Inductive borrow_of : Ty -> Ty -> Prop := borrow_reference t : borrow_of (TReference t) t.
Inductive option_borrow_of : Ty -> Ty -> Prop :=
| option_reference path args r t : borrow_of r t -> option_borrow_of (TPath (path ++ [Segment "Option" (AngleBracketed (GType r :: args))])) t.

(** Any other type: a key may be made of it as it is. *)
Definition unborrowed (ty : Ty) : Prop := forall t, ~ borrow_of ty t /\ ~ option_borrow_of ty t.

(** The name a pattern binds, without its [mut]. *)
Inductive binds : Pat -> Pat -> Prop :=
| binds_ident by_ref mutability ident subpat : binds (PIdent by_ref mutability ident subpat) (PIdent by_ref false ident subpat)
| binds_other tokens : binds (POther tokens) (POther tokens).

(** How the part and the expression of a default key come from one input. *)
Inductive keyed : FnArg -> KeyPart -> KeyExpr -> Prop :=
| keyed_ref pat name r t : binds pat name -> borrow_of r t -> keyed (Typed pat r) (Owned t) (ToOwned name)
| keyed_option pat name o t : binds pat name -> option_borrow_of o t -> keyed (Typed pat o) (OptionOwned t) (AsDerefToOwned name)
| keyed_own pat name t : binds pat name -> unborrowed t -> keyed (Typed pat t) (AsIs t) (CloneOf name).

Inductive keyed_all : list FnArg -> list KeyPart -> list KeyExpr -> Prop :=
| keyed_nil : keyed_all [] [] []
| keyed_receiver tokens l ps es : keyed_all l ps es -> keyed_all (Receiver tokens :: l) ps es
| keyed_cons a l p ps e es : keyed a p e -> keyed_all l ps es -> keyed_all (a :: l) (p :: ps) (e :: es).

(** What the code tests is what the rules say. *)
Lemma strip_ref_spec ty : match strip_ref ty with Some t => borrow_of ty t | None => forall t, ~ borrow_of ty t end.
Proof. destruct ty; simpl; try constructor; by inversion 1. Qed.

Lemma option_ref_spec ty : match option_ref_inner ty with Some t => option_borrow_of ty t | None => forall t, ~ option_borrow_of ty t end.
Proof.
  destruct (option_ref_inner ty) as [t|] eqn:E.
  - unfold option_ref_inner in E. destruct ty as [segments| | |]; try done. simpl in E.
    destruct (last segments) as [[i a]|] eqn:El; [|done]. simpl in E. apply last_Some in El as [path ->].
    destruct a as [|[|[inner|] args]|]; try done. destruct (String.eqb_spec i "Option") as [->|]; [|done].
    pose proof (strip_ref_spec inner) as Hs. rewrite E in Hs. by constructor.
  - intros t Ho. destruct Ho as [path args r t [t']]. unfold option_ref_inner in E. simpl in E. by rewrite last_snoc in E.
Qed.

Lemma match_pattern_binds pat : binds pat (match_pattern_type pat).
Proof. destruct pat; constructor. Qed.

Lemma key_part_keyed pat ty :
  keyed (Typed pat ty) (key_part ty (match_pattern_type pat)).1 (key_part ty (match_pattern_type pat)).2.
Proof.
  pose proof (match_pattern_binds pat) as Hb. pose proof (strip_ref_spec ty) as Hs. pose proof (option_ref_spec ty) as Ho.
  unfold key_part. destruct (strip_ref ty); [by constructor|]. destruct (option_ref_inner ty); constructor; done.
Qed.

(** C24: Without [key] and [convert] the key has one part for each argument but the receiver, in order, named
    without its [mut]: an argument whose type is a borrow, or an [Option] of a borrow - under any path to
    [Option] -, is turned into its owned form in the type and in the expression alike, and an argument of
    any other type, and no other argument, is cloned as it is. *)
Theorem default_key_owns `{!Syn} (ty : option string) (args : list FnArg) :
  exists parts exprs,
    make_cache_key_type None None ty (get_input_types args) (get_input_names args) =
      accept (KeyParts parts, KeyExprs exprs) /\ keyed_all args parts exprs.
Proof.
  exists (fst <$> zip_with key_part (get_input_types args) (get_input_names args)).
  exists (snd <$> zip_with key_part (get_input_types args) (get_input_names args)). split; [by destruct ty|].
  induction args as [|[tokens|pat t] args IH]; simpl; [constructor|by constructor|].
  constructor; [apply key_part_keyed|exact IH].
Qed.

Lemma make_key_ok `{!Syn} key convert ty tys names k b :
  make_cache_key_type key convert ty tys names = Done (Ok (k, b)) ->
  (k = KeyOmitted -> is_some ty = true) /\ (is_some convert = true -> forall parts, k <> KeyParts parts).
Proof.
  unfold make_cache_key_type. destruct key as [key|], convert as [convert|]; try done.
  - intros Ha. apply mbind_ok in Ha as (? & _ & Ha). apply mbind_ok in Ha as (? & _ & Ha). injection Ha as <- <-. split; [done|]. by intros.
  - destruct ty; [|done]. intros Ha. apply mbind_ok in Ha as (? & _ & Ha). injection Ha as <- <-. split; [done|]. by intros.
  - destruct ty; intros [= <- <-]; by split.
Qed.

(** ** The walk of [#[once]] *)

(** An identifier occurs in a stream, at any depth. *)
Inductive occurs (s : string) : list TokenTree -> Prop :=
| occurs_ident stream : occurs s (TIdent s :: stream)
| occurs_group group stream : occurs s group -> occurs s (TGroup group :: stream)
| occurs_later t stream : occurs s stream -> occurs s (t :: stream).

Lemma occurs_nil s : ~ occurs s [].
Proof. inversion 1. Qed.

Lemma occurs_cons s t stream :
  occurs s (t :: stream) <->
  t = TIdent s \/ (exists group, t = TGroup group /\ occurs s group) \/ occurs s stream.
Proof.
  split; [inversion 1; naive_solver|].
  intros [-> | [(g & -> & H) | H]]; [apply occurs_ident|by apply occurs_group|by apply occurs_later].
Qed.

Lemma names_param_spec params s : names_param params s = true <-> In s params.
Proof.
  unfold names_param. rewrite existsb_exists. split; [|intros H; exists s; by rewrite String.eqb_refl].
  intros (x & Hx & E). apply String.eqb_eq in E. by subst.
Qed.

Lemma walk_stream_spec params stream stack :
  match walk_stream params stream stack with
  | Err p => In p params /\ occurs p stream
  | Ok stack' =>
      (forall p, In p params -> (occurs p stream \/ Exists (occurs p) stack <-> Exists (occurs p) stack')) /\
      (sum_list (stream_groups <$> stack') + length stack' =
       stream_groups stream + (sum_list (stream_groups <$> stack) + length stack))%nat
  end.
Proof.
  revert stack. induction stream as [|t stream IH]; intros stack; simpl.
  { split; [|done]. intros p _. split; [intros [H|H]; [by apply occurs_nil in H|done]|by right]. }
  destruct t as [s|g|s]; simpl.
  - destruct (names_param params s) eqn:E; [split; [by apply names_param_spec|apply occurs_ident]|].
    specialize (IH stack). destruct (walk_stream _ _ _) as [stack'|q].
    + destruct IH as [H1 H2]. split; [|exact H2]. intros p Hp. rewrite <- H1, occurs_cons by done.
      assert (s <> p) by (intros ->; apply names_param_spec in Hp; by rewrite E in Hp). naive_solver.
    + destruct IH as [H1 H2]. split; [done|]. by apply occurs_later.
  - specialize (IH (g :: stack)). destruct (walk_stream _ _ _) as [stack'|q].
    + destruct IH as [H1 H2]. split; [|rewrite H2; simpl; unfold stream_groups, fmap; lia].
      intros p Hp. rewrite <- H1, occurs_cons, Exists_cons by done. naive_solver.
    + destruct IH as [H1 H2]. split; [done|]. by apply occurs_later.
  - specialize (IH stack). destruct (walk_stream _ _ _) as [stack'|q].
    + destruct IH as [H1 H2]. split; [|exact H2]. intros p Hp. rewrite <- H1, occurs_cons by done. naive_solver.
    + destruct IH as [H1 H2]. split; [done|]. by apply occurs_later.
Qed.

Lemma walk_spec params fuel stack : (sum_list (stream_groups <$> stack) + length stack < fuel)%nat ->
  exists r, walk fuel params stack = Done r /\
    match r with
    | Some p => In p params /\ Exists (occurs p) stack
    | None => forall p, In p params -> ~ Exists (occurs p) stack
    end.
Proof.
  revert stack. induction fuel as [|fuel IH]; intros stack Hf; [lia|]. destruct stack as [|stream stack]; simpl.
  { exists None. split; [done|]. intros p _ H. inversion H. }
  simpl in Hf. pose proof (walk_stream_spec params stream stack) as Hs. destruct (walk_stream _ _ _) as [stack'|q].
  - destruct Hs as [H1 H2]. destruct (IH stack' ltac:(unfold stream_groups, fmap in *; simpl in *; lia)) as (r & -> & Hr). exists r. split; [done|].
    destruct r as [p|].
    + destruct Hr as [Hp Hr]. split; [done|]. apply Exists_cons. by apply H1.
    + intros p Hp. rewrite Exists_cons, H1 by done. by apply Hr.
  - destruct Hs as [H1 H2]. exists (Some q). split; [done|]. split; [done|]. by left.
Qed.

Lemma found_param_spec params stream :
  exists r, found_param params stream = Done r /\
    match r with
    | Some p => In p params /\ occurs p stream
    | None => forall p, In p params -> ~ occurs p stream
    end.
Proof.
  unfold found_param. destruct (walk_spec params (S (S (stream_groups stream))) [stream]) as (r & -> & Hr); [unfold stream_groups, fmap; simpl; lia|].
  exists r. split; [done|]. destruct r as [p|].
  - destruct Hr as [Hp Hr]. split; [done|]. by rewrite Exists_cons, Exists_nil in Hr; destruct Hr.
  - intros p Hp Ho. apply (Hr p Hp). by left.
Qed.

(** C22: The walk of [#[once]] over the tokens of the value type, a loop over a stack of streams, is the
    search for an occurrence at any depth: it ends, it accepts the function exactly if no type or const
    parameter of it occurs in the value type as a whole identifier, and the parameter it names in its
    error is one that occurs. *)
Theorem once_concrete `{!Syn} (to_tokens : GenericArgument -> list TokenTree) (f : ItemFn) (v : GenericArgument) :
  (check_concrete to_tokens f v = accept tt <->
    forall p, In p (generic_param_idents f) -> ~ occurs p (to_tokens v)) /\
  (check_concrete to_tokens f v <> accept tt ->
    exists p, In p (generic_param_idents f) /\ occurs p (to_tokens v) /\
      check_concrete to_tokens f v =
        reject FnIdent ("#[once]'s cache value type cannot name the function's generic parameter `" ++ p ++ "`")).
Proof.
  unfold check_concrete. destruct (generic_param_idents f) as [|q params] eqn:Ep; [by split|].
  destruct (found_param_spec (q :: params) (to_tokens v)) as (r & -> & Hr). destruct r as [p|].
  - destruct Hr as [H1 H2]. split; [|intros _; by exists p]. split; [done|]. intros Ha. by destruct (Ha p H1).
  - split; [|done]. by split.
Qed.

(** ** A parser and functions for the witnesses *)
Module Toy.
Fixpoint plain_chars (s : string) : bool :=
  match s with EmptyString => true | String c s => negb (Ascii.eqb c "#") && plain_chars s end.

#[global] Instance syn : Syn := {|
  parse_expr s := Some (EVerbatim s);
  parse_type s := Some (TPath [Segment s NoArguments]);
  parse_visibility s := Some s;
  parse_ident s := true;
  parse_stmt e := match e with EVerbatim _ => None | _ => Some (SExpr e false) end;
  valid_ident := plain_chars |}.

Definition u64 : Ty := TPath [Segment "u64" NoArguments].
Definition generic1 (ident : string) (args : list Ty) : Ty := TPath [Segment ident (AngleBracketed (GType <$> args))].
Definition arg (ident : string) (ty : Ty) : FnArg := Typed (PIdent false true ident None) ty.
Definition unit_result : Ty := generic1 "Result" [u64; TTuple []].

(** [fn load(mut id: u64, name: &str) -> Result<u64, ()>] *)
Definition load : ItemFn :=
  mkFn [("doc", "Loads."); ("inline", "")] "pub" false "load" [] []
    [arg "id" u64; arg "name" (TReference (TPath [Segment "str" NoArguments]))] (ReturnTy unit_result).
End Toy.
