(* ===== verification/MacroCachedProps.v ===== *)
(** * [#[cached]]: what an accepted attribute list gives *)
From Stdlib Require Import String.
From stdpp Require Import strings.
From S2P Require Import Prelude MacroSyntax MacroOnce MacroProps MacroCached.
#[local] Open Scope string_scope.

Section Accepted.
Context {HS : Syn}.
Implicit Types (args : CachedMacroArgs) (f : ItemFn) (e : CachedFn).

Lemma create_conflicts_ok args : check_create_conflicts args FnIdent = Done (Ok tt) ->
  ttl args = None /\ ttl_secs args = None /\ ttl_millis args = None /\ refresh args = false /\ max_size args = None.
Proof.
  unfold check_create_conflicts. destruct (create_conflicts args) eqn:E; [|done]. intros _.
  apply set_names_nil in E. passed E.
  destruct E as (E1 & E2 & E3 & E4 & E5 & _). apply is_some_false in E1, E2, E3, E5. done.
Qed.

(** What [cached_with] has checked and decided when it accepts. *)
Lemma cached_with_ok attr_args args f e : cached_with attr_args args f = Done (Ok e) ->
  exists cv t k kb v id store,
    companions_visible (companions_vis args) (vis f) cv /\ passes (signature_checks args f) /\ passes (expires_ttl_checks attr_args args) /\
    match t with
    | Some t => ttl_given (ttl args) (ttl_secs args) (ttl_millis args) t
    | None => ttl args = None /\ ttl_secs args = None /\ ttl_millis args = None
    end /\
    passes (removed_checks attr_args args) /\ passes (expires_checks args (is_some t)) /\
    passes (return_checks args (output f)) /\
    find_value_type (is_smart_result args (output f)) (is_smart_option args (output f)) (output f) = Done (Ok v) /\
    make_cache_ident (name args) (fn_ident f) = Done (Ok id) /\
    make_cache_key_type (key args) (convert args) (ty args) (get_input_types (inputs f)) (get_input_names (inputs f)) =
      Done (Ok (k, kb)) /\
    (is_some (create args) = true -> ttl args = None /\ ttl_secs args = None /\ ttl_millis args = None /\
      refresh args = false /\ max_size args = None) /\
    select_store args (is_some t) t k v = Done (Ok store) /\ passes (buckets_checks args) /\
    default default_sync_writes_buckets (sync_writes_buckets args) <> 0 /\
    passes (store_demand_checks args (output f) (is_some t)) /\
    emit args f cv (is_some t) id kb v store (default default_sync_writes_buckets (sync_writes_buckets args)) = Done (Ok e).
Proof.
  unfold cached_with. intros Ha.
  apply mbind_ok in Ha as (cv & Hcv%companions_visibility_ok & Ha). apply mbind_ok in Ha as ([] & H1%rejects_ok & Ha).
  apply mbind_ok in Ha as ([] & H2%rejects_ok & Ha). apply mbind_ok in Ha as ([has t] & [-> H3]%resolve_ttl_ok & Ha).
  apply mbind_ok in Ha as ([] & H4%rejects_ok & Ha). apply mbind_ok in Ha as ([] & H5%rejects_ok & Ha).
  apply mbind_ok in Ha as ([] & H6%rejects_ok & Ha). apply mbind_ok in Ha as (v & H7 & Ha).
  apply mbind_ok in Ha as (id & H8 & Ha). apply mbind_ok in Ha as ([k kb] & H9 & Ha).
  apply mbind_ok in Ha as ([] & H10 & Ha). apply mbind_ok in Ha as (store & H11 & Ha).
  apply mbind_ok in Ha as ([] & _ & Ha). apply mbind_ok in Ha as ([] & H12%rejects_ok & Ha). apply mbind_ok in Ha as ([] & H13%rejects_ok & Ha).
  apply mbind_ok in Ha as ([] & H14%rejects_ok & Ha).
  exists cv, t, k, kb, v, id, store. split_and!; try done.
  - intros Hc. rewrite Hc in H10. by apply create_conflicts_ok.
  - apply Forall_cons in H13 as [H13 _]. by apply Z.eqb_neq.
Qed.
(** ** The store *)

(** The table of the default stores: by expiry, size limit and ttl. *)
Definition default_store (expires refresh : bool) (max_size : option Z) (t : option TtlTokens) : Store.Name * list BuilderCall :=
  let size := match max_size with Some n => [CallMaxSize n] | None => [] end in
  let time := match t with Some t => [CallTtl t; CallRefreshOnHit refresh] | None => [] end in
  match expires, max_size, t with
  | true, None, _ => (Store.ExpiringCache, [])
  | true, Some _, _ => (Store.ExpiringLruCache, size)
  | false, None, None => (Store.UnboundCache, [])
  | false, Some _, None => (Store.LruCache, size)
  | false, None, Some _ => (Store.TtlCache, time)
  | false, Some _, Some _ => (Store.LruTtlCache, (size ++ time)%list)
  end.

(** A built store of the table, or the user's. *)
Definition stored_in args (t : option TtlTokens) (k : KeyTy) (v : GenericArgument) (cty : CacheTy) (cc : CacheCreate) : Prop :=
  (exists s calls, default_store (expires args) (refresh args) (max_size args) t = (s, calls) /\
  cty = StoreOf s k v /\ cc = Builder s NoArg calls false /\ (expires args = false -> ty args = None /\ create args = None)) \/
  (exists type_str c cust, ty args = Some type_str /\ create args = Some c /\ parse_type type_str = Some cust /\
  max_size args = None /\ t = None /\ expires args = false /\
  cty = CustomTy cust /\ cc = CreateExpr (expr_value_tokens c)).

Lemma select_store_ok args t k v cty cc : select_store args (is_some t) t k v = Done (Ok (cty, cc)) -> stored_in args t k v cty cc.
Proof.
  unfold select_store, stored_in, default_store.
  destruct (expires args) eqn:Ex, (max_size args) as [n|] eqn:En; try (intros [= <- <-]; left; by eexists _, _).
  - destruct t as [t|], (ty args) eqn:Et, (create args) eqn:Ec; try done; intros [= <- <-]; left; by eexists _, _.
  - destruct t as [t|], (ty args) as [s|] eqn:Et, (create args) as [c|] eqn:Ec; try done;
      try (intros [= <- <-]; left; by eexists _, _).
    intros Ha. apply mbind_ok in Ha as (cust & Hp%parsed_ok & Ha). injection Ha as <- <-. right. by exists s, c, cust.
Qed.

Lemma emit_ok args f cv has id kb v store b e : emit args f cv has id kb v store b = Done (Ok e) ->
  cache_ty e = store.1 /\ cache_create e = store.2 /\ value_ty e = v /\ cache_ident e = id /\ key_block e = kb /\
  lock_type e = default RwLock (sync_lock args) /\ async_lock e = asyncness f /\ mode e = effective_sync_writes args /\
  buckets e = b /\ smart_result e = is_smart_result args (output f) /\ smart_option e = is_smart_option args (output f) /\
  flagged e = with_cached_flag args /\ unsync e = unsync_reads args /\ fallback e = result_fallback args /\
  static_vis e = (if in_impl args then None else Some (vis f)) /\ no_cache_on_self e = has_receiver f /\
  origin e = (if nest_origin_fn args then Nested else Beside cv (in_impl args)) /\
  prime_fn e = (if in_impl args || negb (default true (companions args)) then None else Some (cv, fn_ident f ++ "_prime_cache")) /\
  async_feature_guard e = asyncness f /\ time_stores_guard e = (has && negb (is_some (ty args))) /\
  parse_force_refresh_block (force_refresh args) = Done (Ok (refresh_block e)).
Proof.
  unfold emit. intros Ha. apply mbind_ok in Ha as (nc & _ & Ha). apply mbind_ok in Ha as (g & Hg & Ha).
  apply mbind_ok in Ha as (p & [-> _]%ident_new_ok & Ha). injection Ha as <-. by split_and!.
Qed.
End Accepted.

(** ** Attributes that are accepted are honoured *)
Definition calls_of (c : CacheCreate) : list BuilderCall :=
  match c with Builder _ _ calls _ => calls | CreateExpr _ => [] end.

Section Claims.
Context {HS : Syn}.
Implicit Types (args : CachedMacroArgs) (f : ItemFn) (e : CachedFn).

(** What becomes of every attribute.  (The key type of a store that [ty] names is in [ty] itself: next to it
    [key] is only parsed.) *)
Record cached_attributes args f e : Prop := mkCachedAttributes {
  is_name : cache_ident e = default (to_uppercase (fn_ident f)) (name args);
  is_max_size n : max_size args = Some n -> CallMaxSize n ∈ calls_of (cache_create e) /\ n <> 0;
  is_ttl : is_some (ttl args) || is_some (ttl_secs args) || is_some (ttl_millis args) = true ->
    exists t, ttl_given (ttl args) (ttl_secs args) (ttl_millis args) t /\ CallTtl t ∈ calls_of (cache_create e);
  is_refresh : refresh args = true -> CallRefreshOnHit true ∈ calls_of (cache_create e);
  is_expires : expires args = true <-> exists s k, cache_ty e = StoreOf s k (value_ty e) /\ (s = Store.ExpiringCache \/ s = Store.ExpiringLruCache);
  is_custom : is_some (ty args) || is_some (create args) = true -> exists s c t,
    ty args = Some s /\ create args = Some c /\ parse_type s = Some t /\
    cache_ty e = CustomTy t /\ cache_create e = CreateExpr (expr_value_tokens c);
  is_key : exists k, key_given (key args) (convert args) f k (key_block e) /\ forall s k' v, cache_ty e = StoreOf s k' v -> k' = k;
  is_force_refresh : match force_refresh args with
    | Some r => exists b, expr_to_block r = accept b /\ refresh_block e = Some b
    | None => refresh_block e = None
    end;
  is_cache_err : smart_result e = is_result_return_type (output f) && negb (cache_err args) /\
    (cache_err args = true -> is_result_return_type (output f) = true /\ value_ty e = GType (output_ty (output f)));
  is_cache_none : smart_option e = is_option_return_type (output f) && negb (cache_none args) /\
    (cache_none args = true -> is_option_return_type (output f) = true /\ value_ty e = GType (output_ty (output f)));
  is_flag : flagged e = with_cached_flag args;
  is_fallback : fallback e = result_fallback args;
  is_mode : mode e = default Disabled (sync_writes args);
  is_buckets : buckets e = default default_sync_writes_buckets (sync_writes_buckets args) /\ buckets e <> 0 /\
    (is_some (sync_writes_buckets args) = true -> mode e = ByKey);
  is_lock : lock_type e = default RwLock (sync_lock args);
  is_unsync : unsync e = unsync_reads args;
  is_companions : exists cv, companions_visible (companions_vis args) (vis f) cv /\
    (origin e, prime_fn e) =
      (if in_impl args then (Beside cv true, None)
       else if default true (companions args) then (Beside cv false, Some (cv, fn_ident f ++ "_prime_cache"))
       else (Nested, None)) /\
    (is_some (companions_vis args) = true -> origin e <> Nested);
  is_in_impl : in_impl args = has_receiver f /\ no_cache_on_self e = in_impl args /\
    static_vis e = if in_impl args then None else Some (vis f);
  is_removed : unbound args = false /\ time args = None /\ time_refresh args = None /\ size args = None /\
    result_ args = None /\ option_ args = None }.

Lemma stored_value args t k v cty cc : stored_in args t k v cty cc -> forall s k' v', cty = StoreOf s k' v' -> k' = k /\ v' = v.
Proof. intros [(s & calls & _ & -> & _)|(? & ? & ? & _ & _ & _ & _ & _ & _ & -> & _)] s' k' v'; [by intros [= _ <- <-]|done]. Qed.

Lemma stored_expiring args t k v cty cc : stored_in args t k v cty cc ->
  expires args = true <-> exists s k, cty = StoreOf s k v /\ (s = Store.ExpiringCache \/ s = Store.ExpiringLruCache).
Proof.
  unfold stored_in, default_store. intros [(s & calls & Hd & -> & _)|(? & ? & ? & _ & _ & _ & _ & _ & -> & -> & _)]; [|naive_solver].
  destruct (expires args), (max_size args), t; injection Hd as <- _; naive_solver.
Qed.

(** The value of a function whose whole result is stored. *)
Lemma whole_value r o out v : r = false -> o = false -> find_value_type r o out = Done (Ok v) -> v = GType (output_ty out).
Proof. intros -> ->. by intros [= <-]. Qed.

(** C21: Every attribute that [#[cached]] accepts is in what it emits.  The name of the static; a size limit,
    a ttl, [refresh] and [expires] in the store and the calls on its builder - never next to a [create]
    block, which would not see them -; [ty] and [create], which come together; the key; [force_refresh];
    what [cache_err] and [cache_none] make the value; the flag, the fallback, the mode of [sync_writes] and
    its buckets, the lock, [unsync_reads]; the companions, with their visibility and name; what [in_impl]
    puts where; and none of the removed attributes is set. *)
Theorem cached_honours attr_args args f e : cached_with attr_args args f = Done (Ok e) -> cached_attributes args f e.
Proof.
  intros (cv & t & k & kb & v & id & [cty cc] & Hcv & H1 & H2 & H3 & H4 & H5 & H6 & H7 & H8 & H9 & H10 & H11 & H12 & H13 & H14 & H15)%cached_with_ok.
  apply emit_ok in H15 as (E1 & E2 & E3 & E4 & E5 & E6 & E7 & E8 & E9 & E10 & E11 & E12 & E13 & E14 & E15 & E16 & E17 & E18 & E19 & E20 & E21).
  apply select_store_ok in H11. simpl in E1, E2. apply cache_key_ok in H9 as [H9 _]. apply cache_ident_ok in H8. apply force_refresh_ok in E21.
  unfold signature_checks, expires_ttl_checks, removed_checks, expires_checks, return_checks, buckets_checks in *.
  passed H1. passed H2. passed H4. passed H5. passed H6. passed H12.
  destruct H1 as (R1 & R2 & Hnest & _ & Hsize & _). destruct H2 as (X1 & X2 & X3 & _). destruct H5 as (Y1 & Y2 & _ & _ & Y5 & Y6 & _).
  destruct H4 as (Z1 & Z2 & Z3 & Z4 & Z5 & Z6 & _). destruct H12 as (B1 & _). destruct H6 as (_ & C1 & C2 & _).
  assert (Hempty : forall n, max_size args = Some n -> n <> 0) by (by apply is_zero_false).
  assert (Himpl : in_impl args = has_receiver f) by (by destruct (in_impl args), (has_receiver f)).
  pose proof (stored_value _ _ _ _ _ _ H11) as Hval. pose proof (stored_expiring _ _ _ _ _ _ H11) as Hexp.
  pose proof (result_not_option (output f)) as Hro.
  unfold stored_in in H11. split; rewrite ?E1, ?E2, ?E3, ?E4, ?E5, ?E6, ?E8, ?E9, ?E10, ?E11, ?E12, ?E13, ?E14, ?E15, ?E16; try done.
  - intros n Hn. split; [|by apply Hempty]. unfold default_store in H11. rewrite Hn in H11. destruct H11 as [(s & calls & Hd & -> & -> & _)|?]; [|naive_solver].
    destruct (expires args), t; injection Hd as <- <-; by left.
  - intros Ht. destruct t as [t|]; [|destruct H3 as (F1 & F2 & F3); by rewrite F1, F2, F3 in Ht]. exists t. split; [done|].
    destruct (expires args) eqn:Ex.
    { destruct (ttl args), (ttl_secs args), (ttl_millis args); done. }
    destruct H11 as [(s & calls & Hd & -> & -> & _)|?]; [|naive_solver]. unfold default_store in Hd.
    destruct (max_size args); injection Hd as <- <-; simpl; mem.
  - intros Hr. rewrite Hr in *. destruct (expires args) eqn:Ex; [done|].
    destruct H11 as [(s & calls & Hd & -> & -> & Hno)|(? & ? & ? & ? & Hc & _)]; [|by destruct (H10 ltac:(by rewrite Hc)) as (_ & _ & _ & ? & _)].
    destruct (Hno eq_refl) as [_ Hc]. rewrite Hc in Y6. unfold default_store in Hd.
    destruct t as [t|]; [|done]. destruct (max_size args); injection Hd as <- <-; simpl; mem.
  - intros Hc. destruct H11 as [(s & calls & Hd & -> & -> & Hno)|(s & c & cust & ? & ? & ? & _ & _ & _ & -> & ->)]; [|by exists s, c, cust].
    destruct (expires args); [destruct (ty args), (create args); done|]. destruct (Hno eq_refl) as [F1 F2]. by rewrite F1, F2 in Hc.
  - exists k. split; [done|]. intros s k' v' ->. by destruct (Hval s k' v' eq_refl).
  - split; [done|]. intros Hc. rewrite Hc in *. simpl in C1. apply negb_false_iff in C1. split; [done|].
    apply (whole_value (is_smart_result args (output f)) (is_smart_option args (output f))); [..|done];
      unfold is_smart_result, is_smart_option; [by rewrite Hc, andb_false_r|by rewrite Hro].
  - split; [done|]. intros Hc. rewrite Hc in *. simpl in C2. apply negb_false_iff in C2. split; [done|].
    apply (whole_value (is_smart_result args (output f)) (is_smart_option args (output f))); [..|done];
      unfold is_smart_result, is_smart_option; [|by rewrite Hc, andb_false_r].
    destruct (is_result_return_type (output f)); [by rewrite Hro in C2|done].
  - split_and!; [done|done|]. intros Hb. rewrite Hb in B1. by apply negb_false_iff, bool_decide_eq_true in B1.
  - exists cv. rewrite E17, E18. split; [done|]. unfold nest_origin_fn in *.
    destruct (in_impl args), (default true (companions args)), (is_some (companions_vis args)); by split.
  - split_and!; by apply is_some_false || done.
Qed.
End Claims.

(** ** Demonstrations *)
Module Demo.
Import Toy.

(** [#[cached(max_size = 10, ttl_secs = 60, refresh = true, sync_writes = "by_key", sync_writes_buckets = 16)]] *)
Definition cached_args : CachedMacroArgs :=
  mkArgs None false (Some 10) None (Some 60) None true None None None None None false false (Some ByKey) (Some 16) None false None None
    false false false None None None false None None.

Lemma cached_honours_witness : exists e,
  cached_with [] cached_args load = Done (Ok e) /\
  CallMaxSize 10 ∈ calls_of (cache_create e) /\ CallRefreshOnHit true ∈ calls_of (cache_create e) /\
  mode e = ByKey /\ buckets e = 16.
Proof.
  eexists. split; [vm_compute; reflexivity|].
  edestruct (cached_honours [] cached_args load) as [_ Hm _ Hr _ _ _ _ _ _ _ _ Hmode [Hb _] _ _ _ _ _]; [vm_compute; reflexivity|].
  split; [by apply Hm|]. split; [by apply Hr|]. split; [exact Hmode|exact Hb].
Defined.
End Demo.
