(* ===== verification/MacroStores.v ===== *)
(** * From an attribute list to what a function returns

    The stores the expansion of [#[cached]] names, with their traits and builders, and the function
    its decisions select ([cached_proc_macro/src/cached.rs]): an accepted attribute list gives a
    function whose demands on the store are met, over a store that builds. *)
From Stdlib Require Import String.
From stdpp Require Import strings.
From S2P Require Import Prelude Keys Stores LruList HashTable Lru LruSpec LruRefine LruProps Ttl LruTtl LruTtlProps.
From S2P Require Import Unbound Expiring ExpiringLru ExpiringLruProps Cached Instances Return Threads ThreadsProps Memo MemoProps.
From S2P Require Import MacroSyntax MacroOnce MacroProps MacroCached MacroCachedProps.

(** The [Duration] of the generated expression, in nanoseconds; [eval] is that of the user's. *)
Definition duration (eval : Expr -> Z) (t : TtlTokens) : Z :=
  match t with
  | TtlParsed e => eval e
  | FromSecs n => from_secs n
  | FromMillis n => from_millis n
  end.

(** A chain of calls on a builder; [None]: the builder has no such method. *)
Fixpoint run_calls {B} (call : BuilderCall -> B -> option B) (calls : list BuilderCall) (b : B) : option B :=
  match calls with
  | [] => Some b
  | c :: calls => match call c b with Some b => run_calls call calls b | None => None end
  end.

(** A store: its traits, which keep the contract, and its builder. *)
Record Kit (K V W : Type) `{!KeyEq K} : Type := mkKit {
  carrier : Type;
  kit_cached : Cached carrier K V W;
  kit_view : StoreView carrier K V;
  kit_laws : CachedLaws carrier K V W;
  kit_read : option { cr : CachedRead carrier K V W | CachedReadLaws carrier K V W };
  kit_clone : option { cc : CloneCached carrier K V W | CloneCachedLaws carrier K V W };
  kit_build : list BuilderCall -> option (result BuildError carrier) }.
Arguments mkKit {K V W _}.
Arguments carrier {K V W _}.
Arguments kit_cached {K V W _}.
Arguments kit_view {K V W _}.
Arguments kit_laws {K V W _}.
Arguments kit_read {K V W _}.
Arguments kit_clone {K V W _}.
Arguments kit_build {K V W _}.

Section Kits.
Context {K V W HT : Type} `{!KeyEq K, !KeyLaws K, !Threads W, !Clock W, !Expires V W, !HashTable HT, !HashTableLaws HT}.
Context (alloc : Z -> bool) (eval : Expr -> Z).

Definition unbound_kit : Kit K V W :=
  mkKit (UnboundCache K V W) _ _ unbound_laws (Some (exist _ unbound_read unbound_read_laws)) None
    (fun calls => Unbound.build <$> run_calls (fun _ _ => None) calls Unbound.builder).

Definition lru_kit : Kit K V W :=
  mkKit (LruCache K V W HT) (lru_cached alloc) _ (lru_laws alloc) None None
    (fun calls => Lru.build alloc <$> run_calls (fun call b =>
       match call with CallMaxSize n => Some (Lru.builder_max_size n b) | _ => None end) calls Lru.builder).

Definition ttl_kit : Kit K V W :=
  mkKit (TtlCache K V W) _ _ ttl_laws None (Some (exist _ ttl_clone ttl_clone_laws))
    (fun calls => Ttl.build <$> run_calls (fun call b =>
       match call with
       | CallTtl t => Some (Ttl.builder_ttl (duration eval t) b)
       | CallRefreshOnHit r => Some (Ttl.builder_refresh_on_hit r b)
       | _ => None
       end) calls Ttl.builder).

Definition lru_ttl_kit : Kit K V W :=
  mkKit (LruTtlCache K V W HT) (lru_ttl_cached alloc) _ (lru_ttl_laws alloc) None
    (Some (exist _ lru_ttl_clone (lru_ttl_clone_laws)))
    (fun calls => LruTtl.build alloc <$> run_calls (fun call b =>
       match call with
       | CallMaxSize n => Some (LruTtl.builder_max_size n b)
       | CallTtl t => Some (LruTtl.builder_ttl (duration eval t) b)
       | CallRefreshOnHit r => Some (LruTtl.builder_refresh_on_hit r b)
       | _ => None
       end) calls LruTtl.builder).

Definition expiring_kit : Kit K V W :=
  mkKit (ExpiringCache K V W) _ _ expiring_laws None (Some (exist _ expiring_clone expiring_clone_laws))
    (fun calls => Expiring.build <$> run_calls (fun _ _ => None) calls Expiring.builder).

Definition expiring_lru_kit : Kit K V W :=
  mkKit (ExpiringLruCache K V W HT) (expiring_lru_cached alloc) _ (expiring_lru_laws alloc) None
    (Some (exist _ expiring_lru_clone expiring_lru_clone_laws))
    (fun calls => ExpiringLru.build alloc <$> run_calls (fun call b =>
       match call with CallMaxSize n => Some (ExpiringLru.builder_max_size n b) | _ => None end) calls ExpiringLru.builder).

(** The single-owner stores. *)
Definition kit (s : Store.Name) : option (Kit K V W) :=
  match s with
  | Store.UnboundCache => Some unbound_kit
  | Store.LruCache => Some lru_kit
  | Store.TtlCache => Some ttl_kit
  | Store.LruTtlCache => Some lru_ttl_kit
  | Store.ExpiringCache => Some expiring_kit
  | Store.ExpiringLruCache => Some expiring_lru_kit
  | _ => None
  end.
End Kits.

(** ** The function *)
Section Function.
Context {K V W A R : Type} `{!KeyEq K, !Returns R V}.
Context (eval_key : KeyBlock -> A -> K) (eval_guard : Block -> A -> User W bool) (hash_one : K -> Z).

(** [#do_set_return_block], and the body of the priming function; [None] where a trait the code names
    is missing, or a mutex would have to be read by many. *)
Definition do_set_return_block (k : Kit K V W) (e : CachedFn) :
    option ((A -> Prog (carrier k) W R) * (A -> Prog (carrier k) W R)) :=
  let cached : Cached (carrier k) K V W := kit_cached k in
  let convert := eval_key (key_block e) in
  let force_refresh := eval_guard <$> refresh_block e in
  let shared : option { cr : CachedRead (carrier k) K V W | CachedReadLaws (carrier k) K V W (StoreView0 := kit_view k) } :=
    match lock_type e with RwLock => kit_read k | Mutex => None end in
  let lookup : option (Lookup (C := carrier k) (V := V)) :=
    if unsync e then (fun r => unsync_lookup (CachedRead0 := `r)) <$> shared else Some sync_lookup in
  match mode e with
  | ByKey =>
      (fun lk => (by_key convert force_refresh hash_one (buckets e) lk, prime_by_key convert hash_one (buckets e))) <$> lookup
  | Default =>
      if unsync e then (fun r => (default_unsync (CachedRead0 := `r) convert force_refresh, prime convert)) <$> shared
      else Some (default_ convert force_refresh, prime convert)
  | Disabled =>
      if fallback e then (fun r => (Memo.fallback (CloneCached0 := `r) convert force_refresh, prime convert)) <$> kit_clone k
      else (fun lk => (disabled convert force_refresh lk, prime convert)) <$> lookup
  end.
End Function.

(** ** The stores build *)
Section Builds.
Context {K V W HT : Type} `{!KeyEq K, !KeyLaws K, !Threads W, !Clock W, !Expires V W, !HashTable HT, !HashTableLaws HT}.
Context (alloc : Z -> bool) (eval : Expr -> Z).

(** Memory for [n] entries. *)
Definition roomy (n : Z) : Prop :=
  0 <= n /\ n + 2 <= usize_max /\ alloc (n + 2) = true /\ exists t, ht_try_reserve (ht_new : HT) n = Some t.

(** A freshly built store. *)
Definition holds_nothing {C} `{!StoreView C K V} (c : C) : Prop := consistent c /\ forall k v, ~ holds c k v.

Lemma lru_builds {E} n : roomy n -> n <> 0 ->
  exists c, Lru.build (K := K) (V := E) (W := W) (HT := HT) alloc (Lru.builder_max_size n Lru.builder) = Ok c /\
    models c (mkView [] n 0 0 0 None true).
Proof.
  intros (H0 & H1 & H2 & t & Ht) Hn.
  assert (exists c, Lru.build (K := K) (V := E) (W := W) (HT := HT) alloc (Lru.builder_max_size n Lru.builder) = Ok c) as [c Hc].
  { unfold Lru.build. simpl. destruct (Z.eqb_spec n 0); [done|]. rewrite Ht. unfold try_with_capacity, checked_add.
    destruct (Z.leb_spec (n + 2) usize_max); [|lia]. rewrite H2. by eexists. }
  exists c. split; [done|]. by destruct (build_models alloc (Lru.builder_max_size n Lru.builder) n c eq_refl H0 Hc).
Qed.

Lemma lru_fresh (c : LruCache K V W HT) n : models c (mkView [] n 0 0 0 None true) -> holds_nothing c.
Proof. intros H. split; [by eexists|]. intros k v. rewrite (lru_holds c _ k v H). by intros (? & ?). Qed.

Lemma lru_ttl_builds n t r : roomy n -> n <> 0 -> t <> 0 ->
  exists c : LruTtlCache K V W HT,
    LruTtl.build alloc (LruTtl.builder_refresh_on_hit r (LruTtl.builder_ttl t (LruTtl.builder_max_size n LruTtl.builder))) = Ok c /\ holds_nothing c.
Proof.
  intros Hr Hn Ht. destruct (lru_builds (E := TimedEntry V) n Hr Hn) as (s & Hs & HM).
  unfold LruTtl.build, LruTtl.new_internal, validate_ttl. simpl. destruct (Z.eqb_spec t 0); [done|]. rewrite Hs.
  eexists. split; [done|].
  assert (LruTtlProps.holds (mkLruTtl (disable_hit_miss_tracking s) n t 0 0 0 r None) (mkView [] n 0 0 0 None false)) as HH.
  { destruct HM as (occ & fre & HI & HA). split; [|done]. exists occ, fre. split; [split; apply HI|]. simpl. injection HA; intros; congruence. }
  split; [by eexists|]. intros k v. rewrite (lt_holds _ _ k v HH). by intros (? & ? & ? & _).
Qed.

Lemma expiring_lru_builds n : roomy n -> n <> 0 ->
  exists c : ExpiringLruCache K V W HT, ExpiringLru.build alloc (ExpiringLru.builder_max_size n ExpiringLru.builder) = Ok c /\ holds_nothing c.
Proof.
  intros Hr Hn. pose proof Hr as (H0 & _). destruct (lru_builds (E := V) n Hr Hn) as (s & Hs & _).
  assert (exists c : ExpiringLruCache K V W HT, ExpiringLru.build alloc (ExpiringLru.builder_max_size n ExpiringLru.builder) = Ok c) as [c Hc].
  { unfold ExpiringLru.build. simpl. rewrite Hs. by eexists. }
  exists c. split; [done|]. destruct (ebuild_holds alloc (ExpiringLru.builder_max_size n ExpiringLru.builder) n c eq_refl H0 Hc) as [_ HH].
  split; [by eexists|]. intros k v. rewrite (el_holds c _ k v HH). done.
Qed.

(** The chain of calls of the table runs on the builder of its store, and the store builds. *)
Lemma default_builds expires refresh max_size t s calls :
  MacroCachedProps.default_store expires refresh max_size t = (s, calls) ->
  (forall n, max_size = Some n -> n <> 0 /\ roomy n) ->
  (forall t', t = Some t' -> duration eval t' <> 0) ->
  exists k, kit (K := K) (V := V) (W := W) (HT := HT) alloc eval s = Some k /\
    exists c, kit_build k calls = Some (Ok c) /\ holds_nothing (StoreView0 := kit_view k) c.
Proof.
  intros Hd Hn Ht. unfold MacroCachedProps.default_store in Hd.
  destruct expires, max_size as [n|], t as [t|]; injection Hd as <- <-; eexists; (split; [done|]); simpl;
    try destruct (Hn n eq_refl) as [Hn0 Hroom].
  1,2: destruct (expiring_lru_builds n Hroom Hn0) as (c & -> & Hc); by exists c.
  1,2: eexists; split; [done|]; split; [done|]; by intros k v (? & ?).
  - destruct (lru_ttl_builds n (duration eval t) refresh Hroom Hn0 (Ht t eq_refl)) as (c & -> & Hc). by exists c.
  - destruct (lru_builds (E := V) n Hroom Hn0) as (c & -> & Hc). exists c. split; [done|]. by eapply lru_fresh.
  - specialize (Ht t eq_refl). unfold Ttl.build, validate_ttl. simpl. destruct (Z.eqb_spec (duration eval t) 0); [done|].
    eexists. split; [done|]. split; [done|]. by intros k v (? & ? & ? & _).
  - eexists. split; [done|]. split; [|by intros k v (? & ?)]. split_and!; [done|done|done].
Qed.
End Builds.

(** ** From attributes to results *)

(** How the returns of the expansion treat a result: whole, its [Ok] or [Some], with or without a flag. *)
Inductive returns_of : bool -> bool -> bool -> forall R V, Returns R V -> Prop :=
| returns_plain V : returns_of false false false V V (plain_returns V)
| returns_result E V : returns_of true false false (result E V) V (result_returns E V)
| returns_option V : returns_of false true false (option V) V (option_returns V)
| returns_flagged T : returns_of false false true (Return T) (Return T) (flagged_returns T)
| returns_flagged_result E T : returns_of true false true (result E (Return T)) (Return T) (flagged_result E T)
| returns_flagged_option T : returns_of false true true (option (Return T)) (Return T) (flagged_option T).

Lemma returns_of_laws sr so R V HR : returns_of sr so false R V HR -> @ReturnsLaws R V HR.
Proof. remember false as fl. destruct 1; done || apply plain_returns_laws || apply result_returns_laws || apply option_returns_laws. Qed.

Section Demands.
Context {HS : Syn}.

(** The demands the function of an accepted expansion makes on a named store. *)
Lemma accepted_demands attr_args args f e s k v : cached_with attr_args args f = Done (Ok e) -> cache_ty e = StoreOf s k v ->
  exists t calls, MacroCachedProps.default_store (expires args) (refresh args) (max_size args) t = (s, calls) /\
    cache_create e = Builder s NoArg calls false /\
    (forall n, max_size args = Some n -> n <> 0) /\
    match t with
    | Some t => ttl_given (ttl args) (ttl_secs args) (ttl_millis args) t
    | None => True
    end /\
    (unsync e = true -> lock_type e = RwLock /\ s = Store.UnboundCache) /\
    (fallback e = true -> mode e = Disabled /\ flagged e = false /\ (expires args = true \/ is_some t = true)).
Proof.
  intros (cv & t & k' & kb & v' & id & [cty cc] & _ & H1 & _ & H3 & _ & H5 & H6 & _ & _ & _ & _ & H11 & _ & _ & H14 & H15)%cached_with_ok.
  apply emit_ok in H15 as (E1 & E2 & _ & _ & _ & E6 & _ & E8 & _ & _ & _ & E12 & E13 & E14 & _). rewrite E1, E2, E6, E8, E12, E13, E14. simpl. clear E1 E2 E6 E8 E12 E13 E14.
  intros Es. apply select_store_ok in H11 as [(s' & calls & Hd & -> & -> & Hno)|(? & ? & ? & _ & _ & _ & _ & _ & _ & -> & _)]; [|done].
  injection Es as <- <- <-. exists t, calls. unfold signature_checks, expires_checks, return_checks, store_demand_checks in *.
  passed H1. passed H5. passed H6. passed H14. destruct H1 as (_ & _ & _ & _ & Hsize & _). destruct H5 as (Y1 & _ & _ & Y4 & _).
  destruct H6 as (_ & _ & _ & _ & Hflag & _). destruct H14 as (D1 & _ & D3 & D4 & D5 & _).
  assert (ty args = None) as Ht. { destruct (expires args); [by apply is_some_false|by destruct (Hno eq_refl)]. }
  rewrite Ht in *. simpl in *. split_and!; try done.
  - by apply is_zero_false.
  - by destruct t.
  - intros Hu. rewrite Hu in *. simpl in *. unfold uses_mutex in D4. split; [by destruct (sync_lock args) as [[]|]|].
    unfold MacroCachedProps.default_store in Hd. destruct (expires args), (max_size args), t; simpl in *; try done. by injection Hd as <- <-.
  - intros Hf. rewrite Hf in *. simpl in *. split_and!; [|done|destruct (is_some t); [by right|left]; by destruct (expires args)].
    unfold effective_sync_writes in *. destruct (sync_writes args); [|done]. simpl in *.
    by apply negb_false_iff, bool_decide_eq_true in D1.
Qed.
End Demands.

Section EndToEnd.
Context {HS : Syn} {K V W HT A R : Type}.
Context `{!KeyEq K, !KeyLaws K, !Threads W, !Clock W, !Expires V W, !HashTable HT, !HashTableLaws HT, HR : !Returns R V}.
Context (alloc : Z -> bool) (eval : Expr -> Z).
Context (eval_key : KeyBlock -> A -> K) (eval_guard : Block -> A -> User W bool) (hash_one : K -> Z).

Lemma demands_met s k e   : kit (HT := HT) alloc eval s = Some k ->
  (unsync e = true -> lock_type e = RwLock /\ s = Store.UnboundCache) ->
  (fallback e = true -> mode e = Disabled /\ flagged e = false /\ is_some (kit_clone k) = true) ->
  returns_of (smart_result e) (smart_option e) (flagged e) R V HR ->
  exists call primer guard, do_set_return_block eval_key eval_guard hash_one k e = Some (call, primer) /\
    generated (Cached0 := kit_cached k) (StoreView0 := kit_view k) (eval_key (key_block e))
      (eval_guard <$> refresh_block e) hash_one (buckets e) call primer guard.
Proof.
  intros Hk Hu Hf Hr. unfold do_set_return_block.
  assert (Hread : unsync e = true -> lock_type e = RwLock /\ is_some (kit_read k) = true).
  { intros [Hl ->]%Hu. split; [done|]. by injection Hk as <-. }
  destruct (mode e) eqn:Em; destruct (unsync e) eqn:Eu; try destruct (Hread eq_refl) as [-> Hs];
    try (destruct (kit_read k) as [[cr Hcr]|]; [|done]).
  - destruct (fallback e) eqn:Ef.
    + destruct (Hf eq_refl) as (_ & Hfl & Hc). rewrite Hfl in Hr. apply returns_of_laws in Hr.
      destruct (kit_clone k) as [[cc Hcc]|]; [|done]. eexists _, _, _. split; [done|]. simpl. apply gen_fallback; exact _.
    + eexists _, _, _. split; [done|]. simpl. by apply gen_disabled_unsync.
  - destruct (fallback e) eqn:Ef.
    + destruct (Hf eq_refl) as (_ & Hfl & Hc). rewrite Hfl in Hr. apply returns_of_laws in Hr.
      destruct (kit_clone k) as [[cc Hcc]|]; [|done]. eexists _, _, _. split; [done|]. simpl. apply gen_fallback; exact _.
    + eexists _, _, _. split; [done|]. simpl. apply gen_disabled.
  - eexists _, _, _. split; [done|]. simpl. by apply gen_default_unsync.
  - eexists _, _, _. split; [done|]. simpl. apply gen_default.
  - eexists _, _, _. split; [done|]. simpl. by apply gen_by_key_unsync.
  - eexists _, _, _. split; [done|]. simpl. apply gen_by_key.
Qed.

(** C4: From an attribute list to what calls return.  Whenever [#[cached]] accepts its attributes and
    names a store of the library, the function it selects finds every trait it calls on that store -
    [CachedRead] behind a shared lock for [unsync_reads], [CloneCached] for [result_fallback] -, the
    chain of builder calls it emits exists and builds an empty store, given memory for the size limit
    and a ttl expression that is not zero, and however the calls of that function interleave over that
    store, each returns what the body returned for arguments with an equal key. *)
Theorem cached_end_to_end attr_args args f e s key_ty v_ty (body : A -> R -> Prop) :
  cached_with attr_args args f = Done (Ok e) -> cache_ty e = StoreOf s key_ty v_ty ->
  returns_of (smart_result e) (smart_option e) (flagged e) R V HR ->
  (forall n, max_size args = Some n -> roomy (HT := HT) alloc n) ->
  (forall x ex, ttl args = Some x -> parse_expr (expr x) = Some ex -> eval ex <> 0) ->
  exists k call prime, kit (HT := HT) alloc eval s = Some k /\
    do_set_return_block eval_key eval_guard hash_one k e = Some (call, prime) /\
    exists c, kit_build k (calls_of (cache_create e)) = Some (Ok c) /\
      forall w g i a b r, reachable (C := carrier k) body call prime c w g ->
        threads g !! i = Some (mkThread a b (Some (Finish r))) ->
        exists a' r', keq (eval_key (key_block e) a') (eval_key (key_block e) a) = true /\ body a' r' /\ comes_from r r'.
Proof.
  intros Hacc Hs Hr Hroom Heval. destruct (accepted_demands _ _ _ _ _ _ _ Hacc Hs) as (t & calls & Hd & Hcc & Hn & Ht & Hu & Hf).
  destruct (default_builds (HT := HT) alloc eval _ _ _ _ _ _ Hd) as (k & Hk & c & Hb & Hc).
  { intros n En. split; [by apply Hn|by apply Hroom]. }
  { intros t' ->. destruct t' as [ex|n|n]; simpl in Ht |- *.
    - destruct Ht as [(x & Ex & Hp) _]. by eapply Heval.
    - destruct Ht as (_ & _ & _ & Hz). unfold from_secs. lia.
    - destruct Ht as (_ & _ & _ & Hz). unfold from_millis. lia. }
  destruct (demands_met s k e Hk Hu) as (call & primer & guard & Hp & Hg); [|done|].
  { intros [Hm [Hfl Hx]]%Hf. split_and!; try done. unfold MacroCachedProps.default_store in Hd.
    destruct (expires args), (max_size args), t; destruct Hx; try done; injection Hd as <- <-; by injection Hk as <-. }
  exists k, call, primer. split; [done|]. split; [done|]. exists c. rewrite Hcc. split; [exact Hb|].
  intros w g i a b r HRe Hi. destruct Hc as [Hc1 Hc2].
  epose proof (all_sound_reachable (genuine (StoreView0 := kit_view k) _ body) (justified _ body) body call primer) as HA.
  pose proof (kit_laws k) as Hl.
  specialize (HA (sound_generated (StoreView0 := kit_view k) _ _ _ _ _ _ _ _ Hg) c w g).
  destruct (HA (genuine_empty (StoreView0 := kit_view k) _ _ c Hc1 Hc2) HRe) as [_ HT'].
  exact (HT' i _ _ Hi eq_refl).
Qed.
End EndToEnd.

(** ** Witness: [#[cached(ttl_secs = 60, result_fallback = true)]] on a function that returns a [Result] *)
Module Demo.
Import Tick Toy.
#[local] Instance deadline : Expires Z Tick.t := {| is_expired v w := (Some (v <=? Tick.time w), w) |}.
#[local] Existing Instance result_returns.

Definition cached_args : CachedMacroArgs :=
  mkArgs None false None None (Some 60) None true None None None None None false false None None None false None None
    true false false None None None false None None.

(** The function is called with its key; its body is ten times the key's number. *)
Definition the_key (_ : KeyBlock) (a : TaggedKey.t) : TaggedKey.t := a.
Definition the_guard (_ : Block) (_ : TaggedKey.t) : User Tick.t bool := fun w => (Some false, w).
Definition the_body (a : TaggedKey.t) (r : result unit Z) : Prop := r = Ok (TaggedKey.id a * 10).

Definition the_fn : CachedFn := Eval vm_compute in
  match cached_with [] cached_args load with
  | Done (Ok e) => e
  | _ => mkCachedFn "" Mutex false (CustomTy u64) (CreateExpr (ELit "")) Disabled 0 None [] (Convert []) (GType u64)
           false false false false false None "" false Nested [] [] [] [] None false false
  end.

Lemma cached_end_to_end_witness :
  exists k call prime c (g : Config (carrier k) Tick.t TaggedKey.t (result unit Z)),
    kit (K := TaggedKey.t) (V := Z) (W := Tick.t) (HT := ListTable.t) (fun n => n <=? 2 ^ 32) (fun _ => 1) Store.TtlCache = Some k /\
    kit_build k (calls_of (cache_create the_fn)) = Some (Ok c) /\
    reachable the_body call prime c (Tick.mk 0 []) g /\
    Threads.threads g !! 0%nat = Some (mkThread k1 false (Some (Finish (Ok 10)))) /\
    exists a' r', keq a' k1 = true /\ the_body a' r' /\ comes_from (Ok 10) r'.
Proof.
  edestruct (cached_end_to_end (HT := ListTable.t) (R := result unit Z) (fun n => n <=? 2 ^ 32) (fun _ => 1) the_key the_guard TaggedKey.id
    [] cached_args load the_fn Store.TtlCache (KeyParts [AsIs u64; Owned (TPath [Segment "str" NoArguments])]) (GType u64) the_body) as (k & call & prime & Hk & Hp & c & Hc & Hserve);
    [vm_compute; reflexivity|reflexivity|apply returns_result|discriminate|discriminate|].
  assert (HK : ttl_kit (K := TaggedKey.t) (V := Z) (W := Tick.t) (fun _ => 1) = k) by (injection Hk; intros E; exact E).
  clear Hk. subst k. unfold do_set_return_block in Hp. cbn in Hp, Hc. injection Hp as <- <-. injection Hc as <-.
  match type of Hserve with context [reachable the_body ?call ?prime ?c _ _] =>
    pose proof (reach_step the_body call prime c (Tick.mk 0 []) _ _ (reach_start the_body call prime c (Tick.mk 0 []))
      (step_call the_body _ _ _ k1)) as H end.
  cbn in H.
  eapply reach_step in H; [|eapply step_thread, (step_acquire the_body 0); [reflexivity|reflexivity|by split]].
  eapply reach_step in H; [|eapply step_thread, (step_access the_body 0); [reflexivity|reflexivity|reflexivity]]. cbn in H.
  eapply reach_step in H; [|eapply step_thread, (step_release the_body 0); [reflexivity|reflexivity]].
  eapply reach_step in H; [|eapply step_thread, (step_body the_body 0 _ _ _ (Ok 10)); [reflexivity|reflexivity|reflexivity]]. cbn in H.
  eapply reach_step in H; [|eapply step_thread, (step_acquire the_body 0); [reflexivity|reflexivity|by split]].
  eapply reach_step in H; [|eapply step_thread, (step_access the_body 0); [reflexivity|reflexivity|reflexivity]]. cbn in H.
  eapply reach_step in H; [|eapply step_thread, (step_release the_body 0); [reflexivity|reflexivity]].
  eexists _, _, _, _, _. split; [reflexivity|]. split; [reflexivity|]. split; [exact H|]. split; [reflexivity|].
  exact (Hserve _ _ 0%nat k1 false (Ok 10) H eq_refl).
Defined.
End Demo.
