(* ===== verification/MacroConcurrentProps.v ===== *)
(** * [#[concurrent_cached]]: what an accepted attribute list gives *)
From Stdlib Require Import String.
From stdpp Require Import strings.
From S2P Require Import Prelude MacroSyntax MacroOnce MacroProps MacroCachedProps MacroConcurrent.
#[local] Open Scope string_scope.

Section Accepted.
Context {HS : Syn}.
Implicit Types (args : ConcurrentCachedArgs) (f : ItemFn) (e : ConcurrentFn).

(** No attribute of a store builder is set. *)
Definition unshaped args : Prop :=
  ttl args = None /\ ttl_secs args = None /\ ttl_millis args = None /\ refresh args = false /\
  cache_prefix_block args = None /\ disk_dir args = None /\ durable args = None /\ max_size args = None /\ shards args = None.

Lemma create_unshaped args : check_create_conflicts args FnIdent = Done (Ok tt) -> unshaped args.
Proof.
  unfold check_create_conflicts. destruct (create_conflicts args) eqn:E; [|done]. intros _.
  apply set_names_nil in E. passed E. destruct E as (E1 & E2 & E3 & E4 & E5 & E6 & E7 & E8 & E9 & _).
  apply is_some_false in E1, E2, E3, E5, E6, E7, E8, E9. done.
Qed.

(** What [concurrent_cached_with] has checked and decided when it accepts. *)
Lemma concurrent_with_ok attr_args args f e : concurrent_cached_with attr_args args f = Done (Ok e) ->
  exists t k kb v id inf store me,
    passes (signature_checks attr_args args f) /\ passes (expires_ttl_checks attr_args args) /\
    match t with
    | Some t => ttl_given (ttl args) (ttl_secs args) (ttl_millis args) t
    | None => ttl args = None /\ ttl_secs args = None /\ ttl_millis args = None
    end /\
    passes (expires_checks args) /\ passes (return_checks args (output f)) /\
    find_cache_value_ty args (output f) = Done (Ok v) /\
    make_cache_ident (name args) (fn_ident f) = Done (Ok id) /\
    make_cache_key_type (key args) (convert args) (ty args) (get_input_types (inputs f)) (get_input_names (inputs f)) =
      Done (Ok (k, kb)) /\
    select_store args f t id k v = Done (Ok (inf, store)) /\
    passes (store_demand_checks args (output f) (is_some t) inf) /\
    check_map_error args inf = Done (Ok me) /\
    emit args f (is_some t) id kb v inf store me = Done (Ok e).
Proof.
  unfold concurrent_cached_with. intros Ha.
  apply mbind_ok in Ha as ([] & H1%rejects_ok & Ha). apply mbind_ok in Ha as ([] & H2%rejects_ok & Ha).
  apply mbind_ok in Ha as ([has t] & [-> H3]%resolve_ttl_ok & Ha). apply mbind_ok in Ha as ([] & H4%rejects_ok & Ha).
  apply mbind_ok in Ha as ([] & H5%rejects_ok & Ha). apply mbind_ok in Ha as (v & H6 & Ha).
  apply mbind_ok in Ha as (id & H7 & Ha). apply mbind_ok in Ha as ([k kb] & H8 & Ha).
  apply mbind_ok in Ha as ([inf store] & H9 & Ha). apply mbind_ok in Ha as ([] & H10%rejects_ok & Ha).
  apply mbind_ok in Ha as (me & H11 & Ha). by exists t, k, kb, v, id, inf, store, me.
Qed.

Lemma concurrent_emit_ok args f has id kb v inf store me e : emit args f has id kb v inf store me = Done (Ok e) ->
  cache_ty e = store.1 /\ cache_create e = store.2 /\ value_ty e = v /\ cache_ident e = id /\ key_block e = kb /\
  async_static e = asyncness f /\ infallible e = inf /\ unwrap e = cache_unwrap inf me /\
  smart_result e = is_smart_result args (output f) /\ smart_option e = is_smart_option args (output f) /\
  flagged e = with_cached_flag args /\ fallback e = result_fallback args /\
  static_vis e = (if in_impl args then None else Some (vis f)) /\ no_cache_on_self e = has_receiver f /\
  guards e = feature_guards args (asyncness f) has /\
  parse_force_refresh_block (force_refresh args) = Done (Ok (refresh_block e)).
Proof.
  unfold emit. intros Ha. apply mbind_ok in Ha as (cv & _ & Ha). apply mbind_ok in Ha as (nc & _ & Ha).
  apply mbind_ok in Ha as (g & Hg & Ha). apply mbind_ok in Ha as (p & _ & Ha). injection Ha as <-. by split_and!.
Qed.

Lemma concurrent_emit_companions args f has id kb v inf store me e : emit args f has id kb v inf store me = Done (Ok e) ->
  flagged_result e = with_cached_flag args && smart_result e /\ flagged_option e = with_cached_flag args && smart_option e /\
  exists cv, companions_visible (companions_vis args) (vis f) cv /\
    inner_sibling e = (if in_impl args then Some (cv, no_cache_attrs (attrs f)) else None) /\
    prime_fn e = (if in_impl args || negb (default true (companions args)) then None
                  else Some (cv, fn_ident f ++ "_prime_cache", no_cache_attrs (attrs f))).
Proof.
  unfold emit. intros Ha. apply mbind_ok in Ha as (cv & Hcv%companions_visibility_ok & Ha). apply mbind_ok in Ha as (nc & _ & Ha).
  apply mbind_ok in Ha as (g & _ & Ha). apply mbind_ok in Ha as (p & [-> _]%ident_new_ok & Ha). injection Ha as <-.
  split; [done|]. split; [done|]. by exists cv.
Qed.

(** ** The store *)

(** The table of the sharded stores: by expiry, size limit and ttl. *)
Definition sharded_store (expires refresh : bool) (max_size shards : option Z) (t : option TtlTokens) : Store.Name * list BuilderCall :=
  let size := match max_size with Some n => [CallMaxSize n] | None => [] end in
  let time := match t with Some t => [CallTtl t] | None => [] end in
  let count := match shards with Some n => [CallShards n] | None => [] end in
  let renew := match t with Some _ => [CallRefreshOnHit refresh] | None => [] end in
  match expires, max_size, t with
  | true, None, _ => (Store.ShardedExpiringCache, count)
  | true, Some _, _ => (Store.ShardedExpiringLruCache, (size ++ count)%list)
  | false, None, None => (Store.ShardedUnboundCache, count)
  | false, Some _, None => (Store.ShardedLruCache, (size ++ count)%list)
  | false, None, Some _ => (Store.ShardedTtlCache, (time ++ count ++ renew)%list)
  | false, Some _, Some _ => (Store.ShardedLruTtlCache, (size ++ time ++ count ++ renew)%list)
  end.

(** A [create] block constructs the store; its type is the user's or that of the path. *)
Definition created args (named : CacheTy) (cty : CacheTy) (cc : CacheCreate) : Prop :=
  exists c, create args = Some c /\ cc = CreateExpr (expr_value_tokens c) /\ unshaped args /\
    match ty args with
    | Some s => exists t, parse_type s = Some t /\ cty = CustomTy t
    | None => cty = named
    end.

Definition redis_name f : Store.Name := if asyncness f then Store.AsyncRedisCache else Store.RedisCache.

Inductive chosen args f (t : option TtlTokens) (id : string) (k : KeyTy) (v : GenericArgument) : bool -> CacheTy -> CacheCreate -> Prop :=
| chosen_sharded s calls : redis args = false -> disk args = false -> ty args = None -> create args = None ->
    sharded_store (expires args) (refresh args) (max_size args) (shards args) t = (s, calls) ->
    (refresh args = true -> is_some t = true) -> (forall n, shards args = Some n -> n <> 0) -> (forall n, max_size args = Some n -> n <> 0) ->
    cache_prefix_block args = None -> disk_dir args = None -> durable args = None ->
    chosen args f t id k v true (StoreOf s k v) (Builder s NoArg calls false)
| chosen_redis d p : redis args = true -> disk args = false -> ty args = None -> create args = None -> t = Some d ->
    disk_dir args = None -> durable args = None -> shards args = None -> max_size args = None ->
    (forall c, cache_prefix_block args = Some c -> p = expr_value_tokens c) ->
    chosen args f t id k v false (StoreOf (redis_name f) k v)
      (Builder (redis_name f) (PrefixArg p) [CallTtl d; CallRefreshOnHit (refresh args)] (asyncness f))
| chosen_disk calls : redis args = false -> disk args = true -> ty args = None -> create args = None ->
    cache_prefix_block args = None -> shards args = None -> max_size args = None ->
    calls = ((match t with Some d => [CallTtl d] | None => [] end) ++ [CallRefreshOnHit (refresh args)] ++
      (match durable args with Some b => [CallDurable b] | None => [] end) ++
      (match disk_dir args with Some d => [CallDiskDir d] | None => [] end))%list ->
    chosen args f t id k v false (StoreOf Store.RedbCache k v) (Builder Store.RedbCache (NameArg id) calls false)
| chosen_created named cty cc : created args named cty cc ->
    (redis args = true /\ disk args = false /\ named = StoreOf (redis_name f) k v) \/
    (redis args = false /\ disk args = true /\ named = StoreOf Store.RedbCache k v) \/
    (redis args = false /\ disk args = false /\ is_some (ty args) = true) ->
    chosen args f t id k v false cty cc.

Lemma custom_type_ok s cty : custom_type s = Done (Ok cty) -> exists t, parse_type s = Some t /\ cty = CustomTy t.
Proof. unfold custom_type. intros Ha. apply mbind_ok in Ha as (t & Ht%parsed_ok & Ha). injection Ha as <-. by exists t. Qed.

(** The type, then the [create] block, as the three paths with a custom store have them. *)
Lemma created_ok args c named cty cc : create args = Some c ->
  (match ty args with Some s => custom_type s | None => accept named end) = Done (Ok cty) ->
  (check_create_conflicts args FnIdent ;^ accept (CreateExpr (expr_value_tokens c)))%macro = Done (Ok cc) ->
  created args named cty cc.
Proof.
  intros Hc Ht Ha. apply mbind_ok in Ha as ([] & Hu%create_unshaped & Ha). injection Ha as <-. exists c. split_and!; try done.
  destruct (ty args); [by apply custom_type_ok|by injection Ht].
Qed.

Lemma select_sharded_ok args f t id k v store : redis args = false -> disk args = false -> ty args = None -> create args = None ->
  get_sharded_cache_type_and_create args t k v = Done (Ok store) -> chosen args f t id k v true store.1 store.2.
Proof.
  intros Hr Hd Ht Hc Ha. unfold get_sharded_cache_type_and_create in Ha. apply mbind_ok in Ha as ([] & H1%rejects_ok & Ha).
  passed H1. destruct H1 as (S1 & S2 & S3 & S4 & _). apply negb_false_iff, bool_decide_eq_true in S4.
  apply set_names_nil in S4. passed S4. destruct S4 as (P1 & P2 & P3 & _). apply is_some_false in P1, P2, P3.
  assert (exists s calls, sharded_store (expires args) (refresh args) (max_size args) (shards args) t = (s, calls) /\
    store = (StoreOf s k v, Builder s NoArg calls false)) as (s & calls & Hs & ->).
  { unfold sharded_store, shards_call in *. destruct (expires args), (max_size args), t; injection Ha as <-; eexists _, _; by split. }
  apply chosen_sharded; try done.
  - intros E. rewrite E in S3. by destruct (is_some t).
  - by apply is_zero_false.
  - by apply is_zero_false.
Qed.

Lemma select_concurrent_ok args f t id k v inf cty cc : select_store args f t id k v = Done (Ok (inf, (cty, cc))) ->
  chosen args f t id k v inf cty cc.
Proof.
  unfold select_store. destruct (redis args) eqn:Hr, (disk args) eqn:Hd; [done| | |].
  - intros Ha. apply mbind_ok in Ha as ([] & H1%rejects_ok & Ha). passed H1. destruct H1 as (Sh%is_some_false & Ms%is_some_false & _).
    apply mbind_ok in Ha as (store & Hg & Ha). injection Ha as <- ->. unfold get_redis_cache_type_and_create in Hg.
    apply mbind_ok in Hg as ([] & H2%rejects_ok & Hg). passed H2. destruct H2 as (D & Tc & _).
    apply negb_false_iff, bool_decide_eq_true, set_names_nil in D. passed D. destruct D as (Dd%is_some_false & Du%is_some_false & _).
    apply mbind_ok in Hg as (cty' & Ht & Hg). apply mbind_ok in Hg as (cc' & Hc & Hg). injection Hg as -> ->.
    destruct (create args) as [c|] eqn:Ec.
    + apply (chosen_created _ _ _ _ _ _ (StoreOf (redis_name f) k v)); [by eapply created_ok|by left].
    + destruct (ty args) eqn:Et; [done|]. injection Ht as <-. destruct t as [d|]; [|done]. injection Hc as <-.
      apply chosen_redis; try done. intros c Hc. by rewrite Hc.
  - intros Ha. apply mbind_ok in Ha as ([] & H1%rejects_ok & Ha). passed H1. destruct H1 as (Sh%is_some_false & Ms%is_some_false & _).
    apply mbind_ok in Ha as (store & Hg & Ha). injection Ha as <- ->. unfold get_disk_cache_type_and_create in Hg.
    apply mbind_ok in Hg as ([] & H2%rejects_ok & Hg). passed H2. destruct H2 as (Dp%is_some_false & Tc & _).
    apply mbind_ok in Hg as (cty' & Ht & Hg). apply mbind_ok in Hg as (cc' & Hc & Hg). injection Hg as -> ->.
    destruct (create args) as [c|] eqn:Ec.
    + apply (chosen_created _ _ _ _ _ _ (StoreOf Store.RedbCache k v)); [by eapply created_ok|by right; left].
    + destruct (ty args) eqn:Et; [done|]. injection Ht as <-. injection Hc as <-. apply chosen_disk; try done.
      by destruct t, (durable args), (disk_dir args).
  - destruct (is_some (ty args) || is_some (create args)) eqn:E.
    + intros Ha. apply mbind_ok in Ha as (store & Hg & Ha). injection Ha as <- ->. unfold get_custom_cache_type_and_create in Hg.
      apply mbind_ok in Hg as (cty' & Ht & Hg). apply mbind_ok in Hg as (cc' & Hc & Hg). injection Hg as -> ->.
      destruct (ty args) as [s|] eqn:Et; [|done]. destruct (create args) as [c|] eqn:Ec; [|done].
      apply (chosen_created _ _ _ _ _ _ cty); [|right; right; by rewrite Et].
      eapply created_ok; [exact Ec|by rewrite Et|exact Hc].
    + apply orb_false_iff in E as [Et%is_some_false Ec%is_some_false].
      intros Ha. apply mbind_ok in Ha as (store & Hg & Ha). injection Ha as <- ->.
      by apply (select_sharded_ok args f t id k v (cty, cc)).
Qed.
End Accepted.

(** ** What is emitted fits together *)
Section Claims.
Context {HS : Syn}.
Implicit Types (args : ConcurrentCachedArgs) (f : ItemFn) (e : ConcurrentFn).

Definition sharded (s : Store.Name) : bool :=
  match s with
  | Store.ShardedUnboundCache | Store.ShardedLruCache | Store.ShardedTtlCache | Store.ShardedLruTtlCache
  | Store.ShardedExpiringCache | Store.ShardedExpiringLruCache => true
  | _ => false
  end.

(** The constructor is one of the type declared, over the key and value types of the function; only a
    [create] block, which nothing can be said about, may stand for a redis, disk or custom store. *)
Definition fits (e : ConcurrentFn) : Prop :=
  match cache_ty e, cache_create e with
  | StoreOf s k v, Builder s' _ _ awaited =>
      s' = s /\ v = value_ty e /\ k <> KeyOmitted /\ (awaited = true <-> s = Store.AsyncRedisCache)
  | StoreOf s k v, CreateExpr _ => sharded s = false /\ v = value_ty e /\ k <> KeyOmitted
  | CustomTy _, CreateExpr _ => True
  | CustomTy _, Builder _ _ _ _ => False
  end.

(** The features without which the named store does not exist. *)
Definition needs (cty : CacheTy) (g : FeatureGuard) : Prop :=
  match cty, g with
  | StoreOf Store.RedbCache _ _, RedbStore => True
  | StoreOf Store.RedisCache _ _, RedisFeature false => True
  | StoreOf Store.AsyncRedisCache _ _, RedisFeature true => True
  | StoreOf (Store.ShardedTtlCache | Store.ShardedLruTtlCache) _ _, TimeStores => True
  | _, _ => False
  end.

Lemma sharded_store_sharded ex r n sh t s calls : sharded_store ex r n sh t = (s, calls) -> sharded s = true.
Proof. unfold sharded_store. destruct ex, n, t; by intros [= <- <-]. Qed.

Lemma elem_guard (g h : FeatureGuard) (b : bool) : g ∈ (if b then [h] else []) <-> b = true /\ g = h.
Proof. destruct b; rewrite ?list_elem_of_singleton; [naive_solver|]. rewrite elem_of_nil. naive_solver. Qed.

Lemma chosen_fits args f t id k v inf cty cc : chosen args f t id k v inf cty cc -> (k = KeyOmitted -> is_some (ty args) = true) ->
  match cty, cc with
  | StoreOf s k' v', Builder s' _ _ awaited => s' = s /\ v' = v /\ k' <> KeyOmitted /\ (awaited = true <-> s = Store.AsyncRedisCache)
  | StoreOf s k' v', CreateExpr _ => sharded s = false /\ v' = v /\ k' <> KeyOmitted
  | CustomTy _, CreateExpr _ => True
  | CustomTy _, Builder _ _ _ _ => False
  end.
Proof.
  assert (forall T : Prop, ty args = None -> (k = KeyOmitted -> is_some (ty args) = true) -> k <> KeyOmitted) as Hno
    by (intros _ Et Hk ->; specialize (Hk eq_refl); by rewrite Et in Hk).
  intros [s calls _ _ Et _ Hs|d p _ _ Et|calls _ _ Et|named cty' cc' (c & _ & -> & _ & Ht) Hw] Hk; try specialize (Hno True Et Hk).
  - split_and!; try done. apply sharded_store_sharded in Hs. by destruct s.
  - unfold redis_name. by destruct (asyncness f).
  - done.
  - destruct (ty args) as [s|] eqn:Et; [by destruct Ht as (? & _ & ->)|]. subst cty'. specialize (Hno True eq_refl Hk).
    destruct Hw as [(_ & _ & ->)|[(_ & _ & ->)|(_ & _ & Hw)]]; [unfold redis_name; by destruct (asyncness f)|done|done].
Qed.

Lemma chosen_infallible args f t id k v inf cty cc : chosen args f t id k v inf cty cc ->
  inf = true <-> exists s k v, cty = StoreOf s k v /\ sharded s = true.
Proof.
  intros [s calls _ _ _ _ Hs|d p|calls|named cty' cc' (c & _ & _ & _ & Ht) Hw].
  - split; [|done]. intros _. eexists _, _, _. split; [done|]. by eapply sharded_store_sharded.
  - split; [done|]. intros (s & ? & ? & [= <- _ _] & Hsh). unfold redis_name in Hsh. by destruct (asyncness f).
  - split; [done|]. by intros (s & ? & ? & [= <- _ _] & Hsh).
  - split; [done|]. intros (s & k' & v' & -> & Hs). destruct (ty args); [by destruct Ht as (? & _ & ?)|]. subst named.
    destruct Hw as [(_ & _ & [= -> _ _])|[(_ & _ & [= -> _ _])|(_ & _ & Hw)]]; [unfold redis_name in Hs; by destruct (asyncness f)|done|done].
Qed.

Lemma elem_guards args (is_async has : bool) g : g ∈ feature_guards args is_async has <->
  match g with
  | RedbStore => disk args && negb (is_some (ty args)) = true
  | RedisFeature b => redis args && negb (is_some (ty args)) = true /\ b = is_async
  | AsyncFeature => is_async = true
  | TimeStores => negb (redis args) && negb (disk args) && negb (is_some (ty args)) && negb (is_some (create args))
         && negb (expires args) && has = true
  end.
Proof. unfold feature_guards. rewrite !elem_of_app, !elem_guard. destruct g; naive_solver. Qed.

(** Both directions of an equivalence between concrete guards. *)
Local Ltac guards_agree :=
  simpl; split; intros Hg; repeat match goal with H : _ /\ _ |- _ => destruct H | H : _ \/ _ |- _ => destruct H end;
  subst; try done; try (by left); try (by right).

Lemma chosen_guards args f t id k v inf cty cc : chosen args f t id k v inf cty cc ->
  (expires args = true -> redis args = false /\ disk args = false) ->
  forall g, g ∈ feature_guards args (asyncness f) (is_some t) <-> (g = AsyncFeature /\ asyncness f = true) \/ needs cty g.
Proof.
  intros Hc Hx g. rewrite elem_guards.
  destruct Hc as [s calls -> -> -> -> Hs|d p Hr Hd -> Hc ->|calls Hr Hd -> Hc|named cty' cc' (c & -> & _ & _ & Ht) Hw].
  - unfold sharded_store in Hs. destruct g as [|[]| |], (expires args), (max_size args), t; injection Hs as <- _; guards_agree.
  - rewrite Hr, Hd, Hc. unfold redis_name. destruct g as [|[]| |], (asyncness f), (expires args); guards_agree.
  - rewrite Hr, Hd, Hc. destruct g as [|[]| |]; guards_agree.
  - destruct (ty args) as [s|] eqn:Et.
    + destruct Ht as (? & _ & ->). rewrite !andb_false_r. destruct g as [|[]| |]; guards_agree.
    + subst cty'. destruct Hw as [(-> & -> & ->)|[(-> & -> & ->)|(_ & _ & Hw)]]; [|destruct g as [|[]| |]; guards_agree|done].
      unfold redis_name. destruct g as [|[]| |], (asyncness f); guards_agree.
Qed.

(** Every attribute that shapes the store has reached its builder. *)
Definition shaped args (t : option TtlTokens) (cty : CacheTy) (cc : CacheCreate) : Prop :=
  (forall n, max_size args = Some n -> CallMaxSize n ∈ calls_of cc /\ n <> 0) /\
  (forall n, shards args = Some n -> CallShards n ∈ calls_of cc /\ n <> 0) /\
  (forall d, t = Some d -> CallTtl d ∈ calls_of cc) /\
  (refresh args = true -> CallRefreshOnHit true ∈ calls_of cc) /\
  (forall b, durable args = Some b -> CallDurable b ∈ calls_of cc) /\
  (forall d, disk_dir args = Some d -> CallDiskDir d ∈ calls_of cc) /\
  (forall c, cache_prefix_block args = Some c -> exists s calls aw, cc = Builder s (PrefixArg (expr_value_tokens c)) calls aw) /\
  (forall s, ty args = Some s -> exists t, parse_type s = Some t /\ cty = CustomTy t) /\
  (forall c, create args = Some c -> cc = CreateExpr (expr_value_tokens c)).

Lemma sharded_store_calls ex r n sh t s calls : sharded_store ex r n sh t = (s, calls) ->
  (ex = true -> t = None) -> (r = true -> is_some t = true) ->
  (forall m, n = Some m -> CallMaxSize m ∈ calls) /\ (forall m, sh = Some m -> CallShards m ∈ calls) /\
  (forall d, t = Some d -> CallTtl d ∈ calls) /\ (r = true -> CallRefreshOnHit true ∈ calls).
Proof.
  unfold sharded_store. intros Hs Hx Hr.
  destruct ex, n as [n|], t as [t|]; try (by specialize (Hx eq_refl)); injection Hs as <- <-;
    (split_and!; [intros m Em|intros m Em|intros d Ed|intros ->]); simplify_eq; try (by specialize (Hr eq_refl)); try destruct sh; set_solver.
Qed.

Lemma chosen_shaped args f t id k v inf cty cc : chosen args f t id k v inf cty cc ->
  match t with
  | Some t => ttl_given (ttl args) (ttl_secs args) (ttl_millis args) t
  | None => True
  end ->
  (expires args = true -> ttl args = None /\ ttl_secs args = None /\ ttl_millis args = None) -> shaped args t cty cc.
Proof.
  intros Hc Ht Hx. unfold shaped.
  destruct Hc as [s calls Hr Hd Et Ec Hs Hre Hn Hm Ep Ed Eu|d p Hr Hd Et Ec -> Ed Eu Esh Em Hp|calls Hr Hd Et Ec Ep Esh Em ->|named cty' cc' (c & Ec & -> & Hun & Hty) Hw].
  - destruct (sharded_store_calls _ _ _ _ _ _ _ Hs) as (C1 & C2 & C3 & C4); [|done|].
    { intros Hex. destruct (Hx Hex) as (F1 & F2 & F3). destruct t as [[]|]; [| | |done]; simpl in Ht; rewrite F1, F2, F3 in Ht; naive_solver. }
    simpl. split_and!; try done; try congruence; intros n' Hn'; split; by auto.
  - simpl. split_and!; try congruence; [intros ? [= ->]; by left|intros ->; right; by left|].
    intros c Hc. exists (redis_name f), [CallTtl d; CallRefreshOnHit (refresh args)], (asyncness f). by rewrite (Hp _ Hc).
  - simpl. split_and!; try congruence.
    + intros d ->. by left.
    + intros ->. apply elem_of_app. right. by left.
    + intros b ->. set_solver.
    + intros d ->. set_solver.
  - destruct Hun as (U1 & U2 & U3 & U4 & U5 & U6 & U7 & U8 & U9). simpl.
    split_and!; try congruence.
    + destruct t as [[]|]; [| | |done]; simpl in Ht; rewrite U1, U2, U3 in Ht; naive_solver.
    + intros s Hs. rewrite Hs in Hty. done.
Qed.

(** C19: What an accepted [#[concurrent_cached]] emits fits together.  The store built is the one
    declared, with the function's key and value types, and awaited exactly if its [build] is async; a
    lookup is unwrapped with [expect] exactly over the sharded stores, whose error is [Infallible],
    and otherwise with [?], in a function that returns a [Result], after a closure that is not async;
    [result_fallback] has a sharded store whose entries expire, and caches the [Ok] values; and a
    feature guard is emitted for each feature the named store needs, and for no other. *)
Theorem concurrent_well_typed attr_args args f e : concurrent_cached_with attr_args args f = Done (Ok e) ->
  fits e /\
  (infallible e = true <-> exists s k v, cache_ty e = StoreOf s k v /\ sharded s = true) /\
  match unwrap e with
  | UnwrapExpect => infallible e = true
  | UnwrapMapErr c => infallible e = false /\ exists tokens, c = EClosure false tokens
  | UnwrapTry => infallible e = false
  end /\
  (infallible e = false -> is_result_return_type (output f) = true /\ smart_result e = true) /\
  (fallback e = true -> smart_result e = true /\ flagged e = false /\
    exists s k v, cache_ty e = StoreOf s k v /\
      s ∈ [Store.ShardedTtlCache; Store.ShardedLruTtlCache; Store.ShardedExpiringCache; Store.ShardedExpiringLruCache]) /\
  (forall g, g ∈ guards e <-> (g = AsyncFeature /\ asyncness f = true) \/ needs (cache_ty e) g).
Proof.
  intros (t & k & kb & v & id & inf & [cty cc] & me & _ & _ & _ & H4 & H5 & _ & _ & H8 & H9 & H10 & H11 & H12)%concurrent_with_ok.
  apply concurrent_emit_ok in H12 as (E1 & E2 & E3 & _ & _ & _ & E7 & E8 & E9 & _ & E11 & E12 & _ & _ & E15 & _).
  unfold fits. rewrite E1, E2, E3, E7, E8, E9, E11, E12, E15. simpl. clear E1 E2 E3 E7 E8 E9 E11 E12 E15.
  apply select_concurrent_ok in H9. unfold expires_checks, return_checks, store_demand_checks in *. passed H4. passed H5. passed H10.
  destruct H4 as (X1 & X2 & X3 & X4 & X5 & _). destruct H5 as (_ & _ & R3 & R4 & R5 & _). destruct H10 as (_ & D2 & D3 & D4 & D5 & _).
  destruct (make_key_ok _ _ _ _ _ _ _ H8) as [Hk _]. split_and!.
  - by eapply chosen_fits.
  - by eapply chosen_infallible.
  - unfold cache_unwrap, check_map_error in *. destruct inf; [done|]. destruct (map_error args) as [[| |[|] tokens|]|]; try done.
    + injection H11 as <-. split; [done|]. by exists tokens.
    + by injection H11 as <-.
  - intros ->. destruct (is_result_return_type (output f)) eqn:Er; [|done]. split; [done|]. unfold is_smart_result. rewrite Er.
    by destruct (cache_err args).
  - intros Hf. rewrite Hf in *. simpl in *. apply negb_false_iff in R3, D4. subst inf. unfold is_smart_result. rewrite R3, R4. split; [done|]. split; [done|].
    inversion H9 as [s calls _ _ _ _ Hs| | |]; subst. exists s, k, v. split; [done|]. unfold sharded_store in Hs.
    destruct (expires args), (max_size args), t; simpl in *; try done; injection Hs as <- _; set_solver.
  - eapply chosen_guards; [exact H9|]. intros Hx. by rewrite Hx in *.
Qed.

(** What becomes of every attribute.  (The key type of a store that [ty] names is in [ty] itself: next to it
    [key] is only parsed.) *)
Record concurrent_attributes args f e : Prop := mkConcurrentAttributes {
  is_name : cache_ident e = default (to_uppercase (fn_ident f)) (name args);
  is_max_size n : max_size args = Some n -> CallMaxSize n ∈ calls_of (cache_create e) /\ n <> 0;
  is_shards n : shards args = Some n -> CallShards n ∈ calls_of (cache_create e) /\ n <> 0;
  is_ttl : is_some (ttl args) || is_some (ttl_secs args) || is_some (ttl_millis args) = true ->
    exists t, ttl_given (ttl args) (ttl_secs args) (ttl_millis args) t /\ CallTtl t ∈ calls_of (cache_create e);
  is_refresh : refresh args = true -> CallRefreshOnHit true ∈ calls_of (cache_create e);
  is_durable b : durable args = Some b -> CallDurable b ∈ calls_of (cache_create e);
  is_disk_dir d : disk_dir args = Some d -> CallDiskDir d ∈ calls_of (cache_create e);
  is_prefix c : cache_prefix_block args = Some c -> exists s calls aw,
    cache_create e = Builder s (PrefixArg (expr_value_tokens c)) calls aw;
  is_map_error c : map_error args = Some c -> unwrap e = UnwrapMapErr c;
  is_memory : infallible e = negb (redis args || disk args || is_some (ty args) || is_some (create args));
  is_redis : redis args = true -> disk args = false /\
    (ty args = None -> exists k, cache_ty e = StoreOf (redis_name f) k (value_ty e)) /\
    (create args = None -> exists p calls, cache_create e = Builder (redis_name f) (PrefixArg p) calls (asyncness f));
  is_disk : disk args = true -> redis args = false /\
    (ty args = None -> exists k, cache_ty e = StoreOf Store.RedbCache k (value_ty e)) /\
    (create args = None -> exists calls, cache_create e = Builder Store.RedbCache (NameArg (cache_ident e)) calls false);
  is_expires : expires args = true <-> exists s k,
    cache_ty e = StoreOf s k (value_ty e) /\ (s = Store.ShardedExpiringCache \/ s = Store.ShardedExpiringLruCache);
  is_ty s : ty args = Some s -> exists t, parse_type s = Some t /\ cache_ty e = CustomTy t;
  is_create c : create args = Some c -> cache_create e = CreateExpr (expr_value_tokens c);
  is_key : exists k, key_given (key args) (convert args) f k (key_block e) /\ forall s k' v, cache_ty e = StoreOf s k' v -> k' = k;
  is_force_refresh : match force_refresh args with
    | Some r => exists b, expr_to_block r = accept b /\ refresh_block e = Some b
    | None => refresh_block e = None
    end;
  is_cache_err : smart_result e = is_result_return_type (output f) && negb (cache_err args) /\
    (cache_err args = true -> is_result_return_type (output f) = true /\
      (with_cached_flag args = false -> value_ty e = GType (output_ty (output f))));
  is_cache_none : smart_option e = is_option_return_type (output f) && negb (cache_none args) /\
    (cache_none args = true -> is_option_return_type (output f) = true /\ with_cached_flag args = false /\
      value_ty e = GType (output_ty (output f)));
  is_flag : flagged e = with_cached_flag args /\ flagged_result e = with_cached_flag args && smart_result e /\
    flagged_option e = with_cached_flag args && smart_option e;
  is_fallback : fallback e = result_fallback args;
  is_companions : exists cv, companions_visible (companions_vis args) (vis f) cv /\
    inner_sibling e = (if in_impl args then Some (cv, no_cache_attrs (attrs f)) else None) /\
    prime_fn e = (if in_impl args || negb (default true (companions args)) then None
                  else Some (cv, fn_ident f ++ "_prime_cache", no_cache_attrs (attrs f))) /\
    (is_some (companions_vis args) = true -> inner_sibling e <> None \/ prime_fn e <> None);
  is_in_impl : in_impl args = has_receiver f /\ no_cache_on_self e = in_impl args /\
    static_vis e = if in_impl args then None else Some (vis f);
  is_removed : time args = None /\ time_refresh args = None /\ size args = None }.

(** The store by its path. *)
Lemma chosen_path args f t id k v inf cty cc : chosen args f t id k v inf cty cc ->
  (expires args = true -> redis args = false /\ disk args = false /\ ty args = None /\ create args = None) ->
  inf = negb (redis args || disk args || is_some (ty args) || is_some (create args)) /\
  (redis args = true -> disk args = false /\ (ty args = None -> cty = StoreOf (redis_name f) k v) /\
    (create args = None -> exists p calls, cc = Builder (redis_name f) (PrefixArg p) calls (asyncness f))) /\
  (disk args = true -> redis args = false /\ (ty args = None -> cty = StoreOf Store.RedbCache k v) /\
    (create args = None -> exists calls, cc = Builder Store.RedbCache (NameArg id) calls false)) /\
  (expires args = true <-> exists s k', cty = StoreOf s k' v /\ (s = Store.ShardedExpiringCache \/ s = Store.ShardedExpiringLruCache)) /\
  (forall s k' v', cty = StoreOf s k' v' -> k' = k).
Proof.
  intros [s calls Hr Hd Et Ec Hs _ _ _ _ _ _|d p Hr Hd Et Ec _ _ _ _ _ _|calls Hr Hd Et Ec _ _ _ _|named cty' cc' (c & Ec & -> & Hun & Hty) Hw] Hx.
  - rewrite Hr, Hd, Et, Ec. split_and!; [done..| |by intros ? ? ? [= _ <- _]]. unfold sharded_store in Hs.
    destruct (expires args), (max_size args), t; injection Hs as <- _; naive_solver.
  - rewrite Hr, Hd, Et, Ec. split_and!; [done|naive_solver|done| |by intros ? ? ? [= _ <- _]].
    unfold redis_name. destruct (expires args); [destruct (Hx eq_refl); congruence|]. destruct (asyncness f); naive_solver.
  - rewrite Hr, Hd, Et, Ec. split_and!; [done|done|naive_solver| |by intros ? ? ? [= _ <- _]]. destruct (expires args); [destruct (Hx eq_refl) as (_ & ? & _); congruence|]. naive_solver.
  - rewrite Ec. assert (expires args = false) as Ex by (destruct (expires args); [destruct (Hx eq_refl) as (_ & _ & _ & ?); congruence|done]).
    rewrite Ex. unfold redis_name in *. split_and!.
    + simpl. by rewrite orb_true_r.
    + intros Hr. destruct Hw as [(_ & -> & ->)|[(? & _)|(? & _)]]; [|congruence..]. split_and!; [done| |done]. intros Et. by rewrite Et in Hty.
    + intros Hd. destruct Hw as [(_ & ? & _)|[(-> & _ & ->)|(_ & ? & _)]]; [congruence| |congruence]. split_and!; [done| |done]. intros Et. by rewrite Et in Hty.
    + split; [done|]. intros (s & k' & -> & Hs). destruct (ty args) as [y|]; [by destruct Hty as (? & _ & ?)|].
      destruct Hw as [(_ & _ & ->)|[(_ & _ & ->)|(_ & _ & ?)]]; [| |done]; injection Hty as -> _; [destruct (asyncness f)|]; naive_solver.
    + intros s k' v' ->. destruct (ty args) as [y|]; [by destruct Hty as (? & _ & ?)|].
      destruct Hw as [(_ & _ & ->)|[(_ & _ & ->)|(_ & _ & ?)]]; [..|done]; by injection Hty.
Qed.

(** The value of a function whose whole result is stored. *)
Lemma whole_concurrent_value args out v : find_cache_value_ty args out = Done (Ok v) -> with_cached_flag args = false ->
  is_smart_result args out = false -> is_smart_option args out = false -> v = GType (output_ty out).
Proof. unfold find_cache_value_ty. intros Hf Hw H1 H2. rewrite H1, H2 in Hf. clear H1 H2. destruct out; [by injection Hf|]. unfold peel_return in Hf. rewrite Hw in Hf. by injection Hf. Qed.

(** C20: Every attribute that [#[concurrent_cached]] accepts is in what it emits.  The name of the static; a
    size limit, a shard count, a ttl, [refresh], [durable] and the directory are calls on the builder of the
    store, the key prefix is the argument of its builder - and none of them stands next to a [create] block,
    which would not see them -; [redis], [disk] and [expires] choose the store, [ty] is the store, built by
    the [create] block; [map_error] is applied to the errors of the store; the key; [force_refresh]; what
    [cache_err] and [cache_none] make the value; the flag and the fallback; the companions, with their
    visibility and name; what [in_impl] puts where; and none of the removed attributes is set. *)
Theorem concurrent_honours attr_args args f e : concurrent_cached_with attr_args args f = Done (Ok e) -> concurrent_attributes args f e.
Proof.
  intros (t & k & kb & v & id & inf & [cty cc] & me & H1 & H2 & H3 & H4 & H5 & H6 & H7 & H8 & H9 & H10 & H11 & H12)%concurrent_with_ok.
  pose proof H12 as (F1 & F2 & cv & Hcv & F3 & F4)%concurrent_emit_companions.
  apply concurrent_emit_ok in H12 as (E1 & E2 & E3 & E4 & E5 & _ & E7 & E8 & E9 & E10 & E11 & E12 & E13 & E14 & _ & E16).
  apply select_concurrent_ok in H9. simpl in E1, E2. apply cache_key_ok in H8 as [H8 _]. apply cache_ident_ok in H7. apply force_refresh_ok in E16.
  unfold signature_checks, expires_ttl_checks, expires_checks, return_checks in *. passed H1. passed H2. passed H4. passed H5.
  destruct H1 as (R1 & R2 & Hnest & _ & Z1 & Z2 & Z3 & _).
  destruct H2 as (T1 & T2 & T3 & _). destruct H4 as (X1 & X2 & X3 & X4 & X5 & _). destruct H5 as (C1 & C2 & _ & _ & _ & _ & _ & _ & _ & _ & C3 & _).
  assert (Hsh : shaped args t cty cc).
  { eapply chosen_shaped; [exact H9|by destruct t|]. intros Hx. rewrite Hx in *. simpl in *. split_and!; by apply is_some_false. }
  destruct Hsh as (S1 & S2 & S3 & S4 & S5 & S6 & S7 & S8 & S9).
  destruct (chosen_path _ _ _ _ _ _ _ _ _ H9) as (P1 & P2 & P3 & P4 & P5).
  { intros Hx. rewrite Hx in *. simpl in *. split_and!; try done; by apply is_some_false. }
  assert (in_impl args = has_receiver f) as Himpl by (by destruct (in_impl args), (has_receiver f)).
  pose proof (result_not_option (output f)) as Hro.
  split; rewrite ?F1, ?F2, ?F3, ?F4, ?E1, ?E2, ?E3, ?E4, ?E5, ?E7, ?E8, ?E9, ?E10, ?E11, ?E12, ?E13, ?E14; try done.
  - intros Ht. destruct t as [t|]; [exists t; split; [done|by apply S3]|]. destruct H3 as (G1 & G2 & G3). by rewrite G1, G2, G3 in Ht.
  - intros c Hc. unfold cache_unwrap, check_map_error in *. rewrite Hc in H11. destruct inf; [done|].
    destruct c as [| |[|] tokens|]; try done. by injection H11 as <-.
  - intros Hr. destruct (P2 Hr) as (G1 & G2 & G3). split_and!; [done| |done]. intros Et. exists k. by apply G2.
  - intros Hd. destruct (P3 Hd) as (G1 & G2 & G3). split_and!; [done| |done]. intros Et. exists k. by apply G2.
  - by exists k.
  - split; [done|]. intros Hc. rewrite Hc in C1. simpl in C1. apply negb_false_iff in C1. split; [done|]. intros Hw.
    apply (whole_concurrent_value args); [done|done|..]; unfold is_smart_result, is_smart_option; [by rewrite Hc, andb_false_r|by rewrite Hro].
  - split; [done|]. intros Hc. rewrite Hc in C2. simpl in C2. apply negb_false_iff in C2. split; [done|].
    assert (is_smart_option args (output f) = false) as Ho by (unfold is_smart_option; by rewrite Hc, andb_false_r).
    assert (with_cached_flag args = false) as Hw by (destruct (with_cached_flag args); [by rewrite Ho, C2 in C3|done]). split; [done|].
    apply (whole_concurrent_value args); [done|done| |done]. unfold is_smart_result.
    destruct (is_result_return_type (output f)); [by rewrite Hro in C2|done].
  - exists cv. split_and!; [done..|]. intros Hv. rewrite Hv in Hnest. destruct (in_impl args); [by left|right].
    by destruct (default true (companions args)).
  - split_and!; by apply is_some_false.
Qed.
End Claims.

(** ** Demonstrations *)
Module Demo.
Import Toy.

(** [#[concurrent_cached(max_size = 100, shards = 8, ttl_secs = 60, refresh = true, result_fallback = true)]] *)
Definition fallback_args : ConcurrentCachedArgs :=
  mkArgs None false None false None None None (Some 60) None None None None true None None false false false true None None
    None (Some 100) (Some 8) false None None None false.

(** [#[concurrent_cached(disk = true, map_error = r#"..."#, ty = "...", create = "...")]], with a [map_error] closure. *)
Definition disk_args : ConcurrentCachedArgs :=
  mkArgs (Some (EClosure false "|e| ()")) true (Some "/var/cache") false None None None None None None None None false None None
    false false false false None None (Some true) None None false None None None false.

Lemma concurrent_honours_witness : exists e,
  concurrent_cached_with [] fallback_args load = Done (Ok e) /\
  CallMaxSize 100 ∈ calls_of (cache_create e) /\ CallShards 8 ∈ calls_of (cache_create e) /\
  CallRefreshOnHit true ∈ calls_of (cache_create e).
Proof.
  eexists. split; [vm_compute; reflexivity|].
  edestruct (concurrent_honours [] fallback_args load) as [_ H1 H2 _ H4 _ _ _ _ _ _ _ _ _ _ _ _ _ _ _ _ _ _ _]; [vm_compute; reflexivity|].
  split; [by apply H1|]. split; [by apply H2|]. by apply H4.
Defined.

Lemma concurrent_well_typed_witness : exists e,
  concurrent_cached_with [] disk_args load = Done (Ok e) /\ fits e /\ unwrap e = UnwrapMapErr (EClosure false "|e| ()") /\
  infallible e = false /\ smart_result e = true.
Proof.
  eexists. split; [vm_compute; reflexivity|].
  edestruct (concurrent_well_typed [] disk_args load) as (H1 & _ & _ & H4 & _); [vm_compute; reflexivity|].
  split; [exact H1|]. split; [reflexivity|]. split; [reflexivity|]. by apply H4.
Defined.
End Demo.
