(* ===== verification/MacroTotal.v ===== *)
(** * The macros end, and when they panic

    [proc_macro2::Ident::new] panics on a string that is no identifier, and [parse_quote!] where [syn]
    cannot parse: nothing else in the three macros does, since their own [unreachable!]s are not reached. *)
From Stdlib Require Import String Ascii.
From stdpp Require Import strings.
From S2P Require Import Prelude MacroSyntax MacroOnce MacroProps MacroCached MacroConcurrent.
#[local] Open Scope string_scope.

(** The expansion ends, and panics only if [P]. *)
Definition settles {A} (P : Prop) (m : Macro A) : Prop :=
  match m with Done _ => True | Unwind => P | OutOfFuel => False end.

Create HintDb settle.

Lemma settles_bind {A B} P (m : Macro A) (k : A -> Macro B) :
  settles P m -> (forall a, m = Done (Ok a) -> settles P (k a)) -> settles P (mbind m k).
Proof. destruct m as [[a|e]| |]; simpl; intros Hm Hk; [by apply Hk|done..]. Qed.

Lemma settles_rejects P l : settles P (rejects l).
Proof. destruct (rejects_cases l) as [-> | [e ->]]; done. Qed.
Lemma settles_parsed {A} P (o : option A) sp msg : settles P (parsed o sp msg).
Proof. by destruct o. Qed.
Lemma settles_first_type_arg P t sp m1 m2 : settles P (first_type_arg t sp m1 m2).
Proof. destruct t as [segments| | |]; try done. simpl. by destruct (last segments) as [[i [|[|]|]]|]. Qed.
Lemma settles_find_value_type P r o out : settles P (find_value_type r o out).
Proof.
  destruct r, o; try done; (destruct out as [|[segments| | |]]; try done; simpl; by destruct (last segments) as [[i [|[|]|]]|]).
Qed.
#[export] Hint Resolve settles_rejects settles_parsed settles_first_type_arg settles_find_value_type : settle.

(** One step: a stage that settles, then the rest. *)
Ltac settle :=
  repeat first
    [ exact I
    | apply settles_rejects | apply settles_parsed | apply settles_first_type_arg | apply settles_find_value_type
    | match goal with |- settles _ (mbind _ _) => apply settles_bind; [|intros ? ?] end
    | progress simpl
    | match goal with |- settles _ (match ?x with _ => _ end) => destruct x end
    | match goal with |- settles _ (if ?x then _ else _) => destruct x end ].

Section Settles.
Context {HS : Syn}.

(** What the macro hands to [Ident::new]: the name of the cache, and those of the companions. *)
Definition built_idents (name : option string) (fn_ident : string) : list string :=
  [match name with Some n => default n (drop_prefix "r#" n) | None => to_uppercase fn_ident end;
   fn_ident ++ "_no_cache"; fn_ident ++ "_prime_cache"].

Definition panics (name : option string) (f : ItemFn) (blocks : list (option Expr)) : Prop :=
  (exists s, s ∈ built_idents name (fn_ident f) /\ valid_ident s = false) \/
  (exists x, Some x ∈ blocks /\ parse_stmt x = None).

Lemma settles_ident (P : Prop) s : (valid_ident s = false -> P) -> settles P (ident_new s).
Proof. unfold ident_new. destruct (valid_ident s); [done|]. simpl. auto. Qed.

Lemma settles_cache_ident P name fn : (forall s, s ∈ built_idents name fn -> valid_ident s = false -> P) ->
  settles P (make_cache_ident name fn).
Proof.
  intros HP. unfold make_cache_ident, built_idents in *. destruct name as [n|]; [|apply settles_ident, HP; set_solver].
  apply settles_bind; [apply settles_rejects|]. intros _ _. destruct (drop_prefix "r#" n) as [stripped|] eqn:Ed; simpl in HP.
  - unfold ident_new_raw. specialize (HP stripped). destruct (valid_ident stripped); [done|]. simpl. apply HP; [set_solver|done].
  - apply settles_ident, HP. set_solver.
Qed.

Lemma settles_block (P : Prop) x : (parse_stmt x = None -> P) -> settles P (expr_to_block x).
Proof.
  intros HP. assert (Hs : settles P (let^ stmt := unpanicked (parse_stmt x) in accept [stmt])).
  { destruct (parse_stmt x); simpl; auto. }
  by destruct x.
Qed.

Lemma settles_force_refresh (P : Prop) o : (forall x, o = Some x -> parse_stmt x = None -> P) ->
  settles P (parse_force_refresh_block o).
Proof.
  intros HP. destruct o as [x|]; [|done]. assert (Hs : settles P (let^ block := expr_to_block x in accept (Some block))).
  { apply settles_bind; [|done]. by apply settles_block, HP. }
  by destruct x.
Qed.

Lemma settles_key (P : Prop) key o ty tys names : (forall x, o = Some x -> parse_stmt x = None -> P) ->
  settles P (make_cache_key_type key o ty tys names).
Proof.
  intros HP. unfold make_cache_key_type. destruct key, o as [c|]; try done.
  - apply settles_bind; [apply settles_parsed|]. intros a _. apply settles_bind; [by apply settles_block, HP|done].
  - destruct ty; [|done]. apply settles_bind; [by apply settles_block, HP|done].
Qed.

Lemma settles_ttl P t s m sp1 sp2 : settles P (resolve_ttl_duration t s m sp1 sp2).
Proof.
  unfold resolve_ttl_duration. apply settles_bind; [apply settles_rejects|]. intros _ _.
  destruct t as [x|]; [destruct (parse_expr _); done|]. by destruct s, m.
Qed.

Lemma settles_vis P o v : settles P (make_companions_visibility o v).
Proof. destruct o as [s|]; [|done]. simpl. destruct (String.eqb s ""); [done|apply settles_parsed]. Qed.

Lemma settles_concrete P to_tokens f v : settles P (check_concrete to_tokens f v).
Proof.
  unfold check_concrete. destruct (generic_param_idents f) as [|q params]; [done|].
  destruct (found_param_spec (q :: params) (to_tokens v)) as (r & -> & _). by destruct r.
Qed.

Lemma settles_concurrent_ty P args out : settles P (find_cache_value_ty args out).
Proof.
  unfold find_cache_value_ty, MacroConcurrent.is_smart_result, MacroConcurrent.is_smart_option, peel_return.
  destruct out as [|t]; simpl.
  - done.
  - destruct (_ && _); [|destruct (_ && _)]; settle.
Qed.

Lemma settles_listed P l i attr_args : settles P (reject_listed l i attr_args).
Proof. revert i. induction attr_args as [|[[id|] tok|tok] rest IH]; intros i; simpl; try done. by destruct (assoc id l). Qed.

(** [has_ttl] implies [ttl_duration]. *)
Lemma settles_cached_store P args t k v : settles P (MacroCached.select_store args (is_some t) t k v).
Proof. unfold MacroCached.select_store. destruct t; simpl; settle. Qed.

(** A value type is found only for a return type that is no [Result] and [Option] at once. *)
Lemma settles_return_arm P r o out v : find_value_type r o out = Done (Ok v) -> settles P (return_arm r o).
Proof. by destruct r, o. Qed.

(** [ByKey] has been rejected above. *)
Lemma checked_mode args u : rejects (MacroOnce.sync_checks args) = Done (Ok u) -> MacroOnce.effective_sync_writes args <> ByKey.
Proof. destruct u. intros (_ & [H _]%Forall_cons)%rejects_ok%Forall_cons. simpl in H. by case_bool_decide. Qed.
Lemma settles_prime_block P args u : rejects (MacroOnce.sync_checks args) = Done (Ok u) ->
  settles P (MacroOnce.prime_do_set_return_block (MacroOnce.effective_sync_writes args)).
Proof. intros H%checked_mode. by destruct (MacroOnce.effective_sync_writes args). Qed.
Lemma settles_set_block P args u : rejects (MacroOnce.sync_checks args) = Done (Ok u) ->
  settles P (MacroOnce.do_set_return_block (MacroOnce.effective_sync_writes args)).
Proof. intros H%checked_mode. by destruct (MacroOnce.effective_sync_writes args). Qed.

Lemma settles_conflicts P args sp : settles P (MacroConcurrent.check_create_conflicts args sp).
Proof. unfold MacroConcurrent.check_create_conflicts. by destruct (MacroConcurrent.create_conflicts args). Qed.

Lemma settles_concurrent_store P args f t id k v : settles P (MacroConcurrent.select_store args f t id k v).
Proof.
  assert (Hc : forall s, settles P (custom_type s)) by (intros s; unfold custom_type; settle).
  assert (Hk : forall c, settles P (MacroConcurrent.check_create_conflicts args FnIdent ;^ accept (CreateExpr (expr_value_tokens c)))).
  { intros c. apply settles_bind; [apply settles_conflicts|done]. }
  unfold MacroConcurrent.select_store. destruct (redis args), (disk args); [done|..].
  - apply settles_bind; [apply settles_rejects|]. intros _ _. apply settles_bind; [|done]. unfold get_redis_cache_type_and_create.
    apply settles_bind; [apply settles_rejects|]. intros _ _. apply settles_bind; [by destruct (MacroConcurrent.ty args)|]. intros cty _.
    apply settles_bind; [|done]. destruct (MacroConcurrent.create args); [by apply Hk|]. by destruct t.
  - apply settles_bind; [apply settles_rejects|]. intros _ _. apply settles_bind; [|done]. unfold get_disk_cache_type_and_create.
    apply settles_bind; [apply settles_rejects|]. intros _ _. apply settles_bind; [by destruct (MacroConcurrent.ty args)|]. intros cty _.
    apply settles_bind; [|done]. destruct (MacroConcurrent.create args); [by apply Hk|done].
  - destruct (_ || _); (apply settles_bind; [|done]).
    + unfold get_custom_cache_type_and_create. apply settles_bind; [by destruct (MacroConcurrent.ty args)|]. intros cty _.
      apply settles_bind; [|done]. by destruct (MacroConcurrent.create args).
    + unfold get_sharded_cache_type_and_create. apply settles_bind; [apply settles_rejects|]. intros _ _.
      by destruct (MacroConcurrent.expires args), (MacroConcurrent.max_size args), t.
Qed.

Lemma settles_map_error P args inf : settles P (check_map_error args inf).
Proof. unfold check_map_error. by destruct (map_error args) as [[| |[|]|]|], inf. Qed.
End Settles.

Section Claims.
Context {HS : Syn}.
Implicit Types (f : ItemFn).

Lemma panics_ident name f blocks s : s ∈ built_idents name (fn_ident f) -> valid_ident s = false -> panics name f blocks.
Proof. left. by exists s. Qed.
Lemma panics_block name f blocks o x : o ∈ blocks -> o = Some x -> parse_stmt x = None -> panics name f blocks.
Proof. intros Ho -> Hx. right. by exists x. Qed.

(** The stages of a macro, one after the other. *)
Ltac stages :=
  repeat first
    [ exact I
    | apply settles_rejects | apply settles_ttl | apply settles_vis | apply settles_find_value_type | apply settles_concurrent_ty
    | apply settles_concrete | apply settles_cached_store | apply settles_concurrent_store | apply settles_map_error
    | apply settles_cache_ident; apply panics_ident
    | match goal with
      | |- settles _ (return_arm _ _) => eapply settles_return_arm; eassumption
      | |- settles _ (MacroOnce.prime_do_set_return_block _) => eapply settles_prime_block; eassumption
      | |- settles _ (MacroOnce.do_set_return_block _) => eapply settles_set_block; eassumption
      end
    | apply settles_ident; apply panics_ident; unfold built_idents; clear; set_solver
    | apply settles_key; intros x; apply panics_block; clear; set_solver
    | apply settles_force_refresh; intros x; apply panics_block; clear; set_solver
    | match goal with |- settles _ (mbind _ _) => apply settles_bind; [|intros ? ?] end
    | match goal with H : resolve_ttl_duration _ _ _ _ _ = Done (Ok ?x) |- settles _ (let '(_, _) := ?x in _) =>
        destruct x as [? ?]; apply resolve_ttl_ok in H as [-> _] end
    | match goal with |- settles _ (let '(_, _) := ?x in _) => destruct x end ].

(** C23: The expansion of each macro ends, and it panics only over the text it is given: where the name of
    the function, extended to the name of a companion or in upper case, is no identifier to
    [Ident::new], or where [syn] cannot parse a [convert] or [force_refresh] expression as a statement.
    Every other input is expanded or rejected with an error.  So no [unreachable!] of the three macros is
    reached and no [expect] fails - the two matches on [sync_writes] in [#[once]], the arms for a return type
    that is a [Result] and an [Option], the ttl behind [has_ttl] in [#[cached]] -, since an earlier check has
    rejected what leads there; and the walk of [#[once]] over the tokens of a type ends. *)
Theorem macros_settle to_tokens attr_args f :
  (forall args, settles (panics (MacroCached.name args) f [MacroCached.convert args; MacroCached.force_refresh args])
    (cached_with attr_args args f)) /\
  (forall args, settles (panics (MacroOnce.name args) f [MacroOnce.force_refresh args])
    (once_with to_tokens attr_args args f)) /\
  (forall args, settles (panics (MacroConcurrent.name args) f [MacroConcurrent.convert args; MacroConcurrent.force_refresh args])
    (concurrent_cached_with attr_args args f)).
Proof.
  split_and!; intros args.
  - unfold cached_with, MacroCached.emit, validate_sync_writes_buckets. stages.
    destruct (is_some (MacroCached.create args)); [|done]. unfold MacroCached.check_create_conflicts.
    by destruct (MacroCached.create_conflicts args).
  - unfold once_with, MacroOnce.emit. stages.
  - unfold concurrent_cached_with, MacroConcurrent.emit. stages.
Qed.

(** C40: A function whose name is a raw identifier cannot be cached: none of the macros expands it,
    whatever the attributes, [name] included, since the companions are named by extending the text of the
    function's own name, [r#] prefix and all, and [Ident::new] takes no raw identifier. *)
Theorem raw_fn_refused to_tokens attr_args f s : fn_ident f = "r#" ++ s -> (forall t, valid_ident ("r#" ++ t) = false) ->
  (forall args e, cached_with attr_args args f <> Done (Ok e)) /\
  (forall args e, once_with to_tokens attr_args args f <> Done (Ok e)) /\
  (forall args e, concurrent_cached_with attr_args args f <> Done (Ok e)).
Proof.
  intros Hf Hr. assert (Hn : forall t, ident_new (fn_ident f ++ t) = Unwind).
  { intros t. unfold ident_new. rewrite Hf. assert (E : valid_ident (("r#" ++ s) ++ t) = false) by exact (Hr (s ++ t)). by rewrite E. }
  split_and!; intros args e He.
  - unfold cached_with, MacroCached.emit in He. accepted He. by rewrite Hn in *.
  - unfold once_with, MacroOnce.emit in He. accepted He. by rewrite Hn in *.
  - unfold concurrent_cached_with, MacroConcurrent.emit in He. accepted He. by rewrite Hn in *.
Qed.
End Claims.

(** ** Demonstrations *)
Module Demo.
Import Toy.

(** [fn r#match(..)] under a plain [#[cached]], [#[once]], [#[concurrent_cached]]. *)
Definition raw_fn : ItemFn := mkFn [] "pub" false "r#match" [] [] (inputs load) (output load).

Lemma raw_fn_refused_witness :
  fn_ident raw_fn = "r#" ++ "match" /\ (forall t, valid_ident ("r#" ++ t) = false) /\
  (forall args e, cached_with [] args raw_fn <> Done (Ok e)) /\
  (forall args e, once_with (fun _ => []) [] args raw_fn <> Done (Ok e)) /\
  (forall args e, concurrent_cached_with [] args raw_fn <> Done (Ok e)).
Proof.
  split; [reflexivity|]. split; [reflexivity|].
  apply (raw_fn_refused (fun _ => []) [] raw_fn "match"); [reflexivity|reflexivity].
Defined.
End Demo.
