(* ===== verification/MacroFlag.v ===== *)
(** * [with_cached_flag]: on what the flag of a hit is set

    A hit of a flagged function calls [set_was_cached] on a clone of the cached value, so that value has to
    be a [cached::Return]; [check_with_cache_flag] only looks for one somewhere in the return type. *)
From Stdlib Require Import String.
From stdpp Require Import strings.
From S2P Require Import Prelude MacroSyntax MacroOnce MacroProps MacroCached MacroCachedProps MacroTotal.
#[local] Open Scope string_scope.

(** [Return] or [cached::Return], with any arguments. *)
Definition is_return (ty : Ty) : bool :=
  match ty with TPath segments => is_return_path (seg_ident <$> segments) | _ => false end.

(** The first argument that is a type. *)
Fixpoint first_type (args : list GenericArgument) : option Ty :=
  match args with
  | [] => None
  | GType t :: _ => Some t
  | GOther _ :: args => first_type args
  end.

Definition wraps (ident : string) : bool := String.eqb ident "Result" || String.eqb ident "Option".

(** The recursion of [type_is_cached_return]: through the last segment of the path. *)
Lemma type_is_cached_return_path segments : type_is_cached_return (TPath segments) =
  match last segments with
  | Some (Segment ident arguments) =>
      if wraps ident then
        match arguments with
        | AngleBracketed args => match first_type args with Some t => type_is_cached_return t | None => false end
        | _ => false
        end
      else if String.eqb ident "Return" then is_return_path (seg_ident <$> segments) else false
  | None => false
  end.
Proof.
  simpl. set (all := seg_ident <$> segments). clearbody all. induction segments as [|[i a] [|s l] IH]; [done| |exact IH].
  unfold wraps. simpl. destruct (_ || _); [|done]. destruct a as [|args|]; try done. by induction args as [|[t|] args IHa].
Qed.

Lemma return_path_last idents : is_return_path idents = true -> last idents = Some "Return".
Proof.
  destruct idents as [|a [|b [|c l]]]; simpl; try done; [intros H%String.eqb_eq; by subst|].
  intros [_ H%String.eqb_eq]%andb_true_iff. by subst.
Qed.

Lemma is_return_last ty : is_return ty = true -> exists segments a, ty = TPath segments /\ last segments = Some (Segment "Return" a).
Proof.
  destruct ty as [segments| | |]; try done. simpl. intros H%return_path_last. exists segments. rewrite fmap_last in H.
  destruct (last segments) as [[i a]|]; [|done]. injection H as ->. by exists a.
Qed.

Lemma is_return_not_wrapper ty w : is_return ty = true -> String.eqb "Return" w = false -> is_wrapper w (ReturnTy ty) = false.
Proof.
  intros (segments & a & -> & Hl)%is_return_last Hw. unfold is_wrapper, last_segment. rewrite Hl. change (has_arguments a && String.eqb "Return" w = false). rewrite Hw. apply andb_false_r.
Qed.

(** Of the accepted types, those that are no wrapper are [Return]s. *)
Lemma unwrapped_return ty : type_is_cached_return ty = true -> is_result_return_type (ReturnTy ty) = false ->
  is_option_return_type (ReturnTy ty) = false -> is_return ty = true.
Proof.
  unfold is_result_return_type, is_option_return_type, is_wrapper. destruct ty as [segments| | |]; try done.
  rewrite type_is_cached_return_path. unfold last_segment. destruct (last segments) as [[i a]|] eqn:El; [|done]. simpl.
  unfold wraps. destruct a as [|args|]; simpl;
    (destruct (String.eqb i "Result"), (String.eqb i "Option"); simpl; try done; by destruct (String.eqb i "Return")).
Qed.

(** The value behind one wrapper. *)
Lemma wrapped_return ty (result option : bool) v t : type_is_cached_return ty = true ->
  (result = true -> is_result_return_type (ReturnTy ty) = true) ->
  (option = true -> is_option_return_type (ReturnTy ty) = true) ->
  (result = true \/ option = true) ->
  find_value_type result option (ReturnTy ty) = Done (Ok v) -> v = GType t -> type_is_cached_return t = true.
Proof.
  intros Ht Hr Ho Hw Hv ->.
  assert (Hs : exists segments i args, ty = TPath segments /\ last segments = Some (Segment i (AngleBracketed (GType t :: args))) /\ wraps i = true).
  { destruct result, option; [done| | |naive_solver]; (destruct ty as [segments| | |]; try done; simpl in Hv;
      destruct (last segments) as [[i [|[|a args]|]]|] eqn:El; try done; injection Hv as ->; exists segments, i, args; split; [done|]; split; [done|]).
    - specialize (Hr eq_refl). unfold is_result_return_type, is_wrapper, last_segment in Hr. rewrite El in Hr. simpl in Hr. unfold wraps. by rewrite Hr.
    - specialize (Ho eq_refl). unfold is_option_return_type, is_wrapper, last_segment in Ho. rewrite El in Ho. simpl in Ho. unfold wraps. rewrite Ho. apply orb_true_r. }
  destruct Hs as (segments & i & args & -> & El & Hi). rewrite type_is_cached_return_path, El, Hi in Ht. exact Ht.
Qed.

Lemma not_both ty : is_result_return_type ty = true -> is_option_return_type ty = true -> False.
Proof.
  unfold is_result_return_type, is_option_return_type, is_wrapper. destruct ty as [|ty]; [done|]. destruct (last_segment ty) as [[i a]|]; [|done].
  intros [_ H1%String.eqb_eq]%andb_true_iff [_ H2%String.eqb_eq]%andb_true_iff. congruence.
Qed.

(** What the two macros have in common: the checks of the flag, and the value type. *)
Lemma flag_on_return_type (cache_err cache_none : bool) (out : ReturnType) t :
  check_with_cache_flag true out = false -> (cache_err = true -> is_result_return_type out = true) -> cache_none = false ->
  find_value_type (is_result_return_type out && negb cache_err) (is_option_return_type out && negb cache_none) out = Done (Ok (GType t)) ->
  (is_return t = true <->
    cache_err = false /\ is_result_return_type (ReturnTy t) = false /\ is_option_return_type (ReturnTy t) = false).
Proof.
  intros Hc He -> Hv. destruct out as [|ty]; [done|]. simpl in Hc. apply negb_false_iff in Hc. change (negb false) with true in Hv.
  rewrite (andb_true_r (is_option_return_type _)) in Hv.
  split.
  - intros Hr. split; [|split; by apply is_return_not_wrapper]. destruct cache_err; [|done]. pose proof (He eq_refl) as Her. simpl negb in Hv. rewrite andb_false_r in Hv.
    destruct (is_option_return_type (ReturnTy ty)) eqn:Eo; [by destruct (not_both (ReturnTy ty) Her Eo)|].
    injection Hv as ->. unfold is_result_return_type in Her. by rewrite (is_return_not_wrapper t "Result") in Her.
  - intros (-> & Hr & Ho). simpl negb in Hv. rewrite andb_true_r in Hv. apply unwrapped_return; [|done..].
    destruct (is_result_return_type (ReturnTy ty)) eqn:Er, (is_option_return_type (ReturnTy ty)) eqn:Eo; [done| | |by injection Hv as ->].
    + by eapply (wrapped_return ty true false); eauto.
    + by eapply (wrapped_return ty false true); eauto.
Qed.

Section Claims.
Context {HS : Syn}.

Implicit Types (f : ItemFn).

(** C25: Under [with_cached_flag = true], [set_was_cached] is called on a clone of the cached value, and an
    accepted [#[cached]] or [#[once]] has a [Return] there exactly if [cache_err] is off and the value
    type is not itself a [Result] or an [Option].  Both exceptions are accepted: [cache_err = true] on a
    [Result<Return<T>, E>], whose cached value is the whole [Result], and nested wrappers such as
    [Result<Option<Return<T>>, E>]. *)
Theorem flagged_value to_tokens attr_args f t :
  (forall args e, cached_with attr_args args f = Done (Ok e) -> flagged e = true -> value_ty e = GType t ->
    (is_return t = true <->
      cache_err args = false /\ is_result_return_type (ReturnTy t) = false /\ is_option_return_type (ReturnTy t) = false)) /\
  (forall args e, once_with to_tokens attr_args args f = Done (Ok e) -> MacroOnce.flagged e = true -> MacroOnce.value_ty e = GType t ->
    (is_return t = true <->
      MacroOnce.cache_err args = false /\ is_result_return_type (ReturnTy t) = false /\ is_option_return_type (ReturnTy t) = false)).
Proof.
  split; intros args e He Hf Ht.
  - apply cached_with_ok in He as (cv & ti & k & kb & v & id & store & _ & _ & _ & _ & _ & _ & H6 & H7 & _ & _ & _ & _ & _ & _ & _ & H15).
    apply emit_ok in H15 as (_ & _ & E3 & _ & _ & _ & _ & _ & _ & _ & _ & E12 & _). rewrite E3 in Ht. rewrite E12 in Hf. rewrite Ht in H7.
    unfold return_checks in H6. rewrite Hf in H6. passed H6. destruct H6 as (F1 & F2 & _ & _ & _ & F6 & _).
    eapply flag_on_return_type; [exact F1| | |exact H7]; [|by destruct (cache_none args)]. intros Hc. rewrite Hc in F2. by apply negb_false_iff.
  - unfold once_with, MacroOnce.emit in He. accepted He. injection He as <-. simpl in Hf, Ht. subst.
    repeat match goal with H : rejects _ = Done (Ok ?u) |- _ => destruct u; apply rejects_ok in H end.
    match goal with H : passes (MacroOnce.return_checks _ _) |- _ => unfold MacroOnce.return_checks in H; rewrite Hf in H; passed H;
      destruct H as (F1 & F2 & _ & F4 & _) end.
    eapply flag_on_return_type; [exact F1| | |eassumption]; [|by destruct (MacroOnce.cache_none args)].
    intros Hc. rewrite Hc in F2. by apply negb_false_iff.
Qed.
End Claims.

(** ** Demonstrations *)
Module Demo.
Import Toy.

(** [#[cached(cache_err = true, with_cached_flag = true)] fn load(..) -> Result<Return<u64>, ()>] *)
Definition flag_args : CachedMacroArgs :=
  MacroCached.mkArgs None false None None None None false None None None None None true false None None None true None None
    false false false None None None false None None.
Definition flagged_load : ItemFn :=
  mkFn [] "pub" false "load" [] [] (inputs load) (ReturnTy (generic1 "Result" [generic1 "Return" [u64]; TTuple []])).

(** It is accepted, and the value whose flag is set is a [Result]. *)
Lemma flagged_value_witness : exists e t,
  cached_with [] flag_args flagged_load = Done (Ok e) /\ flagged e = true /\ value_ty e = GType t /\ is_return t = false.
Proof.
  eexists _, _. split; [vm_compute; reflexivity|]. split; [reflexivity|]. split; [reflexivity|].
  edestruct (flagged_value (fun _ => []) [] flagged_load) as [H _]. eapply not_true_is_false. intros Hr.
  specialize (H flag_args _ ltac:(vm_compute; reflexivity) eq_refl eq_refl). apply H in Hr as [Hr _]. discriminate Hr.
Defined.
End Demo.
