(* ===== verification/MacroSharded.v ===== *)
(** * From the attributes of [#[concurrent_cached]] to what a function returns

    The sharded stores the default path of [#[concurrent_cached]] names, with their traits and builders,
    and the function its decisions select ([cached_proc_macro/src/concurrent_cached.rs]). *)
From Stdlib Require Import String.
From stdpp Require Import strings.
From S2P Require Import Prelude Keys Stores HashTable Lru Return Sharded Shards Concurrent LruShards ShardTtl MacroStores.
From S2P Require Import ShardedUnbound ShardedUnboundProps ShardedTtl ShardedTtlProps ShardedLru ShardedLruProps.
From S2P Require Import ShardedLruTtl ShardedLruTtlProps ShardedExpiring ShardedExpiringProps ShardedExpiringLru ShardedExpiringLruProps.
From S2P Require Import ConcurrentMemo Async ConcurrentMemoProps AsyncProps MacroSyntax MacroOnce MacroProps MacroCachedProps MacroConcurrent MacroConcurrentProps.
#[local] Close Scope string_scope.

(** A result with a value. *)
Definition is_Ok {E A} (r : result E A) : Prop := exists a, r = Ok a.

(** The counts given to a builder, which the code has as [usize]. *)
Definition count_given (call : BuilderCall) : Prop :=
  match call with CallMaxSize n | CallShards n => 0 <= n | _ => True end.

(** Calls that keep a property of the builder. *)
Lemma run_calls_keeps {B} (P : B -> Prop) (call : BuilderCall -> B -> option B) calls b b' :
  (forall c b b', count_given c -> P b -> call c b = Some b' -> P b') -> Forall count_given calls -> P b ->
  run_calls call calls b = Some b' -> P b'.
Proof.
  intros Hk Hc. revert b. induction Hc as [|c calls Hc1 _ IH]; intros b Hb; simpl; [by intros [= ->]|].
  destruct (call c b) as [b1|] eqn:E; [|done]. apply IH. by eapply Hk.
Qed.

(** What a builder makes keeps the contract of the traits, and is empty. *)
Definition lawful {D S G K V W} `{!KeyEq K, !ConcurrentCached D S G K V W, !ConcurrentCachePeek D S G K V W}
    (clone : option (ConcurrentCloneCached D S G K V W))
    (build : list BuilderCall -> option (outcome (result BuildError (D * Memory S G)))) : Prop :=
  forall calls c m, Forall count_given calls -> build calls = Some (Done (Ok (c, m))) ->
    exists L : Layout S G K V, ConcurrentLaws (W := W) c L /\ follows_map L m (fun _ => None) /\
      forall cc, clone = Some cc -> ConcurrentCloneLaws (W := W) c L.

(** A store: its traits and its builder. *)
Record ShardKit (K V W : Type) `{!KeyEq K} : Type := mkShardKit {
  handle : Type;
  shard_state : Type;
  globals_state : Type;
  sk_cached : ConcurrentCached handle shard_state globals_state K V W;
  sk_peek : ConcurrentCachePeek handle shard_state globals_state K V W;
  sk_clone : option (ConcurrentCloneCached handle shard_state globals_state K V W);
  sk_build : list BuilderCall -> option (outcome (result BuildError (handle * Memory shard_state globals_state)));
  sk_lawful : lawful sk_clone sk_build }.
Arguments mkShardKit {K V W _ handle shard_state globals_state sk_cached sk_peek}.
Arguments handle {K V W _}.
Arguments shard_state {K V W _}.
Arguments globals_state {K V W _}.
Arguments sk_cached {K V W _}.
Arguments sk_peek {K V W _}.
Arguments sk_clone {K V W _}.
Arguments sk_build {K V W _}.
Arguments sk_lawful {K V W _}.

Section Kits.
Context {K V W HT : Type} `{!KeyEq K, !KeyLaws K, !Clock W, !Expires V W, !HashTable HT, !HashTableLaws HT}.
Context (parallelism : option Z) (alloc : Z -> bool) (eval : Expr -> Z) (hash : K -> Z) (Hhash : hash_ok hash).

Definition unbound_calls (call : BuilderCall) (b : ShardedUnboundCacheBuilder K V W) : option (ShardedUnboundCacheBuilder K V W) :=
  match call with
  | CallShards n => Some (ShardedUnbound.builder_shards n b)
  | _ => None
  end.

Definition lru_calls (call : BuilderCall) (b : ShardedLruCacheBuilder K V W) : option (ShardedLruCacheBuilder K V W) :=
  match call with
  | CallMaxSize n => Some (ShardedLru.builder_max_size n b)
  | CallShards n => Some (ShardedLru.builder_shards n b)
  | _ => None
  end.

Definition ttl_calls (call : BuilderCall) (b : ShardedTtlCacheBuilder K V W) : option (ShardedTtlCacheBuilder K V W) :=
  match call with
  | CallTtl t => Some (ShardedTtl.builder_ttl (duration eval t) b)
  | CallShards n => Some (ShardedTtl.builder_shards n b)
  | CallRefreshOnHit r => Some (ShardedTtl.builder_refresh_on_hit r b)
  | _ => None
  end.

Definition lru_ttl_calls (call : BuilderCall) (b : ShardedLruTtlCacheBuilder K V W) : option (ShardedLruTtlCacheBuilder K V W) :=
  match call with
  | CallMaxSize n => Some (ShardedLruTtl.builder_max_size n b)
  | CallTtl t => Some (ShardedLruTtl.builder_ttl (duration eval t) b)
  | CallShards n => Some (ShardedLruTtl.builder_shards n b)
  | CallRefreshOnHit r => Some (ShardedLruTtl.builder_refresh_on_hit r b)
  | _ => None
  end.

Definition expiring_calls (call : BuilderCall) (b : ShardedExpiringCacheBuilder K V W) : option (ShardedExpiringCacheBuilder K V W) :=
  match call with
  | CallShards n => Some (ShardedExpiring.builder_shards n b)
  | _ => None
  end.

Definition expiring_lru_calls (call : BuilderCall) (b : ShardedExpiringLruCacheBuilder K V W) :
    option (ShardedExpiringLruCacheBuilder K V W) :=
  match call with
  | CallMaxSize n => Some (ShardedExpiringLru.builder_max_size n b)
  | CallShards n => Some (ShardedExpiringLru.builder_shards n b)
  | _ => None
  end.

(** A builder that is as its lemma wants it when the calls are over, and what it builds. *)
Ltac built_ok :=
  eapply run_calls_keeps; [|eassumption|..|eassumption];
  [ intros [] ? ? Hcg Hb0 [= <-]; destruct Hb0 as [Hs Hh]; (split; [|exact Hh]); unfold sizes_ok, nonneg in *; simpl in *; naive_solver
  | split; [done|by exists hash] ].
Definition unbound_build (calls : list BuilderCall) : option (outcome (result BuildError (ShardedUnboundCache K V W * _))) :=
  ShardedUnbound.build parallelism <$> run_calls unbound_calls calls (ShardedUnbound.builder hash).
Definition lru_build (calls : list BuilderCall) : option (outcome (result BuildError (ShardedLruCache K V W * Memory (LruCache K V W HT) _))) :=
  ShardedLru.build parallelism alloc <$> run_calls lru_calls calls (ShardedLru.builder hash).
Definition ttl_build (calls : list BuilderCall) : option (outcome (result BuildError (ShardedTtlCache K V W * _))) :=
  ShardedTtl.build parallelism <$> run_calls ttl_calls calls (ShardedTtl.builder hash).
Definition lru_ttl_build (calls : list BuilderCall) :
    option (outcome (result BuildError (ShardedLruTtlCache K V W * Memory (LruCache K (TimedEntry V) W HT) _))) :=
  ShardedLruTtl.build parallelism alloc <$> run_calls lru_ttl_calls calls (ShardedLruTtl.builder hash).
Definition expiring_build (calls : list BuilderCall) : option (outcome (result BuildError (ShardedExpiringCache K V W * _))) :=
  ShardedExpiring.build parallelism <$> run_calls expiring_calls calls (ShardedExpiring.builder hash).
Definition expiring_lru_build (calls : list BuilderCall) :
    option (outcome (result BuildError (ShardedExpiringLruCache K V W * Memory (LruCache K V W HT) _))) :=
  ShardedExpiringLru.build parallelism alloc <$> run_calls expiring_lru_calls calls (ShardedExpiringLru.builder hash).

Ltac run_out Hb b :=
  unfold unbound_build, lru_build, ttl_build, lru_ttl_build, expiring_build, expiring_lru_build in Hb;
  apply fmap_Some in Hb as (b & ? & Hb); symmetry in Hb.

Lemma unbound_lawful : lawful None unbound_build.
Proof.
  intros calls c m Hc Hb. run_out Hb b. assert (builder_ok b) as Hok by built_ok.
  destruct (built_follows parallelism b c m Hok Hb) as [Hd Hm]. exists (unbound_layout c Hd). split; [apply unbound_concurrent_laws|]. by split.
Qed.

Lemma lru_lawful : lawful None lru_build.
Proof.
  intros calls c m Hc Hb. run_out Hb b. assert (lru_builder_ok b) as Hok by built_ok.
  destruct (lru_built_follows parallelism alloc b c m Hok Hb) as (per & _ & _ & _ & HL). destruct (HL (fun _ => True) I) as [Hd Hm].
  eexists. split; [apply sharded_lru_laws|]. by split.
Qed.

Lemma ttl_lawful : lawful (Some ttl_clone_cached) ttl_build.
Proof.
  intros calls c m Hc Hb. run_out Hb b. assert (ttl_builder_ok b) as Hok by built_ok.
  destruct (ttl_built_follows parallelism b c m Hok Hb) as [Hd Hm]. exists (ttl_layout c Hd). split; [apply sharded_ttl_laws|].
  split; [exact Hm|]. intros cc [= <-]. apply sharded_ttl_clone_laws.
Qed.

Lemma lru_ttl_lawful : lawful (Some lru_ttl_clone_cached) lru_ttl_build.
Proof.
  intros calls c m Hc Hb. run_out Hb b. assert (lru_ttl_builder_ok b) as Hok by built_ok.
  destruct (lru_ttl_built_follows parallelism alloc b c m Hok Hb) as [Hd Hm]. eexists. split; [apply sharded_lru_ttl_laws|].
  split; [exact Hm|]. intros cc [= <-]. apply sharded_lru_ttl_clone_laws.
Qed.

Lemma expiring_lawful : lawful (Some expiring_clone_cached) expiring_build.
Proof.
  intros calls c m Hc Hb. run_out Hb b. assert (expiring_builder_ok b) as Hok by built_ok.
  destruct (expiring_built_follows parallelism b c m Hok Hb) as [Hd Hm]. exists (expiring_layout c Hd). split; [apply sharded_expiring_laws|].
  split; [exact Hm|]. intros cc [= <-]. apply sharded_expiring_clone_laws.
Qed.

Lemma expiring_lru_lawful : lawful (Some expiring_lru_clone_cached) expiring_lru_build.
Proof.
  intros calls c m Hc Hb. run_out Hb b. assert (exp_lru_builder_ok b) as Hok by built_ok.
  destruct (exp_lru_built_follows parallelism alloc b c m Hok Hb) as [Hd Hm]. eexists. split; [apply sharded_expiring_lru_laws|].
  split; [exact Hm|]. intros cc [= <-]. apply sharded_expiring_lru_clone_laws.
Qed.

(** The sharded stores. *)
Definition shard_kit (s : Store.Name) : option (ShardKit K V W) :=
  match s with
  | Store.ShardedUnboundCache => Some (mkShardKit _ _ unbound_lawful)
  | Store.ShardedLruCache => Some (mkShardKit _ _ lru_lawful)
  | Store.ShardedTtlCache => Some (mkShardKit _ _ ttl_lawful)
  | Store.ShardedLruTtlCache => Some (mkShardKit _ _ lru_ttl_lawful)
  | Store.ShardedExpiringCache => Some (mkShardKit _ _ expiring_lawful)
  | Store.ShardedExpiringLruCache => Some (mkShardKit _ _ expiring_lru_lawful)
  | _ => None
  end.
End Kits.

(** ** The function *)

(** How the returns of the expansion treat a result: whole, its [Ok] or [Some], or what a [Return] holds. *)
Inductive unwraps : bool -> bool -> bool -> forall R V, Return.Returns R V -> Prop :=
| unwraps_plain V : unwraps false false false V V (plain_returns V)
| unwraps_result E V : unwraps true false false (result E V) V (result_returns E V)
| unwraps_option V : unwraps false true false (option V) V (option_returns V)
| unwraps_flagged T : unwraps false false true (Return T) T (unwrapped_returns T)
| unwraps_flagged_result E T : unwraps true false true (result E (Return T)) T (unwrapped_result E T)
| unwraps_flagged_option T : unwraps false true true (option (Return T)) T (unwrapped_option T).

Lemma unwraps_laws sr so R V HR : unwraps sr so false R V HR -> @ReturnsLaws R V HR.
Proof. remember false as fl. destruct 1; done || apply plain_returns_laws || apply result_returns_laws || apply option_returns_laws. Qed.

Section Function.
Context {K V W A R : Type} `{!KeyEq K, HR : !Return.Returns R V}.
Context (eval_key : KeyBlock -> A -> K) (eval_guard : Block -> A -> User W bool).
Context (pauses : A -> list (User W unit)) (body : A -> User W R).

(** [.expect(..)] of an [Infallible] error. *)
Definition never (e : Empty_set) : User W R := match e with end.

(** The function and its priming companion, over a store; [None] where the store lacks a trait.  A function
    that is not [async] does not suspend. *)
Definition generated (k : ShardKit K V W) (e : ConcurrentFn) :
    option (handle k -> A * bool -> Prog (shard_state k) (globals_state k) W (A * R)) :=
  let cached : ConcurrentCached (handle k) (shard_state k) (globals_state k) K V W := sk_cached k in
  let convert := eval_key (key_block e) in
  let force_refresh := eval_guard <$> refresh_block e in
  let store : MemoStore (handle k) (shard_state k) (globals_state k) K V W Empty_set :=
    if async_static e then async_infallible_store else infallible_store in
  let pauses := if async_static e then pauses else fun _ => [] in
  if fallback e then
    (fun cc : ConcurrentCloneCached (handle k) (shard_state k) (globals_state k) K V W =>
       fun d => fallback_call d convert force_refresh pauses body never) <$> sk_clone k
  else Some (fun d => memo_call d convert force_refresh pauses body never).
End Function.

(** The store a function uses keeps the contract, asynchronous or not. *)
Definition kit_memo {K V W} `{!KeyEq K, !KeyLaws K} (k : ShardKit K V W) (is_async : bool) (d : handle k) (L : Layout (shard_state k) (globals_state k) K V)
    (HL : @ConcurrentLaws _ _ _ _ _ _ _ (sk_cached k) (sk_peek k) d L) :
  MemoLaws (MemoStore0 := if is_async then @async_infallible_store _ _ _ _ _ _ (sk_cached k) else @infallible_store _ _ _ _ _ _ (sk_cached k))
    d L same_key all_valid :=
  match is_async with
  | true => @sharded_async_memo _ _ _ _ _ _ _ (sk_cached k) (sk_peek k) d L HL _
  | false => @sharded_memo _ _ _ _ _ _ _ _ (sk_cached k) (sk_peek k) d L HL
  end.

Section Demands.
Context {HS : Syn}.

(** What an accepted expansion over the default stores demands of its store. *)
Lemma concurrent_demands attr_args args f e : concurrent_cached_with attr_args args f = Done (Ok e) -> infallible e = true ->
  exists s kt t calls, cache_ty e = StoreOf s kt (value_ty e) /\ cache_create e = Builder s NoArg calls false /\
    sharded_store (expires args) (refresh args) (max_size args) (shards args) t = (s, calls) /\
    match t with Some t => ttl_given (ttl args) (ttl_secs args) (ttl_millis args) t | None => True end /\
    (fallback e = true -> flagged e = false /\ (expires args = true \/ is_some t = true)).
Proof.
  intros (t & k & kb & v & id & inf & [cty cc] & me & _ & _ & H3 & _ & H5 & _ & _ & _ & H9 & H10 & _ & H12)%concurrent_with_ok.
  apply concurrent_emit_ok in H12 as (E1 & E2 & E3 & _ & _ & _ & E7 & _ & _ & _ & E11 & E12 & _). rewrite E1, E2, E3, E7, E11, E12.
  intros ->. apply select_concurrent_ok in H9. simpl in H9. inversion H9 as [s calls _ _ _ _ Hs| | |]; subst. simpl.
  exists s, k, t, calls. split_and!; [done..|by destruct t|]. intros Hf. unfold return_checks, store_demand_checks in *. passed H5. passed H10.
  rewrite Hf in *. simpl in *. destruct H5 as (_ & _ & _ & _ & R5 & _). destruct H10 as (_ & _ & _ & _ & D5 & _).
  split; [done|]. destruct (expires args); [by left|right]. by destruct (is_some t).
Qed.
End Demands.

Section Stores.
Context {K V W HT : Type} `{!KeyEq K, !KeyLaws K, !Clock W, !Expires V W, !HashTable HT, !HashTableLaws HT}.
Context (parallelism : option Z) (alloc : Z -> bool) (eval : Expr -> Z) (hash : K -> Z) (Hhash : hash_ok hash).

(** Every store of the table is one of the sharded stores, and its builder has every method called. *)
Lemma sharded_kits expires refresh max_size shards t s calls : sharded_store expires refresh max_size shards t = (s, calls) ->
  (forall n, max_size = Some n -> 0 <= n) -> (forall n, shards = Some n -> 0 <= n) ->
  exists k, shard_kit (V := V) (W := W) (HT := HT) parallelism alloc eval hash Hhash s = Some k /\
    Forall count_given calls /\ is_some (sk_build k calls) = true /\
    (expires = true \/ is_some t = true -> is_some (sk_clone k) = true).
Proof.
  intros Hs Hn Hc. unfold sharded_store in Hs.
  assert (Forall count_given (match max_size with Some n => [CallMaxSize n] | None => [] end)) as F1.
  { destruct max_size; [|constructor]. constructor; [by apply Hn|constructor]. }
  assert (Forall count_given (match shards with Some n => [CallShards n] | None => [] end)) as F2.
  { destruct shards; [|constructor]. constructor; [by apply Hc|constructor]. }
  destruct expires, max_size as [n|], t as [d|]; injection Hs as <- <-;
    (eexists; split; [reflexivity|]; split; [repeat first [exact F1|exact F2|apply Forall_app_2|constructor|by apply Hn]|]; split;
     [by destruct shards|by intros [?|?]]).
Qed.

(** How many shards there are: the power of two at or above the count asked for, or one chosen by size. *)
Definition shards_used (max_size shards : option Z) : Z :=
  match shards with Some n => next_power_of_two n | None => default_shard_count_for_capacity parallelism max_size end.

(** What one of [n] shards holds at most, when the store is to hold [size] entries. *)
Definition shard_share (size n : Z) : Z := if 1 <? n then Z.max (div_ceil size n) 16 else size.

(** The sizes that can be had: a shard count with a power of two in [usize] above it; a positive [max_size]
    whose division over the shards fits [usize], and memory for the share of a shard. *)
Definition sizes_granted (max_size shards : option Z) : Prop :=
  (forall n, shards = Some n -> 1 <= n <= 2 ^ 63) /\
  forall size, max_size = Some size -> 1 <= size /\
    let n := shards_used max_size shards in
    n * shard_share size n <= usize_max /\ roomy (HT := HT) alloc (shard_share size n).

Lemma next_power_fits n : 0 <= n -> (next_power_of_two n <=? usize_max) = (n <=? 2 ^ 63).
Proof.
  intros Hn. destruct (Z.leb_spec n (2 ^ 63)) as [Hle|Hgt].
  - apply Z.leb_le. transitivity (next_power_of_two (2 ^ 63)); [by apply next_power_mono|]. rewrite next_power_of_power by lia. unfold usize_max. lia.
  - apply Z.leb_gt. unfold next_power_of_two, usize_max. pose proof (proj1 (Z.log2_up_lt_pow2 n 63 ltac:(lia))) as H.
    assert (64 <= Z.log2_up n) as H64. { destruct (Z.lt_ge_cases (Z.log2_up n) 64); [|done]. assert (Z.log2_up n <= 63) as H1 by lia.
      pose proof (Z.log2_up_spec n ltac:(lia)) as [_ H2]. pose proof (Z.pow_le_mono_r 2 _ _ ltac:(lia) H1). lia. }
    pose proof (Z.pow_le_mono_r 2 _ _ ltac:(lia) H64). lia.
Qed.

Lemma shard_count_granted shards : (forall n, shards = Some n -> 0 <= n) ->
  (is_Ok (checked_shard_count parallelism shards) <-> forall n, shards = Some n -> 1 <= n <= 2 ^ 63) /\
  forall n, checked_shard_count parallelism shards = Ok n -> n = shards_used None shards.
Proof.
  intros Hc. unfold checked_shard_count, checked_next_power_of_two. destruct shards as [n|]; simpl.
  - specialize (Hc n eq_refl). rewrite next_power_fits by done. destruct (bool_decide_reflect (Some n = Some 0)) as [[= ->]|Hn].
    { split; [|done]. split; [by intros [? ?]|]. intros H. specialize (H 0 eq_refl). lia. }
    assert (n <> 0) as Hn' by (intros ->; done). destruct (Z.leb_spec n (2 ^ 63)).
    + split; [|by intros ? [= <-]]. split; [intros _ ? [= <-]; lia|by eexists].
    + split; [|done]. split; [by intros [? ?]|]. intros H1. specialize (H1 n eq_refl). lia.
  - destruct (default_shard_count_spec parallelism) as [(j & Hj & Ej) Hb].
    assert (next_power_of_two (default_shard_count parallelism) = default_shard_count parallelism) as ->.
    { rewrite Ej. by apply next_power_of_power. }
    destruct (Z.leb_spec (default_shard_count parallelism) usize_max) as [|Hlt]; [|unfold usize_max in Hlt; lia].
    split; [|by intros ? [= <-]]. split; [done|by eexists].
Qed.

Lemma shards_used_pos max_size shards : 0 < shards_used max_size shards.
Proof.
  unfold shards_used. destruct shards as [k|].
  - destruct (next_power_is_power k) as (j & Hj & ->). by apply Z.pow_pos_nonneg.
  - unfold default_shard_count_for_capacity, clamp. destruct (default_shard_count_spec parallelism) as [_ ?]. destruct max_size; lia.
Qed.

Lemma shards_granted {E} (cb : OnEvict K E W) per n : 0 < per ->
  is_Ok (build_shards (HT := HT) alloc cb per (S n)) <-> roomy (HT := HT) alloc per.
Proof.
  intros Hp. assert (is_Ok (build_shard (HT := HT) alloc cb per) <-> roomy (HT := HT) alloc per) as Hone.
  { unfold build_shard, Lru.build, roomy. simpl. destruct (Z.eqb_spec per 0) as [|_]; [lia|].
    destruct (ht_try_reserve ht_new per) as [t|]; [|split; [by intros [? ?]|by intros (_ & _ & _ & ? & ?)]].
    unfold LruList.try_with_capacity, checked_add. destruct (Z.leb_spec (per + 2) usize_max).
    2: { split; [by intros [? ?]|]. intros (_ & ? & _). lia. }
    destruct (alloc (per + 2)); [|split; [by intros [? ?]|by intros (_ & _ & ? & _)]].
    split; [|by eexists]. intros _. split_and!; [lia|done|done|by eexists]. }
  split.
  - intros [l H]. apply Hone. simpl in H. destruct (build_shard alloc cb per); [by eexists|done].
  - intros Hr%Hone. destruct Hr as [s Hs]. assert (forall n, is_Ok (build_shards (HT := HT) alloc cb per n)) as H; [|apply H].
    intros m. induction m as [|m [l IH]]; [by eexists|]. simpl. rewrite Hs, IH. by eexists.
Qed.


Lemma div_ceil_1 n : div_ceil n 1 = n.
Proof. unfold div_ceil. rewrite Z.div_1_r, Z.mod_1_r. simpl. lia. Qed.

Lemma share_pos size n : 1 <= size -> 0 < n -> 0 < shard_share size n.
Proof.
  intros Hs Hn. unfold shard_share. destruct (1 <? n); lia.
Qed.

Lemma resolved_sizes size shards : 0 <= size -> (forall n, shards = Some n -> 0 <= n) ->
  let n := shards_used (Some size) shards in
  (is_Ok (resolve_sizes parallelism shards (Some size) None) <->
     (forall k, shards = Some k -> 1 <= k <= 2 ^ 63) /\ 1 <= size /\ n * shard_share size n <= usize_max) /\
  forall x, resolve_sizes parallelism shards (Some size) None = Ok x -> x = (n, shard_share size n, n * shard_share size n).
Proof.
  intros Hs Hc n. destruct (shard_count_granted shards Hc) as [Hg Hv]. unfold resolve_sizes.
  assert ((is_Ok (resolve_shard_count parallelism shards (Some size)) <-> forall k, shards = Some k -> 1 <= k <= 2 ^ 63) /\
    forall m, resolve_shard_count parallelism shards (Some size) = Ok m -> m = n) as [Hg' Hv'].
  { destruct shards as [k|]; [by split|]. simpl. split; [split; [done|by eexists]|]. by intros m [= <-]. }
  destruct (resolve_shard_count parallelism shards (Some size)) as [m|e].
  2: { split; [|done]. split; [by intros [? ?]|]. intros [[? ?]%Hg' _]. done. }
  rewrite (Hv' m eq_refl). unfold resolve_per_shard_cap. destruct (Z.eqb_spec size 0) as [->|Hz].
  { split; [|done]. split; [by intros [? ?]|]. lia. }
  assert ((if 1 <? n then Z.max (div_ceil size n) 16 else div_ceil size n) = shard_share size n) as ->.
  { unfold shard_share. destruct (Z.ltb_spec 1 n) as [|Hle]; [done|]. assert (n = 1) as ->; [|apply div_ceil_1].
    pose proof (shards_used_pos (Some size) shards : 0 < n). lia. }
  simpl. unfold total_capacity, checked_mul. destruct (Z.leb_spec (n * shard_share size n) usize_max).
  - split; [|by intros x [= <-]]. split; [|by eexists]. intros _. split_and!; [|lia|done]. apply Hg'. by eexists.
  - split; [|done]. split; [by intros [? ?]|]. lia.
Qed.

(** Sizes anyone would ask for: they are granted where there is memory. *)
Lemma moderate_sizes_granted max_size shards :
  (forall n, shards = Some n -> 1 <= n <= 2 ^ 59) ->
  (forall size, max_size = Some size -> 1 <= size <= 2 ^ 62 /\ forall n, 1 <= n <= Z.max size 16 -> roomy (HT := HT) alloc n) ->
  sizes_granted max_size shards.
Proof.
  intros Hc Hs. split; [intros n E; specialize (Hc n E); lia|]. intros size E. destruct (Hs size E) as [Hz Hr]. split; [lia|]. intros n.
  assert (1 <= n <= 2 ^ 59) as Hn.
  { unfold n, shards_used. destruct shards as [k|]; simpl.
    - specialize (Hc k eq_refl). split; [pose proof (next_power_le k); lia|].
      rewrite <- (next_power_of_power 59) by lia. apply next_power_mono. lia.
    - destruct (default_shard_count_spec parallelism) as [_ ?]. subst max_size. simpl. unfold clamp. lia. }
  assert (1 <= shard_share size n <= Z.max size 16 /\ n * shard_share size n <= usize_max) as [H1 H2].
  { unfold shard_share, usize_max. destruct (Z.ltb_spec 1 n); [|assert (n = 1) as -> by lia; lia].
    pose proof (div_ceil_spec size n ltac:(lia) ltac:(lia)) as Ed. pose proof (Z.mod_pos_bound (- size) n ltac:(lia)).
    destruct (Z.max_spec (div_ceil size n) 16) as [[? ->]|[? ->]]; nia. }
  split; [done|]. by apply Hr.
Qed.

(** What the builders make of the number of shards, and of the sizes. *)
Lemma counted_builds {R} shards (end_ : Z -> R) : (forall n, shards = Some n -> 0 <= n) ->
  exists r, match checked_shard_count parallelism shards with Err e => Done (Err e) | Ok n => Done (Ok (end_ n)) end = Done r /\
    (is_Ok r <-> sizes_granted None shards).
Proof.
  intros Hc. destruct (shard_count_granted shards Hc) as [Hg _]. unfold sizes_granted.
  destruct (checked_shard_count parallelism shards) as [n|e]; eexists; (split; [reflexivity|]).
  - split; [|by eexists]. intros _. split; [|done]. apply Hg. by eexists.
  - split; [by intros [? ?]|]. intros [[? ?]%Hg _]. done.
Qed.

Lemma sized_builds {E R} size shards (cb : OnEvict K E W) (end_ : Z -> Z -> Z -> _ -> R) : 0 <= size -> (forall n, shards = Some n -> 0 <= n) ->
  exists r, match resolve_sizes parallelism shards (Some size) None with
    | Err e => Done (Err e)
    | Ok (n, per, total) =>
        match build_shards (HT := HT) alloc cb per (Z.to_nat n) with Err e => Done (Err e) | Ok l => Done (Ok (end_ n per total l)) end
    end = Done r /\ (is_Ok r <-> sizes_granted (Some size) shards).
Proof.
  intros Hm Hc. destruct (resolved_sizes size shards Hm Hc) as [Hg Hx]. unfold sizes_granted.
  destruct (resolve_sizes parallelism shards (Some size) None) as [[[n per] total]|e].
  2: { eexists. split; [reflexivity|]. split; [by intros [? ?]|]. intros [H1 H2]. destruct (H2 size eq_refl) as (H3 & H4 & _).
       destruct (proj2 Hg) as [? ?]; done. }
  destruct (proj1 Hg) as (H1 & H2 & H3); [by eexists|]. injection (Hx _ eq_refl) as -> -> ->.
  pose proof (shards_used_pos (Some size) shards) as Hn. set (n := shards_used (Some size) shards) in *.
  destruct (Z.to_nat n) as [|n'] eqn:En; [lia|].
  pose proof (shards_granted cb (shard_share size n) n' (share_pos size n H2 Hn)) as Hb.
  destruct (build_shards alloc cb (shard_share size n) (S n')) as [l|e]; eexists; (split; [reflexivity|]).
  - split; [|by eexists]. intros _. split; [done|]. intros ? [= <-]. split_and!; [done..|]. apply Hb. by eexists.
  - split; [by intros [? ?]|]. intros [_ H4]. destruct (H4 size eq_refl) as (_ & _ & H5). by apply Hb in H5 as [? ?].
Qed.

(** The builders of the table return, with a store exactly if the sizes are granted. *)
Lemma sharded_builds expires refresh max_size shards t s calls k :
  sharded_store expires refresh max_size shards t = (s, calls) ->
  shard_kit (V := V) (W := W) (HT := HT) parallelism alloc eval hash Hhash s = Some k ->
  (forall n, max_size = Some n -> 0 <= n) -> (forall n, shards = Some n -> 0 <= n) ->
  (forall d, t = Some d -> duration eval d <> 0) ->
  exists r, sk_build k calls = Some (Done r) /\ (is_Ok r <-> sizes_granted max_size shards).
Proof.
  intros Hs Hk Hm Hc Ht.
  assert (forall d, t = Some d -> validate_ttl (duration eval d) = Ok tt) as Hv.
  { intros d Hd. unfold validate_ttl. destruct (Z.eqb_spec (duration eval d) 0) as [E|]; [by destruct (Ht d Hd)|done]. }
  unfold sharded_store in Hs.
  destruct expires, max_size as [size|], t as [d|]; injection Hs as <- <-; injection Hk as <-;
    try specialize (Hm size eq_refl); try specialize (Hv d eq_refl); destruct shards as [n0|];
    lazymatch goal with
    | |- context [sizes_granted (Some ?size) ?sh] => pose proof (fun E R cb end_ => sized_builds (E := E) (R := R) size sh cb end_ Hm Hc) as Hb
    | |- context [sizes_granted None ?sh] => pose proof (fun R end_ => counted_builds (R := R) sh end_ Hc) as Hb
    end; clear Hc; simpl;
    unfold unbound_build, lru_build, ttl_build, lru_ttl_build, expiring_build, expiring_lru_build; simpl;
    unfold ShardedUnbound.build, ShardedLru.build, ShardedTtl.build, ShardedLruTtl.build, ShardedLruTtl.validated_parts,
      ShardedExpiring.build, ShardedExpiringLru.build; simpl; try rewrite Hv;
    edestruct Hb as (r & E & Hr); exists r; (split; [f_equal|exact Hr]); try exact E;
    rewrite <- E; destruct (resolve_sizes _ _ _ _) as [[[? ?] ?]|?]; reflexivity.
Qed.

End Stores.

(** What is promised of a function over a built store: its calls end, and return what the body did. *)
Definition delivers {S G W A R V} `{!Return.Returns R V} (body : A -> User W R) (same : A -> A -> Prop)
    (call : A * bool -> Prog S G W (A * R)) (m : Memory S G) : Prop :=
  forall w,
    (forall g : Config S G W (A * R), Acc next g) /\
    forall g, reachable call m w g ->
      ((forall t, step t g = None) -> Forall finished (threads g) /\ forall i, locks g i = Readers []) /\
      forall t a r, threads g !! t = Some (Ret (a, r)) ->
        exists a' r', same a' a /\ may_return (body a') r' /\ comes_from r r'.

Section Delivers.
Context {D S G K V W A R : Type} `{!KeyEq K, !KeyLaws K, !MemoStore D S G K V W Empty_set, HR : !Return.Returns R V}.
Context (d : D) (L : Layout S G K V) `{!MemoLaws (W := W) d L same_key all_valid}.
Context (convert : A -> K) (force_refresh : option (A -> User W bool)) (pauses : A -> list (User W unit)).
Context (body : A -> User W R) (m : Memory S G) (Hm : follows_map L m (fun _ => None)).

Lemma delivers_implements (call : A * bool -> Prog S G W (A * R)) spec :
  implements L call spec m (fun _ => None) ->
  (forall q, stays L (all_valid (produced (same := same_key) convert body))
     (fun p => justified (same := same_key) convert body (never (R := R)) p.1 p.2) (spec q)) ->
  delivers body (fun a' a => keq (convert a') (convert a) = true) call m.
Proof.
  intros Hi Hst w. destruct (Hi w) as (_ & Hacc & Hend). split; [exact Hacc|]. intros g Hr. split; [by apply Hend|]. intros t a r Ht.
  destruct (implements_results L call spec (all_valid (produced (same := same_key) convert body))
    (fun p => justified (same := same_key) convert body (never (R := R)) p.1 p.2) m (fun _ => None) w g) as [_ Hret];
    [done|done|done|done|]. destruct (Hret t (a, r) Ht) as [Hj|([] & _)]. exact Hj.
Qed.

Lemma memo_delivers : delivers body (fun a' a => keq (convert a') (convert a) = true)
  (memo_call d convert force_refresh pauses body never) m.
Proof.
  eapply delivers_implements; [apply safe_implements; [apply (memo_call_safe d L)|exact Hm]|].
  intros [a []]; [apply (sound_compute_spec d L)|apply (sound_memo_spec d L)]; intros r' Hj ? <-; exact Hj.
Qed.

Lemma fallback_delivers `{!ReturnsLaws R V, !ConcurrentCloneCached D S G K V W, !ConcurrentCloneLaws (W := W) d L} :
  delivers body (fun a' a => keq (convert a') (convert a) = true) (fallback_call d convert force_refresh pauses body never) m.
Proof.
  eapply delivers_implements; [apply safe_implements; [apply (fallback_call_safe d L)|exact Hm]|].
  intros [a []]; [apply (sound_compute_spec d L)|apply (sound_fallback_spec d L)]; intros r' Hj ? <-; exact Hj.
Qed.
End Delivers.

Section EndToEnd.
Context {HS : Syn} {K V W HT A R : Type}.
Context `{!KeyEq K, !KeyLaws K, !Clock W, !Expires V W, !HashTable HT, !HashTableLaws HT, HR : !Return.Returns R V}.
Context (parallelism : option Z) (alloc : Z -> bool) (eval : Expr -> Z) (hash : K -> Z) (Hhash : hash_ok hash).
Context (eval_key : KeyBlock -> A -> K) (eval_guard : Block -> A -> User W bool).
Context (pauses : A -> list (User W unit)) (body : A -> User W R).

End EndToEnd.

(** ** Demonstrations *)
Module Demo.
Import Tick Toy.
#[local] Instance deadline : Expires Z Tick.t := {| is_expired v w := (Some (v <=? Tick.time w), w) |}.
#[local] Existing Instance result_returns.

(** [#[concurrent_cached(ttl_secs = 60, refresh = true, result_fallback = true, max_size = 1000, shards = 4)]] *)
Definition concurrent_args : ConcurrentCachedArgs :=
  MacroConcurrent.mkArgs None false None false None None None (Some 60) None None None None true None None false false false true None None
    None (Some 1000) (Some 4) false None None None false.

Lemma demo_room size : Some 1000 = Some size -> 1 <= size <= 2 ^ 62 /\
  forall n, 1 <= n <= Z.max size 16 -> roomy (HT := ListTable.t) (fun _ => true) n.
Proof.
  intros [= <-]. split; [lia|]. intros n Hn. split_and!; [lia|unfold usize_max; lia|done|].
  exists ht_new. simpl. by rewrite (proj2 (Z.leb_le _ _)) by lia.
Qed.

Definition the_key (_ : KeyBlock) (a : TaggedKey.t) : TaggedKey.t := a.
Definition the_guard (_ : Block) (_ : TaggedKey.t) : User Tick.t bool := fun w => (Some false, w).
Definition the_pauses (_ : TaggedKey.t) : list (User Tick.t unit) := [].
(** Ten times the number of the key; from the time 5 on, an error. *)
Definition the_body (a : TaggedKey.t) : User Tick.t (result unit Z) :=
  fun w => (Some (if time w <? 5 then Ok (TaggedKey.id a * 10) else Err tt), w).

End Demo.
